(* ===== verification/_CoqProject ===== *)
-Q . S2P
Prelude.v
RustStr.v
Shape.v
Moniker.v
MonikerFacts.v
Uri.v
UriFacts.v
CodeGraph.v
CodeGraphFacts.v
GraphCodec.v
GraphCodecFacts.v
StrFacts.v
Path.v
PathFacts.v
DslAst.v
DslCursor.v
DslAtom.v
DslParse.v
DslTyping.v
DslFacts.v
DslTheorems.v
Syntax.v
Suppress.v
SuppressFacts.v
EvalCore.v
EvalValue.v
EvalDomain.v
EvalProject.v
EvalCollection.v
EvalMetrics.v
EvalLayout.v
Eval.v
EvalDet.v
EvalWalkFacts.v
EvalCollectionFacts.v
EvalMetricsFacts.v
EvalLayoutFacts.v
EvalFacts.v
EvalTotal.v
ConfigData.v
Aliases.v
AliasFacts.v
Config.v
Fragments.v
Check.v
CheckFacts.v
ReportFacts.v
EvalTheorems.v
DocFacts.v
ConfigFacts.v
Snapshot.v
Bitmap.v
Inventory.v
InventoryInv.v
InventoryFacts.v
InventoryTheorems.v
LinkIndex.v
LinkIndexFacts.v
LinkDecision.v
LinkCatalog.v
Postings.v
Paths.v
PathSets.v
LinkDecisionFacts.v
LinkCatalogFacts.v
PathWalk.v
PathTheorems.v
CorridorFacts.v
Indexed.v
IndexedFacts.v
WorkspaceRules.v
GroupRules.v
LinkageRules.v
PathRules.v
WorkspaceEval.v
SymbolRuleFacts.v
GroupFacts.v
LinkageFacts.v
PathRuleFacts.v
IncrementalFacts.v
