(* ===== verification/Prelude.v ===== *)
(** * code-moniker: a verification development of its core

    code-moniker indexes source code: an extractor turns every file into a code
    graph, whose nodes are named by monikers; graphs are stored in a binary
    layout; monikers are printed as URIs; a workspace publishes the records of
    all the files as a snapshot, with indexes over its symbols and over the
    references that were resolved between files; and a rule language, the check
    DSL, states properties of one graph or of the whole workspace. This library
    models the crate [core], the crate [check] and the snapshots of the crate
    [workspace] as far as their logic goes without input and output, and proves
    what the rest of the program relies on. Paths below are those of
    src/crates/<crate>/src/.

    ** The parts and how they interact

    - [Prelude] (this file): outcomes of Rust functions ([res]), the state
      monad of methods ([ST]), bytes and little-endian words, shared lemmas and
      tactics. [RustStr]: what the program uses of Rust's [str], [char], number
      parsing and, in its module [F64], [f64]. It is the standard library of the
      language and maps to no file.
    - [Shape] (core/kinds.rs, core/shape.rs): the kinds of definitions and
      references, and the table that gives a kind its shape and tells whether
      it opens a scope.
    - [Moniker] (core/moniker/): the encoded moniker, its view and segment
      iterator, the builder, and the queries [is_ancestor_of], [parent],
      [bind_match], [with_bare_last_segment]. [MonikerFacts], with its module
      [BindFacts], relates the bytes to a project and a path of segments.
    - [Uri] (core/uri/): the textual form; [UriFacts] gives its grammar.
    - [CodeGraph] (core/code_graph/mod.rs): the graph. Its state is the records,
      the lookup index that [find_def] rebuilds when its size is wrong, and the
      two cached listings; the locks that guard them are never nested, so a
      method is one step of the state. [CodeGraphFacts] refines it to the
      records alone and proves the invariants of the graphs that can be built.
    - [GraphCodec] (core/code_graph/encoding.rs): the binary layout;
      [GraphCodecFacts] its round trips.
    - [Path] (check/path.rs): path patterns over monikers; [PathFacts].
    - The rule language (check/expr/): [DslAst] (ast.rs and the searches of
      mod.rs and domain.rs), [DslCursor] (cursor.rs), [DslAtom] (pairs.rs,
      metrics.rs and the parts of number.rs, collection.rs, domain.rs and
      atom.rs that do not call the parser back), [DslParse] (parse.rs, value.rs
      and the rest of those files). [StrFacts] and [DslFacts] carry the proofs,
      [DslTyping] says when a tree is well typed, and [DslTheorems] has the
      induction on trees and the results.
    - Files and lines: [Syntax] (core/lang/document.rs and the table of
      languages of core/lang/mod.rs); [Suppress], whose modules [Lines]
      (workspace/lines.rs), [Report] (severities and violations) and [Suppress]
      (check/suppress.rs) give the lines of a text, what a check reports and
      what directives silence; [SuppressFacts].
    - The evaluator of rules over one graph (check/eval/): [EvalCore] (the
      context, its indexes and its caches), [EvalValue] (value.rs, and the walk
      over a tree of mod.rs in its module [EvalWalk]), [EvalDomain] and
      [EvalProject] (local.rs), [EvalCollection] (collection.rs), [EvalMetrics]
      (stats.rs, metrics.rs), [EvalLayout] (layout.rs), [Eval] (pairs.rs and the
      evaluators of mod.rs, which call each other back). [EvalDet], with its
      module [EvalScope], says what a computation that does not depend on the
      caches is, and when items are in scope; [EvalWalkFacts],
      [EvalCollectionFacts], [EvalMetricsFacts], [EvalLayoutFacts], [EvalFacts]
      and [EvalTotal] carry the proofs, part by part, and [EvalTheorems] has the
      results.
    - The configuration (check/config/): [ConfigData] (data, errors, merging,
      origins of rules), [Aliases] (expansion and substitution) with
      [AliasFacts], [Config] (validation, views, profiles), [Fragments]
      (fragments.rs and the loading of sources), [ConfigFacts].
    - [Check] (check/eval/mod.rs): the compilation of a configuration, the
      evaluation of every compiled rule over a graph, and its reports;
      [CheckFacts], whose module [Sample] is the graph and the rules that
      witnesses evaluate, [ReportFacts], [DocFacts].

    - The records of a snapshot (workspace/snapshot/): [Snapshot] (records.rs and
      model.rs: sharded tables of records, identifiers and their texts, the
      outcome of linkage). [Bitmap]: the interface of compressed bitmaps and the
      short texts of monikers (environment.rs, code/symbols.rs).
    - The symbol inventory (snapshot/inventory/): [Inventory], ordinals and
      posting lists by facet, with [build] and [refresh]; [InventoryInv],
      [InventoryFacts] and [InventoryTheorems] keep its invariant and compare a
      refreshed inventory with a new one.
    - The read index of linkage (snapshot/model.rs, linkage/catalog/ordinals.rs):
      [LinkIndex], [LinkIndexFacts].
    - Decisions of linkage (workspace/linkage/binding/decision.rs, projection.rs,
      restore.rs) and candidates (linkage/catalog/candidate.rs, query.rs):
      [LinkDecision], over the files and the identities of an index, publishes
      what linkage decides of each reference and reads it back from a snapshot;
      [LinkCatalog] keeps the definitions that a reference may name, by moniker,
      by language and by file, as files change. [LinkDecisionFacts] and
      [LinkCatalogFacts] have their theorems.
    - Bounded paths and corridors (snapshot/path.rs): [Postings] (the merge
      iterators) and [Paths] (the engine); [PathSets], [PathWalk],
      [PathTheorems] and [CorridorFacts] relate a walk, with its limits, to the
      graph of the resolved references.
    - Indexed predicates (check/eval/indexed.rs, indexed/validate.rs): [Indexed],
      the evaluation of structural rules over the published index;
      [IndexedFacts].
    - The rules of a workspace (check/workspace_eval.rs and workspace_eval/):
      [WorkspaceRules] (rules on symbols, answered by posting lists),
      [GroupRules] (group.rs, group/predicate.rs), [LinkageRules] (linkage.rs,
      structure.rs), [PathRules] (path_rule.rs), and [WorkspaceEval]: the
      evaluation of them all, incremental.rs, the part on symbols of the
      difference of two indexes (workspace/code/index.rs), and the runner of
      check/workspace.rs with the state it keeps. [SymbolRuleFacts],
      [GroupFacts], [LinkageFacts], [PathRuleFacts] and [IncrementalFacts] have
      the theorems of each.

    A graph names its nodes by [Moniker.t], computes scopes by [Shape], resolves
    references by [Moniker.bind_match]; the codec writes and reads the encoded
    monikers; a rule holds monikers parsed by [Uri.from_uri] and patterns parsed
    by [Path.parse]. A configuration is compiled by substituting aliases and
    parsing rules ([Check.compile_rules]); [Check.evaluate_and_report_compiled]
    builds the context of a graph, evaluates every rule on the definitions and
    references that it covers, and returns violations, which [Suppress.apply]
    filters, with reports. A snapshot is the index of the records and the outcome
    of linkage: [Inventory] answers which symbols have a facet, [LinkIndex] which
    references touch a symbol, and [Paths] searches over it. The rules of a
    workspace are compiled by [WorkspaceEval.compile_workspace_rules];
    [WorkspaceEval.run_check] evaluates them on the symbols of the files that are
    not excluded, from the state of the previous check when it may, and joins
    their violations with those of the rules over each file. The evaluators of
    symbols, groups, linkage and paths share the inventory and the cache of
    atoms, and append to one [WorkspaceEvaluation].

    ** What the theorems show

    - Codecs: what is encoded decodes to the same graph, what decodes is
      canonical, encoding fails exactly when a record does not fit
      ([decode_encode], [decode_canonical], [encode_succeeds_iff]); URIs read
      back ([uri_roundtrip]).
    - The graph: every operation refines its specification on records
      ([operations_refine]), and the graphs that can be built are trees of valid
      monikers ([reachable_wf]).
    - Monikers and patterns: binding and matching decide the declarative reading
      ([bind_match_iff], [matches_iff]).
    - Rules: trees that parse are well typed ([parse_well_typed]). The evaluation
      of a rule ends, without panic, with an outcome that no cache changes
      ([evaluation_independent_of_caches]); collections are multisets
      ([collections_are_multisets]); metrics are what their definitions say
      ([lcom4_counts_components], [dit_is_longest_chain]).
    - Configurations: aliases expand fully or are rightly refused
      ([aliases_resolved], [substitution_ascii]), merging overrides what it should
      ([merge_overrides]), compiled rules are well typed
      ([compiled_rules_well_typed]).
    - A check: reports account for violations ([reports_account_for_violations]),
      suppression removes exactly what directives silence ([suppression_exact]).
    - Snapshots: a refreshed inventory answers as a rebuilt one
      ([refresh_as_rebuild]); the read index lists the resolved references
      ([read_index_exact]); paths and corridors are those of their graph, and
      limits never pass for absence ([bounded_path_exact], [corridor_exact]);
      verdicts on a partial linkage are final ([decided_verdict_stable],
      [indexed_children_exact]).
    - Workspace rules on symbols and groups: posting lists, caches and plans give
      the reading of the rule on each record ([symbol_rules_exact],
      [symbol_reports_account]); groups partition their members and are accounted
      for ([groups_partition_members], [group_predicate_kleene],
      [group_report_accounts]).
    - Workspace rules on linkage and paths: values are Kleene's and counts are
      those of the references ([linkage_rules_kleene], [reference_counts_exact],
      [structure_verdicts_persist]); verdicts on paths are facts of the graph
      ([path_verdict_exact], [all_paths_via_exact]).
    - Changes: the difference of two versions matches their symbols
      ([diff_symbols_exact]); the merge of kept and new violations is a full
      evaluation when the dirty sets cover the change ([incremental_sets_exact]);
      a second check agrees with the first ([second_check_agrees]).
    - Linkage: publishing decisions is exact ([publication_exact]) and a snapshot
      reads back ([snapshot_restored_exactly]); the catalog of candidates is that
      of the last version whatever the refreshes ([catalog_exact]).
    - Three theorems show what the code does where it departs from its purpose:
      [moniker_equality_fails_everywhere], [incremental_loses_a_twin] and
      [catalog_loses_twin].

    Many more theorems than these support them and describe the operations one
    by one; each file says which.

    ** Conventions, bounds and fuel

    - A Rust panic is the outcome [Panic]: an index or a slice out of range, a
      slice off a character boundary, an [unwrap], [unreachable!] or [assert].
      [safe] and [post] exclude it. Loops whose recursion is not structural
      take fuel, and running out is [NoFuel], which they exclude too: the
      parsers start with one more unit than the bytes of their text, and every
      turn consumes a byte; the traversals of a graph start with the number of
      its definitions or of the nodes of the traversal, and visit each once; the
      expansion of aliases starts with two more than the aliases, and its stack
      never holds one twice; the merge iterators start with the number of entries
      that are left in the lists, and every turn takes one; a walk over the read
      index takes one turn per unit of depth; the path is read back with the
      number of recorded predecessors, each on the way to a source.
    - The parsers of the rule language call each other in cycles. Their bodies
      take the parsers they call back as a record, [DslParse.parsers] ties the
      knot by fuel, and [DslFacts.good] is the interface the bodies are proved
      against: fuel above the number of bytes left is enough. The evaluators do
      the same with [Eval.evaluators], [Eval.evaluate] and [EvalTotal.good], the
      fuel being the height of the tree, as it is for [Indexed.node].
    - The cells of an evaluation (the caches, the error of the [ast] domain) are
      a state threaded by [ST]. Well-formed rules ([EvalFacts.rule_ok]) and
      predicates of groups ([GroupFacts.steady]) leave out the aggregates that
      interpolate between two ranks ([median], [percentile]), whose rank is a
      product of floating-point numbers.
    - Integers keep their width where the code does arithmetic on it: lengths
      of components are [u16], counts, indexes and positions of the layout
      [u32], [segment_count] a truncating [u16], ordinals of symbols and of
      references [u32]. [usize] is taken to be 64 bits, so that sums of lengths of
      buffers in memory do not wrap. Floating-point numbers ([F64]) are those of
      the standard [SpecFloat], with 53 bits.
    - What is not under src/ is a parameter: the [regex] crate is the class
      [Path.RegexEngine] (and [Suppress.DirectiveRegex] for the one fixed
      expression of directives), tree-sitter is [Syntax.TreeSitter] with
      [Check.Parsers], TOML values are [ConfigData.Toml], the order in which a
      hash map iterates is [HashOrder] (any permutation), the hash of [FxHasher]
      is [FxHash] (any function), the logarithm is [F64.Log2], bitmaps of the
      [roaring] crate are [Roaring]. Laws are assumed of tree-sitter
      ([TreeSitterLaws]: the spans of children and the inverse of the parent
      link) and of bitmaps ([RoaringLaws]: those of finite sets iterated in
      order, of which finite sets are an instance). The resolver of requirements
      over a workspace is an argument of the context. [run_check] takes what it
      reads from outside: the loaded configuration, the matcher of excluded
      paths, the fingerprint of the rules, the material and the difference of
      indexes that the cache holds, the read index, the next generation.

    ** What is not modelled

    The depth of the call stack (a deeply nested rule or pattern can exhaust
    it), the time of pattern matching, serde, measured durations and estimates of
    memory. Of the program: the resolution of references across files
    (workspace/linkage/resolve and language), which rests on the language
    extractors and their manifests, with the store and the plans of rebinding
    that drive it (linkage/binding/store.rs, linkage/change); the part of the difference of two indexes on
    references; the loading of sources, the views and the live registry
    (workspace/registry, source, changes, notes, live), which are driven by the
    file system; the language extractors, which walk third-party syntax trees;
    the matching of excluded files (globset); the check commands and scenario
    fixtures, the daemon, the query protocol, the command line and the editor
    front ends. *)

From stdpp Require Export base list gmap strings pretty.
From Stdlib Require Export Ascii NArith Lia.

#[export] Set Default Goal Selector "!".

(** ** Outcomes

    A Rust function that returns [Result<A, E>] is modelled in [res E A]: [Ok]
    and [Err] are its values, [Panic] is an index, a slice or an explicit
    [panic!] that would abort, and [NoFuel] marks a loop whose fuel ran out.
    Theorems below show the last two are not reached. *)

Inductive res (E A : Type) : Type :=
| Ok (a : A)
| Err (e : E)
| Panic
| NoFuel.
Arguments Ok {E A} a.
Arguments Err {E A} e.
Arguments Panic {E A}.
Arguments NoFuel {E A}.

#[export] Instance res_ret {E} : MRet (res E) := fun A a => Ok a.
#[export] Instance res_bind {E} : MBind (res E) := fun A B k m =>
  match m with
  | Ok a => k a
  | Err e => Err e
  | Panic => Panic
  | NoFuel => NoFuel
  end.

(** [Result::map_err] *)
Definition map_err {E F A} (f : E -> F) (m : res E A) : res F A :=
  match m with
  | Ok a => Ok a
  | Err e => Err (f e)
  | Panic => Panic
  | NoFuel => NoFuel
  end.

(** [Option::ok_or] *)
Definition ok_or {E A} (o : option A) (e : E) : res E A :=
  match o with
  | Some a => Ok a
  | None => Err e
  end.

(** The value of a computation that cannot return [Err]. *)
Definition safe {E A} (m : res E A) : Prop :=
  match m with
  | Panic | NoFuel => False
  | _ => True
  end.

(** [Vec::is_empty] *)
Definition is_nil {A} (l : list A) : bool := match l with [] => true | _ => false end.

(** [iter.filter_map(f).collect()] and [iter.map(f).collect()], for a function
    that may panic. *)
Fixpoint filter_map_res {E A B} (f : A -> res E (option B)) (l : list A) : res E (list B) :=
  match l with
  | [] => mret []
  | x :: l =>
      o ← f x;
      rest ← filter_map_res f l;
      mret (match o with Some y => y :: rest | None => rest end)
  end.

Definition map_res {E A B} (f : A -> res E B) (l : list A) : res E (list B) :=
  filter_map_res (fun x => y ← f x; mret (Some y)) l.

(** Unary postcondition of a computation: it does not panic, it does not run
    out of fuel, and its value satisfies [Q]. *)
Definition post {E A} (m : res E A) (Q : A -> Prop) : Prop :=
  match m with
  | Ok a => Q a
  | Err _ => True
  | Panic | NoFuel => False
  end.

(** ** State

    A method that takes [&mut self] (or changes [self] through a lock) and can
    fail: it returns an outcome and the state it leaves, on errors too. *)

Definition ST (S E A : Type) : Type := S -> res E A * S.

#[export] Instance st_ret {S E} : MRet (ST S E) := fun A a s => (Ok a, s).
#[export] Instance st_bind {S E} : MBind (ST S E) := fun A B k m s =>
  match m s with
  | (Ok a, s) => k a s
  | (Err e, s) => (Err e, s)
  | (Panic, s) => (Panic, s)
  | (NoFuel, s) => (NoFuel, s)
  end.

Definition lift {S E A} (m : res E A) : ST S E A := fun s => (m, s).
Definition throw {S E A} (e : E) : ST S E A := fun s => (Err e, s).
Definition get {S E} : ST S E S := fun s => (Ok s, s).
Definition put {S E} (s : S) : ST S E () := fun _ => (Ok (), s).
Definition modify {S E} (f : S -> S) : ST S E () := fun s => (Ok (), f s).

(** ** Bytes

    A byte is a Rocq [ascii] (eight bits); [&[u8]], [Vec<u8>], [&str] and
    [String] are lists of them. *)

Abbreviation bytes := (list ascii).

Definition bs (s : string) : bytes := String.list_ascii_of_string s.
Arguments bs : simpl never.

Declare Scope bytes_scope.
Delimit Scope bytes_scope with bytes.
Notation "b! s" := (bs s%string) (at level 1, s at level 0, only parsing) : bytes_scope.
Open Scope bytes_scope.

Definition beq (a b : bytes) : bool := bool_decide (a = b).

(** [buf[i]]: out of range panics. *)
Definition index {E} (l : bytes) (i : nat) : res E ascii :=
  match l !! i with
  | Some b => Ok b
  | None => Panic
  end.

(** [&buf[a..b]]: panics when [a > b] or [b > buf.len()]. *)
Definition slice {E} (l : bytes) (a b : nat) : res E bytes :=
  if (a <=? b) && (b <=? length l) then Ok (take (b - a) (drop a l)) else Panic.

(** Little-endian words. *)
Definition byte_N (n : N) : ascii := ascii_of_N (n mod 256).

Fixpoint le_bytes (width : nat) (n : N) : bytes :=
  match width with
  | O => []
  | S w => byte_N n :: le_bytes w (n / 256)
  end.

Fixpoint le_N (l : bytes) : N :=
  match l with
  | [] => 0
  | b :: r => N_of_ascii b + 256 * le_N r
  end.

(** ** Hash maps

    A [HashMap] is a [gmap] and a [HashSet] a [gset]. The order in which one
    yields its entries, which the standard library leaves open, is the parameter
    [HashOrder]. *)

Class HashOrder : Type := {
  hash_order : forall {A : Type}, list A -> list A;
  hash_order_perm {A} (l : list A) : hash_order l ≡ₚ l
}.

(** What iterating over a map yields. *)
Definition entries {HO : HashOrder} `{Countable K} {A} (m : gmap K A) : list (K * A) :=
  hash_order (map_to_list m).

Definition elements_of {HO : HashOrder} `{Countable K} (s : gset K) : list K :=
  hash_order (elements s).

(** [for x in l { f(x)?; }] *)
Fixpoint for_each {E A} (f : A -> res E ()) (l : list A) : res E () :=
  match l with
  | [] => Ok ()
  | x :: l => f x ≫= fun _ => for_each f l
  end.

(** The same, with the variables that the body assigns as an accumulator. *)
Fixpoint fold_res {E A B} (f : B -> A -> res E B) (acc : B) (l : list A) : res E B :=
  match l with
  | [] => Ok acc
  | x :: l => f acc x ≫= fun acc => fold_res f acc l
  end.

(** ** Lemmas on outcomes *)

Create HintDb moniker discriminated.

Lemma post_bind {E A B} (m : res E A) (k : A -> res E B) (P : A -> Prop) (Q : B -> Prop) :
  post m P -> (forall a, P a -> post (k a) Q) -> post (m ≫= k) Q.
Proof. destruct m; simpl; auto. Qed.

Lemma post_mono {E A} (m : res E A) (P Q : A -> Prop) :
  post m P -> (forall a, P a -> Q a) -> post m Q.
Proof. destruct m; simpl; auto. Qed.

Lemma post_map_err {E F A} (f : E -> F) (m : res E A) Q :
  post m Q -> post (map_err f m) Q.
Proof. by destruct m. Qed.

Lemma post_ok {E A} (a : A) (Q : A -> Prop) : Q a -> post (Ok (E:=E) a) Q.
Proof. done. Qed.

Lemma post_err {E A} (e : E) (Q : A -> Prop) : post (Err e) Q.
Proof. done. Qed.

Lemma post_safe {E A} (m : res E A) Q : post m Q -> safe m.
Proof. by destruct m. Qed.

Lemma post_Ok_inv {E A} (m : res E A) Q a : post m Q -> m = Ok a -> Q a.
Proof. by intros ? ->. Qed.

Lemma Ok_inj {E A} (a b : A) : Ok (E:=E) a = Ok b -> a = b.
Proof. by intros [=]. Qed.

Lemma bind_Ok {E A B} (m : res E A) (k : A -> res E B) b :
  m ≫= k = Ok b <-> exists a, m = Ok a /\ k a = Ok b.
Proof.
  split.
  - destruct m; simpl; intros H; try done. eauto.
  - by intros (a & -> & ?).
Qed.

Lemma ret_bind {E A B} (a : A) (k : A -> res E B) : Ok a ≫= k = k a.
Proof. done. Qed.

Lemma bind_assoc {E A B C} (m : res E A) (f : A -> res E B) (g : B -> res E C) :
  (m ≫= f) ≫= g = m ≫= (fun a => f a ≫= g).
Proof. by destruct m. Qed.

(** A loop over a list whose elements are all mapped. *)
Lemma filter_map_res_Ok {E A B} (f : A -> res E (option B)) (g : A -> option B) l :
  Forall (fun x => f x = Ok (g x)) l -> filter_map_res f l = Ok (omap g l).
Proof.
  induction 1 as [| x l Hx Hl IH]; [done |]. cbn [filter_map_res]. by rewrite Hx, ret_bind, IH.
Qed.

Lemma map_res_Ok {E A B} (f : A -> res E B) (g : A -> B) l :
  Forall (fun x => f x = Ok (g x)) l -> map_res f l = Ok (g <$> l).
Proof.
  intros Hl. unfold map_res. rewrite (filter_map_res_Ok _ (fun x => Some (g x))).
  - done.
  - eapply Forall_impl; [done |]. cbv beta. by intros x ->.
Qed.

Lemma map_err_Ok {E F A} (f : E -> F) (m : res E A) a :
  map_err f m = Ok a <-> m = Ok a.
Proof. destruct m; simpl; split; congruence. Qed.

Lemma ok_or_Ok {E A} (o : option A) (e : E) a : ok_or o e = Ok a <-> o = Some a.
Proof. destruct o; simpl; split; congruence. Qed.

Lemma st_bind_Ok {S E A B} (m : ST S E A) (k : A -> ST S E B) s s' a :
  m s = (Ok a, s') -> (m ≫= k) s = k a s'.
Proof. unfold mbind, st_bind. by intros ->. Qed.

Lemma st_bind_inv {S E A B} (m : ST S E A) (k : A -> ST S E B) s b s' :
  (m ≫= k) s = (Ok b, s') -> exists a s1, m s = (Ok a, s1) /\ k a s1 = (Ok b, s').
Proof. unfold mbind, st_bind. destruct (m s) as [[a | e | |] s1]; try done. eauto. Qed.

Lemma for_each_post {E A} (f : A -> res E ()) (P : A -> Prop) l :
  (forall x, x ∈ l -> post (f x) (fun _ => P x)) -> post (for_each f l) (fun _ => Forall P l).
Proof.
  induction l as [| x l IH]; intros H; cbn [for_each]; [constructor |].
  eapply post_bind; [apply H; by left |]. intros [] Hx.
  eapply post_mono; [apply IH; intros y Hy; apply H; by right |]. intros [] Hl. by constructor.
Qed.

Lemma fold_res_post {E A B} (inv : B -> list A -> Prop) (f : B -> A -> res E B) l acc :
  inv acc l ->
  (forall acc x l, inv acc (x :: l) -> post (f acc x) (fun acc' => inv acc' l)) ->
  post (fold_res f acc l) (fun acc' => inv acc' []).
Proof.
  intros Hi Hf. revert acc Hi. induction l as [| x l IH]; intros acc Hi; cbn [fold_res]; [done |].
  eapply post_bind; [by apply Hf |]. intros acc'. apply IH.
Qed.

Lemma fold_res_app {E A B} (f : B -> A -> res E B) l k acc :
  fold_res f acc (l ++ k) = fold_res f acc l ≫= fun acc => fold_res f acc k.
Proof.
  revert acc. induction l as [| x l IH]; intros acc; cbn [fold_res app]; [done |].
  rewrite bind_assoc. destruct (f acc x); cbn; [apply IH | done..].
Qed.

Lemma for_each_Ok {E A} (f : A -> res E ()) l :
  for_each f l = Ok () <-> Forall (fun x => f x = Ok ()) l.
Proof.
  induction l as [| x l IH]; cbn [for_each]; [split; [constructor | done] |].
  rewrite Forall_cons, <- IH. split.
  - intros ([] & Hx & Hl)%bind_Ok. done.
  - intros [-> Hl]. exact Hl.
Qed.

#[export] Hint Resolve post_ok post_err : moniker.

(** ** Lemmas on bytes *)

Lemma beq_true a b : beq a b = true <-> a = b.
Proof. apply bool_decide_eq_true. Qed.

Lemma beq_false a b : beq a b = false <-> a <> b.
Proof. apply bool_decide_eq_false. Qed.

Lemma beq_refl a : beq a a = true.
Proof. by apply beq_true. Qed.

Lemma beq_sym a b : beq a b = beq b a.
Proof. unfold beq. by apply bool_decide_ext. Qed.

Lemma length_bs s : length (bs s) = String.length s.
Proof. unfold bs. induction s; simpl; auto. Qed.

Lemma slice_Ok {E} l a b :
  a <= b -> b <= length l -> slice (E:=E) l a b = Ok (take (b - a) (drop a l)).
Proof.
  intros ? ?. unfold slice.
  rewrite (proj2 (Nat.leb_le a b)), (proj2 (Nat.leb_le b _)); done.
Qed.

(** A slice of a buffer split as [pre ++ mid ++ suf]. *)
Lemma slice_mid {E} (pre mid suf : bytes) a b :
  a = length pre -> b = length pre + length mid ->
  slice (E:=E) (pre ++ mid ++ suf) a b = Ok mid.
Proof.
  intros -> ->. rewrite slice_Ok; [| lia | rewrite !length_app; lia].
  rewrite drop_app_length, Nat.add_sub_swap, Nat.sub_diag by lia. simpl.
  by rewrite take_app_length.
Qed.

Lemma slice_inv {E} (l : bytes) a b m :
  slice (E:=E) l a b = Ok m ->
  exists pre suf, l = pre ++ m ++ suf /\ length pre = a /\ length m = b - a /\ a <= b.
Proof.
  unfold slice. destruct (a <=? b) eqn:Ha, (b <=? length l) eqn:Hb; simpl; try done.
  apply Nat.leb_le in Ha, Hb. intros [= <-].
  exists (take a l), (drop b l).
  rewrite !length_take, length_drop. split_and!; [| lia..].
  rewrite <- (take_drop a l) at 1. f_equal.
  rewrite <- (take_drop (b - a) (drop a l)) at 1. f_equal.
  rewrite drop_drop. f_equal. lia.
Qed.

Lemma index_app {E} (pre suf : bytes) c i :
  i = length pre -> index (E:=E) (pre ++ c :: suf) i = Ok c.
Proof. intros ->. unfold index. by rewrite list_lookup_middle. Qed.

Lemma length_le_bytes w n : length (le_bytes w n) = w.
Proof. revert n. induction w; simpl; auto. Qed.

Lemma N_byte_N n : N_of_ascii (byte_N n) = (n mod 256)%N.
Proof. apply N_ascii_embedding. apply N.mod_lt. lia. Qed.

Lemma le_N_le_bytes w n : le_N (le_bytes w n) = (n mod 256 ^ N.of_nat w)%N.
Proof.
  revert n. induction w as [| w IH]; intros n; cbn [le_bytes le_N].
  - by rewrite N.mod_1_r.
  - rewrite IH, N_byte_N, Nat2N.inj_succ, N.pow_succ_r'.
    rewrite N.Div0.mod_mul_r. lia.
Qed.

Lemma le_N_bound l : (le_N l < 256 ^ N.of_nat (length l))%N.
Proof.
  induction l as [| b r IH]; cbn [le_N length]; [done |].
  rewrite Nat2N.inj_succ, N.pow_succ_r'. pose proof (N_ascii_bounded b). lia.
Qed.

Lemma byte_N_ascii b : byte_N (N_of_ascii b) = b.
Proof.
  unfold byte_N. rewrite N.mod_small by apply N_ascii_bounded.
  apply ascii_N_embedding.
Qed.

Lemma le_bytes_le_N l : le_bytes (length l) (le_N l) = l.
Proof.
  induction l as [| b r IH]; cbn [le_bytes le_N length]; [done |].
  pose proof (N_ascii_bounded b).
  f_equal.
  - rewrite <- (byte_N_ascii b) at 2. unfold byte_N. f_equal.
    rewrite (N.mul_comm 256), N.Div0.mod_add. done.
  - rewrite (N.mul_comm 256), N.div_add, N.div_small by lia. by rewrite N.add_0_l.
Qed.

(** ** Lists *)

Lemma existsb_false {A} (f : A -> bool) l :
  existsb f l = false <-> Forall (fun x => f x = false) l.
Proof.
  induction l as [| x l IH]; simpl; [done |].
  by rewrite orb_false_iff, IH, Forall_cons.
Qed.

Lemma forallb_Forall {A} (f : A -> bool) l :
  forallb f l = true <-> Forall (fun x => f x = true) l.
Proof.
  induction l as [| x l IH]; simpl; [done |].
  by rewrite andb_true_iff, IH, Forall_cons.
Qed.

Lemma sublist_filter_bool {A} (f : A -> bool) l : List.filter f l `sublist_of` l.
Proof. induction l as [| x l IH]; cbn; [done |]. destruct (f x); by constructor. Qed.

Lemma foldl_pointwise {A B} (f g : B -> A -> B) l b :
  (forall b x, f b x = g b x) -> foldl f b l = foldl g b l.
Proof. intros Hfg. revert b. induction l as [| x l IH]; intros b; cbn; [done |]. by rewrite Hfg. Qed.

(** [.enumerate()] of a list that grows at its end. *)
Lemma imap_pair_snoc {A} (l : list A) x : imap pair (l ++ [x]) = imap pair l ++ [(length l, x)].
Proof. rewrite imap_app. cbn. by rewrite Nat.add_0_r. Qed.

(** What holds of all the rows of a table holds of the one that is found. *)
Lemma find_row {A} (f : A -> bool) (P : A -> Prop) l x :
  Forall P l -> List.find f l = Some x -> P x /\ f x = true.
Proof.
  intros Hl [Hin Hf]%find_some. split; [| done].
  rewrite Forall_forall in Hl. by apply Hl, list_elem_of_In.
Qed.

(** ** Automation shared by the components *)

(** Split the outcome of a sequence of binds that is known to be [Ok]. *)
Ltac res_inv :=
  repeat match goal with
  | H : mret _ = Ok _ |- _ => unfold mret, res_ret in H
  | H : Ok _ = Ok _ |- _ => injection H as H
  | H : Err _ = Ok _ |- _ => discriminate H
  | H : Panic = Ok _ |- _ => discriminate H
  | H : NoFuel = Ok _ |- _ => discriminate H
  | H : _ ≫= _ = Ok _ |- _ => apply bind_Ok in H as (? & ? & ?)
  | H : map_err _ _ = Ok _ |- _ => apply map_err_Ok in H
  | H : ok_or _ _ = Ok _ |- _ => apply ok_or_Ok in H
  end.

(** Split a successful run of a sequence of steps. *)
Ltac st_inv :=
  repeat match goal with
  | H : (_ ≫= _) _ = (Ok _, _) |- _ => apply st_bind_inv in H as (? & ? & ? & H); cbv beta in H
  | H : mret _ _ = (Ok _, _) |- _ => injection H as <- <-
  end.

(** Run the state monad's combinators. *)
Ltac st_run :=
  unfold mbind, mret, st_bind, st_ret, get, put, modify, lift, throw; cbv beta iota.

(** Turn boolean tests of the model into propositions. *)
Ltac bool_inv :=
  repeat match goal with
  | H : _ && _ = true |- _ => apply andb_prop in H as [? ?]
  | H : _ || _ = false |- _ => apply orb_false_elim in H as [? ?]
  | H : negb _ = true |- _ => apply negb_true_iff in H
  | H : negb _ = false |- _ => apply negb_false_iff in H
  | H : beq _ _ = true |- _ => apply beq_true in H
  | H : beq _ _ = false |- _ => apply beq_false in H
  | H : (_ <=? _) = true |- _ => apply Nat.leb_le in H
  | H : (_ <=? _) = false |- _ => apply Nat.leb_gt in H
  | H : (_ <? _) = true |- _ => apply Nat.ltb_lt in H
  | H : (_ <? _) = false |- _ => apply Nat.ltb_ge in H
  | H : (_ =? _) = true |- _ => apply Nat.eqb_eq in H
  | H : (_ =? _) = false |- _ => apply Nat.eqb_neq in H
  | H : (_ <=? _)%N = true |- _ => apply N.leb_le in H
  | H : (_ <=? _)%N = false |- _ => apply N.leb_gt in H
  | H : (_ <? _)%N = true |- _ => apply N.ltb_lt in H
  | H : (_ <? _)%N = false |- _ => apply N.ltb_ge in H
  | H : (_ =? _)%N = true |- _ => apply N.eqb_eq in H
  | H : (_ =? _)%N = false |- _ => apply N.eqb_neq in H
  end.
