(* ===== verification/RustStr.v ===== *)
(** The part of Rust's standard library the modelled code uses on bytes and
    strings: ASCII classes, UTF-8 validation and decoding, trimming, prefixes,
    searching, decimal printing and parsing, and [f64] literals.

    What the evaluator uses of Rust's [f64] (the standard library; it maps to
    no file): binary64 arithmetic, ordering, casts and display. Values are the
    [spec_float] of the Standard Library; the payload of a NaN is not
    represented. [log2] is the one operation whose result Rust leaves to the
    platform: it is the class [Log2]. *)

From Stdlib Require Import ZArith.
From Stdlib Require Import SpecFloat.
From Stdlib Require Import SpecFloat ZArith.
From S2P Require Import Prelude.

(** ** ASCII classes ([u8::is_ascii_*]) *)

Definition in_range (lo hi : N) (b : ascii) : bool :=
  (lo <=? N_of_ascii b)%N && (N_of_ascii b <=? hi)%N.

Definition is_ascii_digit (b : ascii) : bool := in_range 48 57 b.

Definition is_ascii_alphabetic (b : ascii) : bool := in_range 65 90 b || in_range 97 122 b.

Definition is_ascii_alphanumeric (b : ascii) : bool := is_ascii_alphabetic b || is_ascii_digit b.

Definition is_ascii_whitespace (b : ascii) : bool :=
  match N_of_ascii b with
  | 9%N | 10%N | 12%N | 13%N | 32%N => true
  | _ => false
  end.

Definition is_ascii (b : ascii) : bool := (N_of_ascii b <? 128)%N.

Definition ceq (a b : ascii) : bool := bool_decide (a = b).

(** The double quote. *)
Definition dquote : ascii := ascii_of_N 34.

(** ** UTF-8 *)

Definition is_cont (b : ascii) : bool := in_range 128 191 b.

(** The range of the second byte after the lead byte of a three-byte and of a
    four-byte sequence (Unicode, Table 3-7). *)
Definition second_of_3 (lead : N) (b : ascii) : bool :=
  if (lead =? 224)%N then in_range 160 191 b
  else if (lead =? 237)%N then in_range 128 159 b
  else is_cont b.

Definition second_of_4 (lead : N) (b : ascii) : bool :=
  if (lead =? 240)%N then in_range 144 191 b
  else if (lead =? 244)%N then in_range 128 143 b
  else is_cont b.

(** The characters of a byte string, each as its UTF-8 bytes; [None] when the
    string is not UTF-8. *)
Fixpoint chars (l : bytes) : option (list bytes) :=
  match l with
  | [] => Some []
  | b0 :: r =>
      let n := N_of_ascii b0 in
      if is_ascii b0 then cons [b0] <$> chars r
      else if in_range 194 223 b0 then
        match r with
        | b1 :: r1 => if is_cont b1 then cons [b0; b1] <$> chars r1 else None
        | _ => None
        end
      else if in_range 224 239 b0 then
        match r with
        | b1 :: b2 :: r2 =>
            if second_of_3 n b1 && is_cont b2 then cons [b0; b1; b2] <$> chars r2 else None
        | _ => None
        end
      else if in_range 240 244 b0 then
        match r with
        | b1 :: b2 :: b3 :: r3 =>
            if second_of_4 n b1 && is_cont b2 && is_cont b3
            then cons [b0; b1; b2; b3] <$> chars r3 else None
        | _ => None
        end
      else None
  end.

(** [std::str::from_utf8(l).is_ok()] *)
Definition from_utf8 (l : bytes) : bool :=
  match chars l with
  | Some _ => true
  | None => false
  end.

(** [str::is_char_boundary] *)
Definition is_char_boundary (l : bytes) (i : nat) : bool :=
  (i =? 0) ||
  match l !! i with
  | Some b => negb (is_cont b)
  | None => i =? length l
  end.

(** [&s[a..b]] on a [str]: panics out of range and inside a character. *)
Definition str_slice {E} (s : bytes) (a b : nat) : res E bytes :=
  if (a <=? b) && is_char_boundary s a && is_char_boundary s b
  then Ok (take (b - a) (drop a s)) else Panic.

(** [&s[a..]] *)
Definition str_from {E} (s : bytes) (a : nat) : res E bytes := str_slice s a (length s).

(** [&s[..b]] *)
Definition str_to {E} (s : bytes) (b : nat) : res E bytes := str_slice s 0 b.

(** U+FFFD *)
Definition replacement : bytes := map ascii_of_N [239; 191; 189]%N.

(** [String::from_utf8_lossy]: every maximal ill-formed part becomes U+FFFD. *)
Fixpoint from_utf8_lossy (l : bytes) : bytes :=
  match l with
  | [] => []
  | b0 :: r =>
      let n := N_of_ascii b0 in
      if is_ascii b0 then b0 :: from_utf8_lossy r
      else if in_range 194 223 b0 then
        match r with
        | b1 :: r1 =>
            if is_cont b1 then b0 :: b1 :: from_utf8_lossy r1
            else replacement ++ from_utf8_lossy r
        | [] => replacement
        end
      else if in_range 224 239 b0 then
        match r with
        | b1 :: r1 =>
            if second_of_3 n b1 then
              match r1 with
              | b2 :: r2 =>
                  if is_cont b2 then b0 :: b1 :: b2 :: from_utf8_lossy r2
                  else replacement ++ from_utf8_lossy r1
              | [] => replacement
              end
            else replacement ++ from_utf8_lossy r
        | [] => replacement
        end
      else if in_range 240 244 b0 then
        match r with
        | b1 :: r1 =>
            if second_of_4 n b1 then
              match r1 with
              | b2 :: r2 =>
                  if is_cont b2 then
                    match r2 with
                    | b3 :: r3 =>
                        if is_cont b3 then b0 :: b1 :: b2 :: b3 :: from_utf8_lossy r3
                        else replacement ++ from_utf8_lossy r2
                    | [] => replacement
                    end
                  else replacement ++ from_utf8_lossy r1
              | [] => replacement
              end
            else replacement ++ from_utf8_lossy r
        | [] => replacement
        end
      else replacement ++ from_utf8_lossy r
  end.

(** ** Prefixes, suffixes, searching *)

(** [str::strip_prefix] *)
Fixpoint strip_prefix (p l : bytes) : option bytes :=
  match p, l with
  | [], _ => Some l
  | a :: p', b :: l' => if ceq a b then strip_prefix p' l' else None
  | _ :: _, [] => None
  end.

Definition starts_with (p l : bytes) : bool :=
  match strip_prefix p l with
  | Some _ => true
  | None => false
  end.

(** [str::strip_suffix] *)
Definition strip_suffix (p l : bytes) : option bytes :=
  reverse <$> strip_prefix (reverse p) (reverse l).

Definition ends_with (p l : bytes) : bool := starts_with (reverse p) (reverse l).

(** The index of the first byte satisfying [f] ([iter().position]). *)
Fixpoint position (f : ascii -> bool) (l : bytes) : option nat :=
  match l with
  | [] => None
  | b :: r => if f b then Some 0 else S <$> position f r
  end.

(** [str::contains] *)
Fixpoint contains (needle l : bytes) : bool :=
  starts_with needle l ||
  match l with
  | [] => false
  | _ :: r => contains needle r
  end.

(** [str::find] of a string *)
Fixpoint find_str (needle l : bytes) : option nat :=
  if starts_with needle l then Some 0
  else match l with
       | [] => None
       | _ :: r => S <$> find_str needle r
       end.

(** [str::replace] of a nonempty pattern: [skip] counts the bytes of a match that
    are still to be passed over. *)
Fixpoint replace_loop (pat to : bytes) (skip : nat) (l : bytes) : bytes :=
  match l with
  | [] => []
  | c :: r =>
      match skip with
      | S skip => replace_loop pat to skip r
      | O =>
          if starts_with pat l then to ++ replace_loop pat to (length pat - 1) r
          else c :: replace_loop pat to 0 r
      end
  end.

Definition replace (pat to l : bytes) : bytes := replace_loop pat to 0 l.

(** [str::split_once] at an ASCII byte. *)
Definition split_once (c : ascii) (l : bytes) : option (bytes * bytes) :=
  match position (ceq c) l with
  | Some i => Some (take i l, drop (S i) l)
  | None => None
  end.

Fixpoint take_while (f : ascii -> bool) (l : bytes) : bytes :=
  match l with
  | b :: r => if f b then b :: take_while f r else []
  | [] => []
  end.

(** The loop [while i < l.len() && f(l[i]) { i += 1 }]. *)
Definition scan_while (f : ascii -> bool) (l : bytes) (i : nat) : nat :=
  i + length (take_while f (drop i l)).

(** [[&str]::join] *)
Fixpoint join (sep : bytes) (ls : list bytes) : bytes :=
  match ls with
  | [] => []
  | [l] => l
  | l :: r => l ++ sep ++ join sep r
  end.

(** [str::split] at an ASCII character *)
Fixpoint split_on (c : ascii) (l : bytes) : list bytes :=
  match l with
  | [] => [[]]
  | b :: r =>
      if ceq b c then [] :: split_on c r
      else match split_on c r with
           | p :: ps => (b :: p) :: ps
           | [] => [[b]]
           end
  end.

(** [str::split_inclusive] at an ASCII character *)
Fixpoint split_inclusive (c : ascii) (l : bytes) : list bytes :=
  match l with
  | [] => []
  | b :: r =>
      if ceq b c then [b] :: split_inclusive c r
      else match split_inclusive c r with
           | p :: ps => (b :: p) :: ps
           | [] => [[b]]
           end
  end.

(** [str::trim_end_matches] of ASCII characters *)
Fixpoint drop_while (f : ascii -> bool) (l : bytes) : bytes :=
  match l with
  | [] => []
  | b :: r => if f b then drop_while f r else l
  end.

Definition trim_end_chars (f : ascii -> bool) (l : bytes) : bytes :=
  reverse (drop_while f (reverse l)).

(** [str::get] of a range *)
Definition str_get (s : bytes) (a b : nat) : option bytes :=
  match str_slice (E:=()) s a b with Ok t => Some t | _ => None end.

(** [str::trim_start_matches] of a nonempty prefix *)
Fixpoint trim_matches (fuel : nat) (p l : bytes) : bytes :=
  match fuel, strip_prefix p l with
  | S fuel, Some r => trim_matches fuel p r
  | _, _ => l
  end.

Definition trim_start_matches (p l : bytes) : bytes := trim_matches (length l) p l.

(** ** Trimming: Unicode [White_Space], by its UTF-8 encodings *)

Definition ws1 (a : ascii) : bool := in_range 9 13 a || in_range 32 32 a.

Definition ws2 (a b : ascii) : bool :=
  in_range 194 194 a && (in_range 133 133 b || in_range 160 160 b).

Definition ws3 (a b c : ascii) : bool :=
  (in_range 225 225 a && in_range 154 154 b && in_range 128 128 c) ||
  (in_range 226 226 a && in_range 128 128 b &&
     (in_range 128 138 c || in_range 168 169 c || in_range 175 175 c)) ||
  (in_range 226 226 a && in_range 129 129 b && in_range 159 159 c) ||
  (in_range 227 227 a && in_range 128 128 b && in_range 128 128 c).

Fixpoint trim_start (l : bytes) : bytes :=
  match l with
  | [] => []
  | a :: r =>
      if ws1 a then trim_start r
      else match r with
           | b :: r2 =>
               if ws2 a b then trim_start r2
               else match r2 with
                    | c :: r3 => if ws3 a b c then trim_start r3 else l
                    | [] => l
                    end
           | [] => l
           end
  end.

(** [trim_start] on a reversed string: the last bytes of a character come
    first. *)
Fixpoint trim_rev (l : bytes) : bytes :=
  match l with
  | [] => []
  | a :: r =>
      if ws1 a then trim_rev r
      else match r with
           | b :: r2 =>
               if ws2 b a then trim_rev r2
               else match r2 with
                    | c :: r3 => if ws3 c b a then trim_rev r3 else l
                    | [] => l
                    end
           | [] => l
           end
  end.

Definition trim_end (l : bytes) : bytes := reverse (trim_rev (reverse l)).

Definition trim (l : bytes) : bytes := trim_end (trim_start l).

(** ** Numbers *)

(** [usize]'s [Display]. *)
Definition show_nat (n : nat) : bytes := bs (pretty (N.of_nat n)).

Definition show_N (n : N) : bytes := bs (pretty n).

Definition digit_value (b : ascii) : option N :=
  if is_ascii_digit b then Some (N_of_ascii b - 48)%N else None.

Definition invalid_digit : bytes := bs "invalid digit found in string".
Definition pos_overflow : bytes := bs "number too large to fit in target type".
Definition empty_integer : bytes := bs "cannot parse integer from empty string".

Fixpoint parse_digits (max acc : N) (l : bytes) : res bytes N :=
  match l with
  | [] => Ok acc
  | b :: r =>
      match digit_value b with
      | None => Err invalid_digit
      | Some d =>
          if (max <? acc * 10)%N then Err pos_overflow
          else if (max <? acc * 10 + d)%N then Err pos_overflow
          else parse_digits max (acc * 10 + d) r
      end
  end.

(** [str::parse::<u32>], with the [Display] of its error. *)
Definition parse_u32 (l : bytes) : res bytes N :=
  match l with
  | [] => Err empty_integer
  | [b] => parse_digits 4294967295 0 [b]
  | b :: r => parse_digits 4294967295 0 (if ceq b "+"%char then r else l)
  end.

(** IEEE-754 binary64. *)
Definition f64 : Set := spec_float.

(** The binary64 nearest to [m / 10^k]. *)
Definition f64_of_decimal (m : N) (k : nat) : f64 :=
  match m with
  | N0 => S754_zero false
  | Npos p =>
      let '(mz, ez, lz) := SFdiv_core_binary 53 1024 (Zpos p) 0 (10 ^ Z.of_nat k) 0 in
      binary_round_aux 53 1024 false mz ez lz
  end.

Fixpoint decimal_value (acc : N) (l : bytes) : option N :=
  match l with
  | [] => Some acc
  | b :: r =>
      match digit_value b with
      | Some d => decimal_value (acc * 10 + d) r
      | None => None
      end
  end.

Definition invalid_float : bytes := bs "invalid float literal".
Definition empty_float : bytes := bs "cannot parse float from empty string".

(** [str::parse::<f64>] on the unsigned decimal notation [digits[.digits]],
    the only one the callers pass. *)
Definition parse_f64 (l : bytes) : res bytes f64 :=
  match l with
  | [] => Err empty_float
  | _ =>
      let '(int, frac) := default (l, []) (split_once "."%char l) in
      match int ++ frac with
      | [] => Err invalid_float
      | digits => ok_or (flip f64_of_decimal (length frac) <$> decimal_value 0 digits)
                        invalid_float
      end
  end.

(** ** Lemmas *)

Lemma ceq_true a b : ceq a b = true <-> a = b.
Proof. apply bool_decide_eq_true. Qed.

Lemma ceq_false a b : ceq a b = false <-> a <> b.
Proof. apply bool_decide_eq_false. Qed.

Lemma ceq_refl a : ceq a a = true.
Proof. by apply ceq_true. Qed.

Lemma in_range_spec lo hi b :
  in_range lo hi b = true <-> (lo <= N_of_ascii b <= hi)%N.
Proof. unfold in_range. rewrite andb_true_iff, !N.leb_le. done. Qed.

Lemma is_ascii_spec b : is_ascii b = true <-> (N_of_ascii b < 128)%N.
Proof. apply N.ltb_lt. Qed.

(** A character of a string: one ASCII byte, or several bytes above 127. *)
Definition char_ok (c : bytes) : Prop :=
  (exists a, c = [a] /\ is_ascii a = true) \/
  (2 <= length c /\ Forall (fun b => is_ascii b = false) c).

Lemma not_ascii_range lo hi b :
  (128 <= lo)%N -> in_range lo hi b = true -> is_ascii b = false.
Proof. rewrite in_range_spec. intros ? ?. apply N.ltb_ge. lia. Qed.

Lemma second_of_3_not_ascii n b : second_of_3 n b = true -> is_ascii b = false.
Proof.
  unfold second_of_3, is_cont.
  repeat case_match; apply not_ascii_range; lia.
Qed.

Lemma second_of_4_not_ascii n b : second_of_4 n b = true -> is_ascii b = false.
Proof.
  unfold second_of_4, is_cont.
  repeat case_match; apply not_ascii_range; lia.
Qed.

Lemma second_of_3_cont n b : second_of_3 n b = true -> is_cont b = true.
Proof.
  unfold second_of_3, is_cont, in_range. rewrite !andb_true_iff, !N.leb_le.
  repeat case_match; rewrite ?andb_true_iff, ?N.leb_le; lia.
Qed.

Lemma second_of_4_cont n b : second_of_4 n b = true -> is_cont b = true.
Proof.
  unfold second_of_4, is_cont, in_range. rewrite !andb_true_iff, !N.leb_le.
  repeat case_match; rewrite ?andb_true_iff, ?N.leb_le; lia.
Qed.

Lemma is_cont_not_ascii b : is_cont b = true -> is_ascii b = false.
Proof. apply not_ascii_range. lia. Qed.
#[export] Hint Resolve second_of_3_not_ascii second_of_4_not_ascii is_cont_not_ascii : moniker.

Lemma chars_spec l cs : chars l = Some cs -> concat cs = l /\ Forall char_ok cs.
Proof.
  revert l cs.
  enough (forall n l cs, length l <= n -> chars l = Some cs ->
    concat cs = l /\ Forall char_ok cs) by eauto.
  induction n as [| n IH]; intros [| b0 r] cs Hn H; simpl in Hn; try lia.
  1, 2: by injection H as <-.
  cbn [chars] in H. repeat case_match; try done; bool_inv.
  all: apply fmap_Some in H as (cs' & Hcs & ->).
  all: apply IH in Hcs as [<- Hok]; [| simpl in Hn; lia].
  all: split; [done |]; constructor; [| done].
  - left; eauto.
  - right; split; [simpl; lia |]. repeat constructor; eauto with moniker.
  - right; split; [simpl; lia |]. repeat constructor; eauto with moniker.
  - right; split; [simpl; lia |]. repeat constructor; eauto with moniker.
Qed.

Lemma from_utf8_chars l : from_utf8 l = true <-> exists cs, chars l = Some cs.
Proof. unfold from_utf8. destruct (chars l); split; [eauto | done | done | by intros [? [=]]]. Qed.

Lemma chars_app l1 l2 cs1 :
  chars l1 = Some cs1 -> chars (l1 ++ l2) = app cs1 <$> chars l2.
Proof.
  revert l1 cs1.
  enough (forall n l1 cs1, length l1 <= n -> chars l1 = Some cs1 ->
    chars (l1 ++ l2) = app cs1 <$> chars l2) by eauto.
  induction n as [| n IH]; intros [| b0 r] cs Hn H; simpl in Hn; try lia.
  1, 2: injection H as <-; simpl; by destruct (chars l2).
  cbn [chars] in H. repeat case_match; try done; subst.
  all: apply fmap_Some in H as (cs' & Hcs & ->).
  all: apply IH in Hcs; [| simpl in Hn; lia].
  all: cbn [chars app].
  all: repeat match goal with
    | H : ?x = true |- context [if ?x then _ else _] => rewrite H
    | H : ?x = false |- context [if ?x then _ else _] => rewrite H
    end.
  all: rewrite Hcs; by destruct (chars l2).
Qed.

Lemma from_utf8_app l1 l2 :
  from_utf8 l1 = true -> from_utf8 (l1 ++ l2) = from_utf8 l2.
Proof.
  intros [cs H]%from_utf8_chars. unfold from_utf8.
  rewrite (chars_app _ _ _ H). by destruct (chars l2).
Qed.

(** Cutting a UTF-8 string before a byte that starts a character leaves UTF-8
    on both sides. *)
Lemma chars_cut l c r cs :
  is_cont c = false -> chars (l ++ c :: r) = Some cs ->
  exists cs1, chars l = Some cs1.
Proof.
  intros Hnc. revert l cs.
  enough (forall n l cs, length l <= n -> chars (l ++ c :: r) = Some cs ->
    exists cs1, chars l = Some cs1) by eauto.
  assert (Hn3 : forall n, second_of_3 n c = false).
  { intros n. destruct (second_of_3 n c) eqn:E; [| done].
    apply second_of_3_cont in E. congruence. }
  assert (Hn4 : forall n, second_of_4 n c = false).
  { intros n. destruct (second_of_4 n c) eqn:E; [| done].
    apply second_of_4_cont in E. congruence. }
  induction n as [| n IH]; intros [| b0 l] cs Hn H; cbn [length] in Hn;
    try lia; [by exists []..|].
  cbn [chars app] in H |- *.
  assert (IH' : forall l' cs', length l' <= length l -> chars (l' ++ c :: r) = Some cs' ->
    exists cs1, chars l' = Some cs1) by (intros; eapply IH; [lia | done]).
  clear IH Hn.
  destruct (is_ascii b0).
  { apply fmap_Some in H as (cs' & Hcs & _). apply IH' in Hcs as [? ->]; [by eexists | lia]. }
  destruct (in_range 194 223 b0), (in_range 224 239 b0), (in_range 240 244 b0); try done.
  all: destruct l as [| b1 l]; cbn [app length] in *; [by rewrite ?Hnc, ?Hn3, ?Hn4 in *; repeat case_match |].
  all: try (destruct (is_cont b1); [| done];
    apply fmap_Some in H as (cs' & Hcs & _); apply IH' in Hcs as [? ->]; [by eexists | lia]).
  all: destruct l as [| b2 l]; cbn [app length] in *;
    [by rewrite ?Hnc, ?andb_false_r in *; repeat case_match |].
  all: try (destruct (second_of_3 _ _ && _); [| done];
    apply fmap_Some in H as (cs' & Hcs & _); apply IH' in Hcs as [? ->]; [by eexists | lia]).
  all: destruct l as [| b3 l]; cbn [app length] in *;
    [by rewrite ?Hnc, ?andb_false_r in * |].
  all: destruct (second_of_4 _ _ && _ && _); [| done];
    apply fmap_Some in H as (cs' & Hcs & _); apply IH' in Hcs as [? ->]; [by eexists | lia].
Qed.

Lemma from_utf8_cut_start l c r :
  is_cont c = false -> from_utf8 (l ++ c :: r) = true -> from_utf8 l = true.
Proof. intros Hc [cs H]%from_utf8_chars. apply from_utf8_chars. by eapply chars_cut. Qed.

Lemma from_utf8_cut l c r :
  is_ascii c = true -> from_utf8 (l ++ c :: r) = true -> from_utf8 l = true.
Proof.
  intros Hc. apply from_utf8_cut_start. destruct (is_cont c) eqn:E; [| done].
  apply is_cont_not_ascii in E. congruence.
Qed.

Lemma from_utf8_cons c l : is_ascii c = true -> from_utf8 (c :: l) = from_utf8 l.
Proof. intros Hc. unfold from_utf8. cbn [chars]. rewrite Hc. by destruct (chars l). Qed.

(** ** Character boundaries *)

Lemma from_utf8_head c r : from_utf8 (c :: r) = true -> is_cont c = false.
Proof.
  intros [cs H]%from_utf8_chars. destruct (is_cont c) eqn:E; [| done].
  pose proof (is_cont_not_ascii _ E) as Hna. cbn [chars] in H. rewrite Hna in H.
  unfold is_cont, in_range in *. bool_inv.
  repeat match goal with H : context [(?a <=? N_of_ascii c)%N && (N_of_ascii c <=? ?b)%N] |- _ =>
    rewrite (proj2 (andb_false_iff (a <=? N_of_ascii c)%N (N_of_ascii c <=? b)%N)) in H
      by (left; apply N.leb_gt; lia) end.
  done.
Qed.

Lemma boundary_0 l : is_char_boundary l 0 = true.
Proof. done. Qed.

Lemma boundary_app pre suf i :
  from_utf8 suf = true -> i = length pre -> is_char_boundary (pre ++ suf) i = true.
Proof.
  intros Hs ->. unfold is_char_boundary. apply orb_true_iff. right.
  destruct suf as [| c suf].
  - rewrite app_nil_r, (proj2 (lookup_ge_None pre (length pre))) by lia. apply Nat.eqb_refl.
  - rewrite list_lookup_middle by done. by rewrite (from_utf8_head _ _ Hs).
Qed.

Lemma boundary_len l : is_char_boundary l (length l) = true.
Proof. rewrite <- (app_nil_r l) at 1. by apply boundary_app. Qed.

Lemma boundary_split l i :
  from_utf8 l = true -> is_char_boundary l i = true ->
  exists pre suf, l = pre ++ suf /\ i = length pre /\ from_utf8 pre = true /\ from_utf8 suf = true.
Proof.
  intros Hl Hi. unfold is_char_boundary in Hi. apply orb_true_iff in Hi as [Hi | Hi].
  { bool_inv. subst i. by exists [], l. }
  destruct (l !! i) as [c |] eqn:Hc; bool_inv.
  - apply list_elem_of_split_length in Hc as (pre & suf & -> & ->).
    assert (from_utf8 pre = true) as Hp by (by eapply from_utf8_cut_start).
    exists pre, (c :: suf). split_and!; [done.. |]. by rewrite from_utf8_app in Hl.
  - subst i. exists l, []. by rewrite app_nil_r.
Qed.

(** A slice between two boundaries succeeds, and is UTF-8. *)
Lemma str_slice_utf8 {E} pre mid suf a b :
  from_utf8 (mid ++ suf) = true -> from_utf8 suf = true ->
  a = length pre -> b = length pre + length mid ->
  str_slice (E:=E) (pre ++ mid ++ suf) a b = Ok mid.
Proof.
  intros Hm Hs -> ->. unfold str_slice.
  rewrite (proj2 (Nat.leb_le _ _)), boundary_app by (done || lia).
  rewrite app_assoc, (boundary_app (pre ++ mid)) by (rewrite ?length_app; done).
  cbn [andb]. rewrite <- app_assoc, drop_app_length.
  replace (length pre + length mid - length pre) with (length mid) by lia.
  by rewrite take_app_length.
Qed.

Lemma from_utf8_app_inv l1 l2 :
  from_utf8 (l1 ++ l2) = true -> from_utf8 l2 = true -> from_utf8 l1 = true.
Proof.
  intros Hl H2. destruct l2 as [| c l2]; [by rewrite app_nil_r in Hl |].
  eapply from_utf8_cut_start; [by eapply from_utf8_head | done].
Qed.

Lemma chars_ascii l : forallb is_ascii l = true -> chars l = Some ((fun b => [b]) <$> l).
Proof.
  induction l as [| b r IH]; [done |]. simpl. intros; bool_inv.
  rewrite IH by done. by case_match.
Qed.

Lemma from_utf8_ascii l : forallb is_ascii l = true -> from_utf8 l = true.
Proof. intros. unfold from_utf8. by rewrite chars_ascii. Qed.

Lemma from_utf8_lossy_id l : from_utf8 l = true -> from_utf8_lossy l = l.
Proof.
  intros [cs H]%from_utf8_chars. revert l cs H.
  enough (forall n l cs, length l <= n -> chars l = Some cs -> from_utf8_lossy l = l) by eauto.
  induction n as [| n IH]; intros [| b0 r] cs Hn H; simpl in Hn; try lia; [done.. |].
  cbn [chars] in H. cbn [from_utf8_lossy].
  repeat case_match; try done; subst; bool_inv; try congruence.
  all: apply fmap_Some in H as (cs' & Hcs & ->).
  all: apply IH in Hcs; [by rewrite Hcs | simpl in Hn; lia].
Qed.

Lemma strip_prefix_Some p l r : strip_prefix p l = Some r <-> l = p ++ r.
Proof.
  revert l. induction p as [| a p IH]; intros [| b l]; simpl; try (split; congruence).
  destruct (ceq a b) eqn:E.
  - apply ceq_true in E as ->. rewrite IH. split; congruence.
  - apply ceq_false in E. split; congruence.
Qed.

Lemma strip_prefix_app p r : strip_prefix p (p ++ r) = Some r.
Proof. by apply strip_prefix_Some. Qed.

Lemma starts_with_spec p l : starts_with p l = true <-> p `prefix_of` l.
Proof.
  unfold starts_with. destruct (strip_prefix p l) eqn:E.
  - apply strip_prefix_Some in E as ->. split; [intros; by apply prefix_app_r | done].
  - split; [done |]. intros [k ->]. by rewrite strip_prefix_app in E.
Qed.

Lemma strip_suffix_Some p l r : strip_suffix p l = Some r <-> l = r ++ p.
Proof.
  unfold strip_suffix. rewrite fmap_Some. setoid_rewrite strip_prefix_Some. split.
  - intros (x & H & ->). apply (f_equal reverse) in H.
    by rewrite reverse_app, !reverse_involutive in H.
  - intros ->. exists (reverse r). by rewrite reverse_app, reverse_involutive.
Qed.

Lemma position_Some f l i :
  position f l = Some i <->
  exists pre b suf, l = pre ++ b :: suf /\ length pre = i /\ f b = true
                    /\ Forall (fun x => f x = false) pre.
Proof.
  revert i. induction l as [| a l IH]; intros i; simpl.
  - split; [done |]. intros (pre & b & suf & H & _). by destruct pre.
  - destruct (f a) eqn:E.
    + split.
      * intros [= <-]. by exists [], a, l.
      * intros ([| x pre] & b & suf & [= -> ->] & <- & Hb & Hp); [done |].
        inversion Hp; congruence.
    + rewrite fmap_Some. split.
      * intros (j & (pre & b & suf & -> & <- & Hb & Hp)%IH & ->).
        exists (a :: pre), b, suf. split_and!; auto.
      * intros ([| x pre] & b & suf & [= -> ->] & <- & Hb & Hp); [congruence |].
        exists (length pre). split; [| done]. inversion Hp; subst.
        apply IH. eauto 10.
Qed.

Lemma position_None f l : position f l = None <-> Forall (fun x => f x = false) l.
Proof.
  induction l as [| a l IH]; simpl; [done |].
  destruct (f a) eqn:E.
  - split; [done |]. intros H. inversion H. congruence.
  - rewrite fmap_None, IH. split; [auto |]. by inversion 1.
Qed.

Lemma take_while_spec f l :
  exists suf, l = take_while f l ++ suf /\ Forall (fun b => f b = true) (take_while f l) /\
    match suf with [] => True | b :: _ => f b = false end.
Proof.
  induction l as [| b l (suf & E & H & Hs)]; cbn [take_while].
  - by exists [].
  - destruct (f b) eqn:Hb.
    + exists suf. split_and!; [| auto | done]. cbn [app]. by rewrite <- E.
    + by exists (b :: l).
Qed.

Lemma take_while_app f l suf :
  Forall (fun b => f b = true) l -> match suf with [] => True | b :: _ => f b = false end ->
  take_while f (l ++ suf) = l.
Proof.
  induction 1 as [| b l Hb _ IH]; intros Hs; cbn [take_while app].
  - destruct suf as [| b suf]; [done |]. cbn [take_while]. by rewrite Hs.
  - rewrite Hb. f_equal. auto.
Qed.

Lemma scan_while_app f (pre l suf : bytes) :
  Forall (fun b => f b = true) l -> match suf with [] => True | b :: _ => f b = false end ->
  scan_while f (pre ++ l ++ suf) (length pre) = length pre + length l.
Proof. intros. unfold scan_while. by rewrite drop_app_length, take_while_app. Qed.

Lemma scan_while_le f l i : i <= length l -> i <= scan_while f l i <= length l.
Proof.
  intros Hi. unfold scan_while. destruct (take_while_spec f (drop i l)) as (suf & E & _).
  apply (f_equal length) in E. rewrite length_app, length_drop in E. lia.
Qed.

Lemma length_trim_start l : length (trim_start l) <= length l.
Proof.
  enough (forall n l, length l <= n -> length (trim_start l) <= length l) by eauto.
  clear l. induction n as [| n IH]; intros [| a r] Hn; cbn [trim_start];
    repeat case_match; simplify_eq/=; try lia.
  all: etrans; [apply IH; simpl; lia | simpl; lia].
Qed.

Lemma length_trim_rev l : length (trim_rev l) <= length l.
Proof.
  enough (forall n l, length l <= n -> length (trim_rev l) <= length l) by eauto.
  clear l. induction n as [| n IH]; intros [| a r] Hn; cbn [trim_rev];
    repeat case_match; simplify_eq/=; try lia.
  all: etrans; [apply IH; simpl; lia | simpl; lia].
Qed.

Lemma length_trim l : length (trim l) <= length l.
Proof.
  unfold trim, trim_end. rewrite length_reverse.
  etrans; [apply length_trim_rev |]. rewrite length_reverse. apply length_trim_start.
Qed.

Lemma parse_digits_bound max acc l n :
  (acc <= max)%N -> parse_digits max acc l = Ok n -> (n <= max)%N.
Proof.
  revert acc. induction l as [| b r IH]; intros acc Hacc; cbn [parse_digits]; [by intros [= <-] |].
  destruct (digit_value b); [| done].
  destruct (max <? acc * 10)%N; [done |].
  destruct (max <? acc * 10 + n0)%N eqn:E; [done |]. bool_inv. by apply IH.
Qed.

Lemma parse_digits_safe max acc l : safe (parse_digits max acc l).
Proof. revert acc. induction l as [| b l IH]; intros acc; cbn [parse_digits]; [done |]. by repeat case_match. Qed.

Lemma parse_u32_bound l n : parse_u32 l = Ok n -> (n < 2 ^ 32)%N.
Proof.
  unfold parse_u32. intros H.
  enough (n <= 4294967295)%N by lia.
  destruct l as [| b [| c r]]; [done | |]; eapply parse_digits_bound; [| done | | done]; lia.
Qed.

Lemma parse_u32_post l : post (parse_u32 l) (fun n => n < 2 ^ 32)%N.
Proof.
  assert (safe (parse_u32 l)) as Hs.
  { unfold parse_u32. destruct l as [| b [| c r]]; [done | |]; apply parse_digits_safe. }
  destruct (parse_u32 l) as [n | e | |] eqn:H; try done. by apply (parse_u32_bound l).
Qed.

Example parse_f64_half : parse_f64 (bs "0.5") = Ok (f64_of_decimal 5 1).
Proof. reflexivity. Qed.
Example parse_f64_dot : parse_f64 (bs ".") = Err invalid_float.
Proof. reflexivity. Qed.
Example f64_tenth : f64_of_decimal 1 1 = S754_finite false 7205759403792794 (-56).
Proof. vm_compute. reflexivity. Qed.
Example trim_nbsp : trim (map ascii_of_N [194; 160; 97; 32; 226; 128; 131]%N) = bs "a".
Proof. vm_compute. reflexivity. Qed.

Module F64.

Definition add (x y : f64) : f64 := SFadd 53 1024 x y.
Definition sub (x y : f64) : f64 := SFsub 53 1024 x y.
Definition mul (x y : f64) : f64 := SFmul 53 1024 x y.
Definition div (x y : f64) : f64 := SFdiv 53 1024 x y.
Definition sqrt (x : f64) : f64 := SFsqrt 53 1024 x.
Definition abs (x : f64) : f64 := SFabs x.
(** [powi(2)] *)
Definition square (x : f64) : f64 := mul x x.

Definition eqb (x y : f64) : bool := SFeqb x y.
Definition ltb (x y : f64) : bool := SFltb x y.
Definition leb (x y : f64) : bool := SFleb x y.

(** [n as f64] *)
Definition of_Z (z : Z) : f64 := binary_normalize 53 1024 z 0 false.
Definition of_N (n : N) : f64 := of_Z (Z.of_N n).
Definition of_nat (n : nat) : f64 := of_Z (Z.of_nat n).

Definition zero : f64 := S754_zero false.
Definition one : f64 := of_Z 1.

(** The numerator and the exponent of two of the denominator of a finite value. *)
Definition magnitude (m : positive) (e : Z) : Z * Z :=
  if (0 <=? e)%Z then (Zpos m * 2 ^ e, 1)%Z else (Zpos m, 2 ^ (- e))%Z.

(** [floor] and [ceil], as integers; [None] for an infinity or a NaN. *)
Definition floor (x : f64) : option Z :=
  match x with
  | S754_zero _ => Some 0%Z
  | S754_finite s m e =>
      let '(n, d) := magnitude m e in
      Some (if s then - ((n + d - 1) / d) else n / d)%Z
  | _ => None
  end.

Definition ceil (x : f64) : option Z := (fun z => - z)%Z <$> floor (SFopp x).

Definition usize_max : Z := (2 ^ 64 - 1)%Z.

(** [x as usize] of an integral value, saturating. *)
Definition as_usize (x : f64) (z : option Z) : nat :=
  match z with
  | Some z => Z.to_nat (Z.min z usize_max)
  | None => match x with S754_infinity false => Z.to_nat usize_max | _ => 0 end
  end.

Definition floor_usize (x : f64) : nat := as_usize x (floor x).
Definition ceil_usize (x : f64) : nat := as_usize x (ceil x).

(** [x.fract() == 0.0] *)
Definition is_integral (x : f64) : bool :=
  match x with
  | S754_zero _ => true
  | S754_finite _ m e => let '(n, d) := magnitude m e in (n mod d =? 0)%Z
  | _ => false
  end.

(** [f64::max] and [f64::min] *)
Definition max (x y : f64) : f64 :=
  match x, y with
  | S754_nan, _ => y
  | _, S754_nan => x
  | _, _ => if ltb x y then y else x
  end.

Definition min (x y : f64) : f64 :=
  match x, y with
  | S754_nan, _ => y
  | _, S754_nan => x
  | _, _ => if ltb y x then y else x
  end.

(** [f64::total_cmp]: by sign, then by magnitude; the NaN counts as positive. *)
Definition total_leb (x y : f64) : bool :=
  match x, y with
  | _, S754_nan => true
  | S754_nan, _ => false
  | S754_zero sx, S754_zero sy => sx || negb sy
  | _, _ => leb x y
  end.

Definition total_le (x y : f64) : Prop := total_leb x y = true.

#[global] Instance total_le_dec : RelDecision total_le.
Proof. intros x y. unfold total_le. apply _. Defined.

(** [Iterator::sum], which starts at [-0.0]. *)
Definition sum (l : list f64) : f64 := foldl add (S754_zero true) l.

(** ** Display *)

(** The quotient of [n / d], rounded half to even. *)
Definition round_div (n d : Z) : Z :=
  let q := (n / d)%Z in
  let r := (n mod d)%Z in
  match (2 * r ?= d)%Z with
  | Lt => q
  | Gt => q + 1
  | Eq => if Z.even q then q else q + 1
  end%Z.

Definition sign_text (s : bool) : bytes := if s then bs "-" else [].

(** The last [k] decimal digits of a number, padded with zeros. *)
Fixpoint digits (k : nat) (n : N) : bytes :=
  match k with
  | O => []
  | S k => digits k (n / 10) ++ [ascii_of_N (48 + n mod 10)]
  end.

(** [format!("{x:.k}")] *)
Definition show (k : nat) (x : f64) : bytes :=
  let fixed s (n d : Z) :=
    let z := Z.to_N (round_div (n * 10 ^ Z.of_nat k) d) in
    let p := (10 ^ N.of_nat k)%N in
    sign_text s ++ show_N (z / p) ++
    match k with O => [] | _ => bs "." ++ digits k (z mod p) end in
  match x with
  | S754_zero s => fixed s 0%Z 1%Z
  | S754_infinity s => sign_text s ++ bs "inf"
  | S754_nan => bs "NaN"
  | S754_finite s m e => let '(n, d) := magnitude m e in fixed s n d
  end.

(** ** Countable, for the keys of hash maps *)

Definition code (x : f64) : (bool + bool) + (unit + (bool * positive * Z)) :=
  match x with
  | S754_zero s => inl (inl s)
  | S754_infinity s => inl (inr s)
  | S754_nan => inr (inl ())
  | S754_finite s m e => inr (inr (s, m, e))
  end.

Definition decode (c : (bool + bool) + (unit + (bool * positive * Z))) : f64 :=
  match c with
  | inl (inl s) => S754_zero s
  | inl (inr s) => S754_infinity s
  | inr (inl _) => S754_nan
  | inr (inr (s, m, e)) => S754_finite s m e
  end.

#[global] Instance f64_eq_decision : EqDecision f64.
Proof. unfold f64. solve_decision. Defined.

#[global] Program Instance f64_countable : Countable f64 := inj_countable' code decode _.
Next Obligation. by intros []. Qed.

Example show_quarter : show 3 (div one (of_Z 4)) = bs "0.250".
Proof. reflexivity. Qed.

Example show_half_even : show 0 (div (of_Z 5) (of_Z 2)) = bs "2".
Proof. reflexivity. Qed.

Example ceil_third : (floor_usize (div one (of_Z 3)), ceil_usize (div one (of_Z 3))) = (0, 1).
Proof. reflexivity. Qed.

End F64.

(** [f64::log2] *)
Class Log2 : Type := { log2 : f64 -> f64 }.
