(* ===== verification/Shape.v ===== *)
(** The vocabulary of the code graph: visibility, binding, kind, reference
    and origin names (src/crates/core/src/core/kinds.rs) and the table that
    gives a definition kind its shape (src/crates/core/src/core/shape.rs). *)

From S2P Require Import Prelude.
From S2P Require Import RustStr.

Module Kinds.

Definition VIS_NONE : bytes := [].
Definition VIS_PUBLIC : bytes := bs "public".
Definition VIS_PROTECTED : bytes := bs "protected".
Definition VIS_PACKAGE : bytes := bs "package".
Definition VIS_PRIVATE : bytes := bs "private".
Definition VIS_MODULE : bytes := bs "module".

Definition BIND_EXPORT : bytes := bs "export".
Definition BIND_LOCAL : bytes := bs "local".
Definition BIND_IMPORT : bytes := bs "import".
Definition BIND_INJECT : bytes := bs "inject".
Definition BIND_NONE : bytes := bs "none".

Definition KIND_MODULE : bytes := bs "module".
Definition KIND_COMMENT : bytes := bs "comment".
Definition KIND_LOCAL : bytes := bs "local".
Definition KIND_PARAM : bytes := bs "param".

Definition REF_IMPORTS_SYMBOL : bytes := bs "imports_symbol".
Definition REF_IMPORTS_MODULE : bytes := bs "imports_module".
Definition REF_REEXPORTS : bytes := bs "reexports".
Definition REF_DI_REGISTER : bytes := bs "di_register".
Definition REF_DI_REQUIRE : bytes := bs "di_require".
Definition REF_CALLS : bytes := bs "calls".
Definition REF_METHOD_CALL : bytes := bs "method_call".
Definition REF_READS : bytes := bs "reads".
Definition REF_WRITES : bytes := bs "writes".
Definition REF_MEMBER_OF : bytes := bs "member_of".
Definition REF_REFERENCES : bytes := bs "references".
Definition REF_USES_TYPE : bytes := bs "uses_type".
Definition REF_RETURNS_TYPE : bytes := bs "returns_type".
Definition REF_TYPED_AS : bytes := bs "typed_as".
Definition REF_INSTANTIATES : bytes := bs "instantiates".
Definition REF_EXTENDS : bytes := bs "extends".
Definition REF_IMPLEMENTS : bytes := bs "implements".
Definition REF_ANNOTATES : bytes := bs "annotates".

Definition ORIGIN_EXTRACTED : bytes := bs "extracted".
Definition ORIGIN_DECLARED : bytes := bs "declared".
Definition ORIGIN_INFERRED : bytes := bs "inferred".

End Kinds.

Module Shape.

Inductive t : Set :=
| Namespace
| Type_
| Callable
| Value
| Annotation
| Ref.

#[global] Instance t_eq_dec : EqDecision t.
Proof. solve_decision. Defined.

Definition ALL : list t := [Namespace; Type_; Callable; Value; Annotation; Ref].

Definition as_bytes (s : t) : bytes :=
  match s with
  | Namespace => bs "namespace"
  | Type_ => bs "type"
  | Callable => bs "callable"
  | Value => bs "value"
  | Annotation => bs "annotation"
  | Ref => bs "ref"
  end.

Definition as_str (s : t) : bytes :=
  match s with
  | Namespace => bs "namespace"
  | Type_ => bs "type"
  | Callable => bs "callable"
  | Value => bs "value"
  | Annotation => bs "annotation"
  | Ref => bs "ref"
  end.

(** [FromStr]: the first shape of [ALL] with that name. *)
Definition from_str (s : bytes) : res bytes t :=
  ok_or (List.find (fun sh => beq (as_str sh) s) ALL)
        (bs "unknown shape `" ++ s ++ bs "`").

Definition SHAPE_TABLE : list (bytes * t * bool) :=
  [ (bs "module", Namespace, true);
    (bs "document", Namespace, true);
    (bs "section", Namespace, true);
    (bs "key", Namespace, true);
    (bs "item", Namespace, true);
    (bs "code_block", Value, false);
    (bs "link_definition", Value, false);
    (bs "namespace", Namespace, true);
    (bs "schema", Namespace, true);
    (bs "impl", Namespace, true);
    (bs "class", Type_, true);
    (bs "struct", Type_, true);
    (bs "interface", Type_, true);
    (bs "trait", Type_, true);
    (bs "enum", Type_, true);
    (bs "record", Type_, true);
    (bs "annotation_type", Type_, true);
    (bs "table", Type_, true);
    (bs "type", Type_, false);
    (bs "view", Type_, false);
    (bs "delegate", Type_, false);
    (bs "function", Callable, true);
    (bs "method", Callable, true);
    (bs "constructor", Callable, true);
    (bs "fn", Callable, true);
    (bs "func", Callable, true);
    (bs "macro", Callable, true);
    (bs "procedure", Callable, true);
    (bs "async_function", Callable, true);
    (bs "test", Callable, true);
    (bs "field", Value, false);
    (bs "column", Value, false);
    (bs "constraint", Value, false);
    (bs "index", Value, false);
    (bs "index_key", Value, false);
    (bs "index_include", Value, false);
    (bs "index_predicate", Value, false);
    (bs "constraint_column", Value, false);
    (bs "trigger", Value, false);
    (bs "property", Value, false);
    (bs "event", Value, false);
    (bs "enum_constant", Value, false);
    (bs "const", Value, false);
    (bs "static", Value, false);
    (bs "path", Value, false);
    (bs "var", Value, false);
    (bs "param", Value, false);
    (bs "local", Value, false);
    (bs "comment", Annotation, false) ].

Definition shape_of (kind : bytes) : option t :=
  (fun e => e.1.2) <$> List.find (fun e => beq e.1.1 kind) SHAPE_TABLE.

Definition opens_scope (kind : bytes) : bool :=
  match List.find (fun e => beq e.1.1 kind) SHAPE_TABLE with
  | Some e => e.2
  | None => false
  end.

Definition for_kind (kind : bytes) : t := default Ref (shape_of kind).

Definition known_kinds : list bytes := (fun e => e.1.1) <$> SHAPE_TABLE.

(** ** Lemmas *)

Lemma find_table kind e :
  List.find (fun e => beq e.1.1 kind) SHAPE_TABLE = Some e ->
  In e SHAPE_TABLE /\ e.1.1 = kind.
Proof. intros [Hin Hk]%find_some. bool_inv. done. Qed.

(** What the table says of a shape and of scopes, entry by entry. *)
Definition entry_ok (e : bytes * t * bool) : bool :=
  match e.1.2 with
  | Namespace | Callable => e.2
  | Value | Annotation => negb e.2
  | Type_ => true
  | Ref => false
  end.

Lemma table_ok : forallb entry_ok SHAPE_TABLE = true.
Proof. vm_compute. reflexivity. Qed.

Lemma find_entry_ok kind e :
  List.find (fun e => beq e.1.1 kind) SHAPE_TABLE = Some e -> entry_ok e = true.
Proof.
  intros [Hin _]%find_table.
  pose proof table_ok as Hok. rewrite forallb_forall in Hok. auto.
Qed.

(** A kind opens a scope exactly as its shape says: namespaces and
    callables always do, values and annotations never do, a kind outside the
    table does not, no kind of the table has the shape [Ref], and the kinds
    that have a shape are the known ones. *)
Theorem shape_scope (kind : bytes) :
  match shape_of kind with
  | Some Namespace | Some Callable => opens_scope kind = true
  | Some Value | Some Annotation => opens_scope kind = false
  | Some Type_ => for_kind kind = Type_
  | Some Ref => False
  | None => opens_scope kind = false /\ for_kind kind = Ref /\ kind ∉ known_kinds
  end.
Proof.
  unfold for_kind, shape_of, opens_scope.
  destruct (List.find _ SHAPE_TABLE) as [[[k s] o] |] eqn:E; cbn [fmap option_fmap option_map default from_option fst snd].
  - apply find_entry_ok in E. unfold entry_ok in E. cbn [fst snd] in E.
    destruct s; bool_inv; done.
  - split_and!; [done.. |]. unfold known_kinds. intros (e & -> & He%list_elem_of_In)%list_elem_of_fmap.
    apply (find_none _ _ E) in He. by rewrite beq_refl in He.
Qed.

(** [FromStr] inverts the names of the shapes and accepts nothing else. *)
Theorem from_str_spec (s : bytes) (sh : t) :
  from_str s = Ok sh <-> s = as_str sh.
Proof.
  unfold from_str. rewrite ok_or_Ok. split.
  - intros [_ H]%find_some. by bool_inv.
  - intros ->. destruct sh; vm_compute; reflexivity.
Qed.

End Shape.
