(* ===== verification/Moniker.v ===== *)
(** Monikers (src/crates/core/src/core/moniker/): the length-prefixed binary
    encoding, its validating parser, the view and its segment iterator, the
    builder, and the queries on monikers. *)

From S2P Require Import Prelude.
From S2P Require Import RustStr.

Module Moniker.

(** ** encoding.rs *)

Definition VERSION : ascii := ascii_of_N 2.
Definition HEADER_FIXED_LEN : nat := 1 + 2.

Inductive EncodingError : Set :=
| Truncated
| UnknownVersion (v : N)
| ProjectOverflow
| SegmentOverflow
| EmptyProject
| NonUtf8Project
| NonUtf8SegmentKind
| NonUtf8SegmentName
| InvalidSegmentKind
| ProjectTooLong (len : nat)
| SegmentKindTooLong (len : nat)
| SegmentNameTooLong (len : nat).

(** [fmt::Display for EncodingError] *)
Definition error_display (e : EncodingError) : bytes :=
  match e with
  | Truncated => bs "buffer too short for header"
  | UnknownVersion v => bs "unknown encoding version: " ++ show_N v
  | ProjectOverflow => bs "project bytes extend past buffer"
  | SegmentOverflow => bs "segment extends past buffer"
  | EmptyProject => bs "project must not be empty"
  | NonUtf8Project => bs "project must be valid UTF-8"
  | NonUtf8SegmentKind => bs "segment kind must be valid UTF-8"
  | NonUtf8SegmentName => bs "segment name must be valid UTF-8"
  | InvalidSegmentKind => bs "segment kind must be a URI identifier ([A-Za-z][A-Za-z0-9_]*)"
  | ProjectTooLong len => bs "project longer than u16::MAX bytes (" ++ show_nat len ++ bs ")"
  | SegmentKindTooLong len =>
      bs "segment kind longer than u16::MAX bytes (" ++ show_nat len ++ bs ")"
  | SegmentNameTooLong len =>
      bs "segment name longer than u16::MAX bytes (" ++ show_nat len ++ bs ")"
  end.

Definition read_u16 {E} (buf : bytes) (off : nat) : res E nat :=
  b0 ← index buf off;
  b1 ← index buf (off + 1);
  mret (N.to_nat (le_N [b0; b1])).

Definition write_u16 (buf : bytes) (value : N) : bytes := buf ++ le_bytes 2 value.

(** [n as u16] *)
Definition as_u16 (n : nat) : N := (N.of_nat n mod 65536)%N.

Definition is_uri_kind (l : bytes) : bool :=
  match l with
  | [] => false
  | first :: rest =>
      is_ascii_alphabetic first &&
      forallb (fun b => is_ascii_alphanumeric b || ceq b "_"%char) rest
  end.

(** ** view.rs *)

(** [Segment { kind, name }] *)
Abbreviation Segment := (bytes * bytes)%type.

Record MonikerView : Set := {
  view_bytes : bytes;
  project_off : nat;
  project_len : nat;
  segs_off : nat
}.

(** The [while cursor < bytes.len()] loop of [MonikerView::from_encoded]. *)
Fixpoint check_segments (fuel : nat) (buf : bytes) (cursor : nat) : res EncodingError () :=
  match fuel with
  | O => NoFuel
  | S fuel =>
      if negb (cursor <? length buf) then mret ()
      else if length buf <? cursor + 2 then Err SegmentOverflow
      else
        kind_len ← read_u16 buf cursor;
        let kind_start := cursor + 2 in
        let cursor := kind_start + kind_len in
        if length buf <? cursor then Err SegmentOverflow
        else
          kind ← slice buf kind_start cursor;
          if negb (from_utf8 kind) then Err NonUtf8SegmentKind
          else if negb (is_uri_kind kind) then Err InvalidSegmentKind
          else if length buf <? cursor + 2 then Err SegmentOverflow
          else
            name_len ← read_u16 buf cursor;
            let name_start := cursor + 2 in
            let cursor := name_start + name_len in
            if length buf <? cursor then Err SegmentOverflow
            else
              name ← slice buf name_start cursor;
              if negb (from_utf8 name) then Err NonUtf8SegmentName
              else check_segments fuel buf cursor
  end.

Definition view_from_encoded (buf : bytes) : res EncodingError MonikerView :=
  if length buf <? HEADER_FIXED_LEN then Err Truncated
  else
    version ← index buf 0;
    if negb (ceq version VERSION) then Err (UnknownVersion (N_of_ascii version))
    else
      project_len ← read_u16 buf 1;
      let project_off := 3 in
      let segs_off := project_off + project_len in
      if length buf <? segs_off then Err ProjectOverflow
      else
        project ← slice buf project_off (project_off + project_len);
        match project with
        | [] => Err EmptyProject
        | _ =>
            if negb (from_utf8 project) then Err NonUtf8Project
            else
              _ ← check_segments (S (length buf)) buf segs_off;
              mret {| view_bytes := buf; project_off := project_off;
                      project_len := project_len; segs_off := segs_off |}
        end.

Definition view_from_encoded_unchecked {E} (buf : bytes) : res E MonikerView :=
  project_len ← read_u16 buf 1;
  let project_off := 3 in
  let segs_off := project_off + project_len in
  mret {| view_bytes := buf; project_off := project_off;
          project_len := project_len; segs_off := segs_off |}.

Definition view_project {E} (v : MonikerView) : res E bytes :=
  slice (view_bytes v) (project_off v) (project_off v + project_len v).

Record SegmentIter : Set := { iter_bytes : bytes; cursor : nat }.

(** [SegmentIter::next] *)
Definition iter_next {E} (it : SegmentIter) : res E (option (Segment * SegmentIter)) :=
  if length (iter_bytes it) <=? cursor it then mret None
  else
    kind_len ← read_u16 (iter_bytes it) (cursor it);
    let kind_start := cursor it + 2 in
    kind ← slice (iter_bytes it) kind_start (kind_start + kind_len);
    let name_len_off := kind_start + kind_len in
    name_len ← read_u16 (iter_bytes it) name_len_off;
    let name_start := name_len_off + 2 in
    name ← slice (iter_bytes it) name_start (name_start + name_len);
    mret (Some ((kind, name),
                {| iter_bytes := iter_bytes it; cursor := name_start + name_len |})).

(** The segments an iterator yields until it is exhausted. *)
Fixpoint collect {E} (fuel : nat) (it : SegmentIter) : res E (list Segment) :=
  match fuel with
  | O => NoFuel
  | S fuel =>
      n ← iter_next it;
      match n with
      | None => mret []
      | Some (seg, it) => rest ← collect fuel it; mret (seg :: rest)
      end
  end.

Definition view_segments {E} (v : MonikerView) : res E (list Segment) :=
  collect (S (length (view_bytes v)))
          {| iter_bytes := view_bytes v; cursor := segs_off v |}.

Definition segment_count {E} (v : MonikerView) : res E N :=
  segs ← view_segments v; mret (as_u16 (length segs)).

Definition view_is_ancestor_of {E} (v other : MonikerView) : res E bool :=
  p ← view_project v;
  q ← view_project other;
  if negb (beq p q) then mret false
  else mret (starts_with (view_bytes v) (view_bytes other)).

(** ** mod.rs *)

Record t : Set := mk { encoded : bytes }.

Definition from_encoded (buf : bytes) : res EncodingError t :=
  _ ← view_from_encoded buf; mret (mk buf).

Definition from_encoded_unchecked (buf : bytes) : t := mk buf.

Definition as_view {E} (m : t) : res E MonikerView := view_from_encoded_unchecked (encoded m).

(** ** builder.rs *)

Definition MAX_COMPONENT_LEN : N := 65535.

Record Builder : Set := mk_builder {
  project : bytes;
  segments : list (bytes * bytes)
}.

Definition new : Builder := mk_builder [] [].

Definition set_project (b : Builder) (p : bytes) : Builder := mk_builder p (segments b).

Definition push_segment (b : Builder) (kind name : bytes) : Builder :=
  mk_builder (project b) (segments b ++ [(kind, name)]).

Definition truncate (b : Builder) (len : nat) : Builder :=
  mk_builder (project b) (take len (segments b)).

Definition from_view {E} (v : MonikerView) : res E Builder :=
  p ← view_project v;
  segs ← view_segments v;
  mret (foldl (fun b seg => push_segment b seg.1 seg.2) (set_project new p) segs).

(** The [for (kind, name) in &self.segments] loop of [try_build]. *)
Fixpoint write_segments (buf : bytes) (segs : list (bytes * bytes)) : res EncodingError bytes :=
  match segs with
  | [] => mret buf
  | (kind, name) :: rest =>
      if negb (from_utf8 kind) then Err NonUtf8SegmentKind
      else if negb (is_uri_kind kind) then Err InvalidSegmentKind
      else if negb (from_utf8 name) then Err NonUtf8SegmentName
      else if (MAX_COMPONENT_LEN <? N.of_nat (length kind))%N
      then Err (SegmentKindTooLong (length kind))
      else if (MAX_COMPONENT_LEN <? N.of_nat (length name))%N
      then Err (SegmentNameTooLong (length name))
      else
        let buf := write_u16 buf (as_u16 (length kind)) in
        let buf := buf ++ kind in
        let buf := write_u16 buf (as_u16 (length name)) in
        let buf := buf ++ name in
        write_segments buf rest
  end.

Definition try_build (b : Builder) : res EncodingError t :=
  match project b with
  | [] => Err EmptyProject
  | _ =>
      if negb (from_utf8 (project b)) then Err NonUtf8Project
      else if (MAX_COMPONENT_LEN <? N.of_nat (length (project b)))%N
      then Err (ProjectTooLong (length (project b)))
      else
        let buf := [VERSION] in
        let buf := write_u16 buf (as_u16 (length (project b))) in
        let buf := buf ++ project b in
        buf ← write_segments buf (segments b);
        mret (from_encoded_unchecked buf)
  end.

(** [build]: [try_build], panicking on an error. *)
Definition build {E} (b : Builder) : res E t :=
  match try_build b with
  | Ok m => Ok m
  | NoFuel => NoFuel
  | _ => Panic
  end.

(** ** query.rs *)

Definition bare_callable_name (name : bytes) : bytes :=
  match position (fun b => ceq b "("%char) name with
  | Some i => take i name
  | None => name
  end.

Definition is_ancestor_of {E} (m other : t) : res E bool :=
  v ← as_view m; w ← as_view other; view_is_ancestor_of v w.

Definition parent {E} (m : t) : res E (option t) :=
  view ← as_view m;
  n ← segment_count view;
  if (n =? 0)%N then mret None
  else
    b ← from_view view;
    let b := truncate b (N.to_nat (n - 1)) in
    p ← build b;
    mret (Some p).

Definition last_kind {E} (m : t) : res E (option bytes) :=
  v ← as_view m;
  segs ← view_segments v;
  mret (fst <$> last segs).

Definition lang_segment (segs : list Segment) : option bytes :=
  snd <$> List.find (fun s => beq s.1 (bs "lang")) segs.

Definition last_segment_match (left right : list Segment) (l_name r_name : bytes) : bool :=
  if beq l_name r_name then true
  else
    let l_lang := lang_segment left in
    let r_lang := lang_segment right in
    match l_lang with
    | Some lang =>
        if bool_decide (l_lang = r_lang) then
          if beq lang (bs "sql") then beq (bare_callable_name l_name) (bare_callable_name r_name)
          else if beq lang (bs "ts") then beq (bare_callable_name l_name) (bare_callable_name r_name)
          else if beq lang (bs "java") then beq (bare_callable_name l_name) (bare_callable_name r_name)
          else if beq lang (bs "python") then beq (bare_callable_name l_name) (bare_callable_name r_name)
          else if beq lang (bs "rs") then beq (bare_callable_name l_name) (bare_callable_name r_name)
          else if beq lang (bs "go") then beq (bare_callable_name l_name) (bare_callable_name r_name)
          else if beq lang (bs "cs") then beq (bare_callable_name l_name) (bare_callable_name r_name)
          else false
        else false
    | None => false
    end.

(** The [loop] of [MonikerView::bind_match]: [ls] and [rs] are what the two
    iterators still have to yield, [prev_l] and [prev_r] the pair read last. *)
Fixpoint bind_match_loop (left right : list Segment) (prev_l prev_r : Segment)
    (ls rs : list Segment) : bool :=
  match ls, rs with
  | [], [] => last_segment_match left right prev_l.2 prev_r.2
  | _ :: _, [] | [], _ :: _ => false
  | nl :: ls, nr :: rs =>
      if negb (bool_decide (prev_l = prev_r)) then false
      else bind_match_loop left right nl nr ls rs
  end.

Definition view_bind_match {E} (v other : MonikerView) : res E bool :=
  p ← view_project v;
  q ← view_project other;
  if negb (beq p q) then mret false
  else
    left ← view_segments v;
    right ← view_segments other;
    match left, right with
    | prev_l :: ls, prev_r :: rs => mret (bind_match_loop left right prev_l prev_r ls rs)
    | _, _ => mret false
    end.

Definition bind_match {E} (m other : t) : res E bool :=
  v ← as_view m; w ← as_view other; view_bind_match v w.

Definition with_bare_last_segment {E} (m : t) : res E t :=
  view ← as_view m;
  segs ← view_segments view;
  match last segs with
  | None => mret m
  | Some last =>
      let bare := bare_callable_name last.2 in
      if length bare =? length last.2 then mret m
      else
        p ← view_project view;
        let b := set_project new p in
        let b := foldl (fun b s => push_segment b s.1 s.2) b (take (length segs - 1) segs) in
        build (push_segment b last.1 bare)
  end.

(** [derive(Ord)] on the bytes: lexicographic. *)
Fixpoint bytes_le (a b : bytes) : bool :=
  match a, b with
  | [], _ => true
  | _ :: _, [] => false
  | x :: a, y :: b =>
      (N_of_ascii x <? N_of_ascii y)%N || (ceq x y && bytes_le a b)
  end.

(** ** The abstract moniker: a project and a path of segments *)

Definition fits (l : bytes) : bool := (N.of_nat (length l) <=? MAX_COMPONENT_LEN)%N.

Definition seg_ok (s : Segment) : bool :=
  is_uri_kind s.1 && from_utf8 s.2 && fits s.1 && fits s.2.

Definition parts_ok (p : bytes) (segs : list Segment) : bool :=
  negb (beq p []) && from_utf8 p && fits p && forallb seg_ok segs.

Definition le_u16 (n : nat) : bytes := le_bytes 2 (N.of_nat n).
Arguments le_u16 : simpl never.

Definition enc_seg (s : Segment) : bytes :=
  le_u16 (length s.1) ++ s.1 ++ le_u16 (length s.2) ++ s.2.

Definition enc_segs (segs : list Segment) : bytes := concat (enc_seg <$> segs).

Definition enc_parts (p : bytes) (segs : list Segment) : bytes :=
  VERSION :: le_u16 (length p) ++ p ++ enc_segs segs.

(** [m] is the encoding of project [p] and path [segs], both well formed. *)
Definition valid (m : t) (p : bytes) (segs : list Segment) : Prop :=
  parts_ok p segs = true /\ encoded m = enc_parts p segs.

#[global] Instance t_eq_dec : EqDecision t.
Proof. solve_decision. Defined.

#[global] Program Instance t_countable : Countable t :=
  inj_countable' encoded mk _.
Next Obligation. by intros []. Qed.

End Moniker.
