(* ===== verification/MonikerFacts.v ===== *)
(** Theorems on monikers: the encoding is a bijection with well-formed
    project/path pairs, its parser never panics, and the queries compute on
    the bytes what they mean on the path.

    Theorems on matching monikers (src/crates/core/src/core/moniker/query.rs):
    what [bind_match] decides on paths, that it is a partial equivalence, and
    what [with_bare_last_segment] returns. *)

From S2P Require Import Prelude.
From S2P Require Import RustStr.
From S2P Require Import Moniker.

Import Moniker.

Module MonikerFacts.

(** A concrete moniker is valid: evaluate the checks. *)
Ltac solve_valid := split; [vm_compute; reflexivity | reflexivity].

(** ** Words *)

Lemma fits_le l : fits l = true <-> (N.of_nat (length l) < 65536)%N.
Proof. unfold fits, MAX_COMPONENT_LEN. rewrite N.leb_le. lia. Qed.

Lemma as_u16_le (n : nat) : le_bytes 2 (as_u16 n) = le_u16 n.
Proof.
  unfold as_u16, le_u16. cbn [le_bytes].
  assert (H : (N.of_nat n mod 65536 = N.of_nat n mod (256 * 256))%N) by done.
  rewrite H. rewrite N.Div0.mod_mul_r.
  set (x := N.of_nat n). unfold byte_N. f_equal; [| f_equal].
  - rewrite (N.mul_comm 256), N.Div0.mod_add, N.Div0.mod_mod. done.
  - rewrite (N.mul_comm 256), N.div_add, N.div_small, N.add_0_l by
      (try apply N.mod_lt; lia).
    by rewrite N.Div0.mod_mod.
Qed.

Lemma length_le_u16 n : length (le_u16 n) = 2.
Proof. apply length_le_bytes. Qed.

Lemma read_u16_pair {E} (pre : bytes) b0 b1 suf off :
  off = length pre ->
  read_u16 (E:=E) (pre ++ b0 :: b1 :: suf) off = Ok (N.to_nat (le_N [b0; b1])).
Proof.
  intros ->. unfold read_u16.
  rewrite (index_app pre _ b0 (length pre)), ret_bind by done.
  rewrite (cons_middle b0 pre), app_assoc.
  by rewrite index_app by (rewrite length_app; simpl; lia).
Qed.

Lemma le_N_le_u16 n : (N.of_nat n < 65536)%N -> N.to_nat (le_N (le_u16 n)) = n.
Proof. intros. unfold le_u16. rewrite le_N_le_bytes, N.mod_small; simpl; lia. Qed.

Lemma read_u16_app {E} (pre : bytes) n suf off :
  off = length pre -> (N.of_nat n < 65536)%N ->
  read_u16 (E:=E) (pre ++ le_u16 n ++ suf) off = Ok n.
Proof.
  intros Hoff Hn. unfold le_u16. cbn [le_bytes app].
  rewrite read_u16_pair by done. f_equal. by apply le_N_le_u16.
Qed.

Lemma read_u16_header {E} c n suf :
  (N.of_nat n < 65536)%N -> read_u16 (E:=E) (c :: le_u16 n ++ suf) 1 = Ok n.
Proof. intros. by apply (read_u16_app [c]). Qed.

Lemma le_u16_le_N b0 b1 : le_u16 (N.to_nat (le_N [b0; b1])) = [b0; b1].
Proof.
  unfold le_u16. rewrite N2Nat.id. apply (le_bytes_le_N [b0; b1]).
Qed.

(** A buffer with two more bytes starts with a word. *)
Lemma take_u16 (rest : bytes) :
  2 <= length rest -> exists n suf, rest = le_u16 n ++ suf /\ (N.of_nat n < 65536)%N.
Proof.
  destruct rest as [| b0 [| b1 suf]]; cbn [length]; try lia. intros _.
  exists (N.to_nat (le_N [b0; b1])), suf. split.
  - by rewrite le_u16_le_N.
  - pose proof (le_N_bound [b0; b1]) as H. simpl length in H. lia.
Qed.

Lemma take_bytes (rest : bytes) n :
  n <= length rest -> exists m suf, rest = m ++ suf /\ length m = n.
Proof.
  exists (take n rest), (drop n rest).
  rewrite take_drop, length_take. split; [done | lia].
Qed.

(** ** The parser *)

Lemma length_enc_seg s : length (enc_seg s) = 4 + length s.1 + length s.2.
Proof. unfold enc_seg. rewrite !length_app, !length_le_u16. lia. Qed.

Lemma is_uri_kind_utf8 k : is_uri_kind k = true -> from_utf8 k = true.
Proof.
  intros H. apply from_utf8_ascii. destruct k as [| a k]; [done |].
  simpl in H. apply andb_prop in H as [Ha Hk].
  assert (Hal : forall b, is_ascii_alphabetic b = true -> is_ascii b = true).
  { intros b. unfold is_ascii_alphabetic. rewrite orb_true_iff, !in_range_spec, is_ascii_spec. lia. }
  cbn [forallb]. rewrite (Hal _ Ha). simpl.
  rewrite forallb_forall in Hk |- *. intros b [Hb | Hb]%Hk%orb_prop.
  - apply orb_prop in Hb as [? | Hb]; [auto |].
    apply is_ascii_spec. apply in_range_spec in Hb. lia.
  - by apply ceq_true in Hb as ->.
Qed.

Lemma seg_ok_spec s :
  seg_ok s = true <->
  is_uri_kind s.1 = true /\ from_utf8 s.2 = true /\ fits s.1 = true /\ fits s.2 = true.
Proof. unfold seg_ok. rewrite !andb_true_iff. tauto. Qed.

(** The loop of the parser on the bytes after [pre]: it returns, and it
    accepts exactly the encodings of well-formed segments. *)
Lemma check_segments_post fuel (pre rest : bytes) :
  length rest < fuel ->
  post (check_segments fuel (pre ++ rest) (length pre))
       (fun _ => exists segs, rest = enc_segs segs /\ forallb seg_ok segs = true).
Proof.
  revert pre rest. induction fuel as [| fuel IH]; intros pre rest Hf; [lia |].
  cbn [check_segments]. rewrite !length_app.
  destruct (length pre <? length pre + length rest) eqn:Hc; bool_inv; cbn [negb].
  2: { exists []. split; [| done]. destruct rest; [done | simpl in Hc; lia]. }
  destruct (length pre + length rest <? length pre + 2) eqn:H2; bool_inv; [done |].
  destruct (take_u16 rest) as (kl & r1 & -> & Hkl); [lia |].
  rewrite length_app, length_le_u16 in *.
  rewrite read_u16_app, ret_bind by done.
  destruct (length pre + _ <? length pre + 2 + kl) eqn:Hk; bool_inv; [done |].
  destruct (take_bytes r1 kl) as (kind & r2 & -> & Hlen); [lia |]. rewrite length_app in *.
  rewrite (app_assoc pre), (slice_mid _ kind r2), ret_bind by
    (rewrite length_app, length_le_u16; lia).
  destruct (from_utf8 kind) eqn:Hku; [cbn [negb] | done].
  destruct (is_uri_kind kind) eqn:Hki; [cbn [negb] | done].
  destruct (length pre + _ <? length pre + 2 + kl + 2) eqn:H3; bool_inv; [done |].
  destruct (take_u16 r2) as (nl & r3 & -> & Hnl); [lia |].
  rewrite length_app, length_le_u16 in *.
  rewrite (app_assoc _ kind), read_u16_app, ret_bind by
    (try done; rewrite !length_app, length_le_u16; lia).
  destruct (length pre + _ <? length pre + 2 + kl + 2 + nl) eqn:Hn; bool_inv; [done |].
  destruct (take_bytes r3 nl) as (name & r4 & -> & Hlen2); [lia |]. rewrite length_app in *.
  rewrite (app_assoc _ (le_u16 nl)), (slice_mid _ name r4), ret_bind by
    (rewrite !length_app, !length_le_u16; lia).
  destruct (from_utf8 name) eqn:Hnu; [cbn [negb] | done].
  rewrite (app_assoc _ name). set (pre' := (((pre ++ _) ++ _) ++ _) ++ _).
  replace (length pre + 2 + kl + 2 + nl) with (length pre') by
    (unfold pre'; rewrite !length_app, !length_le_u16; lia).
  eapply post_mono; [apply IH; lia |].
  intros _ (segs & -> & Hsegs). exists ((kind, name) :: segs). split.
  - unfold enc_segs. rewrite fmap_cons. cbn [concat]. unfold enc_seg.
    rewrite <- !app_assoc. subst kl nl. done.
  - cbn [forallb]. rewrite Hsegs, andb_true_r. apply seg_ok_spec. cbn [fst snd].
    rewrite !fits_le. subst. done.
Qed.

Lemma enc_segs_cons s segs : enc_segs (s :: segs) = enc_seg s ++ enc_segs segs.
Proof. done. Qed.

Lemma enc_segs_app s1 s2 : enc_segs (s1 ++ s2) = enc_segs s1 ++ enc_segs s2.
Proof. unfold enc_segs. by rewrite fmap_app, concat_app. Qed.

(** The words and slices of one encoded segment inside a buffer. *)
Lemma seg_reads {E} (full pre k n suf : bytes) :
  full = pre ++ enc_seg (k, n) ++ suf -> fits k = true -> fits n = true ->
  read_u16 (E:=E) full (length pre) = Ok (length k) /\
  slice (E:=E) full (length pre + 2) (length pre + 2 + length k) = Ok k /\
  read_u16 (E:=E) full (length pre + 2 + length k) = Ok (length n) /\
  slice (E:=E) full (length pre + 2 + length k + 2)
        (length pre + 2 + length k + 2 + length n) = Ok n /\
  length full = length pre + 2 + length k + 2 + length n + length suf.
Proof.
  rewrite !fits_le. unfold enc_seg. cbn [fst snd]. rewrite <- !app_assoc. intros -> Hk Hn.
  split_and!.
  - by apply read_u16_app.
  - rewrite (app_assoc pre). apply slice_mid; rewrite length_app, length_le_u16; lia.
  - rewrite (app_assoc pre), (app_assoc _ k).
    apply read_u16_app; [| done]. rewrite !length_app, length_le_u16; lia.
  - rewrite (app_assoc pre), (app_assoc _ k), (app_assoc _ (le_u16 _)).
    apply slice_mid; rewrite !length_app, !length_le_u16; lia.
  - rewrite !length_app, !length_le_u16. lia.
Qed.

(** Reading one segment back from its encoding. *)
Lemma iter_next_enc {E} (pre suf : bytes) s :
  seg_ok s = true ->
  iter_next (E:=E) {| iter_bytes := pre ++ enc_seg s ++ suf; cursor := length pre |} =
  Ok (Some (s, {| iter_bytes := pre ++ enc_seg s ++ suf; cursor := length (pre ++ enc_seg s) |})).
Proof.
  intros (_ & _ & Hk & Hn)%seg_ok_spec. destruct s as [kind name]. cbn [fst snd] in *.
  unfold iter_next. cbn [iter_bytes cursor].
  set (full := pre ++ _). cbn [fst snd].
  destruct (seg_reads (E:=E) full pre kind name suf) as (R1 & S1 & R2 & S2 & ->); [done.. |].
  rewrite (proj2 (Nat.leb_gt _ _)) by lia.
  rewrite R1, ret_bind, S1, ret_bind, R2, ret_bind, S2, ret_bind.
  do 4 f_equal. rewrite length_app, length_enc_seg. cbn [fst snd]. lia.
Qed.

Lemma collect_enc {E} fuel (pre : bytes) segs :
  length segs < fuel -> forallb seg_ok segs = true ->
  collect (E:=E) fuel {| iter_bytes := pre ++ enc_segs segs; cursor := length pre |} = Ok segs.
Proof.
  revert pre fuel. induction segs as [| s segs IH]; intros pre [| fuel] Hf Hok; simpl in Hf; try lia.
  - cbn [collect]. unfold iter_next. cbn [iter_bytes cursor].
    rewrite length_app, (proj2 (Nat.leb_le _ _)) by (simpl; lia). done.
  - cbn [forallb] in Hok. apply andb_prop in Hok as [Hs Hok].
    cbn [collect]. rewrite enc_segs_cons, iter_next_enc, ret_bind by done.
    rewrite app_assoc, IH by (try done; lia). done.
Qed.

(** The header of an encoded moniker. *)
Lemma enc_parts_split p segs :
  enc_parts p segs = ([VERSION] ++ le_u16 (length p) ++ p) ++ enc_segs segs.
Proof. unfold enc_parts. by rewrite <- !app_assoc. Qed.

Lemma parts_ok_spec p segs :
  parts_ok p segs = true <->
  p <> [] /\ from_utf8 p = true /\ fits p = true /\ forallb seg_ok segs = true.
Proof. unfold parts_ok. rewrite !andb_true_iff, negb_true_iff, beq_false. tauto. Qed.

Definition view_of (p : bytes) (segs : list Segment) : MonikerView :=
  {| view_bytes := enc_parts p segs; project_off := 3;
     project_len := length p; segs_off := 3 + length p |}.

Section Valid.
Context {E : Type} (m : t) (p : bytes) (segs : list Segment) (Hv : valid m p segs).

Lemma as_view_valid : as_view (E:=E) m = Ok (view_of p segs).
Proof using Hv.
  destruct Hv as [(_ & _ & Hf & _)%parts_ok_spec He]. rewrite fits_le in Hf.
  unfold as_view, view_from_encoded_unchecked. rewrite He. unfold enc_parts.
  rewrite read_u16_header by done. done.
Qed.

Lemma view_project_valid : view_project (E:=E) (view_of p segs) = Ok p.
Proof.
  unfold view_project, view_of. cbn [view_bytes project_off project_len].
  unfold enc_parts.
  change (VERSION :: ?x ++ p ++ ?s) with ((VERSION :: x) ++ p ++ s).
  apply slice_mid; [by rewrite length_cons, length_le_u16 | ].
  rewrite length_cons, length_le_u16. lia.
Qed.

Lemma length_segs_enc l : length l <= length (enc_segs l).
Proof.
  induction l as [| s l IH]; [simpl; lia |].
  rewrite enc_segs_cons, length_app, length_enc_seg. simpl. lia.
Qed.

Lemma view_segments_valid : view_segments (E:=E) (view_of p segs) = Ok segs.
Proof using Hv.
  destruct Hv as [(_ & _ & _ & Hs)%parts_ok_spec _].
  unfold view_segments, view_of. cbn [view_bytes segs_off]. rewrite enc_parts_split.
  replace (3 + length p) with (length ([VERSION] ++ le_u16 (length p) ++ p)) by
    (rewrite !length_app, length_le_u16; simpl; lia).
  rewrite collect_enc; [done | | done].
  rewrite length_app. pose proof (length_segs_enc segs). lia.
Qed.

End Valid.

(** Rewriting with the view of a valid moniker. *)
Ltac view_simpl H :=
  rewrite (as_view_valid _ _ _ H), ?ret_bind, ?view_project_valid, ?ret_bind,
    ?(view_segments_valid _ _ _ H), ?ret_bind.

Lemma check_segments_enc fuel (pre : bytes) segs :
  length (enc_segs segs) < fuel -> forallb seg_ok segs = true ->
  check_segments fuel (pre ++ enc_segs segs) (length pre) = Ok ().
Proof.
  revert pre fuel. induction segs as [| [k n] segs IH]; intros pre [| fuel] Hf Hok; try (simpl in Hf; lia).
  - cbn [check_segments]. rewrite length_app, (proj2 (Nat.ltb_ge _ _)) by (simpl; lia). done.
  - cbn [forallb] in Hok. apply andb_prop in Hok as [Hs Hok].
    apply seg_ok_spec in Hs as (Hki & Hnu & Hk & Hn). cbn [fst snd] in *.
    rewrite enc_segs_cons, length_app, length_enc_seg in Hf. cbn [fst snd] in Hf.
    rewrite enc_segs_cons. set (full := pre ++ _). cbn [check_segments].
    destruct (seg_reads (E:=EncodingError) full pre k n (enc_segs segs))
      as (R1 & S1 & R2 & S2 & ->); [done.. |].
    rewrite (proj2 (Nat.ltb_lt _ _)), (proj2 (Nat.ltb_ge _ _)), R1, ret_bind by lia. cbn [negb].
    rewrite (proj2 (Nat.ltb_ge _ _)), S1, ret_bind by lia.
    rewrite is_uri_kind_utf8, Hki by done. cbn [negb].
    rewrite (proj2 (Nat.ltb_ge _ _)), R2, ret_bind by lia.
    rewrite (proj2 (Nat.ltb_ge _ _)), S2, ret_bind, Hnu by lia. cbn [negb].
    unfold full. rewrite app_assoc.
    replace (_ + length n) with (length (pre ++ enc_seg (k, n))) by
      (rewrite length_app, length_enc_seg; cbn [fst snd]; lia).
    apply IH; [lia | done].
Qed.

Lemma view_from_encoded_post buf :
  post (view_from_encoded buf) (fun _ => exists p segs, valid (mk buf) p segs).
Proof.
  unfold view_from_encoded, HEADER_FIXED_LEN.
  destruct (length buf <? 1 + 2) eqn:Hl; bool_inv; [done |].
  destruct buf as [| v rest]; [simpl in Hl; lia |]. simpl in Hl.
  unfold index at 1. cbn [lookup list_lookup]. rewrite ret_bind.
  destruct (ceq v VERSION) eqn:Hver; [| done]. apply ceq_true in Hver as ->. cbn [negb].
  destruct (take_u16 rest) as (pl & r1 & -> & Hpl); [lia |].
  rewrite read_u16_header, ret_bind by done.
  rewrite length_cons, length_app, length_le_u16.
  destruct (S (2 + length r1) <? 3 + pl) eqn:Hp; bool_inv; [done |].
  destruct (take_bytes r1 pl) as (p & r2 & -> & Hlen); [lia |].
  change (VERSION :: le_u16 pl ++ p ++ r2) with ((VERSION :: le_u16 pl) ++ p ++ r2).
  rewrite slice_mid, ret_bind by (rewrite length_cons, length_le_u16; lia).
  destruct p as [| p0 p']; [done |]. set (p := p0 :: p') in *.
  destruct (from_utf8 p) eqn:Hu; [| done]. cbn [negb].
  replace (3 + pl) with (length ((VERSION :: le_u16 pl) ++ p)) by
    (rewrite length_app, length_cons, length_le_u16; lia).
  rewrite (app_assoc _ p).
  eapply post_bind; [apply check_segments_post; rewrite !length_app; lia |].
  intros _ (segs & -> & Hs). exists p, segs. split.
  - apply parts_ok_spec. rewrite fits_le, Hlen. done.
  - cbn [encoded]. unfold enc_parts. rewrite Hlen, <- app_assoc. done.
Qed.

Lemma from_encoded_Ok (buf : bytes) (m : t) :
  from_encoded buf = Ok m <-> encoded m = buf /\ exists p segs, valid m p segs.
Proof.
  split.
  - intros H. unfold from_encoded in H. apply bind_Ok in H as (v & H & [= <-]).
    pose proof (view_from_encoded_post buf) as Hp. rewrite H in Hp. done.
  - intros [<- (p & segs & [(Hne & Hu & Hf & Hs)%parts_ok_spec He])].
    destruct m as [buf]. cbn [encoded] in *. unfold from_encoded.
    enough (Hok : exists v, view_from_encoded buf = Ok v) by (destruct Hok as [v ->]; done).
    rewrite fits_le in Hf. unfold view_from_encoded, HEADER_FIXED_LEN.
    assert (Hlen : length buf = 3 + length p + length (enc_segs segs)).
    { rewrite He, enc_parts_split, !length_app, length_le_u16. simpl. lia. }
    rewrite Hlen, (proj2 (Nat.ltb_ge _ _)) by lia.
    rewrite He. unfold enc_parts. unfold index at 1. cbn [lookup list_lookup].
    rewrite ret_bind, ceq_refl. cbn [negb].
    rewrite read_u16_header, ret_bind by done.
    rewrite (proj2 (Nat.ltb_ge _ _)) by lia.
    change (VERSION :: ?x ++ p ++ ?s) with ((VERSION :: x) ++ p ++ s).
    rewrite slice_mid, ret_bind by (rewrite length_cons, length_le_u16; lia).
    destruct p as [| p0 p']; [done |]. rewrite Hu. cbn [negb]. set (p := p0 :: p') in *.
    rewrite (app_assoc _ p).
    replace (3 + length p) with (length ((VERSION :: le_u16 (length p)) ++ p)) by
      (rewrite length_app, length_cons, length_le_u16; lia).
    rewrite check_segments_enc by (try done; rewrite !length_app, length_cons; lia).
    rewrite ret_bind. eauto.
Qed.

Lemma from_encoded_valid m p segs : valid m p segs -> from_encoded (encoded m) = Ok m.
Proof. intros H. apply from_encoded_Ok. by eauto. Qed.

Lemma from_encoded_post buf :
  post (from_encoded buf) (fun m => encoded m = buf /\ exists p segs, valid m p segs).
Proof.
  eapply post_bind; [apply view_from_encoded_post |]. done.
Qed.

(** [from_encoded] accepts a buffer exactly when it is the encoding of a
    nonempty UTF-8 project and of a path of segments whose kinds are URI
    identifiers and whose names are UTF-8, every component at most [u16::MAX]
    bytes; the moniker it returns is the buffer. *)
Theorem from_encoded_iff (buf : bytes) (m : t) :
  from_encoded buf = Ok m <-> encoded m = buf /\ exists p segs, valid m p segs.
Proof. apply from_encoded_Ok. Qed.

(** Parsing an arbitrary buffer never panics: every index and slice of
    the parser is in range, and its loop ends. *)
Theorem from_encoded_never_panics (buf : bytes) : safe (from_encoded buf).
Proof.
  unfold from_encoded. eapply post_safe.
  eapply post_bind; [apply view_from_encoded_post |]. intros v _. by apply (post_ok _ (fun _ => True)).
Qed.

(** ** The builder *)

Lemma write_segments_Ok buf segs out :
  write_segments buf segs = Ok out <-> forallb seg_ok segs = true /\ out = buf ++ enc_segs segs.
Proof.
  revert buf. induction segs as [| [k n] segs IH]; intros buf; cbn [write_segments forallb].
  - rewrite app_nil_r. split; [by intros [= <-] | by intros [_ ->]].
  - unfold seg_ok at 1. cbn [fst snd].
    destruct (is_uri_kind k) eqn:Hk.
    2: { destruct (from_utf8 k); split; [done | by intros [? _] | done | by intros [? _]]. }
    rewrite (is_uri_kind_utf8 k Hk). cbn [negb andb].
    destruct (from_utf8 n); cbn [negb andb]; [| split; [done | by intros [? _]]].
    unfold fits. rewrite !N.ltb_antisym.
    destruct (N.of_nat (length k) <=? _)%N; cbn [negb andb]; [| split; [done | by intros [? _]]].
    destruct (N.of_nat (length n) <=? _)%N; cbn [negb andb]; [| split; [done | by intros [? _]]].
    rewrite IH. unfold write_u16. rewrite !as_u16_le, enc_segs_cons.
    unfold enc_seg. cbn [fst snd]. by rewrite <- !app_assoc.
Qed.

Lemma write_segments_safe buf segs : safe (write_segments buf segs).
Proof.
  revert buf. induction segs as [| [k n] segs IH]; intros buf; cbn [write_segments]; [done |].
  repeat case_match; done.
Qed.

Lemma try_build_facts (b : Builder) (m : t) :
  (try_build b = Ok m <-> valid m (project b) (segments b)) /\ safe (try_build b).
Proof.
  unfold try_build, valid.
  destruct b as [p segs]. cbn [project segments]. rewrite parts_ok_spec.
  destruct p as [| p0 p']; [split; [split; [done | by intros [[[] _] _]] | done] |].
  set (p := p0 :: p'). split.
  2: { repeat case_match; try done. destruct (write_segments _ _) eqn:Hw; try done.
       all: pose proof (write_segments_safe
         (write_u16 [VERSION] (as_u16 (length p)) ++ p) segs) as Hs; by rewrite Hw in Hs. }
  destruct (from_utf8 p); cbn [negb]; [| split; [done | by intros [(_ & ? & _) _]]].
  unfold fits. rewrite !N.ltb_antisym.
  destruct (N.of_nat (length p) <=? _)%N; cbn [negb]; [| split; [done | by intros [(_ & _ & ? & _) _]]].
  unfold write_u16. rewrite as_u16_le, bind_Ok. setoid_rewrite write_segments_Ok. split.
  - intros (out & [Hs ->] & [= <-]). split; [done |]. cbn [encoded].
    by rewrite enc_parts_split, !app_assoc.
  - intros [(_ & _ & _ & Hs) He]. exists (encoded m). split; [| by destruct m].
    split; [done |]. rewrite He. by rewrite enc_parts_split, !app_assoc.
Qed.

(** The builder succeeds exactly when every component is well formed, and
    then the moniker is the encoding of what it was given; it never panics. *)
Theorem try_build_iff (b : Builder) (m : t) :
  (try_build b = Ok m <-> valid m (project b) (segments b)) /\
  safe (try_build b).
Proof. apply try_build_facts. Qed.

Lemma try_build_valid m p segs :
  valid m p segs -> try_build (mk_builder p segs) = Ok m.
Proof. intros H. by apply try_build_facts. Qed.

Lemma try_build_Ok p segs m :
  try_build (mk_builder p segs) = Ok m -> valid m p segs.
Proof. apply (try_build_facts (mk_builder p segs)). Qed.

Lemma try_build_safe b : safe (try_build b).
Proof. apply (try_build_facts b (mk [])). Qed.

Lemma build_valid {E} m p segs :
  valid m p segs -> build (E:=E) (mk_builder p segs) = Ok m.
Proof. intros H. unfold build. by rewrite (try_build_valid _ _ _ H). Qed.

Lemma foldl_push b segs :
  foldl (fun b seg => push_segment b seg.1 seg.2) b segs =
  mk_builder (project b) (segments b ++ segs).
Proof.
  revert b. induction segs as [| [k n] segs IH]; intros b; cbn [foldl].
  - rewrite app_nil_r. by destruct b.
  - rewrite IH. cbn [push_segment project segments fst snd]. by rewrite <- app_assoc.
Qed.

Lemma from_view_valid {E} m p segs :
  valid m p segs -> from_view (E:=E) (view_of p segs) = Ok (mk_builder p segs).
Proof.
  intros H. unfold from_view.
  rewrite view_project_valid, ret_bind, (view_segments_valid _ _ _ H), ret_bind, foldl_push.
  done.
Qed.

Lemma valid_inj m p segs p' segs' :
  valid m p segs -> valid m p' segs' -> p = p' /\ segs = segs'.
Proof.
  intros H H'.
  assert (Hp : view_of p segs = view_of p' segs').
  { pose proof (as_view_valid (E:=()) _ _ _ H) as E1. rewrite (as_view_valid _ _ _ H') in E1.
    congruence. }
  pose proof (view_project_valid (E:=()) p segs) as E1.
  pose proof (view_segments_valid (E:=()) _ _ _ H) as E2.
  rewrite Hp, view_project_valid in E1. rewrite Hp, (view_segments_valid _ _ _ H') in E2.
  split; congruence.
Qed.

(** A valid moniker has exactly one project and path, and building it
    again from its view yields the same bytes. *)
Theorem rebuild_from_view (m : t) (p p' : bytes) (segs segs' : list Segment)
    (H : valid m p segs) (H' : valid m p' segs') :
  p = p' /\ segs = segs' /\ (v ← as_view m; b ← from_view v; try_build b) = Ok m.
Proof.
  destruct (valid_inj _ _ _ _ _ H H') as [<- <-]. split_and!; [done.. |].
  rewrite (as_view_valid _ _ _ H), ret_bind, (from_view_valid _ _ _ H), ret_bind.
  by apply try_build_valid.
Qed.

Lemma rebuild_from_view_witness :
  let segs := [(bs "module", bs "main"); (bs "class", bs "Foo")] in
  bs "app" = bs "app" /\ segs = segs /\
  (v ← as_view (mk (enc_parts (bs "app") segs)); b ← from_view v; try_build b)
  = Ok (mk (enc_parts (bs "app") segs)).
Proof.
  cbv zeta.
  apply (rebuild_from_view (mk (enc_parts (bs "app") [(bs "module", bs "main"); (bs "class", bs "Foo")]))
    (bs "app") (bs "app") [(bs "module", bs "main"); (bs "class", bs "Foo")]
    [(bs "module", bs "main"); (bs "class", bs "Foo")]); (split; [vm_compute; reflexivity | reflexivity]).
Defined.

(** ** Ancestors and byte order *)

Lemma le_u16_inj n n' :
  (N.of_nat n < 65536)%N -> (N.of_nat n' < 65536)%N -> le_u16 n = le_u16 n' -> n = n'.
Proof. intros Hn Hn' H. rewrite <- (le_N_le_u16 n Hn), H. by apply le_N_le_u16. Qed.

(** A length-prefixed component is recovered from the front of a buffer. *)
Lemma component_inj (k k' x y : bytes) :
  fits k = true -> fits k' = true ->
  le_u16 (length k) ++ k ++ x = le_u16 (length k') ++ k' ++ y -> k = k' /\ x = y.
Proof.
  rewrite !fits_le. intros Hk Hk' H.
  apply app_inj_1 in H as [H1 H2]; [| by rewrite !length_le_u16].
  apply le_u16_inj in H1; [| done..].
  by apply app_inj_1 in H2.
Qed.

Lemma enc_seg_inj s s' x y :
  seg_ok s = true -> seg_ok s' = true ->
  enc_seg s ++ x = enc_seg s' ++ y -> s = s' /\ x = y.
Proof.
  intros (_ & _ & Hk & Hn)%seg_ok_spec (_ & _ & Hk' & Hn')%seg_ok_spec.
  unfold enc_seg. rewrite <- !app_assoc. intros H.
  apply component_inj in H as [H1 H]; [| done..].
  apply component_inj in H as [H2 H]; [| done..].
  destruct s, s'; cbn [fst snd] in *. by subst.
Qed.

Lemma enc_segs_prefix s1 s2 :
  forallb seg_ok s1 = true -> forallb seg_ok s2 = true ->
  enc_segs s1 `prefix_of` enc_segs s2 <-> s1 `prefix_of` s2.
Proof.
  intros H1 H2. split.
  - revert s2 H2. induction s1 as [| s s1 IH]; intros s2 H2 [k Hk]; [apply prefix_nil |].
    destruct s2 as [| s' s2].
    { apply (f_equal length) in Hk. rewrite enc_segs_cons, !length_app, length_enc_seg in Hk.
      simpl in Hk. lia. }
    cbn [forallb] in H1, H2. bool_inv.
    rewrite !enc_segs_cons, <- app_assoc in Hk.
    apply enc_seg_inj in Hk as [-> Hk]; [| done..].
    apply prefix_cons, IH; [done.. |]. by exists k.
  - intros [k ->]. exists (enc_segs k). apply enc_segs_app.
Qed.

(** A valid encoding is a byte prefix of another exactly when the projects are
    equal and the path is a prefix of the other's. *)
Lemma enc_parts_prefix p p' s s' :
  parts_ok p s = true -> parts_ok p' s' = true ->
  enc_parts p s `prefix_of` enc_parts p' s' <-> p = p' /\ s `prefix_of` s'.
Proof.
  intros (_ & _ & Hf & Hs)%parts_ok_spec (_ & _ & Hf' & Hs')%parts_ok_spec. split.
  - intros [k H]. unfold enc_parts in H. apply (f_equal tail) in H. cbn [app tail] in H.
    rewrite <- !app_assoc in H. symmetry in H.
    apply component_inj in H as [-> H]; [| done..]. split; [done |].
    apply enc_segs_prefix; [done.. |]. by exists k.
  - intros [-> Hp]. apply enc_segs_prefix in Hp as [k Hk]; [| done..]. exists k.
    unfold enc_parts. rewrite Hk. cbn [app]. by rewrite <- !app_assoc.
Qed.

Lemma starts_with_valid m p s m' p' s' :
  valid m p s -> valid m' p' s' ->
  starts_with (encoded m) (encoded m') = true <-> p = p' /\ s `prefix_of` s'.
Proof.
  intros [Hok ->] [Hok' ->]. rewrite starts_with_spec. by apply enc_parts_prefix.
Qed.

Lemma is_ancestor_of_valid {E} m m' p p' s s' :
  valid m p s -> valid m' p' s' ->
  exists b, is_ancestor_of (E:=E) m m' = Ok b /\ (b = true <-> p = p' /\ s `prefix_of` s').
Proof.
  intros H H'.
  unfold is_ancestor_of. rewrite (as_view_valid _ _ _ H), ret_bind,
    (as_view_valid _ _ _ H'), ret_bind.
  unfold view_is_ancestor_of. rewrite !view_project_valid, !ret_bind.
  destruct (beq p p') eqn:Hp; bool_inv; cbn [negb].
  - eexists. split; [done |]. cbn [view_of view_bytes].
    destruct H as [Hok He], H' as [Hok' He'].
    rewrite starts_with_spec. by apply enc_parts_prefix.
  - exists false. split; [done |]. split; [done | by intros []].
Qed.

(** [is_ancestor_of], which compares bytes, decides that the projects are
    equal and that the path is a prefix of the other's. *)
Theorem is_ancestor_of_iff {E} (m m' : t) (p p' : bytes) (s s' : list Segment)
    (H : valid m p s) (H' : valid m' p' s') :
  exists b, is_ancestor_of (E:=E) m m' = Ok b /\ (b = true <-> p = p' /\ s `prefix_of` s').
Proof. by apply is_ancestor_of_valid. Qed.

Lemma is_ancestor_of_witness :
  let m := mk (enc_parts (bs "app") [(bs "path", bs "a")]) in
  let m' := mk (enc_parts (bs "app") [(bs "path", bs "a"); (bs "path", bs "b")]) in
  exists b, is_ancestor_of (E:=()) m m' = Ok b /\
    (b = true <-> bs "app" = bs "app" /\
       [(bs "path", bs "a")] `prefix_of` [(bs "path", bs "a"); (bs "path", bs "b")]).
Proof.
  cbv zeta. apply is_ancestor_of_iff; (split; [vm_compute; reflexivity | reflexivity]).
Defined.

Lemma is_ancestor_of_true {E} m m' p p' s s' :
  valid m p s -> valid m' p' s' ->
  is_ancestor_of (E:=E) m m' = Ok true <-> encoded m `prefix_of` encoded m'.
Proof.
  intros H H'. destruct (is_ancestor_of_valid (E:=E) m m' p p' s s' H H') as (b & -> & Hb).
  destruct H as [Hok He], H' as [Hok' He']. rewrite He, He', enc_parts_prefix by done.
  rewrite <- Hb. split; congruence.
Qed.

Lemma bytes_le_prefix a b : a `prefix_of` b -> bytes_le a b = true.
Proof.
  intros [k ->]. induction a as [| x a IH]; [done |].
  cbn [app bytes_le]. by rewrite ceq_refl, IH, orb_true_r.
Qed.

(** Between a string and one of its extensions there are only its extensions. *)
Lemma bytes_le_between a x d :
  a `prefix_of` d -> bytes_le a x = true -> bytes_le x d = true -> a `prefix_of` x.
Proof.
  intros [k ->]. revert x. induction a as [| c a IH]; intros [| y x]; cbn [bytes_le app].
  - intros. apply prefix_nil.
  - intros. apply prefix_nil.
  - done.
  - rewrite !orb_true_iff, !andb_true_iff, !N.ltb_lt, !ceq_true.
    intros [? | [<- ?]] [? | [? ?]]; [lia | subst; lia | lia |].
    apply prefix_cons. auto.
Qed.

(** In the byte order (the [Ord] of monikers) an ancestor comes first, and
    its descendants form one contiguous range: whatever sorts between a
    moniker and one of its descendants is a descendant too. *)
Theorem descendants_contiguous {E} (a x d : t) (pa px pd : bytes) (sa sx sd : list Segment)
    (Ha : valid a pa sa) (Hx : valid x px sx) (Hd : valid d pd sd)
    (Had : is_ancestor_of (E:=E) a d = Ok true) :
  bytes_le (encoded a) (encoded d) = true /\
  (bytes_le (encoded a) (encoded x) = true -> bytes_le (encoded x) (encoded d) = true ->
   is_ancestor_of (E:=E) a x = Ok true).
Proof.
  apply (is_ancestor_of_true _ _ _ _ _ _ Ha Hd) in Had. split.
  - by apply bytes_le_prefix.
  - intros H1 H2. apply (is_ancestor_of_true _ _ _ _ _ _ Ha Hx).
    by eapply bytes_le_between.
Qed.

Lemma descendants_contiguous_witness :
  let e l := mk (enc_parts (bs "app") l) in
  let a := e [(bs "class", bs "Foo")] in
  let x := e [(bs "class", bs "Foo"); (bs "method", bs "bar()")] in
  let d := e [(bs "class", bs "Foo"); (bs "method", bs "bar()"); (bs "path", bs "x")] in
  bytes_le (encoded a) (encoded d) = true /\ is_ancestor_of (E:=()) a x = Ok true.
Proof.
  cbv zeta.
  destruct (descendants_contiguous (E:=())
    (mk (enc_parts (bs "app") [(bs "class", bs "Foo")]))
    (mk (enc_parts (bs "app") [(bs "class", bs "Foo"); (bs "method", bs "bar()")]))
    (mk (enc_parts (bs "app") [(bs "class", bs "Foo"); (bs "method", bs "bar()"); (bs "path", bs "x")]))
    (bs "app") (bs "app") (bs "app")
    [(bs "class", bs "Foo")] [(bs "class", bs "Foo"); (bs "method", bs "bar()")]
    [(bs "class", bs "Foo"); (bs "method", bs "bar()"); (bs "path", bs "x")]
    ltac:(solve_valid) ltac:(solve_valid) ltac:(solve_valid)
    ltac:(vm_compute; reflexivity)) as [H1 H2].
  split; [exact H1 | apply H2; vm_compute; reflexivity].
Defined.

(** ** Parents *)

Lemma valid_take m p segs n :
  valid m p segs -> valid (mk (enc_parts p (take n segs))) p (take n segs).
Proof.
  intros [Hok _]. split; [| done]. apply parts_ok_spec in Hok as (? & ? & ? & Hs).
  apply parts_ok_spec. split_and!; [done.. |].
  rewrite forallb_forall in Hs |- *. intros s Hin. apply Hs.
  rewrite <- (take_drop n segs). apply in_or_app. auto.
Qed.

Lemma segment_count_valid {E} m p segs :
  valid m p segs -> segment_count (E:=E) (view_of p segs) = Ok (as_u16 (length segs)).
Proof. intros H. unfold segment_count. by rewrite (view_segments_valid _ _ _ H). Qed.

(** The parent of a moniker of fewer than 65536 segments is the moniker
    without its last segment, which is a valid moniker and an ancestor; only
    a moniker without segments has none. *)
Theorem parent_spec {E} (m : t) (p : bytes) (segs : list Segment)
    (H : valid m p segs) (Hlen : (N.of_nat (length segs) < 65536)%N) :
  match segs with
  | [] => parent (E:=E) m = Ok None
  | _ => exists m', parent (E:=E) m = Ok (Some m') /\
           valid m' p (take (length segs - 1) segs) /\ is_ancestor_of (E:=E) m' m = Ok true
  end.
Proof.
  assert (Hp : parent (E:=E) m = match segs with [] => Ok None | _ =>
    Ok (Some (mk (enc_parts p (take (length segs - 1) segs)))) end).
  { unfold parent. rewrite (as_view_valid _ _ _ H), ret_bind,
      (segment_count_valid _ _ _ H), ret_bind.
    unfold as_u16. rewrite N.mod_small by done.
    destruct segs as [| s segs']; [done |]. set (segs := s :: segs') in *.
    rewrite (proj2 (N.eqb_neq _ _)) by (simpl; lia).
    rewrite (from_view_valid _ _ _ H), ret_bind. unfold truncate. cbn [project segments].
    replace (N.to_nat _) with (length segs - 1) by lia.
    by rewrite (build_valid _ _ _ (valid_take _ _ _ _ H)), ret_bind. }
  rewrite Hp. destruct segs as [| s segs']; [done |]. eexists. split; [done |]. split.
  - eapply valid_take, H.
  - eapply (is_ancestor_of_true _ _ _ _ _ _ (valid_take _ _ _ _ H) H).
    pose proof (valid_take _ _ _ (length (s :: segs') - 1) H) as [Ht _].
    destruct H as [Hok ->]. cbn [encoded]. apply enc_parts_prefix; [exact Ht | done |].
    split; [done |]. eexists. symmetry. apply take_drop.
Qed.

Lemma parent_spec_witness :
  exists m', parent (E:=()) (mk (enc_parts (bs "app") [(bs "path", bs "a"); (bs "class", bs "Foo")]))
    = Ok (Some m') /\ encoded m' = enc_parts (bs "app") [(bs "path", bs "a")].
Proof.
  destruct (parent_spec (E:=())
    (mk (enc_parts (bs "app") [(bs "path", bs "a"); (bs "class", bs "Foo")]))
    (bs "app") [(bs "path", bs "a"); (bs "class", bs "Foo")]
    ltac:(solve_valid) ltac:(vm_compute; reflexivity)) as (m' & H & [_ Hv] & _).
  exists m'. split; [exact H | exact Hv].
Defined.

(** [segment_count] is a [u16]: on a moniker whose number of segments is a
    multiple of 65536 it is 0, so [parent] answers [None] although the moniker
    has a parent. *)
Theorem parent_wraps_u16 {E} (m : t) (p : bytes) (segs : list Segment)
    (H : valid m p segs) (Hlen : (N.of_nat (length segs) mod 65536 = 0)%N) :
  parent (E:=E) m = Ok None.
Proof.
  unfold parent. rewrite (as_view_valid _ _ _ H), ret_bind, (segment_count_valid _ _ _ H), ret_bind.
  unfold as_u16. by rewrite Hlen.
Qed.

Lemma parent_wraps_u16_witness :
  let segs := replicate (N.to_nat 65536) (bs "a", bs "b") in
  parent (E:=()) (mk (enc_parts (bs "app") segs)) = Ok None /\ segs <> [].
Proof.
  cbv zeta. split; [| done].
  apply (parent_wraps_u16 _ (bs "app") (replicate (N.to_nat 65536) (bs "a", bs "b"))).
  - split; [vm_compute; reflexivity | reflexivity].
  - rewrite length_replicate, N2Nat.id. reflexivity.
Defined.

End MonikerFacts.

Import Moniker MonikerFacts.

Module BindFacts.

(** The languages whose callables match by bare name. *)
Definition bare_langs : list bytes :=
  [bs "sql"; bs "ts"; bs "java"; bs "python"; bs "rs"; bs "go"; bs "cs"].

(** What matching means on two paths with the same project: everything but
    the last segment is equal, the last kinds are free, and the last names are
    equal or, in a language of [bare_langs] shared by both, equal up to the
    parameter list. *)
Definition names_match (l r : list Segment) (n n' : bytes) : Prop :=
  n = n' \/
  exists lang, lang ∈ bare_langs /\ lang_segment l = Some lang /\ lang_segment r = Some lang /\
    bare_callable_name n = bare_callable_name n'.

Definition path_match (l r : list Segment) : Prop :=
  exists init k n k' n', l = init ++ [(k, n)] /\ r = init ++ [(k', n')] /\ names_match l r n n'.

(** The path [with_bare_last_segment] builds. *)
Definition bare_last (segs : list Segment) : list Segment :=
  match last segs with
  | None => segs
  | Some s => take (length segs - 1) segs ++ [(s.1, bare_callable_name s.2)]
  end.

(** ** Lemmas *)

Lemma last_segment_match_iff l r n n' :
  last_segment_match l r n n' = true <-> names_match l r n n'.
Proof.
  unfold last_segment_match, names_match.
  destruct (beq n n') eqn:En; bool_inv; [tauto |].
  destruct (lang_segment l) as [lang |].
  2: { split; [done |]. intros [? | (? & _ & ? & _)]; done. }
  rewrite bool_decide_decide. destruct (decide _) as [Hr | Hr].
  2: { split; [done |]. intros [? | (? & _ & [= <-] & ? & _)]; [done |]. congruence. }
  unfold bare_langs.
  transitivity (lang ∈ [bs "sql"; bs "ts"; bs "java"; bs "python"; bs "rs"; bs "go"; bs "cs"]
    /\ bare_callable_name n = bare_callable_name n').
  - rewrite !elem_of_cons, elem_of_nil, <- beq_true. rewrite <- !(beq_true lang).
    repeat case_match; rewrite ?beq_true; intuition (congruence || tauto).
  - rewrite <- Hr. split.
    + intros [? ?]. right. exists lang. eauto.
    + intros [? | (? & ? & [= <-] & _ & ?)]; [done | eauto].
Qed.

Lemma bind_match_loop_iff l r pl pr ls rs :
  bind_match_loop l r pl pr ls rs = true <->
  exists init k n k' n', pl :: ls = init ++ [(k, n)] /\ pr :: rs = init ++ [(k', n')] /\
    last_segment_match l r n n' = true.
Proof.
  revert pl pr rs. induction ls as [| nl ls IH]; intros pl pr [| nr rs]; cbn [bind_match_loop].
  - split.
    + intros H. exists [], pl.1, pl.2, pr.1, pr.2. by destruct pl, pr.
    + intros (init & k & n & k' & n' & E1 & E2 & H). by destruct init as [| ? [|]]; simplify_eq/=.
  - split; [done |].
    intros (init & k & n & k' & n' & E1 & E2 & _). by destruct init as [| ? [|]]; simplify_eq/=.
  - split; [done |].
    intros (init & k & n & k' & n' & E1 & E2 & _). by destruct init as [| ? [|]]; simplify_eq/=.
  - rewrite bool_decide_decide. destruct (decide (pl = pr)) as [<- |]; cbn [negb].
    + rewrite IH. split.
      * intros (init & k & n & k' & n' & -> & -> & H). by exists (pl :: init), k, n, k', n'.
      * intros (init & k & n & k' & n' & E1 & E2 & H). destruct init as [| s init]; simplify_eq/=.
        by exists init, k, n, k', n'.
    + split; [done |].
      intros (init & k & n' & k' & n'' & E1 & E2 & _). by destruct init; simplify_eq/=.
Qed.

Lemma bind_match_valid {E} m m' p p' segs segs' :
  valid m p segs -> valid m' p' segs' ->
  exists b, bind_match (E:=E) m m' = Ok b /\ (b = true <-> p = p' /\ path_match segs segs').
Proof.
  intros H H'. unfold bind_match.
  rewrite (as_view_valid _ _ _ H), ret_bind, (as_view_valid _ _ _ H'), ret_bind.
  unfold view_bind_match. rewrite !view_project_valid, !ret_bind.
  destruct (beq p p') eqn:Hp; bool_inv; cbn [negb].
  2: { exists false. split; [done |]. split; [done | by intros []]. }
  rewrite (view_segments_valid _ _ _ H), ret_bind, (view_segments_valid _ _ _ H'), ret_bind.
  unfold path_match. destruct segs as [| pl ls], segs' as [| pr rs].
  4: { eexists. split; [done |]. rewrite bind_match_loop_iff.
       setoid_rewrite last_segment_match_iff. tauto. }
  all: exists false; split; [done |]; split; [done |].
  all: intros (_ & init & k & n & k' & n' & H1 & H2 & _); by destruct init.
Qed.

(** C31: on valid monikers [bind_match] never panics and decides the match of
    the two paths. *)
Theorem bind_match_iff {E} (m m' : t) (p p' : bytes) (segs segs' : list Segment)
    (H : valid m p segs) (H' : valid m' p' segs') :
  exists b, bind_match (E:=E) m m' = Ok b /\ (b = true <-> p = p' /\ path_match segs segs').
Proof. by apply bind_match_valid. Qed.

Lemma bind_match_iff_witness :
  let d := [(bs "lang", bs "ts"); (bs "function", bs "foo(number)")] in
  let c := [(bs "lang", bs "ts"); (bs "method", bs "foo(1)")] in
  bind_match (E:=()) (mk (enc_parts (bs "app") d)) (mk (enc_parts (bs "app") c)) = Ok true /\
  path_match d c.
Proof.
  cbv zeta.
  destruct (bind_match_iff (E:=())
    (mk (enc_parts (bs "app") [(bs "lang", bs "ts"); (bs "function", bs "foo(number)")]))
    (mk (enc_parts (bs "app") [(bs "lang", bs "ts"); (bs "method", bs "foo(1)")]))
    (bs "app") (bs "app") [(bs "lang", bs "ts"); (bs "function", bs "foo(number)")]
    [(bs "lang", bs "ts"); (bs "method", bs "foo(1)")]
    ltac:(solve_valid) ltac:(solve_valid)) as (b & H & Hb).
  assert (Ht : b = true).
  { assert (E : Ok (E:=()) b = Ok true) by (rewrite <- H; vm_compute; reflexivity).
    injection E as E. exact E. }
  split; [rewrite H, Ht; reflexivity | apply Hb; exact Ht].
Defined.

Lemma path_match_sym l r : path_match l r -> path_match r l.
Proof.
  intros (init & k & n & k' & n' & H1 & H2 & Hn).
  exists init, k', n', k, n. split_and!; [done.. |].
  destruct Hn as [-> | (lang & ? & ? & ? & ?)]; [by left | right; by exists lang].
Qed.

Lemma lang_segment_app init s :
  lang_segment (init ++ [s]) =
  match lang_segment init with
  | Some lang => Some lang
  | None => if beq s.1 (bs "lang") then Some s.2 else None
  end.
Proof.
  unfold lang_segment. induction init as [| x init IH]; cbn [app List.find].
  - by destruct (beq _ _).
  - by destruct (beq x.1 _).
Qed.

(** Two paths that share all but the last segment and have the same language
    share it in the common part, or end in the same name. *)
Lemma shared_lang init k n k' n' lang :
  lang_segment (init ++ [(k, n)]) = Some lang -> lang_segment (init ++ [(k', n')]) = Some lang ->
  lang_segment init = Some lang \/ n = n'.
Proof.
  rewrite !lang_segment_app. cbn [fst snd]. destruct (lang_segment init) as [l |]; [by left |].
  repeat case_match; try done. intros. right. congruence.
Qed.

Lemma names_match_shared init k n k' n' :
  names_match (init ++ [(k, n)]) (init ++ [(k', n')]) n n' <->
  n = n' \/ exists lang, lang ∈ bare_langs /\ lang_segment init = Some lang /\
    bare_callable_name n = bare_callable_name n'.
Proof.
  split.
  - intros [? | (lang & Hin & H1 & H2 & Hb)]; [by left |].
    destruct (shared_lang _ _ _ _ _ _ H1 H2); [right; by exists lang | by left].
  - intros [? | (lang & Hin & H1 & Hb)]; [by left |]. right. exists lang.
    rewrite !lang_segment_app, H1. done.
Qed.

Lemma path_match_trans l m r : path_match l m -> path_match m r -> path_match l r.
Proof.
  intros (init & k & n & k' & n' & -> & -> & H1) (init' & k1 & n1 & k2 & n2 & E & -> & H2).
  apply app_inj_tail in E as [<- [= <- <-]].
  exists init, k, n, k2, n2. split_and!; [done.. |].
  rewrite names_match_shared in H1, H2 |- *.
  destruct H1 as [<- | (lang & Hin & Hl & Hb)]; [done |].
  destruct H2 as [<- | (lang' & _ & _ & Hb')]; right; exists lang; split_and!; congruence.
Qed.

(** [bind_match] is symmetric, transitive, and reflexive on the monikers
    that have a segment: an equivalence among the monikers that can be
    matched. *)
Theorem bind_match_equivalence {E} (m1 m2 m3 : t) (p1 p2 p3 : bytes) (s1 s2 s3 : list Segment)
    (H1 : valid m1 p1 s1) (H2 : valid m2 p2 s2) (H3 : valid m3 p3 s3) :
  bind_match (E:=E) m1 m2 = bind_match (E:=E) m2 m1 /\
  (bind_match (E:=E) m1 m2 = Ok true -> bind_match (E:=E) m2 m3 = Ok true ->
   bind_match (E:=E) m1 m3 = Ok true) /\
  (s1 <> [] -> bind_match (E:=E) m1 m1 = Ok true).
Proof.
  destruct (bind_match_valid (E:=E) _ _ _ _ _ _ H1 H2) as (b12 & -> & B12).
  destruct (bind_match_valid (E:=E) _ _ _ _ _ _ H2 H1) as (b21 & -> & B21).
  destruct (bind_match_valid (E:=E) _ _ _ _ _ _ H2 H3) as (b23 & -> & B23).
  destruct (bind_match_valid (E:=E) _ _ _ _ _ _ H1 H3) as (b13 & -> & B13).
  destruct (bind_match_valid (E:=E) _ _ _ _ _ _ H1 H1) as (b11 & -> & B11).
  split_and!.
  - f_equal. apply eq_true_iff_eq. rewrite B12, B21.
    split; intros [-> ?]; split; auto using path_match_sym.
  - intros [= Hb12] [= Hb23]. apply B12 in Hb12 as [-> ?]. apply B23 in Hb23 as [-> ?].
    f_equal. apply B13. eauto using path_match_trans.
  - intros Hne. f_equal. apply B11. split; [done |].
    destruct (exists_last Hne) as (init & [k n] & ->). exists init, k, n, k, n.
    split_and!; [done.. |]. by left.
Qed.

Lemma bind_match_equivalence_witness :
  let e n := mk (enc_parts (bs "app") [(bs "lang", bs "rs"); (bs "fn", n)]) in
  bind_match (E:=()) (e (bs "add(i32,i32)")) (e (bs "add")) = Ok true.
Proof.
  cbv zeta.
  apply (proj1 (proj2 (bind_match_equivalence (E:=())
    (mk (enc_parts (bs "app") [(bs "lang", bs "rs"); (bs "fn", bs "add(i32,i32)")]))
    (mk (enc_parts (bs "app") [(bs "lang", bs "rs"); (bs "fn", bs "add(2)")]))
    (mk (enc_parts (bs "app") [(bs "lang", bs "rs"); (bs "fn", bs "add")]))
    (bs "app") (bs "app") (bs "app")
    [(bs "lang", bs "rs"); (bs "fn", bs "add(i32,i32)")]
    [(bs "lang", bs "rs"); (bs "fn", bs "add(2)")] [(bs "lang", bs "rs"); (bs "fn", bs "add")]
    ltac:(solve_valid) ltac:(solve_valid) ltac:(solve_valid))));
  vm_compute; reflexivity.
Defined.

(** ** Bare names *)

Lemma bare_spec n :
  (exists r, n = bare_callable_name n ++ "("%char :: r) \/ bare_callable_name n = n.
Proof.
  unfold bare_callable_name. destruct (position _ n) as [i |] eqn:E; [left | by right].
  apply position_Some in E as (pre & b & suf & -> & <- & ->%ceq_true & _).
  exists suf. by rewrite take_app_length.
Qed.

Lemma bare_no_paren n : position (fun b => ceq b "("%char) (bare_callable_name n) = None.
Proof.
  unfold bare_callable_name. destruct (position _ n) as [i |] eqn:E; [| done].
  apply position_Some in E as (pre & b & suf & -> & <- & _ & Hp).
  rewrite take_app_length. by apply position_None.
Qed.

Lemma bare_idemp n : bare_callable_name (bare_callable_name n) = bare_callable_name n.
Proof. unfold bare_callable_name at 1. by rewrite bare_no_paren. Qed.

Lemma bare_utf8 n : from_utf8 n = true -> from_utf8 (bare_callable_name n) = true.
Proof.
  intros H. destruct (bare_spec n) as [[r E] | ->]; [| done].
  rewrite E in H. by apply from_utf8_cut in H.
Qed.

Lemma bare_length n : length (bare_callable_name n) <= length n.
Proof. destruct (bare_spec n) as [[r E] | ->]; [| done]. rewrite E at 2. rewrite length_app. lia. Qed.

Lemma bare_same_length n : length (bare_callable_name n) = length n -> bare_callable_name n = n.
Proof.
  destruct (bare_spec n) as [[r E] | ->]; [| done]. intros H.
  apply (f_equal length) in E. rewrite length_app in E. simpl in E. lia.
Qed.

Lemma seg_ok_bare k n : seg_ok (k, n) = true -> seg_ok (k, bare_callable_name n) = true.
Proof.
  rewrite !seg_ok_spec. cbn [fst snd]. rewrite !fits_le. intros (? & ? & ? & ?).
  split_and!; [done | by apply bare_utf8 | done |]. pose proof (bare_length n). lia.
Qed.

Lemma bare_last_app init k n :
  bare_last (init ++ [(k, n)]) = init ++ [(k, bare_callable_name n)].
Proof.
  unfold bare_last. rewrite last_snoc, length_app. cbn [length fst snd].
  by rewrite Nat.add_sub, take_app_length.
Qed.

Lemma valid_bare m p segs : valid m p segs -> parts_ok p (bare_last segs) = true.
Proof.
  intros [(? & ? & ? & Hs)%parts_ok_spec _]. apply parts_ok_spec. split_and!; [done.. |].
  destruct segs as [| s segs' _] using rev_ind; [done |]. destruct s as [k n].
  rewrite bare_last_app. rewrite forallb_app in Hs |- *. cbn [forallb] in Hs |- *.
  apply andb_prop in Hs as [-> Hs]. rewrite andb_true_r in *. by apply seg_ok_bare.
Qed.

Lemma with_bare_valid {E} m p segs :
  valid m p segs ->
  with_bare_last_segment (E:=E) m = Ok (mk (enc_parts p (bare_last segs))).
Proof.
  intros H. unfold with_bare_last_segment.
  rewrite (as_view_valid _ _ _ H), ret_bind, (view_segments_valid _ _ _ H), ret_bind.
  pose proof (valid_bare _ _ _ H) as Hb.
  destruct segs as [| s segs' _] using rev_ind.
  - unfold bare_last. cbn [last]. destruct H as [_ He]. by destruct m; cbn in He; subst.
  - destruct s as [k n]. rewrite bare_last_app in *.
    rewrite last_snoc. cbn [fst snd].
    destruct (length (bare_callable_name n) =? length n) eqn:El; bool_inv.
    + apply bare_same_length in El as ->. destruct H as [_ He]. by destruct m; cbn in He; subst.
    + rewrite view_project_valid, ret_bind, foldl_push, length_app. cbn [length].
      rewrite Nat.add_sub, take_app_length. unfold push_segment. cbn [project segments app].
      by apply build_valid.
Qed.

(** [with_bare_last_segment] never panics on a valid moniker and drops the
    parameter list of the last name only; it is idempotent, and in a language
    that matches callables by bare name the result still binds to the
    original. *)
Theorem with_bare_last_segment_spec {E} (m : t) (p : bytes) (segs : list Segment)
    (H : valid m p segs) :
  exists m', with_bare_last_segment (E:=E) m = Ok m' /\ valid m' p (bare_last segs) /\
    with_bare_last_segment (E:=E) m' = Ok m' /\
    (forall lang, lang ∈ bare_langs -> lang_segment (take (length segs - 1) segs) = Some lang ->
       bind_match (E:=E) m m' = Ok true).
Proof.
  exists (mk (enc_parts p (bare_last segs))).
  assert (Hv : valid (mk (enc_parts p (bare_last segs))) p (bare_last segs)).
  { split; [by eapply valid_bare | done]. }
  split_and!; [by apply with_bare_valid | done | |].
  - rewrite (with_bare_valid _ _ _ Hv). do 3 f_equal.
    destruct segs as [| [k n] segs' _] using rev_ind; [done |].
    by rewrite !bare_last_app, bare_idemp.
  - intros lang Hin Hl.
    destruct (bind_match_valid (E:=E) _ _ _ _ _ _ H Hv) as (b & -> & Hb). f_equal.
    apply Hb. split; [done |]. destruct segs as [| [k n] segs' _] using rev_ind; [done |].
    rewrite bare_last_app. exists segs', k, n, k, (bare_callable_name n).
    split_and!; [done.. |]. rewrite names_match_shared. right. exists lang.
    rewrite length_app in Hl. cbn [length] in Hl. rewrite Nat.add_sub, take_app_length in Hl.
    by rewrite bare_idemp.
Qed.

Lemma with_bare_last_segment_witness :
  exists m', with_bare_last_segment (E:=())
      (mk (enc_parts (bs "app") [(bs "lang", bs "java"); (bs "method", bs "create(int)")])) = Ok m' /\
    encoded m' = enc_parts (bs "app") [(bs "lang", bs "java"); (bs "method", bs "create")].
Proof.
  destruct (with_bare_last_segment_spec (E:=())
    (mk (enc_parts (bs "app") [(bs "lang", bs "java"); (bs "method", bs "create(int)")]))
    (bs "app") [(bs "lang", bs "java"); (bs "method", bs "create(int)")]
    ltac:(solve_valid)) as (m' & H & [_ Hv] & _).
  exists m'. split; [exact H | rewrite Hv; vm_compute; reflexivity].
Defined.

End BindFacts.
