(* ===== verification/Uri.v ===== *)
(** Moniker URIs (src/crates/core/src/core/uri/): the textual form
    [<scheme><project>(/<kind>:<name>)*], its printer and its parser. *)

From S2P Require Import Prelude.
From S2P Require Import RustStr.
From S2P Require Import Moniker.

Module Uri.

(** ** mod.rs *)

Inductive UriError : Set :=
| MissingScheme (expected : bytes)
| MissingProject
| EmptySegment (pos : nat)
| MissingKindSeparator (pos : nat)
| InvalidKind (s : bytes)
| UnterminatedBacktick (pos : nat)
| TrailingAfterBacktick (pos : nat)
| NonUtf8Project
| NonUtf8Segment
| ComponentTooLong (component : bytes) (len : nat).

(** [fmt::Display for UriError] *)
Definition error_display (e : UriError) : bytes :=
  match e with
  | MissingScheme expected =>
      bs "URI does not start with the expected scheme `" ++ expected ++ bs "`"
  | MissingProject => bs "URI has no project authority"
  | EmptySegment pos => bs "empty segment at byte " ++ show_nat pos
  | MissingKindSeparator pos =>
      bs "segment at byte " ++ show_nat pos ++ bs " has no `:` between kind and name"
  | InvalidKind s =>
      bs "kind `" ++ s ++ bs "` is not a plain identifier ([A-Za-z][A-Za-z0-9_]*)"
  | UnterminatedBacktick pos => bs "unterminated backtick-quoted name at byte " ++ show_nat pos
  | TrailingAfterBacktick pos =>
      bs "backtick-quoted name at byte " ++ show_nat pos
        ++ bs " is followed by data other than a `/` separator"
  | NonUtf8Project => bs "project authority must be valid UTF-8"
  | NonUtf8Segment => bs "segment must be valid UTF-8"
  | ComponentTooLong component len =>
      component ++ bs " is too long for moniker encoding (" ++ show_nat len ++ bs " bytes)"
  end.

Record UriConfig : Set := { scheme : bytes }.

Definition default_config : UriConfig := {| scheme := bs "code+moniker://" |}.

(** ** serialize.rs *)

Definition name_needs_escaping (l : bytes) : bool :=
  match l with
  | [] => true
  | _ => existsb (fun b => ceq b "/"%char || ceq b "`"%char || is_ascii_whitespace b) l
  end.

Definition write_name {E} (out l : bytes) : res E bytes :=
  match chars l with
  | None => Panic
  | Some cs =>
      if negb (name_needs_escaping l) then mret (out ++ l)
      else
        let out := out ++ bs "`" in
        let out := foldl (fun out c => if beq c (bs "`") then out ++ bs "``" else out ++ c) out cs in
        mret (out ++ bs "`")
  end.

(** The [for seg in view.segments()] loop of [to_uri]. *)
Fixpoint write_segments {E} (out : bytes) (segs : list Moniker.Segment) : res E bytes :=
  match segs with
  | [] => mret out
  | (kind, name) :: rest =>
      let out := out ++ bs "/" in
      if negb (from_utf8 kind) then Panic
      else
        let out := out ++ kind in
        let out := out ++ bs ":" in
        out ← write_name out name;
        write_segments out rest
  end.

Definition to_uri {E} (m : Moniker.t) (config : UriConfig) : res E bytes :=
  view ← Moniker.as_view m;
  let out := scheme config in
  p ← Moniker.view_project view;
  out ← write_name out p;
  segs ← Moniker.view_segments view;
  write_segments out segs.

(** ** parse.rs *)

Definition is_plain_identifier (l : bytes) : bool :=
  match l with
  | [] => false
  | first :: rest =>
      if negb (is_ascii_alphabetic first) then false
      else forallb (fun b => is_ascii_alphanumeric b || ceq b "_"%char) rest
  end.

Definition read_kind (buf : bytes) (start seg_start : nat) : res UriError (bytes * nat) :=
  let i := scan_while (fun b => negb (ceq b ":"%char) && negb (ceq b "/"%char)) buf start in
  kind ← slice buf start i;
  match kind with
  | [] => Err (EmptySegment seg_start)
  | _ =>
      if negb (is_plain_identifier kind) then Err (InvalidKind (from_utf8_lossy kind))
      else mret (kind, i)
  end.

(** The [loop] of [read_name] inside backticks. *)
Fixpoint read_quoted (fuel : nat) (buf : bytes) (start i : nat) (out : bytes)
    : res UriError (bytes * nat) :=
  match fuel with
  | O => NoFuel
  | S fuel =>
      if length buf <=? i then Err (UnterminatedBacktick start)
      else
        c ← index buf i;
        if ceq c "`"%char then
          if (i + 1 <? length buf) && bool_decide (buf !! (i + 1) = Some "`"%char)
          then read_quoted fuel buf start (i + 2) (out ++ bs "`")
          else mret (out, i + 1)
        else read_quoted fuel buf start (i + 1) (out ++ [c])
  end.

Definition read_name (buf : bytes) (start : nat) (is_terminator : ascii -> bool)
    : res UriError (bytes * nat) :=
  if (start <? length buf) && bool_decide (buf !! start = Some "`"%char) then
    '(out, i) ← read_quoted (S (length buf)) buf start (start + 1) [];
    match buf !! i with
    | Some c =>
        if negb (is_terminator c) then Err (TrailingAfterBacktick start) else mret (out, i)
    | None => mret (out, i)
    end
  else
    let i := scan_while (fun b => negb (is_terminator b)) buf start in
    n ← slice buf start i;
    mret (n, i).

(** [None] is the [unreachable!] arm. *)
Definition uri_error_from_encoding (e : Moniker.EncodingError) : option UriError :=
  match e with
  | Moniker.EmptyProject => Some MissingProject
  | Moniker.NonUtf8Project => Some NonUtf8Project
  | Moniker.NonUtf8SegmentKind | Moniker.NonUtf8SegmentName => Some NonUtf8Segment
  | Moniker.InvalidSegmentKind => Some (InvalidKind [])
  | Moniker.ProjectTooLong len => Some (ComponentTooLong (bs "project") len)
  | Moniker.SegmentKindTooLong len => Some (ComponentTooLong (bs "segment kind") len)
  | Moniker.SegmentNameTooLong len => Some (ComponentTooLong (bs "segment name") len)
  | Moniker.Truncated | Moniker.UnknownVersion _ | Moniker.ProjectOverflow
  | Moniker.SegmentOverflow => None
  end.

(** The [while i < bytes.len()] loop of [from_uri]. *)
Fixpoint read_segments (fuel : nat) (buf : bytes) (i : nat) (builder : Moniker.Builder)
    : res UriError Moniker.Builder :=
  match fuel with
  | O => NoFuel
  | S fuel =>
      if negb (i <? length buf) then mret builder
      else
        c ← index buf i;
        if negb (ceq c "/"%char) then Panic
        else
          let i := i + 1 in
          let seg_start := i in
          '(kind, kind_end) ← read_kind buf i seg_start;
          let i := kind_end in
          if (length buf <=? i) || negb (bool_decide (buf !! i = Some ":"%char))
          then Err (MissingKindSeparator seg_start)
          else
            let i := i + 1 in
            '(name, name_end) ← read_name buf i (fun c => ceq c "/"%char);
            if beq name [] && beq kind [] then Err (EmptySegment seg_start)
            else if negb (from_utf8 name) then Err NonUtf8Segment
            else read_segments fuel buf name_end (Moniker.push_segment builder kind name)
  end.

Definition from_uri (uri : bytes) (config : UriConfig) : res UriError Moniker.t :=
  match strip_prefix (scheme config) uri with
  | None => Err (MissingScheme (scheme config))
  | Some buf =>
      '(project, project_end) ← read_name buf 0 (fun c => ceq c "/"%char);
      match project with
      | [] => Err MissingProject
      | _ =>
          if negb (from_utf8 project) then Err NonUtf8Project
          else
            let builder := Moniker.set_project Moniker.new project in
            builder ← read_segments (S (length buf)) buf project_end builder;
            match Moniker.try_build builder with
            | Err e =>
                match uri_error_from_encoding e with
                | Some e => Err e
                | None => Panic
                end
            | Ok m => Ok m
            | Panic => Panic
            | NoFuel => NoFuel
            end
      end
  end.

(** ** The grammar *)

(** A name inside backticks, with its backticks doubled. *)
Definition double (n : bytes) : bytes :=
  concat ((fun c => if ceq c "`"%char then bs "``" else [c]) <$> n).

(** The texts of a name: bare when it has no [/] and does not start with a
    backtick, or quoted. *)
Inductive name_text (n : bytes) : bytes -> Prop :=
| bare_text :
    Forall (fun c => ceq c "/"%char = false) n -> head n <> Some "`"%char -> name_text n n
| quoted_text : name_text n (bs "`" ++ double n ++ bs "`").

Inductive segments_text : list Moniker.Segment -> bytes -> Prop :=
| no_segment : segments_text [] []
| segment_text kind name txt segs rest :
    name_text name txt -> segments_text segs rest ->
    segments_text ((kind, name) :: segs) (bs "/" ++ kind ++ bs ":" ++ txt ++ rest).

Inductive uri_text (config : UriConfig) (p : bytes) (segs : list Moniker.Segment) : bytes -> Prop :=
| uri_text_intro txt rest :
    name_text p txt -> segments_text segs rest ->
    uri_text config p segs (scheme config ++ txt ++ rest).

End Uri.
