(* ===== verification/UriFacts.v ===== *)
(** Theorems on moniker URIs: the parser accepts exactly the grammar, never
    panics, and reads back what the printer writes. *)

From S2P Require Import Prelude.
From S2P Require Import RustStr.
From S2P Require Import Moniker.
From S2P Require Import MonikerFacts.
From S2P Require Import Uri.

Import Uri.

Module UriFacts.

(** What may follow a name: the end, or a separator. *)
Definition ends (suf : bytes) : Prop :=
  match suf with
  | [] => True
  | c :: _ => c = "/"%char
  end.

(** Components that the parser has checked before it calls the builder. *)
Definition read_ok (s : Moniker.Segment) : bool := Moniker.is_uri_kind s.1 && from_utf8 s.2.

(** ** Names *)

Lemma double_cons c n :
  double (c :: n) = (if ceq c "`"%char then bs "``" else [c]) ++ double n.
Proof. done. Qed.

Lemma lookup_pre (pre rest : bytes) i : (pre ++ rest) !! (length pre + i) = rest !! i.
Proof. rewrite lookup_app_r by lia. f_equal. lia. Qed.

Lemma lookup_pre0 (pre rest : bytes) : (pre ++ rest) !! length pre = head rest.
Proof. rewrite lookup_app_r, Nat.sub_diag by lia. by destruct rest. Qed.

Lemma read_quoted_double fuel (pre n suf : bytes) start out :
  length (double n) + 1 < fuel -> head suf <> Some "`"%char ->
  read_quoted fuel (pre ++ double n ++ "`"%char :: suf) start (length pre) out =
  Ok (out ++ n, length pre + length (double n) + 1).
Proof.
  intros Hf Hsuf. revert pre fuel out Hf.
  induction n as [| c n IH]; intros pre [| fuel] out Hf; try lia; cbn [read_quoted].
  - rewrite (proj2 (Nat.leb_gt _ _)) by (rewrite length_app; simpl; lia).
    cbn [double fmap list_fmap concat app].
    rewrite index_app, ret_bind, ceq_refl by done.
    rewrite lookup_pre. cbn [lookup list_lookup].
    rewrite bool_decide_eq_false_2, andb_false_r.
    + rewrite app_nil_r. f_equal. f_equal. simpl. lia.
    + destruct suf; naive_solver.
  - rewrite double_cons in *. rewrite length_app in Hf.
    rewrite (proj2 (Nat.leb_gt _ _)) by (rewrite !length_app; simpl; lia).
    rewrite <- app_assoc. destruct (ceq c "`"%char) eqn:Hc; cbn [app].
    + apply ceq_true in Hc as ->. change (bs "``") with ["`"%char; "`"%char] in *. cbn [app length] in *.
      rewrite index_app, ret_bind, ceq_refl by done.
      rewrite lookup_pre, (proj2 (Nat.ltb_lt _ _)) by (rewrite length_app; simpl; lia).
      cbn [lookup list_lookup]. rewrite bool_decide_eq_true_2 by done. cbn [andb].
      rewrite (cons_middle _ pre), app_assoc, (cons_middle _ (pre ++ _)), app_assoc.
      replace (length pre + 2) with (length ((pre ++ ["`"%char]) ++ ["`"%char])) by
        (rewrite !length_app; simpl; lia).
      rewrite IH by lia. rewrite <- app_assoc. f_equal. f_equal. rewrite !length_app. simpl. lia.
    + cbn [app length] in *. rewrite index_app, ret_bind, Hc by done.
      rewrite (cons_middle _ pre), app_assoc.
      replace (length pre + 1) with (length (pre ++ [c])) by (rewrite length_app; simpl; lia).
      rewrite IH by lia. rewrite <- app_assoc. f_equal. f_equal. rewrite length_app. simpl. lia.
Qed.

Lemma read_quoted_post fuel (pre rest : bytes) start out :
  length rest < fuel ->
  post (read_quoted fuel (pre ++ rest) start (length pre) out) (fun r =>
    exists n suf, rest = double n ++ "`"%char :: suf /\ head suf <> Some "`"%char /\
      r = (out ++ n, length pre + length (double n) + 1)).
Proof.
  revert pre rest out. induction fuel as [| fuel IH]; intros pre rest out Hf; [lia |].
  cbn [read_quoted]. destruct (length (pre ++ rest) <=? length pre) eqn:Hl; [done |].
  destruct rest as [| c rest]; [rewrite app_nil_r, Nat.leb_refl in Hl; done |]. clear Hl.
  simpl in Hf. rewrite index_app, ret_bind by done. destruct (ceq c "`"%char) eqn:Hc.
  - apply ceq_true in Hc as ->. rewrite lookup_pre. cbn [lookup list_lookup].
    destruct rest as [| c' rest].
    + rewrite bool_decide_eq_false_2, andb_false_r by done.
      exists [], []. rewrite app_nil_r. split_and!; [done | done |]. f_equal. simpl. lia.
    + cbn [list_lookup]. rewrite (proj2 (Nat.ltb_lt _ _)) by (rewrite length_app; simpl; lia).
      rewrite bool_decide_decide. destruct (decide _) as [[= ->] | Hne]; cbn [andb].
      * rewrite (cons_middle _ pre), app_assoc, (cons_middle _ (pre ++ _)), app_assoc.
        replace (length pre + 2) with (length ((pre ++ ["`"%char]) ++ ["`"%char])) by
          (rewrite !length_app; simpl; lia).
        eapply post_mono; [apply IH; simpl in Hf; lia |].
        intros r (n & suf & -> & Hs & ->). exists ("`"%char :: n), suf.
        rewrite double_cons, ceq_refl, <- !app_assoc. split_and!; [done.. |].
        f_equal. rewrite !length_app. change (length (bs "``")) with 2. simpl. lia.
      * exists [], (c' :: rest). rewrite app_nil_r. split_and!; [done | exact Hne |].
        f_equal. simpl. lia.
  - rewrite (cons_middle _ pre), app_assoc.
    replace (length pre + 1) with (length (pre ++ [c])) by (rewrite length_app; simpl; lia).
    eapply post_mono; [apply IH; lia |].
    intros r (n & suf & -> & Hs & ->). exists (c :: n), suf.
    rewrite double_cons, Hc, <- !app_assoc. split_and!; [done.. |].
    f_equal. rewrite !length_app. simpl. lia.
Qed.

Lemma slash_neg c : negb (ceq c "/"%char) = true <-> ceq c "/"%char = false.
Proof. apply negb_true_iff. Qed.

Lemma read_name_text (pre n txt suf : bytes) :
  name_text n txt -> ends suf ->
  read_name (pre ++ txt ++ suf) (length pre) (fun c => ceq c "/"%char) =
  Ok (n, length pre + length txt).
Proof.
  intros Ht Hs. unfold read_name. destruct Ht as [Hn Hh |].
  - rewrite lookup_pre0, bool_decide_eq_false_2, andb_false_r.
    + rewrite scan_while_app.
      * by rewrite slice_mid, ret_bind by lia.
      * eapply Forall_impl; [exact Hn |]. intros c. apply slash_neg.
      * destruct suf; [done |]. cbn in Hs. subst. done.
    + destruct n as [| c n]; [destruct suf; cbn in *; congruence |]. exact Hh.
  - rewrite <- !app_assoc. change (bs "`") with ["`"%char]. cbn [app].
    rewrite lookup_pre0, bool_decide_eq_true_2, (proj2 (Nat.ltb_lt _ _)) by (try rewrite length_app; simpl; lia || done).
    cbn [andb]. set (full := pre ++ _).
    assert (Hq : read_quoted (S (length full)) full (length pre) (length pre + 1) [] =
      Ok (n, length pre + 1 + length (double n) + 1)).
    { unfold full. rewrite (cons_middle _ pre), app_assoc.
      replace (length pre + 1) with (length (pre ++ ["`"%char])) by (rewrite length_app; simpl; lia).
      rewrite read_quoted_double; [done | rewrite !length_app; simpl; lia |].
      destruct suf; [done |]. cbn in *. subst. done. }
    rewrite Hq, ret_bind.
    assert (Hl : full !! (length pre + 1 + length (double n) + 1) = head suf).
    { unfold full. rewrite <- !Nat.add_assoc, lookup_pre.
      replace (1 + _) with (S (length (double n) + 1)) by lia. cbn [lookup list_lookup].
      change (list_lookup ?i ?l) with (l !! i). rewrite lookup_pre. by destruct suf. }
    rewrite Hl.
    replace (length pre + length _) with (length pre + 1 + length (double n) + 1) by
      (cbn [length]; rewrite length_app; cbn [length]; lia).
    destruct suf as [| c suf]; [done |]. cbn in Hs |- *. subst c. done.
Qed.

Lemma read_name_post (pre rest : bytes) :
  post (read_name (pre ++ rest) (length pre) (fun c => ceq c "/"%char)) (fun r =>
    exists txt suf, rest = txt ++ suf /\ name_text r.1 txt /\ ends suf /\
      r.2 = length pre + length txt).
Proof.
  unfold read_name. rewrite lookup_pre0.
  destruct ((_ <? _) && _) eqn:Hq.
  - bool_inv. apply bool_decide_eq_true in H0. destruct rest as [| c rest]; [done |].
    cbn in H0. injection H0 as ->.
    rewrite (cons_middle _ pre), app_assoc.
    replace (length pre + 1) with (length (pre ++ ["`"%char])) by (rewrite length_app; simpl; lia).
    eapply post_bind; [apply read_quoted_post; rewrite !length_app; simpl; lia |].
    intros [o i] (n & suf & -> & Hh & [= -> ->]).
    assert (Hl : ((pre ++ ["`"%char]) ++ double n ++ "`"%char :: suf)
      !! (length (pre ++ ["`"%char]) + length (double n) + 1) = head suf).
    { rewrite <- Nat.add_assoc, lookup_pre, lookup_pre. by destruct suf. }
    rewrite Hl.
    assert (Hend : exists txt suf', ["`"%char] ++ double n ++ "`"%char :: suf = txt ++ suf' /\
      name_text n txt /\ suf' = suf /\
      length (pre ++ ["`"%char]) + length (double n) + 1 = length pre + length txt).
    { exists (bs "`" ++ double n ++ bs "`"), suf. split_and!; [| constructor | done |].
      - by rewrite <- !app_assoc.
      - rewrite !length_app. change (length (bs "`")) with 1. simpl. lia. }
    destruct Hend as (txt & suf' & E & Ht & -> & Hlen).
    destruct suf as [| c suf]; cbn [head].
    + exists txt, []. done.
    + destruct (ceq c "/"%char) eqn:Hc; cbn [negb]; [| done]. apply ceq_true in Hc.
      exists txt, (c :: suf). done.
  - unfold scan_while. rewrite drop_app_length.
    destruct (take_while_spec (fun b => negb (ceq b "/"%char)) rest) as (suf & E & Hf & Hs).
    set (n := take_while _ rest) in *. rewrite E.
    rewrite slice_mid, ret_bind by (rewrite ?Nat.add_0_r; lia).
    exists n, suf. split_and!; [done | | | done].
    + cbn [fst]. constructor.
      * eapply Forall_impl; [exact Hf |]. intros c. apply slash_neg.
      * intros Hh. destruct n as [| c n']; [done |]. cbn in Hh. injection Hh as ->.
        rewrite E in Hq. cbn [app lookup list_lookup] in Hq.
        rewrite bool_decide_eq_true_2, (proj2 (Nat.ltb_lt _ _)) in Hq by
          (try rewrite length_app; simpl; lia || done). done.
    + destruct suf as [| c suf]; [done |]. cbn. apply negb_false_iff, ceq_true in Hs. done.
Qed.

(** ** Kinds *)

Lemma plain_is_uri_kind k : is_plain_identifier k = Moniker.is_uri_kind k.
Proof. destruct k as [| c k]; [done |]. cbn. by destruct (is_ascii_alphabetic c). Qed.

Definition kind_byte (c : ascii) : bool := negb (ceq c ":"%char) && negb (ceq c "/"%char).

Lemma alnum_kind_byte c :
  is_ascii_alphanumeric c || ceq c "_"%char = true -> kind_byte c = true.
Proof.
  unfold kind_byte. rewrite andb_true_iff, !negb_true_iff, !ceq_false.
  intros H. split; intros ->; vm_compute in H; done.
Qed.

Lemma uri_kind_bytes k :
  Moniker.is_uri_kind k = true -> Forall (fun c => kind_byte c = true) k.
Proof.
  destruct k as [| c k]; cbn; [constructor |]. intros [Hc Hk]%andb_prop.
  constructor.
  - apply alnum_kind_byte. unfold is_ascii_alphanumeric. by rewrite Hc.
  - rewrite forallb_forall in Hk. apply Forall_forall. intros x Hx%list_elem_of_In.
    apply alnum_kind_byte. auto.
Qed.

Lemma read_kind_text (pre k suf : bytes) seg_start :
  Moniker.is_uri_kind k = true ->
  read_kind (pre ++ k ++ ":"%char :: suf) (length pre) seg_start = Ok (k, length pre + length k).
Proof.
  intros Hk. unfold read_kind. fold kind_byte.
  rewrite (scan_while_app kind_byte) by (done || by apply uri_kind_bytes).
  rewrite slice_mid, ret_bind by lia. rewrite plain_is_uri_kind, Hk.
  by destruct k.
Qed.

Lemma read_kind_post (pre rest : bytes) seg_start :
  post (read_kind (pre ++ rest) (length pre) seg_start) (fun r =>
    exists suf, rest = r.1 ++ suf /\ Moniker.is_uri_kind r.1 = true /\
      r.2 = length pre + length r.1).
Proof.
  unfold read_kind. fold kind_byte. unfold scan_while. rewrite drop_app_length.
  destruct (take_while_spec kind_byte rest) as (suf & E & _ & _).
  set (k := take_while _ rest) in *. rewrite E.
  rewrite slice_mid, ret_bind by lia.
  destruct k as [| c k']; [done |]. rewrite plain_is_uri_kind.
  destruct (Moniker.is_uri_kind _) eqn:Hk; cbn [negb]; [| done].
  exists suf. done.
Qed.

(** ** Segments *)

Lemma ends_text segs rest : segments_text segs rest -> ends rest.
Proof. by destruct 1. Qed.

Lemma length_name_text n txt : name_text n txt -> length txt <= 2 * length n + 2.
Proof.
  destruct 1; [lia |]. rewrite !length_app. change (length (bs "`")) with 1.
  enough (length (double n) <= 2 * length n) by lia.
  induction n as [| c n IH]; [done |]. rewrite double_cons, length_app.
  destruct (ceq c _); [change (length (bs "``")) with 2 |]; simpl; lia.
Qed.

Lemma read_segments_text fuel (pre : bytes) segs rest b :
  segments_text segs rest -> forallb read_ok segs = true -> length rest < fuel ->
  read_segments fuel (pre ++ rest) (length pre) b =
  Ok (Moniker.mk_builder (Moniker.project b) (Moniker.segments b ++ segs)).
Proof.
  intros Ht. revert fuel pre b. induction Ht as [| kind name txt segs rest Hn Ht IH];
    intros [| fuel] pre b Hok Hf; try lia; cbn [read_segments].
  - rewrite app_nil_r, Nat.ltb_irrefl, app_nil_r. by destruct b.
  - cbn [forallb] in Hok. apply andb_prop in Hok as [[Hk Hu]%andb_prop Hok]. cbn [fst snd] in *.
    change (bs "/") with ["/"%char] in *. change (bs ":") with [":"%char] in *.
    cbn [app] in *. rewrite (proj2 (Nat.ltb_lt _ _)) by (rewrite length_app; simpl; lia).
    cbn [negb]. rewrite index_app, ret_bind, ceq_refl by done. cbn [negb].
    rewrite (cons_middle _ pre), app_assoc.
    replace (length pre + 1) with (length (pre ++ ["/"%char])) by (rewrite length_app; simpl; lia).
    set (pre1 := pre ++ _). rewrite read_kind_text, ret_bind by done.
    rewrite app_assoc, <- length_app. set (pre2 := pre1 ++ kind).
    rewrite lookup_pre0, (proj2 (Nat.leb_gt _ _)) by (rewrite length_app; simpl; lia).
    cbn [head]. rewrite bool_decide_eq_true_2 by done. cbn [negb orb].
    rewrite (cons_middle _ pre2), (app_assoc pre2).
    replace (length pre2 + 1) with (length (pre2 ++ [":"%char])) by (rewrite length_app; simpl; lia).
    rewrite (read_name_text _ name), ret_bind by (done || by eapply ends_text).
    destruct kind as [| c kind]; [done |].
    rewrite (proj2 (beq_false (c :: kind) [])), andb_false_r, Hu by done. cbn [negb].
    rewrite (app_assoc _ txt), <- length_app, IH.
    + cbn [Moniker.push_segment Moniker.project Moniker.segments]. by rewrite <- app_assoc.
    + done.
    + simpl in Hf. rewrite !length_app in Hf. simpl in Hf. rewrite length_app in Hf. lia.
Qed.

Lemma read_segments_post fuel (pre rest : bytes) b :
  ends rest -> length rest < fuel ->
  post (read_segments fuel (pre ++ rest) (length pre) b) (fun b' =>
    exists segs, segments_text segs rest /\ forallb read_ok segs = true /\
      b' = Moniker.mk_builder (Moniker.project b) (Moniker.segments b ++ segs)).
Proof.
  revert pre rest b. induction fuel as [| fuel IH]; intros pre rest b He Hf; [lia |].
  cbn [read_segments]. destruct (length pre <? length (pre ++ rest)) eqn:Hl; cbn [negb].
  2: { bool_inv. rewrite length_app in Hl. destruct rest; [| simpl in Hl; lia].
       exists []. rewrite app_nil_r. split_and!; [constructor | done |]. by destruct b. }
  destruct rest as [| c rest]; [rewrite app_nil_r, Nat.ltb_irrefl in Hl; done |].
  cbn in He. subst c. rewrite index_app, ret_bind, ceq_refl by done. cbn [negb].
  rewrite (cons_middle _ pre), app_assoc.
  replace (length pre + 1) with (length (pre ++ ["/"%char])) by (rewrite length_app; simpl; lia).
  set (pre1 := pre ++ _). simpl in Hf.
  eapply post_bind; [apply read_kind_post |]. intros [kind i] (r1 & -> & Hk & Hi). cbn [fst snd] in *. subst i.
  rewrite app_assoc, <- length_app. set (pre2 := pre1 ++ kind). rewrite lookup_pre0.
  destruct (_ <=? _); [done |]. cbn [orb].
  rewrite bool_decide_decide. destruct (decide _) as [Hc | Hc]; [| done]. cbn [negb].
  destruct r1 as [| c r1]; [done |]. cbn in Hc. injection Hc as ->.
  rewrite (cons_middle _ pre2), (app_assoc pre2).
  replace (length pre2 + 1) with (length (pre2 ++ [":"%char])) by (rewrite length_app; simpl; lia).
  eapply post_bind; [apply read_name_post |]. intros [name j] (txt & suf & -> & Ht & Hs & Hj).
  cbn [fst snd] in *. subst j. destruct kind as [| c kind]; [done |].
  rewrite (proj2 (beq_false (c :: kind) [])), andb_false_r by done.
  destruct (from_utf8 name) eqn:Hu; cbn [negb]; [| done].
  rewrite (app_assoc _ txt), <- length_app.
  eapply post_mono; [apply IH; [done |] |].
  { rewrite !length_app in Hf. simpl in Hf. rewrite !length_app in Hf. lia. }
  intros b' (segs & Hseg & Hok & ->). exists ((c :: kind, name) :: segs). split_and!.
  - change ("/"%char :: ?x) with (bs "/" ++ x). change [":"%char] with (bs ":").
    by constructor.
  - cbn [forallb]. rewrite Hok, andb_true_r. unfold read_ok. cbn [fst snd]. by rewrite Hk, Hu.
  - cbn [Moniker.push_segment Moniker.project Moniker.segments]. by rewrite <- app_assoc.
Qed.

(** ** The parser *)

Lemma seg_ok_read_ok segs : forallb Moniker.seg_ok segs = true -> forallb read_ok segs = true.
Proof.
  rewrite !forallb_forall. intros H s Hin%H. apply MonikerFacts.seg_ok_spec in Hin as (Hk & Hu & _).
  unfold read_ok. by rewrite Hk, Hu.
Qed.

(** The errors of the builder that the parser can see: never those of the
    [unreachable!] arm. *)
Lemma write_segments_errors buf segs e :
  Moniker.write_segments buf segs = Err e -> uri_error_from_encoding e <> None.
Proof.
  revert buf. induction segs as [| [k n] segs IH]; intros buf; cbn [Moniker.write_segments]; [done |].
  repeat case_match; try (intros [= <-]; done). apply IH.
Qed.

Lemma try_build_errors b e : Moniker.try_build b = Err e -> uri_error_from_encoding e <> None.
Proof.
  unfold Moniker.try_build. repeat case_match; try (intros [= <-]; done).
  destruct (Moniker.write_segments _ _) eqn:Hw; try done. intros [= <-].
  by eapply write_segments_errors.
Qed.

Lemma from_uri_post uri config :
  post (from_uri uri config) (fun m => exists p segs, Moniker.valid m p segs /\ uri_text config p segs uri).
Proof.
  unfold from_uri. destruct (strip_prefix _ _) as [buf |] eqn:Hs; [| done].
  apply strip_prefix_Some in Hs as ->.
  eapply post_bind; [apply (read_name_post []) |].
  intros [p i] (txt & suf & -> & Ht & He & Hi). cbn [fst snd] in *. subst i.
  destruct p as [| c p']; [done |]. set (p := c :: p') in *.
  destruct (from_utf8 p); cbn [negb]; [| done].
  eapply post_bind; [apply read_segments_post; [done | rewrite length_app; lia] |].
  intros b (segs & Hseg & _ & ->). cbn [Moniker.set_project Moniker.project Moniker.segments app].
  pose proof (MonikerFacts.try_build_safe (Moniker.mk_builder p segs)) as Hsafe.
  destruct (Moniker.try_build _) as [m | e | |] eqn:Hb; [| | done..].
  - exists p, segs. apply MonikerFacts.try_build_Ok in Hb. split; [exact Hb |]. by constructor.
  - apply try_build_errors in Hb. by destruct (uri_error_from_encoding e).
Qed.

Lemma from_uri_Ok uri config m :
  from_uri uri config = Ok m <->
  exists p segs, Moniker.valid m p segs /\ uri_text config p segs uri.
Proof.
  split.
  - intros H. pose proof (from_uri_post uri config) as Hp. by rewrite H in Hp.
  - intros (p & segs & Hv & Ht). destruct Ht as [txt rest Hn Ht].
    pose proof Hv as [(Hne & Hu & _ & Hok)%MonikerFacts.parts_ok_spec _].
    unfold from_uri. rewrite strip_prefix_app.
    pose proof (read_name_text [] p txt rest Hn (ends_text _ _ Ht)) as Hr.
    cbn [app length Nat.add] in Hr. rewrite Hr, ret_bind.
    destruct p as [| c p']; [done |]. rewrite Hu. cbn [negb].
    rewrite (read_segments_text _ txt segs), ret_bind by
      (done || (by apply seg_ok_read_ok) || (rewrite length_app; lia)).
    cbn [Moniker.set_project Moniker.project Moniker.segments Moniker.new app].
    by rewrite (MonikerFacts.try_build_valid _ _ _ Hv).
Qed.

(** The parser accepts exactly the texts of the grammar
    [<scheme><project>(/<kind>:<name>)*], where a name is bare or quoted in
    backticks, and returns the moniker of that project and path. *)
Theorem from_uri_iff (uri : bytes) (config : UriConfig) (m : Moniker.t) :
  from_uri uri config = Ok m <->
  exists p segs, Moniker.valid m p segs /\ uri_text config p segs uri.
Proof. apply from_uri_Ok. Qed.

(** Parsing an arbitrary byte string never panics: the indices are in
    range, the separator assertion holds, the loops end, and the
    [unreachable!] arm of the error conversion is not reached. *)
Theorem from_uri_never_panics (uri : bytes) (config : UriConfig) : safe (from_uri uri config).
Proof. eapply post_safe. apply from_uri_post. Qed.

(** ** The printer *)

Lemma foldl_double out cs :
  Forall char_ok cs ->
  foldl (fun out c => if beq c (bs "`") then out ++ bs "``" else out ++ c) out cs =
  out ++ double (concat cs).
Proof.
  intros H. revert out. induction H as [| c cs Hc _ IH]; intros out; cbn [foldl concat].
  - by rewrite app_nil_r.
  - rewrite IH. unfold double. rewrite fmap_app, concat_app, app_assoc. f_equal.
    change (concat ((fun c => if ceq c "`"%char then bs "``" else [c]) <$> c)) with (double c).
    destruct Hc as [(a & -> & _) | [Hlen Hc]].
    + change (bs "`") with ["`"%char]. rewrite double_cons. cbn [double fmap list_fmap concat].
      rewrite app_nil_r. destruct (ceq a _) eqn:Ha.
      * apply ceq_true in Ha as ->. by rewrite beq_refl.
      * rewrite (proj2 (beq_false _ _)); [done |]. apply ceq_false in Ha. congruence.
    + rewrite (proj2 (beq_false _ _)) by (intros ->; simpl in Hlen; lia). f_equal.
      clear Hlen. induction Hc as [| a c Ha _ IHc]; [done |].
      rewrite double_cons, <- IHc. rewrite (proj2 (ceq_false _ _)); [done |]. by intros ->.
Qed.

Lemma write_name_text {E} out l :
  from_utf8 l = true -> exists txt, write_name (E:=E) out l = Ok (out ++ txt) /\ name_text l txt.
Proof.
  intros [cs Hcs]%from_utf8_chars. unfold write_name. rewrite Hcs.
  apply chars_spec in Hcs as [<- Hok].
  destruct (name_needs_escaping (concat cs)) eqn:Hn; cbn [negb].
  - exists (bs "`" ++ double (concat cs) ++ bs "`"). split; [| constructor].
    rewrite foldl_double by done. by rewrite !app_assoc.
  - exists (concat cs). split; [done |]. unfold name_needs_escaping in Hn.
    destruct (concat cs) as [| c l]; [done |]. apply existsb_false in Hn.
    constructor.
    + eapply Forall_impl; [exact Hn |]. intros x Hx. cbv beta in *. by bool_inv.
    + intros [= ->]. apply Forall_inv in Hn. done.
Qed.

Lemma write_segments_text {E} out segs :
  forallb Moniker.seg_ok segs = true ->
  exists rest, write_segments (E:=E) out segs = Ok (out ++ rest) /\ segments_text segs rest.
Proof.
  revert out. induction segs as [| [k n] segs IH]; intros out; cbn [forallb write_segments].
  - exists []. rewrite app_nil_r. split; [done | constructor].
  - intros [(Hk & Hu & _)%MonikerFacts.seg_ok_spec Hok]%andb_prop. cbn [fst snd] in *.
    rewrite MonikerFacts.is_uri_kind_utf8 by done. cbn [negb].
    destruct (write_name_text (E:=E) (((out ++ bs "/") ++ k) ++ bs ":") n Hu) as (txt & -> & Ht).
    rewrite ret_bind. destruct (IH ((((out ++ bs "/") ++ k) ++ bs ":") ++ txt) Hok) as (rest & -> & Hr).
    exists (bs "/" ++ k ++ bs ":" ++ txt ++ rest). split; [by rewrite !app_assoc | by constructor].
Qed.

Lemma to_uri_text {E} (m : Moniker.t) (p : bytes) (segs : list Moniker.Segment) (config : UriConfig) :
  Moniker.valid m p segs ->
  exists uri, to_uri (E:=E) m config = Ok uri /\ uri_text config p segs uri.
Proof.
  intros H. unfold to_uri. rewrite (MonikerFacts.as_view_valid _ _ _ H), ret_bind,
    MonikerFacts.view_project_valid, ret_bind.
  pose proof H as [(_ & Hu & _ & Hok)%MonikerFacts.parts_ok_spec _].
  destruct (write_name_text (E:=E) (scheme config) p Hu) as (txt & -> & Ht).
  rewrite ret_bind, (MonikerFacts.view_segments_valid _ _ _ H), ret_bind.
  destruct (write_segments_text (E:=E) (scheme config ++ txt) segs Hok) as (rest & -> & Hr).
  eexists. split; [done |]. rewrite <- app_assoc. by constructor.
Qed.

(** C19: round trip: printing a valid moniker never panics, and parsing the
    text gives the same moniker back, whatever its names hold; so distinct
    monikers have distinct URIs. *)
Theorem uri_roundtrip {E} (m : Moniker.t) (p : bytes) (segs : list Moniker.Segment)
    (config : UriConfig) (H : Moniker.valid m p segs) :
  exists uri, to_uri (E:=E) m config = Ok uri /\ from_uri uri config = Ok m.
Proof.
  destruct (to_uri_text (E:=E) m p segs config H) as (uri & Hu & Ht). exists uri. split; [done |].
  apply from_uri_Ok. by exists p, segs.
Qed.

Lemma uri_roundtrip_witness :
  let segs := [(bs "path", bs "util/test.ts"); (bs "class", bs "weird`name"); (bs "fn", [])] in
  exists uri, to_uri (E:=()) (Moniker.mk (Moniker.enc_parts (bs "app") segs)) default_config = Ok uri /\
    from_uri uri default_config = Ok (Moniker.mk (Moniker.enc_parts (bs "app") segs)).
Proof.
  cbv zeta. apply (uri_roundtrip (E:=()) _ (bs "app")
    [(bs "path", bs "util/test.ts"); (bs "class", bs "weird`name"); (bs "fn", [])]).
  split; [vm_compute; reflexivity | reflexivity].
Defined.

Example to_uri_example :
  to_uri (E:=()) (Moniker.mk (Moniker.enc_parts (bs "app")
    [(bs "path", bs "util/test.ts"); (bs "class", bs "weird`name")])) default_config =
  Ok (bs "code+moniker://app/path:`util/test.ts`/class:`weird``name`").
Proof. vm_compute. reflexivity. Qed.

End UriFacts.
