(* ===== verification/CodeGraph.v ===== *)
(** The code graph (src/crates/core/src/core/code_graph/mod.rs): definitions
    and references of one source file, a lookup index that rebuilds itself,
    and two cached sorted listings. *)

From stdpp Require Import sorting.
From S2P Require Import Prelude.
From S2P Require Import RustStr.
From S2P Require Import Shape.
From S2P Require Import Moniker.
From S2P Require Import Uri.

Module CodeGraph.

(** [(u32, u32)] *)
Abbreviation Position := (N * N)%type.

Record DefRecord : Set := mk_def {
  moniker : Moniker.t;
  kind : bytes;
  parent : option nat;
  position : option Position;
  visibility : bytes;
  signature : bytes;
  call_name : bytes;
  call_arity : option N;
  binding : bytes;
  origin : bytes
}.

(** [DefRecord::shape] and [DefRecord::opens_scope] *)
Definition def_shape (d : DefRecord) : option Shape.t := Shape.shape_of (kind d).
Definition def_opens_scope (d : DefRecord) : bool := Shape.opens_scope (kind d).

Record RefRecord : Set := mk_ref {
  source : nat;
  target : Moniker.t;
  ref_kind : bytes;
  ref_position : option Position;
  receiver_hint : bytes;
  alias : bytes;
  confidence : bytes;
  ref_call_name : bytes;
  ref_call_arity : option N;
  ref_binding : bytes
}.

Record DefAttrs : Set := mk_def_attrs {
  attr_visibility : bytes;
  attr_signature : bytes;
  attr_call_name : bytes;
  attr_call_arity : option N;
  attr_binding : bytes;
  attr_origin : bytes
}.

Definition DefAttrs_default : DefAttrs := mk_def_attrs [] [] [] None [] [].

Record RefAttrs : Set := mk_ref_attrs {
  attr_receiver_hint : bytes;
  attr_alias : bytes;
  attr_confidence : bytes;
  attr_ref_call_name : bytes;
  attr_ref_call_arity : option N;
  attr_ref_binding : bytes
}.

Definition RefAttrs_default : RefAttrs := mk_ref_attrs [] [] [] [] None [].

Inductive GraphError : Set :=
| ParentNotFound
| ParentNotAncestor
| SourceNotFound
| DuplicateMoniker.

(** [Display for GraphError] *)
Definition error_display (e : GraphError) : bytes :=
  match e with
  | ParentNotFound => bs "parent moniker not found in graph"
  | ParentNotAncestor => bs "parent moniker is not an ancestor of the def"
  | SourceNotFound => bs "ref source moniker not found in graph"
  | DuplicateMoniker => bs "duplicate moniker in graph defs"
  end.

#[global] Instance def_eq_dec : EqDecision DefRecord.
Proof. solve_decision. Defined.
#[global] Instance ref_eq_dec : EqDecision RefRecord.
Proof. solve_decision. Defined.

(** The graph. The three locks guard the index and the two caches; no method
    holds one while it takes another. *)
Record t : Type := mk {
  defs : list DefRecord;
  refs : list RefRecord;
  index : gmap Moniker.t nat;
  def_monikers_cache : option (list Moniker.t);
  ref_targets_cache : option (list Moniker.t)
}.

Abbreviation M := (ST t GraphError).

(** [PartialEq]: the index and the caches do not count. *)
Definition eqb (g g' : t) : bool :=
  bool_decide (defs g = defs g') && bool_decide (refs g = refs g').

Definition set_index (i : gmap Moniker.t nat) (g : t) : t :=
  mk (defs g) (refs g) i (def_monikers_cache g) (ref_targets_cache g).

(** The [for (i, d) in defs.iter().enumerate()] loops that fill the index: a
    later definition replaces an earlier one of the same moniker. *)
Definition fill_index (ds : list DefRecord) (idx : gmap Moniker.t nat) : gmap Moniker.t nat :=
  foldl (fun idx e => <[moniker e.2 := e.1]> idx) idx (imap pair ds).

Definition from_records (ds : list DefRecord) (rs : list RefRecord) : t :=
  let index := fill_index ds ∅ in
  mk ds rs index None None.

(** [Clone for CodeGraph] *)
Definition clone (g : t) : t := from_records (defs g) (refs g).

Definition with_capacity (root : Moniker.t) (root_kind : bytes) : t :=
  let index := <[root := 0]> ∅ in
  mk [mk_def root root_kind None None [] [] [] None Kinds.BIND_EXPORT Kinds.ORIGIN_EXTRACTED]
     [] index None None.

Definition new (root : Moniker.t) (root_kind : bytes) : t := with_capacity root root_kind.

Definition capacity_for_source (source_len : nat) : nat * nat :=
  (source_len / 100, source_len / 50).

(** The [if kind == A || ..] tests. *)
Definition one_of (k : bytes) (l : list bytes) : bool := existsb (beq k) l.

Definition default_def_binding (kind visibility : bytes) : bytes :=
  if beq kind Kinds.KIND_COMMENT then Kinds.BIND_NONE
  else if beq kind Kinds.KIND_LOCAL || beq kind Kinds.KIND_PARAM then Kinds.BIND_LOCAL
  else if beq visibility Kinds.VIS_PRIVATE || beq visibility Kinds.VIS_MODULE
  then Kinds.BIND_LOCAL
  else if beq kind Kinds.KIND_MODULE then Kinds.BIND_EXPORT
  else if beq visibility Kinds.VIS_PUBLIC || beq visibility Kinds.VIS_PROTECTED
          || beq visibility Kinds.VIS_PACKAGE
  then Kinds.BIND_EXPORT
  else Kinds.BIND_LOCAL.

Definition default_ref_binding (kind : bytes) : bytes :=
  if one_of kind [Kinds.REF_IMPORTS_SYMBOL; Kinds.REF_IMPORTS_MODULE; Kinds.REF_REEXPORTS]
  then Kinds.BIND_IMPORT
  else if one_of kind [Kinds.REF_DI_REGISTER; Kinds.REF_DI_REQUIRE] then Kinds.BIND_INJECT
  else if one_of kind
            [Kinds.REF_CALLS; Kinds.REF_METHOD_CALL; Kinds.REF_READS; Kinds.REF_WRITES;
             Kinds.REF_MEMBER_OF; Kinds.REF_REFERENCES; Kinds.REF_USES_TYPE;
             Kinds.REF_RETURNS_TYPE; Kinds.REF_INSTANTIATES; Kinds.REF_EXTENDS;
             Kinds.REF_IMPLEMENTS; Kinds.REF_ANNOTATES]
  then Kinds.BIND_LOCAL
  else Kinds.BIND_NONE.

(** [&self], but it may write the index. *)
Definition find_def {E} (m : Moniker.t) : ST t E (option nat) :=
  g ← get;
  if size (index g) =? length (defs g) then mret (index g !! m)
  else
    _ ← modify (fun g => set_index (fill_index (defs g) ∅) g);
    g ← get;
    mret (index g !! m).

(** [Result] of [is_ancestor_of], which cannot fail but could panic on bytes
    that are not a moniker. *)
Definition add_def_attrs (moniker : Moniker.t) (kind : bytes) (parent : Moniker.t)
    (position : option Position) (attrs : DefAttrs) : M () :=
  dup ← find_def moniker;
  if bool_decide (is_Some dup) then throw DuplicateMoniker
  else
    anc ← lift (Moniker.is_ancestor_of parent moniker);
    if negb anc then throw ParentNotAncestor
    else
      p ← find_def parent;
      parent_idx ← lift (ok_or p ParentNotFound);
      g ← get;
      let new_idx := length (defs g) in
      let binding :=
        match attr_binding attrs with
        | [] => default_def_binding kind (attr_visibility attrs)
        | b => b
        end in
      let origin :=
        match attr_origin attrs with [] => Kinds.ORIGIN_EXTRACTED | o => o end in
      let d := mk_def moniker kind (Some parent_idx) position (attr_visibility attrs)
                 (attr_signature attrs) (attr_call_name attrs) (attr_call_arity attrs)
                 binding origin in
      put (mk (defs g ++ [d]) (refs g) (<[moniker := new_idx]> (index g))
              None (ref_targets_cache g)).

Definition add_def (moniker : Moniker.t) (kind : bytes) (parent : Moniker.t)
    (position : option Position) : M () :=
  add_def_attrs moniker kind parent position DefAttrs_default.

Definition add_ref_attrs (source target : Moniker.t) (kind : bytes)
    (position : option Position) (attrs : RefAttrs) : M () :=
  s ← find_def source;
  source_idx ← lift (ok_or s SourceNotFound);
  g ← get;
  let binding :=
    match attr_ref_binding attrs with [] => default_ref_binding kind | b => b end in
  let r := mk_ref source_idx target kind position (attr_receiver_hint attrs)
             (attr_alias attrs) (attr_confidence attrs) (attr_ref_call_name attrs)
             (attr_ref_call_arity attrs) binding in
  put (mk (defs g) (refs g ++ [r]) (index g) (def_monikers_cache g) None).

Definition add_ref (source target : Moniker.t) (kind : bytes)
    (position : option Position) : M () :=
  add_ref_attrs source target kind position RefAttrs_default.

(** [&self.defs[i]]: out of range panics. *)
Definition def_at {E} (g : t) (i : nat) : res E DefRecord :=
  match defs g !! i with Some d => Ok d | None => Panic end.

Definition ref_at {E} (g : t) (i : nat) : res E RefRecord :=
  match refs g !! i with Some r => Ok r | None => Panic end.

Definition root {E} (g : t) : res E Moniker.t := d ← def_at g 0; mret (moniker d).

Definition set_def_call_metadata {E} (m : Moniker.t) (name : bytes) (arity : N) :
    ST t E () :=
  i ← find_def m;
  match i with
  | None => mret ()
  | Some idx =>
      g ← get;
      d ← lift (def_at g idx);
      let d := mk_def (moniker d) (kind d) (parent d) (position d) (visibility d)
                 (signature d) name (Some arity) (binding d) (origin d) in
      put (mk (<[idx := d]> (defs g)) (refs g) (index g)
              (def_monikers_cache g) (ref_targets_cache g))
  end.

Definition contains {E} (m : Moniker.t) : ST t E bool :=
  i ← find_def m; mret (bool_decide (is_Some i)).

Definition locate {E} (m : Moniker.t) : ST t E (option Position) :=
  i ← find_def m;
  match i with
  | None => mret None
  | Some i => g ← get; d ← lift (def_at g i); mret (position d)
  end.

(** [a.as_encoded().cmp(b.as_encoded())], the order of the listings *)
Definition moniker_le (a b : Moniker.t) : Prop :=
  Moniker.bytes_le (Moniker.encoded a) (Moniker.encoded b) = true.

#[global] Instance moniker_le_dec : RelDecision moniker_le.
Proof. intros a b. unfold moniker_le. apply _. Defined.

Definition def_monikers {E} : ST t E (list Moniker.t) :=
  g ← get;
  match def_monikers_cache g with
  | Some cached => mret cached
  | None =>
      let v := merge_sort moniker_le (moniker <$> defs g) in
      _ ← modify (fun g => mk (defs g) (refs g) (index g) (Some v) (ref_targets_cache g));
      mret v
  end.

Definition ref_targets {E} : ST t E (list Moniker.t) :=
  g ← get;
  match ref_targets_cache g with
  | Some cached => mret cached
  | None =>
      let v := merge_sort moniker_le (target <$> refs g) in
      _ ← modify (fun g => mk (defs g) (refs g) (index g) (def_monikers_cache g) (Some v));
      mret v
  end.

Definition def_count (g : t) : nat := length (defs g).
Definition ref_count (g : t) : nat := length (refs g).

(** [defs.iter().any(|d| d.bind_match(&r.target))] *)
Fixpoint any_bind_match {E : Type} (ds : list DefRecord) (target : Moniker.t) : res E bool :=
  match ds with
  | [] => mret false
  | d :: ds =>
      b ← Moniker.bind_match (E:=E) (moniker d) target;
      if (b : bool) then mret true else any_bind_match ds target
  end.

Fixpoint check_local_refs {E : Type} (ds : list DefRecord) (rs : list RefRecord) : res E () :=
  match rs with
  | [] => mret ()
  | r :: rs =>
      if negb (beq (confidence r) (bs "local")) then check_local_refs ds rs
      else
        resolved ← any_bind_match (E:=E) ds (target r);
        if negb resolved then Panic else check_local_refs ds rs
  end.

(** The test helper that panics on a dangling local reference. *)
Definition assert_local_refs_closed {E} (g : t) : res E () :=
  check_local_refs (defs g) (refs g).

(** ** The abstract graph

    What the graph promises, whatever its index and its caches hold. *)

(** The last definition of a moniker. *)
Fixpoint last_index (ds : list DefRecord) (m : Moniker.t) : option nat :=
  match ds with
  | [] => None
  | d :: ds =>
      match last_index ds m with
      | Some i => Some (S i)
      | None => if bool_decide (moniker d = m) then Some 0 else None
      end
  end.

(** The index, when it has the size of the definitions, and the caches, when
    they are filled, agree with the records. *)
Definition coherent (g : t) : Prop :=
  (size (index g) = length (defs g) -> index g = fill_index (defs g) ∅) /\
  (forall v, def_monikers_cache g = Some v -> v = merge_sort moniker_le (moniker <$> defs g)) /\
  (forall v, ref_targets_cache g = Some v -> v = merge_sort moniker_le (target <$> refs g)).

(** What a graph means: its records. *)
Definition Abs : Type := list DefRecord * list RefRecord.
Definition abs (g : t) : Abs := (defs g, refs g).

#[global] Instance graph_equiv : Equiv t := fun g g' => abs g = abs g'.

(** Each operation on the records alone. *)
Definition under (p m : Moniker.t) : bool :=
  bool_decide (Moniker.encoded p `prefix_of` Moniker.encoded m).

Definition new_def (m : Moniker.t) (k : bytes) (i : nat) (pos : option Position)
    (attrs : DefAttrs) : DefRecord :=
  mk_def m k (Some i) pos (attr_visibility attrs) (attr_signature attrs)
    (attr_call_name attrs) (attr_call_arity attrs)
    (if decide (attr_binding attrs = []) then default_def_binding k (attr_visibility attrs)
     else attr_binding attrs)
    (if decide (attr_origin attrs = []) then bs "extracted" else attr_origin attrs).

Definition new_ref (i : nat) (tgt : Moniker.t) (k : bytes) (pos : option Position)
    (attrs : RefAttrs) : RefRecord :=
  mk_ref i tgt k pos (attr_receiver_hint attrs) (attr_alias attrs) (attr_confidence attrs)
    (attr_ref_call_name attrs) (attr_ref_call_arity attrs)
    (if decide (attr_ref_binding attrs = []) then default_ref_binding k
     else attr_ref_binding attrs).

Definition spec_add_def m k p pos attrs (a : Abs) : res GraphError () * Abs :=
  if bool_decide (m ∈ moniker <$> a.1) then (Err DuplicateMoniker, a)
  else if negb (under p m) then (Err ParentNotAncestor, a)
  else match last_index a.1 p with
       | None => (Err ParentNotFound, a)
       | Some i => (Ok (), (a.1 ++ [new_def m k i pos attrs], a.2))
       end.

Definition spec_add_ref s tgt k pos attrs (a : Abs) : res GraphError () * Abs :=
  match last_index a.1 s with
  | None => (Err SourceNotFound, a)
  | Some i => (Ok (), (a.1, a.2 ++ [new_ref i tgt k pos attrs]))
  end.

Definition with_call (name : bytes) (arity : N) (d : DefRecord) : DefRecord :=
  mk_def (moniker d) (kind d) (parent d) (position d) (visibility d) (signature d)
    name (Some arity) (binding d) (origin d).

Definition spec_set_call (m : Moniker.t) name arity (a : Abs) : res GraphError () * Abs :=
  (Ok (), (match last_index a.1 m with
           | None => a.1
           | Some i => alter (with_call name arity) i a.1
           end, a.2)).

Definition query {A} (f : Abs -> A) (a : Abs) : res GraphError A * Abs := (Ok (f a), a).

Definition spec_contains (m : Moniker.t) (a : Abs) : bool :=
  bool_decide (m ∈ moniker <$> a.1).

Definition spec_locate (m : Moniker.t) (a : Abs) : option Position :=
  i ← last_index a.1 m; d ← a.1 !! i; position d.

Definition spec_def_monikers (a : Abs) := merge_sort moniker_le (moniker <$> a.1).
Definition spec_ref_targets (a : Abs) := merge_sort moniker_le (target <$> a.2).

(** [c] implements [s]: same outcome, same records, on every coherent graph,
    and the graph stays coherent. *)
Definition refines {A} (c : M A) (s : Abs -> res GraphError A * Abs) : Prop :=
  forall g, coherent g -> coherent (c g).2 /\ ((c g).1, abs (c g).2) = s (abs g).

(** ** The invariant *)

Definition valid_moniker (m : Moniker.t) : Prop := exists p segs, Moniker.valid m p segs.

(** The definitions form a tree that follows the monikers: the first one is
    the root, every other one has an earlier definition as its parent, whose
    moniker is an ancestor of its own. *)
Definition rooted (ds : list DefRecord) : Prop :=
  forall i d, ds !! i = Some d ->
    match parent d with
    | None => i = 0
    | Some p => p < i /\ exists e, ds !! p = Some e /\ under (moniker e) (moniker d) = true
    end.

Record wf (a : Abs) : Prop := mk_wf {
  wf_root : a.1 <> [];
  wf_nodup : NoDup (moniker <$> a.1);
  wf_defs : Forall (fun d => valid_moniker (moniker d)) a.1;
  wf_refs : Forall (fun r => source r < length a.1 /\ valid_moniker (target r)) a.2;
  wf_rooted : rooted a.1
}.

(** The graphs an extractor can build. *)
Inductive reachable : t -> Prop :=
| reach_new root k : valid_moniker root -> reachable (new root k)
| reach_add_def g m k p pos attrs :
    reachable g -> valid_moniker m -> valid_moniker p ->
    reachable (add_def_attrs m k p pos attrs g).2
| reach_add_ref g s tgt k pos attrs :
    reachable g -> valid_moniker tgt -> reachable (add_ref_attrs s tgt k pos attrs g).2
| reach_set_call g m name arity :
    reachable g -> reachable (set_def_call_metadata (E:=GraphError) m name arity g).2
| reach_contains g m : reachable g -> reachable (contains (E:=GraphError) m g).2
| reach_locate g m : reachable g -> reachable (locate (E:=GraphError) m g).2
| reach_def_monikers g : reachable g -> reachable (def_monikers (E:=GraphError) g).2
| reach_ref_targets g : reachable g -> reachable (ref_targets (E:=GraphError) g).2
| reach_clone g : reachable g -> reachable (clone g).

(** The parents of a definition, up to the root, by fuel. *)
Fixpoint ancestors (fuel : nat) (ds : list DefRecord) (i : nat) : list nat :=
  match fuel with
  | O => []
  | S fuel =>
      i :: match ds !! i with
           | Some d => match parent d with Some p => ancestors fuel ds p | None => [] end
           | None => []
           end
  end.

End CodeGraph.
