(* ===== verification/CodeGraphFacts.v ===== *)
(** The code graph is correct: the index and the caches never show, every
    operation does what it promises on the records, and the records always
    form a tree of definitions rooted at the file's module. *)

From stdpp Require Import sorting.
From S2P Require Import Prelude.
From S2P Require Import RustStr.
From S2P Require Import Shape.
From S2P Require Import Moniker.
From S2P Require Import MonikerFacts.
From S2P Require Import CodeGraph.

Module CodeGraphFacts.
Import CodeGraph.

(** ** The index *)

Lemma fill_index_snoc ds d :
  fill_index (ds ++ [d]) ∅ = <[moniker d := length ds]> (fill_index ds ∅).
Proof.
  unfold fill_index. rewrite imap_app. cbn [imap].
  by rewrite foldl_snoc, Nat.add_0_r.
Qed.

Lemma last_index_snoc ds d m :
  last_index (ds ++ [d]) m = if decide (moniker d = m) then Some (length ds) else last_index ds m.
Proof.
  induction ds as [| e ds IH]; cbn [app last_index length].
  - rewrite bool_decide_decide. by case_decide.
  - rewrite IH. case_decide; [done |]. done.
Qed.

Lemma fill_index_lookup ds m : fill_index ds ∅ !! m = last_index ds m.
Proof.
  induction ds as [| d ds IH] using rev_ind; [done |].
  rewrite fill_index_snoc, last_index_snoc, <- IH.
  case_decide as Hd; [subst | by rewrite lookup_insert_ne].
  by rewrite lookup_insert_eq.
Qed.

Lemma last_index_Some ds m i :
  last_index ds m = Some i -> exists d, ds !! i = Some d /\ moniker d = m.
Proof.
  revert i. induction ds as [| d ds IH]; intros i; cbn [last_index]; [done |].
  destruct (last_index ds m) as [j |].
  - intros [= <-]. by apply IH.
  - rewrite bool_decide_decide. case_decide; [| done]. intros [= <-]. eauto.
Qed.

Lemma last_index_None ds m : last_index ds m = None <-> m ∉ moniker <$> ds.
Proof.
  induction ds as [| d ds IH]; cbn [last_index fmap list_fmap].
  - split; [intros _; apply not_elem_of_nil | done].
  - rewrite not_elem_of_cons, <- IH. destruct (last_index ds m).
    + split; [done |]. by intros [_ ?].
    + rewrite bool_decide_decide. case_decide.
      * split; [done | by intros []].
      * split; [by split; congruence | done].
Qed.

Lemma last_index_is_Some ds m : is_Some (last_index ds m) <-> m ∈ moniker <$> ds.
Proof.
  rewrite <- not_eq_None_Some, last_index_None. split.
  - intros H. by destruct (decide (m ∈ moniker <$> ds)).
  - tauto.
Qed.

(** The graph after its index was read. *)
Definition healed (g : t) : t := set_index (fill_index (defs g) ∅) g.

Lemma find_def_healed {E} g m :
  coherent g -> find_def (E:=E) m g = (Ok (last_index (defs g) m), healed g).
Proof.
  intros [Hi _]. unfold find_def. st_run.
  destruct (size (index g) =? length (defs g)) eqn:Hs; bool_inv.
  - rewrite <- fill_index_lookup, <- Hi by done. f_equal.
    unfold healed. rewrite <- Hi by done. by destruct g.
  - cbn [modify set_index index]. by rewrite fill_index_lookup.
Qed.

Lemma healed_coherent g : coherent g -> coherent (healed g).
Proof. intros (_ & Hd & Hr). by split_and!. Qed.

Lemma healed_idemp g : healed (healed g) = healed g.
Proof. done. Qed.

Lemma abs_healed g : abs (healed g) = abs g.
Proof. done. Qed.

(** ** The operations refine their specifications *)

Lemma refines_find {A} m (k : option nat -> M A) (s : Abs -> res GraphError A * Abs) :
  (forall g, coherent g -> index g = fill_index (defs g) ∅ ->
     coherent (k (last_index (defs g) m) g).2 /\
     ((k (last_index (defs g) m) g).1, abs (k (last_index (defs g) m) g).2) = s (abs g)) ->
  refines (find_def m ≫= k) s.
Proof.
  intros Hk g Hg. unfold mbind, st_bind. rewrite find_def_healed by done.
  apply (Hk (healed g)); [by apply healed_coherent | done].
Qed.

Lemma under_valid m p :
  valid_moniker m -> valid_moniker p ->
  Moniker.is_ancestor_of (E:=GraphError) p m = Ok (under p m).
Proof.
  intros (pm & sm & Hm) (pp & sp & Hp).
  destruct (MonikerFacts.is_ancestor_of_valid (E:=GraphError) _ _ _ _ _ _ Hp Hm)
    as (b & Hb & _).
  rewrite Hb. f_equal. apply eq_true_iff_eq. unfold under. rewrite bool_decide_eq_true.
  rewrite <- (MonikerFacts.is_ancestor_of_true (E:=GraphError) _ _ _ _ _ _ Hp Hm), Hb.
  split; congruence.
Qed.

Lemma coherent_add_def g d :
  coherent g -> index g = fill_index (defs g) ∅ ->
  coherent (mk (defs g ++ [d]) (refs g) (<[moniker d := length (defs g)]> (index g))
              None (ref_targets_cache g)).
Proof.
  intros (_ & _ & Hr) Hi. split_and!; [| done | exact Hr].
  intros _. cbn [index defs]. by rewrite fill_index_snoc, Hi.
Qed.

Lemma add_def_attrs_refines m k p pos attrs :
  valid_moniker m -> valid_moniker p ->
  refines (add_def_attrs m k p pos attrs) (spec_add_def m k p pos attrs).
Proof.
  intros Hm Hp. apply refines_find. intros g Hg Hi.
  unfold spec_add_def. cbn [abs fst].
  rewrite (bool_decide_ext _ _ (last_index_is_Some (defs g) m)).
  case_bool_decide as Hdup; [done |].
  rewrite under_valid by done. unfold lift at 1. st_run.
  destruct (under p m); cbn [negb]; [| done].
  rewrite find_def_healed by done. cbn [healed set_index defs].
  destruct (last_index (defs g) p) as [i |]; [| split; [by apply healed_coherent | done]].
  cbn. split.
  { apply (coherent_add_def (healed g) (mk_def _ _ _ _ _ _ _ _ _ _)); [| done].
    by apply healed_coherent. }
  unfold new_def. by destruct (attr_binding attrs), (attr_origin attrs).
Qed.

Lemma add_ref_attrs_refines s tgt k pos attrs :
  refines (add_ref_attrs s tgt k pos attrs) (spec_add_ref s tgt k pos attrs).
Proof.
  apply refines_find. intros g Hg Hi. unfold spec_add_ref. cbn [abs fst].
  destruct (last_index (defs g) s) as [i |]; [| done]. cbn. split.
  - destruct Hg as (_ & Hd & _). by split_and!.
  - unfold new_ref. by destruct (attr_ref_binding attrs).
Qed.

Lemma moniker_with_call name arity (i : nat) (ds : list DefRecord) :
  moniker <$> alter (with_call name arity) i ds = moniker <$> ds.
Proof.
  apply list_eq. intros j. rewrite !list_lookup_fmap, list_lookup_alter.
  case_decide; [| done]. subst; by destruct (ds !! _).
Qed.

Lemma fill_index_monikers (ds ds' : list DefRecord) :
  moniker <$> ds = moniker <$> ds' -> fill_index ds ∅ = fill_index ds' ∅.
Proof.
  revert ds'. induction ds as [| d ds IH] using rev_ind; intros ds'.
  - by destruct ds'.
  - destruct ds' as [| d' ds' _] using rev_ind; rewrite !fmap_app.
    + intros H%(f_equal length). rewrite length_app in H. cbn in H. lia.
    + intros [H [= Hd]]%app_inj_2; [| done]. rewrite !fill_index_snoc, (IH _ H), Hd.
      apply (f_equal length) in H. rewrite !length_fmap in H. by rewrite H.
Qed.

Lemma set_def_call_metadata_refines m name arity :
  refines (set_def_call_metadata m name arity) (spec_set_call m name arity).
Proof.
  apply refines_find. intros g Hg Hi. unfold spec_set_call. cbn [abs fst snd].
  destruct (last_index (defs g) m) as [i |] eqn:Hl; [| done].
  apply last_index_Some in Hl as (d & Hd & _). unfold def_at, lift. st_run.
  rewrite Hd. cbn [put fst snd abs defs refs].
  fold (with_call name arity d).
  assert (<[i := with_call name arity d]> (defs g) = alter (with_call name arity) i (defs g))
    as Ha by (apply list_eq; intros j; rewrite list_lookup_alter;
              case_decide; [subst; rewrite Hd; cbn;
                apply list_lookup_insert_eq; by eapply lookup_lt_Some
              | by rewrite list_lookup_insert_ne]).
  split; [| by rewrite <- Ha].
  destruct Hg as (Hx & Hc & Hr). unfold coherent. cbn [index defs def_monikers_cache].
  rewrite Ha, moniker_with_call. split_and!; [| done..].
  intros _. rewrite Hi. apply fill_index_monikers. by rewrite moniker_with_call.
Qed.

Lemma contains_refines m : refines (contains m) (query (spec_contains m)).
Proof.
  apply refines_find. intros g Hg Hi. split; [done |]. unfold query, spec_contains.
  cbn. by rewrite (bool_decide_ext _ _ (last_index_is_Some (defs g) m)).
Qed.

Lemma locate_refines m : refines (locate m) (query (spec_locate m)).
Proof.
  apply refines_find. intros g Hg Hi. unfold query, spec_locate. cbn [abs fst].
  destruct (last_index (defs g) m) as [i |] eqn:Hl; [| done].
  apply last_index_Some in Hl as (d & Hd & _). unfold def_at, lift. st_run.
  rewrite Hd. cbn. by rewrite Hd.
Qed.

Lemma def_monikers_refines : refines def_monikers (query spec_def_monikers).
Proof.
  intros g Hg. pose proof Hg as (Hi & Hd & Hr). unfold def_monikers. st_run.
  destruct (def_monikers_cache g) as [v |] eqn:Hc.
  - split; [done |]. by rewrite (Hd v).
  - cbn. split; [| done]. split_and!; [done | by intros v [= <-] | done].
Qed.

Lemma ref_targets_refines : refines ref_targets (query spec_ref_targets).
Proof.
  intros g Hg. pose proof Hg as (Hi & Hd & Hr). unfold ref_targets. st_run.
  destruct (ref_targets_cache g) as [v |] eqn:Hc.
  - split; [done |]. by rewrite (Hr v).
  - cbn. split; [| done]. split_and!; [done | done | by intros v [= <-]].
Qed.


Create HintDb graph discriminated.
#[export] Hint Resolve add_def_attrs_refines add_ref_attrs_refines
  set_def_call_metadata_refines contains_refines locate_refines
  def_monikers_refines ref_targets_refines : graph.

(** C9: every operation of the graph implements its specification on the
    records alone: a definition is added exactly when its moniker is new and
    under that of an existing parent, and the error tells which of the three
    conditions failed first; a reference needs an existing source; lookups see
    the last definition of a moniker; a failed operation changes no record.
    This holds on any coherent graph: a freshly decoded one, one whose index
    was lost, one with duplicate definitions. *)
Theorem operations_refine m k p pos attrs s tgt rattrs name arity
    (Hm : valid_moniker m) (Hp : valid_moniker p) :
  refines (add_def_attrs m k p pos attrs) (spec_add_def m k p pos attrs) /\
  refines (add_ref_attrs s tgt k pos rattrs) (spec_add_ref s tgt k pos rattrs) /\
  refines (set_def_call_metadata s name arity) (spec_set_call s name arity) /\
  refines (contains s) (query (spec_contains s)) /\
  refines (locate s) (query (spec_locate s)) /\
  refines def_monikers (query spec_def_monikers) /\
  refines ref_targets (query spec_ref_targets).
Proof. split_and!; auto with graph. Qed.

(** A small graph for the witnesses. *)
Definition ex_moniker (segs : list Moniker.Segment) : Moniker.t :=
  Moniker.mk (Moniker.enc_parts (bs "app") segs).
Definition ex_root : Moniker.t := ex_moniker [(bs "path", bs "util")].
Definition ex_foo : Moniker.t := ex_moniker [(bs "path", bs "util"); (bs "fn", bs "foo()")].

Lemma ex_valid segs :
  Moniker.parts_ok (bs "app") segs = true -> valid_moniker (ex_moniker segs).
Proof. intros H. by exists (bs "app"), segs. Qed.

Lemma operations_refine_witness :
  refines (add_def_attrs ex_foo (bs "fn") ex_root None DefAttrs_default)
    (spec_add_def ex_foo (bs "fn") ex_root None DefAttrs_default).
Proof.
  apply (operations_refine ex_foo (bs "fn") ex_root None DefAttrs_default ex_root ex_foo
           RefAttrs_default [] 0%N); apply ex_valid; vm_compute; reflexivity.
Defined.

(** ** The index and the caches are not observable *)

Lemma refines_proper {A} (c : M A) s g g' :
  refines c s -> coherent g -> coherent g' -> g ≡ g' ->
  (c g).1 = (c g').1 /\ (c g).2 ≡ (c g').2.
Proof.
  intros Hc Hg Hg' He. destruct (Hc g Hg) as [_ H1], (Hc g' Hg') as [_ H2].
  unfold equiv, graph_equiv in *. rewrite He, <- H2 in H1.
  split; [exact (f_equal fst H1) | exact (f_equal snd H1)].
Qed.

Lemma from_records_coherent ds rs : coherent (from_records ds rs).
Proof. by split_and!. Qed.

(** A graph and its clone, or any two coherent graphs with the same
    records, cannot be told apart: whatever their indexes and caches hold,
    the same call gives the same outcome and leaves the same records. *)
Theorem clone_indistinguishable (g : t) m k p pos attrs
    (Hg : coherent g) (Hm : valid_moniker m) (Hp : valid_moniker p) :
  coherent (clone g) /\ clone g ≡ g /\
  (add_def_attrs m k p pos attrs (clone g)).1 = (add_def_attrs m k p pos attrs g).1 /\
  (add_def_attrs m k p pos attrs (clone g)).2 ≡ (add_def_attrs m k p pos attrs g).2 /\
  (locate (E:=GraphError) m (clone g)).1 = (locate m g).1 /\
  (def_monikers (E:=GraphError) (clone g)).1 = (def_monikers g).1 /\
  (ref_targets (E:=GraphError) (clone g)).1 = (ref_targets g).1.
Proof.
  pose proof (from_records_coherent (defs g) (refs g)) as Hc.
  assert (clone g ≡ g) as He by done.
  destruct (refines_proper _ _ _ _ (add_def_attrs_refines m k p pos attrs Hm Hp) Hc Hg He).
  split_and!; try done; by eapply refines_proper; eauto with graph.
Qed.

Lemma clone_indistinguishable_witness :
  let g := new ex_root (bs "module") in
  clone g ≡ g /\
  (add_def_attrs ex_foo (bs "fn") ex_root None DefAttrs_default (clone g)).2 ≡
  (add_def_attrs ex_foo (bs "fn") ex_root None DefAttrs_default g).2.
Proof.
  cbv zeta.
  destruct (clone_indistinguishable (new ex_root (bs "module")) ex_foo (bs "fn") ex_root None
              DefAttrs_default) as (_ & H1 & _ & H2 & _).
  - split; [done |]. split; by intros v [=].
  - apply ex_valid. vm_compute. reflexivity.
  - apply ex_valid. vm_compute. reflexivity.
  - split; [exact H1 | exact H2].
Defined.

(** ** The invariant *)

Lemma under_refl m : under m m = true.
Proof. by apply bool_decide_eq_true. Qed.

Lemma under_trans a b c : under a b = true -> under b c = true -> under a c = true.
Proof. unfold under. rewrite !bool_decide_eq_true. apply transitivity. Qed.

Lemma lookup_snoc {A} (l : list A) x i y :
  (l ++ [x]) !! i = Some y -> l !! i = Some y \/ (i = length l /\ y = x).
Proof.
  intros [H | [Hl H]]%lookup_app_Some; [by left | right].
  apply list_lookup_singleton_Some in H as [? ->]. split; [lia | done].
Qed.

Lemma wf_add_def a m k p pos attrs :
  wf a -> valid_moniker m -> wf (spec_add_def m k p pos attrs a).2.
Proof.
  intros Ha Hm. unfold spec_add_def. case_bool_decide as Hd; [done |].
  destruct (under p m) eqn:Hu; [| done]. cbn [negb].
  destruct (last_index a.1 p) as [i |] eqn:Hl; [| done].
  apply last_index_Some in Hl as (e & He & Hp). pose proof (lookup_lt_Some _ _ _ He).
  destruct Ha as [H1 H2 H3 H4 H5]. split; cbn [fst snd].
  - by destruct a.1.
  - rewrite fmap_app. apply NoDup_app. split_and!; [done | | apply NoDup_singleton].
    intros x Hx ->%list_elem_of_singleton. done.
  - apply Forall_app. by split; [| apply Forall_singleton].
  - eapply Forall_impl; [exact H4 |]. intros r [? ?]. split; [| done].
    rewrite length_app. lia.
  - intros j d [Hj | [-> ->]]%lookup_snoc.
    + specialize (H5 j d Hj). destruct (parent d) as [q |]; [| done].
      destruct H5 as (Hq & f & Hf & Hu'). split; [done |]. exists f.
      by rewrite lookup_app_l by (by eapply lookup_lt_Some).
    + cbn [new_def parent moniker]. split; [done |]. exists e. subst p.
      by rewrite lookup_app_l.
Qed.

Lemma wf_add_ref a s tgt k pos attrs :
  wf a -> valid_moniker tgt -> wf (spec_add_ref s tgt k pos attrs a).2.
Proof.
  intros Ha Ht. unfold spec_add_ref.
  destruct (last_index a.1 s) as [i |] eqn:Hl; [| done].
  apply last_index_Some in Hl as (e & He%lookup_lt_Some & Hp).
  destruct Ha as [H1 H2 H3 H4 H5]. split; try done. cbn [fst snd].
  apply Forall_app. by split; [| apply Forall_singleton].
Qed.

Lemma alter_call_inv name arity i (ds : list DefRecord) j d :
  alter (with_call name arity) i ds !! j = Some d ->
  exists e, ds !! j = Some e /\ moniker d = moniker e /\ parent d = parent e.
Proof.
  rewrite list_lookup_alter. case_decide; [subst | by eauto].
  destruct (ds !! j) as [e |]; [| done]. intros [= <-]. by exists e.
Qed.

Lemma alter_call_lookup name arity i (ds : list DefRecord) j e :
  ds !! j = Some e ->
  exists d, alter (with_call name arity) i ds !! j = Some d /\ moniker d = moniker e.
Proof.
  intros He. rewrite list_lookup_alter. case_decide; subst; rewrite He; [| by eauto].
  by eexists.
Qed.

Lemma wf_set_call a m name arity : wf a -> wf (spec_set_call m name arity a).2.
Proof.
  unfold spec_set_call. intros Ha. destruct a as [ds rs]. cbn [fst snd].
  destruct (last_index ds m) as [i |]; [| done].
  destruct Ha as [H1 H2 H3 H4 H5]; cbn [fst snd] in *. split; cbn [fst snd].
  - intros He. apply H1, length_zero_iff_nil. rewrite <- (length_alter (with_call name arity) ds i).
    by rewrite He.
  - by rewrite moniker_with_call.
  - apply Forall_lookup. intros j d (e & He & -> & _)%alter_call_inv.
    by eapply Forall_lookup in H3.
  - by rewrite length_alter.
  - intros j d (e & He & Hm & Hp)%alter_call_inv. rewrite Hp, Hm. specialize (H5 j e He).
    destruct (parent e) as [q |]; [| done]. destruct H5 as (Hq & f & Hf & Hu).
    split; [done |].
    destruct (alter_call_lookup name arity i _ _ _ Hf) as (f' & Hf' & Hm').
    exists f'. by rewrite Hm'.
Qed.

Lemma wf_new root k : valid_moniker root -> wf (abs (new root k)).
Proof.
  intros Hr. split; cbn; try done.
  - apply NoDup_singleton.
  - by apply Forall_singleton.
  - by intros [| [| i]] d [= <-].
Qed.

Lemma new_coherent root k : coherent (new root k).
Proof. by split_and!. Qed.

Lemma refines_invariant {A} (c : M A) s g :
  refines c s -> coherent g -> wf (s (abs g)).2 -> coherent (c g).2 /\ wf (abs (c g).2).
Proof. intros Hc Hg. destruct (Hc g Hg) as [? <-]. done. Qed.

Lemma reachable_inv g (H : reachable g) : coherent g /\ wf (abs g).
Proof.
  induction H as [root k Hr | g m k p pos attrs _ [IHc IHw] Hm Hp
    | g s tgt k pos attrs _ [IHc IHw] Ht | g m name arity _ [IHc IHw]
    | g m _ [IHc IHw] | g m _ [IHc IHw] | g _ [IHc IHw] | g _ [IHc IHw] | g _ [IHc IHw]].
  - split; [apply new_coherent | by apply wf_new].
  - eapply refines_invariant; [auto with graph | done | by apply wf_add_def].
  - eapply refines_invariant; [auto with graph | done | by apply wf_add_ref].
  - eapply refines_invariant; [auto with graph | done | by apply wf_set_call].
  - eapply refines_invariant; [auto with graph | done | done].
  - eapply refines_invariant; [auto with graph | done | done].
  - eapply refines_invariant; [auto with graph | done | done].
  - eapply refines_invariant; [auto with graph | done | done].
  - split; [apply from_records_coherent | done].
Qed.




(** ** The tree of definitions *)

Lemma ancestors_root a i fuel d :
  wf a -> i < fuel -> a.1 !! i = Some d ->
  last (ancestors fuel a.1 i) = Some 0 /\
  Forall (fun j => exists e, a.1 !! j = Some e /\ under (moniker e) (moniker d) = true)
    (ancestors fuel a.1 i).
Proof.
  intros Ha. revert i d. induction fuel as [| fuel IH]; intros i d Hi Hd; [lia |].
  pose proof (wf_rooted _ Ha i d Hd) as Hr. cbn [ancestors]. rewrite Hd.
  destruct (parent d) as [p |].
  - destruct Hr as (Hp & e & He & Hu). destruct (IH p e ltac:(lia) He) as [Hl Hf].
    split; [by rewrite last_cons, Hl |]. constructor.
    + exists d. by rewrite under_refl.
    + eapply Forall_impl; [exact Hf |]. intros j (f & Hj & Hu'). exists f.
      split; [done |]. by eapply under_trans.
  - subst i. split; [done |]. apply Forall_singleton. exists d. by rewrite under_refl.
Qed.

(** Following the parent links from any definition of a graph that can be
    built ends at the root after at most as many links as its index, every
    definition on the way is an ancestor of the one it started from, and so
    the moniker of every definition lies under that of the root. *)
Theorem parents_reach_root (g : t) (i : nat) (d : DefRecord)
    (H : reachable g) (Hd : defs g !! i = Some d) :
  last (ancestors (S i) (defs g) i) = Some 0 /\
  Forall (fun j => exists e, defs g !! j = Some e /\ under (moniker e) (moniker d) = true)
    (ancestors (S i) (defs g) i) /\
  exists r, root (E:=GraphError) g = Ok r /\ Moniker.is_ancestor_of (E:=GraphError) r (moniker d) = Ok true.
Proof.
  apply reachable_inv in H as [_ Hw].
  destruct (ancestors_root (abs g) i (S i) d Hw ltac:(lia) Hd) as [Hl Hf].
  split_and!; [done | done |].
  assert (0 ∈ ancestors (S i) (defs g) i) as H0 by (by apply last_Some_elem_of).
  rewrite Forall_forall in Hf. destruct (Hf 0 H0) as (e & He & Hu).
  change (defs g !! 0 = Some e) in He.
  exists (moniker e). unfold root, def_at. rewrite He. split; [done |].
  rewrite under_valid; [by rewrite Hu | |]; by eapply (Forall_lookup_1 _ _ _ _ (wf_defs _ Hw)).
Qed.

(** ** The listings *)

Lemma bytes_le_refl a : Moniker.bytes_le a a = true.
Proof. induction a; cbn [Moniker.bytes_le]; [done |]. by rewrite ceq_refl, IHa, orb_true_r. Qed.

Lemma bytes_le_trans a b c :
  Moniker.bytes_le a b = true -> Moniker.bytes_le b c = true -> Moniker.bytes_le a c = true.
Proof.
  revert b c. induction a as [| x a IH]; intros [| y b] [| z c]; cbn [Moniker.bytes_le]; try done.
  rewrite !orb_true_iff, !andb_true_iff, !N.ltb_lt, !ceq_true.
  intros [? | [-> ?]] [? | [-> ?]]; [left; lia | by left | by left | right; eauto].
Qed.

Lemma bytes_le_antisym a b :
  Moniker.bytes_le a b = true -> Moniker.bytes_le b a = true -> a = b.
Proof.
  revert b. induction a as [| x a IH]; intros [| y b]; cbn [Moniker.bytes_le]; try done.
  rewrite !orb_true_iff, !andb_true_iff, !N.ltb_lt, !ceq_true.
  intros [? | [-> ?]] [? | [? ?]]; try lia; [subst; lia |]. f_equal. eauto.
Qed.

Lemma bytes_le_total a b : Moniker.bytes_le a b = true \/ Moniker.bytes_le b a = true.
Proof.
  revert b. induction a as [| x a IH]; intros [| y b]; cbn [Moniker.bytes_le]; auto.
  rewrite !orb_true_iff, !andb_true_iff, !N.ltb_lt, !ceq_true.
  destruct (N.lt_trichotomy (N_of_ascii x) (N_of_ascii y)) as [? | [H | ?]]; auto.
  apply (f_equal ascii_of_N) in H. rewrite !ascii_N_embedding in H. subst y.
  destruct (IH b); auto.
Qed.

#[export] Instance moniker_le_trans : Transitive moniker_le.
Proof. intros [a] [b] [c]. apply bytes_le_trans. Qed.
#[export] Instance moniker_le_antisym : AntiSymm (=) moniker_le.
Proof. intros [a] [b] ? ?. f_equal. by apply bytes_le_antisym. Qed.
#[export] Instance moniker_le_total : Total moniker_le.
Proof. intros [a] [b]. apply bytes_le_total. Qed.

Lemma sorted_listing (l v : list Moniker.t) :
  v = merge_sort moniker_le l <-> StronglySorted moniker_le v /\ v ≡ₚ l.
Proof.
  split.
  - intros ->. split; [apply (StronglySorted_merge_sort moniker_le) | apply merge_sort_Permutation].
  - intros [Hs Hp]. apply (StronglySorted_unique moniker_le); [done | |].
    + apply (StronglySorted_merge_sort moniker_le).
    + by rewrite merge_sort_Permutation.
Qed.

(** The listings are the sorted permutations of the definitions' monikers
    and of the references' targets, duplicates kept, and there is only one:
    reading a listing from the cache or computing it gives the same. *)
Theorem listings_sorted (g : t) (v : list Moniker.t) (H : coherent g) :
  ((def_monikers (E:=GraphError) g).1 = Ok v <->
     StronglySorted moniker_le v /\ v ≡ₚ moniker <$> defs g) /\
  ((ref_targets (E:=GraphError) g).1 = Ok v <->
     StronglySorted moniker_le v /\ v ≡ₚ target <$> refs g).
Proof.
  destruct (def_monikers_refines g H) as [_ Hd], (ref_targets_refines g H) as [_ Hr].
  apply (f_equal fst) in Hd, Hr. cbn [fst query] in Hd, Hr. rewrite Hd, Hr.
  rewrite <- !sorted_listing. unfold spec_def_monikers, spec_ref_targets. cbn [abs fst snd].
  split; split; congruence.
Qed.

Lemma listings_sorted_witness :
  let g := (add_def_attrs ex_foo (bs "fn") ex_root None DefAttrs_default
              (new ex_root (bs "module"))).2 in
  (def_monikers (E:=GraphError) g).1 = Ok [ex_root; ex_foo] /\
  [ex_root; ex_foo] ≡ₚ moniker <$> defs g.
Proof.
  cbv zeta.
  assert (coherent (add_def_attrs ex_foo (bs "fn") ex_root None DefAttrs_default
              (new ex_root (bs "module"))).2) as Hc.
  { apply reachable_inv, reach_add_def; [apply reach_new | |];
      apply ex_valid; vm_compute; reflexivity. }
  destruct (listings_sorted _ [ex_root; ex_foo] Hc) as [[H1 _] _].
  assert ((def_monikers (E:=GraphError) (add_def_attrs ex_foo (bs "fn") ex_root None
     DefAttrs_default (new ex_root (bs "module"))).2).1 = Ok [ex_root; ex_foo]) as He
    by (vm_compute; reflexivity).
  split; [exact He | exact (proj2 (H1 He))].
Defined.

Lemma parents_reach_root_witness :
  let g := (add_def_attrs ex_foo (bs "fn") ex_root None DefAttrs_default
              (new ex_root (bs "module"))).2 in
  last (ancestors 2 (defs g) 1) = Some 0.
Proof.
  cbv zeta. eapply parents_reach_root.
  - apply reach_add_def; [apply reach_new | |]; apply ex_valid; vm_compute; reflexivity.
  - vm_compute. reflexivity.
Defined.

(** ** Dangling local references *)

Lemma any_bind_match_spec {E} ds tgt :
  Forall (fun d => valid_moniker (moniker d)) ds -> valid_moniker tgt ->
  exists b, any_bind_match (E:=E) ds tgt = Ok b /\
    (b = true <-> exists d, d ∈ ds /\ Moniker.bind_match (E:=E) (moniker d) tgt = Ok true).
Proof.
  intros Hds (pt & st & Ht). induction Hds as [| d ds (pd & sd & Hd) _ IH].
  - exists false. split; [done |]. split; [done |]. by intros (d & ?%not_elem_of_nil & _).
  - cbn [any_bind_match].
    destruct (BindFacts.bind_match_valid (E:=E) _ _ _ _ _ _ Hd Ht) as (b & Hb & _).
    rewrite Hb, ret_bind. setoid_rewrite elem_of_cons. destruct b.
    + exists true. split; [done |]. split; [| done]. intros _. exists d. by split; [left |].
    + destruct IH as (b' & -> & Hb'). exists b'. split; [done |]. rewrite Hb'.
      split; [intros (e & ? & ?); eauto |]. intros (e & [-> | ?] & He); [congruence | eauto].
Qed.

(** The closedness check of local references passes exactly when every
    reference marked [local] has a definition that bind-matches its target,
    and otherwise it is the panic with the dangling reference. *)
Theorem local_refs_closed_iff {E} (g : t) (H : wf (abs g)) :
  (assert_local_refs_closed (E:=E) g = Ok () <->
   forall r, r ∈ refs g -> confidence r = bs "local" ->
     exists d, d ∈ defs g /\ Moniker.bind_match (E:=E) (moniker d) (target r) = Ok true) /\
  (assert_local_refs_closed (E:=E) g <> Ok () -> assert_local_refs_closed (E:=E) g = Panic).
Proof.
  unfold assert_local_refs_closed. destruct H as [_ _ Hd Hr _]. cbn [abs fst snd] in *.
  induction Hr as [| r rs [_ Ht] _ IH]; cbn [check_local_refs].
  - split; [| done]. split; [| done]. by intros _ r ?%not_elem_of_nil.
  - setoid_rewrite elem_of_cons.
    destruct (beq (confidence r) (bs "local")) eqn:Hc; bool_inv; cbn [negb].
    + destruct (any_bind_match_spec (E:=E) _ _ Hd Ht) as (b & -> & Hb). rewrite ret_bind.
      destruct b; cbn [negb].
      * destruct IH as [[IH1 IH2] IH3]. split; [| done]. split.
        -- intros Hok r' [-> | ?] ?; [by apply Hb | by eapply IH1].
        -- intros Hall. apply IH2. intros r' ? ?. apply Hall; [by right | done].
      * split; [| done]. split; [done |]. intros Hall. exfalso.
        destruct Hb as [_ Hb]. by discriminate Hb; apply Hall; [left |].
    + destruct IH as [[IH1 IH2] IH3]. split; [| done]. split.
      * intros Hok r' [-> | ?] ?; [done | by eapply IH1].
      * intros Hall. apply IH2. intros r' ? ?. apply Hall; [by right | done].
Qed.

Lemma local_refs_closed_witness :
  let g := (add_ref_attrs ex_root ex_foo (bs "calls") None
              (mk_ref_attrs [] [] (bs "local") [] None []) (new ex_root (bs "module"))).2 in
  assert_local_refs_closed (E:=()) g = Panic.
Proof.
  cbv zeta.
  apply (proj2 (local_refs_closed_iff (E:=()) _ (proj2 (reachable_inv _
    (reach_add_ref _ ex_root ex_foo (bs "calls") None
       (mk_ref_attrs [] [] (bs "local") [] None [])
       (reach_new ex_root (bs "module") (ex_valid [(bs "path", bs "util")] eq_refl))
       (ex_valid [(bs "path", bs "util"); (bs "fn", bs "foo()")] eq_refl)))))).
  vm_compute. discriminate.
Defined.

End CodeGraphFacts.
