(* ===== verification/GraphCodec.v ===== *)
(** The binary layout of a code graph
    (src/crates/core/src/core/code_graph/encoding.rs): [encode], [decode] and
    [decode_root], with the cursor as the state of the readers.

    The cursor's [off + n] cannot overflow the 64-bit [usize] it is computed
    in: [off] is at most the length of a buffer and [n] fits 32 bits. *)

From S2P Require Import Prelude.
From S2P Require Import RustStr.
From S2P Require Import Moniker.
From S2P Require Import CodeGraph.

Module GraphCodec.
Import CodeGraph.

Definition LAYOUT_VERSION : N := 3.
Definition VERSION_BYTES : nat := 2.
Definition RESERVED_BYTES : nat := 2.
Definition DEF_COUNT_BYTES : nat := 4.
Definition REF_COUNT_BYTES : nat := 4.
Definition HEADER_LEN : nat :=
  VERSION_BYTES + RESERVED_BYTES + DEF_COUNT_BYTES + REF_COUNT_BYTES.
Definition U16_MAX : N := 65535.
Definition U32_MAX : N := 4294967295.
Definition NONE_U32 : N := U32_MAX.

Inductive EncodingError : Set :=
| Truncated (what : bytes)
| UnknownVersion (v : N)
| IndexOverflow
| LengthOverflow (what : bytes)
| InvalidIndex (what : bytes)
| InvalidMoniker (e : Moniker.EncodingError).

(** [Display for EncodingError] *)
Definition error_display (e : EncodingError) : bytes :=
  match e with
  | Truncated what => bs "code_graph: buffer truncated reading " ++ what
  | UnknownVersion v => bs "code_graph: unknown encoding version " ++ show_N v
  | IndexOverflow => bs "code_graph: parent or source index overflows u32"
  | LengthOverflow what => bs "code_graph: " ++ what ++ bs " length overflows its slot"
  | InvalidIndex what => bs "code_graph: " ++ what ++ bs " points past the defs section"
  | InvalidMoniker e => bs "code_graph: invalid moniker: " ++ Moniker.error_display e
  end.

(** ** Writers: each appends to [out] *)

Abbreviation writer := (bytes -> res EncodingError bytes).

(** [usize::try_into::<u32>] *)
Definition to_u32 (n : nat) (e : EncodingError) : res EncodingError N :=
  if (N.of_nat n <=? U32_MAX)%N then Ok (N.of_nat n) else Err e.

Definition write_moniker (m : Moniker.t) : writer := fun out =>
  let bytes := Moniker.encoded m in
  len ← to_u32 (length bytes) (LengthOverflow (bs "moniker"));
  let out := out ++ le_bytes 4 len in
  mret (out ++ bytes).

Definition write_short_bytes (b what : bytes) : writer := fun out =>
  if (255 <? N.of_nat (length b))%N then Err (LengthOverflow what)
  else
    let out := out ++ [byte_N (N.of_nat (length b))] in
    mret (out ++ b).

Definition write_medium_bytes (b what : bytes) : writer := fun out =>
  if (U16_MAX <? N.of_nat (length b))%N then Err (LengthOverflow what)
  else
    let out := out ++ le_bytes 2 (N.of_nat (length b)) in
    mret (out ++ b).

Definition write_opt_idx (idx : option nat) : writer := fun out =>
  v ← match idx with
      | None => mret NONE_U32
      | Some i => to_u32 i IndexOverflow
      end;
  mret (out ++ le_bytes 4 v).

Definition write_opt_pos (pos : option Position) : writer := fun out =>
  let '(s, e) := match pos with None => (NONE_U32, NONE_U32) | Some (s, e) => (s, e) end in
  let out := out ++ le_bytes 4 s in
  mret (out ++ le_bytes 4 e).

Definition write_opt_u16 (value : option N) (what : bytes) : writer := fun out =>
  v ← match value with
      | None => mret U16_MAX
      | Some v => if (v <=? U16_MAX)%N then mret v else Err (LengthOverflow what)
      end;
  mret (out ++ le_bytes 2 v).

(** The body of the [for d in &defs] loop. *)
Definition write_def (d : DefRecord) : writer := fun out =>
  out ← write_moniker (moniker d) out;
  out ← write_short_bytes (kind d) (bs "def kind") out;
  out ← write_opt_idx (parent d) out;
  out ← write_opt_pos (position d) out;
  out ← write_short_bytes (visibility d) (bs "def visibility") out;
  out ← write_medium_bytes (signature d) (bs "def signature") out;
  out ← write_short_bytes (call_name d) (bs "def call_name") out;
  out ← write_opt_u16 (call_arity d) (bs "def call_arity") out;
  out ← write_short_bytes (binding d) (bs "def binding") out;
  write_short_bytes (origin d) (bs "def origin") out.

Definition write_source (source : nat) : writer := fun out =>
  v ← to_u32 source IndexOverflow;
  mret (out ++ le_bytes 4 v).

(** The body of the [for r in &refs] loop. *)
Definition write_ref (r : RefRecord) : writer := fun out =>
  out ← write_source (source r) out;
  out ← write_moniker (target r) out;
  out ← write_short_bytes (ref_kind r) (bs "ref kind") out;
  out ← write_opt_pos (ref_position r) out;
  out ← write_short_bytes (receiver_hint r) (bs "ref receiver_hint") out;
  out ← write_short_bytes (alias r) (bs "ref alias") out;
  out ← write_short_bytes (confidence r) (bs "ref confidence") out;
  out ← write_short_bytes (ref_call_name r) (bs "ref call_name") out;
  out ← write_opt_u16 (ref_call_arity r) (bs "ref call_arity") out;
  write_short_bytes (ref_binding r) (bs "ref binding") out.

Fixpoint write_all {A} (w : A -> writer) (l : list A) : writer := fun out =>
  match l with
  | [] => mret out
  | a :: l => out ← w a out; write_all w l out
  end.

Definition encode (g : t) : res EncodingError bytes :=
  def_count ← to_u32 (length (defs g)) IndexOverflow;
  ref_count ← to_u32 (length (refs g)) IndexOverflow;
  let out := [] in
  let out := out ++ le_bytes 2 LAYOUT_VERSION in
  let out := out ++ le_bytes 2 0 in
  let out := out ++ le_bytes 4 def_count in
  let out := out ++ le_bytes 4 ref_count in
  out ← write_all write_def (defs g) out;
  write_all write_ref (refs g) out.

(** ** The cursor *)

Record Cursor : Set := mk_cursor { buf : bytes; off : nat }.

Abbreviation reader := (ST Cursor EncodingError).

Definition advance (n : nat) : reader () := modify (fun c => mk_cursor (buf c) (off c + n)).

Definition need (n : nat) (what : bytes) : reader () :=
  c ← get;
  if length (buf c) <? off c + n then throw (Truncated what) else mret ().

(** [self.buf[self.off + i]] *)
Definition peek (i : nat) : reader ascii :=
  c ← get;
  lift (Prelude.index (buf c) (off c + i)).

Definition read_u32 (what : bytes) : reader N :=
  _ ← need 4 what;
  b0 ← peek 0; b1 ← peek 1; b2 ← peek 2; b3 ← peek 3;
  let v := le_N [b0; b1; b2; b3] in
  _ ← advance 4;
  mret v.

Definition read_u16 (what : bytes) : reader N :=
  _ ← need 2 what;
  b0 ← peek 0; b1 ← peek 1;
  let v := le_N [b0; b1] in
  _ ← advance 2;
  mret v.

Definition read_u8 (what : bytes) : reader N :=
  _ ← need 1 what;
  b ← peek 0;
  _ ← advance 1;
  mret (N_of_ascii b).

Definition take (n : nat) (what : bytes) : reader bytes :=
  _ ← need n what;
  c ← get;
  s ← lift (slice (buf c) (off c) (off c + n));
  _ ← advance n;
  mret s.

Definition read_moniker : reader Moniker.t :=
  len ← read_u32 (bs "moniker len");
  b ← take (N.to_nat len) (bs "moniker bytes");
  lift (map_err InvalidMoniker (Moniker.from_encoded b)).

Definition read_short_bytes (what : bytes) : reader bytes :=
  len ← read_u8 what; take (N.to_nat len) what.

Definition read_medium_bytes (what : bytes) : reader bytes :=
  len ← read_u16 what; take (N.to_nat len) what.

Definition read_opt_idx : reader (option nat) :=
  v ← read_u32 (bs "opt idx");
  mret (if (v =? NONE_U32)%N then None else Some (N.to_nat v)).

Definition read_opt_pos : reader (option Position) :=
  s ← read_u32 (bs "position start");
  e ← read_u32 (bs "position end");
  mret (if (s =? NONE_U32)%N && (e =? NONE_U32)%N then None else Some (s, e)).

Definition read_opt_u16 (what : bytes) : reader (option N) :=
  value ← read_u16 what;
  mret (if (value =? U16_MAX)%N then None else Some value).

(** ** Decoding *)

(** [if let Some(p) = parent && p >= def_count { return Err(..) }] *)
Definition check_parent (def_count : nat) (parent : option nat) : reader () :=
  match parent with
  | Some p => if def_count <=? p then throw (InvalidIndex (bs "def parent")) else mret ()
  | None => mret ()
  end.

Definition read_def (def_count : nat) : reader DefRecord :=
  moniker ← read_moniker;
  kind ← read_short_bytes (bs "def kind");
  parent ← read_opt_idx;
  _ ← check_parent def_count parent;
  position ← read_opt_pos;
  visibility ← read_short_bytes (bs "def visibility");
  signature ← read_medium_bytes (bs "def signature");
  call_name ← read_short_bytes (bs "def call_name");
  call_arity ← read_opt_u16 (bs "def call_arity");
  binding ← read_short_bytes (bs "def binding");
  origin ← read_short_bytes (bs "def origin");
  mret (mk_def moniker kind parent position visibility signature call_name call_arity
          binding origin).

Definition check_source (def_count source : nat) : reader () :=
  if def_count <=? source then throw (InvalidIndex (bs "ref source")) else mret ().

Definition read_ref (def_count : nat) : reader RefRecord :=
  s ← read_u32 (bs "ref source");
  _ ← check_source def_count (N.to_nat s);
  target ← read_moniker;
  kind ← read_short_bytes (bs "ref kind");
  position ← read_opt_pos;
  receiver_hint ← read_short_bytes (bs "ref receiver_hint");
  alias ← read_short_bytes (bs "ref alias");
  confidence ← read_short_bytes (bs "ref confidence");
  call_name ← read_short_bytes (bs "ref call_name");
  call_arity ← read_opt_u16 (bs "ref call_arity");
  binding ← read_short_bytes (bs "ref binding");
  mret (mk_ref (N.to_nat s) target kind position receiver_hint alias confidence call_name
          call_arity binding).

Fixpoint read_all {A} (r : reader A) (n : nat) : reader (list A) :=
  match n with
  | O => mret []
  | S n => a ← r; l ← read_all r n; mret (a :: l)
  end.

Definition decode_records (def_count ref_count : nat) : reader t :=
  def_records ← read_all (read_def def_count) def_count;
  ref_records ← read_all (read_ref def_count) ref_count;
  mret (from_records def_records ref_records).

Definition header_u32 (b : bytes) (i : nat) : res EncodingError N :=
  b0 ← Prelude.index b i; b1 ← Prelude.index b (i + 1);
  b2 ← Prelude.index b (i + 2); b3 ← Prelude.index b (i + 3);
  mret (le_N [b0; b1; b2; b3]).

Definition header_version (b : bytes) : res EncodingError () :=
  if length b <? HEADER_LEN then Err (Truncated (bs "header"))
  else
    b0 ← Prelude.index b 0; b1 ← Prelude.index b 1;
    let version := le_N [b0; b1] in
    if negb (version =? LAYOUT_VERSION)%N then Err (UnknownVersion version) else mret ().

Definition decode_root (b : bytes) : res EncodingError Moniker.t :=
  _ ← header_version b;
  def_count ← header_u32 b 4;
  if (def_count =? 0)%N then Err (Truncated (bs "root def"))
  else (read_moniker (mk_cursor b HEADER_LEN)).1.

Definition decode (b : bytes) : res EncodingError t :=
  _ ← header_version b;
  def_count ← header_u32 b 4;
  ref_count ← header_u32 b 8;
  if (N.of_nat (length b) <? def_count)%N || (N.of_nat (length b) <? ref_count)%N
  then Err (Truncated (bs "counts exceed buffer"))
  else (decode_records (N.to_nat def_count) (N.to_nat ref_count) (mk_cursor b HEADER_LEN)).1.

(** ** What the layout can hold *)

(** The type of positions: two [u32]. *)
Definition pos_ok (p : option Position) : Prop :=
  match p with Some (s, e) => (s <= U32_MAX /\ e <= U32_MAX)%N | None => True end.

(** The values the sentinels take the place of. *)
Definition norm_idx (i : option nat) : option nat :=
  match i with Some i => if (N.of_nat i =? NONE_U32)%N then None else Some i | None => None end.
Definition norm_pos (p : option Position) : option Position :=
  match p with
  | Some (s, e) => if (s =? NONE_U32)%N && (e =? NONE_U32)%N then None else Some (s, e)
  | None => None
  end.
Definition norm_u16 (v : option N) : option N :=
  match v with Some v => if (v =? U16_MAX)%N then None else Some v | None => None end.

Definition norm_def (d : DefRecord) : DefRecord :=
  mk_def (moniker d) (kind d) (norm_idx (parent d)) (norm_pos (position d)) (visibility d)
    (signature d) (call_name d) (norm_u16 (call_arity d)) (binding d) (origin d).

Definition norm_ref (r : RefRecord) : RefRecord :=
  mk_ref (source r) (target r) (ref_kind r) (norm_pos (ref_position r)) (receiver_hint r)
    (alias r) (confidence r) (ref_call_name r) (norm_u16 (ref_call_arity r)) (ref_binding r).

(** The slots of a record are wide enough. *)
Definition short (b : bytes) : Prop := (N.of_nat (length b) <= 255)%N.
Definition medium (b : bytes) : Prop := (N.of_nat (length b) <= U16_MAX)%N.
Definition moniker_fits (m : Moniker.t) : Prop :=
  (N.of_nat (length (Moniker.encoded m)) <= U32_MAX)%N.
Definition idx_fits (i : option nat) : Prop :=
  match i with Some i => (N.of_nat i <= U32_MAX)%N | None => True end.
Definition u16_fits (v : option N) : Prop :=
  match v with Some v => (v <= U16_MAX)%N | None => True end.

Record def_fits (d : DefRecord) : Prop := {
  df_moniker : moniker_fits (moniker d); df_kind : short (kind d);
  df_parent : idx_fits (parent d); df_visibility : short (visibility d);
  df_signature : medium (signature d); df_call_name : short (call_name d);
  df_arity : u16_fits (call_arity d); df_binding : short (binding d);
  df_origin : short (origin d)
}.

Record ref_fits (r : RefRecord) : Prop := {
  rf_source : idx_fits (Some (source r)); rf_target : moniker_fits (target r);
  rf_kind : short (ref_kind r); rf_receiver : short (receiver_hint r);
  rf_alias : short (alias r); rf_confidence : short (confidence r);
  rf_call_name : short (ref_call_name r); rf_arity : u16_fits (ref_call_arity r);
  rf_binding : short (ref_binding r)
}.

(** The records the decoder accepts in a graph of [n] definitions. *)
Definition def_ok (n : nat) (d : DefRecord) : Prop :=
  valid_moniker (moniker d) /\ pos_ok (position d) /\
  match parent d with Some p => p < n | None => True end.

Definition ref_ok (n : nat) (r : RefRecord) : Prop :=
  valid_moniker (target r) /\ pos_ok (ref_position r) /\ source r < n.

End GraphCodec.
