(* ===== verification/GraphCodecFacts.v ===== *)
(** The code graph layout is sound: what [encode] writes, [decode] reads back
    (up to the sentinels), [decode] never panics, accepts only well-formed
    graphs and is injective up to the bytes it ignores. *)

From S2P Require Import Prelude.
From S2P Require Import RustStr.
From S2P Require Import Moniker.
From S2P Require Import MonikerFacts.
From S2P Require Import CodeGraph.
From S2P Require Import CodeGraphFacts.
From S2P Require Import GraphCodec.

Module GraphCodecFacts.
Import CodeGraph GraphCodec.

(** ** Readers on a split buffer *)

(** The cursor between [pre] and [suf]. *)
Definition cur (pre suf : bytes) : Cursor := mk_cursor (pre ++ suf) (length pre).

(** [r] consumes [enc] and returns [a], wherever it stands. *)
Definition reads {A} (r : reader A) (enc : bytes) (a : A) : Prop :=
  forall pre suf, r (cur pre (enc ++ suf)) = (Ok a, cur (pre ++ enc) suf).

(** [r] never panics, and what it consumes is related to what it returns. *)
Definition consumes {A} (r : reader A) (P : A -> bytes -> Prop) : Prop :=
  forall pre rest,
    match r (cur pre rest) with
    | (Ok a, c) => exists enc suf, rest = enc ++ suf /\ c = cur (pre ++ enc) suf /\ P a enc
    | (Err _, _) => True
    | _ => False
    end.

Lemma reads_ret {A} (a : A) : reads (mret a) [] a.
Proof. intros pre suf. st_run. by rewrite app_nil_r. Qed.

Lemma reads_bind {A B} (r : reader A) (k : A -> reader B) e1 e2 a b :
  reads r e1 a -> reads (k a) e2 b -> reads (r ≫= k) (e1 ++ e2) b.
Proof.
  intros Hr Hk pre suf. rewrite <- app_assoc. rewrite (st_bind_Ok _ _ _ _ _ (Hr _ _)), Hk.
  by rewrite <- app_assoc.
Qed.

Lemma consumes_ret {A} (a : A) (P : A -> bytes -> Prop) : P a [] -> consumes (mret a) P.
Proof. intros Ha pre rest. st_run. exists [], rest. by rewrite app_nil_r. Qed.

Lemma consumes_throw {A} e (P : A -> bytes -> Prop) : consumes (throw e) P.
Proof. done. Qed.

Lemma consumes_bind {A B} (r : reader A) (k : A -> reader B) P Q :
  consumes r P -> (forall a e1, P a e1 -> consumes (k a) (fun b e2 => Q b (e1 ++ e2))) ->
  consumes (r ≫= k) Q.
Proof.
  intros Hr Hk pre rest. unfold mbind, st_bind. specialize (Hr pre rest).
  destruct (r (cur pre rest)) as [[a | e | |] c]; try done.
  destruct Hr as (e1 & suf & -> & -> & Ha). specialize (Hk a e1 Ha (pre ++ e1) suf).
  destruct (k a _) as [[b | e | |] c]; try done.
  destruct Hk as (e2 & suf' & -> & -> & Hb). exists (e1 ++ e2), suf'.
  by rewrite <- !app_assoc.
Qed.

Lemma consumes_mono {A} (r : reader A) (P Q : A -> bytes -> Prop) :
  consumes r P -> (forall a e, P a e -> Q a e) -> consumes r Q.
Proof.
  intros Hr HPQ pre rest. specialize (Hr pre rest).
  destruct (r (cur pre rest)) as [[a | e | |] c]; try done.
  destruct Hr as (e1 & suf & ? & ? & ?). eauto 10.
Qed.

Lemma need_cur n what pre suf :
  need n what (cur pre suf) = if length suf <? n then (Err (Truncated what), cur pre suf)
                              else (Ok (), cur pre suf).
Proof.
  unfold need. st_run. unfold cur at 1 2. cbn [buf off]. rewrite length_app.
  destruct (_ <? _) eqn:H1, (length suf <? n) eqn:H2; bool_inv; (done || lia).
Qed.

Lemma peek_cur pre suf i b :
  suf !! i = Some b -> peek i (cur pre suf) = (Ok b, cur pre suf).
Proof.
  intros Hb. unfold peek, Prelude.index. st_run. cbn [cur buf off].
  rewrite lookup_app_r by lia. by replace (length pre + i - length pre) with i by lia; rewrite Hb.
Qed.

Lemma advance_cur pre enc suf n :
  n = length enc -> advance n (cur pre (enc ++ suf)) = (Ok (), cur (pre ++ enc) suf).
Proof.
  intros ->. unfold advance, cur. st_run. cbn [buf off]. by rewrite <- app_assoc, length_app.
Qed.

Lemma read_u32_cur what pre b0 b1 b2 b3 suf :
  read_u32 what (cur pre ([b0; b1; b2; b3] ++ suf)) =
  (Ok (le_N [b0; b1; b2; b3]), cur (pre ++ [b0; b1; b2; b3]) suf).
Proof.
  unfold read_u32. do 5 (erewrite st_bind_Ok by (rewrite ?need_cur; (reflexivity || by apply peek_cur))).
  cbv zeta. by erewrite st_bind_Ok by (by apply advance_cur).
Qed.

Lemma read_u16_cur what pre b0 b1 suf :
  read_u16 what (cur pre ([b0; b1] ++ suf)) = (Ok (le_N [b0; b1]), cur (pre ++ [b0; b1]) suf).
Proof.
  unfold read_u16. do 3 (erewrite st_bind_Ok by (rewrite ?need_cur; (reflexivity || by apply peek_cur))).
  cbv zeta. by erewrite st_bind_Ok by (by apply advance_cur).
Qed.

Lemma read_u8_cur what pre b suf :
  read_u8 what (cur pre ([b] ++ suf)) = (Ok (N_of_ascii b), cur (pre ++ [b]) suf).
Proof.
  unfold read_u8. do 2 (erewrite st_bind_Ok by (rewrite ?need_cur; (reflexivity || by apply peek_cur))).
  by erewrite st_bind_Ok by (by apply advance_cur).
Qed.

(** ** Words *)

Lemma le_word w v : (v < 256 ^ N.of_nat w)%N -> le_N (le_bytes w v) = v.
Proof. intros H. by rewrite le_N_le_bytes, N.mod_small. Qed.

Lemma u32_word v : (v <= U32_MAX)%N -> (v < 256 ^ N.of_nat 4)%N.
Proof. change (256 ^ N.of_nat 4)%N with 4294967296%N. unfold U32_MAX. lia. Qed.

Lemma word_le w l : length l = w -> le_bytes w (le_N l) = l.
Proof. intros <-. apply le_bytes_le_N. Qed.

Lemma reads_u32 what v : (v <= U32_MAX)%N -> reads (read_u32 what) (le_bytes 4 v) v.
Proof.
  intros Hv pre suf. rewrite <- (le_word 4 v) at 2 by (unfold U32_MAX in Hv; cbn; lia).
  apply read_u32_cur.
Qed.

Lemma reads_u16 what v : (v <= U16_MAX)%N -> reads (read_u16 what) (le_bytes 2 v) v.
Proof.
  intros Hv pre suf. rewrite <- (le_word 2 v) at 2 by (unfold U16_MAX in Hv; cbn; lia).
  apply read_u16_cur.
Qed.

Lemma reads_u8 what v : (v <= 255)%N -> reads (read_u8 what) [byte_N v] v.
Proof.
  intros Hv pre suf. rewrite read_u8_cur, N_byte_N. by rewrite N.mod_small by lia.
Qed.

Lemma word_max w l m :
  length l = w -> (256 ^ N.of_nat w = m + 1)%N -> (le_N l <= m)%N.
Proof. intros <- Hm. pose proof (le_N_bound l). lia. Qed.

Lemma consumes_u32 what :
  consumes (read_u32 what) (fun v e => (v <= U32_MAX)%N /\ e = le_bytes 4 v).
Proof.
  intros pre rest. destruct rest as [| b0 [| b1 [| b2 [| b3 suf]]]];
    [unfold read_u32; st_run; by rewrite need_cur.. |].
  pose proof (read_u32_cur what pre b0 b1 b2 b3 suf) as H. cbn [app] in H. rewrite H.
  exists [b0; b1; b2; b3], suf. split_and!; [done.. | by apply (word_max 4) |].
  symmetry. by apply (word_le 4).
Qed.

Lemma consumes_u16 what :
  consumes (read_u16 what) (fun v e => (v <= U16_MAX)%N /\ e = le_bytes 2 v).
Proof.
  intros pre rest. destruct rest as [| b0 [| b1 suf]];
    [unfold read_u16; st_run; by rewrite need_cur.. |].
  pose proof (read_u16_cur what pre b0 b1 suf) as H. cbn [app] in H. rewrite H.
  exists [b0; b1], suf. split_and!; [done.. | by apply (word_max 2) |].
  symmetry. by apply (word_le 2).
Qed.

Lemma consumes_u8 what :
  consumes (read_u8 what) (fun v e => (v <= 255)%N /\ e = [byte_N v]).
Proof.
  intros pre rest. destruct rest as [| b suf]; [unfold read_u8; st_run; by rewrite need_cur |].
  pose proof (read_u8_cur what pre b suf) as H. cbn [app] in H. rewrite H.
  exists [b], suf. pose proof (N_ascii_bounded b). split_and!; [done.. | lia |].
  by rewrite byte_N_ascii.
Qed.

(** ** Byte strings *)

Lemma take_cur n what pre enc suf :
  n = length enc -> take n what (cur pre (enc ++ suf)) = (Ok enc, cur (pre ++ enc) suf).
Proof.
  intros ->. unfold take.
  erewrite st_bind_Ok; [| rewrite need_cur, (proj2 (Nat.ltb_ge _ _)); [done |]; rewrite length_app; lia].
  erewrite st_bind_Ok by reflexivity. cbn [cur buf off].
  rewrite (slice_mid pre enc suf) by lia. erewrite st_bind_Ok by reflexivity.
  by erewrite st_bind_Ok by (by apply advance_cur).
Qed.

Lemma reads_take n what enc : n = length enc -> reads (take n what) enc enc.
Proof. intros Hn pre suf. by apply take_cur. Qed.

Lemma consumes_take n what : consumes (take n what) (fun b e => b = e /\ length b = n).
Proof.
  intros pre rest. destruct (length rest <? n) eqn:Hn.
  - unfold take. st_run. by rewrite need_cur, Hn.
  - bool_inv. rewrite <- (firstn_skipn n rest).
    assert (n = length (firstn n rest)) as Hl by (rewrite length_firstn; lia).
    rewrite take_cur by done. eauto 10.
Qed.

(** ** The two laws of a field

    [codec]: what the writer appends, the reader reads back; and the writer
    fails exactly when the value does not fit its slot. *)

Definition prints (w : writer) (enc : bytes) : Prop := forall out, w out = Ok (out ++ enc).

Definition codec {A} (w : writer) (fits : Prop) (r : reader A) (a : A) : Prop :=
  (fits /\ exists enc, prints w enc /\ reads r enc a /\ 1 <= length enc) \/
  (~ fits /\ exists e, forall out, w out = Err e).

(** [field]: what the reader consumes, the writer prints back. *)
Definition field {A} (w : A -> writer) (r : reader A) (ok : A -> Prop) : Prop :=
  consumes r (fun a enc => prints (w a) enc /\ ok a).

Lemma prints_bind (w1 w2 : writer) e1 e2 :
  prints w1 e1 -> prints w2 e2 -> prints (fun out => w1 out ≫= w2) (e1 ++ e2).
Proof. intros H1 H2 out. by rewrite H1, ret_bind, H2, app_assoc. Qed.

Lemma prints_end (w : writer) e : prints w e -> prints w (e ++ []).
Proof. by rewrite app_nil_r. Qed.

Lemma codec_bind {A B} (w1 w2 : writer) F1 F2 (r : reader A) (k : A -> reader B) a b :
  codec w1 F1 r a -> codec w2 F2 (k a) b ->
  codec (fun out => w1 out ≫= w2) (F1 /\ F2) (r ≫= k) b.
Proof.
  intros [(HF1 & e1 & Hp1 & Hr1 & Hl1) | (HF1 & e & He)].
  - intros [(HF2 & e2 & Hp2 & Hr2 & Hl2) | (HF2 & e & He)].
    + left. split; [done |]. exists (e1 ++ e2). rewrite length_app.
      split_and!; [by apply prints_bind | by eapply reads_bind | lia].
    + right. split; [tauto |]. exists e. intros out. by rewrite Hp1, ret_bind, He.
  - intros _. right. split; [tauto |]. exists e. intros out. by rewrite He.
Qed.

Lemma codec_last {A B} (w : writer) F (r : reader A) (f : A -> B) a :
  codec w F r a -> codec w F (r ≫= fun x => mret (f x)) (f a).
Proof.
  intros [(HF & e & Hp & Hr & Hl) | H]; [left | by right].
  split; [done |]. exists e. split_and!; [done | | done]. rewrite <- (app_nil_r e).
  eapply reads_bind; [done | apply reads_ret].
Qed.

Lemma codec_fits {A} (w : writer) F F' (r : reader A) a :
  (F <-> F') -> codec w F r a -> codec w F' r a.
Proof. intros He [[? ?] | [? ?]]; [left | right]; by rewrite <- He. Qed.

(** A field that is a length and its bytes. *)
Lemma prints_parts (out a b : bytes) : (out ++ a) ++ b = out ++ (a ++ b).
Proof. by rewrite app_assoc. Qed.

Lemma codec_moniker m :
  valid_moniker m -> codec (write_moniker m) (moniker_fits m) read_moniker m.
Proof.
  intros (p & segs & Hv). unfold codec, write_moniker, moniker_fits, to_u32.
  destruct (_ <=? _)%N eqn:Hl; bool_inv; [left | right]; [split; [done |] | split; [lia | eauto]].
  eexists. split; [intros out; rewrite ret_bind; f_equal; apply prints_parts |].
  split; [| rewrite length_app, length_le_bytes; lia].
  rewrite <- (app_nil_r (_ ++ _)), <- app_assoc.
  eapply reads_bind; [by apply reads_u32 |]. cbv beta.
  eapply reads_bind; [apply reads_take; lia |]. cbv beta.
  rewrite (MonikerFacts.from_encoded_valid _ _ _ Hv).
  apply reads_ret.
Qed.

Lemma field_moniker : field write_moniker read_moniker valid_moniker.
Proof.
  eapply consumes_bind; [apply consumes_u32 |]. intros len e1 [Hl ->].
  eapply consumes_bind; [apply consumes_take |]. intros b e2 [<- Hb].
  intros pre rest. unfold lift.
  pose proof (MonikerFacts.from_encoded_post b) as Hp.
  destruct (Moniker.from_encoded b) as [m | e | |]; try done. cbn [map_err].
  destruct Hp as (<- & p & segs & Hv). exists [], rest. rewrite app_nil_r.
  split_and!; [done.. | | by exists p, segs].
  rewrite app_nil_r. intros out. unfold write_moniker, to_u32.
  replace (N.of_nat (length (Moniker.encoded m))) with len by lia.
  rewrite (proj2 (N.leb_le _ _) Hl), ret_bind. by rewrite <- app_assoc.
Qed.

Lemma codec_short b what :
  codec (write_short_bytes b what) (short b) (read_short_bytes what) b.
Proof.
  unfold codec, write_short_bytes, short.
  destruct (_ <? _)%N eqn:Hl; bool_inv; [right; split; [lia | eauto] | left; split; [done |]].
  eexists. split; [intros out; unfold mret, res_ret; f_equal; apply prints_parts |].
  split; [| rewrite length_app; cbn [length]; lia].
  eapply reads_bind; [by apply reads_u8 |]. apply reads_take. lia.
Qed.

Lemma field_short what :
  field (fun b => write_short_bytes b what) (read_short_bytes what) (fun _ => True).
Proof.
  eapply consumes_bind; [apply consumes_u8 |]. intros len e1 [Hl ->].
  eapply consumes_mono; [apply consumes_take |]. intros b e [<- Hb]. split; [| done].
  intros out. unfold write_short_bytes. replace (N.of_nat (length b)) with len by lia.
  rewrite (proj2 (N.ltb_ge _ _) Hl). by rewrite <- prints_parts.
Qed.

Lemma codec_medium b what :
  codec (write_medium_bytes b what) (medium b) (read_medium_bytes what) b.
Proof.
  unfold codec, write_medium_bytes, medium.
  destruct (_ <? _)%N eqn:Hl; bool_inv; [right; split; [lia | eauto] | left; split; [done |]].
  eexists. split; [intros out; unfold mret, res_ret; f_equal; apply prints_parts |].
  split; [| rewrite length_app, length_le_bytes; lia].
  eapply reads_bind; [by apply reads_u16 |]. apply reads_take. lia.
Qed.

Lemma field_medium what :
  field (fun b => write_medium_bytes b what) (read_medium_bytes what) (fun _ => True).
Proof.
  eapply consumes_bind; [apply consumes_u16 |]. intros len e1 [Hl ->].
  eapply consumes_mono; [apply consumes_take |]. intros b e [<- Hb]. split; [| done].
  intros out. unfold write_medium_bytes. replace (N.of_nat (length b)) with len by lia.
  rewrite (proj2 (N.ltb_ge _ _) Hl). by rewrite <- prints_parts.
Qed.

Lemma codec_idx i : codec (write_opt_idx i) (idx_fits i) read_opt_idx (norm_idx i).
Proof.
  unfold write_opt_idx, read_opt_idx.
  assert (forall v, (v <= U32_MAX)%N -> forall j : option nat,
    (if (v =? NONE_U32)%N then None else Some (N.to_nat v)) = j ->
    exists enc, prints (fun out => mret (out ++ le_bytes 4 v)) enc /\
      reads read_opt_idx enc j /\ 1 <= length enc) as Hgen.
  { intros v Hv j <-. exists (le_bytes 4 v). split; [done |]. split; [| cbn; lia].
    rewrite <- (app_nil_r (le_bytes 4 v)).
    eapply reads_bind; [by apply reads_u32 | apply reads_ret]. }
  destruct i as [i |]; cbn [idx_fits norm_idx].
  - unfold to_u32. destruct (_ <=? _)%N eqn:Hl; bool_inv; [left | right].
    + split; [done |]. apply (Hgen _ Hl). by rewrite Nat2N.id.
    + split; [lia | eauto].
  - left. split; [done |]. by apply (Hgen NONE_U32).
Qed.

Lemma field_idx :
  field write_opt_idx read_opt_idx (fun i => norm_idx i = i).
Proof.
  eapply consumes_bind; [apply consumes_u32 |]. intros v e [Hv ->].
  apply consumes_ret. destruct (v =? NONE_U32)%N eqn:Hn; bool_inv.
  - subst v. split; [| done]. intros out. done.
  - cbn [norm_idx write_opt_idx to_u32]. rewrite N2Nat.id. split.
    + intros out. unfold write_opt_idx, to_u32. rewrite N2Nat.id.
      rewrite (proj2 (N.leb_le _ _) Hv), ret_bind. by rewrite app_nil_r.
    + by rewrite (proj2 (N.eqb_neq _ _) Hn).
Qed.

Lemma codec_pos p : pos_ok p -> codec (write_opt_pos p) True read_opt_pos (norm_pos p).
Proof.
  assert (forall s e, (s <= U32_MAX)%N -> (e <= U32_MAX)%N ->
    prints (fun out => mret ((out ++ le_bytes 4 s) ++ le_bytes 4 e)) (le_bytes 4 s ++ le_bytes 4 e) /\
    reads read_opt_pos (le_bytes 4 s ++ le_bytes 4 e)
      (if (s =? NONE_U32)%N && (e =? NONE_U32)%N then None else Some (s, e))) as Hgen.
  { intros s e Hs He. split; [by intros out; rewrite <- app_assoc |].
    rewrite <- (app_nil_r (le_bytes 4 e)).
    eapply reads_bind; [by apply reads_u32 |]. cbv beta.
    eapply reads_bind; [by apply reads_u32 | apply reads_ret]. }
  intros Hp. left. split; [done |].
  destruct p as [[s e] |]; [destruct Hp as [Hs He]; destruct (Hgen s e Hs He)
    | destruct (Hgen NONE_U32 NONE_U32) as [? ?]; [done.. |]]; eexists;
    (split_and!; [done | done | rewrite length_app, !length_le_bytes; lia]).
Qed.

Lemma field_pos :
  field write_opt_pos read_opt_pos (fun p => norm_pos p = p /\ pos_ok p).
Proof.
  eapply consumes_bind; [apply consumes_u32 |]. intros s e1 [Hs ->].
  eapply consumes_bind; [apply consumes_u32 |]. intros e e2 [He ->].
  apply consumes_ret. rewrite app_nil_r.
  destruct ((s =? NONE_U32)%N && (e =? NONE_U32)%N) eqn:Hn; bool_inv.
  - subst s e. split; [| done]. intros out. unfold write_opt_pos. by rewrite prints_parts.
  - split; [intros out; unfold write_opt_pos; by rewrite prints_parts |].
    cbn [norm_pos pos_ok]. by rewrite Hn.
Qed.

Lemma codec_u16 v what :
  codec (write_opt_u16 v what) (u16_fits v) (read_opt_u16 what) (norm_u16 v).
Proof.
  assert (forall v, (v <= U16_MAX)%N ->
    exists enc, prints (fun out => mret (out ++ le_bytes 2 v)) enc /\
      reads (read_opt_u16 what) enc (if (v =? U16_MAX)%N then None else Some v) /\
      1 <= length enc) as Hgen.
  { intros w Hw. exists (le_bytes 2 w). split; [done |]. split; [| cbn; lia].
    rewrite <- (app_nil_r (le_bytes 2 w)).
    eapply reads_bind; [by apply reads_u16 | apply reads_ret]. }
  unfold write_opt_u16. destruct v as [v |]; cbn [u16_fits norm_u16].
  - destruct (v <=? _)%N eqn:Hl; bool_inv; [left | right].
    + split; [done |]. by apply Hgen.
    + split; [lia | eauto].
  - left. split; [done |]. by apply (Hgen U16_MAX).
Qed.

Lemma field_u16 what :
  field (fun v => write_opt_u16 v what) (read_opt_u16 what) (fun v => norm_u16 v = v).
Proof.
  eapply consumes_bind; [apply consumes_u16 |]. intros v e [Hv ->].
  apply consumes_ret. rewrite app_nil_r. destruct (v =? U16_MAX)%N eqn:Hn.
  - apply N.eqb_eq in Hn. subst v. done.
  - cbn [norm_u16]. rewrite Hn. split; [| done]. intros out. unfold write_opt_u16.
    by rewrite (proj2 (N.leb_le _ _) Hv).
Qed.

(** ** Records *)

Lemma codec_guard {A} (w : writer) F (c : reader ()) (r : reader A) a :
  c = mret () -> codec w F r a -> codec w F (c ≫= fun _ => r) a.
Proof. by intros ->. Qed.

Lemma norm_idx_lt n i :
  match i with Some p => p < n | None => True end ->
  check_parent n (norm_idx i) = mret ().
Proof.
  intros Hi. destruct i as [i |]; [| done]. cbn [norm_idx].
  destruct (_ =? _)%N; [done |]. unfold check_parent.
  by rewrite (proj2 (Nat.leb_gt _ _) Hi).
Qed.

Lemma codec_def n d : def_ok n d -> codec (write_def d) (def_fits d) (read_def n) (norm_def d).
Proof.
  intros (Hm & Hp & Hn). unfold write_def, read_def, norm_def.
  eapply codec_fits; cycle 1.
  - eapply codec_bind; [by apply codec_moniker | cbv beta].
    eapply codec_bind; [apply codec_short | cbv beta].
    eapply codec_bind; [apply codec_idx | cbv beta].
    apply codec_guard; [by apply norm_idx_lt |].
    eapply codec_bind; [by apply codec_pos | cbv beta].
    eapply codec_bind; [apply codec_short | cbv beta].
    eapply codec_bind; [apply codec_medium | cbv beta].
    eapply codec_bind; [apply codec_short | cbv beta].
    eapply codec_bind; [apply codec_u16 | cbv beta].
    eapply codec_bind; [apply codec_short | cbv beta].
    eapply codec_last, codec_short.
  - split; [intros H; split; tauto | intros []; tauto].
Qed.

Lemma codec_source i :
  codec (write_source i) (idx_fits (Some i)) (read_u32 (bs "ref source")) (N.of_nat i).
Proof.
  unfold write_source, to_u32, idx_fits. destruct (_ <=? _)%N eqn:Hl; bool_inv; [left | right].
  - split; [done |]. eexists. split; [by intros out |]. split; [by apply reads_u32 |].
    rewrite length_le_bytes. lia.
  - split; [lia | eauto].
Qed.

Lemma codec_ref n r : ref_ok n r -> codec (write_ref r) (ref_fits r) (read_ref n) (norm_ref r).
Proof.
  intros (Hm & Hp & Hn). unfold write_ref, read_ref, norm_ref.
  eapply codec_fits; cycle 1.
  - eapply codec_bind; [apply codec_source | cbv beta]. rewrite Nat2N.id.
    apply codec_guard; [unfold check_source; by rewrite (proj2 (Nat.leb_gt _ _) Hn) |].
    eapply codec_bind; [by apply codec_moniker | cbv beta].
    eapply codec_bind; [apply codec_short | cbv beta].
    eapply codec_bind; [by apply codec_pos | cbv beta].
    do 4 (eapply codec_bind; [apply codec_short | cbv beta]).
    eapply codec_bind; [apply codec_u16 | cbv beta].
    eapply codec_last, codec_short.
  - split; [intros H; split; tauto | intros []; tauto].
Qed.

Lemma consumes_guard {A} (c : reader ()) (r : reader A) (G : Prop) P :
  c = mret () /\ G \/ (exists e, c = throw e) -> (G -> consumes r P) ->
  consumes (c ≫= fun _ => r) P.
Proof. intros [[-> HG] | [e ->]] Hr; [by apply Hr | done]. Qed.

Lemma field_bind {A B} (w : A -> writer) (r : reader A) ok (k : A -> reader B) Q :
  field w r ok ->
  (forall a e, prints (w a) e -> ok a -> consumes (k a) (fun b e2 => Q b (e ++ e2))) ->
  consumes (r ≫= k) Q.
Proof. intros Hf Hk. eapply consumes_bind; [exact Hf |]. intros a e [? ?]. auto. Qed.

Lemma check_parent_cases n i :
  check_parent n i = mret () /\ match i with Some p => p < n | None => True end \/
  (exists e, check_parent n i = throw e).
Proof.
  destruct i as [i |]; [| by left]. cbn [check_parent].
  destruct (n <=? i) eqn:Hn; bool_inv; [right; eauto | by left].
Qed.

Lemma check_source_cases n i :
  check_source n i = mret () /\ i < n \/ (exists e, check_source n i = throw e).
Proof.
  unfold check_source. destruct (n <=? i) eqn:Hn; bool_inv; [right; eauto | by left].
Qed.

Ltac prints_fields := repeat (apply prints_bind; [assumption | cbv beta]); by apply prints_end.

Lemma field_def n : field write_def (read_def n) (fun d => def_ok n d /\ norm_def d = d).
Proof.
  unfold field, read_def.
  eapply field_bind; [apply field_moniker |]. intros m ? ? Hm.
  eapply field_bind; [apply field_short |]. intros k ? ? _.
  eapply field_bind; [apply field_idx |]. intros par ? ? Hpar.
  eapply consumes_guard; [apply check_parent_cases |]. intros Hn.
  eapply field_bind; [apply field_pos |]. intros pos ? ? [Hpos Hok].
  eapply field_bind; [apply field_short |]. intros vis ? ? _.
  eapply field_bind; [apply field_medium |]. intros sig ? ? _.
  eapply field_bind; [apply field_short |]. intros name ? ? _.
  eapply field_bind; [apply field_u16 |]. intros arity ? ? Hu.
  eapply field_bind; [apply field_short |]. intros bind ? ? _.
  eapply field_bind; [apply field_short |]. intros orig ? ? _.
  apply consumes_ret. split; [unfold write_def; cbn [moniker kind parent position visibility
    signature call_name call_arity binding origin]; prints_fields |].
  unfold norm_def. cbn. by rewrite Hpar, Hpos, Hu.
Qed.

Lemma prints_source s : (s <= U32_MAX)%N -> prints (write_source (N.to_nat s)) (le_bytes 4 s).
Proof.
  intros Hs out. unfold write_source, to_u32. by rewrite N2Nat.id, (proj2 (N.leb_le _ _) Hs).
Qed.

Lemma field_ref n : field write_ref (read_ref n) (fun r => ref_ok n r /\ norm_ref r = r).
Proof.
  unfold field, read_ref.
  eapply consumes_bind; [apply consumes_u32 |]. intros s e [Hs%prints_source ->].
  eapply consumes_guard; [apply check_source_cases |]. intros Hn.
  eapply field_bind; [apply field_moniker |]. intros m ? ? Hm.
  eapply field_bind; [apply field_short |]. intros k ? ? _.
  eapply field_bind; [apply field_pos |]. intros pos ? ? [Hpos Hok].
  eapply field_bind; [apply field_short |]. intros hint ? ? _.
  eapply field_bind; [apply field_short |]. intros ali ? ? _.
  eapply field_bind; [apply field_short |]. intros conf ? ? _.
  eapply field_bind; [apply field_short |]. intros name ? ? _.
  eapply field_bind; [apply field_u16 |]. intros arity ? ? Hu.
  eapply field_bind; [apply field_short |]. intros bind ? ? _.
  apply consumes_ret. split; [unfold write_ref; cbn [source target ref_kind ref_position
    receiver_hint alias confidence ref_call_name ref_call_arity ref_binding]; prints_fields |].
  unfold norm_ref. cbn. by rewrite Hpos, Hu.
Qed.

(** ** Sections *)

Lemma codec_all {A} (w : A -> writer) (fits ok : A -> Prop) (r : reader A) (f : A -> A) l :
  (forall a, ok a -> codec (w a) (fits a) r (f a)) -> Forall ok l ->
  (Forall fits l /\ exists enc, prints (write_all w l) enc /\
     reads (read_all r (length l)) enc (f <$> l) /\ length l <= length enc) \/
  (~ Forall fits l /\ exists e, forall out, write_all w l out = Err e).
Proof.
  intros Hc Hl. induction Hl as [| a l Ha _ IH]; cbn [write_all read_all length fmap list_fmap].
  - left. split; [constructor |]. exists []. split_and!; [| apply reads_ret | done].
    intros out. by rewrite app_nil_r.
  - rewrite Forall_cons. destruct (Hc a Ha) as [(HF1 & e1 & Hp1 & Hr1 & Hl1) | (HF1 & e & He)].
    + destruct IH as [(HF2 & e2 & Hp2 & Hr2 & Hl2) | (HF2 & e & He)].
      * left. split; [done |]. exists (e1 ++ e2). split_and!.
        -- by apply prints_bind.
        -- eapply reads_bind; [done |]. cbv beta. rewrite <- (app_nil_r e2).
           eapply reads_bind; [done | apply reads_ret].
        -- rewrite length_app. lia.
      * right. split; [tauto |]. exists e. intros out. by rewrite Hp1, ret_bind, He.
    + right. split; [tauto |]. exists e. intros out. by rewrite He.
Qed.

Lemma field_all {A} (w : A -> writer) (r : reader A) ok n :
  field w r ok -> field (write_all w) (read_all r n) (fun l => length l = n /\ Forall ok l).
Proof.
  intros Hf. unfold field. induction n as [| n IH]; cbn [read_all].
  - apply consumes_ret. split; [| by repeat constructor]. intros out. by rewrite app_nil_r.
  - eapply field_bind; [exact Hf |]. intros a e1 He1 Ha.
    eapply consumes_bind; [exact IH |]. intros l e2 (He2 & Hn & Hok).
    apply consumes_ret. split; [| split; [cbn; lia | by constructor]].
    cbn [write_all]. apply prints_bind; [done |]. by apply prints_end.
Qed.

(** ** Whole buffers *)

Definition header (version reserved defs refs : bytes) : bytes :=
  version ++ reserved ++ defs ++ refs.

Lemma four_bytes (l : bytes) : length l = 4 -> exists a b c d, l = [a; b; c; d].
Proof. destruct l as [| a [| b [| c [| d []]]]]; try done. eauto. Qed.

Lemma two_bytes (l : bytes) : length l = 2 -> exists a b, l = [a; b].
Proof. destruct l as [| a [| b []]]; try done. eauto. Qed.

Lemma header_split b :
  HEADER_LEN <= length b ->
  exists v r dc rc rest, b = header v r dc rc ++ rest /\
    length v = 2 /\ length r = 2 /\ length dc = 4 /\ length rc = 4.
Proof.
  change HEADER_LEN with 12. intros H.
  exists (firstn 2 b), (firstn 2 (skipn 2 b)), (firstn 4 (skipn 4 b)),
    (firstn 4 (skipn 8 b)), (skipn 12 b).
  do 12 (destruct b as [| ? b]; [cbn in H; lia |]). done.
Qed.

Definition counts_ok (n dc rc : N) : bool := negb ((n <? dc)%N || (n <? rc)%N).

Section header.
Context (v r dc rc rest : bytes).
Context (Hv : length v = 2) (Hr : length r = 2) (Hd : length dc = 4) (Hc : length rc = 4).

Lemma length_header : length (header v r dc rc) = HEADER_LEN.
Proof. unfold header. rewrite !length_app, Hv, Hr, Hd, Hc. done. Qed.

Lemma decode_header :
  decode (header v r dc rc ++ rest) =
  if negb (le_N v =? LAYOUT_VERSION)%N then Err (UnknownVersion (le_N v))
  else if negb (counts_ok (N.of_nat (length (header v r dc rc ++ rest))) (le_N dc) (le_N rc))
  then Err (Truncated (bs "counts exceed buffer"))
  else (decode_records (N.to_nat (le_N dc)) (N.to_nat (le_N rc))
          (cur (header v r dc rc) rest)).1.
Proof.
  unfold cur. rewrite length_header. unfold counts_ok. rewrite negb_involutive.
  destruct (two_bytes v Hv) as (? & ? & ->), (two_bytes r Hr) as (? & ? & ->),
    (four_bytes dc Hd) as (? & ? & ? & ? & ->), (four_bytes rc Hc) as (? & ? & ? & ? & ->).
  unfold decode, header_version. cbn -[le_N N.of_nat decode_records]. destruct (_ =? LAYOUT_VERSION)%N; reflexivity.
Qed.

Lemma decode_root_header :
  decode_root (header v r dc rc ++ rest) =
  if negb (le_N v =? LAYOUT_VERSION)%N then Err (UnknownVersion (le_N v))
  else if (le_N dc =? 0)%N then Err (Truncated (bs "root def"))
  else (read_moniker (cur (header v r dc rc) rest)).1.
Proof.
  unfold cur. rewrite length_header.
  destruct (two_bytes v Hv) as (? & ? & ->), (two_bytes r Hr) as (? & ? & ->),
    (four_bytes dc Hd) as (? & ? & ? & ? & ->), (four_bytes rc Hc) as (? & ? & ? & ? & ->).
  unfold decode_root, header_version. cbn -[le_N N.of_nat read_moniker]. destruct (_ =? LAYOUT_VERSION)%N; reflexivity.
Qed.
End header.

Lemma consumes_safe {A} (r : reader A) P pre rest : consumes r P -> safe (r (cur pre rest)).1.
Proof. intros H. specialize (H pre rest). by destruct (r (cur pre rest)) as [[] ?]. Qed.

(** The records of a graph, as they follow the header. *)
Definition write_records (g : t) : writer := fun out =>
  out ← write_all write_def (defs g) out; write_all write_ref (refs g) out.

Definition records_ok (g : t) : Prop :=
  Forall (def_ok (length (defs g))) (defs g) /\ Forall (ref_ok (length (defs g))) (refs g).

Lemma consumes_records nd nr :
  consumes (decode_records nd nr) (fun g enc =>
    prints (write_records g) enc /\ records_ok g /\ coherent g /\
    norm_def <$> defs g = defs g /\ norm_ref <$> refs g = refs g /\
    length (defs g) = nd /\ length (refs g) = nr).
Proof.
  eapply field_bind; [apply field_all, field_def |]. intros ds e1 He1 [<- [Hd Hnd]%Forall_and].
  eapply field_bind; [apply field_all, field_ref |]. intros rs e2 He2 [<- [Hf Hnr]%Forall_and].
  apply consumes_ret. unfold records_ok, from_records. cbn [defs refs].
  split_and!; try done.
  - apply prints_bind; [done | by apply prints_end].
  - clear -Hnd. induction Hnd as [| d l Hd _ IH]; cbn; [done | by rewrite Hd, IH].
  - clear -Hnr. induction Hnr as [| d l Hd _ IH]; cbn; [done | by rewrite Hd, IH].
Qed.

Lemma encode_split g out :
  encode g = Ok out ->
  (N.of_nat (length (defs g)) <= U32_MAX)%N /\ (N.of_nat (length (refs g)) <= U32_MAX)%N /\
  write_records g (header (le_bytes 2 LAYOUT_VERSION) (le_bytes 2 0)
    (le_bytes 4 (N.of_nat (length (defs g)))) (le_bytes 4 (N.of_nat (length (refs g))))) = Ok out.
Proof.
  unfold encode, to_u32. destruct (N.of_nat (length (defs g)) <=? _)%N eqn:H1; [| done].
  destruct (N.of_nat (length (refs g)) <=? _)%N eqn:H2; [| done]. bool_inv.
  rewrite !ret_bind. unfold header, write_records. cbn [app]. rewrite <- !app_assoc. done.
Qed.

Lemma records_codec g :
  records_ok g ->
  (Forall def_fits (defs g) /\ Forall ref_fits (refs g) /\
   exists enc, prints (write_records g) enc /\
     reads (decode_records (length (defs g)) (length (refs g))) enc
       (from_records (norm_def <$> defs g) (norm_ref <$> refs g)) /\
     length (defs g) <= length enc /\ length (refs g) <= length enc) \/
  (~ (Forall def_fits (defs g) /\ Forall ref_fits (refs g)) /\
   exists e, forall out, write_records g out = Err e).
Proof.
  intros [Hd Hr].
  destruct (codec_all write_def def_fits _ (read_def (length (defs g))) norm_def _ (codec_def _) Hd)
    as [(HF1 & e1 & Hp1 & Hr1 & Hl1) | (HF1 & e & He)].
  - destruct (codec_all write_ref ref_fits _ (read_ref (length (defs g))) norm_ref _ (codec_ref _) Hr)
      as [(HF2 & e2 & Hp2 & Hr2 & Hl2) | (HF2 & e & He)].
    + left. split_and!; [done.. |]. exists (e1 ++ e2). split_and!.
      * by apply prints_bind.
      * eapply reads_bind; [done |]. cbv beta. rewrite <- (app_nil_r e2).
        eapply reads_bind; [done | apply reads_ret].
      * rewrite length_app. lia.
      * rewrite length_app. lia.
    + right. split; [tauto |]. exists e. intros out. unfold write_records.
      by rewrite Hp1, ret_bind, He.
  - right. split; [tauto |]. exists e. intros out. unfold write_records. by rewrite He.
Qed.

Lemma decode_written g out junk (Hg : records_ok g) (He : encode g = Ok out) :
  decode (out ++ junk) = Ok (from_records (norm_def <$> defs g) (norm_ref <$> refs g)).
Proof.
  apply encode_split in He as (Hn1 & Hn2 & Hw).
  destruct (records_codec g Hg) as [(_ & _ & enc & Hp & Hr & Hl1 & Hl2) | (_ & e & He)];
    [| by rewrite He in Hw].
  rewrite Hp in Hw. apply Ok_inj in Hw as <-. rewrite <- app_assoc, decode_header by done.
  rewrite (le_word 2 LAYOUT_VERSION) by done. rewrite !le_word by (by apply u32_word).
  replace (counts_ok _ _ _) with true; [by rewrite !Nat2N.id, Hr |].
  symmetry. unfold counts_ok. rewrite !length_app.
  rewrite !(proj2 (N.ltb_ge _ _)) by lia. done.
Qed.

(** C1: round trip: what [encode] writes, [decode] reads back, whatever
    follows it in the buffer, with the same definitions and references in the
    same order, except for the values the sentinels stand for: a position
    [(u32::MAX, u32::MAX)], a parent [u32::MAX] and an arity [u16::MAX] come
    back as [None]. *)
Theorem decode_encode (g : t) (out junk : bytes)
    (Hg : records_ok g) (He : encode g = Ok out) :
  decode (out ++ junk) = Ok (from_records (norm_def <$> defs g) (norm_ref <$> refs g)).
Proof. by apply decode_written. Qed.

(** C36: [encode] succeeds exactly when every record fits its slots (monikers
    and counts 32 bits, signatures and arities 16, the other strings 8); else
    it returns an error, and it never panics. *)
Theorem encode_succeeds_iff (g : t) (Hg : records_ok g) :
  ((exists out, encode g = Ok out) <->
   (N.of_nat (length (defs g)) <= U32_MAX)%N /\ (N.of_nat (length (refs g)) <= U32_MAX)%N /\
   Forall def_fits (defs g) /\ Forall ref_fits (refs g)) /\
  safe (encode g).
Proof.
  unfold encode, to_u32.
  destruct (N.of_nat (length (defs g)) <=? _)%N eqn:H1; bool_inv;
    [| split; [split; [by intros [] | intros (? & _); lia] | done]].
  destruct (N.of_nat (length (refs g)) <=? _)%N eqn:H2; bool_inv;
    [| split; [split; [by intros [] | intros (_ & ? & _); lia] | done]].
  rewrite !ret_bind. cbv zeta. fold (write_records g).
  match goal with |- context [write_all write_def (defs g) ?o ≫= ?k] =>
    change (write_all write_def (defs g) o ≫= k) with (write_records g o) end.
  destruct (records_codec g Hg) as [(Hf1 & Hf2 & enc & Hp & _) | (Hf & e & He)].
  - rewrite Hp. split; [| done]. split; eauto.
  - rewrite He. split; [| done]. split; [by intros [] | tauto].
Qed.

(** Decoding an arbitrary buffer never panics: every index and slice of
    the cursor is in range; neither does reading its root. *)
Theorem decode_never_panics (b : bytes) : safe (decode b) /\ safe (decode_root b).
Proof.
  destruct (decide (HEADER_LEN <= length b)) as [H | H].
  - apply header_split in H as (v & r & dc & rc & rest & -> & Hv & Hr & Hd & Hc).
    rewrite decode_header, decode_root_header by done. split.
    + do 2 (destruct (negb _); [done |]). eapply consumes_safe, consumes_records.
    + destruct (negb _); [done |]. destruct (_ =? _)%N; [done |].
      eapply consumes_safe, field_moniker.
  - unfold decode, decode_root, header_version. by rewrite (proj2 (Nat.ltb_lt _ _)) by lia.
Qed.

Lemma decode_Ok b g :
  decode b = Ok g ->
  exists r dc rc enc junk,
    b = header (le_bytes 2 LAYOUT_VERSION) r dc rc ++ enc ++ junk /\
    length r = 2 /\ length dc = 4 /\ length rc = 4 /\
    prints (write_records g) enc /\ records_ok g /\ coherent g /\
    norm_def <$> defs g = defs g /\ norm_ref <$> refs g = refs g /\
    N.of_nat (length (defs g)) = le_N dc /\ N.of_nat (length (refs g)) = le_N rc.
Proof.
  intros H. destruct (decide (HEADER_LEN <= length b)) as [Hl | Hl].
  2: { unfold decode, header_version in H. by rewrite (proj2 (Nat.ltb_lt _ _)) in H by lia. }
  apply header_split in Hl as (v & r & dc & rc & rest & -> & Hv & Hr & Hd & Hc).
  rewrite decode_header in H by done.
  destruct (le_N v =? LAYOUT_VERSION)%N eqn:Hver; [| done]. cbn [negb] in H. bool_inv.
  destruct (counts_ok _ _ _); [| done]. cbn [negb] in H.
  pose proof (consumes_records (N.to_nat (le_N dc)) (N.to_nat (le_N rc))
    (header v r dc rc) rest) as Hcons.
  destruct (decode_records _ _ _) as [res c]. cbn [fst] in H. subst res.
  destruct Hcons as (enc & suf & -> & _ & Hp & Hok & Hcoh & Hnd & Hnr & Hld & Hlr).
  exists r, dc, rc, enc, suf. rewrite <- Hver, (word_le 2 v Hv).
  split_and!; try done; lia.
Qed.

(** C32: what [decode] accepts is well formed: valid monikers, parent and
    source indexes inside the definitions, and an index that agrees with the
    records. And it is the only encoding: printing the decoded graph gives
    the buffer back, up to the two reserved bytes and to what follows the
    last record, which [decode] ignores. *)
Theorem decode_canonical (b : bytes) (g : t) (H : decode b = Ok g) :
  records_ok g /\ coherent g /\
  exists out reserved junk, encode g = Ok out /\ length reserved = 2 /\
    b = le_bytes 2 LAYOUT_VERSION ++ reserved ++ drop 4 out ++ junk.
Proof.
  apply decode_Ok in H as (r & dc & rc & enc & junk & -> & Hr & Hdc & Hrc & Hp & Hok & Hcoh
    & _ & _ & Hnd & Hnr).
  split_and!; [done | done |].
  exists (header (le_bytes 2 LAYOUT_VERSION) (le_bytes 2 0) dc rc ++ enc), r, junk.
  split_and!; [| done |].
  - unfold encode, to_u32. rewrite Hnd, Hnr.
    rewrite (proj2 (N.leb_le (le_N dc) U32_MAX)) by (by apply (word_max 4)).
    rewrite (proj2 (N.leb_le (le_N rc) U32_MAX)) by (by apply (word_max 4)).
    rewrite !ret_bind, (word_le 4 dc Hdc), (word_le 4 rc Hrc). cbv zeta.
    specialize (Hp (header (le_bytes 2 LAYOUT_VERSION) (le_bytes 2 0) dc rc)).
    unfold header in *. cbn [app]. rewrite <- !app_assoc in *. exact Hp.
  - unfold header. cbn [le_bytes app drop]. by rewrite drop_0, <- !app_assoc.
Qed.

Lemma read_def_moniker n c d c' :
  read_def n c = (Ok d, c') -> exists c1, read_moniker c = (Ok (moniker d), c1).
Proof. intros H. unfold read_def in H. st_inv. eauto. Qed.

Lemma decode_records_moniker nd nr c g :
  nd <> 0 -> (decode_records nd nr c).1 = Ok g ->
  exists d ds, defs g = d :: ds /\ (read_moniker c).1 = Ok (moniker d).
Proof.
  intros Hnd H. destruct (decode_records nd nr c) as [res c'] eqn:He. cbn [fst] in H. subst res.
  unfold decode_records in He. destruct nd as [| nd]; [done |]. cbn [read_all] in He. st_inv.
  match goal with H : read_def _ _ = _ |- _ => apply read_def_moniker in H as (? & Hm) end.
  rewrite Hm. cbn [from_records defs fst]. eauto.
Qed.

(** [decode_root] reads, without the rest, the moniker of the first
    definition that [decode] returns; when there is none it is an error. *)
Theorem decode_root_agrees (b : bytes) (g : t) (H : decode b = Ok g) :
  decode_root b =
  match defs g with
  | d :: _ => Ok (moniker d)
  | [] => Err (Truncated (bs "root def"))
  end.
Proof.
  pose proof (decode_Ok b g H) as (r & dc & rc & enc & junk & -> & Hr & Hdc & Hrc & _ & _ & _
    & _ & _ & Hnd & _).
  rewrite decode_root_header, (le_word 2 LAYOUT_VERSION) by done.
  rewrite decode_header, (le_word 2 LAYOUT_VERSION) in H by done.
  rewrite N.eqb_refl in *. cbn [negb] in *.
  destruct (counts_ok _ _ _); [| done]. cbn [negb] in H.
  destruct (le_N dc =? 0)%N eqn:Hz; bool_inv.
  - rewrite Hz in Hnd. destruct (defs g); [done | cbn in Hnd; lia].
  - apply decode_records_moniker in H as (d & ds & -> & Hm); [exact Hm | lia].
Qed.

(** ** Graphs that were built *)

(** Every value has its Rust type, and none is the one a sentinel stands for. *)
Definition storable (g : t) : Prop :=
  Forall (fun d => pos_ok (position d) /\ norm_def d = d) (defs g) /\
  Forall (fun r => pos_ok (ref_position r) /\ norm_ref r = r) (refs g).

Lemma wf_records_ok g : wf (abs g) -> storable g -> records_ok g.
Proof.
  intros [_ _ Hd Hr Ht] [Hsd Hsr]. cbn [abs fst snd] in *. split.
  - apply Forall_lookup. intros i d Hi. split_and!.
    + by eapply Forall_lookup_1 in Hd.
    + by eapply Forall_lookup_1 in Hsd as [? _].
    + specialize (Ht i d Hi). apply lookup_lt_Some in Hi.
      destruct (parent d); [destruct Ht; lia | done].
  - apply Forall_lookup. intros i r Hi. eapply Forall_lookup_1 in Hr as [? ?]; [| done].
    eapply Forall_lookup_1 in Hsr as [? _]; [| done]. done.
Qed.

Lemma fmap_fixed {A} (f : A -> A) l : Forall (fun x => f x = x) l -> f <$> l = l.
Proof. induction 1 as [| x l Hx _ IH]; cbn; [done | by rewrite Hx, IH]. Qed.

(** A graph that was built, saved and loaded is the same graph: if its
    positions are [u32] and no value is one that a sentinel stands for, the
    loaded graph has the same records, and a coherent index. *)
Theorem saved_graph_reloads (g : t) (out : bytes)
    (Hg : reachable g) (Hs : storable g) (He : encode g = Ok out) :
  exists g', decode out = Ok g' /\ g' ≡ g /\ coherent g'.
Proof.
  apply CodeGraphFacts.reachable_inv in Hg as [_ Hw].
  pose proof (decode_written g out [] (wf_records_ok g Hw Hs) He) as Hd.
  rewrite app_nil_r in Hd. eexists. split; [exact Hd |].
  split; [| apply CodeGraphFacts.from_records_coherent].
  destruct Hs as [[_ Hsd]%Forall_and [_ Hsr]%Forall_and].
  unfold equiv, graph_equiv, abs, from_records. cbn [defs refs]. by rewrite !fmap_fixed.
Qed.

(** ** Examples *)

Definition ex_graph : t :=
  (add_ref_attrs CodeGraphFacts.ex_root CodeGraphFacts.ex_foo (bs "calls") (Some (15, 18)%N)
     (mk_ref_attrs (bs "self") [] (bs "local") (bs "foo") (Some 65535%N) [])
     (add_def_attrs CodeGraphFacts.ex_foo (bs "fn") CodeGraphFacts.ex_root (Some (10, 20)%N)
        DefAttrs_default (new CodeGraphFacts.ex_root (bs "module"))).2).2.

Lemma ex_reachable : reachable ex_graph.
Proof.
  apply reach_add_ref; [apply reach_add_def; [apply reach_new | |] |];
    apply CodeGraphFacts.ex_valid; vm_compute; reflexivity.
Qed.

Lemma ex_records_ok : records_ok ex_graph.
Proof.
  destruct (CodeGraphFacts.reachable_inv _ ex_reachable) as [_ [_ _ Hd Hr _]].
  cbn [abs fst snd] in *. split.
  - apply Forall_lookup. intros i d Hi. eapply Forall_lookup_1 in Hd; [| done].
    split; [done |]. destruct i as [| [| i]]; vm_compute in Hi; try done; injection Hi as <-;
      vm_compute; repeat split; (discriminate || lia).
  - apply Forall_lookup. intros i r Hi. eapply Forall_lookup_1 in Hr as [? ?]; [| done].
    split; [done |]. destruct i as [| i]; vm_compute in Hi; try done; injection Hi as <-.
    split; [done | vm_compute; lia].
Qed.

Definition ex_encoded : bytes :=
  match encode ex_graph with Ok out => out | _ => [] end.

Definition ex_decoded : t :=
  from_records (norm_def <$> defs ex_graph) (norm_ref <$> refs ex_graph).

Lemma ex_decodes : decode ex_encoded = Ok ex_decoded.
Proof.
  rewrite <- (app_nil_r ex_encoded). apply decode_written; [apply ex_records_ok |].
  vm_compute. reflexivity.
Qed.

Lemma decode_encode_witness :
  encode ex_graph = Ok ex_encoded /\
  decode (ex_encoded ++ bs "rest") =
  Ok (from_records (norm_def <$> defs ex_graph) (norm_ref <$> refs ex_graph)).
Proof.
  assert (encode ex_graph = Ok ex_encoded) as He by (vm_compute; reflexivity).
  split; [exact He |]. apply decode_encode; [apply ex_records_ok | exact He].
Defined.

(** The arity 65535 of the call is the one the sentinel stands for. *)
Example ex_arity_lost :
  (ref_call_arity <$> (norm_ref <$> refs ex_graph)) = [None] /\
  (ref_call_arity <$> refs ex_graph) = [Some 65535%N].
Proof. split; vm_compute; reflexivity. Qed.

Lemma encode_succeeds_witness :
  (exists out, encode ex_graph = Ok out) /\ Forall def_fits (defs ex_graph).
Proof.
  destruct (encode_succeeds_iff ex_graph ex_records_ok) as [[H _] _].
  assert (exists out, encode ex_graph = Ok out) as He by
    (exists ex_encoded; vm_compute; reflexivity).
  split; [exact He | apply (H He)].
Defined.

Lemma decode_canonical_witness :
  decode ex_encoded = Ok ex_decoded /\
  exists out reserved junk, encode ex_decoded = Ok out /\ length reserved = 2 /\
    ex_encoded = le_bytes 2 LAYOUT_VERSION ++ reserved ++ drop 4 out ++ junk.
Proof.
  split; [exact ex_decodes |].
  destruct (decode_canonical ex_encoded ex_decoded ex_decodes) as (_ & _ & H3). exact H3.
Defined.

Lemma decode_root_agrees_witness :
  decode ex_encoded = Ok ex_decoded /\ decode_root ex_encoded = Ok CodeGraphFacts.ex_root.
Proof.
  split; [exact ex_decodes |].
  exact (decode_root_agrees ex_encoded ex_decoded ex_decodes).
Defined.

Definition ex_small : t :=
  (add_def_attrs CodeGraphFacts.ex_foo (bs "fn") CodeGraphFacts.ex_root (Some (10, 20)%N)
     DefAttrs_default (new CodeGraphFacts.ex_root (bs "module"))).2.

Lemma saved_graph_reloads_witness :
  exists out g', encode ex_small = Ok out /\ decode out = Ok g' /\ g' ≡ ex_small.
Proof.
  destruct (encode ex_small) as [out | e | |] eqn:He; [| vm_compute in He; discriminate He..].
  destruct (saved_graph_reloads ex_small out) as (g' & Hd & Heq & _).
  - apply reach_add_def; [apply reach_new | |];
      apply CodeGraphFacts.ex_valid; vm_compute; reflexivity.
  - assert (defs ex_small = (defs (new CodeGraphFacts.ex_root (bs "module"))) ++
      [new_def CodeGraphFacts.ex_foo (bs "fn") 0 (Some (10, 20)%N) DefAttrs_default]) as Hds
      by (vm_compute; reflexivity).
    assert (refs ex_small = []) as Hrs by (vm_compute; reflexivity).
    unfold storable. rewrite Hds, Hrs.
    repeat constructor; vm_compute; (reflexivity || discriminate).
  - exact He.
  - exists out, g'. split; [reflexivity | split; [exact Hd | exact Heq]].
Defined.

End GraphCodecFacts.
