(* ===== verification/StrFacts.v ===== *)
(** Slices of UTF-8 text: trimming, scanning and cutting at ASCII bytes keep
    positions on character boundaries and pieces valid. *)

From S2P Require Import Prelude.
From S2P Require Import RustStr.

Module StrFacts.

Abbreviation utf8 s := (from_utf8 s = true).

(** ** Slices *)

Lemma boundary_le s i : is_char_boundary s i = true -> i <= length s.
Proof.
  unfold is_char_boundary. intros [H | H]%orb_true_iff; bool_inv; [lia |].
  destruct (s !! i) eqn:E; [apply lookup_lt_Some in E; lia | bool_inv; lia].
Qed.

Lemma drop_utf8 s i : utf8 s -> is_char_boundary s i = true -> utf8 (drop i s).
Proof.
  intros Hs Hi. destruct (boundary_split s i Hs Hi) as (pre & suf & -> & -> & _ & H).
  by rewrite drop_app_length.
Qed.

Lemma str_slice_ok {E} s a b :
  utf8 s -> is_char_boundary s a = true -> is_char_boundary s b = true -> a <= b ->
  exists t, str_slice (E:=E) s a b = Ok t /\ utf8 t /\ length t = b - a /\
    exists pre suf, s = pre ++ t ++ suf /\ length pre = a.
Proof.
  intros Hs Ha Hb Hab.
  destruct (boundary_split s a Hs Ha) as (pre & r & -> & -> & Hp & Hr).
  destruct (boundary_split _ b Hs Hb) as (pre2 & suf & Heq & -> & Hp2 & Hsuf).
  destruct (app_eq_inv _ _ _ _ Heq) as [(t & -> & ->) | (t & -> & ->)].
  - exists t. rewrite length_app in Hab |- *.
    assert (t = []) as -> by (apply length_zero_iff_nil; lia).
    rewrite !app_nil_r in *. cbn [app length].
    rewrite (str_slice_utf8 pre2 [] r) by (done || cbn; lia).
    split_and!; [done | done | lia | by exists pre2, r].
  - exists t. rewrite length_app.
    rewrite (str_slice_utf8 pre t suf) by done.
    split_and!; [done | by eapply from_utf8_app_inv | lia | by exists pre, suf].
Qed.

Lemma str_from_ok {E} s a :
  utf8 s -> is_char_boundary s a = true ->
  str_from (E:=E) s a = Ok (drop a s) /\ utf8 (drop a s).
Proof.
  intros Hs Ha. split; [| by apply drop_utf8]. unfold str_from, str_slice.
  rewrite (proj2 (Nat.leb_le _ _) (boundary_le _ _ Ha)), Ha, boundary_len. cbn [andb].
  by rewrite take_ge by (rewrite length_drop; lia).
Qed.

Lemma str_to_ok {E} s b :
  utf8 s -> is_char_boundary s b = true ->
  str_to (E:=E) s b = Ok (take b s) /\ utf8 (take b s).
Proof.
  intros Hs Hb. destruct (boundary_split s b Hs Hb) as (pre & suf & -> & -> & Hp & Hr).
  unfold str_to, str_slice. rewrite Hb. cbn [Nat.leb andb is_char_boundary Nat.eqb orb].
  rewrite drop_0, Nat.sub_0_r, take_app_length. done.
Qed.

(** ** Boundaries *)

Lemma boundary_ascii s i c :
  utf8 s -> s !! i = Some c -> is_ascii c = true ->
  is_char_boundary s i = true /\ is_char_boundary s (i + 1) = true.
Proof.
  intros Hs Hi Hc. apply list_elem_of_split_length in Hi as (pre & suf & -> & ->).
  assert (utf8 pre) as Hp by (by eapply from_utf8_cut).
  rewrite from_utf8_app in Hs by done. pose proof Hs as Hs'. rewrite from_utf8_cons in Hs' by done.
  split; [by apply boundary_app |].
  rewrite (cons_middle c pre suf), (app_assoc pre). apply boundary_app; [done |].
  rewrite length_app. cbn. lia.
Qed.

Lemma boundary_prefix s i p :
  utf8 s -> is_char_boundary s i = true -> forallb is_ascii p = true ->
  starts_with p (drop i s) = true -> is_char_boundary s (i + length p) = true.
Proof.
  intros Hs Hi Hp. destruct (boundary_split s i Hs Hi) as (pre & r & -> & -> & _ & Hr).
  rewrite drop_app_length. intros [suf ->]%starts_with_spec.
  rewrite app_assoc. apply boundary_app; [| by rewrite length_app].
  by rewrite from_utf8_app in Hr by (by apply from_utf8_ascii).
Qed.

Lemma starts_with_shorter p q l :
  starts_with (p ++ q) l = true -> starts_with p l = true.
Proof.
  rewrite !starts_with_spec. intros [r ->]. rewrite <- app_assoc. by apply prefix_app_r.
Qed.

(** [f] holds of ASCII bytes only. *)
Definition ascii_class (f : ascii -> bool) : Prop := forall c, f c = true -> is_ascii c = true.

Lemma scan_boundary s i f :
  utf8 s -> is_char_boundary s i = true -> ascii_class f ->
  is_char_boundary s (scan_while f s i) = true.
Proof.
  intros Hs Hi Hf. destruct (boundary_split s i Hs Hi) as (pre & r & -> & -> & _ & Hr).
  unfold scan_while. rewrite drop_app_length.
  destruct (take_while_spec f r) as (suf & E & Ht & _).
  set (t := take_while f r) in *. clearbody t. subst r.
  rewrite app_assoc. apply boundary_app; [| by rewrite length_app].
  rewrite from_utf8_app in Hr; [done |]. apply from_utf8_ascii.
  apply forallb_Forall. eapply Forall_impl; [exact Ht |]. intros x. apply Hf.
Qed.

Lemma scan_ge f s i : i <= scan_while f s i.
Proof. unfold scan_while. apply Nat.le_add_r. Qed.

(** Where a scan stops. *)
Lemma scan_stop s i f :
  i <= length s ->
  match s !! scan_while f s i with
  | Some c => f c = false
  | None => scan_while f s i = length s
  end.
Proof.
  intros Hi. destruct (scan_while_le f s i Hi) as [H1 H2].
  unfold scan_while in *. destruct (take_while_spec f (drop i s)) as (suf & E & _ & Hs).
  set (t := take_while f (drop i s)) in *. clearbody t.
  rewrite <- lookup_drop, E, lookup_app_r, Nat.sub_diag by done.
  destruct suf as [| c suf]; [| exact Hs]. cbn.
  apply (f_equal length) in E. rewrite length_app, length_drop in E. cbn in E. lia.
Qed.

Lemma scan_until_boundary s i c :
  utf8 s -> i <= length s -> is_ascii c = true ->
  is_char_boundary s (scan_while (fun x => negb (ceq x c)) s i) = true.
Proof.
  intros Hs Hi Hc. pose proof (scan_stop s i (fun x => negb (ceq x c)) Hi) as H.
  destruct (s !! scan_while _ s i) as [x |] eqn:E.
  - bool_inv. apply ceq_true in H as ->. by eapply boundary_ascii.
  - rewrite H. apply boundary_len.
Qed.

Lemma in_range_ascii lo hi c : (hi < 128)%N -> in_range lo hi c = true -> is_ascii c = true.
Proof. intros Hh [_ H]%in_range_spec. apply is_ascii_spec. lia. Qed.

Lemma ascii_class_or f g : ascii_class f -> ascii_class g -> ascii_class (fun c => f c || g c).
Proof. intros Hf Hg c [H | H]%orb_true_iff; auto. Qed.

Lemma ascii_class_range lo hi : (hi < 128)%N -> ascii_class (in_range lo hi).
Proof. intros H c. by apply in_range_ascii. Qed.

Lemma ascii_class_ceq x : is_ascii x = true -> ascii_class (fun c => ceq c x).
Proof. intros Hx c Hc. apply ceq_true in Hc. by subst. Qed.

Lemma ascii_class_ws : ascii_class is_ascii_whitespace.
Proof.
  intros c. unfold is_ascii_whitespace, is_ascii.
  destruct (N_of_ascii c <? 128)%N eqn:E; [done |]. bool_inv.
  repeat case_match; done || lia.
Qed.

Lemma ascii_class_alpha : ascii_class is_ascii_alphabetic.
Proof. apply ascii_class_or; by apply ascii_class_range. Qed.

Lemma ascii_class_digit : ascii_class is_ascii_digit.
Proof. by apply ascii_class_range. Qed.

Lemma ascii_class_alnum : ascii_class is_ascii_alphanumeric.
Proof. apply ascii_class_or; [apply ascii_class_alpha | apply ascii_class_digit]. Qed.

#[export] Hint Resolve ascii_class_or ascii_class_ceq ascii_class_ws ascii_class_alpha
  ascii_class_digit ascii_class_alnum : moniker.

(** ** Trimming *)

Lemma ws1_ascii a : ws1 a = true -> is_ascii a = true.
Proof. unfold ws1. intros [H | H]%orb_true_iff; by apply in_range_ascii in H. Qed.

Lemma utf8_two a b l : ws2 a b = true -> utf8 (a :: b :: l) <-> utf8 l.
Proof.
  unfold ws2. intros [Ha Hb]%andb_prop. apply in_range_spec in Ha.
  assert (is_cont b = true) as Hc.
  { unfold is_cont. apply in_range_spec. apply orb_true_iff in Hb as [Hb | Hb];
      apply in_range_spec in Hb; lia. }
  unfold from_utf8. cbn [chars].
  assert (is_ascii a = false) as -> by (unfold is_ascii; apply N.ltb_ge; lia).
  assert (in_range 194 223 a = true) as -> by (apply in_range_spec; lia).
  rewrite Hc. by destruct (chars l).
Qed.

Lemma ws3_shape a b c : ws3 a b c = true ->
  is_ascii a = false /\ in_range 194 223 a = false /\ in_range 224 239 a = true /\
  second_of_3 (N_of_ascii a) b = true /\ is_cont c = true.
Proof.
  unfold ws3. intros H.
  rewrite !orb_true_iff, !andb_true_iff, ?orb_true_iff, !in_range_spec in H.
  assert (225 <= N_of_ascii a <= 227)%N as Ha by lia.
  assert (128 <= N_of_ascii b <= 191 /\ 128 <= N_of_ascii c <= 191 )%N as [Hb Hc] by lia.
  assert (N_of_ascii a <> 224 /\ N_of_ascii a <> 237)%N as [Hne1 Hne2] by lia.
  refine (conj _ (conj _ (conj _ (conj _ _)))).
  - unfold is_ascii. apply N.ltb_ge. lia.
  - apply not_true_iff_false. rewrite in_range_spec. lia.
  - apply in_range_spec. lia.
  - unfold second_of_3. rewrite (proj2 (N.eqb_neq _ 224)), (proj2 (N.eqb_neq _ 237)) by lia.
    unfold is_cont. apply in_range_spec. lia.
  - unfold is_cont. apply in_range_spec. lia.
Qed.

Lemma utf8_three a b c l : ws3 a b c = true -> utf8 (a :: b :: c :: l) <-> utf8 l.
Proof.
  intros (H1 & H2 & H3 & H4 & H5)%ws3_shape. unfold from_utf8. cbn [chars].
  rewrite H1, H2, H3, H4, H5. by destruct (chars l).
Qed.

Lemma trim_start_split l :
  exists w, l = w ++ trim_start l /\ (utf8 l -> utf8 (trim_start l)).
Proof.
  enough (forall n l, length l <= n ->
    exists w, l = w ++ trim_start l /\ (utf8 l -> utf8 (trim_start l))) by eauto.
  clear l. induction n as [| n IH]; intros [| a r] Hn; cbn [length] in Hn; try lia;
    [by exists []..|]. cbn [trim_start].
  destruct (ws1 a) eqn:H1.
  { destruct (IH r) as (w & E & Hw); [lia |]. exists (a :: w). split; [by rewrite E at 1 |].
    intros H. apply Hw. rewrite from_utf8_cons in H; [done | by apply ws1_ascii]. }
  destruct r as [| b r]; [by exists [] |]. cbn [length] in Hn. destruct (ws2 a b) eqn:H2.
  { destruct (IH r) as (w & E & Hw); [lia |]. exists (a :: b :: w). split; [by rewrite E at 1 |].
    intros H. apply Hw. by rewrite utf8_two in H. }
  destruct r as [| c r]; [by exists [] |]. cbn [length] in Hn.
  destruct (ws3 a b c) eqn:H3; [| by exists []].
  destruct (IH r) as (w & E & Hw); [lia |]. exists (a :: b :: c :: w).
  split; [by rewrite E at 1 |]. intros H. apply Hw. by rewrite utf8_three in H.
Qed.

Lemma trim_rev_split l :
  exists w, l = w ++ trim_rev l /\ utf8 (reverse w).
Proof.
  enough (forall n l, length l <= n -> exists w, l = w ++ trim_rev l /\ utf8 (reverse w)) by eauto.
  clear l. induction n as [| n IH]; intros [| a r] Hn; cbn [length] in Hn; try lia;
    [by exists []..|]. cbn [trim_rev].
  destruct (ws1 a) eqn:H1.
  { destruct (IH r) as (w & E & Hw); [lia |]. exists (a :: w). split; [by rewrite E at 1 |].
    rewrite reverse_cons, from_utf8_app by done. by rewrite from_utf8_cons by (by apply ws1_ascii). }
  destruct r as [| b r]; [by exists [] |]. cbn [length] in Hn. destruct (ws2 b a) eqn:H2.
  { destruct (IH r) as (w & E & Hw); [lia |]. exists (a :: b :: w). split; [by rewrite E at 1 |].
    rewrite !reverse_cons, <- app_assoc, from_utf8_app by done. by apply utf8_two. }
  destruct r as [| c r]; [by exists [] |]. cbn [length] in Hn.
  destruct (ws3 c b a) eqn:H3; [| by exists []].
  destruct (IH r) as (w & E & Hw); [lia |]. exists (a :: b :: c :: w).
  split; [by rewrite E at 1 |].
  rewrite !reverse_cons, <- !app_assoc, from_utf8_app by done. by apply utf8_three.
Qed.

Lemma trim_end_utf8 l : utf8 l -> utf8 (trim_end l).
Proof.
  intros Hl. unfold trim_end. destruct (trim_rev_split (reverse l)) as (w & E & Hw).
  apply (f_equal reverse) in E. rewrite reverse_involutive, reverse_app in E.
  rewrite E in Hl. by eapply from_utf8_app_inv.
Qed.

Lemma trim_utf8 l : utf8 l -> utf8 (trim l).
Proof.
  intros Hl. destruct (trim_start_split l) as (w & _ & H). unfold trim.
  apply trim_end_utf8. auto.
Qed.

Lemma trim_start_utf8 l : utf8 l -> utf8 (trim_start l).
Proof. intros Hl. destruct (trim_start_split l) as (w & _ & H). auto. Qed.

#[export] Hint Resolve trim_utf8 trim_start_utf8 : moniker.

(** ** Characters *)

Lemma chars_concat cs :
  Forall (fun c => from_utf8 c = true) cs -> from_utf8 (concat cs) = true.
Proof. induction 1 as [| c cs Hc _ IH]; cbn [concat]; [done |]. by rewrite from_utf8_app. Qed.

Lemma chars_each l cs : chars l = Some cs -> Forall (fun c => from_utf8 c = true) cs.
Proof.
  revert l cs.
  enough (forall n l cs, length l <= n -> chars l = Some cs ->
    Forall (fun c => from_utf8 c = true) cs) by eauto.
  induction n as [| n IH]; intros [| b0 r] cs Hn H; simpl in Hn; try lia;
    [injection H as <-; constructor.. |].
  cbn [chars] in H. repeat case_match; try done; subst.
  all: apply fmap_Some in H as (cs' & Hcs & ->).
  all: constructor; [| apply IH in Hcs; [done | simpl in Hn; lia]].
  all: unfold from_utf8; cbn [chars];
    repeat match goal with
    | H : ?x = true |- context [if ?x then _ else _] => rewrite H
    | H : ?x = false |- context [if ?x then _ else _] => rewrite H
    end; done.
Qed.

(** A nonempty text starts with a character, and the rest is text. *)
Lemma utf8_uncons l : utf8 l -> l <> [] ->
  exists c r, l = c ++ r /\ char_ok c /\ utf8 c /\ utf8 r.
Proof.
  intros [cs H]%from_utf8_chars Hne. pose proof (chars_each _ _ H) as He.
  pose proof (chars_spec _ _ H) as [Hc Hok].
  destruct cs as [| c cs]; [by cbn in Hc; subst |]. apply Forall_cons in He as [Hec He].
  apply Forall_cons in Hok as [Hok _].
  exists c, (concat cs). split_and!; [done | done | done | by apply chars_concat].
Qed.

(** Induction on a text, character by character. *)
Lemma utf8_ind (P : bytes -> Prop) :
  P [] -> (forall c r, char_ok c -> utf8 c -> utf8 r -> P r -> P (c ++ r)) ->
  forall l, utf8 l -> P l.
Proof.
  intros H0 Hc l. revert l. enough (forall n l, length l <= n -> utf8 l -> P l) by eauto.
  induction n as [| n IH]; intros l Hn Hl.
  { by destruct l; [| cbn in Hn; lia]. }
  destruct (decide (l = [])) as [-> | Hne]; [done |].
  destruct (utf8_uncons l Hl Hne) as (c & r & -> & Hok & Huc & Hur).
  apply Hc; [done.. |]. apply IH; [| done]. rewrite length_app in Hn.
  destruct Hok as [(a & -> & _) | [H2 _]]; [cbn in Hn; lia | lia].
Qed.

Lemma replace_skip pat to x r : replace_loop pat to (length x) (x ++ r) = replace_loop pat to 0 r.
Proof. induction x as [| c x IH]; [by destruct r | done]. Qed.

(** A pattern that starts with an ASCII byte occurs at no other byte. *)
Lemma replace_copy p pat to c r :
  is_ascii p = true -> Forall (fun b => is_ascii b = false) c ->
  replace_loop (p :: pat) to 0 (c ++ r) = c ++ replace_loop (p :: pat) to 0 r.
Proof.
  intros Hp. induction 1 as [| b c Hb Hc IH]; [done |]. cbn [app replace_loop].
  destruct (starts_with (p :: pat) (b :: c ++ r)) eqn:Hs; [| by rewrite IH].
  apply starts_with_spec in Hs as [k [= -> _]]. congruence.
Qed.

Lemma replace_utf8 p pat to l :
  forallb is_ascii (p :: pat) = true -> utf8 to -> utf8 l -> utf8 (replace (p :: pat) to l).
Proof.
  intros Hpat Hto Hl. unfold replace. assert (is_ascii p = true) as Hp.
  { cbn in Hpat. by bool_inv. }
  remember (length l) as n eqn:Hn. assert (length l <= n) as Hle by lia. clear Hn.
  revert l Hl Hle. induction n as [| n IH]; intros l Hl Hle.
  { by destruct l; [| cbn in Hle; lia]. }
  destruct (decide (l = [])) as [-> | Hne]; [done |].
  destruct (utf8_uncons l Hl Hne) as (c & r & -> & Hok & Huc & Hur). rewrite length_app in Hle.
  destruct Hok as [(a & -> & Ha) | [H2 Hc]]; cbn in Hle.
  2: { rewrite replace_copy, from_utf8_app by done. apply IH; [done | lia]. }
  cbn [app replace_loop]. destruct (starts_with (p :: pat) (a :: r)) eqn:Hs.
  - apply starts_with_spec in Hs as [k [= <- ->]]. rewrite from_utf8_app by done.
    cbn [length]. rewrite Nat.sub_succ, Nat.sub_0_r, replace_skip. apply IH.
    + rewrite from_utf8_app in Hur; [done |]. apply from_utf8_ascii. cbn in Hpat. by bool_inv.
    + rewrite length_app in Hle. lia.
  - rewrite from_utf8_cons by done. apply IH; [done | lia].
Qed.

End StrFacts.
