(* ===== verification/Path.v ===== *)
(** Path patterns (src/crates/check/src/check/path.rs): [module:domain],
    [**/class:*], [class:/^[A-Z].*Port$/], matched against the segments of a
    moniker. *)

From S2P Require Import Prelude.
From S2P Require Import RustStr.
From S2P Require Import Moniker.

(** The [regex] crate, which is not part of this repository: a compiled
    expression, [Regex::new] (its error is the [Display] of [regex::Error])
    and [Regex::is_match]. *)
Class RegexEngine : Type := {
  Regex : Type;
  regex_new : bytes -> bytes + Regex;
  is_match : Regex -> bytes -> bool
}.

Module Path.
Section path.
Context {RE : RegexEngine}.

Inductive Step : Type :=
| Literal (kind name : bytes)
| KindWildcard (kind : bytes)
| NameWildcard (name : bytes)
| AnySegment
| RegexStep (kind : option bytes) (re : Regex)
| DoubleStar.

Record Pattern : Type := mk_pattern { steps : list Step; raw : bytes }.

Inductive PatternError : Set := Bad (pattern msg : bytes).

(** [Display for PatternError] *)
Definition error_display (e : PatternError) : bytes :=
  match e with
  | Bad pattern msg => bs "path pattern `" ++ pattern ++ bs "`: " ++ msg
  end.

(** The locals of [split_outer]. *)
Record Split : Set := mk_split {
  out : list bytes;
  buf : bytes;
  in_regex : bool;
  prev_was_colon : bool;
  prev_was_backslash : bool;
  just_closed_regex : bool
}.

(** One turn of the [for c in s.chars()] loop. *)
Definition split_char (st : Split) (c : bytes) : Split :=
  let st := if just_closed_regex st
            then mk_split (out st ++ [buf st]) [] (in_regex st) (prev_was_colon st)
                   (prev_was_backslash st) false
            else st in
  if negb (in_regex st) && beq c (bs "/") && negb (prev_was_colon st)
  then mk_split (out st ++ [buf st]) [] (in_regex st) false false (just_closed_regex st)
  else
    let buf := buf st ++ c in
    let '(in_regex', just_closed) :=
      if in_regex st
      then if beq c (bs "/") && negb (prev_was_backslash st) then (false, true)
           else (true, just_closed_regex st)
      else if beq c (bs "/") && prev_was_colon st then (true, just_closed_regex st)
      else (false, just_closed_regex st) in
    mk_split (out st) buf in_regex' (beq c (bs ":"))
      (beq c (bs "\") && negb (prev_was_backslash st)) just_closed.

Definition split_outer {E} (s : bytes) : res E (list bytes) :=
  match chars s with
  | None => Panic
  | Some cs =>
      let st := foldl split_char (mk_split [] [] false false false false) cs in
      mret (out st ++ [buf st])
  end.

Definition parse_step (s full : bytes) : res PatternError Step :=
  if beq s (bs "**") then mret DoubleStar
  else if beq s (bs "*") then mret AnySegment
  else
    match position (ceq ":"%char) s with
    | None =>
        Err (Bad full (bs "step `" ++ s ++ bs "` is missing the `kind:name` separator"))
    | Some colon =>
        kind ← str_to s colon;
        name ← str_from s (colon + 1);
        if beq kind [] then Err (Bad full (bs "step `" ++ s ++ bs "` has empty kind"))
        else if beq name [] then Err (Bad full (bs "step `" ++ s ++ bs "` has empty name"))
        else
          match r ← strip_prefix (bs "/") name; strip_suffix (bs "/") r with
          | Some stripped =>
              match regex_new stripped with
              | inl e => Err (Bad full (bs "invalid regex `" ++ stripped ++ bs "`: " ++ e))
              | inr re => mret (RegexStep (if beq kind (bs "*") then None else Some kind) re)
              end
          | None =>
              if beq kind (bs "*") then mret (NameWildcard name)
              else if beq name (bs "*") then mret (KindWildcard kind)
              else mret (Literal kind name)
          end
    end.

Fixpoint parse_steps (l : list bytes) (full : bytes) : res PatternError (list Step) :=
  match l with
  | [] => mret []
  | raw_step :: l =>
      s ← parse_step raw_step full;
      rest ← parse_steps l full;
      mret (s :: rest)
  end.

Definition parse (input : bytes) : res PatternError Pattern :=
  match input with
  | [] => Err (Bad input (bs "empty path pattern"))
  | _ =>
      outer ← split_outer input;
      steps ← parse_steps outer input;
      mret (mk_pattern steps input)
  end.

(** The arm [Step::DoubleStar => unreachable!()] is [None]. *)
Definition match_step (step : Step) (seg : Moniker.Segment) : option bool :=
  let '(k, n) := seg in
  match step with
  | Literal kind name => Some (beq k kind && beq n name)
  | KindWildcard kind => Some (beq k kind)
  | NameWildcard name => Some (beq n name)
  | AnySegment => Some true
  | RegexStep kind re =>
      Some (match kind with None => true | Some kind => beq k kind end &&
            if from_utf8 n then is_match re n else false)
  | DoubleStar => None
  end.

(** [(0..=segs.len()).any(|k| f(&segs[k..]))] *)
Fixpoint any_suffix {A} (f : list A -> bool) (segs : list A) : bool :=
  f segs || match segs with [] => false | _ :: segs => any_suffix f segs end.

(** [match_steps]; a step that is not [DoubleStar] never takes the
    unreachable arm. *)
Fixpoint match_steps (steps : list Step) (segs : list Moniker.Segment) : bool :=
  match steps with
  | [] => match segs with [] => true | _ => false end
  | DoubleStar :: rest => any_suffix (match_steps rest) segs
  | step :: rest =>
      match segs with
      | [] => false
      | seg :: segs_rest => default false (match_step step seg) && match_steps rest segs_rest
      end
  end.

Definition matches {E} (pattern : Pattern) (m : Moniker.t) : res E bool :=
  view ← Moniker.as_view m;
  segs ← Moniker.view_segments view;
  mret (match_steps (steps pattern) segs).

Definition matches_text_segments (pattern : Pattern) (segs : list (bytes * bytes)) : bool :=
  match_steps (steps pattern) segs.

(** ** What a pattern means *)

(** One step, one segment. *)
Definition step_matches (step : Step) (seg : Moniker.Segment) : Prop :=
  match step with
  | Literal kind name => seg = (kind, name)
  | KindWildcard kind => seg.1 = kind
  | NameWildcard name => seg.2 = name
  | AnySegment => True
  | RegexStep kind re =>
      (forall k, kind = Some k -> seg.1 = k) /\ from_utf8 seg.2 = true /\ is_match re seg.2 = true
  | DoubleStar => False
  end.

(** [**] stands for any run of segments, another step for one. *)
Inductive path_matches : list Step -> list Moniker.Segment -> Prop :=
| match_end : path_matches [] []
| match_one step seg steps segs :
    step_matches step seg -> path_matches steps segs ->
    path_matches (step :: steps) (seg :: segs)
| match_run run steps segs :
    path_matches steps segs -> path_matches (DoubleStar :: steps) (run ++ segs).

End path.
End Path.
