(* ===== verification/PathFacts.v ===== *)
(** Path patterns: matching is the declarative relation, parsing never
    panics, and the segments between [**] are searched anywhere. *)

From S2P Require Import Prelude.
From S2P Require Import RustStr.
From S2P Require Import StrFacts.
From S2P Require Import Moniker.
From S2P Require Import MonikerFacts.
From S2P Require Import Path.

(** A regex engine for the witnesses: an expression matches the strings that
    contain it, and an unclosed bracket is an error. *)
#[global] Instance substring_engine : RegexEngine := {|
  Regex := bytes;
  regex_new := fun s =>
    if contains (bs "[") s && negb (contains (bs "]") s) then inl (bs "unclosed character class")
    else inr s;
  is_match := contains
|}.

Module PathFacts.
Import StrFacts Path.
Section facts.
Context {RE : RegexEngine}.

Lemma any_suffix_spec {A} (f : list A -> bool) segs :
  any_suffix f segs = true <-> exists run rest, segs = run ++ rest /\ f rest = true.
Proof.
  induction segs as [| s segs IH]; cbn [any_suffix]; rewrite orb_true_iff.
  - split; [intros [?|?]; [by exists [], [] | done] |].
    intros (run & rest & H & ?). symmetry in H. apply app_nil in H as [-> ->]. by left.
  - rewrite IH. split.
    + intros [? | (run & rest & -> & ?)]; [by exists [], (s :: segs) | by exists (s :: run), rest].
    + intros ([| x run] & rest & H & ?); cbn in H; subst; [by left |].
      injection H as -> ->. right. by exists run, rest.
Qed.

Lemma match_step_spec step seg :
  step <> DoubleStar ->
  default false (match_step step seg) = true <-> step_matches step seg.
Proof.
  intros Hs. destruct seg as [k n], step as [kind name | kind | name | | kind re |];
    simpl; try done.
  - rewrite andb_true_iff, !beq_true. split; [by intros [-> ->] | by intros [= -> ->]].
  - apply beq_true.
  - apply beq_true.
  - rewrite andb_true_iff. assert ((match kind with None => true | Some kind => beq k kind end)
      = true <-> forall k', kind = Some k' -> k = k') as ->.
    { destruct kind as [kind |]; [| done]. rewrite beq_true. split; [by intros -> ? [= ->] |].
      intros H. by apply H. }
    destruct (from_utf8 n); split; (by intros (? & ? & ?)) || by intros [? ?].
Qed.

Lemma match_steps_one step steps seg segs :
  step <> DoubleStar ->
  match_steps (step :: steps) (seg :: segs) = true <->
  step_matches step seg /\ match_steps steps segs = true.
Proof.
  intros Hs. rewrite <- match_step_spec by done.
  destruct step; try done; cbn [match_steps]; by rewrite andb_true_iff.
Qed.

Lemma match_steps_iff steps segs : match_steps steps segs = true <-> path_matches steps segs.
Proof.
  split.
  - revert segs. induction steps as [| step steps IH]; intros segs H.
    + destruct segs; [constructor | done].
    + assert (step = DoubleStar \/ step <> DoubleStar) as [-> | Hs]
        by (destruct step; (by left) || by right).
      * cbn [match_steps] in H. apply any_suffix_spec in H as (run & rest & -> & H).
        constructor. by apply IH.
      * destruct segs as [| seg segs]; [by destruct step |].
        apply match_steps_one in H as [? ?]; [| done]. constructor; auto.
  - induction 1 as [| step seg steps segs Hs _ IH | run steps segs _ IH]; [done | |].
    + apply match_steps_one; [by intros -> | done].
    + cbn [match_steps]. apply any_suffix_spec. eauto.
Qed.

(** Matching a pattern against a moniker never panics and decides the
    declarative reading of the pattern on the moniker's path: [**] stands for
    any run of segments, every other step for exactly one. *)
Theorem matches_iff {E} (p : Pattern) (m : Moniker.t) (prj : bytes) (segs : list Moniker.Segment)
    (H : Moniker.valid m prj segs) :
  exists b, matches (E:=E) p m = Ok b /\ (b = true <-> path_matches (steps p) segs).
Proof.
  unfold matches. rewrite (MonikerFacts.as_view_valid _ _ _ H), ret_bind,
    (MonikerFacts.view_segments_valid _ _ _ H), ret_bind.
  eexists. split; [done | apply match_steps_iff].
Qed.

(** ** Parsing *)

Lemma split_char_utf8 st c :
  Forall (fun s => from_utf8 s = true) (out st) -> from_utf8 (buf st) = true ->
  from_utf8 c = true ->
  Forall (fun s => from_utf8 s = true) (out (split_char st c)) /\
  from_utf8 (buf (split_char st c)) = true.
Proof.
  intros Ho Hb Hc. unfold split_char.
  destruct (just_closed_regex st); cbn [out buf in_regex prev_was_colon prev_was_backslash
    just_closed_regex]; repeat case_match; cbn [out buf];
    rewrite ?Forall_app, ?Forall_singleton, ?from_utf8_app by done; done.
Qed.

Lemma split_outer_post {E} s :
  from_utf8 s = true ->
  post (split_outer (E:=E) s) (Forall (fun s => from_utf8 s = true)).
Proof.
  intros [cs Hcs]%from_utf8_chars. unfold split_outer. rewrite Hcs. apply chars_each in Hcs.
  enough (forall st, Forall (fun s => from_utf8 s = true) (out st) -> from_utf8 (buf st) = true ->
    Forall (fun s => from_utf8 s = true) (out (foldl split_char st cs)) /\
    from_utf8 (buf (foldl split_char st cs)) = true) as Hgen.
  { destruct (Hgen (mk_split [] [] false false false false)) as [? ?]; [constructor | done |].
    cbn. apply Forall_app. by split; [| apply Forall_singleton]. }
  clear s. induction Hcs as [| c cs Hc _ IH]; intros st Ho Hb; cbn [foldl]; [done |].
  destruct (split_char_utf8 st c) as [? ?]; [done.. |]. by apply IH.
Qed.

Lemma colon_split s i :
  from_utf8 s = true -> position (ceq ":"%char) s = Some i ->
  exists k n, s = k ++ ":"%char :: n /\ length k = i /\ from_utf8 k = true /\ from_utf8 n = true.
Proof.
  intros Hs Hp. apply position_Some in Hp as (pre & c & suf & -> & <- & Hc & _).
  apply ceq_true in Hc as <-. exists pre, suf.
  assert (from_utf8 pre = true) as Hpre by (by eapply (from_utf8_cut _ ":"%char)).
  split_and!; [done.. |]. rewrite from_utf8_app in Hs by done.
  by rewrite from_utf8_cons in Hs.
Qed.

Lemma str_to_app {E} pre suf i :
  from_utf8 (pre ++ suf) = true -> from_utf8 suf = true -> i = length pre ->
  str_to (E:=E) (pre ++ suf) i = Ok pre.
Proof. intros Hp Hs ->. by apply (str_slice_utf8 [] pre suf). Qed.

Lemma str_from_app {E} pre suf i :
  from_utf8 suf = true -> i = length pre -> str_from (E:=E) (pre ++ suf) i = Ok suf.
Proof.
  intros Hs ->. unfold str_from. rewrite <- (app_nil_r suf) at 1.
  apply (str_slice_utf8 pre suf []); [by rewrite app_nil_r | done | done |].
  by rewrite length_app.
Qed.

Lemma parse_step_post s full : from_utf8 s = true -> post (parse_step s full) (fun _ => True).
Proof.
  intros Hs. unfold parse_step. do 2 (destruct (beq s _); [done |]).
  destruct (position _ s) as [i |] eqn:Hp; [| done].
  apply colon_split in Hp as (k & n & -> & <- & Hk & Hn); [| done].
  assert (from_utf8 (":"%char :: n) = true) as Hcn by (by rewrite from_utf8_cons).
  rewrite str_to_app, ret_bind by (done || by rewrite from_utf8_app).
  rewrite (cons_middle _ k), (app_assoc k [":"%char]), str_from_app, ret_bind by
    (done || (rewrite length_app; cbn; lia)).
  destruct (beq k []); [done |]. destruct (beq n []); [done |].
  repeat case_match; done.
Qed.

Lemma parse_post input : from_utf8 input = true -> post (parse input) (fun _ => True).
Proof.
  intros Hi. unfold parse. destruct input as [| c input]; [done |].
  eapply post_bind; [by apply split_outer_post |]. intros outer Ho.
  eapply post_bind with (P := fun _ => True); [| done].
  induction Ho as [| s l Hs _ IH]; cbn [parse_steps]; [done |].
  eapply post_bind; [by apply parse_step_post |]. intros st _.
  eapply post_bind; [apply IH |]. done.
Qed.

(** Parsing a pattern never panics, whatever the text: the slices around
    the colon of a step are on character boundaries. *)
Theorem pattern_parse_never_panics (input : bytes) (H : from_utf8 input = true) :
  safe (parse input).
Proof. eapply post_safe. by apply parse_post. Qed.

(** ** The [has_segment] pattern *)

(** A kind and a name that no character of the pattern syntax occurs in. *)
Definition plain_pair (kind name : bytes) : Prop :=
  from_utf8 kind = true /\ from_utf8 name = true /\ kind <> [] /\ name <> [] /\
  kind <> bs "*" /\ name <> bs "*" /\
  ~ "/"%char ∈ kind /\ ~ ":"%char ∈ kind /\ ~ "/"%char ∈ name /\ last name <> Some ":"%char.

Definition no_slash : list bytes -> Prop := Forall (fun c => beq c (bs "/") = false).

Lemma fold_plain cs st :
  in_regex st = false -> just_closed_regex st = false -> no_slash cs ->
  exists back, foldl split_char st cs =
    mk_split (out st) (buf st ++ concat cs) false
      (match last cs with Some c => beq c (bs ":") | None => prev_was_colon st end) back false.
Proof.
  intros Hr Hj. induction cs as [| c cs IH] using rev_ind; intros Hcs.
  - exists (prev_was_backslash st). cbn. rewrite app_nil_r. destruct st; cbn in *. by subst.
  - apply Forall_app in Hcs as [Hcs Hc1].
    assert (beq c (bs "/") = false) as Hc by (by apply Forall_inv in Hc1).
    destruct (IH Hcs) as (back & Hf). rewrite foldl_snoc, Hf, last_snoc, concat_app.
    unfold split_char. cbn [out buf in_regex prev_was_colon prev_was_backslash just_closed_regex].
    rewrite Hc. cbn [negb andb concat]. rewrite app_nil_r, app_assoc. eauto.
Qed.

Lemma no_slash_chars l cs : chars l = Some cs -> ~ "/"%char ∈ l -> no_slash cs.
Proof.
  intros [<- _]%chars_spec Hl. apply Forall_forall. intros c Hc. apply beq_false. intros ->.
  apply Hl, list_elem_of_In, in_concat. exists (bs "/"). split; [by apply list_elem_of_In | by left].
Qed.

Lemma last_colon l cs :
  chars l = Some cs -> l <> [] -> last l <> Some ":"%char ->
  exists c, last cs = Some c /\ beq c (bs ":") = false.
Proof.
  intros [<- _]%chars_spec Hne Hl. destruct cs as [| c cs _] using rev_ind; [done |].
  exists c. rewrite last_snoc. split; [done |]. apply beq_false. intros ->. apply Hl.
  rewrite concat_app. apply last_snoc.
Qed.

Section has_segment.
Context (kind name : bytes) (Hp : plain_pair kind name).

Lemma has_segment_split {E} :
  split_outer (E:=E) (bs "**/" ++ (kind ++ bs ":" ++ name) ++ bs "/**") =
  Ok [bs "**"; kind ++ bs ":" ++ name; bs "**"].
Proof.
  destruct Hp as (Hk & Hn & Hke & Hne & _ & _ & Hks & _ & Hns & Hnl).
  set (mid := kind ++ bs ":" ++ name).
  assert (exists cs, chars mid = Some cs) as [cs Hcs].
  { apply from_utf8_chars. unfold mid. rewrite from_utf8_app by done.
    by rewrite from_utf8_app. }
  assert (no_slash cs) as Hno.
  { eapply no_slash_chars; [done |]. unfold mid. rewrite !elem_of_app. intros [? | [H | ?]]; try done.
    apply list_elem_of_singleton in H. done. }
  destruct (last_colon mid cs Hcs) as (c & Hlast & Hc).
  { unfold mid. by destruct kind. }
  { unfold mid. rewrite !app_assoc, last_app. destruct (last name) eqn:El; [congruence |].
    by apply last_None in El. }
  unfold split_outer. rewrite (chars_app (bs "**/") _ [bs "*"; bs "*"; bs "/"]) by done.
  rewrite (chars_app mid _ cs Hcs). cbn [fmap option_fmap option_map].
  change (chars (bs "/**")) with (Some [bs "/"; bs "*"; bs "*"]). cbn [option_map fmap option_fmap].
  rewrite !foldl_app. set (st := foldl split_char _ [bs "*"; bs "*"; bs "/"]).
  change st with (mk_split [bs "**"] [] false false false false).
  destruct (fold_plain cs (mk_split [bs "**"] [] false false false false)) as (back & ->);
    [done.. |]. rewrite Hlast, Hc. apply chars_spec in Hcs as [-> _]. done.
Qed.

Lemma has_segment_step full : parse_step (kind ++ bs ":" ++ name) full = Ok (Literal kind name).
Proof.
  destruct Hp as (Hk & Hn & Hke & Hne & Hkw & Hnw & _ & Hkc & Hns & _).
  unfold parse_step. change (bs ":") with [":"%char]. cbn [app].
  assert (":"%char ∈ kind ++ ":"%char :: name) as Hin by set_solver.
  rewrite !(proj2 (beq_false _ _)) by
    (intros Heq; rewrite Heq in Hin; apply list_elem_of_In in Hin; vm_compute in Hin;
     intuition discriminate).
  assert (position (ceq ":"%char) (kind ++ ":"%char :: name) = Some (length kind)) as ->.
  { apply position_Some. exists kind, ":"%char, name. split_and!; [done.. |].
    apply Forall_forall. intros x Hx. apply ceq_false. intros <-. done. }
  assert (from_utf8 (":"%char :: name) = true) as Hcn by (by rewrite from_utf8_cons).
  rewrite str_to_app, ret_bind by (done || by rewrite from_utf8_app).
  rewrite (cons_middle _ kind), (app_assoc kind [":"%char]), str_from_app, ret_bind by
    (done || (rewrite length_app; cbn; lia)).
  rewrite !(proj2 (beq_false _ _)) by done.
  assert (strip_prefix (bs "/") name = None) as ->; [| done].
  destruct (strip_prefix _ _) as [r |] eqn:Es; [| done].
  apply strip_prefix_Some in Es. exfalso. apply Hns. rewrite Es. by left.
Qed.

Lemma has_segment_parse :
  parse (bs "**/" ++ (kind ++ bs ":" ++ name) ++ bs "/**") =
  Ok (mk_pattern [DoubleStar; Literal kind name; DoubleStar]
        (bs "**/" ++ (kind ++ bs ":" ++ name) ++ bs "/**")).
Proof.
  unfold parse. rewrite has_segment_split, ret_bind. cbn [parse_steps].
  rewrite has_segment_step. done.
Qed.
End has_segment.

Lemma has_segment_matches kind name segs :
  path_matches [DoubleStar; Literal kind name; DoubleStar] segs <-> (kind, name) ∈ segs.
Proof.
  rewrite <- match_steps_iff. cbn [match_steps]. rewrite any_suffix_spec. split.
  - intros (run & rest & -> & H). destruct rest as [| [k n] rest]; [done |].
    cbn in H. bool_inv. subst. set_solver.
  - intros (pre & suf & ->)%list_elem_of_split. exists pre, ((kind, name) :: suf).
    split; [done |]. cbn. rewrite !beq_refl. apply any_suffix_spec. exists suf, [].
    by rewrite app_nil_r.
Qed.

(** The pattern [has_segment(kind, name)] stands for, [**/kind:name/**],
    parses and matches exactly the paths that have the segment [kind:name],
    when neither holds a character of the pattern syntax. *)
Theorem has_segment_sugar (kind name : bytes) (H : plain_pair kind name) :
  exists p, parse (bs "**/" ++ (kind ++ bs ":" ++ name) ++ bs "/**") = Ok p /\
    forall segs, path_matches (steps p) segs <-> (kind, name) ∈ segs.
Proof.
  eexists. split; [by apply has_segment_parse |]. intros segs. apply has_segment_matches.
Qed.

End facts.

Definition ex_regex (s : bytes) : @Regex substring_engine := s.
Definition ex_pattern : Pattern (RE:=substring_engine) :=
  mk_pattern [DoubleStar; RegexStep (Some (bs "class")) (ex_regex (bs "Port")); DoubleStar] [].

Lemma matches_iff_witness :
  let p := ex_pattern in
  let segs := [(bs "lang", bs "ts"); (bs "class", bs "UserPort")] in
  matches (E:=()) p (Moniker.mk (Moniker.enc_parts (bs "app") segs)) = Ok true /\
  path_matches (steps p) segs.
Proof.
  cbv zeta.
  destruct (matches_iff (E:=()) ex_pattern
    (Moniker.mk (Moniker.enc_parts (bs "app") [(bs "lang", bs "ts"); (bs "class", bs "UserPort")]))
    (bs "app") [(bs "lang", bs "ts"); (bs "class", bs "UserPort")]) as (b & Hb & Hm).
  - split; [vm_compute; reflexivity | reflexivity].
  - vm_compute in Hb. apply Ok_inj in Hb as <-. split; [vm_compute; reflexivity | by apply Hm].
Defined.

Lemma pattern_parse_witness :
  safe (parse (RE:=substring_engine) (bs "**/class:/Entity$/method:*")) /\
  parse (bs "**/class:/Entity$/method:*") =
  Ok (mk_pattern [DoubleStar; RegexStep (Some (bs "class")) (ex_regex (bs "Entity$")); KindWildcard (bs "method")]
        (bs "**/class:/Entity$/method:*")).
Proof.
  split; [apply pattern_parse_never_panics | ]; vm_compute; reflexivity.
Defined.

Lemma has_segment_witness :
  exists p, parse (RE:=substring_engine) (bs "**/module:domain/**") = Ok p /\
    forall segs, path_matches (steps p) segs <-> (bs "module", bs "domain") ∈ segs.
Proof.
  apply (has_segment_sugar (bs "module") (bs "domain")).
  split_and!; (vm_compute; reflexivity) || (vm_compute; discriminate) || idtac.
  all: rewrite list_elem_of_In; vm_compute; intuition discriminate.
Defined.

(** A name with a slash ends the step early. *)
Example has_segment_slash :
  parse (RE:=substring_engine) (bs "**/path:src/foo/**") =
  Err (Bad (bs "**/path:src/foo/**") (bs "step `foo` is missing the `kind:name` separator")).
Proof. vm_compute. reflexivity. Qed.

End PathFacts.
