(* ===== verification/DslAst.v ===== *)
(** The syntax tree of the rule language
    (src/crates/check/src/check/expr/ast.rs), the analysis that tells which
    rules need a full syntax tree of the file, and the search for inline
    project selectors (expr/mod.rs). *)

From S2P Require Import Prelude.
From S2P Require Import RustStr.
From S2P Require Import Moniker.
From S2P Require Import Path.

#[local] Set Warnings "-register-all".

Module Op.

Inductive t : Set :=
| Eq | Ne | Lt | Le | Gt | Ge | RegexMatch | RegexNoMatch
| AncestorOf | DescendantOf | BindMatch | PathMatch | Subset | Prefix.

#[global] Instance t_eq_dec : EqDecision t.
Proof. solve_decision. Defined.

(** [derive(Debug)] *)
Definition debug (o : t) : bytes :=
  match o with
  | Eq => bs "Eq" | Ne => bs "Ne" | Lt => bs "Lt" | Le => bs "Le" | Gt => bs "Gt"
  | Ge => bs "Ge" | RegexMatch => bs "RegexMatch" | RegexNoMatch => bs "RegexNoMatch"
  | AncestorOf => bs "AncestorOf" | DescendantOf => bs "DescendantOf"
  | BindMatch => bs "BindMatch" | PathMatch => bs "PathMatch" | Subset => bs "Subset"
  | Prefix => bs "Prefix"
  end.

End Op.

Module Lhs.

Inductive t : Set :=
| Name
| Signature
| SourceSignature
| TargetSignature
| Lines
| StartLine
| EndLine
| StartByte
| EndByte
| Kind
| Shape
| Visibility
| Srcset
| Text
| Moniker
| Depth
| ParentMoniker
| Confidence
| ParentName
| ParentKind
| ParentShape
| SourceName
| SourceKind
| SourceShape
| SourceVisibility
| SourceSrcset
| SourceMoniker
| SourceParentMoniker
| TargetName
| TargetKind
| TargetShape
| TargetVisibility
| TargetSrcset
| TargetMoniker
| TargetParentMoniker
| SegmentName
| SegmentKind.

#[global] Instance t_eq_dec : EqDecision t.
Proof. solve_decision. Defined.

Definition as_str (l : t) : bytes :=
  match l with
  | Name => bs "name"
  | Signature => bs "signature"
  | SourceSignature => bs "source.signature"
  | TargetSignature => bs "target.signature"
  | Lines => bs "lines"
  | StartLine => bs "start_line"
  | EndLine => bs "end_line"
  | StartByte => bs "start_byte"
  | EndByte => bs "end_byte"
  | Kind => bs "kind"
  | Shape => bs "shape"
  | Visibility => bs "visibility"
  | Srcset => bs "srcset"
  | Text => bs "text"
  | Moniker => bs "uri"
  | Depth => bs "depth"
  | ParentMoniker => bs "parent"
  | Confidence => bs "confidence"
  | ParentName => bs "parent.name"
  | ParentKind => bs "parent.kind"
  | ParentShape => bs "parent.shape"
  | SourceName => bs "source.name"
  | SourceKind => bs "source.kind"
  | SourceShape => bs "source.shape"
  | SourceVisibility => bs "source.visibility"
  | SourceSrcset => bs "source.srcset"
  | SourceMoniker => bs "source"
  | SourceParentMoniker => bs "source.parent"
  | TargetName => bs "target.name"
  | TargetKind => bs "target.kind"
  | TargetShape => bs "target.shape"
  | TargetVisibility => bs "target.visibility"
  | TargetSrcset => bs "target.srcset"
  | TargetMoniker => bs "target"
  | TargetParentMoniker => bs "target.parent"
  | SegmentName => bs "segment.name"
  | SegmentKind => bs "segment.kind"
  end.

(** [derive(Debug)] *)
Definition debug (l : t) : bytes :=
  match l with
  | Name => bs "Name"
  | Signature => bs "Signature"
  | SourceSignature => bs "SourceSignature"
  | TargetSignature => bs "TargetSignature"
  | Lines => bs "Lines"
  | StartLine => bs "StartLine"
  | EndLine => bs "EndLine"
  | StartByte => bs "StartByte"
  | EndByte => bs "EndByte"
  | Kind => bs "Kind"
  | Shape => bs "Shape"
  | Visibility => bs "Visibility"
  | Srcset => bs "Srcset"
  | Text => bs "Text"
  | Moniker => bs "Moniker"
  | Depth => bs "Depth"
  | ParentMoniker => bs "ParentMoniker"
  | Confidence => bs "Confidence"
  | ParentName => bs "ParentName"
  | ParentKind => bs "ParentKind"
  | ParentShape => bs "ParentShape"
  | SourceName => bs "SourceName"
  | SourceKind => bs "SourceKind"
  | SourceShape => bs "SourceShape"
  | SourceVisibility => bs "SourceVisibility"
  | SourceSrcset => bs "SourceSrcset"
  | SourceMoniker => bs "SourceMoniker"
  | SourceParentMoniker => bs "SourceParentMoniker"
  | TargetName => bs "TargetName"
  | TargetKind => bs "TargetKind"
  | TargetShape => bs "TargetShape"
  | TargetVisibility => bs "TargetVisibility"
  | TargetSrcset => bs "TargetSrcset"
  | TargetMoniker => bs "TargetMoniker"
  | TargetParentMoniker => bs "TargetParentMoniker"
  | SegmentName => bs "SegmentName"
  | SegmentKind => bs "SegmentKind"
  end.

(** The arms of [Lhs::from_projection_name]. *)
Definition projection_names : list (bytes * t) :=
  [(bs "name", Name);
   (bs "signature", Signature);
   (bs "source.signature", SourceSignature);
   (bs "target.signature", TargetSignature);
   (bs "lines", Lines);
   (bs "start_line", StartLine);
   (bs "end_line", EndLine);
   (bs "start_byte", StartByte);
   (bs "end_byte", EndByte);
   (bs "kind", Kind);
   (bs "shape", Shape);
   (bs "visibility", Visibility);
   (bs "srcset", Srcset);
   (bs "text", Text);
   (bs "uri", Moniker);
   (bs "moniker", Moniker);
   (bs "self", Moniker);
   (bs "depth", Depth);
   (bs "parent", ParentMoniker);
   (bs "self.parent", ParentMoniker);
   (bs "confidence", Confidence);
   (bs "parent.name", ParentName);
   (bs "parent.kind", ParentKind);
   (bs "parent.shape", ParentShape);
   (bs "source", SourceMoniker);
   (bs "source.name", SourceName);
   (bs "source.kind", SourceKind);
   (bs "source.shape", SourceShape);
   (bs "source.visibility", SourceVisibility);
   (bs "source.srcset", SourceSrcset);
   (bs "source.parent", SourceParentMoniker);
   (bs "target", TargetMoniker);
   (bs "target.name", TargetName);
   (bs "target.kind", TargetKind);
   (bs "target.shape", TargetShape);
   (bs "target.visibility", TargetVisibility);
   (bs "target.srcset", TargetSrcset);
   (bs "target.parent", TargetParentMoniker);
   (bs "segment.name", SegmentName);
   (bs "segment.kind", SegmentKind)].


Definition from_projection_name (s : bytes) : option t :=
  snd <$> List.find (fun e => beq e.1 s) projection_names.

Inductive ProjectionKind : Set := KText | KNumber | KMoniker.

#[global] Instance kind_eq_dec : EqDecision ProjectionKind.
Proof. solve_decision. Defined.

Definition projection_kind (l : t) : ProjectionKind :=
  match l with
  | Lines | StartLine | EndLine | StartByte | EndByte | Depth => KNumber
  | Moniker | ParentMoniker | SourceMoniker | SourceParentMoniker | TargetMoniker
  | TargetParentMoniker => KMoniker
  | Signature | SourceSignature | TargetSignature | Name | Kind | Shape | Visibility | Srcset
  | Text | Confidence | ParentName | ParentKind | ParentShape | SourceName | SourceKind
  | SourceShape | SourceVisibility | SourceSrcset | TargetName | TargetKind | TargetShape
  | TargetVisibility | TargetSrcset | SegmentName | SegmentKind => KText
  end.

Definition is_number_projection (l : t) : bool :=
  match l with
  | Lines | StartLine | EndLine | StartByte | EndByte | Depth => true
  | _ => false
  end.

Definition is_moniker_projection (l : t) : bool :=
  bool_decide (projection_kind l = KMoniker).

Definition accepts_op (l : t) (op : Op.t) : bool :=
  match projection_kind l with
  | KText =>
      match op with Op.Eq | Op.Ne | Op.RegexMatch | Op.RegexNoMatch => true | _ => false end
  | KNumber =>
      match op with
      | Op.Lt | Op.Le | Op.Gt | Op.Ge | Op.Eq | Op.Ne => true
      | _ => false
      end
  | KMoniker =>
      match op with
      | Op.Eq | Op.Ne | Op.AncestorOf | Op.DescendantOf | Op.BindMatch | Op.PathMatch => true
      | _ => false
      end
  end.

Definition is_ast_projection (l : t) : bool :=
  match l with
  | Kind | Text | StartByte | EndByte | StartLine | EndLine | Lines | ParentKind => true
  | _ => false
  end.

End Lhs.

Module Domain.

Inductive t : Set :=
| Ast
| Children (kind : bytes)
| ChildrenByShape (shape : bytes)
| Descendants (d : t)
| Pairs (d : t)
| Segments
| OutRefs
| InRefs
| SourceOutRefs
| SourceInRefs
| TargetOutRefs
| TargetInRefs
| SourceAncestorOutRefs
| SourceAncestorInRefs.

#[global] Instance t_eq_dec : EqDecision t.
Proof. solve_decision. Defined.

Fixpoint contains_ast (d : t) : bool :=
  match d with
  | Ast => true
  | Descendants inner | Pairs inner => contains_ast inner
  | _ => false
  end.

(** [contains_pair_domain] (expr/domain.rs) *)
Fixpoint contains_pair_domain (d : t) : bool :=
  match d with
  | Pairs _ => true
  | Descendants inner => contains_pair_domain inner
  | _ => false
  end.

End Domain.

Module QuantKind.
Inductive t : Set := Any | All | None.
End QuantKind.

Module Ast.
Section ast.
Context {RE : RegexEngine}.

Inductive AggregateKind : Set :=
| Sum | Max | Min | Avg | Median | Percentile | Stddev | Var | Cv | Gini.

Definition aggregate_as_str (k : AggregateKind) : bytes :=
  match k with
  | Sum => bs "sum" | Max => bs "max" | Min => bs "min" | Avg => bs "avg"
  | Median => bs "median" | Percentile => bs "percentile" | Stddev => bs "stddev"
  | Var => bs "var" | Cv => bs "cv" | Gini => bs "gini"
  end.

Inductive Binding : Set := Self_ | Each.

Inductive MetricKind : Set := Lcom4 | Cbo | Rfc | Wmc | Dit | Noc | FanIn | FanOut.

Definition metric_as_str (k : MetricKind) : bytes :=
  match k with
  | Lcom4 => bs "lcom4" | Cbo => bs "cbo" | Rfc => bs "rfc" | Wmc => bs "wmc"
  | Dit => bs "dit" | Noc => bs "noc" | FanIn => bs "fan_in" | FanOut => bs "fan_out"
  end.

Inductive CollectionOp : Set := Intersect | Union | Difference.
Inductive PairSide : Set := A | B.
Inductive SegmentScope : Set := Def | Source | Target.

Record PairProjection : Set := mk_pair_projection { pp_side : PairSide; pp_lhs : Lhs.t }.

Record CollectionProjection : Set := mk_collection_projection {
  cp_current : bool; cp_domain : Domain.t; cp_path : list bytes
}.

Record PairCollectionProjection : Set := mk_pair_collection_projection {
  pcp_side : PairSide; pcp_domain : Domain.t; pcp_path : list bytes
}.

Inductive CollectionExpr : Set :=
| CProjection (p : CollectionProjection)
| CPairProjection (p : PairCollectionProjection)
| Unique (c : CollectionExpr)
| Binary (op : CollectionOp) (l1 l2 : CollectionExpr).

Record VerticalLayout : Set := mk_layout {
  layout_domain : Domain.t;
  public_first : bool;
  private_after_first_use : bool;
  max_gap : N;
  layout_raw : bytes
}.

Inductive Node : Type :=
| NAtom (a : Atom)
| And (nodes : list Node)
| Or (nodes : list Node)
| Not (n : Node)
| Implies (l1 l2 : Node)
| Require_ (pattern : bytes)
| NVerticalLayout (layout : VerticalLayout)
| Quantifier (kind : QuantKind.t) (domain : Domain.t) (filter : Node)
with Atom : Type :=
| mk_atom (lhs : LhsExpr) (op : Op.t) (rhs : Rhs) (raw : bytes) (regex : option Regex)
with LhsExpr : Type :=
| Attr (l : Lhs.t)
| Number (e : NumberExpr)
| Collection (c : CollectionExpr)
| Mode (v : DomainValueExpr)
| LPairProjection (p : PairProjection)
| SegmentOf (scope : SegmentScope) (kind : bytes)
with NumberExpr : Type :=
| NLiteral (x : f64)
| NProjection (l : Lhs.t)
| Count (domain : Domain.t) (filter : option Node)
| Aggregate (kind : AggregateKind) (domain : Domain.t) (expr : NumberExpr)
    (percentile : option f64)
| Metric (kind : MetricKind) (binding : Binding)
| Entropy (v : DomainValueExpr)
| Size (c : CollectionExpr)
with DomainValueExpr : Type :=
| mk_domain_value (domain : Domain.t) (expr : ValueExpr) (filter : option Node)
with ValueExpr : Type :=
| Item
| VProjection (l : Lhs.t)
| VNumber (e : NumberExpr)
with Rhs : Type :=
| RNumber (e : NumberExpr)
| RegexStr (s : bytes)
| RMoniker (m : Moniker.t)
| Str (s : bytes)
| RPathPattern (p : Path.Pattern)
| RProjection (l : Lhs.t)
| CurrentProjection (l : Lhs.t)
| RPairProjection (p : PairProjection)
| RCollection (c : CollectionExpr).

(** ** Which rules need the syntax tree: [AstAnalysis] *)

Record AstAnalysis : Set := mk_analysis {
  uses_ast : bool;
  kind_names : list bytes;
  unsupported : option bytes
}.

Definition reject (reason : bytes) (s : AstAnalysis) : AstAnalysis :=
  match unsupported s with
  | None => mk_analysis (uses_ast s) (kind_names s) (Some reason)
  | Some _ => s
  end.

Definition set_uses_ast (b : bool) (s : AstAnalysis) : AstAnalysis :=
  mk_analysis (uses_ast s || b) (kind_names s) (unsupported s).

Definition push_kind (k : bytes) (s : AstAnalysis) : AstAnalysis :=
  mk_analysis (uses_ast s) (kind_names s ++ [k]) (unsupported s).

(** [if c { f(self) }] *)
Definition when (c : bool) (f : AstAnalysis -> AstAnalysis) (s : AstAnalysis) : AstAnalysis :=
  if c then f s else s.

(** [LhsExpr::ast_filter_projection] *)
Definition ast_filter_projection (l : LhsExpr) : option Lhs.t :=
  match l with
  | Attr l | Number (NProjection l) => if Lhs.is_ast_projection l then Some l else None
  | _ => None
  end.

(** [Rhs::ast_filter_projection_kind] *)
Definition ast_filter_projection_kind (r : Rhs) : option Lhs.ProjectionKind :=
  match r with
  | Str _ | RegexStr _ => Some Lhs.KText
  | RNumber (NLiteral _) => Some Lhs.KNumber
  | RNumber (NProjection l) | RProjection l =>
      if Lhs.is_ast_projection l then Some (Lhs.projection_kind l) else None
  | _ => None
  end.

Fixpoint visit_collection (c : CollectionExpr) (s : AstAnalysis) : AstAnalysis :=
  match c with
  | CProjection p =>
      when (Domain.contains_ast (cp_domain p))
        (fun s => reject (bs "collection projections do not support the ast domain")
                    (set_uses_ast true s)) s
  | CPairProjection p =>
      when (Domain.contains_ast (pcp_domain p))
        (fun s => reject (bs "pair projections do not support the ast domain")
                    (set_uses_ast true s)) s
  | Unique inner => visit_collection inner s
  | Binary _ l1 l2 => visit_collection l2 (visit_collection l1 s)
  end.

Definition visit_layout (l : VerticalLayout) (ast_filter : bool) (s : AstAnalysis) : AstAnalysis :=
  let s := when ast_filter (reject (bs "vertical_layout is not supported in an AST filter")) s in
  when (Domain.contains_ast (layout_domain l))
    (fun s => reject (bs "vertical_layout does not support the ast domain")
                (set_uses_ast true s)) s.

(** The checks of [visit_atom] on an atom of an AST filter. *)
Definition check_filter_atom (a : Atom) (s : AstAnalysis) : AstAnalysis :=
  let '(mk_atom lhs0 op rhs _ _) := a in
  let lhs := ast_filter_projection lhs0 in
  let rhs_kind := ast_filter_projection_kind rhs in
  let s :=
    match lhs, rhs_kind with
    | Some l, Some k =>
        if negb (Lhs.accepts_op l op)
        then reject (bs "operator is not supported for this AST projection") s
        else if negb (bool_decide (Lhs.projection_kind l = k))
        then reject (bs "AST filter operands must have the same scalar type") s
        else s
    | _, _ =>
        reject (bs "AST filters only support AST scalar projections and literals") s
    end in
  match lhs0 with
  | Attr Lhs.Kind | Attr Lhs.ParentKind =>
      match rhs with
      | Str kind => push_kind kind s
      | RegexStr _ =>
          reject (bs "regex comparisons are not supported for AST kind projections") s
      | _ => s
      end
  | _ => s
  end.

Fixpoint visit_node (node : Node) (ast_filter nested : bool) (s : AstAnalysis) : AstAnalysis :=
  match node with
  | NAtom a => visit_atom a ast_filter nested s
  | And nodes | Or nodes =>
      fold_left (fun s n => visit_node n ast_filter nested s) nodes s
  | Not n => visit_node n ast_filter nested s
  | Implies l1 l2 =>
      visit_node l2 ast_filter nested (visit_node l1 ast_filter nested s)
  | Quantifier _ domain filter =>
      let s := when ast_filter
                 (reject (bs "nested quantifiers are not supported in an AST filter")) s in
      let ast_domain := Domain.contains_ast domain in
      let s := set_uses_ast ast_domain s in
      let s := when (ast_domain && nested)
                 (reject (bs "ast cannot be nested under another domain")) s in
      let s := when (ast_domain && negb (bool_decide (domain = Domain.Ast)))
                 (reject (bs "ast must be used as a direct quantifier domain")) s in
      visit_node filter ast_domain (nested || negb ast_domain) s
  | NVerticalLayout layout => visit_layout layout ast_filter s
  | Require_ _ => when ast_filter (reject (bs "require is not supported in an AST filter")) s
  end
with visit_atom (a : Atom) (ast_filter nested : bool) (s : AstAnalysis) : AstAnalysis :=
  match a with
  | mk_atom lhs _ rhs _ _ =>
      let s := when ast_filter (check_filter_atom a) s in
      let s := visit_lhs lhs nested s in
      visit_rhs rhs nested s
  end
with visit_lhs (l : LhsExpr) (nested : bool) (s : AstAnalysis) : AstAnalysis :=
  match l with
  | Number e => visit_number e nested s
  | Collection c => visit_collection c s
  | Mode v => visit_domain_value v nested s
  | Attr _ | LPairProjection _ | SegmentOf _ _ => s
  end
with visit_rhs (r : Rhs) (nested : bool) (s : AstAnalysis) : AstAnalysis :=
  match r with
  | RNumber e => visit_number e nested s
  | RCollection c => visit_collection c s
  | _ => s
  end
with visit_number (e : NumberExpr) (nested : bool) (s : AstAnalysis) : AstAnalysis :=
  match e with
  | Count domain filter =>
      let ast_domain := Domain.contains_ast domain in
      let s := set_uses_ast ast_domain s in
      let s := when (ast_domain && nested)
                 (reject (bs "ast cannot be nested under another domain")) s in
      let s := when (ast_domain && negb (bool_decide (domain = Domain.Ast)))
                 (reject (bs "ast must be used as a direct count domain")) s in
      match filter with
      | Some f => visit_node f ast_domain (nested || negb ast_domain) s
      | None => s
      end
  | Aggregate _ domain expr _ =>
      let s := when (Domain.contains_ast domain)
                 (fun s => reject (bs "aggregates do not support the ast domain")
                             (set_uses_ast true s)) s in
      visit_number expr true s
  | Entropy v => visit_domain_value v nested s
  | Size c => visit_collection c s
  | NLiteral _ | NProjection _ | Metric _ _ => s
  end
with visit_domain_value (v : DomainValueExpr) (nested : bool) (s : AstAnalysis) : AstAnalysis :=
  match v with
  | mk_domain_value domain expr filter =>
      let ast_domain := Domain.contains_ast domain in
      let s := set_uses_ast ast_domain s in
      let s := when (ast_domain && nested)
                 (reject (bs "ast cannot be nested under another domain")) s in
      let s := when ast_domain
                 (reject (bs "mode and entropy do not support the ast domain")) s in
      let s := match filter with Some f => visit_node f ast_domain true s | None => s end in
      match expr with VNumber e => visit_number e true s | _ => s end
  end.

(** [Node::ast_kind_names] *)
Definition ast_kind_names (n : Node) : res bytes (option (list bytes)) :=
  let analysis := visit_node n false false (mk_analysis false [] None) in
  match unsupported analysis with
  | Some reason => Err reason
  | None => Ok (if uses_ast analysis then Some (kind_names analysis) else None)
  end.

(** ** Inline project selectors (expr/mod.rs) *)

Definition atom_is_inline_project_selector (a : Atom) : bool :=
  match a with
  | mk_atom (Attr (Lhs.Moniker | Lhs.SourceMoniker | Lhs.TargetMoniker)) _
      (RPathPattern _ | RMoniker _) _ _ => true
  | _ => false
  end.

Fixpoint node_contains_inline_project_selector (n : Node) : bool :=
  match n with
  | NAtom (mk_atom lhs op rhs raw regex) =>
      atom_is_inline_project_selector (mk_atom lhs op rhs raw regex) ||
      lhs_contains_inline_project_selector lhs
  | And nodes | Or nodes => existsb node_contains_inline_project_selector nodes
  | Not n => node_contains_inline_project_selector n
  | Implies l1 l2 =>
      node_contains_inline_project_selector l1 || node_contains_inline_project_selector l2
  | Quantifier _ _ filter => node_contains_inline_project_selector filter
  | Require_ _ | NVerticalLayout _ => false
  end
with lhs_contains_inline_project_selector (l : LhsExpr) : bool :=
  match l with
  | Number e => number_contains_inline_project_selector e
  | Mode (mk_domain_value _ _ filter) =>
      match filter with Some f => node_contains_inline_project_selector f | None => false end
  | Attr _ | Collection _ | LPairProjection _ | SegmentOf _ _ => false
  end
with number_contains_inline_project_selector (e : NumberExpr) : bool :=
  match e with
  | Count _ filter =>
      match filter with Some f => node_contains_inline_project_selector f | None => false end
  | Aggregate _ _ expr _ => number_contains_inline_project_selector expr
  | Entropy (mk_domain_value _ _ filter) =>
      match filter with Some f => node_contains_inline_project_selector f | None => false end
  | NLiteral _ | NProjection _ | Metric _ _ | Size _ => false
  end.

End ast.
End Ast.
