(* ===== verification/DslCursor.v ===== *)
(** The cursor of the rule parser (src/crates/check/src/check/expr/cursor.rs):
    a position in the text, with the slices of the text that Rust checks for
    character boundaries.

    The nesting depth that [find_atom_end] counts in an [i32] is bounded by
    the length of the text and is kept as an integer.

    The cursor of the rule parser never leaves the text: every step keeps the
    position on a character boundary, and every token it takes is UTF-8. *)

From S2P Require Import Prelude.
From S2P Require Import RustStr.
From S2P Require Import StrFacts.

Module Cursor.

(** expr/error.rs *)
Inductive ParseError : Set := BadExpr (expr msg : bytes).

(** [Display for ParseError] *)
Definition error_display (e : ParseError) : bytes :=
  match e with BadExpr expr msg => bs "expression `" ++ expr ++ bs "`: " ++ msg end.

Record ParserState : Set := mk_state {
  input : bytes;
  pos : nat;
  scheme : bytes;
  allowed_kinds : list bytes;
  raw : bytes;
  pair_bindings_allowed : bool
}.

(** [ParseResult<T>], and the results of the slices *)
Abbreviation M A := (res ParseError A).
Abbreviation P A := (res ParseError (A * ParserState)).

Definition new (input scheme : bytes) (allowed_kinds : list bytes) (raw : bytes) : ParserState :=
  mk_state input 0 scheme allowed_kinds raw false.

Definition set_pos (n : nat) (st : ParserState) : ParserState :=
  mk_state (input st) n (scheme st) (allowed_kinds st) (raw st) (pair_bindings_allowed st).

Definition with_pair_bindings_allowed (st : ParserState) (allowed : bool) : ParserState :=
  mk_state (input st) (pos st) (scheme st) (allowed_kinds st) (raw st) allowed.

Definition TWO_CHAR_OPS : list bytes :=
  [bs "<="; bs ">="; bs "!="; bs "=~"; bs "!~"; bs "<@"; bs "@>"; bs "?="].
Definition INFIX_KEYWORDS : list bytes := [bs "AND"; bs "OR"; bs "=>"; bs "disjoint"].
Definition ONE_CHAR_OPS : list bytes := [bs "<"; bs ">"; bs "="; bs "~"].

(** The first character is ASCII white space (or, for [or_paren], a ['(']):
    the first character of a string is an ASCII one when its first byte is. *)
Definition head_is (f : ascii -> bool) (s : bytes) : bool :=
  match s with c :: _ => f c | [] => false end.

Definition ws_or_paren (c : ascii) : bool := is_ascii_whitespace c || ceq c "("%char.

Definition keyword_at {E} (input : bytes) (idx : nat) (keyword : bytes) : res E bool :=
  here ← str_from input idx;
  if negb (starts_with keyword here) then mret false
  else
    before ← str_to input idx;
    after ← str_from input (idx + length keyword);
    let before_ok := match last before with Some c => is_ascii_whitespace c | None => false end in
    let after_ok := head_is ws_or_paren after in
    mret (before_ok && after_ok).

Definition lhs_token_end (input : bytes) : option nat :=
  let start := scan_while is_ascii_whitespace input 0 in
  let i := scan_while
             (fun c => is_ascii_alphabetic c || ceq c "_"%char || ceq c "."%char) input start in
  if i =? start then None
  else if bool_decide (input !! i = Some "("%char) then
    let i := scan_while (fun c => negb (ceq c ")"%char)) input (i + 1) in
    if i =? length input then None else Some (i + 1)
  else Some i.

Definition operator_at (input : bytes) : option (bytes * nat) :=
  match List.find (fun op => starts_with op input) (TWO_CHAR_OPS ++ ONE_CHAR_OPS) with
  | Some op => Some (op, length op)
  | None => None
  end.

Definition rest {E} (st : ParserState) : res E bytes := str_from (input st) (pos st).

Definition is_at_end (st : ParserState) : bool := length (input st) <=? pos st.

Definition bail (st : ParserState) (msg : bytes) : ParseError := BadExpr (raw st) msg.

Definition skip_ws (st : ParserState) : ParserState :=
  set_pos (scan_while is_ascii_whitespace (input st) (pos st)) st.

Definition peek_byte (st : ParserState) : option ascii := input st !! pos st.

Definition peek_is (st : ParserState) (c : ascii) : bool := bool_decide (peek_byte st = Some c).

Definition at_prefix {E} (st : ParserState) (prefix : bytes) : res E bool :=
  r ← rest st; mret (starts_with prefix r).

Definition advance (st : ParserState) (len : nat) : ParserState := set_pos (pos st + len) st.

Definition eat_keyword {E} (st : ParserState) (kw : bytes) : res E (bool * ParserState) :=
  remaining ← rest st;
  match strip_prefix kw remaining with
  | Some after =>
      let next_ok := match after with [] => true | _ => head_is ws_or_paren after end in
      if next_ok then mret (true, advance st (length kw)) else mret (false, st)
  | None => mret (false, st)
  end.

Definition operator {E} (st : ParserState) : res E (option (bytes * nat)) :=
  r ← rest st; mret (operator_at r).

(** The scanners [take_*]: the text a loop passes over. *)
Definition take_scan {E} (st : ParserState) (f : ascii -> bool) : res E (bytes * ParserState) :=
  let start := pos st in
  let st := set_pos (scan_while f (input st) start) st in
  tok ← str_slice (input st) start (pos st);
  mret (tok, st).

Definition take_until_byte {E} (st : ParserState) (needle : ascii) :
    res E (option (bytes * ParserState)) :=
  let start := pos st in
  let st := set_pos (scan_while (fun c => negb (ceq c needle)) (input st) start) st in
  if pos st =? length (input st) then mret None
  else
    tok ← str_slice (input st) start (pos st);
    mret (Some (tok, st)).

Definition take_ascii_digits (st : ParserState) : ParserState :=
  set_pos (scan_while is_ascii_digit (input st) (pos st)) st.

Definition slice_from {E} (st : ParserState) (start : nat) : res E bytes :=
  str_slice (input st) start (pos st).

Definition take_number_literal {E} (st : ParserState) : res E (bytes * ParserState) :=
  let start := pos st in
  let st := take_ascii_digits st in
  let st := if peek_is st "."%char then take_ascii_digits (advance st 1) else st in
  tok ← slice_from st start;
  mret (tok, st).

Definition take_projection_token {E} (st : ParserState) : res E (bytes * ParserState) :=
  take_scan st (fun c => is_ascii_alphabetic c || ceq c "_"%char || ceq c "."%char).

Definition take_alpha_token {E} (st : ParserState) : res E (bytes * ParserState) :=
  take_scan st is_ascii_alphabetic.

Definition take_projection_segment {E} (st : ParserState) : res E (bytes * ParserState) :=
  take_scan st (fun c => is_ascii_alphanumeric c || ceq c "_"%char).

Definition take_domain_ident {E} (st : ParserState) : res E (bytes * ParserState) :=
  take_scan st (fun c => is_ascii_alphanumeric c || ceq c "_"%char || ceq c ":"%char).

(** [INFIX_KEYWORDS.iter().any(|k| keyword_at(input, i, k))] *)
Fixpoint any_keyword_at {E} (input : bytes) (i : nat) (kws : list bytes) : res E bool :=
  match kws with
  | [] => mret false
  | k :: kws =>
      b ← keyword_at input i k;
      if (b : bool) then mret true else any_keyword_at input i kws
  end.

Definition boundary_at {E} (input : bytes) (i : nat) : res E bool :=
  c ← index input i;
  if negb (is_ascii_whitespace c) then mret false
  else any_keyword_at input (i + 1) INFIX_KEYWORDS.

(** The [while i < bytes.len()] loop of [find_atom_end]; [suf] is what
    [bytes] holds from [i] on. *)
Fixpoint atom_end_loop {E} (input : bytes) (suf : bytes) (i : nat) (depth : Z)
    (in_string : option ascii) : res E nat :=
  match suf with
  | [] => mret i
  | c :: suf =>
      match in_string with
      | Some q => atom_end_loop input suf (i + 1) depth (if ceq c q then None else in_string)
      | None =>
          if ceq c "'"%char || ceq c dquote
          then atom_end_loop input suf (i + 1) depth (Some c)
          else if ceq c "("%char then atom_end_loop input suf (i + 1) (depth + 1)%Z None
          else if ceq c ")"%char then
            if (depth =? 0)%Z then mret i
            else atom_end_loop input suf (i + 1) (depth - 1)%Z None
          else
            stop ← (if (depth =? 0)%Z && is_char_boundary input i
                    then boundary_at input i else mret false);
            if (stop : bool) then mret i
            else atom_end_loop input suf (i + 1) depth None
      end
  end.

Definition find_atom_end {E} (st : ParserState) : res E nat :=
  atom_end_loop (input st) (drop (pos st) (input st)) (pos st) 0 None.

Definition take_atom_text {E} (st : ParserState) : res E (nat * bytes * ParserState) :=
  let start := pos st in
  e ← find_atom_end st;
  tok ← str_slice (input st) start e;
  mret (start, tok, set_pos e st).

Definition peek_atom_text {E} (st : ParserState) : res E (nat * bytes) :=
  let start := pos st in
  e ← find_atom_end st;
  tok ← str_slice (input st) start e;
  mret (start, tok).

End Cursor.

Module CursorFacts.
Import Cursor StrFacts.

(** [st] reads [inp] at or after [lo], on a character boundary. *)
Record ok (K : list bytes) (inp : bytes) (lo : nat) (b : bool) (st : ParserState) : Prop := mk_ok {
  ok_input : input st = inp;
  ok_utf8 : utf8 inp;
  ok_pos : is_char_boundary inp (pos st) = true;
  ok_lo : lo <= pos st;
  ok_kinds : allowed_kinds st = K;
  ok_pairs : pair_bindings_allowed st = b
}.

Section cursor.
Context (K : list bytes).
Context (inp : bytes).

Lemma ok_len lo b st : ok K inp lo b st -> lo <= pos st <= length inp.
Proof. intros []. split; [done | by apply boundary_le]. Qed.

Lemma ok_le lo lo' b st : ok K inp lo b st -> lo' <= lo -> ok K inp lo' b st.
Proof. intros [] ?. split; try done. lia. Qed.

Lemma ok_self lo b st : ok K inp lo b st -> ok K inp (pos st) b st.
Proof. by intros []. Qed.

Lemma ok_set_pos lo lo' b st n :
  ok K inp lo b st -> is_char_boundary inp n = true -> lo' <= n -> ok K inp lo' b (set_pos n st).
Proof. by intros []. Qed.

Lemma ok_with_pairs lo b b' st :
  ok K inp lo b st -> ok K inp lo b' (with_pair_bindings_allowed st b').
Proof. by intros []. Qed.

Lemma ok_skip_ws lo b st : ok K inp lo b st -> ok K inp lo b (skip_ws st).
Proof.
  intros H. pose proof H as [Hi Hu Hp Hl _ _]. unfold skip_ws. rewrite Hi. eapply ok_set_pos; [done | |].
  - apply scan_boundary; auto using ascii_class_ws.
  - etrans; [done | apply scan_ge].
Qed.

Lemma ok_advance lo b st c :
  ok K inp lo b st -> peek_byte st = Some c -> is_ascii c = true -> ok K inp (S lo) b (advance st 1).
Proof.
  intros H Hc Ha. pose proof H as [Hi Hu Hp Hl _ _]. unfold peek_byte in Hc. rewrite Hi in Hc.
  eapply ok_set_pos; [done | by eapply boundary_ascii | lia].
Qed.

Lemma ok_advance_is lo b st c :
  ok K inp lo b st -> peek_is st c = true -> is_ascii c = true -> ok K inp (S lo) b (advance st 1).
Proof. intros H Hc. apply bool_decide_eq_true in Hc. by eapply ok_advance. Qed.

Lemma rest_ok {E} lo b st :
  ok K inp lo b st -> rest (E:=E) st = Ok (drop (pos st) inp) /\ utf8 (drop (pos st) inp).
Proof. intros [Hi Hu Hp _ _ _]. unfold rest. rewrite Hi. by apply str_from_ok. Qed.

Lemma at_prefix_ok {E} lo b st p :
  ok K inp lo b st -> at_prefix (E:=E) st p = Ok (starts_with p (drop (pos st) inp)).
Proof. intros H. unfold at_prefix. by rewrite (proj1 (rest_ok _ _ _ H)). Qed.

Lemma ok_advance_prefix lo b st p q :
  ok K inp lo b st -> starts_with (p ++ q) (drop (pos st) inp) = true -> forallb is_ascii p = true ->
  ok K inp (lo + length p) b (advance st (length p)).
Proof.
  intros H Hs Ha. pose proof H as [Hi Hu Hp Hl _ _]. eapply ok_set_pos; [done | | lia].
  apply boundary_prefix; try done. by eapply starts_with_shorter.
Qed.

Lemma ok_advance_all lo b st p :
  ok K inp lo b st -> starts_with p (drop (pos st) inp) = true -> forallb is_ascii p = true ->
  ok K inp (lo + length p) b (advance st (length p)).
Proof.
  intros H Hs. eapply ok_advance_prefix; [done |]. by rewrite (app_nil_r p).
Qed.

Lemma eat_keyword_ok {E} lo b st kw :
  ok K inp lo b st -> forallb is_ascii kw = true ->
  post (eat_keyword (E:=E) st kw)
    (fun r => ok K inp (if r.1 then lo + length kw else lo) b r.2).
Proof.
  intros H Ha. unfold eat_keyword. rewrite (proj1 (rest_ok _ _ _ H)), ret_bind.
  destruct (strip_prefix kw _) as [after |] eqn:Hs; [| exact H].
  destruct (match after with [] => _ | _ => _ end); [| exact H]. cbn [post fst snd].
  apply ok_advance_all; [done | | done]. apply strip_prefix_Some in Hs. rewrite Hs.
  apply starts_with_spec. by exists after.
Qed.

Lemma slice_ok {E} lo b st start :
  ok K inp lo b st -> is_char_boundary inp start = true -> start <= pos st ->
  exists t, slice_from (E:=E) st start = Ok t /\ utf8 t /\ length t = pos st - start.
Proof.
  intros [Hi Hu Hp _ _ _] Hs Hle. unfold slice_from. rewrite Hi.
  destruct (str_slice_ok (E:=E) inp start (pos st) Hu Hs Hp Hle) as (t & Ht & Hut & Hl & _). eauto.
Qed.

Lemma take_scan_ok {E} lo b st f :
  ok K inp lo b st -> ascii_class f ->
  post (take_scan (E:=E) st f) (fun r => ok K inp (lo + length r.1) b r.2 /\ utf8 r.1).
Proof.
  intros H Hf. pose proof H as [Hi Hu Hp Hl _ _]. unfold take_scan. cbn [pos set_pos input].
  rewrite Hi.
  destruct (str_slice_ok (E:=E) inp (pos st) (scan_while f inp (pos st)))
    as (t & -> & Ht & Hlen & _); [done | done | by apply scan_boundary | apply scan_ge |].
  rewrite ret_bind. cbn [post fst snd]. split; [| done].
  eapply ok_set_pos; [done | by apply scan_boundary |].
  cbn [fst snd]. pose proof (scan_ge f inp (pos st)). lia.
Qed.

Lemma take_until_ok {E} lo b st needle :
  ok K inp lo b st -> is_ascii needle = true ->
  post (take_until_byte (E:=E) st needle)
    (fun o => match o with
              | Some (tok, st') => ok K inp lo b st' /\ utf8 tok /\ peek_byte st' = Some needle
              | None => True
              end).
Proof.
  intros H Hn. pose proof H as [Hi Hu Hp Hl _ _]. unfold take_until_byte. cbn [pos set_pos input].
  rewrite Hi. set (j := scan_while _ inp (pos st)).
  assert (pos st <= length inp) as Hle by (by apply boundary_le).
  assert (is_char_boundary inp j = true) as Hj by (by apply scan_until_boundary).
  pose proof (scan_stop inp (pos st) (fun x => negb (ceq x needle)) Hle) as Hstop. fold j in Hstop.
  destruct (j =? length inp) eqn:He; [done |]. bool_inv.
  destruct (str_slice_ok (E:=E) inp (pos st) j) as (t & -> & Ht & _);
    [done | done | done | apply scan_ge |].
  rewrite ret_bind. cbn [post]. split_and!; [| done |].
  - eapply ok_set_pos; [done | done | etrans; [exact Hl | apply scan_ge]].
  - unfold peek_byte. cbn [set_pos input pos]. rewrite Hi.
    destruct (inp !! j) as [x |]; [| congruence]. bool_inv. apply ceq_true in Hstop. by subst.
Qed.

Lemma ok_digits lo b st : ok K inp lo b st -> ok K inp lo b (take_ascii_digits st).
Proof.
  intros H. pose proof H as [Hi Hu Hp Hl _ _]. unfold take_ascii_digits. rewrite Hi.
  eapply ok_set_pos; [done | | etrans; [done | apply scan_ge]].
  apply scan_boundary; auto using ascii_class_digit.
Qed.

Lemma take_number_literal_ok {E} lo b st :
  ok K inp lo b st ->
  post (take_number_literal (E:=E) st) (fun r => ok K inp lo b r.2 /\ utf8 r.1).
Proof.
  intros H. unfold take_number_literal.
  set (st' := if peek_is _ _ then _ else _).
  assert (ok K inp (pos st) b st') as H'.
  { apply ok_self in H. unfold st'. destruct (peek_is _ _) eqn:Hd; [| by apply ok_digits].
    apply ok_digits. eapply ok_le; [eapply ok_advance_is; [by apply ok_digits | done | done] | lia]. }
  destruct (slice_ok (E:=E) _ _ _ (pos st) H') as (t & -> & Ht & _);
    [by destruct H | by destruct H' |]. rewrite ret_bind. cbn [post fst snd].
  split; [| done]. eapply ok_le; [done |]. by destruct H.
Qed.

Lemma keyword_at_ok {E} idx kw :
  utf8 inp -> is_char_boundary inp idx = true -> forallb is_ascii kw = true ->
  post (keyword_at (E:=E) inp idx kw)
    (fun r => r = true -> starts_with kw (drop idx inp) = true).
Proof.
  intros Hu Hi Ha. unfold keyword_at. rewrite (proj1 (str_from_ok _ _ Hu Hi)), ret_bind.
  destruct (starts_with kw _) eqn:Hs; [| done]. cbn [negb].
  rewrite (proj1 (str_to_ok _ _ Hu Hi)), ret_bind.
  rewrite (proj1 (str_from_ok _ _ Hu (boundary_prefix _ _ _ Hu Hi Ha Hs))), ret_bind. done.
Qed.

Lemma any_keyword_at_ok {E} idx kws :
  utf8 inp -> is_char_boundary inp idx = true ->
  Forall (fun kw => forallb is_ascii kw = true) kws ->
  post (any_keyword_at (E:=E) inp idx kws) (fun _ => True).
Proof.
  intros Hu Hi. induction 1 as [| kw kws Ha _ IH]; cbn [any_keyword_at]; [done |].
  eapply post_bind; [by apply keyword_at_ok |]. intros [] _; [done | exact IH].
Qed.

Lemma boundary_at_ok {E} i :
  utf8 inp -> i < length inp -> post (boundary_at (E:=E) inp i) (fun _ => True).
Proof.
  intros Hu Hi. unfold boundary_at, index.
  destruct (inp !! i) as [c |] eqn:Hc; [| apply lookup_ge_None in Hc; lia]. rewrite ret_bind.
  destruct (is_ascii_whitespace c) eqn:Hw; [| done]. cbn [negb]. apply any_keyword_at_ok; [done | |].
  - eapply boundary_ascii; eauto using ascii_class_ws.
  - repeat constructor.
Qed.

Lemma atom_end_ok {E} suf i depth q :
  utf8 inp -> i <= length inp -> suf = drop i inp ->
  post (atom_end_loop (E:=E) inp suf i depth q)
    (fun e => i <= e /\ is_char_boundary inp e = true).
Proof.
  intros Hu. revert i depth q. induction suf as [| c suf IH]; intros i depth q Hi Hs;
    cbn [atom_end_loop].
  - apply (f_equal length) in Hs. rewrite length_drop in Hs. cbn in Hs.
    replace i with (length inp) by lia. split; [done | apply boundary_len].
  - assert (inp !! i = Some c) as Hc by (rewrite <- (Nat.add_0_r i), <- lookup_drop, <- Hs; done).
    pose proof (lookup_lt_Some _ _ _ Hc) as Hlt.
    assert (suf = drop (i + 1) inp) as Hs' by (by rewrite <- drop_drop, <- Hs).
    assert (forall d q', post (atom_end_loop (E:=E) inp suf (i + 1) d q')
      (fun e => i <= e /\ is_char_boundary inp e = true)) as Hrec.
    { intros d q'. eapply post_mono; [apply IH; [lia | done] |]. cbv beta. intros e [? ?].
      split; [lia | done]. }
    destruct q as [q |]; [apply Hrec |].
    destruct (_ || _); [apply Hrec |]. destruct (ceq c "("%char); [apply Hrec |].
    destruct (ceq c ")"%char) eqn:Hp.
    + destruct (depth =? 0)%Z; [| apply Hrec]. apply ceq_true in Hp as ->.
      split; [done | by eapply boundary_ascii].
    + eapply (post_bind _ _ (fun s => s = true -> is_char_boundary inp i = true)).
      * destruct ((depth =? 0)%Z && is_char_boundary inp i) eqn:Hb; [| done]. bool_inv.
        eapply post_mono; [by apply boundary_at_ok |]. done.
      * intros [] Hb; [| apply Hrec]. split; [done | by apply Hb].
Qed.

Lemma find_atom_end_ok {E} lo b st :
  ok K inp lo b st ->
  post (find_atom_end (E:=E) st) (fun e => pos st <= e /\ is_char_boundary inp e = true).
Proof.
  intros [Hi Hu Hp _ _ _]. unfold find_atom_end. rewrite Hi.
  apply atom_end_ok; [done | by apply boundary_le | done].
Qed.

Lemma peek_atom_text_ok {E} lo b st :
  ok K inp lo b st ->
  post (peek_atom_text (E:=E) st) (fun r =>
    r.1 = pos st /\ utf8 r.2 /\ length r.2 <= length inp - lo).
Proof.
  intros H. pose proof H as [Hi Hu Hp Hl _ _]. unfold peek_atom_text.
  eapply post_bind; [by eapply find_atom_end_ok |]. intros e [Hle He]. rewrite Hi.
  destruct (str_slice_ok (E:=E) inp (pos st) e) as (t & -> & Ht & Hlen & _); [done.. |].
  rewrite ret_bind. apply boundary_le in He. refine (conj _ (conj _ _)); [done | done |].
  cbn [fst snd]. lia.
Qed.

Lemma take_atom_text_ok {E} lo b st :
  ok K inp lo b st ->
  post (take_atom_text (E:=E) st) (fun r =>
    ok K inp lo b r.2 /\ utf8 r.1.2 /\ length r.1.2 <= length inp - lo /\ pos st <= pos r.2).
Proof.
  intros H. pose proof H as [Hi Hu Hp Hl _ _]. unfold take_atom_text.
  eapply post_bind; [by eapply find_atom_end_ok |]. intros e [Hle He]. rewrite Hi.
  destruct (str_slice_ok (E:=E) inp (pos st) e) as (t & -> & Ht & Hlen & _); [done.. |].
  rewrite ret_bind. pose proof (boundary_le _ _ He).
  refine (conj _ (conj _ (conj _ _))); cbn [fst snd set_pos pos]; [| done | lia | done].
  eapply ok_set_pos; [done | done | lia].
Qed.

Lemma operator_at_spec s op n :
  operator_at s = Some (op, n) ->
  n = length op /\ starts_with op s = true /\ forallb is_ascii op = true /\ 1 <= n.
Proof.
  unfold operator_at. destruct (List.find _ _) as [op' |] eqn:Hf; [| done]. intros [= -> <-].
  apply find_some in Hf as [Hin Hs]. split_and!; [done | done | |].
  - assert (Forall (fun o => forallb is_ascii o = true) (TWO_CHAR_OPS ++ ONE_CHAR_OPS)) as Hall
      by (repeat constructor).
    rewrite Forall_forall in Hall. apply Hall. by apply list_elem_of_In.
  - assert (Forall (fun o => 1 <= length o) (TWO_CHAR_OPS ++ ONE_CHAR_OPS)) as Hall
      by (repeat constructor; vm_compute; lia).
    rewrite Forall_forall in Hall. apply Hall. by apply list_elem_of_In.
Qed.

Lemma operator_ok {E} lo b st :
  ok K inp lo b st ->
  post (operator (E:=E) st) (fun o =>
    match o with Some (op, n) => ok K inp (S lo) b (advance st n) | None => True end).
Proof.
  intros H. unfold operator. rewrite (proj1 (rest_ok _ _ _ H)), ret_bind. cbn [post].
  destruct (operator_at _) as [[op n] |] eqn:Ho; [| done].
  apply operator_at_spec in Ho as (-> & Hs & Ha & Hn).
  eapply ok_le; [by apply ok_advance_all | lia].
Qed.

End cursor.

End CursorFacts.
