(* ===== verification/DslAtom.v ===== *)
(** The parts of the rule parser that do not call it back
    (src/crates/check/src/check/expr/): pair bindings (pairs.rs), class
    metrics (metrics.rs), the type checks and the splitting of atoms
    (atom.rs), the vocabulary of numeric measures (number.rs), and the paths of
    collection projections (collection.rs). *)

From S2P Require Import Prelude.
From S2P Require Import RustStr.
From S2P Require Import Moniker.
From S2P Require Import Uri.
From S2P Require Import Path.
From S2P Require Import DslAst.
From S2P Require Import DslCursor.

Module DslAtom.
Import Cursor Ast.
Section atom.
Context {RE : RegexEngine}.

(** ** pairs.rs *)

Definition pair_projection_lhs (projection : bytes) : option Lhs.t :=
  if beq projection (bs "self") then Some Lhs.Moniker
  else Lhs.from_projection_name projection.

Definition parse_pair_projection (s full : bytes) (pair_bindings_allowed : bool) :
    M (option PairProjection) :=
  let s := trim s in
  let '(side_raw, projection_raw) := default (s, bs "self") (split_once "."%char s) in
  match (if beq side_raw (bs "a") then Some A
         else if beq side_raw (bs "b") then Some B else None) with
  | None => mret None
  | Some side =>
      if negb pair_bindings_allowed
      then Err (BadExpr full (bs "pair binding `" ++ side_raw ++
                              bs "` is only valid inside `pairs(...)` filters"))
      else if beq projection_raw []
      then Err (BadExpr full (bs "pair binding `" ++ s ++ bs "` needs a projection after `.`"))
      else
        lhs ← ok_or (pair_projection_lhs projection_raw)
                (BadExpr full (bs "unknown pair binding projection `" ++ s ++ bs "`"));
        mret (Some (mk_pair_projection side lhs))
  end.

(** ** metrics.rs *)

Definition METRIC_NAMES : list (bytes * MetricKind) :=
  [(bs "fan_out", FanOut); (bs "fan_in", FanIn); (bs "lcom4", Lcom4); (bs "cbo", Cbo);
   (bs "rfc", Rfc); (bs "wmc", Wmc); (bs "dit", Dit); (bs "noc", Noc)].

Definition metric_prefix (st : ParserState) : M (option (bytes * MetricKind)) :=
  r ← rest st;
  mret (List.find (fun e => match strip_prefix e.1 r with
                            | Some after => starts_with (bs "(") after
                            | None => false
                            end) METRIC_NAMES).

Definition starts_metric_call (st : ParserState) : M bool :=
  p ← metric_prefix st; mret (bool_decide (is_Some p)).

Definition parse_metric_call_body (st : ParserState) (name : bytes) : P Binding :=
  if negb (peek_is st "("%char)
  then Err (bail st (bs "expected `(` after `" ++ name ++ bs "`"))
  else
    let st := advance st 1 in
    let st := skip_ws st in
    '(raw_tok, st) ← take_alpha_token st;
    binding ← (if beq raw_tok (bs "self") then mret Self_
               else if beq raw_tok (bs "each") then mret Each
               else Err (BadExpr (raw st) (bs "unknown metric binding `" ++ raw_tok ++
                                           bs "` (allowed: self, each)")));
    let st := skip_ws st in
    if negb (peek_is st ")"%char)
    then Err (bail st (bs "missing `)` for `" ++ name ++ bs "` at byte " ++ show_nat (pos st)))
    else mret (binding, advance st 1).

Definition try_parse_metric_expr (st : ParserState) : P (option NumberExpr) :=
  p ← metric_prefix st;
  match p with
  | None => mret (None, st)
  | Some (name, kind) =>
      let st := advance st (length name) in
      '(binding, st) ← parse_metric_call_body st name;
      mret (Some (Metric kind binding), st)
  end.

(** ** number.rs: names of measures *)

Definition SUPPORTED_NUMBER_MEASURES : bytes :=
  bs "count, sum, max, min, avg, median, percentile, stddev, var, cv, gini, entropy, size, fan_out, fan_in, lcom4, cbo, rfc, wmc, dit, noc".

Definition unknown_numeric_measure_message (name : bytes) : bytes :=
  bs "unknown numeric measure `" ++ name ++ bs "` (supported: " ++
  SUPPORTED_NUMBER_MEASURES ++ bs ")".

Definition unsupported_measure_message (raw : bytes) : option bytes :=
  '(name, _) ← split_once "("%char raw;
  if beq name [] || negb (forallb (fun b => is_ascii_alphabetic b || ceq b "_"%char) name)
  then None
  else Some (unknown_numeric_measure_message name).

Definition NUMBER_CALLS : list bytes :=
  [bs "count("; bs "sum("; bs "max("; bs "min("; bs "avg("; bs "median("; bs "percentile(";
   bs "stddev("; bs "var("; bs "cv("; bs "gini("; bs "entropy("; bs "size("].

Definition next_starts_number_call (st : ParserState) : M bool :=
  r ← rest st;
  if existsb (fun p => starts_with p r) NUMBER_CALLS then mret true else starts_metric_call st.

Definition AGGREGATE_NAMES : list (bytes * AggregateKind) :=
  [(bs "percentile", Percentile); (bs "median", Median); (bs "stddev", Stddev);
   (bs "sum", Sum); (bs "max", Max); (bs "min", Min); (bs "avg", Avg); (bs "var", Var);
   (bs "cv", Cv); (bs "gini", Gini)].

Definition aggregate_prefix (st : ParserState) : M (option (bytes * AggregateKind)) :=
  r ← rest st;
  mret (List.find (fun e => starts_with (e.1 ++ bs "(") r) AGGREGATE_NAMES).

Definition parse_number_literal (st : ParserState) : P f64 :=
  let start := pos st in
  '(raw_tok, st) ← take_number_literal st;
  if beq raw_tok [] then Err (bail st (bs "expected number at byte " ++ show_nat start))
  else
    number ← map_err (fun e => BadExpr (raw st) (bs "expected number, got `" ++ raw_tok ++
                                                 bs "`: " ++ e)) (parse_f64 raw_tok);
    mret (number, st).

(** ** domain.rs: names of shapes *)

Definition DEF_SHAPE_NAMES : list bytes :=
  [bs "namespace"; bs "type"; bs "callable"; bs "value"; bs "annotation"].

Definition is_def_shape_name (name : bytes) : bool := existsb (beq name) DEF_SHAPE_NAMES.

Definition reject_pair_domain (st : ParserState) (domain : Domain.t) (context : bytes) : M () :=
  if Domain.contains_pair_domain domain
  then Err (BadExpr (raw st) (bs "`pairs(...)` domains are only supported by count/any/all/none, not "
                              ++ context))
  else mret ().

(** ** collection.rs: paths of projections *)

Definition one_of (s : bytes) (l : list bytes) : bool := existsb (beq s) l.

Definition valid_ref_collection_path (path : list bytes) : bool :=
  match path with
  | [] => true
  | [one] =>
      one_of one [bs "kind"; bs "start_line"; bs "end_line"; bs "start_byte"; bs "end_byte";
                  bs "source"; bs "target"]
  | [side; projection] =>
      (beq side (bs "source") || beq side (bs "target")) &&
      one_of projection [bs "signature"; bs "name"; bs "kind"; bs "shape"; bs "visibility";
                         bs "parent"]
  | _ => false
  end.

Definition valid_def_collection_path (path : list bytes) : bool :=
  match path with
  | [] => true
  | [one] =>
      one_of one [bs "self"; bs "signature"; bs "name"; bs "kind"; bs "shape"; bs "visibility";
                  bs "lines"; bs "start_line"; bs "end_line"; bs "start_byte"; bs "end_byte";
                  bs "depth"; bs "parent"]
  | first :: rest =>
      match rest with
      | [child] =>
          if beq first (bs "parent") then one_of child [bs "name"; bs "kind"; bs "shape"]
          else one_of first [bs "out_refs"; bs "in_refs"] && valid_ref_collection_path rest
      | _ => one_of first [bs "out_refs"; bs "in_refs"] && valid_ref_collection_path rest
      end
  end.

Definition valid_segment_collection_path (path : list bytes) : bool :=
  match path with
  | [one] => beq one (bs "kind") || beq one (bs "name")
  | _ => false
  end.

Definition collection_path_valid (domain : Domain.t) (path : list bytes) : bool :=
  match domain with
  | Domain.Ast => false
  | Domain.Children _ | Domain.ChildrenByShape _ | Domain.Descendants _ =>
      valid_def_collection_path path
  | Domain.OutRefs | Domain.InRefs | Domain.SourceOutRefs | Domain.SourceInRefs
  | Domain.TargetOutRefs | Domain.TargetInRefs | Domain.SourceAncestorOutRefs
  | Domain.SourceAncestorInRefs => valid_ref_collection_path path
  | Domain.Segments => valid_segment_collection_path path
  | Domain.Pairs _ => false
  end.

Definition validate_collection_projection_path (domain : Domain.t) (path : list bytes)
    (full : bytes) : M () :=
  if collection_path_valid domain path then mret ()
  else Err (BadExpr full (bs "unknown collection projection `" ++ join (bs ".") path ++ bs "`")).

(** The [for (idx, ch) in input.char_indices()] loop of
    [find_top_level_collection_comparison]. *)
Fixpoint comparison_loop (input : bytes) (cs : list bytes) (idx : nat) (depth : Z)
    (in_string : option bytes) : M (option (nat * nat)) :=
  match cs with
  | [] => mret None
  | ch :: cs =>
      let next := idx + length ch in
      match in_string with
      | Some q => comparison_loop input cs next depth (if beq ch q then None else in_string)
      | None =>
          if beq ch (bs "'") || beq ch [dquote] then comparison_loop input cs next depth (Some ch)
          else if beq ch (bs "(") then comparison_loop input cs next (depth + 1)%Z None
          else if beq ch (bs ")") then comparison_loop input cs next (depth - 1)%Z None
          else
            p ← (if (depth =? 0)%Z then keyword_at input idx (bs "prefix") else mret false);
            if (p : bool) then mret (Some (idx, 6))
            else
              s ← (if (depth =? 0)%Z then keyword_at input idx (bs "subset") else mret false);
              if (s : bool) then mret (Some (idx, length (bs "subset")))
              else comparison_loop input cs next depth None
      end
  end.

Definition find_top_level_collection_comparison (input : bytes) : M (option (nat * nat)) :=
  match chars input with
  | None => Panic
  | Some cs => comparison_loop input cs 0 0 None
  end.

Definition eat_collection_op (st : ParserState) : P (option CollectionOp) :=
  '(matched, st) ← eat_keyword st (bs "intersect");
  if (matched : bool) then mret (Some Intersect, st)
  else
    '(matched, st) ← eat_keyword st (bs "union");
    if (matched : bool) then mret (Some Union, st)
    else
      '(matched, st) ← eat_keyword st (bs "diff");
      if (matched : bool) then mret (Some Difference, st) else mret (None, st).

(** ** atom.rs *)

Definition quoted_by (s : bytes) (q : ascii) : bool :=
  starts_with [q] s && ends_with [q] s && (2 <=? length s).

Definition unquote (s : bytes) : M bytes :=
  let s := trim s in
  if quoted_by s "'"%char || quoted_by s dquote then str_slice s 1 (length s - 1) else mret s.

Definition parse_op (s full : bytes) : M Op.t :=
  if beq s (bs "=") then mret Op.Eq
  else if beq s (bs "!=") then mret Op.Ne
  else if beq s (bs "<") then mret Op.Lt
  else if beq s (bs "<=") then mret Op.Le
  else if beq s (bs ">") then mret Op.Gt
  else if beq s (bs ">=") then mret Op.Ge
  else if beq s (bs "=~") then mret Op.RegexMatch
  else if beq s (bs "!~") then mret Op.RegexNoMatch
  else if beq s (bs "@>") then mret Op.AncestorOf
  else if beq s (bs "<@") then mret Op.DescendantOf
  else if beq s (bs "?=") then mret Op.BindMatch
  else if beq s (bs "~") then mret Op.PathMatch
  else if beq s (bs "subset") then mret Op.Subset
  else Err (BadExpr full (bs "unknown operator `" ++ s ++ bs "`")).

Definition check_lhs_attr (l : Lhs.t) (op : Op.t) (full : bytes) : M () :=
  if Lhs.accepts_op l op then mret ()
  else Err (BadExpr full (bs "operator " ++ Op.debug op ++ bs " not valid for lhs " ++ Lhs.debug l)).

Definition check_type (lhs : LhsExpr) (op : Op.t) (full : bytes) : M () :=
  match lhs with
  | Attr a => check_lhs_attr a op full
  | Number _ =>
      match op with
      | Op.Lt | Op.Le | Op.Gt | Op.Ge | Op.Eq | Op.Ne => mret ()
      | _ => Err (BadExpr full (bs "number expressions only accept numeric operators, got "
                                ++ Op.debug op))
      end
  | Collection _ =>
      match op with
      | Op.Subset | Op.Prefix => mret ()
      | _ => Err (BadExpr full (bs "collection expressions only accept subset operators, got "
                                ++ Op.debug op))
      end
  | LPairProjection projection => check_lhs_attr (pp_lhs projection) op full
  | Mode _ =>
      match op with
      | Op.Eq | Op.Ne => mret ()
      | _ => Err (BadExpr full (bs "mode(...) only accepts equality operators, got "
                                ++ Op.debug op))
      end
  | SegmentOf _ _ =>
      match op with
      | Op.Eq | Op.Ne | Op.RegexMatch | Op.RegexNoMatch => mret ()
      | _ => Err (BadExpr full (bs "segment(...) only accepts string operators, got "
                                ++ Op.debug op))
      end
  end.

Definition is_number_lhs (lhs : LhsExpr) : bool :=
  match lhs with Number _ => true | _ => false end.

Definition check_rhs_type (lhs : LhsExpr) (rhs : Rhs) (full : bytes) : M () :=
  if is_number_lhs lhs &&
     match rhs with CurrentProjection p => negb (Lhs.is_number_projection p) | _ => false end
  then Err (BadExpr full (bs "number expressions require numeric current projections"))
  else if is_number_lhs lhs &&
     match rhs with RNumber _ | RPairProjection _ | CurrentProjection _ => false | _ => true end
  then Err (BadExpr full (bs "number expressions require numeric RHS"))
  else if match lhs with Collection _ => true | _ => false end &&
     match rhs with RCollection _ => false | _ => true end
  then Err (BadExpr full (bs "collection expressions require collection RHS"))
  else if match lhs with Attr attr => Lhs.is_moniker_projection attr | _ => false end &&
     match rhs with
     | RProjection p | CurrentProjection p => negb (Lhs.is_moniker_projection p)
     | _ => false
     end
  then Err (BadExpr full (bs "moniker relationships require moniker projections"))
  else mret ().

Definition build_atom (lhs : LhsExpr) (op : Op.t) (rhs : Rhs) (raw full : bytes) : M Atom :=
  _ ← check_type lhs op full;
  _ ← check_rhs_type lhs rhs full;
  regex ← match op, rhs with
          | Op.RegexMatch, RegexStr p | Op.RegexNoMatch, RegexStr p =>
              match regex_new p with
              | inl e => Err (BadExpr full (bs "invalid regex `" ++ p ++ bs "`: " ++ e))
              | inr re => mret (Some re)
              end
          | _, _ => mret None
          end;
  mret (mk_atom lhs op rhs raw regex).

Definition parse_has_segment (raw full : bytes) : M (option Atom) :=
  match s ← strip_prefix (bs "has_segment(") raw; strip_suffix (bs ")") s with
  | None => mret None
  | Some args =>
      match split_once ","%char args with
      | None => Err (BadExpr full (bs "has_segment(kind, name) needs two args"))
      | Some (kind, name) =>
          kind ← unquote (trim kind);
          name ← unquote (trim name);
          if beq kind [] || beq name []
          then Err (BadExpr full (bs "has_segment(kind, name) args must be non-empty strings"))
          else
            let pat_src := bs "**/" ++ (kind ++ bs ":" ++ name) ++ bs "/**" in
            pattern ← map_err (fun e => BadExpr full (Path.error_display e)) (Path.parse pat_src);
            a ← build_atom (Attr Lhs.Moniker) Op.PathMatch (RPathPattern pattern) raw full;
            mret (Some a)
      end
  end.

Definition split_atom (s full : bytes) : M (bytes * bytes * bytes) :=
  let e := BadExpr full (bs "expected `<lhs> <op> <rhs>` in `" ++ s ++ bs "`") in
  lhs_end ← ok_or (lhs_token_end s) e;
  after ← str_from s lhs_end;
  let after_lhs := trim_start after in
  let op_offset := length s - length after_lhs in
  match operator_at after_lhs with
  | Some (_, op_len) =>
      lhs ← str_to s lhs_end;
      let lhs := trim lhs in
      rhs ← str_from after_lhs op_len;
      let rhs := trim rhs in
      if beq lhs [] || beq rhs [] then Err e
      else
        op ← str_slice s op_offset (op_offset + op_len);
        mret (lhs, op, rhs)
  | None => Err e
  end.

Definition parse_lhs (s full : bytes) (pair_bindings_allowed : bool) : M LhsExpr :=
  if starts_with (bs "count(") s
  then Err (BadExpr full
              (bs "internal: count(...) reached parse_lhs; should be handled at primary level"))
  else
    projection ← parse_pair_projection s full pair_bindings_allowed;
    match projection with
    | Some p => mret (LPairProjection p)
    | None =>
        match unsupported_measure_message s with
        | Some msg => Err (BadExpr full msg)
        | None =>
            match Lhs.from_projection_name s with
            | Some lhs =>
                if Lhs.is_number_projection lhs then mret (Number (NProjection lhs))
                else mret (Attr lhs)
            | None => Err (BadExpr full (bs "unknown lhs `" ++ s ++ bs "`"))
            end
        end
    end.

Definition parse_current_projection (s : bytes) : option Lhs.t :=
  r ← strip_prefix (bs "current.") s; Lhs.from_projection_name r.

End atom.
End DslAtom.
