(* ===== verification/DslParse.v ===== *)
(** The recursive rule parser (src/crates/check/src/check/expr/): parse.rs,
    domain.rs, number.rs, collection.rs, value.rs and the right-hand sides of
    atom.rs.

    The functions call each other in cycles. [Parsers] is the set of parsers
    that the others call back ([parse_expr], [parse_not], [parse_domain_ident],
    [parse_number_expr], [parse_collection_expr]); every body takes it as an
    argument, and [parsers fuel] ties the knot. DslFacts shows that the length
    of the text is enough fuel. *)

From S2P Require Import Prelude.
From S2P Require Import RustStr.
From S2P Require Import Moniker.
From S2P Require Import Uri.
From S2P Require Import Path.
From S2P Require Import DslAst.
From S2P Require Import DslCursor.
From S2P Require Import DslAtom.

Module DslParse.
Import Cursor Ast DslAtom.
Section parse.
Context {RE : RegexEngine}.

Record Parsers : Type := {
  p_expr : ParserState -> P Node;
  p_not : ParserState -> P Node;
  p_domain : ParserState -> P Domain.t;
  p_number : ParserState -> P NumberExpr;
  p_collection : ParserState -> P CollectionExpr
}.

Section bodies.
Context (self : Parsers).

(** [if peek_byte(&state) != Some(b')') { return Err(bail(..)) }], then
    [advance(state, 1)] *)
Definition close_paren (st : ParserState) (msg : bytes) : M ParserState :=
  if negb (peek_is st ")"%char) then Err (bail st (msg ++ show_nat (pos st)))
  else mret (advance st 1).

(** ** domain.rs and pairs.rs *)

Definition parse_descendants_domain (st : ParserState) : P Domain.t :=
  let st := advance st (length (bs "descendants(")) in
  let st := skip_ws st in
  '(inner, st) ← p_domain self st;
  if negb (match inner with Domain.Children _ | Domain.ChildrenByShape _ => true | _ => false end)
  then Err (BadExpr (raw st) (bs "`descendants(...)` accepts def domains only"))
  else
    let st := skip_ws st in
    st ← close_paren st (bs "missing `)` for `descendants(...)` at byte ");
    mret (Domain.Descendants inner, st).

Definition parse_pair_domain (st : ParserState) : P Domain.t :=
  p ← at_prefix st (bs "pairs(");
  if negb p then Err (bail st (bs "expected `pairs(` at byte " ++ show_nat (pos st)))
  else
    let st := advance st (length (bs "pairs(")) in
    let st := skip_ws st in
    '(inner, st) ← p_domain self st;
    if match inner with Domain.Pairs _ => true | _ => false end
    then Err (BadExpr (raw st) (bs "nested `pairs(...)` domains are not supported"))
    else
      let st := skip_ws st in
      st ← close_paren st (bs "missing `)` for `pairs(...)` at byte ");
      mret (Domain.Pairs inner, st).

Definition REF_DOMAINS : list (bytes * Domain.t) :=
  [(bs "source.ancestors.out_refs", Domain.SourceAncestorOutRefs);
   (bs "source.ancestors.in_refs", Domain.SourceAncestorInRefs);
   (bs "source.out_refs", Domain.SourceOutRefs);
   (bs "source.in_refs", Domain.SourceInRefs);
   (bs "target.out_refs", Domain.TargetOutRefs);
   (bs "target.in_refs", Domain.TargetInRefs)].

Definition DOMAIN_NAMES : list (bytes * Domain.t) :=
  [(bs "ast", Domain.Ast); (bs "segment", Domain.Segments); (bs "out_refs", Domain.OutRefs);
   (bs "in_refs", Domain.InRefs); (bs "source.out_refs", Domain.SourceOutRefs);
   (bs "source.in_refs", Domain.SourceInRefs); (bs "target.out_refs", Domain.TargetOutRefs);
   (bs "target.in_refs", Domain.TargetInRefs);
   (bs "source.ancestors.out_refs", Domain.SourceAncestorOutRefs);
   (bs "source.ancestors.in_refs", Domain.SourceAncestorInRefs)].

(** The [match domain_ident] of [parse_domain_ident]. *)
Definition domain_of_ident (ident : bytes) (st : ParserState) : M Domain.t :=
  match List.find (fun e => beq e.1 ident) DOMAIN_NAMES with
  | Some (_, d) => mret d
  | None =>
      if starts_with (bs "shape:") ident then
        let shape_name := trim_start_matches (bs "shape:") ident in
        if negb (is_def_shape_name shape_name)
        then Err (BadExpr (raw st) (bs "unknown shape domain `" ++ shape_name ++ bs "` (allowed: "
                                    ++ join (bs ", ") DEF_SHAPE_NAMES ++ bs ")"))
        else mret (Domain.ChildrenByShape shape_name)
      else if negb (existsb (beq ident) (allowed_kinds st))
      then Err (BadExpr (raw st) (bs "unknown domain `" ++ ident ++
             bs "` (allowed: segment, out_refs, in_refs, source.out_refs, source.in_refs, target.out_refs, target.in_refs, source.ancestors.out_refs, source.ancestors.in_refs, or one of "
             ++ join (bs ", ") (allowed_kinds st) ++ bs ")"))
      else mret (Domain.Children ident)
  end.

Definition parse_domain_ident (st : ParserState) : P Domain.t :=
  p ← at_prefix st (bs "pairs(");
  if (p : bool) then parse_pair_domain st
  else
    d ← at_prefix st (bs "descendants(");
    if (d : bool) then parse_descendants_domain st
    else
      r ← rest st;
      match List.find (fun e => starts_with e.1 r) REF_DOMAINS with
      | Some (name, domain) => mret (domain, advance st (length name))
      | None =>
          let start := pos st in
          '(ident, st) ← take_domain_ident st;
          if beq ident []
          then Err (bail st (bs "expected domain identifier at byte " ++ show_nat start))
          else
            domain ← domain_of_ident ident st;
            mret (domain, st)
      end.

Definition is_pairs (d : Domain.t) : bool :=
  match d with Domain.Pairs _ => true | _ => false end.

Definition parse_domain_filter_body (st : ParserState) (parse_filter : ParserState -> P Node) :
    P (Domain.t * option Node) :=
  if negb (peek_is st "("%char)
  then Err (bail st (bs "expected `(` at byte " ++ show_nat (pos st)))
  else
    let st := advance st 1 in
    let st := skip_ws st in
    '(domain, st) ← p_domain self st;
    let st := skip_ws st in
    '(filter, st) ←
      (if peek_is st ","%char then
         let st := advance st 1 in
         let previous := pair_bindings_allowed st in
         let filter_state := with_pair_bindings_allowed st (previous || is_pairs domain) in
         '(filter, st) ← parse_filter filter_state;
         let st := with_pair_bindings_allowed st previous in
         mret (Some filter, skip_ws st)
       else mret (None, st));
    st ← close_paren st (bs "missing `)` for quantifier at byte ");
    mret ((domain, filter), st).

Definition try_parse_count_expr (st : ParserState) : P (option NumberExpr) :=
  c ← at_prefix st (bs "count(");
  if negb c then mret (None, st)
  else
    let st := advance st (length (bs "count")) in
    '(df, st) ← parse_domain_filter_body st (p_expr self);
    mret (Some (Count df.1 df.2), st).

(** ** collection.rs *)

(** The loops that read [.segment] after a domain. *)
Fixpoint projection_loop (fuel : nat) (st : ParserState) (path : list bytes) (msg : bytes) :
    P (list bytes) :=
  match fuel with
  | O => NoFuel
  | S fuel =>
      let st := skip_ws st in
      if negb (peek_is st "."%char) then mret (path, st)
      else
        '(segment, st) ← take_projection_segment (advance st 1);
        if beq segment [] then Err (bail st (msg ++ show_nat (pos st)))
        else projection_loop fuel st (path ++ [segment]) msg
  end.

Definition loop_fuel (st : ParserState) : nat := S (length (input st)).

Definition parse_collection_call_body (st : ParserState) (name : bytes) : P CollectionExpr :=
  if negb (peek_is st "("%char) then Err (bail st (bs "expected `(` after `" ++ name ++ bs "`"))
  else
    let st := advance st 1 in
    '(expr, st) ← p_collection self st;
    let st := skip_ws st in
    st ← close_paren st (bs "missing `)` for `" ++ name ++ bs "` at byte ");
    mret (expr, st).

Definition try_parse_pair_collection_projection (st : ParserState) : P (option CollectionExpr) :=
  a ← at_prefix st (bs "a.");
  b ← at_prefix st (bs "b.");
  match (if (a : bool) then Some A else if (b : bool) then Some B else None) with
  | None => mret (None, st)
  | Some side =>
      if negb (pair_bindings_allowed st)
      then Err (bail st (bs "pair-bound collection projections are only valid inside `pairs(...)` filters"))
      else
        let st := advance st 2 in
        '(domain, st) ← p_domain self st;
        _ ← reject_pair_domain st domain (bs "pair collection projections");
        '(path, st) ← projection_loop (loop_fuel st) st []
                        (bs "expected pair collection projection segment at byte ");
        _ ← validate_collection_projection_path domain path (raw st);
        mret (Some (CPairProjection (mk_pair_collection_projection side domain path)), st)
  end.

Definition parse_collection_primary (st : ParserState) : P CollectionExpr :=
  let st := skip_ws st in
  u ← at_prefix st (bs "unique(");
  if (u : bool) then
    let st := advance st (length (bs "unique")) in
    '(expr, st) ← parse_collection_call_body st (bs "unique");
    mret (Unique expr, st)
  else if peek_is st "("%char then
    let st := advance st 1 in
    '(expr, st) ← p_collection self st;
    let st := skip_ws st in
    st ← close_paren st (bs "missing `)` in collection expression at byte ");
    mret (expr, st)
  else
    '(projection, st) ← try_parse_pair_collection_projection st;
    match projection with
    | Some expr => mret (expr, st)
    | None =>
        current ← at_prefix st (bs "current.");
        let st := if (current : bool) then advance st 8 else st in
        '(domain, st) ← parse_domain_ident st;
        _ ← reject_pair_domain st domain (bs "collection projections");
        '(path, st) ← projection_loop (loop_fuel st) st []
                        (bs "expected collection projection segment at byte ");
        _ ← validate_collection_projection_path domain path (raw st);
        mret (CProjection (mk_collection_projection current domain path), st)
    end.

Fixpoint collection_loop (fuel : nat) (expr : CollectionExpr) (st : ParserState) :
    P CollectionExpr :=
  match fuel with
  | O => NoFuel
  | S fuel =>
      let st := skip_ws st in
      '(op, st) ← eat_collection_op st;
      match op with
      | None => mret (expr, st)
      | Some op =>
          '(r, st) ← parse_collection_primary st;
          collection_loop fuel (Binary op expr r) st
      end
  end.

Definition parse_collection_expr (st : ParserState) : P CollectionExpr :=
  '(expr, st) ← parse_collection_primary st;
  collection_loop (loop_fuel st) expr st.

(** A parser run on a string of its own, to its end. *)
Definition parse_full {A} (p : ParserState -> P A) (msg s scheme : bytes)
    (allowed_kinds : list bytes) (full : bytes) (pairs : bool) : M A :=
  let st := with_pair_bindings_allowed (Cursor.new s scheme allowed_kinds full) pairs in
  '(expr, st) ← p st;
  let st := skip_ws st in
  if negb (is_at_end st)
  then r ← rest st; Err (BadExpr full (msg ++ r ++ bs "`"))
  else mret expr.

Definition parse_collection_expr_full (s scheme : bytes) (allowed_kinds : list bytes)
    (full : bytes) (pairs : bool) : M CollectionExpr :=
  parse_full (p_collection self) (bs "trailing input in collection expression `") s scheme
    allowed_kinds full pairs.

Definition try_parse_collection_comparison_atom (st : ParserState) : P (option Atom) :=
  let st := skip_ws st in
  '(raw_start, text) ← peek_atom_text st;
  found ← find_top_level_collection_comparison text;
  match found with
  | None => mret (None, st)
  | Some (op_idx, op_len) =>
      l ← str_to text op_idx;
      r ← str_from text (op_idx + op_len);
      let lhs_src := trim l in
      let rhs_src := trim r in
      if beq lhs_src [] || beq rhs_src []
      then Err (bail st (bs "collection subset requires `<collection> subset <collection>`"))
      else
        lhs ← parse_collection_expr_full lhs_src (scheme st) (allowed_kinds st) (raw st)
                (pair_bindings_allowed st);
        rhs ← parse_collection_expr_full rhs_src (scheme st) (allowed_kinds st) (raw st)
                (pair_bindings_allowed st);
        '(_, _, atom_state) ← take_atom_text st;
        op_text ← str_slice text op_idx (op_idx + op_len);
        raw_text ← slice_from atom_state raw_start;
        a ← build_atom (Collection lhs)
              (if beq op_text (bs "prefix") then Op.Prefix else Op.Subset)
              (RCollection rhs) raw_text (raw atom_state);
        mret (Some a, atom_state)
  end.

(** ** value.rs *)

Definition parse_legacy_projection_value (st : ParserState) : P ValueExpr :=
  '(projection, st) ← projection_loop (loop_fuel st) st []
                        (bs "expected projection segment at byte ");
  match projection with
  | [] => mret (Item, st)
  | _ =>
      let text := join (bs ".") projection in
      match Lhs.from_projection_name text with
      | None => Err (BadExpr (raw st) (bs "unknown projection `" ++ text ++ bs "`"))
      | Some lhs => mret (VProjection lhs, st)
      end
  end.

Definition parse_value_expr (st : ParserState) : P ValueExpr :=
  let st := skip_ws st in
  call ← next_starts_number_call st;
  if call || match peek_byte st with Some b => is_ascii_digit b | None => false end then
    '(number, st) ← p_number self st;
    mret (VNumber number, st)
  else
    '(tok, st) ← take_projection_token st;
    match Lhs.from_projection_name tok with
    | None => Err (BadExpr (raw st) (bs "expected value expression, got `" ++ tok ++ bs "`"))
    | Some lhs => mret (VProjection lhs, st)
    end.

Definition parse_domain_value_call_body (st : ParserState) : P DomainValueExpr :=
  if negb (peek_is st "("%char)
  then Err (bail st (bs "expected `(` at byte " ++ show_nat (pos st)))
  else
    let st := advance st 1 in
    let st := skip_ws st in
    '(domain, st) ← p_domain self st;
    _ ← reject_pair_domain st domain (bs "domain value expressions");
    let st := skip_ws st in
    '(expr, st) ← (if peek_is st ","%char then parse_value_expr (advance st 1)
                   else parse_legacy_projection_value st);
    let st := skip_ws st in
    '(filter, st) ← (if peek_is st ","%char then
                       '(filter, st) ← p_expr self (advance st 1);
                       mret (Some filter, skip_ws st)
                     else mret (None, st));
    st ← close_paren st (bs "missing `)` for domain value expression at byte ");
    mret (mk_domain_value domain expr filter, st).

Definition parse_mode_lhs (st : ParserState) : P LhsExpr :=
  let st := advance st (length (bs "mode")) in
  '(body, st) ← parse_domain_value_call_body st;
  mret (Mode body, st).

(** ** number.rs *)

Definition try_parse_aggregate_expr (st : ParserState) : P (option NumberExpr) :=
  pre ← aggregate_prefix st;
  match pre with
  | None => mret (None, st)
  | Some (name, kind) =>
      let st := advance st (length name) in
      if negb (peek_is st "("%char)
      then Err (bail st (bs "expected `(` after `" ++ name ++ bs "`"))
      else
        let st := advance st 1 in
        let st := skip_ws st in
        '(domain, st) ← p_domain self st;
        _ ← reject_pair_domain st domain name;
        let st := skip_ws st in
        if negb (peek_is st ","%char)
        then Err (bail st (bs "`" ++ name ++ bs "` requires `<domain>, <expr>`"))
        else
          let st := advance st 1 in
          '(expr, st) ← p_number self st;
          let st := skip_ws st in
          '(percentile, st) ←
            (match kind with
             | Percentile =>
                 if negb (peek_is st ","%char)
                 then Err (bail st (bs "percentile requires a third numeric argument"))
                 else
                   let st := advance st 1 in
                   let st := skip_ws st in
                   '(percentile, st) ← parse_number_literal st;
                   mret (Some percentile, st)
             | _ => mret (None, st)
             end);
          let st := skip_ws st in
          st ← close_paren st (bs "missing `)` for `" ++ name ++ bs "` at byte ");
          mret (Some (Aggregate kind domain expr percentile), st)
  end.

(** The end of [parse_number_expr]: a literal or a projection. *)
Definition parse_number_leaf (st : ParserState) : P NumberExpr :=
  '(lit, st) ← take_number_literal st;
  if negb (beq lit []) then
    n ← map_err (fun e => BadExpr (raw st) (bs "expected number, got `" ++ lit ++ bs "`: " ++ e))
          (parse_f64 lit);
    mret (NLiteral n, st)
  else
    '(tok, st) ← take_projection_token st;
    if negb (beq tok []) && peek_is st "("%char
    then Err (BadExpr (raw st) (unknown_numeric_measure_message tok))
    else
      match Lhs.from_projection_name tok with
      | None => Err (BadExpr (raw st) (bs "expected number expression, got `" ++ tok ++ bs "`"))
      | Some lhs =>
          if negb (Lhs.is_number_projection lhs)
          then Err (BadExpr (raw st) (bs "projection `" ++ tok ++ bs "` is not numeric"))
          else mret (NProjection lhs, st)
      end.

Definition parse_number_expr (st : ParserState) : P NumberExpr :=
  let st := skip_ws st in
  '(e, st) ← try_parse_count_expr st;
  match e with
  | Some e => mret (e, st)
  | None =>
      '(e, st) ← try_parse_aggregate_expr st;
      match e with
      | Some e => mret (e, st)
      | None =>
          '(e, st) ← try_parse_metric_expr st;
          match e with
          | Some e => mret (e, st)
          | None =>
              entropy ← at_prefix st (bs "entropy(");
              if (entropy : bool) then
                let st := advance st (length (bs "entropy")) in
                '(body, st) ← parse_domain_value_call_body st;
                mret (Entropy body, st)
              else
                size ← at_prefix st (bs "size(");
                if (size : bool) then
                  let st := advance st (length (bs "size")) in
                  '(body, st) ← parse_collection_call_body st (bs "size");
                  mret (Size body, st)
                else parse_number_leaf st
          end
      end
  end.

Definition parse_number_rhs (s scheme : bytes) (allowed_kinds : list bytes) (full : bytes)
    (pairs : bool) : M NumberExpr :=
  parse_full (p_number self) (bs "trailing input in number expression `") s scheme
    allowed_kinds full pairs.

(** ** atom.rs: right-hand sides *)

Definition uri_rhs (s scheme full : bytes) : M Rhs :=
  m ← map_err (fun e => BadExpr full (bs "invalid moniker URI `" ++ s ++ bs "`: "
                                      ++ Uri.error_display e))
        (Uri.from_uri s {| Uri.scheme := scheme |});
  mret (RMoniker m).

(** The [Op::Eq | Op::Ne] arm. *)
Definition equality_rhs (s : bytes) (quoted : bool) (scheme : bytes) (allowed_kinds : list bytes)
    (full : bytes) (pairs : bool) : M Rhs :=
  if quoted then mret (Str s)
  else
    projection ← parse_pair_projection s full pairs;
    match projection with
    | Some p => mret (RPairProjection p)
    | None =>
        match parse_current_projection s with
        | Some lhs => mret (CurrentProjection lhs)
        | None =>
            match parse_number_rhs s scheme allowed_kinds full pairs with
            | Ok e => mret (RNumber e)
            | Panic => Panic
            | NoFuel => NoFuel
            | Err _ =>
                if contains (bs "+moniker://") s then uri_rhs s scheme full
                else
                  match Lhs.from_projection_name s with
                  | Some lhs => mret (RProjection lhs)
                  | None => mret (Str s)
                  end
            end
        end
    end.

Definition parse_rhs (s : bytes) (op : Op.t) (scheme : bytes) (allowed_kinds : list bytes)
    (full : bytes) (pairs : bool) : M Rhs :=
  let s := trim s in
  let quoted := quoted_by s dquote || quoted_by s "'"%char in
  s ← (if quoted then str_slice s 1 (length s - 1) else mret s);
  match op with
  | Op.RegexMatch | Op.RegexNoMatch => mret (RegexStr s)
  | Op.PathMatch =>
      pattern ← map_err (fun e => BadExpr full (Path.error_display e)) (Path.parse s);
      mret (RPathPattern pattern)
  | Op.AncestorOf | Op.DescendantOf | Op.BindMatch =>
      match parse_current_projection s with
      | Some lhs => mret (CurrentProjection lhs)
      | None =>
          match Lhs.from_projection_name s with
          | Some lhs => mret (RProjection lhs)
          | None => uri_rhs s scheme full
          end
      end
  | Op.Lt | Op.Le | Op.Gt | Op.Ge =>
      projection ← parse_pair_projection s full pairs;
      match projection with
      | Some p => mret (RPairProjection p)
      | None =>
          match parse_current_projection s with
          | Some lhs => mret (CurrentProjection lhs)
          | None =>
              e ← parse_number_rhs s scheme allowed_kinds full pairs;
              mret (RNumber e)
          end
      end
  | Op.Subset | Op.Prefix =>
      c ← parse_collection_expr_full s scheme allowed_kinds full pairs;
      mret (RCollection c)
  | Op.Eq | Op.Ne => equality_rhs s quoted scheme allowed_kinds full pairs
  end.

Definition parse_atom (input scheme : bytes) (allowed_kinds : list bytes) (full : bytes)
    (pairs : bool) : M Atom :=
  let raw := trim input in
  sugar ← parse_has_segment raw full;
  match sugar with
  | Some a => mret a
  | None =>
      '(lhs_str, op_str, rhs_str) ← split_atom raw full;
      lhs ← parse_lhs lhs_str full pairs;
      op ← parse_op op_str full;
      rhs ← parse_rhs rhs_str op scheme allowed_kinds full pairs;
      build_atom lhs op rhs raw full
  end.

(** ** parse.rs *)

Definition parse_comparison_tail (st : ParserState) (raw_start : nat) (lhs : LhsExpr)
    (missing_op_msg : bytes) : P Atom :=
  let st := skip_ws st in
  op ← operator st;
  '(op_str, op_len) ← ok_or op (bail st (missing_op_msg ++ bs " at byte " ++ show_nat (pos st)));
  let st := advance st op_len in
  op ← parse_op op_str (raw st);
  let st := skip_ws st in
  '(_, rhs_raw, st) ← take_atom_text st;
  let rhs_str := trim rhs_raw in
  if beq rhs_str [] then Err (bail st (bs "empty RHS after comparison op"))
  else
    rhs ← parse_rhs rhs_str op (scheme st) (allowed_kinds st) (raw st) (pair_bindings_allowed st);
    raw_text ← slice_from st raw_start;
    a ← build_atom lhs op rhs raw_text (raw st);
    mret (a, st).

Definition SEGMENT_PREFIXES : list (bytes * SegmentScope) :=
  [(bs "source.segment(", Source); (bs "target.segment(", Target); (bs "segment(", Def)].

Definition try_parse_segment_atom (st : ParserState) : P (option Atom) :=
  let st := skip_ws st in
  r ← rest st;
  match List.find (fun e => starts_with e.1 r) SEGMENT_PREFIXES with
  | None => mret (None, st)
  | Some (prefix, scope) =>
      let raw_start := pos st in
      let st := advance st (length prefix) in
      found ← take_until_byte st ")"%char;
      '(arg, st) ← ok_or found (bail st (bs "unclosed `segment(...)` projection"));
      let arg := trim arg in
      kind ← unquote arg;
      if beq kind [] then Err (bail st (bs "segment(<kind>) needs a kind argument"))
      else
        let st := advance st 1 in
        '(a, st) ← parse_comparison_tail st raw_start (SegmentOf scope kind)
                     (bs "expected `<op> <rhs>` after `segment(...)`");
        mret (Some a, st)
  end.

Definition try_parse_number_atom (st : ParserState) : P (option Atom) :=
  let st := skip_ws st in
  call ← next_starts_number_call st;
  if negb call then mret (None, st)
  else
    let raw_start := pos st in
    '(lhs, st) ← parse_number_expr st;
    '(a, st) ← parse_comparison_tail st raw_start (Number lhs)
                 (bs "expected numeric comparison after number expression");
    mret (Some a, st).

Definition try_parse_mode_atom (st : ParserState) : P (option Atom) :=
  let st := skip_ws st in
  m ← at_prefix st (bs "mode(");
  if negb m then mret (None, st)
  else
    let raw_start := pos st in
    '(lhs, st) ← parse_mode_lhs st;
    '(a, st) ← parse_comparison_tail st raw_start lhs (bs "expected comparison after `mode(...)`");
    mret (Some a, st).

Definition QUANTIFIERS : list (bytes * QuantKind.t) :=
  [(bs "any", QuantKind.Any); (bs "all", QuantKind.All); (bs "none", QuantKind.None)].

Definition try_parse_quantifier (st : ParserState) : P (option Node) :=
  let st := skip_ws st in
  r ← rest st;
  match List.find (fun e => match strip_prefix e.1 r with
                            | Some after => starts_with (bs "(") after
                            | None => false
                            end) QUANTIFIERS with
  | None => mret (None, st)
  | Some (kw, qk) =>
      let st := advance st (length kw) in
      '(df, st) ← parse_domain_filter_body st (p_expr self);
      filter ← ok_or df.2 (bail st (bs "`" ++ kw ++ bs "` requires a filter expression: `" ++ kw
                                    ++ bs "(<domain>, <expr>)`"));
      mret (Some (Quantifier qk df.1 filter), st)
  end.

Definition try_parse_require (st : ParserState) : P (option Node) :=
  let st := skip_ws st in
  p ← at_prefix st (bs "require(");
  if negb p then mret (None, st)
  else
    let st := advance st (length (bs "require(")) in
    let st := skip_ws st in
    match peek_byte st with
    | Some quote =>
        if negb (ceq quote "'"%char || ceq quote dquote)
        then Err (bail st (bs "`require(...)` expects a quoted URI pattern"))
        else
          let st := advance st 1 in
          found ← take_until_byte st quote;
          '(pattern, st) ← ok_or found (bail st (bs "unclosed `require(...)` pattern"));
          let st := advance st 1 in
          let st := skip_ws st in
          st ← close_paren st (bs "missing `)` for `require(...)` at byte ");
          mret (Some (Require_ pattern), st)
    | None => Err (bail st (bs "`require(...)` expects a quoted URI pattern"))
    end.

Record Layout : Set := mk_layout_options {
  opt_public_first : bool; opt_private_after : bool; opt_max_gap : N
}.

(** The [match option] of the layout policies. *)
Definition layout_option (option : bytes) (o : Layout) (st : ParserState) : P Layout :=
  if beq option (bs "public_first")
  then mret (mk_layout_options true (opt_private_after o) (opt_max_gap o), st)
  else if beq option (bs "private_after_first_use")
  then mret (mk_layout_options (opt_public_first o) true (opt_max_gap o), st)
  else if beq option (bs "max_gap") then
    if negb (peek_is st "="%char)
    then Err (bail st (bs "`max_gap` expects `max_gap = <number>`"))
    else
      let st := skip_ws (advance st 1) in
      '(number, st) ← take_number_literal st;
      if beq number [] then Err (bail st (bs "`max_gap` expects a number"))
      else
        gap ← map_err (fun e => bail st (bs "invalid `max_gap` value `" ++ number ++ bs "`: " ++ e))
                (parse_u32 number);
        mret (mk_layout_options (opt_public_first o) (opt_private_after o) gap, st)
  else Err (bail st (bs "unknown vertical layout policy `" ++ option ++
              bs "` (allowed: public_first, private_after_first_use, max_gap)")).

Fixpoint layout_loop (fuel : nat) (o : Layout) (st : ParserState) : P Layout :=
  match fuel with
  | O => NoFuel
  | S fuel =>
      let st := skip_ws st in
      match peek_byte st with
      | None => Err (bail st (bs "unclosed `vertical_layout(...)`"))
      | Some c =>
          if ceq c ")"%char then mret (o, advance st 1)
          else if negb (ceq c ","%char)
          then Err (bail st (bs "expected `,` or `)` in `vertical_layout(...)` at byte "
                             ++ show_nat (pos st)))
          else
            let st := skip_ws (advance st 1) in
            let st := skip_ws st in
            if peek_is st ")"%char then mret (o, advance st 1)
            else
              let option_start := pos st in
              '(option, st) ← take_projection_segment st;
              if beq option []
              then Err (bail st (bs "expected layout policy at byte " ++ show_nat option_start))
              else
                let st := skip_ws st in
                '(o, st) ← layout_option option o st;
                layout_loop fuel o st
      end
  end.

Definition try_parse_vertical_layout (st : ParserState) : P (option Node) :=
  let st := skip_ws st in
  p ← at_prefix st (bs "vertical_layout(");
  if negb p then mret (None, st)
  else
    let raw_start := pos st in
    let st := advance st (length (bs "vertical_layout")) in
    if negb (peek_is st "("%char) then Err (bail st (bs "expected `(` after `vertical_layout`"))
    else
      let st := advance st 1 in
      let st := skip_ws st in
      '(domain, st) ← p_domain self st;
      '(o, st) ← layout_loop (loop_fuel st) (mk_layout_options false false 40) st;
      if negb (opt_public_first o) && negb (opt_private_after o)
      then Err (bail st (bs "`vertical_layout(...)` needs at least one policy"))
      else
        raw_text ← slice_from st raw_start;
        mret (Some (NVerticalLayout (mk_layout domain (opt_public_first o) (opt_private_after o)
                                       (opt_max_gap o) raw_text)), st).

Definition parse_primary (st : ParserState) : P Node :=
  let st := skip_ws st in
  if peek_is st "("%char then
    let st := advance st 1 in
    '(inner, st) ← p_expr self st;
    let st := skip_ws st in
    st ← close_paren st (bs "missing `)` at byte ");
    mret (inner, st)
  else
    '(q, st) ← try_parse_quantifier st;
    match q with Some n => mret (n, st) | None =>
    '(q, st) ← try_parse_require st;
    match q with Some n => mret (n, st) | None =>
    '(q, st) ← try_parse_vertical_layout st;
    match q with Some n => mret (n, st) | None =>
    '(a, st) ← try_parse_collection_comparison_atom st;
    match a with Some a => mret (NAtom a, st) | None =>
    '(a, st) ← try_parse_number_atom st;
    match a with Some a => mret (NAtom a, st) | None =>
    '(a, st) ← try_parse_mode_atom st;
    match a with Some a => mret (NAtom a, st) | None =>
    '(a, st) ← try_parse_segment_atom st;
    match a with Some a => mret (NAtom a, st) | None =>
      '(atom_start, atom_str, st) ← take_atom_text st;
      if beq atom_str [] then Err (bail st (bs "expected atom at byte " ++ show_nat atom_start))
      else
        a ← parse_atom atom_str (scheme st) (allowed_kinds st) (raw st)
              (pair_bindings_allowed st);
        mret (NAtom a, st)
    end end end end end end end.

Definition parse_not (st : ParserState) : P Node :=
  let st := skip_ws st in
  '(has_not, st) ← eat_keyword st (bs "NOT");
  if (has_not : bool) then
    '(inner, st) ← p_not self st;
    mret (Not inner, st)
  else parse_primary st.

(** The loops of [parse_or], [parse_and] and [parse_disjoint]: operands
    separated by a keyword. *)
Fixpoint infix_loop (keyword : bytes) (operand : ParserState -> P Node) (fuel : nat)
    (nodes : list Node) (st : ParserState) : P (list Node) :=
  match fuel with
  | O => NoFuel
  | S fuel =>
      let st := skip_ws st in
      '(has, st) ← eat_keyword st keyword;
      if negb has then mret (nodes, st)
      else
        '(node, st) ← operand st;
        infix_loop keyword operand fuel (nodes ++ [node]) st
  end.

(** [for (index, left) in operands.iter().enumerate() { for right in
    &operands[index + 1..] { .. } }] *)
Fixpoint exclusions (operands : list Node) : list Node :=
  match operands with
  | [] => []
  | l :: rest => ((fun r => Not (And [l; r])) <$> rest) ++ exclusions rest
  end.

(** A single operand is itself, several are the node [f] makes of them. *)
Definition collapse (f : list Node -> Node) (nodes : list Node) : Node :=
  match nodes with
  | [n] => n
  | _ => f nodes
  end.

Definition disjoint_root (operands : list Node) : Node :=
  match operands with
  | [n] => n
  | _ => collapse And (exclusions operands)
  end.

Definition parse_disjoint (st : ParserState) : P Node :=
  '(first, st) ← parse_not st;
  '(operands, st) ← infix_loop (bs "disjoint") parse_not (loop_fuel st) [first] st;
  mret (disjoint_root operands, st).

Definition parse_and (st : ParserState) : P Node :=
  '(first, st) ← parse_disjoint st;
  '(nodes, st) ← infix_loop (bs "AND") parse_disjoint (loop_fuel st) [first] st;
  mret (collapse And nodes, st).

Definition parse_or (st : ParserState) : P Node :=
  '(first, st) ← parse_and st;
  '(nodes, st) ← infix_loop (bs "OR") parse_and (loop_fuel st) [first] st;
  mret (collapse Or nodes, st).

Definition parse_expr (st : ParserState) : P Node :=
  '(lhs, st) ← parse_or st;
  let st := skip_ws st in
  '(has_arrow, st) ← eat_keyword st (bs "=>");
  if (has_arrow : bool) then
    '(rhs, st) ← parse_or st;
    mret (Implies lhs rhs, st)
  else mret (lhs, st).

End bodies.

(** The knot. *)
Fixpoint parsers (fuel : nat) : Parsers :=
  match fuel with
  | O => {| p_expr := fun _ => NoFuel; p_not := fun _ => NoFuel; p_domain := fun _ => NoFuel;
            p_number := fun _ => NoFuel; p_collection := fun _ => NoFuel |}
  | S fuel =>
      let self := parsers fuel in
      {| p_expr := parse_expr self; p_not := parse_not self;
         p_domain := parse_domain_ident self; p_number := parse_number_expr self;
         p_collection := parse_collection_expr self |}
  end.

Definition parse (input scheme : bytes) (allowed_kinds : list bytes) : M Node :=
  let st := Cursor.new input scheme allowed_kinds input in
  '(root, st) ← p_expr (parsers (S (length input))) st;
  let st := skip_ws st in
  if negb (is_at_end st)
  then
    r ← rest st;
    Err (BadExpr input (bs "trailing input at byte " ++ show_nat (pos st) ++ bs ": `" ++ r ++ bs "`"))
  else mret root.

(** ** expr/mod.rs *)

(** The [while index < bytes.len()] loop of [replace_aliases_with_neutral_atoms]. *)
Fixpoint replace_aliases_loop (fuel : nat) (input : bytes) (index copied_until : nat)
    (output : bytes) : M bytes :=
  match fuel with
  | O => NoFuel
  | S fuel =>
      match input !! index with
      | None => tail ← str_from input copied_until; mret (output ++ tail)
      | Some c =>
          if negb (ceq c "$"%char) then replace_aliases_loop fuel input (index + 1) copied_until output
          else
            let start := index + 1 in
            let e := scan_while (fun c => is_ascii_alphanumeric c || ceq c "_"%char) input start in
            if e =? start then replace_aliases_loop fuel input (index + 1) copied_until output
            else
              chunk ← str_slice input copied_until index;
              replace_aliases_loop fuel input e e
                (output ++ chunk ++ bs "(name = '__code_moniker_alias__')")
      end
  end.

Definition replace_aliases_with_neutral_atoms (input : bytes) : M bytes :=
  replace_aliases_loop (S (length input)) input 0 0 [].

(** [kinds] is [config::allowed_workspace_kinds()]. *)
Definition contains_inline_project_selector (kinds : list bytes) (input : bytes) : M bool :=
  input ← replace_aliases_with_neutral_atoms input;
  match parse input (bs "code+moniker://") (kinds ++ [bs "member"]) with
  | Ok root => mret (node_contains_inline_project_selector root)
  | Err _ => mret false
  | Panic => Panic
  | NoFuel => NoFuel
  end.

End parse.
End DslParse.
