(* ===== verification/DslTyping.v ===== *)
(** When a rule is well typed: what the evaluator relies on in the tree the
    parser returns.

    The pieces of the rule parser that do not call it back are total and
    well typed. *)

From S2P Require Import Prelude.
From S2P Require Import RustStr.
From S2P Require Import Moniker.
From S2P Require Import MonikerFacts.
From S2P Require Import Uri.
From S2P Require Import UriFacts.
From S2P Require Import StrFacts.
From S2P Require Import Path.
From S2P Require Import PathFacts.
From S2P Require Import DslAst.
From S2P Require Import DslCursor.
From S2P Require Import DslAtom.

Module Typing.
Import Ast DslAtom.
Section typing.
Context {RE : RegexEngine}.

(** The kinds of definitions the rule's language knows. *)
Context (K : list bytes).

Definition is_some {A} (o : option A) : bool :=
  match o with Some _ => true | None => false end.

Definition is_pairs (d : Domain.t) : bool :=
  match d with Domain.Pairs _ => true | _ => false end.

(** Known kinds and shapes, [descendants] of a definition domain only, no
    nested [pairs]. *)
Fixpoint domain_wf (d : Domain.t) : bool :=
  match d with
  | Domain.Children k => existsb (beq k) K
  | Domain.ChildrenByShape s => is_def_shape_name s
  | Domain.Descendants inner =>
      match inner with
      | Domain.Children _ | Domain.ChildrenByShape _ => domain_wf inner
      | _ => false
      end
  | Domain.Pairs inner => negb (is_pairs inner) && domain_wf inner
  | _ => true
  end.

(** A domain that is not over pairs. *)
Definition item_domain_wf (d : Domain.t) : bool :=
  domain_wf d && negb (Domain.contains_pair_domain d).

(** [pairs]: the bindings [a] and [b] of a [pairs(...)] filter are in scope. *)
Fixpoint collection_wf (pairs : bool) (c : CollectionExpr) : bool :=
  match c with
  | CProjection p =>
      item_domain_wf (cp_domain p) && collection_path_valid (cp_domain p) (cp_path p)
  | CPairProjection p =>
      pairs && item_domain_wf (pcp_domain p) && collection_path_valid (pcp_domain p) (pcp_path p)
  | Unique c => collection_wf pairs c
  | Binary _ l1 l2 => collection_wf pairs l1 && collection_wf pairs l2
  end.

Definition layout_wf (l : VerticalLayout) : bool :=
  domain_wf (layout_domain l) && (public_first l || private_after_first_use l) &&
  (max_gap l <=? 4294967295)%N.

(** The operators of each kind of left-hand side. *)
Definition op_typed (lhs : LhsExpr) (op : Op.t) : bool :=
  match lhs with
  | Attr l => Lhs.accepts_op l op
  | LPairProjection p => Lhs.accepts_op (pp_lhs p) op
  | Number _ =>
      match op with
      | Op.Lt | Op.Le | Op.Gt | Op.Ge | Op.Eq | Op.Ne => true
      | _ => false
      end
  | Collection _ => match op with Op.Subset | Op.Prefix => true | _ => false end
  | Mode _ => match op with Op.Eq | Op.Ne => true | _ => false end
  | SegmentOf _ _ =>
      match op with Op.Eq | Op.Ne | Op.RegexMatch | Op.RegexNoMatch => true | _ => false end
  end.

(** The right-hand sides of each operator. *)
Definition rhs_form (op : Op.t) (rhs : Rhs) : bool :=
  match op with
  | Op.RegexMatch | Op.RegexNoMatch => match rhs with RegexStr _ => true | _ => false end
  | Op.PathMatch => match rhs with RPathPattern _ => true | _ => false end
  | Op.AncestorOf | Op.DescendantOf | Op.BindMatch =>
      match rhs with CurrentProjection _ | RProjection _ | RMoniker _ => true | _ => false end
  | Op.Lt | Op.Le | Op.Gt | Op.Ge =>
      match rhs with
      | RPairProjection _ | CurrentProjection _ | RNumber _ => true
      | _ => false
      end
  | Op.Subset | Op.Prefix => match rhs with RCollection _ => true | _ => false end
  | Op.Eq | Op.Ne =>
      match rhs with
      | Str _ | RPairProjection _ | CurrentProjection _ | RNumber _ | RMoniker _
      | RProjection _ => true
      | _ => false
      end
  end.

(** The types of the two sides agree. *)
Definition sides_typed (lhs : LhsExpr) (rhs : Rhs) : bool :=
  match lhs with
  | Number _ =>
      match rhs with
      | RNumber _ | RPairProjection _ => true
      | CurrentProjection l => Lhs.is_number_projection l
      | _ => false
      end
  | Collection _ => match rhs with RCollection _ => true | _ => false end
  | Attr l =>
      match rhs with
      | RProjection r | CurrentProjection r =>
          negb (Lhs.is_moniker_projection l) || Lhs.is_moniker_projection r
      | _ => true
      end
  | _ => true
  end.

(** The compiled expression is there exactly for the regex operators. *)
Definition regex_ok (op : Op.t) (regex : option Regex) : bool :=
  match op with
  | Op.RegexMatch | Op.RegexNoMatch => is_some regex
  | _ => negb (is_some regex)
  end.

Definition moniker_ok (m : Moniker.t) : bool :=
  match Moniker.from_encoded (Moniker.encoded m) with Ok _ => true | _ => false end.

Definition is_percentile (k : AggregateKind) : bool :=
  match k with Percentile => true | _ => false end.

Fixpoint node_wf (pairs : bool) (n : Node) : bool :=
  match n with
  | NAtom a => atom_wf pairs a
  | And l | Or l => (2 <=? length l) && forallb (node_wf pairs) l
  | Not n => node_wf pairs n
  | Implies l1 l2 => node_wf pairs l1 && node_wf pairs l2
  | Require_ _ => true
  | NVerticalLayout l => layout_wf l
  | Quantifier _ d f => domain_wf d && node_wf (pairs || is_pairs d) f
  end
with atom_wf (pairs : bool) (a : Atom) : bool :=
  match a with
  | mk_atom lhs op rhs _ regex =>
      lhs_wf pairs lhs && rhs_wf pairs rhs && op_typed lhs op && rhs_form op rhs &&
      sides_typed lhs rhs && regex_ok op regex
  end
with lhs_wf (pairs : bool) (lhs : LhsExpr) : bool :=
  match lhs with
  | Attr l => negb (Lhs.is_number_projection l)
  | Number e => number_wf pairs e
  | Collection c => collection_wf pairs c
  | Mode v => domain_value_wf pairs v
  | LPairProjection _ => pairs
  | SegmentOf _ kind => negb (beq kind [])
  end
with number_wf (pairs : bool) (e : NumberExpr) : bool :=
  match e with
  | NLiteral _ | Metric _ _ => true
  | NProjection l => Lhs.is_number_projection l
  | Count d f =>
      domain_wf d && match f with Some f => node_wf (pairs || is_pairs d) f | None => true end
  | Aggregate k d e p =>
      item_domain_wf d && number_wf pairs e && Bool.eqb (is_some p) (is_percentile k)
  | Entropy v => domain_value_wf pairs v
  | Size c => collection_wf pairs c
  end
with domain_value_wf (pairs : bool) (v : DomainValueExpr) : bool :=
  match v with
  | mk_domain_value d e f =>
      item_domain_wf d && value_wf pairs e &&
      match f with Some f => node_wf pairs f | None => true end
  end
with value_wf (pairs : bool) (v : ValueExpr) : bool :=
  match v with
  | Item | VProjection _ => true
  | VNumber e => number_wf pairs e
  end
with rhs_wf (pairs : bool) (r : Rhs) : bool :=
  match r with
  | RNumber e => number_wf pairs e
  | RMoniker m => moniker_ok m
  | RPairProjection _ => pairs
  | RCollection c => collection_wf pairs c
  | RegexStr _ | Str _ | RPathPattern _ | RProjection _ | CurrentProjection _ => true
  end.

End typing.
End Typing.

Module AtomFacts.
Import StrFacts Cursor CursorFacts Ast DslAtom Typing.
Section facts.
Context {RE : RegexEngine}.
Context (K : list bytes).

(** ** Pieces of text *)

Lemma cut_ascii s c : utf8 s -> is_ascii c = true ->
  match split_once c s with
  | Some (l, r) => utf8 l /\ utf8 r /\ length l + S (length r) = length s
  | None => True
  end.
Proof.
  intros Hs Hc. unfold split_once. destruct (position (ceq c) s) as [i |] eqn:Hp; [| done].
  apply position_Some in Hp as (pre & x & suf & -> & <- & Hx & _). apply ceq_true in Hx as <-.
  rewrite take_app_length, drop_app, (drop_ge pre), app_nil_l by lia.
  rewrite Nat.sub_succ_l, Nat.sub_diag by done. cbn [drop]. rewrite drop_0.
  assert (utf8 pre) as Hpre by (by eapply (from_utf8_cut _ c)).
  rewrite from_utf8_app, from_utf8_cons in Hs by done.
  split_and!; [done | done |]. rewrite length_app. cbn. lia.
Qed.

Lemma quoted_slice s q :
  utf8 s -> is_ascii q = true -> quoted_by s q = true ->
  exists t, str_slice (E:=ParseError) s 1 (length s - 1) = Ok t /\ utf8 t /\ length t <= length s.
Proof.
  intros Hs Hq H. unfold quoted_by in H. bool_inv.
  match goal with H : ends_with _ _ = true |- _ => rename H into He end.
  match goal with H : starts_with _ _ = true |- _ => rename H into Hb end.
  apply starts_with_spec in Hb as [r Hb]. cbn [app] in Hb.
  unfold ends_with in He. apply starts_with_spec in He as [r' He]. cbn in He.
  apply (f_equal reverse) in He. rewrite reverse_involutive, reverse_cons in He.
  assert (s !! 0 = Some q) as Hz by (by rewrite Hb).
  assert (s !! (length s - 1) = Some q) as Hz1.
  { rewrite He, length_app. cbn [length]. rewrite Nat.add_sub. by apply list_lookup_middle. }
  destruct (str_slice_ok (E:=ParseError) s 1 (length s - 1)) as (t & Ht & Hu & Hl & _).
  - done.
  - by eapply (boundary_ascii s 0).
  - by eapply (boundary_ascii s (length s - 1)).
  - lia.
  - exists t. split_and!; [done | done | lia].
Qed.

Lemma unquote_ok s : utf8 s -> post (unquote s) (fun t => utf8 t).
Proof.
  intros Hs. unfold unquote. apply trim_utf8 in Hs.
  destruct (quoted_by (trim s) "'"%char) eqn:H1; cbn [orb].
  - destruct (quoted_slice _ "'"%char Hs eq_refl H1) as (t & -> & Ht & _). exact Ht.
  - destruct (quoted_by (trim s) dquote) eqn:H2; [| exact Hs].
    destruct (quoted_slice _ dquote Hs eq_refl H2) as (t & -> & Ht & _). exact Ht.
Qed.

(** ** Monikers and bindings *)

Lemma moniker_ok_valid m p segs : Moniker.valid m p segs -> moniker_ok m = true.
Proof. intros H. unfold moniker_ok. by rewrite (MonikerFacts.from_encoded_valid _ _ _ H). Qed.

Lemma pair_projection_ok s full b :
  post (parse_pair_projection s full b) (fun o => is_some o = true -> b = true).
Proof.
  unfold parse_pair_projection. destruct (default _ _) as [side proj].
  destruct (if beq side (bs "a") then _ else _); [| done].
  destruct b; cbn [negb]; [| done]. destruct (beq proj []); [done |].
  destruct (pair_projection_lhs proj); done.
Qed.

(** ** Calls of metrics and measures *)

Section cursor.
Context (inp : bytes).

Lemma find_prefix_ok {A} (l : list (bytes * A)) lo b st n x :
  ok K inp lo b st -> Forall (fun e => forallb is_ascii e.1 = true) l ->
  List.find (fun e => match strip_prefix e.1 (drop (pos st) inp) with
                      | Some after => starts_with (bs "(") after
                      | None => false
                      end) l = Some (n, x) ->
  ok K inp (lo + length n) b (advance st (length n)).
Proof.
  intros H Hl Hf. apply find_some in Hf as [Hin Hs]. cbn [fst] in Hs.
  rewrite Forall_forall in Hl. specialize (Hl _ (proj2 (list_elem_of_In _ _) Hin)).
  destruct (strip_prefix n _) as [after |] eqn:E; [| done]. apply strip_prefix_Some in E.
  apply ok_advance_all; [done | | done]. rewrite E. apply starts_with_spec. by exists after.
Qed.

Lemma metric_prefix_ok lo b st :
  ok K inp lo b st ->
  post (metric_prefix st) (fun o =>
    match o with Some (n, _) => ok K inp (lo + length n) b (advance st (length n)) | None => True end).
Proof.
  intros H. unfold metric_prefix. rewrite (proj1 (rest_ok _ _ _ _ _ H)), ret_bind. cbn [post].
  destruct (List.find _ METRIC_NAMES) as [[n x] |] eqn:Hf; [| done].
  eapply find_prefix_ok; [done | | done]. repeat constructor.
Qed.

Lemma close_step lo b st c :
  ok K inp lo b st -> peek_is st c = true -> is_ascii c = true ->
  ok K inp lo b (advance st 1).
Proof. intros H Hc Ha. eapply ok_le; [by eapply ok_advance_is |]. lia. Qed.

Lemma metric_body_ok lo b st name :
  ok K inp lo b st -> post (parse_metric_call_body st name) (fun r => ok K inp lo b r.2).
Proof.
  intros H. unfold parse_metric_call_body. destruct (peek_is st "("%char) eqn:Hp; [| done].
  cbn [negb]. eapply post_bind.
  { apply take_scan_ok; [apply ok_skip_ws; by eapply close_step | apply ascii_class_alpha]. }
  intros [tok st'] [Hst _]. cbn [fst snd] in *.
  eapply (post_bind _ _ (fun _ => True)); [by repeat case_match |]. intros binding _.
  destruct (peek_is _ ")"%char) eqn:Hc; [| done]. cbn [negb].
  eapply close_step; [apply ok_skip_ws | done | done]. eapply ok_le; [done | lia].
Qed.

Lemma metric_expr_ok lo b st :
  ok K inp lo b st ->
  post (try_parse_metric_expr st) (fun r =>
    ok K inp lo b r.2 /\ match r.1 with Some e => number_wf K b e = true | None => r.2 = st end).
Proof.
  intros H. unfold try_parse_metric_expr. eapply post_bind; [by apply metric_prefix_ok |].
  intros [[n x] |]; [| by intros _].
  intros Hn. cbn in Hn. eapply post_bind.
  { eapply (metric_body_ok lo), ok_le; [exact Hn | lia]. }
  intros [binding st'] Hst. done.
Qed.

Lemma next_number_ok lo b st :
  ok K inp lo b st -> post (next_starts_number_call st) (fun _ => True).
Proof.
  intros H. unfold next_starts_number_call. rewrite (proj1 (rest_ok _ _ _ _ _ H)), ret_bind.
  destruct (existsb _ _); [done |]. unfold starts_metric_call.
  eapply post_bind; [by apply metric_prefix_ok | done].
Qed.

Lemma aggregate_prefix_ok lo b st :
  ok K inp lo b st ->
  post (aggregate_prefix st) (fun o =>
    match o with Some (n, _) => ok K inp (lo + length n) b (advance st (length n)) | None => True end).
Proof.
  intros H. unfold aggregate_prefix. rewrite (proj1 (rest_ok _ _ _ _ _ H)), ret_bind. cbn [post].
  destruct (List.find _ _) as [[n x] |] eqn:Hf; [| done].
  apply find_some in Hf as [Hin Hs]. eapply ok_advance_prefix; [done | done |].
  assert (Forall (fun e => forallb is_ascii e.1 = true) AGGREGATE_NAMES) as Hl by repeat constructor.
  rewrite Forall_forall in Hl. by apply (Hl (n, x)), list_elem_of_In.
Qed.

Lemma number_literal_ok lo b st :
  ok K inp lo b st -> post (parse_number_literal st) (fun r => ok K inp lo b r.2).
Proof.
  intros H. unfold parse_number_literal. eapply post_bind; [by apply take_number_literal_ok |].
  intros [tok st'] [Hst _]. cbn [fst snd] in *. destruct (beq tok []); [done |].
  assert (safe (parse_f64 tok)) as Hf.
  { unfold parse_f64. repeat case_match; try done. unfold ok_or. by destruct (flip _ _ <$> _). }
  destruct (parse_f64 tok); done.
Qed.

Lemma parse_f64_safe tok : safe (parse_f64 tok).
Proof. unfold parse_f64. repeat case_match; try done. unfold ok_or. by destruct (flip _ _ <$> _). Qed.

Lemma eat_collection_op_ok lo b st :
  ok K inp lo b st ->
  post (eat_collection_op st) (fun r =>
    ok K inp (if is_some r.1 then S lo else lo) b r.2).
Proof.
  intros H. unfold eat_collection_op.
  eapply post_bind; [by apply (eat_keyword_ok K inp lo b st (bs "intersect")) |].
  intros [[] st1] H1; cbn [fst snd] in *; [eapply ok_le; [done | rewrite length_bs; cbn; lia] |].
  eapply post_bind; [by apply (eat_keyword_ok K inp lo b st1 (bs "union")) |].
  intros [[] st2] H2; cbn [fst snd] in *; [eapply ok_le; [done | rewrite length_bs; cbn; lia] |].
  eapply post_bind; [by apply (eat_keyword_ok K inp lo b st2 (bs "diff")) |].
  intros [[] st3] H3; cbn [fst snd] in *; [eapply ok_le; [done | rewrite length_bs; cbn; lia] | done].
Qed.

End cursor.

(** ** The search for [subset] and [prefix] *)

Lemma comparison_loop_ok pre cs depth q :
  utf8 (pre ++ concat cs) -> Forall (fun c => utf8 c) cs ->
  post (comparison_loop (pre ++ concat cs) cs (length pre) depth q) (fun o =>
    match o with
    | Some (i, n) => is_char_boundary (pre ++ concat cs) i = true /\
        is_char_boundary (pre ++ concat cs) (i + n) = true /\ 1 <= n
    | None => True
    end).
Proof.
  intros Hu Hcs. revert pre depth q Hu. induction Hcs as [| c cs Hc Hcs IH]; intros pre depth q Hu;
    cbn [comparison_loop]; [done |].
  set (inp := pre ++ concat (c :: cs)) in *.
  assert (inp = (pre ++ c) ++ concat cs) as Hinp by (unfold inp; cbn; by rewrite app_assoc).
  assert (forall d q', post (comparison_loop inp cs (length pre + length c) d q') (fun o =>
    match o with
    | Some (i, n) => is_char_boundary inp i = true /\ is_char_boundary inp (i + n) = true /\ 1 <= n
    | None => True
    end)) as Hrec.
  { intros d q'. rewrite <- length_app, Hinp. apply IH. by rewrite <- Hinp. }
  assert (is_char_boundary inp (length pre) = true) as Hb.
  { apply boundary_app; [| done]. apply chars_concat. by constructor. }
  assert (forall kw, forallb is_ascii kw = true ->
    post (E:=ParseError) (if (depth =? 0)%Z then keyword_at inp (length pre) kw else mret false)
      (fun r => r = true -> is_char_boundary inp (length pre + length kw) = true)) as Hkw.
  { intros kw Ha. destruct (depth =? 0)%Z; [| done].
    eapply post_mono; [by apply keyword_at_ok |]. intros r Hr Ht. apply boundary_prefix; auto. }
  destruct q as [q |]; [apply Hrec |]. destruct (_ || _); [apply Hrec |].
  destruct (beq c (bs "(")); [apply Hrec |]. destruct (beq c (bs ")")); [apply Hrec |].
  eapply post_bind; [by apply (Hkw (bs "prefix")) |]. intros [] H1.
  { by refine (conj Hb (conj (H1 eq_refl) _)); lia. }
  eapply post_bind; [by apply (Hkw (bs "subset")) |]. intros [] H2; [| apply Hrec].
  refine (conj Hb (conj (H2 eq_refl) _)). rewrite length_bs. cbn. lia.
Qed.

Lemma find_comparison_ok s :
  utf8 s -> post (find_top_level_collection_comparison s) (fun o =>
    match o with
    | Some (i, n) => is_char_boundary s i = true /\ is_char_boundary s (i + n) = true /\ 1 <= n
    | None => True
    end).
Proof.
  intros Hs. unfold find_top_level_collection_comparison. pose proof Hs as [cs Hcs]%from_utf8_chars.
  rewrite Hcs. pose proof (chars_each _ _ Hcs) as He. apply chars_spec in Hcs as [<- _].
  by apply (comparison_loop_ok []).
Qed.

(** ** Atoms *)

Lemma check_type_ok lhs op full :
  post (check_type lhs op full) (fun _ => op_typed lhs op = true).
Proof.
  unfold check_type, check_lhs_attr. destruct lhs; cbn [op_typed]; try (by destruct op);
    by destruct (Lhs.accepts_op _ op).
Qed.

Lemma check_rhs_type_ok lhs rhs full :
  post (check_rhs_type lhs rhs full) (fun _ => sides_typed lhs rhs = true).
Proof.
  unfold check_rhs_type, sides_typed. destruct lhs; cbn [is_number_lhs andb]; try done.
  - destruct (Lhs.is_moniker_projection l); [| by destruct rhs]. cbn [andb negb orb].
    destruct rhs; try done; by destruct (Lhs.is_moniker_projection _).
  - destruct rhs; try done. by destruct (Lhs.is_number_projection _).
  - by destruct rhs.
Qed.

Lemma build_atom_ok lhs op rhs raw full b :
  lhs_wf K b lhs = true -> rhs_wf K b rhs = true -> rhs_form op rhs = true ->
  post (build_atom lhs op rhs raw full) (fun a => atom_wf K b a = true).
Proof.
  intros Hl Hr Hf. unfold build_atom.
  eapply post_bind; [apply check_type_ok |]. intros [] Ht.
  eapply post_bind; [apply check_rhs_type_ok |]. intros [] Hs.
  eapply (post_bind _ _ (fun regex => regex_ok op regex = true)).
  - clear Ht Hs. destruct op; try done; destruct rhs; try done; by destruct (regex_new _).
  - intros regex Hre. change (lhs_wf K b lhs && rhs_wf K b rhs && op_typed lhs op && rhs_form op rhs &&
      sides_typed lhs rhs && regex_ok op regex = true). by rewrite Hl, Hr, Ht, Hf, Hs, Hre.
Qed.

Lemma has_segment_ok raw full b :
  utf8 raw ->
  post (parse_has_segment raw full) (fun o =>
    match o with Some a => atom_wf K b a = true | None => True end).
Proof.
  intros Hraw. unfold parse_has_segment.
  destruct (strip_prefix _ raw ≫= _) as [args |] eqn:Hs; [| done].
  apply bind_Some in Hs as (s & Hp & Hsuf). apply strip_prefix_Some in Hp as ->.
  apply strip_suffix_Some in Hsuf as ->.
  rewrite from_utf8_app in Hraw by done.
  assert (utf8 args) as Ha by (by eapply (from_utf8_cut _ ")"%char)).
  pose proof (cut_ascii args ","%char Ha eq_refl) as Hcut.
  destruct (split_once _ args) as [[kind name] |]; [| done]. destruct Hcut as (Hk & Hn & _).
  eapply post_bind; [by apply unquote_ok, trim_utf8 |]. intros k Hku.
  eapply post_bind; [by apply unquote_ok, trim_utf8 |]. intros n Hnu.
  destruct (_ || _); [done |].
  eapply (post_bind _ _ (fun _ => True)).
  { apply post_map_err, PathFacts.parse_post.
    rewrite !from_utf8_app; done || by rewrite ?from_utf8_app. }
  intros p _. eapply post_bind; [by apply (build_atom_ok _ _ _ _ _ b) |]. done.
Qed.

Lemma parse_op_ok s full : post (parse_op s full) (fun _ => True).
Proof. unfold parse_op. by repeat case_match. Qed.

Lemma parse_lhs_ok s full b : post (parse_lhs s full b) (fun l => lhs_wf K b l = true).
Proof.
  unfold parse_lhs. destruct (starts_with _ s); [done |].
  eapply post_bind; [apply pair_projection_ok |]. intros [p |] Hp; [by apply Hp |].
  destruct (unsupported_measure_message s); [done |].
  destruct (Lhs.from_projection_name s) as [l |]; [| done].
  destruct (Lhs.is_number_projection l) eqn:Hn; cbn; by rewrite Hn.
Qed.

Lemma lhs_token_end_ok s e :
  utf8 s -> lhs_token_end s = Some e -> is_char_boundary s e = true /\ 1 <= e.
Proof.
  intros Hs. unfold lhs_token_end. set (start := scan_while is_ascii_whitespace s 0).
  set (f := fun c => is_ascii_alphabetic c || ceq c "_"%char || ceq c "."%char).
  set (i := scan_while f s start).
  assert (is_char_boundary s start = true) as H0 by (by apply scan_boundary; auto using ascii_class_ws).
  assert (is_char_boundary s i = true) as H1.
  { apply scan_boundary; [done | done |]. unfold f. auto 10 with moniker. }
  pose proof (scan_ge f s start) as Hge. fold i in Hge.
  destruct (i =? start) eqn:Hi; [done |]. bool_inv.
  case_bool_decide as Hp; [| intros [= <-]; split; [done | lia]].
  set (j := scan_while (fun c => negb (ceq c ")"%char)) s (i + 1)).
  assert (i + 1 <= length s) as Hlt by (apply lookup_lt_Some in Hp; lia).
  pose proof (scan_stop s (i + 1) (fun c => negb (ceq c ")"%char)) Hlt) as Hst. fold j in Hst.
  destruct (j =? length s) eqn:Hj; [done |]. intros [= <-]. bool_inv. split; [| lia].
  destruct (s !! j) as [c |] eqn:Hc; [| congruence]. bool_inv. apply ceq_true in Hst as ->.
  by eapply (boundary_ascii s j).
Qed.

Lemma split_atom_ok s full :
  utf8 s ->
  post (split_atom s full) (fun r => utf8 r.2 /\ length r.2 < length s).
Proof.
  intros Hs. unfold split_atom. destruct (lhs_token_end s) as [e |] eqn:He; [| done].
  cbn [ok_or]. rewrite ret_bind. apply lhs_token_end_ok in He as [Hb He1]; [| done].
  destruct (str_from_ok (E:=ParseError) s e Hs Hb) as [-> Hafter]. rewrite ret_bind.
  set (after := drop e s) in *. set (after_lhs := trim_start after).
  destruct (trim_start_split after) as (w & Hw & _). fold after_lhs in Hw.
  assert (utf8 after_lhs) as Hal by (by apply trim_start_utf8).
  pose proof (boundary_le _ _ Hb) as Hele.
  assert (length after = length s - e) as Hla by (unfold after; by rewrite length_drop).
  destruct (operator_at after_lhs) as [[op n] |] eqn:Ho; [| done].
  apply operator_at_spec in Ho as (-> & Hst & Ha & Hn).
  destruct (str_to_ok (E:=ParseError) s e Hs Hb) as [-> _]. rewrite ret_bind.
  pose proof (boundary_prefix after_lhs 0 op Hal (boundary_0 _) Ha) as Hbo.
  rewrite drop_0 in Hbo. specialize (Hbo Hst). cbn [Nat.add] in Hbo.
  destruct (str_from_ok (E:=ParseError) after_lhs (length op) Hal Hbo) as [-> Hrhs]. rewrite ret_bind.
  destruct (_ || _); [done |].
  assert (length after = length w + length after_lhs) as Hlw by (by rewrite Hw, length_app at 1).
  assert (s = (take e s ++ w) ++ after_lhs) as Hsplit.
  { rewrite <- app_assoc, <- Hw. unfold after. by rewrite take_drop. }
  assert (length s - length after_lhs = length (take e s ++ w)) as Hoff.
  { rewrite Hsplit at 1. rewrite length_app. lia. }
  apply starts_with_spec in Hst as [r Hr].
  destruct (str_slice_ok (E:=ParseError) s (length s - length after_lhs)
    (length s - length after_lhs + length op)) as (t & -> & _).
  - done.
  - rewrite Hoff. rewrite Hsplit at 1. by apply boundary_app.
  - rewrite Hoff. rewrite Hsplit at 1. rewrite Hr, app_assoc. apply boundary_app.
    + rewrite Hr, from_utf8_app in Hal by (by apply from_utf8_ascii). done.
    + by rewrite (length_app (take e s ++ w) op).
  - lia.
  - rewrite ret_bind. split; cbn [fst snd]; [by apply trim_utf8 |].
    eapply Nat.le_lt_trans; [apply length_trim |]. rewrite length_drop. lia.
Qed.

End facts.
End AtomFacts.
