(* ===== verification/DslFacts.v ===== *)
(** The rule parser is total: on every UTF-8 text it returns a tree or an error,
    never panics and never exhausts its fuel, and the trees it returns are well
    typed. *)

From S2P Require Import Prelude.
From S2P Require Import RustStr.
From S2P Require Import StrFacts.
From S2P Require Import Moniker.
From S2P Require Import Uri.
From S2P Require Import UriFacts.
From S2P Require Import Path.
From S2P Require Import PathFacts.
From S2P Require Import DslAst.
From S2P Require Import DslCursor.
From S2P Require Import DslAtom.
From S2P Require Import DslParse.
From S2P Require Import DslTyping.

Module DslFacts.
Import StrFacts Cursor CursorFacts Ast DslAtom DslParse Typing AtomFacts.
Section facts.
Context {RE : RegexEngine}.
Context (K : list bytes).

(** ** What a parser promises

    Run at a position with fewer than [N] bytes left, it neither panics nor runs
    out of fuel, does not go back, and its value satisfies [Q]. *)
Definition parses {A} (N : nat) (p : ParserState -> P A) (Q : bool -> A -> Prop) : Prop :=
  forall inp lo b st, ok K inp lo b st -> length inp - lo < N ->
  post (p st) (fun r => ok K inp lo b r.2 /\ Q b r.1).

Definition opt {A} (Q : bool -> A -> Prop) (b : bool) (o : option A) : Prop :=
  match o with Some a => Q b a | None => True end.

Definition node_good (b : bool) (n : Node) : Prop := node_wf K b n = true.
Definition domain_good (_ : bool) (d : Domain.t) : Prop := domain_wf K d = true.
Definition number_good (b : bool) (e : NumberExpr) : Prop := number_wf K b e = true.
Definition collection_good (b : bool) (c : CollectionExpr) : Prop := collection_wf K b c = true.
Definition atom_good (b : bool) (a : Atom) : Prop := atom_wf K b a = true.

(** The interface of the knot: the parsers the others call back. *)
Record good (N : nat) (self : Parsers) : Prop := mk_good {
  good_expr : parses N (p_expr self) node_good;
  good_not : parses N (p_not self) node_good;
  good_domain : parses N (p_domain self) domain_good;
  good_number : parses N (p_number self) number_good;
  good_collection : parses N (p_collection self) collection_good
}.

Lemma prefix_step inp lo b st p n :
  ok K inp lo b st -> starts_with p (drop (pos st) inp) = true -> forallb is_ascii p = true ->
  1 <= n <= length p -> ok K inp (S lo) b (advance st n).
Proof.
  intros H Hs Ha Hn. rewrite <- (take_drop n p) in Hs.
  replace n with (length (take n p)) by (rewrite length_take; lia).
  eapply ok_le; [eapply ok_advance_prefix; [done | done |] | rewrite length_take; lia].
  rewrite <- (take_drop n p), forallb_app in Ha. by bool_inv.
Qed.

Lemma close_paren_ok inp lo b st msg :
  ok K inp lo b st -> post (close_paren st msg) (fun st' => ok K inp (S lo) b st').
Proof.
  intros H. unfold close_paren. destruct (peek_is st ")"%char) eqn:Hp; [| done].
  by eapply ok_advance_is.
Qed.

Lemma reject_pair_ok st d ctx :
  post (reject_pair_domain st d ctx) (fun _ => Domain.contains_pair_domain d = false).
Proof. unfold reject_pair_domain. by destruct (Domain.contains_pair_domain d). Qed.

Lemma validate_path_ok d path full :
  post (validate_collection_projection_path d path full)
    (fun _ => collection_path_valid d path = true).
Proof. unfold validate_collection_projection_path. by destruct (collection_path_valid d path). Qed.

Lemma weaken inp lo b st : ok K inp (S lo) b st -> ok K inp lo b st.
Proof. intros. eapply ok_le; [done | lia]. Qed.

(** ** Automation *)

(** A position reached from one that is known. *)
Ltac at_pos :=
  first [ eassumption | eapply ok_le; [eassumption | lia] |
  lazymatch goal with
  | |- ok _ _ _ _ (skip_ws _) => apply ok_skip_ws; at_pos
  | |- ok _ _ _ _ (with_pair_bindings_allowed _ _) => eapply ok_with_pairs; at_pos
  | H : peek_is ?st ?c = true |- ok _ _ _ _ (advance ?st 1) =>
      first [ eapply ok_advance_is | apply weaken; eapply ok_advance_is ];
      [at_pos | exact H | reflexivity]
  end ].

(** The arithmetic of the text that is left. *)
Ltac bound :=
  repeat match goal with H : ok _ _ _ _ _ |- _ => apply ok_len in H end; lia.

(** A parser called back after the text has moved on. *)
Lemma call_back {A} N (p : ParserState -> P A) Q inp lo b st :
  parses N p Q -> ok K inp (S lo) b st -> length inp - lo < S N ->
  post (p st) (fun r => ok K inp (S lo) b r.2 /\ Q b r.1).
Proof. intros H Hst Hn. apply H; [done |]. bound. Qed.

(** One step of a parser: [H] specifies what it calls, [x] is its value, [st]
    the state it leaves; [step] calls back, [run] calls at the same place. *)
Ltac step H x st Hst Hx :=
  eapply post_bind; [eapply (call_back _ _ _ _ _ _ _ H); [at_pos | first [eassumption | lia]] |];
  intros [x st] [Hst Hx]; cbn [fst snd] in Hst, Hx.

Ltac run H x st Hst Hx :=
  eapply post_bind; [eapply H; [at_pos | first [eassumption | bound]] |];
  intros [x st] [Hst Hx]; cbn [fst snd] in Hst, Hx.

Ltac close st Hst :=
  eapply post_bind; [eapply close_paren_ok; at_pos |]; intros st Hst; cbv beta in Hst.

(** The test of a fixed prefix at the position of [H]. *)
Ltac prefix H p Hp :=
  rewrite (at_prefix_ok _ _ _ _ _ (bs p) H), ret_bind;
  destruct (starts_with (bs p) _) eqn:Hp; cbn [negb].

Ltac after_prefix H Hp st n H' :=
  assert (ok K _ (S _) _ (advance st n)) as H'
    by (eapply prefix_step; [exact H | exact Hp | reflexivity | vm_compute; lia]).

Ltac finish := refine (conj _ _); cbn [fst snd]; [at_pos |].

Section bodies.
Context (N : nat) (self : Parsers).
Context (Hself : good N self).

(** ** Domains *)

Lemma descendants_ok inp lo b st :
  ok K inp lo b st -> length inp - lo < S N ->
  starts_with (bs "descendants(") (drop (pos st) inp) = true ->
  post (parse_descendants_domain self st) (fun r => ok K inp lo b r.2 /\ domain_good b r.1).
Proof.
  intros H Hn Hp. unfold parse_descendants_domain.
  after_prefix H Hp st (length (bs "descendants(")) H1.
  step (good_domain _ _ Hself) inner st2 H2 Hd.
  destruct (negb _) eqn:Hk; [done |]. close st3 H3. finish. bool_inv. by destruct inner.
Qed.

Lemma pair_domain_ok inp lo b st :
  ok K inp lo b st -> length inp - lo < S N ->
  starts_with (bs "pairs(") (drop (pos st) inp) = true ->
  post (parse_pair_domain self st) (fun r => ok K inp lo b r.2 /\ domain_good b r.1).
Proof.
  intros H Hn Hp. unfold parse_pair_domain. rewrite (at_prefix_ok _ _ _ _ _ _ H), ret_bind, Hp.
  cbn [negb]. after_prefix H Hp st (length (bs "pairs(")) H1.
  step (good_domain _ _ Hself) inner st2 H2 Hd.
  destruct (match inner with Domain.Pairs _ => true | _ => false end) eqn:Hk; [done |].
  close st3 H3. finish. unfold domain_good in *. cbn [domain_wf]. rewrite Hd, andb_true_r.
  by destruct inner.
Qed.

Lemma domain_of_ident_ok inp lo b st ident :
  ok K inp lo b st -> post (domain_of_ident ident st) (fun d => domain_good b d).
Proof.
  intros H. unfold domain_of_ident. destruct (List.find _ _) as [[n d] |] eqn:Hf.
  { eapply (find_row _ (fun e => domain_wf K e.2 = true)) in Hf as [Hd _]; [exact Hd |].
    repeat constructor. }
  destruct (starts_with _ ident).
  - destruct (is_def_shape_name _) eqn:Hs; [exact Hs | done].
  - rewrite (ok_kinds _ _ _ _ _ H). destruct (existsb _ K) eqn:Hk; [exact Hk | done].
Qed.

Lemma parse_domain_ident_ok : parses (S N) (parse_domain_ident self) domain_good.
Proof.
  intros inp lo b st H Hn. unfold parse_domain_ident. prefix H "pairs(" Hp.
  { by apply pair_domain_ok. }
  prefix H "descendants(" Hd.
  { by apply descendants_ok. }
  rewrite (proj1 (rest_ok _ _ _ _ _ H)), ret_bind.
  destruct (List.find _ REF_DOMAINS) as [[n d] |] eqn:Hf.
  { eapply (find_row _ (fun e => forallb is_ascii e.1 = true /\ domain_wf K e.2 = true))
      in Hf as [[Ha Hd'] Hs]; [| repeat constructor].
    split; [| exact Hd']. eapply ok_le; [by eapply ok_advance_all | lia]. }
  eapply post_bind.
  { apply (take_scan_ok K inp lo); [exact H |]. auto 10 with moniker. }
  intros [ident st1] [H1 _]; cbn [fst snd] in *. destruct (beq ident []); [done |].
  eapply post_bind; [by eapply domain_of_ident_ok |]. intros d Hd'. finish. exact Hd'.
Qed.

(** A domain and, in [f], what the body parsed with the bindings it opens. *)
Definition body_good (b : bool) (df : Domain.t * option Node) : Prop :=
  domain_good b df.1 /\ opt node_good (b || Typing.is_pairs df.1) df.2.

Lemma filter_body_ok : parses (S N) (fun st => parse_domain_filter_body self st (p_expr self)) body_good.
Proof.
  intros inp lo b st H Hn. unfold parse_domain_filter_body.
  destruct (peek_is st "("%char) eqn:Hp; [| done]. cbn [negb].
  step (good_domain _ _ Hself) domain st1 H1 Hd.
  eapply (post_bind _ _ (fun r : option Node * ParserState =>
    ok K inp lo b r.2 /\ opt node_good (b || Typing.is_pairs domain) r.1)).
  - destruct (peek_is _ ","%char) eqn:Hc; [| finish; done].
    rewrite (ok_pairs _ _ _ _ _ (ltac:(at_pos) : ok K inp lo b (advance (skip_ws st1) 1))).
    step (good_expr _ _ Hself) f st2 H2 Hf. finish. exact Hf.
  - intros [f st2] [H2 Hf]; cbn [fst snd] in *. close st3 H3. finish. split; done.
Qed.

Lemma count_ok :
  parses (S N) (try_parse_count_expr self) (opt number_good).
Proof.
  intros inp lo b st H Hn. unfold try_parse_count_expr. prefix H "count(" Hp; [| finish; done].
  after_prefix H Hp st (length (bs "count")) H1.
  eapply post_bind; [eapply filter_body_ok; [at_pos | bound] |].
  intros [[d f] st2] [H2 [Hd Hf]]; cbn [fst snd] in *. finish.
  cbn [opt]. unfold number_good. cbn [number_wf]. unfold domain_good in Hd. rewrite Hd. by destruct f.
Qed.

(** ** Collections *)

Lemma projection_loop_ok inp b msg fuel : forall lo st path,
  ok K inp lo b st -> length inp - lo < fuel ->
  post (projection_loop fuel st path msg) (fun r => ok K inp lo b r.2).
Proof.
  induction fuel as [| fuel IH]; intros lo st path H Hn; [lia |]. cbn [projection_loop].
  destruct (peek_is _ "."%char) eqn:Hp; cbn [negb]; [| by apply ok_skip_ws].
  eapply post_bind.
  { apply (take_scan_ok K inp (S lo)); [at_pos | auto 10 with moniker]. }
  intros [seg st1] [H1 _]; cbn [fst snd] in *. destruct (beq seg []); [done |].
  eapply post_mono; [apply (IH (S lo)); [at_pos | bound] |].
  intros r Hr. by apply weaken.
Qed.

Lemma loop_fuel_ok inp lo b st : ok K inp lo b st -> length inp - lo < loop_fuel st.
Proof. intros []. unfold loop_fuel. replace (input st) with inp by done. lia. Qed.

Lemma collection_call_ok name :
  parses (S N) (fun st => parse_collection_call_body self st name) collection_good.
Proof.
  intros inp lo b st H Hn. unfold parse_collection_call_body.
  destruct (peek_is st "("%char) eqn:Hp; [| done]. cbn [negb].
  step (good_collection _ _ Hself) expr st1 H1 He. close st2 H2. finish. exact He.
Qed.

(** What follows the domain of a projection: its path, checked. *)
Lemma projection_tail_ok {A} inp lo b st domain (ctx msg : bytes) (mk : list bytes -> A) Q :
  ok K inp lo b st ->
  (forall path, Domain.contains_pair_domain domain = false ->
     collection_path_valid domain path = true -> Q (mk path)) ->
  post (_ ← reject_pair_domain st domain ctx;
        '(path, st) ← projection_loop (loop_fuel st) st [] msg;
        _ ← validate_collection_projection_path domain path (raw st);
        mret (mk path, st)) (fun r => ok K inp lo b r.2 /\ Q r.1).
Proof.
  intros H HQ. eapply post_bind; [apply reject_pair_ok |]. intros [] Hp.
  eapply post_bind; [eapply projection_loop_ok; [exact H | by eapply loop_fuel_ok] |].
  intros [path st1] H1; cbn [fst snd] in *.
  eapply post_bind; [apply validate_path_ok |]. intros [] Hv. finish. by apply HQ.
Qed.

Lemma pair_collection_ok :
  parses (S N) (try_parse_pair_collection_projection self) (opt collection_good).
Proof.
  intros inp lo b st H Hn. unfold try_parse_pair_collection_projection.
  rewrite (at_prefix_ok _ _ _ _ _ (bs "a.") H), ret_bind.
  rewrite (at_prefix_ok _ _ _ _ _ (bs "b.") H), ret_bind.
  set (side := if starts_with (bs "a.") _ then _ else _).
  destruct side as [side' |] eqn:Hside; [| finish; done].
  rewrite (ok_pairs _ _ _ _ _ H). destruct b eqn:Hb; [| done]. cbn [negb].
  assert (ok K inp (S lo) true (advance st 2)) as H1.
  { unfold side in Hside. destruct (starts_with (bs "a.") _) eqn:Ha;
      [| destruct (starts_with (bs "b.") _) eqn:Hb'; [| done]];
      eapply prefix_step; try done; vm_compute; lia. }
  step (good_domain _ _ Hself) domain st2 H2 Hd.
  eapply post_mono.
  { apply (projection_tail_ok inp (S lo) true st2 domain _ _
      (fun path => Some (CPairProjection (mk_pair_collection_projection side' domain path)))
      (opt collection_good true)); [exact H2 |].
    intros path Hp Hv. cbn [opt]. unfold collection_good, domain_good in *.
    cbn [collection_wf pcp_domain pcp_path]. unfold item_domain_wf. by rewrite Hd, Hp, Hv. }
  intros r [Hr1 Hr2]. split; [by apply weaken | done].
Qed.

Lemma collection_primary_ok : parses (S N) (parse_collection_primary self) collection_good.
Proof.
  intros inp lo b st H Hn. unfold parse_collection_primary. apply ok_skip_ws in H.
  prefix H "unique(" Hu.
  { after_prefix H Hu (skip_ws st) (length (bs "unique")) H1.
    run (collection_call_ok (bs "unique")) expr st2 H2 He. finish. exact He. }
  destruct (peek_is _ "("%char) eqn:Hp.
  { step (good_collection _ _ Hself) expr st2 H2 He. close st3 H3. finish. exact He. }
  run pair_collection_ok o st1 H1 Ho. destruct o as [expr |]; [finish; exact Ho |].
  rewrite (at_prefix_ok _ _ _ _ _ (bs "current.") H1), ret_bind.
  set (current := starts_with (bs "current.") _).
  assert (ok K inp lo b (if current then advance st1 8 else st1)) as H2.
  { unfold current. destruct (starts_with (bs "current.") _) eqn:Hc; [| exact H1]. after_prefix H1 Hc st1 8 H2.
    by apply weaken. }
  run parse_domain_ident_ok domain st3 H3 Hd.
  apply (projection_tail_ok inp lo b st3 domain _ _
    (fun path => CProjection (mk_collection_projection current domain path)) (collection_good b));
    [exact H3 |].
  intros path Hpd Hv. unfold collection_good, domain_good in *.
  cbn [collection_wf cp_domain cp_path]. unfold item_domain_wf. by rewrite Hd, Hpd, Hv.
Qed.

Lemma collection_loop_ok inp b fuel : forall lo expr st,
  ok K inp lo b st -> length inp - lo < S N -> length inp - lo < fuel -> collection_good b expr ->
  post (collection_loop self fuel expr st) (fun r => ok K inp lo b r.2 /\ collection_good b r.1).
Proof.
  induction fuel as [| fuel IH]; intros lo expr st H Hn Hf He; [lia |]. cbn [collection_loop].
  eapply post_bind; [eapply eat_collection_op_ok; at_pos |].
  intros [[op |] st1] H1; cbn [fst snd is_some] in *; [| finish; exact He].
  run collection_primary_ok r st2 H2 Hr.
  eapply post_mono.
  { apply (IH (S lo) (Binary op expr r) st2); [exact H2 | lia | bound |].
    unfold collection_good in *. cbn [collection_wf]. by rewrite He, Hr. }
  intros r' [Hr1 Hr2]. split; [by apply weaken | exact Hr2].
Qed.

Lemma parse_collection_expr_ok : parses (S N) (parse_collection_expr self) collection_good.
Proof.
  intros inp lo b st H Hn. unfold parse_collection_expr.
  run collection_primary_ok expr st1 H1 He.
  eapply collection_loop_ok; [exact H1 | exact Hn | by eapply loop_fuel_ok | exact He].
Qed.

Lemma parse_full_ok {A} (p : ParserState -> P A) Q msg s scheme full b :
  parses N p Q -> utf8 s -> length s < N -> post (parse_full p msg s scheme K full b) (Q b).
Proof.
  intros Hp Hs Hl. unfold parse_full. eapply post_bind.
  { apply (Hp s 0 b); [| lia]. by split; try done; apply boundary_0. }
  intros [expr st] [H HQ]; cbn [fst snd] in *. apply ok_skip_ws in H.
  destruct (is_at_end _); [exact HQ |]. cbn [negb].
  by rewrite (proj1 (rest_ok _ _ _ _ _ H)), ret_bind.
Qed.

Lemma collection_full_ok s scheme full b :
  utf8 s -> length s < N ->
  post (parse_collection_expr_full self s scheme K full b) (collection_good b).
Proof. apply parse_full_ok, (good_collection _ _ Hself). Qed.

Lemma comparison_atom_ok :
  parses (S N) (try_parse_collection_comparison_atom self) (opt atom_good).
Proof.
  intros inp lo b st H Hn. unfold try_parse_collection_comparison_atom. apply ok_skip_ws in H.
  eapply post_bind; [eapply peek_atom_text_ok; exact H |].
  intros [start text] (Hst & Hu & Hl); cbn [fst snd] in *.
  eapply post_bind; [by apply find_comparison_ok |].
  intros [[i n] |]; [| intros _; finish; done]. intros (Hi & Hin & Hn1).
  destruct (str_to_ok (E:=ParseError) text i Hu Hi) as [-> Hul]. rewrite ret_bind.
  destruct (str_from_ok (E:=ParseError) text (i + n) Hu Hin) as [-> Hur]. rewrite ret_bind.
  pose proof (boundary_le _ _ Hin) as Hle.
  assert (length (trim (take i text)) < N) as Hl1.
  { pose proof (length_trim (take i text)). rewrite length_take in *. lia. }
  assert (length (trim (drop (i + n) text)) < N) as Hl2.
  { pose proof (length_trim (drop (i + n) text)). rewrite length_drop in *. lia. }
  destruct (_ || _); [done |].
  rewrite (ok_kinds _ _ _ _ _ H), (ok_pairs _ _ _ _ _ H).
  eapply post_bind; [apply collection_full_ok; [by apply trim_utf8 | done] |]. intros lhs Hlhs.
  eapply post_bind; [apply collection_full_ok; [by apply trim_utf8 | done] |]. intros rhs Hrhs.
  eapply post_bind; [eapply take_atom_text_ok; exact H |].
  intros [[start' tok] st1] (H1 & _ & _ & Hpos); cbn [fst snd] in *.
  destruct (str_slice_ok (E:=ParseError) text i (i + n)) as (t & -> & _); [done | done | done | lia |].
  rewrite ret_bind.
  destruct (slice_ok (E:=ParseError) K inp lo b st1 start) as (rt & -> & _);
    [exact H1 | rewrite Hst; apply H | lia |].
  rewrite ret_bind. eapply post_bind.
  { apply (build_atom_ok K _ _ _ _ _ b); [exact Hlhs | exact Hrhs |]. by destruct (beq t _). }
  intros a Ha. finish. exact Ha.
Qed.

(** ** Values and numbers *)

Definition value_good (b : bool) (v : ValueExpr) : Prop := value_wf K b v = true.
Definition domain_value_good (b : bool) (v : DomainValueExpr) : Prop :=
  domain_value_wf K b v = true.
Definition lhs_good (b : bool) (l : LhsExpr) : Prop := lhs_wf K b l = true.
Definition rhs_good (b : bool) (r : Rhs) : Prop := rhs_wf K b r = true.

Lemma legacy_value_ok inp lo b st :
  ok K inp lo b st ->
  post (parse_legacy_projection_value st) (fun r => ok K inp lo b r.2 /\ value_good b r.1).
Proof.
  intros H. unfold parse_legacy_projection_value.
  eapply post_bind; [eapply projection_loop_ok; [exact H | by eapply loop_fuel_ok] |].
  intros [path st1] H1; cbn [fst snd] in *. destruct path as [| seg path]; [finish; done |].
  destruct (Lhs.from_projection_name _); [| done]. finish. done.
Qed.

Lemma value_expr_ok inp lo b st :
  ok K inp (S lo) b st -> length inp - lo < S N ->
  post (parse_value_expr self st) (fun r => ok K inp lo b r.2 /\ value_good b r.1).
Proof.
  intros H Hn. unfold parse_value_expr. apply ok_skip_ws in H.
  eapply post_bind; [eapply next_number_ok; exact H |]. intros call _.
  destruct (call || _).
  - step (good_number _ _ Hself) e st1 H1 He. finish. exact He.
  - eapply post_bind.
    { apply (take_scan_ok K inp (S lo)); [exact H | auto 10 with moniker]. }
    intros [tok st1] [H1 _]; cbn [fst snd] in *.
    destruct (Lhs.from_projection_name _); [| done]. finish. done.
Qed.

Lemma domain_value_ok : parses (S N) (parse_domain_value_call_body self) domain_value_good.
Proof.
  intros inp lo b st H Hn. unfold parse_domain_value_call_body.
  destruct (peek_is st "("%char) eqn:Hp; [| done]. cbn [negb].
  step (good_domain _ _ Hself) domain st1 H1 Hd.
  eapply post_bind; [apply reject_pair_ok |]. intros [] Hpd.
  eapply (post_bind _ _ (fun r : ValueExpr * ParserState => ok K inp (S lo) b r.2 /\ value_good b r.1)).
  { destruct (peek_is (skip_ws st1) ","%char) eqn:Hc.
    - eapply value_expr_ok; [at_pos | lia].
    - eapply legacy_value_ok; at_pos. }
  intros [expr st2] [H2 He]; cbn [fst snd] in *.
  eapply (post_bind _ _ (fun r : option Node * ParserState =>
    ok K inp (S lo) b r.2 /\ opt node_good b r.1)).
  { destruct (peek_is (skip_ws st2) ","%char) eqn:Hc; [| finish; done].
    step (good_expr _ _ Hself) f st3 H3 Hf. finish. exact Hf. }
  intros [f st3] [H3 Hf]; cbn [fst snd] in *. close st4 H4. finish.
  unfold domain_value_good, domain_good, value_good in *.
  change (item_domain_wf K domain && value_wf K b expr &&
    match f with Some f => node_wf K b f | None => true end = true).
  unfold item_domain_wf. rewrite Hd, Hpd, He. by destruct f.
Qed.

Lemma mode_lhs_ok inp lo b st :
  ok K inp lo b st -> length inp - lo < S N ->
  starts_with (bs "mode(") (drop (pos st) inp) = true ->
  post (parse_mode_lhs self st) (fun r => ok K inp lo b r.2 /\ lhs_good b r.1).
Proof.
  intros H Hn Hp. unfold parse_mode_lhs. after_prefix H Hp st (length (bs "mode")) H1.
  run domain_value_ok body st2 H2 Hb. finish. exact Hb.
Qed.

Lemma aggregate_ok : parses (S N) (try_parse_aggregate_expr self) (opt number_good).
Proof.
  intros inp lo b st H Hn. unfold try_parse_aggregate_expr.
  eapply post_bind; [by eapply aggregate_prefix_ok |].
  intros [[name kind] |] H0; [| finish; done]. cbn [fst snd] in H0.
  assert (ok K inp lo b (advance st (length name))) as H0' by (eapply ok_le; [exact H0 | lia]).
  set (st0 := advance st (length name)) in *. clearbody st0. clear H0.
  destruct (peek_is st0 "("%char) eqn:Hp; [| done]. cbn [negb].
  step (good_domain _ _ Hself) domain st1 H1 Hd.
  eapply post_bind; [apply reject_pair_ok |]. intros [] Hpd.
  destruct (peek_is (skip_ws st1) ","%char) eqn:Hc; [| done]. cbn [negb].
  step (good_number _ _ Hself) expr st2 H2 He.
  eapply (post_bind _ _ (fun r : option f64 * ParserState =>
    ok K inp lo b r.2 /\ is_some r.1 = is_percentile kind)).
  { destruct kind; try (finish; done).
    destruct (peek_is (skip_ws st2) ","%char) eqn:Hc2; [| done]. cbn [negb].
    eapply post_bind; [eapply number_literal_ok; at_pos |].
    intros [x st3] H3; cbn [fst snd] in *. finish. done. }
  intros [pc st3] [H3 Hpc]; cbn [fst snd] in *. close st4 H4. finish.
  unfold number_good, domain_good in *.
  change (item_domain_wf K domain && number_wf K b expr &&
    Bool.eqb (is_some pc) (is_percentile kind) = true).
  unfold item_domain_wf. rewrite Hd, Hpd, He, Hpc. by destruct (is_percentile kind).
Qed.

Lemma number_leaf_ok inp lo b st :
  ok K inp lo b st ->
  post (parse_number_leaf st) (fun r => ok K inp lo b r.2 /\ number_good b r.1).
Proof.
  intros H. unfold parse_number_leaf.
  eapply post_bind; [eapply take_number_literal_ok; exact H |].
  intros [lit st1] [H1 _]; cbn [fst snd] in *. destruct (beq lit []); cbn [negb].
  - eapply post_bind.
    { apply (take_scan_ok K inp lo); [exact H1 | auto 10 with moniker]. }
    intros [tok st2] [H2 _]; cbn [fst snd] in *. destruct (_ && _); [done |].
    destruct (Lhs.from_projection_name tok) as [l |]; [| done].
    destruct (Lhs.is_number_projection l) eqn:Hl; [| done]. finish. exact Hl.
  - pose proof (parse_f64_safe lit) as Hs. destruct (parse_f64 lit); done.
Qed.

Lemma parse_number_expr_ok : parses (S N) (parse_number_expr self) number_good.
Proof.
  intros inp lo b st H Hn. unfold parse_number_expr. apply ok_skip_ws in H.
  run count_ok c st1 H1 Hc. destruct c; [finish; exact Hc |].
  run aggregate_ok a st2 H2 Ha. destruct a; [finish; exact Ha |].
  eapply post_bind; [eapply metric_expr_ok; exact H2 |].
  intros [m st3] [H3 Hm]; cbn [fst snd] in *. destruct m; [finish; exact Hm |].
  prefix H3 "entropy(" Hp.
  { after_prefix H3 Hp st3 (length (bs "entropy")) H4.
    run domain_value_ok body st5 H5 Hb. finish. exact Hb. }
  prefix H3 "size(" Hs.
  { after_prefix H3 Hs st3 (length (bs "size")) H4.
    run (collection_call_ok (bs "size")) body st5 H5 Hb. finish. exact Hb. }
  by apply number_leaf_ok.
Qed.

Lemma number_rhs_ok s scheme full b :
  utf8 s -> length s < N ->
  post (parse_number_rhs self s scheme K full b) (number_good b).
Proof. apply parse_full_ok, (good_number _ _ Hself). Qed.

(** ** Right-hand sides *)

Lemma uri_rhs_ok s scheme full :
  post (uri_rhs s scheme full)
    (fun r => exists m, r = RMoniker m /\ moniker_ok m = true).
Proof.
  unfold uri_rhs. eapply post_bind; [apply post_map_err, UriFacts.from_uri_post |].
  intros m (p & segs & Hv & _). cbn [post]. exists m. split; [done |]. by eapply moniker_ok_valid.
Qed.

(** A right-hand side that is well typed and fits the operator. *)
Definition rhs_for (op : Op.t) (b : bool) (r : Rhs) : Prop :=
  rhs_wf K b r = true /\ rhs_form op r = true.

Lemma equality_rhs_ok s quoted scheme full b op :
  utf8 s -> length s < N -> op = Op.Eq \/ op = Op.Ne ->
  post (equality_rhs self s quoted scheme K full b) (rhs_for op b).
Proof.
  intros Hs Hl Hop. unfold equality_rhs.
  assert (forall r, rhs_wf K b r = true -> rhs_form Op.Eq r = true -> rhs_for op b r) as Hr.
  { intros r H1 H2. destruct Hop as [-> | ->]; by split. }
  destruct quoted; [by apply Hr |].
  eapply post_bind; [apply pair_projection_ok |]. intros [p |] Hp; [by apply Hr; [apply Hp |] |].
  destruct (parse_current_projection s); [by apply Hr |].
  pose proof (number_rhs_ok s scheme full b Hs Hl) as Hnum.
  destruct (parse_number_rhs _ _ _ _ _ _); try done; [by apply Hr |].
  destruct (contains _ s).
  - eapply post_mono; [apply uri_rhs_ok |]. intros r (m & -> & Hm). by apply Hr.
  - destruct (Lhs.from_projection_name s); by apply Hr.
Qed.

Lemma rhs_text_ok s :
  utf8 s ->
  post (let s := trim s in
        if quoted_by s dquote || quoted_by s "'"%char
        then str_slice (E:=ParseError) s 1 (length s - 1) else mret s)
    (fun t => utf8 t /\ length t <= length s).
Proof.
  intros Hs. cbv zeta. pose proof (length_trim s) as Hl. apply trim_utf8 in Hs.
  destruct (quoted_by (trim s) dquote) eqn:H1; cbn [orb].
  - destruct (quoted_slice _ dquote Hs eq_refl H1) as (t & -> & Ht & ?). split; [done | lia].
  - destruct (quoted_by (trim s) "'"%char) eqn:H2; [| by split].
    destruct (quoted_slice _ "'"%char Hs eq_refl H2) as (t & -> & Ht & ?). split; [done | lia].
Qed.

Lemma relation_rhs_ok t scheme full b op :
  op = Op.AncestorOf \/ op = Op.DescendantOf \/ op = Op.BindMatch ->
  post (match parse_current_projection t with
        | Some lhs => mret (CurrentProjection lhs)
        | None => match Lhs.from_projection_name t with
                  | Some lhs => mret (RProjection lhs)
                  | None => uri_rhs t scheme full
                  end
        end) (rhs_for op b).
Proof.
  intros Ho.
  assert (forall r, rhs_wf K b r = true -> rhs_form Op.BindMatch r = true -> rhs_for op b r) as Hr.
  { intros r H1 H2. destruct Ho as [-> | [-> | ->]]; by split. }
  destruct (parse_current_projection t); [by apply Hr |].
  destruct (Lhs.from_projection_name t); [by apply Hr |].
  eapply post_mono; [apply uri_rhs_ok |]. intros r (m & -> & Hm). by apply Hr.
Qed.

Lemma order_rhs_ok t scheme full b op :
  utf8 t -> length t < N -> op = Op.Lt \/ op = Op.Le \/ op = Op.Gt \/ op = Op.Ge ->
  post (projection ← parse_pair_projection t full b;
        match projection with
        | Some p => mret (RPairProjection p)
        | None => match parse_current_projection t with
                  | Some lhs => mret (CurrentProjection lhs)
                  | None => e ← parse_number_rhs self t scheme K full b; mret (RNumber e)
                  end
        end) (rhs_for op b).
Proof.
  intros Ht Hl Ho.
  assert (forall r, rhs_wf K b r = true -> rhs_form Op.Lt r = true -> rhs_for op b r) as Hr.
  { intros r H1 H2. destruct Ho as [-> | [-> | [-> | ->]]]; by split. }
  eapply post_bind; [apply pair_projection_ok |]. intros [p |] Hp; [by apply Hr; [apply Hp |] |].
  destruct (parse_current_projection t); [by apply Hr |].
  eapply post_bind; [by apply number_rhs_ok |]. intros e He. by apply Hr.
Qed.

Lemma parse_rhs_ok s op scheme full b :
  utf8 s -> length s < N -> post (parse_rhs self s op scheme K full b) (rhs_for op b).
Proof.
  intros Hs Hl. unfold parse_rhs. eapply post_bind; [by apply rhs_text_ok |].
  intros t [Ht Htl]. assert (length t < N) as Hn by lia.
  destruct op; auto using relation_rhs_ok, order_rhs_ok, equality_rhs_ok; try done.
  - eapply post_bind; [by apply post_map_err, PathFacts.parse_post |]. done.
  - eapply post_bind; [by apply collection_full_ok |]. by split.
  - eapply post_bind; [by apply collection_full_ok |]. by split.
Qed.

(** ** Atoms *)

Lemma parse_atom_ok s scheme full b :
  utf8 s -> length s <= N -> post (parse_atom self s scheme K full b) (atom_good b).
Proof.
  intros Hs Hl. unfold parse_atom. pose proof (length_trim s) as Hlt. apply trim_utf8 in Hs.
  eapply post_bind; [by apply (has_segment_ok K _ _ b) |]. intros [a |] Ha; [exact Ha |].
  eapply post_bind; [by apply split_atom_ok |].
  intros [[lhs_str op_str] rhs_str] [Hr Hrl]; cbn [fst snd] in *.
  eapply post_bind; [apply (parse_lhs_ok K) |]. intros lhs Hlhs.
  eapply post_bind; [apply parse_op_ok |]. intros op _.
  eapply post_bind; [apply parse_rhs_ok; [done | lia] |]. intros rhs [Hrhs Hform].
  by apply build_atom_ok.
Qed.

Lemma comparison_tail_ok inp lo b st raw_start lhs msg :
  ok K inp lo b st -> length inp - lo < S N -> lhs_good b lhs ->
  is_char_boundary inp raw_start = true -> raw_start <= lo ->
  post (parse_comparison_tail self st raw_start lhs msg)
    (fun r => ok K inp lo b r.2 /\ atom_good b r.1).
Proof.
  intros H Hn Hlhs Hb Hle. unfold parse_comparison_tail. apply ok_skip_ws in H.
  eapply post_bind; [by eapply operator_ok |].
  intros [[op_str n] |] H1; [| done]. cbn [ok_or]. rewrite ret_bind.
  eapply post_bind; [apply parse_op_ok |]. intros op _.
  eapply post_bind; [eapply take_atom_text_ok; at_pos |].
  intros [[start tok] st2] (H2 & Hu & Hl & _); cbn [fst snd] in *.
  destruct (beq _ []); [done |]. rewrite (ok_kinds _ _ _ _ _ H2), (ok_pairs _ _ _ _ _ H2).
  eapply post_bind.
  { apply parse_rhs_ok; [by apply trim_utf8 |]. pose proof (length_trim tok).
    apply ok_len in H1. lia. }
  intros rhs [Hrhs Hform].
  destruct (slice_ok (E:=ParseError) K inp (S lo) b st2 raw_start) as (rt & -> & _);
    [exact H2 | exact Hb | apply ok_len in H2; lia |].
  rewrite ret_bind. eapply post_bind; [by apply (build_atom_ok K _ _ _ _ _ b) |].
  intros a Ha. finish. exact Ha.
Qed.

Lemma unquote_arg_ok arg : utf8 arg -> post (unquote (trim arg)) (fun _ => True).
Proof. intros. eapply post_mono; [by apply unquote_ok, trim_utf8 | done]. Qed.

Lemma segment_atom_ok : parses (S N) (try_parse_segment_atom self) (opt atom_good).
Proof.
  intros inp lo b st H Hn. unfold try_parse_segment_atom. apply ok_skip_ws in H.
  rewrite (proj1 (rest_ok _ _ _ _ _ H)), ret_bind.
  destruct (List.find _ SEGMENT_PREFIXES) as [[p scope] |] eqn:Hf; [| finish; done].
  eapply (find_row _ (fun e => forallb is_ascii e.1 = true)) in Hf as [Ha Hs]; [| repeat constructor].
  pose proof (ok_self _ _ _ _ _ H) as H0.
  assert (ok K inp (pos (skip_ws st)) b (advance (skip_ws st) (length p))) as H1
    by (eapply ok_le; [by eapply ok_advance_all | lia]).
  eapply post_bind; [eapply take_until_ok; [exact H1 | done] |].
  intros [[arg st2] |] Ht; [| done]. cbn [ok_or]. rewrite ret_bind. destruct Ht as (H2 & Hu & Hc).
  eapply post_bind; [by apply unquote_arg_ok |]. intros kind _.
  destruct (beq kind []) eqn:Hk; [done |].
  assert (ok K inp (pos (skip_ws st)) b (advance st2 1)) as H3
    by (eapply ok_le; [by eapply ok_advance | lia]).
  eapply post_bind.
  { eapply comparison_tail_ok; [exact H3 | apply ok_len in H; lia | | apply H | lia].
    unfold lhs_good. cbn [lhs_wf]. by rewrite Hk. }
  intros [a st4] [H4 Ha4]; cbn [fst snd] in *. apply ok_len in H as Hl.
  refine (conj _ Ha4); cbn [fst snd]. eapply ok_le; [exact H4 | lia].
Qed.

Lemma number_atom_ok : parses (S N) (try_parse_number_atom self) (opt atom_good).
Proof.
  intros inp lo b st H Hn. unfold try_parse_number_atom. apply ok_skip_ws in H.
  eapply post_bind; [by eapply next_number_ok |]. intros call _.
  destruct call; [cbn [negb] | finish; done].
  pose proof (ok_self _ _ _ _ _ H) as H0. apply ok_len in H as Hl.
  run parse_number_expr_ok e st1 H1 He.
  eapply post_bind.
  { eapply comparison_tail_ok; [exact H1 | lia | exact He | apply H | lia]. }
  intros [a st4] [H4 Ha4]; cbn [fst snd] in *.
  refine (conj _ Ha4); cbn [fst snd]. eapply ok_le; [exact H4 | lia].
Qed.

Lemma mode_atom_ok : parses (S N) (try_parse_mode_atom self) (opt atom_good).
Proof.
  intros inp lo b st H Hn. unfold try_parse_mode_atom. apply ok_skip_ws in H.
  prefix H "mode(" Hp; [| finish; done].
  pose proof (ok_self _ _ _ _ _ H) as H0. apply ok_len in H as Hl.
  eapply post_bind; [eapply mode_lhs_ok; [exact H0 | lia | exact Hp] |].
  intros [lhs st1] [H1 He]; cbn [fst snd] in *.
  eapply post_bind.
  { eapply comparison_tail_ok; [exact H1 | lia | exact He | apply H | lia]. }
  intros [a st4] [H4 Ha4]; cbn [fst snd] in *.
  refine (conj _ Ha4); cbn [fst snd]. eapply ok_le; [exact H4 | lia].
Qed.

(** ** Quantifiers, policies and the boolean operators *)

Lemma quantifier_ok : parses (S N) (try_parse_quantifier self) (opt node_good).
Proof.
  intros inp lo b st H Hn. unfold try_parse_quantifier. apply ok_skip_ws in H.
  rewrite (proj1 (rest_ok _ _ _ _ _ H)), ret_bind.
  destruct (List.find _ QUANTIFIERS) as [[kw qk] |] eqn:Hf; [| finish; done].
  eapply (find_prefix_ok K inp QUANTIFIERS lo b) in Hf; [| exact H | repeat constructor].
  eapply post_bind.
  { apply (filter_body_ok inp lo b); [eapply ok_le; [exact Hf | lia] | exact Hn]. }
  intros [[d f] st2] [H2 [Hd Hf2]]; cbn [fst snd] in *. destruct f as [f |]; [| done].
  finish. unfold domain_good in Hd. cbn [opt] in *. unfold node_good in *. cbn [node_wf].
  by rewrite Hd.
Qed.

Lemma require_ok : parses (S N) (try_parse_require) (opt node_good).
Proof.
  intros inp lo b st H Hn. unfold try_parse_require. apply ok_skip_ws in H.
  prefix H "require(" Hp; [| finish; done].
  after_prefix H Hp (skip_ws st) (length (bs "require(")) H1. apply ok_skip_ws in H1.
  destruct (peek_byte _) as [q |] eqn:Hq; [| done].
  destruct (ceq q "'"%char || ceq q dquote) eqn:Hqq; [| done]. cbn [negb].
  assert (is_ascii q = true) as Ha.
  { apply orb_true_iff in Hqq as [->%ceq_true | ->%ceq_true]; done. }
  pose proof (ok_advance _ _ _ _ _ _ H1 Hq Ha) as H2.
  eapply post_bind; [eapply take_until_ok; [exact H2 | exact Ha] |].
  intros [[pat st2] |] Ht; [| done]. cbn [ok_or]. rewrite ret_bind. destruct Ht as (H3 & _ & Hc).
  pose proof (ok_advance _ _ _ _ _ _ H3 Hc Ha) as H4.
  close st5 H5. finish. done.
Qed.

Lemma layout_option_ok inp lo b st option o :
  ok K inp lo b st -> (opt_max_gap o <= 4294967295)%N ->
  post (layout_option option o st)
    (fun r => ok K inp lo b r.2 /\ (opt_max_gap r.1 <= 4294967295)%N).
Proof.
  intros H Ho. unfold layout_option.
  destruct (beq _ (bs "public_first")); [by finish |].
  destruct (beq _ (bs "private_after_first_use")); [by finish |].
  destruct (beq _ (bs "max_gap")); [| done].
  destruct (peek_is st "="%char) eqn:Hp; [| done]. cbn [negb].
  eapply post_bind; [eapply take_number_literal_ok; at_pos |].
  intros [num st1] [H1 _]; cbn [fst snd] in *. destruct (beq num []); [done |].
  eapply post_bind; [apply post_map_err, parse_u32_post |]. intros gap Hg. finish.
  cbn [opt_max_gap]. cbv beta in Hg. lia.
Qed.

Lemma layout_loop_ok inp b fuel : forall lo o st,
  ok K inp lo b st -> length inp - lo < fuel -> (opt_max_gap o <= 4294967295)%N ->
  post (layout_loop fuel o st) (fun r => ok K inp lo b r.2 /\ (opt_max_gap r.1 <= 4294967295)%N).
Proof.
  induction fuel as [| fuel IH]; intros lo o st H Hf Ho; [lia |]. cbn [layout_loop].
  apply ok_skip_ws in H. destruct (peek_byte _) as [c |] eqn:Hc; [| done].
  destruct (ceq c ")"%char) eqn:Hp.
  { apply ceq_true in Hp as ->. pose proof (ok_advance _ _ _ _ _ _ H Hc eq_refl) as H1. by finish. }
  destruct (ceq c ","%char) eqn:Hcm; [| done]. cbn [negb]. apply ceq_true in Hcm as ->.
  pose proof (ok_advance _ _ _ _ _ _ H Hc eq_refl) as H1.
  apply ok_skip_ws, ok_skip_ws in H1.
  destruct (peek_is _ ")"%char) eqn:Hp2.
  { pose proof (ok_advance_is _ _ _ _ _ _ H1 Hp2 eq_refl) as H2. by finish. }
  eapply post_bind.
  { apply (take_scan_ok K inp (S lo)); [exact H1 | auto 10 with moniker]. }
  intros [option st2] [H2 _]; cbn [fst snd] in *. destruct (beq option []); [done |].
  eapply post_bind; [apply (layout_option_ok inp (S lo)); [at_pos | exact Ho] |].
  intros [o' st3] [H3 Ho']; cbn [fst snd] in *.
  eapply post_mono; [apply (IH (S lo)); [exact H3 | bound | exact Ho'] |].
  intros r [Hr1 Hr2]. split; [by apply weaken | done].
Qed.

Lemma vertical_layout_ok : parses (S N) (try_parse_vertical_layout self) (opt node_good).
Proof.
  intros inp lo b st H Hn. unfold try_parse_vertical_layout. apply ok_skip_ws in H.
  prefix H "vertical_layout(" Hp; [| finish; done].
  pose proof (ok_self _ _ _ _ _ H) as H0. apply ok_len in H as Hl.
  after_prefix H0 Hp (skip_ws st) (length (bs "vertical_layout")) H1.
  destruct (peek_is _ "("%char) eqn:Hp1; [| done]. cbn [negb].
  assert (length inp - pos (skip_ws st) < S N) as Hn' by lia.
  step (good_domain _ _ Hself) domain st2 H2 Hd.
  eapply post_bind.
  { eapply layout_loop_ok; [exact H2 | by eapply loop_fuel_ok | done]. }
  intros [o st3] [H3 Ho]; cbn [fst snd] in *.
  destruct (negb (opt_public_first o) && _) eqn:Hpol; [done |].
  destruct (slice_ok (E:=ParseError) K inp _ b st3 (pos (skip_ws st)) H3) as (t & -> & _);
    [apply H | apply ok_len in H3; lia |].
  rewrite ret_bind. refine (conj _ _); cbn [fst snd].
  { eapply ok_le; [exact H3 | lia]. }
  cbn [opt]. unfold node_good, domain_good in *. cbn [node_wf]. unfold layout_wf.
  cbn [layout_domain public_first private_after_first_use max_gap]. rewrite Hd.
  rewrite (proj2 (N.leb_le _ _) Ho), andb_true_r. by destruct (opt_public_first o), (opt_private_after o).
Qed.

Lemma primary_ok : parses (S N) (parse_primary self) node_good.
Proof.
  intros inp lo b st H Hn. unfold parse_primary. apply ok_skip_ws in H.
  destruct (peek_is _ "("%char) eqn:Hp.
  { step (good_expr _ _ Hself) n st1 H1 Hn1. close st2 H2. finish. exact Hn1. }
  run quantifier_ok q st1 H1 Hq. destruct q; [finish; exact Hq |].
  run require_ok r st2 H2 Hr. destruct r; [finish; exact Hr |].
  run vertical_layout_ok v st3 H3 Hv. destruct v; [finish; exact Hv |].
  run comparison_atom_ok c st4 H4 Hc. destruct c; [finish; exact Hc |].
  run number_atom_ok n st5 H5 Hnm. destruct n; [finish; exact Hnm |].
  run mode_atom_ok m st6 H6 Hm. destruct m; [finish; exact Hm |].
  run segment_atom_ok g st7 H7 Hg. destruct g; [finish; exact Hg |].
  eapply post_bind; [eapply take_atom_text_ok; exact H7 |].
  intros [[start tok] st8] (H8 & Hu & Hl & _); cbn [fst snd] in *.
  destruct (beq tok []); [done |]. rewrite (ok_kinds _ _ _ _ _ H8), (ok_pairs _ _ _ _ _ H8).
  eapply post_bind; [apply parse_atom_ok; [done | lia] |]. intros a Ha. finish. exact Ha.
Qed.

Lemma parse_not_ok : parses (S N) (parse_not self) node_good.
Proof.
  intros inp lo b st H Hn. unfold parse_not. apply ok_skip_ws in H.
  eapply post_bind; [by apply (eat_keyword_ok K inp lo b _ (bs "NOT")) |].
  intros [[] st1] H1; cbn [fst snd] in *; [| by apply primary_ok].
  assert (ok K inp (S lo) b st1) as H1' by (eapply ok_le; [exact H1 | rewrite length_bs; cbn; lia]).
  step (good_not _ _ Hself) n st2 H2 Hn2. finish. exact Hn2.
Qed.

(** The operands of an operator, at least as many as it starts with. *)
Definition operands_good (n : nat) (b : bool) (l : list Node) : Prop :=
  n <= length l /\ Forall (node_good b) l.

Lemma infix_ok kw operand inp b fuel : forall lo st nodes n,
  forallb is_ascii kw = true -> 1 <= length kw -> parses (S N) operand node_good ->
  ok K inp lo b st -> length inp - lo < S N -> length inp - lo < fuel ->
  operands_good n b nodes ->
  post (infix_loop kw operand fuel nodes st)
    (fun r => ok K inp lo b r.2 /\ operands_good n b r.1).
Proof.
  induction fuel as [| fuel IH]; intros lo st nodes n Ha Hk Hop H Hn Hf Hg; [lia |].
  cbn [infix_loop]. apply ok_skip_ws in H.
  eapply post_bind; [by apply (eat_keyword_ok K inp lo b _ kw) |].
  intros [[] st1] H1; cbn [fst snd negb] in *; [| by split].
  assert (ok K inp (S lo) b st1) as H1' by (eapply ok_le; [exact H1 | lia]).
  eapply post_bind; [eapply Hop; [exact H1' | lia] |].
  intros [node st2] [H2 Hnode]; cbn [fst snd] in *.
  eapply post_mono.
  { eapply (IH (S lo) st2 (nodes ++ [node]) n); try done; [lia | bound |].
    destruct Hg as [Hg1 Hg2]. split; [rewrite length_app; lia |].
    apply Forall_app. by split; [| constructor]. }
  intros r [Hr1 Hr2]. split; [by apply weaken | done].
Qed.

(** An operand, the loop that reads the others, and the node made of them. *)
Lemma operands_ok kw operand (f : list Node -> Node) :
  forallb is_ascii kw = true -> 1 <= length kw -> parses (S N) operand node_good ->
  (forall b l, operands_good 1 b l -> node_good b (f l)) ->
  parses (S N) (fun st =>
    '(first, st) ← operand st;
    '(nodes, st) ← infix_loop kw operand (loop_fuel st) [first] st;
    mret (f nodes, st)) node_good.
Proof.
  intros Ha Hk Hop Hf inp lo b st H Hn. eapply post_bind; [by apply Hop |].
  intros [first st1] [H1 Hf1]; cbn [fst snd] in *. eapply post_bind.
  { apply (infix_ok _ _ inp b _ lo _ _ 1); try done; [by eapply loop_fuel_ok |].
    split; [done | by constructor]. }
  intros [nodes st2] [H2 Hg]; cbn [fst snd] in *. finish. by apply Hf.
Qed.

Lemma collapse_good f b l :
  f = And \/ f = Or -> operands_good 1 b l -> node_good b (collapse f l).
Proof.
  intros Hf [Hl Hg]. destruct l as [| n1 [| n2 l]]; [cbn in Hl; lia | by inversion Hg |].
  assert (forallb (node_wf K b) (n1 :: n2 :: l) = true) as Hall by (by apply forallb_Forall).
  unfold node_good. destruct Hf as [-> | ->]; exact Hall.
Qed.

Lemma exclusions_good b l :
  Forall (node_good b) l -> Forall (node_good b) (exclusions l).
Proof.
  induction 1 as [| n l Hn Hl IH]; [done |]. cbn [exclusions]. apply Forall_app. split; [| done].
  apply Forall_fmap. eapply Forall_impl; [exact Hl |]. intros r Hr. unfold node_good in *. cbn.
  by rewrite Hn, Hr.
Qed.

Lemma disjoint_root_good b l : operands_good 1 b l -> node_good b (disjoint_root l).
Proof.
  intros [Hl Hg]. destruct l as [| n1 [| n2 l]]; [cbn in Hl; lia | by inversion Hg |].
  apply (collapse_good And); [by left |]. split; [cbn; lia | by apply exclusions_good].
Qed.

Lemma parse_disjoint_ok : parses (S N) (parse_disjoint self) node_good.
Proof.
  apply operands_ok; [done | vm_compute; lia | apply parse_not_ok | apply disjoint_root_good].
Qed.

Lemma parse_and_ok : parses (S N) (parse_and self) node_good.
Proof.
  apply operands_ok; [done | vm_compute; lia | apply parse_disjoint_ok |].
  intros b l. apply collapse_good. by left.
Qed.

Lemma parse_or_ok : parses (S N) (parse_or self) node_good.
Proof.
  apply operands_ok; [done | vm_compute; lia | apply parse_and_ok |].
  intros b l. apply collapse_good. by right.
Qed.

Lemma parse_expr_ok : parses (S N) (parse_expr self) node_good.
Proof.
  intros inp lo b st H Hn. unfold parse_expr. run parse_or_ok lhs st1 H1 Hl.
  apply ok_skip_ws in H1.
  eapply post_bind; [by apply (eat_keyword_ok K inp lo b _ (bs "=>")) |].
  intros [[] st2] H2; cbn [fst snd] in *; [| finish; exact Hl].
  assert (ok K inp lo b st2) as H2' by (eapply ok_le; [exact H2 | lia]).
  run parse_or_ok rhs st3 H3 Hr. finish. unfold node_good in *. cbn [node_wf]. by rewrite Hl, Hr.
Qed.

Lemma bodies_good : good (S N) {|
  p_expr := parse_expr self; p_not := parse_not self;
  p_domain := parse_domain_ident self; p_number := parse_number_expr self;
  p_collection := parse_collection_expr self |}.
Proof.
  split; [apply parse_expr_ok | apply parse_not_ok | apply parse_domain_ident_ok
    | apply parse_number_expr_ok | apply parse_collection_expr_ok].
Qed.

End bodies.

(** ** The knot: the fuel bounds the text that is left *)

Lemma parsers_good n : good n (parsers n).
Proof.
  induction n as [| n IH]; [| by apply bodies_good].
  split; intros inp lo b st H Hn; lia.
Qed.

Lemma rule_parse_post input scheme :
  utf8 input -> post (parse input scheme K) (fun n => node_wf K false n = true).
Proof.
  intros Hi. unfold parse.
  assert (ok K input 0 false (Cursor.new input scheme K input)) as H
    by (by split; try done; apply boundary_0).
  eapply post_bind; [apply (good_expr _ _ (parsers_good _)); [exact H | lia] |].
  intros [root st] [Hst Hn]; cbn [fst snd] in *. apply ok_skip_ws in Hst.
  destruct (is_at_end _); [exact Hn |]. cbn [negb].
  by rewrite (proj1 (rest_ok _ _ _ _ _ Hst)), ret_bind.
Qed.

End facts.
End DslFacts.
