(* ===== verification/DslTheorems.v ===== *)
(** Induction on the syntax trees of the rule language, and what the analysis
    of the [ast] domain finds.

    What the rule parser promises: it returns on every text, its trees are well
    typed, [disjoint] means that at most one operand holds, projections print
    and parse back, the syntax-tree analysis finds exactly the rules that use
    the [ast] domain, and the search for inline project selectors is total. *)

From S2P Require Import Prelude.
From S2P Require Import RustStr.
From S2P Require Import Moniker.
From S2P Require Import StrFacts.
From S2P Require Import Path.
From S2P Require Import PathFacts.
From S2P Require Import DslAst.
From S2P Require Import DslCursor.
From S2P Require Import DslAtom.
From S2P Require Import DslParse.
From S2P Require Import DslTyping.
From S2P Require Import DslFacts.

Module AstFacts.
Import Ast.
Section ast.
Context {RE : RegexEngine}.

Definition opt_all {A} (P : A -> Prop) (o : option A) : Prop :=
  match o with Some a => P a | None => True end.

(** ** Induction, through the lists and options of the tree *)
Section induction.
Context (Pn : Node -> Prop) (Pl : LhsExpr -> Prop) (Pe : NumberExpr -> Prop).
Context (Pd : DomainValueExpr -> Prop) (Pv : ValueExpr -> Prop) (Pr : Rhs -> Prop).
Context (Hatom : forall lhs op rhs raw re, Pl lhs -> Pr rhs -> Pn (NAtom (mk_atom lhs op rhs raw re))).
Context (Hand : forall l, Forall Pn l -> Pn (And l)).
Context (Hor : forall l, Forall Pn l -> Pn (Or l)).
Context (Hnot : forall n, Pn n -> Pn (Not n)).
Context (Himp : forall l r, Pn l -> Pn r -> Pn (Implies l r)).
Context (Hreq : forall p, Pn (Require_ p)).
Context (Hlay : forall l, Pn (NVerticalLayout l)).
Context (Hquant : forall k d f, Pn f -> Pn (Quantifier k d f)).
Context (Hattr : forall l, Pl (Attr l)).
Context (Hnum : forall e, Pe e -> Pl (Number e)).
Context (Hcoll : forall c, Pl (Collection c)).
Context (Hmode : forall v, Pd v -> Pl (Mode v)).
Context (Hpair : forall p, Pl (LPairProjection p)).
Context (Hseg : forall s k, Pl (SegmentOf s k)).
Context (Hlit : forall x, Pe (NLiteral x)).
Context (Hproj : forall l, Pe (NProjection l)).
Context (Hcount : forall d f, opt_all Pn f -> Pe (Count d f)).
Context (Hagg : forall k d e p, Pe e -> Pe (Aggregate k d e p)).
Context (Hmetric : forall k b, Pe (Metric k b)).
Context (Hentropy : forall v, Pd v -> Pe (Entropy v)).
Context (Hsize : forall c, Pe (Size c)).
Context (Hdv : forall d e f, Pv e -> opt_all Pn f -> Pd (mk_domain_value d e f)).
Context (Hitem : Pv Item).
Context (Hvproj : forall l, Pv (VProjection l)).
Context (Hvnum : forall e, Pe e -> Pv (VNumber e)).
Context (Hrnum : forall e, Pe e -> Pr (RNumber e)).
Context (Hrest : forall r, match r with RNumber _ => True | _ => Pr r end).

Fixpoint node_rect' (n : Node) : Pn n :=
  match n with
  | NAtom (mk_atom lhs op rhs raw re) => Hatom _ op _ raw re (lhs_rect' lhs) (rhs_rect' rhs)
  | And l => Hand l ((fix go l : Forall Pn l :=
      match l with
      | [] => Forall_nil_2 Pn
      | n :: l => Forall_cons_2 Pn n l (node_rect' n) (go l)
      end) l)
  | Or l => Hor l ((fix go l : Forall Pn l :=
      match l with
      | [] => Forall_nil_2 Pn
      | n :: l => Forall_cons_2 Pn n l (node_rect' n) (go l)
      end) l)
  | Not n => Hnot n (node_rect' n)
  | Implies l r => Himp l r (node_rect' l) (node_rect' r)
  | Require_ p => Hreq p
  | NVerticalLayout l => Hlay l
  | Quantifier k d f => Hquant k d f (node_rect' f)
  end
with lhs_rect' (l : LhsExpr) : Pl l :=
  match l with
  | Attr l => Hattr l
  | Number e => Hnum e (number_rect' e)
  | Collection c => Hcoll c
  | Mode v => Hmode v (domain_value_rect' v)
  | LPairProjection p => Hpair p
  | SegmentOf s k => Hseg s k
  end
with number_rect' (e : NumberExpr) : Pe e :=
  match e with
  | NLiteral x => Hlit x
  | NProjection l => Hproj l
  | Count d f =>
      Hcount d f match f return opt_all Pn f with Some f => node_rect' f | None => I end
  | Aggregate k d e p => Hagg k d e p (number_rect' e)
  | Metric k b => Hmetric k b
  | Entropy v => Hentropy v (domain_value_rect' v)
  | Size c => Hsize c
  end
with domain_value_rect' (v : DomainValueExpr) : Pd v :=
  match v with
  | mk_domain_value d e f =>
      Hdv d e f (value_rect' e) match f return opt_all Pn f with Some f => node_rect' f | None => I end
  end
with value_rect' (v : ValueExpr) : Pv v :=
  match v with
  | Item => Hitem
  | VProjection l => Hvproj l
  | VNumber e => Hvnum e (number_rect' e)
  end
with rhs_rect' (r : Rhs) : Pr r :=
  match r with
  | RNumber e => Hrnum e (number_rect' e)
  | r => Hrest r
  end.

End induction.
(** ** Where a rule mentions the [ast] domain *)

Fixpoint collection_mentions_ast (c : CollectionExpr) : bool :=
  match c with
  | CProjection p => Domain.contains_ast (cp_domain p)
  | CPairProjection p => Domain.contains_ast (pcp_domain p)
  | Unique c => collection_mentions_ast c
  | Binary _ l r => collection_mentions_ast l || collection_mentions_ast r
  end.

Fixpoint mentions_ast (n : Node) : bool :=
  match n with
  | NAtom (mk_atom lhs _ rhs _ _) => lhs_mentions_ast lhs || rhs_mentions_ast rhs
  | And l | Or l => existsb mentions_ast l
  | Not n => mentions_ast n
  | Implies l r => mentions_ast l || mentions_ast r
  | Require_ _ => false
  | NVerticalLayout l => Domain.contains_ast (layout_domain l)
  | Quantifier _ d f => Domain.contains_ast d || mentions_ast f
  end
with lhs_mentions_ast (l : LhsExpr) : bool :=
  match l with
  | Number e => number_mentions_ast e
  | Collection c => collection_mentions_ast c
  | Mode v => domain_value_mentions_ast v
  | _ => false
  end
with rhs_mentions_ast (r : Rhs) : bool :=
  match r with
  | RNumber e => number_mentions_ast e
  | RCollection c => collection_mentions_ast c
  | _ => false
  end
with number_mentions_ast (e : NumberExpr) : bool :=
  match e with
  | Count d f =>
      Domain.contains_ast d || match f with Some f => mentions_ast f | None => false end
  | Aggregate _ d e _ => Domain.contains_ast d || number_mentions_ast e
  | Entropy v => domain_value_mentions_ast v
  | Size c => collection_mentions_ast c
  | _ => false
  end
with domain_value_mentions_ast (v : DomainValueExpr) : bool :=
  match v with
  | mk_domain_value d e f =>
      Domain.contains_ast d || match f with Some f => mentions_ast f | None => false end ||
      match e with VNumber e => number_mentions_ast e | _ => false end
  end.

(** What a visit does to the analysis [s]: it notes the mention [m], and
    outside an AST filter it rejects nothing that does not mention [ast]. *)
Definition visited (filter m : bool) (s s' : AstAnalysis) : Prop :=
  uses_ast s' = uses_ast s || m /\
  (m = false -> filter = false -> unsupported s' = unsupported s).

Lemma visited_refl f s : visited f false s s.
Proof. split; [by rewrite orb_false_r | done]. Qed.

Lemma visited_trans f m1 m2 s1 s2 s3 :
  visited f m1 s1 s2 -> visited f m2 s2 s3 -> visited f (m1 || m2) s1 s3.
Proof.
  intros [Hu1 Hr1] [Hu2 Hr2]. split; [by rewrite Hu2, Hu1, orb_assoc |].
  intros [Hm1 Hm2]%orb_false_iff Hf. by rewrite Hr2, Hr1.
Qed.

(** A visit that continues under a domain: [m] says that the domain is [ast]. *)
Lemma visited_under f m1 m2 s1 s2 s3 :
  visited f m1 s1 s2 -> visited m1 m2 s2 s3 -> visited f (m1 || m2) s1 s3.
Proof.
  intros [Hu1 Hr1] [Hu2 Hr2]. split; [by rewrite Hu2, Hu1, orb_assoc |].
  intros [Hm1 Hm2]%orb_false_iff Hf. by rewrite Hr2, Hr1.
Qed.

Lemma uses_reject r s : uses_ast (reject r s) = uses_ast s.
Proof. unfold reject. by destruct (unsupported s). Qed.

(** A rejection is about [ast], or about an AST filter. *)
Lemma visited_when f m r c s s' :
  visited f m s s' -> (c = true -> m || f = true) -> visited f m s (when c (reject r) s').
Proof.
  intros [Hu Hr] Hc. destruct c; [| by split]. split; cbn [when]; [by rewrite uses_reject |].
  intros -> ->. by specialize (Hc eq_refl).
Qed.

Lemma visited_uses f m s : visited f m s (set_uses_ast m s).
Proof. by split. Qed.

Lemma visited_domain f m r s :
  visited f m s (when m (fun s => reject r (set_uses_ast true s)) s).
Proof.
  destruct m; cbn [when]; [| apply visited_refl]. split; [| done].
  by rewrite uses_reject.
Qed.

Lemma visit_collection_ok f c s :
  visited f (collection_mentions_ast c) s (visit_collection c s).
Proof.
  revert s. induction c as [p | p | c IH | op l IHl r IHr]; intros s;
    cbn [visit_collection collection_mentions_ast]; eauto using visited_domain, visited_trans.
Qed.

Lemma uses_filter_atom a s : uses_ast (check_filter_atom a s) = uses_ast s.
Proof.
  unfold check_filter_atom. destruct a as [lhs op rhs raw re]. set (s1 := match _ with Some _ => _ | None => _ end).
  assert (uses_ast s1 = uses_ast s) as <-.
  { unfold s1. repeat case_match; by rewrite ?uses_reject. }
  destruct lhs as [[] | | | | |]; try done; destruct rhs; try done; apply uses_reject.
Qed.

Lemma visit_filter_atom f a s : visited f false s (when f (check_filter_atom a) s).
Proof.
  destruct f; [| apply visited_refl]. split; cbn [when]; [by rewrite orb_false_r, uses_filter_atom | done].
Qed.

Lemma visit_layout_ok f l s :
  visited f (Domain.contains_ast (layout_domain l)) s (visit_layout l f s).
Proof.
  unfold visit_layout. eapply (visited_trans f false); [| apply visited_domain].
  apply visited_when; [apply visited_refl | by intros ->].
Qed.

Lemma visit_nodes_ok (l : list Node) f nested s :
  Forall (fun n => forall f nested s, visited f (mentions_ast n) s (visit_node n f nested s)) l ->
  visited f (existsb mentions_ast l) s (fold_left (fun s n => visit_node n f nested s) l s).
Proof.
  intros H. revert s. induction H as [| n l Hn _ IH]; intros s; [apply visited_refl |].
  cbn [fold_left existsb]. eapply visited_trans; [apply Hn | apply IH].
Qed.

(** The two rejections of a domain: nested, or not [ast] itself. *)
Lemma visit_domain_ok f d nested r1 r2 s c :
  let ast := Domain.contains_ast d in
  visited f ast s
    (when (ast && c) (reject r2) (when (ast && nested) (reject r1) (set_uses_ast ast s))).
Proof.
  intros ast. apply visited_when; [apply visited_when; [apply visited_uses |] |];
    intros [-> _]%andb_true_iff; done.
Qed.

Lemma visit_domain_value_ok d e fl f nested s :
  match e with
  | VNumber e => forall f nested s, visited f (number_mentions_ast e) s (visit_number e nested s)
  | _ => True
  end ->
  opt_all (fun n => forall f nested s, visited f (mentions_ast n) s (visit_node n f nested s)) fl ->
  visited f (domain_value_mentions_ast (mk_domain_value d e fl)) s
    (visit_domain_value (mk_domain_value d e fl) nested s).
Proof.
  intros He Hf. cbn [domain_value_mentions_ast]. rewrite <- orb_assoc.
  apply (visited_under f (Domain.contains_ast d) _ _
    (when (Domain.contains_ast d) (reject (bs "mode and entropy do not support the ast domain"))
      (when (Domain.contains_ast d && nested)
         (reject (bs "ast cannot be nested under another domain"))
         (set_uses_ast (Domain.contains_ast d) s)))).
  - apply visited_when; [| by intros ->].
    apply visited_when; [apply visited_uses |]. by intros [-> _]%andb_true_iff.
  - destruct fl as [fl |], e as [| l | e]; (eapply visited_trans;
      [first [apply Hf | apply visited_refl] | first [apply He | apply visited_refl]]).
Qed.

Lemma visit_node_ok n : forall f nested s, visited f (mentions_ast n) s (visit_node n f nested s).
Proof.
  revert n. apply (node_rect'
    (fun n => forall f nested s, visited f (mentions_ast n) s (visit_node n f nested s))
    (fun l => forall f nested s, visited f (lhs_mentions_ast l) s (visit_lhs l nested s))
    (fun e => forall f nested s, visited f (number_mentions_ast e) s (visit_number e nested s))
    (fun v => forall f nested s, visited f (domain_value_mentions_ast v) s (visit_domain_value v nested s))
    (fun v => match v with
              | VNumber e => forall f nested s, visited f (number_mentions_ast e) s (visit_number e nested s)
              | _ => True
              end)
    (fun r => forall f nested s, visited f (rhs_mentions_ast r) s (visit_rhs r nested s)));
    try (intros; exact I || apply visited_refl).
  - intros lhs op rhs raw re Hl Hr f nested s.
    apply (visited_trans f false (lhs_mentions_ast lhs || rhs_mentions_ast rhs) _
      (when f (check_filter_atom (mk_atom lhs op rhs raw re)) s)); [apply visit_filter_atom |].
    eapply visited_trans; [apply Hl | apply Hr].
  - intros l Hl f nested s. by apply visit_nodes_ok.
  - intros l Hl f nested s. by apply visit_nodes_ok.
  - auto.
  - intros l r Hl Hr f nested s. eapply visited_trans; [apply Hl | apply Hr].
  - intros p f nested s. apply visited_when; [apply visited_refl | by intros ->].
  - intros l f nested s. apply visit_layout_ok.
  - intros k d fl Hf f nested s.
    eapply (visited_trans f false (Domain.contains_ast d || mentions_ast fl));
      [| eapply visited_under; [apply visit_domain_ok | apply Hf]].
    apply visited_when; [apply visited_refl | by intros ->].
  - auto.
  - intros c f nested s. apply visit_collection_ok.
  - auto.
  - intros d [fl |] Hf f nested s; cbn [opt_all] in Hf.
    + eapply visited_under; [apply visit_domain_ok | apply Hf].
    + cbn [number_mentions_ast]. rewrite orb_false_r. apply visit_domain_ok.
  - intros k d e p He f nested s. eapply visited_trans; [apply visited_domain | apply He].
  - auto.
  - intros c f nested s. apply visit_collection_ok.
  - intros d e fl He Hf f nested s. by apply visit_domain_value_ok.
  - auto.
  - auto.
  - intros r. destruct r; try done; intros f nested s1; first [apply visited_refl | apply visit_collection_ok].
Qed.

(** A rule needs no syntax tree of the file exactly when it nowhere mentions
    the [ast] domain; in particular such a rule is never rejected. *)
Theorem ast_kind_names_none n : ast_kind_names n = Ok None <-> mentions_ast n = false.
Proof.
  unfold ast_kind_names.
  destruct (visit_node_ok n false false (mk_analysis false [] None)) as [Hu Hr].
  cbn [uses_ast unsupported orb] in *. rewrite Hu. destruct (mentions_ast n).
  - split; [by destruct (unsupported _) | done].
  - rewrite (Hr eq_refl eq_refl). done.
Qed.

End ast.
End AstFacts.

Module DslTheorems.
Import StrFacts Cursor Ast DslAtom DslParse Typing.

(** ** The parser is total and its trees are well typed *)

(** Parsing never panics and always ends: for every text, the parser of
    the rule language returns a tree or an error. No slice is taken off a
    character boundary or out of range, and the nesting of the text bounds the
    recursion. *)
Theorem parse_never_panics `{RE : RegexEngine} K input scheme :
  utf8 input -> safe (parse input scheme K).
Proof. intros Hi. eapply post_safe. by apply DslFacts.rule_parse_post. Qed.

Lemma parse_never_panics_witness :
  utf8 (bs "NOT (name =~ ^a AND count(class) <= 3") /\
  safe (parse (RE:=substring_engine) (bs "NOT (name =~ ^a AND count(class) <= 3")
          (bs "code+moniker://") [bs "class"]).
Proof. split; [by vm_compute |]. apply parse_never_panics. by vm_compute. Defined.

(** C10: the trees the parser returns are well typed: kinds, shapes and paths
    of projections are known, [pairs(...)] bindings are used only inside a
    [pairs(...)] filter, every operator applies to its left-hand side and its
    right-hand side has the type it needs, compiled expressions are present
    exactly where the evaluator needs them, and monikers are valid. *)
Theorem parse_well_typed `{RE : RegexEngine} K input scheme n :
  utf8 input -> parse input scheme K = Ok n -> node_wf K false n = true.
Proof. intros Hi Hp. pose proof (DslFacts.rule_parse_post K input scheme Hi) as H. by rewrite Hp in H. Qed.

Lemma parse_well_typed_witness :
  exists n, parse (RE:=substring_engine)
      (bs "any(pairs(class), a.name = b.name AND depth > 2) => name =~ 'x'")
      (bs "code+moniker://") [bs "class"] = Ok n /\
    node_wf (RE:=substring_engine) [bs "class"] false n = true.
Proof.
  destruct (parse (RE:=substring_engine)
      (bs "any(pairs(class), a.name = b.name AND depth > 2) => name =~ 'x'")
      (bs "code+moniker://") [bs "class"]) as [n | e | |] eqn:Hp;
    [| vm_compute in Hp; discriminate Hp ..].
  exists n. split; [done |]. eapply parse_well_typed; [| exact Hp]. by vm_compute.
Defined.

(** ** [disjoint] *)
Section disjoint.
Context {RE : RegexEngine}.

(** A rule read as a proposition, [v] being the truth of the other nodes. *)
Fixpoint holds (v : Node -> bool) (n : Node) : bool :=
  match n with
  | And l => forallb (holds v) l
  | Or l => existsb (holds v) l
  | Not n => negb (holds v n)
  | Implies l r => implb (holds v l) (holds v r)
  | _ => v n
  end.

Definition count_holding (v : Node -> bool) (l : list Node) : nat :=
  length (List.filter (holds v) l).

Lemma holds_collapse v l : holds v (collapse And l) = forallb (holds v) l.
Proof. destruct l as [| n [| n2 l]]; [done | | done]. cbn. by rewrite andb_true_r. Qed.

Lemma exclude_hold v n l :
  forallb (holds v) ((fun r => Not (And [n; r])) <$> l) = true <->
  (holds v n = true -> count_holding v l = 0).
Proof.
  induction l as [| r l IH]; [done |]. cbn [fmap list_fmap forallb].
  rewrite andb_true_iff. change (((fun r => Not (And [n; r])) <$> l)) with
    (list_fmap _ _ (fun r => Not (And [n; r])) l) in IH. rewrite IH.
  unfold count_holding. cbn. destruct (holds v n), (holds v r); cbn; intuition (done || lia).
Qed.

Lemma exclusions_hold v l :
  forallb (holds v) (exclusions l) = true <-> count_holding v l <= 1.
Proof.
  induction l as [| n l IH]; [cbn; split; [lia | done] |]. cbn [exclusions].
  rewrite forallb_app, andb_true_iff, exclude_hold, IH.
  unfold count_holding. cbn. destruct (holds v n); cbn; intuition lia.
Qed.

(** The tree of [p1 disjoint p2 disjoint ...] holds exactly when at most
    one of its operands does, whatever the operands mean. *)
Theorem disjoint_at_most_one v operands :
  2 <= length operands ->
  holds v (disjoint_root operands) = true <-> count_holding v operands <= 1.
Proof.
  intros Hl. destruct operands as [| n1 [| n2 l]]; [cbn in Hl; lia | cbn in Hl; lia |].
  cbn [disjoint_root]. rewrite holds_collapse. apply exclusions_hold.
Qed.

End disjoint.

Lemma disjoint_at_most_one_witness :
  let l := [Require_ (bs "a"); Require_ (bs "b"); Require_ (bs "c")] in
  let v := fun n => match n with Require_ p => negb (beq p (bs "c")) | _ => false end in
  2 <= length l /\
  (holds (RE:=substring_engine) v (disjoint_root l) = true <-> count_holding v l <= 1).
Proof. intros l v. split; [vm_compute; lia |]. apply disjoint_at_most_one. vm_compute. lia. Defined.

(** ** Names of projections *)

Definition name_of (s : bytes) (l : Lhs.t) : bool :=
  beq s (Lhs.as_str l) ||
  bool_decide (l = Lhs.Moniker) && (beq s (bs "moniker") || beq s (bs "self")) ||
  bool_decide (l = Lhs.ParentMoniker) && beq s (bs "self.parent").

(** Every projection is read back from the name it prints, and the only
    other names are the aliases [moniker] and [self] of [uri] and
    [self.parent] of [parent]. *)
Theorem projection_names s l :
  Lhs.from_projection_name s = Some l <->
  s = Lhs.as_str l \/
  (l = Lhs.Moniker /\ (s = bs "moniker" \/ s = bs "self")) \/
  (l = Lhs.ParentMoniker /\ s = bs "self.parent").
Proof.
  split.
  - unfold Lhs.from_projection_name. intros H. apply fmap_Some in H as ([n l'] & Hf & ->).
    eapply (find_row _ (fun e => name_of e.1 e.2 = true)) in Hf as [Hr He];
      [| by apply forallb_Forall; vm_compute].
    cbn [fst snd] in *. apply beq_true in He as ->. unfold name_of in Hr.
    rewrite !orb_true_iff, !andb_true_iff, orb_true_iff, !beq_true, !bool_decide_eq_true in Hr.
    tauto.
  - intros [-> | [[-> [-> | ->]] | [-> ->]]]; [by destruct l | done..].
Qed.

(** ** Inline project selectors *)

Lemma replace_loop_ok input fuel : forall index copied output,
  utf8 input -> is_char_boundary input copied = true -> copied <= index ->
  length input - index < fuel -> utf8 output ->
  exists r, replace_aliases_loop fuel input index copied output = Ok r /\ utf8 r.
Proof.
  induction fuel as [| fuel IH]; intros index copied output Hi Hb Hle Hf Ho; [lia |].
  cbn [replace_aliases_loop]. destruct (input !! index) as [c |] eqn:Hc.
  - pose proof (lookup_lt_Some _ _ _ Hc) as Hlt.
    destruct (ceq c "$"%char) eqn:Hd; cbn [negb]; [| apply IH; (done || lia)].
    apply ceq_true in Hd as ->.
    set (f := fun c => is_ascii_alphanumeric c || ceq c "_"%char).
    set (e := scan_while f input (index + 1)).
    pose proof (scan_ge f input (index + 1)) as Hge. fold e in Hge.
    destruct (e =? index + 1); [apply IH; (done || lia) |].
    destruct (boundary_ascii input index _ Hi Hc eq_refl) as [Hb0 Hb1].
    destruct (str_slice_ok (E:=ParseError) input copied index) as (t & -> & Ht & _); [done.. |].
    rewrite ret_bind. apply IH; try done; [| lia |].
    + apply scan_boundary; [done | done |]. unfold f. auto 10 with moniker.
    + rewrite from_utf8_app by done. by rewrite from_utf8_app.
  - destruct (str_from_ok (E:=ParseError) input copied Hi Hb) as [-> Ht].
    rewrite ret_bind. eexists. split; [done |]. by rewrite from_utf8_app.
Qed.

Lemma replace_aliases_ok input :
  utf8 input -> exists r, replace_aliases_with_neutral_atoms input = Ok r /\ utf8 r.
Proof. intros. apply replace_loop_ok; try done. lia. Qed.

(** The search for inline project selectors is total: aliases are cut out
    on character boundaries and replaced, the text that results is parsed
    without a panic, and a text that does not parse has no selector. *)
Theorem inline_selector_total `{RE : RegexEngine} kinds input :
  utf8 input -> exists b, contains_inline_project_selector kinds input = Ok b.
Proof.
  intros Hi. unfold contains_inline_project_selector.
  destruct (replace_aliases_ok input Hi) as (r & -> & Hr). rewrite ret_bind.
  pose proof (DslFacts.rule_parse_post (kinds ++ [bs "member"]) r (bs "code+moniker://") Hr) as Hp.
  destruct (parse r _ _); try done; eauto.
Qed.

Lemma inline_selector_total_witness :
  utf8 (bs "$a AND uri ~ '**/class:A'") /\
  exists b, contains_inline_project_selector (RE:=substring_engine) [bs "class"]
    (bs "$a AND uri ~ '**/class:A'") = Ok b.
Proof. split; [by vm_compute |]. apply inline_selector_total. by vm_compute. Defined.

Example inline_selector_found :
  contains_inline_project_selector (RE:=substring_engine) [bs "class"]
    (bs "$a AND uri ~ '**/class:A'") = Ok true.
Proof. vm_compute. reflexivity. Qed.

End DslTheorems.
