(* ===== verification/Syntax.v ===== *)
(** Languages and parsed documents (src/crates/core/src/lang/mod.rs and
    document.rs). Trees and nodes are those of the [tree-sitter] crate, which is
    not part of this repository: the class [TreeSitter] lists the operations the
    program uses, and [TreeSitterLaws] what it documents of them.

    The node that spans a range: [covering_node] is total and exact. *)

From S2P Require Import Prelude.
From S2P Require Import RustStr.

#[local] Set Warnings "-register-all".

Module Lang.

Inductive t : Set :=
| Ts | Tsx | Js | Jsx | Rs | Java | Python | Go | C | Cs | Sql | Markdown | Json | Yaml.

Definition ALL : list t :=
  [Ts; Tsx; Js; Jsx; Rs; Java; Python; Go; C; Cs; Sql; Markdown; Json; Yaml].

(** The [LANG_TAG] of each language. *)
Definition tag (l : t) : bytes :=
  match l with
  | Ts => bs "ts" | Tsx => bs "tsx" | Js => bs "js" | Jsx => bs "jsx" | Rs => bs "rs"
  | Java => bs "java" | Python => bs "python" | Go => bs "go" | C => bs "c" | Cs => bs "cs"
  | Sql => bs "sql" | Markdown => bs "markdown" | Json => bs "json" | Yaml => bs "yaml"
  end.

Definition from_tag (s : bytes) : option t := List.find (fun l => beq s (tag l)) ALL.

Definition ecosystem (l : t) : t :=
  match l with Tsx | Js | Jsx => Ts | other => other end.

(** [config_section] (check/config/mod.rs) *)
Definition config_section (l : t) : bytes :=
  match l with Rs => bs "rust" | other => tag other end.

(** [ALLOWED_KINDS] of each extractor *)
Definition allowed_kinds (l : t) : list bytes :=
  bs <$> match l with
         | Ts | Tsx | Js | Jsx =>
             ["class"; "interface"; "type"; "function"; "method"; "const"; "enum"; "constructor";
              "field"; "enum_constant"; "namespace"]
         | Rs =>
             ["struct"; "enum"; "enum_constant"; "trait"; "impl"; "fn"; "macro"; "method"; "test";
              "const"; "static"; "field"; "path"; "type"]
         | Java =>
             ["class"; "interface"; "enum"; "record"; "annotation_type"; "method"; "constructor";
              "field"; "enum_constant"]
         | Python => ["class"; "type"; "function"; "method"; "async_function"; "path"]
         | Go => ["type"; "struct"; "interface"; "func"; "method"; "field"; "var"; "const"]
         | C =>
             ["struct"; "enum"; "type"; "func"; "macro"; "field"; "enum_constant"; "var"; "const"]
         | Cs =>
             ["class"; "interface"; "struct"; "record"; "enum"; "enum_constant"; "delegate";
              "method"; "constructor"; "field"; "property"; "event"]
         | Sql =>
             ["index"; "index_key"; "index_include"; "index_predicate"; "constraint_column";
              "function"; "procedure"; "view"; "table"; "column"; "constraint"; "trigger"; "type";
              "schema"]
         | Markdown => ["section"; "code_block"; "link_definition"]
         | Json => ["key"; "item"]
         | Yaml => ["document"; "key"; "item"]
         end%string.

(** [ALLOWED_VISIBILITIES] of each extractor *)
Definition allowed_visibilities (l : t) : list bytes :=
  bs <$> match l with
         | Ts | Tsx | Js | Jsx => ["public"; "private"; "protected"; "module"]
         | Rs | Python => ["public"; "private"; "module"]
         | Java | Cs => ["public"; "protected"; "package"; "private"]
         | Go | C => ["public"; "module"]
         | Sql | Markdown | Json | Yaml => []
         end%string.

Definition ignores_visibility (l : t) : bool :=
  match allowed_visibilities l with [] => true | _ => false end.

#[global] Instance t_eq_dec : EqDecision t.
Proof. solve_decision. Defined.

End Lang.

(** The parts of [tree-sitter]'s [Tree], [Node] and [TreeCursor] in use. A
    cursor that cannot move returns [None] and stays where it is. *)
Class TreeSitter : Type := {
  Tree : Type;
  TsNode : Type;
  TreeCursor : Type;
  root_node : Tree -> TsNode;
  start_byte : TsNode -> nat;
  end_byte : TsNode -> nat;
  start_row : TsNode -> nat;
  end_row : TsNode -> nat;
  end_column : TsNode -> nat;
  node_kind : TsNode -> bytes;
  is_named : TsNode -> bool;
  has_error : TsNode -> bool;
  node_eqb : TsNode -> TsNode -> bool;
  node_parent : TsNode -> option TsNode;
  named_children : TsNode -> list TsNode;
  descendant_count : TsNode -> nat;
  node_depth : TsNode -> nat;
  walk : TsNode -> TreeCursor;
  cursor_node : TreeCursor -> TsNode;
  cursor_depth : TreeCursor -> nat;
  goto_first_child : TreeCursor -> option TreeCursor;
  goto_next_sibling : TreeCursor -> option TreeCursor;
  goto_parent : TreeCursor -> option TreeCursor
}.

(** A node counts itself and what is below it, its parents end at the root, and
    a cursor moves one level at a time. *)
Class TreeSitterLaws `(TS : TreeSitter) : Prop := {
  children_smaller n c : c ∈ named_children n -> descendant_count c < descendant_count n;
  children_within n c :
    c ∈ named_children n -> start_byte n <= start_byte c /\ end_byte c <= end_byte n;
  parent_depth n p : node_parent n = Some p -> node_depth n = S (node_depth p);
  goto_parent_depth c d : goto_parent c = Some d -> cursor_depth c = S (cursor_depth d)
}.

Module Syntax.
Section syntax.
Context {TS : TreeSitter}.

Inductive SyntaxEntryPoint : Set := Script | Statement | Expression | Block.

Definition entry_point_tag (e : SyntaxEntryPoint) : bytes :=
  match e with
  | Script => bs "script"
  | Statement => bs "statement"
  | Expression => bs "expression"
  | Block => bs "block"
  end.

(** [Range<usize>] *)
Abbreviation Range := (nat * nat)%type.

Inductive SyntaxInjection : Type := mk_injection {
  language : bytes;
  entry_point : SyntaxEntryPoint;
  host_byte_range : Range;
  content_byte_range : Range;
  tree : Tree;
  analysis : option (bytes * nat);
  nested : list SyntaxInjection
}.

Definition new_injection (language : bytes) (entry_point : SyntaxEntryPoint)
    (host content : Range) (tree : Tree) : SyntaxInjection :=
  mk_injection language entry_point host content tree None [].

Definition with_nested (i : SyntaxInjection) (ns : list SyntaxInjection) : SyntaxInjection :=
  mk_injection (language i) (entry_point i) (host_byte_range i) (content_byte_range i)
    (tree i) (analysis i) ns.

Definition with_analysis (i : SyntaxInjection) (source : bytes) (prefix : nat) : SyntaxInjection :=
  mk_injection (language i) (entry_point i) (host_byte_range i) (content_byte_range i)
    (tree i) (Some (source, prefix)) (nested i).

Definition analysis_prefix (i : SyntaxInjection) : nat :=
  match analysis i with Some (_, prefix) => prefix | None => 0 end.

Definition analysis_source (i : SyntaxInjection) : option bytes := fst <$> analysis i.

Definition nested_for_host (i : SyntaxInjection) (host : Range) : option SyntaxInjection :=
  List.find (fun i => (fst (host_byte_range i) =? fst host) &&
                      (snd (host_byte_range i) <=? snd host)) (nested i).

Record ParsedDocument : Type := mk_document {
  primary : Tree;
  injections : list SyntaxInjection
}.

Definition new (primary : Tree) : ParsedDocument := mk_document primary [].

Definition with_injections (primary : Tree) (injections : list SyntaxInjection) : ParsedDocument :=
  mk_document primary injections.

Definition injection_for_host (d : ParsedDocument) (host : Range) : option SyntaxInjection :=
  List.find (fun i => (fst (host_byte_range i) =? fst host) &&
                      (snd (host_byte_range i) <=? snd host)) (injections d).

Definition injection_within (d : ParsedDocument) (container : Range) : option SyntaxInjection :=
  List.find (fun i => (fst container <=? fst (host_byte_range i)) &&
                      (snd (host_byte_range i) <=? snd container)) (injections d).

(** The [for child in children] loop. *)
Fixpoint first_found {E} (f : TsNode -> res E (option TsNode)) (l : list TsNode) :
    res E (option TsNode) :=
  match l with
  | [] => mret None
  | c :: l =>
      found ← f c;
      match found with Some n => mret (Some n) | None => first_found f l end
  end.

(** [covering_node], by fuel: the recursion follows the children. *)
Fixpoint covering_loop {E} (fuel : nat) (node : TsNode) (range : Range) :
    res E (option TsNode) :=
  match fuel with
  | O => NoFuel
  | S fuel =>
      if (fst range <? start_byte node) || (end_byte node <? snd range) then mret None
      else if is_named node && (start_byte node =? fst range) && (end_byte node =? snd range)
      then mret (Some node)
      else first_found (fun child => covering_loop fuel child range) (named_children node)
  end.

Definition covering_node {E} (node : TsNode) (range : Range) : res E (option TsNode) :=
  covering_loop (S (descendant_count node)) node range.

Definition render_root {E} (i : SyntaxInjection) : res E TsNode :=
  let root := root_node (tree i) in
  let prefix := analysis_prefix i in
  if prefix =? 0 then mret root
  else if snd (content_byte_range i) <? fst (content_byte_range i) then Panic
  else
    let content := prefix + (snd (content_byte_range i) - fst (content_byte_range i)) in
    found ← covering_node root (prefix, content);
    mret (default root found).

(** ** What [covering_node] finds *)

Definition spans (n : TsNode) (range : Range) : Prop :=
  is_named n = true /\ start_byte n = fst range /\ end_byte n = snd range.

(** [m] is [n] or is below it through named nodes. *)
Inductive below : TsNode -> TsNode -> Prop :=
| below_refl n : below n n
| below_child n c m : c ∈ named_children n -> below c m -> below n m.

End syntax.
End Syntax.

Module SyntaxFacts.
Import Syntax.
Section facts.
Context {TS : TreeSitter} {TL : TreeSitterLaws TS}.

(** The search over the children keeps the first that is found. *)
Lemma first_found_spec {E} (f : TsNode -> res E (option TsNode)) (P : TsNode -> option TsNode -> Prop) l :
  Forall (fun c => exists o, f c = Ok o /\ P c o) l ->
  exists o, first_found f l = Ok o /\
    match o with
    | Some n => exists c, c ∈ l /\ P c (Some n)
    | None => Forall (fun c => P c None) l
    end.
Proof.
  induction 1 as [| c l (o & Hf & HP) Hl IH]; cbn [first_found]; [by exists None |].
  rewrite Hf. cbn [mbind res_bind]. destruct o as [n |].
  - exists (Some n). split; [done |]. exists c. split; [by left | done].
  - destruct IH as (o & -> & Ho). exists o. split; [done |].
    destruct o as [n |]; [| by constructor].
    destruct Ho as (c' & Hin & HP'). exists c'. split; [by right | done].
Qed.

Lemma below_within n m : below n m -> start_byte n <= start_byte m /\ end_byte m <= end_byte n.
Proof.
  induction 1 as [n | n c m Hc Hb IH]; [lia |]. pose proof (children_within _ _ Hc). lia.
Qed.

Lemma covering_loop_spec {E} fuel n range :
  descendant_count n < fuel ->
  exists o, covering_loop (E:=E) fuel n range = Ok o /\
    match o with
    | Some m => below n m /\ spans m range
    | None => forall m, below n m -> ~ spans m range
    end.
Proof.
  revert n. induction fuel as [| fuel IH]; intros n Hf; [lia |]. cbn [covering_loop].
  destruct ((fst range <? start_byte n) || (end_byte n <? snd range)) eqn:Hout.
  { exists None. split; [done |]. intros m Hm (_ & Hs & He).
    pose proof (below_within _ _ Hm). apply orb_true_iff in Hout as [Ho | Ho]; bool_inv; lia. }
  destruct (is_named n && (start_byte n =? fst range) && (end_byte n =? snd range)) eqn:Hself.
  { exists (Some n). bool_inv. split; [done |]. split; [constructor | done]. }
  destruct (first_found_spec (E:=E) (fun c => covering_loop fuel c range)
    (fun c o => match o with
                | Some m => below c m /\ spans m range
                | None => forall m, below c m -> ~ spans m range
                end) (named_children n)) as (o & Ho & HP).
  { apply Forall_forall. intros c Hc. apply IH. pose proof (children_smaller _ _ Hc). lia. }
  exists o. split; [done |]. destruct o as [m |].
  - destruct HP as (c & Hc & Hm & Hs). split; [by eapply below_child | done].
  - intros m Hm Hs. inversion Hm as [| ? c ? Hc Hb]; subst.
    + destruct Hs as (Hs1 & Hs2 & Hs3). rewrite Hs1, Hs2, Hs3, !Nat.eqb_refl in Hself. done.
    + rewrite Forall_forall in HP. by eapply HP.
Qed.

(** [covering_node] always returns; what it returns is a named node below the
    one given that spans exactly the range, and it returns nothing only when no
    such node exists. *)
Theorem covering_node_exact {E} n range :
  exists o, covering_node (E:=E) n range = Ok o /\
    match o with
    | Some m => below n m /\ spans m range
    | None => forall m, below n m -> ~ spans m range
    end.
Proof. apply covering_loop_spec. lia. Qed.

End facts.

(** A concrete tree: three named nodes, each the only child of the one before,
    that spans one byte less on both sides. *)
Definition chain_start (n : nat) : nat := n.
Definition chain_end (n : nat) : nat := 10 - n.
Definition chain_children (n : nat) : list nat := if n <? 2 then [S n] else [].
Definition chain_up (n : nat) : option nat := match n with O => None | S n => Some n end.
Definition chain_down (n : nat) : option nat := head (chain_children n).

Definition chain_kind (n : nat) : bytes :=
  match n with 0 => bs "program" | 1 => bs "call" | _ => bs "identifier" end.

#[global] Instance chain_tree : TreeSitter := {|
  Tree := ();
  TsNode := nat;
  TreeCursor := nat;
  root_node _ := 0;
  start_byte := chain_start;
  end_byte := chain_end;
  start_row _ := 0;
  end_row _ := 0;
  end_column := chain_end;
  node_kind := chain_kind;
  is_named _ := true;
  has_error _ := false;
  node_eqb := Nat.eqb;
  node_parent := chain_up;
  named_children := chain_children;
  descendant_count n := 3 - n;
  node_depth n := n;
  walk n := n;
  cursor_node n := n;
  cursor_depth n := n;
  goto_first_child := chain_down;
  goto_next_sibling _ := None;
  goto_parent := chain_up
|}.

Lemma chain_child n c : c ∈ chain_children n -> c = S n /\ n < 2.
Proof.
  unfold chain_children. destruct (n <? 2) eqn:Hn; bool_inv; [| by intros ?%not_elem_of_nil].
  by intros ->%list_elem_of_singleton.
Qed.

#[global] Instance chain_laws : TreeSitterLaws chain_tree.
Proof.
  split; cbn.
  - intros n c [-> Hn]%chain_child. lia.
  - intros n c [-> Hn]%chain_child. unfold chain_start, chain_end. lia.
  - intros [| n] p; cbn; congruence.
  - intros [| n] p; cbn; congruence.
Qed.

Lemma covering_node_witness :
  exists o, covering_node (E:=Empty_set) 0 (1, 9) = Ok o /\
    match o with
    | Some m => below 0 m /\ spans m (1, 9)
    | None => forall m, below 0 m -> ~ spans m (1, 9)
    end.
Proof. exact (covering_node_exact (TL:=chain_laws) 0 (1, 9)). Defined.

Example covering_call : covering_node (E:=Empty_set) (0 : TsNode) (1, 9) = Ok (Some 1).
Proof. reflexivity. Qed.

End SyntaxFacts.
