(* ===== verification/Suppress.v ===== *)
(** Lines of a source text (src/crates/workspace/src/lines.rs): the line range
    of a byte range, by counting and by a table of line starts, and the proof
    that the two agree.

    The counts are cast to [u32] with [as], and the sum [1 + count] is taken
    modulo 2^32 (the release profile).

    What a check reports (src/crates/check/src/check/config/mod.rs and
    eval/mod.rs): the severity of a rule and the violations it yields.

    Suppression of violations (src/crates/check/src/check/suppress.rs): the
    [code-moniker: ignore] directives of a source text and of the comments of
    its graph, and the violations they silence. *)

From S2P Require Import Prelude.
From S2P Require Import RustStr.
From S2P Require Import Shape.
From S2P Require Import Moniker.
From S2P Require Import CodeGraph.

Module Lines.

Definition newline : ascii := ascii_of_N 10.
Arguments newline : simpl never.

(** [as u32] *)
Definition as_u32 (n : nat) : N := (N.of_nat n mod 2 ^ 32)%N.

Definition u32_add (a b : N) : N := ((a + b) mod 2 ^ 32)%N.

(** [bytes.iter().filter(|b| **b == b'\n').count()] *)
Definition count_newlines (l : bytes) : nat := length (List.filter (fun b => ceq b newline) l).

Definition line_range (source : bytes) (start end_ : N) : N * N :=
  let n := length source in
  let s := Nat.min (N.to_nat start) n in
  let e := Nat.max (Nat.min (N.to_nat end_) n) s in
  let start_line := u32_add 1 (as_u32 (count_newlines (take s source))) in
  let last := if s <? e then e - 1 else s in
  let end_line := u32_add 1 (as_u32 (count_newlines (take (Nat.min last n) source))) in
  (start_line, end_line).

Record LineIndex : Set := mk_index { source_len : nat; line_starts : list nat }.

(** The [for (idx, byte) in source.as_bytes().iter().enumerate()] loop. *)
Fixpoint starts_loop (idx : nat) (l : bytes) : list nat :=
  match l with
  | [] => []
  | b :: l => if ceq b newline then (idx + 1) :: starts_loop (idx + 1) l else starts_loop (idx + 1) l
  end.

Definition new (source : bytes) : LineIndex :=
  mk_index (length source) (0 :: starts_loop 0 source).

(** [slice::partition_point]: the binary search of the standard library over
    [base .. base + size]. *)
Fixpoint partition_loop (fuel : nat) (p : nat -> bool) (l : list nat) (base size : nat) : nat :=
  match fuel with
  | O => base
  | S fuel =>
      if size <=? 1 then base
      else
        let half := size / 2 in
        let mid := base + half in
        let base := if p (nth mid l 0) then mid else base in
        partition_loop fuel p l base (size - half)
  end.

Definition partition_point (p : nat -> bool) (l : list nat) : nat :=
  match l with
  | [] => 0
  | _ =>
      let base := partition_loop (length l) p l 0 (length l) in
      if p (nth base l 0) then base + 1 else base
  end.

Definition line_at (i : LineIndex) (offset : nat) : N :=
  as_u32 (partition_point (fun start => start <=? offset) (line_starts i)).

Definition index_line_range (i : LineIndex) (start end_ : N) : N * N :=
  let s := Nat.min (N.to_nat start) (source_len i) in
  let e := Nat.max (Nat.min (N.to_nat end_) (source_len i)) s in
  let last := if s <? e then e - 1 else s in
  (line_at i s, line_at i (Nat.min last (source_len i))).

(** ** The binary search *)

(** The list is split by [p] at [k]: true before, false from there. *)
Definition split_at (p : nat -> bool) (l : list nat) (k : nat) : Prop :=
  k <= length l /\ forall i, i < length l -> p (nth i l 0) = (i <? k).

Lemma partition_loop_spec p l k fuel : forall base size,
  split_at p l k -> size <= fuel -> 1 <= size -> base + size <= length l ->
  base <= k -> k <= base + size ->
  let b := partition_loop fuel p l base size in
  b < length l /\ b <= k <= b + 1.
Proof.
  induction fuel as [| fuel IH]; intros base size Hp Hf H1 Hb Hlo Hhi; [lia |].
  cbn [partition_loop]. destruct (size <=? 1) eqn:Hs; bool_inv; [cbv zeta; lia |].
  assert (1 <= size / 2) as Hh1 by (apply Nat.div_le_lower_bound; lia).
  assert (size / 2 < size) as Hh2 by (apply Nat.div_lt; lia).
  assert (size / 2 * 2 <= size) as Hh3 by (pose proof (Nat.Div0.mul_div_le size 2); lia).
  destruct Hp as [Hk Hp]. rewrite (Hp (base + size / 2)) by lia.
  destruct (base + size / 2 <? k) eqn:Hm; bool_inv; apply IH; (done || lia).
Qed.

Lemma partition_point_spec p l k : split_at p l k -> partition_point p l = k.
Proof.
  intros Hp. unfold partition_point. destruct l as [| x l]; [destruct Hp as [Hk _]; cbn in Hk; lia |].
  set (l' := x :: l) in *. assert (1 <= length l') as Hl by (unfold l'; cbn; lia).
  pose proof Hp as [Hk Hi].
  destruct (partition_loop_spec p l' k (length l') 0 (length l')) as [Hb1 Hb2]; [done | lia.. |].
  set (b := partition_loop _ _ _ _ _) in *. rewrite (Hi b Hb1).
  destruct (b <? k) eqn:Hbk; bool_inv; lia.
Qed.

Lemma partition_loop_lt p l fuel : forall base size,
  base + size <= length l -> 1 <= size -> partition_loop fuel p l base size < length l.
Proof.
  induction fuel as [| fuel IH]; intros base size Hb H1; [cbn; lia |].
  cbn [partition_loop]. destruct (size <=? 1) eqn:Hs; bool_inv; [lia |].
  assert (size / 2 < size) as Hh2 by (apply Nat.div_lt; lia).
  destruct (p _); apply IH; lia.
Qed.

(** Whatever the predicate, the search stays inside the list. *)
Lemma partition_point_le p l : partition_point p l <= length l.
Proof.
  unfold partition_point. destruct l as [| x l]; [done |].
  pose proof (partition_loop_lt p (x :: l) (length (x :: l)) 0 (length (x :: l))) as H.
  cbv zeta. cbn [length] in *. destruct (p _); lia.
Qed.

(** ** The table of line starts *)

Lemma starts_ge l idx : Forall (fun n => idx < n) (starts_loop idx l).
Proof.
  revert idx. induction l as [| b l IH]; intros idx; cbn [starts_loop]; [done |].
  assert (Forall (fun n => idx < n) (starts_loop (idx + 1) l)) as H.
  { eapply Forall_impl; [apply IH |]. cbv beta. lia. }
  destruct (ceq b newline); [constructor; [lia | done] | done].
Qed.

Lemma split_at_cons p x l k :
  p x = true -> split_at p l k -> split_at p (x :: l) (S k).
Proof.
  intros Hx [Hk Hp]. split; [cbn; lia |]. intros [| i] Hi; cbn in *; [done |].
  rewrite Hp by lia. done.
Qed.

Lemma split_at_none p l : Forall (fun n => p n = false) l -> split_at p l 0.
Proof.
  intros H. split; [lia |]. intros i Hi. rewrite Forall_nth in H. by apply H.
Qed.

(** The starts at or before [offset] are as many as the newlines before it. *)
Lemma starts_split l idx offset :
  idx <= offset ->
  split_at (fun n => n <=? offset) (starts_loop idx l) (count_newlines (take (offset - idx) l)).
Proof.
  revert idx. induction l as [| b l IH]; intros idx Hle; cbn [starts_loop].
  - rewrite take_nil. by apply split_at_none.
  - destruct (decide (idx = offset)) as [-> | Hne].
    + rewrite Nat.sub_diag. apply split_at_none.
      change (if ceq b newline then _ else _) with (starts_loop offset (b :: l)).
      eapply Forall_impl; [apply starts_ge |]. cbv beta. intros n Hn. by apply Nat.leb_gt.
    + specialize (IH (idx + 1)). replace (offset - idx) with (S (offset - (idx + 1))) by lia.
      cbn [take]. unfold count_newlines in *. cbn [List.filter].
      destruct (ceq b newline); [| apply IH; lia].
      apply split_at_cons; [apply Nat.leb_le; lia | apply IH; lia].
Qed.

Lemma line_at_spec source offset :
  line_at (new source) offset = u32_add 1 (as_u32 (count_newlines (take offset source))).
Proof.
  unfold line_at, new. cbn [line_starts]. erewrite partition_point_spec.
  2: { apply split_at_cons; [done |]. apply (starts_split source 0 offset). lia. }
  rewrite Nat.sub_0_r. unfold u32_add, as_u32. rewrite N.Div0.add_mod_idemp_r. f_equal. lia.
Qed.

(** The table of line starts gives the same lines as counting newlines, for
    every text and every byte range, empty, reversed or past the end. *)
Theorem line_index_agrees (source : bytes) (start end_ : N) :
  index_line_range (new source) start end_ = line_range source start end_.
Proof.
  unfold index_line_range, line_range. cbv zeta. cbn [source_len new]. by rewrite !line_at_spec.
Qed.

Example out_of_bounds : line_range (bs "a" ++ [newline] ++ bs "b" ++ [newline]) 100 200 = (3, 3)%N.
Proof. reflexivity. Qed.

End Lines.

Module Report.

(** [RuleSeverity] (config/mod.rs) *)
Inductive RuleSeverity : Set := Warn | Error.

(** [Violation] (eval/mod.rs) *)
Record Violation : Set := mk_violation {
  rule_id : bytes;
  severity : RuleSeverity;
  violation_moniker : bytes;
  srcset : option bytes;
  violation_kind : bytes;
  lines : N * N;
  message : bytes;
  explanation : option bytes
}.

End Report.

(** [directive_re().captures(text)], the [regex] crate on a fixed expression:
    whether the group [-file] took part, and the text of the group of rule
    names. *)
Class DirectiveRegex : Type := {
  captures : bytes -> option (bool * option bytes)
}.

Module Suppress.
Import CodeGraph Lines Report.
Section suppress.
Context {DR : DirectiveRegex}.

Record Directive : Set := mk_directive {
  comment_start_byte : N;
  comment_end_byte : N;
  file_scope : bool;
  rule_filters : list bytes
}.

Definition directive_from_captures (start end_ : N) (caps : bool * option bytes) : Directive :=
  let file_scope := caps.1 in
  let rule_filters :=
    match caps.2 with
    | Some m => List.filter (fun s => negb (beq s [])) (trim <$> split_on ","%char m)
    | None => []
    end in
  mk_directive start end_ file_scope rule_filters.

(** [trim_end_matches(['\r', '\n'])] *)
Definition is_eol (c : ascii) : bool := ceq c (ascii_of_N 13) || ceq c newline.

(** The [for line in source.split_inclusive('\n')] loop. *)
Fixpoint source_directives_loop (line_start : nat) (ls : list bytes) : list Directive :=
  match ls with
  | [] => []
  | line :: ls =>
      let line_end := line_start + length (trim_end_chars is_eol line) in
      let rest := source_directives_loop (line_start + length line) ls in
      match captures line with
      | Some caps => directive_from_captures (as_u32 line_start) (as_u32 line_end) caps :: rest
      | None => rest
      end
  end.

Definition collect_source_directives (source : bytes) : list Directive :=
  source_directives_loop 0 (split_inclusive newline source).

Definition key (d : Directive) : N * N * bool :=
  (comment_start_byte d, comment_end_byte d, file_scope d).

(** The body of the [for d in graph.defs()] loop, on [out] and [seen]. *)
Definition collect_comment (source : bytes) (acc : list Directive * gset (N * N * bool))
    (d : DefRecord) : list Directive * gset (N * N * bool) :=
  let '(out, seen) := acc in
  if negb (beq (kind d) Kinds.KIND_COMMENT) then acc
  else
    match position d with
    | None => acc
    | Some (s, e) =>
        match str_get source (N.to_nat s) (N.to_nat e) with
        | None => acc
        | Some text =>
            match captures text with
            | None => acc
            | Some caps =>
                let directive := directive_from_captures s e caps in
                if decide (key directive ∈ seen) then acc
                else (out ++ [directive], {[key directive]} ∪ seen)
            end
        end
    end.

Definition collect_directives (g : CodeGraph.t) (source : bytes) : list Directive :=
  let out := collect_source_directives source in
  let seen := list_to_set (key <$> out) in
  (foldl (collect_comment source) (out, seen) (defs g)).1.

(** The body of the [for d in graph.defs()] loop of [next_def_after]. *)
Definition next_def_step (after_byte : N) (best : option DefRecord) (d : DefRecord) :
    option DefRecord :=
  if beq (kind d) Kinds.KIND_COMMENT then best
  else
    match position d with
    | None => best
    | Some (s, _) =>
        if (s <? after_byte)%N then best
        else
          match best with
          | None => Some d
          | Some b =>
              let bs := match position b with Some p => p.1 | None => 4294967295%N end in
              if (s <? bs)%N then Some d else best
          end
    end.

Definition next_def_after (g : CodeGraph.t) (after_byte : N) : option DefRecord :=
  foldl (next_def_step after_byte) None (defs g).

Definition target_lines_for (g : CodeGraph.t) (source : bytes) (dir : Directive) :
    option (N * N) :=
  let directive_lines := line_range source (comment_start_byte dir) (comment_end_byte dir) in
  let target_lines :=
    t ← next_def_after g (comment_end_byte dir);
    p ← position t;
    Some (line_range source p.1 p.2) in
  Some match target_lines with
       | Some t => (N.min directive_lines.1 t.1, N.max directive_lines.2 t.2)
       | None => directive_lines
       end.

Definition matches_id (dir : Directive) (rule_id : bytes) : bool :=
  match rule_filters dir with
  | [] => true
  | fs => existsb (fun f => beq rule_id f || ends_with (bs "." ++ f) rule_id) fs
  end.

(** [target.is_some_and(|(s, e)| v.lines.0 >= s && v.lines.0 <= e)] *)
Definition in_target (target : option (N * N)) (v : Violation) : bool :=
  match target with
  | Some (s, e) => (s <=? (lines v).1)%N && ((lines v).1 <=? e)%N
  | None => false
  end.

Definition apply (g : CodeGraph.t) (source : bytes) (violations : list Violation) :
    list Violation :=
  let directives := collect_directives g source in
  match directives with
  | [] => violations
  | _ =>
      let file_scoped := List.filter file_scope directives in
      let line_scoped := (fun d => (d, target_lines_for g source d)) <$>
                         List.filter (fun d => negb (file_scope d)) directives in
      List.filter (fun v =>
        negb (existsb (fun d => matches_id d (rule_id v)) file_scoped) &&
        negb (existsb (fun dt => matches_id dt.1 (rule_id v) && in_target dt.2 v) line_scoped))
        violations
  end.

(** ** What is silenced *)

(** The directive that a region of the text carries. *)
Definition directive_at (source : bytes) (s e : N) (d : Directive) : Prop :=
  exists text caps, str_get source (N.to_nat s) (N.to_nat e) = Some text /\
    captures text = Some caps /\ d = directive_from_captures s e caps.

(** A whole line, with its end. *)
Definition is_line (pre line suf : bytes) : Prop :=
  (pre = [] \/ last pre = Some newline) /\ (newline ∉ take (length line - 1) line) /\
  line <> [] /\ (suf = [] \/ last line = Some newline).

(** The bytes of a line, without its end. *)
Definition line_at_bytes (source : bytes) (s e : nat) : Prop :=
  exists pre line suf, source = pre ++ line ++ suf /\ is_line pre line suf /\
    s = length pre /\ e = s + length (trim_end_chars is_eol line).

Definition directive_of (g : CodeGraph.t) (source : bytes) (d : Directive) : Prop :=
  (exists s e, line_at_bytes source s e /\ directive_at source (N.of_nat s) (N.of_nat e) d) \/
  (exists r s e, r ∈ defs g /\ kind r = Kinds.KIND_COMMENT /\ position r = Some (s, e) /\
     directive_at source s e d).

(** The lines of a directive, and of the definition that follows it if there is one. *)
Definition silences (g : CodeGraph.t) (source : bytes) (d : Directive) (v : Violation) : Prop :=
  matches_id d (rule_id v) = true /\
  (file_scope d = true \/ in_target (target_lines_for g source d) v = true).

End suppress.
End Suppress.
