(* ===== verification/SuppressFacts.v ===== *)
(** Suppression is exact: the directives found are those of the lines of the
    text and of the comments of the graph, each counted whatever was collected
    before it, and a violation is kept exactly when none of them silences it. *)

From S2P Require Import Prelude.
From S2P Require Import RustStr.
From S2P Require Import StrFacts.
From S2P Require Import Shape.
From S2P Require Import Moniker.
From S2P Require Import CodeGraph.
From S2P Require Import Suppress.

Module SuppressFacts.
Import StrFacts CodeGraph Lines Report Suppress.

(** ** Lines of a text *)

Fixpoint spans (o : nat) (ls : list bytes) : list (nat * bytes) :=
  match ls with
  | [] => []
  | l :: ls => (o, l) :: spans (o + length l) ls
  end.

Lemma spans_ge o ls i l : (i, l) ∈ spans o ls -> o <= i.
Proof.
  revert o. induction ls as [| x ls IH]; intros o; cbn [spans]; [by intros ?%elem_of_nil |].
  intros [[= -> ->] | H]%elem_of_cons; [done |]. apply IH in H. lia.
Qed.

Lemma split_inclusive_nonempty c b r :
  exists p ps, (split_inclusive c (b :: r) = p :: ps) /\ 1 <= length p.
Proof.
  cbn [split_inclusive]. destruct (ceq b c); [by eexists _, _ |].
  destruct (split_inclusive c r) as [| p ps]; [by eexists _, _ |].
  eexists _, _. split; [done |]. cbn. lia.
Qed.

Lemma is_line_tail b pre line suf :
  (b = newline \/ pre <> []) -> is_line (b :: pre) line suf <-> is_line pre line suf.
Proof.
  intros Hb. unfold is_line. destruct pre as [| c pre]; [| rewrite last_cons_cons; intuition discriminate].
  destruct Hb as [-> | Hb]; [| done]. cbn [last]. intuition.
Qed.

Lemma is_line_head b c line suf :
  b <> newline -> is_line [] (b :: c :: line) suf <-> is_line [] (c :: line) suf.
Proof.
  intros Hb. unfold is_line. rewrite last_cons_cons. cbn [length Nat.sub]. rewrite Nat.sub_0_r.
  cbn [take]. rewrite not_elem_of_cons. intuition congruence.
Qed.

(** The pieces of [split_inclusive] are the lines, each with its offset. *)
Definition pieces_are_lines (source : bytes) : Prop := forall o0 o line,
  (o, line) ∈ spans o0 (split_inclusive newline source) <->
  exists pre suf, source = pre ++ line ++ suf /\ o = o0 + length pre /\ is_line pre line suf.

Lemma pieces_newline r : pieces_are_lines r -> pieces_are_lines (newline :: r).
Proof.
  unfold pieces_are_lines. intros IH o0 o line. cbn [split_inclusive]. rewrite ceq_refl. cbn [spans].
  rewrite elem_of_cons, IH. split.
  - intros [[= -> ->] | (pre & suf & -> & -> & Hl)].
    + exists [], r. split_and!; [done | cbn; lia |]. split_and!; [by left | | done | by right].
      cbn. apply not_elem_of_nil.
    + exists (newline :: pre), suf. split_and!; [done | cbn; lia |]. by apply is_line_tail; [left |].
  - intros ([| c pre] & suf & Hs & -> & Hl).
    + left. destruct Hl as (_ & Hn & Hne & _). destruct line as [| c [| c' line]]; [done | |];
        cbn in Hs; injection Hs as <- Hs; [f_equal; cbn; lia |].
      exfalso. apply Hn. cbn. left.
    + right. injection Hs as <- ->. exists pre, suf. split_and!; [done | cbn; lia |].
      by apply is_line_tail in Hl; [| left].
Qed.

Lemma pieces_last b : b <> newline -> pieces_are_lines [b].
Proof.
  intros Hb o0 o line. cbn [split_inclusive]. rewrite (proj2 (ceq_false _ _) Hb). cbn [spans].
  rewrite list_elem_of_singleton. split.
  - intros [= -> ->]. exists [], []. split_and!; [done | cbn; lia |].
    split_and!; [by left | apply not_elem_of_nil | done | by left].
  - intros (pre & suf & Hs & -> & _ & _ & Hne & _). destruct line as [| c line]; [done |].
    destruct pre as [| c' pre]; [| destruct pre; discriminate Hs].
    cbn in Hs. injection Hs as <- Hs. symmetry in Hs. apply app_eq_nil in Hs as [-> _].
    f_equal. cbn. lia.
Qed.

Lemma pieces_char b b' r :
  b <> newline -> pieces_are_lines (b' :: r) -> pieces_are_lines (b :: b' :: r).
Proof.
  intros Hb IH o0 o line. unfold pieces_are_lines in IH.
  destruct (split_inclusive_nonempty newline b' r) as (p & ps & Hsp & Hp).
  set (r' := b' :: r) in *. specialize (IH (S o0)). rewrite Hsp in IH. cbn [split_inclusive spans] in *.
  rewrite (proj2 (ceq_false _ _) Hb), Hsp. cbn [spans length]. rewrite Nat.add_succ_r.
  rewrite elem_of_cons. split.
  - intros [[= -> ->] | Ht].
    + destruct (proj1 (IH (S o0) p)) as (pre & suf & Hr & Ho & Hl); [left |].
      destruct pre as [| c pre]; [| cbn in Ho; lia]. cbn in Hr.
      exists [], suf. split_and!; [by rewrite Hr | cbn; lia |].
      destruct p as [| c p]; [cbn in Hp; lia |]. by apply is_line_head.
    + pose proof (spans_ge _ _ _ _ Ht) as Hge.
      destruct (proj1 (IH o line)) as (pre & suf & Hr & -> & Hl); [by right |].
      exists (b :: pre), suf. split_and!; [by rewrite Hr | cbn; lia |].
      apply is_line_tail; [right | done]. intros ->. cbn in Hge. lia.
  - intros ([| c pre] & suf & Hs & -> & Hl).
    + left. destruct line as [| c [| c' line]]; [destruct Hl as (_ & _ & ? & _); congruence | |];
        cbn in Hs; injection Hs as <- Hs.
      { destruct Hl as (_ & _ & _ & [-> | [= Hlast]]); done. }
      apply is_line_head in Hl; [| done].
      assert ((S o0, c' :: line) ∈ (S o0, p) :: spans (S (o0 + length p)) ps) as Hin.
      { apply IH. exists [], suf. split_and!; [by unfold r'; subst | cbn; lia | done]. }
      apply elem_of_cons in Hin as [Hin | Hin].
      * injection Hin as <-. f_equal. cbn. lia.
      * apply spans_ge in Hin. lia.
    + right. injection Hs as <- Hs.
      assert (pre <> []) as Hpre by (intros ->; destruct Hl as ([? | [= Hlast]] & _); done).
      apply is_line_tail in Hl; [| by right].
      assert ((S o0 + length pre, line) ∈ (S o0, p) :: spans (S (o0 + length p)) ps)
        as Hin by (apply IH; by exists pre, suf).
      apply elem_of_cons in Hin as [Hin | Hin].
      * injection Hin as Hin _. destruct pre; [done | cbn in Hin; lia].
      * cbn [length]. by replace (o0 + S (length pre)) with (S o0 + length pre) by lia.
Qed.

Lemma spans_spec source : pieces_are_lines source.
Proof.
  induction source as [| b r IH].
  - intros o0 o line. split; [by intros ?%elem_of_nil |]. intros (pre & suf & H & _ & _ & _ & Hl & _).
    symmetry in H. apply app_eq_nil in H as [_ H]. by apply app_eq_nil in H as [H _].
  - destruct (decide (b = newline)) as [-> | Hb]; [by apply pieces_newline |].
    destruct r; [by apply pieces_last | by apply pieces_char].
Qed.

Lemma drop_while_split f l : exists w, l = w ++ drop_while f l /\ Forall (fun c => f c = true) w.
Proof.
  induction l as [| b l (w & Hw & Hf)]; cbn [drop_while]; [by exists [] |].
  destruct (f b) eqn:Hb; [| by exists []]. exists (b :: w). split; [by rewrite Hw at 1 | by constructor].
Qed.

Lemma trim_end_split f l :
  exists w, l = trim_end_chars f l ++ w /\ Forall (fun c => f c = true) w.
Proof.
  destruct (drop_while_split f (reverse l)) as (w & Hw & Hf). exists (reverse w).
  split; [| by rewrite Forall_reverse]. unfold trim_end_chars. rewrite <- reverse_app, <- Hw.
  by rewrite reverse_involutive.
Qed.

Section directives.
Context {DR : DirectiveRegex}.

(** The text of the directives of a graph's source: UTF-8 of less than four
    gibibytes. The expression does not look at the end of the line. *)
Context (source : bytes).
Context (Hutf8 : utf8 source).
Context (Hlen : (N.of_nat (length source) < 2 ^ 32)%N).
Context (Hcap : forall l, captures (trim_end_chars is_eol l) = captures l).

Lemma as_u32_id n : n <= length source -> as_u32 n = N.of_nat n.
Proof. intros H. unfold as_u32. apply N.mod_small. lia. Qed.

Lemma eol_ascii c : is_eol c = true -> is_ascii c = true.
Proof. unfold is_eol. intros [->%ceq_true | ->%ceq_true]%orb_true_iff; done. Qed.

Lemma line_boundary pre line suf :
  source = pre ++ line ++ suf -> is_line pre line suf -> is_char_boundary source (length pre) = true.
Proof.
  intros Hs ([-> | Hpre] & _); [apply boundary_0 |].
  apply last_Some in Hpre as [l ->]. rewrite length_app. cbn [length].
  apply (boundary_ascii source (length l) newline); [done | | done].
  rewrite Hs, <- app_assoc. cbn. by apply list_lookup_middle.
Qed.

Lemma line_end_boundary pre line suf :
  source = pre ++ line ++ suf -> is_line pre line suf ->
  is_char_boundary source (length pre + length (trim_end_chars is_eol line)) = true.
Proof.
  intros Hs Hl. destruct (trim_end_split is_eol line) as (w & Hw & Hf).
  set (t := trim_end_chars is_eol line) in *. destruct w as [| c w].
  - rewrite app_nil_r in Hw. destruct Hl as (_ & _ & _ & [-> | Hlast]).
    + rewrite app_nil_r in Hs. rewrite <- Hw, <- length_app, <- Hs. apply boundary_len.
    + apply last_Some in Hlast as [l Hl]. exfalso. apply (f_equal length) in Hw. revert Hw.
      unfold t, trim_end_chars. rewrite Hl, reverse_snoc. cbn [drop_while].
      replace (is_eol newline) with true by done.
      destruct (drop_while_split is_eol (reverse l)) as (w & Hw & _).
      apply (f_equal length) in Hw. rewrite length_app, length_reverse in Hw.
      rewrite length_app, length_reverse. cbn [length]. lia.
  - rewrite <- length_app. apply Forall_cons in Hf as [Hc _].
    apply (boundary_ascii source _ c); [done | | by apply eol_ascii].
    rewrite Hs, Hw, <- app_assoc, app_assoc. cbn. by apply list_lookup_middle.
Qed.

Lemma line_text pre line suf :
  source = pre ++ line ++ suf -> is_line pre line suf ->
  str_get source (length pre) (length pre + length (trim_end_chars is_eol line)) =
  Some (trim_end_chars is_eol line).
Proof.
  intros Hs Hl. destruct (trim_end_split is_eol line) as (w & Hw & _).
  unfold str_get, str_slice. rewrite (line_boundary _ _ _ Hs Hl), (line_end_boundary _ _ _ Hs Hl).
  rewrite (proj2 (Nat.leb_le _ _)) by lia. cbn [andb].
  set (t := trim_end_chars is_eol line) in *. rewrite Hs, Hw, drop_app_length.
  replace (length pre + length t - length pre) with (length t) by lia.
  by rewrite <- !app_assoc, take_app_length.
Qed.

Lemma directive_at_unique s e d d' :
  directive_at source s e d -> directive_at source s e d' -> d = d'.
Proof. intros (t & c & Ht & Hc & ->) (t' & c' & Ht' & Hc' & ->). congruence. Qed.

Lemma source_loop_in ls : forall o d,
  d ∈ source_directives_loop o ls <->
  exists i line caps, (i, line) ∈ spans o ls /\ captures line = Some caps /\
    d = directive_from_captures (as_u32 i)
          (as_u32 (i + length (trim_end_chars is_eol line))) caps.
Proof.
  induction ls as [| line ls IH]; intros o d; cbn [source_directives_loop spans].
  { split; [by intros ?%elem_of_nil | by intros (? & ? & ? & ?%elem_of_nil & _)]. }
  destruct (captures line) as [caps |] eqn:Hc.
  - rewrite elem_of_cons, IH. split.
    + intros [-> | (i & l & c & Hin & H)]; [| exists i, l, c; split; [by right | done]].
      exists o, line, caps. split; [left | done].
    + intros (i & l & c & [[= -> ->] | Hin]%elem_of_cons & Hcl & ->); [left; congruence |].
      right. by exists i, l, c.
  - rewrite IH. split; intros (i & l & c & Hin & Hcl & ->); exists i, l, c; split; try done; [by right |].
    apply elem_of_cons in Hin as [[= -> ->] | Hin]; [congruence | done].
Qed.

Lemma source_directives d :
  d ∈ collect_source_directives source <->
  exists s e, line_at_bytes source s e /\ directive_at source (N.of_nat s) (N.of_nat e) d.
Proof.
  unfold collect_source_directives. rewrite source_loop_in.
  assert (forall pre line suf, source = pre ++ line ++ suf ->
    length pre + length (trim_end_chars is_eol line) <= length source) as Hle.
  { intros pre line suf Hs. destruct (trim_end_split is_eol line) as (w & Hw & _).
    apply (f_equal length) in Hw. rewrite length_app in Hw. rewrite Hs, !length_app. lia. }
  split.
  - intros (i & line & caps & (pre & suf & Hs & -> & Hl)%spans_spec & Hc & ->). cbn [Nat.add].
    pose proof (Hle _ _ _ Hs). eexists _, _. split; [by exists pre, line, suf |].
    rewrite !as_u32_id by lia. eexists _, caps. rewrite !Nat2N.id.
    split_and!; [by eapply line_text | by rewrite Hcap | done].
  - intros (s & e & (pre & line & suf & Hs & Hl & -> & ->) & t & caps & Ht & Hc & ->).
    pose proof (Hle _ _ _ Hs). rewrite !Nat2N.id, (line_text _ _ _ Hs Hl) in Ht. injection Ht as <-.
    rewrite Hcap in Hc. exists (length pre), line, caps. rewrite !as_u32_id by lia.
    split_and!; [| done | done]. apply spans_spec. by exists pre, suf.
Qed.

(** ** The directives that are collected *)

Definition of_line (d : Directive) : Prop :=
  exists s e, line_at_bytes source s e /\ directive_at source (N.of_nat s) (N.of_nat e) d.

Definition of_comment (r : DefRecord) (d : Directive) : Prop :=
  kind r = Kinds.KIND_COMMENT /\
  exists s e, position r = Some (s, e) /\ directive_at source s e d.

Lemma directive_key s e d : directive_at source s e d -> comment_start_byte d = s /\ comment_end_byte d = e.
Proof. by intros (t & c & _ & _ & ->). Qed.

(** A key stands for one directive: the text of its range decides the rest. *)
Lemma same_key d d' :
  (of_line d \/ exists r, of_comment r d) -> (of_line d' \/ exists r, of_comment r d') ->
  key d = key d' -> d = d'.
Proof.
  intros Hd Hd' [= Hs He _].
  assert (forall x, (of_line x \/ exists r, of_comment r x) ->
    directive_at source (comment_start_byte x) (comment_end_byte x) x) as Hat.
  { intros x [(s & e & _ & H) | (r & _ & s & e & _ & H)]; by destruct (directive_key _ _ _ H) as [-> ->]. }
  eapply directive_at_unique; [by apply Hat |]. rewrite Hs, He. by apply Hat.
Qed.

(** What the loop over the definitions maintains. *)
Record collected (ds : list DefRecord) (acc : list Directive * gset (N * N * bool)) : Prop := {
  col_from : forall d, d ∈ acc.1 -> of_line d \/ exists r, r ∈ ds /\ of_comment r d;
  col_line : forall d, of_line d -> d ∈ acc.1;
  col_comment : forall r d, r ∈ ds -> of_comment r d -> d ∈ acc.1;
  col_seen : forall k, k ∈ acc.2 <-> exists d, d ∈ acc.1 /\ key d = k
}.

Lemma collect_start :
  let out := collect_source_directives source in collected [] (out, list_to_set (key <$> out)).
Proof.
  intros out. split; cbn [fst snd].
  - intros d Hd. left. by apply source_directives.
  - intros d Hd. by apply source_directives.
  - by intros r d ?%elem_of_nil.
  - intros k. rewrite elem_of_list_to_set, list_elem_of_fmap.
    split; intros (d & H & H'); by exists d.
Qed.

(** A definition without a directive leaves the accumulator. *)
Lemma collected_skip ds r acc :
  collected ds acc -> (forall d, ~ of_comment r d) -> collected (ds ++ [r]) acc.
Proof.
  intros [H1 H2 H3 H4] Hr. split; [| done | | done].
  - intros d [Hd | (r' & Hin & Hd)]%H1; [by left |]. right. exists r'. split; [| done].
    apply elem_of_app. by left.
  - intros r' d [Hin | ->%list_elem_of_singleton]%elem_of_app Hd; [by eapply H3 | by destruct (Hr d)].
Qed.

Lemma of_comment_unique r d d' : of_comment r d -> of_comment r d' -> d = d'.
Proof.
  intros (_ & s & e & Hp & Hd) (_ & s' & e' & Hp' & Hd').
  rewrite Hp in Hp'. injection Hp' as <- <-. by eapply directive_at_unique.
Qed.

Lemma collected_add ds r out seen d :
  collected ds (out, seen) -> of_comment r d ->
  collected (ds ++ [r]) (if decide (key d ∈ seen) then (out, seen)
                         else (out ++ [d], {[key d]} ∪ seen)).
Proof.
  intros [H1 H2 H3 H4] Hr. cbn [fst snd] in *.
  assert (forall x, x ∈ out -> of_line x \/ exists r', r' ∈ ds ++ [r] /\ of_comment r' x) as Hfrom.
  { intros x [Hx | (r' & Hin & Hx)]%H1; [by left |]. right. exists r'.
    split; [apply elem_of_app; by left | done]. }
  destruct (decide (key d ∈ seen)) as [Hseen | Hseen]; split; cbn [fst snd]; try done.
  - intros r' x [Hin | ->%list_elem_of_singleton]%elem_of_app Hx; [by eapply H3 |].
    apply H4 in Hseen as (y & Hy & Hk). replace x with y; [done |].
    rewrite (of_comment_unique _ _ _ Hx Hr). apply same_key; [| by right; exists r | done].
    destruct (H1 y Hy) as [? | (r'' & _ & ?)]; [by left | right; by exists r''].
  - intros x [Hx | ->%list_elem_of_singleton]%elem_of_app; [by apply Hfrom |].
    right. exists r. split; [apply elem_of_app; right; by apply list_elem_of_singleton | done].
  - intros x Hx. apply elem_of_app. left. by apply H2.
  - intros r' x [Hin | ->%list_elem_of_singleton]%elem_of_app Hx; apply elem_of_app.
    + left. by eapply H3.
    + right. apply list_elem_of_singleton. by eapply of_comment_unique.
  - intros k. rewrite elem_of_union, elem_of_singleton, H4. split.
    + intros [-> | (y & Hy & Hk)].
      * exists d. split; [apply elem_of_app; right; by apply list_elem_of_singleton | done].
      * exists y. split; [apply elem_of_app; by left | done].
    + intros (y & [Hy | ->%list_elem_of_singleton]%elem_of_app & <-); [right; by exists y | by left].
Qed.

Lemma collected_step ds r acc :
  collected ds acc -> collected (ds ++ [r]) (collect_comment source acc r).
Proof.
  intros H. unfold collect_comment. destruct acc as [out seen].
  destruct (beq (kind r) Kinds.KIND_COMMENT) eqn:Hk; cbn [negb].
  2: { apply collected_skip; [done |]. intros d [Hc _]. apply beq_false in Hk. congruence. }
  apply beq_true in Hk. destruct (position r) as [[s e] |] eqn:Hp.
  2: { apply collected_skip; [done |]. intros d (_ & s & e & Hp' & _). congruence. }
  destruct (str_get _ _ _) as [text |] eqn:Ht.
  2: { apply collected_skip; [done |]. intros d (_ & s' & e' & Hp' & t & c & Ht' & _). congruence. }
  destruct (captures text) as [caps |] eqn:Hc.
  2: { apply collected_skip; [done |]. intros d (_ & s' & e' & Hp' & t & c & Ht' & Hc' & _). congruence. }
  apply collected_add; [done |]. split; [done |]. exists s, e. split; [done |]. by exists text, caps.
Qed.

Lemma collected_all ds2 : forall ds1 acc,
  collected ds1 acc -> collected (ds1 ++ ds2) (foldl (collect_comment source) acc ds2).
Proof.
  induction ds2 as [| r ds2 IH]; intros ds1 acc H; [by rewrite app_nil_r |].
  cbn [foldl]. rewrite cons_middle, app_assoc. apply IH. by apply collected_step.
Qed.

Lemma collect_directives_iff g d : d ∈ collect_directives g source <-> directive_of g source d.
Proof.
  pose proof (collected_all (defs g) [] _ collect_start) as [H1 H2 H3 _].
  unfold collect_directives, directive_of. split.
  - intros [Hd | (r & Hin & Hk & s & e & Hp & Hd)]%H1; [by left | right]. by exists r, s, e.
  - intros [Hd | (r & s & e & Hin & Hk & Hp & Hd)]; [by apply H2 |].
    eapply H3; [done |]. split; [done |]. by exists s, e.
Qed.

(** ** What is kept *)

Lemma filter_app_iff g v vs :
  v ∈ apply g source vs <->
  v ∈ vs /\ forall d, d ∈ collect_directives g source -> ~ silences g source d v.
Proof.
  unfold apply. destruct (collect_directives g source) as [| d0 ds] eqn:Hds.
  { split; [| by intros [? _]]. intros Hv. split; [done |]. by intros d ?%elem_of_nil. }
  set (all := d0 :: ds).
  rewrite !list_elem_of_In, filter_In, andb_true_iff, !negb_true_iff, !existsb_false.
  rewrite !Forall_forall. apply and_iff_compat_l. unfold silences. split.
  - intros [Hf Hl] d Hd [Hm [Hs | Ht]].
    + rewrite (Hf d) in Hm; [done |]. by apply list_elem_of_In, filter_In; split; [apply list_elem_of_In |].
    + destruct (file_scope d) eqn:Hs.
      { rewrite (Hf d) in Hm; [done |]. by apply list_elem_of_In, filter_In; split; [apply list_elem_of_In |]. }
      specialize (Hl (d, target_lines_for g source d)). cbn [fst snd] in Hl.
      rewrite Hm, Ht in Hl. apply diff_true_false, Hl. apply list_elem_of_fmap. exists d.
      split; [done |]. apply list_elem_of_In, filter_In. by rewrite Hs; split; [apply list_elem_of_In |].
  - intros H. split.
    + intros d (Hd & Hs)%list_elem_of_In%filter_In. apply not_true_is_false. intros Hm.
      apply (H d); [by apply list_elem_of_In |]. auto.
    + intros dt (d & -> & (Hd & Hs)%list_elem_of_In%filter_In)%list_elem_of_fmap. cbn [fst snd].
      apply not_true_is_false. intros [Hm Ht]%andb_true_iff.
      apply (H d); [by apply list_elem_of_In |]. auto.
Qed.

(** C34: suppression is exact: a violation is kept, in its place, exactly when no
    directive of a line of the text or of a comment of the graph silences it;
    the directives that the collection drops as already seen change nothing. *)
Theorem suppression_exact (g : CodeGraph.t) (vs : list Violation) :
  apply g source vs `sublist_of` vs /\
  forall v, v ∈ apply g source vs <->
    v ∈ vs /\ forall d, directive_of g source d -> ~ silences g source d v.
Proof.
  split.
  - unfold apply. destruct (collect_directives g source); [done |]. apply sublist_filter_bool.
  - intros v. rewrite filter_app_iff. apply and_iff_compat_l.
    split; intros H d Hd; by apply H, collect_directives_iff.
Qed.

End directives.

(** ** The definition that follows a directive *)

Definition follows (after_byte : N) (d : DefRecord) (s : N) : Prop :=
  kind d <> Kinds.KIND_COMMENT /\ (exists e, position d = Some (s, e)) /\ (after_byte <= s)%N.

(** The first of the least starts seen so far. *)
Definition best_of (after_byte : N) (ds : list DefRecord) (best : option DefRecord) : Prop :=
  match best with
  | None => forall d s, d ∈ ds -> ~ follows after_byte d s
  | Some b => exists s pre suf, ds = pre ++ b :: suf /\ follows after_byte b s /\
      (forall d s', d ∈ pre -> follows after_byte d s' -> (s < s')%N) /\
      (forall d s', d ∈ suf -> follows after_byte d s' -> (s <= s')%N)
  end.

Lemma best_of_skip after ds best r :
  best_of after ds best -> (forall s, ~ follows after r s) -> best_of after (ds ++ [r]) best.
Proof.
  intros H Hr. destruct best as [b |]; cbn [best_of] in *.
  - destruct H as (s & pre & suf & -> & Hb & Hpre & Hsuf). exists s, pre, (suf ++ [r]).
    rewrite <- app_assoc. split_and!; [done | done | done |].
    intros d s' [Hin | ->%list_elem_of_singleton]%elem_of_app Hd; [by eapply Hsuf | by destruct (Hr s')].
  - intros d s [Hin | ->%list_elem_of_singleton]%elem_of_app; [by apply H | apply Hr].
Qed.

Lemma follows_start after d s s' : follows after d s -> follows after d s' -> s = s'.
Proof. intros (_ & [e He] & _) (_ & [e' He'] & _). congruence. Qed.

Lemma best_of_step after ds best r :
  best_of after ds best -> best_of after (ds ++ [r]) (next_def_step after best r).
Proof.
  intros H. unfold next_def_step.
  destruct (beq (kind r) Kinds.KIND_COMMENT) eqn:Hk; [apply beq_true in Hk | apply beq_false in Hk].
  { apply best_of_skip; [done |]. by intros s [? _]. }
  destruct (position r) as [[s e] |] eqn:Hp.
  2: { apply best_of_skip; [done |]. intros s (_ & [e He] & _). congruence. }
  destruct (s <? after)%N eqn:Hlt; bool_inv.
  { apply best_of_skip; [done |]. intros s' (_ & [e' He] & Hle).
    rewrite Hp in He. injection He as <- _. lia. }
  assert (follows after r s) as Hr by (split_and!; [done | by exists e | done]).
  destruct best as [b |]; cbn [best_of] in H.
  - destruct H as (sb & pre & suf & -> & Hb & Hpre & Hsuf). pose proof Hb as (_ & [eb Heb] & _).
    rewrite Heb. cbn [fst]. destruct (s <? sb)%N eqn:Hs; bool_inv; cbn [best_of].
    + exists s, (pre ++ b :: suf), []. split_and!; [done | done | | by intros d s' ?%elem_of_nil].
      intros d s' [Hin | [-> | Hin]%elem_of_cons]%elem_of_app Hd.
      * specialize (Hpre _ _ Hin Hd). lia.
      * by rewrite (follows_start _ _ _ _ Hd Hb).
      * specialize (Hsuf _ _ Hin Hd). lia.
    + exists sb, pre, (suf ++ [r]). rewrite <- app_assoc. split_and!; [done | done | done |].
      intros d s' [Hin | ->%list_elem_of_singleton]%elem_of_app Hd; [by eapply Hsuf |].
      by rewrite (follows_start _ _ _ _ Hd Hr).
  - cbn [best_of]. exists s, ds, []. split_and!; [done | done | | by intros d s' ?%elem_of_nil].
    intros d s' Hin Hd. by destruct (H d s' Hin).
Qed.

Lemma best_of_all after ds2 : forall ds1 best,
  best_of after ds1 best -> best_of after (ds1 ++ ds2) (foldl (next_def_step after) best ds2).
Proof.
  induction ds2 as [| r ds2 IH]; intros ds1 best H; [by rewrite app_nil_r |].
  cbn [foldl]. rewrite cons_middle, app_assoc. apply IH. by apply best_of_step.
Qed.

(** The definition a directive applies to is the first, in the order of the
    graph, of those that are not comments and start nearest at or after its end;
    there is none exactly when no such definition exists. *)
Theorem next_def_nearest (g : CodeGraph.t) (after_byte : N) :
  best_of after_byte (defs g) (next_def_after g after_byte).
Proof. unfold next_def_after. apply (best_of_all _ _ []). cbn. by intros d s ?%elem_of_nil. Qed.

(** ** A concrete expression *)

Definition ignore_file : bytes := bs "// code-moniker: ignore-file".
Definition ignore : bytes := bs "// code-moniker: ignore".

#[global] Instance start_of_line_regex : DirectiveRegex := {|
  captures l :=
    if starts_with ignore_file l then Some (true, None)
    else if starts_with ignore l then Some (false, None) else None
|}.

Lemma starts_with_trim p l :
  forallb (fun c => negb (is_eol c)) p = true ->
  starts_with p (trim_end_chars is_eol l) = starts_with p l.
Proof.
  intros Hp. destruct (trim_end_split is_eol l) as (w & Hw & Hf). rewrite Hw at 2.
  set (t := trim_end_chars is_eol l) in *. clearbody t. clear Hw.
  apply eq_true_iff_eq. rewrite !starts_with_spec. split; intros [r Hr]; [rewrite Hr |].
  - exists (r ++ w). by rewrite app_assoc.
  - apply app_eq_inv in Hr as [(k & -> & ->) | (k & -> & ->)]; [by exists k |].
    exists []. destruct k as [| c k]; [by rewrite !app_nil_r |]. exfalso.
    apply Forall_app in Hf as [Hf _]. apply Forall_cons in Hf as [Hc _].
    rewrite forallb_app in Hp. cbn [forallb] in Hp. bool_inv. congruence.
Qed.

Lemma start_of_line_trim l : captures (trim_end_chars is_eol l) = captures l.
Proof. cbn [captures start_of_line_regex]. by rewrite !starts_with_trim. Qed.

Definition ex_source : bytes := ignore ++ [newline] ++ bs "class a {}" ++ [newline].
Definition ex_graph : CodeGraph.t :=
  CodeGraph.new (Moniker.mk (Moniker.enc_parts (bs "app") [])) Kinds.KIND_MODULE.
Definition ex_violation : Violation :=
  mk_violation (bs "ts.class.name") Error (bs "app") None (bs "class") (1, 2)%N [] None.

Lemma suppression_exact_witness :
  utf8 ex_source /\ (N.of_nat (length ex_source) < 2 ^ 32)%N /\
  (ex_violation ∈ apply ex_graph ex_source [ex_violation] <->
   ex_violation ∈ [ex_violation] /\
   forall d, directive_of ex_graph ex_source d -> ~ silences ex_graph ex_source d ex_violation).
Proof.
  assert (utf8 ex_source) as Hu by (by vm_compute).
  assert (N.of_nat (length ex_source) < 2 ^ 32)%N as Hl by (by vm_compute).
  split_and!; [exact Hu | exact Hl |].
  apply (suppression_exact ex_source Hu Hl start_of_line_trim ex_graph [ex_violation]).
Defined.

Example silenced : apply ex_graph ex_source [ex_violation] = [].
Proof. vm_compute. reflexivity. Qed.

End SuppressFacts.
