(* ===== verification/EvalCore.v ===== *)
(** The context of the rule evaluator (src/crates/check/src/check/eval/mod.rs):
    outcomes, the indexes built from a graph before its rules are evaluated,
    the state its evaluation keeps, and the helpers on definitions, monikers and
    messages. *)

From stdpp Require Import sorting.
From S2P Require Import Prelude.
From S2P Require Import RustStr.
From S2P Require Import Shape.
From S2P Require Import Moniker.
From S2P Require Import Uri.
From S2P Require Import CodeGraph.
From S2P Require Import Path.
From S2P Require Import DslAst.
From S2P Require Import Suppress.
From S2P Require Import Syntax.

Module EvalCore.
Import CodeGraph Lines.

(** ** Outcomes *)

Record Failure : Set := mk_failure {
  atom_raw : bytes;
  lhs_label : bytes;
  actual : bytes;
  expected : bytes;
  failure_def_idx : option nat;
  failure_position : option Position;
  details : option bytes
}.

Inductive NodeOutcome : Set :=
| Pass
| Fail_ (f : Failure)
| NotApplicable.

Inductive AtomOutcome : Set :=
| APass
| AFail (actual expected : bytes) (position : option Position)
| ANotApplicable.

(** [matches!(outcome, NodeOutcome::Pass)] *)
Definition is_pass (o : NodeOutcome) : bool := match o with Pass => true | _ => false end.

Inductive AstScopeError : Set :=
| DocumentUnavailable
| ParseErrors
| InjectionsUnsupported
| MissingSymbolRange
| NoExactScopeNode
| TraversalLimitExceeded.

(** [Display for AstScopeError] (eval/local.rs) *)
Definition ast_scope_error_display (e : AstScopeError) : bytes :=
  match e with
  | DocumentUnavailable => bs "AST document is unavailable"
  | ParseErrors => bs "AST contains parse errors"
  | InjectionsUnsupported => bs "AST injections are not supported"
  | MissingSymbolRange => bs "symbol has no source range for AST scope"
  | NoExactScopeNode => bs "symbol range does not identify an exact AST node"
  | TraversalLimitExceeded => bs "AST scope exceeds the traversal limit"
  end.

(** [trait RequirementResolver] *)
Record RequirementResolver : Type := mk_resolver {
  exists_ : bytes -> DefRecord -> bytes -> bool;
  descendant_defs : DefRecord -> Domain.t -> list DefRecord
}.

(** ** Indexes over the graph *)

(** [map.entry(k).or_default().push(v)] *)
Definition push_at `{Countable K} {A} (k : K) (v : A) (m : gmap K (list A)) : gmap K (list A) :=
  <[k := default [] (m !! k) ++ [v]]> m.

(** [map.get(&k).into_iter().flatten()] *)
Definition get_all `{Countable K} {A} (k : K) (m : gmap K (list A)) : list A :=
  default [] (m !! k).

(** [.enumerate()] *)
Definition enumerate {A} (l : list A) : list (nat * A) := imap pair l.

Definition children_by_parent_of (g : CodeGraph.t) : gmap nat (list nat) :=
  foldl (fun m e => match parent e.2 with Some p => push_at p e.1 m | None => m end)
    ∅ (enumerate (defs g)).

Definition out_refs_by_source_of (g : CodeGraph.t) : gmap nat (list nat) :=
  foldl (fun m e => push_at (source e.2) e.1 m) ∅ (enumerate (refs g)).

Definition in_refs_by_target_of (g : CodeGraph.t) : gmap bytes (list nat) :=
  foldl (fun m e => push_at (Moniker.encoded (target e.2)) e.1 m) ∅ (enumerate (refs g)).

(** [*m.entry((p, kind)).or_insert(0) += 1] *)
Definition parent_count_step (m : gmap (nat * bytes) N) (d : DefRecord) : gmap (nat * bytes) N :=
  match parent d with
  | Some p => <[(p, kind d) := u32_add (default 0%N (m !! (p, kind d))) 1]> m
  | None => m
  end.

Definition parent_counts_by_kind (g : CodeGraph.t) : gmap (nat * bytes) N :=
  foldl parent_count_step ∅ (defs g).

Definition comment_end_bytes (g : CodeGraph.t) : list N :=
  merge_sort N.le
    (omap (fun d => snd <$> position d)
       (List.filter (fun d => beq (kind d) Kinds.KIND_COMMENT) (defs g))).

(** The body of the loop of [doc_anchors_by_def]. *)
Definition doc_anchor_step (m : gmap nat N) (r : RefRecord) : gmap nat N :=
  if negb (beq (ref_kind r) Kinds.REF_ANNOTATES) then m
  else
    match ref_position r with
    | None => m
    | Some (start, _) =>
        match m !! source r with
        | Some cur => if (start <? cur)%N then <[source r := start]> m else m
        | None => <[source r := start]> m
        end
    end.

Definition doc_anchors_by_def (g : CodeGraph.t) : gmap nat N :=
  foldl doc_anchor_step ∅ (refs g).

(** ** The context and the state *)

Section core.
Context {TS : TreeSitter}.

(** [DomainItem] (eval/local.rs) *)
Inductive DomainItem : Type :=
| IAst (node : TsNode)
| IDef (idx : option nat) (def : DefRecord)
| IRef (record : RefRecord)
| ISegment (kind name : bytes).

(** The fields of [EvalCtx] that evaluation reads. *)
Record EvalCtx : Type := mk_ctx {
  graph : CodeGraph.t;
  requirements : option RequirementResolver;
  source_text : bytes;
  lang : Lang.t;
  ast_document : option Syntax.ParsedDocument;
  uri_cfg : Uri.UriConfig;
  parent_counts : gmap (nat * bytes) N;
  children_by_parent : gmap nat (list nat);
  out_refs_by_source : gmap nat (list nat);
  in_refs_by_target : gmap bytes (list nat);
  comment_ends : list N;
  doc_anchors : gmap nat N
}.

(** Its cells: the first error met in the [ast] domain, the two caches, and the
    number of nodes the first one retains. *)
Record EvalState : Type := mk_state {
  ast_scope_error : option AstScopeError;
  ast_items_by_def : gmap nat (AstScopeError + list DomainItem);
  ast_cached_nodes : nat;
  def_index : option (gmap bytes nat)
}.

Definition initial_state : EvalState := mk_state None ∅ 0 None.

Abbreviation M := (ST EvalState Empty_set).

Definition set_ast_scope_error (e : option AstScopeError) (s : EvalState) : EvalState :=
  mk_state e (ast_items_by_def s) (ast_cached_nodes s) (def_index s).

Definition set_def_index (i : gmap bytes nat) (s : EvalState) : EvalState :=
  mk_state (ast_scope_error s) (ast_items_by_def s) (ast_cached_nodes s) (Some i).

Definition set_ast_items (i : gmap nat (AstScopeError + list DomainItem)) (retained : nat)
    (s : EvalState) : EvalState :=
  mk_state (ast_scope_error s) i retained (def_index s).

Definition record_ast_scope_error (error : AstScopeError) : M () :=
  modify (fun s =>
    match ast_scope_error s with None => set_ast_scope_error (Some error) s | Some _ => s end).

(** [collect()] into a map: a later definition of a moniker replaces an earlier one. *)
Definition last_index_map (g : CodeGraph.t) : gmap bytes nat :=
  foldl (fun m e => <[Moniker.encoded (moniker e.2) := e.1]> m) ∅ (enumerate (defs g)).

(** [self.def_index.get_or_init(..).get(..)] *)
Definition local_def_index (m : Moniker.t) (ctx : EvalCtx) : M (option nat) :=
  s ← get;
  match def_index s with
  | Some i => mret (i !! Moniker.encoded m)
  | None =>
      let i := last_index_map (graph ctx) in
      _ ← modify (set_def_index i);
      mret (i !! Moniker.encoded m)
  end.

End core.

(** ** Definitions and monikers *)

(** [std::str::from_utf8(b).ok()] *)
Definition utf8 (b : bytes) : option bytes := if from_utf8 b then Some b else None.

(** [m.as_view().segments()] *)
Definition segments_of {E} (m : Moniker.t) : res E (list Moniker.Segment) :=
  v ← Moniker.as_view m; Moniker.view_segments v.

Definition name_of {E} (m : Moniker.t) : res E (option bytes) :=
  segs ← segments_of m;
  mret (l ← last segs; utf8 (Moniker.bare_callable_name l.2)).

Definition def_name {E} (d : DefRecord) : res E (option bytes) :=
  segs ← segments_of (moniker d);
  mret (l ← last segs; utf8 (Moniker.bare_callable_name l.2)).

Definition last_segment_kind {E} (m : Moniker.t) : res E (option bytes) :=
  segs ← segments_of m; mret (l ← last segs; utf8 l.1).

Definition shape_of_last_segment {E} (m : Moniker.t) : res E (option Shape.t) :=
  segs ← segments_of m; mret (l ← last segs; Shape.shape_of l.1).

Definition shape_name_of_last_segment {E} (m : Moniker.t) : res E bytes :=
  s ← shape_of_last_segment m; mret (default [] (Shape.as_str <$> s)).

Definition first_segment_name {E} (m : Moniker.t) (kind : bytes) : res E bytes :=
  segs ← segments_of m;
  mret match List.find (fun seg => beq seg.1 kind) segs with
       | Some seg => default [] (utf8 seg.2)
       | None => []
       end.

Definition non_empty (value : bytes) : option bytes :=
  match value with [] => None | _ => Some value end.

Definition lines_of (d : DefRecord) (source : bytes) : N * N :=
  match position d with Some (s, e) => line_range source s e | None => (0, 0)%N end.

Definition def_has_shape (d : DefRecord) (shape : bytes) : bool :=
  match def_shape d with Some actual => beq (Shape.as_str actual) shape | None => false end.

Definition is_call_ref_kind (kind : bytes) : bool :=
  beq kind Kinds.REF_CALLS || beq kind Kinds.REF_METHOD_CALL.

Definition resolve_local_def (g : CodeGraph.t) (m : Moniker.t) : option DefRecord :=
  List.find (fun d => bool_decide (moniker d = m)) (defs g).

Definition rule_id (l : Lang.t) (kind rule : bytes) : bytes :=
  Lang.config_section l ++ bs "." ++ kind ++ bs "." ++ rule.

(** ** Text *)

Definition is_ascii_uppercase (c : ascii) : bool := in_range 65 90 c.
Definition to_ascii_lowercase (c : ascii) : ascii :=
  if is_ascii_uppercase c then ascii_of_N (N_of_ascii c + 32) else c.

(** An upper-case letter is one byte, and the other characters are copied: the
    loop over the characters is one over the bytes. *)
Fixpoint snake_loop (first : bool) (name : bytes) : bytes :=
  match name with
  | [] => []
  | ch :: rest =>
      (if is_ascii_uppercase ch
       then (if first then [] else bs "_") ++ [to_ascii_lowercase ch]
       else [ch]) ++ snake_loop false rest
  end.

Definition to_snake_case (name : bytes) : bytes := snake_loop true name.

Definition placeholder (k : bytes) : bytes := bs "{" ++ k ++ bs "}".

Definition render_template (tpl : bytes) (vars : list (bytes * bytes)) : bytes :=
  foldl (fun out kv =>
    if RustStr.contains (placeholder kv.1) out then replace (placeholder kv.1) kv.2 out else out)
    tpl vars.

Definition render_requirement_pattern {E} (pattern : bytes) (d : DefRecord) :
    res E (option bytes) :=
  n ← def_name d;
  mret (option_map (fun name => replace (bs "{name.snake}") (to_snake_case name)
                                  (replace (bs "{name}") name pattern)) n).

(** ** Doc comments *)

Definition comment_attaches_to (source : bytes) (comment_end header_start : N) : bool :=
  if (header_start <? comment_end)%N then false
  else
    let last_comment_byte := (comment_end - 1)%N in
    let cl := (line_range source last_comment_byte (u32_add last_comment_byte 1)).1 in
    let hl := (line_range source header_start (u32_add header_start 1)).1 in
    (hl =? cl)%N || (hl =? u32_add cl 1)%N.

End EvalCore.
