(* ===== verification/EvalValue.v ===== *)
(** Values of the evaluator and the operators that compare them
    (src/crates/check/src/check/eval/value.rs).

    The trivalent walk over a rule's tree that every scope shares
    (src/crates/check/src/check/eval/mod.rs), and the labels of its failures. *)

From S2P Require Import Prelude.
From S2P Require Import RustStr.
From S2P Require Import Moniker.
From S2P Require Import Path.
From S2P Require Import DslAst.
From S2P Require Import EvalCore.

Module Value.

Inductive t : Set :=
| Str (s : bytes)
| Number (n : f64)
| Moniker (m : Moniker.t).

End Value.

(** [to_bits] is injective on the values of [f64], so a number is its own key. *)
Module ValueKey.

Inductive t : Set :=
| Str (s : bytes)
| Number (bits : f64)
| Moniker (m : Moniker.t).

Definition from_value (v : Value.t) : t :=
  match v with
  | Value.Str s => Str s
  | Value.Number n => Number n
  | Value.Moniker m => Moniker m
  end.

Definition into_value (k : t) : Value.t :=
  match k with
  | Str s => Value.Str s
  | Number bits => Value.Number bits
  | Moniker m => Value.Moniker m
  end.

#[global] Instance t_eq_dec : EqDecision t.
Proof. solve_decision. Defined.

Definition code (k : t) : bytes + (f64 + Moniker.t) :=
  match k with Str s => inl s | Number n => inr (inl n) | Moniker m => inr (inr m) end.
Definition decode (c : bytes + (f64 + Moniker.t)) : t :=
  match c with inl s => Str s | inr (inl n) => Number n | inr (inr m) => Moniker m end.

#[global] Program Instance t_countable : Countable t := inj_countable' code decode _.
Next Obligation. by intros []. Qed.

End ValueKey.

Module EvalValue.
Import EvalCore Ast.

Definition render_number (n : f64) : bytes :=
  if F64.is_integral n then F64.show 0 n
  else trim_end_chars (fun c => ceq c "."%char)
         (trim_end_chars (fun c => ceq c "0"%char) (F64.show 3 n)).

Definition moniker_label (m : Moniker.t) : bytes :=
  show_nat (length (Moniker.encoded m)) ++ bs "b moniker".

Definition render_value (v : Value.t) : bytes :=
  match v with
  | Value.Str s => s
  | Value.Number n => render_number n
  | Value.Moniker m => moniker_label m
  end.

Definition binding_label (b : Binding) : bytes :=
  match b with Self_ => bs "self" | Each => bs "each" end.

Fixpoint domain_label (d : Domain.t) : bytes :=
  match d with
  | Domain.Ast => bs "ast"
  | Domain.Children kind => kind
  | Domain.ChildrenByShape shape => bs "shape:" ++ shape
  | Domain.Descendants inner => bs "descendants(" ++ domain_label inner ++ bs ")"
  | Domain.Pairs inner => bs "pairs(" ++ domain_label inner ++ bs ")"
  | Domain.Segments => bs "segment"
  | Domain.OutRefs => bs "out_refs"
  | Domain.InRefs => bs "in_refs"
  | Domain.SourceOutRefs => bs "source.out_refs"
  | Domain.SourceInRefs => bs "source.in_refs"
  | Domain.TargetOutRefs => bs "target.out_refs"
  | Domain.TargetInRefs => bs "target.in_refs"
  | Domain.SourceAncestorOutRefs => bs "source.ancestors.out_refs"
  | Domain.SourceAncestorInRefs => bs "source.ancestors.in_refs"
  end.

Definition side_label (s : PairSide) : bytes := match s with A => bs "a" | B => bs "b" end.

Definition pair_projection_label (p : PairProjection) : bytes :=
  side_label (pp_side p) ++ bs "." ++ Lhs.as_str (pp_lhs p).

Fixpoint collection_label (c : CollectionExpr) : bytes :=
  match c with
  | CProjection p =>
      (if cp_current p then bs "current." else []) ++ domain_label (cp_domain p) ++
      match cp_path p with [] => [] | path => bs "." ++ join (bs ".") path end
  | CPairProjection p =>
      side_label (pcp_side p) ++ bs "." ++ domain_label (pcp_domain p) ++
      match pcp_path p with [] => [] | path => bs "." ++ join (bs ".") path end
  | Unique inner => bs "unique(" ++ collection_label inner ++ bs ")"
  | Binary op l r =>
      collection_label l ++ bs " " ++
      match op with
      | Intersect => bs "intersect"
      | Union => bs "union"
      | Difference => bs "diff"
      end ++ bs " " ++ collection_label r
  end.

Section value.
Context {RE : RegexEngine}.

Definition number_expr_label (e : NumberExpr) : bytes :=
  match e with
  | NLiteral _ => bs "number"
  | NProjection lhs => Lhs.as_str lhs
  | Count _ _ => bs "count"
  | Aggregate kind _ _ _ => aggregate_as_str kind
  | Metric kind _ => metric_as_str kind
  | Entropy _ => bs "entropy"
  | Size _ => bs "size"
  end.

Fixpoint render_number_expr (e : NumberExpr) : bytes :=
  match e with
  | NLiteral n => render_number n
  | NProjection lhs => Lhs.as_str lhs
  | Count domain _ =>
      bs "count(" ++ domain_label domain ++ bs ")"
  | Aggregate kind domain _ _ =>
      aggregate_as_str kind ++ bs "(" ++ domain_label domain ++ bs ")"
  | Metric kind binding => metric_as_str kind ++ bs "(" ++ binding_label binding ++ bs ")"
  | Entropy collection => bs "entropy(" ++ domain_value_label collection ++ bs ")"
  | Size collection => bs "size(" ++ collection_label collection ++ bs ")"
  end
with domain_value_label (v : DomainValueExpr) : bytes :=
  match v with
  | mk_domain_value domain expr _ =>
      match expr with
      | Item => domain_label domain
      | VProjection lhs => domain_label domain ++ bs ", " ++ Lhs.as_str lhs
      | VNumber e => domain_label domain ++ bs ", " ++ render_number_expr e
      end
  end.

Definition render_rhs (r : Rhs) : bytes :=
  match r with
  | Str s => s
  | RNumber expr => render_number_expr expr
  | RegexStr s => s
  | RMoniker m => moniker_label m
  | RPathPattern p => bs "path `" ++ Path.raw p ++ bs "`"
  | RProjection l => Lhs.as_str l
  | CurrentProjection l => bs "current." ++ Lhs.as_str l
  | RPairProjection p => pair_projection_label p
  | RCollection c => collection_label c
  end.

Definition apply_op_str_values (lhs : bytes) (op : Op.t) (rhs : bytes)
    (render_actual : bytes -> bytes) : AtomOutcome :=
  let outcome ok := if ok : bool then APass else AFail (render_actual lhs) rhs None in
  match op with
  | Op.Eq => outcome (beq lhs rhs)
  | Op.Ne => outcome (negb (beq lhs rhs))
  | _ => ANotApplicable
  end.

Definition apply_op_str (value : bytes) (atom : Atom) (render_actual : bytes -> bytes) :
    AtomOutcome :=
  let '(mk_atom _ op rhs _ regex) := atom in
  let outcome ok := if ok : bool then APass else AFail (render_actual value) (render_rhs rhs) None in
  match op, rhs with
  | Op.RegexMatch, RegexStr _ =>
      outcome match regex with Some re => is_match re value | None => false end
  | Op.RegexNoMatch, RegexStr _ =>
      outcome match regex with Some re => negb (is_match re value) | None => false end
  | Op.Eq, Str expected => outcome (beq value expected)
  | Op.Ne, Str expected => outcome (negb (beq value expected))
  | _, _ => ANotApplicable
  end.

(** The shared end of [apply_op] and [apply_op_values]. *)
Definition op_outcome {E} (lhs rhs : bytes) (ok : option (res E bool)) : res E AtomOutcome :=
  match ok with
  | Some ok => ok ← ok; mret (if ok : bool then APass else AFail lhs rhs None)
  | None => mret ANotApplicable
  end.

Definition apply_op_values {E} (lhs : Value.t) (op : Op.t) (rhs : Value.t) :
    res E AtomOutcome :=
  match lhs, rhs with
  | Value.Str lhs, Value.Str rhs => mret (apply_op_str_values lhs op rhs (fun s => s))
  | _, _ =>
      op_outcome (render_value lhs) (render_value rhs)
        match lhs, op, rhs with
        | Value.Number a, Op.Eq, Value.Number b => Some (Ok (F64.eqb a b))
        | Value.Number a, Op.Ne, Value.Number b => Some (Ok (negb (F64.eqb a b)))
        | Value.Number a, Op.Lt, Value.Number b => Some (Ok (F64.ltb a b))
        | Value.Number a, Op.Le, Value.Number b => Some (Ok (F64.leb a b))
        | Value.Number a, Op.Gt, Value.Number b => Some (Ok (F64.ltb b a))
        | Value.Number a, Op.Ge, Value.Number b => Some (Ok (F64.leb b a))
        | Value.Moniker a, Op.Eq, Value.Moniker b => Some (Ok (bool_decide (a = b)))
        | Value.Moniker a, Op.Ne, Value.Moniker b => Some (Ok (negb (bool_decide (a = b))))
        | Value.Moniker a, Op.AncestorOf, Value.Moniker b => Some (Moniker.is_ancestor_of a b)
        | Value.Moniker a, Op.DescendantOf, Value.Moniker b => Some (Moniker.is_ancestor_of b a)
        | Value.Moniker a, Op.BindMatch, Value.Moniker b => Some (Moniker.bind_match a b)
        | _, _, _ => None
        end
  end.

Definition apply_op {E} (value : Value.t) (atom : Atom) : res E AtomOutcome :=
  let '(mk_atom _ op rhs _ _) := atom in
  match value with
  | Value.Str value => mret (apply_op_str value atom (fun s => s))
  | _ =>
      op_outcome (render_value value) (render_rhs rhs)
        match value, op, rhs with
        | Value.Moniker m, Op.Eq, RMoniker t => Some (Ok (bool_decide (m = t)))
        | Value.Moniker m, Op.Ne, RMoniker t => Some (Ok (negb (bool_decide (m = t))))
        | Value.Moniker m, Op.AncestorOf, RMoniker t => Some (Moniker.is_ancestor_of m t)
        | Value.Moniker m, Op.DescendantOf, RMoniker t => Some (Moniker.is_ancestor_of t m)
        | Value.Moniker m, Op.BindMatch, RMoniker t => Some (Moniker.bind_match m t)
        | Value.Moniker m, Op.PathMatch, RPathPattern p => Some (Path.matches p m)
        | _, _, _ => None
        end
  end.

End value.

(** ** Counting *)

(** [*counts.entry(key).or_insert(0) += 1] *)
Definition bump (m : gmap ValueKey.t nat) (k : ValueKey.t) : gmap ValueKey.t nat :=
  <[k := S (default 0 (m !! k))]> m.

Definition value_counts (values : list Value.t) : gmap ValueKey.t nat :=
  foldl bump ∅ (ValueKey.from_value <$> values).

(** The [for value in values] loop of [mode_value], on [counts] and [order]. *)
Definition mode_step (acc : gmap ValueKey.t nat * list ValueKey.t) (value : Value.t) :
    gmap ValueKey.t nat * list ValueKey.t :=
  let '(counts, order) := acc in
  let key := ValueKey.from_value value in
  let order := match counts !! key with None => order ++ [key] | Some _ => order end in
  (bump counts key, order).

(** The [for key in order] loop. *)
Definition best_step (counts : gmap ValueKey.t nat) (best : option (ValueKey.t * nat))
    (key : ValueKey.t) : option (ValueKey.t * nat) :=
  let count := default 0 (counts !! key) in
  match best with
  | None => Some (key, count)
  | Some (_, best_count) => if best_count <? count then Some (key, count) else best
  end.

Definition mode_value (values : list Value.t) : option Value.t :=
  let '(counts, order) := foldl mode_step (∅, []) values in
  let best := foldl (best_step counts) None order in
  (fun e => ValueKey.into_value e.1) <$> best.

End EvalValue.

Module EvalWalk.
Import EvalCore EvalValue Ast.

Definition domain_debug_label (d : Domain.t) : bytes :=
  match d with
  | Domain.Ast => bs "ast"
  | Domain.Children _ => bs "children"
  | Domain.ChildrenByShape _ => bs "shape"
  | Domain.Descendants _ => bs "descendants"
  | Domain.Pairs _ => bs "pairs"
  | Domain.Segments => bs "segment"
  | Domain.OutRefs => bs "out_refs"
  | Domain.InRefs => bs "in_refs"
  | Domain.SourceOutRefs => bs "source.out_refs"
  | Domain.SourceInRefs => bs "source.in_refs"
  | Domain.TargetOutRefs => bs "target.out_refs"
  | Domain.TargetInRefs => bs "target.in_refs"
  | Domain.SourceAncestorOutRefs => bs "source.ancestors.out_refs"
  | Domain.SourceAncestorInRefs => bs "source.ancestors.in_refs"
  end.

Definition quant_label (k : QuantKind.t) : bytes :=
  match k with
  | QuantKind.Any => bs "any"
  | QuantKind.All => bs "all"
  | QuantKind.None => bs "none"
  end.

Section walk.
Context {RE : RegexEngine}.

Fixpoint describe_node (node : Node) : bytes :=
  match node with
  | NAtom (mk_atom _ _ _ raw _) => raw
  | And nodes => join (bs " AND ") (map describe_node nodes)
  | Or nodes => join (bs " OR ") (map describe_node nodes)
  | Not inner => bs "NOT (" ++ describe_node inner ++ bs ")"
  | Implies premise consequent =>
      describe_node premise ++ bs " => " ++ describe_node consequent
  | Require_ pattern => bs "require(" ++ [dquote] ++ pattern ++ [dquote] ++ bs ")"
  | NVerticalLayout layout => layout_raw layout
  | Quantifier kind domain _ =>
      quant_label kind ++ bs "(" ++ domain_debug_label domain ++ bs ")"
  end.

Definition describe_lhs (lhs : LhsExpr) : bytes :=
  match lhs with
  | Attr a => Lhs.as_str a
  | Number n => number_expr_label n
  | Collection _ => bs "collection"
  | Mode _ => bs "mode"
  | LPairProjection _ => bs "pair"
  | SegmentOf _ _ => bs "segment"
  end.

(** The failure of a negation. *)
Definition not_failure (inner : Node) : Failure :=
  mk_failure (bs "NOT (" ++ describe_node inner ++ bs ")") (bs "NOT") (bs "true") (bs "false")
    None None None.

Context {S : Type}.
Abbreviation M := (ST S Empty_set).

Section loops.
Context (walk : Node -> M NodeOutcome).

(** [for c in children] of [Node::And]. *)
Fixpoint and_loop (na : bool) (children : list Node) : M NodeOutcome :=
  match children with
  | [] => mret (if na then NotApplicable else Pass)
  | c :: children =>
      o ← walk c;
      match o with
      | Pass => and_loop na children
      | Fail_ f => mret (Fail_ f)
      | NotApplicable => and_loop true children
      end
  end.

(** [for c in children] of [Node::Or]. *)
Fixpoint or_loop (last_fail : option Failure) (na : bool) (children : list Node) :
    M NodeOutcome :=
  match children with
  | [] =>
      mret (if na then NotApplicable
            else match last_fail with Some f => Fail_ f | None => NotApplicable end)
  | c :: children =>
      o ← walk c;
      match o with
      | Pass => mret Pass
      | Fail_ f => or_loop (Some f) na children
      | NotApplicable => or_loop last_fail true children
      end
  end.

End loops.

Context (atom_eval : Atom -> M AtomOutcome).
Context (quant_eval : QuantKind.t -> Domain.t -> Node -> M NodeOutcome).
Context (require_eval : bytes -> M NodeOutcome).
Context (layout_eval : VerticalLayout -> M NodeOutcome).

Definition walk_atom (atom : Atom) : M NodeOutcome :=
  let '(mk_atom lhs _ _ raw _) := atom in
  o ← atom_eval atom;
  mret match o with
       | APass => Pass
       | AFail actual expected position =>
           Fail_ (mk_failure raw (describe_lhs lhs) actual expected None position None)
       | ANotApplicable => NotApplicable
       end.

Fixpoint walk_node (node : Node) : M NodeOutcome :=
  match node with
  | NAtom atom => walk_atom atom
  | And children => and_loop walk_node false children
  | Or children => or_loop walk_node None false children
  | Not inner =>
      o ← walk_node inner;
      mret match o with
           | Pass => Fail_ (not_failure inner)
           | Fail_ _ => Pass
           | NotApplicable => NotApplicable
           end
  | Implies prem conseq =>
      o ← walk_node prem;
      match o with
      | Pass => walk_node conseq
      | Fail_ _ => mret Pass
      | NotApplicable => mret NotApplicable
      end
  | Require_ pattern => require_eval pattern
  | NVerticalLayout layout => layout_eval layout
  | Quantifier kind domain filter => quant_eval kind domain filter
  end.

End walk.

(** [truth] (eval/indexed.rs) *)
Definition truth (o : NodeOutcome) : option bool :=
  match o with
  | Pass => Some true
  | Fail_ _ => Some false
  | NotApplicable => None
  end.

(** ** Kleene's three-valued connectives *)

Definition all_of (l : list (option bool)) : option bool :=
  if decide (Some false ∈ l) then Some false
  else if decide (None ∈ l) then None else Some true.

(** The empty disjunction has no value. *)
Definition any_of (l : list (option bool)) : option bool :=
  if decide (Some true ∈ l) then Some true
  else if decide (None ∈ l \/ l = []) then None else Some false.

Definition implies (p c : option bool) : option bool :=
  match p with
  | Some true => c
  | Some false => Some true
  | None => None
  end.

(** The value of a tree under a valuation of its leaves. *)
Fixpoint value_of `{RE : RegexEngine} (leaf : Node -> option bool) (n : Node) : option bool :=
  match n with
  | And l => all_of (map (value_of leaf) l)
  | Or l => any_of (map (value_of leaf) l)
  | Not n => option_map negb (value_of leaf n)
  | Implies p c => implies (value_of leaf p) (value_of leaf c)
  | leaf_node => leaf leaf_node
  end.

End EvalWalk.
