(* ===== verification/EvalDomain.v ===== *)
(** The items of a domain and the projections of an item
    (src/crates/check/src/check/eval/local.rs, and the lookups of eval/mod.rs
    that read one definition or reference). *)

From S2P Require Import Prelude.
From S2P Require Import RustStr.
From S2P Require Import Shape.
From S2P Require Import Moniker.
From S2P Require Import CodeGraph.
From S2P Require Import Path.
From S2P Require Import DslAst.
From S2P Require Import Suppress.
From S2P Require Import Syntax.
From S2P Require Import EvalCore.
From S2P Require Import EvalValue.

Module EvalDomain.
Import CodeGraph Lines EvalCore EvalValue Ast.

(** [a - b] on [u32], in the release profile. *)
Definition u32_sub (a b : N) : N := ((a + 2 ^ 32 - b) mod 2 ^ 32)%N.

Section domain.
Context {TS : TreeSitter}.
Abbreviation M := (ST EvalState Empty_set).

(** ** The [ast] domain *)

Definition item_position (i : DomainItem) : option Position :=
  match i with
  | IAst node => Some (as_u32 (start_byte node), as_u32 (end_byte node))
  | IDef _ def => position def
  | IRef record => ref_position record
  | ISegment _ _ => None
  end.

Definition item_def_idx (i : DomainItem) : option nat :=
  match i with IDef idx _ => idx | _ => None end.

Definition ast_scope_node (def_idx : nat) (ctx : EvalCtx) : res Empty_set (AstScopeError + TsNode) :=
  match ast_document ctx with
  | None => mret (inl DocumentUnavailable)
  | Some document =>
      def ← def_at (graph ctx) def_idx;
      let root := root_node (Syntax.primary document) in
      scope ←
        (if beq (kind def) Kinds.KIND_MODULE && negb (bool_decide (is_Some (position def)))
         then mret (inr root)
         else
           match position def with
           | None => mret (inl MissingSymbolRange)
           | Some (start, end_) =>
               found ← Syntax.covering_node root (N.to_nat start, N.to_nat end_);
               mret (match found with Some n => inr n | None => inl NoExactScopeNode end)
           end);
      mret match scope with
           | inl e => inl e
           | inr scope =>
               if has_error scope then inl ParseErrors
               else
                 match Syntax.injection_within document (start_byte scope, end_byte scope) with
                 | Some _ => inl InjectionsUnsupported
                 | None => inr scope
                 end
           end
  end.

Definition MAX_AST_SCOPE_NODES : N := 100000.
Definition MAX_AST_CACHED_NODES : N := 100000.

(** The inner [loop] of [named_descendants]: the next node after a subtree, or
    [None] when the walk is back at its start. *)
Fixpoint climb (fuel : nat) (scope : TsNode) (cursor : TreeCursor) :
    res Empty_set (option TreeCursor) :=
  match fuel with
  | O => NoFuel
  | S fuel =>
      match goto_next_sibling cursor with
      | Some c => mret (Some c)
      | None =>
          match goto_parent cursor with
          | None => mret None
          | Some c => if node_eqb (cursor_node c) scope then mret None else climb fuel scope c
          end
      end
  end.

(** The outer [loop]: every turn visits one node, up to the limit. *)
Fixpoint descend (fuel : nat) (scope : TsNode) (visited : N) (cursor : TreeCursor)
    (items : list DomainItem) : res Empty_set (AstScopeError + list DomainItem) :=
  match fuel with
  | O => NoFuel
  | S fuel =>
      let visited := (visited + 1)%N in
      if (MAX_AST_SCOPE_NODES <? visited)%N then mret (inl TraversalLimitExceeded)
      else
        let node := cursor_node cursor in
        let items := if is_named node then items ++ [IAst node] else items in
        match goto_first_child cursor with
        | Some c => descend fuel scope visited c items
        | None =>
            next ← climb (S (cursor_depth cursor)) scope cursor;
            match next with
            | None => mret (inr items)
            | Some c => descend fuel scope visited c items
            end
        end
  end.

Definition scope_fuel : nat := N.to_nat (MAX_AST_SCOPE_NODES + 1).

Definition named_descendants (scope : TsNode) : res Empty_set (AstScopeError + list DomainItem) :=
  match goto_first_child (walk scope) with
  | None => mret (inr [])
  | Some c => descend scope_fuel scope 0 c []
  end.

(** [ast_scope_node(def_idx, ctx).and_then(named_descendants)] *)
Definition ast_items_of (def_idx : nat) (ctx : EvalCtx) :
    res Empty_set (AstScopeError + list DomainItem) :=
  scope ← ast_scope_node def_idx ctx;
  match scope with inl e => mret (inl e) | inr n => named_descendants n end.

(** What the cache would hold after a result, if it is to be retained. *)
Definition retained_after (cached : nat) (result : AstScopeError + list DomainItem) : option nat :=
  match result with
  | inr items =>
      let total := cached + length items in
      if (N.of_nat total <=? MAX_AST_CACHED_NODES)%N then Some total else None
  | inl _ => Some cached
  end.

Definition ast_domain_items (def_idx : nat) (ctx : EvalCtx) :
    M (AstScopeError + list DomainItem) :=
  s ← get;
  match ast_items_by_def s !! def_idx with
  | Some cached => mret cached
  | None =>
      result ← lift (ast_items_of def_idx ctx);
      match retained_after (ast_cached_nodes s) result with
      | Some retained =>
          _ ← modify (fun s => set_ast_items (<[def_idx := result]> (ast_items_by_def s)) retained s);
          mret result
      | None => mret result
      end
  end.

(** ** The other domains *)

Definition refs_at {E} (ctx : EvalCtx) (idxs : list nat) : res E (list DomainItem) :=
  map_res (fun i => r ← ref_at (graph ctx) i; mret (IRef r)) idxs.

(** The children of a definition that pass a test. *)
Definition children_where {E} (ctx : EvalCtx) (def_idx : nat) (f : DefRecord -> bool) :
    res E (list DomainItem) :=
  filter_map_res (fun idx =>
    def ← def_at (graph ctx) idx;
    mret (if f def then Some (IDef (Some idx) def) else None))
    (get_all def_idx (children_by_parent ctx)).

(** The [while let Some(idx) = parent] loop of [ancestor_ref_indexes]. *)
Fixpoint ancestor_loop {E} (fuel : nat) (ctx : EvalCtx) (outgoing : bool) (parent_ : option nat) :
    res E (list nat) :=
  match parent_ with
  | None => mret []
  | Some idx =>
      match fuel with
      | O => NoFuel
      | S fuel =>
          def ← def_at (graph ctx) idx;
          let here := if outgoing then get_all idx (out_refs_by_source ctx)
                      else get_all (Moniker.encoded (moniker def)) (in_refs_by_target ctx) in
          rest ← ancestor_loop fuel ctx outgoing (parent def);
          mret (here ++ rest)
      end
  end.

Definition ancestor_ref_indexes {E} (def_idx : nat) (ctx : EvalCtx) (outgoing : bool) :
    res E (list nat) :=
  def ← def_at (graph ctx) def_idx;
  ancestor_loop (length (defs (graph ctx))) ctx outgoing (parent def).

Definition ancestor_ref_items {E} (def_idx : nat) (ctx : EvalCtx) (outgoing : bool) :
    res E (list DomainItem) :=
  idxs ← ancestor_ref_indexes def_idx ctx outgoing; refs_at ctx idxs.

Fixpoint def_matches_domain (domain : Domain.t) (def : DefRecord) : bool :=
  match domain with
  | Domain.Children kind_ => beq (kind def) kind_
  | Domain.ChildrenByShape shape => def_has_shape def shape
  | Domain.Descendants inner => def_matches_domain inner def
  | _ => false
  end.

(** The definitions of other files, each moniker once. *)
Fixpoint external_items (inner : Domain.t) (seen : gset bytes) (ds : list DefRecord) :
    list DomainItem :=
  match ds with
  | [] => []
  | def :: ds =>
      let key := Moniker.encoded (moniker def) in
      if decide (key ∈ seen) then external_items inner seen ds
      else
        let rest := external_items inner ({[key]} ∪ seen) ds in
        if def_matches_domain inner def then IDef None def :: rest else rest
  end.

Definition descendant_items {E} (inner : Domain.t) (def_idx : nat) (ctx : EvalCtx) :
    res E (list DomainItem) :=
  owner ← def_at (graph ctx) def_idx;
  local ← filter_map_res (fun e =>
    if e.1 =? def_idx then mret None
    else
      a ← Moniker.is_ancestor_of (moniker owner) (moniker e.2);
      mret (if (a : bool) && def_matches_domain inner e.2 then Some e else None))
    (enumerate (defs (graph ctx)));
  let items := map (fun e => IDef (Some e.1) e.2) local in
  match requirements ctx with
  | None => mret items
  | Some resolver =>
      let seen := list_to_set (map (fun e => Moniker.encoded (moniker e.2)) local) in
      mret (items ++ external_items inner seen (descendant_defs resolver owner inner))
  end.

Definition segment_items {E} (def : DefRecord) : res E (list DomainItem) :=
  segs ← segments_of (moniker def);
  mret (map (fun seg => ISegment seg.1 seg.2) segs).

Definition domain_items {E} (domain : Domain.t) (def_idx : nat) (ctx : EvalCtx) :
    res E (list DomainItem) :=
  match domain with
  | Domain.Ast | Domain.Pairs _ | Domain.TargetOutRefs | Domain.TargetInRefs => mret []
  | Domain.Children kind_ => children_where ctx def_idx (fun d => beq (kind d) kind_)
  | Domain.ChildrenByShape shape => children_where ctx def_idx (fun d => def_has_shape d shape)
  | Domain.Descendants inner => descendant_items inner def_idx ctx
  | Domain.Segments => def ← def_at (graph ctx) def_idx; segment_items def
  | Domain.OutRefs | Domain.SourceOutRefs =>
      refs_at ctx (get_all def_idx (out_refs_by_source ctx))
  | Domain.InRefs | Domain.SourceInRefs =>
      def ← def_at (graph ctx) def_idx;
      refs_at ctx (get_all (Moniker.encoded (moniker def)) (in_refs_by_target ctx))
  | Domain.SourceAncestorOutRefs => ancestor_ref_items def_idx ctx true
  | Domain.SourceAncestorInRefs => ancestor_ref_items def_idx ctx false
  end.

Definition ref_domain_items (domain : Domain.t) (r : RefRecord) (ctx : EvalCtx) :
    M (list DomainItem) :=
  match domain with
  | Domain.Ast | Domain.Pairs _ => mret []
  | Domain.SourceOutRefs | Domain.OutRefs =>
      lift (refs_at ctx (get_all (source r) (out_refs_by_source ctx)))
  | Domain.SourceInRefs | Domain.InRefs =>
      src ← lift (def_at (graph ctx) (source r));
      lift (refs_at ctx (get_all (Moniker.encoded (moniker src)) (in_refs_by_target ctx)))
  | Domain.TargetOutRefs =>
      target_idx ← local_def_index (target r) ctx;
      match target_idx with
      | None => mret []
      | Some target_idx => lift (refs_at ctx (get_all target_idx (out_refs_by_source ctx)))
      end
  | Domain.TargetInRefs =>
      target_idx ← local_def_index (target r) ctx;
      match target_idx with
      | None => mret []
      | Some _ =>
          lift (refs_at ctx (get_all (Moniker.encoded (target r)) (in_refs_by_target ctx)))
      end
  | Domain.SourceAncestorOutRefs => lift (ancestor_ref_items (source r) ctx true)
  | Domain.SourceAncestorInRefs => lift (ancestor_ref_items (source r) ctx false)
  | Domain.Segments => def ← lift (def_at (graph ctx) (source r)); lift (segment_items def)
  | Domain.Children _ | Domain.ChildrenByShape _ | Domain.Descendants _ =>
      lift (domain_items domain (source r) ctx)
  end.

End domain.
End EvalDomain.
