(* ===== verification/EvalProject.v ===== *)
(** Projections of definitions, references, segments and syntax nodes
    (src/crates/check/src/check/eval/mod.rs and local.rs), and the evaluation of
    the scopes that cannot open another one: segments, definitions of other
    files, syntax nodes. *)

From S2P Require Import Prelude.
From S2P Require Import RustStr.
From S2P Require Import Shape.
From S2P Require Import Moniker.
From S2P Require Import CodeGraph.
From S2P Require Import Path.
From S2P Require Import DslAst.
From S2P Require Import Suppress.
From S2P Require Import Syntax.
From S2P Require Import EvalCore.
From S2P Require Import EvalValue.
From S2P Require Import EvalDomain.

Module EvalProject.
Import CodeGraph Lines EvalCore EvalValue EvalWalk EvalDomain Ast.

(** The operator [?] on an [Option]. *)
Definition try_ {M : Type -> Type} `{MRet M} {A B} (o : option A) (k : A -> M (option B)) :
    M (option B) :=
  match o with Some a => k a | None => mret None end.

(** [segs[segs.len() - 2]], when there are two segments. *)
Definition parent_segment (segs : list Moniker.Segment) : option Moniker.Segment :=
  if length segs <? 2 then None else segs !! (length segs - 2).

Definition str_value (s : option bytes) : option Value.t := Value.Str <$> s.
Definition shape_value (s : option Shape.t) : option Value.t :=
  (fun s => Value.Str (Shape.as_str s)) <$> s.
Definition number_value (n : option N) : option Value.t :=
  (fun n => Value.Number (F64.of_N n)) <$> n.

Section project.
Context {TS : TreeSitter}.
Abbreviation M := (ST EvalState Empty_set).

Definition lines_at (source : bytes) (p : option Position) : option (N * N) :=
  (fun p => line_range source p.1 p.2) <$> p.

Definition resolve_def_lhs {E} (lhs : Lhs.t) (d : DefRecord) (ctx : EvalCtx) :
    res E (option Value.t) :=
  let src := source_text ctx in
  let range := lines_at src (position d) in
  match lhs with
  | Lhs.Signature | Lhs.SourceSignature =>
      mret (Some (Value.Str (from_utf8_lossy (signature d))))
  | Lhs.TargetSignature => mret None
  | Lhs.Name | Lhs.SourceName => n ← def_name d; mret (str_value n)
  | Lhs.Kind | Lhs.SourceKind => mret (str_value (utf8 (kind d)))
  | Lhs.Visibility | Lhs.SourceVisibility => mret (str_value (utf8 (visibility d)))
  | Lhs.Lines =>
      mret (number_value (option_map (fun r => u32_add (u32_sub r.2 r.1) 1) range))
  | Lhs.StartLine => mret (number_value (option_map fst range))
  | Lhs.EndLine => mret (number_value (option_map snd range))
  | Lhs.StartByte => mret (number_value (option_map fst (position d)))
  | Lhs.EndByte => mret (number_value (option_map snd (position d)))
  | Lhs.Text =>
      mret (str_value (option_map (fun p =>
        default [] (str_get src (N.to_nat p.1) (N.to_nat p.2))) (position d)))
  | Lhs.Moniker | Lhs.SourceMoniker => mret (Some (Value.Moniker (moniker d)))
  | Lhs.ParentMoniker | Lhs.SourceParentMoniker =>
      p ← Moniker.parent (moniker d); mret (option_map Value.Moniker p)
  | Lhs.Depth =>
      segs ← segments_of (moniker d); mret (Some (Value.Number (F64.of_nat (length segs))))
  | Lhs.ParentName =>
      segs ← segments_of (moniker d);
      mret (p ← parent_segment segs; str_value (utf8 (Moniker.bare_callable_name p.2)))
  | Lhs.ParentKind =>
      segs ← segments_of (moniker d);
      mret (p ← parent_segment segs; str_value (utf8 p.1))
  | Lhs.Shape | Lhs.SourceShape => mret (shape_value (def_shape d))
  | Lhs.Srcset | Lhs.SourceSrcset =>
      s ← first_segment_name (moniker d) (bs "srcset"); mret (Some (Value.Str s))
  | Lhs.ParentShape =>
      segs ← segments_of (moniker d);
      mret (p ← parent_segment segs; shape_value (Shape.shape_of p.1))
  | Lhs.Confidence | Lhs.TargetName | Lhs.TargetKind | Lhs.TargetShape | Lhs.TargetVisibility
  | Lhs.TargetSrcset | Lhs.TargetMoniker | Lhs.TargetParentMoniker | Lhs.SegmentName
  | Lhs.SegmentKind => mret None
  end.

Definition ref_text (r : RefRecord) (ctx : EvalCtx) : option bytes :=
  p ← ref_position r; str_get (source_text ctx) (N.to_nat p.1) (N.to_nat p.2).

(** The arms of [resolve_ref_lhs] that read only the reference and its source. *)
Definition resolve_ref_source_lhs {E} (lhs : Lhs.t) (r : RefRecord) (source_def : DefRecord)
    (ctx : EvalCtx) : res E (option Value.t) :=
  let range := lines_at (source_text ctx) (ref_position r) in
  match lhs with
  | Lhs.Kind => mret (str_value (utf8 (ref_kind r)))
  | Lhs.Confidence => mret (str_value (utf8 (confidence r)))
  | Lhs.StartLine => mret (number_value (option_map fst range))
  | Lhs.EndLine => mret (number_value (option_map snd range))
  | Lhs.StartByte => mret (number_value (option_map fst (ref_position r)))
  | Lhs.EndByte => mret (number_value (option_map snd (ref_position r)))
  | Lhs.Text => mret (str_value (ref_text r ctx))
  | Lhs.Moniker | Lhs.SourceMoniker => mret (Some (Value.Moniker (moniker source_def)))
  | Lhs.ParentMoniker | Lhs.SourceParentMoniker =>
      p ← Moniker.parent (moniker source_def); mret (option_map Value.Moniker p)
  | Lhs.ParentName =>
      p ← Moniker.parent (moniker source_def);
      try_ p (fun p => n ← name_of p; mret (str_value n))
  | Lhs.ParentKind =>
      p ← Moniker.parent (moniker source_def);
      try_ p (fun p => k ← last_segment_kind p; mret (str_value k))
  | Lhs.TargetMoniker => mret (Some (Value.Moniker (target r)))
  | Lhs.TargetParentMoniker =>
      p ← Moniker.parent (target r); mret (option_map Value.Moniker p)
  | Lhs.Signature | Lhs.SourceSignature =>
      mret (Some (Value.Str (from_utf8_lossy (signature source_def))))
  | Lhs.SourceName => n ← name_of (moniker source_def); mret (str_value n)
  | Lhs.TargetName => n ← name_of (target r); mret (str_value n)
  | Lhs.SourceKind => k ← last_segment_kind (moniker source_def); mret (str_value k)
  | Lhs.TargetKind => k ← last_segment_kind (target r); mret (str_value k)
  | Lhs.Shape | Lhs.SourceShape =>
      s ← shape_of_last_segment (moniker source_def); mret (shape_value s)
  | Lhs.TargetShape => s ← shape_of_last_segment (target r); mret (shape_value s)
  | Lhs.Srcset | Lhs.SourceSrcset =>
      s ← first_segment_name (moniker source_def) (bs "srcset"); mret (Some (Value.Str s))
  | Lhs.TargetSrcset =>
      s ← first_segment_name (target r) (bs "srcset"); mret (Some (Value.Str s))
  | Lhs.ParentShape =>
      segs ← segments_of (moniker source_def);
      mret (p ← parent_segment segs; shape_value (Shape.shape_of p.1))
  | Lhs.SourceVisibility => mret (str_value (utf8 (visibility source_def)))
  | Lhs.TargetVisibility =>
      mret (d ← resolve_local_def (graph ctx) (target r); str_value (utf8 (visibility d)))
  | Lhs.TargetSignature | Lhs.Name | Lhs.Visibility | Lhs.Lines | Lhs.Depth | Lhs.SegmentName
  | Lhs.SegmentKind => mret None
  end.

Definition resolve_ref_lhs (lhs : Lhs.t) (r : RefRecord) (ctx : EvalCtx) : M (option Value.t) :=
  source_def ← lift (def_at (graph ctx) (source r));
  match lhs with
  | Lhs.TargetSignature =>
      i ← local_def_index (target r) ctx;
      try_ i (fun i =>
        d ← lift (def_at (graph ctx) i);
        mret (Some (Value.Str (from_utf8_lossy (signature d)))))
  | _ => lift (resolve_ref_source_lhs lhs r source_def ctx)
  end.

(** ** Items *)

Definition source_dependent_lhs (lhs : Lhs.t) : bool :=
  match lhs with
  | Lhs.Lines | Lhs.StartLine | Lhs.EndLine | Lhs.StartByte | Lhs.EndByte | Lhs.Text => true
  | _ => false
  end.

Definition project_def_lhs_value {E} (idx : option nat) (def : DefRecord) (lhs : Lhs.t)
    (ctx : EvalCtx) : res E (option Value.t) :=
  if negb (bool_decide (is_Some idx)) && source_dependent_lhs lhs then mret None
  else resolve_def_lhs lhs def ctx.

Definition ast_end_line (node : TsNode) : N :=
  if (end_column node =? 0) && (start_row node <? end_row node) then as_u32 (end_row node)
  else u32_add (as_u32 (end_row node)) 1.

Definition project_ast_lhs_value (node : TsNode) (lhs : Lhs.t) : option Value.t :=
  match lhs with
  | Lhs.StartByte => Some (Value.Number (F64.of_nat (start_byte node)))
  | Lhs.EndByte => Some (Value.Number (F64.of_nat (end_byte node)))
  | Lhs.StartLine => Some (Value.Number (F64.add (F64.of_nat (start_row node)) F64.one))
  | Lhs.EndLine => Some (Value.Number (F64.of_N (ast_end_line node)))
  | Lhs.Lines =>
      Some (Value.Number (F64.of_N (u32_sub (ast_end_line node) (as_u32 (start_row node)))))
  | _ => None
  end.

(** The [while parent.is_some_and(..)] loop of [project_ast_string]. *)
Fixpoint named_parent (fuel : nat) (parent_ : option TsNode) : res Empty_set (option TsNode) :=
  match fuel with
  | O => NoFuel
  | S fuel =>
      match parent_ with
      | Some p => if is_named p then mret (Some p) else named_parent fuel (node_parent p)
      | None => mret None
      end
  end.

Definition project_ast_string (node : TsNode) (lhs : Lhs.t) (ctx : EvalCtx) :
    res Empty_set (option bytes) :=
  match lhs with
  | Lhs.Kind => mret (Some (node_kind node))
  | Lhs.Text => mret (str_get (source_text ctx) (start_byte node) (end_byte node))
  | Lhs.ParentKind =>
      p ← named_parent (S (node_depth node)) (node_parent node);
      mret (option_map node_kind p)
  | _ => mret None
  end.

Definition project_lhs_value (item : DomainItem) (lhs : Lhs.t) (ctx : EvalCtx) :
    M (option Value.t) :=
  match item with
  | IAst node => mret (project_ast_lhs_value node lhs)
  | IDef idx def => lift (project_def_lhs_value idx def lhs ctx)
  | IRef record => resolve_ref_lhs lhs record ctx
  | ISegment kind name =>
      mret match lhs with
           | Lhs.Kind | Lhs.SegmentKind => str_value (utf8 kind)
           | Lhs.Name | Lhs.SegmentName => str_value (utf8 name)
           | _ => None
           end
  end.

Definition project_item_value (item : DomainItem) (ctx : EvalCtx) : M (option Value.t) :=
  match item with
  | IAst _ | ISegment _ _ => mret None
  | IDef _ def => lift (resolve_def_lhs Lhs.Moniker def ctx)
  | IRef record => resolve_ref_lhs Lhs.TargetMoniker record ctx
  end.

Context {RE : RegexEngine}.

(** ** Segments *)

Definition no_quantifier (_ : QuantKind.t) (_ : Domain.t) (_ : Node) : M NodeOutcome :=
  mret NotApplicable.
Definition no_require (_ : bytes) : M NodeOutcome := mret NotApplicable.
Definition no_layout (_ : VerticalLayout) : M NodeOutcome := mret NotApplicable.

Definition eval_number_expr_segment (expr : NumberExpr) : option f64 :=
  match expr with NLiteral n => Some n | _ => None end.

(** [SegmentKind] or [SegmentName] of a segment. *)
Definition segment_value (lhs : Lhs.t) (seg_kind seg_name : bytes) : option Value.t :=
  match lhs with
  | Lhs.SegmentKind => Some (Value.Str (default [] (utf8 seg_kind)))
  | Lhs.SegmentName => Some (Value.Str (default [] (utf8 seg_name)))
  | _ => None
  end.

Definition eval_atom_segment (atom : Atom) (seg_kind seg_name : bytes) : M AtomOutcome :=
  let '(mk_atom lhs op rhs _ _) := atom in
  let value := match lhs with Attr l => segment_value l seg_kind seg_name | _ => None end in
  match value with
  | None => mret ANotApplicable
  | Some value =>
      match rhs with
      | RProjection other =>
          match segment_value other seg_kind seg_name with
          | Some rhs_val => lift (apply_op_values value op rhs_val)
          | None => mret ANotApplicable
          end
      | RNumber expr =>
          match eval_number_expr_segment expr with
          | Some n => lift (apply_op_values value op (Value.Number n))
          | None => mret ANotApplicable
          end
      | _ => lift (apply_op value atom)
      end
  end.

Definition eval_node_segment (node : Node) (seg_kind seg_name : bytes) : M NodeOutcome :=
  walk_node (fun a => eval_atom_segment a seg_kind seg_name)
    no_quantifier no_require no_layout node.

(** ** Definitions of other files *)

Definition eval_external_def_atom (atom : Atom) (def : DefRecord) (ctx : EvalCtx) :
    M AtomOutcome :=
  let '(mk_atom lhs op rhs _ _) := atom in
  match lhs with
  | Attr lhs =>
      value ← lift (project_def_lhs_value None def lhs ctx);
      match value with
      | None => mret ANotApplicable
      | Some value =>
          match rhs with
          | RProjection rhs =>
              rhs_value ← lift (project_def_lhs_value None def rhs ctx);
              match rhs_value with
              | Some rhs_value => lift (apply_op_values value op rhs_value)
              | None => lift (apply_op value atom)
              end
          | _ => lift (apply_op value atom)
          end
      end
  | _ => mret ANotApplicable
  end.

Definition eval_external_def_node (node : Node) (def : DefRecord) (ctx : EvalCtx) :
    M NodeOutcome :=
  walk_node (fun a => eval_external_def_atom a def ctx) no_quantifier no_require no_layout node.

(** ** Syntax nodes *)

Definition MAX_AST_DIAGNOSTIC_TEXT_BYTES : nat := 256.

(** The [while !value.is_char_boundary(end)] loop. *)
Fixpoint boundary_before (value : bytes) (end_ : nat) : nat :=
  match end_ with
  | O => O
  | S e => if is_char_boundary value end_ then end_ else boundary_before value e
  end.

Definition ellipsis : bytes := map ascii_of_N [226; 128; 166]%N.

Definition bounded_ast_diagnostic_text (value : bytes) : bytes :=
  if length value <=? MAX_AST_DIAGNOSTIC_TEXT_BYTES then value
  else take (boundary_before value MAX_AST_DIAGNOSTIC_TEXT_BYTES) value ++ ellipsis.

(** The value of the left side of an atom over a syntax node, strings aside. *)
Definition ast_lhs_value (lhs : LhsExpr) (node : TsNode) : option Value.t :=
  match lhs with
  | Attr lhs | Number (NProjection lhs) => project_ast_lhs_value node lhs
  | _ => None
  end.

(** The part of [eval_ast_atom] after the test for a string projection. *)
Definition eval_ast_value_atom (atom : Atom) (node : TsNode) : M AtomOutcome :=
  let '(mk_atom lhs op rhs _ _) := atom in
  match ast_lhs_value lhs node with
  | None => mret ANotApplicable
  | Some value =>
      let compare (rhs : option Value.t) : M AtomOutcome :=
        match rhs with
        | Some rhs => lift (apply_op_values value op rhs)
        | None => mret ANotApplicable
        end in
      match rhs with
      | RProjection lhs => compare (project_ast_lhs_value node lhs)
      | RNumber (NLiteral number) => compare (Some (Value.Number number))
      | RNumber (NProjection lhs) => compare (project_ast_lhs_value node lhs)
      | RNumber _ => mret ANotApplicable
      | _ => lift (apply_op value atom)
      end
  end.

Definition eval_ast_atom (atom : Atom) (node : TsNode) (ctx : EvalCtx) : M AtomOutcome :=
  let '(mk_atom lhs op rhs _ _) := atom in
  value ← lift (match lhs with Attr lhs => project_ast_string node lhs ctx | _ => mret None end);
  match value with
  | Some value =>
      match rhs with
      | RProjection rhs =>
          rhs ← lift (project_ast_string node rhs ctx);
          mret match rhs with
               | Some rhs => apply_op_str_values value op rhs bounded_ast_diagnostic_text
               | None => ANotApplicable
               end
      | _ => mret (apply_op_str value atom bounded_ast_diagnostic_text)
      end
  | None => eval_ast_value_atom atom node
  end.

Definition with_position (p : option Position) (f : Failure) : Failure :=
  mk_failure (atom_raw f) (lhs_label f) (actual f) (expected f) (failure_def_idx f) p (details f).

Definition eval_ast_node (filter : Node) (node : TsNode) (ctx : EvalCtx) : M NodeOutcome :=
  o ← walk_node (fun a => eval_ast_atom a node ctx) no_quantifier no_require no_layout filter;
  mret match o with
       | Fail_ failure =>
           Fail_ (with_position (Some (as_u32 (start_byte node), as_u32 (end_byte node))) failure)
       | o => o
       end.

End project.
End EvalProject.
