(* ===== verification/EvalCollection.v ===== *)
(** Collections of values: projections of a domain along a path, and the
    multiset algebra over them
    (src/crates/check/src/check/eval/collection.rs). *)

From stdpp Require Import sorting.
From S2P Require Import Prelude.
From S2P Require Import RustStr.
From S2P Require Import Moniker.
From S2P Require Import CodeGraph.
From S2P Require Import Path.
From S2P Require Import DslAst.
From S2P Require Import Syntax.
From S2P Require Import EvalCore.
From S2P Require Import EvalValue.
From S2P Require Import EvalDomain.
From S2P Require Import EvalProject.

Module EvalCollection.
Import CodeGraph EvalCore EvalValue EvalDomain EvalProject Ast.

(** ** The algebra *)

(** The [for value in values] loop of [unique]. *)
Fixpoint unique_loop (seen : gset ValueKey.t) (values : list Value.t) : list Value.t :=
  match values with
  | [] => []
  | value :: values =>
      let key := ValueKey.from_value value in
      if decide (key ∈ seen) then unique_loop seen values
      else value :: unique_loop ({[key]} ∪ seen) values
  end.

Definition unique (values : list Value.t) : list Value.t := unique_loop ∅ values.

(** [keys.entry(key).or_default().0 = count], and the same for the right side. *)
Definition set_left (key : ValueKey.t) (count : nat) (keys : gmap ValueKey.t (nat * nat)) :
    gmap ValueKey.t (nat * nat) :=
  <[key := (count, snd (default (0, 0) (keys !! key)))]> keys.

Definition set_right (key : ValueKey.t) (count : nat) (keys : gmap ValueKey.t (nat * nat)) :
    gmap ValueKey.t (nat * nat) :=
  <[key := (fst (default (0, 0) (keys !! key)), count)]> keys.

Definition combined_counts (left_ right_ : list Value.t) : gmap ValueKey.t (nat * nat) :=
  map_fold set_right (map_fold set_left ∅ (value_counts left_)) (value_counts right_).

Definition is_subset (left_ right_ : list Value.t) : bool :=
  let right_ := value_counts right_ in
  forallb (fun e => e.2 <=? default 0 (right_ !! e.1)) (map_to_list (value_counts left_)).

Definition is_prefix (left_ right_ : list Value.t) : bool :=
  (length left_ <=? length right_) &&
  forallb (fun e => bool_decide (ValueKey.from_value e.1 = ValueKey.from_value e.2))
    (zip left_ right_).

Section combine.
Context {HO : HashOrder}.

Definition combine_counts (left_ right_ : list Value.t) (merge : nat -> nat -> nat) :
    list Value.t :=
  concat (map (fun e => repeat (ValueKey.into_value e.1) (merge e.2.1 e.2.2))
            (hash_order (map_to_list (combined_counts left_ right_)))).

Definition intersect (left_ right_ : list Value.t) : list Value.t :=
  combine_counts left_ right_ Nat.min.
Definition union (left_ right_ : list Value.t) : list Value.t :=
  combine_counts left_ right_ Nat.max.
Definition difference (left_ right_ : list Value.t) : list Value.t :=
  combine_counts left_ right_ Nat.sub.

Definition apply_collection_op (op : CollectionOp) (left_ right_ : list Value.t) : list Value.t :=
  match op with
  | Intersect => intersect left_ right_
  | Union => union left_ right_
  | Difference => difference left_ right_
  end.

End combine.

(** ** Paths *)

Definition nested_domain (segment : bytes) : option Domain.t :=
  if beq segment (bs "out_refs") then Some Domain.OutRefs
  else if beq segment (bs "in_refs") then Some Domain.InRefs
  else None.

Definition def_path_names : list (list bytes * Lhs.t) :=
  [([], Lhs.Moniker);
   ([bs "self"], Lhs.Moniker);
   ([bs "signature"], Lhs.Signature);
   ([bs "name"], Lhs.Name);
   ([bs "kind"], Lhs.Kind);
   ([bs "shape"], Lhs.Shape);
   ([bs "visibility"], Lhs.Visibility);
   ([bs "srcset"], Lhs.Srcset);
   ([bs "lines"], Lhs.Lines);
   ([bs "start_line"], Lhs.StartLine);
   ([bs "end_line"], Lhs.EndLine);
   ([bs "start_byte"], Lhs.StartByte);
   ([bs "end_byte"], Lhs.EndByte);
   ([bs "depth"], Lhs.Depth);
   ([bs "parent"], Lhs.ParentMoniker);
   ([bs "parent"; bs "name"], Lhs.ParentName);
   ([bs "parent"; bs "kind"], Lhs.ParentKind);
   ([bs "parent"; bs "shape"], Lhs.ParentShape)].

Definition ref_path_names : list (list bytes * Lhs.t) :=
  [([], Lhs.TargetMoniker);
   ([bs "kind"], Lhs.Kind);
   ([bs "start_line"], Lhs.StartLine);
   ([bs "end_line"], Lhs.EndLine);
   ([bs "start_byte"], Lhs.StartByte);
   ([bs "end_byte"], Lhs.EndByte);
   ([bs "source"], Lhs.SourceMoniker);
   ([bs "target"], Lhs.TargetMoniker);
   ([bs "source"; bs "parent"], Lhs.SourceParentMoniker);
   ([bs "target"; bs "parent"], Lhs.TargetParentMoniker);
   ([bs "source"; bs "signature"], Lhs.SourceSignature);
   ([bs "source"; bs "name"], Lhs.SourceName);
   ([bs "source"; bs "kind"], Lhs.SourceKind);
   ([bs "source"; bs "shape"], Lhs.SourceShape);
   ([bs "source"; bs "visibility"], Lhs.SourceVisibility);
   ([bs "source"; bs "srcset"], Lhs.SourceSrcset);
   ([bs "target"; bs "signature"], Lhs.TargetSignature);
   ([bs "target"; bs "name"], Lhs.TargetName);
   ([bs "target"; bs "kind"], Lhs.TargetKind);
   ([bs "target"; bs "shape"], Lhs.TargetShape);
   ([bs "target"; bs "visibility"], Lhs.TargetVisibility);
   ([bs "target"; bs "srcset"], Lhs.TargetSrcset)].

Definition path_lhs (names : list (list bytes * Lhs.t)) (path : list bytes) : option Lhs.t :=
  snd <$> List.find (fun e => bool_decide (path = e.1)) names.

(** The order of [items.sort_by_key(..)]: no position first, then by start and end. *)
Definition position_leb (p q : option Position) : bool :=
  match p, q with
  | None, _ => true
  | Some _, None => false
  | Some (s, e), Some (s', e') => (s <? s')%N || ((s =? s')%N && (e <=? e')%N)
  end.

Section collection.
Context {TS : TreeSitter} {HO : HashOrder}.
Abbreviation M := (ST EvalState Empty_set).

Definition project_def_path {E} (def : DefRecord) (path : list bytes) (ctx : EvalCtx) :
    res E (option Value.t) :=
  match path_lhs def_path_names path with
  | Some lhs => resolve_def_lhs lhs def ctx
  | None => mret None
  end.

Definition project_ref_path (record : RefRecord) (path : list bytes) (ctx : EvalCtx) :
    M (option Value.t) :=
  match path_lhs ref_path_names path with
  | Some lhs => resolve_ref_lhs lhs record ctx
  | None => mret None
  end.

Definition project_segment_path (kind name : bytes) (path : list bytes) : option Value.t :=
  match path with
  | [projection] =>
      if beq projection (bs "kind") then str_value (utf8 kind)
      else if beq projection (bs "name") then str_value (utf8 name)
      else None
  | _ => None
  end.

(** [values.extend(f(item))], item after item. *)
Fixpoint concat_st {S A B : Type} (f : A -> ST S Empty_set (list B)) (l : list A) :
    ST S Empty_set (list B) :=
  match l with
  | [] => mret []
  | x :: l => vs ← f x; rest ← concat_st f l; mret (vs ++ rest)
  end.

(** An item that opens no domain. *)
Definition project_plain (item : DomainItem) (path : list bytes) (ctx : EvalCtx) :
    M (list Value.t) :=
  match item with
  | IAst _ => mret []
  | IDef _ def => v ← lift (project_def_path def path ctx); mret (option_list v)
  | IRef record => v ← project_ref_path record path ctx; mret (option_list v)
  | ISegment kind name => mret (option_list (project_segment_path kind name path))
  end.

Fixpoint project_item_path (item : DomainItem) (path : list bytes) (ctx : EvalCtx) :
    M (list Value.t) :=
  match path with
  | head :: tail =>
      match item, nested_domain head with
      | IDef (Some idx) _, Some domain =>
          items ← lift (domain_items domain idx ctx);
          concat_st (fun nested => project_item_path nested tail ctx) items
      | _, _ => project_plain item path ctx
      end
  | [] => project_plain item path ctx
  end.

Definition sort_key (item : DomainItem) : option Position :=
  match item with IDef _ def => position def | _ => None end.

Definition item_le (a b : DomainItem) : Prop := position_leb (sort_key a) (sort_key b) = true.

#[local] Instance item_le_dec : RelDecision item_le.
Proof. intros a b. unfold item_le. apply _. Defined.

(** The shared body of [collect_projection] and [collect_pair_projection]. *)
Definition collect_domain (domain : Domain.t) (path : list bytes) (idx : nat) (ctx : EvalCtx) :
    M (list Value.t) :=
  items ← lift (domain_items domain idx ctx);
  concat_st (fun item => project_item_path item path ctx) (merge_sort item_le items).

Definition collect_projection (projection : CollectionProjection) (def_idx : nat)
    (ctx : EvalCtx) : M (list Value.t) :=
  collect_domain (cp_domain projection) (cp_path projection) def_idx ctx.

Definition collect_pair_projection (projection : PairCollectionProjection) (a b : DomainItem)
    (ctx : EvalCtx) : M (list Value.t) :=
  match (match pcp_side projection with A => a | B => b end) with
  | IDef (Some idx) _ => collect_domain (pcp_domain projection) (pcp_path projection) idx ctx
  | _ => mret []
  end.

Fixpoint collection_has_pair_binding (c : CollectionExpr) : bool :=
  match c with
  | CProjection _ => false
  | CPairProjection _ => true
  | Unique inner => collection_has_pair_binding inner
  | Binary _ l r => collection_has_pair_binding l || collection_has_pair_binding r
  end.

Fixpoint eval_collection (c : CollectionExpr) (def_idx self_idx : nat) (ctx : EvalCtx) :
    M (list Value.t) :=
  match c with
  | CProjection projection =>
      collect_projection projection (if cp_current projection then self_idx else def_idx) ctx
  | CPairProjection _ => mret []
  | Unique inner => vs ← eval_collection inner def_idx self_idx ctx; mret (unique vs)
  | Binary op l r =>
      l ← eval_collection l def_idx self_idx ctx;
      r ← eval_collection r def_idx self_idx ctx;
      mret (apply_collection_op op l r)
  end.

Definition eval_collection_size (c : CollectionExpr) (def_idx self_idx : nat) (ctx : EvalCtx) :
    M nat :=
  vs ← eval_collection c def_idx self_idx ctx; mret (length vs).

Definition compare_collections (prefix_ : bool) (l r : list Value.t) : bool :=
  if prefix_ then is_prefix l r else is_subset l r.

Definition eval_collection_comparison (l r : CollectionExpr) (def_idx self_idx : nat)
    (ctx : EvalCtx) (prefix_ : bool) : M bool :=
  l ← eval_collection l def_idx self_idx ctx;
  r ← eval_collection r def_idx self_idx ctx;
  mret (compare_collections prefix_ l r).

(** [PairCollectionScope] *)
Record PairCollectionScope : Type := mk_pair_scope {
  scope_a : DomainItem; scope_b : DomainItem; scope_def_idx : nat
}.

Fixpoint eval_pair_collection (c : CollectionExpr) (scope : PairCollectionScope) (ctx : EvalCtx) :
    M (option (list Value.t)) :=
  match c with
  | CProjection projection =>
      vs ← collect_projection projection (scope_def_idx scope) ctx; mret (Some vs)
  | CPairProjection projection =>
      vs ← collect_pair_projection projection (scope_a scope) (scope_b scope) ctx; mret (Some vs)
  | Unique inner => vs ← eval_pair_collection inner scope ctx; mret (option_map unique vs)
  | Binary op l r =>
      l ← eval_pair_collection l scope ctx;
      try_ l (fun l =>
        r ← eval_pair_collection r scope ctx;
        try_ r (fun r => mret (Some (apply_collection_op op l r))))
  end.

Definition eval_pair_collection_size (c : CollectionExpr) (scope : PairCollectionScope)
    (ctx : EvalCtx) : M (option nat) :=
  vs ← eval_pair_collection c scope ctx; mret (option_map length vs).

Definition eval_pair_collection_comparison (l r : CollectionExpr) (scope : PairCollectionScope)
    (ctx : EvalCtx) (prefix_ : bool) : M (option bool) :=
  l ← eval_pair_collection l scope ctx;
  try_ l (fun l =>
    r ← eval_pair_collection r scope ctx;
    try_ r (fun r => mret (Some (compare_collections prefix_ l r)))).

End collection.
End EvalCollection.
