(* ===== verification/EvalMetrics.v ===== *)
(** Descriptive statistics (src/crates/check/src/check/eval/stats.rs), the
    entropy of a distribution (eval/local.rs) and the object-oriented metrics
    of a definition (eval/metrics.rs). *)

From stdpp Require Import sorting.
From S2P Require Import Prelude.
From S2P Require Import RustStr.
From S2P Require Import Shape.
From S2P Require Import Moniker.
From S2P Require Import CodeGraph.
From S2P Require Import DslAst.
From S2P Require Import Suppress.
From S2P Require Import Syntax.
From S2P Require Import EvalCore.
From S2P Require Import EvalValue.

(** ** stats.rs *)
Module Stats.
Import Ast.

Definition average (values : list f64) : option f64 :=
  match values with
  | [] => None
  | _ => Some (F64.div (F64.sum values) (F64.of_nat (length values)))
  end.

Definition variance (values : list f64) : option f64 :=
  mean ← average values;
  Some (F64.div (F64.sum ((fun value => F64.square (F64.sub value mean)) <$> values))
          (F64.of_nat (length values))).

(** [sort_by(|left, right| left.total_cmp(right))] *)
Definition sorted_values (values : list f64) : list f64 := merge_sort F64.total_le values.

Definition value_at {E : Type} (values : list f64) (i : nat) : res E f64 :=
  match values !! i with Some v => Ok v | None => Panic end.

Definition hundred : f64 := F64.of_Z 100.

Definition percentile_value {E : Type} (values : list f64) (percentile : f64) : res E (option f64) :=
  match values with
  | [] => mret None
  | _ =>
      if negb (F64.leb F64.zero percentile && F64.leb percentile hundred) then mret None
      else
        let values := sorted_values values in
        let rank := F64.mul (F64.div percentile hundred) (F64.of_nat (length values - 1)) in
        let lower := F64.floor_usize rank in
        let upper := F64.ceil_usize rank in
        if lower =? upper then mret (values !! lower)
        else
          let weight := F64.sub rank (F64.of_nat lower) in
          l ← value_at values lower;
          u ← value_at values upper;
          mret (Some (F64.add l (F64.mul (F64.sub u l) weight)))
  end.

Definition gini (values : list f64) : option f64 :=
  match values with
  | [] => None
  | _ =>
      let kept := List.filter (fun value => F64.leb F64.zero value) values in
      if negb (length kept =? length values) then None
      else
        let sorted := sorted_values kept in
        let sum := F64.sum sorted in
        if F64.eqb sum F64.zero then Some F64.zero
        else
          let weighted := F64.sum (imap (fun index value =>
                            F64.mul (F64.add (F64.of_nat index) F64.one) value) sorted) in
          let n := F64.of_nat (length sorted) in
          Some (F64.sub (F64.div (F64.mul (F64.of_Z 2) weighted) (F64.mul n sum))
                        (F64.div (F64.add n F64.one) n))
  end.

(** [values.into_iter().reduce(f)] *)
Definition reduce (f : f64 -> f64 -> f64) (values : list f64) : option f64 :=
  match values with [] => None | v :: values => Some (foldl f v values) end.

Definition aggregate {E : Type} (kind : AggregateKind) (values : list f64) (percentile : option f64) :
    res E (option f64) :=
  match kind with
  | Sum => mret (Some (F64.sum values))
  | Max => mret (reduce F64.max values)
  | Min => mret (reduce F64.min values)
  | Avg => mret (average values)
  | Median => percentile_value values (F64.of_Z 50)
  | Percentile =>
      match percentile with Some p => percentile_value values p | None => mret None end
  | Stddev => mret (F64.sqrt <$> variance values)
  | Var => mret (variance values)
  | Cv =>
      mret (mean ← average values;
            if F64.eqb mean F64.zero then None
            else v ← variance values; Some (F64.div (F64.sqrt v) (F64.abs mean)))
  | Gini => mret (gini values)
  end.

Example descriptive_statistics :
  let f := F64.of_Z in
  aggregate (E:=Empty_set) Avg [f 1%Z; f 1%Z; f 10%Z] None = Ok (Some (f 4%Z)) /\
  aggregate (E:=Empty_set) Median [f 1%Z; f 1%Z; f 10%Z] None = Ok (Some (f 1%Z)) /\
  aggregate (E:=Empty_set) Percentile [f 1%Z; f 1%Z; f 10%Z] (Some (f 90%Z)) =
    Ok (Some (f64_of_decimal 82 1)) /\
  aggregate (E:=Empty_set) Gini [f 1%Z; f 1%Z; f 10%Z] None = Ok (Some (f64_of_decimal 5 1)).
Proof. split_and!; vm_compute; reflexivity. Qed.

End Stats.

Module EvalMetrics.
Import CodeGraph EvalCore EvalValue Ast.

(** ** The entropy of a distribution *)

Definition normalized_entropy {L2 : Log2} {HO : HashOrder} (values : list Value.t) : option f64 :=
  match values with
  | [] => None
  | _ =>
      let counts := value_counts values in
      if size counts <=? 1 then Some F64.zero
      else
        let total := F64.of_nat (length values) in
        let entropy :=
          foldl (fun acc count =>
            let p := F64.div (F64.of_nat count) total in
            F64.sub acc (F64.mul p (log2 p))) F64.zero
            (snd <$> hash_order (map_to_list counts)) in
        Some (F64.div entropy (log2 (F64.of_nat (size counts))))
  end.

(** ** The method graph of [lcom4] *)

Definition index_set {E : Type} (graph : list (gset nat)) (i : nat) : res E (gset nat) :=
  match graph !! i with Some s => Ok s | None => Panic end.

(** [graph[i].insert(x)] *)
Definition insert_edge {E : Type} (graph : list (gset nat)) (i x : nat) : res E (list (gset nat)) :=
  s ← index_set graph i; mret (<[i := {[x]} ∪ s]> graph).

Definition connect {E : Type} (graph : list (gset nat)) (a b : nat) : res E (list (gset nat)) :=
  if a =? b then mret graph
  else graph ← insert_edge graph a b; insert_edge graph b a.

Section components.
Context {HO : HashOrder}.

(** The body of [for next in &graph[idx]], on [seen] and [stack]; the top of the
    stack is the head of the list. *)
Definition visit_next {E : Type} (acc : list bool * list nat) (next : nat) :
    res E (list bool * list nat) :=
  let '(seen, stack) := acc in
  match seen !! next with
  | None => Panic
  | Some true => mret (seen, stack)
  | Some false => mret (<[next := true]> seen, next :: stack)
  end.

(** [while let Some(idx) = stack.pop()] *)
Fixpoint flood {E : Type} (fuel : nat) (graph : list (gset nat)) (seen : list bool) (stack : list nat) :
    res E (list bool) :=
  match stack with
  | [] => mret seen
  | idx :: stack =>
      match fuel with
      | O => NoFuel
      | S fuel =>
          nexts ← index_set graph idx;
          acc ← fold_res visit_next (seen, stack) (hash_order (elements nexts));
          let '(seen, stack) := acc in
          flood fuel graph seen stack
      end
  end.

(** The body of [for start in 0..graph.len()]. *)
Definition component_step {E : Type} (graph : list (gset nat)) (acc : list bool * nat) (start : nat) :
    res E (list bool * nat) :=
  let '(seen, components) := acc in
  match seen !! start with
  | None => Panic
  | Some true => mret (seen, components)
  | Some false =>
      seen ← flood (length graph) graph (<[start := true]> seen) [start];
      mret (seen, S components)
  end.

Definition connected_components {E : Type} (graph : list (gset nat)) : res E nat :=
  acc ← fold_res (component_step graph) (repeat false (length graph), 0) (seq 0 (length graph));
  mret (snd acc).

End components.

(** ** metrics.rs *)

Definition is_inheritance_kind (kind : bytes) : bool :=
  beq kind (bs "extends") || beq kind (bs "inherits") || beq kind (bs "inheritance") ||
  beq kind (bs "subclasses").

Definition has_shape (def : DefRecord) (shape : Shape.t) : bool :=
  match def_shape def with Some actual => bool_decide (actual = shape) | None => false end.

Definition is_namespace_or_type (def : DefRecord) : bool :=
  match def_shape def with Some Shape.Namespace | Some Shape.Type_ => true | _ => false end.

(** The index that [find_def_idx] builds: the first definition of a moniker. *)
Definition first_index_map (g : CodeGraph.t) : gmap bytes nat :=
  foldl (fun m e =>
    match m !! Moniker.encoded (moniker e.2) with
    | Some _ => m
    | None => <[Moniker.encoded (moniker e.2) := e.1]> m
    end) ∅ (enumerate (defs g)).

Section metrics.
Context {TS : TreeSitter} {HO : HashOrder}.
Abbreviation M := (ST EvalState Empty_set).

Definition resolve_binding_idx (binding : Binding) (def_idx self_idx : nat) : nat :=
  match binding with Self_ => self_idx | Each => def_idx end.

Definition find_def_idx (target : Moniker.t) (ctx : EvalCtx) : M (option nat) :=
  s ← get;
  match def_index s with
  | Some i => mret (i !! Moniker.encoded target)
  | None =>
      let i := first_index_map (graph ctx) in
      _ ← modify (set_def_index i);
      mret (i !! Moniker.encoded target)
  end.

Definition direct_child_idxs (def_idx : nat) (ctx : EvalCtx) : list nat :=
  get_all def_idx (children_by_parent ctx).

(** [direct_callable_idxs] and [direct_value_idxs] *)
Definition direct_shaped_idxs {E : Type} (shape : Shape.t) (def_idx : nat) (ctx : EvalCtx) :
    res E (list nat) :=
  filter_map_res (fun idx =>
    def ← def_at (graph ctx) idx; mret (if has_shape def shape then Some idx else None))
    (direct_child_idxs def_idx ctx).

Definition direct_callable_idxs {E : Type} := direct_shaped_idxs (E:=E) Shape.Callable.
Definition direct_value_idxs {E : Type} := direct_shaped_idxs (E:=E) Shape.Value.

Definition out_refs {E : Type} (idx : nat) (ctx : EvalCtx) : res E (list RefRecord) :=
  map_res (ref_at (graph ctx)) (get_all idx (out_refs_by_source ctx)).

Definition in_refs {E : Type} (m : Moniker.t) (ctx : EvalCtx) : res E (list RefRecord) :=
  map_res (ref_at (graph ctx)) (get_all (Moniker.encoded m) (in_refs_by_target ctx)).

Definition fan_out (def_idx : nat) (ctx : EvalCtx) : N :=
  match out_refs_by_source ctx !! def_idx with
  | Some refs => Lines.as_u32 (length refs)
  | None => 0%N
  end.

Definition fan_in {E : Type} (def_idx : nat) (ctx : EvalCtx) : res E N :=
  def ← def_at (graph ctx) def_idx;
  mret match in_refs_by_target ctx !! Moniker.encoded (moniker def) with
       | Some refs => Lines.as_u32 (length refs)
       | None => 0%N
       end.

Definition wmc {E : Type} (def_idx : nat) (ctx : EvalCtx) : res E N :=
  idxs ← direct_callable_idxs def_idx ctx; mret (Lines.as_u32 (length idxs)).

(** The body of the loop of [rfc] over the methods. *)
Definition rfc_step {E : Type} (ctx : EvalCtx) (responses : gset bytes) (method_idx : nat) :
    res E (gset bytes) :=
  method ← def_at (graph ctx) method_idx;
  refs ← out_refs method_idx ctx;
  let called := List.filter (fun r => is_call_ref_kind (ref_kind r)) refs in
  mret (list_to_set (map (fun r => Moniker.encoded (target r)) called) ∪
        {[Moniker.encoded (moniker method)]} ∪ responses).

Definition rfc {E : Type} (def_idx : nat) (ctx : EvalCtx) : res E N :=
  idxs ← direct_callable_idxs def_idx ctx;
  responses ← fold_res (rfc_step ctx) ∅ idxs;
  mret (Lines.as_u32 (size responses)).

Definition noc {E : Type} (def_idx : nat) (ctx : EvalCtx) : res E N :=
  def ← def_at (graph ctx) def_idx;
  refs ← in_refs (moniker def) ctx;
  let children : gset nat :=
    list_to_set (map source (List.filter (fun r => is_inheritance_kind (ref_kind r)) refs)) in
  mret (Lines.as_u32 (size children)).

(** The [for record in ..] loop of [dit_from], given the depth of a parent. *)
Fixpoint dit_refs (depth_of : nat -> M N) (ctx : EvalCtx) (max_depth : N) (refs : list RefRecord) :
    M N :=
  match refs with
  | [] => mret max_depth
  | record :: refs =>
      if negb (is_inheritance_kind (ref_kind record)) then dit_refs depth_of ctx max_depth refs
      else
        parent_idx ← find_def_idx (target record) ctx;
        depth ←
          match parent_idx with
          | Some parent_idx => d ← depth_of parent_idx; mret (1 + d)%N
          | None => mret 1%N
          end;
        dit_refs depth_of ctx (N.max max_depth depth) refs
  end.

(** [dit_from], by fuel. The set [visiting] is the same after a call as before:
    what a call inserts it removes when it returns. *)
Fixpoint dit_from (fuel : nat) (def_idx : nat) (ctx : EvalCtx) (visiting : gset nat) : M N :=
  match fuel with
  | O => lift NoFuel
  | S fuel =>
      if decide (def_idx ∈ visiting) then mret 0%N
      else
        refs ← lift (out_refs def_idx ctx);
        dit_refs (fun p => dit_from fuel p ctx ({[def_idx]} ∪ visiting)) ctx 0%N refs
  end.

Definition dit (def_idx : nat) (ctx : EvalCtx) : M N :=
  dit_from (S (length (defs (graph ctx)))) def_idx ctx ∅.

(** ** Coupling *)

(** The [while let Some(moniker) = cursor] loop, by fuel. *)
Fixpoint nearest_loop (fuel : nat) (cursor : option Moniker.t) (ctx : EvalCtx) :
    M (option Moniker.t) :=
  match cursor with
  | None => mret None
  | Some m =>
      match fuel with
      | O => lift NoFuel
      | S fuel =>
          i ← find_def_idx m ctx;
          found ←
            match i with
            | Some idx =>
                parent ← lift (def_at (graph ctx) idx);
                mret (if is_namespace_or_type parent then Some (moniker parent) else None)
            | None => mret None
            end;
          match found with
          | Some owner => mret (Some owner)
          | None => up ← lift (Moniker.parent m); nearest_loop fuel up ctx
          end
      end
  end.

Definition nearest_namespace_or_type (def : DefRecord) (ctx : EvalCtx) : M (option Moniker.t) :=
  cursor ← lift (Moniker.parent (moniker def));
  nearest_loop (length (Moniker.encoded (moniker def))) cursor ctx.

(** The end of [coupling_bucket], when no definition of the graph owns the target. *)
Definition external_bucket {E : Type} (target : Moniker.t) : res E Moniker.t :=
  k ← Moniker.last_kind target;
  match (kind ← k; Shape.shape_of kind) with
  | Some Shape.Namespace | Some Shape.Type_ => mret target
  | _ => p ← Moniker.parent target; mret (default target p)
  end.

Definition coupling_bucket (target : Moniker.t) (ctx : EvalCtx) : M Moniker.t :=
  i ← find_def_idx target ctx;
  match i with
  | None => lift (external_bucket target)
  | Some idx =>
      def ← lift (def_at (graph ctx) idx);
      if is_namespace_or_type def then mret (moniker def)
      else
        owner ← nearest_namespace_or_type def ctx;
        match owner with
        | Some owner => mret owner
        | None => lift (external_bucket target)
        end
  end.

Definition add_external_coupling (owner target : Moniker.t) (ctx : EvalCtx)
    (coupled : gset bytes) : M (gset bytes) :=
  inside ← lift (Moniker.is_ancestor_of owner target);
  if (inside : bool) then mret coupled
  else
    bucket ← coupling_bucket target ctx;
    inside ← lift (Moniker.is_ancestor_of owner bucket);
    if (inside : bool) then mret coupled
    else mret ({[Moniker.encoded bucket]} ∪ coupled).

(** [for record in ..] with a body on the state. *)
Fixpoint fold_st {S A B : Type} (f : B -> A -> ST S Empty_set B) (acc : B) (l : list A) :
    ST S Empty_set B :=
  match l with
  | [] => mret acc
  | x :: l => acc ← f acc x; fold_st f acc l
  end.

Definition descendant_idxs {E : Type} (root : Moniker.t) (ctx : EvalCtx) : res E (list nat) :=
  filter_map_res (fun e =>
    a ← Moniker.is_ancestor_of root (moniker e.2); mret (if (a : bool) then Some e.1 else None))
    (enumerate (defs (graph ctx))).

Definition cbo_out_step (owner : Moniker.t) (ctx : EvalCtx) (coupled : gset bytes)
    (source_idx : nat) : M (gset bytes) :=
  refs ← lift (out_refs source_idx ctx);
  fold_st (fun coupled r => add_external_coupling owner (target r) ctx coupled) coupled refs.

Definition cbo_in_step (owner : Moniker.t) (scope_set : gset nat) (ctx : EvalCtx)
    (coupled : gset bytes) (target_idx : nat) : M (gset bytes) :=
  target ← lift (def_at (graph ctx) target_idx);
  refs ← lift (in_refs (moniker target) ctx);
  fold_st (fun coupled r =>
    if decide (source r ∈ scope_set) then mret coupled
    else
      src ← lift (def_at (graph ctx) (source r));
      add_external_coupling owner (moniker src) ctx coupled) coupled refs.

Definition cbo (def_idx : nat) (ctx : EvalCtx) : M N :=
  def ← lift (def_at (graph ctx) def_idx);
  let owner := moniker def in
  scope ← lift (descendant_idxs owner ctx);
  let scope_set : gset nat := list_to_set scope in
  coupled ← fold_st (cbo_out_step owner ctx) ∅ scope;
  coupled ← fold_st (cbo_in_step owner scope_set ctx) coupled scope;
  mret (Lines.as_u32 (size coupled)).

(** ** Cohesion *)

(** The body of the loop of [lcom4] over the references of a method, on the
    method graph and the users of the fields. *)
Definition lcom4_ref {E : Type} (method_pos : gmap bytes nat) (fields : gset bytes) (pos : nat)
    (acc : list (gset nat) * gmap bytes (list nat)) (r : RefRecord) :
    res E (list (gset nat) * gmap bytes (list nat)) :=
  let '(graph, field_users) := acc in
  let target := Moniker.encoded (target r) in
  graph ← match method_pos !! target with
          | Some other_pos => connect graph pos other_pos
          | None => mret graph
          end;
  mret (graph, if decide (target ∈ fields) then push_at target pos field_users else field_users).

Definition lcom4_method {E : Type} (ctx : EvalCtx) (method_pos : gmap bytes nat) (fields : gset bytes)
    (acc : list (gset nat) * gmap bytes (list nat)) (e : nat * nat) :
    res E (list (gset nat) * gmap bytes (list nat)) :=
  refs ← out_refs e.2 ctx; fold_res (lcom4_ref method_pos fields e.1) acc refs.

(** [if let Some((&first, rest)) = users.split_first()] *)
Definition connect_users {E : Type} (graph : list (gset nat)) (users : list nat) :
    res E (list (gset nat)) :=
  match users with
  | [] => mret graph
  | first :: rest => fold_res (fun graph other => connect graph first other) graph rest
  end.

Definition encoded_at {E : Type} (ctx : EvalCtx) (idx : nat) : res E bytes :=
  d ← def_at (graph ctx) idx; mret (Moniker.encoded (moniker d)).

Definition lcom4 {E : Type} (def_idx : nat) (ctx : EvalCtx) : res E N :=
  methods ← direct_callable_idxs def_idx ctx;
  match methods with
  | [] => mret 0%N
  | _ =>
      names ← map_res (encoded_at ctx) methods;
      let method_pos := foldl (fun m e => <[e.2 := e.1]> m) ∅ (enumerate names) in
      values ← direct_value_idxs def_idx ctx;
      fields ← map_res (encoded_at ctx) values;
      let graph := repeat ∅ (length methods) in
      acc ← fold_res (lcom4_method ctx method_pos (list_to_set fields)) (graph, ∅)
              (enumerate methods);
      let '(graph, field_users) := acc in
      graph ← fold_res connect_users graph (snd <$> hash_order (map_to_list field_users));
      n ← connected_components graph;
      mret (Lines.as_u32 n)
  end.

Definition eval_metric (kind : MetricKind) (binding : Binding) (def_idx self_idx : nat)
    (ctx : EvalCtx) : M (option f64) :=
  let target_idx := resolve_binding_idx binding def_idx self_idx in
  value ←
    match kind with
    | Lcom4 => lift (lcom4 target_idx ctx)
    | Cbo => cbo target_idx ctx
    | Rfc => lift (rfc target_idx ctx)
    | Wmc => lift (wmc target_idx ctx)
    | Dit => dit target_idx ctx
    | Noc => lift (noc target_idx ctx)
    | FanIn => lift (fan_in target_idx ctx)
    | FanOut => mret (fan_out target_idx ctx)
    end;
  mret (Some (F64.of_N value)).

End metrics.
End EvalMetrics.
