(* ===== verification/EvalLayout.v ===== *)
(** Vertical layout (src/crates/check/src/check/eval/layout.rs): the order of
    the declarations below an owner, the moves a policy asks for, and the order
    it suggests. *)

From stdpp Require Import sorting.
From S2P Require Import Prelude.
From S2P Require Import RustStr.
From S2P Require Import Shape.
From S2P Require Import Moniker.
From S2P Require Import CodeGraph.
From S2P Require Import DslAst.
From S2P Require Import Suppress.
From S2P Require Import Syntax.
From S2P Require Import EvalCore.

Module EvalLayout.
Import CodeGraph Lines EvalCore Ast.

(** [LayoutRegion] *)
Abbreviation LayoutRegion := (option nat).

Record LayoutItem : Set := mk_item {
  idx : nat;
  name : bytes;
  start_byte : N;
  start_line : N;
  end_line : N;
  is_private : bool;
  original_order : nat;
  region : LayoutRegion
}.

Record FirstUse : Set := mk_first_use { source_idx : nat; line : N; byte : N }.

Record LayoutMove : Set := mk_move {
  target_idx : nat;
  caller_idx : option nat;
  symbol : bytes;
  first_use : bytes;
  from_line : N;
  ideal_after_line : N;
  gap : N;
  reason : bytes
}.

Inductive MoveAnchor : Set := Caller (caller_idx : nat) | PublicSurface.

#[global] Instance anchor_eq_dec : EqDecision MoveAnchor.
Proof. solve_decision. Defined.

(** ** The suggested order *)

(** [Iterator::rposition] *)
Definition rposition {A} (f : A -> bool) (l : list A) : option nat :=
  (fun e => length l - 1 - fst e) <$> list_find (fun x => f x = true) (reverse l).

Definition position_of {A} (f : A -> bool) (l : list A) : option nat :=
  fst <$> list_find (fun x => f x = true) l.

(** [Vec::insert], which panics past the end. *)
Definition insert_vec {E A} (l : list A) (i : nat) (x : A) : res E (list A) :=
  if i <=? length l then Ok (take i l ++ x :: drop i l) else Panic.

(** [groups.iter_mut().find(..)], then a push to the group, or a new group. *)
Fixpoint push_group {K A} `{EqDecision K} (k : K) (x : A) (groups : list (K * list A)) :
    list (K * list A) :=
  match groups with
  | [] => [(k, [x])]
  | (k', xs) :: groups =>
      if decide (k' = k) then (k', xs ++ [x]) :: groups else (k', xs) :: push_group k x groups
  end.

Definition move_anchor (m : LayoutMove) : MoveAnchor :=
  match caller_idx m with Some c => Caller c | None => PublicSurface end.

(** The [for layout_move in moves] loop, on [moved] and [groups]. *)
Definition move_step (acc : gset nat * list (MoveAnchor * list nat)) (m : LayoutMove) :
    gset nat * list (MoveAnchor * list nat) :=
  let '(moved, groups) := acc in
  if decide (target_idx m ∈ moved) then acc
  else ({[target_idx m]} ∪ moved, push_group (move_anchor m) (target_idx m) groups).

(** [items.iter().map(|item| (item.idx, item)).collect()]: the last one wins. *)
Definition item_by_idx (items : list LayoutItem) : gmap nat LayoutItem :=
  foldl (fun m item => <[idx item := item]> m) ∅ items.

(** The [for target_idx in target_idxs] loop. *)
Fixpoint insert_targets {E} (by_idx : gmap nat LayoutItem) (insert_at : nat)
    (targets : list nat) (order : list LayoutItem) : res E (list LayoutItem) :=
  match targets with
  | [] => mret order
  | t :: targets =>
      match by_idx !! t with
      | Some item =>
          order ← insert_vec order insert_at item;
          insert_targets by_idx (insert_at + 1) targets order
      | None => insert_targets by_idx insert_at targets order
      end
  end.

Definition insert_point (anchor : MoveAnchor) (order : list LayoutItem) : nat :=
  let insert_after :=
    match anchor with
    | Caller c => position_of (fun item => idx item =? c) order
    | PublicSurface => rposition (fun item => negb (is_private item)) order
    end in
  let insert_at := match insert_after with Some i => i + 1 | None => length order end in
  Nat.min insert_at (length order).

(** The [for (anchor, target_idxs) in groups] loop. *)
Fixpoint place_groups {E} (by_idx : gmap nat LayoutItem)
    (groups : list (MoveAnchor * list nat)) (order : list LayoutItem) : res E (list LayoutItem) :=
  match groups with
  | [] => mret order
  | (anchor, targets) :: groups =>
      order ← insert_targets by_idx (insert_point anchor order) targets order;
      place_groups by_idx groups order
  end.

Definition suggested_order {E} (items : list LayoutItem) (moves : list LayoutMove) :
    res E (list LayoutItem) :=
  let '(moved, groups) := foldl move_step (∅, []) moves in
  let order := List.filter (fun item => negb (bool_decide (idx item ∈ moved))) items in
  place_groups (item_by_idx items) groups order.

Definition order_text (names : list bytes) : bytes :=
  match names with [] => bs "<empty>" | _ => join (bs " -> ") names end.

(** ** Groups of items *)

Definition layout_groups (items : list LayoutItem) : list (list LayoutItem) :=
  snd <$> foldl (fun groups item => push_group (region item) item groups) [] items.

Definition item_leb (a b : LayoutItem) : bool :=
  (start_byte a <? start_byte b)%N ||
  ((start_byte a =? start_byte b)%N && (original_order a <=? original_order b)).

Definition item_le (a b : LayoutItem) : Prop := item_leb a b = true.

#[global] Instance item_le_dec : RelDecision item_le.
Proof. intros a b. unfold item_le. apply _. Defined.

Fixpoint domain_matches (domain : Domain.t) (def : DefRecord) : bool :=
  match domain with
  | Domain.Children kind_ => beq (kind def) kind_
  | Domain.ChildrenByShape shape => def_has_shape def shape
  | Domain.Descendants inner => domain_matches inner def
  | _ => false
  end.

Section layout.
Context {TS : TreeSitter}.

Definition line_range_of (def : DefRecord) (ctx : EvalCtx) : option (N * N) :=
  p ← position def; Some (line_range (source_text ctx) p.1 p.2).

(** The [while let Some(parent_idx) = todo.pop_front()] loop, by fuel. *)
Fixpoint queue_loop {E} (fuel : nat) (children : gmap nat (list nat)) (todo : list nat) :
    res E (list nat) :=
  match todo with
  | [] => mret []
  | parent_idx :: todo =>
      match fuel with
      | O => NoFuel
      | S fuel =>
          rest ← queue_loop fuel children (todo ++ get_all parent_idx children);
          mret (parent_idx :: rest)
      end
  end.

Definition descendant_idxs {E} (owner_idx : nat) (ctx : EvalCtx) : res E (option (list nat)) :=
  match children_by_parent ctx !! owner_idx with
  | None => mret None
  | Some direct_children =>
      idxs ← queue_loop (length (defs (graph ctx))) (children_by_parent ctx) direct_children;
      mret (Some idxs)
  end.

(** The [while let Some(idx) = cursor] loop of [layout_region], by fuel. *)
Fixpoint region_loop {E} (fuel : nat) (ctx : EvalCtx) (owner_idx item_idx : nat)
    (cursor : option nat) : res E LayoutRegion :=
  match cursor with
  | None => mret None
  | Some i =>
      if i =? owner_idx then mret (Some i)
      else
        match fuel with
        | O => NoFuel
        | S fuel =>
            def ← def_at (graph ctx) i;
            if negb (i =? item_idx) && def_opens_scope def then mret (Some i)
            else region_loop fuel ctx owner_idx item_idx (parent def)
        end
  end.

Definition layout_region {E} (ctx : EvalCtx) (owner_idx item_idx : nat) : res E LayoutRegion :=
  region_loop (length (defs (graph ctx))) ctx owner_idx item_idx (Some item_idx).

(** The body of the loop of [layout_items]. *)
Definition layout_item {E} (domain : Domain.t) (owner_idx : nat) (ctx : EvalCtx)
    (e : nat * nat) : res E (option LayoutItem) :=
  let '(original_order, i) := e in
  def ← def_at (graph ctx) i;
  if negb (domain_matches domain def) then mret None
  else
    match position def, line_range_of def ctx with
    | Some (start_byte, _), Some (start_line, end_line) =>
        name ← def_name def;
        region ← layout_region ctx owner_idx i;
        mret (Some (mk_item i (default [] name) start_byte start_line end_line
                      (beq (visibility def) (bs "private")) original_order region))
    | _, _ => mret None
    end.

Definition layout_items {E} (domain : Domain.t) (owner_idx : nat) (ctx : EvalCtx) :
    res E (option (list LayoutItem)) :=
  child_idxs ← descendant_idxs owner_idx ctx;
  match child_idxs with
  | None => mret None
  | Some child_idxs =>
      items ← filter_map_res (layout_item domain owner_idx ctx) (enumerate child_idxs);
      mret (Some items)
  end.

Definition regions_by_idx (items : list LayoutItem) : gmap nat LayoutRegion :=
  foldl (fun m item => <[idx item := region item]> m) ∅ items.

(** One call of the item, when it is a local one. *)
Definition local_use {E} (item : LayoutItem) (selected : gset nat)
    (regions : gmap nat LayoutRegion) (ctx : EvalCtx) (ref_idx : nat) :
    res E (option FirstUse) :=
  record ← ref_at (graph ctx) ref_idx;
  if negb (is_call_ref_kind (ref_kind record)) then mret None
  else if (source record =? idx item)
       || negb (bool_decide (regions !! source record = Some (region item)))
       || negb (bool_decide (source record ∈ selected))
  then mret None
  else
    mret (p ← ref_position record;
          Some (mk_first_use (source record) (line_range (source_text ctx) p.1 p.2).1 p.1)).

Definition use_ltb (a b : FirstUse) : bool :=
  (byte a <? byte b)%N || ((byte a =? byte b)%N && (source_idx a <? source_idx b)).

(** [min_by_key]: the first of the least ones. *)
Definition min_use (uses : list FirstUse) : option FirstUse :=
  foldl (fun best u =>
    match best with
    | None => Some u
    | Some b => if use_ltb u b then Some u else best
    end) None uses.

Definition first_local_use {E} (item : LayoutItem) (selected : gset nat)
    (regions : gmap nat LayoutRegion) (ctx : EvalCtx) : res E (option FirstUse) :=
  d ← def_at (graph ctx) (idx item);
  match in_refs_by_target ctx !! Moniker.encoded (moniker d) with
  | None => mret None
  | Some refs =>
      uses ← filter_map_res (local_use item selected regions ctx) refs;
      mret (min_use uses)
  end.

(** The moves of [public_first]. *)
Definition public_moves (items : list LayoutItem) : list LayoutMove :=
  match rposition (fun item => negb (is_private item)) items with
  | None => []
  | Some last_visible =>
      match items !! last_visible with
      | None => []
      | Some visible =>
          omap (fun e =>
            let '(position, item) := e in
            if is_private item && (position <? last_visible)
            then Some (mk_move (idx item) None (name item) (bs "public surface")
                         (start_line item) (end_line visible)
                         (start_line item - end_line visible)%N
                         (bs "private declaration appears before visible API"))
            else None) (enumerate items)
      end
  end.

(** The move that [private_after_first_use] asks of a private item. *)
Definition private_move {E} (layout : VerticalLayout) (selected : gset nat)
    (regions : gmap nat LayoutRegion) (ctx : EvalCtx) (item : LayoutItem) :
    res E (option LayoutMove) :=
  if negb (is_private item) then mret None
  else
    use ← first_local_use item selected regions ctx;
    match use with
    | None => mret None
    | Some use =>
        caller ← def_at (graph ctx) (source_idx use);
        caller_name ← def_name caller;
        let caller_end_line :=
          match line_range_of caller ctx with Some r => r.2 | None => 0%N end in
        let declared_before_use := (start_line item <? line use)%N in
        let gap := if declared_before_use then (line use - start_line item)%N
                   else (start_line item - caller_end_line)%N in
        if declared_before_use || (max_gap layout <? gap)%N
        then
          mret (Some (mk_move (idx item) (Some (source_idx use)) (name item)
            (default (name item) caller_name) (start_line item)
            (N.max caller_end_line (line use)) gap
            (if declared_before_use
             then bs "private declaration appears before its first local use"
             else bs "private declaration is more than " ++ show_N (max_gap layout) ++
                  bs " lines after its first local use")))
        else mret None
    end.

Definition layout_details (current suggested : bytes) (first_move : LayoutMove) : bytes :=
  bs "current: " ++ current ++ [newline] ++ bs "suggested: " ++ suggested ++ [newline] ++
  bs "move: helper `" ++ symbol first_move ++ bs "` closer to `" ++ first_use first_move ++
  bs "` (decl L" ++ show_N (from_line first_move) ++ bs ", suggested after L" ++
  show_N (ideal_after_line first_move) ++ bs ", gap " ++ show_N (gap first_move) ++ bs ")" ++
  [newline] ++ bs "reason: " ++ reason first_move.

Definition eval_vertical_layout_group {E} (layout : VerticalLayout) (ctx : EvalCtx)
    (items : list LayoutItem) : res E NodeOutcome :=
  let selected : gset nat := list_to_set (map idx items) in
  let regions := regions_by_idx items in
  let public := if public_first layout then public_moves items else [] in
  private ← (if private_after_first_use layout
             then filter_map_res (private_move layout selected regions ctx) items
             else mret []);
  let moves := public ++ private in
  match moves with
  | [] => mret Pass
  | first_move :: _ =>
      let current := order_text (map name items) in
      ideal_items ← suggested_order items moves;
      let suggested := order_text (map name ideal_items) in
      mret (Fail_ (mk_failure (layout_raw layout) (bs "layout") current suggested None None
                     (Some (layout_details current suggested first_move))))
  end.

(** The [for group in layout_groups(&items)] loop. *)
Fixpoint groups_loop {E} (layout : VerticalLayout) (ctx : EvalCtx)
    (groups : list (list LayoutItem)) : res E NodeOutcome :=
  match groups with
  | [] => mret Pass
  | group :: groups =>
      if length group <? 2 then groups_loop layout ctx groups
      else
        outcome ← eval_vertical_layout_group layout ctx group;
        if is_pass outcome then groups_loop layout ctx groups else mret outcome
  end.

Definition eval_vertical_layout {E} (layout : VerticalLayout) (owner_idx : nat) (ctx : EvalCtx) :
    res E NodeOutcome :=
  items ← layout_items (layout_domain layout) owner_idx ctx;
  match items with
  | None => mret NotApplicable
  | Some items =>
      if length items <? 2 then mret Pass
      else groups_loop layout ctx (layout_groups (merge_sort item_le items))
  end.

End layout.

(** The two orders of the tests of layout.rs. *)
Definition test_item (i : nat) (name : bytes) (private : bool) : LayoutItem :=
  mk_item i name (N.of_nat i) (N.of_nat i) (N.of_nat i) private i None.
Definition test_move (target : nat) (caller : option nat) : LayoutMove :=
  mk_move target caller [] [] 0 0 0 [].

Example public_surface_moves :
  let items := [test_item 1 (bs "a") true; test_item 2 (bs "b") true;
                test_item 3 (bs "visible") false] in
  let moves := [test_move 1 None; test_move 2 None] in
  (order ← suggested_order (E:=Empty_set) items moves; mret (map name order)) =
    Ok [bs "visible"; bs "a"; bs "b"].
Proof. vm_compute. reflexivity. Qed.

End EvalLayout.
