(* ===== verification/Eval.v ===== *)
(** The evaluation of a rule's tree over the definitions and references of one
    graph (src/crates/check/src/check/eval/mod.rs, local.rs and pairs.rs).

    The evaluators call each other back on the filters and the nested
    expressions of the tree. Their bodies take the evaluators they call back as
    a record, and [evaluate] ties the knot by fuel; [EvalFacts] shows that the
    height of the tree is enough. *)

From S2P Require Import Prelude.
From S2P Require Import RustStr.
From S2P Require Import Moniker.
From S2P Require Import Uri.
From S2P Require Import CodeGraph.
From S2P Require Import Path.
From S2P Require Import DslAst.
From S2P Require Import Suppress.
From S2P Require Import Syntax.
From S2P Require Import EvalCore.
From S2P Require Import EvalValue.
From S2P Require Import EvalDomain.
From S2P Require Import EvalProject.
From S2P Require Import EvalCollection.
From S2P Require Import EvalMetrics.
From S2P Require Import EvalLayout.

Module Eval.
Import CodeGraph Lines EvalCore EvalValue EvalWalk EvalDomain EvalProject EvalCollection.
Import EvalMetrics Ast.

(** [≥] *)
Definition greater_equal : bytes := map ascii_of_N [226; 137; 165]%N.

(** The pairs of distinct items, in order. *)
Fixpoint pair_iter {A} (items : list A) : list (A * A) :=
  match items with
  | [] => []
  | a :: items => map (pair a) items ++ pair_iter items
  end.

Definition is_prefix_op (op : Op.t) : bool :=
  match op with Op.Prefix => true | _ => false end.

Definition quantifier_holds (kind : QuantKind.t) (total passes : N) : bool :=
  match kind with
  | QuantKind.Any => (0 <? passes)%N
  | QuantKind.All => (total =? 0)%N || (passes =? total)%N
  | QuantKind.None => (passes =? 0)%N
  end.

(** The failure of a quantifier that counted its items. *)
Definition quantifier_failure (kind : QuantKind.t) (raw at_least : bytes) (total passes : N) :
    Failure :=
  mk_failure raw (quant_label kind) (show_N passes ++ bs "/" ++ show_N total)
    match kind with
    | QuantKind.Any => at_least
    | QuantKind.All => bs "all match"
    | QuantKind.None => bs "zero matches"
    end None None None.

Section eval.
Context {TS : TreeSitter} {HO : HashOrder} {L2 : Log2} {RE : RegexEngine}.
Abbreviation M := (ST EvalState Empty_set).

(** What the evaluators call back. *)
Record evaluators : Type := mk_evaluators {
  ev_def : Node -> DefRecord -> nat -> nat -> M NodeOutcome;
  ev_ref : Node -> RefRecord -> RefRecord -> M NodeOutcome;
  ev_pair : Node -> DomainItem -> DomainItem -> nat -> nat -> M NodeOutcome;
  ev_number_def : NumberExpr -> DefRecord -> nat -> nat -> M (option f64);
  ev_number_ref : NumberExpr -> RefRecord -> M (option f64)
}.

(** ** Loops *)

(** [for x in l { if let Some(y) = f(x) { out.push(y) } }] *)
Fixpoint filter_map_st {A B} (f : A -> M (option B)) (l : list A) : M (list B) :=
  match l with
  | [] => mret []
  | x :: l =>
      o ← f x;
      rest ← filter_map_st f l;
      mret (match o with Some y => y :: rest | None => rest end)
  end.

(** The items that [f] passes, counted on [u32]. *)
Fixpoint count_passing {A} (f : A -> M NodeOutcome) (n : N) (l : list A) : M N :=
  match l with
  | [] => mret n
  | x :: l => o ← f x; count_passing f (if is_pass o then u32_add n 1 else n) l
  end.

(** [total] and [passes] of a quantifier. *)
Fixpoint count_both {A} (f : A -> M NodeOutcome) (total passes : N) (l : list A) : M (N * N) :=
  match l with
  | [] => mret (total, passes)
  | x :: l =>
      o ← f x;
      count_both f (u32_add total 1) (if is_pass o then u32_add passes 1 else passes) l
  end.

(** A count of items, or of those that pass a filter. *)
Definition count_filtered {A} (f : Node -> A -> M NodeOutcome) (filter : option Node)
    (l : list A) : M N :=
  match filter with
  | None => mret (as_u32 (length l))
  | Some node => count_passing (f node) 0 l
  end.

(** [iter.any(f)], for a test that may panic. *)
Fixpoint any_res {E A} (f : A -> res E bool) (l : list A) : res E bool :=
  match l with
  | [] => mret false
  | x :: l => b ← f x; if b : bool then mret true else any_res f l
  end.

Section bodies.
Context (rec : evaluators) (ctx : EvalCtx).

Definition eval_ref_node (node : Node) (r : RefRecord) : M NodeOutcome := ev_ref rec node r r.

(** ** Items *)

Definition eval_domain_item_node (item : DomainItem) (filter : Node) (self_idx : nat) :
    M NodeOutcome :=
  match item with
  | IAst node => eval_ast_node filter node ctx
  | IDef (Some idx) def => ev_def rec filter def idx self_idx
  | IDef None def => eval_external_def_node filter def ctx
  | IRef record => eval_ref_node filter record
  | ISegment kind name => eval_node_segment filter kind name
  end.

Definition domain_item_matches (item : DomainItem) (filter : Node) (self_idx : nat) : M bool :=
  o ← eval_domain_item_node item filter self_idx; mret (is_pass o).

Definition number_of (v : option Value.t) : option f64 :=
  match v with Some (Value.Number n) => Some n | _ => None end.

(** The number of an item: the arms of [collect_domain_numbers]. *)
Definition item_number (expr : NumberExpr) (self_idx : nat) (item : DomainItem) :
    M (option f64) :=
  match item with
  | IAst _ =>
      match expr with
      | NProjection lhs => v ← project_lhs_value item lhs ctx; mret (number_of v)
      | _ => mret None
      end
  | IDef (Some idx) def => ev_number_def rec expr def idx self_idx
  | IDef None _ => mret None
  | IRef record => ev_number_ref rec expr record
  | ISegment _ _ => mret (eval_number_expr_segment expr)
  end.

Definition collect_domain_numbers (domain : Domain.t) (expr : NumberExpr)
    (def_idx self_idx : nat) : M (list f64) :=
  items ← lift (domain_items domain def_idx ctx);
  filter_map_st (item_number expr self_idx) items.

Definition eval_aggregate (kind : AggregateKind) (domain : Domain.t) (expr : NumberExpr)
    (percentile : option f64) (def_idx self_idx : nat) : M (option f64) :=
  values ← collect_domain_numbers domain expr def_idx self_idx;
  lift (Stats.aggregate kind values percentile).

Definition eval_domain_value_item (expr : ValueExpr) (self_idx : nat) (item : DomainItem) :
    M (option Value.t) :=
  match expr with
  | Item => project_item_value item ctx
  | VProjection lhs => project_lhs_value item lhs ctx
  | VNumber expr => n ← item_number expr self_idx item; mret (option_map Value.Number n)
  end.

Definition collect_domain_values (collection : DomainValueExpr) (def_idx self_idx : nat) :
    M (list Value.t) :=
  let '(mk_domain_value domain expr filter) := collection in
  items ← lift (domain_items domain def_idx ctx);
  filter_map_st (fun item =>
    kept ← match filter with
           | Some filter => domain_item_matches item filter self_idx
           | None => mret true
           end;
    if (kept : bool) then eval_domain_value_item expr self_idx item else mret None) items.

Definition eval_entropy (collection : DomainValueExpr) (def_idx self_idx : nat) :
    M (option f64) :=
  values ← collect_domain_values collection def_idx self_idx;
  mret (normalized_entropy values).

Definition eval_mode (collection : DomainValueExpr) (def_idx self_idx : nat) :
    M (option Value.t) :=
  values ← collect_domain_values collection def_idx self_idx;
  mret (mode_value values).

(** ** Counts *)

Definition count_items (items : list DomainItem) (filter : option Node) (self_idx : nat) : M N :=
  count_filtered (fun node item => eval_domain_item_node item node self_idx) filter items.

Definition count_domain_items (domain : Domain.t) (filter : option Node)
    (def_idx self_idx : nat) : M N :=
  items ← lift (domain_items domain def_idx ctx); count_items items filter self_idx.

(** The loops of [count_children_filtered] and [count_children_by_shape] over the
    children that pass a test. *)
Definition count_children (keep : DefRecord -> bool) (filter : option Node)
    (def_idx self_idx : nat) : M N :=
  match children_by_parent ctx !! def_idx with
  | None => mret 0%N
  | Some child_idxs =>
      children ← lift (filter_map_res (fun ci =>
        cd ← def_at (graph ctx) ci; mret (if keep cd then Some (ci, cd) else None)) child_idxs);
      count_filtered (fun node e => ev_def rec node e.2 e.1 self_idx) filter children
  end.

Definition count_segments (d : DefRecord) (filter : option Node) : M N :=
  segs ← lift (segments_of (moniker d));
  count_filtered (fun node seg => eval_node_segment node seg.1 seg.2) filter segs.

Definition count_refs (refs : option (list nat)) (filter : option Node) : M N :=
  match refs with
  | None => mret 0%N
  | Some ref_idxs =>
      refs ← lift (map_res (ref_at (graph ctx)) ref_idxs);
      count_filtered eval_ref_node filter refs
  end.

Definition count_out_refs (def_idx : nat) (filter : option Node) : M N :=
  count_refs (out_refs_by_source ctx !! def_idx) filter.

Definition count_in_refs (d : DefRecord) (filter : option Node) : M N :=
  count_refs (in_refs_by_target ctx !! Moniker.encoded (moniker d)) filter.

Definition eval_pair_count (domain : Domain.t) (filter : option Node) (def_idx self_idx : nat) :
    M N :=
  items ← lift (domain_items domain def_idx ctx);
  count_filtered (fun node p => ev_pair rec node p.1 p.2 def_idx self_idx) filter
    (pair_iter items).

Definition eval_count (domain : Domain.t) (filter : option Node) (d : DefRecord)
    (def_idx self_idx : nat) : M (option N) :=
  match domain with
  | Domain.Ast =>
      items ← ast_domain_items def_idx ctx;
      match items with
      | inl error => _ ← record_ast_scope_error error; mret None
      | inr items => n ← count_items items filter self_idx; mret (Some n)
      end
  | Domain.Children kind_ =>
      match filter with
      | None => mret (Some (default 0%N (parent_counts ctx !! (def_idx, kind_))))
      | Some _ =>
          n ← count_children (fun cd => beq (kind cd) kind_) filter def_idx self_idx;
          mret (Some n)
      end
  | Domain.ChildrenByShape shape =>
      n ← count_children (fun cd => def_has_shape cd shape) filter def_idx self_idx;
      mret (Some n)
  | Domain.Descendants _ | Domain.SourceAncestorOutRefs | Domain.SourceAncestorInRefs =>
      n ← count_domain_items domain filter def_idx self_idx; mret (Some n)
  | Domain.Pairs inner => n ← eval_pair_count inner filter def_idx self_idx; mret (Some n)
  | Domain.Segments => n ← count_segments d filter; mret (Some n)
  | Domain.OutRefs | Domain.SourceOutRefs => n ← count_out_refs def_idx filter; mret (Some n)
  | Domain.InRefs | Domain.SourceInRefs => n ← count_in_refs d filter; mret (Some n)
  | Domain.TargetOutRefs | Domain.TargetInRefs => mret (Some 0%N)
  end.

(** An item of a domain opened by a reference [r]. *)
Definition eval_ref_item (filter : Node) (r : RefRecord) (item : DomainItem) : M NodeOutcome :=
  match item with
  | IAst _ => mret NotApplicable
  | IRef record => ev_ref rec filter record r
  | IDef (Some idx) def => ev_def rec filter def idx (source r)
  | IDef None def => eval_external_def_node filter def ctx
  | ISegment kind name => eval_node_segment filter kind name
  end.

Definition eval_count_ref (domain : Domain.t) (filter : option Node) (r : RefRecord) : M N :=
  items ← ref_domain_items domain r ctx;
  count_filtered (fun node item => eval_ref_item node r item) filter items.

(** ** Numbers *)

Definition eval_number_expr_def (expr : NumberExpr) (d : DefRecord) (def_idx self_idx : nat) :
    M (option f64) :=
  match expr with
  | NLiteral n => mret (Some n)
  | NProjection lhs => v ← lift (resolve_def_lhs lhs d ctx); mret (number_of v)
  | Count domain filter =>
      n ← eval_count domain filter d def_idx self_idx; mret (option_map F64.of_N n)
  | Aggregate kind domain expr percentile =>
      eval_aggregate kind domain expr percentile def_idx self_idx
  | Metric kind binding => eval_metric kind binding def_idx self_idx ctx
  | Entropy collection => eval_entropy collection def_idx self_idx
  | Size collection =>
      if collection_has_pair_binding collection then mret None
      else
        n ← eval_collection_size collection def_idx self_idx ctx;
        mret (Some (F64.of_nat n))
  end.

Definition eval_number_expr_ref (expr : NumberExpr) (r : RefRecord) : M (option f64) :=
  match expr with
  | NLiteral n => mret (Some n)
  | NProjection lhs => v ← resolve_ref_lhs lhs r ctx; mret (number_of v)
  | Count domain filter => n ← eval_count_ref domain filter r; mret (Some (F64.of_N n))
  | Aggregate _ _ _ _ | Metric _ _ | Entropy _ | Size _ => mret None
  end.

(** ** Atoms of a definition *)

(** The items that pass, up to the one of rank [n]: [.filter(..).nth(n)]. *)
Fixpoint nth_passing (filter : option Node) (self_idx : nat) (n : nat) (items : list DomainItem) :
    M (option DomainItem) :=
  match items with
  | [] => mret None
  | item :: items =>
      o ← match filter with
          | Some node => eval_domain_item_node item node self_idx
          | None => mret Pass
          end;
      if is_pass o then
        match n with O => mret (Some item) | S n => nth_passing filter self_idx n items end
      else nth_passing filter self_idx n items
  end.

Definition witness_index (op : Op.t) (limit : f64) : option nat :=
  match op with
  | Op.Le | Op.Eq =>
      if F64.leb F64.zero limit && F64.is_integral limit then Some (F64.floor_usize limit)
      else None
  | Op.Lt =>
      if F64.ltb F64.zero limit && F64.is_integral limit then Some (F64.floor_usize limit - 1)
      else None
  | _ => None
  end.

Definition ast_count_failure_position (filter : option Node) (op : Op.t) (rhs : Rhs)
    (def_idx self_idx : nat) : M (option Position) :=
  match rhs with
  | RNumber (NLiteral limit) =>
      match witness_index op limit with
      | None => mret None
      | Some n =>
          items ← ast_domain_items def_idx ctx;
          match items with
          | inl _ => mret None
          | inr items =>
              item ← nth_passing filter self_idx n items;
              mret (i ← item; item_position i)
          end
      end
  | _ => mret None
  end.

(** The comparison of two collections, as an outcome. *)
Definition collection_outcome (expected : bytes) (ok : bool) : AtomOutcome :=
  if ok then APass else AFail (bs "collection mismatch") expected None.

Definition lower_debug (op : Op.t) : bytes := map to_ascii_lowercase (Op.debug op).

(** The value of the left side of an atom. *)
Definition def_lhs_value (lhs : LhsExpr) (d : DefRecord) (def_idx self_idx : nat) :
    M (option Value.t) :=
  match lhs with
  | Attr lhs => lift (resolve_def_lhs lhs d ctx)
  | Number expr =>
      n ← eval_number_expr_def expr d def_idx self_idx; mret (option_map Value.Number n)
  | Mode collection => eval_mode collection def_idx self_idx
  | SegmentOf Def kind_ =>
      s ← lift (first_segment_name (moniker d) kind_); mret (Some (Value.Str s))
  | SegmentOf _ _ | LPairProjection _ | Collection _ => mret None
  end.

(** [apply_op_values] against an optional right side. *)
Definition compare_values (value : Value.t) (op : Op.t) (rhs : option Value.t) : M AtomOutcome :=
  match rhs with
  | Some rhs => lift (apply_op_values value op rhs)
  | None => mret ANotApplicable
  end.

Definition is_fail (o : AtomOutcome) : bool := match o with AFail _ _ _ => true | _ => false end.

(** The end of [eval_atom]: a failing count over the syntax tree points to the
    first node too many. *)
Definition locate_failure (lhs : LhsExpr) (op : Op.t) (rhs : Rhs) (def_idx self_idx : nat)
    (outcome : AtomOutcome) : M AtomOutcome :=
  match outcome, lhs with
  | AFail actual expected _, Number (Count Domain.Ast filter) =>
      p ← ast_count_failure_position filter op rhs def_idx self_idx;
      mret (match p with Some p => AFail actual expected (Some p) | None => outcome end)
  | _, _ => mret outcome
  end.

(** The part of [eval_atom] that compares values. *)
Definition eval_value_atom (atom : Atom) (d : DefRecord) (def_idx self_idx : nat) :
    M AtomOutcome :=
  let '(mk_atom lhs op rhs _ _) := atom in
  value ← def_lhs_value lhs d def_idx self_idx;
  match value with
  | None => mret ANotApplicable
  | Some value =>
      match rhs with
      | RProjection other =>
          rhs_val ← lift (resolve_def_lhs other d ctx); compare_values value op rhs_val
      | CurrentProjection other =>
          self ← lift (def_at (graph ctx) self_idx);
          rhs_val ← lift (resolve_def_lhs other self ctx);
          compare_values value op rhs_val
      | RNumber expr =>
          n ← eval_number_expr_def expr d def_idx self_idx;
          match n with
          | None => mret ANotApplicable
          | Some n =>
              outcome ← lift (apply_op_values value op (Value.Number n));
              locate_failure lhs op rhs def_idx self_idx outcome
          end
      | _ =>
          outcome ← lift (apply_op value atom);
          locate_failure lhs op rhs def_idx self_idx outcome
      end
  end.

Definition eval_atom (atom : Atom) (d : DefRecord) (def_idx self_idx : nat) : M AtomOutcome :=
  match atom with
  | mk_atom (Collection l) ((Op.Subset | Op.Prefix) as op) (RCollection r) _ _ =>
      if collection_has_pair_binding l || collection_has_pair_binding r then mret ANotApplicable
      else
        ok ← eval_collection_comparison l r def_idx self_idx ctx (is_prefix_op op);
        mret (collection_outcome (lower_debug op) ok)
  | _ => eval_value_atom atom d def_idx self_idx
  end.

(** ** Quantifiers of a definition *)

Definition fill_failure (item : DomainItem) (f : Failure) : Failure :=
  mk_failure (atom_raw f) (lhs_label f) (actual f) (expected f)
    (match failure_def_idx f with Some i => Some i | None => item_def_idx item end)
    (match failure_position f with Some p => Some p | None => item_position item end)
    (details f).

(** The [for &item in items] loop of [eval_def_domain_quantifier]: the counts and
    the first match, or the failure that ends it. *)
Fixpoint quantifier_loop (kind : QuantKind.t) (domain : Domain.t) (filter : Node) (self_idx : nat)
    (total passes : N) (first_match : option DomainItem) (items : list DomainItem) :
    M (NodeOutcome + (N * N * option DomainItem)) :=
  match items with
  | [] => mret (inr (total, passes, first_match))
  | item :: items =>
      let total := u32_add total 1 in
      outcome ← eval_domain_item_node item filter self_idx;
      match outcome with
      | Pass =>
          let first_match :=
            if bool_decide (domain = Domain.Ast)
            then match first_match with Some i => Some i | None => Some item end
            else first_match in
          quantifier_loop kind domain filter self_idx total (u32_add passes 1) first_match items
      | Fail_ failure =>
          match kind with
          | QuantKind.All => mret (inl (Fail_ (fill_failure item failure)))
          | _ => quantifier_loop kind domain filter self_idx total passes first_match items
          end
      | NotApplicable =>
          quantifier_loop kind domain filter self_idx total passes first_match items
      end
  end.

Definition eval_quantifier_items (kind : QuantKind.t) (domain : Domain.t) (filter : Node)
    (self_idx : nat) (items : list DomainItem) : M (NodeOutcome + (N * N)) :=
  counts ← quantifier_loop kind domain filter self_idx 0 0 None items;
  match counts with
  | inl outcome => mret (inl outcome)
  | inr (total, passes, first_match) =>
      match kind with
      | QuantKind.None =>
          if bool_decide (domain = Domain.Ast) && (0 <? passes)%N then
            match first_match with
            | None => lift Panic
            | Some item =>
                mret (inl (Fail_ (mk_failure
                  (bs "none(" ++ domain_debug_label domain ++ bs ")") (bs "none")
                  (show_N passes ++ bs "/" ++ show_N total) (bs "zero matches")
                  (item_def_idx item) (item_position item) None)))
            end
          else mret (inr (total, passes))
      | _ => mret (inr (total, passes))
      end
  end.

Definition eval_def_domain_quantifier (kind : QuantKind.t) (domain : Domain.t) (filter : Node)
    (def_idx self_idx : nat) : M (NodeOutcome + (N * N)) :=
  match domain with
  | Domain.Ast =>
      items ← ast_domain_items def_idx ctx;
      match items with
      | inr items => eval_quantifier_items kind domain filter self_idx items
      | inl error => _ ← record_ast_scope_error error; mret (inl NotApplicable)
      end
  | _ =>
      items ← lift (domain_items domain def_idx ctx);
      eval_quantifier_items kind domain filter self_idx items
  end.

Definition pair_quantifier_outcome (kind : QuantKind.t) (total passes : N) : NodeOutcome :=
  if quantifier_holds kind total passes then Pass
  else Fail_ (quantifier_failure kind (quant_label kind ++ bs "(pairs(...))")
                (bs ">= 1 match") total passes).

Definition eval_pair_quantifier (kind : QuantKind.t) (domain : Domain.t) (filter : Node)
    (def_idx self_idx : nat) : M NodeOutcome :=
  items ← lift (domain_items domain def_idx ctx);
  counts ← count_both (fun p => ev_pair rec filter p.1 p.2 def_idx self_idx) 0 0
             (pair_iter items);
  mret (pair_quantifier_outcome kind counts.1 counts.2).

(** The end of [eval_quantifier_def]. *)
Definition def_quantifier_outcome (kind : QuantKind.t) (total passes : N) : NodeOutcome :=
  if quantifier_holds kind total passes then Pass
  else Fail_ (quantifier_failure kind (quant_label kind ++ bs "(...)")
                (greater_equal ++ bs " 1 match") total passes).

Definition quantify_refs (kind : QuantKind.t) (filter : Node) (ref_idxs : list nat) :
    M NodeOutcome :=
  refs ← lift (map_res (ref_at (graph ctx)) ref_idxs);
  counts ← count_both (eval_ref_node filter) 0 0 refs;
  mret (def_quantifier_outcome kind counts.1 counts.2).

Definition eval_quantifier_def (kind : QuantKind.t) (domain : Domain.t) (filter : Node)
    (d : DefRecord) (def_idx self_idx : nat) : M NodeOutcome :=
  match domain with
  | Domain.Ast | Domain.Children _ | Domain.ChildrenByShape _ | Domain.Descendants _ =>
      counts ← eval_def_domain_quantifier kind domain filter def_idx self_idx;
      mret match counts with
           | inl outcome => outcome
           | inr (total, passes) => def_quantifier_outcome kind total passes
           end
  | Domain.Pairs inner => eval_pair_quantifier kind inner filter def_idx self_idx
  | Domain.Segments =>
      segs ← lift (segments_of (moniker d));
      counts ← count_both (fun seg => eval_node_segment filter seg.1 seg.2) 0 0 segs;
      mret (def_quantifier_outcome kind counts.1 counts.2)
  | Domain.OutRefs | Domain.SourceOutRefs =>
      quantify_refs kind filter (get_all def_idx (out_refs_by_source ctx))
  | Domain.SourceAncestorOutRefs =>
      idxs ← lift (ancestor_ref_indexes def_idx ctx true); quantify_refs kind filter idxs
  | Domain.InRefs | Domain.SourceInRefs =>
      quantify_refs kind filter (get_all (Moniker.encoded (moniker d)) (in_refs_by_target ctx))
  | Domain.SourceAncestorInRefs =>
      idxs ← lift (ancestor_ref_indexes def_idx ctx false); quantify_refs kind filter idxs
  | Domain.TargetOutRefs | Domain.TargetInRefs => mret (def_quantifier_outcome kind 0 0)
  end.

(** ** Requirements *)

Definition local_requirement_exists (pattern : bytes) : res Empty_set bool :=
  match Path.parse pattern with
  | Ok pattern => any_res (fun def => Path.matches pattern (moniker def)) (defs (graph ctx))
  | Err _ => mret false
  | Panic => Panic
  | NoFuel => NoFuel
  end.

Definition eval_require (pattern : bytes) (d : DefRecord) : M NodeOutcome :=
  rendered ← lift (render_requirement_pattern pattern d);
  match rendered with
  | None => mret NotApplicable
  | Some rendered =>
      found ← lift (local_requirement_exists rendered);
      let elsewhere :=
        match requirements ctx with
        | Some resolver => exists_ resolver rendered d (Uri.scheme (uri_cfg ctx))
        | None => false
        end in
      mret (if (found : bool) || elsewhere then Pass
            else Fail_ (mk_failure
                   (bs "require(" ++ [dquote] ++ pattern ++ [dquote] ++ bs ")") (bs "require")
                   (bs "missing") rendered None None None))
  end.

Definition eval_node_with_self (node : Node) (d : DefRecord) (def_idx self_idx : nat) :
    M NodeOutcome :=
  walk_node
    (fun a => eval_atom a d def_idx self_idx)
    (fun kind domain filter => eval_quantifier_def kind domain filter d def_idx self_idx)
    (fun pattern => eval_require pattern d)
    (fun layout => lift (EvalLayout.eval_vertical_layout layout def_idx ctx))
    node.

(** ** References *)

Definition eval_ref_lhs_expr_value (lhs : LhsExpr) (r : RefRecord) : M (option Value.t) :=
  match lhs with
  | Attr lhs => resolve_ref_lhs lhs r ctx
  | SegmentOf Def _ => mret None
  | SegmentOf Source kind_ =>
      source_def ← lift (def_at (graph ctx) (source r));
      s ← lift (first_segment_name (moniker source_def) kind_);
      mret (Some (Value.Str s))
  | SegmentOf Target kind_ =>
      s ← lift (first_segment_name (target r) kind_); mret (Some (Value.Str s))
  | Number expr => n ← eval_number_expr_ref expr r; mret (option_map Value.Number n)
  | Collection _ | Mode _ | LPairProjection _ => mret None
  end.

Definition eval_ref_value_atom (atom : Atom) (r current : RefRecord) : M AtomOutcome :=
  let '(mk_atom lhs op rhs _ _) := atom in
  value ← eval_ref_lhs_expr_value lhs r;
  match value with
  | None => mret ANotApplicable
  | Some value =>
      match rhs with
      | RProjection other =>
          rhs_val ← resolve_ref_lhs other r ctx; compare_values value op rhs_val
      | CurrentProjection other =>
          rhs_val ← resolve_ref_lhs other current ctx; compare_values value op rhs_val
      | RNumber expr =>
          n ← eval_number_expr_ref expr r; compare_values value op (option_map Value.Number n)
      | _ => lift (apply_op value atom)
      end
  end.

Definition eval_ref_atom (atom : Atom) (r current : RefRecord) : M AtomOutcome :=
  match atom with
  | mk_atom (Collection left_) ((Op.Subset | Op.Prefix) as op) (RCollection right_) _ _ =>
      if collection_has_pair_binding left_ || collection_has_pair_binding right_
      then mret ANotApplicable
      else
        ok ← eval_collection_comparison left_ right_ (source r) (source current) ctx
               (is_prefix_op op);
        mret (collection_outcome (Op.debug op) ok)
  | _ => eval_ref_value_atom atom r current
  end.

Definition ref_any_failure (domain : Domain.t) (matched : nat) : NodeOutcome :=
  Fail_ (mk_failure (bs "any(" ++ domain_debug_label domain ++ bs ")") (bs "any")
           (show_nat matched ++ bs " matches") (bs "at least one") None None None).

(** The [for item in items] loop of [eval_quantifier_ref] and what follows it. *)
Fixpoint ref_quantifier_loop (kind : QuantKind.t) (domain : Domain.t) (filter : Node)
    (r : RefRecord) (matched : nat) (items : list DomainItem) : M NodeOutcome :=
  match items with
  | [] =>
      mret match kind with
           | QuantKind.Any => ref_any_failure domain matched
           | QuantKind.All => Pass
           | QuantKind.None =>
               if matched =? 0 then Pass
               else Fail_ (mk_failure (bs "none(" ++ domain_debug_label domain ++ bs ")")
                      (bs "none") (show_nat matched ++ bs " matches") (bs "0 matches")
                      None None None)
           end
  | item :: items =>
      outcome ← eval_ref_item filter r item;
      match outcome, kind with
      | Pass, QuantKind.Any => mret Pass
      | Pass, _ => ref_quantifier_loop kind domain filter r (S matched) items
      | Fail_ _, QuantKind.All => mret outcome
      | _, _ => ref_quantifier_loop kind domain filter r matched items
      end
  end.

Definition eval_quantifier_ref (kind : QuantKind.t) (domain : Domain.t) (filter : Node)
    (r : RefRecord) : M NodeOutcome :=
  items ← ref_domain_items domain r ctx;
  match items with
  | [] =>
      mret match kind with
           | QuantKind.All | QuantKind.None => Pass
           | QuantKind.Any => ref_any_failure domain 0
           end
  | _ => ref_quantifier_loop kind domain filter r 0 items
  end.

Definition eval_ref_node_with_current (node : Node) (r current : RefRecord) : M NodeOutcome :=
  walk_node
    (fun a => eval_ref_atom a r current)
    (fun kind domain filter => eval_quantifier_ref kind domain filter r)
    no_require no_layout node.

(** ** Pairs *)

Definition eval_pair_number_expr (expr : NumberExpr) (a b : DomainItem) (def_idx self_idx : nat) :
    M (option f64) :=
  match expr with
  | Size collection =>
      n ← eval_pair_collection_size collection (mk_pair_scope a b def_idx) ctx;
      mret (option_map F64.of_nat n)
  | _ =>
      d ← lift (def_at (graph ctx) def_idx);
      eval_number_expr_def expr d def_idx self_idx
  end.

Definition pair_projection_value (projection : PairProjection) (a b : DomainItem) :
    M (option Value.t) :=
  project_lhs_value (match pp_side projection with A => a | B => b end) (pp_lhs projection) ctx.

Definition owner_lhs_value (lhs : LhsExpr) (a b : DomainItem) (def_idx self_idx : nat) :
    M (option Value.t) :=
  owner ← lift (def_at (graph ctx) def_idx);
  match lhs with
  | Attr lhs => lift (resolve_def_lhs lhs owner ctx)
  | Number expr =>
      n ← eval_pair_number_expr expr a b def_idx self_idx; mret (option_map Value.Number n)
  | Mode collection => eval_mode collection def_idx self_idx
  | _ => mret None
  end.

Definition pair_lhs_value (lhs : LhsExpr) (a b : DomainItem) (def_idx self_idx : nat) :
    M (option Value.t) :=
  match lhs with
  | LPairProjection projection => pair_projection_value projection a b
  | _ => owner_lhs_value lhs a b def_idx self_idx
  end.

Definition pair_rhs_value (rhs : Rhs) (a b : DomainItem) (def_idx self_idx : nat) :
    M (option Value.t) :=
  match rhs with
  | RPairProjection projection => pair_projection_value projection a b
  | RProjection lhs =>
      d ← lift (def_at (graph ctx) def_idx); lift (resolve_def_lhs lhs d ctx)
  | RNumber expr =>
      n ← eval_pair_number_expr expr a b def_idx self_idx; mret (option_map Value.Number n)
  | _ => mret None
  end.

Definition eval_pair_value_atom (atom : Atom) (a b : DomainItem) (def_idx self_idx : nat) :
    M AtomOutcome :=
  let '(mk_atom lhs op rhs _ _) := atom in
  value ← pair_lhs_value lhs a b def_idx self_idx;
  match value with
  | None => mret ANotApplicable
  | Some value =>
      rhs_val ← pair_rhs_value rhs a b def_idx self_idx;
      match rhs_val with
      | Some rhs_val => lift (apply_op_values value op rhs_val)
      | None => lift (apply_op value atom)
      end
  end.

Definition eval_pair_atom (atom : Atom) (a b : DomainItem) (def_idx self_idx : nat) :
    M AtomOutcome :=
  match atom with
  | mk_atom (Collection l) ((Op.Subset | Op.Prefix) as op) (RCollection r) _ _ =>
      ok ← eval_pair_collection_comparison l r (mk_pair_scope a b def_idx) ctx (is_prefix_op op);
      mret match ok with
           | Some ok => collection_outcome (lower_debug op) ok
           | None => ANotApplicable
           end
  | _ => eval_pair_value_atom atom a b def_idx self_idx
  end.

Definition eval_pair_node (node : Node) (a b : DomainItem) (def_idx self_idx : nat) :
    M NodeOutcome :=
  walk_node (fun atom => eval_pair_atom atom a b def_idx self_idx)
    no_quantifier no_require no_layout node.

End bodies.

(** ** The knot *)

Definition no_evaluators : evaluators :=
  mk_evaluators (fun _ _ _ _ => lift NoFuel) (fun _ _ _ => lift NoFuel)
    (fun _ _ _ _ _ => lift NoFuel) (fun _ _ _ _ => lift NoFuel) (fun _ _ => lift NoFuel).

Fixpoint evaluate (fuel : nat) (ctx : EvalCtx) : evaluators :=
  match fuel with
  | O => no_evaluators
  | S fuel =>
      let rec := evaluate fuel ctx in
      mk_evaluators (eval_node_with_self rec ctx) (eval_ref_node_with_current rec ctx)
        (eval_pair_node rec ctx) (eval_number_expr_def rec ctx) (eval_number_expr_ref rec ctx)
  end.

(** The filters and expressions nested in a tree. *)
Fixpoint height (n : Node) : nat :=
  match n with
  | NAtom (mk_atom lhs _ rhs _ _) => S (Nat.max (lhs_height lhs) (rhs_height rhs))
  | And l | Or l => S (list_max (map height l))
  | Not n => S (height n)
  | Implies l r => S (Nat.max (height l) (height r))
  | Require_ _ | NVerticalLayout _ => 1
  | Quantifier _ _ f => S (height f)
  end
with lhs_height (l : LhsExpr) : nat :=
  match l with
  | Number e => number_height e
  | Mode v => domain_value_height v
  | _ => 0
  end
with rhs_height (r : Rhs) : nat :=
  match r with RNumber e => number_height e | _ => 0 end
with number_height (e : NumberExpr) : nat :=
  match e with
  | Count _ f => S (match f with Some f => height f | None => 0 end)
  | Aggregate _ _ e _ => S (number_height e)
  | Entropy v => domain_value_height v
  | _ => 1
  end
with domain_value_height (v : DomainValueExpr) : nat :=
  match v with
  | mk_domain_value _ e f =>
      S (Nat.max (match e with VNumber e => number_height e | _ => 0 end)
                 (match f with Some f => height f | None => 0 end))
  end.

Definition eval_node (node : Node) (d : DefRecord) (def_idx : nat) (ctx : EvalCtx) :
    M NodeOutcome :=
  ev_def (evaluate (height node) ctx) node d def_idx def_idx.

Definition eval_reference (node : Node) (r : RefRecord) (ctx : EvalCtx) : M NodeOutcome :=
  ev_ref (evaluate (height node) ctx) node r r.

End eval.
End Eval.
