(* ===== verification/EvalDet.v ===== *)
(** The indexes that the evaluator builds before it evaluates the rules of a
    file say what the records of the graph say.

    A logic for the evaluator. [det m Q] says that the computation [m] returns a
    value of [Q], without a panic and within its fuel, and that neither the
    value nor the first error it meets in the syntax tree depends on what the
    caches hold. Below it, the domains and the projections of a well-formed
    graph.

    What the domains and the projections yield on a well-formed graph: items of
    the graph, values that name valid monikers, and no panic. *)

From stdpp Require Import sorting.
From S2P Require Import Prelude.
From S2P Require Import RustStr.
From S2P Require Import Shape.
From S2P Require Import Moniker.
From S2P Require Import MonikerFacts.
From S2P Require Import CodeGraph.
From S2P Require Import CodeGraphFacts.
From S2P Require Import StrFacts.
From S2P Require Import Path.
From S2P Require Import PathFacts.
From S2P Require Import DslAst.
From S2P Require Import DslTheorems.
From S2P Require Import Syntax.
From S2P Require Import Suppress.
From S2P Require Import EvalCore.
From S2P Require Import EvalValue.
From S2P Require Import EvalDomain.
From S2P Require Import EvalProject.
From S2P Require Import EvalMetrics.

Module EvalIndexFacts.
Import CodeGraph CodeGraphFacts Lines EvalCore EvalMetrics.

(** ** Buckets *)
Section buckets.
Context `{Countable K} {A V : Type} (key : A -> option (K * V)).

(** The values that the elements of a list have under a key. *)
Definition bucket (k : K) (l : list A) : list V :=
  omap (fun x => match key x with
                 | Some (k', v) => if decide (k' = k) then Some v else None
                 | None => None
                 end) l.

Definition push (m : gmap K (list V)) (x : A) : gmap K (list V) :=
  match key x with Some (k, v) => push_at k v m | None => m end.

(** A map built by pushes holds a bucket per key, and none that is empty. *)
Lemma push_fold l m k :
  (forall k, m !! k <> Some []) ->
  foldl push m l !! k =
    match get_all k m ++ bucket k l with [] => None | vs => Some vs end.
Proof.
  revert m. induction l as [| x l IH]; intros m Hm; cbn [foldl].
  - unfold get_all. cbn. rewrite app_nil_r. specialize (Hm k).
    destruct (m !! k) as [[| v vs] |]; done.
  - assert (Hp : forall k, push m x !! k <> Some []).
    { intros k'. unfold push, push_at. destruct (key x) as [[k0 v] |]; [| apply Hm].
      destruct (decide (k0 = k')) as [-> | Hne].
      - rewrite lookup_insert_eq. by destruct (default [] (m !! k')).
      - by rewrite lookup_insert_ne. }
    rewrite (IH _ Hp). f_equal. unfold bucket. cbn [omap list_omap].
    unfold push, push_at, get_all. destruct (key x) as [[k0 v] |]; [| done].
    destruct (decide (k0 = k)) as [-> | Hne].
    + rewrite lookup_insert_eq. cbn. by rewrite <- app_assoc.
    + by rewrite lookup_insert_ne.
Qed.

Lemma push_fold_get l k : get_all k (foldl push ∅ l) = bucket k l.
Proof.
  unfold get_all at 1. rewrite push_fold by (intros ?; by rewrite lookup_empty).
  unfold get_all. rewrite lookup_empty. cbn. by destruct (bucket k l).
Qed.

Lemma push_fold_lookup l k :
  foldl push ∅ l !! k = match bucket k l with [] => None | vs => Some vs end.
Proof.
  rewrite push_fold by (intros ?; by rewrite lookup_empty).
  unfold get_all. by rewrite lookup_empty.
Qed.

End buckets.

Lemma elem_of_enumerate {A} (l : list A) i x : (i, x) ∈ enumerate l <-> l !! i = Some x.
Proof.
  unfold enumerate. rewrite elem_of_lookup_imap. split.
  - by intros (j & y & [= -> ->] & Hy).
  - intros Hx. by exists i, x.
Qed.

(** ** The indexes *)

Definition child_key (e : nat * DefRecord) : option (nat * nat) :=
  option_map (fun p => (p, e.1)) (parent e.2).
Definition out_key (e : nat * RefRecord) : option (nat * nat) := Some (source e.2, e.1).
Definition in_key (e : nat * RefRecord) : option (bytes * nat) :=
  Some (Moniker.encoded (target e.2), e.1).

Definition children_of (g : CodeGraph.t) (i : nat) : list nat :=
  bucket child_key i (enumerate (defs g)).
Definition refs_from (g : CodeGraph.t) (i : nat) : list nat :=
  bucket out_key i (enumerate (refs g)).
Definition refs_to (g : CodeGraph.t) (m : bytes) : list nat :=
  bucket in_key m (enumerate (refs g)).

Lemma children_fold g : children_by_parent_of g = foldl (push child_key) ∅ (enumerate (defs g)).
Proof.
  unfold children_by_parent_of. apply foldl_pointwise. intros m e.
  unfold push, child_key. by destruct (parent e.2).
Qed.

Lemma children_lookup g i :
  children_by_parent_of g !! i = match children_of g i with [] => None | l => Some l end.
Proof. rewrite children_fold. apply push_fold_lookup. Qed.

Lemma children_get g i : get_all i (children_by_parent_of g) = children_of g i.
Proof. rewrite children_fold. apply push_fold_get. Qed.

Lemma out_lookup g i :
  out_refs_by_source_of g !! i = match refs_from g i with [] => None | l => Some l end.
Proof. apply (push_fold_lookup out_key). Qed.

Lemma out_get g i : get_all i (out_refs_by_source_of g) = refs_from g i.
Proof. apply (push_fold_get out_key). Qed.

Lemma in_lookup g m :
  in_refs_by_target_of g !! m = match refs_to g m with [] => None | l => Some l end.
Proof. apply (push_fold_lookup in_key). Qed.

Lemma in_get g m : get_all m (in_refs_by_target_of g) = refs_to g m.
Proof. apply (push_fold_get in_key). Qed.

Lemma elem_of_bucket `{Countable K} {A V} (key : A -> option (K * V)) k l v :
  v ∈ bucket key k l <-> exists x, x ∈ l /\ key x = Some (k, v).
Proof.
  unfold bucket. rewrite list_elem_of_omap. split.
  - intros (x & Hx & Hk). exists x. split; [done |].
    destruct (key x) as [[k' v'] |]; [| done]. destruct (decide (k' = k)); [| done]. congruence.
  - intros (x & Hx & Hk). exists x. split; [done |]. rewrite Hk. by rewrite decide_True.
Qed.

Lemma elem_of_children g i j :
  j ∈ children_of g i <-> exists d, defs g !! j = Some d /\ parent d = Some i.
Proof.
  unfold children_of. rewrite elem_of_bucket. split.
  - intros ([j' d] & Hin%elem_of_enumerate & Hk). exists d.
    unfold child_key in Hk. cbn in *. destruct (parent d); cbn in Hk; [| done]. by simplify_eq.
  - intros (d & Hd & Hp). exists (j, d). split; [by apply elem_of_enumerate |].
    unfold child_key. cbn. by rewrite Hp.
Qed.

Lemma elem_of_refs_from g i j :
  j ∈ refs_from g i <-> exists r, refs g !! j = Some r /\ source r = i.
Proof.
  unfold refs_from. rewrite elem_of_bucket. split.
  - intros ([j' r] & Hin%elem_of_enumerate & [= <- <-]). eauto.
  - intros (r & Hr & <-). exists (j, r). split; [by apply elem_of_enumerate | done].
Qed.

Lemma elem_of_refs_to g m j :
  j ∈ refs_to g m <-> exists r, refs g !! j = Some r /\ Moniker.encoded (target r) = m.
Proof.
  unfold refs_to. rewrite elem_of_bucket. split.
  - intros ([j' r] & Hin%elem_of_enumerate & [= <- <-]). eauto.
  - intros (r & Hr & <-). exists (j, r). split; [by apply elem_of_enumerate | done].
Qed.

(** ** The count of the children of a kind *)

Definition kind_is (k : bytes) (d : DefRecord) : bool := beq (kind d) k.

Lemma u32_add_as_u32 n m : u32_add (as_u32 n) (as_u32 m) = as_u32 (n + m).
Proof. unfold u32_add, as_u32. rewrite <- N.Div0.add_mod. f_equal. lia. Qed.

Lemma u32_succ n : u32_add (as_u32 n) 1 = as_u32 (n + 1).
Proof. apply (u32_add_as_u32 n 1). Qed.

Definition is_child (i : nat) (k : bytes) (d : DefRecord) : bool :=
  bool_decide (parent d = Some i) && kind_is k d.

Lemma parent_count_step_at (m : gmap (nat * bytes) N) d i k n :
  default 0%N (m !! (i, k)) = as_u32 n ->
  default 0%N (parent_count_step m d !! (i, k)) = as_u32 (n + if is_child i k d then 1 else 0).
Proof.
  intros Hm. unfold parent_count_step, is_child, kind_is. destruct (parent d) as [p |].
  2: { rewrite bool_decide_false by done. cbn [andb]. by rewrite Nat.add_0_r. }
  destruct (decide ((p, kind d) = (i, k))) as [[= -> ->] | Hne].
  - rewrite bool_decide_true, beq_refl by done. cbn [andb].
    rewrite lookup_insert_eq. cbn [default from_option]. by rewrite Hm, u32_succ.
  - rewrite lookup_insert_ne by done.
    destruct (bool_decide (Some p = Some i) && beq (kind d) k) eqn:Hb.
    + apply andb_prop in Hb as [Hb1%bool_decide_eq_true Hb2%beq_true]. congruence.
    + by rewrite Nat.add_0_r.
Qed.

Lemma parent_counts_fold ds m i k n :
  default 0%N (m !! (i, k)) = as_u32 n ->
  default 0%N (foldl parent_count_step m ds !! (i, k)) =
  as_u32 (n + length (List.filter (is_child i k) ds)).
Proof.
  revert m n. induction ds as [| d ds IH]; intros m n Hm; cbn [foldl List.filter].
  - by rewrite Nat.add_0_r.
  - rewrite (IH _ _ (parent_count_step_at m d i k n Hm)). f_equal.
    destruct (is_child i k d); cbn [length]; lia.
Qed.

Lemma parent_counts_exact g i k :
  default 0%N (parent_counts_by_kind g !! (i, k)) =
  as_u32 (length (List.filter (is_child i k) (defs g))).
Proof. unfold parent_counts_by_kind. rewrite (parent_counts_fold _ _ _ _ 0); [done |]. done. Qed.

(** ** The two ways to index monikers *)

Lemma enumerate_snoc {A} (l : list A) x : enumerate (l ++ [x]) = enumerate l ++ [(length l, x)].
Proof. unfold enumerate. rewrite imap_app. cbn. by rewrite Nat.add_0_r. Qed.

Lemma last_index_map_lookup g m :
  last_index_map g !! Moniker.encoded m = last_index (defs g) m.
Proof.
  unfold last_index_map. generalize (defs g). intros ds.
  induction ds as [| d ds IH] using rev_ind; [done |].
  rewrite enumerate_snoc, foldl_app, last_index_snoc. cbn [foldl fst snd].
  destruct (decide (moniker d = m)) as [<- | Hne].
  - by rewrite lookup_insert_eq.
  - rewrite lookup_insert_ne; [done |]. intros Heq. apply Hne. destruct (moniker d), m. cbn in Heq.
    by subst.
Qed.

(** On distinct monikers, keeping the first or the last makes no difference. *)
Lemma first_is_last g : NoDup (moniker <$> defs g) -> first_index_map g = last_index_map g.
Proof.
  unfold first_index_map, last_index_map. generalize (defs g). intros ds.
  induction ds as [| d ds IH] using rev_ind; intros Hnd; [done |].
  rewrite enumerate_snoc, !foldl_app. cbn [foldl fst snd].
  rewrite fmap_app in Hnd. apply NoDup_app in Hnd as (Hnd & Hdis & _).
  rewrite (IH Hnd). set (m := foldl _ _ _). destruct (m !! _) as [j |] eqn:Hm; [| done].
  exfalso. subst m. pose proof (last_index_map_lookup (from_records ds []) (moniker d)) as Hl.
  unfold last_index_map in Hl. cbn [from_records defs] in Hl. rewrite Hm in Hl. symmetry in Hl.
  apply (Hdis (moniker d)); [| cbn; by left].
  apply last_index_is_Some. by exists j.
Qed.

End EvalIndexFacts.

Module EvalDet.
Import CodeGraph Lines EvalCore EvalValue EvalWalk EvalDomain EvalProject EvalMetrics.
Import EvalIndexFacts AstFacts MonikerFacts BindFacts CodeGraphFacts.

Create HintDb eval discriminated.

(** ** Loops that may panic *)

Lemma post_filter_map {E A B} (f : A -> res E (option B)) (P : A -> Prop) (Q : B -> Prop) l :
  Forall P l -> (forall x, P x -> post (f x) (opt_all Q)) ->
  post (filter_map_res f l) (Forall Q).
Proof.
  intros Hl Hf. induction Hl as [| x l Hx Hl IH]; cbn [filter_map_res]; [by constructor |].
  eapply post_bind; [by apply Hf |]. intros o Ho. eapply post_bind; [apply IH |].
  intros rest Hr. destruct o; [by constructor | done].
Qed.

Lemma post_map {E A B} (f : A -> res E B) (P : A -> Prop) (Q : B -> Prop) l :
  Forall P l -> (forall x, P x -> post (f x) Q) -> post (map_res f l) (Forall Q).
Proof.
  intros Hl Hf. eapply post_filter_map; [done |]. intros x Hx.
  eapply post_bind; [by apply Hf |]. done.
Qed.

Lemma post_empty {A} (m : res Empty_set A) Q : post m Q -> exists v, m = Ok v /\ Q v.
Proof. destruct m; cbn; [eauto | done..]. Qed.

Lemma post_impl {E A} (m : res E A) (P Q : A -> Prop) :
  (forall a, P a -> Q a) -> post m P -> post m Q.
Proof. intros. by eapply post_mono. Qed.

(** ** Valid monikers *)

Section monikers.
Context {E : Type}.

Lemma as_view_segments m p segs :
  Moniker.valid m p segs -> segments_of (E:=E) m = Ok segs.
Proof.
  intros H. unfold segments_of. by rewrite (as_view_valid _ _ _ H), ret_bind,
    (view_segments_valid _ _ _ H).
Qed.

Lemma segments_post m : valid_moniker m -> post (segments_of (E:=E) m) (fun _ => True).
Proof. intros (p & segs & H). by rewrite (as_view_segments _ _ _ H). Qed.

(** A function of the segments of a moniker. *)
Lemma segments_map_post {A} m (f : list Moniker.Segment -> A) (Q : A -> Prop) :
  valid_moniker m -> (forall segs, Q (f segs)) ->
  post (segs ← segments_of (E:=E) m; mret (f segs)) Q.
Proof. intros H HQ. eapply post_bind; [by apply segments_post |]. intros segs _. apply HQ. Qed.

Lemma parent_post m : valid_moniker m -> post (Moniker.parent (E:=E) m) (opt_all valid_moniker).
Proof.
  intros (p & segs & H). unfold Moniker.parent.
  rewrite (as_view_valid _ _ _ H), ret_bind, (segment_count_valid _ _ _ H), ret_bind.
  case_match; [done |]. rewrite (from_view_valid _ _ _ H), ret_bind.
  unfold Moniker.truncate. cbn [Moniker.project Moniker.segments].
  rewrite (build_valid _ _ _ (valid_take _ _ _ _ H)), ret_bind. cbn.
  eexists _, _. by eapply valid_take.
Qed.

Lemma ancestor_post m m' :
  valid_moniker m -> valid_moniker m' -> post (Moniker.is_ancestor_of (E:=E) m m') (fun _ => True).
Proof.
  intros (p & s & H) (p' & s' & H').
  destruct (is_ancestor_of_valid (E:=E) _ _ _ _ _ _ H H') as (b & -> & _). done.
Qed.

Lemma bind_match_post m m' :
  valid_moniker m -> valid_moniker m' -> post (Moniker.bind_match (E:=E) m m') (fun _ => True).
Proof.
  intros (p & s & H) (p' & s' & H').
  destruct (bind_match_valid (E:=E) _ _ _ _ _ _ H H') as (b & -> & _). done.
Qed.

Lemma matches_post {RE : RegexEngine} pat m :
  valid_moniker m -> post (Path.matches (E:=E) pat m) (fun _ => True).
Proof.
  intros (p & s & H). unfold Path.matches.
  by rewrite (as_view_valid _ _ _ H), ret_bind, (view_segments_valid _ _ _ H).
Qed.

Lemma last_kind_post m : valid_moniker m -> post (Moniker.last_kind (E:=E) m) (fun _ => True).
Proof.
  intros (p & s & H). unfold Moniker.last_kind.
  by rewrite (as_view_valid _ _ _ H), ret_bind, (view_segments_valid _ _ _ H).
Qed.

Lemma name_of_post m : valid_moniker m -> post (name_of (E:=E) m) (fun _ => True).
Proof. intros H. by apply segments_map_post. Qed.

Lemma def_name_post d : valid_moniker (moniker d) ->
  post (def_name (E:=E) d) (opt_all (fun n => from_utf8 n = true)).
Proof.
  intros H. apply segments_map_post; [done |]. intros segs.
  destruct (last segs) as [s |]; cbn; [| done]. unfold utf8. by case_match.
Qed.

Lemma last_segment_kind_post m :
  valid_moniker m -> post (last_segment_kind (E:=E) m) (fun _ => True).
Proof. intros H. by apply segments_map_post. Qed.

Lemma shape_of_last_post m :
  valid_moniker m -> post (shape_of_last_segment (E:=E) m) (fun _ => True).
Proof. intros H. by apply segments_map_post. Qed.

Lemma first_segment_name_post m k :
  valid_moniker m -> post (first_segment_name (E:=E) m k) (fun _ => True).
Proof. intros H. by apply segments_map_post. Qed.

End monikers.

#[export] Hint Resolve segments_post parent_post ancestor_post bind_match_post matches_post
  last_kind_post name_of_post def_name_post last_segment_kind_post shape_of_last_post
  first_segment_name_post : eval.

(** ** Contexts *)

(** The indexes are those of the graph, which is well formed; so are the
    definitions that the resolver offers. *)
Record good_ctx {TS : TreeSitter} (ctx : EvalCtx) : Prop := mk_good {
  ctx_wf : wf (abs (graph ctx));
  ctx_counts : parent_counts ctx = parent_counts_by_kind (graph ctx);
  ctx_children : children_by_parent ctx = children_by_parent_of (graph ctx);
  ctx_out : out_refs_by_source ctx = out_refs_by_source_of (graph ctx);
  ctx_in : in_refs_by_target ctx = in_refs_by_target_of (graph ctx);
  ctx_resolver r owner inner :
    requirements ctx = Some r ->
    Forall (fun d => valid_moniker (moniker d)) (descendant_defs r owner inner)
}.

Section det.
Context {TS : TreeSitter} (ctx : EvalCtx).
Abbreviation M := (ST EvalState Empty_set).

(** The caches hold what they would be filled with. *)
Definition coherent_state (s : EvalState) : Prop :=
  match def_index s with None => True | Some i => i = last_index_map (graph ctx) end /\
  (forall i r, ast_items_by_def s !! i = Some r -> ast_items_of i ctx = Ok r).

Definition first_error (a b : option AstScopeError) : option AstScopeError :=
  match a with Some e => Some e | None => b end.

Definition runs {A} (m : M A) (v : A) (e : option AstScopeError) : Prop :=
  forall s, coherent_state s -> exists s', m s = (Ok v, s') /\ coherent_state s' /\
    ast_scope_error s' = first_error (ast_scope_error s) e.

Definition det {A} (m : M A) (Q : A -> Prop) : Prop := exists v e, Q v /\ runs m v e.

Lemma det_ret {A} (a : A) (Q : A -> Prop) : Q a -> det (mret a) Q.
Proof.
  intros HQ. exists a, None. split; [done |]. intros s Hs. exists s. split_and!; [done.. |].
  by destruct (ast_scope_error s).
Qed.

Lemma det_bind {A B} (m : M A) (k : A -> M B) (P : A -> Prop) (Q : B -> Prop) :
  det m P -> (forall a, P a -> det (k a) Q) -> det (m ≫= k) Q.
Proof.
  intros (a & e & HP & Hm) Hk. destruct (Hk a HP) as (b & e' & HQ & Hb).
  exists b, (first_error e e'). split; [done |]. intros s Hs.
  destruct (Hm s Hs) as (s1 & H1 & Hs1 & He1). destruct (Hb s1 Hs1) as (s2 & H2 & Hs2 & He2).
  exists s2. split_and!; [| done |].
  - by rewrite (st_bind_Ok _ _ _ _ _ H1).
  - rewrite He2, He1. by destruct (ast_scope_error s).
Qed.

Lemma det_lift {A} (m : res Empty_set A) (Q : A -> Prop) : post m Q -> det (lift m) Q.
Proof. intros (v & -> & HQ)%post_empty. by apply (det_ret v Q). Qed.

Lemma det_mono {A} (m : M A) (P Q : A -> Prop) : det m P -> (forall a, P a -> Q a) -> det m Q.
Proof. intros (v & e & HP & Hm) HPQ. exists v, e. split; [by apply HPQ | done]. Qed.

Lemma first_error_none e : e = first_error e None.
Proof. by destruct e. Qed.

(** Binding a computation that touches no cell. *)
Lemma det_bind_lift {A B} (m : res Empty_set A) (k : A -> M B) (P : A -> Prop) (Q : B -> Prop) :
  post m P -> (forall a, P a -> det (k a) Q) -> det (lift m ≫= k) Q.
Proof. intros Hm. apply det_bind. by apply det_lift. Qed.

Lemma det_record e : det (record_ast_scope_error e) (fun _ => True).
Proof.
  exists (), (Some e). split; [done |]. intros s Hs. eexists. split; [done |].
  destruct s as [[x |] items n i]; done.
Qed.

(** ** The two caches *)

Section caches.
Context (Hg : good_ctx ctx).

Lemma index_in_graph m i :
  last_index_map (graph ctx) !! Moniker.encoded m = Some i -> i < length (defs (graph ctx)).
Proof.
  rewrite last_index_map_lookup. intros (d & Hd & _)%last_index_Some. by eapply lookup_lt_Some.
Qed.

Lemma det_local_index m :
  det (local_def_index m ctx) (opt_all (fun i => i < length (defs (graph ctx)))).
Proof.
  exists (last_index_map (graph ctx) !! Moniker.encoded m), None. split.
  { destruct (_ !! _) as [i |] eqn:Hi; [by eapply index_in_graph | done]. }
  intros s [Hi Hs]. unfold local_def_index. st_run. destruct (def_index s) as [i |] eqn:E.
  - subst i. exists s. split_and!; [done | | apply first_error_none].
    split; [by rewrite E | done].
  - eexists. split_and!; [done | done | apply first_error_none].
Qed.

(** The index finds the definition of a moniker. *)
Definition found (m : Moniker.t) (o : option nat) : Prop :=
  match o with
  | Some i => exists d, defs (graph ctx) !! i = Some d /\ moniker d = m
  | None => m ∉ moniker <$> defs (graph ctx)
  end.

Lemma det_find_def_found m : det (find_def_idx m ctx) (found m).
Proof.
  assert (Hf : first_index_map (graph ctx) = last_index_map (graph ctx)).
  { apply first_is_last. apply (wf_nodup _ (ctx_wf _ Hg)). }
  exists (last_index_map (graph ctx) !! Moniker.encoded m), None. split.
  { rewrite last_index_map_lookup. destruct (last_index _ _) as [i |] eqn:Hi.
    - by apply last_index_Some in Hi.
    - by apply last_index_None in Hi. }
  intros s [Hi Hs]. unfold find_def_idx. st_run. destruct (def_index s) as [i |] eqn:E.
  - subst i. exists s. split_and!; [done | | apply first_error_none].
    split; [by rewrite E | done].
  - rewrite Hf. eexists. split_and!; [done | done | apply first_error_none].
Qed.

Lemma det_find_def m :
  det (find_def_idx m ctx) (opt_all (fun i => i < length (defs (graph ctx)))).
Proof.
  eapply det_mono; [apply det_find_def_found |].
  intros [i |]; [| done]. intros (d & Hd & _). by eapply lookup_lt_Some.
Qed.

Lemma det_ast_items i (Q : AstScopeError + list DomainItem -> Prop) :
  post (ast_items_of i ctx) Q -> det (ast_domain_items i ctx) Q.
Proof.
  intros (r & Hr & HQ)%post_empty. exists r, None. split; [done |].
  intros s [Hi Hs]. unfold ast_domain_items. st_run.
  destruct (ast_items_by_def s !! i) as [c |] eqn:Hc.
  { exists s. rewrite (Ok_inj _ _ (eq_trans (eq_sym (Hs _ _ Hc)) Hr)).
    split_and!; [done | done | apply first_error_none]. }
  rewrite Hr. destruct (retained_after _ r) as [n |].
  2: { exists s. split_and!; [done | done | apply first_error_none]. }
  eexists. split_and!; [done | | apply first_error_none]. split; [done |].
  intros j r'. cbn [set_ast_items ast_items_by_def].
  intros [[<- <-] | [_ ?]]%lookup_insert_Some; [done | by apply Hs].
Qed.

End caches.
End det.

End EvalDet.

Module EvalScope.
Import CodeGraph Lines EvalCore EvalValue EvalWalk EvalDomain EvalProject EvalMetrics.
Import EvalIndexFacts AstFacts CodeGraphFacts EvalDet.

Definition value_ok (v : Value.t) : Prop :=
  match v with Value.Moniker m => valid_moniker m | _ => True end.

Section scope.
Context {TS : TreeSitter} {TL : TreeSitterLaws TS} (ctx : EvalCtx) (Hg : good_ctx ctx).

Definition in_defs (i : nat) : Prop := i < length (defs (graph ctx)).
Definition in_refs_range (i : nat) : Prop := i < length (refs (graph ctx)).
(** The definition that a failure is reported on exists. *)
Definition outcome_ok (o : NodeOutcome) : Prop :=
  match o with Fail_ f => opt_all in_defs (failure_def_idx f) | _ => True end.

Definition def_in (d : DefRecord) : Prop := d ∈ defs (graph ctx).
Definition ref_in (r : RefRecord) : Prop := r ∈ refs (graph ctx).

Definition item_ok (item : DomainItem) : Prop :=
  match item with
  | IDef (Some i) d => defs (graph ctx) !! i = Some d
  | IDef None d => valid_moniker (moniker d)
  | IRef r => ref_in r
  | IAst _ | ISegment _ _ => True
  end.

(** ** Records *)

Lemma def_at_post {E} i : in_defs i ->
  post (def_at (E:=E) (graph ctx) i) (fun d => defs (graph ctx) !! i = Some d).
Proof. intros [d Hd]%lookup_lt_is_Some. unfold def_at. by rewrite Hd. Qed.

Lemma ref_at_post {E} i : in_refs_range i -> post (ref_at (E:=E) (graph ctx) i) ref_in.
Proof.
  intros [r Hr]%lookup_lt_is_Some. unfold ref_at. rewrite Hr. by eapply list_elem_of_lookup_2.
Qed.

Lemma def_valid i d : defs (graph ctx) !! i = Some d -> valid_moniker (moniker d).
Proof.
  intros Hd. pose proof (wf_defs _ (ctx_wf _ Hg)) as H. rewrite Forall_lookup in H. by eapply H.
Qed.

Lemma ref_source_in r : ref_in r -> in_defs (source r).
Proof.
  intros Hr. pose proof (wf_refs _ (ctx_wf _ Hg)) as H. rewrite Forall_forall in H.
  by apply (H r).
Qed.

Lemma ref_target_valid r : ref_in r -> valid_moniker (target r).
Proof.
  intros Hr. pose proof (wf_refs _ (ctx_wf _ Hg)) as H. rewrite Forall_forall in H.
  by apply (H r).
Qed.

Lemma parent_below i d p : defs (graph ctx) !! i = Some d -> parent d = Some p -> p < i.
Proof.
  intros Hd Hp. pose proof (wf_rooted _ (ctx_wf _ Hg) i d Hd) as H. rewrite Hp in H. tauto.
Qed.

Lemma def_valid_in d : def_in d -> valid_moniker (moniker d).
Proof. intros [i Hi]%list_elem_of_lookup_1. by eapply def_valid. Qed.

(** ** Indexes *)

Lemma children_in i : Forall in_defs (get_all i (children_by_parent ctx)).
Proof.
  rewrite (ctx_children _ Hg), children_get. apply Forall_forall.
  intros j (d & Hd & _)%elem_of_children. by eapply lookup_lt_Some.
Qed.

Lemma out_in i : Forall in_refs_range (get_all i (out_refs_by_source ctx)).
Proof.
  rewrite (ctx_out _ Hg), out_get. apply Forall_forall.
  intros j (r & Hr & _)%elem_of_refs_from. by eapply lookup_lt_Some.
Qed.

Lemma in_in m : Forall in_refs_range (get_all m (in_refs_by_target ctx)).
Proof.
  rewrite (ctx_in _ Hg), in_get. apply Forall_forall.
  intros j (r & Hr & _)%elem_of_refs_to. by eapply lookup_lt_Some.
Qed.

(** ** Domains *)

Lemma refs_at_post {E} idxs : Forall in_refs_range idxs ->
  post (refs_at (E:=E) ctx idxs) (Forall item_ok).
Proof.
  intros H. eapply post_map; [exact H |]. intros i Hi.
  eapply post_bind; [by apply ref_at_post |]. done.
Qed.

Lemma children_where_post {E} i f : post (children_where (E:=E) ctx i f) (Forall item_ok).
Proof.
  eapply post_filter_map; [apply children_in |]. intros j Hj.
  eapply post_bind; [by apply def_at_post |]. intros d Hd. cbn. by destruct (f d).
Qed.

Lemma ancestor_loop_post {E} fuel out p :
  opt_all (fun i => i < fuel /\ in_defs i) p ->
  post (ancestor_loop (E:=E) fuel ctx out p) (Forall in_refs_range).
Proof.
  revert p. induction fuel as [| fuel IH]; intros [i |] Hp; cbn in Hp; try lia;
    cbn [ancestor_loop]; try by constructor.
  destruct Hp as [Hi Hin]. eapply post_bind; [by apply def_at_post |]. intros d Hd.
  eapply post_bind.
  { apply IH. destruct (parent d) as [p |] eqn:Hpd; [| done]. cbn.
    pose proof (parent_below _ _ _ Hd Hpd). split; [lia |]. unfold in_defs in *. lia. }
  intros rest Hrest. apply Forall_app. split; [| done].
  destruct out; [apply out_in | apply in_in].
Qed.

Lemma ancestor_refs_post {E} i out : in_defs i ->
  post (ancestor_ref_indexes (E:=E) i ctx out) (Forall in_refs_range).
Proof.
  intros Hi. eapply post_bind; [by apply def_at_post |]. intros d Hd.
  apply ancestor_loop_post. destruct (parent d) as [p |] eqn:Hp; [| done]. cbn.
  pose proof (parent_below _ _ _ Hd Hp). unfold in_defs in *. lia.
Qed.

Lemma ancestor_items_post {E} i out : in_defs i ->
  post (ancestor_ref_items (E:=E) i ctx out) (Forall item_ok).
Proof.
  intros Hi. eapply post_bind; [by apply ancestor_refs_post |]. intros idxs. apply refs_at_post.
Qed.

Lemma external_items_ok inner seen ds :
  Forall (fun d => valid_moniker (moniker d)) ds -> Forall item_ok (external_items inner seen ds).
Proof.
  intros H. revert seen. induction H as [| d ds Hd Hds IH]; intros seen; cbn [external_items]; [done |].
  case_decide; [done |]. case_match; [constructor |]; done.
Qed.

Lemma enumerate_ok {A} (l : list A) : Forall (fun e => l !! e.1 = Some e.2) (enumerate l).
Proof. apply Forall_forall. intros [i x]. apply elem_of_enumerate. Qed.

Lemma descendant_items_post {E} inner i : in_defs i ->
  post (descendant_items (E:=E) inner i ctx) (Forall item_ok).
Proof.
  intros Hi. eapply post_bind; [by apply def_at_post |]. intros owner Ho.
  eapply post_bind.
  { eapply post_filter_map with (Q := fun e => defs (graph ctx) !! e.1 = Some e.2);
      [apply enumerate_ok |].
    intros [j d] Hd. cbn [fst snd] in *. case_match; [done |].
    eapply post_bind; [by eapply ancestor_post; eapply def_valid |]. intros a _. cbn.
    by destruct (a && _). }
  intros local Hl. assert (Forall item_ok (map (fun e => IDef (Some e.1) e.2) local)) as Hok.
  { induction Hl as [| e l He Hl IH]; constructor; done. }
  cbv zeta. destruct (requirements ctx) as [r |] eqn:Hr; [| done].
  apply Forall_app. split; [done |]. apply external_items_ok. by eapply ctx_resolver.
Qed.

Lemma segment_items_post {E} d : valid_moniker (moniker d) ->
  post (segment_items (E:=E) d) (Forall item_ok).
Proof.
  intros Hd. apply segments_map_post; [done |]. intros segs. induction segs; by constructor.
Qed.

Lemma domain_items_post {E} domain i : in_defs i ->
  post (domain_items (E:=E) domain i ctx) (Forall item_ok).
Proof.
  intros Hi. destruct domain; cbn [domain_items]; try by constructor.
  all: try apply children_where_post; try by apply descendant_items_post.
  all: try (apply refs_at_post; apply out_in); try by apply ancestor_items_post.
  all: eapply post_bind; [by apply def_at_post |]; intros d Hd;
    first [eapply segment_items_post, def_valid, Hd | apply refs_at_post, in_in].
Qed.

(** ** The syntax tree *)

Lemma climb_post fuel scope c : cursor_depth c < fuel -> post (climb fuel scope c) (fun _ => True).
Proof.
  revert c. induction fuel as [| fuel IH]; intros c Hf; [lia |]. cbn [climb].
  destruct (goto_next_sibling c); [done |].
  destruct (goto_parent c) as [c' |] eqn:Hp; [| done]. case_match; [done |].
  apply IH. rewrite (goto_parent_depth _ _ Hp) in Hf. lia.
Qed.

Definition items_ok (r : AstScopeError + list DomainItem) : Prop :=
  match r with inl _ => True | inr items => Forall item_ok items end.

Lemma descend_post fuel scope visited c items :
  (MAX_AST_SCOPE_NODES < N.of_nat fuel + visited)%N -> (visited <= MAX_AST_SCOPE_NODES)%N ->
  Forall item_ok items -> post (descend fuel scope visited c items) items_ok.
Proof.
  revert visited c items. induction fuel as [| fuel IH]; intros visited c items Hf Hv Hi; [lia |].
  cbn [descend]. cbv zeta. destruct (MAX_AST_SCOPE_NODES <? visited + 1)%N eqn:Hmax; bool_inv; [done |].
  assert (Forall item_ok (if is_named (cursor_node c) then items ++ [IAst (cursor_node c)] else items))
    as Hi'.
  { case_match; [| done]. apply Forall_app. split; [done | by repeat constructor]. }
  set (items' := if is_named _ then _ else _) in *.
  assert (forall c', post (descend fuel scope (visited + 1) c' items') items_ok) as Hrec.
  { intros c'. apply IH; [lia | done | done]. }
  destruct (goto_first_child c); [apply Hrec |].
  eapply post_bind; [apply climb_post; lia |]. intros [c' |] _; [apply Hrec | done].
Qed.

Lemma ast_items_post i : in_defs i -> post (ast_items_of i ctx) items_ok.
Proof.
  intros Hi. unfold ast_items_of. eapply post_bind with (P := fun _ => True).
  - unfold ast_scope_node. destruct (ast_document ctx) as [doc |]; [| done].
    eapply post_bind; [by apply def_at_post |]. intros d _.
    eapply post_bind with (P := fun _ => True); [| done].
    case_match; [done |]. destruct (position d) as [[s e] |]; [| done].
    destruct (SyntaxFacts.covering_loop_spec (E:=Empty_set)
      (S (descendant_count (root_node (Syntax.primary doc)))) (root_node (Syntax.primary doc))
      (N.to_nat s, N.to_nat e)) as (o & Ho & _); [lia |].
    unfold Syntax.covering_node. by rewrite Ho.
  - intros [e | n] _; [done |]. unfold named_descendants.
    destruct (goto_first_child (walk n)) as [c |]; [| by constructor].
    apply descend_post; [| done | by constructor]. unfold scope_fuel. lia.
Qed.

Lemma det_ast_domain i : in_defs i -> det ctx (ast_domain_items i ctx) items_ok.
Proof. intros Hi. apply det_ast_items. by apply ast_items_post. Qed.

(** ** References *)

Lemma det_ref_items domain r : ref_in r ->
  det ctx (ref_domain_items domain r ctx) (Forall item_ok).
Proof.
  intros Hr. pose proof (ref_source_in _ Hr) as Hs.
  assert (forall i, det ctx (lift (refs_at ctx (get_all i (out_refs_by_source ctx)))) (Forall item_ok)) as Hout.
  { intros i. apply det_lift, refs_at_post, out_in. }
  assert (forall m, det ctx (lift (refs_at ctx (get_all m (in_refs_by_target ctx)))) (Forall item_ok)) as Hin.
  { intros i. apply det_lift, refs_at_post, in_in. }
  destruct domain; cbn [ref_domain_items]; try by apply det_ret.
  all: try apply Hout; try by apply det_lift, domain_items_post.
  all: try by apply det_lift, ancestor_items_post.
  all: try (eapply det_bind_lift; [by apply def_at_post |]; intros d Hd;
    first [apply Hin | apply det_lift; eapply segment_items_post, def_valid, Hd]).
  all: eapply det_bind; [by apply det_local_index |]; intros [i |] _;
    [first [apply Hout | apply Hin] | by apply det_ret].
Qed.

(** ** Projections *)

Lemma opt_str_ok s : opt_all value_ok (str_value s).
Proof. by destruct s. Qed.
Lemma opt_shape_ok s : opt_all value_ok (shape_value s).
Proof. by destruct s. Qed.
Lemma opt_number_ok n : opt_all value_ok (number_value n).
Proof. by destruct n. Qed.

Lemma opt_moniker_ok p : opt_all valid_moniker p -> opt_all value_ok (option_map Value.Moniker p).
Proof. by destruct p. Qed.

Lemma opt_bind_ok {A} (o : option A) (f : A -> option Value.t) :
  (forall a, opt_all value_ok (f a)) -> opt_all value_ok (a ← o; f a).
Proof. intros Hf. destruct o; cbn; [apply Hf | done]. Qed.

#[local] Hint Resolve opt_str_ok opt_shape_ok opt_number_ok opt_moniker_ok : core.

(** A projection through one lookup of a valid moniker. *)
Ltac one_lookup :=
  eapply post_bind; [by eauto with eval |]; intros;
  cbn; first [done | by eauto | (apply opt_bind_ok; by eauto)].

Lemma resolve_def_post {E} lhs d : valid_moniker (moniker d) ->
  post (resolve_def_lhs (E:=E) lhs d ctx) (opt_all value_ok).
Proof.
  intros Hd. destruct lhs; cbn [resolve_def_lhs]; try (cbn; by eauto).
  all: one_lookup.
Qed.

Lemma resolve_ref_source_post {E} lhs r d : valid_moniker (moniker d) -> valid_moniker (target r) ->
  post (resolve_ref_source_lhs (E:=E) lhs r d ctx) (opt_all value_ok).
Proof.
  intros Hd Ht. destruct lhs; cbn [resolve_ref_source_lhs]; try (cbn; by eauto).
  all: try one_lookup.
  3: { apply opt_bind_ok. by eauto. }
  all: eapply post_bind; [by apply parent_post |]; intros [p |] Hp; cbn; try done; one_lookup.
Qed.

Lemma det_resolve_ref lhs r : ref_in r ->
  det ctx (resolve_ref_lhs lhs r ctx) (opt_all value_ok).
Proof.
  intros Hr. eapply det_bind_lift; [by apply def_at_post, ref_source_in |]. intros d Hd.
  assert (forall l, det ctx (lift (resolve_ref_source_lhs l r d ctx)) (opt_all value_ok)) as Hl.
  { intros l. apply det_lift, resolve_ref_source_post; [eapply def_valid, Hd | by apply ref_target_valid]. }
  destruct lhs; try apply Hl.
  eapply det_bind; [by apply det_local_index |]. intros [i |] Hi; [| by apply det_ret].
  eapply det_bind_lift; [by apply def_at_post |]. intros d' _. by apply det_ret.
Qed.

Lemma project_def_post {E} idx d lhs : valid_moniker (moniker d) ->
  post (project_def_lhs_value (E:=E) idx d lhs ctx) (opt_all value_ok).
Proof. intros Hd. unfold project_def_lhs_value. case_match; [done | by apply resolve_def_post]. Qed.

Lemma item_def_valid idx d : item_ok (IDef idx d) -> valid_moniker (moniker d).
Proof. destruct idx as [i |]; cbn; [apply def_valid | done]. Qed.

Lemma project_ast_ok node lhs : opt_all value_ok (project_ast_lhs_value node lhs).
Proof. by destruct lhs. Qed.

Lemma det_project item lhs : item_ok item ->
  det ctx (project_lhs_value item lhs ctx) (opt_all value_ok).
Proof.
  destruct item as [node | idx d | r | k n]; intros Hi; cbn [project_lhs_value].
  - apply det_ret, project_ast_ok.
  - by apply det_lift, project_def_post, (item_def_valid idx).
  - by apply det_resolve_ref.
  - apply det_ret. destruct lhs; by auto.
Qed.

Lemma det_project_item item : item_ok item ->
  det ctx (project_item_value item ctx) (opt_all value_ok).
Proof.
  destruct item as [node | idx d | r | k n]; intros Hi; cbn [project_item_value].
  - by apply det_ret.
  - by apply det_lift, resolve_def_post, (item_def_valid idx).
  - by apply det_resolve_ref.
  - by apply det_ret.
Qed.

End scope.
End EvalScope.
