(* ===== verification/EvalWalkFacts.v ===== *)
(** The walk over a tree computes its value in Kleene's three-valued logic, and
    depends on its leaves only. *)

From S2P Require Import Prelude.
From S2P Require Import Path.
From S2P Require Import DslAst.
From S2P Require Import CodeGraph.
From S2P Require Import EvalCore.
From S2P Require Import EvalValue.
From S2P Require Import DslTheorems.
From S2P Require Import EvalDet.
From S2P Require Import Syntax.

Module EvalWalkFacts.
Import Ast EvalCore EvalWalk EvalDet EvalScope AstFacts.

Section tree.
Context {RE : RegexEngine}.

Definition is_leaf (n : Node) : bool :=
  match n with And _ | Or _ | Not _ | Implies _ _ => false | _ => true end.

(** The leaves of a tree, from left to right. *)
Fixpoint leaves (n : Node) : list Node :=
  match n with
  | And l | Or l => concat (map leaves l)
  | Not n => leaves n
  | Implies p c => leaves p ++ leaves c
  | leaf_node => [leaf_node]
  end.

(** Induction on the connectives. *)
Section induction.
Context (P : Node -> Prop).
Context (Hleaf : forall n, is_leaf n = true -> P n).
Context (Hand : forall l, Forall P l -> P (And l)).
Context (Hor : forall l, Forall P l -> P (Or l)).
Context (Hnot : forall n, P n -> P (Not n)).
Context (Himp : forall p c, P p -> P c -> P (Implies p c)).

Fixpoint tree_ind (n : Node) : P n :=
  let go := fix go (l : list Node) : Forall P l :=
    match l with
    | [] => Forall_nil_2 P
    | n :: l => Forall_cons_2 P n l (tree_ind n) (go l)
    end in
  match n with
  | And l => Hand l (go l)
  | Or l => Hor l (go l)
  | Not n => Hnot n (tree_ind n)
  | Implies p c => Himp p c (tree_ind p) (tree_ind c)
  | NAtom a => Hleaf (NAtom a) eq_refl
  | Require_ p => Hleaf (Require_ p) eq_refl
  | NVerticalLayout l => Hleaf (NVerticalLayout l) eq_refl
  | Quantifier k d f => Hleaf (Quantifier k d f) eq_refl
  end.

End induction.

Lemma leaves_are_leaves n : Forall (fun m => is_leaf m = true) (leaves n).
Proof.
  induction n as [n Hn | l IH | l IH | n IH | p c IHp IHc] using tree_ind; cbn [leaves].
  - destruct n; try done; by constructor.
  - induction IH; cbn [map concat]; [constructor | by apply Forall_app].
  - induction IH; cbn [map concat]; [constructor | by apply Forall_app].
  - done.
  - by apply Forall_app.
Qed.

(** ** Kleene's connectives, item by item *)

Ltac kleene :=
  unfold all_of, any_of; repeat case_decide; rewrite ?elem_of_cons in *; intuition congruence.

Lemma all_of_true vs : all_of (Some true :: vs) = all_of vs.
Proof. kleene. Qed.

Lemma all_of_false vs : all_of (Some false :: vs) = Some false.
Proof. kleene. Qed.

Lemma all_of_none vs v : v <> Some false -> all_of (None :: v :: vs) = all_of (None :: vs).
Proof. intros Hv. kleene. Qed.

Lemma all_of_none_false vs : all_of (None :: Some false :: vs) = Some false.
Proof. kleene. Qed.

Lemma any_of_true vs : any_of (Some true :: vs) = Some true.
Proof. kleene. Qed.

Lemma any_of_skip vs v w : v <> Some true -> w <> Some true -> (None = w -> None = v) ->
  any_of (v :: w :: vs) = any_of (v :: vs).
Proof. intros Hv Hw Hvw. kleene. Qed.

Lemma any_of_none vs : any_of (Some false :: None :: vs) = any_of (None :: vs).
Proof. kleene. Qed.

Lemma any_of_second vs v : any_of (v :: Some true :: vs) = Some true.
Proof. kleene. Qed.

(** ** The walk *)

Context {S : Type} (inv : S -> Prop).
Abbreviation M := (ST S Empty_set).

(** From any state of [inv], the computation answers [v] and leaves a state of
    [inv]. *)
Definition answers (m : M NodeOutcome) (v : option bool) : Prop :=
  forall s, inv s -> exists o s', m s = (Ok o, s') /\ inv s' /\ truth o = v.

Lemma answers_ret o : answers (mret o) (truth o).
Proof. intros s Hs. by exists o, s. Qed.

Lemma answers_bind m v (k : NodeOutcome -> M NodeOutcome) w :
  answers m v -> (forall o, truth o = v -> answers (k o) w) -> answers (m ≫= k) w.
Proof.
  intros Hm Hk s Hs. destruct (Hm s Hs) as (o & s1 & H1 & Hs1 & Ho).
  destruct (Hk o Ho s1 Hs1) as (o' & s2 & H2 & Hs2 & Ho').
  exists o', s2. by rewrite (st_bind_Ok _ _ _ _ _ H1).
Qed.

Section loops.
Context (walk : Node -> M NodeOutcome) (value : Node -> option bool).

Lemma and_loop_answers na l : Forall (fun n => answers (walk n) (value n)) l ->
  answers (and_loop walk na l) (all_of ((if na then [None] else []) ++ map value l)).
Proof.
  intros Hl. revert na. induction Hl as [| n l Hn Hl IH]; intros na; cbn [and_loop map].
  { destruct na; apply (answers_ret NotApplicable) || apply (answers_ret Pass). }
  eapply answers_bind; [exact Hn |]. intros o <-. destruct o as [| f |]; cbn [truth].
  - destruct na; cbn [app].
    + rewrite all_of_none by done. apply (IH true).
    + rewrite all_of_true. apply (IH false).
  - destruct na; cbn [app]; rewrite ?all_of_none_false, ?all_of_false; apply (answers_ret (Fail_ f)).
  - destruct na; cbn [app]; [rewrite all_of_none by done |]; apply (IH true).
Qed.

(** What the loop of a disjunction has met. *)
Definition met (last_fail : option Failure) (na : bool) : list (option bool) :=
  if na then [None] else match last_fail with Some _ => [Some false] | None => [] end.

Lemma or_loop_answers f na l : Forall (fun n => answers (walk n) (value n)) l ->
  answers (or_loop walk f na l) (any_of (met f na ++ map value l)).
Proof.
  intros Hl. revert f na. induction Hl as [| n l Hn Hl IH]; intros f na; cbn [or_loop map].
  { destruct na; [apply (answers_ret NotApplicable) |].
    destruct f as [f |]; [apply (answers_ret (Fail_ f)) | apply (answers_ret NotApplicable)]. }
  eapply answers_bind; [exact Hn |]. intros o <-. destruct o as [| f' |]; cbn [truth].
  - unfold met. destruct na, f; cbn [app]; rewrite ?any_of_second, ?any_of_true; apply (answers_ret Pass).
  - specialize (IH (Some f') na). unfold met in *. destruct na, f; cbn [app] in *;
      rewrite ?any_of_skip by done; apply IH.
  - specialize (IH f true). unfold met in *. destruct na, f; cbn [app] in *;
      rewrite ?any_of_none, ?any_of_skip by done; apply IH.
Qed.

End loops.

Section walk.
Context (atom_eval : Atom -> M AtomOutcome).
Context (quant_eval : QuantKind.t -> Domain.t -> Node -> M NodeOutcome).
Context (require_eval : bytes -> M NodeOutcome).
Context (layout_eval : VerticalLayout -> M NodeOutcome).
Abbreviation walk := (walk_node atom_eval quant_eval require_eval layout_eval).

Lemma walk_leaf_answers leaf n : is_leaf n = true ->
  Forall (fun n => answers (walk n) (leaf n)) (leaves n) -> answers (walk n) (value_of leaf n).
Proof. destruct n; try done; intros _ [H _]%Forall_cons; exact H. Qed.

Lemma leaves_concat l (P : Node -> Prop) :
  Forall P (concat (map leaves l)) -> Forall (fun n => Forall P (leaves n)) l.
Proof.
  induction l as [| n l IH]; cbn; [constructor |]. intros [Hn Hl]%Forall_app. constructor; auto.
Qed.

Lemma Forall_apply {A} (P Q : A -> Prop) l :
  Forall (fun x => P x -> Q x) l -> Forall P l -> Forall Q l.
Proof. intros H. induction H as [| x l Hx Hl IH]; intros H'; inv H'; constructor; auto. Qed.

Lemma walk_answers leaf n :
  Forall (fun n => answers (walk n) (leaf n)) (leaves n) -> answers (walk n) (value_of leaf n).
Proof.
  induction n as [n Hn | l IH | l IH | n IH | p c IHp IHc] using tree_ind; intros Hl.
  - by apply walk_leaf_answers.
  - apply (and_loop_answers _ _ false). eapply Forall_apply; [exact IH | by apply leaves_concat].
  - apply (or_loop_answers _ _ None false).
    eapply Forall_apply; [exact IH | by apply leaves_concat].
  - cbn [walk_node value_of]. eapply answers_bind; [by apply IH |]. intros o <-.
    destruct o; apply answers_ret.
  - cbn [leaves] in Hl. apply Forall_app in Hl as [Hp Hc].
    cbn [walk_node value_of]. eapply answers_bind; [by apply IHp |]. intros o <-.
    destruct o; cbn [truth implies]; [by apply IHc | apply (answers_ret Pass) |
      apply (answers_ret NotApplicable)].
Qed.

End walk.
End tree.

(** ** Independence of the caches *)
Section det.
Context {TS : TreeSitter} {RE : RegexEngine} (ctx : EvalCtx).
Context (atom_eval : Atom -> ST EvalState Empty_set AtomOutcome).
Context (quant_eval : QuantKind.t -> Domain.t -> Node -> ST EvalState Empty_set NodeOutcome).
Context (require_eval : bytes -> ST EvalState Empty_set NodeOutcome).
Context (layout_eval : VerticalLayout -> ST EvalState Empty_set NodeOutcome).
Abbreviation walk := (walk_node atom_eval quant_eval require_eval layout_eval).
Abbreviation total m := (det ctx m (outcome_ok ctx)).

Lemma det_and walk na l :
  Forall (fun n => total (walk n)) l -> total (and_loop walk na l).
Proof.
  intros Hl. revert na. induction Hl as [| n l Hn Hl IH]; intros na; cbn [and_loop];
    [apply det_ret; by destruct na |].
  eapply det_bind; [exact Hn |]. intros [] Ho; [apply IH | by apply det_ret | apply IH].
Qed.

Lemma det_or walk f na l :
  Forall (fun n => total (walk n)) l -> opt_all (fun f => outcome_ok ctx (Fail_ f)) f ->
  total (or_loop walk f na l).
Proof.
  intros Hl. revert f na. induction Hl as [| n l Hn Hl IH]; intros f na Hf; cbn [or_loop].
  { apply det_ret. by destruct na, f. }
  eapply det_bind; [exact Hn |]. intros [] Ho; [by apply det_ret | by apply IH | by apply IH].
Qed.

Lemma det_walk n : Forall (fun n => total (walk n)) (leaves n) -> total (walk n).
Proof.
  induction n as [n Hn | l IH | l IH | n IH | p c IHp IHc] using tree_ind; intros Hl.
  - destruct n; try done; by apply Forall_cons in Hl as [H _].
  - apply det_and. eapply Forall_apply; [exact IH | by apply leaves_concat].
  - apply det_or; [| done]. eapply Forall_apply; [exact IH | by apply leaves_concat].
  - cbn [walk_node]. eapply det_bind; [by apply IH |]. intros o _. apply det_ret. by destruct o.
  - cbn [leaves] in Hl. apply Forall_app in Hl as [Hp Hc]. cbn [walk_node].
    eapply det_bind; [by apply IHp |]. intros [] _; [by apply IHc | by apply det_ret..].
Qed.

Lemma det_walk_atom a : det ctx (atom_eval a) (fun _ => True) -> total (walk (NAtom a)).
Proof.
  intros Ha. destruct a as [lhs op rhs raw re]. cbn [walk_node]. unfold walk_atom.
  eapply det_bind; [exact Ha |]. intros o _. apply det_ret. by destruct o.
Qed.

End det.
End EvalWalkFacts.
