(* ===== verification/EvalCollectionFacts.v ===== *)
(** The collections of the rule language are multisets of values: their
    operators are those of multisets, and their evaluation is total. *)

From stdpp Require Import gmultiset sorting.
From S2P Require Import Prelude.
From S2P Require Import RustStr.
From S2P Require Import Moniker.
From S2P Require Import CodeGraph.
From S2P Require Import CodeGraphFacts.
From S2P Require Import DslAst.
From S2P Require Import DslTheorems.
From S2P Require Import Syntax.
From S2P Require Import EvalCore.
From S2P Require Import EvalValue.
From S2P Require Import EvalDomain.
From S2P Require Import EvalProject.
From S2P Require Import EvalCollection.
From S2P Require Import EvalDet.

Module EvalCollectionFacts.
Import CodeGraph EvalCore EvalValue EvalDomain EvalProject EvalCollection Ast.
Import AstFacts EvalDet EvalScope.

(** ** Multisets *)

(** The multiset that a list of values stands for. *)
Definition bag (vs : list Value.t) : gmultiset ValueKey.t :=
  list_to_set_disj (ValueKey.from_value <$> vs).

Lemma into_from k : ValueKey.from_value (ValueKey.into_value k) = k.
Proof. by destruct k. Qed.

Lemma bag_app l r : bag (l ++ r) = bag l ⊎ bag r.
Proof. unfold bag. by rewrite fmap_app, list_to_set_disj_app. Qed.

Lemma bag_cons v l : bag (v :: l) = {[+ ValueKey.from_value v +]} ⊎ bag l.
Proof. done. Qed.

Lemma bag_permutation l r : l ≡ₚ r -> bag l = bag r.
Proof. intros H. unfold bag. apply list_to_set_disj_perm. by rewrite H. Qed.

Lemma multiplicity_repeat k k' n :
  multiplicity k (bag (repeat (ValueKey.into_value k') n)) = if decide (k = k') then n else 0.
Proof.
  induction n as [| n IH]; cbn [repeat].
  - unfold bag. cbn. rewrite multiplicity_empty. by case_decide.
  - rewrite bag_cons, into_from, multiplicity_disj_union, IH.
    destruct (decide (k = k')) as [-> | Hk].
    + by rewrite multiplicity_singleton_eq.
    + by rewrite multiplicity_singleton_ne.
Qed.

Lemma bump_lookup m k k' :
  default 0 (bump m k !! k') = (if decide (k' = k) then 1 else 0) + default 0 (m !! k').
Proof.
  unfold bump. destruct (decide (k' = k)) as [-> | Hk].
  - by rewrite lookup_insert_eq.
  - by rewrite lookup_insert_ne.
Qed.

Lemma value_counts_multiplicity vs k :
  default 0 (value_counts vs !! k) = multiplicity k (bag vs).
Proof.
  unfold value_counts. enough (forall m,
    default 0 (foldl bump m (ValueKey.from_value <$> vs) !! k) =
    default 0 (m !! k) + multiplicity k (bag vs)) as H by (rewrite H; by rewrite lookup_empty).
  induction vs as [| v vs IH]; intros m.
  { unfold bag. cbn. rewrite multiplicity_empty. lia. }
  rewrite fmap_cons. cbn [foldl]. rewrite IH, bump_lookup, bag_cons, multiplicity_disj_union.
  destruct (decide (k = ValueKey.from_value v)) as [-> | Hk].
  - rewrite multiplicity_singleton_eq. lia.
  - rewrite multiplicity_singleton_ne by done. lia.
Qed.

Lemma fold_left_lookup counts (m : gmap ValueKey.t (nat * nat)) k :
  default (0, 0) (map_fold set_left m counts !! k) =
    (default (default (0, 0) (m !! k)).1 (counts !! k), (default (0, 0) (m !! k)).2).
Proof.
  revert k. apply (map_fold_weak_ind (fun r c => forall k, default (0, 0) (r !! k) =
    (default (default (0, 0) (m !! k)).1 (c !! k), (default (0, 0) (m !! k)).2))).
  - intros k. rewrite lookup_empty. cbn. by destruct (default (0, 0) (m !! k)).
  - intros i x c r Hi IH k. unfold set_left. destruct (decide (i = k)) as [<- | Hk].
    + rewrite !lookup_insert_eq. cbn. by rewrite IH.
    + by rewrite !lookup_insert_ne.
Qed.

Lemma fold_right_lookup counts (m : gmap ValueKey.t (nat * nat)) k :
  default (0, 0) (map_fold set_right m counts !! k) =
    ((default (0, 0) (m !! k)).1, default (default (0, 0) (m !! k)).2 (counts !! k)).
Proof.
  revert k. apply (map_fold_weak_ind (fun r c => forall k, default (0, 0) (r !! k) =
    ((default (0, 0) (m !! k)).1, default (default (0, 0) (m !! k)).2 (c !! k)))).
  - intros k. rewrite lookup_empty. cbn. by destruct (default (0, 0) (m !! k)).
  - intros i x c r Hi IH k. unfold set_right. destruct (decide (i = k)) as [<- | Hk].
    + rewrite !lookup_insert_eq. cbn. by rewrite IH.
    + by rewrite !lookup_insert_ne.
Qed.

Lemma combined_counts_lookup l r k :
  default (0, 0) (combined_counts l r !! k) = (multiplicity k (bag l), multiplicity k (bag r)).
Proof.
  unfold combined_counts. rewrite fold_right_lookup, fold_left_lookup, lookup_empty. cbn.
  by rewrite !value_counts_multiplicity.
Qed.

(** The entries of a map, each repeated. *)
Definition spread (merge : nat -> nat -> nat) (e : ValueKey.t * (nat * nat)) : list Value.t :=
  repeat (ValueKey.into_value e.1) (merge e.2.1 e.2.2).

Lemma spread_permutation merge l l' :
  l ≡ₚ l' -> concat (map (spread merge) l) ≡ₚ concat (map (spread merge) l').
Proof. intros H. rewrite <- !flat_map_concat_map. by apply Permutation_flat_map. Qed.

Lemma spread_multiplicity merge (m : gmap ValueKey.t (nat * nat)) k :
  multiplicity k (bag (concat (map (spread merge) (map_to_list m)))) =
    match m !! k with Some c => merge c.1 c.2 | None => 0 end.
Proof.
  revert k. induction m as [| i c m Hi _ IH] using map_first_key_ind; intros k.
  - rewrite map_to_list_empty, lookup_empty. unfold bag. cbn. by rewrite multiplicity_empty.
  - rewrite (bag_permutation _ _ (spread_permutation merge _ _ (map_to_list_insert m i c Hi))).
    cbn [map concat]. rewrite bag_app, multiplicity_disj_union, IH.
    unfold spread at 1. rewrite multiplicity_repeat. cbn [fst snd].
    destruct (decide (k = i)) as [-> | Hk].
    + rewrite Hi, lookup_insert_eq. lia.
    + by rewrite lookup_insert_ne.
Qed.

Section combine.
Context {HO : HashOrder}.

Lemma combine_counts_multiplicity l r merge k : merge 0 0 = 0 ->
  multiplicity k (bag (combine_counts l r merge)) =
    merge (multiplicity k (bag l)) (multiplicity k (bag r)).
Proof.
  intros H0. unfold combine_counts.
  rewrite (bag_permutation _ _ (spread_permutation merge _ _ (hash_order_perm _))).
  rewrite spread_multiplicity. pose proof (combined_counts_lookup l r k) as H.
  destruct (combined_counts l r !! k) as [[a b] |]; cbn in *; by injection H as <- <-.
Qed.

End combine.

Lemma is_subset_spec l r : is_subset l r = true <-> bag l ⊆ bag r.
Proof.
  unfold is_subset. rewrite forallb_Forall, Forall_forall. split.
  - intros H k. rewrite <- !value_counts_multiplicity.
    destruct (value_counts l !! k) as [n |] eqn:Hk; cbn [default]; [| lia].
    apply elem_of_map_to_list in Hk. specialize (H (k, n) Hk). cbn in H. by apply Nat.leb_le.
  - intros H [k n] Hk. apply Nat.leb_le. cbn. apply elem_of_map_to_list in Hk.
    specialize (H k). rewrite <- !value_counts_multiplicity, Hk in H. done.
Qed.

(** ** Distinct values *)

Lemma unique_loop_spec seen vs :
  unique_loop seen vs `sublist_of` vs /\
  NoDup (ValueKey.from_value <$> unique_loop seen vs) /\
  (forall k, k ∈ ValueKey.from_value <$> unique_loop seen vs <->
     k ∈ ValueKey.from_value <$> vs /\ k ∉ seen).
Proof.
  revert seen. induction vs as [| v vs IH]; intros seen; cbn [unique_loop].
  { split_and!; [done | apply NoDup_nil_2 |]. intros k. pose proof (not_elem_of_nil k).
    cbn [fmap list_fmap]. tauto. }
  case_decide as Hv.
  - destruct (IH seen) as (Hs & Hn & Hk). split_and!; [by constructor | done |].
    intros k. rewrite Hk, fmap_cons, elem_of_cons. split; [tauto |].
    intros [[-> | ?] ?]; tauto.
  - destruct (IH ({[ValueKey.from_value v]} ∪ seen)) as (Hs & Hn & Hk).
    split_and!; [by constructor | |].
    + rewrite fmap_cons. apply NoDup_cons. split; [| done]. rewrite Hk, elem_of_union, elem_of_singleton. tauto.
    + intros k. rewrite !fmap_cons, !elem_of_cons, Hk, elem_of_union, elem_of_singleton.
      destruct (decide (k = ValueKey.from_value v)) as [-> |]; tauto.
Qed.

(** ** The mode *)

Definition frequency (vs : list Value.t) (v : Value.t) : nat :=
  multiplicity (ValueKey.from_value v) (bag vs).

Lemma unique_snoc vs v : unique (vs ++ [v]) =
  unique vs ++ (if decide (ValueKey.from_value v ∈ ValueKey.from_value <$> vs) then [] else [v]).
Proof.
  unfold unique. assert (forall seen, unique_loop seen (vs ++ [v]) = unique_loop seen vs ++
    (if decide (ValueKey.from_value v ∈ seen \/ ValueKey.from_value v ∈ ValueKey.from_value <$> vs)
     then [] else [v])) as H.
  { induction vs as [| w vs IH]; intros seen; cbn [app unique_loop].
    - pose proof (not_elem_of_nil (ValueKey.from_value v)).
      cbn [fmap list_fmap]. repeat case_decide; tauto || done.
    - rewrite !fmap_cons. destruct (decide (ValueKey.from_value w ∈ seen)) as [Hw | Hw];
        rewrite IH; cbn [app]; repeat f_equal; apply decide_ext;
        rewrite elem_of_cons, ?elem_of_union, ?elem_of_singleton; [| tauto].
      split; [tauto |]. intros [? | [-> | ?]]; tauto. }
  rewrite H. f_equal. pose proof (not_elem_of_empty (C := gset _) (ValueKey.from_value v)).
  repeat case_decide; tauto || done.
Qed.

Lemma value_counts_snoc vs v : value_counts (vs ++ [v]) = bump (value_counts vs) (ValueKey.from_value v).
Proof. unfold value_counts. by rewrite fmap_app, foldl_app. Qed.

Lemma value_counts_None vs k : value_counts vs !! k = None <-> k ∉ ValueKey.from_value <$> vs.
Proof.
  induction vs as [| v vs IH] using rev_ind.
  { split; [intros _; apply not_elem_of_nil | by intros _]. }
  rewrite value_counts_snoc, fmap_app, not_elem_of_app, <- IH. cbn. rewrite list_elem_of_singleton.
  unfold bump. destruct (decide (k = ValueKey.from_value v)) as [-> | Hk].
  - rewrite lookup_insert_eq. split; [done | tauto].
  - rewrite lookup_insert_ne by done. tauto.
Qed.

Lemma mode_fold vs :
  foldl mode_step (∅, []) vs = (value_counts vs, ValueKey.from_value <$> unique vs).
Proof.
  induction vs as [| v vs IH] using rev_ind; [done |].
  rewrite foldl_app, IH, value_counts_snoc, unique_snoc, fmap_app. cbn [foldl mode_step].
  pose proof (value_counts_None vs (ValueKey.from_value v)) as Hn.
  destruct (value_counts vs !! ValueKey.from_value v) as [n |],
    (decide (ValueKey.from_value v ∈ ValueKey.from_value <$> vs)) as [Hv | Hv].
  - cbn. by rewrite app_nil_r.
  - by apply Hn in Hv.
  - by destruct (proj1 Hn eq_refl Hv).
  - done.
Qed.

(** The value of highest frequency, and the first such one. *)
Definition most_frequent (vs : list Value.t) (v : Value.t) : Prop :=
  exists pre suf, unique vs = pre ++ v :: suf /\
    Forall (fun w => frequency vs w < frequency vs v) pre /\
    Forall (fun w => frequency vs w <= frequency vs v) suf.

Lemma from_value_inj v w : ValueKey.from_value v = ValueKey.from_value w -> v = w.
Proof. destruct v, w; cbn; congruence. Qed.

Lemma best_fold vs us : us <> [] -> exists v pre suf, us = pre ++ v :: suf /\
  foldl (best_step (value_counts vs)) None (ValueKey.from_value <$> us) =
    Some (ValueKey.from_value v, frequency vs v) /\
  Forall (fun w => frequency vs w < frequency vs v) pre /\
  Forall (fun w => frequency vs w <= frequency vs v) suf.
Proof.
  induction us as [| u us IH] using rev_ind; [done |]. intros _.
  rewrite fmap_app, foldl_app. cbn [fmap list_fmap foldl]. unfold best_step at 1.
  rewrite value_counts_multiplicity. fold (frequency vs u).
  destruct (decide (us = [])) as [-> | Hne].
  { exists u, [], []. by repeat split. }
  destruct (IH Hne) as (v & pre & suf & -> & -> & Hpre & Hsuf). case_match; bool_inv.
  - exists u, (pre ++ v :: suf), []. split_and!; [done | done | | constructor].
    apply Forall_app. split; [eapply Forall_impl; [exact Hpre |]; cbv beta; lia |].
    constructor; [done |]. eapply Forall_impl; [exact Hsuf |]. cbv beta. lia.
  - exists v, pre, (suf ++ [u]). split_and!; [by rewrite <- (assoc_L (++)) | done | done |].
    apply Forall_app. split; [done |]. constructor; [lia | constructor].
Qed.

Lemma mode_value_spec vs :
  match mode_value vs with Some v => most_frequent vs v | None => vs = [] end.
Proof.
  unfold mode_value. rewrite mode_fold. destruct (decide (unique vs = [])) as [He | Hne].
  - rewrite He. cbn. destruct vs as [| v vs]; [done |].
    unfold unique in He. cbn in He. by case_decide.
  - destruct (best_fold vs _ Hne) as (v & pre & suf & Hu & -> & Hpre & Hsuf). cbn.
    assert (ValueKey.into_value (ValueKey.from_value v) = v) as -> by by destruct v.
    by exists pre, suf.
Qed.

Lemma mode_value_in vs v : mode_value vs = Some v -> v ∈ vs.
Proof.
  intros H. pose proof (mode_value_spec vs) as Hm. rewrite H in Hm.
  destruct Hm as (pre & suf & Hu & _). destruct (unique_loop_spec ∅ vs) as (Hs & _).
  eapply elem_of_submseteq; [| by apply sublist_submseteq]. fold (unique vs). rewrite Hu.
  apply elem_of_app. right. apply list_elem_of_here.
Qed.

Lemma is_prefix_spec l r :
  is_prefix l r = true <-> (ValueKey.from_value <$> l) `prefix_of` (ValueKey.from_value <$> r).
Proof.
  unfold is_prefix. revert r. induction l as [| v l IH]; intros r.
  { split; [| done]. intros _. apply prefix_nil. }
  destruct r as [| w r].
  { split; [done |]. by intros ?%prefix_nil_inv. }
  rewrite !fmap_cons. cbn [zip forallb fst snd length].
  change (S (length l) <=? S (length r)) with (length l <=? length r).
  specialize (IH r). rewrite !andb_true_iff, bool_decide_eq_true in *. split.
  - intros (Hl & -> & Hz). apply prefix_cons. by apply IH.
  - intros H. pose proof (prefix_cons_inv_1 _ _ _ _ H). apply prefix_cons_inv_2, IH in H. tauto.
Qed.

(** ** Evaluation *)
Section det.
Context {TS : TreeSitter} {TL : TreeSitterLaws TS} {HO : HashOrder} (ctx : EvalCtx) (Hg : good_ctx ctx).
Abbreviation total m := (det ctx m (fun _ => True)).

Lemma det_concat_st {A B} (P : A -> Prop) (f : A -> ST EvalState Empty_set (list B)) l :
  Forall P l -> (forall x, P x -> total (f x)) -> total (concat_st f l).
Proof.
  intros Hl Hf. induction Hl as [| x l Hx Hl IH]; cbn [concat_st]; [by apply det_ret |].
  eapply det_bind; [by apply Hf |]. intros vs _. eapply det_bind; [apply IH |].
  intros rest _. by apply det_ret.
Qed.

Lemma item_def_in i d : item_ok ctx (IDef (Some i) d) -> in_defs ctx i.
Proof. intros H. by eapply lookup_lt_Some. Qed.

Lemma det_project_plain item path : item_ok ctx item -> total (project_plain item path ctx).
Proof.
  destruct item as [n | idx d | r | k n]; intros Hi; cbn [project_plain];
    try by apply det_ret.
  - eapply det_bind_lift with (P := fun _ => True); [| intros; by apply det_ret].
    unfold project_def_path. case_match; [| done].
    eapply post_mono; [apply (resolve_def_post ctx), (item_def_valid ctx Hg idx), Hi | done].
  - eapply det_bind with (P := fun _ => True); [| intros; by apply det_ret].
    unfold project_ref_path. case_match; [| by apply det_ret].
    eapply det_mono; [by apply det_resolve_ref | done].
Qed.

Lemma det_project_item_path item path : item_ok ctx item -> total (project_item_path item path ctx).
Proof.
  revert item. induction path as [| head tail IH]; intros item Hi; cbn [project_item_path];
    [by apply det_project_plain |].
  destruct item as [n | [i |] d | r | k n], (nested_domain head) as [domain |];
    try by apply det_project_plain.
  eapply det_bind_lift; [by eapply domain_items_post, item_def_in |].
  intros items Hitems. eapply det_concat_st; [exact Hitems |]. intros x. apply IH.
Qed.

Lemma det_collect_domain domain path i : in_defs ctx i ->
  total (collect_domain domain path i ctx).
Proof.
  intros Hi. eapply det_bind_lift; [by apply domain_items_post |]. intros items Hitems.
  eapply det_concat_st; [| intros x; apply det_project_item_path].
  by rewrite merge_sort_Permutation.
Qed.

Lemma det_collection c i self : in_defs ctx i -> in_defs ctx self ->
  total (eval_collection c i self ctx).
Proof.
  intros Hi Hs. induction c as [p | p | c IH | op l IHl r IHr]; cbn [eval_collection].
  - apply det_collect_domain. by destruct (cp_current p).
  - by apply det_ret.
  - eapply det_bind; [exact IH |]. intros; by apply det_ret.
  - eapply det_bind; [exact IHl |]. intros. eapply det_bind; [exact IHr |].
    intros; by apply det_ret.
Qed.

Lemma det_collection_size c i self : in_defs ctx i -> in_defs ctx self ->
  total (eval_collection_size c i self ctx).
Proof. intros. eapply det_bind; [by apply det_collection |]. intros; by apply det_ret. Qed.

Lemma det_collection_comparison l r i self p : in_defs ctx i -> in_defs ctx self ->
  total (eval_collection_comparison l r i self ctx p).
Proof.
  intros. eapply det_bind; [by apply det_collection |]. intros.
  eapply det_bind; [by apply det_collection |]. intros; by apply det_ret.
Qed.

(** *** Pairs *)

Definition scope_ok (s : PairCollectionScope) : Prop :=
  item_ok ctx (scope_a s) /\ item_ok ctx (scope_b s) /\ in_defs ctx (scope_def_idx s).

Lemma det_pair_projection p a b : item_ok ctx a -> item_ok ctx b ->
  total (collect_pair_projection p a b ctx).
Proof.
  intros Ha Hb. unfold collect_pair_projection.
  assert (item_ok ctx (match pcp_side p with A => a | B => b end)) as Hi by by destruct (pcp_side p).
  destruct (match pcp_side p with A => a | B => b end) as [n | [i |] d | r | k n];
    try by apply det_ret.
  by eapply det_collect_domain, item_def_in.
Qed.

Lemma det_try {A B} (o : option A) (k : A -> ST EvalState Empty_set (option B)) :
  (forall a, total (k a)) -> total (try_ o k).
Proof. intros Hk. destruct o; [apply Hk | by apply det_ret]. Qed.

Lemma det_pair_collection c s : scope_ok s -> total (eval_pair_collection c s ctx).
Proof.
  intros (Ha & Hb & Hi). induction c as [p | p | c IH | op l IHl r IHr];
    cbn [eval_pair_collection].
  - eapply det_bind; [by apply det_collect_domain |]. intros; by apply det_ret.
  - eapply det_bind; [by apply det_pair_projection |]. intros; by apply det_ret.
  - eapply det_bind; [exact IH |]. intros; by apply det_ret.
  - eapply det_bind; [exact IHl |]. intros ol _. apply det_try. intros vl.
    eapply det_bind; [exact IHr |]. intros or _. apply det_try. intros vr. by apply det_ret.
Qed.

Lemma det_pair_collection_size c s : scope_ok s -> total (eval_pair_collection_size c s ctx).
Proof. intros. eapply det_bind; [by apply det_pair_collection |]. intros; by apply det_ret. Qed.

Lemma det_pair_collection_comparison l r s p : scope_ok s ->
  total (eval_pair_collection_comparison l r s ctx p).
Proof.
  intros. eapply det_bind; [by apply det_pair_collection |]. intros ol _. apply det_try.
  intros vl. eapply det_bind; [by apply det_pair_collection |]. intros or _. apply det_try.
  intros vr. by apply det_ret.
Qed.

End det.
End EvalCollectionFacts.
