(* ===== verification/EvalMetricsFacts.v ===== *)
(** The depth-first search of [lcom4] counts the connected components of the
    method graph.

    [lcom4] counts the classes of methods linked by a call or a shared field.

    The metrics of a definition terminate, and what the simple ones count. *)

From S2P Require Import Prelude.
From S2P Require Import RustStr.
From S2P Require Import Shape.
From S2P Require Import Moniker.
From S2P Require Import MonikerFacts.
From S2P Require Import CodeGraph.
From S2P Require Import CodeGraphFacts.
From S2P Require Import DslAst.
From S2P Require Import DslTheorems.
From S2P Require Import Syntax.
From S2P Require Import Suppress.
From S2P Require Import EvalCore.
From S2P Require Import EvalValue.
From S2P Require Import EvalDomain.
From S2P Require Import EvalMetrics.
From S2P Require Import EvalDet.

Module EvalComponents.
Import EvalMetrics.

(** ** Marks *)

Definition seen_at (seen : list bool) (i : nat) : Prop := seen !! i = Some true.

#[local] Instance seen_at_dec seen i : Decision (seen_at seen i).
Proof. unfold seen_at. apply _. Defined.

Definition unseen (seen : list bool) : nat := length (List.filter negb seen).

Lemma seen_insert seen i j : i < length seen ->
  seen_at (<[i := true]> seen) j <-> seen_at seen j \/ j = i.
Proof.
  intros Hi. unfold seen_at. destruct (decide (j = i)) as [-> | Hj].
  - rewrite list_lookup_insert_eq by done. tauto.
  - rewrite list_lookup_insert_ne by done. tauto.
Qed.

Lemma unseen_insert seen i : seen !! i = Some false ->
  unseen seen = S (unseen (<[i := true]> seen)).
Proof.
  unfold unseen. revert i. induction seen as [| b seen IH]; intros [| i]; cbn; try done.
  - by intros [= ->].
  - intros H. destruct b; cbn; [by apply IH | f_equal; by apply IH].
Qed.

Lemma unseen_le seen : unseen seen <= length seen.
Proof. unfold unseen. induction seen as [| [] seen IH]; cbn; lia. Qed.

(** ** Edges *)
Section search.
Context {HO : HashOrder} {E : Type} (g : list (gset nat)).

Definition edge (i j : nat) : Prop := exists s, g !! i = Some s /\ j ∈ s.
Definition in_range : Prop := forall i j, edge i j -> j < length g.
Definition connected : nat -> nat -> Prop := rtc edge.
Definition closed (seen : list bool) : Prop :=
  forall i j, seen_at seen i -> edge i j -> seen_at seen j.

Lemma closed_connected seen i j :
  closed seen -> seen_at seen i -> connected i j -> seen_at seen j.
Proof. intros Hc Hi H. induction H as [| i k j Hik Hkj IH]; [done |]. apply IH. by eapply Hc. Qed.

(** What visiting the successors of a node does. *)
Definition visited (seen : list bool) (stack nexts : list nat) (acc : list bool * list nat) : Prop :=
  length acc.1 = length seen /\
  (forall i, seen_at acc.1 i <-> seen_at seen i \/ i ∈ nexts) /\
  (forall i, i ∈ acc.2 <-> i ∈ stack \/ (i ∈ nexts /\ ~ seen_at seen i)) /\
  length acc.2 + unseen acc.1 = length stack + unseen seen.

Lemma visit_nexts nexts seen stack : Forall (fun i => i < length seen) nexts ->
  post (fold_res (visit_next (E:=E)) (seen, stack) nexts) (visited seen stack nexts).
Proof.
  revert seen stack. induction nexts as [| n nexts IH]; intros seen stack Hn; cbn [fold_res].
  { unfold visited. cbn. split_and!; [done | | | done]; intros i; pose proof (not_elem_of_nil i); tauto. }
  apply Forall_cons in Hn as [Hlt Hn]. apply lookup_lt_is_Some in Hlt as [b Hb].
  assert (visit_next (E:=E) (seen, stack) n =
    Ok (if b then (seen, stack) else (<[n := true]> seen, n :: stack))) as Hv.
  { unfold visit_next. rewrite Hb. by destruct b. }
  cbn [fold_res]. rewrite Hv, ret_bind. destruct b.
  - eapply post_mono; [by apply IH |]. intros acc (Hl & Hs & Hk & Hm).
    split_and!; [done | | | done]; intros i; rewrite ?Hs, ?Hk, elem_of_cons;
      destruct (decide (i = n)) as [-> |]; unfold seen_at; tauto.
  - eapply post_mono; [apply IH; by rewrite length_insert |]. intros acc (Hl & Hs & Hk & Hm).
    rewrite length_insert in Hl. pose proof (lookup_lt_Some _ _ _ Hb) as Hlt.
    assert (~ seen_at seen n) as Hnot by (unfold seen_at; by rewrite Hb).
    split_and!; [done | | |].
    + intros i. rewrite Hs, elem_of_cons, seen_insert by done. tauto.
    + intros i. rewrite Hk, !elem_of_cons, seen_insert by done.
      destruct (decide (i = n)) as [-> |]; tauto.
    + rewrite (unseen_insert _ _ Hb). cbn [length] in Hm. lia.
Qed.

(** The marks that a search leaves. *)
Definition flooded (seen : list bool) (stack : list nat) (seen' : list bool) : Prop :=
  length seen' = length g /\ closed seen' /\
  (forall i, seen_at seen i -> seen_at seen' i) /\
  (forall i, seen_at seen' i -> seen_at seen i \/ exists s, s ∈ stack /\ connected s i).

Lemma flood_post fuel seen stack :
  in_range -> length seen = length g -> length stack + unseen seen <= fuel ->
  Forall (seen_at seen) stack ->
  (forall i j, seen_at seen i -> i ∉ stack -> edge i j -> seen_at seen j) ->
  post (flood (E:=E) fuel g seen stack) (flooded seen stack).
Proof.
  intros Hr. revert seen stack. induction fuel as [| fuel IH]; intros seen [| x stack] Hl Hf Hst Hcl;
    cbn [flood length] in *; try lia.
  1,2: split_and!; [done | intros i j Hi; by apply Hcl, not_elem_of_nil | done | by left].
  apply Forall_cons in Hst as [Hx Hst].
  assert (x < length g) as Hxg by (rewrite <- Hl; by eapply lookup_lt_Some).
  unfold index_set. destruct (g !! x) as [s |] eqn:Hs; [| by apply lookup_ge_None in Hs; lia].
  rewrite ret_bind. eapply post_bind.
  { apply visit_nexts. rewrite hash_order_perm, Forall_forall, Hl.
    intros j Hj%elem_of_elements. apply (Hr x). by exists s. }
  intros [seen1 stack1] (Hl1 & Hs1 & Hk1 & Hm1). cbn [fst snd] in *.
  assert (forall i, i ∈ hash_order (elements s) <-> edge x i) as He.
  { intros i. rewrite hash_order_perm, elem_of_elements. unfold edge. rewrite Hs.
    split; [eauto | by intros (? & [= <-] & ?)]. }
  eapply post_mono; [apply IH; [congruence | lia | |] |].
  - apply Forall_forall. intros i [Hi | [Hi _]]%Hk1; apply Hs1; [left | by right].
    by eapply Forall_forall in Hst.
  - intros i j Hi Hni Hij. apply Hs1.
    destruct (decide (i = x)) as [-> | Hix]; [right; by apply He | left].
    assert (seen_at seen i) as Hi'.
    { apply Hs1 in Hi as [Hi | Hi]; [done |]. destruct (decide (seen_at seen i)); [done |].
      destruct Hni. apply Hk1. by right. }
    apply (Hcl i j Hi'); [| done]. rewrite not_elem_of_cons. split; [done |].
    contradict Hni. apply Hk1. by left.
  - intros seen' (Hl' & Hc' & Hm' & Hp'). split_and!; [done | done | |].
    + intros i Hi. apply Hm', Hs1. by left.
    + intros i [[Hi | Hi%He]%Hs1 | (y & [Hy | [Hy%He _]]%Hk1 & Hyi)]%Hp'; [by left | right..].
      * exists x. split; [apply list_elem_of_here | by apply rtc_once].
      * exists y. split; [by apply list_elem_of_further | done].
      * exists x. split; [apply list_elem_of_here | by eapply rtc_l].
Qed.

(** ** The search from every node *)

(** After the nodes below [k]: the marked nodes are those connected to one of
    [reps], which are not connected to each other. *)
Definition counted (k : nat) (acc : list bool * nat) : Prop :=
  length acc.1 = length g /\ closed acc.1 /\
  (forall i, i < k -> seen_at acc.1 i) /\
  exists reps, length reps = acc.2 /\ NoDup reps /\
    (forall r, r ∈ reps -> r < length g /\ seen_at acc.1 r) /\
    (forall r r', r ∈ reps -> r' ∈ reps -> connected r r' -> r = r') /\
    (forall i, seen_at acc.1 i -> exists r, r ∈ reps /\ connected r i).

Lemma counted_start : counted 0 (repeat false (length g), 0).
Proof.
  assert (forall i, ~ seen_at (repeat false (length g)) i) as Hno.
  { intros i Hi. by apply list_elem_of_lookup_2, list_elem_of_In, repeat_spec in Hi. }
  split_and!; cbn [fst snd].
  - apply repeat_length.
  - intros i j Hi. by destruct (Hno i).
  - lia.
  - exists []. split_and!; [done | apply NoDup_nil_2 | by intros r ?%not_elem_of_nil |
      by intros r r' ?%not_elem_of_nil |].
    intros i Hi. by destruct (Hno i).
Qed.

Lemma counted_skip k seen c : counted k (seen, c) -> seen_at seen k -> counted (S k) (seen, c).
Proof.
  intros (Hl & Hc & Hk & reps) Hs. split_and!; [done | done | | done].
  intros i Hi. destruct (decide (i = k)) as [-> |]; [done | apply Hk; lia].
Qed.

Lemma counted_search k seen c seen' :
  Symmetric connected -> k < length g -> ~ seen_at seen k ->
  counted k (seen, c) -> flooded (<[k := true]> seen) [k] seen' -> counted (S k) (seen', S c).
Proof.
  intros Hsym Hkg Hns (Hl & Hc & Hk & reps & Hlen & Hnd & Hin & Hsep & Hcov) (Hl' & Hc' & Hm & Hp).
  cbn [fst snd] in *.
  assert (forall i, seen_at (<[k := true]> seen) i <-> seen_at seen i \/ i = k) as Hsi.
  { intros i. apply seen_insert. lia. }
  assert (forall i, seen_at seen i -> seen_at seen' i) as Hm1 by (intros i Hi; apply Hm, Hsi; by left).
  assert (seen_at seen' k) as Hk' by (apply Hm, Hsi; by right).
  assert (forall r, r ∈ reps -> ~ connected r k) as Hsk.
  { intros r Hr Hrk. apply Hns. eapply closed_connected; [exact Hc | by apply Hin | done]. }
  split_and!; cbn [fst snd]; [done | done | |].
  { intros i Hi. destruct (decide (i = k)) as [-> |]; [done | apply Hm1, Hk; lia]. }
  exists (k :: reps). split_and!.
  - cbn. by f_equal.
  - apply NoDup_cons. split; [| done]. intros Hr. by apply (Hsk k Hr).
  - intros r [-> | Hr]%elem_of_cons; [done |]. split; [by apply Hin | by apply Hm1, Hin].
  - intros r r' [-> | Hr]%elem_of_cons [-> | Hr']%elem_of_cons Hrr'; [done | | |].
    + destruct (Hsk r' Hr'). by apply Hsym.
    + by destruct (Hsk r Hr).
    + by apply Hsep.
  - intros i [[Hi | ->]%Hsi | (s & ->%list_elem_of_singleton & Hs)]%Hp.
    + destruct (Hcov i Hi) as (r & Hr & Hri). exists r. split; [by apply list_elem_of_further | done].
    + exists k. split; [apply list_elem_of_here | done].
    + exists k. split; [apply list_elem_of_here | done].
Qed.

Lemma component_step_post k seen c :
  in_range -> Symmetric connected -> k < length g -> counted k (seen, c) ->
  post (component_step (E:=E) g (seen, c) k) (counted (S k)).
Proof.
  intros Hr Hsym Hk Hinv. pose proof Hinv as (Hl & Hc & _). cbn [fst] in *.
  unfold component_step. rewrite <- Hl in Hk. pose proof Hk as [b Hb]%lookup_lt_is_Some.
  rewrite Hb. destruct b; [by apply counted_skip |].
  pose proof (fun i => seen_insert seen k i Hk) as Hsi. eapply post_bind.
  - apply flood_post; [done | by rewrite length_insert | | |].
    + cbn [length]. pose proof (unseen_insert _ _ Hb). pose proof (unseen_le seen). lia.
    + apply Forall_singleton, Hsi. by right.
    + intros i j [Hi | ->]%Hsi Hni Hij.
      * apply Hsi. left. by eapply Hc.
      * destruct Hni. apply list_elem_of_here.
  - intros seen' Hf. eapply counted_search; [done | by rewrite <- Hl | | done | exact Hf].
    unfold seen_at. by rewrite Hb.
Qed.

(** One representative for each class of the connection. *)
Definition represents (reps : list nat) : Prop :=
  NoDup reps /\ (forall r, r ∈ reps -> r < length g) /\
  (forall r r', r ∈ reps -> r' ∈ reps -> connected r r' -> r = r') /\
  (forall i, i < length g -> exists r, r ∈ reps /\ connected r i).

Lemma connected_components_post : in_range -> Symmetric connected ->
  post (connected_components (E:=E) g) (fun n => exists reps, represents reps /\ n = length reps).
Proof.
  intros Hr Hsym. unfold connected_components. eapply post_bind.
  - apply (fold_res_post (fun acc l => exists k, k <= length g /\ l = seq k (length g - k) /\ counted k acc)).
    + exists 0. rewrite Nat.sub_0_r. split_and!; [lia | done | apply counted_start].
    + intros [seen c] x l (k & Hk & Hl & Hc).
      destruct (length g - k) as [| m] eqn:Hm; [done |]. injection Hl as -> ->.
      eapply post_mono; [apply component_step_post; [done | done | lia | exact Hc] |].
      intros acc Ha. exists (S k). split_and!; [lia | f_equal; lia | done].
  - intros [seen c] (k & Hk & Hl & _ & _ & Hs & reps & Hlen & Hnd & Hin & Hsep & Hcov). cbn.
    assert (k = length g) as -> by (destruct (length g - k) eqn:?; [lia | done]).
    exists reps. split; [| done]. split_and!; [done | | done |].
    + intros r Hr'. by apply Hin.
    + intros i Hi. by apply Hcov, Hs.
Qed.

End search.
End EvalComponents.

Module EvalCohesion.
Import CodeGraph Lines EvalCore EvalValue EvalDomain EvalMetrics.
Import AstFacts CodeGraphFacts EvalIndexFacts EvalDet EvalScope EvalComponents.

(** ** Building the method graph *)

Definition symmetric_graph (n : nat) (g : list (gset nat)) : Prop :=
  length g = n /\ (forall i j, edge g i j -> j < n) /\ (forall i j, edge g i j -> edge g j i).

Lemma edge_lt g i j : edge g i j -> i < length g.
Proof. intros (s & Hs & _). by eapply lookup_lt_Some. Qed.

Lemma insert_edge_post {E} g i x : i < length g ->
  post (insert_edge (E:=E) g i x) (fun g' => length g' = length g /\
    forall a b, edge g' a b <-> edge g a b \/ (a = i /\ b = x)).
Proof.
  intros [s Hs]%lookup_lt_is_Some. unfold insert_edge, index_set. rewrite Hs, ret_bind. cbn.
  pose proof (lookup_lt_Some _ _ _ Hs) as Hlt. split; [by rewrite length_insert |].
  intros a b. unfold edge. destruct (decide (a = i)) as [-> | Ha].
  - rewrite list_lookup_insert_eq by done. split.
    + intros (s' & [= <-] & [->%elem_of_singleton | Hb]%elem_of_union); [by right | left; eauto].
    + intros [(s' & Hs' & Hb) | [_ ->]]; eexists; (split; [done |]); [| set_solver].
      assert (s' = s) as -> by congruence. set_solver.
  - rewrite list_lookup_insert_ne by done. split; [by left | by intros [H | [-> _]]].
Qed.

Definition ends (a b i j : nat) : Prop := (i = a /\ j = b) \/ (i = b /\ j = a).

Lemma connect_post {E} g n a b : symmetric_graph n g -> a < n -> b < n ->
  post (connect (E:=E) g a b) (fun g' => symmetric_graph n g' /\
    forall i j, edge g' i j <-> edge g i j \/ (a <> b /\ ends a b i j)).
Proof.
  intros (Hl & Hr & Hs) Ha Hb. unfold connect. destruct (a =? b) eqn:Hab; bool_inv.
  { split; [by repeat split |]. intros i j. tauto. }
  eapply post_bind; [apply insert_edge_post; lia |]. intros g1 (Hl1 & He1).
  eapply post_mono; [apply insert_edge_post; lia |]. intros g2 (Hl2 & He2).
  assert (forall i j, edge g2 i j <-> edge g i j \/ (a <> b /\ ends a b i j)) as He.
  { intros i j. rewrite He2, He1. unfold ends. tauto. }
  split; [| done]. split_and!; [congruence | |].
  - intros i j [H | (_ & [[-> ->] | [-> ->]])]%He; [by eapply Hr | done..].
  - intros i j [H | (? & H)]%He; apply He; [left; by apply Hs | right].
    split; [done |]. unfold ends in *. tauto.
Qed.

(** ** The references of the methods *)
Section refs.
Context (n : nat) (method_pos : gmap bytes nat) (fields : gset bytes).
Context (Hpos : forall m j, method_pos !! m = Some j -> j < n).

Definition to (r : RefRecord) : bytes := Moniker.encoded (target r).

(** The graph and the users after the references [seen], each with the position
    of its method. *)
Definition built (seen : list (nat * RefRecord))
    (acc : list (gset nat) * gmap bytes (list nat)) : Prop :=
  symmetric_graph n acc.1 /\
  (forall i j, edge acc.1 i j <-> i <> j /\ exists a b r,
     (a, r) ∈ seen /\ method_pos !! to r = Some b /\ ends a b i j) /\
  (forall f i, i ∈ get_all f acc.2 <-> f ∈ fields /\ exists r, (i, r) ∈ seen /\ to r = f).

Lemma push_at_get (f f' : bytes) (i : nat) m :
  get_all f' (push_at f i m) = if decide (f' = f) then get_all f m ++ [i] else get_all f' m.
Proof.
  unfold get_all, push_at. case_decide as H; [subst; by rewrite lookup_insert_eq |].
  by rewrite lookup_insert_ne.
Qed.

Lemma users_step (seen : list (nat * RefRecord)) (pos : nat) (r : RefRecord) (users : gmap bytes (list nat)) :
  (forall f i, i ∈ get_all f users <-> f ∈ fields /\ exists r, (i, r) ∈ seen /\ to r = f) ->
  forall f i, i ∈ get_all f (if decide (to r ∈ fields) then push_at (to r) pos users else users) <->
    f ∈ fields /\ exists r', (i, r') ∈ seen ++ [(pos, r)] /\ to r' = f.
Proof.
  intros Hu f i. transitivity (i ∈ get_all f users \/ (f ∈ fields /\ i = pos /\ to r = f)).
  - case_decide as Hf; [| split; [by left |]; intros [H | (? & _ & <-)]; done].
    rewrite push_at_get. case_decide as Hff; [subst f |].
    + rewrite elem_of_app, list_elem_of_singleton. tauto.
    + split; [by left |]. intros [H | (_ & _ & <-)]; done.
  - rewrite Hu. split.
    + intros [(Hf & r' & Hin & <-) | (Hf & -> & <-)]; (split; [done |]).
      * exists r'. rewrite elem_of_app. tauto.
      * exists r. by rewrite elem_of_app, list_elem_of_singleton; split; [right |].
    + intros (Hf & r' & [Hin | [= -> ->]%list_elem_of_singleton]%elem_of_app & <-); [left | by right].
      split; [done |]. by exists r'.
Qed.

Lemma lcom4_ref_post {E} seen pos acc r : built seen acc -> pos < n ->
  post (lcom4_ref (E:=E) method_pos fields pos acc r) (built (seen ++ [(pos, r)])).
Proof.
  intros (Hs & He & Hu) Hp. destruct acc as [g users]. cbn [fst snd] in *. unfold lcom4_ref. cbv zeta.
  eapply post_bind with (P := fun g' => symmetric_graph n g' /\ forall i j, edge g' i j <->
    edge g i j \/ (i <> j /\ exists b, method_pos !! to r = Some b /\ ends pos b i j)).
  - unfold to. destruct (method_pos !! _) as [b |] eqn:Hb.
    + eapply post_mono; [by eapply connect_post, Hpos |]. intros g' (Hs' & He').
      split; [done |]. intros i j. rewrite He'. unfold ends. split.
      * intros [H | (Hab & H)]; [by left | right]. split; [| eauto]. destruct H as [[-> ->] | [-> ->]]; done.
      * intros [H | (Hij & b' & [= <-] & H)]; [by left | right]. split; [| done].
        destruct H as [[-> ->] | [-> ->]]; done.
    + split; [done |]. intros i j. split; [by left |]. by intros [H | (_ & b' & ? & _)].
  - intros g' (Hs' & He'). split_and!; cbn [fst snd]; [done | | by apply users_step].
    intros i j. rewrite He', He. split.
    + intros [(Hij & a & b & r' & Hin & Hb & Hends) | (Hij & b & Hb & Hends)]; (split; [done |]).
      * exists a, b, r'. rewrite elem_of_app. tauto.
      * exists pos, b, r. rewrite elem_of_app, list_elem_of_singleton. tauto.
    + intros (Hij & a & b & r' & [Hin | [= -> ->]%list_elem_of_singleton]%elem_of_app & Hb & Hends).
      * left. split; [done |]. by exists a, b, r'.
      * right. split; [done |]. by exists b.
Qed.

Lemma lcom4_refs_post {E} seen pos acc rs : built seen acc -> pos < n ->
  post (fold_res (lcom4_ref (E:=E) method_pos fields pos) acc rs) (built (seen ++ map (pair pos) rs)).
Proof.
  intros Hb Hp. revert seen acc Hb. induction rs as [| r rs IH]; intros seen acc Hb; cbn [fold_res map].
  { by rewrite app_nil_r. }
  eapply post_bind; [by apply lcom4_ref_post |]. intros acc' Hb'.
  eapply post_mono; [apply IH, Hb' |]. by rewrite <- (assoc_L (++)).
Qed.

Lemma connect_users_post {E} g us : symmetric_graph n g -> Forall (fun i => i < n) us ->
  post (connect_users (E:=E) g us) (fun g' => symmetric_graph n g' /\
    (forall i j, edge g' i j -> edge g i j \/ (i ∈ us /\ j ∈ us)) /\
    (forall i j, edge g i j -> edge g' i j) /\
    (forall i j, i ∈ us -> j ∈ us -> connected g' i j)).
Proof.
  intros Hs Hus. destruct us as [| x us]; cbn [connect_users].
  { split_and!; [done | by left | done | by intros i j ?%not_elem_of_nil]. }
  apply Forall_cons in Hus as [Hx Hus].
  eapply post_mono; [apply (fold_res_post (fun g' rest => exists pre, us = pre ++ rest /\
    symmetric_graph n g' /\ (forall i j, edge g' i j -> edge g i j \/ (i ∈ x :: us /\ j ∈ x :: us)) /\
    (forall i j, edge g i j -> edge g' i j) /\
    (forall j, j ∈ pre -> j = x \/ edge g' x j)))|].
  - exists []. split_and!; [done | done | by left | done | by intros j ?%not_elem_of_nil].
  - intros g1 y rest (pre & -> & Hs1 & Hsound & Hmono & Hstar).
    assert (y < n) as Hy by (rewrite Forall_app, Forall_cons in Hus; tauto).
    eapply post_mono; [by eapply connect_post |]. intros g2 (Hs2 & He2).
    exists (pre ++ [y]). split_and!; [by rewrite <- (assoc_L (++)) | done | | |].
    + intros i j [H | (_ & H)]%He2; [by apply Hsound | right].
      assert (x ∈ x :: pre ++ y :: rest /\ y ∈ x :: pre ++ y :: rest) as [??].
      { split; [apply list_elem_of_here | apply list_elem_of_further]. rewrite elem_of_app, elem_of_cons. tauto. }
      by destruct H as [[-> ->] | [-> ->]].
    + intros i j H. apply He2. left. by apply Hmono.
    + intros j [H | ->%list_elem_of_singleton]%elem_of_app.
      * destruct (Hstar j H) as [-> | Hj]; [by left | right]. apply He2. by left.
      * destruct (decide (x = y)) as [-> | Hxy]; [by left | right]. apply He2. right.
        split; [done |]. by left.
  - intros g' (pre & Hpre & Hs' & Hsound & Hmono & Hstar). rewrite app_nil_r in Hpre. subst pre.
    split_and!; [done | done | done |].
    assert (forall j, j ∈ x :: us -> connected g' x j /\ connected g' j x) as Hc.
    { intros j [-> | Hj]%elem_of_cons; [split; apply rtc_refl |].
      destruct (Hstar j Hj) as [-> | Hj']; [split; apply rtc_refl |].
      split; apply rtc_once; [done | by apply Hs']. }
    intros i j Hi Hj. transitivity x; by apply Hc.
Qed.

Lemma users_loop_post {E} g (L : list (list nat)) :
  symmetric_graph n g -> Forall (Forall (fun i => i < n)) L ->
  post (fold_res (connect_users (E:=E)) g L) (fun g' => symmetric_graph n g' /\
    (forall i j, edge g' i j -> edge g i j \/ exists us, us ∈ L /\ i ∈ us /\ j ∈ us) /\
    (forall i j, edge g i j -> edge g' i j) /\
    (forall us i j, us ∈ L -> i ∈ us -> j ∈ us -> connected g' i j)).
Proof.
  intros Hs HL. revert g Hs. induction HL as [| us L Hus HL IH]; intros g Hs; cbn [fold_res].
  { split_and!; [done | by left | done | by intros us i j ?%not_elem_of_nil]. }
  eapply post_bind; [by apply connect_users_post |]. intros g1 (Hs1 & Hsound1 & Hmono1 & Hc1).
  eapply post_mono; [by apply IH |]. intros g2 (Hs2 & Hsound2 & Hmono2 & Hc2).
  split_and!; [done | | by auto |].
  - intros i j [[H | [Hi Hj]]%Hsound1 | (us' & Hin & H)]%Hsound2; [by left | right..].
    + exists us. split; [apply list_elem_of_here | done].
    + exists us'. split; [by apply list_elem_of_further | done].
  - intros us' i j [-> | Hin]%elem_of_cons Hi Hj; [| by eapply Hc2].
    eapply rtc_subrel; [exact Hmono2 | by apply Hc1].
Qed.

End refs.

(** ** Positions *)

Definition positions (names : list bytes) : gmap bytes nat :=
  foldl (fun m e => <[e.2 := e.1]> m) ∅ (enumerate names).

Lemma positions_lookup names m j :
  NoDup names -> positions names !! m = Some j <-> names !! j = Some m.
Proof.
  unfold positions. induction names as [| x names IH] using rev_ind; intros Hnd.
  { cbn. by rewrite lookup_empty. }
  apply NoDup_app in Hnd as (Hnd & Hx & _). rewrite enumerate_snoc, foldl_app. cbn [foldl fst snd].
  rewrite lookup_insert_Some, lookup_snoc_Some, IH by done. split.
  - intros [[-> <-] | [Hne H]]; [by right | left; split; [by eapply lookup_lt_Some | done]].
  - intros [[Hlt H] | [-> ->]]; [right | by left]. split; [| done]. intros ->.
    eapply Hx; [by eapply list_elem_of_lookup_2 | apply list_elem_of_here].
Qed.

Lemma children_NoDup g i : NoDup (children_of g i).
Proof.
  unfold children_of. generalize (defs g). intros ds.
  induction ds as [| d ds IH] using rev_ind; [apply NoDup_nil_2 |].
  rewrite enumerate_snoc. unfold bucket in *. rewrite omap_app. apply NoDup_app.
  split_and!; [done | |].
  - intros j Hj Hlast. apply list_elem_of_omap in Hj as ([k x] & Hk & Hj).
    apply elem_of_enumerate, lookup_lt_Some in Hk. unfold child_key in *. cbn in *.
    destruct (parent x); [cbn in Hj |done]. case_decide; [|done]. injection Hj as <-.
    destruct (parent d); [cbn in Hlast | by apply not_elem_of_nil in Hlast].
    case_decide; [| by apply not_elem_of_nil in Hlast].
    apply list_elem_of_singleton in Hlast. lia.
  - cbn. destruct (child_key _) as [[k v] |]; [| apply NoDup_nil_2].
    case_decide; [apply NoDup_singleton | apply NoDup_nil_2].
Qed.

(** ** The metric *)

(** A reference of the definition [a] names the definition [b]. *)
Definition refers (g : CodeGraph.t) (a b : nat) : Prop :=
  exists r d, r ∈ refs g /\ source r = a /\ defs g !! b = Some d /\ target r = moniker d.

(** A call between two methods, or a field that both use. *)
Definition linked (g : CodeGraph.t) (fields : list nat) (a b : nat) : Prop :=
  refers g a b \/ refers g b a \/ exists f, f ∈ fields /\ refers g a f /\ refers g b f.

(** One representative for each class of the relation among [members]. *)
Definition classes (members : list nat) (R : nat -> nat -> Prop) (reps : list nat) : Prop :=
  NoDup reps /\ reps ⊆ members /\
  (forall r r', r ∈ reps -> r' ∈ reps -> R r r' -> r = r') /\
  (forall m, m ∈ members -> exists r, r ∈ reps /\ R r m).

Definition shaped (g : CodeGraph.t) (shape : Shape.t) (i : nat) : bool :=
  match defs g !! i with Some d => has_shape d shape | None => false end.

Definition shaped_children (g : CodeGraph.t) (shape : Shape.t) (i : nat) : list nat :=
  List.filter (shaped g shape) (children_of g i).

Definition encoded_of (g : CodeGraph.t) (i : nat) : bytes :=
  match defs g !! i with Some d => Moniker.encoded (moniker d) | None => [] end.

Lemma omap_filter {A} (f : A -> bool) l :
  omap (fun x => if f x then Some x else None) l = List.filter f l.
Proof. induction l as [| x l IH]; cbn; [done |]. destruct (f x); [f_equal |]; exact IH. Qed.

Section spec.
Context {TS : TreeSitter} {TL : TreeSitterLaws TS} {HO : HashOrder} {E : Type}.
Context (ctx : EvalCtx) (Hg : good_ctx ctx).
Abbreviation g := (graph ctx).

Lemma direct_shaped_Ok shape i :
  direct_shaped_idxs (E:=E) shape i ctx = Ok (shaped_children g shape i).
Proof.
  unfold direct_shaped_idxs, direct_child_idxs.
  rewrite (filter_map_res_Ok _ (fun j => if shaped g shape j then Some j else None)).
  - rewrite (ctx_children _ Hg), children_get. unfold shaped_children.
    by rewrite omap_filter.
  - eapply Forall_impl; [apply (children_in ctx Hg) |]. intros j [d Hd]%lookup_lt_is_Some.
    unfold def_at, shaped. by rewrite Hd.
Qed.

Lemma encoded_at_Ok l : Forall (in_defs ctx) l ->
  map_res (encoded_at (E:=E) ctx) l = Ok (encoded_of g <$> l).
Proof.
  intros Hl. apply map_res_Ok. eapply Forall_impl; [exact Hl |].
  intros j [d Hd]%lookup_lt_is_Some. unfold encoded_at, def_at, encoded_of. by rewrite Hd.
Qed.

Lemma out_refs_post i : post (out_refs (E:=E) i ctx)
  (fun rs => forall r, r ∈ rs <-> r ∈ refs g /\ source r = i).
Proof.
  unfold out_refs. rewrite (ctx_out _ Hg), out_get.
  set (at_ j := default (mk_ref 0 (Moniker.mk []) [] None [] [] [] [] None []) (refs g !! j)).
  rewrite (map_res_Ok _ at_).
  - intros r. rewrite list_elem_of_fmap. split.
    + intros (j & -> & (r' & Hr & Hs)%elem_of_refs_from). unfold at_. rewrite Hr. cbn.
      split; [by eapply list_elem_of_lookup_2 | done].
    + intros [[j Hj]%list_elem_of_lookup_1 Hs]. exists j. unfold at_. rewrite Hj.
      split; [done |]. apply elem_of_refs_from. eauto.
  - apply Forall_forall. intros j (r & Hr & _)%elem_of_refs_from. unfold ref_at, at_. by rewrite Hr.
Qed.

Lemma moniker_at i j d d' : defs g !! i = Some d -> defs g !! j = Some d' ->
  Moniker.encoded (moniker d) = Moniker.encoded (moniker d') -> i = j.
Proof.
  intros Hi Hj He. pose proof (wf_nodup _ (ctx_wf _ Hg)) as Hnd.
  assert (moniker d = moniker d') as Hm by (destruct (moniker d), (moniker d'); cbn in *; congruence).
  eapply NoDup_lookup; [exact Hnd | by rewrite list_lookup_fmap; cbn; rewrite Hi |].
  rewrite list_lookup_fmap. cbn. by rewrite Hj, Hm.
Qed.

Lemma names_NoDup l : NoDup l -> Forall (in_defs ctx) l -> NoDup (encoded_of g <$> l).
Proof.
  intros Hnd Hl. rewrite Forall_forall in Hl. apply NoDup_fmap_2_strong; [| done].
  intros i j Hi Hj. apply Hl in Hi as [d Hd]%lookup_lt_is_Some, Hj as [d' Hd']%lookup_lt_is_Some.
  unfold encoded_of. rewrite Hd, Hd'. intros He. by eapply moniker_at.
Qed.

Lemma shaped_children_in shape i : Forall (in_defs ctx) (shaped_children g shape i).
Proof.
  apply Forall_forall. intros j Hj. apply list_elem_of_In, filter_In in Hj as [Hj%list_elem_of_In _].
  pose proof (children_in ctx Hg i) as H. rewrite (ctx_children _ Hg), children_get in H.
  by eapply Forall_forall in H.
Qed.

(** A reference whose target is encoded as the definition [b]. *)
Lemma refers_to a b r :
  r ∈ refs g -> source r = a -> in_defs ctx b -> to r = encoded_of g b -> refers g a b.
Proof.
  intros Hr Hs [d Hd]%lookup_lt_is_Some Ht. exists r, d. split_and!; [done.. |].
  unfold to, encoded_of in Ht. rewrite Hd in Ht.
  destruct (target r), (moniker d); cbn in *; congruence.
Qed.

Lemma refers_inv a b : refers g a b -> exists r, r ∈ refs g /\ source r = a /\ to r = encoded_of g b.
Proof.
  intros (r & d & Hr & Hs & Hd & Ht). exists r. split_and!; [done.. |].
  unfold to, encoded_of. by rewrite Hd, Ht.
Qed.

Section graph.
Context (ms fs : list nat).
Context (Hms : NoDup ms) (Hmin : Forall (in_defs ctx) ms) (Hfin : Forall (in_defs ctx) fs).
Definition method_pos : gmap bytes nat := positions (encoded_of g <$> ms).
Definition fields : gset bytes := list_to_set (encoded_of g <$> fs).
Abbreviation n := (length ms).

Lemma method_pos_lookup m j : method_pos !! m = Some j <-> exists a, ms !! j = Some a /\ m = encoded_of g a.
Proof.
  unfold method_pos. rewrite positions_lookup by (by apply names_NoDup).
  rewrite list_lookup_fmap, fmap_Some. done.
Qed.

Lemma method_pos_lt m j : method_pos !! m = Some j -> j < n.
Proof. intros (a & Ha & _)%method_pos_lookup. by eapply lookup_lt_Some. Qed.

(** All the references of the methods below [k]. *)
Definition seen_below (k : nat) (seen : list (nat * RefRecord)) : Prop :=
  forall p r, (p, r) ∈ seen <-> p < k /\ r ∈ refs g /\ ms !! p = Some (source r).

Lemma built_start : built n method_pos fields [] (repeat ∅ n, ∅).
Proof.
  assert (forall i j, ~ edge (repeat ∅ n) i j) as Hno.
  { intros i j (s & Hs & Hj). apply list_elem_of_lookup_2, list_elem_of_In, repeat_spec in Hs.
    subst s. by apply elem_of_empty in Hj. }
  split_and!; cbn [fst snd]; [| |].
  - split_and!; [apply repeat_length | by intros i j ?%Hno | by intros i j ?%Hno].
  - intros i j. split; [by intros ?%Hno |]. by intros (_ & a & b & r & ?%not_elem_of_nil & _).
  - intros f i. unfold get_all. rewrite lookup_empty. cbn. split; [by intros ?%not_elem_of_nil |].
    by intros (_ & r & ?%not_elem_of_nil & _).
Qed.

Lemma methods_loop_post :
  post (fold_res (lcom4_method (E:=E) ctx method_pos fields) (repeat ∅ n, ∅) (enumerate ms))
    (fun acc => exists seen, built n method_pos fields seen acc /\ seen_below n seen).
Proof.
  eapply post_mono; [apply (fold_res_post (fun acc rest => exists k seen,
    rest = drop k (enumerate ms) /\ k <= n /\ built n method_pos fields seen acc /\ seen_below k seen)) |].
  - exists 0, []. split_and!; [done | lia | apply built_start |]. intros p r. split; [| lia].
    by intros ?%not_elem_of_nil.
  - intros acc [p a] rest (k & seen & Hrest & Hk & Hb & Hseen).
    assert (enumerate ms !! k = Some (p, a)) as Hka.
    { rewrite <- (Nat.add_0_r k), <- lookup_drop, <- Hrest. done. }
    pose proof Hka as Hpa. unfold enumerate in Hpa. rewrite list_lookup_imap in Hpa.
    destruct (ms !! k) as [a' |] eqn:Ha; [| done]. injection Hpa as <- ->.
    pose proof (lookup_lt_Some _ _ _ Ha) as Hlt.
    unfold lcom4_method. cbn [fst snd]. eapply post_bind; [apply out_refs_post |]. intros rs Hrs.
    eapply post_mono; [eapply lcom4_refs_post; [apply method_pos_lt | exact Hb | done] |].
    intros acc' Hb'. eexists (S k), _. split_and!; [| lia | exact Hb' |].
    + rewrite (drop_S _ _ _ Hka) in Hrest. by injection Hrest.
    + intros q r. rewrite elem_of_app, (Hseen q r), (list_elem_of_In (map _ _)), in_map_iff. split.
      * intros [(? & ? & ?) | (r' & [= <- <-] & Hr'%list_elem_of_In)]; [split_and!; [lia | done..] |].
        apply Hrs in Hr' as [? ->]. split_and!; [lia | done..].
      * intros (Hq & Hr & Hs). destruct (decide (q = k)) as [-> |]; [right | left; split_and!; [lia | done..]].
        exists r. split; [done |]. apply list_elem_of_In, Hrs. split; [done |]. congruence.
  - intros acc (k & seen & Hrest & Hk & Hb & Hseen).
    assert (k = n) as ->.
    { symmetry in Hrest. apply (f_equal length) in Hrest. rewrite length_drop in Hrest.
      unfold enumerate in Hrest. rewrite length_imap in Hrest. cbn in Hrest. lia. }
    by exists seen.
Qed.

(** The classes of the finished graph are those of the links. *)
Definition link (i j : nat) : Prop :=
  exists a b, ms !! i = Some a /\ ms !! j = Some b /\ linked g fs a b.

Lemma built_edge seen acc i j :
  built n method_pos fields seen acc -> seen_below n seen -> edge acc.1 i j -> link i j.
Proof.
  intros (_ & He & _) Hseen (Hij & p & q & r & (_ & Hr & Hp)%Hseen & (b & Hb & Ht)%method_pos_lookup & Hends)%He.
  assert (refers g (source r) b) as Href.
  { eapply refers_to; [done | done | | done].
    rewrite Forall_forall in Hmin. by eapply Hmin, list_elem_of_lookup_2. }
  destruct Hends as [[-> ->] | [-> ->]].
  - exists (source r), b. split_and!; [done.. | by left].
  - exists b, (source r). split_and!; [done.. | right; by left].
Qed.

Lemma built_users seen acc f i :
  built n method_pos fields seen acc -> seen_below n seen ->
  i ∈ get_all f acc.2 <->
    exists a v, ms !! i = Some a /\ v ∈ fs /\ f = encoded_of g v /\ refers g a v.
Proof.
  intros (_ & _ & Hu) Hseen. rewrite Hu. unfold fields.
  rewrite elem_of_list_to_set, list_elem_of_fmap. split.
  - intros ((v & -> & Hv) & r & (_ & Hr & Hi)%Hseen & Ht). exists (source r), v.
    split_and!; [done.. |]. eapply refers_to; [done | done | | done].
    by eapply Forall_forall in Hfin.
  - intros (a & v & Hi & Hv & -> & (r & Hr & <- & Ht)%refers_inv). split; [by exists v |].
    exists r. split; [| done]. apply Hseen. split_and!; [by eapply lookup_lt_Some | done..].
Qed.

Lemma built_calls seen acc i j a b :
  built n method_pos fields seen acc -> seen_below n seen ->
  ms !! i = Some a -> ms !! j = Some b -> refers g a b -> connected acc.1 i j /\ connected acc.1 j i.
Proof.
  intros (Hs & He & _) Hseen Hi Hj (r & Hr & <- & Ht)%refers_inv.
  destruct (decide (i = j)) as [-> | Hij]; [split; apply rtc_refl |].
  assert (edge acc.1 i j) as H.
  { apply He. split; [done |]. exists i, j, r. split_and!; [| | by left].
    - apply Hseen. split_and!; [by eapply lookup_lt_Some | done..].
    - apply method_pos_lookup. by exists b. }
  split; apply rtc_once; [done | by apply Hs].
Qed.

Lemma symmetric_connected h : symmetric_graph n h -> Symmetric (connected h).
Proof.
  intros (_ & _ & Hs) i j H. induction H as [i | i k j Hik _ IH]; [apply rtc_refl |].
  eapply rtc_r; [exact IH | by apply Hs].
Qed.

(** The user lists of the map. *)
Lemma users_lists (users : gmap bytes (list nat)) us :
  us ∈ snd <$> hash_order (map_to_list users) <-> exists f, users !! f = Some us.
Proof.
  rewrite list_elem_of_fmap. split.
  - intros ([f us'] & -> & H). rewrite hash_order_perm in H. exists f. by apply elem_of_map_to_list.
  - intros [f H]. exists (f, us). split; [done |]. rewrite hash_order_perm. by apply elem_of_map_to_list.
Qed.

Lemma refers_same a v v' :
  refers g a v -> encoded_of g v = encoded_of g v' -> in_defs ctx v' -> refers g a v'.
Proof. intros (r & Hr & Hs & Ht)%refers_inv He Hv. eapply refers_to; [done.. | congruence]. Qed.

Section final.
Context (seen : list (nat * RefRecord)) (acc : list (gset nat) * gmap bytes (list nat)).
Context (Hb : built n method_pos fields seen acc) (Hseen : seen_below n seen).

Lemma users_of f us i : acc.2 !! f = Some us -> i ∈ us <->
  exists a v, ms !! i = Some a /\ v ∈ fs /\ f = encoded_of g v /\ refers g a v.
Proof. intros Hf. rewrite <- (built_users seen acc) by done. unfold get_all. by rewrite Hf. Qed.

Lemma users_link f us i j : acc.2 !! f = Some us -> i ∈ us -> j ∈ us -> link i j.
Proof.
  intros Hf Hi Hj. apply (users_of f) in Hi as (a & v & Ha & Hv & He & Hra); [| done].
  apply (users_of f) in Hj as (b & w & Hw & Hwf & He' & Hrb); [| done].
  exists a, b. split_and!; [done.. |]. right. right. exists v. split_and!; [done.. |].
  eapply refers_same; [exact Hrb | congruence |]. by eapply Forall_forall in Hfin.
Qed.

Lemma link_connected h i j :
  symmetric_graph n h -> (forall i j, edge acc.1 i j -> edge h i j) ->
  (forall us i j, us ∈ snd <$> hash_order (map_to_list acc.2) -> i ∈ us -> j ∈ us -> connected h i j) ->
  link i j -> connected h i j.
Proof.
  intros Hs Hmono Hc (a & b & Hi & Hj & [Hab | [Hba | (v & Hv & Hav & Hbv)]]).
  - eapply rtc_subrel; [exact Hmono |]. by apply (built_calls seen acc i j a b).
  - eapply rtc_subrel; [exact Hmono |]. by apply (built_calls seen acc j i b a).
  - assert (forall k c, ms !! k = Some c -> refers g c v -> k ∈ get_all (encoded_of g v) acc.2) as Hin.
    { intros k c Hk Hr. apply (built_users seen); [done.. |]. by exists c, v. }
    apply (Hin _ _ Hi) in Hav. apply (Hin _ _ Hj) in Hbv. unfold get_all in *.
    destruct (acc.2 !! encoded_of g v) as [us |] eqn:Hus; [| by apply not_elem_of_nil in Hav].
    eapply Hc; [apply users_lists; by eexists | done..].
Qed.

Lemma final_graph_post :
  post (fold_res (connect_users (E:=E)) acc.1 (snd <$> hash_order (map_to_list acc.2)))
    (fun h => symmetric_graph n h /\ forall i j, connected h i j <-> rtc link i j).
Proof.
  pose proof Hb as (Hs & _ & _). eapply post_mono; [apply (users_loop_post n); [exact Hs |] |].
  { apply Forall_forall. intros us [f Hf]%users_lists. apply Forall_forall.
    intros i (a & _ & Ha & _)%(users_of f); [by eapply lookup_lt_Some | done]. }
  intros h (Hs' & Hsound & Hmono & Hc). split; [done |]. intros i j. split; intros H.
  - eapply rtc_subrel; [| exact H]. intros x y [He | (us & [f Hf]%users_lists & Hx & Hy)]%Hsound.
    + by eapply built_edge.
    + by eapply users_link.
  - induction H as [i | i k j Hik _ IH]; [apply rtc_refl |]. transitivity k; [| exact IH].
    by apply link_connected.
Qed.

End final.

Lemma link_members i j : rtc link i j -> i = j \/ (i < n /\ j < n).
Proof.
  intros H. induction H as [i | i k j (a & b & Hi & Hk & _) _ IH]; [by left | right].
  split; [by eapply lookup_lt_Some |]. destruct IH as [<- | [_ ?]]; [by eapply lookup_lt_Some | done].
Qed.

(** From the positions of the methods to the methods. *)
Definition related (a b : nat) : Prop := a ∈ ms /\ b ∈ ms /\ linked g fs a b.

Lemma link_related i j a b :
  ms !! i = Some a -> ms !! j = Some b -> rtc link i j -> rtc related a b.
Proof.
  intros Hi Hj H. revert a Hi. induction H as [i | i k j (a' & c & Hi' & Hk & Hl) _ IH]; intros a Hi.
  { assert (a = b) as -> by congruence. apply rtc_refl. }
  assert (a' = a) as -> by congruence. eapply rtc_l; [| by apply IH].
  split_and!; [by eapply list_elem_of_lookup_2 | by eapply list_elem_of_lookup_2 | done].
Qed.

Lemma related_link i a b :
  ms !! i = Some a -> rtc related a b -> exists j, ms !! j = Some b /\ rtc link i j.
Proof.
  intros Hi H. revert i Hi. induction H as [a | a c b (_ & [k Hk]%list_elem_of_lookup_1 & Hl) _ IH];
    intros i Hi; [by exists i |].
  destruct (IH k Hk) as (j & Hj & Hkj). exists j. split; [done |].
  eapply rtc_l; [| exact Hkj]. by exists a, c.
Qed.

Definition method_at (i : nat) : nat := default 0 (ms !! i).

Lemma method_at_lookup i : i < n -> ms !! i = Some (method_at i).
Proof. intros [a Ha]%lookup_lt_is_Some. unfold method_at. by rewrite Ha. Qed.

Lemma represents_classes h reps :
  symmetric_graph n h -> (forall i j, connected h i j <-> rtc link i j) -> represents h reps ->
  classes ms (rtc related) (method_at <$> reps).
Proof.
  intros (Hl & _ & _) Hlink (Hnd & Hlt & Hsep & Hcov). rewrite Hl in *.
  assert (forall r, r ∈ reps -> ms !! r = Some (method_at r)) as Hat.
  { intros r Hr. by apply method_at_lookup, Hlt. }
  split_and!.
  - apply NoDup_fmap_2_strong; [| done]. intros r r' Hr Hr' He.
    eapply NoDup_lookup; [exact Hms | by apply Hat |]. rewrite He. by apply Hat.
  - intros a (r & -> & Hr)%list_elem_of_fmap. by eapply list_elem_of_lookup_2, Hat.
  - intros a a' (r & -> & Hr)%list_elem_of_fmap (r' & -> & Hr')%list_elem_of_fmap H.
    f_equal. apply Hsep; [done.. |]. apply Hlink.
    destruct (related_link r _ _ (Hat r Hr) H) as (j & Hj & Hrj).
    by rewrite (NoDup_lookup _ _ _ _ Hms (Hat r' Hr') Hj).
  - intros m [i Hi]%list_elem_of_lookup_1.
    destruct (Hcov i) as (r & Hr & Hri); [by eapply lookup_lt_Some |].
    exists (method_at r). split; [by apply list_elem_of_fmap_2 |].
    eapply link_related; [by apply Hat | exact Hi | by apply Hlink].
Qed.

End graph.

(** The whole computation. *)
Lemma lcom4_post i :
  let methods := shaped_children g Shape.Callable i in
  let fields := shaped_children g Shape.Value i in
  post (lcom4 (E:=E) i ctx) (fun n => exists reps, n = as_u32 (length reps) /\
    classes methods (rtc (related methods fields)) reps).
Proof.
  cbv zeta. set (ms := shaped_children g Shape.Callable i). set (fs := shaped_children g Shape.Value i).
  assert (NoDup ms) as Hms by apply NoDup_ListNoDup, List.NoDup_filter, NoDup_ListNoDup, children_NoDup.
  pose proof (shaped_children_in Shape.Callable i : Forall _ ms) as Hmin.
  pose proof (shaped_children_in Shape.Value i : Forall _ fs) as Hfin.
  unfold lcom4, direct_callable_idxs, direct_value_idxs. rewrite !direct_shaped_Ok, ret_bind.
  fold ms fs. destruct ms as [| m0 ms0] eqn:Hm.
  { exists []. split; [done |]. split_and!; [apply NoDup_nil_2 | done | |].
    - by intros r r' ?%not_elem_of_nil.
    - by intros m ?%not_elem_of_nil. }
  rewrite <- Hm in *. rewrite encoded_at_Ok, ret_bind by done. cbv zeta.
  rewrite ret_bind, encoded_at_Ok, ret_bind by done.
  eapply post_bind; [exact (methods_loop_post ms fs Hms Hmin) |].
  intros [h0 users] (seen & Hb & Hseen).
  eapply post_bind; [exact (final_graph_post ms fs Hms Hmin Hfin seen _ Hb Hseen) |].
  intros h (Hs & Hlink). eapply post_bind.
  { apply connected_components_post; [| by eapply symmetric_connected].
    destruct Hs as (Hl & Hr & _). unfold in_range. by rewrite Hl. }
  intros k (reps & Hreps & ->). exists (method_at ms <$> reps).
  rewrite (length_fmap (method_at ms)). split; [done |].
  by eapply represents_classes.
Qed.

End spec.
End EvalCohesion.

Module EvalMetricsFacts.
Import CodeGraph Lines EvalCore EvalValue EvalDomain EvalMetrics Ast.
Import AstFacts MonikerFacts CodeGraphFacts EvalIndexFacts EvalDet EvalScope EvalCohesion.
Import EvalComponents.

(** ** Parents are shorter *)

Lemma enc_segs_take segs k : k < length segs ->
  length (Moniker.enc_segs (take k segs)) < length (Moniker.enc_segs segs).
Proof.
  intros Hk. rewrite <- (take_drop k segs) at 2. rewrite enc_segs_app, length_app.
  destruct (drop k segs) as [| s l] eqn:Hd.
  { apply (f_equal length) in Hd. rewrite length_drop in Hd. cbn in Hd. lia. }
  rewrite enc_segs_cons, length_app, length_enc_seg. lia.
Qed.

Lemma wrapped_lt k : Moniker.as_u16 k <> 0%N -> N.to_nat (Moniker.as_u16 k - 1) < k.
Proof. unfold Moniker.as_u16. intros H. pose proof (N.Div0.mod_le (N.of_nat k) 65536) as Hle.
  revert H Hle. generalize (N.of_nat k mod 65536)%N. intros n. zify. lia. Qed.

Definition shorter (m p : Moniker.t) : Prop :=
  valid_moniker p /\ length (Moniker.encoded p) < length (Moniker.encoded m).

Lemma parent_shorter {E} m : valid_moniker m ->
  post (Moniker.parent (E:=E) m) (opt_all (shorter m)).
Proof.
  intros (p & segs & H). unfold Moniker.parent.
  rewrite (as_view_valid _ _ _ H), ret_bind, (segment_count_valid _ _ _ H), ret_bind.
  destruct (Moniker.as_u16 (length segs) =? 0)%N eqn:Hc; [done |]. bool_inv.
  rewrite (from_view_valid _ _ _ H), ret_bind. unfold Moniker.truncate.
  cbn [Moniker.project Moniker.segments].
  rewrite (build_valid _ _ _ (valid_take _ _ _ _ H)), ret_bind. cbn. split.
  { eexists _, _. by eapply valid_take. }
  pose proof H as [_ ->]. unfold Moniker.enc_parts. cbn [Moniker.encoded]. rewrite !length_cons, !length_app.
  enough (N.to_nat (Moniker.as_u16 (length segs) - 1) < length segs) as Hlt.
  { pose proof (enc_segs_take segs _ Hlt). lia. }
  by apply wrapped_lt.
Qed.

Section metrics.
Context {TS : TreeSitter} {TL : TreeSitterLaws TS} {HO : HashOrder}.
Context (ctx : EvalCtx) (Hg : good_ctx ctx).
Abbreviation g := (graph ctx).
Abbreviation total m := (det ctx m (fun _ => True)).

Definition any {A} (_ : A) : Prop := True.

Lemma in_refs_post {E} m : post (in_refs (E:=E) m ctx) (Forall (ref_in ctx)).
Proof. unfold in_refs. eapply post_map; [apply (in_in ctx Hg) |]. apply ref_at_post. Qed.

Lemma out_refs_in {E} i : post (out_refs (E:=E) i ctx) (Forall (ref_in ctx)).
Proof. unfold out_refs. eapply post_map; [apply (out_in ctx Hg) |]. apply ref_at_post. Qed.

(** ** Counts *)

Lemma fan_out_spec i : fan_out i ctx = as_u32 (length (refs_from g i)).
Proof.
  unfold fan_out. rewrite (ctx_out _ Hg), out_lookup. by destruct (refs_from g i).
Qed.

Lemma fan_in_spec {E} i d : defs g !! i = Some d ->
  fan_in (E:=E) i ctx = Ok (as_u32 (length (refs_to g (Moniker.encoded (moniker d))))).
Proof.
  intros Hd. unfold fan_in, def_at. rewrite Hd, ret_bind, (ctx_in _ Hg), in_lookup.
  by destruct (refs_to g _).
Qed.

Lemma wmc_spec {E} i : wmc (E:=E) i ctx = Ok (as_u32 (length (shaped_children g Shape.Callable i))).
Proof. unfold wmc, direct_callable_idxs. by rewrite direct_shaped_Ok. Qed.

(** The methods of a definition and what they call. *)
Definition response (ms : list nat) (m : bytes) : Prop :=
  exists a, a ∈ ms /\ (m = encoded_of g a \/
    exists r, r ∈ refs g /\ source r = a /\ is_call_ref_kind (ref_kind r) = true /\ m = to r).

Lemma rfc_step_post {E} set_ a : in_defs ctx a ->
  post (rfc_step (E:=E) ctx set_ a) (fun s => forall m, m ∈ s <-> m ∈ set_ \/ response [a] m).
Proof.
  intros Ha. pose proof Ha as [d Hd]%lookup_lt_is_Some. unfold rfc_step, def_at. rewrite Hd, ret_bind.
  eapply post_bind; [by apply out_refs_post |]. intros rs Hrs m.
  assert (encoded_of g a = Moniker.encoded (moniker d)) as He by (unfold encoded_of; by rewrite Hd).
  rewrite !elem_of_union, elem_of_list_to_set, elem_of_singleton, list_elem_of_fmap. split.
  - intros [[(r & -> & Hr) | ->] | H]; [right; exists a; split; [apply list_elem_of_here |].. | by left].
    + apply list_elem_of_In, filter_In in Hr as [Hr%list_elem_of_In Hk]. apply Hrs in Hr as [Hr Hs].
      right. by exists r.
    + by left.
  - intros [H | (a' & ->%list_elem_of_singleton & [-> | (r & Hr & Hs & Hk & ->)])]; [by right | left..].
    + right. by rewrite He.
    + left. exists r. split; [done |]. apply list_elem_of_In, filter_In. split; [| done].
      by apply list_elem_of_In, Hrs.
Qed.

Lemma rfc_post {E} i : post (rfc (E:=E) i ctx) (fun n => exists s : gset bytes,
  n = as_u32 (size s) /\ forall m, m ∈ s <-> response (shaped_children g Shape.Callable i) m).
Proof.
  unfold rfc, direct_callable_idxs. rewrite direct_shaped_Ok, ret_bind by done.
  pose proof (shaped_children_in ctx Hg Shape.Callable i) as Hin. revert Hin.
  generalize (shaped_children g Shape.Callable i). intros ms Hin.
  eapply post_bind; [apply (fold_res_post (fun s rest => exists pre, ms = pre ++ rest /\
    forall m, m ∈ s <-> response pre m)) |].
  - exists []. split; [done |]. intros m. split; [by intros ?%elem_of_empty |].
    by intros (a & ?%not_elem_of_nil & _).
  - intros s a rest (pre & -> & Hs). apply Forall_app in Hin as [_ [Ha _]%Forall_cons].
    eapply post_mono; [by apply rfc_step_post |]. intros s' Hs'. cbv beta in Hs'. exists (pre ++ [a]).
    rewrite <- (assoc_L (++)). split; [done |]. intros m. rewrite Hs', Hs. unfold response.
    setoid_rewrite elem_of_app. split.
    + intros [(x & Hx & H) | (x & Hx & H)]; exists x; tauto.
    + intros (x & [Hx | Hx] & H); [left | right]; by exists x.
  - intros s (pre & Hpre & Hs). rewrite app_nil_r in Hpre. subst pre. by exists s.
Qed.

(** The definitions that inherit from the definition [i]. *)
Definition inherits (a b : nat) : Prop :=
  exists r, r ∈ refs g /\ source r = a /\ is_inheritance_kind (ref_kind r) = true /\
    to r = encoded_of g b.

Lemma noc_post {E} i : in_defs ctx i -> post (noc (E:=E) i ctx) (fun n => exists s : gset nat,
  n = as_u32 (size s) /\ forall a, a ∈ s <-> inherits a i).
Proof.
  intros [d Hd]%lookup_lt_is_Some. unfold noc, def_at. rewrite Hd, ret_bind.
  unfold in_refs. rewrite (ctx_in _ Hg), in_get.
  set (at_ j := default (mk_ref 0 (Moniker.mk []) [] None [] [] [] [] None []) (refs g !! j)).
  rewrite (map_res_Ok _ at_), ret_bind.
  2: { apply Forall_forall. intros j (r & Hr & _)%elem_of_refs_to. unfold ref_at, at_. by rewrite Hr. }
  eexists. split; [done |]. intros a. rewrite elem_of_list_to_set, list_elem_of_fmap.
  unfold inherits, encoded_of. rewrite Hd. split.
  - intros (r & -> & Hr). apply list_elem_of_In, filter_In in Hr as [Hr%list_elem_of_In Hk].
    apply list_elem_of_fmap in Hr as (j & -> & (r & Hj & Ht)%elem_of_refs_to).
    unfold at_ in *. rewrite Hj in *. exists r. split_and!; [by eapply list_elem_of_lookup_2 | done..].
  - intros (r & [j Hj]%list_elem_of_lookup_1 & <- & Hk & Ht). exists r. split; [done |].
    apply list_elem_of_In, filter_In. split; [| done]. apply list_elem_of_In, list_elem_of_fmap.
    exists j. unfold at_. rewrite Hj. split; [done |]. apply elem_of_refs_to. eauto.
Qed.

(** ** The depth of inheritance *)

Definition inheritance (r : RefRecord) (i : nat) : Prop :=
  r ∈ refs g /\ source r = i /\ is_inheritance_kind (ref_kind r) = true.

(** The inheritance chains that start at a definition and stop when they meet
    one of [visiting] or one of their own again. *)
Inductive chain : gset nat -> nat -> N -> Prop :=
| chain_stop visiting i : chain visiting i 0
| chain_external visiting i r :
    i ∉ visiting -> inheritance r i -> found ctx (target r) None -> chain visiting i 1
| chain_step visiting i r p n :
    i ∉ visiting -> inheritance r i -> found ctx (target r) (Some p) ->
    chain ({[i]} ∪ visiting) p n -> chain visiting i (1 + n).

Definition longest (visiting : gset nat) (i : nat) (d : N) : Prop :=
  chain visiting i d /\ forall n, chain visiting i n -> (n <= d)%N.

Definition in_graph (visiting : gset nat) : Prop := forall i, i ∈ visiting -> in_defs ctx i.

Lemma in_graph_size visiting : in_graph visiting -> size visiting <= length (defs g).
Proof.
  intros H. rewrite <- (size_set_seq (C := gset nat) 0 (length (defs g))).
  apply subseteq_size. intros i Hi. apply elem_of_set_seq. specialize (H i Hi). unfold in_defs in H. lia.
Qed.

Lemma visiting_stops visiting i : i ∈ visiting -> longest visiting i 0.
Proof. intros Hi. split; [constructor |]. intros n Hn. inv Hn; done. Qed.

Lemma found_unique m p q : found ctx m (Some p) -> found ctx m (Some q) -> p = q.
Proof.
  intros (d & Hp & Hd) (d' & Hq & Hd'). eapply moniker_at; [exact Hg | done.. |]. by rewrite Hd, Hd'.
Qed.

Lemma found_none m p : found ctx m None -> ~ found ctx m (Some p).
Proof. intros Hn (d & Hp & <-). apply Hn, list_elem_of_fmap_2. by eapply list_elem_of_lookup_2. Qed.

(** The loop over the references of a definition: [pre] is done. *)
Definition longest_of (visiting : gset nat) (i : nat) (pre : list RefRecord) (d : N) : Prop :=
  chain visiting i d /\
  forall r, r ∈ pre -> inheritance r i ->
    (found ctx (target r) None -> (1 <= d)%N) /\
    (forall p n, found ctx (target r) (Some p) -> chain ({[i]} ∪ visiting) p n -> (1 + n <= d)%N).

Lemma longest_of_all visiting i rs d :
  (forall r, r ∈ rs <-> r ∈ refs g /\ source r = i) ->
  longest_of visiting i rs d -> longest visiting i d.
Proof.
  intros Hrs [Hc Hall]. split; [done |]. intros n Hn. inv Hn; [lia | |].
  - pose proof H0 as (? & ? & _). by apply (Hall r); [apply Hrs | |].
  - pose proof H0 as (? & ? & _). eapply (Hall r); [by apply Hrs | done..].
Qed.

Lemma longest_of_max visiting i pre r d k :
  longest_of visiting i pre d -> chain visiting i k ->
  (found ctx (target r) None -> (1 <= k)%N) ->
  (forall p n, found ctx (target r) (Some p) -> chain ({[i]} ∪ visiting) p n -> (1 + n <= k)%N) ->
  longest_of visiting i (pre ++ [r]) (N.max d k).
Proof.
  intros [Hc Hall] Hk H1 H2. split; [by destruct (N.max_spec d k) as [[_ ->] | [_ ->]] |].
  intros r' [Hr | ->%list_elem_of_singleton]%elem_of_app Hi.
  - destruct (Hall r' Hr Hi) as [Ha Hb]. split; [intros H; specialize (Ha H); lia |].
    intros p n Hp Hn. specialize (Hb p n Hp Hn). lia.
  - split; [intros H; specialize (H1 H); lia |]. intros p n Hp Hn. specialize (H2 p n Hp Hn). lia.
Qed.

(** The depth over one inheritance reference. *)
Definition deep (visiting : gset nat) (i : nat) (r : RefRecord) (k : N) : Prop :=
  chain visiting i k /\
  (found ctx (target r) None -> (1 <= k)%N) /\
  (forall p n, found ctx (target r) (Some p) -> chain ({[i]} ∪ visiting) p n -> (1 + n <= k)%N).

Section refs.
Context (depth_of : nat -> ST EvalState Empty_set N) (visiting : gset nat) (i : nat).
Context (Hi : i ∉ visiting).
Context (Hdepth : forall p, in_defs ctx p -> det ctx (depth_of p) (longest ({[i]} ∪ visiting) p)).

Lemma det_depth r o : inheritance r i -> found ctx (target r) o ->
  det ctx match o with Some p => d ← depth_of p; mret (1 + d)%N | None => mret 1%N end (deep visiting i r).
Proof.
  intros Hinh Ho. destruct o as [p |].
  - pose proof Ho as (dp & Hp & _). eapply det_bind.
    { apply Hdepth. by eapply lookup_lt_Some. }
    intros dep [Hc Hmax]. apply det_ret. split_and!; [by eapply chain_step | by intros ?%(found_none _ p) |].
    intros p' n Hp' Hn. rewrite (found_unique _ _ _ Hp' Ho) in Hn. specialize (Hmax n Hn). lia.
  - apply det_ret. split_and!; [by eapply chain_external | done |].
    intros p n Hp. by destruct (found_none _ _ Ho Hp).
Qed.

Lemma det_dit_refs pre rest d :
  (forall r, r ∈ pre ++ rest <-> r ∈ refs g /\ source r = i) ->
  longest_of visiting i pre d -> det ctx (dit_refs depth_of ctx d rest) (longest visiting i).
Proof.
  revert pre d. induction rest as [| r rest IH]; intros pre d Hrs Hd; cbn [dit_refs].
  { apply det_ret. rewrite app_nil_r in Hrs. by eapply longest_of_all. }
  assert (r ∈ pre ++ r :: rest) as Hr by (apply elem_of_app; right; apply list_elem_of_here).
  apply Hrs in Hr as [Hr Hs].
  assert (forall r', r' ∈ (pre ++ [r]) ++ rest <-> r' ∈ refs g /\ source r' = i) as Hrs'.
  { intros r'. by rewrite <- (assoc_L (++)), <- Hrs. }
  destruct (is_inheritance_kind (ref_kind r)) eqn:Hk; cbn [negb].
  - eapply det_bind; [by apply det_find_def_found |]. intros o Ho.
    eapply det_bind; [by apply det_depth |]. intros k (Hk1 & Hk2 & Hk3).
    apply (IH _ _ Hrs'). by apply longest_of_max.
  - apply (IH _ _ Hrs'). destruct Hd as [Hc Hall]. split; [done |].
    intros r' [Hr' | ->%list_elem_of_singleton]%elem_of_app Hinh; [by apply Hall |].
    destruct Hinh as (_ & _ & ?). congruence.
Qed.

End refs.

Lemma det_dit_from fuel i visiting :
  in_defs ctx i -> in_graph visiting -> length (defs g) < fuel + size visiting ->
  det ctx (dit_from fuel i ctx visiting) (longest visiting i).
Proof.
  revert i visiting. induction fuel as [| fuel IH]; intros i visiting Hi Hv Hf.
  { pose proof (in_graph_size _ Hv). lia. }
  cbn [dit_from]. case_decide as Hin; [by apply det_ret, visiting_stops |].
  eapply det_bind_lift; [by apply out_refs_post |]. intros rs Hrs.
  eapply (det_dit_refs _ _ _ Hin _ []); [exact Hrs |].
  split; [constructor | by intros r ?%not_elem_of_nil].
  Unshelve. intros p Hp. apply IH; [done | |].
  - intros j [->%elem_of_singleton | Hj]%elem_of_union; [done | by apply Hv].
  - rewrite size_union, size_singleton by (by apply disjoint_singleton_l). lia.
Qed.

Lemma det_dit i : in_defs ctx i -> det ctx (dit i ctx) (longest ∅ i).
Proof.
  intros Hi. apply det_dit_from; [done | by intros j ?%elem_of_empty |]. rewrite size_empty. lia.
Qed.

(** ** Coupling *)

Lemma det_nearest fuel cursor :
  opt_all (fun m => valid_moniker m /\ length (Moniker.encoded m) <= fuel) cursor ->
  det ctx (nearest_loop fuel cursor ctx) (opt_all valid_moniker).
Proof.
  revert cursor. induction fuel as [| fuel IH]; intros [m |] Hm; cbn [nearest_loop];
    try by apply det_ret.
  { destruct Hm as [(p & segs & _ & He) Hl]. rewrite He in Hl. cbn in Hl. lia. }
  destruct Hm as [Hv Hl]. eapply det_bind; [by apply det_find_def_found |]. intros o Ho.
  eapply det_bind with (P := opt_all valid_moniker).
  - destruct o as [i |]; [| by apply det_ret]. destruct Ho as (d & Hd & Hdm).
    eapply det_bind_lift with (P := fun d => valid_moniker (moniker d)).
    + unfold def_at. rewrite Hd. cbn. by rewrite Hdm.
    + intros d' Hd'. apply det_ret. by destruct (is_namespace_or_type d').
  - intros [owner |] Ho'; [by apply det_ret |].
    eapply det_bind_lift; [by apply parent_shorter |]. intros up Hup. apply IH.
    destruct up as [p |]; [| done]. destruct Hup as [Hp Hlt]. split; [done |]. lia.
Qed.

Lemma det_nearest_owner d : valid_moniker (moniker d) ->
  det ctx (nearest_namespace_or_type d ctx) (opt_all valid_moniker).
Proof.
  intros Hd. eapply det_bind_lift; [by apply parent_shorter |]. intros cursor Hc. apply det_nearest.
  destruct cursor as [p |]; [| done]. destruct Hc as [Hp Hlt]. split; [done | lia].
Qed.

Lemma external_bucket_post {E} m : valid_moniker m ->
  post (external_bucket (E:=E) m) valid_moniker.
Proof.
  intros Hm. eapply post_bind; [by apply last_kind_post |]. intros k _.
  assert (post (p ← Moniker.parent (E:=E) m; mret (default m p)) valid_moniker) as Hp.
  { eapply post_bind; [by apply parent_post |]. by intros [p |]. }
  by destruct (kind ← k; Shape.shape_of kind) as [[] |].
Qed.

Lemma det_coupling_bucket m : valid_moniker m -> det ctx (coupling_bucket m ctx) valid_moniker.
Proof.
  intros Hm. eapply det_bind; [by apply det_find_def |]. intros [i |] Hi;
    [| by apply det_lift, external_bucket_post].
  eapply det_bind_lift; [by apply (def_at_post ctx) |]. intros d Hd.
  pose proof (def_valid ctx Hg _ _ Hd) as Hv.
  destruct (is_namespace_or_type d); [by apply det_ret |].
  eapply det_bind; [by apply det_nearest_owner |]. intros [o |] Ho; [by apply det_ret |].
  by apply det_lift, external_bucket_post.
Qed.

Lemma det_add_external owner m coupled : valid_moniker owner -> valid_moniker m ->
  total (add_external_coupling owner m ctx coupled).
Proof.
  intros Ho Hm. eapply det_bind_lift; [by apply ancestor_post |]. intros [] _; [by apply det_ret |].
  eapply det_bind; [by apply det_coupling_bucket |]. intros b Hb.
  eapply det_bind_lift; [by apply ancestor_post |]. intros [] _; by apply det_ret.
Qed.

Lemma det_fold {A B} (P : A -> Prop) (f : B -> A -> ST EvalState Empty_set B) acc l :
  Forall P l -> (forall acc x, P x -> total (f acc x)) -> total (fold_st f acc l).
Proof.
  intros Hl Hf. revert acc. induction Hl as [| x l Hx Hl IH]; intros acc; cbn [fold_st];
    [by apply det_ret |].
  eapply det_bind; [by apply Hf |]. intros acc' _. apply IH.
Qed.

Lemma descendant_idxs_post {E} m : valid_moniker m ->
  post (EvalMetrics.descendant_idxs (E:=E) m ctx) (Forall (in_defs ctx)).
Proof.
  intros Hm. eapply post_filter_map with (P := fun e => defs g !! e.1 = Some e.2);
    [eapply enumerate_ok |].
  intros [j d] Hd. cbn [fst snd] in *.
  eapply post_bind; [apply ancestor_post; [done | exact (def_valid ctx Hg _ _ Hd)] |].
  intros [] _; cbn; [| done].
  by eapply lookup_lt_Some.
Qed.

Lemma det_cbo i : in_defs ctx i -> total (cbo i ctx).
Proof.
  intros Hi. eapply det_bind_lift; [by apply (def_at_post ctx) |]. intros d Hd. cbv zeta.
  pose proof (def_valid ctx Hg _ _ Hd) as Hv.
  eapply det_bind_lift; [by apply descendant_idxs_post |]. intros scope Hscope.
  eapply det_bind; [eapply det_fold; [exact Hscope |] |].
  { intros coupled j _. unfold cbo_out_step. eapply det_bind_lift; [apply out_refs_in |].
    intros rs Hrs. eapply det_fold; [exact Hrs |]. intros acc r Hr.
    apply det_add_external; [done | by apply (ref_target_valid ctx)]. }
  intros coupled _. eapply det_bind; [eapply det_fold; [exact Hscope |] |]; [| intros; by apply det_ret].
  intros acc j Hj. unfold cbo_in_step.
  eapply det_bind_lift; [by apply (def_at_post ctx) |]. intros t Ht.
  eapply det_bind_lift; [apply in_refs_post |]. intros rs Hrs.
  eapply det_fold; [exact Hrs |]. intros acc' r Hr. case_decide; [by apply det_ret |].
  eapply det_bind_lift; [apply (def_at_post ctx); by apply (ref_source_in ctx) |]. intros src Hsrc.
  apply det_add_external; [done | exact (def_valid ctx Hg _ _ Hsrc)].
Qed.

(** ** All the metrics *)

Lemma det_metric kind binding i self : in_defs ctx i -> in_defs ctx self ->
  total (eval_metric kind binding i self ctx).
Proof.
  intros Hi Hs. unfold eval_metric. cbv zeta.
  assert (in_defs ctx (resolve_binding_idx binding i self)) as Ht by (by destruct binding).
  revert Ht. generalize (resolve_binding_idx binding i self). intros t Ht.
  eapply det_bind with (P := fun _ => True); [| intros; by apply det_ret].
  destruct kind.
  - apply det_lift. eapply post_mono; [by apply lcom4_post | done].
  - by apply det_cbo.
  - apply det_lift. eapply post_mono; [by apply rfc_post | done].
  - apply det_lift. by rewrite wmc_spec.
  - eapply det_mono; [by apply det_dit | done].
  - apply det_lift. eapply post_mono; [by apply noc_post | done].
  - apply lookup_lt_is_Some in Ht as [d Hd]. apply det_lift. by rewrite (fan_in_spec _ d).
  - by apply det_ret.
Qed.

End metrics.
End EvalMetricsFacts.
