(* ===== verification/EvalLayoutFacts.v ===== *)
(** The vertical layout: the walk over the descendants visits each of them once,
    the groups partition the items, and the suggested order is a permutation that
    leaves the other items where they are. *)

From stdpp Require Import sorting.
From S2P Require Import Prelude.
From S2P Require Import RustStr.
From S2P Require Import Moniker.
From S2P Require Import CodeGraph.
From S2P Require Import CodeGraphFacts.
From S2P Require Import DslAst.
From S2P Require Import DslTheorems.
From S2P Require Import Syntax.
From S2P Require Import EvalCore.
From S2P Require Import EvalDomain.
From S2P Require Import EvalLayout.
From S2P Require Import EvalDet.
From S2P Require Import EvalMetricsFacts.

Module EvalLayoutFacts.
Import CodeGraph EvalCore EvalDomain EvalLayout Ast.
Import AstFacts CodeGraphFacts EvalIndexFacts EvalDet EvalScope EvalCohesion.

(** ** Groups *)
Section groups.
Context {K A : Type} {HK : EqDecision K}.

Lemma push_group_permutation (k : K) (x : A) gs :
  concat (push_group k x gs).*2 ≡ₚ concat gs.*2 ++ [x].
Proof.
  induction gs as [| [k' xs] gs IH]; cbn [push_group]; [done |].
  case_decide; cbn; [| by rewrite IH, (assoc_L (++))].
  rewrite <- !(assoc_L (++)). f_equiv. apply Permutation_app_comm.
Qed.

Lemma push_group_keys (k : K) (x : A) gs :
  (push_group k x gs).*1 = gs.*1 /\ k ∈ gs.*1 \/ (push_group k x gs).*1 = gs.*1 ++ [k] /\ k ∉ gs.*1.
Proof.
  induction gs as [| [k' xs] gs IH]; cbn [push_group].
  { right. split; [done |]. apply not_elem_of_nil. }
  case_decide as Hk; cbn; rewrite elem_of_cons; [left; split; [done | by left] |].
  destruct IH as [[-> ?] | [-> ?]]; [left | right]; (split; [done |]); [by right |].
  intros [-> | ?]; done.
Qed.

Lemma push_group_members (P : K -> A -> Prop) (k : K) (x : A) gs :
  P k x -> Forall (fun e => Forall (P e.1) e.2) gs ->
  Forall (fun e => Forall (P e.1) e.2) (push_group k x gs).
Proof.
  intros Hx Hg. induction Hg as [| [k' xs] gs He Hg IH]; cbn [push_group].
  { repeat constructor. exact Hx. }
  case_decide as Hk; constructor; [| done | done | done].
  cbn in *. subst. apply Forall_app. split; [done | by constructor].
Qed.

Definition collect (key : A -> K) (items : list A) : list (K * list A) :=
  foldl (fun gs x => push_group (key x) x gs) [] items.

Lemma collect_snoc key items x : collect key (items ++ [x]) = push_group (key x) x (collect key items).
Proof. unfold collect. by rewrite foldl_app. Qed.

Lemma collect_permutation key items : concat (collect key items).*2 ≡ₚ items.
Proof.
  induction items as [| x items IH] using rev_ind; [done |].
  by rewrite collect_snoc, push_group_permutation, IH.
Qed.

Lemma collect_keys key items : NoDup (collect key items).*1.
Proof.
  induction items as [| x items IH] using rev_ind; [apply NoDup_nil_2 |]. rewrite collect_snoc.
  destruct (push_group_keys (key x) x (collect key items)) as [[-> _] | [-> Hn]]; [done |].
  apply NoDup_app. split_and!; [done | | apply NoDup_singleton].
  by intros k Hk ->%list_elem_of_singleton.
Qed.

Lemma collect_members key items :
  Forall (fun e => Forall (fun x => key x = e.1) e.2) (collect key items).
Proof.
  induction items as [| x items IH] using rev_ind; [constructor |]. rewrite collect_snoc.
  by apply (push_group_members (fun k x => key x = k)).
Qed.

End groups.

(** ** Insertions *)

Lemma insert_vec_Ok {E A} (l : list A) i x : i <= length l ->
  insert_vec (E:=E) l i x = Ok (take i l ++ x :: drop i l).
Proof. intros H. unfold insert_vec. by rewrite (proj2 (Nat.leb_le _ _) H). Qed.

Lemma insert_vec_permutation {A} (l : list A) i x : take i l ++ x :: drop i l ≡ₚ x :: l.
Proof. rewrite <- Permutation_middle, take_drop. done. Qed.

Lemma insert_vec_sublist {A} (k l : list A) i x :
  k `sublist_of` l -> k `sublist_of` take i l ++ x :: drop i l.
Proof.
  intros H. etransitivity; [exact H |]. rewrite <- (take_drop i l) at 1.
  apply sublist_app; [done |]. by apply sublist_cons.
Qed.

(** What the targets stand for. *)
Definition items_of (by_idx : gmap nat LayoutItem) (targets : list nat) : list LayoutItem :=
  omap (fun t => by_idx !! t) targets.

Lemma insert_targets_spec {E} by_idx at_ targets order : at_ <= length order ->
  exists order', insert_targets (E:=E) by_idx at_ targets order = Ok order' /\
    order' ≡ₚ items_of by_idx targets ++ order /\ order `sublist_of` order'.
Proof.
  revert at_ order. induction targets as [| t targets IH]; intros at_ order Hat; cbn [insert_targets].
  { by exists order. }
  unfold items_of. cbn [omap list_omap]. destruct (by_idx !! t) as [item |]; [| by apply IH].
  rewrite insert_vec_Ok, ret_bind by done.
  destruct (IH (at_ + 1) (take at_ order ++ item :: drop at_ order)) as (order' & Ho & Hp & Hs).
  { rewrite length_app, length_take. cbn. rewrite length_drop. lia. }
  exists order'. split_and!; [done | |].
  - rewrite Hp, insert_vec_permutation. cbn. symmetry. apply Permutation_middle.
  - etransitivity; [| exact Hs]. by apply insert_vec_sublist.
Qed.

Lemma place_groups_spec {E} by_idx groups order :
  exists order', place_groups (E:=E) by_idx groups order = Ok order' /\
    order' ≡ₚ items_of by_idx (concat groups.*2) ++ order /\ order `sublist_of` order'.
Proof.
  revert order. induction groups as [| [a targets] groups IH]; intros order; cbn [place_groups].
  { by exists order. }
  destruct (insert_targets_spec (E:=E) by_idx (insert_point a order) targets order) as
    (order1 & -> & Hp1 & Hs1); [unfold insert_point; lia |].
  rewrite ret_bind. destruct (IH order1) as (order2 & Ho2 & Hp2 & Hs2).
  exists order2. split_and!; [done | | by etransitivity].
  rewrite Hp2, Hp1. cbn. unfold items_of. rewrite omap_app, !(assoc_L (++)). f_equiv.
  apply Permutation_app_comm.
Qed.

(** ** Moves *)

Lemma moves_fold moves moved groups :
  list_to_set (concat groups.*2) = moved -> NoDup (concat groups.*2) ->
  let acc := foldl move_step (moved, groups) moves in
  acc.1 = moved ∪ list_to_set (map target_idx moves) /\
  list_to_set (concat acc.2.*2) = acc.1 /\ NoDup (concat acc.2.*2).
Proof.
  revert moved groups. induction moves as [| m moves IH]; intros moved groups Hm Hn; cbn [foldl map].
  { cbn. split_and!; [by rewrite (right_id_L ∅ (∪)) | done | done]. }
  change (move_step (moved, groups) m) with
    (if decide (target_idx m ∈ moved) then (moved, groups)
     else ({[target_idx m]} ∪ moved, push_group (move_anchor m) (target_idx m) groups)).
  case_decide as Hin.
  - destruct (IH moved groups Hm Hn) as (H1 & H2 & H3). cbv zeta. split_and!; [| done | done].
    rewrite H1. cbn. apply set_eq. intros x.
    rewrite !elem_of_union, elem_of_singleton. destruct (decide (x = target_idx m)) as [-> |]; tauto.
  - assert (target_idx m ∉ concat groups.*2) as Hnot.
    { contradict Hin. rewrite <- Hm. by apply elem_of_list_to_set. }
    pose proof (push_group_permutation (move_anchor m) (target_idx m) groups) as Hp.
    destruct (IH ({[target_idx m]} ∪ moved) (push_group (move_anchor m) (target_idx m) groups))
      as (H1 & H2 & H3).
    + rewrite (list_to_set_perm_L _ _ Hp), list_to_set_app_L, Hm. cbn.
      by rewrite (right_id_L ∅ (∪)), (comm_L (∪)).
    + rewrite Hp. apply NoDup_app. split_and!; [done | | apply NoDup_singleton].
      by intros i Hi ->%list_elem_of_singleton.
    + cbv zeta. split_and!; [| done | done]. rewrite H1. cbn.
      by rewrite (assoc_L (∪)), (comm_L (∪) moved).
Qed.

(** ** Items by index *)

Lemma item_by_idx_lookup items item :
  NoDup (map idx items) -> item ∈ items -> item_by_idx items !! idx item = Some item.
Proof.
  unfold item_by_idx. induction items as [| x items IH] using rev_ind; [by intros _ ?%not_elem_of_nil |].
  rewrite map_app, foldl_app. intros (Hn & Hx & _)%NoDup_app Hin. cbn [foldl].
  apply elem_of_app in Hin as [Hin | ->%list_elem_of_singleton].
  - rewrite lookup_insert_ne; [by apply IH |]. intros He.
    apply (Hx (idx item)); [by apply list_elem_of_fmap_2 |]. cbn. rewrite <- He. apply list_elem_of_here.
  - by rewrite lookup_insert_eq.
Qed.

Lemma items_of_targets items targets :
  NoDup (map idx items) -> NoDup targets -> targets ⊆ map idx items ->
  items_of (item_by_idx items) targets ≡ₚ
    List.filter (fun item => bool_decide (idx item ∈ (list_to_set targets : gset nat))) items.
Proof.
  intros Hn Ht Hsub. apply NoDup_Permutation.
  - assert (Forall (fun t => exists item, item ∈ items /\ idx item = t) targets) as Hall.
    { apply Forall_forall. intros t Hti. apply Hsub, list_elem_of_fmap in Hti as (item & -> & Hi). eauto. }
    clear Hsub. induction Hall as [| t targets (item & Hi & <-) Hall IH]; [apply NoDup_nil_2 |].
    apply NoDup_cons in Ht as [Hnt Ht]. unfold items_of. cbn [omap list_omap].
    rewrite item_by_idx_lookup by done. apply NoDup_cons. split; [| by apply IH].
    intros (t & Ht' & He)%list_elem_of_omap. rewrite Forall_forall in Hall.
    destruct (Hall t Ht') as (item' & Hi' & <-). rewrite item_by_idx_lookup in He by done.
    injection He as ->. done.
  - apply NoDup_ListNoDup, List.NoDup_filter, NoDup_ListNoDup. by eapply NoDup_fmap_1.
  - intros item. rewrite (list_elem_of_In (List.filter _ _)), filter_In, <- list_elem_of_In.
    rewrite bool_decide_eq_true, elem_of_list_to_set. unfold items_of. rewrite list_elem_of_omap. split.
    + intros (t & Hti & He). apply Hsub in Hti as Hti'.
      apply list_elem_of_fmap in Hti' as (item' & -> & Hi').
      rewrite item_by_idx_lookup in He by done. by injection He as ->.
    + intros [Hi Hti]. exists (idx item). split; [done |]. by apply item_by_idx_lookup.
Qed.

Lemma filter_partition {A} (f : A -> bool) l :
  List.filter f l ++ List.filter (fun x => negb (f x)) l ≡ₚ l.
Proof.
  induction l as [| x l IH]; cbn; [done |]. destruct (f x); cbn; [by rewrite IH |].
  by rewrite <- Permutation_middle, IH.
Qed.

(** The items that no move names. *)
Definition unmoved (moves : list LayoutMove) (items : list LayoutItem) : list LayoutItem :=
  List.filter (fun item => negb (bool_decide (idx item ∈ map target_idx moves))) items.

Lemma suggested_order_spec {E} items moves :
  NoDup (map idx items) -> map target_idx moves ⊆ map idx items ->
  exists order, suggested_order (E:=E) items moves = Ok order /\
    order ≡ₚ items /\ unmoved moves items `sublist_of` order.
Proof.
  intros Hn Hm. unfold suggested_order.
  destruct (moves_fold moves ∅ []) as (H1 & H2 & H3); [done | apply NoDup_nil_2 |].
  destruct (foldl move_step (∅, []) moves) as [moved groups]. cbn [fst snd] in *.
  assert (moved = list_to_set (map target_idx moves)) as Hmoved by (by rewrite H1, (left_id_L ∅ (∪))).
  destruct (place_groups_spec (E:=E) (item_by_idx items) groups
    (List.filter (fun item => negb (bool_decide (idx item ∈ moved))) items)) as (order & Ho & Hp & Hs).
  exists order. split_and!; [done | |].
  - rewrite Hp, items_of_targets; [| done | done |].
    + rewrite H2. apply filter_partition.
    + intros t Hti. apply Hm. apply (elem_of_list_to_set (C := gset nat)).
      rewrite <- Hmoved, <- H2. by apply elem_of_list_to_set.
  - unfold unmoved. erewrite List.filter_ext; [exact Hs |]. intros item. cbv beta. f_equal. apply bool_decide_ext. rewrite Hmoved. by rewrite elem_of_list_to_set.
Qed.

(** ** The walk over the descendants *)
Section layout.
Context {TS : TreeSitter} {TL : TreeSitterLaws TS} (ctx : EvalCtx) (Hg : good_ctx ctx).
Abbreviation g := (graph ctx).

Definition child (i j : nat) : Prop := exists d, defs g !! j = Some d /\ parent d = Some i.

Lemma child_lt i j : child i j -> i < j /\ in_defs ctx j.
Proof.
  intros (d & Hd & Hp). split; [by eapply (parent_below ctx Hg) | by eapply lookup_lt_Some].
Qed.

Lemma elem_of_child i j : j ∈ children_of g i <-> child i j.
Proof. apply elem_of_children. Qed.

(** The definitions met so far: each is in the graph, and is a child of the
    owner or of a definition whose children are all met. *)
Definition frontier (owner : nat) (visited todo : list nat) : Prop :=
  NoDup (visited ++ todo) /\ Forall (in_defs ctx) (visited ++ todo) /\
  (owner ∉ visited ++ todo) /\
  (forall j, j ∈ visited ++ todo -> exists i, child i j /\ (i = owner \/ i ∈ visited)).

Lemma frontier_bound owner visited todo :
  frontier owner visited todo -> length visited + length todo <= length (defs g).
Proof.
  intros (Hn & Hd & _). rewrite <- length_app. rewrite <- (length_seq (length (defs g)) 0).
  apply submseteq_length, NoDup_submseteq; [done |]. intros j Hj.
  rewrite Forall_forall in Hd. apply elem_of_seq. specialize (Hd j Hj). unfold in_defs in Hd. lia.
Qed.

Lemma frontier_step owner visited i todo :
  frontier owner visited (i :: todo) -> owner < i ->
  frontier owner (visited ++ [i]) (todo ++ children_of g i).
Proof.
  intros (Hn & Hd & Ho & Hp) Hlt.
  replace ((visited ++ [i]) ++ todo ++ children_of g i)
    with ((visited ++ i :: todo) ++ children_of g i) by (by rewrite <- !(assoc_L (++))).
  unfold frontier. replace ((visited ++ [i]) ++ todo ++ children_of g i)
    with ((visited ++ i :: todo) ++ children_of g i) by (by rewrite <- !(assoc_L (++))).
  assert (i ∉ visited) as Hi.
  { apply NoDup_app in Hn as (_ & Hn & _). intros Hi. apply (Hn i Hi), list_elem_of_here. }
  assert (forall j, j ∈ visited ++ i :: todo -> j ∉ children_of g i) as Hnew.
  { intros j Hj (dj & Hdj & Hpj)%elem_of_child.
    destruct (Hp j Hj) as (k & (dk & Hdk & Hpk) & Hk).
    assert (k = i) as -> by congruence. destruct Hk as [-> | ?]; [lia | done]. }
  split_and!.
  - apply NoDup_app. split_and!; [done | exact Hnew | apply children_NoDup].
  - apply Forall_app. split; [done |]. apply Forall_forall. intros j Hj%elem_of_child.
    exact (proj2 (child_lt _ _ Hj)).
  - intros [? | Hj%elem_of_child]%elem_of_app; [done |]. apply child_lt in Hj. lia.
  - intros j [Hj | Hj]%elem_of_app.
    + destruct (Hp j Hj) as (k & Hk & Hor). exists k. split; [done |].
      destruct Hor as [-> | Hv]; [by left | right]. apply elem_of_app. by left.
    + exists i. split; [by apply elem_of_child | right]. apply elem_of_app. right. apply list_elem_of_here.
Qed.

Lemma queue_loop_post {E} fuel owner visited todo :
  frontier owner visited todo -> (forall j, j ∈ todo -> owner < j) ->
  length (defs g) <= fuel + length visited ->
  post (queue_loop (E:=E) fuel (children_by_parent ctx) todo) (fun l =>
    NoDup (visited ++ l) /\ Forall (in_defs ctx) l /\
    forall j, j ∈ l <-> exists i, i ∈ todo /\ rtc child i j).
Proof.
  revert visited todo. induction fuel as [| fuel IH]; intros visited [| i todo] Hf Hlt Hfuel;
    cbn [queue_loop]; try (pose proof (frontier_bound _ _ _ Hf) as Hb; cbn in Hb; lia).
  1,2: destruct Hf as (Hn & _); split_and!; [done | constructor |];
    intros j; split; [by intros ?%not_elem_of_nil | by intros (i & ?%not_elem_of_nil & _)].
  rewrite (ctx_children _ Hg), children_get. rewrite (ctx_children _ Hg) in IH.
  assert (owner < i) as Hi by (apply Hlt, list_elem_of_here).
  eapply post_bind.
  { apply (IH (visited ++ [i])); [by apply frontier_step | | rewrite length_app; cbn; lia].
    intros j [Hj | Hj%elem_of_child]%elem_of_app; [by apply Hlt, list_elem_of_further |].
    apply child_lt in Hj. lia. }
  intros l (Hn & Hd & Hl). split_and!.
  - by rewrite <- (assoc_L (++)) in Hn.
  - constructor; [| done]. destruct Hf as (_ & Hf & _). by apply Forall_app in Hf as [_ [? _]%Forall_cons].
  - intros j. rewrite elem_of_cons, Hl. split.
    + intros [-> | (k & [Hk | Hk%elem_of_child]%elem_of_app & Hkj)].
      * exists i. split; [apply list_elem_of_here | apply rtc_refl].
      * exists k. split; [by apply list_elem_of_further | done].
      * exists i. split; [apply list_elem_of_here | by eapply rtc_l].
    + intros (k & [-> | Hk]%elem_of_cons & Hkj).
      * inv Hkj as [| x y z Hxy Hyz]; [by left | right]. exists y. split; [| done].
        apply elem_of_app. right. by apply elem_of_child.
      * right. exists k. split; [apply elem_of_app; by left | done].
Qed.

Lemma tc_child i j : tc child i j <-> exists k, k ∈ children_of g i /\ rtc child k j.
Proof.
  split.
  - intros [x y H%elem_of_child | x y z H%elem_of_child Ht]; [exists y; split; [done | apply rtc_refl] |].
    exists y. split; [done | by apply tc_rtc].
  - intros (k & Hk%elem_of_child & [-> | H]%rtc_tc); [by apply tc_once | by eapply tc_l].
Qed.

Lemma descendants_post {E} owner : in_defs ctx owner ->
  post (descendant_idxs (E:=E) owner ctx) (opt_all (fun l =>
    NoDup l /\ Forall (in_defs ctx) l /\ forall j, j ∈ l <-> tc child owner j)).
Proof.
  intros Ho. unfold descendant_idxs.
  assert (children_by_parent ctx !! owner =
    match children_of g owner with [] => None | l => Some l end) as ->.
  { by rewrite (ctx_children _ Hg), children_lookup. }
  destruct (children_of g owner) as [| c cs] eqn:Hc; [done |]. rewrite <- Hc.
  eapply post_bind; [apply (queue_loop_post _ owner []) |].
  - split_and!; cbn [app].
    + apply children_NoDup.
    + apply Forall_forall. intros j Hj%elem_of_child. exact (proj2 (child_lt _ _ Hj)).
    + intros Hj%elem_of_child. apply child_lt in Hj. lia.
    + intros j Hj%elem_of_child. exists owner. split; [done | by left].
  - intros j Hj%elem_of_child. exact (proj1 (child_lt _ _ Hj)).
  - cbn. lia.
  - intros l (Hn & Hd & Hl). cbn. split_and!; [done | done |]. intros j. rewrite Hl. symmetry.
    apply tc_child.
Qed.

(** ** The items *)

Lemma region_post {E} fuel owner i cursor :
  opt_all (fun j => j < fuel /\ in_defs ctx j) cursor ->
  post (region_loop (E:=E) fuel ctx owner i cursor) (fun _ => True).
Proof.
  revert cursor. induction fuel as [| fuel IH]; intros [j |] Hj; cbn in Hj; try lia;
    cbn [region_loop]; try done.
  destruct Hj as [Hj Hin]. case_match; [done |].
  eapply post_bind; [by apply (def_at_post ctx) |]. intros d Hd. case_match; [done |].
  apply IH. destruct (parent d) as [p |] eqn:Hp; [| done]. cbn.
  pose proof (parent_below ctx Hg _ _ _ Hd Hp). unfold in_defs in *. lia.
Qed.

(** An item stands for a definition of the graph. *)
Definition layout_ok (item : LayoutItem) : Prop := in_defs ctx (idx item).

Lemma layout_item_post {E} domain owner e : in_defs ctx e.2 ->
  post (layout_item (E:=E) domain owner ctx e) (opt_all (fun item => idx item = e.2)).
Proof.
  destruct e as [k i]. cbn [snd]. intros Hi. unfold layout_item.
  eapply post_bind; [by apply (def_at_post ctx) |]. intros d Hd.
  case_match; [done |]. destruct (position d) as [[s e] |], (line_range_of d ctx) as [[sl el] |]; try done.
  eapply post_bind; [apply def_name_post, (def_valid ctx Hg _ _ Hd) |]. intros name _.
  eapply post_bind; [apply region_post; by split |]. done.
Qed.

(** A loop keeps the keys of what it keeps, in order. *)
Lemma post_filter_keys {E A B K} (f : A -> res E (option B)) (key : A -> K) (key' : B -> K) l :
  Forall (fun x => post (f x) (opt_all (fun y => key' y = key x))) l ->
  post (filter_map_res f l) (fun l' => map key' l' `sublist_of` map key l).
Proof.
  induction 1 as [| x l Hx Hl IH]; cbn [filter_map_res]; [by apply sublist_nil |].
  eapply post_bind; [exact Hx |]. intros o Ho. eapply post_bind; [exact IH |]. intros rest Hr.
  destruct o as [y |]; cbn in *; [rewrite Ho; by apply sublist_skip | by apply sublist_cons].
Qed.

Lemma layout_items_post {E} domain owner : in_defs ctx owner ->
  post (layout_items (E:=E) domain owner ctx) (opt_all (fun items =>
    NoDup (map idx items) /\ Forall layout_ok items)).
Proof.
  intros Ho. eapply post_bind; [by apply descendants_post |]. intros [l |] Hl; [| done].
  destruct Hl as (Hn & Hd & _). eapply post_bind.
  { apply (post_filter_keys _ snd idx). apply Forall_forall. intros [k i] Hk.
    apply layout_item_post. cbn. apply elem_of_enumerate in Hk.
    rewrite Forall_lookup in Hd. by eapply Hd. }
  intros items Hs. cbn.
  assert (map snd (enumerate l) = l) as Hl.
  { unfold enumerate. rewrite fmap_imap. apply list_eq. intros k. rewrite list_lookup_imap.
    by destruct (l !! k). }
  rewrite Hl in Hs. split; [by eapply sublist_NoDup |].
  apply Forall_forall. intros item Hi. unfold layout_ok. rewrite Forall_forall in Hd. apply Hd.
  eapply elem_of_submseteq; [| by apply sublist_submseteq]. by apply list_elem_of_fmap_2.
Qed.

(** ** The moves *)

Definition use_ok (u : FirstUse) : Prop := in_defs ctx (source_idx u).

Lemma local_use_post {E} item selected regions r : in_refs_range ctx r ->
  post (local_use (E:=E) item selected regions ctx r) (opt_all use_ok).
Proof.
  intros Hr. eapply post_bind; [by apply (ref_at_post ctx) |]. intros rec Hrec.
  case_match; [done |]. case_match; [done |]. cbn.
  destruct (ref_position rec) as [p |]; [| done]. cbn. by apply (ref_source_in ctx Hg).
Qed.

Lemma min_use_ok uses : Forall use_ok uses -> opt_all use_ok (min_use uses).
Proof.
  intros H. unfold min_use. assert (opt_all use_ok (None : option FirstUse)) as Hbest by done.
  revert Hbest. generalize (None : option FirstUse). induction H as [| u uses Hu H IH];
    intros best Hbest; cbn [foldl]; [done |].
  apply IH. destruct best as [b |]; [| done]. by destruct (use_ltb u b).
Qed.

Lemma first_use_post {E} item selected regions : layout_ok item ->
  post (first_local_use (E:=E) item selected regions ctx) (opt_all use_ok).
Proof.
  intros Hi. eapply post_bind; [by apply (def_at_post ctx) |]. intros d Hd.
  destruct (in_refs_by_target ctx !! _) as [rs |] eqn:Hrs; [| done].
  eapply post_bind.
  - eapply post_filter_map; [| intros r; apply local_use_post].
    pose proof (in_in ctx Hg (Moniker.encoded (moniker d))) as H. unfold get_all in H.
    by rewrite Hrs in H.
  - intros uses Hu. by apply min_use_ok.
Qed.

Lemma private_move_post {E} layout selected regions item : layout_ok item ->
  post (private_move (E:=E) layout selected regions ctx item) (opt_all (fun m => target_idx m = idx item)).
Proof.
  intros Hi. unfold private_move. case_match; [done |].
  eapply post_bind; [by apply first_use_post |]. intros [u |] Hu; [| done].
  eapply post_bind; [by apply (def_at_post ctx) |]. intros caller Hc.
  eapply post_bind; [apply def_name_post, (def_valid ctx Hg _ _ Hc) |]. intros name _.
  cbv zeta. by case_match.
Qed.

Lemma public_moves_targets items : map target_idx (public_moves items) ⊆ map idx items.
Proof.
  unfold public_moves. destruct (rposition _ _) as [l |]; [| by intros i ?%not_elem_of_nil].
  destruct (items !! l) as [visible |]; [| by intros i ?%not_elem_of_nil].
  intros i (m & -> & ([k item] & Hk%elem_of_enumerate & Hm)%list_elem_of_omap)%list_elem_of_fmap.
  destruct (is_private item && (k <? l)); [| done]. injection Hm as <-. cbn.
  apply list_elem_of_fmap_2. by eapply list_elem_of_lookup_2.
Qed.

Lemma group_post {E} layout items : NoDup (map idx items) -> Forall layout_ok items ->
  post (eval_vertical_layout_group (E:=E) layout ctx items) (outcome_ok ctx).
Proof.
  intros Hn Hok. unfold eval_vertical_layout_group. cbv zeta.
  eapply post_bind with (P := fun ms => map target_idx ms ⊆ map idx items).
  - case_match; [| by intros i ?%not_elem_of_nil].
    eapply post_mono; [apply (post_filter_keys _ idx target_idx) |].
    + eapply Forall_impl; [exact Hok |]. intros item. apply private_move_post.
    + intros ms Hs i Hi. eapply elem_of_submseteq; [exact Hi | by apply sublist_submseteq].
  - intros ms Hms. set (moves := _ ++ ms).
    assert (map target_idx moves ⊆ map idx items) as Hsub.
    { intros i. unfold moves. rewrite map_app. intros [Hi | Hi]%elem_of_app; [| by apply Hms].
      destruct (public_first layout); [by apply public_moves_targets | by apply not_elem_of_nil in Hi]. }
    clearbody moves. destruct moves as [| m moves]; [done |].
    destruct (suggested_order_spec (E:=E) items (m :: moves) Hn Hsub) as (order & -> & _). done.
Qed.

Lemma NoDup_group {A B} (f : A -> B) (gs : list (list A)) l :
  NoDup (map f (concat gs)) -> l ∈ gs -> NoDup (map f l).
Proof.
  induction gs as [| l' gs IH]; [by intros _ ?%not_elem_of_nil |].
  cbn [concat]. rewrite map_app. intros (Hn & _ & Hr)%NoDup_app [-> | Hl]%elem_of_cons; auto.
Qed.

Lemma layout_groups_permutation items : concat (layout_groups items) ≡ₚ items.
Proof. apply (collect_permutation region). Qed.

Lemma layout_groups_ok items : NoDup (map idx items) -> Forall layout_ok items ->
  Forall (fun l => NoDup (map idx l) /\ Forall layout_ok l) (layout_groups items).
Proof.
  intros Hn Hok. apply Forall_forall. intros l Hl. split.
  - eapply NoDup_group; [| exact Hl].
    by rewrite (Permutation_map idx (layout_groups_permutation items)).
  - apply Forall_forall. intros item Hi. rewrite Forall_forall in Hok. apply Hok.
    rewrite <- (layout_groups_permutation items). apply list_elem_of_In, in_concat.
    exists l. by rewrite <- !list_elem_of_In.
Qed.

Lemma groups_loop_post {E} layout gs :
  Forall (fun l => NoDup (map idx l) /\ Forall layout_ok l) gs ->
  post (groups_loop (E:=E) layout ctx gs) (outcome_ok ctx).
Proof.
  induction 1 as [| l gs [Hn Hok] Hgs IH]; cbn [groups_loop]; [done |].
  case_match; [exact IH |]. eapply post_bind; [by apply group_post |]. intros o Ho. by case_match.
Qed.

Lemma layout_post {E} layout owner : in_defs ctx owner ->
  post (eval_vertical_layout (E:=E) layout owner ctx) (outcome_ok ctx).
Proof.
  intros Ho. eapply post_bind; [by apply layout_items_post |]. intros [items |] Hitems; [| done].
  destruct Hitems as [Hn Hok]. case_match; [done |]. apply groups_loop_post, layout_groups_ok.
  - by rewrite (Permutation_map idx (merge_sort_Permutation item_le items)).
  - by rewrite merge_sort_Permutation.
Qed.

End layout.
End EvalLayoutFacts.
