(* ===== verification/EvalFacts.v ===== *)
(** The evaluation of a rule terminates, does not panic, and does not depend on
    the caches of its context. *)

From S2P Require Import Prelude.
From S2P Require Import RustStr.
From S2P Require Import StrFacts.
From S2P Require Import Moniker.
From S2P Require Import MonikerFacts.
From S2P Require Import Uri.
From S2P Require Import CodeGraph.
From S2P Require Import CodeGraphFacts.
From S2P Require Import Path.
From S2P Require Import PathFacts.
From S2P Require Import DslAst.
From S2P Require Import DslTheorems.
From S2P Require Import Suppress.
From S2P Require Import Syntax.
From S2P Require Import EvalCore.
From S2P Require Import EvalValue.
From S2P Require Import EvalDomain.
From S2P Require Import EvalProject.
From S2P Require Import EvalCollection.
From S2P Require Import EvalMetrics.
From S2P Require Import EvalLayout.
From S2P Require Import Eval.
From S2P Require Import EvalDet.
From S2P Require Import EvalWalkFacts.
From S2P Require Import EvalCollectionFacts.
From S2P Require Import EvalMetricsFacts.
From S2P Require Import EvalLayoutFacts.

Module EvalFacts.
Import CodeGraph Lines EvalCore EvalValue EvalWalk EvalDomain EvalProject EvalCollection.
Import EvalMetrics Eval Ast AstFacts CodeGraphFacts MonikerFacts EvalDet EvalScope.
Import EvalWalkFacts EvalCollectionFacts EvalMetricsFacts PathFacts StrFacts.

(** ** Rules *)
Section rules.
Context {RE : RegexEngine}.

(** The monikers of a rule are encodings, and its patterns are texts. The
    aggregates that interpolate between two ranks are left out. *)
Definition interpolates (k : AggregateKind) : bool :=
  match k with Median | Percentile => true | _ => false end.

Fixpoint rule_ok (n : Node) : bool :=
  match n with
  | NAtom (mk_atom lhs _ rhs _ _) => lhs_ok lhs && rhs_ok rhs
  | And l | Or l => forallb rule_ok l
  | Not n => rule_ok n
  | Implies l r => rule_ok l && rule_ok r
  | Require_ p => from_utf8 p
  | NVerticalLayout _ => true
  | Quantifier _ _ f => rule_ok f
  end
with lhs_ok (l : LhsExpr) : bool :=
  match l with Number e => number_ok e | Mode v => domain_value_ok v | _ => true end
with rhs_ok (r : Rhs) : bool :=
  match r with
  | RNumber e => number_ok e
  | RMoniker m => match Moniker.from_encoded (Moniker.encoded m) with Ok _ => true | _ => false end
  | _ => true
  end
with number_ok (e : NumberExpr) : bool :=
  match e with
  | Count _ (Some f) => rule_ok f
  | Aggregate k _ e _ => negb (interpolates k) && number_ok e
  | Entropy v => domain_value_ok v
  | _ => true
  end
with domain_value_ok (v : DomainValueExpr) : bool :=
  match v with
  | mk_domain_value _ e f =>
      match e with VNumber e => number_ok e | _ => true end &&
      match f with Some f => rule_ok f | None => true end
  end.

Lemma moniker_rhs_ok m : rhs_ok (RMoniker m) = true -> valid_moniker m.
Proof.
  cbn. destruct (Moniker.from_encoded _) as [m' | | |] eqn:H; try done. intros _.
  pose proof H as (He & p & segs & Hv)%from_encoded_Ok. exists p, segs.
  destruct m, m'; cbn in *; by subst.
Qed.

Definition fits (k : nat) (n : Node) : Prop := rule_ok n = true /\ height n <= k.

Lemma leaves_list k l :
  Forall (fun n => fits k n -> Forall (fits k) (leaves n)) l ->
  forallb rule_ok l = true -> list_max (map height l) <= k -> Forall (fits k) (concat (map leaves l)).
Proof.
  induction 1 as [| n l Hn Hl IH]; cbn [forallb map concat]; [constructor |]. intros Hok Hh.
  change (list_max (height n :: map height l)) with (Nat.max (height n) (list_max (map height l))) in Hh.
  bool_inv.
  apply Forall_app. split; [apply Hn; split; [done | lia] | apply IH; [done | lia]].
Qed.

Lemma leaves_fit k n : fits k n -> Forall (fits k) (leaves n).
Proof.
  induction n as [n Hn | l IH | l IH | n IH | p c IHp IHc] using tree_ind; intros [Hok Hh].
  - destruct n; try done; by constructor.
  - apply leaves_list; [done.. |]. cbn [height] in Hh. lia.
  - apply leaves_list; [done.. |]. cbn [height] in Hh. lia.
  - cbn [rule_ok height leaves] in *. apply IH. split; [done | lia].
  - cbn [rule_ok height leaves] in *. bool_inv.
    apply Forall_app. split; [apply IHp | apply IHc]; (split; [done | lia]).
Qed.

End rules.

(** ** Comparisons *)
Section compare.
Context {RE : RegexEngine} {E : Type}.

Lemma op_outcome_post l r (ok : option (res E bool)) :
  opt_all (fun m => post m (fun _ => True)) ok -> post (op_outcome l r ok) (fun _ => True).
Proof. destruct ok as [m |]; cbn; [| done]. intros H. by eapply post_bind. Qed.

Lemma values_post l op r : value_ok l -> value_ok r ->
  post (apply_op_values (E:=E) l op r) (fun _ => True).
Proof.
  intros Hl Hr. unfold apply_op_values. destruct l as [s | x | m], r as [s' | y | m']; try done.
  all: apply op_outcome_post; destruct op; try done.
  all: cbn; eauto with eval.
Qed.

Lemma apply_op_post v a : value_ok v ->
  (let '(mk_atom _ _ rhs _ _) := a in rhs_ok rhs = true) ->
  post (apply_op (E:=E) v a) (fun _ => True).
Proof.
  intros Hv Ha. destruct a as [lhs op rhs raw re], v as [s | x | m]; [done | |];
    apply op_outcome_post; destruct op; try done; destruct rhs; try done.
  all: try apply moniker_rhs_ok in Ha; cbn; eauto with eval.
Qed.

End compare.

(** ** Evaluators that call nothing back *)
Section plain.
Context {TS : TreeSitter} {TL : TreeSitterLaws TS} {RE : RegexEngine}.
Context (ctx : EvalCtx) (Hg : good_ctx ctx).
Abbreviation g := (graph ctx).
Abbreviation total m := (det ctx m (fun _ => True)).
Abbreviation sound m := (det ctx m (outcome_ok ctx)).

Lemma det_walk_rule k atom_eval quant_eval require_eval layout_eval n :
  (forall a, fits k (NAtom a) -> total (atom_eval a)) ->
  (forall q d f, fits k (Quantifier q d f) -> sound (quant_eval q d f)) ->
  (forall p, from_utf8 p = true -> sound (require_eval p)) ->
  (forall l, sound (layout_eval l)) ->
  fits k n -> sound (walk_node atom_eval quant_eval require_eval layout_eval n).
Proof.
  intros Ha Hq Hr Hl Hn. apply det_walk. pose proof (leaves_fit _ _ Hn) as Hf.
  pose proof (leaves_are_leaves n) as Hleaf.
  eapply Forall_impl; [apply Forall_and; split; [exact Hf | exact Hleaf] |].
  intros m [Hm Hlm]. destruct m; try done.
  - by apply det_walk_atom, Ha.
  - apply Hr. by destruct Hm.
  - apply Hl.
  - by apply Hq.
Qed.

Lemma det_walk_plain k atom_eval n :
  (forall a, fits k (NAtom a) -> total (atom_eval a)) -> fits k n ->
  sound (walk_node atom_eval no_quantifier no_require no_layout n).
Proof. intros Ha. apply (det_walk_rule k); [exact Ha | intros; by apply det_ret..]. Qed.

(** The parts of an atom of a rule. *)
Lemma fits_atom k lhs op rhs raw re : fits k (NAtom (mk_atom lhs op rhs raw re)) ->
  lhs_ok lhs = true /\ rhs_ok rhs = true /\ lhs_height lhs < k /\ rhs_height rhs < k.
Proof. intros [Hok Hh]. cbn [rule_ok height] in *. bool_inv. split_and!; [done | done | lia | lia]. Qed.

Lemma det_values l op r : value_ok l -> value_ok r ->
  total (lift (apply_op_values l op r)).
Proof. intros. by apply det_lift, values_post. Qed.

Lemma det_apply_op v lhs op rhs raw re : value_ok v -> rhs_ok rhs = true ->
  total (lift (apply_op v (mk_atom lhs op rhs raw re))).
Proof. intros. by apply det_lift, apply_op_post. Qed.

Lemma segment_value_ok lhs k n : opt_all value_ok (segment_value lhs k n).
Proof. by destruct lhs. Qed.

Lemma det_node_segment k n kind name : fits k n -> sound (eval_node_segment n kind name).
Proof.
  apply det_walk_plain. intros [lhs op rhs raw re] (Hl & Hr & _)%fits_atom. unfold eval_atom_segment.
  cbv zeta. set (value := match lhs with Attr l => segment_value l kind name | _ => None end).
  assert (opt_all value_ok value) as Hv by (destruct lhs; try done; apply segment_value_ok).
  destruct value as [v |]; [| by apply det_ret].
  destruct rhs as [e | s | m | s | p | other | other | p | c]; try by apply det_apply_op.
  - destruct (eval_number_expr_segment e); [by apply det_values | by apply det_ret].
  - pose proof (segment_value_ok other kind name) as Ho.
    destruct (segment_value other kind name); [by apply det_values | by apply det_ret].
Qed.

Lemma det_external k n d : valid_moniker (moniker d) -> fits k n ->
  sound (eval_external_def_node n d ctx).
Proof.
  intros Hd. apply det_walk_plain. intros [lhs op rhs raw re] (Hl & Hr & _)%fits_atom.
  unfold eval_external_def_atom. destruct lhs as [l | e | c | v | p | s kind]; try by apply det_ret.
  eapply det_bind_lift; [by apply (project_def_post ctx) |]. intros [v |] Hv; [| by apply det_ret].
  destruct rhs as [e | s | m | s | p | other | other | p | c]; try by apply det_apply_op.
  eapply det_bind_lift; [by apply (project_def_post ctx) |].
  intros [w |] Hw; [by apply det_values | by apply det_apply_op].
Qed.

(** *** Syntax nodes *)

Lemma named_parent_post fuel p :
  match p with Some p => S (node_depth p) < fuel | None => 0 < fuel end ->
  post (named_parent fuel p) (fun _ => True).
Proof.
  revert p. induction fuel as [| fuel IH]; intros [p |] Hp; try lia; cbn [named_parent]; [| done].
  case_match; [done |]. apply IH.
  destruct (node_parent p) as [q |] eqn:Hq; [pose proof (parent_depth _ _ Hq) |]; lia.
Qed.

Lemma ast_string_post node lhs : post (project_ast_string node lhs ctx) (fun _ => True).
Proof.
  destruct lhs; try done. cbn [project_ast_string].
  eapply post_bind with (P := fun _ => True); [| done]. apply named_parent_post.
  destruct (node_parent node) as [p |] eqn:Hp; [rewrite (parent_depth _ _ Hp) |]; lia.
Qed.

Lemma ast_lhs_ok lhs node : opt_all value_ok (ast_lhs_value lhs node).
Proof. destruct lhs as [l | e | c | v | p | s k]; try done; [| destruct e; try done]; apply project_ast_ok. Qed.

Lemma det_ast_value_atom lhs op rhs raw re node : rhs_ok rhs = true ->
  total (eval_ast_value_atom (mk_atom lhs op rhs raw re) node).
Proof.
  intros Hr. unfold eval_ast_value_atom. pose proof (ast_lhs_ok lhs node) as Hv.
  destruct (ast_lhs_value lhs node) as [v |]; [| by apply det_ret]. cbv zeta.
  assert (forall o, opt_all value_ok o -> total
    match o with Some rhs => lift (apply_op_values v op rhs) | None => mret ANotApplicable end) as Hc.
  { intros [w |] Hw; [by apply det_values | by apply det_ret]. }
  destruct rhs as [e | s | m | s | p | other | other | p | c]; try by apply det_apply_op.
  - destruct e; try (by apply det_ret).
    + by apply (Hc (Some (Value.Number x))).
    + apply Hc, project_ast_ok.
  - apply Hc, project_ast_ok.
Qed.

Lemma det_ast_node k n node : fits k n -> sound (eval_ast_node n node ctx).
Proof.
  intros Hn. eapply det_bind; [| intros o Ho; apply det_ret; by destruct o].
  revert Hn. apply det_walk_plain. intros [lhs op rhs raw re] (Hl & Hr & _)%fits_atom.
  unfold eval_ast_atom. eapply det_bind_lift with (P := fun _ => True).
  { destruct lhs; try done. apply ast_string_post. }
  intros [v |] _; [| by apply det_ast_value_atom].
  destruct rhs; try by apply det_ret.
  eapply det_bind_lift; [apply ast_string_post |]. intros o _. by apply det_ret.
Qed.

(** *** Requirements *)

Lemma lowercase_ascii c : is_ascii c = true -> is_ascii (to_ascii_lowercase c) = true.
Proof.
  unfold to_ascii_lowercase, is_ascii_uppercase, is_ascii. intros Hc.
  destruct (in_range 65 90 c) eqn:H; [| done]. apply in_range_spec in H.
  rewrite N_ascii_embedding; [apply N.ltb_lt |]; lia.
Qed.

Lemma not_uppercase c : is_ascii c = false -> is_ascii_uppercase c = false.
Proof.
  unfold is_ascii_uppercase, is_ascii. intros Hc%N.ltb_ge.
  destruct (in_range 65 90 c) eqn:H; [| done]. apply in_range_spec in H. lia.
Qed.

Lemma snake_copy first c r : Forall (fun b => is_ascii b = false) c -> c <> [] ->
  snake_loop first (c ++ r) = c ++ snake_loop false r.
Proof.
  intros Hc Hne. revert first. induction Hc as [| b c Hb Hc IH]; intros first; [done |].
  cbn [app snake_loop]. rewrite (not_uppercase _ Hb). cbn [app]. f_equal.
  destruct c as [| b' c]; [done | by apply IH].
Qed.

Lemma snake_utf8 name first : from_utf8 name = true -> from_utf8 (snake_loop first name) = true.
Proof.
  intros Hn. revert first.
  apply (utf8_ind (fun name => forall first, from_utf8 (snake_loop first name) = true)); [done | | done].
  clear name Hn. intros c r Hc Hu Hr IH first.
  destruct Hc as [(a & -> & Ha) | [Hl Hc]].
  - cbn [app snake_loop]. rewrite from_utf8_app; [apply IH |]. apply from_utf8_ascii.
    pose proof (lowercase_ascii _ Ha) as Hlow. case_match; [| cbn; by rewrite Ha].
    rewrite forallb_app. cbn [forallb]. rewrite Hlow. by destruct first.
  - rewrite snake_copy, from_utf8_app by (done || destruct c; done || cbn in *; lia). apply IH.
Qed.

Lemma rendered_post pattern d : from_utf8 pattern = true -> valid_moniker (moniker d) ->
  post (render_requirement_pattern (E:=Empty_set) pattern d) (opt_all (fun p => from_utf8 p = true)).
Proof.
  intros Hp Hd. eapply post_bind; [by apply def_name_post |]. intros [name |] Hn; [| done]. cbn in *.
  apply replace_utf8; [done | by apply snake_utf8 | by apply replace_utf8].
Qed.

Lemma any_res_post {E A} (P : A -> Prop) (f : A -> res E bool) l :
  Forall P l -> (forall x, P x -> post (f x) (fun _ => True)) -> post (any_res f l) (fun _ => True).
Proof.
  intros Hl Hf. induction Hl as [| x l Hx Hl IH]; cbn [any_res]; [done |].
  eapply post_bind; [by apply Hf |]. by intros [] _.
Qed.

Lemma det_require pattern d : from_utf8 pattern = true -> valid_moniker (moniker d) ->
  sound (eval_require ctx pattern d).
Proof.
  intros Hp Hd. eapply det_bind_lift; [by apply rendered_post |]. intros [r |] Hr; [| by apply det_ret].
  eapply det_bind_lift with (P := fun _ => True); [| intros; apply det_ret; by case_match].
  unfold local_requirement_exists. pose proof (parse_post r Hr) as Hpost.
  destruct (Path.parse r) as [pat | e | |]; try done.
  apply (any_res_post (fun d => valid_moniker (moniker d))); [| intros; by apply matches_post].
  pose proof (wf_defs _ (ctx_wf _ Hg)) as H. eapply Forall_impl; [exact H |]. done.
Qed.

End plain.
End EvalFacts.
