(* ===== verification/EvalTotal.v ===== *)
(** The evaluators call each other on smaller rules only: from evaluators that
    are total on the rules below a height, the bodies are total one level up. *)

From S2P Require Import Prelude.
From S2P Require Import RustStr.
From S2P Require Import Moniker.
From S2P Require Import CodeGraph.
From S2P Require Import CodeGraphFacts.
From S2P Require Import Path.
From S2P Require Import DslAst.
From S2P Require Import DslTheorems.
From S2P Require Import Suppress.
From S2P Require Import Syntax.
From S2P Require Import EvalCore.
From S2P Require Import EvalValue.
From S2P Require Import EvalDomain.
From S2P Require Import EvalProject.
From S2P Require Import EvalCollection.
From S2P Require Import EvalMetrics.
From S2P Require Import EvalLayout.
From S2P Require Import Eval.
From S2P Require Import EvalDet.
From S2P Require Import EvalCollectionFacts.
From S2P Require Import EvalMetricsFacts.
From S2P Require Import EvalLayoutFacts.
From S2P Require Import EvalFacts.

Module EvalTotal.
Import CodeGraph Lines EvalCore EvalValue EvalWalk EvalDomain EvalProject EvalCollection.
Import EvalMetrics Eval Ast AstFacts CodeGraphFacts EvalIndexFacts EvalDet EvalScope.
Import EvalCollectionFacts EvalMetricsFacts EvalFacts.

Section total.
Context {TS : TreeSitter} {TL : TreeSitterLaws TS} {HO : HashOrder} {L2 : Log2} {RE : RegexEngine}.
Context (ctx : EvalCtx) (Hg : good_ctx ctx).
Abbreviation g := (graph ctx).
Abbreviation total m := (det ctx m (fun _ => True)).
Abbreviation sound m := (det ctx m (outcome_ok ctx)).

Definition number_fits (k : nat) (e : NumberExpr) : Prop := number_ok e = true /\ number_height e <= k.

Definition def_ok (i : nat) (d : DefRecord) : Prop := defs g !! i = Some d.

(** What the evaluators promise on the rules of height [k] at most. *)
Record good (k : nat) (rec : evaluators) : Prop := mk_good_evaluators {
  good_def n d i s : fits k n -> def_ok i d -> in_defs ctx s -> sound (ev_def rec n d i s);
  good_ref n r c : fits k n -> ref_in ctx r -> ref_in ctx c -> sound (ev_ref rec n r c);
  good_pair n a b i s : fits k n -> item_ok ctx a -> item_ok ctx b -> in_defs ctx i ->
    in_defs ctx s -> sound (ev_pair rec n a b i s);
  good_number_def e d i s : number_fits k e -> def_ok i d -> in_defs ctx s ->
    total (ev_number_def rec e d i s);
  good_number_ref e r : number_fits k e -> ref_in ctx r -> total (ev_number_ref rec e r)
}.

(** ** Loops *)

Lemma det_filter_map {A B} (P : A -> Prop) (f : A -> ST EvalState Empty_set (option B)) l :
  Forall P l -> (forall x, P x -> total (f x)) -> total (filter_map_st f l).
Proof.
  intros Hl Hf. induction Hl as [| x l Hx Hl IH]; cbn [filter_map_st]; [by apply det_ret |].
  eapply det_bind; [by apply Hf |]. intros o _. eapply det_bind; [exact IH |].
  intros rest _. by apply det_ret.
Qed.

Lemma det_count_passing {A} (P : A -> Prop) (f : A -> ST EvalState Empty_set NodeOutcome) n l :
  Forall P l -> (forall x, P x -> sound (f x)) -> total (count_passing f n l).
Proof.
  intros Hl Hf. revert n. induction Hl as [| x l Hx Hl IH]; intros n; cbn [count_passing];
    [by apply det_ret |].
  eapply det_bind; [by apply Hf |]. intros o _. apply IH.
Qed.

Lemma det_count_both {A} (P : A -> Prop) (f : A -> ST EvalState Empty_set NodeOutcome) t n l :
  Forall P l -> (forall x, P x -> sound (f x)) -> total (count_both f t n l).
Proof.
  intros Hl Hf. revert t n. induction Hl as [| x l Hx Hl IH]; intros t n; cbn [count_both];
    [by apply det_ret |].
  eapply det_bind; [by apply Hf |]. intros o _. apply IH.
Qed.

Lemma det_count_filtered {A} (P : A -> Prop) (f : Node -> A -> ST EvalState Empty_set NodeOutcome) k filter l :
  Forall P l -> opt_all (fits k) filter -> (forall n x, fits k n -> P x -> sound (f n x)) ->
  total (count_filtered f filter l).
Proof.
  intros Hl Hn Hf. destruct filter as [n |]; cbn [count_filtered]; [| by apply det_ret].
  eapply det_count_passing; [exact Hl |]. intros x. by apply Hf.
Qed.

Lemma pair_iter_ok {A} (P : A -> Prop) l :
  Forall P l -> Forall (fun p => P p.1 /\ P p.2) (pair_iter l).
Proof.
  induction 1 as [| x l Hx Hl IH]; cbn [pair_iter]; [constructor |]. apply Forall_app. split; [| done].
  apply Forall_fmap. eapply Forall_impl; [exact Hl |]. done.
Qed.

Section bodies.
Context (k : nat) (rec : evaluators) (Hrec : good k rec).

(** ** Items *)

Lemma det_item item f self : item_ok ctx item -> in_defs ctx self -> fits k f ->
  sound (eval_domain_item_node rec ctx item f self).
Proof.
  intros Hi Hs Hf. destruct item as [node | [i |] d | r | kind name]; cbn [eval_domain_item_node].
  - by eapply det_ast_node.
  - by apply (good_def _ _ Hrec).
  - by eapply det_external.
  - by apply (good_ref _ _ Hrec).
  - by eapply det_node_segment.
Qed.

Lemma det_item_matches item f self : item_ok ctx item -> in_defs ctx self -> fits k f ->
  total (domain_item_matches rec ctx item f self).
Proof. intros. eapply det_bind; [by apply det_item |]. intros o _. by apply det_ret. Qed.

Lemma det_item_number e self item : item_ok ctx item -> in_defs ctx self -> number_fits k e ->
  total (item_number rec ctx e self item).
Proof.
  intros Hi Hs He. destruct item as [node | [i |] d | r | kind name]; cbn [item_number].
  - by destruct e; apply det_ret.
  - by apply (good_number_def _ _ Hrec).
  - by apply det_ret.
  - by apply (good_number_ref _ _ Hrec).
  - by apply det_ret.
Qed.

Lemma det_numbers domain e i self : in_defs ctx i -> in_defs ctx self -> number_fits k e ->
  total (collect_domain_numbers rec ctx domain e i self).
Proof.
  intros Hi Hs He. eapply det_bind_lift; [by apply domain_items_post |]. intros items Hitems.
  eapply det_filter_map; [exact Hitems |]. intros item Hitem. by apply det_item_number.
Qed.

Lemma det_aggregate kind domain e p i self :
  interpolates kind = false -> in_defs ctx i -> in_defs ctx self -> number_fits k e ->
  total (eval_aggregate rec ctx kind domain e p i self).
Proof.
  intros Hk Hi Hs He. eapply det_bind; [by apply det_numbers |]. intros values _.
  apply det_lift. by destruct kind.
Qed.

Definition value_fits (e : ValueExpr) : Prop := match e with VNumber e => number_fits k e | _ => True end.

(** The values collected are those of the graph. *)
Lemma det_value_item_ok e self item : value_fits e -> item_ok ctx item -> in_defs ctx self ->
  det ctx (eval_domain_value_item rec ctx e self item) (opt_all value_ok).
Proof.
  intros He Hi Hs. destruct e as [| l | e]; cbn [eval_domain_value_item].
  - by apply det_project_item.
  - by apply det_project.
  - eapply det_bind; [by apply det_item_number |]. intros o _. apply det_ret. by destruct o.
Qed.

Definition domain_value_fits (v : DomainValueExpr) : Prop :=
  let '(mk_domain_value _ e f) := v in value_fits e /\ opt_all (fits k) f.

Lemma det_filter_values {A B} (P : A -> Prop) (Q : B -> Prop)
    (f : A -> ST EvalState Empty_set (option B)) l :
  Forall P l -> (forall x, P x -> det ctx (f x) (opt_all Q)) -> det ctx (filter_map_st f l) (Forall Q).
Proof.
  intros Hl Hf. induction Hl as [| x l Hx Hl IH]; cbn [filter_map_st]; [by apply det_ret |].
  eapply det_bind; [by apply Hf |]. intros o Ho. eapply det_bind; [exact IH |].
  intros rest Hr. apply det_ret. destruct o; [by constructor | done].
Qed.

Lemma det_domain_values v i self : domain_value_fits v -> in_defs ctx i -> in_defs ctx self ->
  det ctx (collect_domain_values rec ctx v i self) (Forall value_ok).
Proof.
  destruct v as [domain e f]. intros [He Hf] Hi Hs. unfold collect_domain_values.
  eapply det_bind_lift; [by apply domain_items_post |]. intros items Hitems.
  eapply det_filter_values; [exact Hitems |]. intros item Hitem.
  eapply det_bind with (P := fun _ => True).
  - destruct f as [f |]; [by apply det_item_matches | by apply det_ret].
  - intros [] _; [by apply det_value_item_ok | by apply det_ret].
Qed.

Lemma det_entropy v i self : domain_value_fits v -> in_defs ctx i -> in_defs ctx self ->
  total (eval_entropy rec ctx v i self).
Proof. intros. eapply det_bind; [by apply det_domain_values |]. intros vs _. by apply det_ret. Qed.

Lemma det_mode v i self : domain_value_fits v -> in_defs ctx i -> in_defs ctx self ->
  det ctx (eval_mode rec ctx v i self) (opt_all value_ok).
Proof.
  intros. eapply det_bind; [by apply det_domain_values |]. intros vs Hvs. apply det_ret.
  destruct (mode_value vs) as [x |] eqn:Hx; [| done]. cbn.
  rewrite Forall_forall in Hvs. by apply Hvs, mode_value_in.
Qed.

(** ** Counts *)

Lemma det_count_items items f self : Forall (item_ok ctx) items -> in_defs ctx self ->
  opt_all (fits k) f -> total (count_items rec ctx items f self).
Proof.
  intros Hi Hs Hf. eapply det_count_filtered; [exact Hi | exact Hf |]. intros n x Hn Hx.
  by apply det_item.
Qed.

Lemma det_count_domain domain f i self : in_defs ctx i -> in_defs ctx self ->
  opt_all (fits k) f -> total (count_domain_items rec ctx domain f i self).
Proof.
  intros Hi Hs Hf. eapply det_bind_lift; [by apply domain_items_post |]. intros items Hitems.
  by apply det_count_items.
Qed.

Lemma children_lookup_in i l : children_by_parent ctx !! i = Some l -> Forall (in_defs ctx) l.
Proof. intros H. pose proof (children_in ctx Hg i) as Hc. unfold get_all in Hc. by rewrite H in Hc. Qed.

Lemma out_lookup_in i l : out_refs_by_source ctx !! i = Some l -> Forall (in_refs_range ctx) l.
Proof. intros H. pose proof (out_in ctx Hg i) as Hc. unfold get_all in Hc. by rewrite H in Hc. Qed.

Lemma in_lookup_in m l : in_refs_by_target ctx !! m = Some l -> Forall (in_refs_range ctx) l.
Proof. intros H. pose proof (in_in ctx Hg m) as Hc. unfold get_all in Hc. by rewrite H in Hc. Qed.

Lemma det_count_children keep f i self : in_defs ctx self -> opt_all (fits k) f ->
  total (count_children rec ctx keep f i self).
Proof.
  intros Hs Hf. unfold count_children. destruct (children_by_parent ctx !! i) as [l |] eqn:Hl;
    [| by apply det_ret].
  eapply det_bind_lift with (P := Forall (fun e => def_ok e.1 e.2)).
  - eapply post_filter_map; [by eapply children_lookup_in |]. intros j Hj.
    eapply post_bind; [by apply (def_at_post ctx) |]. intros d Hd. cbn. by destruct (keep d).
  - intros l' Hl'. eapply det_count_filtered; [exact Hl' | exact Hf |]. intros n e Hn He.
    by apply (good_def _ _ Hrec).
Qed.

Lemma det_count_segments d f : valid_moniker (moniker d) -> opt_all (fits k) f ->
  total (count_segments d f).
Proof.
  intros Hd Hf. eapply det_bind_lift; [by apply segments_post |]. intros segs _.
  eapply det_count_filtered with (P := fun _ => True); [by apply Forall_true | exact Hf |].
  intros n s Hn _. by eapply det_node_segment.
Qed.

Lemma refs_post l : Forall (in_refs_range ctx) l ->
  post (map_res (ref_at (E:=Empty_set) g) l) (Forall (ref_in ctx)).
Proof. intros Hl. eapply post_map; [exact Hl |]. apply ref_at_post. Qed.

Lemma det_count_refs o f : opt_all (Forall (in_refs_range ctx)) o -> opt_all (fits k) f ->
  total (count_refs rec ctx o f).
Proof.
  intros Ho Hf. destruct o as [l |]; cbn [count_refs]; [| by apply det_ret].
  eapply det_bind_lift; [by apply refs_post |]. intros rs Hrs.
  eapply det_count_filtered; [exact Hrs | exact Hf |]. intros n r Hn Hr.
  by apply (good_ref _ _ Hrec).
Qed.

Lemma out_option_in i : opt_all (Forall (in_refs_range ctx)) (out_refs_by_source ctx !! i).
Proof. destruct (_ !! i) eqn:H; [by eapply out_lookup_in | done]. Qed.

Lemma in_option_in m : opt_all (Forall (in_refs_range ctx)) (in_refs_by_target ctx !! m).
Proof. destruct (_ !! m) eqn:H; [by eapply in_lookup_in | done]. Qed.

Lemma det_pair_count domain f i self : in_defs ctx i -> in_defs ctx self -> opt_all (fits k) f ->
  total (eval_pair_count rec ctx domain f i self).
Proof.
  intros Hi Hs Hf. eapply det_bind_lift; [by apply domain_items_post |]. intros items Hitems.
  eapply det_count_filtered; [by apply pair_iter_ok | exact Hf |].
  intros n p Hn [Ha Hb]. by apply (good_pair _ _ Hrec).
Qed.

Lemma det_count domain f i d self : def_ok i d -> in_defs ctx self -> opt_all (fits k) f ->
  total (eval_count rec ctx domain f d i self).
Proof.
  intros Hd Hs Hf. pose proof (def_valid ctx Hg _ _ Hd) as Hv.
  assert (in_defs ctx i) as Hi by (by eapply lookup_lt_Some).
  assert (forall m, total m -> total (n ← m; mret (Some (n : N)))) as Hret.
  { intros m Hm. eapply det_bind; [exact Hm |]. intros n _. by apply det_ret. }
  destruct domain; cbn [eval_count].
  - eapply det_bind; [by apply det_ast_domain |]. intros [e | items] Hitems.
    + eapply det_bind; [apply det_record |]. intros _ _. by apply det_ret.
    + by apply Hret, det_count_items.
  - destruct f as [f |]; [| by apply det_ret]. by apply Hret, det_count_children.
  - by apply Hret, det_count_children.
  - by apply Hret, det_count_domain.
  - by apply Hret, det_pair_count.
  - by apply Hret, det_count_segments.
  - by apply Hret, det_count_refs; [apply out_option_in |].
  - by apply Hret, det_count_refs; [apply in_option_in |].
  - by apply Hret, det_count_refs; [apply out_option_in |].
  - by apply Hret, det_count_refs; [apply in_option_in |].
  - by apply det_ret.
  - by apply det_ret.
  - by apply Hret, det_count_domain.
  - by apply Hret, det_count_domain.
Qed.

Lemma det_ref_item f r item : item_ok ctx item -> ref_in ctx r -> fits k f ->
  sound (eval_ref_item rec ctx f r item).
Proof.
  intros Hi Hr Hf. destruct item as [node | [i |] d | r' | kind name]; cbn [eval_ref_item].
  - by apply det_ret.
  - apply (good_def _ _ Hrec); [done.. |]. by apply (ref_source_in ctx Hg).
  - by eapply det_external.
  - by apply (good_ref _ _ Hrec).
  - by eapply det_node_segment.
Qed.

Lemma det_count_ref domain f r : ref_in ctx r -> opt_all (fits k) f ->
  total (eval_count_ref rec ctx domain f r).
Proof.
  intros Hr Hf. eapply det_bind; [by apply det_ref_items |]. intros items Hitems.
  eapply det_count_filtered; [exact Hitems | exact Hf |]. intros n x Hn Hx. by apply det_ref_item.
Qed.

(** ** Numbers *)

Lemma domain_value_parts v :
  domain_value_ok v = true -> domain_value_height v <= S k -> domain_value_fits v.
Proof.
  destruct v as [d e f]. cbn [domain_value_ok domain_value_height domain_value_fits]. intros Hok Hh.
  bool_inv. split.
  - destruct e as [| l | e]; try done. split; [done | lia].
  - destruct f as [f |]; [| done]. split; [done | lia].
Qed.

Lemma number_parts e : number_fits (S k) e ->
  match e with
  | Count _ f => opt_all (fits k) f
  | Aggregate a _ e _ => interpolates a = false /\ number_fits k e
  | Entropy v => domain_value_fits v
  | _ => True
  end.
Proof.
  intros [Hok Hh]. destruct e as [x | l | d f | a d e p | m b | v | c]; try done;
    cbn [number_ok number_height] in *.
  - destruct f as [f |]; [| done]. split; [done | lia].
  - bool_inv. split; [done |]. split; [done | lia].
  - by apply domain_value_parts.
Qed.

Lemma det_number_def e d i self : number_fits (S k) e -> def_ok i d -> in_defs ctx self ->
  total (eval_number_expr_def rec ctx e d i self).
Proof.
  intros He%number_parts Hd Hs. pose proof (def_valid ctx Hg _ _ Hd) as Hv.
  assert (in_defs ctx i) as Hi by (by eapply lookup_lt_Some).
  destruct e as [x | l | dom f | a dom e p | m b | v | c]; cbn [eval_number_expr_def].
  - by apply det_ret.
  - eapply det_bind_lift; [by apply (resolve_def_post ctx) |]. intros o _. by apply det_ret.
  - eapply det_bind; [by apply det_count |]. intros o _. by apply det_ret.
  - destruct He. by apply det_aggregate.
  - by apply det_metric.
  - by apply det_entropy.
  - case_match; [by apply det_ret |]. eapply det_bind; [by apply det_collection_size |].
    intros n _. by apply det_ret.
Qed.

Lemma det_number_ref e r : number_fits (S k) e -> ref_in ctx r ->
  total (eval_number_expr_ref rec ctx e r).
Proof.
  intros He%number_parts Hr. destruct e as [x | l | dom f | a dom e p | m b | v | c];
    cbn [eval_number_expr_ref]; try by apply det_ret.
  - eapply det_bind; [by apply det_resolve_ref |]. intros o _. by apply det_ret.
  - eapply det_bind; [by apply det_count_ref |]. intros n _. by apply det_ret.
Qed.

(** ** Atoms of a definition *)

Lemma det_nth_passing f self n items : Forall (item_ok ctx) items -> in_defs ctx self ->
  opt_all (fits k) f -> total (nth_passing rec ctx f self n items).
Proof.
  intros Hi Hs Hf. revert n. induction Hi as [| item items Hitem Hi IH]; intros n; cbn [nth_passing];
    [by apply det_ret |].
  eapply det_bind with (P := outcome_ok ctx).
  - destruct f as [f |]; [by apply det_item | by apply det_ret].
  - intros o _. destruct (is_pass o); [| apply IH]. destruct n; [by apply det_ret | apply IH].
Qed.

Lemma det_failure_position f op rhs i self : opt_all (fits k) f -> in_defs ctx i -> in_defs ctx self ->
  total (ast_count_failure_position rec ctx f op rhs i self).
Proof.
  intros Hf Hi Hs. unfold ast_count_failure_position. destruct rhs as [e | | | | | | | |]; try by apply det_ret.
  destruct e; try by apply det_ret. destruct (witness_index op x); [| by apply det_ret].
  eapply det_bind; [by apply det_ast_domain |]. intros [e | items] Hitems; [by apply det_ret |].
  eapply det_bind; [by apply det_nth_passing |]. intros o _. by apply det_ret.
Qed.

(** The parts of an atom. *)
Lemma atom_parts lhs op rhs raw re : fits (S k) (NAtom (mk_atom lhs op rhs raw re)) ->
  match lhs with
  | Number e => number_fits k e
  | Mode v => domain_value_ok v = true /\ domain_value_height v <= k
  | _ => True
  end /\ rhs_ok rhs = true /\ match rhs with RNumber e => number_fits k e | _ => True end.
Proof.
  intros (Hl & Hr & Hlh & Hrh)%fits_atom. split_and!; [| done |].
  - destruct lhs; try done; cbn in *; (split; [done | lia]).
  - destruct rhs; try done; cbn in *; (split; [done | lia]).
Qed.

Lemma number_fits_S e : number_fits k e -> number_fits (S k) e.
Proof. intros [? ?]. split; [done | lia]. Qed.

Lemma domain_value_fits_S v : domain_value_ok v = true -> domain_value_height v <= k -> domain_value_fits v.
Proof. intros. apply domain_value_parts; [done | lia]. Qed.

Lemma det_lhs_value lhs d i self :
  match lhs with
  | Number e => number_fits k e
  | Mode v => domain_value_ok v = true /\ domain_value_height v <= k
  | _ => True
  end -> def_ok i d -> in_defs ctx self -> det ctx (def_lhs_value rec ctx lhs d i self) (opt_all value_ok).
Proof.
  intros Hl Hd Hs. pose proof (def_valid ctx Hg _ _ Hd) as Hv.
  destruct lhs as [l | e | c | v | p | sc kind]; cbn [def_lhs_value].
  - by apply det_lift, (resolve_def_post ctx).
  - eapply det_bind; [apply det_number_def; [by apply number_fits_S | done..] |]. intros o _. apply det_ret. by destruct o.
  - by apply det_ret.
  - destruct Hl. apply det_mode; [by apply domain_value_fits_S | by eapply lookup_lt_Some | done].
  - by apply det_ret.
  - destruct sc; try by apply det_ret.
    eapply det_bind_lift; [by apply first_segment_name_post |]. intros s _. by apply det_ret.
Qed.

Lemma det_compare v op o : value_ok v -> opt_all value_ok o -> total (compare_values v op o).
Proof. intros Hv Ho. destruct o; cbn [compare_values]; [by apply det_values | by apply det_ret]. Qed.

Lemma det_locate lhs op rhs i self o :
  match lhs with Number e => number_fits k e | _ => True end -> in_defs ctx i -> in_defs ctx self ->
  total (locate_failure rec ctx lhs op rhs i self o).
Proof.
  intros Hl Hi Hs. unfold locate_failure. destruct o as [| ac ex p |]; try by apply det_ret.
  destruct lhs as [l | e | c | v | pp | sc kind]; try by apply det_ret.
  destruct e as [x | l | dom f | a dom e pc | m b | v | c]; try by apply det_ret.
  destruct dom; try by apply det_ret.
  apply number_fits_S, number_parts in Hl.
  eapply det_bind; [by apply det_failure_position |]. intros q _. by apply det_ret.
Qed.

Lemma det_value_atom a d i self : fits (S k) (NAtom a) -> def_ok i d -> in_defs ctx self ->
  total (eval_value_atom rec ctx a d i self).
Proof.
  destruct a as [lhs op rhs raw re]. intros (Hl & Hok & Hr)%atom_parts Hd Hs.
  pose proof (def_valid ctx Hg _ _ Hd) as Hv.
  assert (in_defs ctx i) as Hi by (by eapply lookup_lt_Some).
  assert (match lhs with Number e => number_fits k e | _ => True end) as Hloc by (by destruct lhs).
  assert (forall v, value_ok v -> total (outcome ← lift (apply_op v (mk_atom lhs op rhs raw re));
    locate_failure rec ctx lhs op rhs i self outcome)) as Happly.
  { intros v Hval. eapply det_bind; [by apply det_apply_op |]. intros o _. by apply det_locate. }
  unfold eval_value_atom. eapply det_bind; [by apply det_lhs_value |].
  intros [v |] Hval; [| by apply det_ret].
  destruct rhs as [e | s | m | s | p | other | other | p | c]; try by apply Happly.
  - eapply det_bind; [apply det_number_def; [by apply number_fits_S | done..] |]. intros [n |] _; [| by apply det_ret].
    eapply det_bind; [by apply det_values |]. intros o _. by apply det_locate.
  - eapply det_bind_lift; [by apply (resolve_def_post ctx) |]. intros o Ho. by apply det_compare.
  - eapply det_bind_lift; [by apply (def_at_post ctx) |]. intros sd Hsd.
    eapply det_bind_lift; [apply (resolve_def_post ctx), (def_valid ctx Hg _ _ Hsd) |].
    intros o Ho. by apply det_compare.
Qed.

Lemma det_atom a d i self : fits (S k) (NAtom a) -> def_ok i d -> in_defs ctx self ->
  total (eval_atom rec ctx a d i self).
Proof.
  intros Ha Hd Hs. pose proof (det_value_atom a d i self Ha Hd Hs) as Hval.
  assert (in_defs ctx i) as Hi by (by eapply lookup_lt_Some).
  destruct a as [lhs op rhs raw re]. destruct lhs as [| | l | | |]; try exact Hval.
  destruct op; try exact Hval; destruct rhs as [| | | | | | | | r]; try exact Hval; cbn [eval_atom].
  all: case_match; [by apply det_ret |].
  all: eapply det_bind; [by apply det_collection_comparison |]; intros ok _; by apply det_ret.
Qed.

(** ** Quantifiers *)

(** The first match is an item whenever something passed in the [ast] domain. *)
Definition counts_ok (domain : Domain.t) (c : N * N * option DomainItem) : Prop :=
  (domain = Domain.Ast -> (0 < c.1.2)%N -> is_Some c.2) /\ opt_all (item_ok ctx) c.2.

Definition outcome_or {A} (P : A -> Prop) (r : NodeOutcome + A) : Prop :=
  match r with inl o => outcome_ok ctx o | inr a => P a end.

Lemma item_def_idx_ok item : item_ok ctx item -> opt_all (in_defs ctx) (item_def_idx item).
Proof. destruct item as [node | [i |] d | r | kind name]; try done. intros H. by eapply lookup_lt_Some. Qed.

Lemma det_quantifier_loop kind domain f self t n first items :
  Forall (item_ok ctx) items -> in_defs ctx self -> fits k f ->
  counts_ok domain (t, n, first) ->
  det ctx (quantifier_loop rec ctx kind domain f self t n first items) (outcome_or (counts_ok domain)).
Proof.
  intros Hi Hs Hf. revert t n first. induction Hi as [| item items Hitem Hi IH];
    intros t n first Hc; cbn [quantifier_loop]; [by apply det_ret |]. cbv zeta.
  eapply det_bind; [by apply det_item |]. intros [| fl |] Ho.
  - apply IH. destruct Hc as [_ Hfirst]. split.
    + intros -> _. rewrite bool_decide_true by done. cbn. by destruct first.
    + case_bool_decide; [| done]. cbn in *. by destruct first.
  - destruct kind; [by apply IH | | by apply IH]. apply det_ret. cbn in *.
    destruct (failure_def_idx fl); [done | by apply item_def_idx_ok].
  - by apply IH.
Qed.

Lemma det_quantifier_items kind domain f self items :
  Forall (item_ok ctx) items -> in_defs ctx self -> fits k f ->
  det ctx (eval_quantifier_items rec ctx kind domain f self items) (outcome_or (fun _ => True)).
Proof.
  intros Hi Hs Hf. eapply det_bind.
  { apply det_quantifier_loop; [done.. |]. split; [| done]. intros _ H. cbn in H. lia. }
  intros [o | [[t n] first]] Hc; [by apply det_ret |].
  destruct kind; try by apply det_ret. case_match eqn:Hb; [| by apply det_ret].
  apply andb_true_iff in Hb as [Hd%bool_decide_eq_true Hp%N.ltb_lt].
  destruct Hc as [Hc Hok]. destruct (Hc Hd) as [item Hitem]; [done |]. cbn in Hitem, Hok. subst first.
  apply det_ret. by apply item_def_idx_ok.
Qed.

Lemma det_def_domain kind domain f i self : in_defs ctx i -> in_defs ctx self -> fits k f ->
  det ctx (eval_def_domain_quantifier rec ctx kind domain f i self) (outcome_or (fun _ => True)).
Proof.
  intros Hi Hs Hf.
  assert (forall dom, det ctx (items ← lift (domain_items dom i ctx);
    eval_quantifier_items rec ctx kind dom f self items) (outcome_or (fun _ => True))) as Hd.
  { intros dom. eapply det_bind_lift; [by apply domain_items_post |]. intros items Hitems.
    by apply det_quantifier_items. }
  destruct domain; try apply Hd. cbn [eval_def_domain_quantifier].
  eapply det_bind; [by apply det_ast_domain |]. intros [e | items] Hitems.
  - eapply det_bind; [apply det_record |]. intros _ _. by apply det_ret.
  - by apply det_quantifier_items.
Qed.

Lemma holds_ok kind t n raw least :
  outcome_ok ctx (if quantifier_holds kind t n then Pass else Fail_ (quantifier_failure kind raw least t n)).
Proof. by case_match. Qed.

Lemma det_quantify_refs kind f l : Forall (in_refs_range ctx) l -> fits k f ->
  sound (quantify_refs rec ctx kind f l).
Proof.
  intros Hl Hf. eapply det_bind_lift; [by apply refs_post |]. intros rs Hrs.
  eapply det_bind with (P := fun _ => True).
  - eapply det_count_both; [exact Hrs |]. intros r Hr. by apply (good_ref _ _ Hrec).
  - intros [t n] _. apply det_ret, holds_ok.
Qed.

Lemma det_pair_quantifier kind domain f i self : in_defs ctx i -> in_defs ctx self -> fits k f ->
  sound (eval_pair_quantifier rec ctx kind domain f i self).
Proof.
  intros Hi Hs Hf. eapply det_bind_lift; [by apply domain_items_post |]. intros items Hitems.
  eapply det_bind with (P := fun _ => True); [| intros c _; apply det_ret, holds_ok].
  eapply det_count_both; [by apply pair_iter_ok |]. intros p [Ha Hb]. by apply (good_pair _ _ Hrec).
Qed.

Lemma det_quantifier_def kind domain f d i self : fits k f -> def_ok i d -> in_defs ctx self ->
  sound (eval_quantifier_def rec ctx kind domain f d i self).
Proof.
  intros Hf Hd Hs. pose proof (def_valid ctx Hg _ _ Hd) as Hv.
  assert (in_defs ctx i) as Hi by (by eapply lookup_lt_Some).
  assert (forall dom, sound (counts ← eval_def_domain_quantifier rec ctx kind dom f i self;
    mret match counts with inl outcome => outcome
         | inr (total, passes) => def_quantifier_outcome kind total passes end)) as Hdom.
  { intros dom. eapply det_bind; [by apply det_def_domain |].
    intros [o | [t n]] Ho; apply det_ret; [exact Ho | apply holds_ok]. }
  assert (forall out, sound (idxs ← lift (ancestor_ref_indexes i ctx out);
    quantify_refs rec ctx kind f idxs)) as Hanc.
  { intros out. eapply det_bind_lift; [by apply ancestor_refs_post |]. intros l Hl.
    by apply det_quantify_refs. }
  destruct domain; cbn [eval_quantifier_def]; try apply Hdom; try apply Hanc; try (apply det_ret, holds_ok).
  - by apply det_pair_quantifier.
  - eapply det_bind_lift; [by apply segments_post |]. intros segs _.
    eapply det_bind with (P := fun _ => True); [| intros c _; apply det_ret, holds_ok].
    eapply det_count_both with (P := fun _ => True); [by apply Forall_true |].
    intros s _. by eapply det_node_segment.
  - apply det_quantify_refs; [by apply (out_in ctx Hg) | done].
  - apply det_quantify_refs; [by apply (in_in ctx Hg) | done].
  - apply det_quantify_refs; [by apply (out_in ctx Hg) | done].
  - apply det_quantify_refs; [by apply (in_in ctx Hg) | done].
Qed.

(** The filter of a quantifier is smaller. *)
Lemma quantifier_parts q dom f : fits (S k) (Quantifier q dom f) -> fits k f.
Proof. intros [Hok Hh]. cbn [rule_ok height] in *. split; [done | lia]. Qed.

Lemma det_node_self n d i self : fits (S k) n -> def_ok i d -> in_defs ctx self ->
  sound (eval_node_with_self rec ctx n d i self).
Proof.
  intros Hn Hd Hs. pose proof (def_valid ctx Hg _ _ Hd) as Hv.
  assert (in_defs ctx i) as Hi by (by eapply lookup_lt_Some).
  revert Hn. apply det_walk_rule.
  - intros a Ha. by apply det_atom.
  - intros q dom f Hf%quantifier_parts. by apply det_quantifier_def.
  - intros p Hp. by apply det_require.
  - intros l. by apply det_lift, (EvalLayoutFacts.layout_post ctx Hg).
Qed.

(** ** References *)

Lemma det_ref_lhs_value lhs r :
  match lhs with Number e => number_fits k e | _ => True end -> ref_in ctx r ->
  det ctx (eval_ref_lhs_expr_value rec ctx lhs r) (opt_all value_ok).
Proof.
  intros Hl Hr. destruct lhs as [l | e | c | v | p | sc kind]; cbn [eval_ref_lhs_expr_value];
    try by apply det_ret.
  - by apply det_resolve_ref.
  - eapply det_bind; [apply det_number_ref; [by apply number_fits_S | done] |]. intros o _.
    apply det_ret. by destruct o.
  - destruct sc; [by apply det_ret | |].
    + eapply det_bind_lift; [apply (def_at_post ctx); by apply (ref_source_in ctx Hg) |]. intros d Hd.
      eapply det_bind_lift; [apply first_segment_name_post, (def_valid ctx Hg _ _ Hd) |].
      intros s _. by apply det_ret.
    + eapply det_bind_lift; [apply first_segment_name_post; by apply (ref_target_valid ctx Hg) |].
      intros s _. by apply det_ret.
Qed.

Lemma det_ref_atom a r c : fits (S k) (NAtom a) -> ref_in ctx r -> ref_in ctx c ->
  total (eval_ref_atom rec ctx a r c).
Proof.
  destruct a as [lhs op rhs raw re]. intros (Hl & Hok & Hrhs)%atom_parts Hr Hc.
  assert (match lhs with Number e => number_fits k e | _ => True end) as Hl' by (by destruct lhs).
  assert (total (eval_ref_value_atom rec ctx (mk_atom lhs op rhs raw re) r c)) as Hval.
  { unfold eval_ref_value_atom. eapply det_bind; [by apply det_ref_lhs_value |].
    intros [v |] Hv; [| by apply det_ret].
    destruct rhs as [e | s | m | s | p | other | other | p | cl]; try by apply det_apply_op.
    - eapply det_bind; [apply det_number_ref; [by apply number_fits_S | done] |]. intros o _.
      apply det_compare; [done | by destruct o].
    - eapply det_bind; [by apply det_resolve_ref |]. intros o Ho. by apply det_compare.
    - eapply det_bind; [by apply det_resolve_ref |]. intros o Ho. by apply det_compare. }
  destruct lhs as [| | l | | |]; try exact Hval.
  destruct op; try exact Hval; destruct rhs as [| | | | | | | | rc]; try exact Hval; cbn [eval_ref_atom].
  all: case_match; [by apply det_ret |].
  all: eapply det_bind; [apply (det_collection_comparison ctx Hg); by apply (ref_source_in ctx Hg) |].
  all: intros ok _; by apply det_ret.
Qed.

Lemma det_ref_loop kind domain f r m items :
  Forall (item_ok ctx) items -> ref_in ctx r -> fits k f ->
  sound (ref_quantifier_loop rec ctx kind domain f r m items).
Proof.
  intros Hi Hr Hf. revert m. induction Hi as [| item items Hitem Hi IH]; intros m;
    cbn [ref_quantifier_loop].
  { apply det_ret. destruct kind; try done. by case_match. }
 
  eapply det_bind; [by apply det_ref_item |]. intros [| fl |] Ho; destruct kind;
    try apply IH; by apply det_ret.
Qed.

Lemma det_quantifier_ref kind domain f r : ref_in ctx r -> fits k f ->
  sound (eval_quantifier_ref rec ctx kind domain f r).
Proof.
  intros Hr Hf. eapply det_bind; [by apply det_ref_items |]. intros [| item items] Hitems;
    [apply det_ret; by destruct kind | by apply det_ref_loop].
Qed.

Lemma det_ref_current n r c : fits (S k) n -> ref_in ctx r -> ref_in ctx c ->
  sound (eval_ref_node_with_current rec ctx n r c).
Proof.
  intros Hn Hr Hc. revert Hn. apply det_walk_rule.
  - intros a Ha. by apply det_ref_atom.
  - intros q dom f Hf%quantifier_parts. by apply det_quantifier_ref.
  - intros p Hp. by apply det_ret.
  - intros l. by apply det_ret.
Qed.

(** ** Pairs *)

Lemma det_pair_number e a b i self : number_fits k e -> item_ok ctx a -> item_ok ctx b ->
  in_defs ctx i -> in_defs ctx self -> total (eval_pair_number_expr rec ctx e a b i self).
Proof.
  intros He Ha Hb Hi Hs.
  assert (total (d ← lift (def_at g i); eval_number_expr_def rec ctx e d i self)) as Hdef.
  { eapply det_bind_lift; [by apply (def_at_post ctx) |]. intros d Hd.
    apply det_number_def; [by apply number_fits_S | done..]. }
  destruct e; try exact Hdef. cbn [eval_pair_number_expr].
  eapply det_bind; [by apply det_pair_collection_size |]. intros o _. by apply det_ret.
Qed.

Lemma det_pair_value p a b : item_ok ctx a -> item_ok ctx b ->
  det ctx (pair_projection_value ctx p a b) (opt_all value_ok).
Proof. intros Ha Hb. apply (det_project ctx Hg). by destruct (pp_side p). Qed.

Lemma det_pair_lhs lhs a b i self :
  match lhs with
  | Number e => number_fits k e
  | Mode v => domain_value_ok v = true /\ domain_value_height v <= k
  | _ => True
  end -> item_ok ctx a -> item_ok ctx b -> in_defs ctx i -> in_defs ctx self ->
  det ctx (pair_lhs_value rec ctx lhs a b i self) (opt_all value_ok).
Proof.
  intros Hl Ha Hb Hi Hs.
  assert (det ctx (owner_lhs_value rec ctx lhs a b i self) (opt_all value_ok)) as Ho.
  { eapply det_bind_lift; [by apply (def_at_post ctx) |]. intros d Hd.
    destruct lhs as [l | e | c | v | p | sc kind]; try by apply det_ret.
    - apply det_lift. eapply (resolve_def_post ctx), (def_valid ctx Hg _ _ Hd).
    - eapply det_bind; [by apply det_pair_number |]. intros o _. apply det_ret. by destruct o.
    - destruct Hl. apply det_mode; [by apply domain_value_fits_S | done..]. }
  destruct lhs; try exact Ho. by apply det_pair_value.
Qed.

Lemma det_pair_rhs rhs a b i self :
  match rhs with RNumber e => number_fits k e | _ => True end ->
  item_ok ctx a -> item_ok ctx b -> in_defs ctx i -> in_defs ctx self ->
  det ctx (pair_rhs_value rec ctx rhs a b i self) (opt_all value_ok).
Proof.
  intros Hr Ha Hb Hi Hs. destruct rhs as [e | s | m | s | p | other | other | p | cl];
    cbn [pair_rhs_value]; try by apply det_ret.
  - eapply det_bind; [by apply det_pair_number |]. intros o _. apply det_ret. by destruct o.
  - eapply det_bind_lift; [by apply (def_at_post ctx) |]. intros d Hd.
    apply det_lift. eapply (resolve_def_post ctx), (def_valid ctx Hg _ _ Hd).
  - by apply det_pair_value.
Qed.

Lemma det_pair_atom at_ a b i self : fits (S k) (NAtom at_) -> item_ok ctx a -> item_ok ctx b ->
  in_defs ctx i -> in_defs ctx self -> total (eval_pair_atom rec ctx at_ a b i self).
Proof.
  destruct at_ as [lhs op rhs raw re]. intros (Hl & Hok & Hrhs)%atom_parts Ha Hb Hi Hs.
  assert (total (eval_pair_value_atom rec ctx (mk_atom lhs op rhs raw re) a b i self)) as Hval.
  { unfold eval_pair_value_atom. eapply det_bind; [by apply det_pair_lhs |].
    intros [v |] Hv; [| by apply det_ret]. eapply det_bind; [by apply det_pair_rhs |].
    intros [w |] Hw; [by apply det_values | by apply det_apply_op]. }
  destruct lhs as [| | l | | |]; try exact Hval.
  destruct op; try exact Hval; destruct rhs as [| | | | | | | | r]; try exact Hval; cbn [eval_pair_atom].
  all: eapply det_bind; [by apply det_pair_collection_comparison |]; intros ok _; by apply det_ret.
Qed.

Lemma det_pair_node n a b i self : fits (S k) n -> item_ok ctx a -> item_ok ctx b ->
  in_defs ctx i -> in_defs ctx self -> sound (eval_pair_node rec ctx n a b i self).
Proof.
  intros Hn Ha Hb Hi Hs. revert Hn. apply det_walk_plain. intros at_ Hat. by apply det_pair_atom.
Qed.

Lemma good_bodies : good (S k)
  (mk_evaluators (eval_node_with_self rec ctx) (eval_ref_node_with_current rec ctx)
     (eval_pair_node rec ctx) (eval_number_expr_def rec ctx) (eval_number_expr_ref rec ctx)).
Proof.
  split; intros.
  - by apply det_node_self.
  - by apply det_ref_current.
  - by apply det_pair_node.
  - by apply det_number_def.
  - by apply det_number_ref.
Qed.

End bodies.

(** ** The knot *)

Lemma height_pos n : 0 < height n.
Proof. destruct n as [[] | | | | | | |]; cbn [height]; lia. Qed.

Lemma number_height_pos e : 0 < number_height e.
Proof. destruct e as [| | | | | [] |]; cbn [number_height domain_value_height]; lia. Qed.

Lemma good_none : good 0 no_evaluators.
Proof.
  split; intros.
  1-3: match goal with H : fits 0 ?n |- _ => destruct H; pose proof (height_pos n); lia end.
  all: match goal with H : number_fits 0 ?e |- _ => destruct H; pose proof (number_height_pos e); lia end.
Qed.

Lemma good_evaluate fuel : good fuel (evaluate fuel ctx).
Proof. induction fuel as [| fuel IH]; [apply good_none | by apply good_bodies]. Qed.

Lemma det_eval_node n d i : rule_ok n = true -> def_ok i d -> sound (eval_node n d i ctx).
Proof.
  intros Hn Hd. apply (good_def _ _ (good_evaluate (height n))); [by split | done |].
  by eapply lookup_lt_Some.
Qed.

Lemma det_eval_reference n r : rule_ok n = true -> ref_in ctx r -> sound (eval_reference n r ctx).
Proof. intros Hn Hr. by apply (good_ref _ _ (good_evaluate (height n))). Qed.

End total.
End EvalTotal.
