(* ===== verification/ConfigData.v ===== *)
(** The configuration of the rules (src/crates/check/src/check/config/mod.rs):
    its data, its errors and how one configuration is merged over another. The
    values of the [toml] crate, which the views of a configuration keep, are the
    parameter [Toml]. *)

From S2P Require Import Prelude.
From S2P Require Import RustStr.
From S2P Require Import DslCursor.
From S2P Require Import Suppress.
From S2P Require Import Syntax.

(** [toml::Value] and its accessors; a table is read by key. *)
Class Toml : Type := {
  TomlValue : Type;
  TomlTable : Type;
  as_table : TomlValue -> option TomlTable;
  table_get : TomlTable -> bytes -> option TomlValue;
  toml_str : TomlValue -> option bytes;
  as_array : TomlValue -> option (list TomlValue)
}.

Module ConfigData.
Import Report.

(** ** Origin of a rule *)

Inductive RuleSourceKind : Set := EmbeddedDefault | Project | Fragment | External | Inline.

Record RuleSourceMarker : Set := mk_marker {
  marker_kind : RuleSourceKind;
  marker_source : option bytes;
  marker_fragment : option bytes;
  marker_local_aliases : list bytes
}.

Record RuleSource : Set := mk_source {
  source_kind : RuleSourceKind;
  source_path : option bytes;
  source_fragment : option bytes;
  declared_id : bytes;
  local_aliases : list bytes
}.

(** ** Rules *)

Record RuleEntry : Set := mk_entry {
  entry_id : option bytes;
  entry_expr : bytes;
  entry_severity : RuleSeverity;
  entry_message : option bytes;
  entry_rationale : option bytes;
  entry_source : option RuleSourceMarker
}.

Record KindRules : Set := mk_kind_rules {
  rules : list RuleEntry;
  require_doc_comment : option bytes;
  require_doc_source : option RuleSourceMarker
}.

Record LangRules : Type := mk_lang_rules {
  lang_shape : gmap bytes KindRules;
  kinds : gmap bytes KindRules
}.

Record WorkspaceGroupRuleEntry : Set := mk_group_entry {
  group_id : option bytes;
  members : bytes;
  group_by : list bytes;
  group_expr : bytes;
  group_severity : RuleSeverity;
  group_message : option bytes;
  group_rationale : option bytes;
  group_suppress : list (list bytes);
  group_source : option RuleSourceMarker
}.

Inductive WorkspacePathExpectation : Set := Reachable | NoPath | AllPathsVia.

Record WorkspacePathRuleEntry : Set := mk_path_entry {
  path_id : option bytes;
  from : bytes;
  to : bytes;
  expect : WorkspacePathExpectation;
  via : option bytes;
  require_non_empty : bool;
  relation : list bytes;
  max_depth : N;
  max_symbols : N;
  max_edges : N;
  max_pairs : N;
  min_coverage : option N;
  path_severity : RuleSeverity;
  path_message : option bytes;
  path_rationale : option bytes;
  path_source : option RuleSourceMarker
}.

Definition default_path_relations : list bytes := [bs "calls"; bs "method_call"].
Definition default_path_max_depth : N := 12.
Definition default_path_max_symbols : N := 10000.
Definition default_path_max_edges : N := 50000.
Definition default_path_max_pairs : N := 10000.

(** A root of a source group: a path, or a path mapped to a source set. *)
Inductive SourceGroupRootConfig : Set :=
| RootPath (path : bytes)
| RootMapped (path srcset : bytes).

Abbreviation SourceGroupConfig := (list SourceGroupRootConfig).

Record WorkspaceRules : Set := mk_workspace {
  min_linkage_coverage : option N;
  symbol : KindRules;
  group : list WorkspaceGroupRuleEntry;
  path : list WorkspacePathRuleEntry;
  source_groups : list SourceGroupConfig
}.

Record RuleTaxonomy : Set := mk_taxonomy {
  patterns : list bytes;
  components : list bytes
}.

Record Profile : Set := mk_profile {
  enable : list bytes;
  disable : list bytes
}.

Record FragmentInfo : Set := mk_fragment_info {
  info_id : bytes;
  info_path : bytes;
  info_enabled : bool;
  declared_rules : nat;
  active_rules : nat;
  info_rule_keys : list bytes
}.

(** [TelemetryConfig] (workspace/src/environment) *)
Record TelemetryConfig : Set := mk_telemetry {
  enabled : bool;
  service_name : option bytes;
  endpoint : option bytes;
  metric_export_interval_ms : option N
}.

(** The fields [ts], [tsx], .. [yaml] are the one field [langs]: every access to
    them goes through [for_lang] or [for_lang_mut], or treats them alike. *)
Record Config {T : Toml} : Type := mk_config {
  default_rules : option bool;
  taxonomy : option RuleTaxonomy;
  telemetry : option TelemetryConfig;
  aliases : gmap bytes bytes;
  exclude_uris : list bytes;
  refs : list RuleEntry;
  workspace : WorkspaceRules;
  shape : gmap bytes KindRules;
  default_lang : LangRules;
  langs : Lang.t -> LangRules;
  profiles : gmap bytes Profile;
  views : list TomlValue;
  fragments : list FragmentInfo;
  rule_sources : gmap bytes RuleSource
}.

Arguments mk_config {T}.

(** ** Errors

    Without the failure to read a file. An error of the [toml] or [regex] crate
    is the text it displays. *)
Inductive ConfigError : Set :=
| DefaultPresetInvalid (error : bytes)
| UserConfig (path error : bytes)
| FragmentConfig (path error : bytes)
| InvalidExpr (at_ : bytes) (error : Cursor.ParseError)
| UnsupportedWorkspaceExpr (at_ capability : bytes)
| InvalidWorkspaceGroup (at_ message : bytes)
| InvalidWorkspacePath (at_ message : bytes)
| InvalidWorkspaceCoverage (value : N)
| UnknownKind (section kind allowed : bytes)
| UnknownShape (section shape allowed : bytes)
| DefaultShapeUnsupported
| WorkspaceRequireDocUnsupported
| SourceGroupOutsideProjectRoot (path : bytes)
| RuleTaxonomyOutsideProjectRoot (path : bytes)
| InvalidRuleTaxonomy (path message : bytes)
| InvalidScopedRuleId (path id message : bytes)
| UnknownViewRuleReference (view section rule_id : bytes)
| AmbiguousViewRuleReference (view section rule_id matches : bytes)
| UnknownDocVisibility (section kind value allowed : bytes)
| AliasCycle (chain : bytes)
| UnknownAlias (name at_ : bytes)
| UnknownProfile (name known : bytes)
| BadProfileRegex (profile field pattern : bytes) (error : bytes)
| InvalidFragmentId (path id : bytes)
| InvalidFragmentAliasId (path fragment alias : bytes)
| DuplicateFragment (id first second : bytes)
| FragmentAliasShadowsExisting (path fragment alias : bytes)
| FragmentAliasCollision (alias path existing : bytes)
| FragmentRuleMissingId (path fragment at_ : bytes)
| InvalidFragmentRuleId (path fragment id : bytes)
| FragmentRequireDocUnsupported (path fragment at_ : bytes)
| FragmentRuleCollision (rule_id path existing : bytes).

(** ** Reading and writing the parts *)

Definition empty_kind_rules : KindRules := mk_kind_rules [] None None.
Definition empty_lang_rules : LangRules := mk_lang_rules ∅ ∅.

Definition set_rules (l : list RuleEntry) (r : KindRules) : KindRules :=
  mk_kind_rules l (require_doc_comment r) (require_doc_source r).

Definition set_entry_source (s : option RuleSourceMarker) (r : RuleEntry) : RuleEntry :=
  mk_entry (entry_id r) (entry_expr r) (entry_severity r) (entry_message r) (entry_rationale r) s.

Definition set_group_source (s : option RuleSourceMarker) (r : WorkspaceGroupRuleEntry) :
    WorkspaceGroupRuleEntry :=
  mk_group_entry (group_id r) (members r) (group_by r) (group_expr r) (group_severity r)
    (group_message r) (group_rationale r) (group_suppress r) s.

Definition set_path_source (s : option RuleSourceMarker) (r : WorkspacePathRuleEntry) :
    WorkspacePathRuleEntry :=
  mk_path_entry (path_id r) (from r) (to r) (expect r) (via r) (require_non_empty r) (relation r)
    (max_depth r) (max_symbols r) (max_edges r) (max_pairs r) (min_coverage r) (path_severity r)
    (path_message r) (path_rationale r) s.

(** [id.clone().unwrap_or_else(|| format!("where_{idx}"))] *)
Definition fallback_id (id : option bytes) (idx : nat) : bytes :=
  default (bs "where_" ++ show_nat idx) id.

(** A rule as [collect_rule_declarations] yields it: key, id and origin. *)
Abbreviation Declaration := (bytes * bytes * option RuleSourceMarker)%type.

Section config.
Context {T : Toml} {HO : HashOrder}.

Definition empty_config : Config :=
  mk_config None None None ∅ [] [] (mk_workspace None empty_kind_rules [] [] []) ∅
    empty_lang_rules (fun _ => empty_lang_rules) ∅ [] [] ∅.

Definition for_lang (cfg : Config) (lang : Lang.t) : LangRules := langs cfg lang.

(** [*self.for_lang_mut(lang) = r] *)
Definition for_lang_mut (langs : Lang.t -> LangRules) (lang : Lang.t) (r : LangRules) :
    Lang.t -> LangRules :=
  fun l => if bool_decide (l = lang) then r else langs l.

Definition set_rule_sources (s : gmap bytes RuleSource) (c : Config) : Config :=
  mk_config (default_rules c) (taxonomy c) (telemetry c) (aliases c) (exclude_uris c) (refs c)
    (workspace c) (shape c) (default_lang c) (langs c) (profiles c) (views c) (fragments c) s.

Definition set_fragments (f : list FragmentInfo) (c : Config) : Config :=
  mk_config (default_rules c) (taxonomy c) (telemetry c) (aliases c) (exclude_uris c) (refs c)
    (workspace c) (shape c) (default_lang c) (langs c) (profiles c) (views c) f (rule_sources c).

Definition set_default_rules (b : option bool) (c : Config) : Config :=
  mk_config b (taxonomy c) (telemetry c) (aliases c) (exclude_uris c) (refs c)
    (workspace c) (shape c) (default_lang c) (langs c) (profiles c) (views c) (fragments c)
    (rule_sources c).

(** The rules of a configuration, everything else as it is. *)
Definition set_rule_parts (r : list RuleEntry) (w : WorkspaceRules) (s : gmap bytes KindRules)
    (d : LangRules) (l : Lang.t -> LangRules) (c : Config) : Config :=
  mk_config (default_rules c) (taxonomy c) (telemetry c) (aliases c) (exclude_uris c) r w s d l
    (profiles c) (views c) (fragments c) (rule_sources c).

(** ** Merging *)

(** One turn of the loop of [merge_kind], [merge_refs], [merge_group] and
    [merge_path]: an entry whose id is that of an entry of the base replaces it,
    any other is appended. *)
Definition merge_entry {A} (id : A -> option bytes) (base : list A) (ov_rule : A) : list A :=
  match
    match id ov_rule with
    | Some i => fst <$> list_find (fun r => id r = Some i) base
    | None => None
    end
  with
  | Some idx => <[idx := ov_rule]> base
  | None => base ++ [ov_rule]
  end.

Definition merge_refs (base ov : list RuleEntry) : list RuleEntry :=
  foldl (merge_entry entry_id) base ov.

Definition merge_group (base ov : list WorkspaceGroupRuleEntry) : list WorkspaceGroupRuleEntry :=
  foldl (merge_entry group_id) base ov.

Definition merge_path (base ov : list WorkspacePathRuleEntry) : list WorkspacePathRuleEntry :=
  foldl (merge_entry path_id) base ov.

Definition merge_kind (base ov : KindRules) : KindRules :=
  let rules := foldl (merge_entry entry_id) (rules base) (rules ov) in
  match require_doc_comment ov with
  | Some v => mk_kind_rules rules (Some v) (require_doc_source ov)
  | None => mk_kind_rules rules (require_doc_comment base) (require_doc_source base)
  end.

Definition merge_shape_map (base ov : gmap bytes KindRules) : gmap bytes KindRules :=
  foldl (fun base e =>
    match base !! e.1 with
    | Some base_rules => <[e.1 := merge_kind base_rules e.2]> base
    | None => <[e.1 := e.2]> base
    end) base (entries ov).

Definition merge_lang (base ov : LangRules) : LangRules :=
  mk_lang_rules (merge_shape_map (lang_shape base) (lang_shape ov))
    (foldl (fun base e =>
      match base !! e.1 with
      | Some base_rules => <[e.1 := merge_kind base_rules e.2]> base
      | None => <[e.1 := e.2]> base
      end) (kinds base) (entries (kinds ov))).

(** [for (k, v) in ov { base.insert(k, v); }] *)
Definition insert_all {A} (base ov : gmap bytes A) : gmap bytes A :=
  foldl (fun base e => <[e.1 := e.2]> base) base (entries ov).

(** [if ov.is_some() { base = ov }] *)
Definition override {A} (base ov : option A) : option A :=
  match ov with Some _ => ov | None => base end.

Definition merge_workspace (base ov : WorkspaceRules) : WorkspaceRules :=
  mk_workspace (override (min_linkage_coverage base) (min_linkage_coverage ov))
    (merge_kind (symbol base) (symbol ov)) (merge_group (group base) (group ov))
    (merge_path (path base) (path ov)) (source_groups base ++ source_groups ov).

Definition merge_into (base ov : Config) : Config :=
  mk_config (default_rules base) (override (taxonomy base) (taxonomy ov))
    (override (telemetry base) (telemetry ov)) (insert_all (aliases base) (aliases ov))
    (exclude_uris base ++ exclude_uris ov) (merge_refs (refs base) (refs ov))
    (merge_workspace (workspace base) (workspace ov)) (merge_shape_map (shape base) (shape ov))
    (merge_lang (default_lang base) (default_lang ov))
    (fun l => merge_lang (langs base l) (langs ov l)) (insert_all (profiles base) (profiles ov))
    (views base ++ views ov) (fragments base) (rule_sources base).

(** ** Declarations and origins *)

Definition key (prefix id : bytes) : bytes := prefix ++ bs "." ++ id.

Definition collect_list_declarations {A} (id : A -> option bytes)
    (source : A -> option RuleSourceMarker) (prefix : bytes) (rules : list A) : list Declaration :=
  imap (fun index rule =>
    let i := fallback_id (id rule) index in (key prefix i, i, source rule)) rules.

Definition collect_rule_list_declarations (prefix : bytes) (rules : list RuleEntry) :
    list Declaration :=
  collect_list_declarations entry_id entry_source prefix rules.

Definition collect_kind_declarations (prefix : bytes) (r : KindRules) : list Declaration :=
  collect_rule_list_declarations prefix (rules r) ++
  match require_doc_comment r with
  | Some _ =>
      [(key prefix (bs "require_doc_comment"), bs "require_doc_comment", require_doc_source r)]
  | None => []
  end.

Definition collect_map_declarations (section : bytes) (m : gmap bytes KindRules) : list Declaration :=
  concat ((fun e => collect_kind_declarations (key section e.1) e.2) <$> entries m).

Definition collect_lang_rule_declarations (section : bytes) (r : LangRules) : list Declaration :=
  collect_map_declarations (key section (bs "shape")) (lang_shape r) ++
  collect_map_declarations section (kinds r).

Definition collect_rule_declarations (cfg : Config) : list Declaration :=
  collect_rule_list_declarations (bs "refs") (refs cfg) ++
  collect_kind_declarations (bs "workspace.symbol") (symbol (workspace cfg)) ++
  collect_list_declarations group_id group_source (bs "workspace.group") (group (workspace cfg)) ++
  collect_list_declarations path_id path_source (bs "workspace.path") (path (workspace cfg)) ++
  collect_map_declarations (bs "shape") (shape cfg) ++
  collect_lang_rule_declarations (bs "default") (default_lang cfg) ++
  concat ((fun lang => collect_lang_rule_declarations (Lang.config_section lang) (for_lang cfg lang))
    <$> Lang.ALL).

Definition collect_rule_keys (cfg : Config) : gset bytes :=
  list_to_set ((fun d : Declaration => d.1.1) <$> collect_rule_declarations cfg).

(** The id of a rule as its fragment writes it: [{fragment}.] is dropped. *)
Definition local_id (fragment : option bytes) (id : bytes) : bytes :=
  match fragment with
  | Some f => default id (strip_prefix (f ++ bs ".") id)
  | None => id
  end.

Definition rebuild_step (sources : gmap bytes RuleSource) (d : Declaration) :
    gmap bytes RuleSource :=
  match d with
  | (_, _, None) => sources
  | (key, id, Some m) =>
      <[key := mk_source (marker_kind m) (marker_source m) (marker_fragment m)
                 (local_id (marker_fragment m) id) (marker_local_aliases m)]> sources
  end.

Definition rebuild_rule_sources (cfg : Config) : Config :=
  set_rule_sources (foldl rebuild_step ∅ (collect_rule_declarations cfg)) cfg.

Definition mark_rule_list_sources (marker : RuleSourceMarker) (l : list RuleEntry) :
    list RuleEntry :=
  set_entry_source (Some marker) <$> l.

Definition mark_kind_sources (marker : RuleSourceMarker) (r : KindRules) : KindRules :=
  mk_kind_rules (mark_rule_list_sources marker (rules r)) (require_doc_comment r)
    match require_doc_comment r with Some _ => Some marker | None => require_doc_source r end.

Definition mark_lang_rule_sources (marker : RuleSourceMarker) (r : LangRules) : LangRules :=
  mk_lang_rules (mark_kind_sources marker <$> lang_shape r) (mark_kind_sources marker <$> kinds r).

(** [for lang in Lang::ALL { f(cfg.for_lang_mut(lang)) }] *)
Definition update_langs (f : Lang.t -> LangRules -> LangRules) (langs : Lang.t -> LangRules) :
    Lang.t -> LangRules :=
  foldl (fun langs lang => for_lang_mut langs lang (f lang (langs lang))) langs Lang.ALL.

Definition mark_rule_sources (marker : RuleSourceMarker) (cfg : Config) : Config :=
  let w := workspace cfg in
  set_rule_parts (mark_rule_list_sources marker (refs cfg))
    (mk_workspace (min_linkage_coverage w) (mark_kind_sources marker (symbol w))
       (set_group_source (Some marker) <$> group w) (set_path_source (Some marker) <$> path w)
       (source_groups w))
    (mark_kind_sources marker <$> shape cfg) (mark_lang_rule_sources marker (default_lang cfg))
    (update_langs (fun _ => mark_lang_rule_sources marker) (langs cfg)) cfg.

Definition seed_rule_sources_with_local_aliases (cfg : Config) (kind : RuleSourceKind)
    (source fragment : option bytes) (local_aliases : list bytes) : Config :=
  rebuild_rule_sources (mark_rule_sources (mk_marker kind source fragment local_aliases) cfg).

Definition seed_rule_sources (cfg : Config) (kind : RuleSourceKind) (source fragment : option bytes) :
    Config :=
  seed_rule_sources_with_local_aliases cfg kind source fragment [].

Definition rule_source_for_compiled_id (cfg : Config) (compiled_rule_id : bytes) :
    option (bytes * RuleSource) :=
  match rule_sources cfg !! compiled_rule_id with
  | Some source => Some (compiled_rule_id, source)
  | None =>
      '(_, suffix) ← split_once "."%char compiled_rule_id;
      let default_key := key (bs "default") suffix in
      pair default_key <$> rule_sources cfg !! default_key
  end.

End config.
End ConfigData.
