(* ===== verification/Aliases.v ===== *)
(** Aliases of rule expressions (src/crates/check/src/check/config/mod.rs):
    resolution of every alias to its expanded body, and substitution in an
    expression. *)

From S2P Require Import Prelude.
From S2P Require Import RustStr.
From S2P Require Import ConfigData.

Module Aliases.
Import ConfigData.

(** [out.push(b as char)]: the character of code [b], which UTF-8 writes in one
    byte or in two. *)
Definition push_char (b : ascii) : bytes :=
  let n := N_of_ascii b in
  if (n <? 128)%N then [b] else [ascii_of_N (192 + n / 64); ascii_of_N (128 + n mod 64)]%N.

(** [b.is_ascii_alphanumeric() || b == b'_'] *)
Definition is_alias_char (b : ascii) : bool := is_ascii_alphanumeric b || ceq b "_".

Definition parens (s : bytes) : bytes := bs "(" ++ s ++ bs ")".

(** The joint of a chain: [ → ]. *)
Definition arrow : bytes := bs " " ++ map ascii_of_N [226; 134; 146]%N ++ bs " ".

(** What [resolve_one] and [expand_refs] assign: the resolved aliases and the
    stack of those under way. *)
Abbreviation State := (gmap bytes bytes * list bytes)%type.
Abbreviation M := (ST State ConfigError).

Section expand.
Context (resolve : bytes -> M bytes).

(** The loop of [expand_refs] at [i]. *)
Fixpoint expand_loop (fuel : nat) (body : bytes) (i : nat) (out : bytes) : M bytes :=
  match fuel with
  | O => lift NoFuel
  | S fuel =>
      if length body <=? i then mret out
      else
        c ← lift (index body i);
        let start := i + 1 in
        let j := if ceq c "$" then scan_while is_alias_char body start else start in
        if start <? j then
          name ← lift (str_slice body start j);
          expanded ← resolve name;
          expand_loop fuel body j (out ++ parens expanded)
        else expand_loop fuel body (i + 1) (out ++ push_char c)
  end.

Definition expand_refs (body : bytes) : M bytes := expand_loop (S (length body)) body 0 [].

End expand.

(** The fuel bounds the depth of the calls. *)
Fixpoint resolve_one (fuel : nat) (src : gmap bytes bytes) (name : bytes) : M bytes :=
  match fuel with
  | O => lift NoFuel
  | S fuel =>
      '(resolved, stack) ← get;
      match resolved !! name with
      | Some v => mret v
      | None =>
          if existsb (beq name) stack then
            _ ← put (resolved, stack ++ [name]);
            throw (AliasCycle (join arrow (stack ++ [name])))
          else
            match src !! name with
            | None =>
                throw (UnknownAlias name
                  (bs "alias `" ++ default (bs "<root>") (last stack) ++ bs "`"))
            | Some body =>
                _ ← put (resolved, stack ++ [name]);
                expanded ← expand_refs (resolve_one fuel src) body;
                _ ← modify (fun s : State => (<[name := expanded]> s.1, removelast s.2));
                mret expanded
            end
      end
  end.

Section resolve.
Context {HO : HashOrder}.

(** The body of the loop of [resolve_aliases], from an empty stack. *)
Definition resolve_step (src : gmap bytes bytes) (resolved : gmap bytes bytes) (name : bytes) :
    res ConfigError (gmap bytes bytes) :=
  match resolve_one (2 + size src) src name (resolved, []) with
  | (Ok _, s) => Ok (fst s)
  | (Err e, _) => Err e
  | (Panic, _) => Panic
  | (NoFuel, _) => NoFuel
  end.

Definition resolve_aliases (aliases : gmap bytes bytes) : res ConfigError (gmap bytes bytes) :=
  fold_res (resolve_step aliases) ∅ (fst <$> entries aliases).

End resolve.

(** The loop of [substitute_aliases] at [i]. *)
Fixpoint substitute_loop (fuel : nat) (expr : bytes) (resolved : gmap bytes bytes) (at_ : bytes)
    (i : nat) (out : bytes) : res ConfigError bytes :=
  match fuel with
  | O => NoFuel
  | S fuel =>
      if length expr <=? i then Ok out
      else
        c ← index expr i;
        let start := i + 1 in
        let j := if ceq c "$" then scan_while is_alias_char expr start else start in
        if start <? j then
          name ← str_slice expr start j;
          match resolved !! name with
          | None => Err (UnknownAlias name at_)
          | Some expanded => substitute_loop fuel expr resolved at_ j (out ++ parens expanded)
          end
        else substitute_loop fuel expr resolved at_ (i + 1) (out ++ push_char c)
  end.

Definition substitute_aliases (expr : bytes) (resolved : gmap bytes bytes) (at_ : bytes) :
    res ConfigError bytes :=
  substitute_loop (S (length expr)) expr resolved at_ 0 [].

End Aliases.
