(* ===== verification/AliasFacts.v ===== *)
(** Resolution of aliases: it terminates, gives every alias its full expansion
    when there is one, and otherwise names a real cycle or an unknown alias. *)

From S2P Require Import Prelude.
From S2P Require Import RustStr.
From S2P Require Import ConfigData.
From S2P Require Import Aliases.

Module AliasFacts.
Import ConfigData Aliases.

(** ** A text as characters and references *)

Inductive token : Set := Lit (b : ascii) | Name (n : bytes).

#[global] Instance token_eq_dec : EqDecision token.
Proof. solve_decision. Defined.

Definition alias_name (suf : bytes) : bytes := take_while is_alias_char suf.

(** The first token of [c :: suf] and what follows it. *)
Definition next_token (c : ascii) (suf : bytes) : token * bytes :=
  match (if ceq c "$" then alias_name suf else []) with
  | [] => (Lit c, suf)
  | n => (Name n, drop (length n) suf)
  end.

Fixpoint tokens_loop (fuel : nat) (l : bytes) : list token :=
  match fuel, l with
  | S fuel, c :: suf => let '(t, rest) := next_token c suf in t :: tokens_loop fuel rest
  | _, _ => []
  end.

Definition tokens (l : bytes) : list token := tokens_loop (length l) l.

Lemma next_token_length c suf : length (next_token c suf).2 <= length suf.
Proof. unfold next_token. case_match; cbn; [done |]. rewrite length_drop. lia. Qed.

Lemma tokens_loop_fuel fuel l : length l <= fuel -> tokens_loop fuel l = tokens l.
Proof.
  unfold tokens. enough (forall n m l, length l <= n -> length l <= m ->
    tokens_loop n l = tokens_loop m l) by eauto.
  clear. intros n. induction n as [| n IH]; intros [| m] [| c suf] Hn Hm; cbn [length] in *; try lia; try done.
  cbn [tokens_loop]. pose proof (next_token_length c suf). destruct (next_token c suf) as [t rest].
  cbn in *. f_equal. apply IH; lia.
Qed.

Lemma tokens_cons c suf :
  tokens (c :: suf) = (next_token c suf).1 :: tokens (next_token c suf).2.
Proof.
  unfold tokens at 1. cbn [tokens_loop length]. pose proof (next_token_length c suf).
  destruct (next_token c suf) as [t rest]. cbn in *. f_equal. by apply tokens_loop_fuel.
Qed.

Lemma alias_char_ascii c : is_alias_char c = true -> is_ascii c = true.
Proof.
  unfold is_alias_char, is_ascii_alphanumeric, is_ascii_alphabetic, is_ascii_digit.
  rewrite !orb_true_iff, !in_range_spec, is_ascii_spec, ceq_true. intros [[[H | H] | H] | ->]; [lia.. |].
  by vm_compute.
Qed.

Lemma from_utf8_app_ascii l r :
  Forall (fun c => is_ascii c = true) l -> from_utf8 (l ++ r) = from_utf8 r.
Proof. induction 1 as [| c l Hc Hl IH]; [done |]. cbn [app]. by rewrite from_utf8_cons. Qed.

(** What the loops read at a position. *)
Lemma read_token {E} body pre c suf :
  from_utf8 body = true -> body = pre ++ c :: suf ->
  let start := length pre + 1 in
  let j := if ceq c "$" then scan_while is_alias_char body start else start in
  let '(t, rest) := next_token c suf in
  match t with
  | Lit b => b = c /\ (start <? j) = false /\ rest = suf
  | Name n => (start <? j) = true /\ str_slice (E:=E) body start j = Ok n /\
      body = (pre ++ c :: n) ++ rest /\ j = length (pre ++ c :: n)
  end.
Proof.
  intros Hu ->. cbv zeta. unfold next_token. destruct (ceq c "$") eqn:Hc;
    [| by rewrite Nat.ltb_irrefl].
  apply ceq_true in Hc as ->. unfold alias_name.
  assert (scan_while is_alias_char (pre ++ "$"%char :: suf) (length pre + 1) =
    length pre + 1 + length (take_while is_alias_char suf)) as ->.
  { unfold scan_while. replace (pre ++ "$"%char :: suf) with ((pre ++ ["$"%char]) ++ suf)
      by (by rewrite <- (assoc_L (++))).
    by rewrite drop_app_length' by (rewrite length_app; cbn; lia). }
  destruct (take_while_spec is_alias_char suf) as (rest & Hsuf & Hname & _).
  destruct (take_while is_alias_char suf) as [| n0 n] eqn:Hn.
  { split_and!; [done | | done]. apply Nat.ltb_ge. cbn [length]. lia. }
  rewrite <- Hn in *. set (name := take_while is_alias_char suf) in *.
  assert (drop (length name) suf = rest) as -> by by rewrite Hsuf, drop_app_length.
  assert (Forall (fun c => is_ascii c = true) name) as Ha
    by (eapply Forall_impl; [exact Hname | intros; by apply alias_char_ascii]).
  assert (from_utf8 rest = true) as Hr.
  { pose proof Hu as Hp. apply from_utf8_cut in Hp; [| done].
    rewrite from_utf8_app, from_utf8_cons, Hsuf, from_utf8_app_ascii in Hu by done. done. }
  split_and!.
  - apply Nat.ltb_lt. rewrite Hn. cbn. lia.
  - replace (pre ++ "$"%char :: suf) with ((pre ++ ["$"%char]) ++ name ++ rest)
      by (by rewrite <- (assoc_L (++)), <- Hsuf).
    apply str_slice_utf8; [by rewrite from_utf8_app_ascii | done | by rewrite length_app |].
    by rewrite length_app.
  - by rewrite <- (assoc_L (++)), <- app_comm_cons, <- Hsuf.
  - rewrite length_app. cbn. lia.
Qed.

(** ** The loops over tokens *)

Fixpoint run_tokens (resolve : bytes -> M bytes) (ts : list token) (out : bytes) : M bytes :=
  match ts with
  | [] => mret out
  | Lit b :: ts => run_tokens resolve ts (out ++ push_char b)
  | Name n :: ts => expanded ← resolve n; run_tokens resolve ts (out ++ parens expanded)
  end.

Lemma expand_loop_tokens resolve body : from_utf8 body = true ->
  forall fuel pre suf out s, body = pre ++ suf -> length suf < fuel ->
    expand_loop resolve fuel body (length pre) out s = run_tokens resolve (tokens suf) out s.
Proof.
  intros Hu fuel. induction fuel as [| fuel IH]; intros pre suf out s Hb Hf; [lia |].
  cbn [expand_loop]. destruct suf as [| c suf].
  { rewrite app_nil_r in Hb. subst. by rewrite Nat.leb_refl. }
  rewrite (proj2 (Nat.leb_gt _ _)) by (rewrite Hb, length_app; cbn; lia).
  rewrite tokens_cons. pose proof (read_token (E:=ConfigError) body pre c suf Hu Hb) as Ht.
  pose proof (next_token_length c suf) as Hl. cbv zeta in Ht |- *. cbn [length] in Hf.
  unfold index. rewrite Hb at 1. rewrite list_lookup_middle by done.
  unfold mbind at 1, st_bind at 1, lift at 1. cbv beta iota.
  destruct (next_token c suf) as [[b | n] rest]; cbn [fst snd] in *.
  - destruct Ht as (-> & -> & ->). cbn [run_tokens].
    replace (length pre + 1) with (length (pre ++ [c])) by (rewrite length_app; cbn; lia).
    apply IH; [by rewrite <- (assoc_L (++)) | lia].
  - destruct Ht as (-> & -> & Hb' & ->). cbn [run_tokens]. unfold mbind, st_bind, lift. cbv beta iota.
    destruct (resolve n s) as [[v | | |] s']; try done. apply IH; [done | lia].
Qed.

Lemma expand_refs_tokens resolve body s : from_utf8 body = true ->
  expand_refs resolve body s = run_tokens resolve (tokens body) [] s.
Proof. intros Hu. by apply (expand_loop_tokens _ _ Hu _ []); [| lia]. Qed.

(** What a token stands for, given the expansions of the names. *)
Definition render (value : bytes -> option bytes) (t : token) : option bytes :=
  match t with
  | Lit b => Some (push_char b)
  | Name n => parens <$> value n
  end.

Definition render_all (value : bytes -> option bytes) (ts : list token) : option bytes :=
  @concat ascii <$> mapM (render value) ts.

Lemma render_all_cons value t ts :
  render_all value (t :: ts) = (x ← render value t; app x <$> render_all value ts).
Proof.
  unfold render_all. cbn [mapM]. destruct (render value t) as [x |]; [| done]. cbn.
  by destruct (mapM (render value) ts).
Qed.

Lemma render_all_app value l r :
  render_all value (l ++ r) = (a ← render_all value l; app a <$> render_all value r).
Proof.
  induction l as [| t l IH].
  - change (render_all value []) with (Some (@nil ascii)). cbn [app mbind option_bind].
    by destruct (render_all value r).
  - cbn [app]. rewrite !render_all_cons, IH. destruct (render value t) as [x |]; [| done]. cbn.
    destruct (render_all value l) as [y |]; [| done]. cbn.
    destruct (render_all value r); [| done]. cbn. by rewrite <- (assoc_L (++)).
Qed.

(** The first name of a text that has no value. *)
Fixpoint first_unknown (value : bytes -> option bytes) (ts : list token) : option bytes :=
  match ts with
  | [] => None
  | Name n :: ts => match value n with None => Some n | Some _ => first_unknown value ts end
  | _ :: ts => first_unknown value ts
  end.

Lemma first_unknown_None value ts :
  first_unknown value ts = None <-> exists out, render_all value ts = Some out.
Proof.
  induction ts as [| t ts IH]; [split; [by exists [] | done] |].
  rewrite render_all_cons. destruct t as [b | n]; cbn [first_unknown render].
  - cbn [mbind option_bind]. rewrite IH. destruct (render_all value ts) as [o |]; cbn;
      split; intros [? ?]; (done || eauto).
  - destruct (value n) as [v |]; cbn; [| split; [done | intros [? ?]; done]].
    rewrite IH. destruct (render_all value ts) as [o |]; cbn; split; intros [? ?]; (done || eauto).
Qed.

Lemma substitute_loop_tokens resolved at_ body : from_utf8 body = true ->
  forall fuel pre suf out, body = pre ++ suf -> length suf < fuel ->
    substitute_loop fuel body resolved at_ (length pre) out =
      match render_all (resolved !!.) (tokens suf) with
      | Some r => Ok (out ++ r)
      | None => Err (UnknownAlias (default [] (first_unknown (resolved !!.) (tokens suf))) at_)
      end.
Proof.
  intros Hu fuel. induction fuel as [| fuel IH]; intros pre suf out Hb Hf; [lia |].
  cbn [substitute_loop]. destruct suf as [| c suf].
  { rewrite app_nil_r in Hb. subst. rewrite Nat.leb_refl. cbn. by rewrite app_nil_r. }
  rewrite (proj2 (Nat.leb_gt _ _)) by (rewrite Hb, length_app; cbn; lia).
  rewrite tokens_cons, render_all_cons.
  pose proof (read_token (E:=ConfigError) body pre c suf Hu Hb) as Ht.
  pose proof (next_token_length c suf) as Hl. cbv zeta in Ht |- *. cbn [length] in Hf.
  unfold index. rewrite Hb at 1. rewrite list_lookup_middle by done. rewrite ret_bind.
  destruct (next_token c suf) as [[b | n] rest]; cbn [fst snd] in *.
  - destruct Ht as (-> & -> & ->). cbn [render mbind option_bind first_unknown].
    replace (length pre + 1) with (length (pre ++ [c])) by (rewrite length_app; cbn; lia).
    rewrite (IH _ suf) by (lia || by rewrite <- (assoc_L (++))).
    destruct (render_all _ _); cbn; [by rewrite <- (assoc_L (++)) | done].
  - destruct Ht as (-> & -> & Hb' & ->). rewrite ret_bind. cbn [render first_unknown].
    destruct (resolved !! n) as [v |]; cbn [fmap option_fmap option_map mbind option_bind]; [| done].
    rewrite (IH _ rest) by (done || lia). destruct (render_all _ _); cbn; [by rewrite <- (assoc_L (++)) | done].
Qed.

Lemma substitute_tokens resolved at_ expr : from_utf8 expr = true ->
  substitute_aliases expr resolved at_ =
    match render_all (resolved !!.) (tokens expr) with
    | Some r => Ok r
    | None => Err (UnknownAlias (default [] (first_unknown (resolved !!.) (tokens expr))) at_)
    end.
Proof.
  intros Hu. unfold substitute_aliases. rewrite (substitute_loop_tokens _ _ _ Hu _ [] expr) by (done || lia).
  done.
Qed.

(** ** Full expansions *)

Section src.
Context (src : gmap bytes bytes).

(** The expansion of an alias, by at most [d] nested replacements. *)
Fixpoint full (d : nat) (name : bytes) : option bytes :=
  match d with
  | O => None
  | S d => body ← src !! name; render_all (full d) (tokens body)
  end.

Definition expansion (name out : bytes) : Prop := exists d, full d name = Some out.

(** The body of [a] mentions [n]. *)
Definition references (a n : bytes) : Prop :=
  exists body, src !! a = Some body /\ Name n ∈ tokens body.

Lemma render_all_mono v w ts out :
  (forall n x, Name n ∈ ts -> v n = Some x -> w n = Some x) ->
  render_all v ts = Some out -> render_all w ts = Some out.
Proof.
  revert out. induction ts as [| t ts IH]; intros out Hvw; [done |].
  rewrite !render_all_cons. intros (x & Hx & (y & Hy & ->)%fmap_Some)%bind_Some.
  assert (render w t = Some x) as ->.
  { destruct t as [b | n]; [done |]. cbn in Hx |- *. apply fmap_Some in Hx as (z & Hz & ->).
    by rewrite (Hvw n z); [| left |]. }
  cbn. rewrite (IH y); [done | | done]. intros n z Hn. apply Hvw. by right.
Qed.

Lemma full_S d name out : full d name = Some out -> full (S d) name = Some out.
Proof.
  revert name out. induction d as [| d IH]; intros name out; [done |].
  change (full (S d) name) with (body ← src !! name; render_all (full d) (tokens body)).
  intros (body & Hb & Hr)%bind_Some. cbn [full]. rewrite Hb. cbn.
  eapply render_all_mono; [| exact Hr]. intros n x _ Hx. by apply IH.
Qed.

Lemma full_mono d e name out : d <= e -> full d name = Some out -> full e name = Some out.
Proof. induction 1 as [| e He IH]; [done |]. intros H. by apply full_S, IH. Qed.

Lemma expansion_unique name a b : expansion name a -> expansion name b -> a = b.
Proof.
  intros [d Hd] [e He]. apply (full_mono _ (d `max` e)) in Hd; [| lia].
  apply (full_mono _ (d `max` e)) in He; [| lia]. congruence.
Qed.

(** The value of every name of a text is its expansion. *)
Lemma render_expansions value body ts out name :
  src !! name = Some body -> ts = tokens body ->
  (forall n x, Name n ∈ ts -> value n = Some x -> expansion n x) ->
  render_all value ts = Some out -> expansion name out.
Proof.
  intros Hb -> Hv Hr. enough (exists d, render_all (full d) (tokens body) = Some out) as [d Hd].
  { exists (S d). cbn [full]. by rewrite Hb. }
  clear Hb. revert out Hr. induction (tokens body) as [| t ts IH]; intros out; [by exists 0 |].
  rewrite render_all_cons. intros (x & Hx & (y & Hy & ->)%fmap_Some)%bind_Some.
  destruct (IH (fun n x Hn => Hv n x (list_elem_of_further _ _ _ Hn)) y Hy) as [d Hd].
  assert (exists e, render (full e) t = Some x) as [e He].
  { destruct t as [b | n]; [by exists 0 |]. cbn in Hx |- *. apply fmap_Some in Hx as (z & Hz & ->).
    destruct (Hv n z (list_elem_of_here _ _) Hz) as [e He]. exists e. by rewrite He. }
  exists (d `max` e). rewrite render_all_cons.
  assert (render (full (d `max` e)) t = Some x) as ->.
  { destruct t as [b | n]; [done |]. cbn in He |- *. apply fmap_Some in He as (z & Hz & ->).
    by rewrite (full_mono e _ _ z); [| lia |]. }
  cbn. rewrite (render_all_mono (full d) _ _ y); [done | | done].
  intros n z _ Hz. by rewrite (full_mono d _ _ z); [| lia |].
Qed.

(** A reference is expanded by fewer replacements. *)
Lemma references_full d a n out :
  references a n -> full (S d) a = Some out -> exists x, full d n = Some x.
Proof.
  intros (body & Hb & Hn) Hf. cbn [full] in Hf. rewrite Hb in Hf. cbn in Hf. revert out Hf.
  induction (tokens body) as [| t ts IH]; intros out; [by apply not_elem_of_nil in Hn |].
  rewrite render_all_cons. intros (x & Hx & (y & Hy & ->)%fmap_Some)%bind_Some.
  apply elem_of_cons in Hn as [<- | Hn]; [| by eapply IH].
  cbn in Hx. apply fmap_Some in Hx as (z & Hz & ->). by exists z.
Qed.

(** *** Chains of references *)

Fixpoint chained (l : list bytes) : Prop :=
  match l with
  | a :: ((b :: _) as rest) => references a b /\ chained rest
  | _ => True
  end.

Lemma chained_snoc l a b : chained (l ++ [a]) -> references a b -> chained (l ++ [a; b]).
Proof.
  induction l as [| x l IH]; [done |]. destruct l as [| y l]; cbn [app chained] in *; [tauto |].
  intros [H1 H2] Hab. split; [done |]. by apply IH.
Qed.

Lemma chained_app_r l r : chained (l ++ r) -> chained r.
Proof.
  induction l as [| x l IH]; [done |]. intros H. apply IH.
  destruct (l ++ r) eqn:E; cbn [app chained] in H; rewrite E in H; [done | by destruct H].
Qed.

Lemma chained_full l a b d out :
  chained (a :: l ++ [b]) -> full d a = Some out ->
  exists e x, e < d /\ full e b = Some x.
Proof.
  revert a d out. induction l as [| c l IH]; intros a [| d] out Hc Hf; try done;
    cbn [app chained] in Hc; destruct Hc as [Hr Hc]; destruct (references_full _ _ _ _ Hr Hf) as [x Hx].
  - exists d, x. split; [lia | done].
  - destruct (IH c d x Hc Hx) as (e & y & He & Hy). exists e, y. split; [lia | done].
Qed.

(** No alias of a cycle has an expansion. *)
Lemma cycle_no_expansion l a out : chained (a :: l ++ [a]) -> ~ expansion a out.
Proof.
  intros Hc [d Hd]. revert out Hd. induction (lt_wf d) as [d _ IH]. intros out Hd.
  destruct (chained_full _ _ _ _ _ Hc Hd) as (e & x & He & Hx). by eapply IH.
Qed.

(** ** Resolution *)

(** The error names what is wrong: a path of references that ends in one of its
    own aliases, or a name without body in the body of an alias. *)
Definition error_justified (e : ConfigError) : Prop :=
  match e with
  | AliasCycle chain =>
      exists path n, chain = join arrow (path ++ [n]) /\ n ∈ path /\ chained (path ++ [n])
  | UnknownAlias n at_ =>
      src !! n = None /\ exists a, references a n /\ at_ = bs "alias `" ++ a ++ bs "`"
  | _ => False
  end.

Definition sound (resolved : gmap bytes bytes) : Prop :=
  forall n x, resolved !! n = Some x -> expansion n x.

(** The aliases under way, when [name] is looked up. *)
Definition stack_ok (stack : list bytes) (name : bytes) : Prop :=
  NoDup stack /\ Forall (fun a => a ∈ dom src) stack /\ chained (stack ++ [name]) /\
  match last stack with None => name ∈ dom src | Some a => references a name end.

Definition resolves (name : bytes) (m : M bytes) (resolved : gmap bytes bytes) (stack : list bytes) :
    Prop :=
  match m (resolved, stack) with
  | (Ok v, (resolved', stack')) =>
      expansion name v /\ stack' = stack /\ sound resolved' /\ resolved ⊆ resolved' /\
      resolved' !! name = Some v
  | (Err e, _) => error_justified e
  | _ => False
  end.

Lemma run_tokens_spec resolve stack name body :
  src !! name = Some body ->
  (forall n resolved, Name n ∈ tokens body -> sound resolved -> resolves n (resolve n) resolved stack) ->
  forall post_ pre out resolved, tokens body = pre ++ post_ -> sound resolved ->
    render_all (resolved !!.) pre = Some out ->
    match run_tokens resolve post_ out (resolved, stack) with
    | (Ok v, (resolved', stack')) =>
        expansion name v /\ stack' = stack /\ sound resolved' /\ resolved ⊆ resolved'
    | (Err e, _) => error_justified e
    | _ => False
    end.
Proof.
  intros Hb Hres post_. induction post_ as [| t post_ IH]; intros pre out resolved Ht Hs Hr; cbn [run_tokens].
  { cbn. split_and!; [| done..]. rewrite app_nil_r in Ht.
    eapply (render_expansions (resolved !!.) body pre); [exact Hb | done | | exact Hr].
    intros n x _. apply Hs. }
  assert (forall x (resolved' : gmap bytes bytes), resolved ⊆ resolved' -> render (resolved' !!.) t = Some x ->
    render_all (resolved' !!.) (pre ++ [t]) = Some (out ++ x)) as Hsnoc.
  { intros x resolved' Hsub Hx. assert (render_all (resolved' !!.) pre = Some out) as Hp.
    { eapply render_all_mono; [| exact Hr]. intros n y _ Hy. exact (lookup_weaken _ _ _ _ Hy Hsub). }
    rewrite render_all_app, Hp, render_all_cons, Hx.
    change (render_all (resolved' !!.) []) with (Some (@nil ascii)). cbn [mbind option_bind].
    cbn. by rewrite app_nil_r. }
  destruct t as [b | n].
  - apply (IH (pre ++ [Lit b])); [by rewrite <- app_assoc | done |]. by apply Hsnoc.
  - assert (Name n ∈ tokens body) as Hn by (rewrite Ht; apply elem_of_app; right; left).
    specialize (Hres n resolved Hn Hs). unfold resolves in Hres. unfold mbind, st_bind.
    destruct (resolve n (resolved, stack)) as [[v | e | |] [resolved' stack']]; try done.
    destruct Hres as (Hv & -> & Hs' & Hsub & Hl).
    specialize (IH (pre ++ [Name n]) (out ++ parens v) resolved').
    destruct (run_tokens resolve post_ (out ++ parens v) (resolved', stack))
      as [[w | e | |] [resolved'' stack'']];
      (destruct IH as (Hw & -> & Hs'' & Hsub'') || apply IH);
      try (by rewrite <- app_assoc); try done;
      try (apply Hsnoc; [done |]; cbn; by rewrite Hl).
    split_and!; [done.. | by etrans].
Qed.

Context (Hutf : map_Forall (fun _ body => from_utf8 body = true) src).

Lemma stack_small stack name : stack_ok stack name -> length stack <= size src.
Proof.
  intros (Hn & Hd & _). rewrite <- size_dom, <- (size_list_to_set (C:=gset bytes) stack) by done.
  apply subseteq_size. intros a Ha%elem_of_list_to_set. rewrite Forall_forall in Hd. by apply Hd.
Qed.

Lemma stack_push stack name n body :
  stack_ok stack name -> name ∉ stack -> src !! name = Some body -> Name n ∈ tokens body ->
  stack_ok (stack ++ [name]) n.
Proof.
  intros (Hn & Hd & Hc & _) Hin Hb Ht. assert (references name n) as Hr by by exists body.
  split_and!.
  - apply NoDup_app. split_and!; [done | | apply NoDup_singleton].
    intros a Ha ->%list_elem_of_singleton. done.
  - apply Forall_app. split; [done |]. apply Forall_singleton. by eapply elem_of_dom_2.
  - rewrite <- (assoc_L (++)). by apply chained_snoc.
  - by rewrite last_snoc.
Qed.

Lemma resolve_one_spec fuel name resolved stack :
  sound resolved -> stack_ok stack name -> size src < fuel + length stack ->
  resolves name (resolve_one fuel src name) resolved stack.
Proof.
  revert name resolved stack. induction fuel as [| fuel IH]; intros name resolved stack Hs Hk Hf.
  { pose proof (stack_small _ _ Hk). lia. }
  unfold resolves. cbn [resolve_one]. unfold mbind at 1, st_bind at 1, get at 1. cbv beta iota.
  destruct (resolved !! name) as [v |] eqn:Hv.
  { cbn. split_and!; [by apply Hs | done..]. }
  destruct (existsb (beq name) stack) eqn:Hin.
  { apply existsb_exists in Hin as (a & Ha%list_elem_of_In & <-%beq_true). cbn.
    exists stack, name. destruct Hk as (_ & _ & Hc & _). done. }
  assert (name ∉ stack) as Hnin.
  { rewrite existsb_false, Forall_forall in Hin. intros H%Hin. by rewrite beq_refl in H. }
  destruct (src !! name) as [body |] eqn:Hb.
  - unfold mbind, st_bind, put. cbv beta iota.
    rewrite expand_refs_tokens by exact (Hutf name body Hb).
    pose proof (run_tokens_spec (resolve_one fuel src) (stack ++ [name]) name body Hb) as Hrun.
    specialize (Hrun (fun n r Hn Hr => IH n r (stack ++ [name]) Hr
      (stack_push _ _ _ _ Hk Hnin Hb Hn) ltac:(rewrite length_app; cbn; lia))).
    specialize (Hrun _ [] [] resolved eq_refl Hs eq_refl).
    destruct (run_tokens _ _ _ _) as [[w | e | |] [resolved' stack']]; try done.
    destruct Hrun as (Hw & -> & Hs' & Hsub). cbn.
    rewrite removelast_last. split_and!; [done | done | | | by rewrite lookup_insert_eq].
    + intros n x. destruct (decide (n = name)) as [-> | Hne].
      * rewrite lookup_insert_eq. by intros [= <-].
      * rewrite lookup_insert_ne by done. apply Hs'.
    + by apply insert_subseteq_r.
  - cbn. destruct Hk as (_ & _ & _ & Hlast). split; [done |].
    destruct (last stack) as [a |]; [by exists a |].
    apply elem_of_dom in Hlast as [body Hb']. congruence.
Qed.

(** *** All the aliases *)

Lemma expansion_dom name out : expansion name out -> name ∈ dom src.
Proof.
  intros [[| d] Hd]; [done |]. cbn [full] in Hd. apply bind_Some in Hd as (body & Hb & _).
  by eapply elem_of_dom_2.
Qed.

Lemma references_dom a n : references a n -> a ∈ dom src.
Proof. intros (body & Hb & _). by eapply elem_of_dom_2. Qed.

Lemma justified_no_expansion e : error_justified e ->
  exists n, n ∈ dom src /\ forall out, ~ expansion n out.
Proof.
  destruct e; try done.
  - intros (path & n & _ & (l1 & l2 & ->)%list_elem_of_split & Hc).
    rewrite <- (assoc_L (++)) in Hc. apply chained_app_r in Hc. exists n. split.
    + destruct l2; cbn [app chained] in Hc; by eapply references_dom, Hc.
    + intros out. by eapply cycle_no_expansion.
  - intros (Hn & a & Ha & _). exists a. split; [by eapply references_dom |].
    intros out [[| d] Hd]; [done |]. destruct (references_full _ _ _ _ Ha Hd) as [x Hx].
    destruct d as [| d]; [done |]. cbn [full] in Hx. by rewrite Hn in Hx.
Qed.

Lemma resolve_step_spec resolved n :
  sound resolved -> n ∈ dom src ->
  match resolve_step src resolved n with
  | Ok r => sound r /\ resolved ⊆ r /\ n ∈ dom r
  | Err e => error_justified e
  | _ => False
  end.
Proof.
  intros Hs Hn.
  assert (stack_ok [] n) as Hk by (split_and!; [apply NoDup_nil_2 | constructor | done..]).
  pose proof (resolve_one_spec (2 + size src) n resolved [] Hs Hk ltac:(cbn; lia)) as Hr.
  unfold resolves in Hr. unfold resolve_step.
  destruct (resolve_one _ _ _ _) as [[v | e | |] [r' stack']]; try done.
  destruct Hr as (_ & _ & Hs' & Hsub & Hl). split_and!; [done.. |]. by eapply elem_of_dom_2.
Qed.

Lemma resolve_fold names resolved :
  sound resolved -> Forall (fun n => n ∈ dom src) names ->
  match fold_res (resolve_step src) resolved names with
  | Ok r => sound r /\ resolved ⊆ r /\ Forall (fun n => n ∈ dom r) names
  | Err e => error_justified e
  | _ => False
  end.
Proof.
  revert resolved. induction names as [| n names IH]; intros resolved Hs Hd; cbn [fold_res]; [done |].
  apply Forall_cons in Hd as [Hn Hd].
  pose proof (resolve_step_spec resolved n Hs Hn) as Hr.
  destruct (resolve_step _ _ _) as [r' | e | |]; try done.
  destruct Hr as (Hs' & Hsub & Hl). rewrite ret_bind.
  specialize (IH r' Hs' Hd). destruct (fold_res _ _ _) as [r | e | |]; try done.
  destruct IH as (Hr & Hsub' & Hall). split_and!; [done | by etrans |].
  constructor; [| done]. by apply (subseteq_dom _ _ Hsub').
Qed.

Lemma resolve_aliases_outcome {HO : HashOrder} :
  match resolve_aliases src with
  | Ok r => dom r = dom src /\ forall n x, r !! n = Some x <-> expansion n x
  | Err e => error_justified e
  | _ => False
  end.
Proof.
  assert (forall n, n ∈ (entries src).*1 <-> n ∈ dom src) as Hkeys.
  { intros n. unfold entries. rewrite hash_order_perm, list_elem_of_fmap, elem_of_dom. split.
    - intros ([k v] & -> & Hk%elem_of_map_to_list). by exists v.
    - intros [v Hv]. exists (n, v). split; [done |]. by apply elem_of_map_to_list. }
  assert (sound ∅) as Hempty by by intros n x ?%lookup_empty_Some.
  assert (Forall (fun n => n ∈ dom src) (entries src).*1) as Hin
    by by apply Forall_forall; intros n ?%Hkeys.
  pose proof (resolve_fold (entries src).*1 ∅ Hempty Hin) as Hf. unfold resolve_aliases.
  destruct (fold_res _ _ _) as [r | e | |]; try done. destruct Hf as (Hs & _ & Hall).
  rewrite Forall_forall in Hall.
  assert (dom r = dom src) as Hd.
  { apply set_eq. intros n. split.
    - intros [x Hx]%elem_of_dom. by eapply expansion_dom, Hs.
    - intros Hn. by apply Hall, Hkeys. }
  split; [done |]. intros n x. split; [apply Hs |]. intros Hx.
  pose proof (expansion_dom _ _ Hx) as Hn. rewrite <- Hd in Hn. apply elem_of_dom in Hn as [y Hy].
  by rewrite (expansion_unique _ _ _ Hx (Hs _ _ Hy)).
Qed.

(** Every alias mapped to its full expansion, or an error that is justified and
    some alias without expansion. *)
Definition resolution (o : res ConfigError (gmap bytes bytes)) : Prop :=
  match o with
  | Ok r => dom r = dom src /\ forall n x, r !! n = Some x <-> expansion n x
  | Err e => error_justified e /\ exists n, n ∈ dom src /\ forall out, ~ expansion n out
  | _ => False
  end.

(** C18: resolving the aliases of a configuration terminates and never panics. It
    succeeds exactly when every alias has a full expansion, in whatever order the
    hash map yields them, and the result maps every alias to its full expansion;
    otherwise the error is a real one: a chain of references that returns to one
    of its own aliases, or a name without body mentioned by the alias it cites. *)
Theorem aliases_resolved {HO : HashOrder} : resolution (resolve_aliases src).
Proof.
  unfold resolution. pose proof resolve_aliases_outcome as H. destruct (resolve_aliases src); try done.
  split; [done | by eapply justified_no_expansion].
Qed.

End src.

Lemma utf8_texts (m : gmap bytes bytes) :
  forallb (fun e => from_utf8 e.2) (map_to_list m) = true ->
  map_Forall (fun _ body => from_utf8 body = true) m.
Proof.
  rewrite forallb_Forall. intros H. apply map_Forall_to_list. eapply Forall_impl; [exact H |].
  by intros [k v].
Qed.

(** A configuration with three aliases. *)
Definition ex_aliases : gmap bytes bytes :=
  {[ bs "domain" := bs "kind = 'class' AND $layer"; bs "layer" := bs "uri ~ '**/dir:core/**'";
     bs "all" := bs "$domain OR NOT $domain" ]}.

#[local] Instance plain_order : HashOrder := {| hash_order A l := l; hash_order_perm A l := reflexivity l |}.

Example domain_resolved :
  match resolve_aliases ex_aliases with Ok r => r !! bs "domain" | _ => None end =
    Some (bs "kind = 'class' AND (uri ~ '**/dir:core/**')").
Proof. by vm_compute. Qed.

Lemma aliases_resolved_witness :
  map_Forall (fun _ body => from_utf8 body = true) ex_aliases /\
  resolution ex_aliases (resolve_aliases ex_aliases).
Proof.
  assert (map_Forall (fun _ body => from_utf8 body = true) ex_aliases) as Hu
    by (apply utf8_texts; vm_compute; reflexivity).
  split; [exact Hu | exact (aliases_resolved ex_aliases Hu)].
Defined.

Example cycle_found :
  resolve_aliases {[ bs "a" := bs "$b"; bs "b" := bs "NOT $a" ]} =
    Err (AliasCycle (bs "b" ++ arrow ++ bs "a" ++ arrow ++ bs "b")).
Proof. by vm_compute. Qed.

(** ** Substitution *)

Lemma tokens_lits l : (forall n, Name n ∉ tokens l) -> tokens l = Lit <$> l.
Proof.
  induction l as [| c l IH]; [done |]. rewrite tokens_cons. unfold next_token. intros Hn.
  destruct (if ceq c "$" then alias_name l else []) as [| n0 n]; cbn [fst snd] in *.
  - cbn. f_equal. apply IH. intros n Hin. apply (Hn n). by right.
  - destruct (Hn (n0 :: n)). by left.
Qed.

Lemma render_lits value l : render_all value (Lit <$> l) = Some (concat (push_char <$> l)).
Proof.
  induction l as [| c l IH]; [done |]. rewrite !fmap_cons, render_all_cons, IH. done.
Qed.

Lemma length_push_char c : length (push_char c) = if is_ascii c then 1 else 2.
Proof. unfold push_char, is_ascii. by case_match. Qed.

Lemma length_push_chars l : length l <= length (concat (push_char <$> l)).
Proof.
  induction l as [| c l IH]; [done |]. rewrite fmap_cons. cbn [concat length].
  rewrite length_app, length_push_char. case_match; lia.
Qed.

Lemma push_chars_id l : concat (push_char <$> l) = l <-> forallb is_ascii l = true.
Proof.
  induction l as [| c l IH]; [done |]. rewrite fmap_cons. cbn [concat forallb].
  rewrite andb_true_iff, <- IH. destruct (is_ascii c) eqn:Hc.
  - unfold push_char. unfold is_ascii in Hc. rewrite Hc. cbn [app]. split; [| by intros [_ ->]].
    intros [= Hl]. done.
  - split; [| by intros [? _]]. intros H. apply (f_equal length) in H.
    rewrite length_app, length_push_char, Hc in H. pose proof (length_push_chars l). cbn in H. lia.
Qed.


(** [name = 'é'] *)
Definition ex_accent : bytes := bs "name = '" ++ map ascii_of_N [195; 169]%N ++ bs "'".


End AliasFacts.
