(* ===== verification/Config.v ===== *)
(** Sorting of strings: the byte order of [str], [sort], [sort_by] and [dedup].

    Validation, profiles and loading of the configuration of the rules
    (src/crates/check/src/check/config/mod.rs). *)

From stdpp Require Export sorting.
From S2P Require Import Prelude.
From S2P Require Import RustStr.
From S2P Require Import Shape.
From S2P Require Import Moniker.
From S2P Require Import CodeGraphFacts.
From S2P Require Import Path.
From S2P Require Import Syntax.
From S2P Require Import Suppress.
From S2P Require Import ConfigData.
From S2P Require Import Aliases.

Module StrSort.

Definition str_le (a b : bytes) : Prop := Moniker.bytes_le a b = true.

#[export] Instance str_le_dec : RelDecision str_le.
Proof. intros a b. unfold str_le. apply _. Defined.
#[export] Instance str_le_refl : Reflexive str_le.
Proof. intros a. apply CodeGraphFacts.bytes_le_refl. Qed.
#[export] Instance str_le_trans : Transitive str_le.
Proof. intros a b c. apply CodeGraphFacts.bytes_le_trans. Qed.
#[export] Instance str_le_antisym : AntiSymm (=) str_le.
Proof. intros a b. apply CodeGraphFacts.bytes_le_antisym. Qed.
#[export] Instance str_le_total : Total str_le.
Proof. intros a b. apply CodeGraphFacts.bytes_le_total. Qed.

Definition sort_strings (l : list bytes) : list bytes := merge_sort str_le l.

(** [Vec::dedup]: consecutive repetitions are dropped. *)
Fixpoint dedup (l : list bytes) : list bytes :=
  match l with
  | a :: ((b :: _) as rest) => if beq a b then dedup rest else a :: dedup rest
  | _ => l
  end.

(** [v.sort_by(|a, b| key(a).cmp(key(b)))], a stable sort. *)
Definition key_le {A} (key : A -> bytes) (a b : A) : Prop := str_le (key a) (key b).

#[export] Instance key_le_dec {A} (key : A -> bytes) : RelDecision (key_le key).
Proof. intros a b. unfold key_le. apply _. Defined.
#[export] Instance key_le_trans {A} (key : A -> bytes) : Transitive (key_le key).
Proof. intros a b c. unfold key_le. apply str_le_trans. Qed.
#[export] Instance key_le_total {A} (key : A -> bytes) : Total (key_le key).
Proof. intros a b. apply str_le_total. Qed.

Definition sort_by_key {A} (key : A -> bytes) (l : list A) : list A := merge_sort (key_le key) l.

(** A list of strings has one sorted permutation. *)
Lemma sort_strings_permutation l r : l ≡ₚ r -> sort_strings l = sort_strings r.
Proof.
  intros H. apply (StronglySorted_unique str_le);
    [by apply StronglySorted_merge_sort; apply _ .. |].
  unfold sort_strings. by rewrite !merge_sort_Permutation.
Qed.

Lemma elem_of_sort l x : x ∈ sort_strings l <-> x ∈ l.
Proof. unfold sort_strings. by rewrite merge_sort_Permutation. Qed.

Lemma elem_of_dedup l x : x ∈ dedup l <-> x ∈ l.
Proof.
  induction l as [| a [| b l] IH]; [done.. |]. cbn [dedup]. case_match eqn:E.
  - apply beq_true in E as ->. rewrite IH, !elem_of_cons. tauto.
  - by rewrite elem_of_cons, IH, (elem_of_cons (b :: l)).
Qed.

End StrSort.

Module Config.
Import ConfigData Aliases StrSort.

Abbreviation R := (res ConfigError).

(** [if c { return Err(e) }] *)
Definition reject (c : bool) (e : ConfigError) : R () := if c then Err e else Ok ().

Definition quoted (s : bytes) : bytes := bs "`" ++ s ++ bs "`".

(** ** Vocabulary *)

Definition INTERNAL_KINDS : list bytes := bs <$> ["module"; "local"; "param"; "comment"]%string.
Definition RESERVED_LANG_KEYS : list bytes := [bs "refs"].

Definition mem (x : bytes) (l : list bytes) : bool := existsb (beq x) l.

Definition allowed_kinds_set (lang : option Lang.t) : list bytes :=
  dedup (sort_strings (INTERNAL_KINDS ++
    match lang with
    | Some l => Lang.allowed_kinds l
    | None => concat (Lang.allowed_kinds <$> Lang.ALL)
    end)).

Definition allowed_kinds_for (lang : Lang.t) : list bytes := allowed_kinds_set (Some lang).
Definition allowed_workspace_kinds : list bytes := allowed_kinds_set None.

Definition allowed_def_shape_names : list bytes :=
  Shape.as_str <$> filter (fun s => s <> Shape.Ref) Shape.ALL.

Definition allowed_doc_vis_for (lang : Lang.t) : list bytes :=
  bs "any" :: Lang.allowed_visibilities lang.

Definition allowed_doc_vis_any_lang : list bytes :=
  dedup (sort_strings (bs "any" :: concat (Lang.allowed_visibilities <$> Lang.ALL))).

(** ** Ids and taxonomy terms *)

Definition is_ascii_lowercase (b : ascii) : bool := in_range 97 122 b.

Definition lower_or_digit (b : ascii) : bool := is_ascii_lowercase b || is_ascii_digit b.

(** [l[i].is_ascii_alphanumeric()] where the code has checked that [i] is in
    range. *)
Definition at_is (f : ascii -> bool) (l : bytes) (i : nat) : bool :=
  match l !! i with Some b => f b | None => false end.

Definition is_canonical_taxonomy_term (value : bytes) : bool :=
  negb (beq value []) &&
  forallb (fun part => negb (beq part []) && forallb lower_or_digit part) (split_on "-" value).

Definition is_canonical_component_term (value : bytes) : bool :=
  match split_on "@" value with
  | [] => false
  | component :: rest =>
      if negb (is_canonical_taxonomy_term component) then false
      else
        match rest with
        | [] => true
        | scope :: rest =>
            is_canonical_taxonomy_term scope && match rest with [] => true | _ => false end
        end
  end.

(** [index > 0 && index + 1 < len && f(bytes[index - 1]) && f(bytes[index + 1])] *)
Definition between (f : ascii -> bool) (value : bytes) (index : nat) : bool :=
  (0 <? index) && (index + 1 <? length value) && at_is f value (index - 1) && at_is f value (index + 1).

Definition is_canonical_rule_id (value : bytes) : bool :=
  negb (beq value []) &&
  forallb (fun b => lower_or_digit b || ceq b "-" || ceq b "@") value &&
  forallb (fun e : nat * ascii =>
    if ceq e.2 "-" then between (fun b => negb (ceq b "-")) value e.1
    else if ceq e.2 "@" then between is_ascii_alphanumeric value e.1
    else true) (imap pair value).

Definition well_formed_scope_markers (id : bytes) : bool :=
  forallb (fun e : nat * ascii => negb (ceq e.2 "@") || between is_ascii_alphanumeric id e.1)
    (imap pair id).

Definition is_stable_group_rule_id (id : bytes) : bool :=
  negb (beq id []) &&
  forallb (fun b => is_ascii_alphanumeric b || ceq b "_" || ceq b "-" || ceq b "@") id &&
  well_formed_scope_markers id.

(** [s.match_indices(pat)] for a nonempty [pat]: the starts of the matches that
    do not overlap; [skip] bytes belong to the last one. *)
Fixpoint match_indices_loop (pat : bytes) (skip i : nat) (s : bytes) : list nat :=
  match s with
  | [] => []
  | _ :: r =>
      match skip with
      | S skip => match_indices_loop pat skip (S i) r
      | O =>
          if starts_with pat s then i :: match_indices_loop pat (length pat - 1) (S i) r
          else match_indices_loop pat 0 (S i) r
      end
  end.

Definition match_indices (pat s : bytes) : list nat := match_indices_loop pat 0 0 s.

Definition scope_markers_belong_to_declared_components (id : bytes) (components : list bytes) :
    bool :=
  forallb (fun marker =>
    existsb (fun component =>
      existsb (fun start =>
        let end_ := start + length component in
        (start <=? marker) && (marker <? end_) &&
        ((start =? 0) || at_is (ceq "-") id (start - 1)) &&
        ((end_ =? length id) || at_is (ceq "-") id end_))
        (match_indices component id))
      (List.filter (contains (bs "@")) components))
    (match_indices (bs "@") id).

Definition taxonomy_alias_anchor (term : bytes) : bytes :=
  replace (bs "-") (bs "_") (replace (bs "@") (bs "-at-") term).

(** The terms seen and their anchors. *)
Abbreviation Anchors := (gmap bytes (bytes * bytes)).

Definition validate_taxonomy_alias_anchor (seen : Anchors) (kind term path : bytes) : R Anchors :=
  let anchor := taxonomy_alias_anchor term in
  match seen !! anchor with
  | Some (existing_kind, existing_term) =>
      Err (InvalidRuleTaxonomy path
        (kind ++ bs " " ++ quoted term ++ bs " and " ++ existing_kind ++ bs " " ++
         quoted existing_term ++ bs " both normalize to alias anchor " ++ quoted anchor))
  | None => Ok (<[anchor := (kind, term)]> seen)
  end.

(** The body of the two loops of [validate_rule_taxonomy]. *)
Definition taxonomy_step (kind not_canonical path : bytes) (canonical : bytes -> bool)
    (acc : gset bytes * Anchors) (term : bytes) : R (gset bytes * Anchors) :=
  let '(seen, anchors) := acc in
  _ ← reject (negb (canonical term))
        (InvalidRuleTaxonomy path (kind ++ bs " " ++ quoted term ++ not_canonical));
  _ ← reject (bool_decide (term ∈ seen))
        (InvalidRuleTaxonomy path
           (bs "taxonomy term " ++ quoted term ++ bs " is duplicated or ambiguous"));
  anchors ← validate_taxonomy_alias_anchor anchors kind term path;
  Ok ({[term]} ∪ seen, anchors).

Definition validate_rule_taxonomy (t : RuleTaxonomy) (path : bytes) : R () :=
  _ ← reject (match patterns t with [] => true | _ => false end)
        (InvalidRuleTaxonomy path (bs "`patterns` must contain at least one term"));
  _ ← reject (match components t with [] => true | _ => false end)
        (InvalidRuleTaxonomy path (bs "`components` must contain at least one term"));
  acc ← fold_res (taxonomy_step (bs "pattern") (bs " is not canonical kebab-case (lowercase ASCII letters and digits separated by single hyphens)") path is_canonical_taxonomy_term)
          (∅, ∅) (patterns t);
  _ ← fold_res (taxonomy_step (bs "component") (bs " is not canonical kebab-case or a single `component@scope` pair") path is_canonical_component_term)
        acc (components t);
  Ok ().

(** ** Structure *)

Definition stable_id_message : bytes :=
  bs "`id` may contain ASCII letters, digits, `_`, `-`, and well-formed `@` component scopes".

(** The body of the loop of [validate_structure] over the group rules. *)
Definition validate_workspace_group (e : nat * WorkspaceGroupRuleEntry) : R () :=
  match group_id e.2 with
  | None =>
      Err (InvalidWorkspaceGroup (bs "workspace.group.where_" ++ show_nat e.1)
        (bs "`id` is required because it is part of the stable ScopeKey"))
  | Some id =>
      reject (negb (is_stable_group_rule_id id))
        (InvalidWorkspaceGroup (bs "workspace.group." ++ id) stable_id_message)
  end.

Definition in_bounds (lo hi n : N) : bool := ((lo <=? n) && (n <=? hi))%N.

(** What is wrong with a path rule: the chain of conditions. *)
Definition invalid_path (rule : WorkspacePathRuleEntry) : option bytes :=
  let all_via := match expect rule with AllPathsVia => true | _ => false end in
  if beq (trim (from rule)) [] then Some (bs "`from` must not be empty")
  else if beq (trim (to rule)) [] then Some (bs "`to` must not be empty")
  else if all_via && match via rule with None => true | Some v => beq (trim v) [] end then
    Some (bs "`via` is required and must not be empty for `all_paths_via`")
  else if negb all_via && match via rule with Some _ => true | None => false end then
    Some (bs "`via` is only valid for `all_paths_via`")
  else if (64 <? max_depth rule)%N then Some (bs "`max_depth` must be at most 64")
  else if negb (in_bounds 1 100000 (max_symbols rule)) then
    Some (bs "`max_symbols` must be between 1 and 100000")
  else if negb (in_bounds 1 500000 (max_edges rule)) then
    Some (bs "`max_edges` must be between 1 and 500000")
  else if negb (in_bounds 1 100000 (max_pairs rule)) then
    Some (bs "`max_pairs` must be between 1 and 100000")
  else if match min_coverage rule with Some c => (100 <? c)%N | None => false end then
    Some (bs "`min_coverage` must be between 0 and 100")
  else None.

Definition validate_workspace_path (e : nat * WorkspacePathRuleEntry) : R () :=
  let '(index, rule) := e in
  let at_ := bs "workspace.path." ++ fallback_id (path_id rule) index in
  match path_id rule with
  | None => Err (InvalidWorkspacePath at_ (bs "`id` is required for stable diagnostics"))
  | Some id =>
      _ ← reject (negb (is_stable_group_rule_id id)) (InvalidWorkspacePath at_ stable_id_message);
      match invalid_path rule with
      | Some message => Err (InvalidWorkspacePath at_ message)
      | None => Ok ()
      end
  end.

Section config.
Context {T : Toml} {HO : HashOrder} {RE : RegexEngine}.

(** [require_doc_comment] of one shape or kind *)
Definition validate_doc_visibility (section kind : bytes) (value : option bytes)
    (allowed_vis : list bytes) : R () :=
  match value with
  | Some v =>
      reject (negb (mem v allowed_vis))
        (UnknownDocVisibility section kind v (RustStr.join (bs ", ") allowed_vis))
  | None => Ok ()
  end.

Definition validate_shape_section (rules : gmap bytes KindRules) (section : bytes)
    (lang : option Lang.t) : R () :=
  for_each (fun e : bytes * KindRules =>
    let '(shape, kr) := e in
    _ ← reject (negb (mem shape allowed_def_shape_names))
          (UnknownShape section shape (RustStr.join (bs ", ") allowed_def_shape_names));
    validate_doc_visibility section shape (require_doc_comment kr)
      match lang with
      | Some l => allowed_doc_vis_for l
      | None => allowed_doc_vis_any_lang
      end) (entries rules).

Definition validate_lang_section (lr : LangRules) (section : bytes) (allowed : list bytes)
    (lang : option Lang.t) : R () :=
  _ ← validate_shape_section (lang_shape lr) (key section (bs "shape")) lang;
  for_each (fun e : bytes * KindRules =>
    let '(kind, kr) := e in
    if mem kind RESERVED_LANG_KEYS then Ok ()
    else
      _ ← reject (negb (mem kind allowed)) (UnknownKind section kind (RustStr.join (bs ", ") allowed));
      match lang with
      | Some l =>
          validate_doc_visibility section kind (require_doc_comment kr) (allowed_doc_vis_for l)
      | None => Ok ()
      end) (entries (kinds lr)).

Definition validate_structure (cfg : Config) (path_ : bytes) : R () :=
  _ ← match taxonomy cfg with
      | Some t => validate_rule_taxonomy t path_
      | None => Ok ()
      end;
  _ ← match min_linkage_coverage (workspace cfg) with
      | Some value => reject (100 <? value)%N (InvalidWorkspaceCoverage value)
      | None => Ok ()
      end;
  _ ← reject (match require_doc_comment (symbol (workspace cfg)) with Some _ => true | None => false end)
        WorkspaceRequireDocUnsupported;
  _ ← for_each validate_workspace_group (imap pair (group (workspace cfg)));
  _ ← for_each validate_workspace_path (imap pair (path (workspace cfg)));
  _ ← validate_shape_section (shape cfg) (bs "shape") None;
  _ ← reject (negb (bool_decide (lang_shape (default_lang cfg) = ∅))) DefaultShapeUnsupported;
  _ ← validate_lang_section (default_lang cfg) (bs "default") (allowed_kinds_set None) None;
  for_each (fun lang =>
    validate_lang_section (for_lang cfg lang) (Lang.config_section lang)
      (allowed_kinds_set (Some lang)) (Some lang)) Lang.ALL.

(** The body of the loop of [validate_scoped_rule_ids]. *)
Definition validate_scoped_rule_id (cfg : Config) (path_ : bytes) (d : Declaration) : R () :=
  let '(_, id, marker) := d in
  if negb (contains (bs "@") id) then Ok ()
  else
    let id := local_id (m ← marker; marker_fragment m) id in
    let source_path := default path_ (m ← marker; marker_source m) in
    match taxonomy cfg with
    | None =>
        Err (InvalidScopedRuleId source_path id
          (bs "`@` requires a scoped component declared in `rules.taxonomy.components`"))
    | Some t =>
        reject (negb (well_formed_scope_markers id) ||
                negb (scope_markers_belong_to_declared_components id (components t)))
          (InvalidScopedRuleId source_path id
             (bs "each `@` must belong to an exact declared `component@scope` anchor"))
    end.

Definition validate_scoped_rule_ids (cfg : Config) (path_ : bytes) : R () :=
  for_each (validate_scoped_rule_id cfg path_) (collect_rule_declarations cfg).

Definition validate (cfg : Config) (path_ : bytes) : R () :=
  _ ← resolve_aliases (aliases cfg);
  _ ← validate_structure cfg path_;
  validate_scoped_rule_ids cfg path_.

Definition ensure_source_groups_owned_by_project_root (cfg : Config) (path_ : bytes)
    (project_root : bool) : R () :=
  reject (negb (project_root || match source_groups (workspace cfg) with [] => true | _ => false end))
    (SourceGroupOutsideProjectRoot path_).

Definition ensure_rule_taxonomy_owned_by_project_root (cfg : Config) (path_ : bytes)
    (project_root : bool) : R () :=
  reject (negb (project_root || match taxonomy cfg with None => true | _ => false end))
    (RuleTaxonomyOutsideProjectRoot path_).

(** ** References of views to rules *)

Definition validate_view_rule_reference (known : gmap bytes bytes) (view section rule_id : bytes) :
    R () :=
  if bool_decide (is_Some (known !! rule_id)) || existsb (fun e => beq e.2 rule_id) (entries known)
  then Ok ()
  else
    let suffix := bs "." ++ rule_id in
    let matches := sort_strings (elements_of (list_to_set (C := gset bytes)
      (snd <$> List.filter (fun e : bytes * bytes => ends_with suffix e.1) (entries known)))) in
    match matches with
    | [_] => Ok ()
    | [] => Err (UnknownViewRuleReference view section rule_id)
    | _ => Err (AmbiguousViewRuleReference view section rule_id (RustStr.join (bs ", ") matches))
    end.

(** [table.get(key).and_then(as_str).unwrap_or("<unnamed>")] *)
Definition table_id (t : TomlTable) : bytes :=
  default (bs "<unnamed>") (v ← table_get t (bs "id"); toml_str v).

Definition table_array (t : TomlTable) (k : bytes) : option (list TomlValue) :=
  v ← table_get t k; as_array v.

Definition view_sections : list (bytes * list bytes) :=
  [(bs "boundaries", [bs "rules"; bs "forbid_rules"]); (bs "gotchas", [bs "rules"])].

Definition validate_view_item (known : gmap bytes bytes) (view_id section_name : bytes)
    (fields : list bytes) (item : TomlTable) : R () :=
  for_each (fun field =>
    match table_array item field with
    | None => Ok ()
    | Some rule_ids =>
        for_each (validate_view_rule_reference known view_id
          (section_name ++ bs "." ++ table_id item ++ bs "." ++ field)) (omap toml_str rule_ids)
    end) fields.

Definition validate_view (known : gmap bytes bytes) (view : TomlValue) : R () :=
  match as_table view with
  | None => Ok ()
  | Some table =>
      for_each (fun s : bytes * list bytes =>
        match table_array table s.1 with
        | None => Ok ()
        | Some items =>
            for_each (validate_view_item known (table_id table) s.1 s.2) (omap as_table items)
        end) view_sections
  end.

Definition validate_view_rule_references (cfg : Config) (known : gmap bytes bytes) : R () :=
  for_each (validate_view known) (views cfg).

(** ** Profiles *)

Definition known_profiles (cfg : Config) : bytes :=
  RustStr.join (bs ", ") (sort_strings (fst <$> entries (profiles cfg))).

Definition compile_patterns (patterns : list bytes) (profile field : bytes) : R (list Regex) :=
  map_res (fun p =>
    match regex_new p with
    | inr re => Ok re
    | inl error => Err (BadProfileRegex profile field p error)
    end) patterns.

(** The test of the three filters. *)
Definition selected (enable disable : list Regex) (full : bytes) : bool :=
  (match enable with [] => true | _ => existsb (fun re => is_match re full) enable end) &&
  negb (existsb (fun re => is_match re full) disable).

Definition filter_by {A} (id : A -> option bytes) (rules : list A) (prefix : bytes)
    (enable disable : list Regex) : list A :=
  match rules, enable, disable with
  | [], _, _ | _, [], [] => rules
  | _, _, _ =>
      snd <$> List.filter (fun e : nat * A =>
        selected enable disable (key prefix (fallback_id (id e.2) e.1))) (imap pair rules)
  end.

Definition filter_rules := filter_by entry_id.
Definition filter_group_rules := filter_by group_id.
Definition filter_path_rules := filter_by path_id.

Definition filter_shape_map (rules_ : gmap bytes KindRules) (section : bytes)
    (enable disable : list Regex) : gmap bytes KindRules :=
  map_imap (fun shape kr =>
    Some (set_rules (filter_rules (rules kr) (key section shape) enable disable) kr)) rules_.

Definition filter_lang (lr : LangRules) (section : bytes) (enable disable : list Regex) : LangRules :=
  mk_lang_rules (filter_shape_map (lang_shape lr) (key section (bs "shape")) enable disable)
    (filter_shape_map (kinds lr) section enable disable).

Definition filter_workspace_rules (w : WorkspaceRules) (enable disable : list Regex) :
    WorkspaceRules :=
  mk_workspace (min_linkage_coverage w)
    (set_rules (filter_rules (rules (symbol w)) (bs "workspace.symbol") enable disable) (symbol w))
    (filter_group_rules (group w) (bs "workspace.group") enable disable)
    (filter_path_rules (path w) (bs "workspace.path") enable disable) (source_groups w).

Definition refresh_fragment_active_rules (cfg : Config) : Config :=
  match fragments cfg with
  | [] => cfg
  | l =>
      let active_keys := collect_rule_keys cfg in
      set_fragments ((fun f =>
        mk_fragment_info (info_id f) (info_path f) (info_enabled f) (declared_rules f)
          (if info_enabled f
           then length (List.filter (fun k => bool_decide (k ∈ active_keys)) (info_rule_keys f))
           else 0) (info_rule_keys f)) <$> l) cfg
  end.

Definition filter_config (enable disable : list Regex) (cfg : Config) : Config :=
  set_rule_parts (filter_rules (refs cfg) (bs "refs") enable disable)
    (filter_workspace_rules (workspace cfg) enable disable)
    (filter_shape_map (shape cfg) (bs "shape") enable disable)
    (filter_lang (default_lang cfg) (bs "default") enable disable)
    (update_langs (fun lang lr => filter_lang lr (Lang.config_section lang) enable disable)
       (langs cfg)) cfg.

Definition apply_profile (cfg : Config) (name : bytes) : R Config :=
  match profiles cfg !! name with
  | None => Err (UnknownProfile name (known_profiles cfg))
  | Some p =>
      enable ← compile_patterns (enable p) name (bs "enable");
      disable ← compile_patterns (disable p) name (bs "disable");
      Ok (rebuild_rule_sources (refresh_fragment_active_rules (filter_config enable disable cfg)))
  end.

End config.
End Config.
