(* ===== verification/Fragments.v ===== *)
(** Rule fragments (src/crates/check/src/check/config/fragments.rs): namespacing
    of their aliases and rule ids, collisions, merging over a configuration, and
    the loading of a whole project (config/mod.rs). Reading files and parsing
    their TOML come before. *)

From S2P Require Import Prelude.
From S2P Require Import RustStr.
From S2P Require Import Syntax.
From S2P Require Import Config.
From S2P Require Import ConfigData.
From S2P Require Import Aliases.

Module Fragments.
Import ConfigData Aliases Config StrSort.

(** ** Ids *)

Definition is_simple_id (id : bytes) : bool :=
  negb (beq id []) && forallb (fun b => is_ascii_alphanumeric b || ceq b "_" || ceq b "-") id.

Definition is_rule_id (id : bytes) : bool :=
  negb (beq id []) &&
  forallb (fun b => is_ascii_alphanumeric b || ceq b "_" || ceq b "-" || ceq b "@") id &&
  well_formed_scope_markers id.

Definition is_alias_id (id : bytes) : bool := negb (beq id []) && forallb is_alias_char id.

Definition validate_fragment_id (path id : bytes) : R () :=
  reject (negb (is_simple_id id)) (InvalidFragmentId path id).

Definition validate_rule_id (path fragment id : bytes) : R () :=
  reject (negb (is_rule_id id)) (InvalidFragmentRuleId path fragment id).

Definition validate_alias_id (path fragment alias : bytes) : R () :=
  reject (negb (is_alias_id alias)) (InvalidFragmentAliasId path fragment alias).

Definition alias_namespace (fragment : bytes) : bytes :=
  (fun b => if is_alias_char b then b else "_"%char) <$> fragment.

Definition effective_alias_id (namespace alias : bytes) : bytes := namespace ++ bs "_" ++ alias.

(** The loop of [rewrite_local_alias_refs] at [i]; [copied_until] and [out] are
    its variables. *)
Fixpoint rewrite_loop (fuel : nat) (input : bytes) (local_aliases : gset bytes) (namespace : bytes)
    (i copied_until : nat) (out : bytes) : R bytes :=
  match fuel with
  | O => NoFuel
  | S fuel =>
      if length input <=? i then
        rest ← str_from input copied_until;
        Ok (out ++ rest)
      else
        c ← index input i;
        let start := i + 1 in
        let end_ := if ceq c "$" then scan_while is_alias_char input start else start in
        if start <? end_ then
          alias ← str_slice input start end_;
          if bool_decide (alias ∈ local_aliases) then
            copied ← str_slice input copied_until i;
            rewrite_loop fuel input local_aliases namespace end_ end_
              (out ++ copied ++ bs "$" ++ effective_alias_id namespace alias)
          else rewrite_loop fuel input local_aliases namespace end_ copied_until out
        else rewrite_loop fuel input local_aliases namespace (i + 1) copied_until out
  end.

Definition rewrite_local_alias_refs (input : bytes) (local_aliases : gset bytes)
    (namespace : bytes) : R bytes :=
  rewrite_loop (S (length input)) input local_aliases namespace 0 0 [].

(** ** Rewriting a configuration in place *)

Section update.
Context (f : bytes -> R bytes).

Definition rewrite_rules (l : list RuleEntry) : R (list RuleEntry) :=
  map_res (fun r =>
    e ← f (entry_expr r);
    Ok (mk_entry (entry_id r) e (entry_severity r) (entry_message r) (entry_rationale r)
          (entry_source r))) l.

Definition rewrite_path_rules (l : list WorkspacePathRuleEntry) : R (list WorkspacePathRuleEntry) :=
  map_res (fun r =>
    from_ ← f (from r);
    to_ ← f (to r);
    Ok (mk_path_entry (path_id r) from_ to_ (expect r) (via r) (require_non_empty r) (relation r)
          (max_depth r) (max_symbols r) (max_edges r) (max_pairs r) (min_coverage r)
          (path_severity r) (path_message r) (path_rationale r) (path_source r))) l.

Definition rewrite_group_rules (l : list WorkspaceGroupRuleEntry) :
    R (list WorkspaceGroupRuleEntry) :=
  map_res (fun r =>
    m ← f (members r);
    e ← f (group_expr r);
    Ok (mk_group_entry (group_id r) m (group_by r) e (group_severity r) (group_message r)
          (group_rationale r) (group_suppress r) (group_source r))) l.

End update.

Section fragments.
Context {T : Toml} {HO : HashOrder}.

(** [for rules in m.values_mut() { rules.rules = f(rules.rules)?; }]; [f] sees the key. *)
Definition update_map (f : bytes -> list RuleEntry -> R (list RuleEntry)) (m : gmap bytes KindRules) :
    R (gmap bytes KindRules) :=
  fold_res (fun (out : gmap bytes KindRules) (e : bytes * KindRules) =>
    l ← f e.1 (rules e.2);
    Ok (<[e.1 := set_rules l e.2]> out)) m (entries m).

(** The same on both maps of a language, under its section. *)
Definition update_lang (f : bytes -> list RuleEntry -> R (list RuleEntry)) (section : bytes)
    (r : LangRules) : R LangRules :=
  s ← update_map (fun shape => f (key (key section (bs "shape")) shape)) (lang_shape r);
  k ← update_map (fun kind => f (key section kind)) (kinds r);
  Ok (mk_lang_rules s k).

(** The walk of [rewrite_rule_alias_refs] and [namespace_rule_ids] over the rules
    of a configuration, with the prefix of each list. *)
Definition update_rules (f : bytes -> list RuleEntry -> R (list RuleEntry))
    (fg : list WorkspaceGroupRuleEntry -> R (list WorkspaceGroupRuleEntry))
    (fp : list WorkspacePathRuleEntry -> R (list WorkspacePathRuleEntry)) (cfg : Config) : R Config :=
  let w := workspace cfg in
  refs_ ← f (bs "refs") (refs cfg);
  symbol_ ← f (bs "workspace.symbol") (rules (symbol w));
  group_ ← fg (group w);
  path_ ← fp (path w);
  shape_ ← update_map (fun shape => f (key (bs "shape") shape)) (shape cfg);
  default_ ← update_lang f (bs "default") (default_lang cfg);
  langs_ ← fold_res (fun langs lang =>
              r ← update_lang f (Lang.config_section lang) (langs lang);
              Ok (for_lang_mut langs lang r)) (langs cfg) Lang.ALL;
  Ok (set_rule_parts refs_
        (mk_workspace (min_linkage_coverage w) (set_rules symbol_ (symbol w)) group_ path_
           (source_groups w)) shape_ default_ langs_ cfg).

Definition rewrite_rule_alias_refs (local_aliases : gset bytes) (namespace : bytes) (cfg : Config) :
    R Config :=
  let f input := rewrite_local_alias_refs input local_aliases namespace in
  update_rules (fun _ => rewrite_rules f) (rewrite_group_rules f) (rewrite_path_rules f) cfg.

Definition set_aliases (a : gmap bytes bytes) (c : Config) : Config :=
  mk_config (default_rules c) (taxonomy c) (telemetry c) a (exclude_uris c) (refs c)
    (workspace c) (shape c) (default_lang c) (langs c) (profiles c) (views c) (fragments c)
    (rule_sources c).

(** The local names of the aliases, and the configuration with the aliases and
    the references to them renamed. *)
Definition namespace_aliases (cfg : Config) (path fragment : bytes) : R (list bytes * Config) :=
  if bool_decide (aliases cfg = ∅) then Ok ([], cfg)
  else
    let local_aliases := sort_strings (fst <$> entries (aliases cfg)) in
    _ ← for_each (validate_alias_id path fragment) local_aliases;
    let namespace := alias_namespace fragment in
    let local_set := list_to_set local_aliases in
    aliases_ ← fold_res (fun (out : gmap bytes bytes) (e : bytes * bytes) =>
                  body ← rewrite_local_alias_refs e.2 local_set namespace;
                  Ok (<[effective_alias_id namespace e.1 := body]> out)) ∅ (entries (aliases cfg));
    cfg ← rewrite_rule_alias_refs local_set namespace (set_aliases aliases_ cfg);
    Ok (local_aliases, cfg).

(** ** Restrictions on a fragment *)

Definition ensure_require_doc_absent (path fragment at_ : bytes) (r : KindRules) : R () :=
  reject (match require_doc_comment r with Some _ => true | None => false end)
    (FragmentRequireDocUnsupported path fragment at_).

Definition ensure_map_has_no_require_doc (path fragment section : bytes)
    (m : gmap bytes KindRules) : R () :=
  for_each (fun e : bytes * KindRules =>
    ensure_require_doc_absent path fragment (key section e.1) e.2) (entries m).

Definition ensure_lang_has_no_require_doc (path fragment section : bytes) (r : LangRules) : R () :=
  _ ← ensure_map_has_no_require_doc path fragment (key section (bs "shape")) (lang_shape r);
  ensure_map_has_no_require_doc path fragment section (kinds r).

Definition ensure_no_require_doc (cfg : Config) (path fragment : bytes) : R () :=
  _ ← ensure_require_doc_absent path fragment (bs "workspace.symbol") (symbol (workspace cfg));
  _ ← ensure_map_has_no_require_doc path fragment (bs "shape") (shape cfg);
  _ ← ensure_lang_has_no_require_doc path fragment (bs "default") (default_lang cfg);
  for_each (fun lang =>
    ensure_lang_has_no_require_doc path fragment (Lang.config_section lang) (for_lang cfg lang))
    Lang.ALL.

(** The loop of [namespace_rules], [namespace_group_rules] and
    [namespace_path_rules]. *)
Definition namespace_entries {A} (id : A -> option bytes) (set_id : bytes -> A -> A)
    (path fragment at_ : bytes) (l : list A) : R (list A) :=
  map_res (fun rule =>
    match id rule with
    | None => Err (FragmentRuleMissingId path fragment at_)
    | Some local_id =>
        _ ← validate_rule_id path fragment local_id;
        Ok (set_id (key fragment local_id) rule)
    end) l.

Definition namespace_rules (path fragment at_ : bytes) : list RuleEntry -> R (list RuleEntry) :=
  namespace_entries entry_id (fun id r =>
    mk_entry (Some id) (entry_expr r) (entry_severity r) (entry_message r) (entry_rationale r)
      (entry_source r)) path fragment at_.

Definition namespace_group_rules (path fragment at_ : bytes) :
    list WorkspaceGroupRuleEntry -> R (list WorkspaceGroupRuleEntry) :=
  namespace_entries group_id (fun id r =>
    mk_group_entry (Some id) (members r) (group_by r) (group_expr r) (group_severity r)
      (group_message r) (group_rationale r) (group_suppress r) (group_source r)) path fragment at_.

Definition namespace_path_rules (path fragment at_ : bytes) :
    list WorkspacePathRuleEntry -> R (list WorkspacePathRuleEntry) :=
  namespace_entries path_id (fun id r =>
    mk_path_entry (Some id) (from r) (to r) (expect r) (via r) (require_non_empty r) (relation r)
      (max_depth r) (max_symbols r) (max_edges r) (max_pairs r) (min_coverage r) (path_severity r)
      (path_message r) (path_rationale r) (path_source r)) path fragment at_.

Definition namespace_rule_ids (cfg : Config) (path fragment : bytes) : R Config :=
  update_rules (namespace_rules path fragment)
    (namespace_group_rules path fragment (bs "workspace.group"))
    (namespace_path_rules path fragment (bs "workspace.path")) cfg.

Definition count_map_rules (m : gmap bytes KindRules) : nat :=
  sum_list ((fun e : bytes * KindRules => length (rules e.2)) <$> entries m).

Definition count_lang_rules (r : LangRules) : nat :=
  count_map_rules (lang_shape r) + count_map_rules (kinds r).

Definition count_rules (cfg : Config) : nat :=
  let w := workspace cfg in
  length (refs cfg) + length (rules (symbol w)) + length (group w) + length (path w) +
  count_map_rules (shape cfg) + count_lang_rules (default_lang cfg) +
  sum_list ((fun lang => count_lang_rules (for_lang cfg lang)) <$> Lang.ALL).

Definition collect_alias_keys (cfg : Config) : list bytes :=
  sort_strings (fst <$> entries (aliases cfg)).

(** ** Rule keys *)

(** The key of a rule with an explicit id, and its expressions. *)
Abbreviation RuleKey := (bytes * list bytes)%type.

Definition keys_of {A} (id : A -> option bytes) (exprs : A -> list bytes) (prefix : bytes)
    (l : list A) : list RuleKey :=
  omap (fun r => i ← id r; Some (key prefix i, exprs r)) l.

Definition rule_list_keys : bytes -> list RuleEntry -> list RuleKey :=
  keys_of entry_id (fun r => [entry_expr r]).

Definition map_keys (section : bytes) (m : gmap bytes KindRules) : list RuleKey :=
  concat ((fun e : bytes * KindRules => rule_list_keys (key section e.1) (rules e.2)) <$> entries m).

Definition lang_keys (section : bytes) (r : LangRules) : list RuleKey :=
  map_keys (key section (bs "shape")) (lang_shape r) ++ map_keys section (kinds r).

(** What [for_each_rule_key] visits, in order. *)
Definition rule_keys_of (cfg : Config) : list RuleKey :=
  let w := workspace cfg in
  rule_list_keys (bs "refs") (refs cfg) ++
  rule_list_keys (bs "workspace.symbol") (rules (symbol w)) ++
  keys_of group_id (fun r => [members r; group_expr r]) (bs "workspace.group") (group w) ++
  keys_of path_id (fun r => [from r; to r]) (bs "workspace.path") (path w) ++
  map_keys (bs "shape") (shape cfg) ++
  lang_keys (bs "default") (default_lang cfg) ++
  concat ((fun lang => lang_keys (Lang.config_section lang) (for_lang cfg lang)) <$> Lang.ALL).

Definition for_each_rule_key (cfg : Config) (visit : bytes -> list bytes -> R ()) : R () :=
  for_each (fun k : RuleKey => visit k.1 k.2) (rule_keys_of cfg).

Definition collect_rule_keys (cfg : Config) : list bytes := sort_strings (fst <$> rule_keys_of cfg).

(** ** Fragment files *)

(** A fragment as its TOML reads. *)
Record RawFragmentConfig : Type := mk_raw {
  raw_fragment : bytes;
  raw_enabled : bool;
  raw_aliases : gmap bytes bytes;
  raw_refs : list RuleEntry;
  raw_workspace : WorkspaceRules;
  raw_shape : gmap bytes KindRules;
  raw_default : LangRules;
  raw_langs : Lang.t -> LangRules;
  raw_views : list TomlValue
}.

Definition into_config (r : RawFragmentConfig) : Config :=
  mk_config None None None (raw_aliases r) [] (raw_refs r) (raw_workspace r) (raw_shape r)
    (raw_default r) (raw_langs r) ∅ (raw_views r) [] ∅.

Record FragmentFile : Type := mk_fragment {
  fragment_id : bytes;
  fragment_path : bytes;
  fragment_enabled : bool;
  fragment_config : Config;
  fragment_rules : nat;
  fragment_rule_keys : list bytes;
  fragment_local_aliases : list bytes;
  fragment_alias_keys : list bytes
}.

(** [parse_fragment] after the file is read and its TOML parsed. *)
Definition parse_fragment (path : bytes) (raw : RawFragmentConfig) : R FragmentFile :=
  let fragment := trim (raw_fragment raw) in
  let enabled := raw_enabled raw in
  _ ← validate_fragment_id path fragment;
  let config := into_config raw in
  _ ← ensure_source_groups_owned_by_project_root config path false;
  '(local_aliases, config) ← namespace_aliases config path fragment;
  let rules := count_rules config in
  _ ← ensure_no_require_doc config path fragment;
  _ ← validate_structure config path;
  config ← namespace_rule_ids config path fragment;
  Ok (mk_fragment fragment path enabled config rules (collect_rule_keys config) local_aliases
        (collect_alias_keys config)).

(** The loop of [read] over the discovered files. *)
Definition read_step (acc : list FragmentFile * gmap bytes bytes)
    (file : bytes * RawFragmentConfig) : R (list FragmentFile * gmap bytes bytes) :=
  let '(fragments, seen) := acc in
  fragment ← parse_fragment file.1 file.2;
  match seen !! fragment_id fragment with
  | Some first => Err (DuplicateFragment (fragment_id fragment) first file.1)
  | None => Ok (fragments ++ [fragment], <[fragment_id fragment := file.1]> seen)
  end.

Definition read (files : list (bytes * RawFragmentConfig)) : R (list FragmentFile) :=
  acc ← fold_res read_step ([], ∅) files;
  Ok (fst acc).

(** ** Merging fragments *)

Definition effective_config : bytes := bs "<effective config>".

(** [RuleIndex::from_config] *)
Definition index_from_config (cfg : Config) (origin : bytes) : gmap bytes bytes :=
  foldl (fun (origins : gmap bytes bytes) (k : RuleKey) =>
    match origins !! k.1 with Some _ => origins | None => <[k.1 := origin]> origins end)
    ∅ (rule_keys_of cfg).

(** [RuleIndex::insert_config] *)
Definition insert_config (origins : gmap bytes bytes) (cfg : Config) (origin : bytes) :
    R (gmap bytes bytes) :=
  fold_res (fun (origins : gmap bytes bytes) (k : RuleKey) =>
    match origins !! k.1 with
    | Some existing => Err (FragmentRuleCollision k.1 origin existing)
    | None => Ok (<[k.1 := origin]> origins)
    end) origins (rule_keys_of cfg).

Definition validate_alias_boundaries (fragment : FragmentFile) (alias_origins : gmap bytes bytes) :
    R () :=
  let path := fragment_path fragment in
  _ ← for_each (fun alias =>
        reject (bool_decide (is_Some (alias_origins !! alias)))
          (FragmentAliasShadowsExisting path (fragment_id fragment) alias))
        (fragment_local_aliases fragment);
  for_each (fun alias =>
    match alias_origins !! alias with
    | Some existing => Err (FragmentAliasCollision alias path existing)
    | None => Ok ()
    end) (fragment_alias_keys fragment).

Definition validate_alias_references (fragment : FragmentFile) (aliases : gmap bytes bytes) : R () :=
  for_each_rule_key (fragment_config fragment) (fun rule_id expressions =>
    let at_ := fragment_path fragment ++ bs ":" ++ rule_id in
    for_each (fun e => _ ← substitute_aliases e aliases at_; Ok ()) expressions).

Definition push_info (fragment : FragmentFile) (base : Config) : Config :=
  set_fragments (fragments base ++
    [mk_fragment_info (fragment_id fragment) (fragment_path fragment) (fragment_enabled fragment)
       (fragment_rules fragment)
       (if fragment_enabled fragment then fragment_rules fragment else 0)
       (fragment_rule_keys fragment)]) base.

(** The body of the loop of [merge_into] on [base], [index] and [alias_origins]. *)
Definition merge_step (global_aliases : gmap bytes bytes)
    (acc : Config * gmap bytes bytes * gmap bytes bytes) (fragment : FragmentFile) :
    R (Config * gmap bytes bytes * gmap bytes bytes) :=
  let '(base, index, alias_origins) := acc in
  let base := push_info fragment base in
  let path := fragment_path fragment in
  _ ← validate_alias_boundaries fragment alias_origins;
  if negb (fragment_enabled fragment) then Ok (base, index, alias_origins)
  else
    let alias_scope := insert_all global_aliases (aliases (fragment_config fragment)) in
    resolved ← resolve_aliases alias_scope;
    _ ← validate_alias_references fragment resolved;
    index ← insert_config index (fragment_config fragment) path;
    let alias_origins :=
      foldl (fun (m : gmap bytes bytes) alias => <[alias := path]> m) alias_origins
        (fragment_alias_keys fragment) in
    let config := seed_rule_sources_with_local_aliases (fragment_config fragment) Fragment
                    (Some path) (Some (fragment_id fragment)) (fragment_local_aliases fragment) in
    Ok (ConfigData.merge_into base config, index, alias_origins).

Definition merge_into (base : Config) (fragments : list FragmentFile) : R Config :=
  match fragments with
  | [] => Ok base
  | _ =>
      let index := index_from_config base effective_config in
      let alias_origins := (fun _ => effective_config) <$> aliases base in
      acc ← fold_res (merge_step (aliases base)) (base, index, alias_origins) fragments;
      Ok (fst (fst acc))
  end.

(** ** Loading a project *)

Record LoadedConfig : Type := mk_loaded {
  loaded_config : Config;
  loaded_kind : RuleSourceKind;
  loaded_source : option bytes
}.

Record ProjectConfig : Type := mk_project {
  root : option LoadedConfig;
  project_fragments : list FragmentFile
}.

Definition inline_rules_label (index : nat) : bytes :=
  bs "<inline rules #" ++ show_nat (index + 1) ++ bs ">".

(** [toml::from_str], with the text of its error, and what it makes of the
    embedded preset. *)
Context (from_str : bytes -> bytes + Config) (default_preset : bytes + Config).

Definition load_default : R Config :=
  match default_preset with
  | inl e => Err (DefaultPresetInvalid e)
  | inr cfg =>
      _ ← validate cfg (bs "<embedded preset>");
      Ok (seed_rule_sources cfg EmbeddedDefault None None)
  end.

Definition load_with_project (project : ProjectConfig) (include_defaults : bool)
    (inline : list Config) : R Config :=
  cfg ← (if include_defaults then load_default else Ok empty_config);
  let cfg := set_default_rules (Some include_defaults) cfg in
  let cfg :=
    match root project with
    | Some user =>
        ConfigData.merge_into cfg
          (seed_rule_sources (loaded_config user) (loaded_kind user) (loaded_source user) None)
    | None => cfg
    end in
  cfg ← merge_into cfg (project_fragments project);
  let cfg :=
    foldl (fun cfg (e : nat * Config) =>
      ConfigData.merge_into cfg
        (seed_rule_sources e.2 Inline (Some (inline_rules_label e.1)) None)) cfg (imap pair inline) in
  let cfg := rebuild_rule_sources cfg in
  _ ← validate_scoped_rule_ids cfg effective_config;
  Ok cfg.

Definition parse_inline_config (raw : bytes) (index : nat) : R Config :=
  let path := inline_rules_label index in
  match from_str raw with
  | inl error => Err (UserConfig path error)
  | inr user =>
      _ ← ensure_source_groups_owned_by_project_root user path false;
      _ ← ensure_rule_taxonomy_owned_by_project_root user path false;
      _ ← resolve_aliases (aliases user);
      _ ← validate_structure user path;
      Ok user
  end.

Definition parse_inline_configs (inline_sources : list bytes) : R (list Config) :=
  map_res (fun e : nat * bytes => parse_inline_config e.2 e.1) (imap pair inline_sources).

Definition include_defaults_from_project (project : ProjectConfig) (include_defaults : bool) : bool :=
  include_defaults && default true (user ← root project; default_rules (loaded_config user)).

(** [load_with_cli_sources_for_project] after the project is read: the command
    line decides first, then the last inline overlay, then the project. *)
Definition load_with_cli_sources (project : ProjectConfig) (inline_sources : list bytes)
    (cli_default_rules : option bool) : R Config :=
  inline ← parse_inline_configs inline_sources;
  let include_defaults :=
    match cli_default_rules with
    | Some b => b
    | None =>
        match head (omap default_rules (reverse inline)) with
        | Some b => b
        | None => default true (user ← root project; default_rules (loaded_config user))
        end
    end in
  load_with_project project include_defaults inline.

Definition load_from_str_with_origin (raw path : bytes) (cli_default_rules : option bool)
    (project_root : bool) (kind : RuleSourceKind) : R Config :=
  match from_str raw with
  | inl error => Err (UserConfig path error)
  | inr user =>
      _ ← ensure_source_groups_owned_by_project_root user path project_root;
      _ ← ensure_rule_taxonomy_owned_by_project_root user path project_root;
      _ ← validate user path;
      let include_defaults :=
        default (default true (default_rules user)) cli_default_rules in
      load_with_project (mk_project (Some (mk_loaded user kind (Some path))) []) include_defaults []
  end.

Definition load_project_from_str (raw path : bytes) (cli_default_rules : option bool) : R Config :=
  load_from_str_with_origin raw path cli_default_rules true Project.

End fragments.
End Fragments.
