(* ===== verification/Check.v ===== *)
(** Compilation of the rules of a configuration and their evaluation over a
    graph: violations and reports
    (src/crates/check/src/check/eval/mod.rs). *)

From S2P Require Import Prelude.
From S2P Require Import RustStr.
From S2P Require Import Shape.
From S2P Require Import Moniker.
From S2P Require Import Uri.
From S2P Require Import CodeGraph.
From S2P Require Import Path.
From S2P Require Import DslAst.
From S2P Require Import DslCursor.
From S2P Require Import DslParse.
From S2P Require Import Suppress.
From S2P Require Import Syntax.
From S2P Require Import Config.
From S2P Require Import EvalCore.
From S2P Require Import EvalValue.
From S2P Require Import Eval.
From S2P Require Import ConfigData.
From S2P Require Import Aliases.

(** [Lang::parse], which runs the [tree-sitter] parser of a language, and the
    node kinds that [tree_sitter::Language] lists. *)
Class Parsers (TS : TreeSitter) : Type := {
  Language : Type;
  lang_parse : Lang.t -> bytes -> bytes -> Syntax.ParsedDocument;
  tree_language : Tree -> Language;
  node_kind_count : Language -> nat;
  node_kind_is_named : Language -> N -> bool;
  node_kind_for_id : Language -> N -> option bytes
}.

Module Check.
Import CodeGraph Lines Report EvalCore Eval Ast ConfigData Aliases Config StrSort.

Section check.
Context {T : Toml} {TS : TreeSitter} {PS : Parsers TS} {HO : HashOrder} {L2 : Log2}.
Context {RE : RegexEngine}.
Abbreviation M := (ST EvalState Empty_set).

(** ** Compiled rules *)

Record CompiledRule : Type := mk_compiled {
  id : bytes;
  explicit_id : bool;
  compiled_id : bytes;
  raw_expr : bytes;
  expanded_expr : bytes;
  rule_root : Node;
  rule_ast_kinds : option (list bytes);
  compiled_severity : RuleSeverity;
  compiled_message : option bytes;
  compiled_rationale : option bytes
}.

Record CompiledKindRules : Type := mk_compiled_kind {
  kind_rules : list CompiledRule;
  require_doc_for_vis : option bytes;
  require_doc_rule_id : option bytes
}.

Record CompiledRules : Type := mk_compiled_rules {
  by_kind : gmap bytes CompiledKindRules;
  by_shape : gmap bytes CompiledKindRules;
  compiled_refs : list CompiledRule
}.

Definition for_kind (c : CompiledRules) (kind : bytes) : option CompiledKindRules :=
  by_kind c !! kind.

Definition for_shape (c : CompiledRules) (shape : Shape.t) : option CompiledKindRules :=
  by_shape c !! Shape.as_str shape.

Definition has_explicit_rule_id (r : CompiledKindRules) (i : bytes) : bool :=
  existsb (fun rule => explicit_id rule && beq (id rule) i) (kind_rules r).

Definition is_some {A} (o : option A) : bool := match o with Some _ => true | None => false end.

(** [m.values()] *)
Definition values_of {A} (m : gmap bytes A) : list A := snd <$> entries m.

Definition all_kind_rules (c : CompiledRules) : list CompiledKindRules :=
  values_of (by_kind c) ++ values_of (by_shape c).

Definition rules_use_ast (c : CompiledRules) : bool :=
  existsb (fun rule => is_some (rule_ast_kinds rule))
    (concat (kind_rules <$> all_kind_rules c) ++ compiled_refs c).

Definition needs_doc_anchors (c : CompiledRules) : bool :=
  existsb (fun r => is_some (require_doc_for_vis r)) (all_kind_rules c).

(** *** Compilation *)

Definition compile_ast_analysis (root : Node) (at_ expression : bytes) : R (option (list bytes)) :=
  map_err (fun reason => InvalidExpr at_ (Cursor.BadExpr expression reason)) (ast_kind_names root).

Definition compile_rule_entry (entry : RuleEntry) (id at_ scheme : bytes)
    (allowed_kinds : list bytes) (aliases : gmap bytes bytes) : R CompiledRule :=
  expanded ← substitute_aliases (entry_expr entry) aliases at_;
  parsed ← map_err (InvalidExpr at_) (DslParse.parse expanded scheme allowed_kinds);
  ast_kind_names ← compile_ast_analysis parsed at_ expanded;
  Ok (mk_compiled id (is_some (entry_id entry)) at_ (entry_expr entry) expanded parsed
        ast_kind_names (entry_severity entry) (entry_message entry) (entry_rationale entry)).

(** The loop of [compile] and those of [compile_rules_for_lang] over the rules on
    references. *)
Definition compile_entries (prefix scheme : bytes) (allowed_kinds : list bytes)
    (aliases : gmap bytes bytes) (l : list RuleEntry) : R (list CompiledRule) :=
  map_res (fun e : nat * RuleEntry =>
    let id := fallback_id (entry_id e.2) e.1 in
    compile_rule_entry e.2 id (key prefix id) scheme allowed_kinds aliases) (imap pair l).

Definition compile (r : KindRules) (section kind scheme : bytes) (allowed_kinds : list bytes)
    (aliases : gmap bytes bytes) : R CompiledKindRules :=
  let prefix := key section kind in
  compiled ← compile_entries prefix scheme allowed_kinds aliases (rules r);
  Ok (mk_compiled_kind compiled (require_doc_comment r)
        ((fun _ => key prefix (bs "require_doc_comment")) <$> require_doc_comment r)).

(** The body of the loop of [merge_compiled_kind_rules]. *)
Definition merge_compiled_rule (base : list CompiledRule) (rule : CompiledRule) :
    list CompiledRule :=
  match
    if explicit_id rule
    then fst <$> list_find (fun r => explicit_id r = true /\ id r = id rule) base
    else None
  with
  | Some idx => <[idx := rule]> base
  | None => base ++ [rule]
  end.

Definition merge_compiled_kind_rules (base ov : CompiledKindRules) : CompiledKindRules :=
  let l := foldl merge_compiled_rule (kind_rules base) (kind_rules ov) in
  match require_doc_for_vis ov with
  | Some v => mk_compiled_kind l (Some v) (require_doc_rule_id ov)
  | None => mk_compiled_kind l (require_doc_for_vis base) (require_doc_rule_id base)
  end.

Definition compile_shape_rules_into (dst : gmap bytes CompiledKindRules) (src : gmap bytes KindRules)
    (section scheme : bytes) (allowed_kinds : list bytes) (aliases : gmap bytes bytes) :
    R (gmap bytes CompiledKindRules) :=
  fold_res (fun (dst : gmap bytes CompiledKindRules) (e : bytes * KindRules) =>
    compiled ← compile e.2 section e.1 scheme allowed_kinds aliases;
    Ok match dst !! e.1 with
       | Some existing => <[e.1 := merge_compiled_kind_rules existing compiled]> dst
       | None => <[e.1 := compiled]> dst
       end) dst (entries src).

(** The loop over [cfg.for_lang(lang).kinds], which sets the rules on references
    aside. *)
Definition compile_lang_kind (section scheme : bytes) (allowed : list bytes)
    (aliases : gmap bytes bytes) (acc : gmap bytes CompiledKindRules * list RuleEntry)
    (e : bytes * KindRules) : R (gmap bytes CompiledKindRules * list RuleEntry) :=
  let '(by_kind, per_lang_refs) := acc in
  if beq e.1 (bs "refs") then Ok (by_kind, per_lang_refs ++ rules e.2)
  else
    c ← compile e.2 section e.1 scheme allowed aliases;
    Ok (<[e.1 := c]> by_kind, per_lang_refs).

(** The loop over [cfg.default.kinds]. *)
Definition compile_default_kind (scheme : bytes) (allowed : list bytes) (aliases : gmap bytes bytes)
    (by_kind : gmap bytes CompiledKindRules) (e : bytes * KindRules) :
    R (gmap bytes CompiledKindRules) :=
  if beq e.1 (bs "refs") then Ok by_kind
  else if negb (mem e.1 allowed) then Ok by_kind
  else
    match by_kind !! e.1 with
    | Some _ => Ok by_kind
    | None =>
        c ← compile e.2 (bs "default") e.1 scheme allowed aliases;
        Ok (<[e.1 := c]> by_kind)
    end.

Definition language_has_named_kind (language : Language) (expected : bytes) : bool :=
  existsb (fun id : nat =>
    (N.of_nat id <? 65536)%N && node_kind_is_named language (N.of_nat id) &&
    match node_kind_for_id language (N.of_nat id) with
    | Some k => beq k expected
    | None => false
    end) (seq 0 (node_kind_count language)).

Definition validate_ast_kind_names (c : CompiledRules) (lang : Lang.t) : R () :=
  match List.find (fun rule => is_some (rule_ast_kinds rule)) (compiled_refs c) with
  | Some rule =>
      Err (InvalidExpr (compiled_id rule) (Cursor.BadExpr (expanded_expr rule)
        (bs "the ast domain requires a definition subject, not a reference")))
  | None =>
      let language := tree_language (Syntax.primary (lang_parse lang [] [])) in
      for_each (fun rule =>
        match
          (kinds ← rule_ast_kinds rule;
           List.find (fun kind => negb (language_has_named_kind language kind)) kinds)
        with
        | None => Ok ()
        | Some kind =>
            Err (InvalidExpr (compiled_id rule) (Cursor.BadExpr (expanded_expr rule)
              (bs "unknown AST kind " ++ quoted kind ++ bs " for " ++ quoted (Lang.tag lang))))
        end) (concat (kind_rules <$> all_kind_rules c))
  end.

Definition compile_rules_for_lang (cfg : Config) (lang : Lang.t) (scheme : bytes) :
    R CompiledRules :=
  let section := Lang.config_section lang in
  let allowed := allowed_kinds_for lang in
  aliases ← resolve_aliases (aliases cfg);
  '(by_kind, per_lang_refs) ← fold_res (compile_lang_kind section scheme allowed aliases) (∅, [])
                                (entries (kinds (for_lang cfg lang)));
  by_kind ← fold_res (compile_default_kind scheme allowed aliases) by_kind
              (entries (kinds (default_lang cfg)));
  by_shape ← compile_shape_rules_into ∅ (shape cfg) (bs "shape") scheme allowed aliases;
  by_shape ← compile_shape_rules_into by_shape (lang_shape (for_lang cfg lang))
               (key section (bs "shape")) scheme allowed aliases;
  refs ← compile_entries (bs "refs") scheme allowed aliases (refs cfg);
  lang_refs ← compile_entries (key section (bs "refs")) scheme allowed aliases per_lang_refs;
  let compiled := mk_compiled_rules by_kind by_shape (refs ++ lang_refs) in
  _ ← validate_ast_kind_names compiled lang;
  Ok compiled.

Definition compile_rules (cfg : Config) (lang : Lang.t) (scheme : bytes) : R CompiledRules :=
  compile_rules_for_lang cfg lang scheme.

(** *** Specifications of the rules *)

Record CompiledRuleSpec : Set := mk_spec {
  spec_rule_id : bytes;
  spec_severity : RuleSeverity;
  spec_lang : bytes;
  spec_root : bytes;
  spec_subject : bytes;
  spec_plan : bytes;
  capabilities : list bytes;
  spec_group_by : list bytes;
  spec_domain : bytes;
  spec_kind : option bytes;
  spec_expr : bytes;
  spec_expanded_expr : bytes;
  analysis_exprs : list bytes;
  spec_message : option bytes;
  spec_rationale : option bytes;
  spec_require_doc_comment : option bytes
}.

Definition rule_capabilities (rule : CompiledRule) : list bytes :=
  if is_some (rule_ast_kinds rule) then [bs "ast"] else [].

(** The three literals over a rule. *)
Definition rule_spec (lang : Lang.t) (rule : CompiledRule) (rule_id subject domain : bytes)
    (kind : option bytes) : CompiledRuleSpec :=
  mk_spec rule_id (compiled_severity rule) (Lang.tag lang) (bs "local") subject (bs "t0_local")
    (rule_capabilities rule) [] domain kind (raw_expr rule) (expanded_expr rule) [raw_expr rule]
    (compiled_message rule) (compiled_rationale rule) None.

(** The two literals over a requirement of doc comments. *)
Definition doc_spec (lang : Lang.t) (value rule_id domain : bytes) (kind : option bytes) :
    CompiledRuleSpec :=
  let expr := bs "require_doc_comment = " ++ [dquote] ++ value ++ [dquote] in
  mk_spec rule_id Error (Lang.tag lang) (bs "local") (bs "symbol") (bs "t0_local")
    [bs "doc_comment"] [] domain kind expr expr [] None None (Some value).

Definition kind_specs (lang : Lang.t) (e : bytes * CompiledKindRules) : list CompiledRuleSpec :=
  let '(kind, r) := e in
  let domain := kind ++ bs " defs" in
  ((fun rule => rule_spec lang rule (rule_id lang kind (id rule)) (bs "symbol") domain (Some kind))
     <$> kind_rules r) ++
  match require_doc_for_vis r with
  | Some value =>
      [doc_spec lang value (rule_id lang kind (bs "require_doc_comment")) domain (Some kind)]
  | None => []
  end.

Definition shape_domain (shape : bytes) : bytes := bs "shape:" ++ shape ++ bs " defs".

Definition shape_specs (lang : Lang.t) (e : bytes * CompiledKindRules) : list CompiledRuleSpec :=
  let '(shape, r) := e in
  ((fun rule => rule_spec lang rule (compiled_id rule) (bs "symbol") (shape_domain shape) None)
     <$> kind_rules r) ++
  match require_doc_for_vis r, require_doc_rule_id r with
  | Some value, Some rule_id => [doc_spec lang value rule_id (shape_domain shape) None]
  | _, _ => []
  end.

Definition compiled_rule_specs (c : CompiledRules) (lang : Lang.t) : list CompiledRuleSpec :=
  sort_by_key spec_rule_id
    (concat (kind_specs lang <$> entries (by_kind c)) ++
     concat (shape_specs lang <$> entries (by_shape c)) ++
     ((fun rule => rule_spec lang rule (compiled_id rule) (bs "reference") (bs "refs") None)
        <$> compiled_refs c)).

(** ** Evaluation *)

Record CompiledEvaluationInput : Type := mk_input {
  in_graph : CodeGraph.t;
  in_source : bytes;
  in_lang : Lang.t;
  in_scheme : bytes;
  in_compiled : CompiledRules;
  in_requirements : option RequirementResolver;
  parsed_document : option Syntax.ParsedDocument;
  include_report : bool
}.

(** The context that [with_eval_ctx] builds; its cells start as [initial_state]. *)
Definition eval_ctx_of (input : CompiledEvaluationInput) : EvalCtx :=
  let g := in_graph input in
  let need_doc_anchors := needs_doc_anchors (in_compiled input) in
  mk_ctx g (in_requirements input) (in_source input) (in_lang input)
    match parsed_document input with
    | Some d => Some d
    | None =>
        if rules_use_ast (in_compiled input)
        then Some (lang_parse (in_lang input) [] (in_source input)) else None
    end
    {| Uri.scheme := in_scheme input |} (parent_counts_by_kind g) (children_by_parent_of g)
    (out_refs_by_source_of g) (in_refs_by_target_of g)
    (if need_doc_anchors then comment_end_bytes g else [])
    (if need_doc_anchors then doc_anchors_by_def g else ∅).

Definition with_eval_ctx {A} (input : CompiledEvaluationInput) (evaluate : EvalCtx -> M A) :
    res Empty_set A :=
  fst (evaluate (eval_ctx_of input) initial_state).

(** *** One rule *)

(** [ctx.ast_scope_error.take()] *)
Definition take_ast_scope_error : M (option AstScopeError) :=
  s ← get; _ ← put (set_ast_scope_error None s); mret (ast_scope_error s).

Definition eval_compiled_rule (rule : CompiledRule) (d : DefRecord) (def_idx : nat) (ctx : EvalCtx) :
    M (AstScopeError + NodeOutcome) :=
  _ ← modify (set_ast_scope_error None);
  outcome ← eval_node (rule_root rule) d def_idx ctx;
  ast_scope_error ← take_ast_scope_error;
  mret match outcome, ast_scope_error with
       | NotApplicable, Some error => inl error
       | _, _ => inr outcome
       end.

Definition ast_scope_failure (rule : CompiledRule) (d : DefRecord) (error : AstScopeError) : Failure :=
  let shown := ast_scope_error_display error in
  mk_failure (raw_expr rule) (bs "ast") shown (bs "analyzable AST scope") None (position d)
    (Some (bs "AST evaluation is unavailable: " ++ shown)).

Definition position_lines (source : bytes) (p : Position) : N * N := line_range source p.1 p.2.

(** The explanation of a failure: the message of the rule rendered, with the
    details below it, or the details alone. *)
Definition explain (message details : option bytes) (vars : list (bytes * bytes)) : option bytes :=
  match message with
  | Some tpl =>
      let rendered := render_template tpl vars in
      Some match details with
           | Some d => (if beq rendered [] then rendered else rendered ++ [Lines.newline]) ++ d
           | None => rendered
           end
  | None => details
  end.

(** [diagnostic_kind ..fails..]: the part of the messages that both share. *)
Definition fails (f : Failure) : bytes :=
  bs " fails " ++ quoted (atom_raw f) ++ bs " (" ++ lhs_label f ++ bs " = " ++ actual f ++
  bs ", expected " ++ expected f ++ bs ")".

(** The violation that [eval_rule_with_id] pushes. *)
Definition rule_violation (rule : CompiledRule) (d : DefRecord) (kind_ rule_id : bytes)
    (ctx : EvalCtx) (f : Failure) : res Empty_set Violation :=
  diagnostic ← match failure_def_idx f with
               | Some idx => def_at (graph ctx) idx
               | None => mret d
               end;
  let diagnostic_kind := default kind_ (utf8 (kind diagnostic)) in
  name ← def_name diagnostic;
  let name := default [] name in
  moniker_ ← Uri.to_uri (moniker diagnostic) (uri_cfg ctx);
  srcset_ ← first_segment_name (moniker d) (bs "srcset");
  let vars :=
    [(bs "name", name); (bs "name.snake", to_snake_case name); (bs "kind", diagnostic_kind);
     (bs "moniker", moniker_); (bs "expr", raw_expr rule); (bs "actual", actual f);
     (bs "value", actual f); (bs "expected", expected f); (bs "pattern", expected f);
     (bs "lines", actual f); (bs "limit", expected f); (bs "count", actual f)] in
  Ok (mk_violation rule_id (compiled_severity rule) moniker_ (non_empty srcset_) diagnostic_kind
        match failure_position f with
        | Some p => position_lines (source_text ctx) p
        | None => lines_of diagnostic (source_text ctx)
        end
        (diagnostic_kind ++ bs " " ++ quoted name ++ fails f)
        (explain (compiled_message rule) (details f) vars)).

Definition eval_rule_with_id (rule : CompiledRule) (d : DefRecord) (def_idx : nat)
    (kind_ rule_id : bytes) (ctx : EvalCtx) (out : list Violation) : M (list Violation) :=
  o ← eval_compiled_rule rule d def_idx ctx;
  match match o with
        | inr (Pass | NotApplicable) => None
        | inr (Fail_ f) => Some f
        | inl error => Some (ast_scope_failure rule d error)
        end with
  | None => mret out
  | Some f =>
      v ← lift (rule_violation rule d kind_ rule_id ctx f);
      mret (out ++ [v])
  end.

Definition eval_rule (rule : CompiledRule) (d : DefRecord) (def_idx : nat) (kind_ : bytes)
    (ctx : EvalCtx) (out : list Violation) : M (list Violation) :=
  eval_rule_with_id rule d def_idx kind_ (rule_id (lang ctx) kind_ (id rule)) ctx out.

Definition eval_shape_rule (rule : CompiledRule) (d : DefRecord) (def_idx : nat) (kind_ : bytes)
    (ctx : EvalCtx) (out : list Violation) : M (list Violation) :=
  eval_rule_with_id rule d def_idx kind_ (compiled_id rule) ctx out.

(** The violation that [eval_ref_rule] pushes. *)
Definition ref_violation (rule : CompiledRule) (r : RefRecord) (g : CodeGraph.t) (ctx : EvalCtx)
    (f : Failure) : res Empty_set Violation :=
  source_def ← def_at g (source r);
  source_uri ← Uri.to_uri (moniker source_def) (uri_cfg ctx);
  target_uri ← Uri.to_uri (target r) (uri_cfg ctx);
  let ref_kind_ := default [] (utf8 (ref_kind r)) in
  source_name ← name_of (moniker source_def);
  source_kind ← last_segment_kind (moniker source_def);
  source_shape ← shape_name_of_last_segment (moniker source_def);
  target_name ← name_of (target r);
  target_kind ← last_segment_kind (target r);
  target_shape ← shape_name_of_last_segment (target r);
  srcset_ ← first_segment_name (moniker source_def) (bs "srcset");
  let vars :=
    [(bs "kind", ref_kind_); (bs "source.name", default [] source_name);
     (bs "source.kind", default [] source_kind); (bs "source.shape", source_shape);
     (bs "source.moniker", source_uri); (bs "target.name", default [] target_name);
     (bs "target.kind", default [] target_kind); (bs "target.shape", target_shape);
     (bs "target.moniker", target_uri); (bs "atom", atom_raw f); (bs "actual", actual f);
     (bs "expected", expected f)] in
  Ok (mk_violation (compiled_id rule) (compiled_severity rule) target_uri (non_empty srcset_)
        ref_kind_
        match ref_position r with
        | Some p => position_lines (source_text ctx) p
        | None => (0, 0)%N
        end
        (bs "ref " ++ ref_kind_ ++ bs " " ++ source_uri ++ arrow ++ target_uri ++ fails f)
        (explain (compiled_message rule) (details f) vars)).

Definition eval_ref_rule (rule : CompiledRule) (r : RefRecord) (g : CodeGraph.t) (ctx : EvalCtx)
    (out : list Violation) : M (list Violation) :=
  o ← eval_reference (rule_root rule) r ctx;
  match o with
  | Pass | NotApplicable => mret out
  | Fail_ f =>
      v ← lift (ref_violation rule r g ctx f);
      mret (out ++ [v])
  end.

(** *** Doc comments *)

Definition eval_require_doc_comment (d : DefRecord) (def_idx : nat) (r : CompiledKindRules)
    (ctx : EvalCtx) : res Empty_set (option bool) :=
  match require_doc_for_vis r with
  | None => Ok None
  | Some filter =>
      let vis := default [] (utf8 (visibility d)) in
      if negb (beq filter (bs "any")) && negb (beq filter vis) then Ok None
      else
        match position d with
        | None => Ok None
        | Some (def_start, _) =>
            let header_start :=
              match doc_anchors ctx !! def_idx with
              | Some anc => N.min anc def_start
              | None => def_start
              end in
            let idx := Lines.partition_point (fun e => N.of_nat e <=? header_start)%N
                         (N.to_nat <$> comment_ends ctx) in
            if idx =? 0 then Ok (Some false)
            else
              match comment_ends ctx !! (idx - 1) with
              | Some e => Ok (Some (comment_attaches_to (source_text ctx) e header_start))
              | None => Panic
              end
        end
  end.

Definition check_require_doc_comment_with_id (d : DefRecord) (def_idx : nat) (kind_ : bytes)
    (r : CompiledKindRules) (rule_id : bytes) (ctx : EvalCtx) (out : list Violation) :
    res Empty_set (list Violation) :=
  o ← eval_require_doc_comment d def_idx r ctx;
  match o with
  | Some false =>
      moniker_ ← Uri.to_uri (moniker d) (uri_cfg ctx);
      name ← def_name d;
      srcset_ ← first_segment_name (moniker d) (bs "srcset");
      Ok (out ++
        [mk_violation rule_id Error moniker_ (non_empty srcset_) kind_ (lines_of d (source_text ctx))
           (kind_ ++ bs " " ++ quoted (default [] name) ++
            bs " is missing a doc comment immediately before it") None])
  | _ => Ok out
  end.

Definition check_require_doc_comment (d : DefRecord) (def_idx : nat) (kind_ : bytes)
    (r : CompiledKindRules) (ctx : EvalCtx) (out : list Violation) : res Empty_set (list Violation) :=
  check_require_doc_comment_with_id d def_idx kind_ r
    (rule_id (lang ctx) kind_ (bs "require_doc_comment")) ctx out.

(** *** All the rules *)

(** [for x in l { f(x, &mut out) }] *)
Fixpoint fold_out {A B} (f : A -> B -> M B) (l : list A) (out : B) : M B :=
  match l with
  | [] => mret out
  | x :: l => out ← f x out; fold_out f l out
  end.

(** A rule with an explicit id that the rules of the kind define too. *)
Definition overridden (kind_rules : option CompiledKindRules) (rule : CompiledRule) : bool :=
  explicit_id rule &&
  match kind_rules with Some k => has_explicit_rule_id k (id rule) | None => false end.

(** The kind rules asks for no doc comment itself. *)
Definition no_doc_rule (kind_rules : option CompiledKindRules) : bool :=
  match kind_rules with Some k => negb (is_some (require_doc_for_vis k)) | None => true end.

(** The body of the first loop of [evaluate_with_ctx]. *)
Definition eval_def (c : CompiledRules) (ctx : EvalCtx) (e : nat * DefRecord)
    (out : list Violation) : M (list Violation) :=
  let '(idx, d) := e in
  match utf8 (kind d) with
  | None => mret out
  | Some kind_str =>
      let kind_rules_ := for_kind c kind_str in
      out ← match kind_rules_ with
            | Some r =>
                out ← fold_out (fun rule => eval_rule rule d idx kind_str ctx) (kind_rules r) out;
                lift (check_require_doc_comment d idx kind_str r ctx out)
            | None => mret out
            end;
      match (shape ← def_shape d; for_shape c shape) with
      | None => mret out
      | Some r =>
          out ← fold_out (fun rule out =>
                  if overridden kind_rules_ rule then mret out
                  else eval_shape_rule rule d idx kind_str ctx out) (kind_rules r) out;
          match require_doc_rule_id r with
          | Some rule_id =>
              if no_doc_rule kind_rules_
              then lift (check_require_doc_comment_with_id d idx kind_str r rule_id ctx out)
              else mret out
          | None => mret out
          end
      end
  end.

Definition evaluate_with_ctx (g : CodeGraph.t) (c : CompiledRules) (ctx : EvalCtx) :
    M (list Violation) :=
  out ← fold_out (eval_def c ctx) (enumerate (defs g)) [];
  fold_out (fun r => fold_out (fun rule => eval_ref_rule rule r g ctx) (compiled_refs c)) (CodeGraph.refs g) out.

(** ** Reports *)

(** [RuleReport], without the fields that only the evaluation over a workspace
    fills. *)
Record RuleReport : Set := mk_report {
  report_id : bytes;
  report_severity : RuleSeverity;
  report_domain : bytes;
  evaluated : nat;
  matches : nat;
  violations : nat;
  antecedent_matches : option nat;
  warning : option bytes;
  inconclusive : option nat
}.

Definition implication_premise (rule : CompiledRule) : option Node :=
  match rule_root rule with Implies premise _ => Some premise | _ => None end.

Definition report_new (rule_id domain : bytes) (rule : CompiledRule) : RuleReport :=
  mk_report rule_id (compiled_severity rule) domain 0 0 0 ((fun _ => 0) <$> implication_premise rule)
    None None.

Definition report_new_require_doc (rule_id domain : bytes) : RuleReport :=
  mk_report rule_id Error domain 0 0 0 None None None.

(** [report.evaluated += 1] *)
Definition count_evaluated (r : RuleReport) : RuleReport :=
  mk_report (report_id r) (report_severity r) (report_domain r) (S (evaluated r)) (matches r)
    (violations r) (antecedent_matches r) (warning r) (inconclusive r).

Definition set_counts (m v : nat) (a : option nat) (r : RuleReport) : RuleReport :=
  mk_report (report_id r) (report_severity r) (report_domain r) (evaluated r) m v a (warning r)
    (inconclusive r).

Definition record (outcome : NodeOutcome) (premise : option NodeOutcome) (r : RuleReport) :
    RuleReport :=
  let antecedents :=
    match premise with
    | Some Pass => Some (S (default 0 (antecedent_matches r)))
    | _ => antecedent_matches r
    end in
  match outcome with
  | Pass =>
      match premise with
      | None | Some Pass => set_counts (S (matches r)) (violations r) antecedents r
      | _ => set_counts (matches r) (violations r) antecedents r
      end
  | Fail_ _ => set_counts (matches r) (S (violations r)) antecedents r
  | NotApplicable => set_counts (matches r) (violations r) antecedents r
  end.

Definition set_warning (w : option bytes) (i : option nat) (r : RuleReport) : RuleReport :=
  mk_report (report_id r) (report_severity r) (report_domain r) (evaluated r) (matches r)
    (violations r) (antecedent_matches r) w i.

Definition record_inconclusive (w : bytes) (r : RuleReport) : RuleReport :=
  set_warning (Some (default w (warning r))) (Some (S (default 0 (inconclusive r)))) r.

Definition record_compiled (outcome : AstScopeError + NodeOutcome) (premise : option NodeOutcome)
    (r : RuleReport) : RuleReport :=
  match outcome with
  | inr outcome => record outcome premise r
  | inl error =>
      record_inconclusive (bs "AST evaluation is inconclusive: " ++ ast_scope_error_display error) r
  end.

(** [implication_premise(rule).map(|premise| eval_node(premise, ..))] *)
Definition eval_premise (eval : Node -> M NodeOutcome) (rule : CompiledRule) :
    M (option NodeOutcome) :=
  match implication_premise rule with
  | Some premise => o ← eval premise; mret (Some o)
  | None => mret None
  end.

(** The turn of a report for a definition that it covers. *)
Definition report_def (rule : CompiledRule) (ctx : EvalCtx) (e : nat * DefRecord) (r : RuleReport) :
    M RuleReport :=
  let '(idx, d) := e in
  let r := count_evaluated r in
  premise ← eval_premise (fun n => eval_node n d idx ctx) rule;
  outcome ← eval_compiled_rule rule d idx ctx;
  mret (record_compiled outcome premise r).

(** [report.warning = ..] when the rule needs a tree and covered nothing. *)
Definition warn_empty (rule : CompiledRule) (r : RuleReport) : RuleReport :=
  if is_some (rule_ast_kinds rule) && (evaluated r =? 0)
  then set_warning (Some (bs "AST rule subject population is empty")) (inconclusive r) r
  else r.

Definition missing_doc : Failure :=
  mk_failure (bs "require_doc_comment") (bs "doc_comment") (bs "missing") (bs "present")
    None None None.

(** The same for a requirement of doc comments. *)
Definition report_doc (rules : CompiledKindRules) (ctx : EvalCtx) (e : nat * DefRecord)
    (r : RuleReport) : res Empty_set RuleReport :=
  o ← eval_require_doc_comment e.2 e.1 rules ctx;
  mret (record match o with
               | None => NotApplicable
               | Some true => Pass
               | Some false => Fail_ missing_doc
               end None (count_evaluated r)).

(** The definitions that the rules of a kind cover. *)
Definition kind_population (g : CodeGraph.t) (kind_ : bytes) : list (nat * DefRecord) :=
  List.filter (fun e => beq (kind e.2) kind_) (enumerate (defs g)).

(** Those that a rule of a shape covers, unless [skip] holds of the rules of
    their kind. *)
Definition shape_population (g : CodeGraph.t) (c : CompiledRules) (shape : bytes)
    (skip : option CompiledKindRules -> bool) : list (nat * DefRecord) :=
  List.filter (fun e =>
    def_has_shape e.2 shape &&
    match utf8 (kind e.2) with
    | Some kind_str => negb (skip (for_kind c kind_str))
    | None => false
    end) (enumerate (defs g)).

Definition push_kind_rule_report (g : CodeGraph.t) (l : Lang.t) (ctx : EvalCtx)
    (e : bytes * CompiledKindRules) (out : list RuleReport) : M (list RuleReport) :=
  let '(kind_, r) := e in
  out ← fold_out (fun rule out =>
          report ← fold_out (report_def rule ctx) (kind_population g kind_)
                     (report_new (rule_id l kind_ (id rule)) kind_ rule);
          mret (out ++ [warn_empty rule report])) (kind_rules r) out;
  match require_doc_for_vis r with
  | None => mret out
  | Some _ =>
      report ← fold_out (fun d report => lift (report_doc r ctx d report)) (kind_population g kind_)
                 (report_new_require_doc (rule_id l kind_ (bs "require_doc_comment")) kind_);
      mret (out ++ [report])
  end.

Definition push_shape_rule_report (g : CodeGraph.t) (ctx : EvalCtx) (c : CompiledRules)
    (e : bytes * CompiledKindRules) (out : list RuleReport) : M (list RuleReport) :=
  let '(shape, r) := e in
  out ← fold_out (fun rule out =>
          report ← fold_out (report_def rule ctx)
                     (shape_population g c shape (fun k => overridden k rule))
                     (report_new (compiled_id rule) (shape_domain shape) rule);
          mret (out ++ [warn_empty rule report])) (kind_rules r) out;
  match require_doc_rule_id r with
  | None => mret out
  | Some rule_id =>
      report ← fold_out (fun d report => lift (report_doc r ctx d report))
                 (shape_population g c shape (fun k => negb (no_doc_rule k)))
                 (report_new_require_doc rule_id (shape_domain shape));
      mret (out ++ [report])
  end.

(** The turn of a report for a reference. *)
Definition report_ref (rule : CompiledRule) (ctx : EvalCtx) (r : RefRecord) (report : RuleReport) :
    M RuleReport :=
  let report := count_evaluated report in
  premise ← eval_premise (fun n => eval_reference n r ctx) rule;
  outcome ← eval_reference (rule_root rule) r ctx;
  mret (record outcome premise report).

Definition push_ref_rule_report (g : CodeGraph.t) (ctx : EvalCtx) (rule : CompiledRule)
    (out : list RuleReport) : M (list RuleReport) :=
  report ← fold_out (report_ref rule ctx) (CodeGraph.refs g) (report_new (compiled_id rule) (bs "refs") rule);
  mret (out ++ [report]).

Definition rule_reports_with_ctx (g : CodeGraph.t) (l : Lang.t) (c : CompiledRules) (ctx : EvalCtx) :
    M (list RuleReport) :=
  out ← fold_out (push_kind_rule_report g l ctx) (entries (by_kind c)) [];
  out ← fold_out (push_shape_rule_report g ctx c) (entries (by_shape c)) out;
  out ← fold_out (push_ref_rule_report g ctx) (compiled_refs c) out;
  mret (sort_by_key report_id out).

Definition evaluate_and_report_compiled (input : CompiledEvaluationInput) :
    res Empty_set (list Violation * list RuleReport) :=
  with_eval_ctx input (fun ctx =>
    violations ← evaluate_with_ctx (in_graph input) (in_compiled input) ctx;
    reports ← if include_report input
              then rule_reports_with_ctx (in_graph input) (in_lang input) (in_compiled input) ctx
              else mret [];
    mret (violations, reports)).

Definition evaluate_compiled_with_requirements (g : CodeGraph.t) (source : bytes) (l : Lang.t)
    (scheme : bytes) (c : CompiledRules) (requirements : option RequirementResolver) :
    res Empty_set (list Violation) :=
  r ← evaluate_and_report_compiled (mk_input g source l scheme c requirements None false);
  mret (fst r).

Definition evaluate_compiled (g : CodeGraph.t) (source : bytes) (l : Lang.t) (scheme : bytes)
    (c : CompiledRules) : res Empty_set (list Violation) :=
  evaluate_compiled_with_requirements g source l scheme c None.

Definition rule_report_compiled_with_requirements (g : CodeGraph.t) (source : bytes) (l : Lang.t)
    (scheme : bytes) (c : CompiledRules) (requirements : option RequirementResolver) :
    res Empty_set (list RuleReport) :=
  with_eval_ctx (mk_input g source l scheme c requirements None true)
    (fun ctx => rule_reports_with_ctx g l c ctx).

Definition rule_report_compiled (g : CodeGraph.t) (source : bytes) (l : Lang.t) (scheme : bytes)
    (c : CompiledRules) : res Empty_set (list RuleReport) :=
  rule_report_compiled_with_requirements g source l scheme c None.

End check.
End Check.
