(* ===== verification/CheckFacts.v ===== *)
(** The evaluation of compiled rules never panics, and the reports account for
    the violations.

    A small graph, its context and a rule set, over concrete instances of the
    parameters: what the witnesses evaluate. *)

From S2P Require Import Prelude.
From S2P Require Import RustStr.
From S2P Require Import Shape.
From S2P Require Import Moniker.
From S2P Require Import Uri.
From S2P Require Import UriFacts.
From S2P Require Import CodeGraph.
From S2P Require Import CodeGraphFacts.
From S2P Require Import Path.
From S2P Require Import PathFacts.
From S2P Require Import DslAst.
From S2P Require Import DslParse.
From S2P Require Import DslTheorems.
From S2P Require Import Syntax.
From S2P Require Import Suppress.
From S2P Require Import EvalCore.
From S2P Require Import EvalValue.
From S2P Require Import Eval.
From S2P Require Import EvalDet.
From S2P Require Import EvalFacts.
From S2P Require Import EvalTotal.
From S2P Require Import ConfigData.
From S2P Require Import Config.
From S2P Require Import Check.

Module CheckFacts.
Import CodeGraph Lines EvalCore EvalWalk Eval Ast CodeGraphFacts AstFacts StrSort.
Import EvalIndexFacts EvalDet EvalScope EvalFacts EvalTotal Check.

(** ** Sums *)

Lemma sum_app {A} (f : A -> nat) l r :
  sum_list_with f (l ++ r) = sum_list_with f l + sum_list_with f r.
Proof. induction l as [| x l IH]; [done |]. cbn. lia. Qed.

Lemma sum_ext {A} (f g : A -> nat) l :
  (forall x, x ∈ l -> f x = g x) -> sum_list_with f l = sum_list_with g l.
Proof.
  induction l as [| x l IH]; intros H; [done |]. cbn. rewrite (H x) by (by left).
  rewrite IH; [done |]. intros y Hy. apply H. by right.
Qed.

Lemma sum_plus {A} (f g : A -> nat) l :
  sum_list_with (fun x => f x + g x) l = sum_list_with f l + sum_list_with g l.
Proof. induction l as [| x l IH]; [done |]. cbn. lia. Qed.

Lemma sum_zero {A} (l : list A) : sum_list_with (fun _ => 0) l = 0.
Proof. by induction l. Qed.

Lemma sum_swap {A B} (f : A -> B -> nat) l r :
  sum_list_with (fun x => sum_list_with (f x) r) l =
  sum_list_with (fun y => sum_list_with (fun x => f x y) l) r.
Proof.
  induction l as [| x l IH]; cbn; [by rewrite sum_zero |]. by rewrite IH, <- sum_plus.
Qed.

Lemma sum_filter {A} (p : A -> bool) (f : A -> nat) l :
  sum_list_with f (List.filter p l) = sum_list_with (fun x => if p x then f x else 0) l.
Proof. induction l as [| x l IH]; [done |]. cbn. rewrite <- IH. by destruct (p x). Qed.

Lemma sum_permutation {A} (f : A -> nat) l r : l ≡ₚ r -> sum_list_with f l = sum_list_with f r.
Proof. induction 1; cbn; lia. Qed.

(** At most one entry of a map has a given key. *)
Lemma sum_keys {HO : HashOrder} `{Countable K} {A} (m : gmap K A) (k : K) (f : K -> A -> nat) :
  sum_list_with (fun e => if bool_decide (e.1 = k) then f e.1 e.2 else 0) (entries m) =
  match m !! k with Some a => f k a | None => 0 end.
Proof.
  unfold entries. rewrite (sum_permutation _ _ _ (hash_order_perm _)).
  induction m as [| k' a m Hk' IH] using map_ind; [done |].
  rewrite (sum_permutation _ _ _ (map_to_list_insert m k' a Hk')). cbn. rewrite IH.
  case_bool_decide as Hk; cbn in Hk.
  - subst k'. by rewrite lookup_insert_eq, Hk'.
  - by rewrite lookup_insert_ne by done.
Qed.

(** What a rule of identifier [rid] counts for under [id]. *)
Definition at_id (rid id : bytes) (n : nat) : nat := if beq rid id then n else 0.

Lemma at_id_sum {A} rid id (f : A -> nat) l :
  at_id rid id (sum_list_with f l) = sum_list_with (fun x => at_id rid id (f x)) l.
Proof.
  unfold at_id. destruct (beq rid id); [done |]. by rewrite sum_zero.
Qed.

Section check.
Context {TS : TreeSitter} {TL : TreeSitterLaws TS} {HO : HashOrder} {L2 : Log2} {RE : RegexEngine}.
Context (ctx : EvalCtx) (Hg : good_ctx ctx).
Abbreviation g := (graph ctx).
Abbreviation M := (ST EvalState Empty_set).

(** ** Computations with one value *)

(** From any coherent state, the computation yields [v] and leaves a coherent
    state. *)
Definition yields {A} (m : M A) (v : A) : Prop :=
  forall s, coherent_state ctx s -> exists s', m s = (Ok v, s') /\ coherent_state ctx s'.

Lemma yields_ret {A} (v : A) : yields (mret v) v.
Proof. intros s Hs. by exists s. Qed.

Lemma yields_bind {A B} (m : M A) (k : A -> M B) v w :
  yields m v -> yields (k v) w -> yields (m ≫= k) w.
Proof.
  intros Hm Hk s Hs. destruct (Hm s Hs) as (s1 & H1 & Hs1). destruct (Hk s1 Hs1) as (s2 & H2 & Hs2).
  exists s2. by rewrite (st_bind_Ok _ _ _ _ _ H1).
Qed.

Lemma yields_lift {A} (m : res Empty_set A) v : m = Ok v -> yields (lift m) v.
Proof. intros -> s Hs. by exists s. Qed.

Lemma yields_runs {A} (m : M A) v e : runs ctx m v e -> yields m v.
Proof. intros H s Hs. destruct (H s Hs) as (s' & Hm & Hs' & _). by exists s'. Qed.

Lemma initial_coherent : coherent_state ctx initial_state.
Proof. split; [done |]. intros i r H. cbn in H. by apply lookup_empty_Some in H. Qed.

Lemma yields_initial {A} (m : M A) v : yields m v -> fst (m initial_state) = Ok v.
Proof. intros H. destruct (H _ initial_coherent) as (s' & -> & _). done. Qed.

(** ** One rule *)

Definition failing (o : AstScopeError + NodeOutcome) : nat :=
  match o with inl _ | inr (Fail_ _) => 1 | _ => 0 end.

(** Whether the rule fails on a definition: an outcome does not depend on the
    state, so it is read off the initial one. *)
Definition hits (rule : CompiledRule) (e : nat * DefRecord) : nat :=
  match fst (eval_compiled_rule rule e.2 e.1 ctx initial_state) with Ok o => failing o | _ => 0 end.

Definition ref_hits (rule : CompiledRule) (r : RefRecord) : nat :=
  match fst (eval_reference (rule_root rule) r ctx initial_state) with
  | Ok (Fail_ _) => 1
  | _ => 0
  end.

Definition doc_hits (r : CompiledKindRules) (e : nat * DefRecord) : nat :=
  match eval_require_doc_comment e.2 e.1 r ctx with Ok (Some false) => 1 | _ => 0 end.

Lemma coherent_set_error s e : coherent_state ctx s -> coherent_state ctx (set_ast_scope_error e s).
Proof. by destruct s. Qed.

Lemma eval_compiled_yields rule d i :
  rule_ok (rule_root rule) = true -> def_ok ctx i d ->
  exists o, yields (eval_compiled_rule rule d i ctx) o /\ hits rule (i, d) = failing o /\
    match o with inr o => outcome_ok ctx o | inl _ => True end.
Proof.
  intros Hr Hd. destruct (det_eval_node ctx Hg _ d i Hr Hd) as (o & e & Ho & Hruns).
  set (v := match o, e with NotApplicable, Some error => inl error | _, _ => inr o end).
  assert (yields (eval_compiled_rule rule d i ctx) v) as Hy.
  { intros s Hs. unfold eval_compiled_rule, take_ast_scope_error.
    destruct (Hruns _ (coherent_set_error s None Hs)) as (s1 & H1 & Hs1 & He). cbn in He.
    exists (set_ast_scope_error None s1). split; [| by apply coherent_set_error].
    unfold mbind, st_bind, modify at 1, get, put, mret, st_ret. cbv beta iota. rewrite H1.
    cbv beta iota. rewrite He. unfold v. by destruct o, e. }
  exists v. split_and!; [done | |].
  - unfold hits. cbn [fst snd]. by rewrite (yields_initial _ _ Hy).
  - unfold v. by destruct o, e.
Qed.

Lemma to_uri_Ok m config : valid_moniker m -> exists u, Uri.to_uri (E:=Empty_set) m config = Ok u.
Proof.
  intros (p & segs & H). destruct (UriFacts.to_uri_text (E:=Empty_set) m p segs config H) as (u & Hu & _).
  by exists u.
Qed.

Lemma mret_bind {A B} (v : A) (k : A -> res Empty_set B) : mret v ≫= k = k v.
Proof. done. Qed.

Lemma rule_violation_Ok rule d i k rid f :
  def_ok ctx i d -> opt_all (in_defs ctx) (failure_def_idx f) ->
  exists v, rule_violation rule d k rid ctx f = Ok v /\ Report.rule_id v = rid.
Proof.
  intros Hd Hf. pose proof (def_valid ctx Hg _ _ Hd) as Hv. unfold rule_violation.
  assert (exists d', match failure_def_idx f with
    | Some idx => def_at (E:=Empty_set) g idx | None => mret d end = Ok d' /\ valid_moniker (moniker d'))
    as (d' & -> & Hd').
  { destruct (failure_def_idx f) as [j |]; [| by exists d]. cbn in Hf.
    apply (def_at_post ctx (E:=Empty_set)) in Hf.
    apply post_empty in Hf as (d' & Hd' & Hin). exists d'. split; [done | by eapply def_valid]. }
  rewrite ret_bind. destruct (post_empty _ _ (def_name_post _ Hd')) as (n & -> & _). rewrite ret_bind.
  destruct (to_uri_Ok _ (uri_cfg ctx) Hd') as (u & ->). rewrite ret_bind.
  destruct (post_empty _ _ (first_segment_name_post _ (bs "srcset") Hv)) as (s & -> & _).
  rewrite ret_bind. by eexists.
Qed.

Lemma ref_violation_Ok rule r f : ref_in ctx r ->
  exists v, ref_violation rule r g ctx f = Ok v /\ Report.rule_id v = compiled_id rule.
Proof.
  intros Hr. unfold ref_violation.
  destruct (post_empty _ _ (def_at_post ctx _ (ref_source_in ctx Hg r Hr))) as (d & -> & Hd).
  rewrite ret_bind. pose proof (def_valid ctx Hg _ _ Hd) as Hv.
  pose proof (ref_target_valid ctx Hg r Hr) as Ht.
  destruct (to_uri_Ok _ (uri_cfg ctx) Hv) as (u & ->). rewrite ret_bind.
  destruct (to_uri_Ok _ (uri_cfg ctx) Ht) as (u' & ->). rewrite ret_bind.
  destruct (post_empty _ _ (name_of_post _ Hv)) as (? & -> & _). rewrite ret_bind.
  destruct (post_empty _ _ (last_segment_kind_post _ Hv)) as (? & -> & _). rewrite ret_bind.
  unfold shape_name_of_last_segment.
  destruct (post_empty _ _ (shape_of_last_post _ Hv)) as (? & -> & _). rewrite ret_bind, mret_bind.
  destruct (post_empty _ _ (name_of_post _ Ht)) as (? & -> & _). rewrite ret_bind.
  destruct (post_empty _ _ (last_segment_kind_post _ Ht)) as (? & -> & _). rewrite ret_bind.
  destruct (post_empty _ _ (shape_of_last_post _ Ht)) as (? & -> & _). rewrite ret_bind, mret_bind.
  destruct (post_empty _ _ (first_segment_name_post _ (bs "srcset") Hv)) as (s & -> & _).
  rewrite ret_bind. by eexists.
Qed.

(** ** Loops that account *)

(** [h] adds [w id] to the measure of every identifier. *)
Definition adds {B} (I : B -> Prop) (mu : B -> bytes -> nat) (h : B -> M B) (w : bytes -> nat) : Prop :=
  forall out, I out -> exists out', yields (h out) out' /\ I out' /\
    forall id, mu out' id = mu out id + w id.

Lemma adds_ret {B} (I : B -> Prop) mu : adds I mu mret (fun _ => 0).
Proof. intros out Hout. exists out. split_and!; [apply yields_ret | done | intros; lia]. Qed.

Lemma adds_bind {B} (I : B -> Prop) mu h1 h2 w1 w2 :
  adds I mu h1 w1 -> adds I mu h2 w2 ->
  adds I mu (fun out => h1 out ≫= h2) (fun id => w1 id + w2 id).
Proof.
  intros H1 H2 out Hout. destruct (H1 out Hout) as (out1 & Hy1 & HI1 & Hm1).
  destruct (H2 out1 HI1) as (out2 & Hy2 & HI2 & Hm2). exists out2.
  split_and!; [by eapply yields_bind | done |]. intros id. rewrite Hm2, Hm1. lia.
Qed.

Lemma adds_fold {A B} (I : B -> Prop) mu (f : A -> B -> M B) w l :
  (forall x, x ∈ l -> adds I mu (f x) (w x)) ->
  adds I mu (fold_out f l) (fun id => sum_list_with (fun x => w x id) l).
Proof.
  induction l as [| x l IH]; intros Hf; [apply adds_ret |]. cbn [fold_out sum_list_with].
  apply (adds_bind _ _ (f x)); [apply Hf; by left |]. apply IH. intros y Hy. apply Hf. by right.
Qed.

Lemma adds_ext {B} (I : B -> Prop) mu h w w' :
  (forall id, w id = w' id) -> adds I mu h w -> adds I mu h w'.
Proof.
  intros Hw H out Hout. destruct (H out Hout) as (out' & Hy & HI & Hm). exists out'.
  split_and!; [done | done |]. intros id. by rewrite Hm, Hw.
Qed.

Definition trivial {B} (_ : B) : Prop := True.

(** *** Violations *)

Definition count_id (vs : list Report.Violation) (id : bytes) : nat :=
  sum_list_with (fun v => at_id (Report.rule_id v) id 1) vs.

Lemma count_id_snoc vs v id : count_id (vs ++ [v]) id = count_id vs id + at_id (Report.rule_id v) id 1.
Proof. unfold count_id. rewrite sum_app. cbn. lia. Qed.

Lemma at_id_0 rid id : at_id rid id 0 = 0.
Proof. unfold at_id. by destruct (beq rid id). Qed.

Abbreviation vadds := (adds trivial count_id).

Lemma push_one (m : list Report.Violation -> res Empty_set Report.Violation) rid :
  (forall out, exists v, m out = Ok v /\ Report.rule_id v = rid) ->
  vadds (fun out => v ← lift (m out); mret (out ++ [v])) (fun id => at_id rid id 1).
Proof.
  intros Hm out _. destruct (Hm out) as (v & Hv & <-). exists (out ++ [v]). split_and!; [| done |].
  - eapply yields_bind; [by apply yields_lift | apply yields_ret].
  - intros id. apply count_id_snoc.
Qed.

Lemma eval_rule_adds rule d i k rid :
  rule_ok (rule_root rule) = true -> def_ok ctx i d ->
  vadds (eval_rule_with_id rule d i k rid ctx) (fun id => at_id rid id (hits rule (i, d))).
Proof.
  intros Hr Hd. destruct (eval_compiled_yields rule d i Hr Hd) as (o & Hy & -> & Ho).
  assert (forall f, opt_all (in_defs ctx) (failure_def_idx f) ->
    vadds (fun out => v ← lift (rule_violation rule d k rid ctx f); mret (out ++ [v]))
      (fun id => at_id rid id 1)) as Hpush.
  { intros f Hf. apply push_one. intros _. by eapply rule_violation_Ok. }
  intros out _. unfold eval_rule_with_id.
  assert (vadds (fun out => match match o with
        | inr (Pass | NotApplicable) => None
        | inr (Fail_ f) => Some f
        | inl error => Some (ast_scope_failure rule d error)
        end with
      | None => mret out
      | Some f => v ← lift (rule_violation rule d k rid ctx f); mret (out ++ [v]) end)
      (fun id => at_id rid id (failing o))) as Hk.
  { destruct o as [e | [| f |]]; cbn [failing].
    - by apply Hpush.
    - eapply adds_ext; [| apply adds_ret]. intros id. by rewrite at_id_0.
    - by apply Hpush.
    - eapply adds_ext; [| apply adds_ret]. intros id. by rewrite at_id_0. }
  destruct (Hk out I) as (out' & Hy' & _ & Hm). exists out'.
  split_and!; [by eapply yields_bind | done | done].
Qed.

(** The binary search stays inside the table, so the comment it finds exists. *)
Lemma doc_comment_Ok r d i : exists o, eval_require_doc_comment d i r ctx = Ok o.
Proof.
  unfold eval_require_doc_comment. destruct (require_doc_for_vis r) as [v |]; [| by eexists].
  destruct (_ && _); [by eexists |]. destruct (position d) as [[s e] |]; [| by eexists].
  cbv zeta. match goal with |- context [Lines.partition_point ?p ?l] =>
    pose proof (partition_point_le p l) as Hle; set (n := partition_point p l) in * end.
  rewrite length_fmap in Hle. destruct (n =? 0) eqn:H0; [by eexists |]. apply Nat.eqb_neq in H0.
  destruct (lookup_lt_is_Some_2 (comment_ends ctx) (n - 1)) as [x Hx]; [lia |].
  rewrite Hx. by eexists.
Qed.

Lemma check_doc_adds d i k r rid : def_ok ctx i d ->
  vadds (fun out => lift (check_require_doc_comment_with_id d i k r rid ctx out))
    (fun id => at_id rid id (doc_hits r (i, d))).
Proof.
  intros Hd out _. pose proof (def_valid ctx Hg _ _ Hd) as Hv. unfold doc_hits. cbn [fst snd].
  destruct (doc_comment_Ok r d i) as [o Ho]. rewrite Ho.
  assert (exists out', check_require_doc_comment_with_id d i k r rid ctx out = Ok out' /\
    forall id, count_id out' id = count_id out id +
      at_id rid id (match o with Some false => 1 | _ => 0 end)) as (out' & Hc & Hm).
  { unfold check_require_doc_comment_with_id. rewrite Ho, ret_bind.
    destruct o as [[|] |]; [exists out; split; [done |]; intros; rewrite at_id_0; lia | |
                            exists out; split; [done |]; intros; rewrite at_id_0; lia].
    destruct (to_uri_Ok _ (uri_cfg ctx) Hv) as (u & ->). rewrite ret_bind.
    destruct (post_empty _ _ (def_name_post _ Hv)) as (n & -> & _). rewrite ret_bind.
    destruct (post_empty _ _ (first_segment_name_post _ (bs "srcset") Hv)) as (s & -> & _).
    rewrite ret_bind. eexists. split; [done |]. intros id. apply count_id_snoc. }
  exists out'. split_and!; [by apply yields_lift | done |]. intros id. rewrite Hm.
  by destruct o as [[] |].
Qed.

(** *** What the evaluation of a definition adds *)

Definition kind_weight (r : CompiledKindRules) (k : bytes) (e : nat * DefRecord) (i : bytes) : nat :=
  sum_list_with (fun rule => at_id (rule_id (lang ctx) k (id rule)) i (hits rule e)) (kind_rules r) +
  at_id (rule_id (lang ctx) k (bs "require_doc_comment")) i (doc_hits r e).

Definition shape_weight (kr : option CompiledKindRules) (r : CompiledKindRules)
    (e : nat * DefRecord) (i : bytes) : nat :=
  sum_list_with (fun rule =>
    if negb (overridden kr rule) then at_id (compiled_id rule) i (hits rule e) else 0) (kind_rules r) +
  match require_doc_rule_id r with
  | Some rid => if no_doc_rule kr then at_id rid i (doc_hits r e) else 0
  | None => 0
  end.

Definition def_weight (c : CompiledRules) (e : nat * DefRecord) (i : bytes) : nat :=
  match utf8 (kind e.2) with
  | None => 0
  | Some ks =>
      match for_kind c ks with Some r => kind_weight r ks e i | None => 0 end +
      match (shape ← def_shape e.2; for_shape c shape) with
      | Some r => shape_weight (for_kind c ks) r e i
      | None => 0
      end
  end.

(** The compiled rules are well formed, and the kinds are strings. *)
Definition all_ok (l : list CompiledRule) : Prop :=
  Forall (fun rule => rule_ok (rule_root rule) = true) l.

Definition rules_ok (c : CompiledRules) : Prop :=
  (forall k r, by_kind c !! k = Some r -> from_utf8 k = true /\ all_ok (kind_rules r)) /\
  (forall s r, by_shape c !! s = Some r -> all_ok (kind_rules r)) /\
  all_ok (compiled_refs c).

Lemma kind_rules_adds r k i d : all_ok (kind_rules r) -> def_ok ctx i d ->
  vadds (fun out =>
      out ← fold_out (fun rule => eval_rule rule d i k ctx) (kind_rules r) out;
      lift (check_require_doc_comment d i k r ctx out))
    (kind_weight r k (i, d)).
Proof.
  intros Hr Hd. unfold all_ok in Hr. rewrite Forall_forall in Hr.
  apply (adds_bind _ _ (fold_out _ _)); [| by apply check_doc_adds].
  apply adds_fold. intros rule Hin. by apply eval_rule_adds; [apply Hr |].
Qed.

Lemma shape_rules_adds kr r k i d : all_ok (kind_rules r) -> def_ok ctx i d ->
  vadds (fun out =>
      out ← fold_out (fun rule out =>
              if overridden kr rule then mret out else eval_shape_rule rule d i k ctx out)
              (kind_rules r) out;
      match require_doc_rule_id r with
      | Some rule_id =>
          if no_doc_rule kr
          then lift (check_require_doc_comment_with_id d i k r rule_id ctx out)
          else mret out
      | None => mret out
      end)
    (shape_weight kr r (i, d)).
Proof.
  intros Hr Hd. unfold all_ok in Hr. rewrite Forall_forall in Hr.
  apply (adds_bind _ _ (fold_out _ _)).
  - apply (adds_fold _ _ _ (fun rule i0 => if negb (overridden kr rule)
      then at_id (compiled_id rule) i0 (hits rule (i, d)) else 0)).
    intros rule Hin. destruct (overridden kr rule); cbn [negb]; [apply adds_ret |].
    by apply eval_rule_adds; [apply Hr |].
  - destruct (require_doc_rule_id r) as [rid |]; [| apply adds_ret].
    destruct (no_doc_rule kr); [by apply check_doc_adds | apply adds_ret].
Qed.

Lemma eval_def_adds c i d : rules_ok c -> def_ok ctx i d ->
  vadds (eval_def c ctx (i, d)) (def_weight c (i, d)).
Proof.
  intros (Hk & Hs & _) Hd. unfold eval_def, def_weight. cbn [fst snd].
  destruct (utf8 (kind d)) as [ks |]; [| apply adds_ret].
  apply (adds_bind _ _ (fun out => match for_kind c ks with Some r => _ | None => _ end)).
  - destruct (for_kind c ks) as [r |] eqn:Hr; [| apply adds_ret].
    apply kind_rules_adds; [by apply (Hk ks) | done].
  - destruct (def_shape d ≫= for_shape c) as [r |] eqn:Hr; [| apply adds_ret].
    apply bind_Some in Hr as (sh & _ & Hr). apply shape_rules_adds; [by eapply Hs | done].
Qed.

Lemma eval_ref_adds rule r : rule_ok (rule_root rule) = true -> ref_in ctx r ->
  vadds (eval_ref_rule rule r g ctx) (fun id => at_id (compiled_id rule) id (ref_hits rule r)).
Proof.
  intros Hr Hin. destruct (det_eval_reference ctx Hg _ r Hr Hin) as (o & e & Ho & Hruns).
  apply yields_runs in Hruns. unfold ref_hits. rewrite (yields_initial _ _ Hruns).
  intros out _. unfold eval_ref_rule.
  assert (vadds (fun out => match o with
      | Pass | NotApplicable => mret out
      | Fail_ f => v ← lift (ref_violation rule r g ctx f); mret (out ++ [v]) end)
      (fun id => at_id (compiled_id rule) id (match o with Fail_ _ => 1 | _ => 0 end))) as Hk.
  { destruct o as [| f |];
      [eapply adds_ext; [| apply adds_ret]; intros id; by rewrite at_id_0 | |
       eapply adds_ext; [| apply adds_ret]; intros id; by rewrite at_id_0].
    apply push_one. intros _. by apply ref_violation_Ok. }
  destruct (Hk out I) as (out' & Hy' & _ & Hm). exists out'.
  split_and!; [by eapply yields_bind | done | done].
Qed.

Definition total_weight (c : CompiledRules) (i : bytes) : nat :=
  sum_list_with (fun e => def_weight c e i) (enumerate (defs g)) +
  sum_list_with (fun r =>
    sum_list_with (fun rule => at_id (compiled_id rule) i (ref_hits rule r)) (compiled_refs c))
    (CodeGraph.refs g).

Lemma evaluate_adds c : rules_ok c ->
  exists vs, yields (evaluate_with_ctx g c ctx) vs /\ forall i, count_id vs i = total_weight c i.
Proof.
  intros Hc. pose proof Hc as (_ & _ & Hrefs). unfold all_ok in Hrefs. rewrite Forall_forall in Hrefs.
  assert (vadds (fun out => out ← fold_out (eval_def c ctx) (enumerate (defs g)) out;
      fold_out (fun r => fold_out (fun rule => eval_ref_rule rule r g ctx) (compiled_refs c))
        (CodeGraph.refs g) out) (total_weight c)) as H.
  { apply (adds_bind _ _ (fold_out _ _)).
    - apply adds_fold. intros [i d] Hin. apply eval_def_adds; [done |].
      by apply elem_of_enumerate in Hin.
    - apply adds_fold. intros r Hr. apply adds_fold. intros rule Hin.
      by apply eval_ref_adds; [apply Hrefs |]. }
  destruct (H [] I) as (vs & Hy & _ & Hm). by exists vs.
Qed.

End check.
End CheckFacts.

Module Sample.
Import CodeGraph EvalCore CodeGraphFacts SyntaxFacts EvalDet Ast Check.

(** Maps are iterated in one order, and the logarithm is any function. *)
#[export] Instance plain_order : HashOrder :=
  {| hash_order A l := l; hash_order_perm A l := reflexivity l |}.
#[export] Instance flat_log2 : Log2 := {| log2 x := x |}.
#[export] Instance chain_parsers : Parsers chain_tree := {|
  Language := ();
  lang_parse _ _ _ := Syntax.new ();
  tree_language _ := ();
  node_kind_count _ := 1;
  node_kind_is_named _ _ := true;
  node_kind_for_id _ _ := Some (bs "call")
|}.

Definition segment (k n : string) : Moniker.Segment := (bs k, bs n).

Definition module_ : Moniker.t := ex_moniker [segment "path" "util"].
Definition class_ : Moniker.t := ex_moniker [segment "path" "util"; segment "class" "Shop"].
Definition method_ (n : string) : Moniker.t :=
  ex_moniker [segment "path" "util"; segment "class" "Shop"; segment "method" n].

Definition call : RefAttrs := mk_ref_attrs [] [] (bs "local") [] None [].

(** [class Shop { open() { this.close() } close() {} }] *)
Definition graph_ : CodeGraph.t :=
  let g := new module_ (bs "module") in
  let g := (add_def_attrs class_ (bs "class") module_ (Some (0, 60)%N) DefAttrs_default g).2 in
  let g := (add_def_attrs (method_ "open()") (bs "method") class_ (Some (13, 40)%N) DefAttrs_default g).2 in
  let g := (add_def_attrs (method_ "close()") (bs "method") class_ (Some (41, 50)%N) DefAttrs_default g).2 in
  (add_ref_attrs (method_ "open()") (method_ "close()") (bs "calls") (Some (22, 34)%N) call g).2.

Lemma graph_wf : wf (abs graph_).
Proof.
  refine (proj2 (reachable_inv _ _)). unfold graph_. cbv zeta.
  repeat (apply reach_add_ref || apply reach_add_def || apply reach_new);
    apply ex_valid; vm_compute; reflexivity.
Qed.

Definition ctx_ : EvalCtx :=
  mk_ctx graph_ None (bs "class Shop { open() { this.close() } close() {} }") Lang.Ts None
    {| Uri.scheme := bs "code+moniker://" |}
    (parent_counts_by_kind graph_) (children_by_parent_of graph_) (out_refs_by_source_of graph_)
    (in_refs_by_target_of graph_) [] ∅.

Lemma ctx_good : good_ctx ctx_.
Proof. split; [exact graph_wf | done..]. Qed.

(** The tree of a rule. *)
Definition tree (text : string) : Node :=
  match DslParse.parse (bs text) (bs "code+moniker://") [bs "class"; bs "method"] with
  | Ok n => n
  | _ => And []
  end.

Definition rule (i text : string) : CompiledRule :=
  mk_compiled (bs i) true (bs i) (bs text) (bs text) (tree text) None Report.Warn None None.

(** At most one method in a class, a name for every callable, and no reference
    to a method of the same class. *)
Definition rules : CompiledRules :=
  mk_compiled_rules
    {[ bs "class" := mk_compiled_kind [rule "methods" "count(method) <= 1"] (Some (bs "any"))
                       (Some (bs "class.doc")) ]}
    {[ bs "callable" := mk_compiled_kind [rule "named" "name = 'open'"] None None ]}
    [rule "call" "kind = 'new'"].

Definition input : CompiledEvaluationInput :=
  mk_input graph_ (source_text ctx_) Lang.Ts (bs "code+moniker://") rules None None true.

End Sample.
