(* ===== verification/ReportFacts.v ===== *)
(** The reports of an evaluation account for its violations: what the reports
    of an identifier count is what the violations of that identifier are. *)

From S2P Require Import Prelude.
From S2P Require Import RustStr.
From S2P Require Import Shape.
From S2P Require Import Moniker.
From S2P Require Import Uri.
From S2P Require Import CodeGraph.
From S2P Require Import CodeGraphFacts.
From S2P Require Import Path.
From S2P Require Import PathFacts.
From S2P Require Import DslAst.
From S2P Require Import DslTheorems.
From S2P Require Import Suppress.
From S2P Require Import Syntax.
From S2P Require Import Config.
From S2P Require Import EvalCore.
From S2P Require Import EvalValue.
From S2P Require Import Eval.
From S2P Require Import EvalDet.
From S2P Require Import EvalFacts.
From S2P Require Import EvalTotal.
From S2P Require Import ConfigData.
From S2P Require Import Check.
From S2P Require Import CheckFacts.

Module ReportFacts.
Import CodeGraph Lines EvalCore EvalWalk Eval Ast CodeGraphFacts AstFacts StrSort.
Import EvalIndexFacts EvalDet EvalScope EvalFacts EvalTotal Check CheckFacts.

Section reports.
Context {TS : TreeSitter} {TL : TreeSitterLaws TS} {HO : HashOrder} {L2 : Log2} {RE : RegexEngine}.
Context (ctx : EvalCtx) (Hg : good_ctx ctx).
Abbreviation g := (graph ctx).
Abbreviation M := (ST EvalState Empty_set).

(** What a report counts against the rule. *)
Definition against (r : RuleReport) : nat := violations r + default 0 (inconclusive r).

(** The measure of one report, and of a list of them. *)
Definition report_at (r : RuleReport) (id : bytes) : nat := at_id (report_id r) id (against r).
Definition reports_at (rs : list RuleReport) (id : bytes) : nat :=
  sum_list_with (fun r => report_at r id) rs.

Abbreviation radds rid := (adds ctx (fun r => report_id r = rid) report_at).
Abbreviation rsadds := (adds ctx trivial reports_at).

(** ** One report *)

Lemma against_record o p r :
  against (record_compiled o p r) = against r + failing o /\
  report_id (record_compiled o p r) = report_id r.
Proof.
  destruct o as [e | o]; cbn [record_compiled failing].
  - unfold against, record_inconclusive, set_warning. cbn. split; [lia | done].
  - unfold record, against, set_counts. destruct o, p as [[] |]; cbn; (split; [lia | done]).
Qed.

(** A turn that settles on an outcome and records it. *)
Lemma radds_record rid (f : RuleReport -> M RuleReport) o p :
  (forall r, yields ctx (f r) (record_compiled o p (count_evaluated r))) ->
  radds rid f (fun id => at_id rid id (failing o)).
Proof.
  intros Hf r Hr. exists (record_compiled o p (count_evaluated r)).
  destruct (against_record o p (count_evaluated r)) as [Ha Hi].
  split_and!; [done | by rewrite Hi |]. intros id. unfold report_at. rewrite Ha, Hi. cbn.
  rewrite Hr. unfold at_id, against. cbn. destruct (beq rid id); lia.
Qed.

Lemma yields_premise (eval : Node -> M NodeOutcome) rule :
  rule_ok (rule_root rule) = true ->
  (forall n, rule_ok n = true -> exists o, yields ctx (eval n) o) ->
  exists p, yields ctx (eval_premise eval rule) p.
Proof.
  intros Hr He. unfold eval_premise, implication_premise.
  destruct (rule_root rule) as [| | | | premise c | | |]; try (exists None; apply yields_ret).
  cbn [rule_ok] in Hr. bool_inv. destruct (He premise) as (o & Ho); [done |].
  exists (Some o). eapply yields_bind; [exact Ho | apply yields_ret].
Qed.

Lemma report_def_adds rule rid i d : rule_ok (rule_root rule) = true -> def_ok ctx i d ->
  radds rid (report_def rule ctx (i, d)) (fun id => at_id rid id (hits ctx rule (i, d))).
Proof.
  intros Hr Hd. destruct (eval_compiled_yields ctx Hg rule d i Hr Hd) as (o & Hy & -> & _).
  destruct (yields_premise (fun n => eval_node n d i ctx) rule Hr) as (p & Hp).
  { intros n Hn. destruct (det_eval_node ctx Hg n d i Hn Hd) as (o' & e & _ & H).
    exists o'. by eapply yields_runs. }
  apply (radds_record rid _ o p). intros r. unfold report_def.
  eapply yields_bind; [exact Hp |]. eapply yields_bind; [exact Hy | apply yields_ret].
Qed.

Lemma report_ref_adds rule rid r : rule_ok (rule_root rule) = true -> ref_in ctx r ->
  radds rid (report_ref rule ctx r) (fun id => at_id rid id (ref_hits ctx rule r)).
Proof.
  intros Hr Hin. destruct (det_eval_reference ctx Hg _ r Hr Hin) as (o & e & _ & Hruns).
  apply yields_runs in Hruns. unfold ref_hits. rewrite (yields_initial ctx _ _ Hruns).
  destruct (yields_premise (fun n => eval_reference n r ctx) rule Hr) as (p & Hp).
  { intros n Hn. destruct (det_eval_reference ctx Hg n r Hn Hin) as (o' & e' & _ & H).
    exists o'. by eapply yields_runs. }
  apply (radds_record rid _ (inr o) p). intros x. unfold report_ref.
  eapply yields_bind; [exact Hp |]. eapply yields_bind; [exact Hruns | apply yields_ret].
Qed.

Lemma report_doc_adds r rid e :
  radds rid (fun report => lift (report_doc r ctx e report)) (fun id => at_id rid id (doc_hits ctx r e)).
Proof.
  destruct e as [i d]. unfold doc_hits, report_doc. cbn [fst snd].
  destruct (doc_comment_Ok ctx r d i) as [o ->].
  set (out := match o with None => NotApplicable | Some true => Pass | Some false => Fail_ missing_doc end).
  eapply adds_ext; [| apply (radds_record rid _ (inr out) None)].
  - intros id. unfold out. by destruct o as [[] |].
  - intros x. by apply yields_lift.
Qed.

(** ** A list of reports *)

(** A report that the loop over a population fills is pushed. *)
Lemma push_report rid init f (t : RuleReport -> RuleReport) w :
  report_id init = rid -> against init = 0 ->
  (forall r, report_at (t r) = report_at r) ->
  radds rid f w ->
  rsadds (fun out => report ← f init; mret (out ++ [t report])) w.
Proof.
  intros Hid H0 Ht Hf out _. destruct (Hf init Hid) as (r & Hy & Hr & Hm).
  exists (out ++ [t r]). split_and!; [| done |].
  - eapply yields_bind; [exact Hy | apply yields_ret].
  - intros id. unfold reports_at. rewrite sum_app. cbn. rewrite Ht, Hm.
    assert (report_at init id = 0) as -> by (unfold report_at; by rewrite H0, at_id_0). lia.
Qed.

Lemma warn_empty_at rule r : report_at (warn_empty rule r) = report_at r.
Proof. unfold warn_empty. by destruct (_ && _). Qed.

(** The loop of a rule over its population. *)
Lemma push_rule rule rid domain pop : rule_ok (rule_root rule) = true ->
  (forall e, e ∈ pop -> def_ok ctx e.1 e.2) ->
  rsadds (fun out =>
      report ← fold_out (report_def rule ctx) pop (report_new rid domain rule);
      mret (out ++ [warn_empty rule report]))
    (fun id => sum_list_with (fun e => at_id rid id (hits ctx rule e)) pop).
Proof.
  intros Hr Hpop. apply (push_report rid); [done | done | apply warn_empty_at |].
  apply adds_fold. intros [i d] Hin. apply report_def_adds; [done | by apply (Hpop (i, d))].
Qed.

Lemma push_doc r rid domain pop :
  rsadds (fun out =>
      report ← fold_out (fun d report => lift (report_doc r ctx d report)) pop
                 (report_new_require_doc rid domain);
      mret (out ++ [report]))
    (fun id => sum_list_with (fun e => at_id rid id (doc_hits ctx r e)) pop).
Proof.
  apply (push_report rid _ _ (fun r => r)); [done.. |].
  apply adds_fold. intros e _. apply report_doc_adds.
Qed.

Lemma no_doc_hits r e : require_doc_for_vis r = None -> doc_hits ctx r e = 0.
Proof. intros H. unfold doc_hits, eval_require_doc_comment. by rewrite H. Qed.

Lemma sum_no_doc r rid (l : list (nat * DefRecord)) id : require_doc_for_vis r = None ->
  sum_list_with (fun e => at_id rid id (doc_hits ctx r e)) l = 0.
Proof.
  intros H. rewrite (sum_ext _ (fun _ => 0)); [apply sum_zero |].
  intros e _. by rewrite no_doc_hits, at_id_0.
Qed.

Lemma kind_population_ok k e : e ∈ kind_population g k -> def_ok ctx e.1 e.2.
Proof.
  destruct e as [i d]. intros H. apply list_elem_of_In, List.filter_In in H as [H _].
  by apply list_elem_of_In, elem_of_enumerate in H.
Qed.

Lemma shape_population_ok c s p e : e ∈ shape_population g c s p -> def_ok ctx e.1 e.2.
Proof.
  destruct e as [i d]. intros H. apply list_elem_of_In, List.filter_In in H as [H _].
  by apply list_elem_of_In, elem_of_enumerate in H.
Qed.

Lemma push_kind_adds k r : all_ok (kind_rules r) ->
  rsadds (push_kind_rule_report g (lang ctx) ctx (k, r))
    (fun i => sum_list_with (fun e => kind_weight ctx r k e i) (kind_population g k)).
Proof.
  intros Hr. unfold all_ok in Hr. rewrite Forall_forall in Hr.
  apply (adds_ext ctx _ _ _ (fun i =>
    sum_list_with (fun rule => sum_list_with (fun e =>
      at_id (rule_id (lang ctx) k (id rule)) i (hits ctx rule e)) (kind_population g k)) (kind_rules r) +
    sum_list_with (fun e => at_id (rule_id (lang ctx) k (bs "require_doc_comment")) i
      (doc_hits ctx r e)) (kind_population g k))).
  - intros i. unfold kind_weight. by rewrite sum_plus, sum_swap.
  - apply (adds_bind ctx _ _ (fold_out _ _)).
    + apply adds_fold. intros rule Hin. apply push_rule; [by apply Hr | apply kind_population_ok].
    + destruct (require_doc_for_vis r) as [v |] eqn:Hv; [apply push_doc |].
      eapply adds_ext; [| apply adds_ret]. intros i. by rewrite sum_no_doc.
Qed.

(** What the reports of a shape add, population by population. *)
Definition shape_reports (c : CompiledRules) (s : bytes) (r : CompiledKindRules) (i : bytes) : nat :=
  sum_list_with (fun rule => sum_list_with (fun e => at_id (compiled_id rule) i (hits ctx rule e))
      (shape_population g c s (fun k => overridden k rule))) (kind_rules r) +
  match require_doc_rule_id r with
  | Some rid => sum_list_with (fun e => at_id rid i (doc_hits ctx r e))
                  (shape_population g c s (fun k => negb (no_doc_rule k)))
  | None => 0
  end.

Lemma push_shape_adds c s r : all_ok (kind_rules r) ->
  rsadds (push_shape_rule_report g ctx c (s, r)) (shape_reports c s r).
Proof.
  intros Hr. unfold all_ok in Hr. rewrite Forall_forall in Hr.
  apply (adds_bind ctx _ _ (fold_out _ _)).
  - apply (adds_fold ctx _ _ _ (fun rule i => sum_list_with (fun e =>
      at_id (compiled_id rule) i (hits ctx rule e)) _)).
    intros rule Hin. apply push_rule; [by apply Hr | apply shape_population_ok].
  - destruct (require_doc_rule_id r) as [rid |]; [apply push_doc | apply adds_ret].
Qed.

Lemma push_ref_adds rule : rule_ok (rule_root rule) = true ->
  rsadds (push_ref_rule_report g ctx rule)
    (fun i => sum_list_with (fun r => at_id (compiled_id rule) i (ref_hits ctx rule r)) (CodeGraph.refs g)).
Proof.
  intros Hr. apply (push_report (compiled_id rule) _ _ (fun r => r)); [done.. |].
  apply adds_fold. intros r Hin. by apply report_ref_adds.
Qed.

(** ** The sums exchanged *)

Lemma utf8_Some b k : utf8 b = Some k <-> k = b /\ from_utf8 b = true.
Proof. unfold utf8. destruct (from_utf8 b); split; [intros [= ->] | intros [-> ?] | | intros [-> ?]]; done. Qed.

(** Summing over the kinds and their definitions is summing over the
    definitions, each under its own kind. *)
Lemma sum_kinds (m : gmap bytes CompiledKindRules) (f : CompiledKindRules -> bytes -> nat * DefRecord -> nat) :
  (forall k r, m !! k = Some r -> from_utf8 k = true) ->
  sum_list_with (fun x => sum_list_with (f x.2 x.1) (kind_population g x.1)) (entries m) =
  sum_list_with (fun e => match utf8 (kind e.2) with
    | Some ks => match m !! ks with Some r => f r ks e | None => 0 end
    | None => 0 end) (enumerate (defs g)).
Proof.
  intros Hm. etrans; [| etrans; [apply (sum_swap (fun (e : nat * DefRecord) (x : bytes * CompiledKindRules) =>
    if beq (kind e.2) x.1 then f x.2 x.1 e else 0)) |]].
  - rewrite sum_swap. apply sum_ext. intros x _. apply sum_filter.
  - rewrite sum_swap. apply sum_ext. intros e _.
    pose proof (sum_keys m (kind e.2) (fun k r => f r k e)) as Hk.
    rewrite <- (sum_ext (fun x : bytes * CompiledKindRules =>
      if bool_decide (x.1 = kind e.2) then f x.2 x.1 e else 0)) in Hk by done.
    etrans; [| etrans; [exact Hk |]].
    + apply sum_ext. intros x _. case_bool_decide as Hx.
      * by rewrite Hx, beq_refl.
      * destruct (beq (kind e.2) x.1) eqn:Hb; [| done]. by apply beq_true in Hb.
    + unfold utf8. destruct (from_utf8 (kind e.2)) eqn:Hu; [done |].
      destruct (m !! kind e.2) eqn:Hr; [| done]. apply Hm in Hr. congruence.
Qed.

Definition shape_def_weight (c : CompiledRules) (r : CompiledKindRules) (i : bytes)
    (e : nat * DefRecord) : nat :=
  match utf8 (kind e.2) with Some ks => shape_weight ctx (for_kind c ks) r e i | None => 0 end.

Lemma shape_reports_by_def c s r i :
  shape_reports c s r i =
  sum_list_with (fun e => if def_has_shape e.2 s then shape_def_weight c r i e else 0)
    (enumerate (defs g)).
Proof.
  unfold shape_reports, shape_population.
  rewrite (sum_ext _ (fun rule => sum_list_with (fun e =>
    if def_has_shape e.2 s &&
       match utf8 (kind e.2) with
       | Some kind_str => negb (overridden (for_kind c kind_str) rule)
       | None => false
       end then at_id (compiled_id rule) i (hits ctx rule e) else 0) (enumerate (defs g))))
    by (intros rule _; apply sum_filter).
  rewrite sum_swap. destruct (require_doc_rule_id r) as [rid |] eqn:Hd.
  - rewrite sum_filter, <- sum_plus. apply sum_ext. intros e _.
    unfold shape_def_weight, shape_weight. rewrite Hd.
    destruct (def_has_shape e.2 s); cbn [andb]; [| by rewrite sum_zero].
    destruct (utf8 (kind e.2)); [by rewrite negb_involutive | by rewrite sum_zero].
  - rewrite Nat.add_0_r. apply sum_ext. intros e _. unfold shape_def_weight, shape_weight. rewrite Hd.
    destruct (def_has_shape e.2 s); cbn [andb]; [| by rewrite sum_zero].
    destruct (utf8 (kind e.2)); [by rewrite Nat.add_0_r | by rewrite sum_zero].
Qed.

Lemma sum_shapes c i :
  sum_list_with (fun x => shape_reports c x.1 x.2 i) (entries (by_shape c)) =
  sum_list_with (fun e => match (shape ← def_shape e.2; for_shape c shape) with
    | Some r => shape_def_weight c r i e | None => 0 end) (enumerate (defs g)).
Proof.
  rewrite (sum_ext _ (fun x => sum_list_with (fun e =>
    if def_has_shape e.2 x.1 then shape_def_weight c x.2 i e else 0) (enumerate (defs g))))
    by (intros x _; apply shape_reports_by_def).
  rewrite sum_swap. apply sum_ext. intros e _. unfold def_has_shape.
  destruct (def_shape e.2) as [sh |]; cbn; [| by rewrite sum_zero].
  pose proof (sum_keys (by_shape c) (Shape.as_str sh) (fun _ r => shape_def_weight c r i e)) as Hk.
  etrans; [| exact Hk]. apply sum_ext. intros x _. case_bool_decide as Hx.
  - by rewrite Hx, beq_refl.
  - destruct (beq (Shape.as_str sh) x.1) eqn:Hb; [| done]. by apply beq_true in Hb.
Qed.

(** ** The reports of a rule set *)

Lemma elem_of_entries {A} (m : gmap bytes A) x : x ∈ entries m -> m !! x.1 = Some x.2.
Proof.
  intros H. unfold entries in H. rewrite (hash_order_perm _) in H. destruct x.
  by apply elem_of_map_to_list.
Qed.

Lemma reports_add c : rules_ok c ->
  rsadds (fun out =>
      out ← fold_out (push_kind_rule_report g (lang ctx) ctx) (entries (by_kind c)) out;
      out ← fold_out (push_shape_rule_report g ctx c) (entries (by_shape c)) out;
      fold_out (push_ref_rule_report g ctx) (compiled_refs c) out)
    (total_weight ctx c).
Proof.
  intros (Hk & Hs & Hrefs). unfold all_ok in Hrefs. rewrite Forall_forall in Hrefs.
  eapply adds_ext; [| apply (adds_bind ctx _ _ (fold_out _ _));
    [apply (adds_fold ctx _ _ _ (fun x i => sum_list_with
      (fun e => kind_weight ctx x.2 x.1 e i) (kind_population g x.1))) |
     apply (adds_bind ctx _ _ (fold_out _ _));
      [apply (adds_fold ctx _ _ _ (fun x => shape_reports c x.1 x.2)) |
       apply (adds_fold ctx _ _ _ (fun rule i => sum_list_with (fun r =>
         at_id (compiled_id rule) i (ref_hits ctx rule r)) (CodeGraph.refs g)))]]].
  - intros i. cbn beta. rewrite sum_shapes, (sum_swap _ (compiled_refs c)).
    rewrite (sum_kinds (by_kind c) (fun r k e => kind_weight ctx r k e i)) by (intros k r H; by apply (Hk k r)).
    unfold total_weight. rewrite Nat.add_assoc, <- sum_plus. f_equal. apply sum_ext. intros e _.
    unfold def_weight, shape_def_weight. destruct (utf8 (kind e.2)) as [ks |]; [done |].
    by destruct (def_shape e.2 ≫= for_shape c).
  - intros [k r] Hin%elem_of_entries. apply push_kind_adds. by eapply Hk.
  - intros [s r] Hin%elem_of_entries. apply push_shape_adds. by eapply Hs.
  - intros rule Hin. by apply push_ref_adds, Hrefs.
Qed.

Lemma reports_yield c : rules_ok c ->
  exists rs, yields ctx (rule_reports_with_ctx g (lang ctx) c ctx) rs /\
    forall i, reports_at rs i = total_weight ctx c i.
Proof.
  intros Hc. destruct (reports_add c Hc [] I) as (rs & Hy & _ & Hm).
  exists (sort_by_key report_id rs). split.
  - intros s Hs. destruct (Hy s Hs) as (s' & Hr & Hs'). exists s'. split; [| done].
    unfold rule_reports_with_ctx.
    destruct (fold_out (push_kind_rule_report g (lang ctx) ctx) (entries (by_kind c)) [] s) as [[] ?] eqn:E1;
      unfold mbind, st_bind in *; rewrite E1 in *; try done.
    destruct (fold_out (push_shape_rule_report g ctx c) (entries (by_shape c)) a e) as [[] ?] eqn:E2;
      try done.
    by rewrite Hr.
  - intros i. etrans; [apply sum_permutation, merge_sort_Permutation | exact (Hm i)].
Qed.

End reports.

(** ** The evaluation of an input *)

Section input.
Context {TS : TreeSitter} {TL : TreeSitterLaws TS} {PS : Parsers TS} {HO : HashOrder} {L2 : Log2}.
Context {RE : RegexEngine}.

(** The definitions that a resolver of requirements yields have encodings for
    monikers. *)
Definition resolver_ok (o : option RequirementResolver) : Prop :=
  forall r owner inner, o = Some r ->
    Forall (fun d => valid_moniker (moniker d)) (descendant_defs r owner inner).

Definition input_ok (input : CompiledEvaluationInput) : Prop :=
  wf (abs (in_graph input)) /\ resolver_ok (in_requirements input) /\ rules_ok (in_compiled input).

Lemma eval_ctx_good input : input_ok input -> good_ctx (eval_ctx_of input).
Proof. intros (Hw & Hr & _). by split. Qed.

(** The answer to an input: violations, and reports that count as many against
    the rule of every identifier. *)
Definition accounted (input : CompiledEvaluationInput) : Prop :=
  exists vs rs, evaluate_and_report_compiled input = Ok (vs, rs) /\
    forall i, count_id vs i = reports_at rs i.


End input.

Lemma sample_input_ok : input_ok Sample.input.
Proof.
  split_and!; [exact Sample.graph_wf | done |]. split_and!.
  - intros k r H. unfold Sample.input, Sample.rules in H. cbn [in_compiled by_kind by_shape] in H.
    apply lookup_singleton_Some in H as [<- <-]. split; [done |].
    constructor; [by vm_compute | constructor].
  - intros k r H. unfold Sample.input, Sample.rules in H. cbn [in_compiled by_kind by_shape] in H.
    apply lookup_singleton_Some in H as [<- <-].
    constructor; [by vm_compute | constructor].
  - constructor; [by vm_compute | constructor].
Qed.

Import Sample.


End ReportFacts.
