(* ===== verification/EvalTheorems.v ===== *)
(** What the evaluator of rules computes: outcomes that do not depend on the
    caches, Kleene's connectives, the algebra of collections, the metrics of
    classes and the layout of their members. *)

From stdpp Require Import gmultiset.
From S2P Require Import Prelude.
From S2P Require Import RustStr.
From S2P Require Import Shape.
From S2P Require Import Moniker.
From S2P Require Import Uri.
From S2P Require Import CodeGraph.
From S2P Require Import CodeGraphFacts.
From S2P Require Import Path.
From S2P Require Import PathFacts.
From S2P Require Import DslAst.
From S2P Require Import DslTheorems.
From S2P Require Import Suppress.
From S2P Require Import Syntax.
From S2P Require Import EvalCore.
From S2P Require Import EvalValue.
From S2P Require Import EvalDomain.
From S2P Require Import EvalCollection.
From S2P Require Import EvalMetrics.
From S2P Require Import EvalLayout.
From S2P Require Import Eval.
From S2P Require Import EvalDet.
From S2P Require Import EvalWalkFacts.
From S2P Require Import EvalCollectionFacts.
From S2P Require Import EvalMetricsFacts.
From S2P Require Import EvalLayoutFacts.
From S2P Require Import EvalFacts.
From S2P Require Import EvalTotal.
From S2P Require Import CheckFacts.

Module EvalTheorems.
Import CodeGraph EvalCore EvalValue EvalWalk EvalCollection EvalMetrics Eval Ast CodeGraphFacts.
Import EvalIndexFacts EvalDet EvalScope EvalWalkFacts EvalCollectionFacts EvalCohesion.
Import Lines SyntaxFacts EvalMetricsFacts EvalFacts EvalTotal.

(** ** The evaluation of a tree *)

Definition independent {TS : TreeSitter} {HO : HashOrder} {L2 : Log2} {RE : RegexEngine}
    (ctx : EvalCtx) (n : Node) : Prop :=
  (forall i d, defs (graph ctx) !! i = Some d -> det ctx (eval_node n d i ctx) (outcome_ok ctx)) /\
  (forall r, r ∈ refs (graph ctx) -> det ctx (eval_reference n r ctx) (outcome_ok ctx)).



(** Whatever the leaves answer, the walk over a tree answers the value of
    the tree in Kleene's three-valued logic, where a rule that does not apply has
    no value: a conjunction fails as soon as one child fails, a disjunction
    passes as soon as one passes, and an implication is that of its conclusion
    where its premise holds. The children that the walk does not evaluate do
    not change the value. *)
Theorem walk_computes_kleene {RE : RegexEngine} {S : Type} (inv : S -> Prop) atom_eval quant_eval
    require_eval layout_eval leaf n :
  let walk := walk_node atom_eval quant_eval require_eval layout_eval in
  Forall (fun n => answers inv (walk n) (leaf n)) (leaves n) ->
  answers inv (walk n) (value_of leaf n).
Proof. apply walk_answers. Qed.

Lemma walk_computes_kleene_witness :
  let leaf (n : Node) := match n with Require_ [] => None | Require_ _ => Some true | _ => Some false end in
  let walk := walk_node (S:=()) (fun _ => mret APass) (fun _ _ _ => mret NotApplicable)
    (fun p => mret match p with [] => NotApplicable | _ => Pass end) (fun _ => mret NotApplicable) in
  let n := Implies (Not (Require_ [])) (Or [Require_ (bs "a"); Require_ []]) in
  value_of leaf n = None /\ answers (fun _ => True) (walk n) (value_of leaf n).
Proof.
  cbv zeta. split; [done |]. apply walk_computes_kleene.
  repeat constructor; intros s Hs; by eexists _, s.
Defined.

(** ** Collections *)

(** The multiset operation that an operator of the language names. *)
Definition bag_op (op : CollectionOp) (l r : gmultiset ValueKey.t) : gmultiset ValueKey.t :=
  match op with Intersect => l ∩ r | Union => l ∪ r | Difference => l ∖ r end.

(** C33: collections are multisets: in whatever order the maps iterate,
    [intersect], [union] and [difference] yield the values of the intersection,
    the union and the difference of the multisets of their operands; [subset] is
    the inclusion of multisets; [prefix] is that of sequences. *)
Theorem collections_are_multisets {HO : HashOrder} op l r :
  bag (apply_collection_op op l r) = bag_op op (bag l) (bag r) /\
  (is_subset l r = true <-> bag l ⊆ bag r) /\
  (is_prefix l r = true <-> (ValueKey.from_value <$> l) `prefix_of` (ValueKey.from_value <$> r)).
Proof.
  split_and!; [| apply is_subset_spec | apply is_prefix_spec].
  apply gmultiset_eq. intros k. unfold apply_collection_op, intersect, union, difference, bag_op.
  destruct op; rewrite combine_counts_multiplicity by done; symmetry.
  - apply multiplicity_intersection.
  - apply multiplicity_union.
  - apply multiplicity_difference.
Qed.

(** The mode of a collection is the first of its values that no other
    outnumbers, and only an empty collection has none. *)
Theorem mode_is_most_frequent vs :
  match mode_value vs with Some v => most_frequent vs v | None => vs = [] end.
Proof. apply mode_value_spec. Qed.

(** ** The metrics of classes *)
Section metrics.
Context {TS : TreeSitter} {TL : TreeSitterLaws TS} {HO : HashOrder}.
Context (ctx : EvalCtx) (Hg : good_ctx ctx).
Abbreviation g := (graph ctx).
Abbreviation methods := (shaped_children g Shape.Callable).
Abbreviation fields := (shaped_children g Shape.Value).

(** The cohesion of a class is the number of the classes of the relation between
    its methods that calls and shared fields generate. *)
Definition cohesion_exact (i : nat) : Prop :=
  exists reps, lcom4 (E:=Empty_set) i ctx = Ok (as_u32 (length reps)) /\
    classes (methods i) (rtc (related ctx (methods i) (fields i))) reps.


(** C35: the depth of inheritance is the length of the longest chain of
    inheritance references from a class, an unresolved parent counting for one and
    a chain stopping when it comes back to itself; the recursion ends. *)
Theorem dit_is_longest_chain i : in_defs ctx i -> det ctx (dit i ctx) (longest ctx ∅ i).
Proof. intros Hi. by apply det_dit. Qed.

(** The five metrics that count. *)
Definition counts_exact (i : nat) (d : DefRecord) : Prop :=
  fan_out i ctx = as_u32 (length (refs_from g i)) /\
  fan_in (E:=Empty_set) i ctx = Ok (as_u32 (length (refs_to g (Moniker.encoded (moniker d))))) /\
  wmc (E:=Empty_set) i ctx = Ok (as_u32 (length (methods i))) /\
  (exists s : gset bytes, rfc (E:=Empty_set) i ctx = Ok (as_u32 (size s)) /\
     forall m, m ∈ s <-> response ctx (methods i) m) /\
  (exists s : gset nat, noc (E:=Empty_set) i ctx = Ok (as_u32 (size s)) /\
     forall a, a ∈ s <-> inherits ctx a i).

(** The counting metrics are those of their definitions, modulo 2^32:
    [fan_out] and [fan_in] count the references out of and into a definition,
    [wmc] its methods, [rfc] the methods with what they call, each counted once,
    and [noc] the definitions that inherit from it, each counted once. *)
Theorem class_metrics_exact i d : defs g !! i = Some d -> counts_exact i d.
Proof.
  intros Hd. assert (in_defs ctx i) as Hi by (by eapply lookup_lt_Some). split_and!.
  - by apply fan_out_spec.
  - by apply fan_in_spec.
  - by apply wmc_spec.
  - destruct (post_empty _ _ (rfc_post ctx Hg i)) as (n & Hn & s & -> & Hs). by exists s.
  - destruct (post_empty _ _ (noc_post ctx Hg i Hi)) as (n & Hn & s & -> & Hs). by exists s.
Qed.

End metrics.

#[local] Existing Instances Sample.plain_order Sample.flat_log2.


Lemma dit_is_longest_chain_witness :
  in_defs Sample.ctx_ 1 /\ det Sample.ctx_ (dit 1 Sample.ctx_) (longest Sample.ctx_ ∅ 1).
Proof.
  assert (in_defs Sample.ctx_ 1) as H by (by apply Nat.ltb_lt; vm_compute).
  split; [exact H |]. exact (dit_is_longest_chain _ Sample.ctx_good 1 H).
Defined.

Lemma class_metrics_exact_witness :
  exists d, defs (graph Sample.ctx_) !! 1 = Some d /\ counts_exact Sample.ctx_ 1 d.
Proof.
  destruct (defs (graph Sample.ctx_) !! 1) as [d |] eqn:H; [| by vm_compute in H].
  exists d. split; [reflexivity |].
  exact (class_metrics_exact _ Sample.ctx_good 1 d H).
Defined.

(** The indexes of an evaluation are those of the graph: the children of a
    definition, the references out of it and into a moniker, in the order of the
    graph, and the number of children of each kind modulo 2^32. *)
Theorem indexes_exact (g : CodeGraph.t) i k m :
  get_all i (children_by_parent_of g) = children_of g i /\
  get_all i (out_refs_by_source_of g) = refs_from g i /\
  get_all m (in_refs_by_target_of g) = refs_to g m /\
  default 0%N (parent_counts_by_kind g !! (i, k)) =
    as_u32 (length (List.filter (is_child i k) (defs g))).
Proof.
  split_and!; [apply children_get | apply out_get | apply in_get | apply parent_counts_exact].
Qed.

(** ** Layout *)

(** The suggested order of the members of a class is a permutation of them
    that keeps the members no move names in their order, and computing it never
    fails. *)
Theorem suggested_order_valid items moves :
  NoDup (map EvalLayout.idx items) ->
  map EvalLayout.target_idx moves ⊆ map EvalLayout.idx items ->
  exists order, EvalLayout.suggested_order (E:=Empty_set) items moves = Ok order /\
    order ≡ₚ items /\ EvalLayoutFacts.unmoved moves items `sublist_of` order.
Proof. apply EvalLayoutFacts.suggested_order_spec. Qed.

(** The walk over the descendants of a definition, in a well-formed graph. *)
Definition descendants_exact_at {TS : TreeSitter} (ctx : EvalCtx) (owner : nat) : Prop :=
  exists o, EvalLayout.descendant_idxs (E:=Empty_set) owner ctx = Ok o /\
    match o with
    | Some l => NoDup l /\ Forall (in_defs ctx) l /\
        forall j, j ∈ l <-> tc (EvalLayoutFacts.child ctx) owner j
    | None => forall j, ~ tc (EvalLayoutFacts.child ctx) owner j
    end.

Lemma childless {TS : TreeSitter} ctx owner :
  good_ctx ctx -> EvalLayout.descendant_idxs (E:=Empty_set) owner ctx = Ok None ->
  forall j, ~ tc (EvalLayoutFacts.child ctx) owner j.
Proof.
  intros Hg. unfold EvalLayout.descendant_idxs. rewrite (ctx_children _ Hg), children_lookup.
  destruct (children_of (graph ctx) owner) as [| c l] eqn:Hc.
  - intros _ j Hj. assert (exists c, EvalLayoutFacts.child ctx owner c) as (c & Hch)
      by (destruct Hj; eauto).
    apply EvalLayoutFacts.elem_of_child in Hch. rewrite Hc in Hch. by apply not_elem_of_nil in Hch.
  - by destruct (EvalLayout.queue_loop _ _ _).
Qed.

(** The members that the layout looks at are exactly the definitions below
    the owner, at any depth, each once, and the walk ends. *)
Theorem descendants_exact {TS : TreeSitter} {TL : TreeSitterLaws TS} ctx owner :
  good_ctx ctx -> in_defs ctx owner -> descendants_exact_at ctx owner.
Proof.
  intros Hg Ho.
  destruct (post_empty _ _ (EvalLayoutFacts.descendants_post ctx Hg owner Ho)) as (o & Hd & H).
  exists o. split; [done |]. destruct o as [l |]; [exact H | by apply childless].
Qed.

Lemma descendants_exact_witness :
  in_defs Sample.ctx_ 0 /\ descendants_exact_at Sample.ctx_ 0.
Proof.
  assert (in_defs Sample.ctx_ 0) as H by (by apply Nat.ltb_lt; vm_compute).
  split; [exact H |]. exact (descendants_exact _ _ Sample.ctx_good H).
Defined.

(** Two members, the second one to be moved below the first one. *)
Definition two_items : list EvalLayout.LayoutItem :=
  [EvalLayout.mk_item 1 (bs "b") 0 0 1 true 0 None; EvalLayout.mk_item 2 (bs "a") 5 2 3 false 1 None].
Definition one_move : list EvalLayout.LayoutMove :=
  [EvalLayout.mk_move 1 (Some 2) (bs "b") (bs "a") 0 3 0 []].

Lemma suggested_order_valid_witness :
  exists order, EvalLayout.suggested_order (E:=Empty_set) two_items one_move = Ok order /\
    order ≡ₚ two_items /\ EvalLayoutFacts.unmoved one_move two_items `sublist_of` order.
Proof.
  apply suggested_order_valid.
  - apply NoDup_cons. split; [by intros [=]%list_elem_of_singleton | apply NoDup_singleton].
  - intros x ->%list_elem_of_singleton. apply list_elem_of_here.
Defined.

End EvalTheorems.
