(* ===== verification/DocFacts.v ===== *)
(** The requirement of doc comments: looking at the nearest comment before a
    definition decides whether any comment is attached to it. *)

From S2P Require Import Prelude.
From S2P Require Import RustStr.
From S2P Require Import Moniker.
From S2P Require Import CodeGraph.
From S2P Require Import Path.
From S2P Require Import PathFacts.
From S2P Require Import Suppress.
From S2P Require Import Syntax.
From S2P Require Import Config.
From S2P Require Import EvalCore.
From S2P Require Import Check.
From S2P Require Import CheckFacts.

Module DocFacts.
Import CodeGraph Lines EvalCore Check.

(** ** The binary search over a sorted table *)

Lemma split_at_sorted h (l : list N) : StronglySorted N.le l ->
  exists k, split_at (fun e => N.of_nat e <=? h)%N (N.to_nat <$> l) k /\
    Forall (fun e => e <= h)%N (take k l) /\ Forall (fun e => h < e)%N (drop k l).
Proof.
  induction 1 as [| x l Hl (k & Hk & Ht & Hd) Hx].
  { exists 0. split_and!; [apply split_at_none; constructor | constructor..]. }
  destruct (x <=? h)%N eqn:Hxh.
  - apply N.leb_le in Hxh. exists (S k). cbn. split_and!; [| by constructor | done].
    apply split_at_cons; [| done]. apply N.leb_le. lia.
  - apply N.leb_gt in Hxh. assert (Forall (fun e => h < e)%N l) as Hall.
    { eapply Forall_impl; [exact Hx |]. cbv beta. lia. }
    exists 0. cbn. split_and!; [| constructor | by constructor]. apply split_at_none. constructor.
    + apply N.leb_gt. lia.
    + apply Forall_fmap. eapply Forall_impl; [exact Hall |]. cbv beta. intros e He. cbn. apply N.leb_gt. lia.
Qed.

(** ** Lines before a position *)

Lemma count_take_le l n m : n <= m -> count_newlines (take n l) <= count_newlines (take m l).
Proof.
  intros H. replace (take m l) with (take n l ++ take (m - n) (drop n l)).
  - unfold count_newlines. rewrite List.filter_app, length_app. lia.
  - by rewrite take_take_drop, Nat.add_comm, Nat.sub_add.
Qed.

Lemma count_length l : count_newlines l <= length l.
Proof. unfold count_newlines. induction l as [| b l IH]; cbn; [lia |]. destruct (ceq b newline); cbn; lia. Qed.

(** A text of that size has line numbers that fit. *)
Definition fits_u32 (source : bytes) : Prop := (N.of_nat (length source) + 2 < 2 ^ 32)%N.

Lemma line_no source x y : fits_u32 source ->
  (line_range source x y).1 = N.of_nat (1 + count_newlines (take (Nat.min (N.to_nat x) (length source)) source)).
Proof.
  intros Hf. unfold line_range. cbv zeta. cbn [fst]. unfold u32_add, as_u32, fits_u32 in *.
  set (c := count_newlines _). assert (c <= length source) as Hc.
  { unfold c. etrans; [apply count_length |]. rewrite length_take. lia. }
  rewrite (N.mod_small (N.of_nat c)) by lia. rewrite N.mod_small by lia. lia.
Qed.

(** A comment that is attached keeps attached the ones between it and the
    header. *)
Lemma attached_nearer source c1 c2 h : fits_u32 source -> (c1 <= c2 <= h)%N ->
  comment_attaches_to source c1 h = true -> comment_attaches_to source c2 h = true.
Proof.
  intros Hf Hc. unfold comment_attaches_to.
  replace (h <? c1)%N with false by (symmetry; apply N.ltb_ge; lia).
  replace (h <? c2)%N with false by (symmetry; apply N.ltb_ge; lia).
  cbv zeta. rewrite !line_no by done. set (n := length source).
  set (l1 := count_newlines (take (Nat.min (N.to_nat (c1 - 1)) n) source)).
  set (l2 := count_newlines (take (Nat.min (N.to_nat (c2 - 1)) n) source)).
  set (lh := count_newlines (take (Nat.min (N.to_nat h) n) source)).
  assert (l1 <= l2) by (apply count_take_le; lia). assert (l2 <= lh) by (apply count_take_le; lia).
  assert (lh <= n) as Hn.
  { unfold lh. etrans; [apply count_length |]. rewrite length_take. lia. }
  unfold u32_add, fits_u32 in *. rewrite !N.mod_small by lia.
  rewrite !orb_true_iff, !N.eqb_eq. lia.
Qed.

Lemma attached_before source c h : comment_attaches_to source c h = true -> (c <= h)%N.
Proof. unfold comment_attaches_to. destruct (h <? c)%N eqn:E; [done |]. apply N.ltb_ge in E. lia. Qed.

(** ** The requirement *)
Section doc.
Context {TS : TreeSitter} {RE : RegexEngine}.

(** The visibility of a definition is among those that the rules name. *)
Definition asked (r : CompiledKindRules) (d : DefRecord) : bool :=
  match require_doc_for_vis r with
  | Some filter => beq filter (bs "any") || beq filter (default [] (utf8 (visibility d)))
  | None => false
  end.

(** Where a definition begins, its annotations included. *)
Definition header_of (ctx : EvalCtx) (i : nat) (start : N) : N :=
  match doc_anchors ctx !! i with Some anc => N.min anc start | None => start end.

Lemma nearest_decides source h l k : fits_u32 source -> StronglySorted N.le l -> k <= length l ->
  Forall (fun e => e <= h)%N (take k l) -> Forall (fun e => h < e)%N (drop k l) ->
  existsb (fun c => comment_attaches_to source c h) l =
  match k with O => false | S k => match l !! k with Some e => comment_attaches_to source e h | None => false end end.
Proof.
  intros Hf Hs Hk Ht Hd. apply eq_bool_prop_intro. rewrite !Is_true_true, existsb_exists. split.
  - intros (c & Hin%list_elem_of_In & Hc). pose proof (attached_before _ _ _ Hc) as Hch.
    rewrite <- (take_drop k l) in Hin. apply elem_of_app in Hin as [Hin | Hin].
    2: { rewrite Forall_forall in Hd. specialize (Hd _ Hin). cbv beta in Hd. lia. }
    destruct k as [| k]; [by apply not_elem_of_nil in Hin |].
    destruct (lookup_lt_is_Some_2 l k) as [e He]; [lia |]. rewrite He.
    eapply attached_nearer; [done | | exact Hc]. rewrite (take_S_r _ _ _ He) in *.
    apply Forall_app in Ht as [_ [Heh _]%Forall_cons]. split; [| done].
    apply elem_of_app in Hin as [Hin | ->%list_elem_of_singleton]; [| lia].
    rewrite <- (take_drop_middle l k e He) in Hs.
    eapply StronglySorted_app_1_elem_of; [exact Hs | exact Hin | apply list_elem_of_here].
  - destruct k as [| k]; [done |]. destruct (l !! k) as [e |] eqn:He; [| done]. intros Hc.
    exists e. split; [| done]. by apply list_elem_of_In, (list_elem_of_lookup_2 _ k).
Qed.

(** A definition that the rules ask to document is found documented exactly
    when some comment of the file ends on the line of its header or on the line
    before, the header starting at the annotations of the definition: the binary
    search for the nearest comment misses none, the index it computes is in
    range, and no line number wraps in a text below 4 GiB. *)
Theorem doc_comment_found ctx r d i start e :
  fits_u32 (source_text ctx) -> StronglySorted N.le (comment_ends ctx) ->
  asked r d = true -> position d = Some (start, e) ->
  eval_require_doc_comment d i r ctx =
  Ok (Some (existsb (fun c => comment_attaches_to (source_text ctx) c (header_of ctx i start))
              (comment_ends ctx))).
Proof.
  intros Hf Hs Ha Hp. unfold eval_require_doc_comment, asked in *.
  destruct (require_doc_for_vis r) as [filter |]; [| done].
  rewrite <- negb_orb, Ha, Hp. cbn [negb]. fold (header_of ctx i start). cbv zeta.
  set (h := header_of ctx i start). destruct (split_at_sorted h _ Hs) as (k & Hk & Ht & Hd).
  rewrite (partition_point_spec _ _ _ Hk). destruct Hk as [Hk _]. rewrite length_fmap in Hk.
  rewrite (nearest_decides _ _ _ k) by done. destruct k as [| k]; [done |].
  cbn [Nat.eqb Nat.sub]. rewrite Nat.sub_0_r.
  by destruct (lookup_lt_is_Some_2 (comment_ends ctx) k) as [x ->].
Qed.

End doc.

(** A class below a comment, and a comment two lines above. *)
Definition documented : EvalCtx :=
  mk_ctx Sample.graph_ None (bs "//a" ++ [newline; newline] ++ bs "//b" ++ [newline] ++ bs "class A {}")
    Lang.Ts None (uri_cfg Sample.ctx_) ∅ ∅ ∅ ∅ [3; 8]%N ∅.

Definition any_doc : CompiledKindRules := mk_compiled_kind [] (Some (bs "any")) None.

Definition documented_class : DefRecord :=
  mk_def Sample.class_ (bs "class") None (Some (9, 19)%N) [] [] [] None [] [].

Lemma doc_comment_found_witness :
  eval_require_doc_comment documented_class 1 any_doc documented =
  Ok (Some (existsb (fun c => comment_attaches_to (source_text documented) c (header_of documented 1 9))
              (comment_ends documented))) /\
  eval_require_doc_comment documented_class 1 any_doc documented = Ok (Some true).
Proof.
  split; [| by vm_compute].
  apply (doc_comment_found documented any_doc documented_class 1 9 19).
  - by vm_compute.
  - repeat constructor; by vm_compute.
  - by vm_compute.
  - reflexivity.
Defined.

End DocFacts.
