(* ===== verification/ConfigFacts.v ===== *)
(** Merging a configuration into another: what overrides what, in whatever order
    the maps iterate; and what a profile leaves of unnamed rules.

    The compilation of a configuration into rules: it never panics, and the rules
    it yields are well typed trees, for the kinds that the configuration gives. *)

From S2P Require Import Prelude.
From S2P Require Import RustStr.
From S2P Require Import StrFacts.
From S2P Require Import Path.
From S2P Require Import PathFacts.
From S2P Require Import DslAst.
From S2P Require Import DslCursor.
From S2P Require Import DslParse.
From S2P Require Import DslTyping.
From S2P Require Import DslFacts.
From S2P Require Import DslTheorems.
From S2P Require Import Syntax.
From S2P Require Import Suppress.
From S2P Require Import EvalCore.
From S2P Require Import EvalDet.
From S2P Require Import ConfigData.
From S2P Require Import Aliases.
From S2P Require Import AliasFacts.
From S2P Require Import Config.
From S2P Require Import Check.
From S2P Require Import CheckFacts.

Module ConfigFacts.
Import ConfigData Config.

(** ** Lists of rules *)
Section entries.
Context {A : Type} (id : A -> option bytes).

Definition with_id (i : bytes) (l : list A) : list A :=
  List.filter (fun r => bool_decide (id r = Some i)) l.

Definition unnamed (l : list A) : list A := List.filter (fun r => bool_decide (id r = None)) l.

(** The list of ids, with one more unless it is there. *)
Definition add_name (ids : list (option bytes)) (i : option bytes) : list (option bytes) :=
  match i with
  | Some n => if bool_decide (Some n ∈ ids) then ids else ids ++ [i]
  | None => ids ++ [i]
  end.

(** The merge of two lists: a rule of the override takes the place of the first
    rule of the base with its id, the last of the override winning; the rules
    without id are all kept; the ids of the base keep their places. *)
Definition merged (base ov result : list A) : Prop :=
  (forall i, head (with_id i result) =
     match last (with_id i ov) with Some r => Some r | None => head (with_id i base) end) /\
  unnamed result = unnamed base ++ unnamed ov /\
  id <$> result = foldl add_name (id <$> base) (id <$> ov).

Lemma filter_insert_false (p : A -> bool) l k x y :
  l !! k = Some y -> p x = false -> p y = false -> List.filter p (<[k := x]> l) = List.filter p l.
Proof.
  revert k. induction l as [| z l IH]; intros [| k] Hk Hx Hy; try done; cbn in *.
  - injection Hk as ->. by rewrite Hx, Hy.
  - by rewrite IH.
Qed.

Lemma insert_first i l k x :
  list_find (fun r => id r = Some i) l = Some k -> id x = Some i ->
  head (with_id i (<[k.1 := x]> l)) = Some x /\
  (forall j, j <> i -> with_id j (<[k.1 := x]> l) = with_id j l) /\
  unnamed (<[k.1 := x]> l) = unnamed l /\ id <$> <[k.1 := x]> l = id <$> l.
Proof.
  destruct k as [k y]. intros (Hk & Hy & Hfirst)%list_find_Some Hx. cbn [fst]. split_and!.
  - clear Hy. revert k Hk Hfirst. induction l as [| z l IH]; intros [| k] Hk Hfirst; try done.
    + cbn. by rewrite bool_decide_eq_true_2.
    + cbn. rewrite bool_decide_eq_false_2 by (apply (Hfirst 0 z); [done | lia]).
      apply IH; [done |]. intros j w Hj Hl. apply (Hfirst (S j) w Hj). lia.
  - intros j Hj. eapply filter_insert_false; [exact Hk | |]; apply bool_decide_eq_false_2; congruence.
  - eapply filter_insert_false; [exact Hk | |]; apply bool_decide_eq_false_2; congruence.
  - rewrite list_fmap_insert. apply list_insert_id. rewrite list_lookup_fmap, Hk. cbn. congruence.
Qed.

Lemma with_id_app i l r : with_id i (l ++ r) = with_id i l ++ with_id i r.
Proof. apply List.filter_app. Qed.

Lemma unnamed_app l r : unnamed (l ++ r) = unnamed l ++ unnamed r.
Proof. apply List.filter_app. Qed.

Lemma no_id i l : list_find (fun r => id r = Some i) l = None -> with_id i l = [] /\ Some i ∉ id <$> l.
Proof.
  intros H%list_find_None. split.
  - unfold with_id. induction H as [| z l Hz _ IH]; [done |]. cbn. by rewrite bool_decide_eq_false_2.
  - intros (r & Hr & Hin)%list_elem_of_fmap. rewrite Forall_forall in H. by apply (H r Hin).
Qed.

(** One turn of the loop. *)
Lemma merge_entry_spec l x :
  (forall i, head (with_id i (merge_entry id l x)) =
     if bool_decide (id x = Some i) then Some x else head (with_id i l)) /\
  unnamed (merge_entry id l x) = unnamed l ++ unnamed [x] /\
  id <$> merge_entry id l x = add_name (id <$> l) (id x).
Proof.
  unfold merge_entry, add_name. destruct (id x) as [n |] eqn:Hx.
  2: { split_and!; [| by rewrite unnamed_app | by rewrite fmap_app; cbn; rewrite Hx].
       intros i. rewrite with_id_app. cbn. rewrite Hx, !bool_decide_eq_false_2 by done. by rewrite app_nil_r. }
  assert (unnamed [x] = []) as Hu by (cbn; by rewrite Hx).
  destruct (list_find (fun r => id r = Some n) l) as [k |] eqn:Hk; cbn [fmap option_fmap option_map].
  - destruct (insert_first n l k x Hk Hx) as (Hn & Ho & Hun & Hids). split_and!.
    + intros i. case_bool_decide as Hi; [by injection Hi as <- |]. rewrite Ho; [done | congruence].
    + by rewrite Hun, Hu, app_nil_r.
    + rewrite Hids. rewrite bool_decide_eq_true_2; [done |].
      destruct k as [k y]. apply list_find_Some in Hk as (Hk & Hy & _). cbn in *.
      apply list_elem_of_fmap. exists y. split; [done |]. by eapply list_elem_of_lookup_2.
  - apply no_id in Hk as [Hn Hin]. split_and!.
    + intros i. rewrite with_id_app. cbn. rewrite Hx.
      case_bool_decide as Hi; [injection Hi as <-; by rewrite Hn | by rewrite app_nil_r].
    + by rewrite unnamed_app.
    + rewrite bool_decide_eq_false_2 by done. by rewrite fmap_app; cbn; rewrite Hx.
Qed.

Lemma merge_entries_spec base ov : merged base ov (foldl (merge_entry id) base ov).
Proof.
  induction ov as [| x ov IH] using rev_ind.
  { split_and!; [done | by rewrite app_nil_r | done]. }
  destruct IH as (Hw & Hu & Hi). rewrite foldl_app. cbn [foldl].
  destruct (merge_entry_spec (foldl (merge_entry id) base ov) x) as (Hw' & Hu' & Hi'). split_and!.
  - intros i. rewrite Hw', with_id_app. cbn [with_id List.filter]. unfold with_id at 2. cbn [List.filter].
    case_bool_decide; [by rewrite last_snoc |]. by rewrite app_nil_r.
  - by rewrite Hu', Hu, unnamed_app, (assoc_L (++)).
  - by rewrite Hi', Hi, fmap_app, foldl_app.
Qed.

End entries.

(** ** Maps *)
Section maps.
Context {HO : HashOrder}.

Lemma NoDup_entries {A} (m : gmap bytes A) : NoDup (entries m).*1.
Proof. unfold entries. rewrite (hash_order_perm _). apply NoDup_fst_map_to_list. Qed.

Lemma entries_map {A} (m : gmap bytes A) : list_to_map (entries m) = m.
Proof.
  rewrite <- (list_to_map_to_list m) at 2. apply list_to_map_proper; [apply NoDup_entries |].
  apply hash_order_perm.
Qed.

(** The loops over a map that write one key per turn. *)
Lemma fold_insert {A} (f : option A -> A -> A) (base : gmap bytes A) l : NoDup l.*1 ->
  foldl (fun base (e : bytes * A) => <[e.1 := f (base !! e.1) e.2]> base) base l =
  merge (fun b o => match o with Some a => Some (f b a) | None => b end) base (list_to_map l : gmap bytes A).
Proof.
  revert base. induction l as [| [k a] l IH]; intros base Hn; cbn [foldl].
  - apply map_eq. intros i. rewrite lookup_merge. cbn. rewrite lookup_empty. by destruct (base !! i).
  - apply NoDup_cons in Hn as [Hk Hn]. rewrite IH by done. cbn [list_to_map foldr].
    apply map_eq. intros i. rewrite !lookup_merge. cbn [fst snd].
    destruct (decide (i = k)) as [-> | Hi].
    + rewrite !lookup_insert_eq. rewrite (not_elem_of_list_to_map_1 _ _ Hk). cbn. by destruct (base !! k).
    + by rewrite !lookup_insert_ne by done.
Qed.

(** What the merge of two maps holds under a key. *)
Definition merge_kinds (base ov : option KindRules) : option KindRules :=
  match base, ov with
  | Some b, Some o => Some (merge_kind b o)
  | Some r, None | None, Some r => Some r
  | None, None => None
  end.

Lemma merge_shape_map_lookup base ov k :
  merge_shape_map base ov !! k = merge_kinds (base !! k) (ov !! k).
Proof.
  pose proof (fold_insert (fun b o => match b with Some b => merge_kind b o | None => o end)
    base (entries ov) (NoDup_entries ov)) as H. rewrite entries_map in H.
  assert (merge_shape_map base ov = merge (fun b o => match o with
      | Some a => Some (match b with Some b => merge_kind b a | None => a end) | None => b end) base ov)
    as ->.
  { rewrite <- H. unfold merge_shape_map. apply foldl_pointwise. intros m e. by destruct (m !! e.1). }
  rewrite lookup_merge. by destruct (base !! k), (ov !! k).
Qed.

Lemma insert_all_union {A} (base ov : gmap bytes A) : insert_all base ov = ov ∪ base.
Proof.
  pose proof (fold_insert (fun _ o => o) base (entries ov) (NoDup_entries ov)) as H.
  rewrite entries_map in H. unfold insert_all. rewrite H. apply map_eq. intros k.
  rewrite lookup_merge, lookup_union. by destruct (base !! k), (ov !! k).
Qed.

End maps.

(** ** Configurations *)

(** Rules by kind or shape, merged key by key. *)
Definition merged_maps (base ov result : gmap bytes KindRules) : Prop :=
  forall k, result !! k = merge_kinds (base !! k) (ov !! k).

Definition merged_kinds (base ov result : KindRules) : Prop :=
  merged entry_id (rules base) (rules ov) (rules result) /\
  require_doc_comment result = override (require_doc_comment base) (require_doc_comment ov).

Lemma merge_kind_spec base ov : merged_kinds base ov (merge_kind base ov).
Proof.
  unfold merge_kind, merged_kinds.
  destruct (require_doc_comment ov); (split; [apply merge_entries_spec | done]).
Qed.

(** What the merge of [ov] into [base] holds, section by section. *)
Definition merged_config `{T : Toml} (base ov result : Config) : Prop :=
  merged entry_id (refs base) (refs ov) (refs result) /\
  merged group_id (group (workspace base)) (group (workspace ov)) (group (workspace result)) /\
  merged path_id (path (workspace base)) (path (workspace ov)) (path (workspace result)) /\
  merged_kinds (symbol (workspace base)) (symbol (workspace ov)) (symbol (workspace result)) /\
  merged_maps (shape base) (shape ov) (shape result) /\
  merged_maps (kinds (default_lang base)) (kinds (default_lang ov)) (kinds (default_lang result)) /\
  (forall l, merged_maps (lang_shape (for_lang base l)) (lang_shape (for_lang ov l))
               (lang_shape (for_lang result l)) /\
             merged_maps (kinds (for_lang base l)) (kinds (for_lang ov l)) (kinds (for_lang result l))) /\
  (forall b o, merged_kinds b o (merge_kind b o)) /\
  aliases result = aliases ov ∪ aliases base /\ profiles result = profiles ov ∪ profiles base.

(** Merging an overriding configuration into a base one: in every list of
    rules, a rule with an id takes the place of the rule of the base with that id
    (the last one of the override, in the place of the first one of the base),
    rules without id are all kept, and the base keeps its order; kinds and shapes
    are merged key by key, aliases and profiles of the override win; and none of
    this depends on the order in which the maps iterate. *)
Theorem merge_overrides `{T : Toml} {HO : HashOrder} base ov :
  merged_config base ov (merge_into base ov).
Proof.
  unfold merged_config, merged_maps, for_lang. cbn [merge_into refs workspace shape default_lang langs aliases profiles].
  repeat (split; [first [apply merge_entries_spec | apply merge_kind_spec | intros b o; apply merge_kind_spec | intros k;
    apply merge_shape_map_lookup | intros l; split; intros k; apply merge_shape_map_lookup] |]).
  split; apply insert_all_union.
Qed.

(** ** Profiles *)

(** Two rules without id, the first of which a profile disables by the only name
    it has: the rule that is left answers to that name. *)
Definition anonymous (e : string) : RuleEntry :=
  mk_entry None (bs e) Report.Warn None None None.

Lemma disabled_name_survives :
  let left_ := filter_rules (RE:=substring_engine) [anonymous "a"; anonymous "b"] (bs "refs") []
                 [bs "refs.where_0"] in
  left_ = [anonymous "b"] /\
  (fun d : Declaration => d.1.1) <$> collect_rule_list_declarations (bs "refs") left_ = [bs "refs.where_0"].
Proof. by vm_compute. Qed.

End ConfigFacts.

Module CompileFacts.
Import StrFacts Ast Typing ConfigData Aliases AliasFacts Config EvalDet Check.

(** ** What aliases expand to is text *)

Lemma push_char_utf8 b : utf8 (push_char b).
Proof. by destruct b as [[] [] [] [] [] [] [] []]. Qed.

Lemma parens_utf8 x : utf8 x -> utf8 (parens x).
Proof.
  intros Hx. unfold parens. rewrite !from_utf8_app; (done || by vm_compute).
Qed.

Lemma render_all_utf8 value ts out :
  (forall n x, value n = Some x -> utf8 x) -> render_all value ts = Some out -> utf8 out.
Proof.
  intros Hv. revert out. induction ts as [| t ts IH]; intros out.
  { by intros [= <-]. }
  rewrite render_all_cons. intros (x & Hx & (y & Hy & ->)%fmap_Some)%bind_Some.
  assert (utf8 x) as Hu.
  { destruct t as [b | n]; cbn in Hx; [injection Hx as <-; apply push_char_utf8 |].
    apply fmap_Some in Hx as (z & Hz & ->). by eapply parens_utf8, Hv. }
  rewrite from_utf8_app by done. by apply IH.
Qed.

Lemma full_utf8 src d n x : full src d n = Some x -> utf8 x.
Proof.
  revert n x. induction d as [| d IH]; intros n x; [done |]. cbn [full].
  intros (body & _ & Hr)%bind_Some. by eapply render_all_utf8.
Qed.

Lemma resolved_utf8 {HO : HashOrder} src :
  map_Forall (fun _ body => utf8 body) src ->
  post (resolve_aliases src) (fun r => forall n x, r !! n = Some x -> utf8 x).
Proof.
  intros Hs. pose proof (resolve_aliases_outcome src Hs) as H.
  destruct (resolve_aliases src) as [r | | |]; try done. destruct H as [_ H].
  intros n x (d & Hd)%H. by eapply full_utf8.
Qed.

Section compile.
Context {T : Toml} {TS : TreeSitter} {PS : Parsers TS} {HO : HashOrder} {RE : RegexEngine}.
Context (scheme : bytes) (allowed : list bytes) (aliases_ : gmap bytes bytes).
Context (Ha : forall n x, aliases_ !! n = Some x -> utf8 x).

(** A compiled rule is the parse of its expansion, and its tree is well typed. *)
Definition well_compiled (c : CompiledRule) : Prop :=
  DslParse.parse (expanded_expr c) scheme allowed = Ok (rule_root c) /\
  node_wf allowed false (rule_root c) = true.

Definition texts (l : list RuleEntry) : Prop := Forall (fun e => utf8 (entry_expr e)) l.

Lemma compile_entry_post e i at_ : utf8 (entry_expr e) ->
  post (compile_rule_entry e i at_ scheme allowed aliases_) well_compiled.
Proof.
  intros He. unfold compile_rule_entry. rewrite substitute_tokens by done.
  destruct (render_all _ _) as [x |] eqn:Hx; [| done]. rewrite ret_bind.
  assert (utf8 x) as Hu by (eapply render_all_utf8; [exact Ha | exact Hx]).
  pose proof (DslFacts.rule_parse_post allowed x scheme Hu) as Hp.
  destruct (DslParse.parse x scheme allowed) as [n | | |] eqn:Hn; cbn [map_err]; try done.
  rewrite ret_bind. unfold compile_ast_analysis, ast_kind_names.
  destruct (unsupported _); cbn [map_err]; [done |]. rewrite ret_bind. by split.
Qed.

Lemma compile_entries_post prefix l : texts l ->
  post (compile_entries prefix scheme allowed aliases_ l) (Forall well_compiled).
Proof.
  intros Hl. unfold compile_entries. eapply (post_map _ (fun e => utf8 (entry_expr e.2))).
  - apply Forall_forall. intros [i e] Hin. apply elem_of_lookup_imap in Hin as (j & e' & [= -> ->] & Hj).
    unfold texts in Hl. rewrite Forall_forall in Hl. by eapply Hl, list_elem_of_lookup_2.
  - intros [i e] He. by apply compile_entry_post.
Qed.

Definition kind_compiled (r : CompiledKindRules) : Prop := Forall well_compiled (kind_rules r).

Lemma compile_post r section k : texts (rules r) ->
  post (compile r section k scheme allowed aliases_) kind_compiled.
Proof.
  intros Hr. unfold compile. eapply post_bind; [by apply compile_entries_post |]. by intros c Hc.
Qed.

(** ** The loops over the kinds *)

Definition map_texts (m : gmap bytes KindRules) : Prop := map_Forall (fun _ r => texts (rules r)) m.

Lemma entries_texts m x : map_texts m -> x ∈ entries m -> texts (rules x.2).
Proof.
  intros Hm Hx. unfold entries in Hx. rewrite (hash_order_perm _) in Hx. destruct x as [k r].
  apply elem_of_map_to_list in Hx. by eapply (Hm k).
Qed.

Lemma entries_keys {A} (m : gmap bytes A) k : k ∈ (entries m).*1 <-> k ∈ dom m.
Proof.
  unfold entries. rewrite (hash_order_perm _), list_elem_of_fmap, elem_of_dom. split.
  - intros ([? v] & -> & H%elem_of_map_to_list). by exists v.
  - intros [v Hv]. exists (k, v). split; [done |]. by apply elem_of_map_to_list.
Qed.

Definition all_compiled (m : gmap bytes CompiledKindRules) : Prop :=
  map_Forall (fun _ r => kind_compiled r) m.

(** The kinds seen so far, but for the rules on references. *)
Definition covers (base : gset bytes) (seen : list bytes) (m : gmap bytes CompiledKindRules) : Prop :=
  forall k, k ∈ dom m <-> k ∈ base \/ (k ∈ seen /\ k <> bs "refs").

Lemma insert_compiled m k c : all_compiled m -> kind_compiled c -> all_compiled (<[k := c]> m).
Proof. intros Hm Hc. by apply map_Forall_insert_2. Qed.

Lemma lang_kinds_post section m : map_texts m ->
  post (fold_res (compile_lang_kind section scheme allowed aliases_) (∅, []) (entries m))
    (fun acc => all_compiled acc.1 /\ texts acc.2 /\
       forall k, k ∈ dom acc.1 <-> k ∈ dom m /\ k <> bs "refs").
Proof.
  intros Hm. eapply post_mono; [apply (fold_res_post (fun acc rest => all_compiled acc.1 /\ texts acc.2 /\
    exists seen, entries m = seen ++ rest /\ covers ∅ seen.*1 acc.1)) |].
  - split_and!; [apply map_Forall_empty | constructor |]. exists []. split; [done |].
    intros k. cbn [fst]. rewrite dom_empty, elem_of_empty. pose proof (not_elem_of_nil k). cbn. tauto.
  - intros [bk rs] [k r] rest (Hc & Hrs & seen & Hs & Hcov).
    assert (texts (rules r)) as Hr.
    { apply (entries_texts m (k, r) Hm). rewrite Hs. apply elem_of_app. right. by left. }
    assert (forall bk', covers ∅ (seen ++ [(k, r)]).*1 bk' <->
      (forall j, j ∈ dom bk' <-> (j ∈ seen.*1 \/ j = k) /\ j <> bs "refs")) as Hcv.
    { intros bk'. unfold covers. setoid_rewrite fmap_app. setoid_rewrite elem_of_app.
      setoid_rewrite list_elem_of_singleton. setoid_rewrite elem_of_empty. cbn. split; intros H j; rewrite H; tauto. }
    unfold compile_lang_kind. destruct (beq k (bs "refs")) eqn:Hk; cbn [fst snd] in *; rewrite Hk.
    + apply beq_true in Hk. split_and!; [done | by apply Forall_app |]. exists (seen ++ [(k, r)]).
      split; [by rewrite <- (assoc_L (++)) |]. apply Hcv. intros j. rewrite (Hcov j), elem_of_empty. subst k. tauto.
    + apply beq_false in Hk. eapply post_bind; [by apply compile_post |]. intros c Hcc.
      cbn. split_and!; [by apply insert_compiled | done |]. exists (seen ++ [(k, r)]).
      split; [by rewrite <- (assoc_L (++)) |]. apply Hcv. intros j.
      rewrite dom_insert, elem_of_union, elem_of_singleton, (Hcov j), elem_of_empty.
      destruct (decide (j = k)) as [-> |]; tauto.
  - intros [bk rs] (Hc & Hrs & seen & Hs & Hcov). split_and!; [done | done |]. intros k. cbn [fst].
    rewrite (Hcov k), elem_of_empty, <- entries_keys, Hs, app_nil_r. tauto.
Qed.

Lemma default_kinds_post by_kind m : map_texts m -> all_compiled by_kind ->
  post (fold_res (compile_default_kind scheme allowed aliases_) by_kind (entries m))
    (fun bk => all_compiled bk /\
       forall k, k ∈ dom bk <-> k ∈ dom by_kind \/ (k ∈ dom m /\ mem k allowed = true /\ k <> bs "refs")).
Proof.
  intros Hm Hbk. eapply post_mono; [apply (fold_res_post (fun bk rest => all_compiled bk /\
    exists seen, entries m = seen ++ rest /\ forall k, k ∈ dom bk <->
      k ∈ dom by_kind \/ (k ∈ seen.*1 /\ mem k allowed = true /\ k <> bs "refs"))) |].
  - split; [done |]. exists []. split; [done |]. intros k. pose proof (not_elem_of_nil k). cbn. tauto.
  - intros bk [k r] rest (Hc & seen & Hs & Hcov).
    assert (texts (rules r)) as Hr.
    { apply (entries_texts m (k, r) Hm). rewrite Hs. apply elem_of_app. right. by left. }
    assert (forall bk', all_compiled bk' ->
      (forall j, j ∈ dom bk' <-> j ∈ dom bk \/ (j = k /\ mem k allowed = true /\ k <> bs "refs")) ->
      all_compiled bk' /\ exists seen, entries m = seen ++ rest /\ forall j, j ∈ dom bk' <->
        j ∈ dom by_kind \/ (j ∈ seen.*1 /\ mem j allowed = true /\ j <> bs "refs")) as Hnext.
    { intros bk' Hc' Hd. split; [done |]. exists (seen ++ [(k, r)]). split; [by rewrite <- (assoc_L (++)) |].
      intros j. rewrite Hd, Hcov, fmap_app, elem_of_app. cbn. rewrite list_elem_of_singleton.
      destruct (decide (j = k)) as [-> |]; tauto. }
    unfold compile_default_kind. cbn [fst snd]. destruct (beq k (bs "refs")) eqn:Hk.
    { apply beq_true in Hk. apply Hnext; [done |]. intros j. tauto. }
    apply beq_false in Hk. destruct (mem k allowed) eqn:Hal; cbn [negb].
    2: { apply Hnext; [done |]. intros j. split; [by left | intros [? | (_ & ? & _)]; done]. }
    destruct (bk !! k) eqn:Hbkk.
    + apply Hnext; [done |]. intros j. split; [by left |]. intros [? | (-> & _)]; [done |].
      by apply elem_of_dom_2 in Hbkk.
    + eapply post_bind; [by apply compile_post |]. intros c Hcc. apply Hnext; [by apply insert_compiled |].
      intros j. rewrite dom_insert, elem_of_union, elem_of_singleton. tauto.
  - intros bk (Hc & seen & Hs & Hcov). split; [done |]. intros k.
    by rewrite Hcov, <- (entries_keys m), Hs, app_nil_r.
Qed.

Lemma merge_compiled base ov : kind_compiled base -> kind_compiled ov ->
  kind_compiled (merge_compiled_kind_rules base ov).
Proof.
  intros Hb Ho. unfold merge_compiled_kind_rules, kind_compiled in *.
  assert (Forall well_compiled (foldl merge_compiled_rule (kind_rules base) (kind_rules ov))) as H.
  { revert Hb. generalize (kind_rules base). induction Ho as [| c l Hc Hl IH]; intros b Hb; [done |].
    cbn [foldl]. apply IH. unfold merge_compiled_rule.
    destruct (if explicit_id c then _ else _); [by apply Forall_insert | apply Forall_app_2; [done | by apply Forall_singleton]]. }
  by destruct (require_doc_for_vis ov).
Qed.

Lemma shapes_post dst m section : map_texts m -> all_compiled dst ->
  post (compile_shape_rules_into dst m section scheme allowed aliases_)
    (fun d => all_compiled d).
Proof.
  intros Hm Hd. unfold compile_shape_rules_into.
  eapply post_mono; [apply (fold_res_post (fun d rest => all_compiled d /\
    forall x, x ∈ rest -> texts (rules x.2))) |].
  - split; [done |]. intros x. by apply entries_texts.
  - intros d [k r] rest (Hc & Hr). eapply post_bind; [apply compile_post; apply (Hr (k, r)); by left |].
    intros c Hcc. cbn [fst snd]. split; [| intros x Hx; apply Hr; by right].
    destruct (d !! k) as [ex |] eqn:Hk; apply insert_compiled; try done.
    apply merge_compiled; [by apply (Hc k) | done].
  - by intros d [Hc _].
Qed.

End compile.

(** ** Configurations *)
Section config.
Context {T : Toml} {TS : TreeSitter} {PS : Parsers TS} {HO : HashOrder} {RE : RegexEngine}.

(** The strings of a configuration are texts, as [String]s are. *)
Definition config_texts (cfg : Config) (lang : Lang.t) : Prop :=
  map_Forall (fun _ body => utf8 body) (ConfigData.aliases cfg) /\
  texts (ConfigData.refs cfg) /\ map_texts (shape cfg) /\ map_texts (kinds (default_lang cfg)) /\
  map_texts (kinds (for_lang cfg lang)) /\ map_texts (lang_shape (for_lang cfg lang)).

(** The kinds with rules: those of the language, and the default ones that the
    language allows. *)
Definition has_rules (cfg : Config) (lang : Lang.t) (k : bytes) : Prop :=
  (k ∈ dom (kinds (for_lang cfg lang)) \/
   k ∈ dom (kinds (default_lang cfg)) /\ mem k (allowed_kinds_for lang) = true) /\
  k <> bs "refs".

(** The compiled rules are the parses of their expansions, are well typed for
    the kinds of the language, and cover the kinds of the configuration. *)
Definition compiled_for (cfg : Config) (lang : Lang.t) (scheme : bytes) (c : CompiledRules) : Prop :=
  let ok := well_compiled scheme (allowed_kinds_for lang) in
  map_Forall (fun _ r => Forall ok (kind_rules r)) (by_kind c) /\
  map_Forall (fun _ r => Forall ok (kind_rules r)) (by_shape c) /\
  Forall ok (compiled_refs c) /\ forall k, k ∈ dom (by_kind c) <-> has_rules cfg lang k.

Lemma validate_ast_post c lang : post (validate_ast_kind_names c lang) (fun _ => True).
Proof.
  unfold validate_ast_kind_names. destruct (List.find _ _); [done |].
  eapply post_mono; [apply (for_each_post _ (fun _ => True)) | done].
  intros rule _. by destruct (rule_ast_kinds rule ≫= _).
Qed.

(** C21: compiling the rules of a configuration never panics and always ends, on
    every text of rules and aliases; when it yields rules, each is the parse of
    its expansion and is well typed for the kinds of the language, and the kinds
    that have rules are those of the language's section and the default ones that
    the language knows, whatever the order in which the maps iterate. *)
Theorem compiled_rules_well_typed cfg lang scheme :
  config_texts cfg lang ->
  post (compile_rules cfg lang scheme) (compiled_for cfg lang scheme).
Proof.
  intros (Hal & Hrefs & Hshape & Hdef & Hlang & Hlshape). unfold compile_rules, compile_rules_for_lang.
  eapply post_bind; [by apply resolved_utf8 |]. intros al Ha.
  eapply post_bind; [by apply (lang_kinds_post _ _ _ Ha) |]. intros [bk rs] (Hbk & Hrs & Hdom).
  eapply post_bind; [by apply (default_kinds_post _ _ _ Ha) |]. intros bk' (Hbk' & Hdom').
  eapply post_bind; [apply (shapes_post _ _ _ Ha); [done | apply map_Forall_empty] |]. intros s1 Hs1.
  eapply post_bind; [by apply (shapes_post _ _ _ Ha) |]. intros s2 Hs2.
  eapply post_bind; [by apply (compile_entries_post _ _ _ Ha) |]. intros r1 Hr1.
  eapply post_bind; [by apply (compile_entries_post _ _ _ Ha) |]. intros r2 Hr2.
  cbv zeta. eapply post_bind; [apply validate_ast_post |]. intros _ _.
  split_and!; [done | done | by apply Forall_app |]. intros k. cbn [by_kind].
  rewrite (Hdom' k), (Hdom k). unfold has_rules. tauto.
Qed.

End config.

#[local] Existing Instances Sample.plain_order Sample.chain_parsers.

(** A parser of TOML without values. *)
#[local] Instance void_toml : Toml :=
  {| TomlValue := (); TomlTable := (); as_table _ := None; table_get _ _ := None; toml_str _ := None;
     as_array _ := None |}.

Definition entry (i text : string) : RuleEntry := mk_entry (Some (bs i)) (bs text) Report.Warn None None None.

Definition class_rules : KindRules := mk_kind_rules [entry "methods" "$few"] None None.

(** A configuration with an alias, a rule for the default kind [class] and one
    on references. *)
Definition ex_config : Config :=
  mk_config None None None {[ bs "few" := bs "count(method) <= 3" ]} [] [entry "calls" "kind = 'calls'"]
    (workspace empty_config) ∅ (mk_lang_rules ∅ {[ bs "class" := class_rules ]})
    (fun _ => empty_lang_rules) ∅ [] [] ∅.

Lemma ex_config_texts lang : config_texts ex_config lang.
Proof.
  unfold config_texts, ex_config, for_lang, empty_lang_rules, map_texts.
  cbn [ConfigData.aliases ConfigData.refs shape default_lang langs kinds lang_shape].
  split_and!; try apply map_Forall_empty.
  - by apply map_Forall_singleton.
  - by apply Forall_singleton.
  - apply map_Forall_singleton. by apply Forall_singleton.
Qed.

Lemma compiled_rules_well_typed_witness :
  exists c, compile_rules ex_config Lang.Ts (bs "code+moniker://") = Ok c /\
    compiled_for ex_config Lang.Ts (bs "code+moniker://") c.
Proof.
  pose proof (compiled_rules_well_typed ex_config Lang.Ts (bs "code+moniker://")
    (ex_config_texts Lang.Ts)) as H.
  assert (exists c, compile_rules ex_config Lang.Ts (bs "code+moniker://") = Ok c) as [c Hc]
    by (eexists; vm_compute; reflexivity).
  exists c. split; [exact Hc |]. rewrite Hc in H. exact H.
Defined.

End CompileFacts.
