(* ===== verification/Snapshot.v ===== *)
(** Record tables (src/crates/workspace/src/snapshot/records.rs): one shard per
    file slot, read by position through the table of offsets, and the theorem
    that a position reads the concatenation of the shards.

    The data of a workspace snapshot (src/crates/workspace/src/snapshot/model.rs):
    the identifiers of sources, symbols and references with their textual form,
    the records of the code index, and the outcome linkage gives each reference.
    Measured durations are left out: nothing branches on them.

    Facts on the identifiers of a snapshot: decimal numbers parse back, so the
    textual form of an identifier names it. *)

From S2P Require Import Prelude.
From S2P Require Import RustStr.
From S2P Require Import StrFacts.
From S2P Require Import Suppress.

Module Records.
Import Lines.

Record RecordTable (T : Type) : Type := mk_table {
  shards : list (list T);
  offsets : list nat
}.
Arguments mk_table {T} shards offsets.
Arguments shards {T} r.
Arguments offsets {T} r.

Section table.
Context {T : Type}.
Implicit Type t : RecordTable T.

(** The loop of [rebuild_offsets]: every total from [total] on. *)
Fixpoint totals (total : nat) (shards : list (list T)) : list nat :=
  match shards with
  | [] => [total]
  | shard :: rest => total :: totals (total + length shard) rest
  end.

Definition rebuild_offsets t : RecordTable T :=
  {| shards := shards t; offsets := totals 0 (shards t) |}.

Definition from_shards (s : list (list T)) : RecordTable T :=
  rebuild_offsets {| shards := s; offsets := [] |}.

Definition from_records (records : list T) : RecordTable T := from_shards [records].

Definition len t : nat := default 0 (last (offsets t)).

Definition is_empty t : bool := len t =? 0.

(** [partition_point] - 1, the shard and the offset are Rust's checked
    operations: out of range they panic. *)
Definition get_record {E} t (i : nat) : res E (option T) :=
  if len t <=? i then mret None
  else
    let point := partition_point (fun offset => offset <=? i) (offsets t) in
    match point with
    | O => Panic
    | S slot =>
        match shards t !! slot, offsets t !! slot with
        | Some shard, Some offset =>
            if offset <=? i then mret (shard !! (i - offset)) else Panic
        | _, _ => Panic
        end
    end.

(** [Index::index] *)
Definition index_record {E} t (i : nat) : res E T :=
  o ← get_record t i; match o with Some r => mret r | None => Panic end.

Definition iter t : list T := concat (shards t).

Definition file_records t (slot : nat) : list T := default [] (shards t !! slot).

Definition replace_shard t (slot : nat) (records : list T) : RecordTable T :=
  rebuild_offsets
    (if slot <? length (shards t) then
       {| shards := <[slot := records]> (shards t); offsets := offsets t |}
     else if slot =? length (shards t) then
       {| shards := shards t ++ [records]; offsets := offsets t |}
     else t).

(** [PartialEq]: shard boundaries do not count. *)
Definition table_eqb `{EqDecision T} (a b : RecordTable T) : bool :=
  (len a =? len b) && bool_decide (iter a = iter b).

(** ** Tables whose offsets are in step *)

Definition table_wf t : Prop := offsets t = totals 0 (shards t).

Lemma from_shards_wf s : table_wf (from_shards s).
Proof. done. Qed.

Lemma replace_wf t slot records : table_wf (replace_shard t slot records).
Proof. unfold table_wf, replace_shard, rebuild_offsets. done. Qed.

Lemma length_totals n s : length (totals n s) = S (length s).
Proof. revert n. induction s as [| x s IH]; intros n; cbn; [done |]. by rewrite IH. Qed.

(** The [i]-th total is the length of the shards before it. *)
Lemma nth_totals s : forall n i, i <= length s ->
  totals n s !! i = Some (n + length (concat (take i s))).
Proof.
  induction s as [| x s IH]; intros n i Hi; cbn [totals].
  - destruct i; cbn in *; [f_equal; lia | lia].
  - destruct i as [| i]; cbn [lookup list_lookup take concat]; [cbn; f_equal; lia |].
    cbn in Hi. rewrite IH by lia. rewrite length_app. f_equal. lia.
Qed.

Lemma last_totals n s : last (totals n s) = Some (n + length (concat s)).
Proof.
  rewrite last_lookup, length_totals. cbn [Nat.pred].
  by rewrite nth_totals, take_ge by lia.
Qed.

Lemma len_concat t : table_wf t -> len t = length (iter t).
Proof. unfold table_wf, len, iter. intros ->. by rewrite last_totals. Qed.

Lemma concat_take_le (s : list (list T)) i j :
  i <= j -> length (concat (take i s)) <= length (concat (take j s)).
Proof.
  intros Hij. replace j with (i + (j - i)) by lia. rewrite <- take_take_drop.
  rewrite concat_app, length_app. lia.
Qed.

(** The shard that holds a position. *)
Lemma find_shard (s : list (list T)) i :
  i < length (concat s) ->
  exists slot shard, s !! slot = Some shard /\
    length (concat (take slot s)) <= i < length (concat (take (S slot) s)) /\
    concat s !! i = shard !! (i - length (concat (take slot s))).
Proof.
  revert i. induction s as [| x s IH]; intros i Hi; cbn in Hi; [lia |].
  rewrite length_app in Hi. destruct (decide (i < length x)) as [Hx | Hx].
  - exists 0, x. cbn. rewrite app_nil_r, Nat.sub_0_r. split_and!; [done | lia | lia |].
    by rewrite lookup_app_l.
  - destruct (IH (i - length x)) as (slot & shard & Hs & [Hlo Hhi] & Hl); [lia |].
    exists (S slot), shard. cbn [take concat] in *. rewrite !length_app in *.
    split_and!; [done | lia | lia |]. cbn [concat]. rewrite lookup_app_r by lia.
    rewrite Hl. f_equal. lia.
Qed.

Lemma get_record_spec {E} t i : table_wf t -> get_record (E:=E) t i = Ok (iter t !! i).
Proof.
  intros Hwf. unfold get_record. rewrite (len_concat _ Hwf). unfold iter, table_wf in *.
  destruct (_ <=? i) eqn:Hi; [apply Nat.leb_le in Hi | apply Nat.leb_gt in Hi].
  { by rewrite lookup_ge_None_2. }
  destruct (find_shard _ _ Hi) as (slot & shard & Hs & [Hlo Hhi] & Hl).
  assert (slot < length (shards t)) as Hlt by by eapply lookup_lt_Some.
  assert (partition_point (fun offset => offset <=? i) (offsets t) = S slot) as ->.
  { apply partition_point_spec. rewrite Hwf. split; [rewrite length_totals; lia |].
    intros j Hj. rewrite length_totals in Hj.
    rewrite (nth_lookup_Some _ _ _ _ (nth_totals (shards t) 0 j ltac:(lia))). cbn [Nat.add].
    destruct (j <? S slot) eqn:Hc.
    - apply Nat.ltb_lt in Hc. apply Nat.leb_le. etrans; [apply (concat_take_le _ j slot); lia | done].
    - apply Nat.ltb_ge in Hc. apply Nat.leb_gt. eapply Nat.lt_le_trans; [exact Hhi |].
      apply concat_take_le. lia. }
  rewrite Hs, Hwf, nth_totals by lia. cbn [Nat.add].
  rewrite (proj2 (Nat.leb_le _ _) Hlo). by rewrite Hl.
Qed.

Lemma file_records_replace t slot records j :
  slot <= length (shards t) ->
  file_records (replace_shard t slot records) j = if decide (j = slot) then records else file_records t j.
Proof.
  intros Hs. unfold file_records, replace_shard. cbn [rebuild_offsets shards].
  destruct (slot <? length (shards t)) eqn:Hlt; bool_inv; cbn [shards].
  - destruct (decide (j = slot)) as [-> |].
    + by rewrite list_lookup_insert_eq.
    + by rewrite list_lookup_insert_ne.
  - assert (slot = length (shards t)) as -> by lia. rewrite Nat.eqb_refl. cbn [shards].
    destruct (decide (j = _)) as [-> | Hne].
    + by rewrite lookup_app_r, Nat.sub_diag by lia.
    + destruct (decide (j < length (shards t))).
      * by rewrite lookup_app_l.
      * rewrite !lookup_ge_None_2; [done | lia |]. rewrite length_app. cbn. lia.
Qed.

Lemma elem_of_iter t x : x ∈ iter t <-> exists slot, x ∈ file_records t slot.
Proof.
  unfold iter, file_records. rewrite list_elem_of_In, in_concat. setoid_rewrite <- list_elem_of_In. split.
  - intros (shard & [slot Hs]%list_elem_of_lookup_1 & Hx). exists slot. by rewrite Hs.
  - intros [slot Hx]. destruct (shards t !! slot) as [shard |] eqn:Hs; [| by apply not_elem_of_nil in Hx].
    exists shard. split; [| done]. by eapply list_elem_of_lookup_2.
Qed.
End table.
End Records.

Module Snapshot.
Export Records.

Definition ResourceGeneration : Set := N.

(** ** Identifiers *)

Record SourceId : Set := mk_source_id { source_file : N }.

Record SymbolId : Set := mk_symbol_id { symbol_file : N; symbol_def : N }.

Record ReferenceId : Set := mk_reference_id { ref_file : N; ref_reference : N }.

#[global] Instance source_id_eq : EqDecision SourceId.
Proof. solve_decision. Defined.
#[global] Instance symbol_id_eq : EqDecision SymbolId.
Proof. solve_decision. Defined.
#[global] Instance reference_id_eq : EqDecision ReferenceId.
Proof. solve_decision. Defined.
#[global] Program Instance source_id_countable : Countable SourceId :=
  inj_countable' source_file mk_source_id _.
Next Obligation. by intros []. Qed.
#[global] Program Instance symbol_id_countable : Countable SymbolId :=
  inj_countable' (fun i => (symbol_file i, symbol_def i)) (fun p => mk_symbol_id p.1 p.2) _.
Next Obligation. by intros []. Qed.
#[global] Program Instance reference_id_countable : Countable ReferenceId :=
  inj_countable' (fun i => (ref_file i, ref_reference i)) (fun p => mk_reference_id p.1 p.2) _.
Next Obligation. by intros []. Qed.

Definition source_at (file : nat) : SourceId := {| source_file := Lines.as_u32 file |}.

Definition symbol_at (file def : nat) : SymbolId :=
  {| symbol_file := Lines.as_u32 file; symbol_def := Lines.as_u32 def |}.

Definition reference_at (file reference : nat) : ReferenceId :=
  {| ref_file := Lines.as_u32 file; ref_reference := Lines.as_u32 reference |}.

Definition id_file (i : SymbolId) : nat := N.to_nat (symbol_file i).
Definition id_def (i : SymbolId) : nat := N.to_nat (symbol_def i).

(** [.parse::<u32>().ok()] *)
Definition parse_ok (s : bytes) : option N :=
  match parse_u32 s with Ok n => Some n | _ => None end.

Definition source_id_parse (value : bytes) : option SourceId :=
  rest ← strip_prefix (bs "source:") value;
  file ← head (split_on ":"%char rest);
  file ← parse_ok file;
  Some {| source_file := file |}.

Definition symbol_id_parse (value : bytes) : option SymbolId :=
  rest ← strip_prefix (bs "symbol:") value;
  '(file, def) ← split_once ":"%char rest;
  file ← parse_ok file;
  def ← parse_ok def;
  Some {| symbol_file := file; symbol_def := def |}.

Definition reference_id_parse (value : bytes) : option ReferenceId :=
  rest ← strip_prefix (bs "reference:") value;
  '(file, reference) ← split_once ":"%char rest;
  file ← parse_ok file;
  reference ← parse_ok reference;
  Some {| ref_file := file; ref_reference := reference |}.

Definition source_id_display (i : SourceId) : bytes := bs "source:" ++ show_N (source_file i).

Definition symbol_id_display (i : SymbolId) : bytes :=
  bs "symbol:" ++ show_N (symbol_file i) ++ bs ":" ++ show_N (symbol_def i).

Definition reference_id_display (i : ReferenceId) : bytes :=
  bs "reference:" ++ show_N (ref_file i) ++ bs ":" ++ show_N (ref_reference i).

(** The derived [Ord] of [ReferenceId]. *)
Definition reference_id_compare (a b : ReferenceId) : comparison :=
  match (ref_file a ?= ref_file b)%N with
  | Eq => (ref_reference a ?= ref_reference b)%N
  | c => c
  end.

(** ** Records *)

Record SymbolRecord : Set := mk_symbol {
  byte_range : option (N * N);
  s_id : SymbolId;
  s_source : SourceId;
  identity : bytes;
  s_name : bytes;
  s_kind : bytes;
  visibility : bytes;
  signature : bytes;
  s_call_name : option bytes;
  s_call_arity : option nat;
  navigable : bool;
  s_line_range : option (N * N);
  parent : option SymbolId
}.

Definition symbol_new (id : SymbolId) (source : SourceId) (name kind : bytes) : SymbolRecord := {|
  byte_range := None; s_id := id; s_source := source; identity := symbol_id_display id;
  s_name := name; s_kind := kind; visibility := []; signature := []; s_call_name := None;
  s_call_arity := None; navigable := true; s_line_range := None; parent := None
|}.

Record ReferenceRecord : Set := mk_reference {
  r_id : ReferenceId;
  r_source : SourceId;
  source_symbol : SymbolId;
  target_identity : bytes;
  r_kind : bytes;
  r_call_name : option bytes;
  r_call_arity : option nat;
  r_confidence : option bytes;
  r_receiver : option bytes;
  r_alias : option bytes;
  r_line_range : option (N * N)
}.

Definition reference_new (id : ReferenceId) (source : SourceId) (source_symbol : SymbolId)
    (target_identity kind : bytes) (line_range : option (N * N)) : ReferenceRecord := {|
  r_id := id; r_source := source; source_symbol := source_symbol;
  target_identity := target_identity; r_kind := kind; r_call_name := None; r_call_arity := None;
  r_confidence := None; r_receiver := None; r_alias := None; r_line_range := line_range
|}.

Definition with_call_metadata (call_name : option bytes) (call_arity : option nat)
    (r : ReferenceRecord) : ReferenceRecord :=
  mk_reference (r_id r) (r_source r) (source_symbol r) (target_identity r) (r_kind r)
    call_name call_arity (r_confidence r) (r_receiver r) (r_alias r) (r_line_range r).

Definition with_metadata (confidence receiver alias : option bytes) (r : ReferenceRecord)
    : ReferenceRecord :=
  mk_reference (r_id r) (r_source r) (source_symbol r) (target_identity r) (r_kind r)
    (r_call_name r) (r_call_arity r) confidence receiver alias (r_line_range r).

#[global] Instance symbol_record_eq : EqDecision SymbolRecord.
Proof. solve_decision. Defined.
#[global] Instance reference_record_eq : EqDecision ReferenceRecord.
Proof. solve_decision. Defined.

Record SourceFileRecord : Set := mk_source_file {
  f_id : SourceId;
  uri : bytes;
  source_root : nat;
  f_path : bytes;
  rel_path : bytes;
  anchor : bytes;
  f_language : bytes;
  text : bytes
}.

(** [RecordTable<ReferenceRecord>::reference]: by position, or by search. *)
Definition find_reference (t : RecordTable ReferenceRecord) (id : ReferenceId)
    : option ReferenceRecord :=
  let record := file_records t (N.to_nat (ref_file id)) !! N.to_nat (ref_reference id) in
  match record with
  | Some r => if bool_decide (r_id r = id) then Some r
              else List.find (fun r => bool_decide (r_id r = id)) (iter t)
  | None => List.find (fun r => bool_decide (r_id r = id)) (iter t)
  end.

(** ** Linkage outcomes *)

Inductive ResolutionEvidence : Set :=
| ExactBinding | LocalBinding | GlobalBinding | TypeConstraint | Mro | Injected | NameMatch.

Definition evidence_as_str (e : ResolutionEvidence) : bytes :=
  match e with
  | ExactBinding => bs "exact_binding"
  | LocalBinding => bs "local_binding"
  | GlobalBinding => bs "global_binding"
  | TypeConstraint => bs "type_constraint"
  | Mro => bs "mro"
  | Injected => bs "injected"
  | NameMatch => bs "name_match"
  end.

Definition evidence_rank (e : ResolutionEvidence) : N :=
  match e with
  | ExactBinding => 100
  | LocalBinding | TypeConstraint => 90
  | Mro => 85
  | GlobalBinding | Injected => 80
  | NameMatch => 10
  end.

Record LinkageEdge : Set := mk_edge {
  e_reference : ReferenceId;
  e_target : SymbolId;
  e_evidence : ResolutionEvidence
}.

Definition edge_new (reference : ReferenceId) (target : SymbolId) : LinkageEdge :=
  mk_edge reference target ExactBinding.

Inductive CandidateReason : Set := WeakNameMatch | MultipleTargets | AmbiguousLookup.

Definition candidate_reason_as_str (r : CandidateReason) : bytes :=
  match r with
  | WeakNameMatch => bs "weak_name_match"
  | MultipleTargets => bs "multiple_targets"
  | AmbiguousLookup => bs "ambiguous_lookup"
  end.

Inductive CandidateScope : Set := ScopeLocal | ScopeGlobal | ScopeBuiltin | ScopeInjected | ScopeUnknown.

Definition candidate_scope_as_str (s : CandidateScope) : bytes :=
  match s with
  | ScopeLocal => bs "local"
  | ScopeGlobal => bs "global"
  | ScopeBuiltin => bs "builtin"
  | ScopeInjected => bs "injected"
  | ScopeUnknown => bs "unknown"
  end.

Record CandidateReference : Set := mk_candidate {
  c_reference : ReferenceId;
  c_targets : list SymbolId;
  c_reason : CandidateReason;
  c_scope : CandidateScope;
  c_evidence : ResolutionEvidence
}.

Inductive DynamicReason : Set :=
| ConditionalCompilation | DynamicAttribute | DescriptorOrFrameworkInjected
| DuckTypedCandidateSet | MixinContract | ExternalDependencyUnindexed | RuntimeImport
| RuntimeMutation | PreprocessorExpansion | InsufficientLocalFacts.

Definition dynamic_reason_as_str (r : DynamicReason) : bytes :=
  match r with
  | ConditionalCompilation => bs "conditional_compilation"
  | DynamicAttribute => bs "dynamic_attribute"
  | DescriptorOrFrameworkInjected => bs "descriptor_or_framework_injected"
  | DuckTypedCandidateSet => bs "duck_typed_candidate_set"
  | MixinContract => bs "mixin_contract"
  | ExternalDependencyUnindexed => bs "external_dependency_unindexed"
  | RuntimeImport => bs "runtime_import"
  | RuntimeMutation => bs "runtime_mutation"
  | PreprocessorExpansion => bs "preprocessor_expansion"
  | InsufficientLocalFacts => bs "insufficient_local_facts"
  end.

Record DynamicReference : Set := mk_dynamic {
  d_reference : ReferenceId;
  d_target_identity : bytes;
  d_reason : DynamicReason;
  d_candidates : list SymbolId
}.

Inductive ExternalReferenceOrigin : Set := OriginSdk | OriginDependency | OriginInjected | UnknownExternal.

Definition external_origin_label (o : ExternalReferenceOrigin) : bytes :=
  match o with
  | OriginSdk => bs "sdk"
  | OriginDependency => bs "dependency"
  | OriginInjected => bs "injected"
  | UnknownExternal => bs "unknown_external"
  end.

Record ExternalReference : Set := mk_external {
  x_reference : ReferenceId;
  x_target_identity : bytes;
  x_origin : ExternalReferenceOrigin
}.

Inductive UnresolvedReason : Set :=
| ManifestBlocked | Visibility | LanguageBoundary | MissingQuery | NoCandidate | Ambiguous
| UnsupportedLanguageRule | IncompleteExtractorMetadata.

#[global] Instance unresolved_reason_eq : EqDecision UnresolvedReason.
Proof. solve_decision. Defined.

Definition unresolved_reason_as_str (r : UnresolvedReason) : bytes :=
  match r with
  | ManifestBlocked => bs "manifest_blocked"
  | Visibility => bs "visibility"
  | LanguageBoundary => bs "language_boundary"
  | MissingQuery => bs "missing_query"
  | NoCandidate => bs "no_candidate"
  | Ambiguous => bs "ambiguous"
  | UnsupportedLanguageRule => bs "unsupported_language_rule"
  | IncompleteExtractorMetadata => bs "incomplete_extractor_metadata"
  end.

Record UnresolvedReference : Set := mk_unresolved {
  u_reference : ReferenceId;
  u_target_identity : bytes;
  u_reason : UnresolvedReason
}.

(** [LinkageSnapshot], less its [read_index], which LinkIndex.v derives from it. *)
Record LinkageSnapshot : Set := mk_linkage {
  l_generation : ResourceGeneration;
  index_generation : ResourceGeneration;
  resolved_refs : nat;
  candidate_refs : nat;
  external_refs : nat;
  dynamic_refs : nat;
  blocked_refs : nat;
  manifest_blocked_refs : nat;
  unresolved_refs : nat;
  ambiguous_refs : nat;
  resolved : list LinkageEdge;
  candidates : list CandidateReference;
  external : list ExternalReference;
  dynamic : list DynamicReference;
  blocked : list UnresolvedReference;
  manifest_blocked : list UnresolvedReference;
  unresolved : list UnresolvedReference
}.

Definition linkage_with_refs (generation index_generation : ResourceGeneration)
    (resolved : list LinkageEdge) (unresolved : list UnresolvedReference) : LinkageSnapshot :=
  mk_linkage generation index_generation (length resolved) 0 0 0 0 0 (length unresolved) 0
    resolved [] [] [] [] [] unresolved.
End Snapshot.

Module SnapshotFacts.
Import Snapshot.

(** ** Decimal numbers *)

Lemma digit_value_char d : (d < 10)%N -> digit_value (pretty_N_char d) = Some d.
Proof.
  intros Hd. assert (forallb (fun d => bool_decide (digit_value (pretty_N_char d) = Some d))
    (N.of_nat <$> seq 0 10) = true) as H by (vm_compute; reflexivity).
  rewrite forallb_Forall, Forall_forall in H. apply (bool_decide_eq_true_1 _), H.
  apply list_elem_of_fmap. exists (N.to_nat d). rewrite N2Nat.id, elem_of_seq. split; [done | lia].
Qed.

Lemma parse_pretty max x : forall s, (x <= max)%N ->
  parse_digits max 0 (bs (pretty_N_go x s)) = parse_digits max x (bs s).
Proof.
  induction (N.lt_wf_0 x) as [x _ IH]. intros s Hx.
  destruct (decide (x = 0)%N) as [-> | Hne]; [done |].
  rewrite pretty_N_go_step by lia. pose proof (N.div_mod x 10 ltac:(done)) as Hdm.
  pose proof (N.mod_lt x 10 ltac:(done)) as Hm.
  assert (x / 10 < x)%N by (apply N.div_lt; lia).
  rewrite IH by lia. unfold bs at 1. cbn [String.list_ascii_of_string parse_digits].
  rewrite digit_value_char by done.
  rewrite (N.mul_comm (x `div` 10)), <- Hdm.
  rewrite (proj2 (N.ltb_ge max x)), (proj2 (N.ltb_ge max _)); [done | | done].
  etrans; [apply N.Div0.mul_div_le | done].
Qed.

Lemma parse_digits_show n : (n < 2 ^ 32)%N -> parse_digits 4294967295 0 (show_N n) = Ok n.
Proof.
  intros Hn. change (2 ^ 32)%N with 4294967296%N in Hn. unfold show_N.
  destruct (decide (n = 0)%N) as [-> | Hne]; [done |].
  change (pretty n) with (pretty_N n). unfold pretty_N.
  rewrite decide_False by done. by rewrite parse_pretty by lia.
Qed.

(** What parses as digits holds nothing else. *)
Lemma parse_digits_digits {max} l : forall acc n,
  parse_digits max acc l = Ok n -> Forall (fun b => is_ascii_digit b = true) l.
Proof.
  induction l as [| b l IH]; intros acc n; cbn [parse_digits]; [by constructor |].
  unfold digit_value. destruct (is_ascii_digit b) eqn:Hb; [| done].
  do 2 (destruct (_ <? _)%N; [done |]). intros H. constructor; [done | by eapply IH].
Qed.

Lemma show_digits n : (n < 2 ^ 32)%N -> Forall (fun b => is_ascii_digit b = true) (show_N n).
Proof. intros H. by eapply parse_digits_digits, parse_digits_show. Qed.

Lemma parse_show n : (n < 2 ^ 32)%N -> parse_ok (show_N n) = Some n.
Proof.
  intros Hn. unfold parse_ok. pose proof (parse_digits_show n Hn) as Hp.
  pose proof (show_digits n Hn) as Hd.
  enough (parse_u32 (show_N n) = Ok n) as -> by done.
  unfold parse_u32. destruct (show_N n) as [| b [| c r]] eqn:Hs.
  - injection Hp as <-. discriminate Hs.
  - done.
  - apply Forall_cons in Hd as [Hb _]. destruct (ceq b _) eqn:Hc; [| done].
    apply bool_decide_eq_true in Hc as ->. done.
Qed.

Lemma colon_not_digit l : Forall (fun b => is_ascii_digit b = true) l -> ":"%char ∉ l.
Proof. rewrite Forall_forall. intros H Hin. by apply H in Hin. Qed.

Lemma position_app_not c l r : c ∉ l -> position (ceq c) (l ++ c :: r) = Some (length l).
Proof.
  induction l as [| b l IH]; intros Hn; cbn.
  - unfold ceq. by rewrite bool_decide_true.
  - apply not_elem_of_cons in Hn as [Hb Hl]. unfold ceq at 1. rewrite bool_decide_false by done.
    by rewrite IH.
Qed.

Lemma split_once_app c l r : c ∉ l -> split_once c (l ++ c :: r) = Some (l, r).
Proof.
  intros Hn. unfold split_once. rewrite position_app_not by done.
  rewrite take_app_length. f_equal. f_equal.
  replace (S (length l)) with (length l + 1) by lia. by rewrite <- drop_drop, drop_app_length.
Qed.

Lemma split_on_none c l : c ∉ l -> split_on c l = [l].
Proof.
  induction l as [| b l IH]; intros Hn; cbn; [done |].
  apply not_elem_of_cons in Hn as [Hb Hl]. unfold ceq. rewrite bool_decide_false by done.
  by rewrite IH.
Qed.

(** ** Identifiers *)

Definition source_id_ok (i : SourceId) : Prop := (source_file i < 2 ^ 32)%N.
Definition symbol_id_ok (i : SymbolId) : Prop :=
  (symbol_file i < 2 ^ 32)%N /\ (symbol_def i < 2 ^ 32)%N.
Definition reference_id_ok (i : ReferenceId) : Prop :=
  (ref_file i < 2 ^ 32)%N /\ (ref_reference i < 2 ^ 32)%N.

Lemma source_at_ok f : source_id_ok (source_at f).
Proof. apply N.mod_lt. done. Qed.
Lemma symbol_at_ok f d : symbol_id_ok (symbol_at f d).
Proof. split; by apply N.mod_lt. Qed.
Lemma reference_at_ok f r : reference_id_ok (reference_at f r).
Proof. split; by apply N.mod_lt. Qed.

(** The printed form of an identifier parses back, so distinct identifiers have
    distinct printed forms. *)
Theorem ids_roundtrip (s : SourceId) (y : SymbolId) (r : ReferenceId)
    (Hs : source_id_ok s) (Hy : symbol_id_ok y) (Hr : reference_id_ok r) :
  source_id_parse (source_id_display s) = Some s /\
  symbol_id_parse (symbol_id_display y) = Some y /\
  reference_id_parse (reference_id_display r) = Some r.
Proof.
  destruct s as [f], y as [f1 d1], r as [f2 d2], Hy as [Hf1 Hd1], Hr as [Hf2 Hd2].
  unfold source_id_ok in Hs. cbn in *.
  unfold source_id_parse, source_id_display, symbol_id_parse, symbol_id_display,
    reference_id_parse, reference_id_display. cbn [source_file symbol_file symbol_def ref_file ref_reference].
  rewrite !strip_prefix_app. cbn [mbind option_bind].
  change (bs ":") with [":"%char]. cbn [app].
  rewrite split_on_none by by apply colon_not_digit, show_digits.
  rewrite !split_once_app by by apply colon_not_digit, show_digits.
  cbn [head mbind option_bind]. by rewrite !parse_show.
Qed.

Lemma ids_roundtrip_witness :
  source_id_ok (source_at 3) /\ symbol_id_ok (symbol_at 3 17) /\ reference_id_ok (reference_at 3 9) /\
  source_id_parse (source_id_display (source_at 3)) = Some (source_at 3) /\
  symbol_id_parse (symbol_id_display (symbol_at 3 17)) = Some (symbol_at 3 17) /\
  reference_id_parse (reference_id_display (reference_at 3 9)) = Some (reference_at 3 9).
Proof.
  split; [apply source_at_ok |]. split; [apply symbol_at_ok |]. split; [apply reference_at_ok |].
  apply (ids_roundtrip (source_at 3) (symbol_at 3 17) (reference_at 3 9));
    [apply source_at_ok | apply symbol_at_ok | apply reference_at_ok].
Defined.
End SnapshotFacts.
