(* ===== verification/Bitmap.v ===== *)
(** Compressed bitmaps of 32-bit integers. The [roaring] crate is not part of the
    repository: its operations are the class [Roaring], what its documentation
    says of them the class [RoaringLaws], and finite sets are one instance.

    Compact monikers (src/crates/workspace/src/environment.rs and
    src/crates/workspace/src/code/symbols.rs): the short text shown for a moniker
    and the names and kinds read off definitions and references. *)

From stdpp Require Export sorting.
From S2P Require Import Prelude.
From S2P Require Import RustStr.
From S2P Require Import Moniker.
From S2P Require Import Uri.
From S2P Require Import CodeGraph.

(** An iterator over a bitmap is what it has still to yield; [bm_advance_to]
    moves it to the first value that is not below a bound. *)
Class Roaring : Type := {
  RoaringBitmap : Type;
  bm_new : RoaringBitmap;
  bm_insert : N -> RoaringBitmap -> RoaringBitmap;
  bm_remove : N -> RoaringBitmap -> RoaringBitmap;
  bm_contains : RoaringBitmap -> N -> bool;
  bm_is_disjoint : RoaringBitmap -> RoaringBitmap -> bool;
  bm_union_len : RoaringBitmap -> RoaringBitmap -> N;
  bm_and : RoaringBitmap -> RoaringBitmap -> RoaringBitmap;
  bm_or : RoaringBitmap -> RoaringBitmap -> RoaringBitmap;
  bm_sub : RoaringBitmap -> RoaringBitmap -> RoaringBitmap;
  bm_is_empty : RoaringBitmap -> bool;
  bm_len : RoaringBitmap -> N;
  bm_iter : RoaringBitmap -> list N;
  bm_advance_to : N -> list N -> list N
}.

Class RoaringLaws (R : Roaring) : Prop := {
  bm_iter_sorted b : StronglySorted N.lt (bm_iter b);
  bm_iter_contains b n : n ∈ bm_iter b <-> bm_contains b n = true;
  bm_contains_new n : bm_contains bm_new n = false;
  bm_contains_insert n m b : bm_contains (bm_insert n b) m = bool_decide (m = n) || bm_contains b m;
  bm_contains_remove n m b :
    bm_contains (bm_remove n b) m = negb (bool_decide (m = n)) && bm_contains b m;
  bm_contains_and a b n : bm_contains (bm_and a b) n = bm_contains a n && bm_contains b n;
  bm_contains_or a b n : bm_contains (bm_or a b) n = bm_contains a n || bm_contains b n;
  bm_contains_sub a b n : bm_contains (bm_sub a b) n = bm_contains a n && negb (bm_contains b n);
  bm_len_iter b : bm_len b = N.of_nat (length (bm_iter b));
  bm_is_empty_iter b : bm_is_empty b = true <-> bm_iter b = [];
  bm_is_disjoint_iff a b :
    bm_is_disjoint a b = true <-> forall n, bm_contains a n && bm_contains b n = false;
  bm_union_len_or a b : bm_union_len a b = bm_len (bm_or a b);
  bm_advance_drop n l : StronglySorted N.lt l ->
    bm_advance_to n l = List.filter (fun x => negb (x <? n)%N) l
}.

(** ** Finite sets of numbers implement them *)

Module GsetRoaring.

#[export] Instance gset_roaring : Roaring := {|
  RoaringBitmap := gset N;
  bm_new := ∅;
  bm_insert n b := {[n]} ∪ b;
  bm_remove n b := b ∖ {[n]};
  bm_contains b n := bool_decide (n ∈ b);
  bm_is_disjoint a b := bool_decide (a ∩ b = ∅);
  bm_union_len a b := N.of_nat (size (a ∪ b));
  bm_and a b := a ∩ b;
  bm_or a b := a ∪ b;
  bm_sub a b := a ∖ b;
  bm_is_empty b := bool_decide (b = ∅);
  bm_len b := N.of_nat (size b);
  bm_iter b := merge_sort N.le (elements b);
  bm_advance_to n l := List.filter (fun x => negb (x <? n)%N) l
|}.

Lemma sorted_elements (b : gset N) : merge_sort N.le (elements b) ≡ₚ elements b.
Proof. apply merge_sort_Permutation. Qed.

Lemma le_lt_sorted l : StronglySorted N.le l -> NoDup l -> StronglySorted N.lt l.
Proof.
  induction 1 as [| x l Hl IH Hx]; intros Hnd; [constructor |].
  apply NoDup_cons in Hnd as [Hn Hnd]. constructor; [by apply IH |].
  rewrite Forall_forall in *. intros y Hy. apply Hx in Hy as Hle.
  enough (x <> y) by lia. by intros ->.
Qed.

#[export] Instance gset_roaring_laws : RoaringLaws gset_roaring.
Proof.
  split; cbn.
  - intros b. apply le_lt_sorted; [apply (StronglySorted_merge_sort _ _) |].
    rewrite sorted_elements. apply NoDup_elements.
  - intros b n. rewrite sorted_elements, elem_of_elements. by rewrite bool_decide_eq_true.
  - intros n. by apply bool_decide_eq_false.
  - intros n m b. rewrite <- bool_decide_or. apply bool_decide_ext. by rewrite elem_of_union, elem_of_singleton.
  - intros n m b. rewrite <- bool_decide_not, <- bool_decide_and. apply bool_decide_ext.
    rewrite elem_of_difference, elem_of_singleton. tauto.
  - intros a b n. rewrite <- bool_decide_and. apply bool_decide_ext. by rewrite elem_of_intersection.
  - intros a b n. rewrite <- bool_decide_or. apply bool_decide_ext. by rewrite elem_of_union.
  - intros a b n. rewrite <- bool_decide_not, <- bool_decide_and. apply bool_decide_ext.
    by rewrite elem_of_difference.
  - intros b. f_equal. symmetry. apply Permutation_length, sorted_elements.
  - intros b. rewrite bool_decide_eq_true. split.
    + intros ->. done.
    + intros H. apply leibniz_equiv, elements_empty_inv, Permutation_nil.
      by rewrite <- sorted_elements, H.
  - intros a b. rewrite bool_decide_eq_true. split.
    + intros H n. rewrite <- bool_decide_and. apply bool_decide_eq_false.
      rewrite <- elem_of_intersection, H. apply not_elem_of_empty.
    + intros H. apply leibniz_equiv. intros n. split; [| done]. intros Hn. specialize (H n).
      rewrite <- bool_decide_and in H. by rewrite bool_decide_eq_false, <- elem_of_intersection in H.
  - done.
  - done.
Qed.
End GsetRoaring.

(** ** Lemmas *)

Section laws.
Context {R : Roaring} {RL : RoaringLaws R}.

Lemma bm_iter_nodup b : NoDup (bm_iter b).
Proof.
  pose proof (bm_iter_sorted b) as H. induction H as [| x l Hl IH Hx]; [constructor |].
  constructor; [| done]. intros Hin. rewrite Forall_forall in Hx. apply Hx in Hin. lia.
Qed.

Lemma sorted_lt_ext (l k : list N) :
  StronglySorted N.lt l -> StronglySorted N.lt k -> (forall n, n ∈ l <-> n ∈ k) -> l = k.
Proof.
  intros Hl. revert k. induction Hl as [| x l Hl IH Hx]; intros k Hk H.
  - destruct k as [| y k]; [done |]. assert (y ∈ []) as Hy by (apply H; left). by apply not_elem_of_nil in Hy.
  - destruct Hk as [| y k Hk Hy]; [assert (x ∈ []) as Hn by (apply H; left); by apply not_elem_of_nil in Hn |].
    rewrite Forall_forall in Hx, Hy.
    assert (x = y) as <-.
    { assert (x ∈ y :: k) as [-> | Hxk]%elem_of_cons by (apply H; left); [done |].
      assert (y ∈ x :: l) as [-> | Hyl]%elem_of_cons by (apply H; left); [done |].
      apply Hy in Hxk. apply Hx in Hyl. lia. }
    f_equal. apply IH; [done |]. intros n. specialize (H n). rewrite !elem_of_cons in H.
    split; intros Hn.
    + destruct (proj1 H (or_intror Hn)) as [-> |]; [apply Hx in Hn; lia | done].
    + destruct (proj2 H (or_intror Hn)) as [-> |]; [apply Hy in Hn; lia | done].
Qed.

(** Two bitmaps with the same members yield the same sequence. *)
Lemma bm_iter_ext a b : (forall n, bm_contains a n = bm_contains b n) -> bm_iter a = bm_iter b.
Proof.
  intros H. apply sorted_lt_ext; [apply bm_iter_sorted.. |].
  intros n. by rewrite !bm_iter_contains, H.
Qed.

Lemma bm_empty_iff b : bm_is_empty b = true <-> forall n, bm_contains b n = false.
Proof.
  rewrite bm_is_empty_iter. split.
  - intros Hb n. destruct (bm_contains b n) eqn:Hn; [| done].
    apply bm_iter_contains in Hn. rewrite Hb in Hn. by apply not_elem_of_nil in Hn.
  - intros H. destruct (bm_iter b) as [| n l] eqn:Hb; [done |].
    assert (n ∈ bm_iter b) as Hn by (rewrite Hb; left). by rewrite bm_iter_contains, H in Hn.
Qed.

(** ** Sizes *)

Lemma bm_len_list b (l : list N) :
  NoDup l -> (forall n, n ∈ l <-> bm_contains b n = true) -> bm_len b = N.of_nat (length l).
Proof.
  intros Hnd Hl. rewrite bm_len_iter. f_equal. apply Permutation_length, NoDup_Permutation; [apply bm_iter_nodup | done |].
  intros n. by rewrite bm_iter_contains, Hl.
Qed.

Lemma bm_len_insert n b : bm_contains b n = false -> bm_len (bm_insert n b) = (bm_len b + 1)%N.
Proof.
  intros Hn. rewrite (bm_len_list _ (n :: bm_iter b)).
  - cbn [length]. rewrite bm_len_iter. lia.
  - constructor; [| apply bm_iter_nodup]. rewrite bm_iter_contains. congruence.
  - intros m. rewrite elem_of_cons, bm_iter_contains, bm_contains_insert, orb_true_iff, bool_decide_eq_true. done.
Qed.

Lemma bm_len_or_disjoint a b :
  (forall n, bm_contains a n = true -> bm_contains b n = false) ->
  bm_len (bm_or a b) = (bm_len a + bm_len b)%N.
Proof.
  intros Hd. rewrite (bm_len_list _ (bm_iter a ++ bm_iter b)).
  - rewrite length_app, !bm_len_iter. lia.
  - apply NoDup_app. split_and!; [apply bm_iter_nodup | | apply bm_iter_nodup].
    intros n Ha Hb. rewrite bm_iter_contains in *. rewrite Hd in Hb; done.
  - intros n. by rewrite elem_of_app, !bm_iter_contains, bm_contains_or, orb_true_iff.
Qed.

Lemma bm_len_subset a b :
  (forall n, bm_contains a n = true -> bm_contains b n = true) -> (bm_len a <= bm_len b)%N.
Proof.
  intros H. rewrite !bm_len_iter. enough (length (bm_iter a) <= length (bm_iter b)) by lia.
  apply submseteq_length, NoDup_submseteq; [apply bm_iter_nodup |]. intros n. rewrite !bm_iter_contains. apply H.
Qed.

Lemma bm_not_empty b : bm_is_empty b = false <-> exists n, bm_contains b n = true.
Proof.
  destruct (bm_is_empty b) eqn:Hb.
  - split; [done |]. intros [n Hn]. by rewrite (proj1 (bm_empty_iff b) Hb) in Hn.
  - split; [| done]. intros _. destruct (bm_iter b) as [| n l] eqn:Hi.
    + apply bm_is_empty_iter in Hi. congruence.
    + exists n. apply bm_iter_contains. rewrite Hi. by left.
Qed.
End laws.

Module Compact.

Record Parts : Set := mk_parts {
  lang : option bytes;
  packages : list bytes;
  dirs : list bytes;
  modules : list bytes;
  rest : list (bytes * bytes)
}.

(** One turn of the loop over the segments: [None] for a segment that is not
    UTF-8. *)
Definition part_step (acc : option Parts) (segment : Moniker.Segment) : option Parts :=
  acc ← acc;
  let '(kind, name) := segment in
  if negb (from_utf8 kind) then None
  else if negb (from_utf8 name) then None
  else
    let '(mk_parts l p d m r) := acc in
    Some (if beq kind (bs "lang") then mk_parts (Some name) p d m r
          else if beq kind (bs "package") then mk_parts l (p ++ [name]) d m r
          else if beq kind (bs "dir") then mk_parts l p (d ++ [name]) m r
          else if beq kind (bs "module") then mk_parts l p d (m ++ [name]) r
          else mk_parts l p d m (r ++ [(kind, name)])).

Definition is_nil {A} (l : list A) : bool := match l with [] => true | _ => false end.

(** The loop over [rest]. *)
Fixpoint push_rest (wrote_scope has_module : bool) (idx : nat) (out : bytes)
    (rest : list (bytes * bytes)) : bytes :=
  match rest with
  | [] => out
  | (kind, name) :: rest =>
      let out :=
        if (idx =? 0) && has_module then out ++ bs "."
        else if wrote_scope || has_module || (0 <? idx) then out ++ bs "/"
        else out in
      push_rest wrote_scope has_module (S idx) (out ++ kind ++ bs ":" ++ name) rest
  end.

Definition render_compact_moniker {E} (m : Moniker.t) : res E (option bytes) :=
  view ← Moniker.as_view m;
  segs ← Moniker.view_segments view;
  match foldl part_step (Some (mk_parts None [] [] [] [])) segs with
  | None => mret None
  | Some (mk_parts lang packages dirs modules rest) =>
      head ← (match lang with
              | Some l => mret l
              | None => p ← Moniker.view_project view; mret (if from_utf8 p then p else bs ".")
              end);
      if is_nil packages && is_nil dirs && is_nil modules && is_nil rest then mret (Some head)
      else
        let out := head ++ bs ":" in
        let '(out, wrote_scope) :=
          if negb (is_nil packages) then (out ++ join (bs ".") packages, true)
          else if negb (is_nil dirs) then (out ++ join (bs "/") dirs, true)
          else (out, false) in
        let has_module := negb (is_nil modules) in
        let out :=
          if has_module then (if wrote_scope then out ++ bs "/" else out) ++ join (bs ".") modules
          else out in
        mret (Some (push_rest wrote_scope has_module 0 out rest))
  end.

Definition compact_moniker {E} (m : Moniker.t) (scheme : bytes) : res E bytes :=
  o ← render_compact_moniker m;
  match o with
  | Some text => mret text
  | None => Uri.to_uri m {| Uri.scheme := scheme |}
  end.

(** [.ok()?] on the outcome of the URI parser. *)
Definition parsed {E F A} (m : res F A) : res E (option A) :=
  match m with
  | Ok a => mret (Some a)
  | Err _ => mret None
  | Panic => Panic
  | NoFuel => NoFuel
  end.

Definition compact_identity {E} (identity scheme : bytes) : res E (option bytes) :=
  o ← parsed (Uri.from_uri identity {| Uri.scheme := scheme |});
  match o with
  | None => mret None
  | Some m => c ← compact_moniker m scheme; mret (Some c)
  end.

Definition def_kind (def : CodeGraph.DefRecord) : bytes :=
  if from_utf8 (CodeGraph.kind def) then CodeGraph.kind def else bs "?".

Definition ref_kind (reference : CodeGraph.RefRecord) : bytes :=
  if from_utf8 (CodeGraph.ref_kind reference) then CodeGraph.ref_kind reference else bs "?".

Definition last_name {E} (m : Moniker.t) : res E bytes :=
  view ← Moniker.as_view m;
  segs ← Moniker.view_segments view;
  mret (match last segs with
        | Some (_, name) => if from_utf8 name then name else bs "."
        | None => bs "."
        end).
End Compact.
