(* ===== verification/Inventory.v ===== *)
(** The symbol inventory of a snapshot
    (src/crates/workspace/src/snapshot/inventory/): ordinals of symbols, the
    posting lists that answer queries by facet, and the refresh that follows a
    change of some files without a rebuild. *)

From S2P Require Import Prelude.
From S2P Require Import RustStr.
From S2P Require Import Shape.
From S2P Require Import Moniker.
From S2P Require Import Uri.
From S2P Require Import EvalCore.
From S2P Require Import Bitmap.
From S2P Require Import Snapshot.

(** The hash of [rustc_hash]'s [FxHasher] on a string: any function. *)
Class FxHash : Type := { fx_hash : bytes -> N }.

Module Inventory.
Import Snapshot Compact.

(** [SymbolOrdinal(u32)] *)
Abbreviation SymbolOrdinal := N.

Section inventory.
Context {R : Roaring} {FX : FxHash}.

(** ** mod.rs: ordinals *)

Definition ordinal_from_index {E : Type} (value : nat) : res E SymbolOrdinal :=
  if (N.of_nat value <? 2 ^ 32)%N then mret (N.of_nat value) else Panic.

(** ** set.rs *)

Definition SymbolSet : Type := RoaringBitmap.

Definition set_new : SymbolSet := bm_new.
Definition set_insert (symbol : SymbolOrdinal) (s : SymbolSet) : SymbolSet := bm_insert symbol s.
Definition set_remove (symbol : SymbolOrdinal) (s : SymbolSet) : SymbolSet := bm_remove symbol s.
Definition set_contains (s : SymbolSet) (symbol : SymbolOrdinal) : bool := bm_contains s symbol.
Definition set_intersects (s other : SymbolSet) : bool := negb (bm_is_disjoint s other).
Definition set_union_len (s other : SymbolSet) : N := bm_union_len s other.
Definition set_intersect_with (s other : SymbolSet) : SymbolSet := bm_and s other.
Definition set_union_with (s other : SymbolSet) : SymbolSet := bm_or s other.
Definition set_remove_all (s other : SymbolSet) : SymbolSet := bm_sub s other.
Definition set_intersection (s other : SymbolSet) : SymbolSet := bm_and s other.
Definition set_union (s other : SymbolSet) : SymbolSet := bm_or s other.
Definition set_difference (s other : SymbolSet) : SymbolSet := set_remove_all s other.
Definition set_from_symbol (symbol : SymbolOrdinal) : SymbolSet := set_insert symbol set_new.
Definition set_is_empty (s : SymbolSet) : bool := bm_is_empty s.
Definition set_len (s : SymbolSet) : N := bm_len s.
Definition set_iter (s : SymbolSet) : list SymbolOrdinal := bm_iter s.
Definition set_single (s : SymbolSet) : option SymbolOrdinal :=
  if (set_len s =? 1)%N then head (set_iter s) else None.
Definition set_from_iter (l : list SymbolOrdinal) : SymbolSet :=
  foldl (fun s symbol => set_insert symbol s) set_new l.

(** ** catalog.rs *)

Record SymbolOrdinalCatalog : Set := mk_catalog {
  next_ordinal : N;
  ids : gmap SymbolOrdinal SymbolId;
  ordinals_by_id : gmap SymbolId SymbolOrdinal
}.

Definition catalog_default : SymbolOrdinalCatalog := mk_catalog 0 ∅ ∅.

Definition ordinal (c : SymbolOrdinalCatalog) (id : SymbolId) : option SymbolOrdinal :=
  ordinals_by_id c !! id.

Definition id_of (c : SymbolOrdinalCatalog) (o : SymbolOrdinal) : option SymbolId := ids c !! o.

Definition bind_id (o : SymbolOrdinal) (id : SymbolId) (c : SymbolOrdinalCatalog)
    : SymbolOrdinalCatalog :=
  let by_id :=
    match ids c !! o with
    | Some previous => delete previous (ordinals_by_id c)
    | None => ordinals_by_id c
    end in
  let forward := <[o := id]> (ids c) in
  let forward :=
    match by_id !! id with
    | Some previous => if (previous =? o)%N then forward else delete previous forward
    | None => forward
    end in
  mk_catalog (next_ordinal c) forward (<[id := o]> by_id).

Definition unbind_id (o : SymbolOrdinal) (c : SymbolOrdinalCatalog) : SymbolOrdinalCatalog :=
  match ids c !! o with
  | None => c
  | Some previous =>
      mk_catalog (next_ordinal c) (delete o (ids c))
        (if bool_decide (ordinals_by_id c !! previous = Some o)
         then delete previous (ordinals_by_id c) else ordinals_by_id c)
  end.

Definition retire (o : SymbolOrdinal) (c : SymbolOrdinalCatalog) : SymbolOrdinalCatalog :=
  unbind_id o c.

Definition push {E : Type} (id : SymbolId) (c : SymbolOrdinalCatalog)
    : res E (SymbolOrdinal * SymbolOrdinalCatalog) :=
  match ordinals_by_id c !! id with
  | Some o => mret (o, c)
  | None =>
      o ← ordinal_from_index (N.to_nat (next_ordinal c));
      if negb (next_ordinal c <? 2 ^ 32 - 1)%N then Panic
      else mret (o, bind_id o id (mk_catalog (next_ordinal c + 1) (ids c) (ordinals_by_id c)))
  end.

Definition catalog_len (c : SymbolOrdinalCatalog) : nat := size (ordinals_by_id c).
Definition storage_len (c : SymbolOrdinalCatalog) : nat := size (ids c).
Definition catalog_ids (c : SymbolOrdinalCatalog) (symbols : SymbolSet) : list SymbolId :=
  omap (id_of c) (set_iter symbols).

(** [active_ordinals]: sorted by ordinal. *)
Definition active_le (a b : SymbolOrdinal * SymbolId) : Prop := (a.1 <= b.1)%N.
#[local] Instance active_le_dec : RelDecision active_le.
Proof using. intros a b. unfold active_le. apply _. Defined.

Definition active_ordinals {HO : HashOrder} (c : SymbolOrdinalCatalog)
    : list (SymbolOrdinal * SymbolId) := merge_sort active_le (entries (ids c)).

(** ** mod.rs: records *)

Record InventorySegment : Set := mk_segment { seg_kind : bytes; seg_name : bytes }.

#[local] Instance inventory_segment_eq : EqDecision InventorySegment.
Proof using. solve_decision. Defined.
#[local] Program Instance inventory_segment_countable : Countable InventorySegment :=
  inj_countable' (fun s => (seg_kind s, seg_name s)) (fun p => mk_segment p.1 p.2) _.
Next Obligation. by intros []. Qed.

Record InventorySymbol : Set := mk_inventory_symbol {
  i_id : SymbolId;
  i_source : SourceId;
  i_identity : bytes;
  i_name : bytes;
  i_kind : bytes;
  i_shape : bytes;
  i_visibility : bytes;
  i_language : bytes;
  source_path : bytes;
  i_source_root : nat;
  srcset : bytes;
  i_line_range : option (N * N);
  i_navigable : bool;
  i_parent : option SymbolId;
  ancestors : list SymbolId;
  segments : list InventorySegment
}.

(** ** facets.rs *)

Record SymbolInventoryFacets : Type := mk_facets {
  by_identity : gmap bytes SymbolSet;
  by_name : gmap bytes SymbolSet;
  by_natural_name : gmap bytes SymbolSet;
  by_kind : gmap bytes SymbolSet;
  by_shape : gmap bytes SymbolSet;
  by_visibility : gmap bytes SymbolSet;
  by_language : gmap bytes SymbolSet;
  by_source : gmap SourceId SymbolSet;
  by_source_path : gmap bytes SymbolSet;
  by_source_root : gmap nat SymbolSet;
  by_srcset : gmap bytes SymbolSet;
  by_segment : gmap InventorySegment SymbolSet;
  by_owner : gmap SymbolId SymbolSet
}.

Definition facets_default : SymbolInventoryFacets := mk_facets ∅ ∅ ∅ ∅ ∅ ∅ ∅ ∅ ∅ ∅ ∅ ∅ ∅.

Definition natural_name (name : bytes) : bytes :=
  match split_once "("%char name with Some (base, _) => base | None => name end.

Definition insert_posting `{Countable K} (index : gmap K SymbolSet) (key : K) (o : SymbolOrdinal)
    : gmap K SymbolSet := <[key := set_insert o (default set_new (index !! key))]> index.

Definition remove_posting `{Countable K} (index : gmap K SymbolSet) (key : K) (o : SymbolOrdinal)
    : gmap K SymbolSet :=
  match index !! key with
  | None => index
  | Some symbols =>
      let symbols := set_remove o symbols in
      if set_is_empty symbols then delete key index else <[key := symbols]> index
  end.

(** The owners under which a symbol is listed. *)
Definition owners (record : InventorySymbol) : list SymbolId :=
  if i_navigable record then ancestors record else [].

(** What [insert_facets] and [remove_facets] do to each posting table. *)
Definition update_facets
    (upd : forall {K} {ED : EqDecision K} {CK : Countable K},
        gmap K SymbolSet -> K -> SymbolOrdinal -> gmap K SymbolSet)
    (facets : SymbolInventoryFacets) (record : InventorySymbol) (o : SymbolOrdinal)
    : SymbolInventoryFacets := {|
  by_identity := upd (by_identity facets) (i_identity record) o;
  by_name := upd (by_name facets) (i_name record) o;
  by_natural_name := upd (by_natural_name facets) (natural_name (i_name record)) o;
  by_kind := upd (by_kind facets) (i_kind record) o;
  by_shape := upd (by_shape facets) (i_shape record) o;
  by_visibility := upd (by_visibility facets) (i_visibility record) o;
  by_language := upd (by_language facets) (i_language record) o;
  by_source := upd (by_source facets) (i_source record) o;
  by_source_path := upd (by_source_path facets) (source_path record) o;
  by_source_root := upd (by_source_root facets) (i_source_root record) o;
  by_srcset := upd (by_srcset facets) (srcset record) o;
  by_segment := foldl (fun index segment => upd index segment o) (by_segment facets) (segments record);
  by_owner := foldl (fun index owner => upd index owner o) (by_owner facets) (owners record)
|}.

Definition insert_facets (facets : SymbolInventoryFacets) (record : InventorySymbol)
    (o : SymbolOrdinal) : SymbolInventoryFacets := update_facets (@insert_posting) facets record o.

Definition remove_facets (facets : SymbolInventoryFacets) (record : InventorySymbol)
    (o : SymbolOrdinal) : SymbolInventoryFacets := update_facets (@remove_posting) facets record o.

(** ** mod.rs: the index *)

Record SymbolInventoryIndex : Type := mk_index {
  generation : ResourceGeneration;
  catalog : SymbolOrdinalCatalog;
  records : gmap SymbolOrdinal InventorySymbol;
  all_symbols : SymbolSet;
  facets : SymbolInventoryFacets;
  compact_identities : gmap N SymbolOrdinal;
  compact_identity_collisions : gmap N (list SymbolOrdinal)
}.

Definition empty (g : ResourceGeneration) : SymbolInventoryIndex :=
  mk_index g catalog_default ∅ set_new facets_default ∅ ∅.

Definition set_catalog (c : SymbolOrdinalCatalog) (i : SymbolInventoryIndex) : SymbolInventoryIndex :=
  mk_index (generation i) c (records i) (all_symbols i) (facets i) (compact_identities i)
    (compact_identity_collisions i).

Definition set_compact (c : gmap N SymbolOrdinal) (k : gmap N (list SymbolOrdinal))
    (i : SymbolInventoryIndex) : SymbolInventoryIndex :=
  mk_index (generation i) (catalog i) (records i) (all_symbols i) (facets i) c k.

Definition compact_identity_hash (compact : bytes) : N := fx_hash compact.

Definition compact_record_identity {E : Type} (identity : bytes) : res E (option bytes) :=
  match find_str (bs "://") identity with
  | None => mret None
  | Some i => scheme ← str_to identity (i + 3); compact_identity identity scheme
  end.

Definition index_compact_identity (i : SymbolInventoryIndex) (hash : N) (o : SymbolOrdinal)
    : SymbolInventoryIndex :=
  match compact_identities i !! hash with
  | None => set_compact (<[hash := o]> (compact_identities i)) (compact_identity_collisions i) i
  | Some existing =>
      let collisions := default [existing] (compact_identity_collisions i !! hash) in
      let collisions :=
        if existsb (N.eqb o) collisions then collisions else collisions ++ [o] in
      set_compact (compact_identities i) (<[hash := collisions]> (compact_identity_collisions i)) i
  end.

Definition unindex_compact_identity (i : SymbolInventoryIndex) (hash : N) (o : SymbolOrdinal)
    : SymbolInventoryIndex :=
  match compact_identity_collisions i !! hash with
  | Some collisions =>
      let collisions := List.filter (fun candidate => negb (candidate =? o)%N) collisions in
      match collisions with
      | [] => set_compact (delete hash (compact_identities i))
                (delete hash (compact_identity_collisions i)) i
      | [remaining] => set_compact (<[hash := remaining]> (compact_identities i))
                (delete hash (compact_identity_collisions i)) i
      | _ => set_compact (compact_identities i)
               (<[hash := collisions]> (compact_identity_collisions i)) i
      end
  | None =>
      if bool_decide (compact_identities i !! hash = Some o)
      then set_compact (delete hash (compact_identities i)) (compact_identity_collisions i) i
      else i
  end.

Definition unindex_record {E : Type} (i : SymbolInventoryIndex) (o : SymbolOrdinal)
    : res E SymbolInventoryIndex :=
  match records i !! o with
  | None => mret i
  | Some record =>
      let i := mk_index (generation i) (catalog i) (delete o (records i))
                 (set_remove o (all_symbols i)) (remove_facets (facets i) record o)
                 (compact_identities i) (compact_identity_collisions i) in
      compact ← compact_record_identity (i_identity record);
      mret (match compact with
            | Some compact => unindex_compact_identity i (compact_identity_hash compact) o
            | None => i
            end)
  end.

Definition parse_segments {E : Type} (identity : bytes) : res E (list InventorySegment) :=
  let marker := bs "+moniker://" in
  match index ← find_str marker identity; str_get identity 0 (index + length marker) with
  | None => mret []
  | Some scheme =>
      moniker ← parsed (Uri.from_uri identity {| Uri.scheme := scheme |});
      match moniker with
      | None => mret []
      | Some m =>
          view ← Moniker.as_view m;
          segs ← Moniker.view_segments view;
          mret (omap (fun '(kind, name) =>
            if from_utf8 kind && from_utf8 name then Some (mk_segment kind name) else None) segs)
      end
  end.

(** The [while let Some(id) = parent] loop of [symbol_ancestors]. *)
Fixpoint ancestors_loop {E : Type} (fuel : nat) (symbols : RecordTable SymbolRecord)
    (ancestors : list SymbolId) (parent_ : option SymbolId) : res E (list SymbolId) :=
  match fuel, parent_ with
  | _, None => mret ancestors
  | O, Some _ => NoFuel
  | S fuel, Some id =>
      if existsb (fun a => bool_decide (a = id)) ancestors then mret ancestors
      else
        ancestors_loop fuel symbols (ancestors ++ [id])
          (record ← file_records symbols (id_file id) !! id_def id; parent record)
  end.

Definition symbol_ancestors {E : Type} (symbol : SymbolRecord) (symbols : RecordTable SymbolRecord)
    : res E (list SymbolId) :=
  ancestors_loop (S (S (length (iter symbols)))) symbols [] (parent symbol).

Definition inventory_record {E : Type} (symbol : SymbolRecord) (source : SourceFileRecord)
    (symbols : RecordTable SymbolRecord) : res E InventorySymbol :=
  segments ← parse_segments (E:=E) (identity symbol);
  let srcset :=
    RustStr.join (bs ".") (omap (fun s => if beq (seg_kind s) (bs "srcset") then Some (seg_name s) else None)
                     segments) in
  ancestors ← symbol_ancestors symbol symbols;
  mret {|
    i_id := s_id symbol; i_source := s_source symbol; i_identity := identity symbol;
    i_name := s_name symbol; i_kind := s_kind symbol;
    i_shape := Shape.as_str (Shape.for_kind (s_kind symbol)); i_visibility := visibility symbol;
    i_language := f_language source; source_path := rel_path source;
    i_source_root := source_root source; srcset := srcset; i_line_range := s_line_range symbol;
    i_navigable := navigable symbol; i_parent := parent symbol; ancestors := ancestors;
    segments := segments
  |}.

Definition index_record {E : Type} (i : SymbolInventoryIndex) (symbol : SymbolRecord)
    (source : SourceFileRecord) (symbols : RecordTable SymbolRecord)
    (preferred : option SymbolOrdinal) : res E SymbolInventoryIndex :=
  '(o, c) ← (match preferred with
             | Some o => mret (o, bind_id o (s_id symbol) (catalog i))
             | None => push (s_id symbol) (catalog i)
             end);
  let i := set_catalog c i in
  i ← (match records i !! o with Some _ => unindex_record i o | None => mret i end);
  record ← inventory_record symbol source symbols;
  let i := mk_index (generation i) (catalog i) (records i) (set_insert o (all_symbols i))
             (insert_facets (facets i) record o) (compact_identities i)
             (compact_identity_collisions i) in
  compact ← compact_record_identity (i_identity record);
  let i := match compact with
           | Some compact => index_compact_identity i (compact_identity_hash compact) o
           | None => i
           end in
  mret (mk_index (generation i) (catalog i) (<[o := record]> (records i)) (all_symbols i) (facets i)
          (compact_identities i) (compact_identity_collisions i)).

Definition missing_source (source : SourceId) : SourceFileRecord :=
  mk_source_file source [] 0 [] [] [] [] [].

Definition build {E : Type} (g : ResourceGeneration) (sources : list SourceFileRecord)
    (symbols : RecordTable SymbolRecord) : res E SymbolInventoryIndex :=
  fold_res (fun i symbol =>
      let source := default (missing_source (s_source symbol))
                      (sources !! N.to_nat (source_file (s_source symbol))) in
      index_record i symbol source symbols None)
    (empty g) (iter symbols).

(** ** Queries *)

Definition record (i : SymbolInventoryIndex) (o : SymbolOrdinal) : option InventorySymbol :=
  records i !! o.

Definition record_by_id (i : SymbolInventoryIndex) (id : SymbolId) : option InventorySymbol :=
  o ← ordinal (catalog i) id; record i o.

Definition owner_and_descendants (i : SymbolInventoryIndex) (owner : SymbolId) : SymbolSet :=
  let symbols := default set_new (by_owner (facets i) !! owner) in
  match ordinal (catalog i) owner with
  | Some o => set_insert o symbols
  | None => symbols
  end.

(** [Err] is the number of symbols when they are more than [max_symbols]. *)
Definition owner_and_descendants_bounded (i : SymbolInventoryIndex) (owner : SymbolId)
    (max_symbols : N) : res N SymbolSet :=
  let posting := by_owner (facets i) !! owner in
  let owner_ordinal := ordinal (catalog i) owner in
  let own :=
    match owner_ordinal with
    | Some o => negb (match posting with Some symbols => set_contains symbols o | None => false end)
    | None => false
    end in
  let total := (match posting with Some s => set_len s | None => 0 end + (if own then 1 else 0))%N in
  if (max_symbols <? total)%N then Err total
  else
    let symbols := default set_new posting in
    mret (match owner_ordinal with Some o => set_insert o symbols | None => symbols end).

Definition symbol_ids_by_identity (i : SymbolInventoryIndex) (identity : bytes) : list SymbolId :=
  match by_identity (facets i) !! identity with
  | Some s => catalog_ids (catalog i) s
  | None => []
  end.

Definition symbol_ids_by_compact_identity {E : Type} (i : SymbolInventoryIndex) (compact : bytes)
    : res E (list SymbolId) :=
  let hash := compact_identity_hash compact in
  let candidates :=
    match compact_identity_collisions i !! hash with
    | Some c => c
    | None => match compact_identities i !! hash with Some o => [o] | None => [] end
    end in
  filter_map_res (fun r =>
      c ← compact_record_identity (i_identity r);
      mret (if bool_decide (c = Some compact) then Some (i_id r) else None))
    (omap (record i) candidates).

(** ** Refresh *)

Definition changed_ordinals (i : SymbolInventoryIndex) (changed_files : list nat)
    : list SymbolOrdinal :=
  set_iter (foldl (fun changed file =>
    match by_source (facets i) !! source_at file with
    | Some symbols => set_union_with changed symbols
    | None => changed
    end) set_new changed_files).

Abbreviation Reusable := (gmap (SourceId * bytes) (list SymbolOrdinal)).

Definition reusable_ordinals (i : SymbolInventoryIndex) (pending : list SymbolOrdinal) : Reusable :=
  foldl (fun m o =>
    match record i o with
    | Some r => EvalCore.push_at (i_source r, i_identity r) o m
    | None => m
    end) ∅ pending.

(** [get_mut(&key).and_then(Vec::pop)] *)
Definition pop_reusable (key : SourceId * bytes) (m : Reusable) : option SymbolOrdinal * Reusable :=
  match m !! key with
  | None => (None, m)
  | Some l =>
      match last l with
      | None => (None, m)
      | Some o => (Some o, <[key := removelast l]> m)
      end
  end.

Definition reindex_step {E : Type} (sources : list SourceFileRecord) (symbols : RecordTable SymbolRecord)
    (file : nat) (acc : SymbolInventoryIndex * Reusable) (symbol : SymbolRecord)
    : res E (SymbolInventoryIndex * Reusable) :=
  let '(i, reusable) := acc in
  let source := default (missing_source (s_source symbol)) (sources !! file) in
  let '(preferred, reusable) := pop_reusable (s_source symbol, identity symbol) reusable in
  i ← index_record i symbol source symbols preferred;
  mret (i, reusable).

Definition refresh {E : Type} (previous : SymbolInventoryIndex) (g : ResourceGeneration)
    (sources : list SourceFileRecord) (symbols : RecordTable SymbolRecord)
    (changed_files : list nat) : res E SymbolInventoryIndex :=
  let i := mk_index g (catalog previous) (records previous) (all_symbols previous)
             (facets previous) (compact_identities previous)
             (compact_identity_collisions previous) in
  let pending_retire := changed_ordinals i changed_files in
  let reusable := reusable_ordinals i pending_retire in
  i ← fold_res (fun i o =>
        i ← unindex_record i o; mret (set_catalog (unbind_id o (catalog i)) i)) i pending_retire;
  '(i, _) ← fold_res (fun acc file =>
        fold_res (reindex_step sources symbols file) acc (file_records symbols file))
      (i, reusable) changed_files;
  mret (foldl (fun i o =>
          match id_of (catalog i) o with
          | None => set_catalog (retire o (catalog i)) i
          | Some _ => i
          end) i pending_retire).
End inventory.
End Inventory.
