(* ===== verification/InventoryInv.v ===== *)
(** The records of the inventory are always built: identities are parsed without
    a panic, and the walk to the ancestors of a symbol ends, on any parent links.
    When parents stay in the file of their child, the walk reads that file only.

    The invariant of the inventory: the catalog is a bijection, every posting
    lists exactly the records that have its key, and the compact identities list
    exactly the records of each hash. Adding and forgetting a symbol keep it.

    The two updates of the inventory, adding a symbol and forgetting an ordinal,
    keep its invariant and change the answer for one identifier only. *)

From S2P Require Import Prelude.
From S2P Require Import RustStr.
From S2P Require Import Moniker.
From S2P Require Import MonikerFacts.
From S2P Require Import Uri.
From S2P Require Import UriFacts.
From S2P Require Import StrFacts.
From S2P Require Import Snapshot.
From S2P Require Import Bitmap.
From S2P Require Import Inventory.

Module InventoryTotal.
Import StrFacts Snapshot Compact Inventory.
Section total.
Context {E : Type}.

(** A computation that returns a value. *)
Definition returns {A} (m : res E A) : Prop := exists a, m = Ok a.

Lemma returns_bind {A B} (m : res E A) (k : A -> res E B) :
  returns m -> (forall a, m = Ok a -> returns (k a)) -> returns (m ≫= k).
Proof. intros [a ->] Hk. rewrite ret_bind. by apply Hk. Qed.

Lemma returns_ret {A} (a : A) : returns (mret a).
Proof. by exists a. Qed.

(** ** Identities *)

Lemma parsed_uri uri config :
  exists o, parsed (E:=E) (Uri.from_uri uri config) = Ok o /\
    (forall m, o = Some m -> exists p segs, Moniker.valid m p segs).
Proof.
  pose proof (UriFacts.from_uri_post uri config) as Hp. unfold parsed.
  destruct (Uri.from_uri uri config) as [m | e | |]; try done.
  - exists (Some m). split; [done |]. intros m' [= <-]. destruct Hp as (p & segs & Hv & _). by exists p, segs.
  - by exists None.
Qed.

Lemma compact_moniker_returns m p segs scheme :
  Moniker.valid m p segs -> returns (compact_moniker m scheme).
Proof.
  intros Hv. unfold compact_moniker. apply returns_bind.
  - unfold render_compact_moniker.
    rewrite (MonikerFacts.as_view_valid _ _ _ Hv), ret_bind, (MonikerFacts.view_segments_valid _ _ _ Hv), ret_bind.
    destruct (foldl _ _ segs) as [[l ps d ms r] |]; [| by apply returns_ret].
    apply returns_bind.
    + destruct l; [apply returns_ret |]. rewrite MonikerFacts.view_project_valid, ret_bind.
      apply returns_ret.
    + intros head _. destruct (is_nil _ && _ && _ && _); [apply returns_ret |].
      destruct (negb (is_nil ps)); [apply returns_ret |].
      destruct (negb (is_nil d)); apply returns_ret.
  - intros [t |] _; [apply returns_ret |].
    destruct (UriFacts.to_uri_text (E:=E) m p segs {| Uri.scheme := scheme |} Hv) as (u & Hu & _).
    by exists u.
Qed.

Lemma compact_identity_returns identity scheme : returns (compact_identity identity scheme).
Proof.
  unfold compact_identity.
  destruct (parsed_uri identity {| Uri.scheme := scheme |}) as (o & -> & Ho). rewrite ret_bind.
  destruct o as [m |]; [| apply returns_ret]. destruct (Ho m eq_refl) as (p & segs & Hv).
  apply returns_bind; [by eapply compact_moniker_returns | intros; apply returns_ret].
Qed.

Lemma find_str_spec needle l i :
  find_str needle l = Some i -> starts_with needle (drop i l) = true.
Proof.
  revert i. induction l as [| b l IH]; intros i; cbn [find_str].
  - destruct (starts_with needle []) eqn:H; [intros [= <-]; by rewrite drop_0 | done].
  - destruct (starts_with needle (b :: l)) eqn:H; [intros [= <-]; by rewrite drop_0 |].
    destruct (find_str needle l) as [j |]; [| done]. intros [= <-]. cbn [drop]. by apply IH.
Qed.

(** The cut after the separator of the scheme falls on a boundary. *)
Lemma scheme_cut l i :
  from_utf8 l = true -> find_str (bs "://") l = Some i -> is_char_boundary l (i + 3) = true.
Proof.
  intros Hu Hf%find_str_spec. apply starts_with_spec in Hf as [suf Hd].
  change (i + 3) with (i + length (bs "://")).
  apply boundary_prefix; [done | | done | apply starts_with_spec; by exists suf].
  eapply (boundary_ascii l i ":"%char); [done | | done].
  rewrite <- (Nat.add_0_r i), <- lookup_drop, Hd. done.
Qed.

Lemma compact_record_identity_returns identity :
  from_utf8 identity = true -> returns (compact_record_identity identity).
Proof.
  intros Hu. unfold compact_record_identity. destruct (find_str _ identity) as [i |] eqn:Hf; [| apply returns_ret].
  destruct (str_to_ok (E:=E) identity (i + 3) Hu (scheme_cut _ _ Hu Hf)) as [-> _]. rewrite ret_bind.
  apply compact_identity_returns.
Qed.

Lemma parse_segments_returns identity : returns (parse_segments identity).
Proof.
  unfold parse_segments. destruct (mbind _ _) as [scheme |]; [| apply returns_ret].
  destruct (parsed_uri identity {| Uri.scheme := scheme |}) as (o & -> & Ho). rewrite ret_bind.
  destruct o as [m |]; [| apply returns_ret]. destruct (Ho m eq_refl) as (p & segs & Hv).
  rewrite (MonikerFacts.as_view_valid _ _ _ Hv), ret_bind, (MonikerFacts.view_segments_valid _ _ _ Hv), ret_bind.
  apply returns_ret.
Qed.

(** ** Ancestors *)

Implicit Type t : RecordTable SymbolRecord.

(** The record an identifier points at by position. *)
Definition record_at t (id : SymbolId) : option SymbolRecord :=
  file_records t (id_file id) !! id_def id.

Lemma id_position_inj (a b : SymbolId) : id_file a = id_file b -> id_def a = id_def b -> a = b.
Proof.
  destruct a as [f d], b as [f' d']. unfold id_file, id_def. cbn.
  intros ?%N2Nat.inj ?%N2Nat.inj. by subst.
Qed.

Definition positions t : list (nat * nat) :=
  concat (imap (fun slot shard => (fun def => (slot, def)) <$> seq 0 (length shard)) (shards t)).

Lemma length_concat_imap {A B} (f : nat -> list A -> list B) (s : list (list A)) :
  (forall i x, length (f i x) = length x) -> length (concat (imap f s)) = length (concat s).
Proof.
  revert f. induction s as [| x s IH]; intros f Hf; cbn; [done |].
  rewrite !length_app, Hf. f_equal. apply IH. intros i y. apply Hf.
Qed.

Lemma length_positions t : length (positions t) = length (iter t).
Proof. apply length_concat_imap. intros i x. by rewrite length_fmap, length_seq. Qed.

Lemma elem_of_positions t id : is_Some (record_at t id) -> (id_file id, id_def id) ∈ positions t.
Proof.
  intros [s Hs]. unfold record_at, file_records in Hs.
  destruct (shards t !! id_file id) as [shard |] eqn:Hsh; [| done]. cbn in Hs.
  unfold positions. rewrite list_elem_of_In, in_concat. eexists.
  rewrite <- !list_elem_of_In. split.
  - apply elem_of_lookup_imap. exists (id_file id), shard. done.
  - apply list_elem_of_fmap. exists (id_def id). split; [done |]. apply elem_of_seq.
    apply lookup_lt_Some in Hs. lia.
Qed.

(** Distinct symbols that have a record are no more than the records. *)
Lemma visited_bound t (visited : list SymbolId) :
  NoDup visited -> Forall (fun id => is_Some (record_at t id)) visited ->
  length visited <= length (iter t).
Proof.
  intros Hnd Hall. rewrite <- length_positions.
  rewrite <- (length_fmap (fun id => (id_file id, id_def id)) visited).
  apply submseteq_length, NoDup_submseteq.
  - apply NoDup_fmap_2; [| done]. intros a b [= H1 H2]. by apply id_position_inj.
  - intros p (id & -> & Hid)%list_elem_of_fmap. rewrite Forall_forall in Hall.
    by apply elem_of_positions, Hall.
Qed.

Lemma existsb_elem_of id (l : list SymbolId) :
  existsb (fun a => bool_decide (a = id)) l = true <-> id ∈ l.
Proof.
  rewrite existsb_exists. setoid_rewrite bool_decide_eq_true. split.
  - intros (a & Ha & ->). by apply list_elem_of_In.
  - intros H. exists id. by rewrite <- list_elem_of_In.
Qed.

Lemma ancestors_loop_returns t fuel : forall visited parent_,
  NoDup visited ->
  (is_Some parent_ -> Forall (fun id => is_Some (record_at t id)) visited) ->
  length (iter t) + 2 <= fuel + length visited ->
  returns (ancestors_loop fuel t visited parent_).
Proof.
  induction fuel as [| fuel IH]; intros visited [id |] Hnd Hall Hf; cbn [ancestors_loop];
    try apply returns_ret.
  - pose proof (visited_bound t visited Hnd (Hall ltac:(done))). lia.
  - destruct (existsb _ visited) eqn:Hin; [apply returns_ret |].
    assert (id ∉ visited) as Hn by (by rewrite <- existsb_elem_of, Hin).
    apply IH.
    + apply NoDup_app. split_and!; [done | | by apply NoDup_singleton].
      intros x Hx ->%list_elem_of_singleton. done.
    + intros Hp. apply Forall_app. split; [by apply Hall |]. constructor; [| constructor].
      unfold record_at. destruct (file_records t (id_file id) !! id_def id); [done | by destruct Hp].
    + rewrite length_app. cbn. lia.
Qed.

(** The walk to the ancestors ends, on cyclic parent links too. *)
Lemma symbol_ancestors_returns symbol t : returns (symbol_ancestors symbol t).
Proof. apply ancestors_loop_returns; [constructor | constructor | cbn; lia]. Qed.

(** Fuel beyond what the walk needs changes nothing. *)
Lemma ancestors_loop_mono t fuel fuel' : forall visited parent_ r,
  fuel <= fuel' -> ancestors_loop (E:=E) fuel t visited parent_ = Ok r ->
  ancestors_loop (E:=E) fuel' t visited parent_ = Ok r.
Proof.
  revert fuel'. induction fuel as [| fuel IH]; intros fuel' visited [id |] r Hle; cbn [ancestors_loop]; try done.
  - by destruct fuel'.
  - destruct fuel' as [| fuel']; [lia |]. cbn [ancestors_loop].
    destruct (existsb _ visited); [done |]. apply IH. lia.
  - by destruct fuel'.
Qed.

(** Parents stay in the file [f] of the child. *)
Definition local_parents t (f : nat) : Prop :=
  forall s p, s ∈ file_records t f -> parent s = Some p -> id_file p = f.

Lemma ancestors_loop_local t t' f fuel : forall visited parent_,
  local_parents t f -> file_records t f = file_records t' f ->
  (forall p, parent_ = Some p -> id_file p = f) ->
  ancestors_loop (E:=E) fuel t visited parent_ = ancestors_loop fuel t' visited parent_.
Proof.
  intros visited parent_ Hl Hf. revert visited parent_.
  induction fuel as [| fuel IH]; intros visited [id |] Hp; cbn [ancestors_loop]; try done.
  destruct (existsb _ visited); [done |]. rewrite (Hp id eq_refl), <- Hf. apply IH.
  intros p. destruct (file_records t f !! id_def id) as [s |] eqn:Hs; [| done]. cbn. intros Hps.
  eapply Hl; [by eapply list_elem_of_lookup_2 | done].
Qed.

(** The ancestors of a symbol depend on its file only. *)
Lemma symbol_ancestors_local symbol t t' f :
  symbol ∈ file_records t f -> local_parents t f -> file_records t f = file_records t' f ->
  symbol_ancestors (E:=E) symbol t = symbol_ancestors symbol t'.
Proof.
  intros Hs Hl Hf. unfold symbol_ancestors.
  destruct (symbol_ancestors_returns symbol t) as [r Hr], (symbol_ancestors_returns symbol t') as [r' Hr'].
  unfold symbol_ancestors in *. rewrite Hr, Hr'.
  assert (forall p, parent symbol = Some p -> id_file p = f) as Hp by (intros p; by eapply Hl).
  set (n := Nat.max (S (S (length (iter t)))) (S (S (length (iter t'))))).
  apply (ancestors_loop_mono _ _ n) in Hr, Hr'; [| lia..].
  rewrite (ancestors_loop_local t t' f) in Hr by done. congruence.
Qed.

Lemma inventory_record_returns symbol source t : returns (inventory_record symbol source t).
Proof.
  unfold inventory_record. apply returns_bind; [apply parse_segments_returns |]. intros segs _.
  apply returns_bind; [apply symbol_ancestors_returns |]. intros a _. apply returns_ret.
Qed.

Lemma inventory_record_fields symbol source t r :
  inventory_record (E:=E) symbol source t = Ok r ->
  i_id r = s_id symbol /\ i_source r = s_source symbol /\ i_identity r = identity symbol.
Proof. unfold inventory_record. intros H. res_inv. subst. done. Qed.

Lemma inventory_record_local symbol source t t' f :
  symbol ∈ file_records t f -> local_parents t f -> file_records t f = file_records t' f ->
  inventory_record (E:=E) symbol source t = inventory_record symbol source t'.
Proof.
  intros Hs Hl Hf. unfold inventory_record. by rewrite (symbol_ancestors_local symbol t t' f).
Qed.
End total.
End InventoryTotal.

Module InventoryInv.
Import Snapshot Compact Inventory InventoryTotal.
Section inv.
Context {R : Roaring} {RL : RoaringLaws R} {FX : FxHash}.

Abbreviation Recs := (gmap N InventorySymbol).
Implicit Types o : N.

Lemma fresh_ne {A} (m : gmap N A) (o o' : N) (x : A) : m !! o = None -> m !! o' = Some x -> o <> o'.
Proof. intros Ho Hx ->. congruence. Qed.

(** ** Postings *)

Section posting.
Context `{Countable K}.
Implicit Type m : gmap K SymbolSet.

Definition listed m (k : K) (o : N) : Prop := set_contains (default set_new (m !! k)) o = true.

Definition nonempty m : Prop := forall k s, m !! k = Some s -> set_is_empty s = false.

(** The postings of a facet whose keys of a record are [keys]. *)
Record facet_exact (keys : InventorySymbol -> list K) (recs : Recs) m : Prop := mk_exact {
  exact_listed k o : listed m k o <-> exists r, recs !! o = Some r /\ k ∈ keys r;
  exact_nonempty : nonempty m
}.

Lemma facet_exact_empty keys : facet_exact keys ∅ ∅.
Proof using RL.
  split.
  - intros k o. unfold listed, set_contains, set_new. rewrite lookup_empty. cbn [from_option id]. rewrite bm_contains_new.
    split; [done |]. intros (r & Hr & _). by rewrite lookup_empty in Hr.
  - intros k s. by rewrite lookup_empty.
Qed.

Lemma listed_insert m k o k' o' :
  listed (insert_posting m k o) k' o' <-> (k' = k /\ o' = o) \/ listed m k' o'.
Proof using RL.
  unfold listed, insert_posting, set_contains, set_insert, set_new. destruct (decide (k' = k)) as [-> | Hne].
  - rewrite lookup_insert_eq. cbn [from_option id]. rewrite bm_contains_insert, orb_true_iff, bool_decide_eq_true. tauto.
  - rewrite lookup_insert_ne by done. split; [by right | by intros [[? _] |]].
Qed.

Lemma listed_remove m k o k' o' :
  listed (remove_posting m k o) k' o' <-> ~ (k' = k /\ o' = o) /\ listed m k' o'.
Proof using RL.
  unfold remove_posting, listed, set_contains, set_remove, set_is_empty, set_new.
  destruct (m !! k) as [s |] eqn:Hk.
  - destruct (decide (k' = k)) as [-> | Hne].
    + rewrite Hk. cbn [from_option id]. destruct (bm_is_empty (bm_remove o s)) eqn:He.
      * rewrite lookup_delete_eq. cbn [from_option id]. rewrite bm_contains_new.
        rewrite bm_empty_iff in He. specialize (He o'). rewrite bm_contains_remove in He.
        split; [done |]. intros [Hn Hs]. rewrite Hs, andb_true_r in He.
        apply negb_false_iff, bool_decide_eq_true in He. by destruct Hn.
      * rewrite lookup_insert_eq. cbn [from_option id]. rewrite bm_contains_remove, andb_true_iff, negb_true_iff, bool_decide_eq_false.
        tauto.
    + destruct (bm_is_empty _); rewrite ?lookup_delete_ne, ?lookup_insert_ne by done; tauto.
  - split; [| tauto]. intros Hs. split; [| done]. intros [-> ->].
    rewrite Hk in Hs. cbn in Hs. by rewrite bm_contains_new in Hs.
Qed.

Lemma nonempty_insert m k o : nonempty m -> nonempty (insert_posting m k o).
Proof using RL.
  intros Hm k' s. unfold insert_posting. intros [[<- <-] | [_ Hk]]%lookup_insert_Some; [| by eapply Hm].
  unfold set_is_empty, set_insert.
  destruct (bm_is_empty _) eqn:He; [| done]. rewrite bm_empty_iff in He. specialize (He o).
  by rewrite bm_contains_insert, bool_decide_true in He.
Qed.

Lemma nonempty_remove m k o : nonempty m -> nonempty (remove_posting m k o).
Proof.
  intros Hm k' s. unfold remove_posting. destruct (m !! k) as [s0 |]; [| by apply Hm].
  destruct (set_is_empty _) eqn:He.
  - intros [_ Hk]%lookup_delete_Some. by eapply Hm.
  - intros [[<- <-] | [_ Hk]]%lookup_insert_Some; [done | by eapply Hm].
Qed.

Lemma listed_insert_all ks m o k' o' :
  listed (foldl (fun m k => insert_posting m k o) m ks) k' o' <->
  (k' ∈ ks /\ o' = o) \/ listed m k' o'.
Proof using RL.
  revert m. induction ks as [| k ks IH]; intros m; cbn.
  - split; [by right |]. intros [[Hn _] | ?]; [by apply not_elem_of_nil in Hn | done].
  - rewrite IH, listed_insert, elem_of_cons. tauto.
Qed.

Lemma listed_remove_all ks m o k' o' :
  listed (foldl (fun m k => remove_posting m k o) m ks) k' o' <->
  ~ (k' ∈ ks /\ o' = o) /\ listed m k' o'.
Proof using RL.
  revert m. induction ks as [| k ks IH]; intros m; cbn.
  - split; [| tauto]. intros Hs. split; [| done]. intros [Hn _]. by apply not_elem_of_nil in Hn.
  - rewrite IH, listed_remove, elem_of_cons. tauto.
Qed.

Lemma facet_exact_insert keys recs m o r :
  facet_exact keys recs m -> recs !! o = None ->
  facet_exact keys (<[o := r]> recs) (foldl (fun m k => insert_posting m k o) m (keys r)).
Proof using RL.
  intros [Hl Hn] Ho. split.
  - intros k o'. rewrite listed_insert_all, Hl. split.
    + intros [[Hk ->] | (r' & Hr & Hk)]; [exists r; by rewrite lookup_insert_eq |].
      exists r'. rewrite lookup_insert_ne; [done | by eapply fresh_ne].
    + intros (r' & [[<- <-] | [Hne Hr]]%lookup_insert_Some & Hk); [by left | right; by exists r'].
  - clear Hl. revert m Hn. generalize (keys r). intros ks. induction ks as [| k ks IH]; intros m Hn; [done |].
    apply IH. by apply nonempty_insert.
Qed.

Lemma facet_exact_delete keys recs m o r :
  facet_exact keys recs m -> recs !! o = Some r ->
  facet_exact keys (delete o recs) (foldl (fun m k => remove_posting m k o) m (keys r)).
Proof using RL.
  intros [Hl Hn] Ho. split.
  - intros k o'. rewrite listed_remove_all, Hl. split.
    + intros [Hk (r' & Hr & Hk')]. exists r'. rewrite lookup_delete_ne; [done |].
      intros Heq. subst o'. rewrite Ho in Hr. injection Hr as <-. by apply Hk.
    + intros (r' & [Hne Hr]%lookup_delete_Some & Hk). split; [| by exists r'].
      intros [_ ->]. done.
  - clear Hl Ho. revert m Hn. generalize (keys r). intros ks. induction ks as [| k ks IH]; intros m Hn; [done |].
    apply IH. by apply nonempty_remove.
Qed.

(** The same, for a facet of one key. *)
Lemma facet_exact_insert_one (key : InventorySymbol -> K) recs m o r :
  facet_exact (fun r => [key r]) recs m -> recs !! o = None ->
  facet_exact (fun r => [key r]) (<[o := r]> recs) (insert_posting m (key r) o).
Proof using RL. apply (facet_exact_insert (fun r => [key r])). Qed.

Lemma facet_exact_delete_one (key : InventorySymbol -> K) recs m o r :
  facet_exact (fun r => [key r]) recs m -> recs !! o = Some r ->
  facet_exact (fun r => [key r]) (delete o recs) (remove_posting m (key r) o).
Proof using RL. apply (facet_exact_delete (fun r => [key r])). Qed.
End posting.

(** ** All the facets *)

Record facets_exact (recs : Recs) (f : SymbolInventoryFacets) : Prop := mk_facets_exact {
  ex_identity : facet_exact (fun r => [i_identity r]) recs (by_identity f);
  ex_name : facet_exact (fun r => [i_name r]) recs (by_name f);
  ex_natural_name : facet_exact (fun r => [natural_name (i_name r)]) recs (by_natural_name f);
  ex_kind : facet_exact (fun r => [i_kind r]) recs (by_kind f);
  ex_shape : facet_exact (fun r => [i_shape r]) recs (by_shape f);
  ex_visibility : facet_exact (fun r => [i_visibility r]) recs (by_visibility f);
  ex_language : facet_exact (fun r => [i_language r]) recs (by_language f);
  ex_source : facet_exact (fun r => [i_source r]) recs (by_source f);
  ex_source_path : facet_exact (fun r => [source_path r]) recs (by_source_path f);
  ex_source_root : facet_exact (fun r => [i_source_root r]) recs (by_source_root f);
  ex_srcset : facet_exact (fun r => [srcset r]) recs (by_srcset f);
  ex_segment : facet_exact segments recs (by_segment f);
  ex_owner : facet_exact owners recs (by_owner f)
}.

Lemma facets_exact_empty : facets_exact ∅ facets_default.
Proof using RL. split; apply facet_exact_empty. Qed.

Lemma facets_exact_insert recs f o r :
  facets_exact recs f -> recs !! o = None ->
  facets_exact (<[o := r]> recs) (insert_facets f r o).
Proof using RL. intros [] Ho. split; cbn;
    by lazymatch goal with
       | |- facet_exact (fun r => [@?key r]) _ _ => apply (facet_exact_insert_one key)
       | |- _ => apply facet_exact_insert
       end. Qed.

Lemma facets_exact_delete recs f o r :
  facets_exact recs f -> recs !! o = Some r ->
  facets_exact (delete o recs) (remove_facets f r o).
Proof using RL. intros [] Ho. split; cbn;
    by lazymatch goal with
       | |- facet_exact (fun r => [@?key r]) _ _ => apply (facet_exact_delete_one key)
       | |- _ => apply facet_exact_delete
       end. Qed.

(** ** The catalog *)

Record catalog_ok (c : SymbolOrdinalCatalog) : Prop := mk_catalog_ok {
  cat_bij o id : ids c !! o = Some id <-> ordinals_by_id c !! id = Some o;
  cat_fresh o id : ids c !! o = Some id -> (o < next_ordinal c)%N
}.

Lemma catalog_default_ok : catalog_ok catalog_default.
Proof.
  split; intros o id; cbn; rewrite !lookup_empty; [by split | done].
Qed.

Lemma bind_fresh c o id :
  ids c !! o = None -> ordinals_by_id c !! id = None ->
  bind_id o id c = mk_catalog (next_ordinal c) (<[o := id]> (ids c)) (<[id := o]> (ordinals_by_id c)).
Proof. intros Ho Hid. unfold bind_id. by rewrite Ho, Hid. Qed.

Lemma bind_ok c o id :
  catalog_ok c -> ids c !! o = None -> ordinals_by_id c !! id = None -> (o < next_ordinal c)%N ->
  catalog_ok (bind_id o id c).
Proof.
  intros [Hb Hf] Ho Hid Hlt. rewrite bind_fresh by done. split; cbn; intros o' id'.
  - rewrite !lookup_insert_Some, Hb. split.
    + intros [[-> ->] | [Hne Hx]]; [by left |]. right. split; [| done]. intros ->. congruence.
    + intros [[-> ->] | [Hne Hx]]; [by left |]. right. split; [| done]. intros ->.
      apply Hb in Hx. congruence.
  - intros [[<- _] | [_ Hx]]%lookup_insert_Some; [done | by eapply Hf].
Qed.

Lemma unbind_bound c o id :
  catalog_ok c -> ids c !! o = Some id ->
  unbind_id o c = mk_catalog (next_ordinal c) (delete o (ids c)) (delete id (ordinals_by_id c)).
Proof.
  intros [Hb _] Ho. unfold unbind_id. rewrite Ho. by rewrite bool_decide_true by by apply Hb.
Qed.

Lemma unbind_ok c o : catalog_ok c -> catalog_ok (unbind_id o c).
Proof.
  intros Hc. destruct (ids c !! o) as [id |] eqn:Ho; [| by unfold unbind_id; rewrite Ho].
  rewrite (unbind_bound _ _ _ Hc Ho). destruct Hc as [Hb Hf]. split; cbn; intros o' id'.
  - rewrite !lookup_delete_Some, Hb. split; intros [Hne Hx]; (split; [| done]).
    + intros <-. apply Hb in Ho. congruence.
    + intros <-. apply Hb in Hx. congruence.
  - intros [_ Hx]%lookup_delete_Some. by eapply Hf.
Qed.

(** A push of an identifier that is not bound takes a new ordinal. *)
Lemma push_fresh {E : Type} c id :
  catalog_ok c -> ordinals_by_id c !! id = None -> (next_ordinal c < 2 ^ 32 - 1)%N ->
  push (E:=E) id c = Ok (next_ordinal c,
    bind_id (next_ordinal c) id (mk_catalog (next_ordinal c + 1) (ids c) (ordinals_by_id c))) /\
  ids c !! next_ordinal c = None.
Proof.
  intros [_ Hf] Hid Hlt. split.
  - unfold push, ordinal_from_index. rewrite Hid, N2Nat.id.
    change (2 ^ 32 - 1)%N with 4294967295%N in *. change (2 ^ 32)%N with 4294967296%N.
    rewrite (proj2 (N.ltb_lt _ 4294967296)) by lia. cbn [mbind res_bind mret res_ret].
    by rewrite (proj2 (N.ltb_lt _ _)) by done.
  - destruct (ids c !! next_ordinal c) eqn:Ho; [| done]. apply Hf in Ho. lia.
Qed.

(** ** Compact identities *)

Section compact.
(** The compact text of an identity, where it has one. *)
Definition compact_text (identity : bytes) : option bytes :=
  match compact_record_identity (E:=()) identity with Ok c => c | _ => None end.

Definition compact_hash (r : InventorySymbol) : option N :=
  compact_identity_hash <$> compact_text (i_identity r).

Abbreviation Ids := (gmap N SymbolOrdinal).
Abbreviation Cols := (gmap N (list SymbolOrdinal)).

Definition candidates_of (ci : Ids) (cc : Cols) (h : N) : list SymbolOrdinal :=
  match cc !! h with
  | Some l => l
  | None => match ci !! h with Some o => [o] | None => [] end
  end.

Record compact_exact (recs : Recs) (ci : Ids) (cc : Cols) : Prop := mk_compact_exact {
  cand_nodup h : NoDup (candidates_of ci cc h);
  cand_listed h o : o ∈ candidates_of ci cc h <-> exists r, recs !! o = Some r /\ compact_hash r = Some h;
  cand_many h l : cc !! h = Some l -> 2 <= length l /\ is_Some (ci !! h)
}.

Lemma compact_exact_empty : compact_exact ∅ ∅ ∅.
Proof.
  split.
  - intros h. constructor.
  - intros h o. unfold candidates_of. rewrite !lookup_empty.
    split; [by intros ?%not_elem_of_nil | by intros (r & Hr & _)].
  - intros h l. by rewrite lookup_empty.
Qed.

Lemma compact_exact_same recs ci cc o r :
  compact_exact recs ci cc -> recs !! o = None -> compact_hash r = None ->
  compact_exact (<[o := r]> recs) ci cc.
Proof.
  intros [Hn Hl Hm] Ho Hr. split; [done | | done].
  intros h o'. rewrite Hl. split.
  - intros (r' & Hr' & Hh). exists r'. rewrite lookup_insert_ne; [done | by eapply fresh_ne].
  - intros (r' & [[<- <-] | [_ Hr']]%lookup_insert_Some & Hh); [congruence | by exists r'].
Qed.

Lemma compact_exact_drop recs ci cc o r :
  compact_exact recs ci cc -> recs !! o = Some r -> compact_hash r = None ->
  compact_exact (delete o recs) ci cc.
Proof.
  intros [Hn Hl Hm] Ho Hr. split; [done | | done].
  intros h o'. rewrite Hl. split.
  - intros (r' & Hr' & Hh). exists r'. rewrite lookup_delete_ne; [done |].
    intros Heq. subst o'. rewrite Ho in Hr'. injection Hr' as <-. congruence.
  - intros (r' & [_ Hr']%lookup_delete_Some & Hh). by exists r'.
Qed.

(** The candidates after a change at one hash. *)
Lemma candidates_other ci cc ci' cc' h h' :
  ci' !! h' = ci !! h' -> cc' !! h' = cc !! h' -> h' <> h ->
  candidates_of ci' cc' h' = candidates_of ci cc h'.
Proof. intros H1 H2 _. unfold candidates_of. by rewrite H1, H2. Qed.

(** An exact table after its candidates at [h] became [l]. *)
Lemma compact_exact_update recs recs' ci cc ci' cc' h l :
  compact_exact recs ci cc ->
  (forall h', h' <> h -> ci' !! h' = ci !! h' /\ cc' !! h' = cc !! h') ->
  candidates_of ci' cc' h = l -> NoDup l ->
  (forall l, cc' !! h = Some l -> 2 <= length l /\ is_Some (ci' !! h)) ->
  (forall o, o ∈ l <-> exists r, recs' !! o = Some r /\ compact_hash r = Some h) ->
  (forall h' o, h' <> h -> (exists r, recs' !! o = Some r /\ compact_hash r = Some h') <->
                           exists r, recs !! o = Some r /\ compact_hash r = Some h') ->
  compact_exact recs' ci' cc'.
Proof.
  intros [Hn Hl Hm] Hne Hc Hnd Hmany Hlist Hother. split.
  - intros h'. destruct (decide (h' = h)) as [-> | Hh]; [by rewrite Hc |].
    destruct (Hne h' Hh) as [H1 H2]. rewrite (candidates_other ci cc ci' cc' h) by done. apply Hn.
  - intros h' o. destruct (decide (h' = h)) as [-> | Hh]; [by rewrite Hc |].
    destruct (Hne h' Hh) as [H1 H2]. rewrite (candidates_other ci cc ci' cc' h) by done.
    rewrite Hl. symmetry. by apply Hother.
  - intros h' l'. destruct (decide (h' = h)) as [-> | Hh]; [apply Hmany |].
    destruct (Hne h' Hh) as [-> ->]. apply Hm.
Qed.
End compact.
End inv.
End InventoryInv.

Module InventoryStep.
Import Snapshot Compact Inventory InventoryTotal InventoryInv.
Section step.
Context {R : Roaring} {RL : RoaringLaws R} {FX : FxHash}.
Implicit Types (i : SymbolInventoryIndex) (o : N) (h : N).
Abbreviation Recs := (gmap N InventorySymbol).

(** ** Compact identities *)

Lemma hash_insert (recs : Recs) o r h (l : list N) :
  (forall o', o' ∈ l <-> exists r', recs !! o' = Some r' /\ compact_hash r' = Some h) ->
  recs !! o = None -> compact_hash r = Some h ->
  (forall o', o' ∈ l ++ [o] <-> exists r', <[o := r]> recs !! o' = Some r' /\ compact_hash r' = Some h).
Proof.
  intros Hl Ho Hr o'. rewrite elem_of_app, list_elem_of_singleton, Hl. split.
  - intros [(r' & Hr' & Hh) | ->]; [| exists r; by rewrite lookup_insert_eq].
    exists r'. rewrite lookup_insert_ne; [done | by eapply fresh_ne].
  - intros (r' & [[<- <-] | [_ Hr']]%lookup_insert_Some & Hh); [by right |]. left. by exists r'.
Qed.

Lemma hash_insert_other (recs : Recs) o r h h' o' :
  recs !! o = None -> compact_hash r = Some h -> h' <> h ->
  (exists r', <[o := r]> recs !! o' = Some r' /\ compact_hash r' = Some h') <->
  (exists r', recs !! o' = Some r' /\ compact_hash r' = Some h').
Proof.
  intros Ho Hr Hne. split.
  - intros (r' & [[<- <-] | [_ Hr']]%lookup_insert_Some & Hh); [congruence | by exists r'].
  - intros (r' & Hr' & Hh). exists r'. rewrite lookup_insert_ne; [done | by eapply fresh_ne].
Qed.

Lemma hash_delete_other (recs : Recs) o r h h' o' :
  recs !! o = Some r -> compact_hash r = Some h -> h' <> h ->
  (exists r', delete o recs !! o' = Some r' /\ compact_hash r' = Some h') <->
  (exists r', recs !! o' = Some r' /\ compact_hash r' = Some h').
Proof.
  intros Ho Hr Hne. split.
  - intros (r' & [_ Hr']%lookup_delete_Some & Hh). by exists r'.
  - intros (r' & Hr' & Hh). exists r'. rewrite lookup_delete_ne; [done |]. intros ->. congruence.
Qed.

Lemma not_candidate recs ci cc o h :
  compact_exact recs ci cc -> recs !! o = None -> o ∉ candidates_of ci cc h.
Proof. intros [_ Hl _] Ho (r & Hr & _)%Hl. congruence. Qed.

Lemma existsb_N o (l : list N) : o ∉ l -> existsb (N.eqb o) l = false.
Proof.
  intros Hn. apply existsb_false, Forall_forall. intros x Hx. apply N.eqb_neq. by intros ->.
Qed.

Lemma index_compact_exact recs i o r h :
  compact_exact recs (compact_identities i) (compact_identity_collisions i) ->
  recs !! o = None -> compact_hash r = Some h ->
  exists ci cc, index_compact_identity i h o = set_compact ci cc i /\
    compact_exact (<[o := r]> recs) ci cc.
Proof.
  intros Hex Ho Hr. pose proof Hex as [Hnd Hl Hm]. unfold index_compact_identity.
  pose proof (not_candidate _ _ _ o h Hex Ho) as Hn.
  assert (NoDup (candidates_of (compact_identities i) (compact_identity_collisions i) h ++ [o])) as Hnd'.
  { apply NoDup_app. split_and!; [apply Hnd | | apply NoDup_singleton].
    by intros x Hx ->%list_elem_of_singleton. }
  pose proof (hash_insert recs o r h _ (Hl h) Ho Hr) as Hl'.
  destruct (compact_identities i !! h) as [e |] eqn:He.
  - eexists _, _. split; [done |].
    assert (default [e] (compact_identity_collisions i !! h) =
      candidates_of (compact_identities i) (compact_identity_collisions i) h) as ->.
    { unfold candidates_of. rewrite He. by destruct (_ !! h). }
    rewrite existsb_N by done.
    eapply (compact_exact_update recs _ _ _ _ _ h); [done | | | exact Hnd' | | done |].
    + intros h' Hne. by rewrite lookup_insert_ne.
    + unfold candidates_of at 1. by rewrite lookup_insert_eq.
    + intros l. rewrite lookup_insert_eq. intros [= <-]. rewrite He. split; [| done].
      rewrite length_app. cbn. unfold candidates_of. rewrite He.
      destruct (compact_identity_collisions i !! h) as [l |] eqn:Hc; [apply Hm in Hc as [? _] |]; cbn; lia.
    + intros h' o' Hne. by eapply hash_insert_other.
  - eexists _, _. split; [done |].
    assert (compact_identity_collisions i !! h = None) as Hc.
    { destruct (compact_identity_collisions i !! h) as [l |] eqn:Hc; [| done].
      apply Hm in Hc as [_ Hs]. rewrite He in Hs. by destruct Hs. }
    unfold candidates_of in Hnd', Hl'. rewrite Hc, He in Hnd', Hl'. cbn [app] in *.
    eapply (compact_exact_update recs _ _ _ _ _ h); [done | | | exact Hnd' | | done |].
    + intros h' Hne. by rewrite lookup_insert_ne.
    + unfold candidates_of. by rewrite Hc, lookup_insert_eq.
    + intros l. by rewrite Hc.
    + intros h' o' Hne. by eapply hash_insert_other.
Qed.

Lemma elem_of_others o x (l : list N) :
  x ∈ List.filter (fun c => negb (c =? o)%N) l <-> x ∈ l /\ x <> o.
Proof. by rewrite !list_elem_of_In, filter_In, negb_true_iff, N.eqb_neq. Qed.

Lemma NoDup_others o (l : list N) : NoDup l -> NoDup (List.filter (fun c => negb (c =? o)%N) l).
Proof. intros H. eapply sublist_NoDup; [done | apply sublist_filter_bool]. Qed.

Lemma unindex_compact_exact recs i o r h :
  compact_exact recs (compact_identities i) (compact_identity_collisions i) ->
  recs !! o = Some r -> compact_hash r = Some h ->
  exists ci cc, unindex_compact_identity i h o = set_compact ci cc i /\
    compact_exact (delete o recs) ci cc.
Proof.
  intros Hex Ho Hr. pose proof Hex as [Hnd Hl Hm].
  set (cand := candidates_of (compact_identities i) (compact_identity_collisions i) h).
  assert (forall o', o' ∈ List.filter (fun c => negb (c =? o)%N) cand <->
    exists r', delete o recs !! o' = Some r' /\ compact_hash r' = Some h) as Hl'.
  { intros o'. rewrite elem_of_others. fold cand in Hl. setoid_rewrite lookup_delete_Some. split.
    - intros [(r' & Hr' & Hh)%Hl Hne]. by exists r'.
    - intros (r' & [Hne Hr'] & Hh). split; [apply Hl; by exists r' | by apply not_eq_sym]. }
  pose proof (NoDup_others o cand (Hnd h)) as Hnd'.
  assert (forall h' o', h' <> h -> _) as Hoth
    by (intros h' o' Hne; exact (hash_delete_other recs o r h h' o' Ho Hr Hne)).
  assert (o ∈ cand) as Hin by (apply Hl; eauto).
  unfold unindex_compact_identity.
  destruct (compact_identity_collisions i !! h) as [l |] eqn:Hc.
  - assert (cand = l) as Hcl by (unfold cand, candidates_of; by rewrite Hc). rewrite Hcl in Hl', Hnd'.
    destruct (List.filter _ l) as [| a [| b rest]] eqn:Hf; (eexists _, _; split; [done |]);
      (eapply (compact_exact_update recs _ _ _ _ _ h); [done | | | exact Hnd' | | done | done]).
    1, 4: intros h' Hne; split; by rewrite ?lookup_insert_ne, ?lookup_delete_ne by done.
    + unfold candidates_of. by rewrite !lookup_delete_eq.
    + intros l'. by rewrite lookup_delete_eq.
    + unfold candidates_of. by rewrite lookup_delete_eq, lookup_insert_eq.
    + intros l'. by rewrite lookup_delete_eq.
    + intros h' Hne. by rewrite lookup_insert_ne.
    + unfold candidates_of. by rewrite lookup_insert_eq.
    + intros l'. rewrite lookup_insert_eq. intros [= <-]. split; [cbn; lia | by eapply Hm].
  - unfold cand, candidates_of in Hin, Hl', Hnd'. rewrite Hc in Hin, Hl', Hnd'.
    destruct (compact_identities i !! h) as [e |] eqn:He; [| by apply not_elem_of_nil in Hin].
    apply list_elem_of_singleton in Hin as ->. rewrite bool_decide_true by done.
    cbn [List.filter] in Hl', Hnd'. rewrite N.eqb_refl in Hl', Hnd'. cbn [negb] in Hl', Hnd'.
    eexists _, _. split; [done |].
    eapply (compact_exact_update recs _ _ _ _ _ h); [done | | | exact Hnd' | | done | done].
    + intros h' Hne. by rewrite lookup_delete_ne.
    + unfold candidates_of. by rewrite Hc, lookup_delete_eq.
    + intros l'. by rewrite Hc.
Qed.

(** ** The invariant *)

Record coherent i : Prop := mk_coherent {
  co_cat : catalog_ok (catalog i);
  co_dom o : is_Some (records i !! o) <-> is_Some (ids (catalog i) !! o);
  co_id o r : records i !! o = Some r -> ids (catalog i) !! o = Some (i_id r);
  co_utf8 o r : records i !! o = Some r -> from_utf8 (i_identity r) = true;
  co_all o : set_contains (all_symbols i) o = true <-> is_Some (records i !! o);
  co_facets : facets_exact (records i) (facets i);
  co_compact : compact_exact (records i) (compact_identities i) (compact_identity_collisions i)
}.

Lemma empty_coherent g : coherent (empty g).
Proof using RL.
  split; cbn.
  - apply catalog_default_ok.
  - intros o. by rewrite !lookup_empty.
  - intros o r. by rewrite lookup_empty.
  - intros o r. by rewrite lookup_empty.
  - intros o. unfold set_contains, set_new. rewrite bm_contains_new, lookup_empty.
    split; [done | by intros []].
  - apply facets_exact_empty.
  - apply compact_exact_empty.
Qed.

Lemma compact_text_Ok identity :
  from_utf8 identity = true -> compact_record_identity (E:=()) identity = Ok (compact_text identity).
Proof.
  intros Hu. destruct (compact_record_identity_returns (E:=()) identity Hu) as [c Hc].
  unfold compact_text. by rewrite Hc.
Qed.

(** Forgetting an ordinal: [unindex_record], then [unbind_id]. *)
Definition forget {E : Type} i o : res E SymbolInventoryIndex :=
  i ← unindex_record i o; mret (set_catalog (unbind_id o (catalog i)) i).

Lemma forget_ok i o r :
  coherent i -> records i !! o = Some r ->
  exists i', forget (E:=()) i o = Ok i' /\ coherent i' /\
    records i' = delete o (records i) /\ ids (catalog i') = delete o (ids (catalog i)) /\
    next_ordinal (catalog i') = next_ordinal (catalog i) /\ generation i' = generation i.
Proof using RL.
  intros [Hcat Hdom Hid Hu Hall Hf Hc] Ho. unfold forget, unindex_record. rewrite Ho.
  rewrite (compact_text_Ok _ (Hu _ _ Ho)), ret_bind.
  pose proof (Hid _ _ Ho) as Hio.
  assert (exists ci cc, match compact_text (i_identity r) with
    | Some compact => unindex_compact_identity
        (mk_index (generation i) (catalog i) (delete o (records i)) (set_remove o (all_symbols i))
           (remove_facets (facets i) r o) (compact_identities i) (compact_identity_collisions i))
        (compact_identity_hash compact) o
    | None => mk_index (generation i) (catalog i) (delete o (records i)) (set_remove o (all_symbols i))
           (remove_facets (facets i) r o) (compact_identities i) (compact_identity_collisions i)
    end = mk_index (generation i) (catalog i) (delete o (records i)) (set_remove o (all_symbols i))
           (remove_facets (facets i) r o) ci cc /\ compact_exact (delete o (records i)) ci cc)
    as (ci & cc & -> & Hc').
  { destruct (compact_text (i_identity r)) as [c |] eqn:Ht.
    - assert (compact_hash r = Some (compact_identity_hash c)) as Hh by (unfold compact_hash; by rewrite Ht).
      set (j := mk_index _ _ _ _ _ _ _).
      destruct (unindex_compact_exact (records i) j o r _ Hc Ho Hh) as (ci & cc & -> & Hx).
      exists ci, cc. by split.
    - exists (compact_identities i), (compact_identity_collisions i). split; [done |].
      eapply compact_exact_drop; [done.. | unfold compact_hash; by rewrite Ht]. }
  eexists. split; [done |]. cbn [set_catalog catalog generation records].
  rewrite (unbind_bound _ _ _ Hcat Hio). split_and!; try done.
  split; cbn.
  - rewrite <- (unbind_bound _ _ _ Hcat Hio). by apply unbind_ok.
  - intros o'. destruct (decide (o' = o)) as [-> | Hne].
    + by rewrite !lookup_delete_eq.
    + rewrite !lookup_delete_ne by done. apply Hdom.
  - intros o' r' [Hne Hr']%lookup_delete_Some. rewrite lookup_delete_ne by done. by apply Hid.
  - intros o' r' [Hne Hr']%lookup_delete_Some. by eapply Hu.
  - intros o'. unfold set_contains, set_remove in *. rewrite bm_contains_remove, andb_true_iff, negb_true_iff, bool_decide_eq_false, Hall.
    destruct (decide (o' = o)) as [-> | Hne].
    + rewrite lookup_delete_eq. split; [by intros [] | by intros []].
    + rewrite lookup_delete_ne by done. tauto.
  - by apply facets_exact_delete.
  - done.
Qed.

(** The ordinal and the catalog with which a symbol is added. *)
Definition placed (c0 : SymbolOrdinalCatalog) (id : SymbolId) (preferred : option N) (o : N)
    (c : SymbolOrdinalCatalog) : Prop :=
  ids c0 !! o = None /\ (o < next_ordinal c)%N /\
  c = mk_catalog (next_ordinal c) (<[o := id]> (ids c0)) (<[id := o]> (ordinals_by_id c0)) /\
  match preferred with
  | Some p => o = p /\ next_ordinal c = next_ordinal c0
  | None => o = next_ordinal c0 /\ next_ordinal c = (next_ordinal c0 + 1)%N
  end.

Lemma place_ok i id preferred :
  coherent i -> ordinals_by_id (catalog i) !! id = None ->
  match preferred with
  | Some p => ids (catalog i) !! p = None /\ (p < next_ordinal (catalog i))%N
  | None => (next_ordinal (catalog i) < 2 ^ 32 - 1)%N
  end ->
  exists o c, (match preferred with
               | Some o => mret (o, bind_id o id (catalog i))
               | None => push id (catalog i)
               end) = Ok (E:=()) (o, c) /\ catalog_ok c /\ placed (catalog i) id preferred o c.
Proof.
  intros [Hcat _ _ _ _ _ _] Hid. destruct preferred as [p |].
  - intros [Hp Hlt]. exists p, (bind_id p id (catalog i)). split; [done |].
    split; [by apply bind_ok |]. rewrite bind_fresh by done. done.
  - intros Hlt. destruct (push_fresh (E:=()) _ id Hcat Hid Hlt) as [Hpush Hnone].
    eexists _, _. split; [exact Hpush |]. split.
    + apply bind_ok; try done; [| cbn; lia]. destruct Hcat as [Hb Hf]. split; cbn; [done |].
      intros o' id' Ho'. apply Hf in Ho'. lia.
    + rewrite bind_fresh by done. unfold placed. cbn. split_and!; try done. lia.
Qed.

Lemma index_record_ok i symbol source t preferred :
  coherent i -> from_utf8 (identity symbol) = true ->
  ordinals_by_id (catalog i) !! s_id symbol = None ->
  match preferred with
  | Some p => ids (catalog i) !! p = None /\ (p < next_ordinal (catalog i))%N
  | None => (next_ordinal (catalog i) < 2 ^ 32 - 1)%N
  end ->
  exists i' o c r, index_record (E:=()) i symbol source t preferred = Ok i' /\ coherent i' /\
    placed (catalog i) (s_id symbol) preferred o c /\ catalog i' = c /\
    inventory_record (E:=()) symbol source t = Ok r /\ records i' = <[o := r]> (records i) /\
    generation i' = generation i.
Proof using RL.
  intros Hco Hu Hid Hp. unfold index_record.
  destruct (place_ok i (s_id symbol) preferred Hco Hid Hp) as (o & c & -> & Hcat & Hpl). rewrite ret_bind.
  destruct Hco as [_ Hdom Hidr Hur Hall Hf Hc].
  pose proof Hpl as (Ho & Hlt & Hceq & _).
  assert (records i !! o = None) as Hro.
  { apply eq_None_not_Some. rewrite Hdom, Ho. by intros []. }
  cbn [set_catalog records]. rewrite Hro.
  destruct (inventory_record_returns (E:=()) symbol source t) as [r Hr].
  cbn [mbind res_bind mret res_ret]. rewrite Hr. cbn [mbind res_bind].
  destruct (inventory_record_fields _ _ _ _ Hr) as (Hr1 & Hr2 & Hr3).
  rewrite Hr3, (compact_text_Ok _ Hu). cbn [mbind res_bind].
  set (j := mk_index _ _ _ (set_insert o _) (insert_facets _ r o) (compact_identities (set_catalog c i)) _).
  assert (exists ci cc, match compact_text (identity symbol) with
    | Some compact => index_compact_identity j (compact_identity_hash compact) o
    | None => j
    end = set_compact ci cc j /\ compact_exact (<[o := r]> (records i)) ci cc) as (ci & cc & -> & Hc').
  { destruct (compact_text (identity symbol)) as [x |] eqn:Ht.
    - apply index_compact_exact; [done | done |]. unfold compact_hash. by rewrite Hr3, Ht.
    - exists (compact_identities i), (compact_identity_collisions i). split; [done |].
      apply compact_exact_same; [done.. |]. unfold compact_hash. by rewrite Hr3, Ht. }
  eexists _, o, c, r. split; [done |]. cbn. split_and!; try done.
  split; cbn.
  - done.
  - intros o'. rewrite Hceq. cbn. destruct (decide (o' = o)) as [-> | Hne].
    + rewrite !lookup_insert_eq. by split; eexists.
    + rewrite !lookup_insert_ne by done. apply Hdom.
  - intros o' r' [[<- <-] | [Hne Hr']]%lookup_insert_Some; rewrite Hceq; cbn.
    + by rewrite lookup_insert_eq, Hr1.
    + rewrite lookup_insert_ne by done. by apply Hidr.
  - intros o' r' [[<- <-] | [Hne Hr']]%lookup_insert_Some; [by rewrite Hr3 | by eapply Hur].
  - intros o'. unfold set_contains, set_insert in *. rewrite bm_contains_insert, orb_true_iff, bool_decide_eq_true, Hall.
    destruct (decide (o' = o)) as [-> | Hne].
    + rewrite lookup_insert_eq. split; [by eexists | by left].
    + rewrite lookup_insert_ne by done. split; [by intros [] | by right].
  - by apply facets_exact_insert.
  - done.
Qed.
End step.
End InventoryStep.
