(* ===== verification/InventoryFacts.v ===== *)
(** The loops of [build] and [refresh]: what an inventory holds after each, for
    tables of records as the workspace makes them.

    Refreshing the inventory after a change of some files gives the answers that
    building it anew from the current records would give. *)

From S2P Require Import Prelude.
From S2P Require Import RustStr.
From S2P Require Import Suppress.
From S2P Require Import EvalCore.
From S2P Require Import Snapshot.
From S2P Require Import Bitmap.
From S2P Require Import Inventory.
From S2P Require Import InventoryInv.

Module InventoryFacts.
Import Snapshot Inventory InventoryTotal InventoryInv InventoryStep.
Section facts.
Context {R : Roaring} {RL : RoaringLaws R} {FX : FxHash}.
Implicit Types (i : SymbolInventoryIndex) (o : N) (t : RecordTable SymbolRecord).
Implicit Types (sources : list SourceFileRecord) (changed : list nat).

(** ** Tables of records *)

(** The table of a workspace: identifiers are distinct, a record and its parent
    are of the file of its slot, and identities are text. *)
Record table_ok t : Prop := mk_table_ok {
  tab_nodup : NoDup (s_id <$> iter t);
  tab_file f s : s ∈ file_records t f -> id_file (s_id s) = f;
  tab_source f s : s ∈ file_records t f -> s_source s = source_at f;
  tab_width f s : s ∈ file_records t f -> (N.of_nat f < 2 ^ 32)%N;
  tab_utf8 f s : s ∈ file_records t f -> from_utf8 (identity s) = true;
  tab_parent f : local_parents t f
}.

Lemma source_at_inj f g :
  (N.of_nat f < 2 ^ 32)%N -> (N.of_nat g < 2 ^ 32)%N -> source_at f = source_at g -> f = g.
Proof.
  intros Hf Hg [= H]. unfold Lines.as_u32 in H. rewrite !N.mod_small in H by done. lia.
Qed.

Lemma source_at_file f : (N.of_nat f < 2 ^ 32)%N -> N.to_nat (source_file (source_at f)) = f.
Proof. intros Hf. cbn. unfold Lines.as_u32. rewrite N.mod_small by done. lia. Qed.

(** The source file of a record. *)
Definition source_of sources (s : SymbolRecord) : SourceFileRecord :=
  default (missing_source (s_source s)) (sources !! N.to_nat (source_file (s_source s))).

(** ** What an inventory holds *)

Definition has i (r : InventorySymbol) : Prop := exists o, records i !! o = Some r.

Definition bound i (id : SymbolId) : Prop := exists r, has i r /\ i_id r = id.

Lemma unbound_catalog i id :
  coherent i -> ~ bound i id -> ordinals_by_id (catalog i) !! id = None.
Proof.
  intros Hco Hn. destruct (ordinals_by_id (catalog i) !! id) as [o |] eqn:Ho; [| done].
  exfalso. apply Hn. apply (cat_bij _ (co_cat _ Hco)) in Ho as Hid.
  destruct (proj2 (co_dom _ Hco o)) as [r Hr]; [by rewrite Hid |].
  exists r. split; [by exists o |]. apply (co_id _ Hco) in Hr. congruence.
Qed.

Lemma has_ordinal i r o :
  coherent i -> has i r -> ids (catalog i) !! o = Some (i_id r) -> records i !! o = Some r.
Proof.
  intros Hco [o' Hr] Ho. pose proof (co_id _ Hco _ _ Hr) as Ho'.
  apply (cat_bij _ (co_cat _ Hco)) in Ho, Ho'. congruence.
Qed.

Lemma has_unique i r r' : coherent i -> has i r -> has i r' -> i_id r = i_id r' -> r = r'.
Proof.
  intros Hco [o Hr] Hr' Heq. pose proof (co_id _ Hco _ _ Hr) as Ho. rewrite Heq in Ho.
  apply (has_ordinal _ _ _ Hco Hr') in Ho. congruence.
Qed.

Lemma record_by_id_iff i id r :
  coherent i -> record_by_id i id = Some r <-> has i r /\ i_id r = id.
Proof.
  intros Hco. unfold record_by_id, ordinal, record. split.
  - destruct (ordinals_by_id (catalog i) !! id) as [o |] eqn:Ho; [| done]. cbn. intros Hr.
    split; [by exists o |]. apply (cat_bij _ (co_cat _ Hco)) in Ho.
    apply (co_id _ Hco) in Hr. congruence.
  - intros [[o Hr] <-]. pose proof (co_id _ Hco _ _ Hr) as Ho.
    apply (cat_bij _ (co_cat _ Hco)) in Ho. by rewrite Ho.
Qed.

(** An inventory of the records of [t]. *)
Definition holds i sources t : Prop :=
  coherent i /\
  forall r, has i r <-> exists s, s ∈ iter t /\ inventory_record (E:=()) s (source_of sources s) t = Ok r.

(** ** Adding symbols *)

Lemma index_has i symbol source t preferred :
  coherent i -> from_utf8 (identity symbol) = true -> ~ bound i (s_id symbol) ->
  match preferred with
  | Some p => ids (catalog i) !! p = None /\ (p < next_ordinal (catalog i))%N
  | None => (next_ordinal (catalog i) < 2 ^ 32 - 1)%N
  end ->
  exists i' o c, index_record (E:=()) i symbol source t preferred = Ok i' /\ coherent i' /\
    placed (catalog i) (s_id symbol) preferred o c /\ catalog i' = c /\ generation i' = generation i /\
    (forall r, has i' r <-> has i r \/ inventory_record (E:=()) symbol source t = Ok r) /\
    (forall id, bound i' id <-> bound i id \/ id = s_id symbol).
Proof using RL.
  intros Hco Hu Hb Hp.
  destruct (index_record_ok i symbol source t preferred Hco Hu (unbound_catalog _ _ Hco Hb) Hp)
    as (i' & o & c & r & Hi & Hco' & Hpl & Hc & Hr & Hrecs & Hg).
  destruct (inventory_record_fields _ _ _ _ Hr) as (Hid & _ & _).
  assert (records i !! o = None) as Ho.
  { apply eq_None_not_Some. rewrite (co_dom _ Hco). destruct Hpl as [-> _]. by intros []. }
  assert (forall r', has i' r' <-> has i r' \/ inventory_record (E:=()) symbol source t = Ok r') as Hhas.
  { intros r'. unfold has. rewrite Hrecs, Hr. split.
    - intros [o' [[<- <-] | [_ Hr']]%lookup_insert_Some]; [by right | left; by exists o'].
    - intros [[o' Hr'] | [= <-]]; [| exists o; by rewrite lookup_insert_eq].
      exists o'. rewrite lookup_insert_ne; [done |]. by eapply fresh_ne. }
  exists i', o, c. split_and!; try done. intros id. unfold bound. setoid_rewrite Hhas. split.
  - intros (r' & [Hr' | Hr'] & <-); [left; by exists r' |]. right. congruence.
  - intros [(r' & Hr' & <-) | ->]; [exists r'; split; [by left | done] |].
    exists r. split; [by right | done].
Qed.

Lemma build_loop sources t l : forall i,
  coherent i -> Forall (fun s => from_utf8 (identity s) = true) l -> NoDup (s_id <$> l) ->
  (forall s, s ∈ l -> ~ bound i (s_id s)) ->
  (next_ordinal (catalog i) + N.of_nat (length l) < 2 ^ 32)%N ->
  exists i', fold_res (fun i symbol => index_record (E:=()) i symbol (source_of sources symbol) t None) i l = Ok i' /\
    coherent i' /\ generation i' = generation i /\
    (forall r, has i' r <-> has i r \/
       exists s, s ∈ l /\ inventory_record (E:=()) s (source_of sources s) t = Ok r).
Proof using RL.
  induction l as [| s l IH]; intros i Hco Hu Hnd Hb Hcap; cbn [fold_res].
  - exists i. split_and!; try done. intros r. split; [by left |].
    intros [? | (s & Hs & _)]; [done | by apply not_elem_of_nil in Hs].
  - apply Forall_cons in Hu as [Hu Hul]. cbn in Hnd. apply NoDup_cons in Hnd as [Hn Hnd].
    cbn [length] in Hcap. change (2 ^ 32)%N with 4294967296%N in Hcap.
    destruct (index_has i s (source_of sources s) t None Hco Hu) as
      (i1 & o & c & Hi & Hco1 & Hpl & Hc & Hg & Hhas & Hbd); [apply Hb; by left | |].
    { change (2 ^ 32 - 1)%N with 4294967295%N. lia. }
    rewrite Hi, ret_bind. destruct (IH i1) as (i' & Hi' & Hco' & Hg' & Hhas'); try done.
    + intros s' Hs' [Hb' | Heq]%Hbd; [by eapply (Hb s'); [right |] |].
      apply Hn. rewrite <- Heq. by apply list_elem_of_fmap_2.
    + destruct Hpl as (_ & _ & _ & _ & Hnext). rewrite Hc, Hnext.
      change (2 ^ 32)%N with 4294967296%N. lia.
    + exists i'. split_and!; [done | done | congruence |]. intros r. rewrite Hhas', Hhas.
      setoid_rewrite elem_of_cons. split.
      * intros [[? | ?] | (s' & ? & ?)]; [by left | right; exists s; by split; [left |] | right; exists s'; by split; [right |]].
      * intros [? | (s' & [-> | ?] & ?)]; [by left; left | by left; right | right; by exists s'].
Qed.

Lemma tab_all_utf8 t : table_ok t -> Forall (fun s => from_utf8 (identity s) = true) (iter t).
Proof. intros Ht. apply Forall_forall. intros s [f Hs]%elem_of_iter. by eapply tab_utf8. Qed.

Lemma not_bound_empty g id : ~ bound (empty g) id.
Proof. intros (r & [o Hr] & _). cbn in Hr. by rewrite lookup_empty in Hr. Qed.

(** [build] holds the records of its table. *)
Lemma build_holds g sources t :
  table_ok t -> (N.of_nat (length (iter t)) < 2 ^ 32)%N ->
  exists b, build (E:=()) g sources t = Ok b /\ holds b sources t /\ generation b = g.
Proof using RL.
  intros Ht Hcap.
  destruct (build_loop sources t (iter t) (empty g)) as (b & Hb & Hco & Hg & Hhas).
  - apply empty_coherent.
  - by apply tab_all_utf8.
  - by apply tab_nodup.
  - intros s _. apply not_bound_empty.
  - cbn. lia.
  - exists b. split; [exact Hb |]. split; [| done]. split; [done |]. intros r. rewrite Hhas.
    split; [intros [[o Hr] | ?]; [cbn in Hr; by rewrite lookup_empty in Hr | done] | by right].
Qed.

(** ** Forgetting the symbols of the changed files *)

Lemma forget_loop l : forall i,
  coherent i -> NoDup l -> (forall o, o ∈ l -> is_Some (records i !! o)) ->
  exists i', fold_res (forget (E:=())) i l = Ok i' /\ coherent i' /\
    (forall o r, records i' !! o = Some r <-> (o ∉ l) /\ records i !! o = Some r) /\
    (forall o, o ∈ l -> ids (catalog i') !! o = None) /\
    next_ordinal (catalog i') = next_ordinal (catalog i) /\ generation i' = generation i.
Proof using RL.
  induction l as [| x l IH]; intros i Hco Hnd Hin; cbn [fold_res].
  - exists i. split_and!; try done. { intros o r. split; [| tauto]. split; [apply not_elem_of_nil | done]. }
    by intros o ?%not_elem_of_nil.
  - apply NoDup_cons in Hnd as [Hx Hnd]. destruct (Hin x ltac:(by left)) as [r Hr].
    destruct (forget_ok i x r Hco Hr) as (i1 & -> & Hco1 & Hrec & Hids & Hn & Hg). rewrite ret_bind.
    destruct (IH i1 Hco1 Hnd) as (i' & -> & Hco' & Hrec' & Hids' & Hn' & Hg').
    { intros o Ho. rewrite Hrec, lookup_delete_ne; [apply Hin; by right |]. by intros ->. }
    exists i'. split_and!; try done; [| | congruence..].
    + intros o r'. rewrite Hrec', Hrec, lookup_delete_Some, not_elem_of_cons.
      split; [intros (? & ? & ?) | intros ((? & ?) & ?)]; split_and!; congruence || done.
    + intros o [-> | Ho]%elem_of_cons; [| by apply Hids'].
      destruct (ids (catalog i') !! x) eqn:Hix; [| done].
      destruct (proj2 (co_dom _ Hco' x)) as [r' Hr']; [by rewrite Hix |].
      apply Hrec' in Hr' as [_ Hr']. rewrite Hrec, lookup_delete_eq in Hr'. done.
Qed.

Lemma changed_contains i changed o :
  coherent i ->
  (o ∈ changed_ordinals i changed) <->
  exists r, records i !! o = Some r /\ i_source r ∈ source_at <$> changed.
Proof using RL.
  intros Hco. unfold changed_ordinals, set_iter. rewrite bm_iter_contains.
  set (F := fun (acc : SymbolSet) (file : nat) => _).
  assert (forall (acc : SymbolSet), bm_contains (foldl F acc changed) o = true <->
    bm_contains acc o = true \/ exists r, records i !! o = Some r /\ i_source r ∈ source_at <$> changed) as Hgen.
  { induction changed as [| f changed IH]; intros acc; cbn [foldl fmap list_fmap].
    - split; [by left |]. intros [? | (r & _ & Hn)]; [done | by apply not_elem_of_nil in Hn].
    - rewrite IH. unfold F at 1.
      pose proof (exact_listed _ _ _ (ex_source _ _ (co_facets _ Hco)) (source_at f) o) as Hl.
      unfold listed, set_contains, set_new in Hl. setoid_rewrite list_elem_of_singleton in Hl.
      assert ((exists r, records i !! o = Some r /\ i_source r ∈ source_at f :: (source_at <$> changed)) <->
        (exists r, records i !! o = Some r /\ source_at f = i_source r) \/
        (exists r, records i !! o = Some r /\ i_source r ∈ source_at <$> changed)) as Hsplit.
      { setoid_rewrite elem_of_cons. split.
        - intros (r & Hr & [Hs | Hs]); [left | right]; by exists r.
        - intros [(r & Hr & Hs) | (r & Hr & Hs)]; exists r; (split; [done |]); [by left | by right]. }
      rewrite Hsplit. destruct (by_source (facets i) !! source_at f) as [s |]; cbn [from_option id] in Hl;
        unfold set_union_with; rewrite ?bm_contains_or, ?orb_true_iff, ?Hl.
      + tauto.
      + rewrite bm_contains_new in Hl. split; [tauto |]. intros [? | [Hf | ?]]; [tauto | | tauto].
        by apply Hl in Hf. }
  rewrite Hgen. unfold set_new. rewrite bm_contains_new. split; [by intros [] | by right].
Qed.

(** ** The pool of reusable ordinals *)

Abbreviation Pool := (gmap (SourceId * bytes) (list N)).

(** Its ordinals are distinct and not bound. *)
Record pool_ok (m : Pool) (c : SymbolOrdinalCatalog) : Prop := mk_pool_ok {
  pool_nodup key l : m !! key = Some l -> NoDup l;
  pool_free key l o : m !! key = Some l -> o ∈ l -> ids c !! o = None /\ (o < next_ordinal c)%N;
  pool_key key key' l l' o : m !! key = Some l -> m !! key' = Some l' -> o ∈ l -> o ∈ l' -> key = key'
}.

Lemma reusable_lookup i pending key l :
  reusable_ordinals i pending !! key = Some l ->
  l `sublist_of` pending /\
  Forall (fun o => exists r, records i !! o = Some r /\ key = (i_source r, i_identity r)) l.
Proof.
  unfold reusable_ordinals, record.
  set (F := fun (m : Pool) (o : N) => _). revert key l.
  induction pending as [| o pending IH] using rev_ind; intros key l; cbn [foldl].
  { rewrite lookup_empty. done. }
  rewrite foldl_app. cbn [foldl]. unfold F at 1. destruct (records i !! o) as [r |] eqn:Hr.
  - unfold EvalCore.push_at. intros [[<- <-] | [Hne Hl]]%lookup_insert_Some.
    + destruct (foldl F ∅ pending !! _) as [l0 |] eqn:H0; cbn.
      * destruct (IH _ _ H0) as [Hs Hf]. split; [by apply sublist_app |].
        apply Forall_app. split; [done |]. constructor; [by exists r | constructor].
      * split; [by apply sublist_inserts_l |]. constructor; [by exists r | constructor].
    + destruct (IH _ _ Hl) as [Hs Hf]. split; [by apply sublist_inserts_r | done].
  - intros Hl. destruct (IH _ _ Hl) as [Hs Hf]. split; [by apply sublist_inserts_r | done].
Qed.

Lemma pool_initial i pending c :
  NoDup pending -> (forall o, o ∈ pending -> ids c !! o = None /\ (o < next_ordinal c)%N) ->
  pool_ok (reusable_ordinals i pending) c.
Proof.
  intros Hnd Hfree. split.
  - intros key l [Hs _]%reusable_lookup. by eapply sublist_NoDup.
  - intros key l o [Hs _]%reusable_lookup Ho. apply Hfree. eapply elem_of_submseteq; [done |].
    by apply sublist_submseteq.
  - intros key key' l l' o [_ Hf]%reusable_lookup [_ Hf']%reusable_lookup Ho Ho'.
    rewrite Forall_forall in Hf, Hf'. destruct (Hf _ Ho) as (r & Hr & ->), (Hf' _ Ho') as (r' & Hr' & ->).
    congruence.
Qed.

(** Binding an ordinal that is outside the pool. *)
Lemma pool_bind (m : Pool) c c' o id :
  pool_ok m c -> (forall key l, m !! key = Some l -> o ∉ l) ->
  ids c' = <[o := id]> (ids c) -> (next_ordinal c <= next_ordinal c')%N -> pool_ok m c'.
Proof.
  intros [Hnd Hfree Hkey] Ho Hids Hn. split; [done | | done].
  intros key l x Hl Hx. destruct (Hfree _ _ _ Hl Hx) as [Hi Hlt]. split; [| lia].
  rewrite Hids, lookup_insert_ne; [done |]. intros ->. by eapply Ho.
Qed.

Lemma removelast_last {A} (l : list A) x : last l = Some x -> l = removelast l ++ [x].
Proof.
  intros Hl. destruct l as [| y l] using rev_ind; [done |]. clear IHl.
  rewrite last_snoc in Hl. injection Hl as ->. by rewrite removelast_last.
Qed.

Lemma pop_ok (m m' : Pool) c key preferred :
  pool_ok m c -> pop_reusable key m = (preferred, m') ->
  match preferred with
  | Some p => ids c !! p = None /\ (p < next_ordinal c)%N
  | None => True
  end /\
  forall id o c', placed c id preferred o c' -> pool_ok m' c'.
Proof.
  intros Hp. pose proof Hp as [Hnd Hfree Hkey]. unfold pop_reusable.
  assert (forall id o c', placed c id None o c' -> pool_ok m c') as Hnone.
  { intros id o c' (_ & _ & Hc' & -> & Hn). cbn in *. eapply pool_bind; [done | | by rewrite Hc' | lia].
    intros k l Hl Hin. destruct (Hfree _ _ _ Hl Hin). lia. }
  destruct (m !! key) as [l |] eqn:Hl; [| intros [= <- <-]; by split].
  destruct (last l) as [x |] eqn:Hx; [| intros [= <- <-]; by split].
  apply removelast_last in Hx. intros [= <- <-].
  pose proof (Hnd _ _ Hl) as Hndl. rewrite Hx in Hndl. apply NoDup_app in Hndl as (Hndr & Hdis & _).
  split; [apply (Hfree _ _ x Hl); rewrite Hx; apply elem_of_app; right; by left |].
  intros id o c' (_ & _ & Hc' & -> & Hn). cbn in *.
  assert (pool_ok (<[key := removelast l]> m) c) as Hp'.
  { assert (forall k l', <[key := removelast l]> m !! k = Some l' -> exists l0, m !! k = Some l0 /\ l' ⊆ l0) as Hsub.
    { intros k l' [[<- <-] | [_ Hk]]%lookup_insert_Some; [| by exists l'].
      exists l. split; [done |]. rewrite Hx at 2. intros y Hy. apply elem_of_app. by left. }
    split.
    - intros k l' [[<- <-] | [_ Hk]]%lookup_insert_Some; [done | by eapply Hnd].
    - intros k l' y (l0 & Hk & Hs)%Hsub Hy. eapply Hfree; [done | by apply Hs].
    - intros k k' l' l'' y (l0 & Hk & Hs)%Hsub (l1 & Hk' & Hs')%Hsub Hy Hy'.
      eapply Hkey; [exact Hk | exact Hk' | by apply Hs | by apply Hs']. }
  eapply pool_bind; [exact Hp' | | by rewrite Hc' | lia].
  intros k l' [[<- <-] | [Hne Hk]]%lookup_insert_Some Hin.
  - apply (Hdis x Hin). by left.
  - apply Hne. eapply (Hkey key k l l' x); try done. rewrite Hx. apply elem_of_app. right. by left.
Qed.
End facts.
End InventoryFacts.

Module RefreshFacts.
Import Snapshot Inventory InventoryTotal InventoryInv InventoryStep InventoryFacts.
Section refresh.
Context {R : Roaring} {RL : RoaringLaws R} {FX : FxHash}.
Implicit Types (i : SymbolInventoryIndex) (o : N) (t : RecordTable SymbolRecord).
Implicit Types (sources : list SourceFileRecord) (changed : list nat).

(** ** Indexing the symbols of the changed files *)

(** The symbols of [files] with their file, in the order of the two loops. *)
Definition changed_symbols t (files : list nat) : list (nat * SymbolRecord) :=
  concat ((fun f => pair f <$> file_records t f) <$> files).

Lemma elem_of_changed t files f s :
  (f, s) ∈ changed_symbols t files <-> f ∈ files /\ s ∈ file_records t f.
Proof.
  unfold changed_symbols. rewrite list_elem_of_In, in_concat. setoid_rewrite <- list_elem_of_In. split.
  - intros (l & (f' & -> & Hf)%list_elem_of_fmap & (s' & [= -> ->] & Hs)%list_elem_of_fmap). done.
  - intros [Hf Hs]. exists (pair f <$> file_records t f). split.
    + apply list_elem_of_fmap. by exists f.
    + apply list_elem_of_fmap. by exists s.
Qed.

Lemma fold_res_nested {E : Type} {A B C} (g : C -> B -> A -> res E B) (h : C -> list A) files : forall acc,
  fold_res (fun acc f => fold_res (g f) acc (h f)) acc files =
  fold_res (fun acc p => g p.1 acc p.2) acc (concat ((fun f => pair f <$> h f) <$> files)).
Proof.
  induction files as [| f files IH]; intros acc; [done |].
  cbn [fold_res fmap list_fmap concat]. rewrite fold_res_app.
  assert (forall l acc, fold_res (g f) acc l = fold_res (fun acc p => g p.1 acc p.2) acc (pair f <$> l)) as Hin.
  { intros l. induction l as [| x l IHl]; intros acc'; cbn [fold_res fmap list_fmap fst snd]; [done |].
    destruct (g f acc' x); cbn; [apply IHl | done..]. }
  rewrite Hin. destruct (fold_res _ acc (pair f <$> h f)); cbn; [apply IH | done..].
Qed.

Definition file_source sources (f : nat) (s : SymbolRecord) : SourceFileRecord :=
  default (missing_source (s_source s)) (sources !! f).

Lemma reindex_loop sources t l : forall i m,
  coherent i -> pool_ok m (catalog i) ->
  Forall (fun p => from_utf8 (identity p.2) = true) l ->
  NoDup ((fun p => s_id p.2) <$> l) -> (forall p, p ∈ l -> ~ bound i (s_id p.2)) ->
  (next_ordinal (catalog i) + N.of_nat (length l) < 2 ^ 32)%N ->
  exists i' m', fold_res (fun acc p => reindex_step (E:=()) sources t p.1 acc p.2) (i, m) l = Ok (i', m') /\
    coherent i' /\ generation i' = generation i /\
    (next_ordinal (catalog i') <= next_ordinal (catalog i) + N.of_nat (length l))%N /\
    (forall r, has i' r <-> has i r \/
       exists f s, (f, s) ∈ l /\ inventory_record (E:=()) s (file_source sources f s) t = Ok r).
Proof using RL.
  induction l as [| [f s] l IH]; intros i m Hco Hm Hu Hnd Hb Hcap; cbn [fold_res fst snd].
  - exists i, m. split_and!; try done; [cbn; lia |]. intros r. split; [by left |].
    intros [? | (f & s & Hs & _)]; [done | by apply not_elem_of_nil in Hs].
  - apply Forall_cons in Hu as [Hu Hul]. cbn [fmap list_fmap fst snd] in Hnd, Hu.
    apply NoDup_cons in Hnd as [Hn Hnd]. cbn [length] in Hcap |- *.
    change (2 ^ 32)%N with 4294967296%N in Hcap.
    unfold reindex_step at 2. destruct (pop_reusable _ m) as [preferred m1] eqn:Hpop.
    destruct (pop_ok m m1 (catalog i) _ preferred Hm Hpop) as [Hpref Hm1].
    destruct (index_has i s (file_source sources f s) t preferred Hco Hu) as
      (i1 & o & c & Hi & Hco1 & Hpl & Hc & Hg & Hhas & Hbd); [exact (Hb _ ltac:(by left)) | |].
    { destruct preferred; [done |]. change (2 ^ 32 - 1)%N with 4294967295%N. lia. }
    fold (file_source sources f s). rewrite Hi, !ret_bind.
    assert (next_ordinal c <= next_ordinal (catalog i) + 1)%N as Hnext.
    { destruct Hpl as (_ & _ & _ & Hpl). destruct preferred; lia. }
    destruct (IH i1 m1) as (i' & m' & Hi' & Hco' & Hg' & Hn' & Hhas'); try done.
    + rewrite Hc. by eapply Hm1.
    + intros p Hp [Hbp | Heq]%Hbd; [by eapply (Hb p); [right |] |].
      apply Hn. rewrite <- Heq. by apply (list_elem_of_fmap_2 (fun p => s_id p.2)).
    + rewrite Hc. change (2 ^ 32)%N with 4294967296%N. lia.
    + exists i', m'. split_and!; [done | done | congruence | rewrite Hc in Hn'; lia |].
      intros r. rewrite Hhas', Hhas. setoid_rewrite elem_of_cons. split.
      * intros [[? | ?] | (f' & s' & ? & ?)]; [by left | right; exists f, s; by split; [left |] |].
        right. exists f', s'. by split; [right |].
      * intros [? | (f' & s' & [[= -> ->] | ?] & ?)]; [by left; left | by left; right |].
        right. by exists f', s'.
Qed.

(** ** The refresh *)

(** Outside [changed], the old and the new inputs agree. *)
Record only_changed sources t sources' t' changed : Prop := mk_only_changed {
  oc_nodup : NoDup changed;
  oc_width f : f ∈ changed -> (N.of_nat f < 2 ^ 32)%N;
  oc_records f : f ∉ changed -> file_records t f = file_records t' f;
  oc_sources f : f ∉ changed -> sources !! f = sources' !! f
}.

Lemma retire_loop l : forall i, foldl (fun i o =>
  match id_of (catalog i) o with
  | None => set_catalog (retire o (catalog i)) i
  | Some _ => i
  end) i l = i.
Proof.
  induction l as [| o l IH]; intros i; cbn [foldl]; [done |]. rewrite <- (IH i) at 2. f_equal.
  unfold id_of, retire, unbind_id. destruct (ids (catalog i) !! o) eqn:Ho; [done |]. by destruct i.
Qed.

Lemma changed_nodup t changed :
  table_ok t -> NoDup changed -> NoDup ((fun p => s_id p.2) <$> changed_symbols t changed).
Proof.
  intros Ht Hnd.
  assert (forall f, NoDup (s_id <$> file_records t f)) as Hfile.
  { intros f. pose proof (tab_nodup _ Ht) as Hall. unfold iter, file_records in *.
    destruct (shards t !! f) as [shard |] eqn:Hs; [| constructor]. cbn.
    apply list_elem_of_split_length in Hs as (pre & suf & Hs & _).
    rewrite Hs, concat_app, fmap_app in Hall. cbn [concat] in Hall.
    apply NoDup_app in Hall as (_ & _ & Hall). rewrite fmap_app in Hall. by apply NoDup_app in Hall as (? & _ & _). }
  induction Hnd as [| f changed Hf Hnd IH]; [constructor |].
  unfold changed_symbols. cbn [fmap list_fmap concat]. rewrite fmap_app, <- list_fmap_compose.
  apply NoDup_app. split_and!; [apply Hfile | | apply IH].
  intros id (s & -> & Hs)%list_elem_of_fmap ([f' s'] & Heq & [Hf' Hs']%elem_of_changed)%list_elem_of_fmap.
  cbn in Heq. apply (tab_file _ Ht) in Hs, Hs'. rewrite Heq in Hs. congruence.
Qed.

(** The part of the inventory that survives the first loop of [refresh]. *)
Lemma forgotten i sources t changed g :
  holds i sources t -> table_ok t -> (forall f, f ∈ changed -> (N.of_nat f < 2 ^ 32)%N) ->
  let i0 := mk_index g (catalog i) (records i) (all_symbols i) (facets i) (compact_identities i)
              (compact_identity_collisions i) in
  exists i1, fold_res (forget (E:=())) i0 (changed_ordinals i0 changed) = Ok i1 /\ coherent i1 /\
    generation i1 = g /\ next_ordinal (catalog i1) = next_ordinal (catalog i) /\
    pool_ok (reusable_ordinals i0 (changed_ordinals i0 changed)) (catalog i1) /\
    (forall r, has i1 r <-> exists f s, (f ∉ changed) /\ s ∈ file_records t f /\
       inventory_record (E:=()) s (source_of sources s) t = Ok r).
Proof using RL.
  intros [Hco Hhas] Ht Hw i0.
  assert (coherent i0) as Hco0 by (destruct Hco; split; done).
  assert (NoDup (changed_ordinals i0 changed)) as Hndc by apply bm_iter_nodup.
  destruct (forget_loop (changed_ordinals i0 changed) i0 Hco0 Hndc) as
    (i1 & Hi1 & Hco1 & Hrec & Hids & Hn & Hg).
  { intros o (r & Hr & _)%(changed_contains i0 changed o Hco0). by exists r. }
  exists i1. split_and!; try done.
  - apply pool_initial; [done |]. intros o Ho. split; [by apply Hids |].
    rewrite Hn. apply (changed_contains i0 changed o Hco0) in Ho as (r & Hr & _).
    apply (cat_fresh _ (co_cat _ Hco0) o (i_id r)). by apply (co_id _ Hco0).
  - intros r. split.
    + intros [o [Ho Hr]%Hrec]. destruct (proj1 (Hhas r)) as (s & [f Hs]%elem_of_iter & Hs').
      { by exists o. }
      exists f, s. split_and!; [| done | done]. intros Hf. apply Ho.
      apply (changed_contains i0 changed o Hco0). exists r. split; [done |].
      destruct (inventory_record_fields _ _ _ _ Hs') as (_ & -> & _).
      rewrite (tab_source _ Ht _ _ Hs). by apply list_elem_of_fmap_2.
    + intros (f & s & Hf & Hs & Hs'). destruct (proj2 (Hhas r)) as [o Ho].
      { exists s. split; [| done]. apply elem_of_iter. by exists f. }
      exists o. apply Hrec. split; [| done]. intros (r' & Hr' & Hin)%(changed_contains i0 changed o Hco0).
      assert (r' = r) as -> by (cbn in Hr'; congruence).
      destruct (inventory_record_fields _ _ _ _ Hs') as (_ & Hsrc & _).
      rewrite Hsrc, (tab_source _ Ht _ _ Hs) in Hin.
      apply list_elem_of_fmap in Hin as (f' & Hff & Hin). apply Hf.
      enough (f = f') as -> by done. apply source_at_inj; [by eapply tab_width | by apply Hw | done].
Qed.

(** The source of a symbol by its own field and by the file of its slot. *)
Lemma source_of_file sources t f s :
  table_ok t -> s ∈ file_records t f -> source_of sources s = file_source sources f s.
Proof.
  intros Ht Hs. unfold source_of, file_source. rewrite (tab_source _ Ht _ _ Hs), source_at_file; [done |].
  by eapply tab_width.
Qed.

(** A symbol of an unchanged file has the same record before and after. *)
Lemma unchanged_record sources t sources' t' changed f s :
  table_ok t -> table_ok t' -> only_changed sources t sources' t' changed -> f ∉ changed ->
  s ∈ file_records t f ->
  inventory_record (E:=()) s (source_of sources s) t = inventory_record s (source_of sources' s) t'.
Proof.
  intros Ht Ht' [_ _ Hr Hs] Hf Hin.
  rewrite (source_of_file sources t f) by done.
  rewrite (source_of_file sources' t' f) by (done || by rewrite <- Hr).
  unfold file_source. rewrite (Hs f Hf).
  eapply inventory_record_local; [done | by apply tab_parent | by apply Hr].
Qed.

Lemma refresh_holds i g sources sources' t t' changed :
  holds i sources t -> table_ok t -> table_ok t' ->
  only_changed sources t sources' t' changed ->
  (next_ordinal (catalog i) + N.of_nat (length (changed_symbols t' changed)) < 2 ^ 32)%N ->
  exists i', refresh (E:=()) i g sources' t' changed = Ok i' /\ holds i' sources' t' /\ generation i' = g /\
    (next_ordinal (catalog i') <=
       next_ordinal (catalog i) + N.of_nat (length (changed_symbols t' changed)))%N.
Proof using RL.
  intros Hh Ht Ht' Hoc Hcap. pose proof Hoc as [Hnd Hw Hrecs Hsrcs].
  destruct (forgotten i sources t changed g Hh Ht Hw) as (i1 & Hi1 & Hco1 & Hg1 & Hn1 & Hpool & Hhas1).
  unfold refresh. fold (@forget R FX ()). rewrite Hi1, ret_bind, fold_res_nested.
  destruct (reindex_loop sources' t' (changed_symbols t' changed) i1 _ Hco1 Hpool)
    as (i2 & m' & Hi2 & Hco2 & Hg2 & Hn2 & Hhas2).
  - apply Forall_forall. intros [f s] [_ Hs]%elem_of_changed. by eapply tab_utf8.
  - by apply changed_nodup.
  - intros [f s] [Hf Hs]%elem_of_changed (r & (f' & s' & Hf' & Hs' & Hr)%Hhas1 & Hid).
    destruct (inventory_record_fields _ _ _ _ Hr) as (Hid' & _ & _). apply Hf'.
    apply (tab_file _ Ht') in Hs. apply (tab_file _ Ht) in Hs'. cbn in Hid. congruence.
  - by rewrite Hn1.
  - unfold changed_symbols in Hi2. rewrite Hi2, ret_bind, retire_loop.
    exists i2. split_and!; [done | | congruence | by rewrite <- Hn1].
    split; [done |]. intros r. rewrite Hhas2, Hhas1. split.
    + intros [(f & s & Hf & Hs & Hr) | (f & s & [Hf Hs]%elem_of_changed & Hr)]; exists s.
      * split; [apply elem_of_iter; exists f; by rewrite <- Hrecs |].
        by rewrite <- (unchanged_record sources t sources' t' changed f).
      * split; [apply elem_of_iter; by exists f |]. by rewrite (source_of_file sources' t' f).
    + intros (s & [f Hs]%elem_of_iter & Hr). destruct (decide (f ∈ changed)) as [Hf | Hf]; [right | left]; exists f, s.
      * split; [by apply elem_of_changed |]. by rewrite <- (source_of_file sources' t' f).
      * rewrite <- Hrecs in Hs by done. split_and!; [done.. |].
        by rewrite (unchanged_record sources t sources' t' changed f).
Qed.

(** ** Histories *)

(** An inventory after a build and any number of refreshes, within the space of
    32-bit ordinals. *)
Inductive reached : SymbolInventoryIndex -> list SourceFileRecord -> RecordTable SymbolRecord -> Prop :=
| reached_build g sources t i :
    table_ok t -> (N.of_nat (length (iter t)) < 2 ^ 32)%N -> build (E:=()) g sources t = Ok i ->
    reached i sources t
| reached_refresh i g sources t sources' t' changed i' :
    reached i sources t -> table_ok t' -> only_changed sources t sources' t' changed ->
    (next_ordinal (catalog i) + N.of_nat (length (changed_symbols t' changed)) < 2 ^ 32)%N ->
    refresh (E:=()) i g sources' t' changed = Ok i' -> reached i' sources' t'.

Lemma reached_holds i sources t : reached i sources t -> holds i sources t /\ table_ok t.
Proof using RL.
  induction 1 as [g sources t i Ht Hn Hb | i g sources t sources' t' changed i' Hr [IH Ht] Ht' Hoc Hcap Hi'].
  - destruct (build_holds g sources t Ht Hn) as (b & Hb' & Hh & _). split; [| done].
    rewrite Hb in Hb'. by injection Hb' as ->.
  - destruct (refresh_holds i g sources sources' t t' changed IH Ht Ht' Hoc Hcap) as (j & Hj & Hh & _).
    rewrite Hi' in Hj. injection Hj as ->. done.
Qed.
End refresh.
End RefreshFacts.
