(* ===== verification/InventoryTheorems.v ===== *)
(** The answers of an inventory, the equivalence of inventories that give the same
    answers, and the theorem that a refreshed inventory is equivalent to a new one. *)

From S2P Require Import Prelude.
From S2P Require Import RustStr.
From S2P Require Import Bitmap.
From S2P Require Import Snapshot.
From S2P Require Import Inventory.
From S2P Require Import InventoryInv.
From S2P Require Import InventoryFacts.

Module InventoryTheorems.
Import Snapshot Inventory InventoryTotal InventoryInv InventoryStep InventoryFacts RefreshFacts.
Section answers.
Context {R : Roaring} {RL : RoaringLaws R} {FX : FxHash}.
Implicit Types (i : SymbolInventoryIndex) (o : N) (t : RecordTable SymbolRecord).

(** ** Answers *)

(** The symbols a posting table lists under a key; [None] when it has no entry. *)
Definition posting_ids `{Countable K} i (m : gmap K SymbolSet) (k : K) : option (list SymbolId) :=
  catalog_ids (catalog i) <$> m !! k.

Definition same_ids : relation (option (list SymbolId)) := option_Forall2 (≡ₚ).

Definition same_postings `{Countable K} i j (tbl : SymbolInventoryFacets -> gmap K SymbolSet) : Prop :=
  forall k, same_ids (posting_ids i (tbl (facets i)) k) (posting_ids j (tbl (facets j)) k).

(** Two inventories that no query tells apart, up to the order of symbols: the
    ordinals differ. *)
Record same_answers i j : Prop := mk_same {
  same_record id : record_by_id i id = record_by_id j id;
  same_all : catalog_ids (catalog i) (all_symbols i) ≡ₚ catalog_ids (catalog j) (all_symbols j);
  same_identity : same_postings i j by_identity;
  same_name : same_postings i j by_name;
  same_natural_name : same_postings i j by_natural_name;
  same_kind : same_postings i j by_kind;
  same_shape : same_postings i j by_shape;
  same_visibility : same_postings i j by_visibility;
  same_language : same_postings i j by_language;
  same_source : same_postings i j by_source;
  same_source_path : same_postings i j by_source_path;
  same_source_root : same_postings i j by_source_root;
  same_srcset : same_postings i j by_srcset;
  same_segment : same_postings i j by_segment;
  same_owner : same_postings i j by_owner;
  same_by_identity identity : symbol_ids_by_identity i identity ≡ₚ symbol_ids_by_identity j identity;
  same_descendants owner :
    catalog_ids (catalog i) (owner_and_descendants i owner) ≡ₚ
    catalog_ids (catalog j) (owner_and_descendants j owner);
  same_compact compact : exists l k,
    symbol_ids_by_compact_identity (E:=()) i compact = Ok l /\
    symbol_ids_by_compact_identity (E:=()) j compact = Ok k /\ l ≡ₚ k
}.

(** ** What the answers are, from the records *)

Lemma ids_inj i o o' id :
  coherent i -> ids (catalog i) !! o = Some id -> ids (catalog i) !! o' = Some id -> o = o'.
Proof. intros Hco Ho Ho'. apply (cat_bij _ (co_cat _ Hco)) in Ho, Ho'. congruence. Qed.

Lemma catalog_ids_nodup i s : coherent i -> NoDup (catalog_ids (catalog i) s).
Proof using RL.
  intros Hco. unfold catalog_ids, id_of. pose proof (bm_iter_nodup s) as Hnd. unfold set_iter.
  induction Hnd as [| o l Ho Hl IH]; cbn; [constructor |].
  destruct (ids (catalog i) !! o) as [id |] eqn:Hi; [| done]. constructor; [| done].
  intros (o' & Ho' & Hid)%list_elem_of_omap. apply Ho. by rewrite (ids_inj i o o' id).
Qed.

Lemma elem_of_catalog_ids i s id :
  id ∈ catalog_ids (catalog i) s <->
  exists o, set_contains s o = true /\ ids (catalog i) !! o = Some id.
Proof using RL.
  unfold catalog_ids, id_of, set_iter, set_contains. rewrite list_elem_of_omap.
  split; intros (o & Ho & Hid); exists o; (split; [by apply bm_iter_contains | done]).
Qed.

(** The symbols of a set that lists the records satisfying [P]. *)
Lemma listed_ids i s (P : InventorySymbol -> Prop) id :
  coherent i -> (forall o, set_contains s o = true <-> exists r, records i !! o = Some r /\ P r) ->
  id ∈ catalog_ids (catalog i) s <-> exists r, has i r /\ P r /\ i_id r = id.
Proof using RL.
  intros Hco Hs. rewrite elem_of_catalog_ids. setoid_rewrite Hs. split.
  - intros (o & (r & Hr & HP) & Hid). exists r. split_and!; [by exists o | done |].
    apply (co_id _ Hco) in Hr. congruence.
  - intros (r & [o Hr] & HP & <-). exists o. split; [by exists r |]. by apply (co_id _ Hco).
Qed.

Lemma facet_ids `{Countable K} i keys (m : gmap K SymbolSet) k id :
  coherent i -> facet_exact keys (records i) m ->
  id ∈ catalog_ids (catalog i) (default set_new (m !! k)) <->
  exists r, has i r /\ k ∈ keys r /\ i_id r = id.
Proof using RL. intros Hco [Hl _]. apply listed_ids; [done |]. apply Hl. Qed.

(** A key has an entry exactly when a record has the key. *)
Lemma facet_entry `{Countable K} i keys (m : gmap K SymbolSet) k :
  coherent i -> facet_exact keys (records i) m ->
  is_Some (m !! k) <-> exists r, has i r /\ k ∈ keys r.
Proof using RL.
  intros Hco [Hl Hn]. unfold listed in Hl. split.
  - intros [s Hs]. pose proof (Hn _ _ Hs) as Hne. unfold set_is_empty in Hne.
    destruct (bm_iter s) as [| o l] eqn:Hi.
    { apply bm_is_empty_iter in Hi. congruence. }
    assert (bm_contains s o = true) as Ho by (apply bm_iter_contains; rewrite Hi; by left).
    destruct (proj1 (Hl k o)) as (r & Hr & Hk); [by rewrite Hs |]. exists r. split; [by exists o | done].
  - intros (r & [o Hr] & Hk). destruct (m !! k) as [s |] eqn:Hs; [done |].
    assert (set_contains (default set_new (m !! k)) o = true) as Hc by (apply Hl; eauto).
    rewrite Hs in Hc. cbn [from_option id] in Hc. unfold set_contains, set_new in Hc.
    by rewrite bm_contains_new in Hc.
Qed.

Section two.
Context {i j : SymbolInventoryIndex} (Hi : coherent i) (Hj : coherent j).
Context (Hsame : forall r, has i r <-> has j r).

Lemma same_set s s' (P : InventorySymbol -> Prop) :
  (forall o, set_contains s o = true <-> exists r, records i !! o = Some r /\ P r) ->
  (forall o, set_contains s' o = true <-> exists r, records j !! o = Some r /\ P r) ->
  catalog_ids (catalog i) s ≡ₚ catalog_ids (catalog j) s'.
Proof using RL Hi Hj Hsame.
  intros Hs Hs'. apply NoDup_Permutation; [by apply catalog_ids_nodup.. |]. intros id.
  rewrite (listed_ids i s P) by done. rewrite (listed_ids j s' P) by done. by setoid_rewrite Hsame.
Qed.

Lemma same_facet `{Countable K} keys (tbl : SymbolInventoryFacets -> gmap K SymbolSet) :
  facet_exact keys (records i) (tbl (facets i)) -> facet_exact keys (records j) (tbl (facets j)) ->
  same_postings i j tbl.
Proof using RL Hi Hj Hsame.
  intros Hfi Hfj k. unfold posting_ids.
  pose proof (facet_entry i keys _ k Hi Hfi) as Ei. pose proof (facet_entry j keys _ k Hj Hfj) as Ej.
  setoid_rewrite Hsame in Ei. rewrite <- Ej in Ei.
  pose proof (exact_listed _ _ _ Hfi k) as Li. pose proof (exact_listed _ _ _ Hfj k) as Lj.
  unfold listed in Li, Lj.
  destruct (tbl (facets i) !! k) as [s |], (tbl (facets j) !! k) as [s' |]; cbn in *.
  - constructor. by apply (same_set s s' (fun r => k ∈ keys r)).
  - destruct (proj1 Ei); [done |]. discriminate.
  - destruct (proj2 Ei); [done |]. discriminate.
  - constructor.
Qed.

Lemma same_bound id : bound i id <-> bound j id.
Proof using Hsame. unfold bound. by setoid_rewrite Hsame. Qed.

Lemma same_record_by_id id : record_by_id i id = record_by_id j id.
Proof using Hi Hj Hsame.
  apply option_eq. intros r. rewrite !record_by_id_iff by done. by rewrite Hsame.
Qed.

Lemma own_contains k owner s o :
  coherent k -> (forall o, set_contains s o = true <-> exists r, records k !! o = Some r /\ owner ∈ owners r) ->
  set_contains (match ordinal (catalog k) owner with Some x => set_insert x s | None => s end) o = true <->
  exists r, records k !! o = Some r /\ (owner ∈ owners r \/ i_id r = owner).
Proof using RL.
  intros Hco Hs. unfold ordinal. split.
  - intros Hc. destruct (ordinals_by_id (catalog k) !! owner) as [x |] eqn:Hx;
      [unfold set_contains, set_insert in *; rewrite bm_contains_insert in Hc;
       apply orb_true_iff in Hc as [Heq%bool_decide_eq_true | Hc] |].
    + subst o. apply (cat_bij _ (co_cat _ Hco)) in Hx. destruct (proj2 (co_dom _ Hco x)) as [r Hr]; [by rewrite Hx |].
      exists r. split; [done |]. right. apply (co_id _ Hco) in Hr. congruence.
    + apply Hs in Hc as (r & Hr & Ho). exists r. split; [done | by left].
    + apply Hs in Hc as (r & Hr & Ho). exists r. split; [done | by left].
  - intros (r & Hr & [Ho | Ho]).
    + assert (set_contains s o = true) as Hc by (apply Hs; eauto).
      destruct (ordinals_by_id (catalog k) !! owner) as [x |]; [| done].
      unfold set_contains, set_insert in *. by rewrite bm_contains_insert, Hc, orb_true_r.
    + apply (co_id _ Hco) in Hr as Hx. apply (cat_bij _ (co_cat _ Hco)) in Hx. rewrite Ho in Hx. rewrite Hx.
      unfold set_contains, set_insert. by rewrite bm_contains_insert, bool_decide_true.
Qed.

Lemma same_owned owner :
  catalog_ids (catalog i) (owner_and_descendants i owner) ≡ₚ
  catalog_ids (catalog j) (owner_and_descendants j owner).
Proof using RL Hi Hj Hsame.
  apply (same_set _ _ (fun r => owner ∈ owners r \/ i_id r = owner)); intros o; unfold owner_and_descendants;
    (apply own_contains; [done |]).
  - apply (exact_listed _ _ _ (ex_owner _ _ (co_facets _ Hi))).
  - apply (exact_listed _ _ _ (ex_owner _ _ (co_facets _ Hj))).
Qed.

Lemma same_identity_ids identity : symbol_ids_by_identity i identity ≡ₚ symbol_ids_by_identity j identity.
Proof using RL Hi Hj Hsame.
  pose proof (same_facet _ by_identity (ex_identity _ _ (co_facets _ Hi)) (ex_identity _ _ (co_facets _ Hj)) identity) as H.
  unfold posting_ids in H. unfold symbol_ids_by_identity.
  destruct (by_identity (facets i) !! identity), (by_identity (facets j) !! identity); cbn in H;
    by inversion H.
Qed.

(** The lookup by compact text returns the symbols whose identity has that text,
    whatever the hash. *)
Lemma compact_ids k compact :
  coherent k -> exists l, symbol_ids_by_compact_identity (E:=()) k compact = Ok l /\ NoDup l /\
    forall id, id ∈ l <-> exists r, has k r /\ compact_text (i_identity r) = Some compact /\ i_id r = id.
Proof.
  intros Hco. unfold symbol_ids_by_compact_identity.
  set (h := compact_identity_hash compact).
  change (match compact_identity_collisions k !! h with
    | Some c => c
    | None => match compact_identities k !! h with Some o => [o] | None => [] end
    end) with (candidates_of (compact_identities k) (compact_identity_collisions k) h).
  destruct (co_compact _ Hco) as [Hnd Hl _]. specialize (Hnd h). specialize (Hl h).
  set (cand := candidates_of _ _ h) in *. unfold record.
  set (g := fun r => if bool_decide (compact_text (i_identity r) = Some compact) then Some (i_id r) else None).
  rewrite (filter_map_res_Ok _ g).
  2:{ apply Forall_forall. intros r (o & _ & Hr)%list_elem_of_omap.
      rewrite compact_text_Ok by (by eapply co_utf8). done. }
  exists (omap g (omap (fun o => records k !! o) cand)). split; [done |]. split.
  - clear Hl. induction Hnd as [| o l Ho Hnd IH]; cbn; [constructor |].
    destruct (records k !! o) as [r |] eqn:Hr; [| done]. cbn. unfold g at 1.
    case_bool_decide; [| done]. constructor; [| done].
    intros (r' & (o' & Ho' & Hr')%list_elem_of_omap & Hg)%list_elem_of_omap. unfold g in Hg.
    case_bool_decide; [| done]. injection Hg as Hid. apply Ho.
    enough (o = o') as -> by done. apply (ids_inj k o o' (i_id r)); [done | by apply (co_id _ Hco) |].
    rewrite <- Hid. by apply (co_id _ Hco).
  - intros id. rewrite list_elem_of_omap. split.
    + intros (r & (o & _ & Hr)%list_elem_of_omap & Hg). unfold g in Hg. case_bool_decide; [| done].
      injection Hg as Hid. exists r. split_and!; [by exists o | done | done].
    + intros (r & [o Hr] & Hc & Hid). exists r. split.
      * apply list_elem_of_omap. exists o. split; [| done]. apply Hl. exists r. split; [done |].
        unfold compact_hash. by rewrite Hc.
      * unfold g. by rewrite bool_decide_true, Hid.
Qed.

Lemma equal_records : same_answers i j.
Proof using RL Hi Hj Hsame.
  destruct (co_facets _ Hi), (co_facets _ Hj). split.
  all: try (eapply same_facet; eassumption).
  - apply same_record_by_id.
  - apply (same_set _ _ (fun _ => True)); intros o; rewrite co_all by done;
      (split; [intros [r Hr]; by exists r | intros (r & Hr & _); by exists r]).
  - apply same_identity_ids.
  - apply same_owned.
  - intros compact. destruct (compact_ids i compact Hi) as (l & Hl & Hndl & Hinl).
    destruct (compact_ids j compact Hj) as (k & Hk & Hndk & Hink). exists l, k. split_and!; [done | done |].
    apply NoDup_Permutation; [done | done |]. intros id. rewrite Hinl, Hink. by setoid_rewrite Hsame.
Qed.
End two.

(** C4: After any history of builds and refreshes, refreshing the
    inventory with the records of the changed files succeeds and gives an
    inventory that answers every query (by identifier, identity, compact text,
    owner and each of the thirteen facets) as one built anew from all the current
    records, although it keeps the ordinals of unchanged symbols. *)
Theorem refresh_as_rebuild i g sources sources' t t' changed
    (Hr : reached i sources t) (Ht' : table_ok t')
    (Hoc : only_changed sources t sources' t' changed)
    (Hcap : (next_ordinal (catalog i) + N.of_nat (length (changed_symbols t' changed)) < 2 ^ 32)%N)
    (Hlen : (N.of_nat (length (iter t')) < 2 ^ 32)%N) :
  exists i' b, refresh (E:=()) i g sources' t' changed = Ok i' /\
    build (E:=()) g sources' t' = Ok b /\ generation i' = g /\ generation b = g /\ same_answers i' b.
Proof using RL.
  destruct (reached_holds i sources t Hr) as [Hh Ht].
  destruct (refresh_holds i g sources sources' t t' changed Hh Ht Ht' Hoc Hcap) as (i' & Hi' & [Hco Hhas] & Hg & _).
  destruct (build_holds g sources' t' Ht' Hlen) as (b & Hb & [Hcob Hhasb] & Hgb).
  exists i', b. split_and!; try done. apply equal_records; [done.. |].
  intros r. by rewrite Hhas, Hhasb.
Qed.
End answers.

(** ** A concrete history *)

(** A check of [table_ok] by computation. *)
Definition record_check (f : nat) (s : SymbolRecord) : bool :=
  (id_file (s_id s) =? f) && bool_decide (s_source s = source_at f) && from_utf8 (identity s)
    && match parent s with Some p => id_file p =? f | None => true end.

Definition table_check (t : RecordTable SymbolRecord) : bool :=
  bool_decide (NoDup (s_id <$> iter t)) && (N.of_nat (length (shards t)) <? 2 ^ 32)%N
    && forallb (fun p => forallb (record_check p.1) p.2) (imap pair (shards t)).

Lemma table_check_ok t : table_check t = true -> table_ok t.
Proof.
  unfold table_check. intros [[Hnd%bool_decide_eq_true Hw%N.ltb_lt]%andb_prop Hall]%andb_prop.
  assert (forall f s, s ∈ file_records t f -> f < length (shards t) /\ record_check f s = true) as Hrec.
  { intros f s Hs. unfold file_records in Hs.
    destruct (shards t !! f) as [shard |] eqn:Hf; [| by apply not_elem_of_nil in Hs]. cbn in Hs.
    split; [by eapply lookup_lt_Some |].
    rewrite forallb_Forall, Forall_forall in Hall.
    specialize (Hall (f, shard)). cbn [fst snd] in Hall. rewrite forallb_Forall, Forall_forall in Hall.
    apply Hall; [| done]. apply elem_of_lookup_imap. by exists f, shard. }
  assert (forall f s, s ∈ file_records t f -> id_file (s_id s) = f /\ s_source s = source_at f /\
    from_utf8 (identity s) = true /\ forall p, parent s = Some p -> id_file p = f) as Hparts.
  { intros f s [_ Hc]%Hrec. unfold record_check in Hc. bool_inv.
    split_and!; [done | by eapply bool_decide_eq_true_1 | done |].
    intros p Hp. rewrite Hp in *. by bool_inv. }
  split; [done | | | | |]; intros f s.
  - intros Hs. apply (proj1 (Hparts _ _ Hs)).
  - intros Hs. apply (proj1 (proj2 (Hparts _ _ Hs))).
  - intros Hs. apply Hrec in Hs as [Hlt _]. eapply N.lt_trans; [| exact Hw]. lia.
  - intros Hs. apply (proj1 (proj2 (proj2 (Hparts _ _ Hs)))).
  - intros p Hs. apply (proj2 (proj2 (proj2 (Hparts _ _ Hs)))).
Qed.

(** Every string has the same hash. *)
Definition one_hash : FxHash := {| fx_hash _ := 0%N |}.
#[local] Existing Instances GsetRoaring.gset_roaring GsetRoaring.gset_roaring_laws one_hash.

Definition sample_symbol (file def : nat) (path name : string) (p : option nat) : SymbolRecord :=
  let s := symbol_new (symbol_at file def) (source_at file) (bs name) (bs "class") in
  mk_symbol None (s_id s) (s_source s) (bs "code+moniker://./lang:rs/dir:src/" ++ bs path) (s_name s)
    (s_kind s) (bs "public") [] None None true None (symbol_at file <$> p).

Definition sample_source (file : nat) (path : string) : SourceFileRecord :=
  mk_source_file (source_at file) [] 0 (bs path) (bs path) (bs path) (bs "rs") [].

Definition sample_sources : list SourceFileRecord := [sample_source 0 "a.rs"; sample_source 1 "b.rs"].

Definition before : RecordTable SymbolRecord := from_shards
  [[sample_symbol 0 0 "class:Shop" "Shop" None; sample_symbol 0 1 "class:Shop/class:Cart" "Cart" (Some 0)];
   [sample_symbol 1 0 "class:User" "User" None]].

(** [Cart] moves up and [Shop] goes. *)
Definition after : RecordTable SymbolRecord := from_shards
  [[sample_symbol 0 0 "class:Shop/class:Cart" "Cart" None; sample_symbol 0 1 "class:Till" "Till" (Some 0)];
   [sample_symbol 1 0 "class:User" "User" None]].

Definition sample_index : SymbolInventoryIndex :=
  match build (E:=()) 1%N sample_sources before with Ok i => i | _ => empty 0%N end.

Lemma sample_reached : reached sample_index sample_sources before.
Proof.
  assert (table_ok before) as Ht by (apply table_check_ok; vm_compute; reflexivity).
  apply (reached_build 1%N); [exact Ht | vm_compute; reflexivity |].
  destruct (build_holds 1%N sample_sources before Ht) as (b & Hb & _); [vm_compute; reflexivity |].
  unfold sample_index. by rewrite Hb.
Qed.

Lemma sample_only_changed : only_changed sample_sources before sample_sources after [0].
Proof.
  split; [apply NoDup_singleton | by intros f ->%list_elem_of_singleton | | done].
  intros [| [| f]] Hf; [by destruct Hf; left | done | done].
Qed.

(** The refresh of a sample. *)
Definition sample_refreshed : Prop :=
  exists i' b, refresh (E:=()) sample_index 2%N sample_sources after [0] = Ok i' /\
    build (E:=()) 2%N sample_sources after = Ok b /\ generation i' = 2%N /\ generation b = 2%N /\
    same_answers i' b.

Lemma refresh_as_rebuild_witness :
  reached sample_index sample_sources before /\ table_ok after /\
  only_changed sample_sources before sample_sources after [0] /\ sample_refreshed.
Proof.
  assert (table_ok after) as Ht by (apply table_check_ok; vm_compute; reflexivity).
  split; [exact sample_reached |]. split; [exact Ht |]. split; [exact sample_only_changed |].
  exact (refresh_as_rebuild sample_index 2%N sample_sources sample_sources before after [0]
    sample_reached Ht sample_only_changed ltac:(vm_compute; reflexivity) ltac:(vm_compute; reflexivity)).
Defined.
End InventoryTheorems.
