(* ===== verification/LinkIndex.v ===== *)
(** The read index of linkage (src/crates/workspace/src/snapshot/model.rs and
    src/crates/workspace/src/linkage/catalog/ordinals.rs): ordinals of references,
    their endpoints, and the postings by which the references of a symbol, a file
    or a source root are found. *)

From S2P Require Import Prelude.
From S2P Require Import Bitmap.
From S2P Require Import Snapshot.
From S2P Require Import Inventory.

Module LinkIndex.
Import Snapshot Inventory.

(** [ReferenceOrdinal(u32)] *)
Abbreviation ReferenceOrdinal := N.

(** [slice::binary_search_by]: the binary search of the standard library. *)
Fixpoint search_loop {A : Type} (fuel : nat) (cmp : A -> comparison) (d : A) (l : list A)
    (base size : nat) : nat :=
  match fuel with
  | O => base
  | S fuel =>
      if size <=? 1 then base
      else
        let half := size / 2 in
        let mid := base + half in
        let base := match cmp (nth mid l d) with Gt => base | _ => mid end in
        search_loop fuel cmp d l base (size - half)
  end.

Definition binary_search_by {A : Type} (cmp : A -> comparison) (l : list A) : option nat :=
  match l with
  | [] => None
  | d :: _ =>
      let base := search_loop (length l) cmp d l 0 (length l) in
      match cmp (nth base l d) with Eq => Some base | _ => None end
  end.

Section linkindex.
Context {R : Roaring} {HO : HashOrder}.

(** ** ordinals.rs *)

Definition reference_from_index {E : Type} (index : nat) : res E ReferenceOrdinal :=
  if (N.of_nat index <? 2 ^ 32)%N then mret (N.of_nat index) else Panic.

Definition ReferenceSet : Type := RoaringBitmap.

Definition ref_new : ReferenceSet := bm_new.
Definition ref_contains (s : ReferenceSet) (r : ReferenceOrdinal) : bool := bm_contains s r.
Definition ref_is_empty (s : ReferenceSet) : bool := bm_is_empty s.
Definition ref_len (s : ReferenceSet) : N := bm_len s.
Definition ref_union_with (s other : ReferenceSet) : ReferenceSet := bm_or s other.
Definition ref_remove_all (s stale : ReferenceSet) : ReferenceSet := bm_sub s stale.
Definition ref_intersection (s other : ReferenceSet) : ReferenceSet := bm_and s other.
Definition ref_union (s other : ReferenceSet) : ReferenceSet := bm_or s other.
Definition ref_difference (s other : ReferenceSet) : ReferenceSet := ref_remove_all s other.
Definition ref_iter (s : ReferenceSet) : list ReferenceOrdinal := bm_iter s.
Definition ref_ordered_iter (s : ReferenceSet) : list ReferenceOrdinal := bm_iter s.
Definition ref_insert (r : ReferenceOrdinal) (s : ReferenceSet) : ReferenceSet := bm_insert r s.
Definition ref_advance_to (r : ReferenceOrdinal) (it : list ReferenceOrdinal)
    : list ReferenceOrdinal := bm_advance_to r it.
Definition ref_from_iter (l : list ReferenceOrdinal) : ReferenceSet :=
  foldl (fun s r => ref_insert r s) ref_new l.

(** ** model.rs: the index *)

Record LegacyLinkageReadIndex : Set := mk_legacy {
  legacy_incoming : gmap SymbolId (list ReferenceId);
  legacy_targets : gmap ReferenceId SymbolId
}.

(** [TraversalReferenceIndex] *)
Abbreviation TraversalReferenceIndex := (gmap SymbolOrdinal (gmap bytes ReferenceSet)).

Record ReferenceClassificationIndex : Type := mk_classification {
  k_resolved : ReferenceSet;
  k_external : ReferenceSet;
  k_candidate : ReferenceSet;
  k_dynamic : ReferenceSet;
  k_manifest_blocked : ReferenceSet;
  k_unresolved : ReferenceSet;
  candidate_reasons : gmap ReferenceOrdinal bytes;
  dynamic_reasons : gmap ReferenceOrdinal bytes;
  unresolved_reasons : gmap ReferenceOrdinal bytes
}.

Definition classification_default : ReferenceClassificationIndex :=
  mk_classification ref_new ref_new ref_new ref_new ref_new ref_new ∅ ∅ ∅.

Record LinkageReadIndex : Type := mk_read_index {
  legacy : option LegacyLinkageReadIndex;
  ri_symbols : SymbolOrdinalCatalog;
  reference_ids : list ReferenceId;
  source_ordinals : list (option SymbolOrdinal);
  target_ordinals : list (option SymbolOrdinal);
  references_without_source : ReferenceSet;
  references_without_target : ReferenceSet;
  source_roots_by_file : list N;
  references_by_source_file : gmap N ReferenceSet;
  references_by_target_file : gmap N ReferenceSet;
  references_by_source_root : gmap N ReferenceSet;
  references_by_target_root : gmap N ReferenceSet;
  outgoing : TraversalReferenceIndex;
  incoming_by_ordinal : TraversalReferenceIndex;
  classifications : ReferenceClassificationIndex
}.

Definition read_index_empty : LinkageReadIndex :=
  mk_read_index None catalog_default [] [] [] ref_new ref_new [] ∅ ∅ ∅ ∅ ∅ ∅ classification_default.

Definition from_edges (edges : list LinkageEdge) : LinkageReadIndex :=
  let legacy := foldl (fun l e =>
    mk_legacy
      (<[e_target e := default [] (legacy_incoming l !! e_target e) ++ [e_reference e]]> (legacy_incoming l))
      (match legacy_targets l !! e_reference e with
       | Some _ => legacy_targets l
       | None => <[e_reference e := e_target e]> (legacy_targets l)
       end)) (mk_legacy ∅ ∅) edges in
  mk_read_index (Some legacy) catalog_default [] [] [] ref_new ref_new [] ∅ ∅ ∅ ∅ ∅ ∅
    classification_default.

Definition reference_ordinal (reference_ids : list ReferenceId) (reference : ReferenceId)
    : option ReferenceOrdinal :=
  N.of_nat <$> binary_search_by (fun r => reference_id_compare r reference) reference_ids.

Definition insert_traversal_reference (index : TraversalReferenceIndex) (symbol : SymbolOrdinal)
    (relation : bytes) (reference : ReferenceOrdinal) : TraversalReferenceIndex :=
  let by_relation := default ∅ (index !! symbol) in
  <[symbol :=
      match by_relation !! relation with
      | Some references => <[relation := ref_insert reference references]> by_relation
      | None => <[relation := ref_from_iter [reference]]> by_relation
      end]> index.

(** [index.entry(key).or_default().insert(reference)] *)
Definition insert_boundary (index : gmap N ReferenceSet) (key : N) (reference : ReferenceOrdinal)
    : gmap N ReferenceSet :=
  <[key := ref_insert reference (default ref_new (index !! key))]> index.

(** The columns [index_references] fills. *)
Record Columns : Type := mk_columns {
  col_ids : list ReferenceId;
  col_sources : list (option SymbolOrdinal);
  col_outgoing : TraversalReferenceIndex
}.

Definition index_reference {E : Type} (symbols : SymbolOrdinalCatalog) (c : Columns)
    (p : nat * ReferenceRecord) : res E Columns :=
  let '(reference_index, reference) := p in
  o ← reference_from_index reference_index;
  let source := ordinal symbols (source_symbol reference) in
  mret {|
    col_ids := col_ids c ++ [r_id reference];
    col_sources := col_sources c ++ [source];
    col_outgoing :=
      match source with
      | Some source => insert_traversal_reference (col_outgoing c) source (r_kind reference) o
      | None => col_outgoing c
      end
  |}.

Definition index_references {E : Type} (symbols : SymbolOrdinalCatalog)
    (references : RecordTable ReferenceRecord) : res E Columns :=
  fold_res (index_reference symbols) (mk_columns [] [] ∅) (imap pair (iter references)).

(** One edge of [index_resolved_edges]: the target column and the incoming
    postings. An index out of range would panic. *)
Definition index_edge {E : Type} (symbols : SymbolOrdinalCatalog) (ids : list ReferenceId)
    (references : RecordTable ReferenceRecord)
    (acc : list (option SymbolOrdinal) * TraversalReferenceIndex) (edge : LinkageEdge)
    : res E (list (option SymbolOrdinal) * TraversalReferenceIndex) :=
  let '(targets, incoming) := acc in
  match reference_ordinal ids (e_reference edge) with
  | None => mret acc
  | Some reference_ordinal =>
      match ordinal symbols (e_target edge) with
      | None => mret acc
      | Some target =>
          if length targets <=? N.to_nat reference_ordinal then Panic
          else
            let targets := <[N.to_nat reference_ordinal := Some target]> targets in
            match find_reference references (e_reference edge) with
            | None => mret (targets, incoming)
            | Some reference =>
                mret (targets, insert_traversal_reference incoming target (r_kind reference) reference_ordinal)
            end
      end
  end.

Definition index_resolved_edges {E : Type} (symbols : SymbolOrdinalCatalog) (ids : list ReferenceId)
    (references : RecordTable ReferenceRecord) (edges : list LinkageEdge)
    : res E (list (option SymbolOrdinal) * TraversalReferenceIndex) :=
  fold_res (index_edge symbols ids references) (replicate (length (iter references)) None, ∅) edges.

(** [.enumerate().filter(is_none).map(from_index).collect()] *)
Definition missing_endpoints {E : Type} (column : list (option SymbolOrdinal)) : res E ReferenceSet :=
  l ← map_res reference_from_index
        (omap (fun p => match p.2 with None => Some p.1 | Some _ => None end) (imap pair column));
  mret (ref_from_iter l).

(** One of the two loops of [index_missing_endpoints]: by file and by root. *)
Definition index_endpoint {E : Type} (symbols : SymbolOrdinalCatalog) (roots : list N)
    (acc : gmap N ReferenceSet * gmap N ReferenceSet) (p : nat * option SymbolOrdinal)
    : res E (gmap N ReferenceSet * gmap N ReferenceSet) :=
  let '(by_file, by_root) := acc in
  match endpoint ← p.2; id_of symbols endpoint with
  | None => mret acc
  | Some symbol =>
      let file := symbol_file symbol in
      o ← reference_from_index p.1;
      let by_file := insert_boundary by_file file o in
      match roots !! N.to_nat file with
      | None => mret (by_file, by_root)
      | Some root => mret (by_file, insert_boundary by_root root o)
      end
  end.

Definition index_endpoints {E : Type} (symbols : SymbolOrdinalCatalog) (roots : list N)
    (column : list (option SymbolOrdinal)) : res E (gmap N ReferenceSet * gmap N ReferenceSet) :=
  fold_res (index_endpoint symbols roots) (∅, ∅) (imap pair column).

(** [insert_reference] *)
Definition insert_reference (set : ReferenceSet) (ids : list ReferenceId) (reference : ReferenceId)
    : option ReferenceOrdinal * ReferenceSet :=
  match reference_ordinal ids reference with
  | None => (None, set)
  | Some o => (Some o, ref_insert o set)
  end.

Definition insert_all_references (ids : list ReferenceId) (references : list ReferenceId) : ReferenceSet :=
  foldl (fun set r => (insert_reference set ids r).2) ref_new references.

(** The loops that also record a reason. *)
Definition insert_reasons (ids : list ReferenceId) (l : list (ReferenceId * bytes))
    : ReferenceSet * gmap ReferenceOrdinal bytes :=
  foldl (fun acc p =>
    let '(o, set) := insert_reference acc.1 ids p.1 in
    (set, match o with Some o => <[o := p.2]> acc.2 | None => acc.2 end)) (ref_new, ∅) l.

Definition is_manifest_blocked (r : UnresolvedReference) : bool :=
  bool_decide (u_reason r = ManifestBlocked).

Definition from_linkage (l : LinkageSnapshot) (ids : list ReferenceId) : ReferenceClassificationIndex :=
  let '(candidate, candidate_reasons) := insert_reasons ids
    ((fun r => (c_reference r, candidate_reason_as_str (c_reason r))) <$> candidates l) in
  let '(dynamic, dynamic_reasons) := insert_reasons ids
    ((fun r => (d_reference r, dynamic_reason_as_str (d_reason r))) <$> dynamic l) in
  let '(unresolved, unresolved_reasons) := insert_reasons ids
    ((fun r => (u_reference r, unresolved_reason_as_str (u_reason r))) <$>
       unresolved l ++ List.filter (fun r => negb (is_manifest_blocked r)) (blocked l)) in
  {|
    k_resolved := insert_all_references ids (e_reference <$> resolved l);
    k_external := insert_all_references ids (x_reference <$> external l);
    k_candidate := candidate;
    k_dynamic := dynamic;
    k_manifest_blocked := insert_all_references ids
      (u_reference <$> List.filter is_manifest_blocked (blocked l ++ manifest_blocked l));
    k_unresolved := unresolved;
    candidate_reasons := candidate_reasons;
    dynamic_reasons := dynamic_reasons;
    unresolved_reasons := unresolved_reasons
  |}.

Definition from_snapshot_with_catalog {E : Type} (linkage : LinkageSnapshot)
    (references : RecordTable ReferenceRecord) (symbols : SymbolOrdinalCatalog)
    (source_roots_by_file : list N) : res E LinkageReadIndex :=
  c ← index_references symbols references;
  '(targets, incoming) ← index_resolved_edges symbols (col_ids c) references (resolved linkage);
  without_source ← missing_endpoints (col_sources c);
  without_target ← missing_endpoints targets;
  '(source_file, source_root) ← index_endpoints symbols source_roots_by_file (col_sources c);
  '(target_file, target_root) ← index_endpoints symbols source_roots_by_file targets;
  mret {|
    legacy := None;
    ri_symbols := symbols;
    reference_ids := col_ids c;
    source_ordinals := col_sources c;
    target_ordinals := targets;
    references_without_source := without_source;
    references_without_target := without_target;
    source_roots_by_file := source_roots_by_file;
    references_by_source_file := source_file;
    references_by_target_file := target_file;
    references_by_source_root := source_root;
    references_by_target_root := target_root;
    outgoing := col_outgoing c;
    incoming_by_ordinal := incoming;
    classifications := from_linkage linkage (col_ids c)
  |}.

(** ** Queries *)

Definition ri_ordinal (ri : LinkageReadIndex) (symbol : SymbolId) : option SymbolOrdinal :=
  ordinal (ri_symbols ri) symbol.

Definition ri_symbol (ri : LinkageReadIndex) (o : SymbolOrdinal) : option SymbolId :=
  id_of (ri_symbols ri) o.

Definition reference_postings_for_relations (by_relation : gmap bytes ReferenceSet)
    (relations : list bytes) : list ReferenceSet :=
  match relations with
  | [] => snd <$> entries by_relation
  | _ => omap (fun relation => by_relation !! relation) relations
  end.

Definition postings_for_relations (index : TraversalReferenceIndex) (symbol : SymbolOrdinal)
    (relations : list bytes) : list ReferenceSet :=
  match index !! symbol with
  | None => []
  | Some by_relation => reference_postings_for_relations by_relation relations
  end.

Definition incoming_postings (ri : LinkageReadIndex) (o : SymbolOrdinal) (relations : list bytes)
    : list ReferenceSet := postings_for_relations (incoming_by_ordinal ri) o relations.

Definition outgoing_postings (ri : LinkageReadIndex) (o : SymbolOrdinal) (relations : list bytes)
    : list ReferenceSet := postings_for_relations (outgoing ri) o relations.

Definition reference_id (ri : LinkageReadIndex) (o : ReferenceOrdinal) : option ReferenceId :=
  reference_ids ri !! N.to_nat o.

Definition reference_source (ri : LinkageReadIndex) (o : ReferenceOrdinal) : option SymbolOrdinal :=
  mjoin (source_ordinals ri !! N.to_nat o).

Definition reference_target (ri : LinkageReadIndex) (o : ReferenceOrdinal) : option SymbolOrdinal :=
  mjoin (target_ordinals ri !! N.to_nat o).

Definition incoming (ri : LinkageReadIndex) (symbol : SymbolId) : list ReferenceId :=
  match ri_ordinal ri symbol with
  | Some o =>
      let references := foldl ref_union_with ref_new (incoming_postings ri o []) in
      omap (reference_id ri) (ref_iter references)
  | None => default [] (l ← legacy ri; legacy_incoming l !! symbol)
  end.

Definition resolved_target (ri : LinkageReadIndex) (reference : ReferenceId) : option SymbolId :=
  match binary_search_by (fun r => reference_id_compare r reference) (reference_ids ri) with
  | Some index =>
      target ← reference_target ri (N.of_nat index); ri_symbol ri target
  | None => l ← legacy ri; legacy_targets l !! reference
  end.

Definition reason_of (reasons : gmap ReferenceOrdinal bytes) (r : ReferenceOrdinal) : bytes :=
  default (bs "unclassified") (reasons !! r).

Definition candidate_reason (k : ReferenceClassificationIndex) (r : ReferenceOrdinal) : bytes :=
  reason_of (candidate_reasons k) r.
Definition dynamic_reason (k : ReferenceClassificationIndex) (r : ReferenceOrdinal) : bytes :=
  reason_of (dynamic_reasons k) r.
Definition unresolved_reason (k : ReferenceClassificationIndex) (r : ReferenceOrdinal) : bytes :=
  reason_of (unresolved_reasons k) r.
End linkindex.
End LinkIndex.
