(* ===== verification/LinkIndexFacts.v ===== *)
(** The read index of linkage lists exactly the references of each symbol, file
    and root; this is what the path engine relies on.

    Building the read index from a snapshot: it succeeds, its columns are the
    endpoints of the references, and its postings are exact. *)

From S2P Require Import Prelude.
From S2P Require Import Snapshot.
From S2P Require Import Bitmap.
From S2P Require Import Inventory.
From S2P Require Import InventoryInv.
From S2P Require Import LinkIndex.

Module LinkIndexFacts.
Import Snapshot Inventory InventoryInv LinkIndex.

(** ** The binary search *)

Section search.
Context {A : Type} (cmp : A -> comparison) (d : A) (l : list A) (k : nat).
Hypothesis Hk : cmp (nth k l d) = Eq.
Hypothesis Hlt : forall i, i < k -> cmp (nth i l d) = Lt.
Hypothesis Hgt : forall i, k < i -> i < length l -> cmp (nth i l d) = Gt.

Lemma search_loop_spec fuel : forall base size,
  size <= fuel -> base <= k < base + size -> base + size <= length l ->
  search_loop fuel cmp d l base size = k.
Proof using Hk Hlt Hgt.
  induction fuel as [| fuel IH]; intros base size Hf Hb Hl; [lia |].
  cbn [search_loop]. destruct (size <=? 1) eqn:Hs; bool_inv; [lia |].
  assert (1 <= size / 2) by (apply Nat.div_le_lower_bound; lia).
  assert (size / 2 < size) by (apply Nat.div_lt; lia).
  destruct (lt_eq_lt_dec (base + size / 2) k) as [[Hc | Hc] | Hc].
  - rewrite Hlt by done. apply IH; lia.
  - rewrite Hc, Hk. apply IH; lia.
  - rewrite Hgt by lia. apply IH; [lia | | lia].
    pose proof (Nat.Div0.mul_div_le size 2). lia.
Qed.
End search.

Lemma search_loop_lt {A} (cmp : A -> comparison) d l fuel : forall base size,
  base + size <= length l -> 1 <= size -> search_loop fuel cmp d l base size < length l.
Proof.
  induction fuel as [| fuel IH]; intros base size Hl H1; cbn [search_loop]; [lia |].
  destruct (size <=? 1) eqn:Hs; bool_inv; [lia |].
  assert (1 <= size / 2) by (apply Nat.div_le_lower_bound; lia).
  assert (size / 2 < size) by (apply Nat.div_lt; lia).
  destruct (cmp _); apply IH; lia.
Qed.

Definition id_lt (a b : ReferenceId) : Prop := reference_id_compare a b = Lt.

Lemma id_compare_eq a b : reference_id_compare a b = Eq <-> a = b.
Proof.
  destruct a as [f r], b as [f' r']. unfold reference_id_compare. cbn.
  destruct (N.compare_spec f f') as [-> | H | H].
  - rewrite N.compare_eq_iff. split; [by intros -> | by intros [=]].
  - split; [done |]. intros [= -> _]. lia.
  - split; [done |]. intros [= -> _]. lia.
Qed.

Lemma id_compare_gt a b : id_lt a b -> reference_id_compare b a = Gt.
Proof.
  destruct a as [f r], b as [f' r']. unfold id_lt, reference_id_compare. cbn.
  rewrite (N.compare_antisym f f'), (N.compare_antisym r r').
  destruct (f ?= f')%N; cbn; [| done..]. by intros ->.
Qed.

Lemma binary_search_sorted (ids : list ReferenceId) id k :
  StronglySorted id_lt ids ->
  binary_search_by (fun r => reference_id_compare r id) ids = Some k <-> ids !! k = Some id.
Proof.
  intros Hs. assert (forall i j x y, i < j -> ids !! i = Some x -> ids !! j = Some y -> id_lt x y) as Hlt.
  { clear k id. induction Hs as [| a l Hl IH Ha]; intros i j x y Hij Hx Hy; [done |].
    destruct j as [| j]; [lia |]. destruct i as [| i]; cbn in Hx, Hy.
    - injection Hx as ->. rewrite Forall_forall in Ha. apply Ha. by eapply list_elem_of_lookup_2.
    - apply (IH i j); [lia | done | done]. }
  unfold binary_search_by. destruct ids as [| d ids']; [done |]. set (ids := d :: ids') in *.
  split.
  - pose proof (search_loop_lt (fun r => reference_id_compare r id) d ids (length ids) 0 (length ids)) as Hb.
    set (b := search_loop _ _ _ _ _ _) in *.
    destruct (reference_id_compare (nth b ids d) id) eqn:Hc; try done. intros [= <-].
    apply id_compare_eq in Hc.
    destruct (nth_lookup_or_length ids b d) as [H | H]; [by rewrite H, Hc |].
    assert (length ids = S (length ids')) as Hn by done. lia.
  - intros Hk. pose proof (lookup_lt_Some _ _ _ Hk) as Hkl.
    rewrite (search_loop_spec _ d ids k); [by rewrite (nth_lookup_Some _ _ _ _ Hk), (proj2 (id_compare_eq id id)) | | | | | |]; try lia.
    + by rewrite (nth_lookup_Some _ _ _ _ Hk), (proj2 (id_compare_eq id id)).
    + intros i Hi. destruct (lookup_lt_is_Some_2 ids i) as [x Hx]; [lia |].
      rewrite (nth_lookup_Some _ _ _ _ Hx). by eapply (Hlt i k).
    + intros i Hi Hil. destruct (lookup_lt_is_Some_2 ids i) as [x Hx]; [lia |].
      rewrite (nth_lookup_Some _ _ _ _ Hx). apply id_compare_gt. by eapply (Hlt k i).
Qed.

Section facts.
Context {R : Roaring} {RL : RoaringLaws R} {HO : HashOrder}.
Implicit Types (k o s t : N).
Abbreviation TraversalReferenceIndex := (gmap N (gmap bytes ReferenceSet)).

(** ** What the index promises *)

Definition in_posting (index : TraversalReferenceIndex) s (relation : bytes) k : Prop :=
  exists by_relation set, index !! s = Some by_relation /\ by_relation !! relation = Some set /\
    ref_contains set k = true.

Definition in_boundary (index : gmap N ReferenceSet) (b : N) k : Prop :=
  exists set, index !! b = Some set /\ ref_contains set k = true.

(** The postings of [ri] against its columns of endpoints, for references whose
    kinds are [kind]. *)
Record postings_exact (ri : LinkageReadIndex) (kind : N -> option bytes) : Prop := mk_postings {
  po_out s relation k : in_posting (outgoing ri) s relation k <->
    reference_source ri k = Some s /\ kind k = Some relation;
  po_in t relation k : in_posting (incoming_by_ordinal ri) t relation k <->
    reference_target ri k = Some t /\ kind k = Some relation;
  po_no_source k : ref_contains (references_without_source ri) k = true <->
    source_ordinals ri !! N.to_nat k = Some None;
  po_no_target k : ref_contains (references_without_target ri) k = true <->
    target_ordinals ri !! N.to_nat k = Some None;
  po_source_file f k : in_boundary (references_by_source_file ri) f k <->
    exists s id, reference_source ri k = Some s /\ ri_symbol ri s = Some id /\ symbol_file id = f;
  po_target_file f k : in_boundary (references_by_target_file ri) f k <->
    exists t id, reference_target ri k = Some t /\ ri_symbol ri t = Some id /\ symbol_file id = f;
  po_source_root r k : in_boundary (references_by_source_root ri) r k <->
    exists s id, reference_source ri k = Some s /\ ri_symbol ri s = Some id /\
      source_roots_by_file ri !! id_file id = Some r;
  po_target_root r k : in_boundary (references_by_target_root ri) r k <->
    exists t id, reference_target ri k = Some t /\ ri_symbol ri t = Some id /\
      source_roots_by_file ri !! id_file id = Some r;
  po_source_symbol k s : reference_source ri k = Some s -> is_Some (ri_symbol ri s);
  po_target_symbol k t : reference_target ri k = Some t -> is_Some (ri_symbol ri t);
  po_columns : length (target_ordinals ri) = length (source_ordinals ri) /\
    length (reference_ids ri) = length (source_ordinals ri)
}.

(** ** Insertions *)

Lemma ref_contains_insert k k' set :
  ref_contains (ref_insert k set) k' = true <-> k' = k \/ ref_contains set k' = true.
Proof using RL.
  unfold ref_contains, ref_insert. by rewrite bm_contains_insert, orb_true_iff, bool_decide_eq_true.
Qed.

Lemma ref_contains_new k : ref_contains ref_new k = true <-> False.
Proof using RL. unfold ref_contains, ref_new. by rewrite bm_contains_new. Qed.

Lemma ref_contains_from_iter k l : ref_contains (ref_from_iter l) k = true <-> k ∈ l.
Proof using RL.
  unfold ref_from_iter.
  assert (forall set : ReferenceSet, ref_contains (foldl (fun (acc : ReferenceSet) r => ref_insert r acc) set l) k = true <->
    k ∈ l \/ ref_contains set k = true) as Hg.
  { induction l as [| x l IH]; intros set; cbn [foldl].
    - split; [by right |]. intros [Hn | ?]; [by apply not_elem_of_nil in Hn | done].
    - rewrite IH, ref_contains_insert, elem_of_cons. tauto. }
  rewrite Hg, ref_contains_new. tauto.
Qed.

Lemma in_posting_insert index s relation k s' relation' k' :
  in_posting (insert_traversal_reference index s relation k) s' relation' k' <->
  (s' = s /\ relation' = relation /\ k' = k) \/ in_posting index s' relation' k'.
Proof using RL.
  unfold insert_traversal_reference, in_posting.
  destruct (decide (s' = s)) as [-> | Hs].
  2:{ rewrite lookup_insert_ne by done. split; [by right | by intros [(? & _) |]]. }
  rewrite lookup_insert_eq.
  assert (forall P : gmap bytes ReferenceSet -> Prop, (forall m, index !! s = Some m -> P m) -> (index !! s = None -> P ∅) ->
    P (default ∅ (index !! s))) as Hcase by (intros P H1 H2; destruct (index !! s); cbn; auto).
  assert ((exists by_relation set, index !! s = Some by_relation /\ by_relation !! relation' = Some set /\
      ref_contains set k' = true) <-> exists set, default ∅ (index !! s) !! relation' = Some set /\ ref_contains set k' = true) as ->.
  { destruct (index !! s) as [m |]; cbn; [| split; [by intros (? & ? & ? & _) | intros (set & Hset & _); by rewrite lookup_empty in Hset]].
    split; [intros (? & set & [= <-] & ? & ?); eauto | intros (set & ? & ?); eauto]. }
  set (m := default ∅ (index !! s)). clearbody m. clear Hcase.
  assert ((exists by_relation set, Some (match m !! relation with
      | Some references => <[relation:=ref_insert k references]> m
      | None => <[relation:=ref_from_iter [k]]> m end) = Some by_relation /\
      by_relation !! relation' = Some set /\ ref_contains set k' = true) <->
    exists set, <[relation := match m !! relation with Some references => ref_insert k references | None => ref_from_iter [k] end]> m
       !! relation' = Some set /\ ref_contains set k' = true) as ->.
  { destruct (m !! relation); split; (intros (x & set & [= <-] & ? & ?) || intros (set & ? & ?)); eauto. }
  destruct (decide (relation' = relation)) as [-> | Hr].
  - setoid_rewrite lookup_insert_eq. destruct (m !! relation) as [set |].
    + split.
      * intros (x & [= <-] & [-> | Hx]%ref_contains_insert); [by left | right; eauto].
      * intros [(_ & _ & ->) | (x & [= <-] & Hx)]; eexists; (split; [done |]); apply ref_contains_insert; auto.
    + split.
      * intros (x & [= <-] & Hx). apply ref_contains_from_iter, list_elem_of_singleton in Hx as ->. by left.
      * intros [(_ & _ & ->) | (x & Hx & _)]; [| done]. eexists. split; [done |].
        apply ref_contains_from_iter. by left.
  - setoid_rewrite lookup_insert_ne; [| done]. split; [by right | by intros [(_ & ? & _) |]].
Qed.

Lemma in_boundary_insert index b k b' k' :
  in_boundary (insert_boundary index b k) b' k' <-> (b' = b /\ k' = k) \/ in_boundary index b' k'.
Proof using RL.
  unfold insert_boundary, in_boundary. destruct (decide (b' = b)) as [-> | Hb].
  - setoid_rewrite lookup_insert_eq. split.
    + intros (set & [= <-] & [-> | Hx]%ref_contains_insert); [by left | right].
      destruct (index !! b) as [s |]; cbn in Hx; [by exists s |]. by apply ref_contains_new in Hx.
    + intros H. eexists. split; [done |]. apply ref_contains_insert.
      destruct H as [[_ ->] | (set & -> & Hx)]; [by left | by right].
  - setoid_rewrite lookup_insert_ne; [| done]. split; [by right | by intros [[? _] |]].
Qed.

Lemma not_in_boundary_empty b k : ~ in_boundary ∅ b k.
Proof. intros (set & Hs & _). by rewrite lookup_empty in Hs. Qed.

Lemma not_in_posting_empty s relation k : ~ in_posting ∅ s relation k.
Proof. intros (m & set & Hm & _). by rewrite lookup_empty in Hm. Qed.
End facts.
End LinkIndexFacts.

Module LinkIndexTheorems.
Import Snapshot Inventory InventoryInv LinkIndex LinkIndexFacts.

Lemma lookup_snoc_iff {A} (l : list A) x k y :
  (l ++ [x]) !! k = Some y <-> l !! k = Some y \/ (k = length l /\ y = x).
Proof.
  rewrite lookup_app_Some. split.
  - intros [? | [Hk Hx]]; [by left |]. right.
    destruct (k - length l) as [| n] eqn:Hn; [| done]. injection Hx as ->. split; [lia | done].
  - intros [? | [-> ->]]; [by left |]. right. by rewrite Nat.sub_diag.
Qed.

Lemma sorted_ids_nodup (l : list ReferenceId) : StronglySorted id_lt l -> NoDup l.
Proof.
  induction 1 as [| a l Hl IH Ha]; [constructor |]. constructor; [| done].
  rewrite Forall_forall in Ha. intros Hin. apply Ha in Hin. unfold id_lt in Hin.
  by rewrite (proj2 (id_compare_eq a a)) in Hin.
Qed.

Lemma StronglySorted_lookup_lt {A} (P : A -> A -> Prop) l (Hs : StronglySorted P l) : forall i j x y,
  i < j -> l !! i = Some x -> l !! j = Some y -> P x y.
Proof.
  induction Hs as [| a l Hl IH Ha]; intros i j x y Hij Hx Hy; [done |].
  destruct j as [| j]; [lia |]. destruct i as [| i]; cbn in Hx, Hy.
  - injection Hx as ->. rewrite Forall_forall in Ha. apply Ha. by eapply list_elem_of_lookup_2.
  - apply (IH i j); [lia | done | done].
Qed.

Section build.
Context {R : Roaring} {RL : RoaringLaws R} {HO : HashOrder}.
Implicit Types (s t f : N).
Abbreviation TraversalReferenceIndex := (gmap N (gmap bytes ReferenceSet)).

Definition narrow (n : nat) : Prop := (N.of_nat n < 2 ^ 32)%N.

Lemma narrow_le n m : narrow m -> n <= m -> narrow n.
Proof. unfold narrow. intros Hm Hn. eapply N.le_lt_trans; [| exact Hm]. lia. Qed.

Lemma from_index_Ok n : narrow n -> reference_from_index (E:=()) n = Ok (N.of_nat n).
Proof. intros Hn. unfold reference_from_index. by rewrite (proj2 (N.ltb_lt _ _) Hn). Qed.

(** ** The columns of the references *)

Lemma index_references_spec (cat : SymbolOrdinalCatalog) (l : list ReferenceRecord) :
  narrow (length l) ->
  exists out, fold_res (index_reference (E:=()) cat) (mk_columns [] [] ∅) (imap pair l) =
      Ok (mk_columns (r_id <$> l) ((fun r => ordinal cat (source_symbol r)) <$> l) out) /\
    forall s relation k, in_posting out s relation k <->
      exists r, l !! N.to_nat k = Some r /\ ordinal cat (source_symbol r) = Some s /\ r_kind r = relation.
Proof using RL.
  induction l as [| x l IH] using rev_ind; intros Hn.
  - exists ∅. split; [done |]. intros s relation k. split.
    + by intros ?%not_in_posting_empty.
    + by intros (r & Hr & _).
  - rewrite length_app in Hn. destruct IH as (out & Hf & Hout); [eapply narrow_le; [done |]; lia |].
    rewrite imap_pair_snoc, fold_res_app, Hf, ret_bind. cbn [fold_res].
    unfold index_reference at 1. rewrite from_index_Ok by (eapply narrow_le; [done |]; lia).
    cbn [mbind res_bind mret res_ret col_ids col_sources col_outgoing].
    rewrite !fmap_app. cbn [fmap list_fmap]. eexists. split; [done |].
    intros s relation k. setoid_rewrite lookup_snoc_iff.
    destruct (ordinal cat (source_symbol x)) as [sx |] eqn:Hs.
    + rewrite in_posting_insert, Hout. split.
      * intros [(-> & -> & ->) | (r & Hr & ?)]; [exists x; split; [right; by rewrite Nat2N.id | done] |].
        exists r. split; [by left | done].
      * intros (r & [Hr | [Hk ->]] & Hs' & Hk'); [right; by exists r |]. left.
        split_and!; [congruence | done | lia].
    + rewrite Hout. split; [intros (r & Hr & ?); exists r; by split; [left |] |].
      intros (r & [Hr | [Hk ->]] & Hs' & Hk'); [by exists r | congruence].
Qed.

(** ** Endpoints *)

Lemma missing_endpoints_spec (column : list (option N)) :
  narrow (length column) ->
  exists set, missing_endpoints (E:=()) column = Ok set /\
    forall k, ref_contains set k = true <-> column !! N.to_nat k = Some None.
Proof using RL.
  intros Hn. unfold missing_endpoints. set (l := omap _ _).
  assert (forall i, i ∈ l <-> column !! i = Some None) as Hl.
  { intros i. unfold l. rewrite list_elem_of_omap. split.
    - intros ([j o] & (j' & o' & [= <- <-] & Hj)%elem_of_lookup_imap & Ho). cbn in Ho.
      destruct o; [done |]. by injection Ho as ->.
    - intros Hi. exists (i, None). split; [| done]. apply elem_of_lookup_imap. by exists i, None. }
  rewrite (map_res_Ok _ N.of_nat).
  2:{ apply Forall_forall. intros i Hi%Hl. apply from_index_Ok. eapply narrow_le; [done |].
      apply lookup_lt_Some in Hi. lia. }
  rewrite ret_bind. eexists. split; [done |]. intros k. rewrite ref_contains_from_iter, list_elem_of_fmap. split.
  - intros (i & -> & Hi%Hl). by rewrite Nat2N.id.
  - intros Hk%Hl. exists (N.to_nat k). by rewrite N2Nat.id.
Qed.

Lemma index_endpoints_spec (cat : SymbolOrdinalCatalog) (roots : list N) (column : list (option N)) :
  narrow (length column) ->
  exists by_file by_root, index_endpoints (E:=()) cat roots column = Ok (by_file, by_root) /\
    (forall f k, in_boundary by_file f k <-> exists s id,
       column !! N.to_nat k = Some (Some s) /\ id_of cat s = Some id /\ symbol_file id = f) /\
    (forall r k, in_boundary by_root r k <-> exists s id,
       column !! N.to_nat k = Some (Some s) /\ id_of cat s = Some id /\ roots !! id_file id = Some r).
Proof using RL.
  unfold index_endpoints. induction column as [| x column IH] using rev_ind; intros Hn.
  - exists ∅, ∅. split; [done |]. split; intros b k; (split; [by intros ?%not_in_boundary_empty | by intros (? & ? & ? & _)]).
  - rewrite length_app in Hn. destruct IH as (by_file & by_root & Hf & Hfile & Hroot); [eapply narrow_le; [done |]; lia |].
    rewrite imap_pair_snoc, fold_res_app, Hf, ret_bind. cbn [fold_res]. unfold index_endpoint at 1. cbn [fst snd].
    assert (forall (P : SymbolId -> Prop) (k : N), (exists s id, (column ++ [x]) !! N.to_nat k = Some (Some s) /\
      id_of cat s = Some id /\ P id) <-> (exists s id, column !! N.to_nat k = Some (Some s) /\ id_of cat s = Some id /\ P id) \/
      (k = N.of_nat (length column) /\ exists id, (x ≫= id_of cat) = Some id /\ P id)) as Hsnoc.
    { intros P k. setoid_rewrite lookup_snoc_iff. split.
      - intros (s & id & [Hs | [Hk <-]] & Hid & HP); [left; by exists s, id |].
        right. split; [lia |]. by exists id.
      - intros [(s & id & Hs & Hid & HP) | (-> & id & Hid & HP)]; [exists s, id; split; [by left | done] |].
        destruct x as [s |]; [| done]. exists s, id. rewrite Nat2N.id. split; [by right | done]. }
    destruct (x ≫= id_of cat) as [id |] eqn:Hx.
    + rewrite from_index_Ok by (eapply narrow_le; [done |]; lia). cbn [mbind res_bind].
      exists (insert_boundary by_file (symbol_file id) (N.of_nat (length column))).
      exists (match roots !! id_file id with Some root => insert_boundary by_root root (N.of_nat (length column)) | None => by_root end).
      split; [unfold id_file; by destruct (roots !! _) |]. split.
      * intros f k. rewrite in_boundary_insert, Hfile, (Hsnoc (fun i => symbol_file i = f)).
        split; [intros [[-> ->] | ?]; [right; split; [done |]; by exists id | by left] |].
        intros [? | (-> & i & [= <-] & <-)]; [by right | by left].
      * intros r k. rewrite (Hsnoc (fun i => roots !! id_file i = Some r)).
        destruct (roots !! id_file id) as [root |] eqn:Hr.
        -- rewrite in_boundary_insert, Hroot. split.
           ++ intros [[-> ->] | ?]; [right; split; [done |]; by exists id | by left].
           ++ intros [? | (-> & i & [= <-] & Hi)]; [by right |]. left. split; [congruence | done].
        -- rewrite Hroot. split; [by left |]. intros [? | (-> & i & [= <-] & Hi)]; [done | congruence].
    + exists by_file, by_root. split; [done |]. split; intros b k; rewrite (Hfile b k) || rewrite (Hroot b k).
      * rewrite (Hsnoc (fun i => symbol_file i = b)). split; [by left | by intros [? | (_ & ? & ? & _)]].
      * rewrite (Hsnoc (fun i => roots !! id_file i = Some b)). split; [by left | by intros [? | (_ & ? & ? & _)]].
Qed.

(** ** Resolved edges *)

Section edges.
Context (cat : SymbolOrdinalCatalog) (references : RecordTable ReferenceRecord).
Abbreviation refs := (iter references).
Hypothesis Hsorted : StronglySorted id_lt (r_id <$> refs).

Lemma ids_nodup : NoDup (r_id <$> refs).
Proof using Hsorted. by apply sorted_ids_nodup. Qed.

Lemma find_reference_spec k r : refs !! k = Some r -> find_reference references (r_id r) = Some r.
Proof using Hsorted.
  intros Hk. assert (forall r', r' ∈ refs -> r_id r' = r_id r -> r' = r) as Huniq.
  { intros r' [k' Hk']%list_elem_of_lookup_1 Hid. pose proof ids_nodup as Hnd.
    assert (k' = k) as ->; [| congruence].
    eapply (NoDup_lookup _ k' k (r_id r)); [done | |]; rewrite list_lookup_fmap.
    - rewrite Hk'. cbn. by rewrite Hid.
    - by rewrite Hk. }
  assert (List.find (fun r' => bool_decide (r_id r' = r_id r)) refs = Some r) as Hfind.
  { destruct (List.find _ refs) as [r' |] eqn:Hf.
    - apply find_some in Hf as [Hin Hd%bool_decide_eq_true]. f_equal.
      apply Huniq; [by apply list_elem_of_In | done].
    - exfalso. eapply find_none in Hf; [| by eapply list_elem_of_In, list_elem_of_lookup_2].
      by rewrite bool_decide_true in Hf. }
  unfold find_reference. cbv zeta. destruct (file_records _ _ !! _) as [r' |] eqn:Hr'; [| done].
  case_bool_decide as Hd; [| done]. f_equal. apply Huniq; [| done].
  apply elem_of_iter. eexists. by eapply list_elem_of_lookup_2.
Qed.

Lemma reference_ordinal_spec id k :
  reference_ordinal (r_id <$> refs) id = Some k <-> exists r, refs !! N.to_nat k = Some r /\ r_id r = id.
Proof using Hsorted.
  unfold reference_ordinal. rewrite fmap_Some. setoid_rewrite (binary_search_sorted _ _ _ Hsorted).
  setoid_rewrite list_lookup_fmap. setoid_rewrite fmap_Some. split.
  - intros (n & (r & Hr & ->) & ->). exists r. by rewrite Nat2N.id.
  - intros (r & Hr & <-). exists (N.to_nat k). rewrite N2Nat.id. split; [by exists r | done].
Qed.

(** The edge that resolves a reference to a known symbol. *)
Definition resolves (edges : list LinkageEdge) (r : ReferenceRecord) t : Prop :=
  exists e, e ∈ edges /\ e_reference e = r_id r /\ ordinal cat (e_target e) = Some t.

Lemma index_resolved_spec edges :
  NoDup (e_reference <$> edges) ->
  exists targets inc,
    index_resolved_edges (E:=()) cat (r_id <$> refs) references edges = Ok (targets, inc) /\
    length targets = length refs /\
    (forall k t, targets !! k = Some (Some t) <-> exists r, refs !! k = Some r /\ resolves edges r t) /\
    (forall t relation k, in_posting inc t relation k <->
       exists r, refs !! N.to_nat k = Some r /\ resolves edges r t /\ r_kind r = relation).
Proof using RL Hsorted.
  unfold index_resolved_edges. induction edges as [| e edges IH] using rev_ind; intros Hnd.
  - exists (replicate (length refs) None), ∅. split_and!; [done | by rewrite length_replicate | |].
    + intros k t. rewrite lookup_replicate. split; [by intros [? _] |].
      intros (r & _ & e & He & _). by apply not_elem_of_nil in He.
    + intros t relation k. split; [by intros ?%not_in_posting_empty |].
      intros (r & _ & (e & He & _) & _). by apply not_elem_of_nil in He.
  - rewrite fmap_app in Hnd. apply NoDup_app in Hnd as (Hnd & Hdis & _).
    destruct (IH Hnd) as (targets & inc & Hf & Hlen & Ht & Hi).
    rewrite fold_res_app, Hf, ret_bind. cbn [fold_res]. unfold index_edge at 1.
    assert (forall r t, resolves (edges ++ [e]) r t <-> resolves edges r t \/
      (e_reference e = r_id r /\ ordinal cat (e_target e) = Some t)) as Hsnoc.
    { intros r t. unfold resolves. setoid_rewrite elem_of_app. setoid_rewrite list_elem_of_singleton. split.
      - intros (e' & [He' | ->] & ?); [left; by exists e' | by right].
      - intros [(e' & He' & ?) | ?]; [exists e'; split; [by left | done] | exists e; split; [by right | done]]. }
    assert (forall r t, e_reference e = r_id r -> ~ resolves edges r t) as Hfresh.
    { intros r t Hr (e' & He' & Hid & _). apply (Hdis (e_reference e')); [by apply list_elem_of_fmap_2 |].
      apply list_elem_of_singleton. congruence. }
    destruct (reference_ordinal (r_id <$> refs) (e_reference e)) as [k0 |] eqn:Hk0.
    2:{ exists targets, inc. assert (forall k r t, refs !! k = Some r -> resolves (edges ++ [e]) r t <-> resolves edges r t) as Hsame.
        { intros k r t Hr. rewrite Hsnoc. split; [| by left]. intros [? | [Hid _]]; [done |].
          enough (reference_ordinal (r_id <$> refs) (e_reference e) = Some (N.of_nat k)) by congruence.
          apply reference_ordinal_spec. exists r. by rewrite Nat2N.id. }
        split_and!; try done.
        - intros k t. rewrite Ht. split; intros (r & Hr & H); exists r; (split; [done |]); by apply (Hsame _ _ _ Hr).
        - intros t relation k. rewrite Hi. split; intros (r & Hr & H & ?); exists r; (split_and!; [done | by apply (Hsame _ _ _ Hr) | done]). }
    apply reference_ordinal_spec in Hk0 as (r0 & Hr0 & Hid0).
    destruct (ordinal cat (e_target e)) as [t0 |] eqn:Ht0.
    2:{ exists targets, inc. assert (forall r t, resolves (edges ++ [e]) r t <-> resolves edges r t) as Hsame.
        { intros r t. rewrite Hsnoc. split; [intros [? | [_ ?]]; done | by left]. }
        split_and!; try done.
        - intros k t. rewrite Ht. by setoid_rewrite Hsame.
        - intros t relation k. rewrite Hi. by setoid_rewrite Hsame. }
    pose proof (lookup_lt_Some _ _ _ Hr0) as Hlt.
    rewrite (proj2 (Nat.leb_gt _ _)) by lia. rewrite <- Hid0, (find_reference_spec _ _ Hr0). cbn [mbind res_bind mret res_ret].
    assert (forall k r, refs !! k = Some r -> r_id r = r_id r0 -> k = N.to_nat k0) as Huk.
    { intros k r Hr Hid. eapply (NoDup_lookup _ k (N.to_nat k0) (r_id r0)); [apply ids_nodup | |];
        rewrite list_lookup_fmap; [rewrite Hr; cbn; by rewrite Hid | by rewrite Hr0]. }
    eexists _, _. split_and!; [done | by rewrite length_insert | |].
    + intros k t. setoid_rewrite Hsnoc. destruct (decide (k = N.to_nat k0)) as [-> | Hne].
      * rewrite list_lookup_insert_eq by lia. split.
        -- intros [= ->]. exists r0. split; [done | by right].
        -- intros (r & Hr & [Hres | [_ Hres]]); [| congruence]. exfalso. eapply Hfresh; [| exact Hres]. congruence.
      * rewrite list_lookup_insert_ne by done. rewrite Ht. split; intros (r & Hr & H); exists r; (split; [done |]); [by left |].
        destruct H as [? | [Hid _]]; [done |]. exfalso. apply Hne. eapply Huk; [done | congruence].
    + intros t relation k. rewrite in_posting_insert, Hi. setoid_rewrite Hsnoc. split.
      * intros [(-> & -> & ->) | (r & Hr & Hres & ?)]; [exists r0; split_and!; [done | by right | done] |].
        exists r. split_and!; [done | by left | done].
      * intros (r & Hr & [Hres | [Hid Hres]] & Hk); [right; by exists r |]. left.
        assert (r = r0) as -> by (pose proof (Huk _ _ Hr ltac:(congruence)); congruence).
        split_and!; [congruence | done |]. apply N2Nat.inj. eapply Huk; [exact Hr | done].
Qed.
End edges.

(** ** The whole index *)

Definition kind_of (references : RecordTable ReferenceRecord) k : option bytes :=
  r_kind <$> iter references !! N.to_nat k.

Lemma insert_all_spec (references : RecordTable ReferenceRecord) l k :
  StronglySorted id_lt (r_id <$> iter references) ->
  ref_contains (insert_all_references (r_id <$> iter references) l) k = true <->
  exists r, iter references !! N.to_nat k = Some r /\ r_id r ∈ l.
Proof using RL.
  intros Hs. unfold insert_all_references.
  set (F := fun (set : ReferenceSet) (r : ReferenceId) => _).
  assert (forall set : ReferenceSet, ref_contains (foldl F set l) k = true <-> ref_contains set k = true \/
    exists r, iter references !! N.to_nat k = Some r /\ r_id r ∈ l) as Hg.
  { induction l as [| x l IH]; intros set; cbn [foldl].
    - split; [by left |]. intros [? | (r & _ & Hn)]; [done | by apply not_elem_of_nil in Hn].
    - rewrite IH. unfold F at 1, insert_reference. setoid_rewrite elem_of_cons.
      destruct (reference_ordinal (r_id <$> iter references) x) as [o |] eqn:Ho; cbn [snd].
      + apply (reference_ordinal_spec _ Hs) in Ho as (r & Hr & Hid). rewrite ref_contains_insert. split.
        * intros [[-> | ?] | (r' & Hr' & ?)]; [right; exists r; split; [done | by left] | by left |].
          right. exists r'. split; [done | by right].
        * intros [? | (r' & Hr' & [Hx | ?])]; [by left; right | | right; by exists r'].
          left. left. enough (Some o = Some k) by congruence. rewrite <- (proj2 (reference_ordinal_spec references Hs x k)).
          -- symmetry. apply (reference_ordinal_spec references Hs). by exists r.
          -- by exists r'.
      + split; [intros [? | (r' & Hr' & ?)]; [by left | right; exists r'; split; [done | by right]] |].
        intros [? | (r' & Hr' & [Hx | ?])]; [by left | | right; by exists r'].
        enough (reference_ordinal (r_id <$> iter references) x = Some k) by congruence.
        apply (reference_ordinal_spec _ Hs). by exists r'. }
  rewrite Hg, ref_contains_new. split; [by intros [[] |] | by right].
Qed.

(** What [from_snapshot_with_catalog] builds. *)
Record index_of (linkage : LinkageSnapshot) (references : RecordTable ReferenceRecord)
    (cat : SymbolOrdinalCatalog) (roots : list N) (ri : LinkageReadIndex) : Prop := mk_index_of {
  io_catalog : ri_symbols ri = cat;
  io_roots : source_roots_by_file ri = roots;
  io_postings : postings_exact ri (kind_of references);
  io_ids : reference_ids ri = r_id <$> iter references;
  io_source k r : iter references !! N.to_nat k = Some r ->
    reference_source ri k = ordinal cat (source_symbol r);
  io_target k t : reference_target ri k = Some t <->
    exists r, iter references !! N.to_nat k = Some r /\ resolves cat (resolved linkage) r t;
  io_resolved k : ref_contains (k_resolved (classifications ri)) k = true <->
    exists r e, iter references !! N.to_nat k = Some r /\ e ∈ resolved linkage /\ e_reference e = r_id r
}.

Lemma mjoin_Some {A} (l : list (option A)) n x : mjoin (l !! n) = Some x <-> l !! n = Some (Some x).
Proof. destruct (l !! n) as [[y |] |]; cbn; split; congruence. Qed.

Lemma read_index_built linkage references cat roots :
  StronglySorted id_lt (r_id <$> iter references) -> narrow (length (iter references)) ->
  catalog_ok cat -> NoDup (e_reference <$> resolved linkage) ->
  exists ri, from_snapshot_with_catalog (E:=()) linkage references cat roots = Ok ri /\
    index_of linkage references cat roots ri.
Proof using RL.
  intros Hs Hn Hcat Hnd. unfold from_snapshot_with_catalog, index_references.
  destruct (index_references_spec cat (iter references) Hn) as (out & -> & Hout). rewrite ret_bind.
  cbn [col_ids col_sources col_outgoing].
  destruct (index_resolved_spec cat references Hs (resolved linkage) Hnd) as (targets & inc & -> & Hlen & Ht & Hinc).
  rewrite ret_bind. set (sources := (fun r => ordinal cat (source_symbol r)) <$> iter references).
  assert (narrow (length sources)) as Hns by (unfold sources; by rewrite length_fmap).
  assert (narrow (length targets)) as Hnt by by rewrite Hlen.
  destruct (missing_endpoints_spec sources Hns) as (no_source & -> & Hno_source). rewrite ret_bind.
  destruct (missing_endpoints_spec targets Hnt) as (no_target & -> & Hno_target). rewrite ret_bind.
  destruct (index_endpoints_spec cat roots sources Hns) as (sf & sr & -> & Hsf & Hsr). rewrite ret_bind.
  destruct (index_endpoints_spec cat roots targets Hnt) as (tf & tr & -> & Htf & Htr). rewrite ret_bind.
  eexists. split; [done |].
  assert (forall k s, sources !! k = Some (Some s) <-> exists r, iter references !! k = Some r /\ ordinal cat (source_symbol r) = Some s) as Hsrc.
  { intros k s. unfold sources. rewrite list_lookup_fmap, fmap_Some. split; intros (r & Hr & H); exists r; by split. }
  assert (forall o, (exists id, ordinal cat id = Some o) -> is_Some (id_of cat o)) as Hord.
  { intros o [id Hid]. apply (cat_bij _ Hcat) in Hid. by exists id. }
  split; cbn; try done.
  - split; unfold reference_source, reference_target, ri_symbol, kind_of; cbn; try done.
    + intros s relation k. rewrite Hout, mjoin_Some, Hsrc, fmap_Some. split.
      * intros (r & Hr & Hs' & <-). split; by exists r.
      * intros [(r & Hr & Hs') (r' & Hr' & ->)]. exists r. split_and!; congruence.
    + intros t relation k. rewrite Hinc, mjoin_Some, Ht, fmap_Some. split.
      * intros (r & Hr & Hres & <-). split; by exists r.
      * intros [(r & Hr & Hres) (r' & Hr' & ->)]. exists r. split_and!; [done | done | congruence].
    + intros f k. setoid_rewrite mjoin_Some. apply Hsf.
    + intros f k. setoid_rewrite mjoin_Some. apply Htf.
    + intros r k. setoid_rewrite mjoin_Some. apply Hsr.
    + intros r k. setoid_rewrite mjoin_Some. apply Htr.
    + intros k s. rewrite mjoin_Some, Hsrc. intros (r & _ & Ho). apply Hord. by eexists.
    + intros k t. rewrite mjoin_Some, Ht. intros (r & _ & e & _ & _ & Ho). apply Hord. by eexists.
    + rewrite Hlen. unfold sources. by rewrite !length_fmap.
  - intros k r Hr. unfold reference_source. cbn. unfold sources. by rewrite list_lookup_fmap, Hr.
  - intros k t. unfold reference_target. cbn. by rewrite mjoin_Some, Ht.
  - intros k. unfold from_linkage. destruct (insert_reasons _ _) as [c1 m1], (insert_reasons _ _) as [c2 m2], (insert_reasons _ _) as [c3 m3]. cbn.
    rewrite insert_all_spec by done. setoid_rewrite list_elem_of_fmap. split.
    + intros (r & Hr & e & Hid & He). exists r, e. by split_and!.
    + intros (r & e & Hr & He & Hid). exists r. split; [done |]. by exists e.
Qed.

(** ** Its queries *)

Lemma elem_of_postings index s k :
  (exists p, p ∈ postings_for_relations index s [] /\ ref_contains p k = true) <->
  exists relation, in_posting index s relation k.
Proof.
  unfold postings_for_relations, in_posting, reference_postings_for_relations, entries.
  destruct (index !! s) as [m |].
  - split.
    + intros (p & ([relation q] & -> & Hin)%list_elem_of_fmap & Hk). exists relation, m, q.
      rewrite hash_order_perm in Hin. apply elem_of_map_to_list in Hin. done.
    + intros (relation & m' & set & [= <-] & Hset & Hk). exists set. split; [| done].
      apply list_elem_of_fmap. exists (relation, set). split; [done |].
      rewrite hash_order_perm. by apply elem_of_map_to_list.
  - split; [by intros (p & Hp%not_elem_of_nil & _) | by intros (? & ? & ? & ? & _)].
Qed.

Lemma contains_unions (l : list ReferenceSet) k : forall set : ReferenceSet,
  ref_contains (foldl ref_union_with set l) k = true <->
  ref_contains set k = true \/ exists p, p ∈ l /\ ref_contains p k = true.
Proof using RL.
  induction l as [| p l IH]; intros set; cbn [foldl].
  - split; [by left |]. intros [? | (p & Hp & _)]; [done | by apply not_elem_of_nil in Hp].
  - rewrite IH. unfold ref_union_with, ref_contains. rewrite bm_contains_or, orb_true_iff.
    setoid_rewrite elem_of_cons. split.
    + intros [[? | ?] | (q & ? & ?)]; [by left | right; exists p; split; [by left | done] | right; exists q; split; [by right | done]].
    + intros [? | (q & [-> | ?] & ?)]; [by left; left | by left; right | right; by exists q].
Qed.

(** C26: The read index of a snapshot, built without a panic, answers from
    the resolved edges alone: the resolved target of a reference is the target of
    its edge, the incoming references of a symbol are those whose edge ends at it,
    in the order of the references, and the postings by symbol and kind, by file
    and by source root list exactly the references that have that endpoint. *)
Theorem read_index_exact (linkage : LinkageSnapshot) (references : RecordTable ReferenceRecord)
    (cat : SymbolOrdinalCatalog) (roots : list N)
    (Hs : StronglySorted id_lt (r_id <$> iter references)) (Hn : narrow (length (iter references)))
    (Hcat : catalog_ok cat) (Hnd : NoDup (e_reference <$> resolved linkage)) :
  exists ri, from_snapshot_with_catalog (E:=()) linkage references cat roots = Ok ri /\
    postings_exact ri (kind_of references) /\
    (forall r y, r ∈ iter references -> (resolved_target ri (r_id r) = Some y <->
       exists e, e ∈ resolved linkage /\ e_reference e = r_id r /\ e_target e = y /\ is_Some (ordinal cat y))) /\
    (forall y, is_Some (ordinal cat y) ->
       StronglySorted id_lt (incoming ri y) /\
       forall id, id ∈ incoming ri y <->
         exists e, e ∈ resolved linkage /\ e_target e = y /\ e_reference e = id /\ id ∈ r_id <$> iter references).
Proof using RL.
  destruct (read_index_built linkage references cat roots Hs Hn Hcat Hnd) as (ri & Hri & Hio).
  exists ri. split; [done |]. destruct Hio as [Hc _ Hp Hids _ Ht _]. split_and!; [done | |].
  - intros r y [k Hk]%list_elem_of_lookup_1. unfold resolved_target. rewrite Hids.
    rewrite (proj2 (binary_search_sorted _ (r_id r) k Hs)) by (by rewrite list_lookup_fmap, Hk).
    unfold ri_symbol, id_of. rewrite Hc, bind_Some. setoid_rewrite Ht. rewrite Nat2N.id. split.
    + intros (t & (r' & Hr' & e & He & Hid & Ho) & Hy). exists e. assert (r' = r) as -> by congruence.
      apply (cat_bij _ Hcat) in Ho as Hoy. assert (e_target e = y) as <- by congruence. by split_and!.
    + intros (e & He & Hid & <- & [t Hot]). exists t. split; [| by apply (cat_bij _ Hcat)].
      exists r. split; [done |]. by exists e.
  - intros y [o Hy]. unfold incoming, ri_ordinal. rewrite Hc, Hy.
    set (all := foldl _ _ _).
    assert (forall k, k ∈ ref_iter all <-> reference_target ri k = Some o) as Hall.
    { intros k. unfold ref_iter. rewrite bm_iter_contains. fold (ref_contains all k). unfold all.
      rewrite contains_unions, ref_contains_new. unfold incoming_postings.
      rewrite elem_of_postings. setoid_rewrite (po_in _ _ Hp). unfold kind_of. split.
      - by intros [[] | (relation & ? & _)].
      - intros Hk. right. apply Ht in Hk as Hr. destruct Hr as (r & Hr & _). rewrite Hr. by exists (r_kind r). }
    split.
    + pose proof (bm_iter_sorted all) as Hsort. fold (ref_iter all) in Hsort.
      assert (forall k, k ∈ ref_iter all -> is_Some (reference_id ri k)) as Hsome.
      { intros k (r & Hr & _)%Hall%Ht. unfold reference_id. by rewrite Hids, list_lookup_fmap, Hr. }
      assert (forall k k' a b, (k < k')%N -> reference_id ri k = Some a -> reference_id ri k' = Some b -> id_lt a b) as Hmono.
      { intros k k' a b Hlt Ha Hb. unfold reference_id in Ha, Hb. rewrite Hids in Ha, Hb.
        eapply (StronglySorted_lookup_lt _ _ Hs); [| exact Ha | exact Hb]. lia. }
      clear Hall. induction Hsort as [| k l Hl IH Hk]; cbn; [constructor |].
      destruct (Hsome k ltac:(by left)) as [a Ha]. rewrite Ha. constructor.
      * apply IH. intros k' Hk'. apply Hsome. by right.
      * apply Forall_forall. intros b (k' & Hk' & Hb)%list_elem_of_omap.
        rewrite Forall_forall in Hk. by eapply Hmono; [apply Hk | |].
    + intros id. rewrite list_elem_of_omap. setoid_rewrite Hall. setoid_rewrite Ht.
      unfold reference_id. rewrite Hids. setoid_rewrite list_lookup_fmap. split.
      * intros (k & (r & Hr & e & He & Hid & Ho) & Hk). rewrite Hr in Hk. cbn in Hk. injection Hk as <-.
        exists e. split_and!; [done | | done | apply list_elem_of_fmap_2; by eapply list_elem_of_lookup_2].
        apply (cat_bij _ Hcat) in Ho, Hy. congruence.
      * intros (e & He & Hey & <- & (r & Hid & [k Hk]%list_elem_of_lookup_1)%list_elem_of_fmap).
        exists (N.of_nat k). rewrite Nat2N.id, Hk. split; [| cbn; by rewrite Hid].
        exists r. split; [done |]. exists e. split_and!; [done | done | by rewrite Hey].
Qed.
End build.

(** ** A concrete linkage *)

(** Checks of the hypotheses by computation. *)
Definition catalog_check (c : SymbolOrdinalCatalog) : bool :=
  forallb (fun p => bool_decide (ordinals_by_id c !! p.2 = Some p.1) && (p.1 <? next_ordinal c)%N) (map_to_list (ids c))
    && forallb (fun p => bool_decide (ids c !! p.2 = Some p.1)) (map_to_list (ordinals_by_id c)).

Lemma catalog_check_ok c : catalog_check c = true -> catalog_ok c.
Proof.
  unfold catalog_check. rewrite andb_true_iff, !forallb_Forall, !Forall_forall. intros [H1 H2].
  assert (forall o id, ids c !! o = Some id -> ordinals_by_id c !! id = Some o /\ (o < next_ordinal c)%N) as H.
  { intros o id Ho%elem_of_map_to_list. specialize (H1 _ Ho).
    apply andb_prop in H1 as [Ha%bool_decide_eq_true Hb%N.ltb_lt]. done. }
  split; intros o id; [split |].
  - intros Ho. apply (H _ _ Ho).
  - intros Ho%elem_of_map_to_list. specialize (H2 _ Ho). by apply bool_decide_eq_true in H2.
  - intros Ho. apply (H _ _ Ho).
Qed.

Fixpoint sorted_check (l : list ReferenceId) : bool :=
  match l with
  | [] => true
  | a :: l => forallb (fun b => match reference_id_compare a b with Lt => true | _ => false end) l && sorted_check l
  end.

Lemma sorted_check_ok l : sorted_check l = true -> StronglySorted id_lt l.
Proof.
  induction l as [| a l IH]; [constructor |]. cbn. rewrite andb_true_iff, forallb_Forall. intros [Ha Hl].
  constructor; [by apply IH |]. eapply Forall_impl; [exact Ha |]. cbn. intros b. unfold id_lt.
  by destruct (reference_id_compare a b).
Qed.

#[local] Existing Instances GsetRoaring.gset_roaring GsetRoaring.gset_roaring_laws.
#[local] Instance listed_order : HashOrder := {| hash_order A l := l; hash_order_perm A l := reflexivity l |}.

Definition sample_reference (file ref def : nat) (kind : string) : ReferenceRecord :=
  reference_new (reference_at file ref) (source_at file) (symbol_at file def) (bs "x") (bs kind) None.

(** Symbols 0.0, 0.1, 1.0 and 1.1; the call of 0.0 goes to 0.1, that one calls 1.0,
    which calls 1.1 and uses 0.0; the last reference of 0.1 is not resolved. *)
Definition sample_catalog : SymbolOrdinalCatalog :=
  match fold_res (E:=()) (fun c id => '(_, c) ← push id c; mret c) catalog_default
    [symbol_at 0 0; symbol_at 0 1; symbol_at 1 0; symbol_at 1 1] with
  | Ok c => c
  | _ => catalog_default
  end.

Definition sample_references : RecordTable ReferenceRecord := from_shards
  [[sample_reference 0 0 0 "calls"; sample_reference 0 1 1 "calls"; sample_reference 0 2 1 "uses_type"];
   [sample_reference 1 0 0 "calls"; sample_reference 1 1 0 "uses_type"]].

Definition sample_linkage : LinkageSnapshot :=
  linkage_with_refs 1%N 1%N
    [edge_new (reference_at 0 0) (symbol_at 0 1); edge_new (reference_at 0 1) (symbol_at 1 0);
     edge_new (reference_at 1 0) (symbol_at 1 1); edge_new (reference_at 1 1) (symbol_at 0 0)]
    [mk_unresolved (reference_at 0 2) (bs "x") NoCandidate].

Lemma sample_sorted : StronglySorted id_lt (r_id <$> iter sample_references).
Proof. apply sorted_check_ok. vm_compute. reflexivity. Qed.

Lemma sample_narrow : narrow (length (iter sample_references)).
Proof. vm_compute. reflexivity. Qed.

Lemma sample_catalog_ok : catalog_ok sample_catalog.
Proof. apply catalog_check_ok. vm_compute. reflexivity. Qed.

Lemma sample_edges_distinct : NoDup (e_reference <$> resolved sample_linkage).
Proof. apply (bool_decide_eq_true_1 _). vm_compute. reflexivity. Qed.

Lemma read_index_exact_witness :
  exists ri, from_snapshot_with_catalog (E:=()) sample_linkage sample_references sample_catalog [0%N; 1%N] = Ok ri /\
    postings_exact ri (kind_of sample_references).
Proof.
  destruct (read_index_exact sample_linkage sample_references sample_catalog [0%N; 1%N]
    sample_sorted sample_narrow sample_catalog_ok sample_edges_distinct) as (ri & Hri & Hp & _).
  exists ri. exact (conj Hri Hp).
Defined.
End LinkIndexTheorems.
