(* ===== verification/LinkDecision.v ===== *)
(** Decisions of linkage: what linkage concludes of a reference, the snapshot
    that publishes the decisions, and the decisions read back from a snapshot
    (src/crates/workspace/src/linkage/binding/decision.rs, projection.rs and
    restore.rs), over the files of an index and their identities
    (src/crates/workspace/src/source/content.rs and identity.rs). *)

From S2P Require Import Prelude.
From S2P Require Import Moniker.
From S2P Require Import Uri.
From S2P Require Import CodeGraph.
From S2P Require Import Syntax.
From S2P Require Import Bitmap.
From S2P Require Import Snapshot.
From S2P Require Import Inventory.
From S2P Require Import LinkIndex.

(** ** Files and identities *)

Module LinkMaterial.
Import Snapshot.

(** What linkage reads of an [Arc<IndexedSourceFile>]: the address that the
    [Arc] points to, and the fields of the file. *)
Record IndexedFile : Type := mk_file {
  file_address : N;
  source_root : N;
  source_id : SourceId;
  lang : Lang.t;
  graph : CodeGraph.t
}.

(** [Arc::ptr_eq] *)
Definition ptr_eq (a b : IndexedFile) : bool := (file_address a =? file_address b)%N.

Record CodeIndexMaterial : Type := mk_material {
  files : list IndexedFile;
  scheme : bytes
}.

(** [LocalIdentityResolver] *)
Definition identity_symbol_id (file_idx def_idx : nat) : SymbolId := symbol_at file_idx def_idx.
Definition symbol_location (id : SymbolId) : option (nat * nat) := Some (id_file id, id_def id).
Definition identity_reference_id (file_idx ref_idx : nat) : ReferenceId := reference_at file_idx ref_idx.
Definition reference_location (id : ReferenceId) : option (nat * nat) :=
  Some (N.to_nat (ref_file id), N.to_nat (ref_reference id)).
Definition moniker_uri {E} (m : CodeIndexMaterial) (moniker : Moniker.t) : res E bytes :=
  Uri.to_uri moniker {| Uri.scheme := scheme m |}.

(** [CodeIndexMaterial]: the bounds checked before [def_at] and [ref_at] are
    those of the lookups. *)
Definition symbol_moniker (m : CodeIndexMaterial) (symbol : SymbolId) : option Moniker.t :=
  '(file_idx, def_idx) ← symbol_location symbol;
  file ← files m !! file_idx;
  def ← CodeGraph.defs (graph file) !! def_idx;
  Some (CodeGraph.moniker def).

Definition symbol_source (m : CodeIndexMaterial) (symbol : SymbolId) : option SourceId :=
  '(file_idx, def_idx) ← symbol_location symbol;
  file ← files m !! file_idx;
  if def_idx <? CodeGraph.def_count (graph file) then Some (source_id file) else None.

Definition symbol_exists (m : CodeIndexMaterial) (symbol : SymbolId) : bool :=
  bool_decide (is_Some (symbol_moniker m symbol)).

Definition reference_target (m : CodeIndexMaterial) (reference : ReferenceId) : option Moniker.t :=
  '(file_idx, ref_idx) ← reference_location reference;
  file ← files m !! file_idx;
  r ← CodeGraph.refs (graph file) !! ref_idx;
  Some (CodeGraph.target r).
End LinkMaterial.

(** ** decision.rs *)

Module Decision.
Import Snapshot Inventory.

Inductive ResolutionScope : Set := Local | Global | Builtin | InjectedScope | UnknownScope.

Inductive BlockReason : Set := ManifestPolicy | VisibilityBlock | LanguageBoundaryBlock.

Inductive UnknownReason : Set :=
| UnknownMissingQuery | UnknownNoCandidate | UnknownAmbiguous | UnknownUnsupportedLanguageRule
| UnknownIncompleteExtractorMetadata.

#[export] Instance resolution_evidence_eq : EqDecision ResolutionEvidence.
Proof. solve_decision. Defined.

Definition candidate_scope (scope : ResolutionScope) : CandidateScope :=
  match scope with
  | Local => ScopeLocal
  | Global => ScopeGlobal
  | Builtin => ScopeBuiltin
  | InjectedScope => ScopeInjected
  | UnknownScope => ScopeUnknown
  end.

Definition block_unresolved_reason (r : BlockReason) : UnresolvedReason :=
  match r with
  | ManifestPolicy => ManifestBlocked
  | VisibilityBlock => Visibility
  | LanguageBoundaryBlock => LanguageBoundary
  end.

Definition block_from_unresolved_reason (reason : UnresolvedReason) : option BlockReason :=
  match reason with
  | ManifestBlocked => Some ManifestPolicy
  | Visibility => Some VisibilityBlock
  | LanguageBoundary => Some LanguageBoundaryBlock
  | _ => None
  end.

Definition unknown_unresolved_reason (r : UnknownReason) : UnresolvedReason :=
  match r with
  | UnknownMissingQuery => MissingQuery
  | UnknownNoCandidate => NoCandidate
  | UnknownAmbiguous => Ambiguous
  | UnknownUnsupportedLanguageRule => UnsupportedLanguageRule
  | UnknownIncompleteExtractorMetadata => IncompleteExtractorMetadata
  end.

Definition unknown_from_unresolved_reason (reason : UnresolvedReason) : option UnknownReason :=
  match reason with
  | MissingQuery => Some UnknownMissingQuery
  | NoCandidate => Some UnknownNoCandidate
  | Ambiguous => Some UnknownAmbiguous
  | UnsupportedLanguageRule => Some UnknownUnsupportedLanguageRule
  | IncompleteExtractorMetadata => Some UnknownIncompleteExtractorMetadata
  | ManifestBlocked | Visibility | LanguageBoundary => None
  end.

Section decision.
Context {R : Roaring}.

Record ResolutionDecision : Type := mk_resolution {
  rd_scope : ResolutionScope;
  rd_evidence : ResolutionEvidence;
  rd_reference : ReferenceId;
  rd_reference_idx : nat;
  rd_targets : SymbolSet
}.

Inductive ReferenceLinkageDecision : Type :=
| Unique (resolution : ResolutionDecision)
| Candidate (reason : CandidateReason) (resolution : ResolutionDecision)
| External (origin : ExternalReferenceOrigin) (reference : ReferenceId) (reference_idx : nat)
    (target : option Moniker.t)
| Blocked (reason : BlockReason) (reference : ReferenceId) (reference_idx : nat)
| Dynamic (reason : DynamicReason) (reference : ReferenceId) (reference_idx : nat) (candidates : SymbolSet)
| Unknown (reason : UnknownReason) (reference : ReferenceId) (reference_idx : nat).

Definition candidate_reason (r : ResolutionDecision) : option CandidateReason :=
  if bool_decide (rd_evidence r = NameMatch) then Some WeakNameMatch
  else if (1 <? set_len (rd_targets r))%N then Some MultipleTargets
  else None.

Definition candidate (reason : CandidateReason) (resolution : ResolutionDecision) : ReferenceLinkageDecision :=
  Candidate reason resolution.

Definition dynamic (reason : DynamicReason) (reference_idx : nat) (reference : ReferenceId)
    (candidates : SymbolSet) : ReferenceLinkageDecision := Dynamic reason reference reference_idx candidates.

Definition unknown (reason : UnknownReason) (reference_idx : nat) (reference : ReferenceId)
    : ReferenceLinkageDecision := Unknown reason reference reference_idx.

Definition resolved (resolution : ResolutionDecision) : ReferenceLinkageDecision :=
  if set_is_empty (rd_targets resolution)
  then unknown UnknownNoCandidate (rd_reference_idx resolution) (rd_reference resolution)
  else
    match candidate_reason resolution with
    | Some reason => candidate reason resolution
    | None => Unique resolution
    end.

Definition blocked (reason : BlockReason) (reference_idx : nat) (reference : ReferenceId)
    : ReferenceLinkageDecision := Blocked reason reference reference_idx.

Definition manifest_blocked (reference_idx : nat) (reference : ReferenceId) : ReferenceLinkageDecision :=
  blocked ManifestPolicy reference_idx reference.

Definition external (origin : ExternalReferenceOrigin) (reference_idx : nat) (reference : ReferenceId)
    : ReferenceLinkageDecision := External origin reference reference_idx None.

Definition external_target (origin : ExternalReferenceOrigin) (reference_idx : nat) (reference : ReferenceId)
    (target : Moniker.t) : ReferenceLinkageDecision := External origin reference reference_idx (Some target).

Definition reference_idx (d : ReferenceLinkageDecision) : nat :=
  match d with
  | Unique r | Candidate _ r => rd_reference_idx r
  | External _ _ i _ | Blocked _ _ i | Dynamic _ _ i _ | Unknown _ _ i => i
  end.

Definition reference (d : ReferenceLinkageDecision) : ReferenceId :=
  match d with
  | Unique r | Candidate _ r => rd_reference r
  | External _ r _ _ | Blocked _ r _ | Dynamic _ r _ _ | Unknown _ r _ => r
  end.

Definition refinement_pending_reference_idx (d : ReferenceLinkageDecision) : option nat :=
  match d with
  | Candidate WeakNameMatch r => Some (rd_reference_idx r)
  | Unknown (UnknownNoCandidate | UnknownIncompleteExtractorMetadata) _ i => Some i
  | _ => None
  end.

Definition type_refinement_reference_idx (d : ReferenceLinkageDecision) : option nat :=
  match d with
  | Candidate _ r => Some (rd_reference_idx r)
  | _ => refinement_pending_reference_idx d
  end.

Definition linkage_targets (d : ReferenceLinkageDecision) : option SymbolSet :=
  match d with
  | Unique r | Candidate _ r => Some (rd_targets r)
  | Dynamic _ _ _ candidates => Some candidates
  | External _ _ _ _ | Blocked _ _ _ | Unknown _ _ _ => None
  end.

Definition set_reference (next_reference : ReferenceId) (next_reference_idx : nat)
    (d : ReferenceLinkageDecision) : ReferenceLinkageDecision :=
  let moved r := mk_resolution (rd_scope r) (rd_evidence r) next_reference next_reference_idx (rd_targets r) in
  match d with
  | Unique r => Unique (moved r)
  | Candidate reason r => Candidate reason (moved r)
  | External origin _ _ target => External origin next_reference next_reference_idx target
  | Blocked reason _ _ => Blocked reason next_reference next_reference_idx
  | Dynamic reason _ _ candidates => Dynamic reason next_reference next_reference_idx candidates
  | Unknown reason _ _ => Unknown reason next_reference next_reference_idx
  end.

Definition set_reference_idx (next_reference_idx : nat) (d : ReferenceLinkageDecision)
    : ReferenceLinkageDecision :=
  match d with
  | Unique r =>
      Unique (mk_resolution (rd_scope r) (rd_evidence r) (rd_reference r) next_reference_idx (rd_targets r))
  | Candidate reason r =>
      Candidate reason
        (mk_resolution (rd_scope r) (rd_evidence r) (rd_reference r) next_reference_idx (rd_targets r))
  | External origin r _ target => External origin r next_reference_idx target
  | Blocked reason r _ => Blocked reason r next_reference_idx
  | Dynamic reason r _ candidates => Dynamic reason r next_reference_idx candidates
  | Unknown reason r _ => Unknown reason r next_reference_idx
  end.
End decision.
End Decision.

(** ** projection.rs *)

Module Projection.
Import Snapshot Inventory LinkIndex LinkMaterial Decision.

Section projection.
Context {R : Roaring}.
Context (records : RecordTable ReferenceRecord) (material : CodeIndexMaterial) (symbols : SymbolOrdinalCatalog).

Record LinkageReportProjection : Type := mk_projection {
  pj_resolved : list LinkageEdge;
  pj_candidates : list CandidateReference;
  pj_external : list ExternalReference;
  pj_dynamic : list DynamicReference;
  pj_blocked : list UnresolvedReference;
  pj_unresolved : list UnresolvedReference
}.

Definition projection_default : LinkageReportProjection := mk_projection [] [] [] [] [] [].

Definition push_resolved (e : LinkageEdge) (p : LinkageReportProjection) : LinkageReportProjection :=
  mk_projection (pj_resolved p ++ [e]) (pj_candidates p) (pj_external p) (pj_dynamic p) (pj_blocked p)
    (pj_unresolved p).
Definition push_candidate (c : CandidateReference) (p : LinkageReportProjection) : LinkageReportProjection :=
  mk_projection (pj_resolved p) (pj_candidates p ++ [c]) (pj_external p) (pj_dynamic p) (pj_blocked p)
    (pj_unresolved p).
Definition push_external (e : ExternalReference) (p : LinkageReportProjection) : LinkageReportProjection :=
  mk_projection (pj_resolved p) (pj_candidates p) (pj_external p ++ [e]) (pj_dynamic p) (pj_blocked p)
    (pj_unresolved p).
Definition push_dynamic (d : DynamicReference) (p : LinkageReportProjection) : LinkageReportProjection :=
  mk_projection (pj_resolved p) (pj_candidates p) (pj_external p) (pj_dynamic p ++ [d]) (pj_blocked p)
    (pj_unresolved p).
Definition push_blocked (u : UnresolvedReference) (p : LinkageReportProjection) : LinkageReportProjection :=
  mk_projection (pj_resolved p) (pj_candidates p) (pj_external p) (pj_dynamic p) (pj_blocked p ++ [u])
    (pj_unresolved p).
Definition push_unresolved (u : UnresolvedReference) (p : LinkageReportProjection) : LinkageReportProjection :=
  mk_projection (pj_resolved p) (pj_candidates p) (pj_external p) (pj_dynamic p) (pj_blocked p)
    (pj_unresolved p ++ [u]).

Definition unresolved_reference (reference : ReferenceRecord) (reason : UnresolvedReason) : UnresolvedReference :=
  mk_unresolved (r_id reference) (target_identity reference) reason.

Definition external_reference {E} (reference : ReferenceRecord) (origin : ExternalReferenceOrigin)
    (target : option Moniker.t) : res E ExternalReference :=
  uri ← match target with
        | Some target => moniker_uri material target
        | None => mret (target_identity reference)
        end;
  mret (mk_external (r_id reference) uri origin).

(** The pop of the last target tells one target from none and from several. *)
Definition project_unique_decision {E} (projection : LinkageReportProjection) (resolution : ResolutionDecision)
    : res E LinkageReportProjection :=
  reference ← Records.index_record records (rd_reference_idx resolution);
  mret
    match catalog_ids symbols (rd_targets resolution) with
    | [target] => push_resolved (mk_edge (r_id reference) target (rd_evidence resolution)) projection
    | [] => push_unresolved (unresolved_reference reference NoCandidate) projection
    | targets =>
        push_candidate
          (mk_candidate (r_id reference) targets MultipleTargets ScopeUnknown (rd_evidence resolution))
          projection
    end.

(** One turn of the loop of [from_decisions]; [references[i]] panics out of range. *)
Definition project_decision {E} (projection : LinkageReportProjection) (decision : ReferenceLinkageDecision)
    : res E LinkageReportProjection :=
  match decision with
  | Unique resolution => project_unique_decision projection resolution
  | Candidate reason resolution =>
      reference ← Records.index_record records (rd_reference_idx resolution);
      mret (push_candidate
        (mk_candidate (r_id reference) (catalog_ids symbols (rd_targets resolution)) reason
           (candidate_scope (rd_scope resolution)) (rd_evidence resolution)) projection)
  | Blocked reason _ reference_idx =>
      reference ← Records.index_record records reference_idx;
      mret (push_blocked (unresolved_reference reference (block_unresolved_reason reason)) projection)
  | Unknown reason _ reference_idx =>
      reference ← Records.index_record records reference_idx;
      mret (push_unresolved (unresolved_reference reference (unknown_unresolved_reason reason)) projection)
  | External origin _ reference_idx target =>
      reference ← Records.index_record records reference_idx;
      e ← external_reference reference origin target;
      mret (push_external e projection)
  | Dynamic reason _ reference_idx candidates =>
      reference ← Records.index_record records reference_idx;
      mret (push_dynamic
        (mk_dynamic (r_id reference) (target_identity reference) reason (catalog_ids symbols candidates))
        projection)
  end.

Definition project_decisions {E} (decisions : list ReferenceLinkageDecision) : res E LinkageReportProjection :=
  fold_res project_decision projection_default decisions.

(** The snapshot, less its read index. *)
Definition into_snapshot (p : LinkageReportProjection) (generation index_generation : ResourceGeneration)
    : LinkageSnapshot :=
  let manifest_blocked :=
    List.filter (fun r => bool_decide (u_reason r = ManifestBlocked)) (pj_blocked p) in
  mk_linkage generation index_generation (length (pj_resolved p)) (length (pj_candidates p))
    (length (pj_external p)) (length (pj_dynamic p)) (length (pj_blocked p)) (length manifest_blocked)
    (length (pj_unresolved p)) (length (pj_candidates p)) (pj_resolved p) (pj_candidates p) (pj_external p)
    (pj_dynamic p) (pj_blocked p) manifest_blocked (pj_unresolved p).
End projection.
End Projection.

(** ** restore.rs *)

Module RestoreLinkage.
Import Snapshot Inventory LinkIndex LinkMaterial Decision.

(** [BTreeMap<ReferenceId, _>]: iterated in the order of the keys. *)
Definition entry_le {A} (a b : ReferenceId * A) : Prop := reference_id_compare a.1 b.1 <> Gt.

#[export] Instance entry_le_dec {A} : RelDecision (@entry_le A).
Proof. intros a b. unfold entry_le. apply _. Defined.

Definition sorted_by_reference {A} (m : gmap ReferenceId A) : list (ReferenceId * A) :=
  merge_sort entry_le (map_to_list m).

(** [reference_indexes] (indexes.rs) *)
Definition reference_indexes {E} (references : RecordTable ReferenceRecord)
    : res E (gmap ReferenceId ReferenceOrdinal) :=
  fold_res (fun m p =>
    o ← reference_from_index p.1;
    mret (<[r_id p.2 := o]> m)) ∅ (imap pair (iter references)).

Section restore.
Context {R : Roaring}.
Context (snapshot : LinkageSnapshot) (indexes : gmap ReferenceId ReferenceOrdinal) (symbols : SymbolOrdinalCatalog).

Definition reference_position (reference : ReferenceId) : option nat := N.to_nat <$> indexes !! reference.

(** The targets of the edges of each reference, the evidence of the first one,
    and whether a target is missing. *)
Definition add_edge (m : gmap ReferenceId (SymbolSet * ResolutionEvidence * bool)) (edge : LinkageEdge)
    : gmap ReferenceId (SymbolSet * ResolutionEvidence * bool) :=
  let '(targets, evidence, missing) := default (set_new, e_evidence edge, false) (m !! e_reference edge) in
  <[e_reference edge :=
      match ordinal symbols (e_target edge) with
      | Some target => (set_insert target targets, evidence, missing)
      | None => (targets, evidence, true)
      end]> m.

Definition resolved_decision (e : ReferenceId * (SymbolSet * ResolutionEvidence * bool))
    : option ReferenceLinkageDecision :=
  let '(reference, (targets, evidence, missing_target)) := e in
  reference_idx ← reference_position reference;
  Some (if missing_target : bool then unknown UnknownNoCandidate reference_idx reference
        else Decision.resolved (mk_resolution Global evidence reference reference_idx targets)).

Definition resolved_decisions_from_snapshot : list ReferenceLinkageDecision :=
  omap resolved_decision (sorted_by_reference (foldl add_edge ∅ (Snapshot.resolved snapshot))).

Definition resolution_scope (scope : CandidateScope) : ResolutionScope :=
  match scope with
  | ScopeLocal => Local
  | ScopeGlobal => Global
  | ScopeBuiltin => Builtin
  | ScopeInjected => InjectedScope
  | ScopeUnknown => UnknownScope
  end.

Definition candidate_decision (c : CandidateReference) : option ReferenceLinkageDecision :=
  reference_idx ← reference_position (c_reference c);
  let targets := set_from_iter (omap (ordinal symbols) (c_targets c)) in
  Some (if set_is_empty targets || negb (set_len targets =? N.of_nat (length (c_targets c)))%N
        then unknown UnknownNoCandidate reference_idx (c_reference c)
        else Decision.candidate (c_reason c)
               (mk_resolution (resolution_scope (c_scope c)) (c_evidence c) (c_reference c) reference_idx targets)).

Definition candidate_decisions_from_snapshot : list ReferenceLinkageDecision :=
  omap candidate_decision (candidates snapshot).

Definition advisory_dynamic_candidates (candidates : list SymbolId) : SymbolSet :=
  set_from_iter (omap (ordinal symbols) candidates).

Definition dynamic_decision (d : DynamicReference) : option ReferenceLinkageDecision :=
  reference_idx ← reference_position (d_reference d);
  Some (Decision.dynamic (d_reason d) reference_idx (d_reference d) (advisory_dynamic_candidates (d_candidates d))).

Definition dynamic_decisions_from_snapshot : list ReferenceLinkageDecision :=
  omap dynamic_decision (Snapshot.dynamic snapshot).

Definition external_decision {E} (material : CodeIndexMaterial) (e : ExternalReference)
    : res E (option ReferenceLinkageDecision) :=
  match reference_position (x_reference e) with
  | None => mret None
  | Some reference_idx =>
      target ← Compact.parsed (Uri.from_uri (x_target_identity e) {| Uri.scheme := scheme material |});
      mret (Some match target with
                 | Some target => external_target (x_origin e) reference_idx (x_reference e) target
                 | None => Decision.external (x_origin e) reference_idx (x_reference e)
                 end)
  end.

Definition external_decisions_from_snapshot {E} (material : CodeIndexMaterial)
    : res E (list ReferenceLinkageDecision) :=
  filter_map_res (external_decision material) (Snapshot.external snapshot).

Definition blocked_decision (b : UnresolvedReference) : option ReferenceLinkageDecision :=
  reference_idx ← reference_position (u_reference b);
  reason ← block_from_unresolved_reason (u_reason b);
  Some (Decision.blocked reason reference_idx (u_reference b)).

Definition unresolved_decision {E} (references : RecordTable ReferenceRecord) (u : UnresolvedReference)
    : res E (option ReferenceLinkageDecision) :=
  match reference_position (u_reference u), unknown_from_unresolved_reason (u_reason u) with
  | Some reference_idx, Some reason =>
      reference ← Records.index_record references reference_idx;
      mret (Some (unknown reason reference_idx (r_id reference)))
  | _, _ => mret None
  end.
End restore.

Definition decisions_from_snapshot {R : Roaring} {E} (snapshot : LinkageSnapshot)
    (references : RecordTable ReferenceRecord) (material : CodeIndexMaterial) (symbols : SymbolOrdinalCatalog)
    : res E (list ReferenceLinkageDecision) :=
  indexes ← reference_indexes references;
  external ← external_decisions_from_snapshot snapshot indexes material;
  unresolved ← filter_map_res (unresolved_decision indexes references) (unresolved snapshot);
  let blocked := if is_nil (Snapshot.blocked snapshot) then Snapshot.manifest_blocked snapshot else Snapshot.blocked snapshot in
  mret (resolved_decisions_from_snapshot snapshot indexes symbols ++
        candidate_decisions_from_snapshot snapshot indexes symbols ++
        dynamic_decisions_from_snapshot snapshot indexes symbols ++
        external ++ omap (blocked_decision indexes) blocked ++ unresolved).
End RestoreLinkage.
