(* ===== verification/LinkCatalog.v ===== *)
(** The catalog of linkage candidates: the definitions that a reference may
    resolve to, by moniker, by name within a language and by name within a file,
    and its refresh when some files change; the queries that references make of it
    (src/crates/workspace/src/linkage/catalog/candidate.rs and query.rs). *)

From S2P Require Import Prelude.
From S2P Require Import RustStr.
From S2P Require Import Shape.
From S2P Require Import Moniker.
From S2P Require Import CodeGraph.
From S2P Require Import Syntax.
From S2P Require Import Bitmap.
From S2P Require Import Snapshot.
From S2P Require Import Inventory.
From S2P Require Import LinkDecision.

#[export] Instance lang_eq_dec : EqDecision Lang.t.
Proof. solve_decision. Defined.
#[export] Program Instance lang_countable : Countable Lang.t := inj_countable Lang.tag Lang.from_tag _.
Next Obligation. by intros []. Qed.

(** ** query.rs *)

Module LinkQuery.
Import Snapshot LinkMaterial.

Definition segments_of {E} (m : Moniker.t) : res E (list Moniker.Segment) :=
  view ← Moniker.as_view m; Moniker.view_segments view.

(** [segment_summary]: the first and the last segment, and how many there are. *)
Definition segment_summary {E} (target : Moniker.t)
    : res E (option Moniker.Segment * option Moniker.Segment * nat) :=
  segments ← segments_of target;
  mret (foldl (fun acc segment =>
    let '(first, _, count) := acc in
    (match first with None => Some segment | Some _ => first end, Some segment, count + 1))
    (None, None, 0) segments).

(** [LinkageQuery], whose material is an argument of what reads it. *)
Record LinkageQuery : Set := mk_query {
  q_target : Moniker.t;
  target_first : option Moniker.Segment;
  target_last : option Moniker.Segment;
  target_segment_count : nat;
  reference_kind : bytes;
  q_call_name : option bytes;
  q_call_arity : option nat;
  q_confidence : option bytes;
  source_file : nat
}.

Record ReferenceLocation : Set := mk_location { l_source_file : nat; l_reference : nat }.

Record ReferenceLocations : Set := mk_locations {
  ordered : list ReferenceLocation;
  by_file : list (list nat)
}.

(** The loop over the references of a file. *)
Definition push_reference (source_file : nat) (acc : list ReferenceLocation * list nat) (reference : nat)
    : list ReferenceLocation * list nat :=
  let '(ordered, file_references) := acc in
  (ordered ++ [mk_location source_file reference], file_references ++ [length ordered]).

Definition push_file_references (acc : ReferenceLocations) (p : nat * IndexedFile) : ReferenceLocations :=
  let '(ordered, file_references) :=
    foldl (push_reference p.1) (ordered acc, []) (seq 0 (CodeGraph.ref_count (graph p.2))) in
  mk_locations ordered (by_file acc ++ [file_references]).

Definition from_material (material : CodeIndexMaterial) : ReferenceLocations :=
  foldl push_file_references (mk_locations [] []) (imap pair (files material)).

Definition location (l : ReferenceLocations) (reference_idx : nat) : option ReferenceLocation :=
  ordered l !! reference_idx.

Definition reference_idx (l : ReferenceLocations) (source_file reference : nat) : option nat :=
  references ← by_file l !! source_file; references !! reference.

(** [LinkageQuery::at] *)
Definition query_at {E} (reference : ReferenceRecord) (material : CodeIndexMaterial) (location : ReferenceLocation)
    : res E (option LinkageQuery) :=
  match files material !! l_source_file location with
  | None => mret None
  | Some file =>
      if CodeGraph.ref_count (graph file) <=? l_reference location then mret None
      else
        r ← CodeGraph.ref_at (graph file) (l_reference location);
        '(first, last, count) ← segment_summary (CodeGraph.target r);
        mret (Some (mk_query (CodeGraph.target r) first last count (r_kind reference) (r_call_name reference)
          (r_call_arity reference) (r_confidence reference) (l_source_file location)))
  end.

(** [LinkageQuery::new] *)
Definition query_new {E} (reference : ReferenceRecord) (material : CodeIndexMaterial) : res E (option LinkageQuery) :=
  match reference_location (r_id reference) with
  | None => mret None
  | Some (source_file, reference_idx) => query_at reference material (mk_location source_file reference_idx)
  end.

Definition with_target {E} (q : LinkageQuery) (target : Moniker.t) : res E LinkageQuery :=
  '(first, last, count) ← segment_summary target;
  mret (mk_query target first last count (reference_kind q) (q_call_name q) (q_call_arity q) (q_confidence q)
    (source_file q)).

Definition target_segments {E} (q : LinkageQuery) : res E (list Moniker.Segment) := segments_of (q_target q).

(** [query_keys] (candidate.rs): the call name, and the bare name of the last
    segment when it is another one. *)
Definition query_keys (q : LinkageQuery) : list bytes :=
  let first := match q_call_name q with Some (_ :: _ as key) => Some key | _ => None end in
  let keys := match first with Some key => [key] | None => [] end in
  match target_last q with
  | Some segment =>
      let name := Moniker.bare_callable_name segment.2 in
      if negb (is_nil name) && negb (bool_decide (first = Some name)) then keys ++ [name] else keys
  | None => keys
  end.
End LinkQuery.

(** ** candidate.rs *)

Module LinkCatalog.
Import Snapshot Inventory LinkMaterial LinkQuery.

Definition CLASS : bytes := bs "class".
Definition PACKAGE : bytes := bs "package".

Record LinkageCandidate : Set := mk_linkage_candidate {
  k_moniker : Moniker.t;
  k_last_segment : option Moniker.Segment;
  k_segment_count : nat;
  k_call_name : option bytes;
  k_call_arity : option N;
  k_visibility : bytes;
  k_signature : bytes;
  k_source_file : nat
}.

(** [candidate_segment_summary] and [candidate] *)
Definition candidate_of {E} (file_idx : nat) (def : CodeGraph.DefRecord) : res E LinkageCandidate :=
  segments ← segments_of (CodeGraph.moniker def);
  mret (mk_linkage_candidate (CodeGraph.moniker def) (last segments) (length segments)
    (if is_nil (CodeGraph.call_name def) then None else Some (CodeGraph.call_name def))
    (CodeGraph.call_arity def) (CodeGraph.visibility def) (CodeGraph.signature def) file_idx).

Definition push_key (keys : list bytes) (key : bytes) : list bytes :=
  if is_nil key || existsb (beq key) keys then keys else keys ++ [key].

Definition python_init_package_name {E} (c : LinkageCandidate) : res E (option bytes) :=
  match k_last_segment c with
  | None => mret None
  | Some last =>
      if negb (beq last.1 Kinds.KIND_MODULE) || negb (beq last.2 (bs "__init__")) then mret None
      else
        segments ← segments_of (k_moniker c);
        mret match rev segments with
             | _ :: before :: _ => if beq before.1 PACKAGE then Some before.2 else None
             | _ => None
             end
  end.

Definition candidate_keys {E} (c : LinkageCandidate) : res E (list bytes) :=
  let keys := match k_call_name c with Some name => push_key [] name | None => [] end in
  let keys :=
    match k_last_segment c with
    | Some segment =>
        let keys := push_key keys (Moniker.bare_callable_name segment.2) in
        if beq segment.1 CLASS then
          match RustStr.strip_suffix (bs "Attribute") segment.2 with
          | Some short_name => push_key keys short_name
          | None => keys
          end
        else keys
    | None => keys
    end in
  package ← python_init_package_name c;
  mret match package with Some package => push_key keys package | None => keys end.

Definition has_position_backed_anonymous_name {E} (m : Moniker.t) : res E bool :=
  segments ← segments_of m;
  mret match last segments with Some segment => starts_with (bs "__cb_") segment.2 | None => false end.

Definition is_linkage_candidate_def {E} (def : CodeGraph.DefRecord) : res E bool :=
  if beq (CodeGraph.kind def) Kinds.KIND_COMMENT then mret false
  else anonymous ← has_position_backed_anonymous_name (CodeGraph.moniker def); mret (negb anonymous).

Definition is_global_candidate (c : LinkageCandidate) : bool :=
  negb match k_last_segment c with
       | Some segment => beq segment.1 Kinds.KIND_LOCAL || beq segment.1 Kinds.KIND_PARAM
       | None => false
       end.

Section catalog.
Context {R : Roaring}.

Abbreviation NameIndex := (gmap bytes SymbolSet).

Record CandidateIndexes : Type := mk_indexes {
  by_moniker : gmap Moniker.t SymbolOrdinal;
  by_language_name : gmap Lang.t NameIndex;
  by_source_name : gmap nat NameIndex
}.

Definition insert_name (index : NameIndex) (key : bytes) (symbol : SymbolOrdinal) : NameIndex :=
  <[key := set_insert symbol (default set_new (index !! key))]> index.

Definition remove_name (index : NameIndex) (key : bytes) (symbol : SymbolOrdinal) : NameIndex :=
  match index !! key with
  | None => index
  | Some set =>
      let set := set_remove symbol set in
      if set_is_empty set then delete key index else <[key := set]> index
  end.

Definition insert_partitioned_name `{Countable K} (index : gmap K NameIndex) (partition : K) (key : bytes)
    (symbol : SymbolOrdinal) : gmap K NameIndex :=
  <[partition := insert_name (default ∅ (index !! partition)) key symbol]> index.

Definition remove_partitioned_name `{Countable K} (index : gmap K NameIndex) (partition : K) (key : bytes)
    (symbol : SymbolOrdinal) : gmap K NameIndex :=
  match index !! partition with
  | None => index
  | Some names =>
      let names := remove_name names key symbol in
      if bool_decide (names = ∅) then delete partition index else <[partition := names]> index
  end.

Definition push_candidate {E} (i : CandidateIndexes) (lang : Lang.t) (symbol : SymbolOrdinal) (c : LinkageCandidate)
    : res E CandidateIndexes :=
  let lang := Lang.ecosystem lang in
  keys ← candidate_keys c;
  mret (foldl (fun i key =>
    mk_indexes (by_moniker i)
      (if is_global_candidate c then insert_partitioned_name (by_language_name i) lang key symbol
       else by_language_name i)
      (insert_partitioned_name (by_source_name i) (k_source_file c) key symbol))
    (mk_indexes (<[k_moniker c := symbol]> (by_moniker i)) (by_language_name i) (by_source_name i)) keys).

Definition remove_candidate {E} (i : CandidateIndexes) (language : Lang.t) (symbol : SymbolOrdinal)
    (entry : LinkageCandidate) : res E CandidateIndexes :=
  let language := Lang.ecosystem language in
  let monikers :=
    if bool_decide (by_moniker i !! k_moniker entry = Some symbol)
    then delete (k_moniker entry) (by_moniker i) else by_moniker i in
  keys ← candidate_keys entry;
  mret (foldl (fun i key =>
    mk_indexes (by_moniker i)
      (if is_global_candidate entry then remove_partitioned_name (by_language_name i) language key symbol
       else by_language_name i)
      (remove_partitioned_name (by_source_name i) (k_source_file entry) key symbol))
    (mk_indexes monikers (by_language_name i) (by_source_name i)) keys).

Definition symbol_by_moniker (i : CandidateIndexes) (m : Moniker.t) : option SymbolOrdinal := by_moniker i !! m.

Definition source_candidate_keys {HO : HashOrder} (i : CandidateIndexes) (source_file : nat) : option (list bytes) :=
  keys ← by_source_name i !! source_file; Some (map fst (entries keys)).

Definition symbols_by_language_key (i : CandidateIndexes) (lang : Lang.t) (key : bytes) : option SymbolSet :=
  names ← by_language_name i !! Lang.ecosystem lang; names !! key.

Definition symbols_by_source_key (i : CandidateIndexes) (source_file : nat) (key : bytes) : option SymbolSet :=
  names ← by_source_name i !! source_file; names !! key.

Record CandidateFileShard : Type := mk_shard {
  sh_file : IndexedFile;
  by_location : list (option SymbolOrdinal)
}.

Record CandidateCatalog : Type := mk_candidates {
  c_files : list CandidateFileShard;
  c_symbols : SymbolOrdinalCatalog;
  c_locations : gmap SymbolOrdinal (N * N);
  c_indexes : CandidateIndexes
}.

Definition candidates_empty (symbols : SymbolOrdinalCatalog) : CandidateCatalog :=
  mk_candidates [] symbols ∅ (mk_indexes ∅ ∅ ∅).

(** One definition of [index_shard]: the catalog and the column of the shard. *)
Definition index_def {E} (file_idx : nat) (file : IndexedFile) (acc : CandidateCatalog * list (option SymbolOrdinal))
    (p : nat * CodeGraph.DefRecord) : res E (CandidateCatalog * list (option SymbolOrdinal)) :=
  let '(catalog, by_location) := acc in
  let '(def_idx, def) := p in
  is_candidate ← is_linkage_candidate_def def;
  if negb is_candidate then mret acc
  else
    match ordinal (c_symbols catalog) (identity_symbol_id file_idx def_idx) with
    | None => mret acc
    | Some symbol =>
        if length by_location <=? def_idx then Panic
        else
          c ← candidate_of file_idx def;
          indexes ← push_candidate (c_indexes catalog) (lang file) symbol c;
          mret (mk_candidates (c_files catalog) (c_symbols catalog)
                  (<[symbol := (Suppress.Lines.as_u32 file_idx, Suppress.Lines.as_u32 def_idx)]> (c_locations catalog))
                  indexes,
                <[def_idx := Some symbol]> by_location)
    end.

Definition index_shard {E} (catalog : CandidateCatalog) (file_idx : nat) (file : IndexedFile)
    : res E (CandidateCatalog * CandidateFileShard) :=
  '(catalog, by_location) ←
    fold_res (index_def file_idx file) (catalog, replicate (CodeGraph.def_count (graph file)) None)
      (imap pair (CodeGraph.defs (graph file)));
  mret (catalog, mk_shard file by_location).

Definition push_file {E} (catalog : CandidateCatalog) (file_idx : nat) (file : IndexedFile) : res E CandidateCatalog :=
  '(catalog, shard) ← index_shard catalog file_idx file;
  mret (mk_candidates (c_files catalog ++ [shard]) (c_symbols catalog) (c_locations catalog) (c_indexes catalog)).

(** One slot of [unindex_shard]. *)
Definition unindex_def {E} (file_idx : nat) (shard : CandidateFileShard) (catalog : CandidateCatalog)
    (p : nat * option SymbolOrdinal) : res E CandidateCatalog :=
  let '(def_idx, slot) := p in
  match slot with
  | None => mret catalog
  | Some symbol =>
      def ← CodeGraph.def_at (graph (sh_file shard)) def_idx;
      c ← candidate_of file_idx def;
      indexes ← remove_candidate (c_indexes catalog) (lang (sh_file shard)) symbol c;
      mret (mk_candidates (c_files catalog) (c_symbols catalog) (delete symbol (c_locations catalog)) indexes)
  end.

Definition unindex_shard {E} (catalog : CandidateCatalog) (file_idx : nat) (shard : CandidateFileShard)
    : res E CandidateCatalog := fold_res (unindex_def file_idx shard) catalog (imap pair (by_location shard)).

Definition refresh_file {E} (catalog : CandidateCatalog) (file_idx : nat) (file : IndexedFile) : res E CandidateCatalog :=
  match c_files catalog !! file_idx with
  | None => Panic
  | Some old_shard =>
      let catalog := mk_candidates (<[file_idx := mk_shard file []]> (c_files catalog)) (c_symbols catalog)
        (c_locations catalog) (c_indexes catalog) in
      catalog ← unindex_shard catalog file_idx old_shard;
      '(catalog, shard) ← index_shard catalog file_idx file;
      mret (mk_candidates (<[file_idx := shard]> (c_files catalog)) (c_symbols catalog) (c_locations catalog)
              (c_indexes catalog))
  end.

(** [CandidateCatalog::new] *)
Definition catalog_new {E} (material : CodeIndexMaterial) (symbols : SymbolOrdinalCatalog) : res E CandidateCatalog :=
  fold_res (fun catalog p => push_file catalog p.1 p.2) (candidates_empty symbols) (imap pair (files material)).

Definition refresh_step {E} (catalog : CandidateCatalog) (p : nat * IndexedFile) : res E CandidateCatalog :=
  match c_files catalog !! p.1 with
  | None => push_file catalog p.1 p.2
  | Some shard => if ptr_eq (sh_file shard) p.2 then mret catalog else refresh_file catalog p.1 p.2
  end.

Definition refresh_files {E} (catalog : CandidateCatalog) (material : CodeIndexMaterial) (symbols : SymbolOrdinalCatalog)
    : res E CandidateCatalog :=
  fold_res refresh_step (mk_candidates (c_files catalog) symbols (c_locations catalog) (c_indexes catalog))
    (imap pair (files material)).

(** [CandidateCatalog::candidate]: [def_at] panics out of range. *)
Definition candidate {E} (catalog : CandidateCatalog) (symbol : SymbolOrdinal) : res E (option LinkageCandidate) :=
  match c_locations catalog !! symbol with
  | None => mret None
  | Some (file_idx, def_idx) =>
      match c_files catalog !! N.to_nat file_idx with
      | None => mret None
      | Some shard =>
          def ← CodeGraph.def_at (graph (sh_file shard)) (N.to_nat def_idx);
          c ← candidate_of (N.to_nat file_idx) def;
          mret (Some c)
      end
  end.

Definition candidate_for_symbol_id {E} (catalog : CandidateCatalog) (id : SymbolId)
    : res E (option (SymbolOrdinal * LinkageCandidate)) :=
  match ordinal (c_symbols catalog) id with
  | None => mret None
  | Some symbol => c ← candidate catalog symbol; mret (c ← c; Some (symbol, c))
  end.

Definition query_keys_for_symbol {E} (catalog : CandidateCatalog) (symbol : SymbolOrdinal) : res E (option (list bytes)) :=
  c ← candidate catalog symbol;
  match c with
  | None => mret None
  | Some c => keys ← candidate_keys c; mret (Some keys)
  end.

Definition catalog_symbol_at (catalog : CandidateCatalog) (file_idx def_idx : nat) : option SymbolOrdinal :=
  shard ← c_files catalog !! file_idx; mjoin (by_location shard !! def_idx).
End catalog.
End LinkCatalog.
