(* ===== verification/Postings.v ===== *)
(** The merge iterators of src/crates/workspace/src/snapshot/path.rs: the union
    and the intersection of posting lists, each read once in order.

    The merge iterators yield the sorted union and the sorted intersection of the
    posting lists, and end. *)

From S2P Require Import Prelude.
From S2P Require Import Snapshot.
From S2P Require Import Bitmap.
From S2P Require Import Inventory.
From S2P Require Import LinkIndex.
From S2P Require Import LinkIndexFacts.

Module Postings.
Import LinkIndex.
Section postings.
Context {R : Roaring} {E : Type}.

(** [BinaryHeap<Reverse<(ReferenceOrdinal, usize)>>]: a list, of which [peek] and
    [pop] take a least entry. *)
Definition Entry : Set := (ReferenceOrdinal * nat)%type.

Definition entry_leb (a b : Entry) : bool :=
  (a.1 <? b.1)%N || ((a.1 =? b.1)%N && (a.2 <=? b.2)).

Fixpoint heap_pop (heap : list Entry) : option (Entry * list Entry) :=
  match heap with
  | [] => None
  | e :: rest =>
      match heap_pop rest with
      | None => Some (e, [])
      | Some (least, others) =>
          if entry_leb e least then Some (e, rest) else Some (least, e :: others)
      end
  end.

Definition heap_peek (heap : list Entry) : option Entry := fst <$> heap_pop heap.

Record ReferencePostingUnion : Set := mk_union {
  iterators : list (list ReferenceOrdinal);
  heap : list Entry
}.

(** [iterators[index].next()], pushed on the heap when there is one. *)
Definition push_next (index : nat) (u : ReferencePostingUnion) : res E ReferencePostingUnion :=
  match iterators u !! index with
  | None => Panic
  | Some [] => mret u
  | Some (next :: rest) =>
      mret (mk_union (<[index := rest]> (iterators u)) ((next, index) :: heap u))
  end.

Definition union_new (postings : list ReferenceSet) : res E ReferencePostingUnion :=
  fold_res (fun u index => push_next index u) (mk_union (ref_ordered_iter <$> postings) [])
    (seq 0 (length postings)).

(** The [while] loop of [advance_to]. *)
Fixpoint advance_loop (fuel : nat) (target : ReferenceOrdinal) (u : ReferencePostingUnion)
    : res E ReferencePostingUnion :=
  match heap_pop (heap u) with
  | Some ((reference, index), others) =>
      if (reference <? target)%N then
        match fuel with
        | O => NoFuel
        | S fuel =>
            match iterators u !! index with
            | None => Panic
            | Some it =>
                u ← push_next index
                      (mk_union (<[index := ref_advance_to target it]> (iterators u)) others);
                advance_loop fuel target u
            end
        end
      else mret u
  | None => mret u
  end.

Definition advance_to (target : ReferenceOrdinal) (u : ReferencePostingUnion)
    : res E ReferencePostingUnion := advance_loop (length (heap u)) target u.

(** The [while] loop of [next] over the duplicates of [reference]. *)
Fixpoint duplicates_loop (fuel : nat) (reference : ReferenceOrdinal) (u : ReferencePostingUnion)
    : res E ReferencePostingUnion :=
  match heap_pop (heap u) with
  | Some ((duplicate, index), others) =>
      if (duplicate =? reference)%N then
        match fuel with
        | O => NoFuel
        | S fuel => u ← push_next index (mk_union (iterators u) others); duplicates_loop fuel reference u
        end
      else mret u
  | None => mret u
  end.

Definition union_next (u : ReferencePostingUnion)
    : res E (option ReferenceOrdinal * ReferencePostingUnion) :=
  match heap_pop (heap u) with
  | None => mret (None, u)
  | Some ((reference, index), others) =>
      u ← push_next index (mk_union (iterators u) others);
      u ← duplicates_loop (length (heap u)) reference u;
      mret (Some reference, u)
  end.

(** What the iterator yields until it is exhausted. *)
Fixpoint union_collect (fuel : nat) (u : ReferencePostingUnion) : res E (list ReferenceOrdinal) :=
  n ← union_next u;
  let '(o, u) := n in
  match o with
  | None => mret []
  | Some reference =>
      match fuel with
      | O => NoFuel
      | S fuel => rest ← union_collect fuel u; mret (reference :: rest)
      end
  end.

(** The values a union has still to read. *)
Definition pending (u : ReferencePostingUnion) : nat :=
  length (heap u) + length (concat (iterators u)).

Definition union_all (postings : list ReferenceSet) : res E (list ReferenceOrdinal) :=
  u ← union_new postings; union_collect (pending u) u.

Record ReferencePostingIntersection : Set := mk_intersection {
  left_ : ReferencePostingUnion;
  right_ : ReferencePostingUnion;
  left_current : option ReferenceOrdinal;
  right_current : option ReferenceOrdinal
}.

Definition intersection_new (a b : list ReferenceSet) : res E ReferencePostingIntersection :=
  l ← union_new a; r ← union_new b; mret (mk_intersection l r None None).

(** [if current.is_none() { current = union.next() }] *)
Definition refill (current : option ReferenceOrdinal) (u : ReferencePostingUnion)
    : res E (option ReferenceOrdinal * ReferencePostingUnion) :=
  match current with Some _ => mret (current, u) | None => union_next u end.

Fixpoint intersection_next (fuel : nat) (i : ReferencePostingIntersection)
    : res E (option ReferenceOrdinal * ReferencePostingIntersection) :=
  match fuel with
  | O => NoFuel
  | S fuel =>
      '(lc, l) ← refill (left_current i) (left_ i);
      '(rc, r) ← refill (right_current i) (right_ i);
      match lc, rc with
      | Some lv, Some rv =>
          match (lv ?= rv)%N with
          | Lt => l ← advance_to rv l; intersection_next fuel (mk_intersection l r None rc)
          | Gt => r ← advance_to lv r; intersection_next fuel (mk_intersection l r lc None)
          | Eq => mret (Some lv, mk_intersection l r None None)
          end
      | _, _ => mret (None, mk_intersection l r lc rc)
      end
  end.

(** What the two sides have still to read, their current values included. *)
Definition pending_both (i : ReferencePostingIntersection) : nat :=
  pending (left_ i) + pending (right_ i)
    + (match left_current i with Some _ => 1 | None => 0 end)
    + (match right_current i with Some _ => 1 | None => 0 end).

Fixpoint intersection_collect (fuel : nat) (i : ReferencePostingIntersection)
    : res E (list ReferenceOrdinal) :=
  '(o, i) ← intersection_next (S (pending_both i)) i;
  match o with
  | None => mret []
  | Some reference =>
      match fuel with
      | O => NoFuel
      | S fuel => rest ← intersection_collect fuel i; mret (reference :: rest)
      end
  end.

Definition intersection_all (a b : list ReferenceSet) : res E (list ReferenceOrdinal) :=
  i ← intersection_new a b; intersection_collect (pending_both i) i.
End postings.
End Postings.

Module PostingsFacts.
Import LinkIndex LinkIndexFacts Postings.
Section facts.
Context {R : Roaring} {RL : RoaringLaws R} {E : Type}.
Implicit Types (u : ReferencePostingUnion) (x y v : N) (i j : nat).

(** ** The heap *)

Lemma entry_leb_total a b : entry_leb a b = false -> entry_leb b a = true.
Proof.
  destruct a as [v i], b as [w j]. unfold entry_leb. cbn. intros H.
  apply orb_false_iff in H as [H1 H2]. apply N.ltb_ge in H1. apply orb_true_iff.
  destruct (N.eqb_spec v w) as [-> | Hne].
  - right. cbn in H2. apply Nat.leb_gt in H2. rewrite N.eqb_refl. apply Nat.leb_le. lia.
  - left. apply N.ltb_lt. lia.
Qed.

Lemma entry_leb_fst a b : entry_leb a b = true -> (a.1 <= b.1)%N.
Proof.
  unfold entry_leb. intros [H%N.ltb_lt | [H%N.eqb_eq _]%andb_prop]%orb_true_iff; lia.
Qed.

Lemma heap_pop_spec h :
  match heap_pop h with
  | None => h = []
  | Some (e, others) => h ≡ₚ e :: others /\ forall a, a ∈ others -> (e.1 <= a.1)%N
  end.
Proof.
  induction h as [| e rest IH]; cbn [heap_pop]; [done |].
  destruct (heap_pop rest) as [[least others] |].
  - destruct IH as [Hp Hl]. destruct (entry_leb e least) eqn:Hle.
    + split; [done |]. intros a Ha. rewrite Hp in Ha. apply entry_leb_fst in Hle.
      apply elem_of_cons in Ha as [-> | Ha]; [done |]. apply Hl in Ha. lia.
    + split; [rewrite Hp; by apply perm_swap |].
      intros a [-> | Ha]%elem_of_cons; [| by apply Hl].
      by apply entry_leb_fst, entry_leb_total.
  - rewrite IH. split; [done |]. by intros a ?%not_elem_of_nil.
Qed.

(** ** The state of a union *)

(** The indices [F] may have values to read and no entry in the heap. *)
Record shape u (F : nat -> Prop) : Prop := mk_shape {
  sh_sorted i it : iterators u !! i = Some it -> StronglySorted N.lt it;
  sh_index : NoDup (snd <$> heap u);
  sh_range v i : (v, i) ∈ heap u -> exists it, iterators u !! i = Some it /\ Forall (N.lt v) it;
  sh_free i it : iterators u !! i = Some it -> it <> [] -> (exists v, (v, i) ∈ heap u) \/ F i
}.

(** The values still to be yielded. *)
Definition remaining u x : Prop :=
  (exists i, (x, i) ∈ heap u) \/ exists i it, iterators u !! i = Some it /\ x ∈ it.

Lemma concat_insert (l : list (list N)) i it it' :
  l !! i = Some it ->
  length (concat l) + length it' = length (concat (<[i := it']> l)) + length it.
Proof.
  revert i. induction l as [| a l IH]; intros [| i] Hi; [done.. | |].
  - injection Hi as ->. cbn. rewrite !length_app. lia.
  - change (length (a ++ concat l) + length it' = length (a ++ concat (<[i := it']> l)) + length it).
    apply IH in Hi. rewrite !length_app. lia.
Qed.

(** Reading the next value of a free index. *)
Lemma push_ok u i F :
  shape u (fun j => j = i \/ F j) -> (forall v, (v, i) ∉ heap u) -> i < length (iterators u) ->
  exists u', push_next (E:=E) i u = Ok u' /\ shape u' F /\ (forall x, remaining u' x <-> remaining u x) /\
    pending u' = pending u /\ length (iterators u') = length (iterators u) /\
    (heap u' = heap u \/ exists v, heap u' = (v, i) :: heap u /\
       exists it, iterators u !! i = Some it /\ v ∈ it).
Proof.
  intros [Hs Hn Hr Hf] Hi Hlt. unfold push_next.
  destruct (lookup_lt_is_Some_2 _ _ Hlt) as [it Hit]. rewrite Hit.
  destruct it as [| v rest].
  - exists u. split_and!; try done; [| by left]. split; try done.
    intros j it Hj Hne. destruct (Hf j it Hj Hne) as [? | [-> | ?]]; [by left | congruence | by right].
  - eexists. split; [done |]. pose proof (Hs _ _ Hit) as Hsort. apply StronglySorted_inv in Hsort as [Hsort Hv].
    split_and!.
    + split; cbn [iterators heap].
      * intros j it [(-> & <- & _) | [_ Hj]]%list_lookup_insert_Some; [done | by eapply Hs].
      * cbn. constructor; [| done]. intros ([w k] & -> & Hw)%list_elem_of_fmap. by eapply Hi.
      * intros w j [[= -> ->] | Hw]%elem_of_cons.
        -- exists rest. by rewrite list_lookup_insert_eq.
        -- assert (j <> i) by (intros ->; by eapply Hi). rewrite list_lookup_insert_ne by done. by apply Hr.
      * intros j it [(-> & _ & _) | [Hne Hj]]%list_lookup_insert_Some Hnil.
        -- left. exists v. by left.
        -- destruct (Hf j it Hj Hnil) as [[w Hw] | [-> | ?]]; [left; exists w; by right | done | by right].
    + intros x. unfold remaining. cbn [iterators heap]. split.
      * intros [(j & [[= -> ->] | Hx]%elem_of_cons) | (j & it & [(-> & <- & _) | [_ Hj]]%list_lookup_insert_Some & Hx)].
        -- right. exists i, (v :: rest). split; [done | by left].
        -- left. by exists j.
        -- right. exists j, (v :: rest). split; [done | by right].
        -- right. by exists j, it.
      * intros [(j & Hx) | (j & it & Hj & Hx)]; [left; exists j; by right |].
        destruct (decide (j = i)) as [-> | Hne].
        -- assert (it = v :: rest) as -> by congruence. apply elem_of_cons in Hx as [-> | Hx].
           ++ left. exists i. by left.
           ++ right. exists i, rest. by rewrite list_lookup_insert_eq.
        -- right. exists j, it. by rewrite list_lookup_insert_ne.
    + unfold pending. cbn [iterators heap length]. pose proof (concat_insert (iterators u) i (v :: rest) rest Hit) as Hlen. cbn [length] in Hlen. lia.
    + cbn [iterators]. by rewrite length_insert.
    + right. exists v. split; [done |]. exists (v :: rest). split; [done | by left].
Qed.

(** Taking the least entry of the heap. *)
Lemma heap_pop_ok u F x i others :
  shape u F -> heap_pop (heap u) = Some ((x, i), others) ->
  let w := mk_union (iterators u) others in
  shape w (fun j => j = i \/ F j) /\ (forall v, (v, i) ∉ others) /\ i < length (iterators u) /\
  (forall y, remaining u y <-> y = x \/ remaining w y) /\
  (forall it, iterators u !! i = Some it -> Forall (N.lt x) it) /\
  (forall a, a ∈ others -> (x <= a.1)%N) /\
  pending u = S (pending w) /\ length (heap u) = S (length others).
Proof.
  intros [Hs Hn Hr Hf] Hpop w. pose proof (heap_pop_spec (heap u)) as Hh. rewrite Hpop in Hh.
  destruct Hh as [Hp Hmin]. rewrite Hp in Hn. cbn in Hn. apply NoDup_cons in Hn as [Hni Hn].
  destruct (Hr x i) as (it & Hit & Hall); [rewrite Hp; by left |].
  assert (forall v, (v, i) ∉ others) as Hfresh.
  { intros v Hv. apply Hni. apply list_elem_of_fmap. by exists (v, i). }
  split_and!; [| done | by eapply lookup_lt_Some | | intros it'; by rewrite Hit; intros [= <-] | done | |].
  - split; cbn [w iterators heap]; try done.
    + intros v j Hv. apply Hr. rewrite Hp. by right.
    + intros j it' Hj Hne. destruct (Hf j it' Hj Hne) as [[v Hv] | ?]; [| by right; right].
      rewrite Hp in Hv. apply elem_of_cons in Hv as [[= -> ->] | Hv]; [by right; left | left; by exists v].
  - intros y. unfold remaining. cbn [w iterators heap]. setoid_rewrite Hp. setoid_rewrite elem_of_cons. split.
    + intros [(j & [[= -> ->] | Hy]) | Hy]; [by left | right; left; by exists j | by right; right].
    + intros [-> | [(j & Hy) | Hy]]; [left; exists i; by left | left; exists j; by right | by right].
  - unfold pending. cbn [w iterators heap]. by rewrite Hp.
  - by rewrite Hp.
Qed.

Lemma remaining_empty u x : shape u (fun _ => False) -> heap u = [] -> ~ remaining u x.
Proof.
  intros [Hs Hn Hr Hf] Hh [[i Hi] | (i & it & Hi & Hx)]; rewrite Hh in *.
  - by apply not_elem_of_nil in Hi.
  - destruct (Hf i it Hi) as [[v Hv] | []]; [by intros -> ; apply not_elem_of_nil in Hx |].
    by apply not_elem_of_nil in Hv.
Qed.

(** The least entry is the least value. *)
Lemma pop_least u x i others y :
  shape u (fun _ => False) -> heap_pop (heap u) = Some ((x, i), others) -> remaining u y -> (x <= y)%N.
Proof.
  intros Hsh Hpop Hy. destruct (heap_pop_ok u _ x i others Hsh Hpop) as (_ & _ & _ & _ & _ & Hmin & _).
  pose proof (heap_pop_spec (heap u)) as Hh. rewrite Hpop in Hh. destruct Hh as [Hp _].
  assert (forall a, a ∈ heap u -> (x <= a.1)%N) as Hle.
  { intros a Ha. rewrite Hp in Ha. apply elem_of_cons in Ha as [-> | Ha]; [done | by apply Hmin]. }
  destruct Hy as [[j Hj] | (j & it & Hj & Hy)]; [apply (Hle _ Hj) |].
  destruct (sh_free _ _ Hsh j it Hj) as [[v Hv] | []]; [intros ->; by apply not_elem_of_nil in Hy |].
  destruct (sh_range _ _ Hsh v j Hv) as (it' & Hj' & Hall).
  assert (it' = it) as -> by congruence. rewrite Forall_forall in Hall. apply Hall in Hy. apply Hle in Hv. cbn in Hv. lia.
Qed.

(** How many entries of the heap satisfy a test. *)
Definition entries_with (f : N -> bool) u : nat := length (List.filter (fun e => f e.1) (heap u)).

Lemma entries_with_pop f u x i others :
  heap_pop (heap u) = Some ((x, i), others) -> f x = true ->
  entries_with f u = S (length (List.filter (fun e => f e.1) others)).
Proof.
  intros Hpop Hx. pose proof (heap_pop_spec (heap u)) as Hh. rewrite Hpop in Hh. destruct Hh as [Hp _].
  unfold entries_with.
  assert (forall h h' : list Entry, h ≡ₚ h' ->
    length (List.filter (fun e => f e.1) h) = length (List.filter (fun e => f e.1) h')) as Hperm.
  { induction 1 as [| a h h' _ IH | a b h | h1 h2 h3 _ IH1 _ IH2]; cbn; try done.
    - destruct (f a.1); cbn; by rewrite IH.
    - destruct (f a.1), (f b.1); done.
    - by rewrite IH1. }
  rewrite (Hperm _ _ Hp). cbn [List.filter]. cbn [fst]. by rewrite Hx.
Qed.

Lemma entries_with_push f u u' i (v0 : N) :
  (heap u' = heap u \/ exists v, heap u' = (v, i) :: heap u /\ exists it, iterators u !! i = Some it /\ v ∈ it) ->
  (forall it v, iterators u !! i = Some it -> v ∈ it -> f v = false) ->
  entries_with f u' = entries_with f u.
Proof.
  intros [Hh | (v & Hh & it & Hit & Hv)] Hf; unfold entries_with; rewrite Hh; [done |].
  cbn [List.filter fst]. by rewrite (Hf it v).
Qed.

(** Dropping the duplicates of the value just read. *)
Lemma duplicates_ok fuel x : forall u,
  shape u (fun _ => False) -> (forall y, remaining u y -> (x <= y)%N) ->
  entries_with (fun v => (v =? x)%N) u <= fuel ->
  exists u', duplicates_loop (E:=E) fuel x u = Ok u' /\ shape u' (fun _ => False) /\
    (forall y, remaining u' y <-> remaining u y /\ y <> x) /\ pending u' <= pending u.
Proof.
  induction fuel as [| fuel IH]; intros u Hsh Hmin Hf; cbn [duplicates_loop];
    destruct (heap_pop (heap u)) as [[[v i] others] |] eqn:Hpop.
  1, 3: destruct (v =? x)%N eqn:Hvx.
  - rewrite (entries_with_pop (fun v => (v =? x)%N) u v i others Hpop Hvx) in Hf. by apply Nat.nle_succ_0 in Hf.
  - exists u. split_and!; [done | done | | done]. intros y. split; [| by intros [? _]]. intros Hy. split; [done |].
    intros ->. pose proof (pop_least u v i others x Hsh Hpop Hy) as Hle.
    destruct (heap_pop_ok u _ v i others Hsh Hpop) as (_ & _ & _ & Hrem & _).
    assert (remaining u v) as Hv by (apply Hrem; by left). apply Hmin in Hv. apply N.eqb_neq in Hvx. lia.
  - apply N.eqb_eq in Hvx as ->.
    destruct (heap_pop_ok u _ x i others Hsh Hpop) as (Hsw & Hni & Hlt & Hrem & Hit & Hle & Hpend & _).
    destruct (push_ok (mk_union (iterators u) others) i (fun _ => False)) as (u1 & -> & Hsh1 & Hrem1 & Hpend1 & _ & Hheap);
      [done.. |]. rewrite ret_bind.
    destruct (IH u1 Hsh1) as (u' & Hu' & Hsh' & Hrem' & Hpend').
    + intros y Hy%Hrem1. apply Hmin, Hrem. by right.
    + rewrite (entries_with_push _ (mk_union (iterators u) others) u1 i x Hheap).
      2:{ cbn [iterators]. intros it v Hi Hv. apply Hit in Hi. rewrite Forall_forall in Hi. apply Hi in Hv.
          apply N.eqb_neq. lia. }
      rewrite (entries_with_pop _ u x i others Hpop) in Hf by apply N.eqb_refl.
      unfold entries_with. cbn [heap]. lia.
    + exists u'. split_and!; [done | done | | lia]. intros y. rewrite Hrem', Hrem1, Hrem. split.
      * intros [? ?]. split; [by right | done].
      * intros [[-> | ?] ?]; done.
  - exists u. split_and!; [done | done | | done]. intros y. split; [| by intros [? _]]. intros Hy. split; [done |].
    intros ->. pose proof (pop_least u v i others x Hsh Hpop Hy) as Hle.
    destruct (heap_pop_ok u _ v i others Hsh Hpop) as (_ & _ & _ & Hrem & _).
    assert (remaining u v) as Hv by (apply Hrem; by left). apply Hmin in Hv. apply N.eqb_neq in Hvx. lia.
  - pose proof (heap_pop_spec (heap u)) as Hh. rewrite Hpop in Hh.
    exists u. split_and!; [done | done | | done]. intros y. split; [| by intros [? _]].
    intros Hy. by destruct (remaining_empty u y Hsh Hh).
  - pose proof (heap_pop_spec (heap u)) as Hh. rewrite Hpop in Hh.
    exists u. split_and!; [done | done | | done]. intros y. split; [| by intros [? _]].
    intros Hy. by destruct (remaining_empty u y Hsh Hh).
Qed.

(** [next] yields the least value and removes it. *)
Lemma union_next_ok u :
  shape u (fun _ => False) ->
  exists o u', union_next (E:=E) u = Ok (o, u') /\ shape u' (fun _ => False) /\
    match o with
    | None => (forall y, ~ remaining u y) /\ u' = u
    | Some x => remaining u x /\ (forall y, remaining u' y <-> remaining u y /\ (x < y)%N) /\
                (forall y, remaining u y -> (x <= y)%N) /\ pending u' < pending u
    end.
Proof.
  intros Hsh. unfold union_next. destruct (heap_pop (heap u)) as [[[x i] others] |] eqn:Hpop.
  - destruct (heap_pop_ok u _ x i others Hsh Hpop) as (Hsw & Hni & Hlt & Hrem & Hit & Hle & Hpend & Hlen).
    destruct (push_ok (mk_union (iterators u) others) i (fun _ => False)) as (u1 & -> & Hsh1 & Hrem1 & Hpend1 & _ & Hheap);
      [done.. |]. rewrite ret_bind.
    assert (forall y, remaining u y -> (x <= y)%N) as Hmin by (intros y; by apply pop_least with i others).
    destruct (duplicates_ok (length (heap u1)) x u1 Hsh1) as (u' & -> & Hsh' & Hrem' & Hpend').
    + intros y Hy%Hrem1. apply Hmin, Hrem. by right.
    + unfold entries_with. apply sublist_length, sublist_filter_bool.
    + rewrite ret_bind. exists (Some x), u'. split_and!; [done | done | apply Hrem; by left | | done | lia].
      intros y. rewrite Hrem', Hrem1. split.
      * intros [Hy Hne]. assert (remaining u y) as Hy' by (apply Hrem; by right). split; [done |].
        apply Hmin in Hy'. lia.
      * intros [Hy Hxy]. split; [| lia]. apply Hrem in Hy as [-> | ?]; [lia | done].
  - pose proof (heap_pop_spec (heap u)) as Hh. rewrite Hpop in Hh.
    exists None, u. split_and!; [done | done | | done]. intros y. by apply remaining_empty.
Qed.

(** [advance_to] drops what is below the target. *)
Lemma advance_ok fuel t : forall u,
  shape u (fun _ => False) -> entries_with (fun v => (v <? t)%N) u <= fuel ->
  exists u', advance_loop (E:=E) fuel t u = Ok u' /\ shape u' (fun _ => False) /\
    (forall y, remaining u' y <-> remaining u y /\ (t <= y)%N) /\ pending u' <= pending u.
Proof using RL.
  induction fuel as [| fuel IH]; intros u Hsh Hf; cbn [advance_loop];
    destruct (heap_pop (heap u)) as [[[v i] others] |] eqn:Hpop.
  1, 3: destruct (v <? t)%N eqn:Hvt.
  - rewrite (entries_with_pop (fun v => (v <? t)%N) u v i others Hpop Hvt) in Hf. by apply Nat.nle_succ_0 in Hf.
  - exists u. split_and!; [done | done | | done]. intros y. split; [| by intros [? _]]. intros Hy. split; [done |].
    apply N.ltb_ge in Hvt. pose proof (pop_least u v i others y Hsh Hpop Hy). lia.
  - destruct (heap_pop_ok u _ v i others Hsh Hpop) as (Hsw & Hni & Hlt & Hrem & Hit & Hle & Hpend & _).
    destruct (lookup_lt_is_Some_2 _ _ Hlt) as [it Hi]. rewrite Hi.
    pose proof (sh_sorted _ _ Hsh _ _ Hi) as Hsort. unfold ref_advance_to. rewrite bm_advance_drop by done.
    set (it' := List.filter (fun x => negb (x <? t)%N) it).
    set (w := mk_union (<[i := it']> (iterators u)) others).
    assert (it' `sublist_of` it) as Hsub by apply sublist_filter_bool.
    assert (forall y, y ∈ it' <-> y ∈ it /\ (t <= y)%N) as Hin'.
    { intros y. unfold it'. by rewrite !list_elem_of_In, filter_In, negb_true_iff, N.ltb_ge. }
    assert (shape w (fun j => j = i \/ False)) as Hshw.
    { destruct Hsw as [Hs Hn Hr Hfree]. cbn [iterators heap] in *. split; cbn [w iterators heap].
      - intros j l [(-> & <- & _) | [_ Hj]]%list_lookup_insert_Some; [| by eapply Hs].
        clear -Hsort. unfold it'. induction Hsort as [| a l Hl IH Ha]; cbn; [constructor |].
        destruct (negb (a <? t)%N); [| done]. constructor; [done |]. rewrite Forall_forall in *.
        intros z Hz. apply Ha. rewrite list_elem_of_In in *. by apply filter_In in Hz as [? _].
      - done.
      - intros a j Ha. assert (j <> i) by (intros ->; by eapply Hni). rewrite list_lookup_insert_ne by done. by apply Hr.
      - intros j l [(-> & _ & _) | [Hne Hj]]%list_lookup_insert_Some Hnil; [by right; left | by eapply Hfree]. }
    destruct (push_ok w i (fun _ => False)) as (u1 & -> & Hsh1 & Hrem1 & Hpend1 & _ & Hheap);
      [done | done | cbn; by rewrite length_insert |]. rewrite ret_bind.
    assert (pending w <= pending (mk_union (iterators u) others)) as Hpw.
    { unfold pending. cbn [w iterators heap]. pose proof (sublist_length _ _ Hsub) as Hlen.
      pose proof (concat_insert (iterators u) i it it' Hi). lia. }
    destruct (IH u1 Hsh1) as (u' & Hu' & Hsh' & Hrem' & Hpend').
    + rewrite (entries_with_push _ w u1 i t Hheap).
      2:{ cbn [w iterators]. intros l z. rewrite list_lookup_insert_eq by done. intros [= <-] [_ Hz]%Hin'.
          by apply N.ltb_ge. }
      rewrite (entries_with_pop _ u v i others Hpop Hvt) in Hf. unfold entries_with. cbn [w heap]. lia.
    + exists u'. split_and!; [done | done | | lia]. intros y. rewrite Hrem', Hrem1, Hrem.
      assert (remaining w y <-> (exists j, (y, j) ∈ others) \/
        (exists j l, j <> i /\ iterators u !! j = Some l /\ y ∈ l) \/ (y ∈ it /\ (t <= y)%N)) as Hw.
      { unfold remaining. cbn [w iterators heap]. rewrite <- Hin'. split.
        - intros [? | (j & l & [(-> & <- & _) | [Hne Hj]]%list_lookup_insert_Some & Hy)]; [by left | by right; right |].
          right. left. by exists j, l.
        - intros [? | [(j & l & Hne & Hj & Hy) | Hy]]; [by left | |]; right.
          + exists j, l. by rewrite list_lookup_insert_ne.
          + exists i, it'. by rewrite list_lookup_insert_eq. }
      rewrite Hw. apply N.ltb_lt in Hvt. unfold remaining. cbn [iterators heap]. split.
      * intros [[? | [(j & l & _ & ? & ?) | [? ?]]] ?]; (split; [| done]); right; [by left | right; by exists j, l | right; by exists i, it].
      * intros [[-> | [? | (j & l & Hj & Hy)]] Hty]; [lia | by split; [left |] |]. split; [| done]. right.
        destruct (decide (j = i)) as [-> | Hne]; [right | left; by exists j, l]. split; [congruence | done].
  - exists u. split_and!; [done | done | | done]. intros y. split; [| by intros [? _]]. intros Hy. split; [done |].
    apply N.ltb_ge in Hvt. pose proof (pop_least u v i others y Hsh Hpop Hy). lia.
  - pose proof (heap_pop_spec (heap u)) as Hh. rewrite Hpop in Hh.
    exists u. split_and!; [done | done | | done]. intros y. split; [| by intros [? _]].
    intros Hy. by destruct (remaining_empty u y Hsh Hh).
  - pose proof (heap_pop_spec (heap u)) as Hh. rewrite Hpop in Hh.
    exists u. split_and!; [done | done | | done]. intros y. split; [| by intros [? _]].
    intros Hy. by destruct (remaining_empty u y Hsh Hh).
Qed.
(** ** Building a union *)

Lemma shape_weaken u (F G : nat -> Prop) :
  (forall j, j < length (iterators u) -> F j -> G j) -> shape u F -> shape u G.
Proof.
  intros HFG [Hs Hn Hr Hf]. split; try done. intros i it Hi Hne.
  destruct (Hf i it Hi Hne) as [? | ?]; [by left | right]. apply HFG; [| done]. by eapply lookup_lt_Some.
Qed.

Lemma union_new_loop m : forall k u,
  length (iterators u) = k + m -> shape u (fun j => k <= j) ->
  (forall v j, (v, j) ∈ heap u -> j < k) ->
  exists u', fold_res (fun u index => push_next (E:=E) index u) u (seq k m) = Ok u' /\
    shape u' (fun _ => False) /\ forall x, remaining u' x <-> remaining u x.
Proof.
  induction m as [| m IH]; intros k u Hlen Hsh Hlt; cbn [seq fold_res].
  - exists u. split_and!; [done | | done]. eapply shape_weaken; [| done]. cbn. intros j Hj Hk. lia.
  - destruct (push_ok u k (fun j => S k <= j)) as (u1 & -> & Hsh1 & Hrem1 & _ & Hlen1 & Hheap).
    + eapply shape_weaken; [| done]. cbn. intros j _ Hk. lia.
    + intros v Hv%Hlt. lia.
    + lia.
    + rewrite ret_bind. destruct (IH (S k) u1) as (u' & Hu' & Hsh' & Hrem'); [lia | done | |].
      * intros v j Hv. destruct Hheap as [Hh | (w & Hh & _)]; rewrite Hh in Hv; [apply Hlt in Hv; lia |].
        apply elem_of_cons in Hv as [[= -> ->] | Hv%Hlt]; lia.
      * exists u'. split_and!; [done | done |]. intros x. by rewrite Hrem', Hrem1.
Qed.

(** One of the lists holds [x]. *)
Definition holds (postings : list ReferenceSet) x : Prop :=
  exists s, s ∈ postings /\ ref_contains s x = true.

Lemma union_new_ok (postings : list ReferenceSet) :
  exists u, union_new (E:=E) postings = Ok u /\ shape u (fun _ => False) /\
    forall x, remaining u x <-> holds postings x.
Proof using RL.
  unfold union_new.
  destruct (union_new_loop (length postings) 0 (mk_union (ref_ordered_iter <$> postings) []))
    as (u & Hu & Hsh & Hrem).
  - cbn. by rewrite length_fmap.
  - split; cbn [iterators heap].
    + intros i it (s & -> & _)%list_lookup_fmap_Some_1. apply bm_iter_sorted.
    + constructor.
    + by intros v i ?%not_elem_of_nil.
    + intros i it _ _. right. lia.
  - by intros v j ?%not_elem_of_nil.
  - exists u. split_and!; [done | done |]. intros x. rewrite Hrem. unfold remaining, holds. cbn [iterators heap].
    split.
    + intros [[i Hi%not_elem_of_nil] | (i & it & (s & -> & Hs)%list_lookup_fmap_Some_1 & Hx)]; [done |].
      exists s. split; [by eapply list_elem_of_lookup_2 |]. by apply bm_iter_contains.
    + intros (s & [i Hi]%list_elem_of_lookup & Hx). right. exists i, (ref_ordered_iter s).
      split; [by apply list_lookup_fmap_Some_2 | by apply bm_iter_contains].
Qed.

Lemma union_collect_ok fuel : forall u,
  shape u (fun _ => False) -> pending u <= fuel ->
  exists l, union_collect (E:=E) fuel u = Ok l /\ StronglySorted N.lt l /\ forall x, x ∈ l <-> remaining u x.
Proof.
  induction fuel as [| fuel IH]; intros u Hsh Hp; cbn [union_collect];
    destruct (union_next_ok u Hsh) as ([x |] & u' & -> & Hsh' & Hx); rewrite ret_bind.
  1, 3: destruct Hx as (Hx & Hrem & Hmin & Hlt).
  - lia.
  - destruct (IH u' Hsh') as (l & -> & Hsort & Hl); [lia |]. exists (x :: l). split_and!; [done | |].
    + constructor; [done |]. apply Forall_forall. intros y [_ Hy]%Hl%Hrem. done.
    + intros y. rewrite elem_of_cons, Hl, Hrem. split; [intros [-> | [? _]]; done |].
      intros Hy. destruct (decide (y = x)) as [-> | Hne]; [by left | right]. split; [done |]. apply Hmin in Hy. lia.
  - destruct Hx as [Hx _]. exists []. split_and!; [done | constructor |]. intros y. by split; [intros ?%not_elem_of_nil | intros ?%Hx].
  - destruct Hx as [Hx _]. exists []. split_and!; [done | constructor |]. intros y. by split; [intros ?%not_elem_of_nil | intros ?%Hx].
Qed.

(** The union of posting lists is yielded once each, in order, whatever the lists. *)
Lemma union_all_ok postings :
  exists l, union_all (E:=E) postings = Ok l /\ StronglySorted N.lt l /\ forall x, x ∈ l <-> holds postings x.
Proof using RL.
  destruct (union_new_ok postings) as (u & Hu & Hsh & Hrem). unfold union_all. rewrite Hu, ret_bind.
  destruct (union_collect_ok (pending u) u Hsh) as (l & Hl & Hsort & Hin); [done |].
  exists l. split_and!; [done | done |]. intros x. by rewrite Hin, Hrem.
Qed.

(** ** The intersection *)

(** The values one side has still to yield, its current value included. *)
Definition stream (c : option N) u y : Prop := c = Some y \/ remaining u y.

Definition sided (c : option N) u : Prop :=
  shape u (fun _ => False) /\ forall v, c = Some v -> forall y, remaining u y -> (v < y)%N.

Definition cost (c : option N) u : nat := pending u + match c with Some _ => 1 | None => 0 end.

Lemma refill_ok c u :
  sided c u ->
  exists c' u', refill (E:=E) c u = Ok (c', u') /\ sided c' u' /\
    (forall y, stream c' u' y <-> stream c u y) /\ (c' = None -> forall y, ~ stream c u y) /\
    cost c' u' <= cost c u.
Proof.
  intros [Hsh Hc]. destruct c as [v |]; cbn [refill]; [by exists (Some v), u |].
  destruct (union_next_ok u Hsh) as ([x |] & u' & -> & Hsh' & Hx).
  - destruct Hx as (Hx & Hrem & Hmin & Hlt). exists (Some x), u'. unfold stream, cost. split_and!; [done | | | done | lia].
    + split; [done |]. intros v [= <-] y [_ Hy]%Hrem. done.
    + intros y. rewrite Hrem. split; [intros [[= ->] | [? _]]; by right |]. intros [? | Hy]; [done |].
      destruct (decide (x = y)) as [-> | Hne]; [by left | right]. split; [done |]. apply Hmin in Hy. lia.
  - destruct Hx as [Hx ->]. exists None, u. split_and!; [done | done | done | | done].
    intros _ y [? | Hy]; [done | by eapply Hx].
Qed.

Lemma advance_sided v c u :
  sided (Some c) u -> (c < v)%N ->
  exists u', advance_to (E:=E) v u = Ok u' /\ sided None u' /\
    (forall y, stream None u' y <-> stream (Some c) u y /\ (v <= y)%N) /\ cost None u' < cost (Some c) u.
Proof using RL.
  intros [Hsh Hc] Hcv. unfold advance_to.
  destruct (advance_ok (length (heap u)) v u Hsh) as (u' & -> & Hsh' & Hrem & Hp).
  { apply sublist_length, sublist_filter_bool. }
  exists u'. unfold stream, cost. split_and!; [done | done | | lia].
  intros y. rewrite Hrem. split; [intros [? | [? ?]]; [done | split; [by right | done]] |].
  intros [[[= <-] | ?] ?]; [lia | by right].
Qed.

Definition isided (i : ReferencePostingIntersection) : Prop :=
  sided (left_current i) (left_ i) /\ sided (right_current i) (right_ i).

Definition both (i : ReferencePostingIntersection) y : Prop :=
  stream (left_current i) (left_ i) y /\ stream (right_current i) (right_ i) y.

Lemma stream_least c u y : sided (Some c) u -> stream (Some c) u y -> (c <= y)%N.
Proof. intros [_ Hc] [[= ->] | Hy]; [done |]. specialize (Hc c eq_refl y Hy). lia. Qed.

Lemma stream_rest c u y : sided (Some c) u -> stream None u y <-> stream (Some c) u y /\ (c < y)%N.
Proof.
  intros [_ Hc]. unfold stream. split.
  - intros [? | Hy]; [done |]. split; [by right | by eapply Hc].
  - intros [[[= ->] | ?] ?]; [lia | by right].
Qed.

Lemma intersection_next_ok fuel : forall i : ReferencePostingIntersection,
  isided i -> pending_both i < fuel ->
  exists o (i' : ReferencePostingIntersection), intersection_next (E:=E) fuel i = Ok (o, i') /\ isided i' /\
    match o with
    | None => forall y, ~ both i y
    | Some x => both i x /\ (forall y, both i' y <-> both i y /\ (x < y)%N) /\
        (forall y, both i y -> (x <= y)%N) /\ pending_both i' < pending_both i
    end.
Proof using RL.
  induction fuel as [| fuel IH]; intros i [Hl Hr] Hf; [lia |]. cbn [intersection_next].
  destruct (refill_ok _ _ Hl) as (lc & l & -> & Hl' & Hlst & Hlnone & Hlcost). rewrite ret_bind.
  destruct (refill_ok _ _ Hr) as (rc & r & -> & Hr' & Hrst & Hrnone & Hrcost). rewrite ret_bind.
  assert (pending_both (mk_intersection l r lc rc) <= pending_both i) as Hcost.
  { unfold cost in *. unfold pending_both. cbn [left_ right_ left_current right_current]. lia. }
  assert (forall y, both (mk_intersection l r lc rc) y <-> both i y) as Hboth.
  { intros y. unfold both. cbn [left_ right_ left_current right_current]. by rewrite Hlst, Hrst. }
  destruct lc as [lv |]; [destruct rc as [rv |] |].
  2: { exists None, (mk_intersection l r (Some lv) None). split_and!; [done | done |]. intros y [_ Hy]. by eapply Hrnone. }
  2: { exists None, (mk_intersection l r None rc). split_and!; [done | done |]. intros y [Hy _]. by eapply Hlnone. }
  destruct (N.compare_spec lv rv) as [<- | Hlt | Hlt].
  - exists (Some lv), (mk_intersection l r None None). split; [done | split].
    + destruct Hl', Hr'. split; cbn; by split.
    + split; [apply Hboth; split; by left | split; [| split]].
      * intros y. rewrite <- Hboth. unfold both. cbn [left_ right_ left_current right_current].
        rewrite (stream_rest lv l), (stream_rest lv r) by done. tauto.
      * intros y [Hy _]%Hboth. by apply stream_least with l.
      * unfold pending_both in *. cbn [left_ right_ left_current right_current] in *. lia.
  - destruct (advance_sided rv lv l Hl' Hlt) as (l1 & -> & Hl1 & Hst1 & Hc1). rewrite ret_bind.
    destruct (IH (mk_intersection l1 r None (Some rv))) as (o & i' & Hi' & Hsd & Ho);
      [done | unfold cost, pending_both in *; cbn [left_ right_ left_current right_current] in *; lia |].
    assert (forall y, both (mk_intersection l1 r None (Some rv)) y <-> both i y) as Hb.
    { intros y. rewrite <- Hboth. unfold both. cbn [left_ right_ left_current right_current]. rewrite Hst1.
      split; [tauto |]. intros [? Hy]. split_and!; try done. by eapply stream_least. }
    exists o, i'. split_and!; [done | done |]. destruct o as [x |]; [| by intros y Hy%Hb%Ho].
    destruct Ho as (Hx & Hx' & Hmin & Hlt'). split_and!; [by apply Hb | intros y; by rewrite Hx', Hb | |].
    { intros y Hy%Hb. by apply Hmin. }
    unfold cost, pending_both in *. cbn [left_ right_ left_current right_current] in *. lia.
  - destruct (advance_sided lv rv r Hr' Hlt) as (r1 & -> & Hr1 & Hst1 & Hc1). rewrite ret_bind.
    destruct (IH (mk_intersection l r1 (Some lv) None)) as (o & i' & Hi' & Hsd & Ho);
      [done | unfold cost, pending_both in *; cbn [left_ right_ left_current right_current] in *; lia |].
    assert (forall y, both (mk_intersection l r1 (Some lv) None) y <-> both i y) as Hb.
    { intros y. rewrite <- Hboth. unfold both. cbn [left_ right_ left_current right_current]. rewrite Hst1.
      split; [tauto |]. intros [Hy ?]. split_and!; try done. by eapply stream_least. }
    exists o, i'. split_and!; [done | done |]. destruct o as [x |]; [| by intros y Hy%Hb%Ho].
    destruct Ho as (Hx & Hx' & Hmin & Hlt'). split_and!; [by apply Hb | intros y; by rewrite Hx', Hb | |].
    { intros y Hy%Hb. by apply Hmin. }
    unfold cost, pending_both in *. cbn [left_ right_ left_current right_current] in *. lia.
Qed.

Lemma intersection_collect_ok fuel : forall i : ReferencePostingIntersection,
  isided i -> pending_both i <= fuel ->
  exists l, intersection_collect (E:=E) fuel i = Ok l /\ StronglySorted N.lt l /\ forall x, x ∈ l <-> both i x.
Proof using RL.
  induction fuel as [| fuel IH]; intros i Hi Hp; cbn [intersection_collect];
    destruct (intersection_next_ok (S (pending_both i)) i Hi) as ([x |] & i' & -> & Hi' & Hx);
    try lia; rewrite ret_bind.
  2: destruct Hx as (Hx & Hrem & Hmin & Hlt).
  - exists []. split_and!; [done | constructor |]. intros y. by split; [intros ?%not_elem_of_nil | intros ?%Hx].
  - destruct (IH i' Hi') as (l & -> & Hsort & Hl); [lia |]. exists (x :: l). split_and!; [done | |].
    + constructor; [done |]. apply Forall_forall. intros y [_ Hy]%Hl%Hrem. done.
    + intros y. rewrite elem_of_cons, Hl, Hrem. split; [intros [-> | [? _]]; done |].
      intros Hy. destruct (decide (y = x)) as [-> | Hne]; [by left | right]. split; [done |].
      apply Hmin in Hy. lia.
  - exists []. split_and!; [done | constructor |]. intros y. by split; [intros ?%not_elem_of_nil | intros ?%Hx].
Qed.

(** [ReferencePostingIntersection] yields, in order and once each, the values that
    both sides hold. *)
Lemma intersection_all_ok a b :
  exists l, intersection_all (E:=E) a b = Ok l /\ StronglySorted N.lt l /\ forall x, x ∈ l <-> holds a x /\ holds b x.
Proof using RL.
  destruct (union_new_ok a) as (l & Hl & Hsl & Hreml), (union_new_ok b) as (r & Hr & Hsr & Hremr).
  unfold intersection_all, intersection_new. rewrite Hl, ret_bind, Hr, ret_bind. cbn [mbind res_bind mret res_ret].
  destruct (intersection_collect_ok (pending_both (mk_intersection l r None None)) (mk_intersection l r None None))
    as (o & Ho & Hsort & Hin); [split; by split | done |].
  exists o. split_and!; [done | done |]. intros x. rewrite Hin. unfold both, stream. cbn [left_ right_ left_current right_current].
  rewrite Hreml, Hremr. split; [intros [[? | ?] [? | ?]]; done | intros [? ?]; split; by right].
Qed.
End facts.
End PostingsFacts.
