(* ===== verification/Paths.v ===== *)
(** The bounded path engine (src/crates/workspace/src/snapshot/path.rs): shortest
    paths and corridors over resolved references, within limits and a scope. *)

From S2P Require Import Prelude.
From S2P Require Import RustStr.
From S2P Require Import Suppress.
From S2P Require Import Bitmap.
From S2P Require Import Snapshot.
From S2P Require Import Inventory.
From S2P Require Import LinkIndex.
From S2P Require Import Postings.

Module Paths.
Import Snapshot Inventory LinkIndex Postings.
Section paths.
Context {R : Roaring} {HO : HashOrder}.

(** ** Requests and results *)

Record BoundedPathEdge : Set := mk_path_edge {
  edge_source : SymbolId;
  edge_target : SymbolId;
  edge_reference : ReferenceId
}.

(** The counters are [usize]: sums of sizes of sets of 32-bit integers. *)
Record BoundedPathCoverage : Set := mk_coverage {
  cov_total : N;
  cov_decided : N;
  cov_resolved : N;
  cov_external : N;
  cov_candidate : N;
  cov_dynamic : N;
  cov_manifest_blocked : N;
  cov_unresolved : N;
  gap_reasons : gmap bytes N
}.

Definition coverage_default : BoundedPathCoverage := mk_coverage 0 0 0 0 0 0 0 0 ∅.

Definition usize_max : N := 2 ^ 64 - 1.

Definition percent (c : BoundedPathCoverage) : N :=
  let scaled := N.min (cov_decided c * 100) usize_max in
  if (cov_total c =? 0)%N then 100%N else (scaled / cov_total c)%N.

Record BoundedPathSearch : Set := mk_path_search {
  ps_path : list BoundedPathEdge;
  ps_coverage : BoundedPathCoverage;
  ps_depth_reached : nat;
  ps_explored_symbols : N;
  ps_explored_edges : N;
  ps_depth_limit : bool;
  ps_symbol_limit : bool;
  ps_edge_limit : bool
}.

Record BoundedCorridorSearch : Set := mk_corridor_search {
  cs_members : list SymbolId;
  cs_edges : list BoundedPathEdge;
  cs_coverage : BoundedPathCoverage;
  cs_forward_depth : nat;
  cs_reverse_depth : nat;
  cs_explored_symbols : N;
  cs_explored_edges : N;
  cs_depth_limit : bool;
  cs_symbol_limit : bool;
  cs_edge_limit : bool
}.

Record BoundedPathLimits : Set := mk_limits {
  max_depth : nat;
  max_symbols : N;
  max_edges : N
}.

Record BoundedPathScope : Type := mk_scope {
  scope_all : bool;
  scope_files : RoaringBitmap;
  scope_roots : RoaringBitmap;
  scope_symbols : option SymbolSet
}.

(** [BoundedCorridorScope(BoundedPathScope)] *)
Record BoundedCorridorScope : Type := mk_corridor_scope { as_path_scope : BoundedPathScope }.

Record BoundedPathSetRequest : Type := mk_set_request {
  sr_from : SymbolSet;
  sr_to : SymbolSet;
  sr_relations : list bytes;
  sr_avoid : list SymbolId;
  sr_limits : BoundedPathLimits;
  sr_scope : BoundedPathScope
}.

Record BoundedPathRequest : Type := mk_request {
  rq_from : SymbolId;
  rq_to : SymbolId;
  rq_relations : list bytes;
  rq_avoid : list SymbolId;
  rq_limits : BoundedPathLimits;
  rq_scope : BoundedPathScope
}.

Record BoundedCorridorRequest : Type := mk_corridor_request {
  cr_from : SymbolId;
  cr_to : SymbolId;
  cr_relations : list bytes;
  cr_limits : BoundedPathLimits;
  cr_scope : BoundedCorridorScope
}.

Record BoundedCorridorSetRequest : Type := mk_corridor_set_request {
  csr_from : SymbolSet;
  csr_to : SymbolSet;
  csr_relations : list bytes;
  csr_limits : BoundedPathLimits;
  csr_scope : BoundedCorridorScope
}.

(** ** Scopes *)

Definition bitmap_of (l : list N) : RoaringBitmap := foldl (fun b n => bm_insert n b) bm_new l.

Definition all_scope : BoundedPathScope := mk_scope true bm_new bm_new None.

Definition from_sources (sources : list SourceId) : BoundedPathScope :=
  mk_scope false (bitmap_of (source_file <$> sources)) bm_new None.

Definition from_source_roots (source_roots : list nat) : BoundedPathScope :=
  mk_scope false bm_new (bitmap_of (Lines.as_u32 <$> source_roots)) None.

Definition from_symbols (symbols : SymbolSet) : BoundedPathScope :=
  mk_scope false bm_new bm_new (Some symbols).

Definition scope_contains (scope : BoundedPathScope) (ri : LinkageReadIndex) (o : SymbolOrdinal) : bool :=
  if scope_all scope then true
  else
    match scope_symbols scope with
    | Some symbols => set_contains symbols o
    | None =>
        match ri_symbol ri o with
        | None => false
        | Some symbol =>
            if negb (bm_is_empty (scope_roots scope)) then
              match source_roots_by_file ri !! id_file symbol with
              | Some root => bm_contains (scope_roots scope) root
              | None => false
              end
            else bm_contains (scope_files scope) (symbol_file symbol)
        end
    end.

Definition exceeds (scope : BoundedPathScope) (max_symbols : N) : bool :=
  match scope_symbols scope with
  | Some symbols => (max_symbols <? set_len symbols)%N
  | None => false
  end.

Definition corridor_scope_from_symbols (symbols : SymbolSet) (max_symbols : N)
    : option BoundedCorridorScope :=
  if negb (set_is_empty symbols) && (set_len symbols <=? max_symbols)%N && (max_symbols <=? 100000)%N
  then Some (mk_corridor_scope (from_symbols symbols))
  else None.

(** ** References of a frontier *)

Inductive TraversalDirection : Set := Forward | Reverse.

Record ReferenceSelection : Type := mk_selection {
  direction : TraversalDirection;
  frontier : SymbolSet;
  sel_scope : BoundedPathScope;
  reuse_seen : bool
}.

Inductive ReferenceScope : Type :=
| All
| Terms (terms : list ReferenceSet).

Record ReferenceBatch : Type := mk_batch {
  batch_references : ReferenceSet;
  batch_limit_reached : bool
}.

Record ReferenceTraversal : Type := mk_traversal {
  seen : ReferenceSet;
  coverage : BoundedPathCoverage;
  explored_edges : N;
  limit_reached : bool
}.

Definition traversal_default : ReferenceTraversal := mk_traversal ref_new coverage_default 0 false.

Record ReferenceAdmission : Type := mk_admission {
  adm_seen : ReferenceSet;
  adm_limit : N;
  adm_already_seen : ReferenceSet;
  admitted : ReferenceSet;
  adm_limit_reached : bool
}.

Definition admission_new (seen : ReferenceSet) (limit : N) (already_seen : ReferenceSet)
    : ReferenceAdmission := mk_admission seen limit already_seen ref_new false.

(** The [for] loop of [admit]; the early return ends it. *)
Fixpoint admission_loop (references : list ReferenceOrdinal) (a : ReferenceAdmission)
    : ReferenceAdmission :=
  match references with
  | [] => a
  | reference :: references =>
      if ref_contains (adm_seen a) reference then admission_loop references a
      else if (ref_len (admitted a) =? adm_limit a)%N then
        mk_admission (adm_seen a) (adm_limit a) (adm_already_seen a) (admitted a) true
      else
        admission_loop references
          (mk_admission (adm_seen a) (adm_limit a) (adm_already_seen a)
             (ref_insert reference (admitted a)) (adm_limit_reached a))
  end.

Definition admission_admit (references : list ReferenceOrdinal) (a : ReferenceAdmission)
    : ReferenceAdmission :=
  if adm_limit_reached a then a else admission_loop references a.

Definition directed_postings (ri : LinkageReadIndex) (d : TraversalDirection) (o : SymbolOrdinal)
    (relations : list bytes) : list ReferenceSet :=
  match d with
  | Forward => outgoing_postings ri o relations
  | Reverse => incoming_postings ri o relations
  end.

Definition reference_postings_from_symbols (ri : LinkageReadIndex) (d : TraversalDirection)
    (symbols : SymbolSet) (relations : list bytes) : list ReferenceSet :=
  mjoin ((fun symbol => directed_postings ri d symbol relations) <$> set_iter symbols).

Definition reference_scope_terms (ri : LinkageReadIndex) (scope : BoundedPathScope)
    (d : TraversalDirection) (relations : list bytes) : ReferenceScope :=
  if scope_all scope then All
  else
    let missing := match d with
                   | Forward => references_without_target ri
                   | Reverse => references_without_source ri
                   end in
    match scope_symbols scope with
    | Some symbols =>
        let opposite := match d with Forward => Reverse | Reverse => Forward end in
        Terms (missing :: reference_postings_from_symbols ri opposite symbols relations)
    | None =>
        let '(selected, postings) :=
          if negb (bm_is_empty (scope_roots scope)) then
            (scope_roots scope,
             match d with
             | Forward => references_by_target_root ri
             | Reverse => references_by_source_root ri
             end)
          else
            (scope_files scope,
             match d with
             | Forward => references_by_target_file ri
             | Reverse => references_by_source_file ri
             end) in
        Terms (missing ::
          (if (bm_len selected <=? N.of_nat (size postings))%N
           then omap (fun boundary => postings !! boundary) (bm_iter selected)
           else snd <$> List.filter (fun p => bm_contains selected p.1) (entries postings)))
    end.

Definition reference_matches_selection (ri : LinkageReadIndex) (relations : list bytes)
    (sel : ReferenceSelection) (reference : ReferenceOrdinal) : bool :=
  let '(front, opposite) :=
    match direction sel with
    | Forward => (reference_source ri reference, reference_target ri reference)
    | Reverse => (reference_target ri reference, reference_source ri reference)
    end in
  match front with
  | None => false
  | Some front =>
      if negb (set_contains (frontier sel) front)
         || match opposite with
            | Some opposite => negb (scope_contains (sel_scope sel) ri opposite)
            | None => false
            end
      then false
      else existsb (fun posting => ref_contains posting reference)
             (directed_postings ri (direction sel) front relations)
  end.

Definition bounded_frontier_references {E : Type} (ri : LinkageReadIndex) (relations : list bytes)
    (sel : ReferenceSelection) (seen : ReferenceSet) (limit : N)
    : res E (ReferenceSet * ReferenceSet * bool) :=
  let already_seen :=
    if reuse_seen sel
    then ref_from_iter (List.filter (reference_matches_selection ri relations sel) (ref_iter seen))
    else ref_new in
  let admission := admission_new seen limit already_seen in
  let frontier_postings :=
    reference_postings_from_symbols ri (direction sel) (frontier sel) relations in
  references ← match reference_scope_terms ri (sel_scope sel) (direction sel) relations with
               | All => union_all frontier_postings
               | Terms scope_postings => intersection_all frontier_postings scope_postings
               end;
  let a := admission_admit references admission in
  mret (adm_already_seen a, admitted a, adm_limit_reached a).

(** ** Coverage *)

Definition add_reason (reason : bytes) (n : N) (reasons : gmap bytes N) : gmap bytes N :=
  <[reason := (default 0%N (reasons !! reason) + n)%N]> reasons.

Definition tally_reason (category reason : bytes) (reasons : gmap bytes N) : gmap bytes N :=
  add_reason (category ++ bs ":" ++ reason) 1 reasons.

Definition tally_all (category : bytes) (reason : ReferenceOrdinal -> bytes) (set : ReferenceSet)
    (reasons : gmap bytes N) : gmap bytes N :=
  foldl (fun reasons reference => tally_reason category (reason reference) reasons) reasons (ref_iter set).

Definition observe (ri : LinkageReadIndex) (references : ReferenceSet) (t : ReferenceTraversal)
    : ReferenceTraversal :=
  let k := classifications ri in
  let resolved := ref_intersection references (k_resolved k) in
  let external := ref_intersection references (k_external k) in
  let candidate := ref_intersection references (k_candidate k) in
  let dynamic := ref_intersection references (k_dynamic k) in
  let manifest_blocked := ref_intersection references (k_manifest_blocked k) in
  let unresolved := ref_intersection references (k_unresolved k) in
  let classified := foldl ref_union_with (ref_union resolved external)
                      [candidate; dynamic; manifest_blocked; unresolved] in
  let unclassified := ref_difference references classified in
  let c := coverage t in
  let reasons := tally_all (bs "candidate") (candidate_reason k) candidate (gap_reasons c) in
  let reasons := tally_all (bs "dynamic") (dynamic_reason k) dynamic reasons in
  let reasons := if negb (ref_is_empty manifest_blocked)
                 then add_reason (bs "manifest_blocked") (ref_len manifest_blocked) reasons
                 else reasons in
  let reasons := tally_all (bs "unresolved") (unresolved_reason k) unresolved reasons in
  let reasons := if negb (ref_is_empty unclassified)
                 then add_reason (bs "unresolved:unclassified") (ref_len unclassified) reasons
                 else reasons in
  {| seen := seen t;
     coverage := {|
       cov_total := cov_total c + ref_len references;
       cov_resolved := cov_resolved c + ref_len resolved;
       cov_external := cov_external c + ref_len external;
       cov_candidate := cov_candidate c + ref_len candidate;
       cov_dynamic := cov_dynamic c + ref_len dynamic;
       cov_manifest_blocked := cov_manifest_blocked c + ref_len manifest_blocked;
       cov_unresolved := cov_unresolved c + (ref_len unresolved + ref_len unclassified);
       cov_decided := cov_decided c + (ref_len resolved + ref_len external);
       gap_reasons := reasons
     |};
     explored_edges := explored_edges t + ref_len resolved;
     limit_reached := limit_reached t |}.

Definition set_reasons (reasons : gmap bytes N) (c : BoundedPathCoverage) : BoundedPathCoverage :=
  mk_coverage (cov_total c) (cov_decided c) (cov_resolved c) (cov_external c) (cov_candidate c)
    (cov_dynamic c) (cov_manifest_blocked c) (cov_unresolved c) reasons.

Definition tally_missing_ordinal (t : ReferenceTraversal) : ReferenceTraversal :=
  mk_traversal (seen t)
    (set_reasons (add_reason (bs "missing_symbol_ordinal") 1 (gap_reasons (coverage t))) (coverage t))
    (explored_edges t) (limit_reached t).

Definition admit_references {E : Type} (ri : LinkageReadIndex) (relations : list bytes) (sel : ReferenceSelection)
    (max_edges : N) (t : ReferenceTraversal) : res E (ReferenceBatch * ReferenceTraversal) :=
  let remaining := (max_edges - ref_len (seen t))%N in
  '(already_seen, admitted_unseen, reached) ←
    bounded_frontier_references ri relations sel (seen t) remaining;
  let t := mk_traversal (seen t) (coverage t) (explored_edges t) (limit_reached t || reached) in
  let t := observe ri admitted_unseen t in
  let t := mk_traversal (ref_union_with (seen t) admitted_unseen) (coverage t) (explored_edges t)
             (limit_reached t) in
  mret (mk_batch (ref_union already_seen admitted_unseen) reached, t).

(** ** Shortest paths *)

Abbreviation Predecessors := (gmap SymbolOrdinal (SymbolOrdinal * ReferenceId)).

(** The fields of [PathTraversal] that never change. *)
Record PathTraversal : Type := mk_path_traversal {
  pt_index : LinkageReadIndex;
  pt_relations : list bytes;
  pt_scope : BoundedPathScope;
  pt_max_depth : nat;
  pt_max_symbols : N;
  pt_max_edges : N;
  avoided : SymbolSet
}.

(** The other fields; of [search], what the walk sets. *)
Record PathState : Type := mk_path_state {
  visited : SymbolSet;
  references : ReferenceTraversal;
  predecessors : Predecessors;
  depth_reached : nat;
  depth_limit_reached : bool;
  symbol_limit_reached : bool
}.

(** [filter(|relation| seen_relations.insert(relation))] *)
Fixpoint distinct (seen_relations : gset bytes) (relations : list bytes) : list bytes :=
  match relations with
  | [] => []
  | r :: rest =>
      if decide (r ∈ seen_relations) then distinct seen_relations rest
      else r :: distinct ({[r]} ∪ seen_relations) rest
  end.

Definition path_traversal_new (ri : LinkageReadIndex) (relations : list bytes) (avoid : list SymbolId)
    (limits : BoundedPathLimits) (scope : BoundedPathScope) : PathTraversal :=
  mk_path_traversal ri (distinct ∅ relations) scope (max_depth limits) (max_symbols limits)
    (max_edges limits) (set_from_iter (omap (ri_ordinal ri) avoid)).

Definition path_state_new : PathState := mk_path_state set_new traversal_default ∅ 0 false false.

Definition with_visited (v : SymbolSet) (s : PathState) : PathState :=
  mk_path_state v (references s) (predecessors s) (depth_reached s) (depth_limit_reached s)
    (symbol_limit_reached s).
Definition with_references (r : ReferenceTraversal) (s : PathState) : PathState :=
  mk_path_state (visited s) r (predecessors s) (depth_reached s) (depth_limit_reached s)
    (symbol_limit_reached s).
Definition with_predecessors (p : Predecessors) (s : PathState) : PathState :=
  mk_path_state (visited s) (references s) p (depth_reached s) (depth_limit_reached s)
    (symbol_limit_reached s).
Definition with_depth (d : nat) (s : PathState) : PathState :=
  mk_path_state (visited s) (references s) (predecessors s) d (depth_limit_reached s)
    (symbol_limit_reached s).
Definition with_depth_limit (s : PathState) : PathState :=
  mk_path_state (visited s) (references s) (predecessors s) (depth_reached s) true
    (symbol_limit_reached s).
Definition with_symbol_limit (s : PathState) : PathState :=
  mk_path_state (visited s) (references s) (predecessors s) (depth_reached s) (depth_limit_reached s)
    true.

(** [symbols.iter().take(n).collect()] *)
Definition set_take (n : N) (s : SymbolSet) : SymbolSet :=
  set_from_iter (firstn (N.to_nat n) (set_iter s)).

Definition endpoint_ordinals (c : PathTraversal) (symbols : SymbolSet) : SymbolSet :=
  set_from_iter (List.filter (fun o => scope_contains (pt_scope c) (pt_index c) o
                                       && negb (set_contains (avoided c) o)) (set_iter symbols)).

(** One reference of [target_witnesses]. *)
Definition witness_step (c : PathTraversal) (acc : SymbolSet * Predecessors * ReferenceTraversal)
    (reference : ReferenceOrdinal) : SymbolSet * Predecessors * ReferenceTraversal :=
  let '(targets, witnesses, t) := acc in
  match reference_source (pt_index c) reference, reference_target (pt_index c) reference,
        reference_id (pt_index c) reference with
  | Some source, Some target, Some id =>
      (set_insert target targets,
       match witnesses !! target with
       | Some _ => witnesses
       | None => <[target := (source, id)]> witnesses
       end, t)
  | _, _, _ => (targets, witnesses, tally_missing_ordinal t)
  end.

Definition target_witnesses (c : PathTraversal) (references : ReferenceSet) (t : ReferenceTraversal)
    : SymbolSet * Predecessors * ReferenceTraversal :=
  foldl (witness_step c) (set_new, ∅, t) (ref_iter references).

Definition admit_symbols (c : PathTraversal) (candidates : SymbolSet) (s : PathState)
    : SymbolSet * PathState :=
  let remaining := (pt_max_symbols c - set_len (visited s))%N in
  if (remaining <? set_len candidates)%N
  then (set_take remaining candidates, with_symbol_limit s)
  else (candidates, s).

(** The loop that records how each new symbol was reached. *)
Definition record_predecessors (next : SymbolSet) (witnesses predecessors : Predecessors)
    : Predecessors :=
  foldl (fun predecessors target =>
    match witnesses !! target with
    | Some witness => <[target := witness]> predecessors
    | None => predecessors
    end) predecessors (set_iter next).

(** [for depth in 0..=self.max_depth], with [steps] iterations left. *)
Fixpoint walk_loop {E : Type} (steps depth : nat) (c : PathTraversal) (frontier to_ordinals : SymbolSet)
    (s : PathState) : res E PathState :=
  match steps with
  | O => mret s
  | S steps =>
      let s := with_depth depth s in
      '(batch, t) ← admit_references (pt_index c) (pt_relations c)
                      (mk_selection Forward frontier (pt_scope c) false) (pt_max_edges c) (references s);
      let resolved := ref_intersection (batch_references batch) (k_resolved (classifications (pt_index c))) in
      let '(next, witnesses, t) := target_witnesses c resolved t in
      let s := with_references t s in
      let next := set_remove_all next (avoided c) in
      let next := set_remove_all next (visited s) in
      if depth =? pt_max_depth c then
        mret (if negb (set_is_empty next) then with_depth_limit s else s)
      else
        let '(next, s) := admit_symbols c next s in
        if set_is_empty next then mret s
        else
          let s := with_predecessors (record_predecessors next witnesses (predecessors s)) s in
          let s := with_visited (set_union_with (visited s) next) s in
          if set_intersects next to_ordinals then mret (with_depth (depth + 1) s)
          else if batch_limit_reached batch || symbol_limit_reached s then mret s
          else walk_loop steps (depth + 1) c next to_ordinals s
  end.

Definition walk {E : Type} (c : PathTraversal) (frontier to_ordinals : SymbolSet) (s : PathState)
    : res E PathState := walk_loop (S (pt_max_depth c)) 0 c frontier to_ordinals s.

(** The [while] loop of [reconstruct_path_from_any], and the final [reverse]. *)
Fixpoint reconstruct_loop {E : Type} (fuel : nat) (ri : LinkageReadIndex) (predecessors : Predecessors)
    (from : SymbolSet) (current : SymbolOrdinal) (path : list BoundedPathEdge)
    : res E (option (list BoundedPathEdge)) :=
  if set_contains from current then mret (Some (reverse path))
  else
    match fuel with
    | O => NoFuel
    | S fuel =>
        match '(previous, reference) ← predecessors !! current;
              source ← ri_symbol ri previous;
              target ← ri_symbol ri current;
              Some (previous, mk_path_edge source target reference) with
        | None => mret None
        | Some (previous, edge) =>
            reconstruct_loop fuel ri predecessors from previous (path ++ [edge])
        end
    end.

(** Each turn follows another entry of [predecessors]. *)
Definition reconstruct_path_from_any {E : Type} (ri : LinkageReadIndex) (predecessors : Predecessors)
    (from : SymbolSet) (to_ordinal : SymbolOrdinal) : res E (option (list BoundedPathEdge)) :=
  reconstruct_loop (size predecessors) ri predecessors from to_ordinal [].

Definition run_between {E : Type} (c : PathTraversal) (from to_set : SymbolSet)
    : res E (option BoundedPathSearch) :=
  let from_ordinals := endpoint_ordinals c from in
  let to_ordinals := endpoint_ordinals c to_set in
  if set_is_empty from_ordinals || set_is_empty to_ordinals then mret None
  else
    let '(from_ordinals, s) :=
      if (pt_max_symbols c <? set_len from_ordinals)%N
      then (set_take (pt_max_symbols c) from_ordinals, with_symbol_limit path_state_new)
      else (from_ordinals, path_state_new) in
    let s := with_visited from_ordinals s in
    s ← (if negb (set_intersects from_ordinals to_ordinals)
         then walk c from_ordinals to_ordinals s
         else mret s);
    let search path := {|
      ps_path := path;
      ps_coverage := coverage (references s);
      ps_depth_reached := depth_reached s;
      ps_explored_symbols := set_len (visited s);
      ps_explored_edges := explored_edges (references s);
      ps_depth_limit := depth_limit_reached s;
      ps_symbol_limit := symbol_limit_reached s;
      ps_edge_limit := limit_reached (references s)
    |} in
    match List.find (set_contains to_ordinals) (set_iter (visited s)) with
    | None => mret (Some (search []))
    | Some to_ordinal =>
        path ← reconstruct_path_from_any (pt_index c) (predecessors s) from_ordinals to_ordinal;
        mret (search <$> path)
    end.

Definition run {E : Type} (c : PathTraversal) (from to_symbol : SymbolId)
    : res E (option BoundedPathSearch) :=
  match ri_ordinal (pt_index c) from with
  | None => mret None
  | Some from =>
      match ri_ordinal (pt_index c) to_symbol with
      | None => mret None
      | Some to_symbol => run_between c (set_from_symbol from) (set_from_symbol to_symbol)
      end
  end.

(** ** Corridors *)

Record CorridorState : Type := mk_corridor_state {
  seen_symbols : SymbolSet;
  c_references : ReferenceTraversal;
  forward_depth_reached : nat;
  reverse_depth_reached : nat;
  c_depth_limit : bool;
  c_symbol_limit : bool
}.

Definition corridor_default : CorridorState := mk_corridor_state set_new traversal_default 0 0 false false.

(** [CorridorLayers { exact }] *)
Abbreviation CorridorLayers := (list SymbolSet).

Definition corridor_admit_symbols (candidates : SymbolSet) (limits : BoundedPathLimits)
    (s : CorridorState) : SymbolSet * CorridorState :=
  let already_seen := set_intersection candidates (seen_symbols s) in
  let unseen := set_difference candidates (seen_symbols s) in
  let remaining := (max_symbols limits - set_len (seen_symbols s))%N in
  let '(admitted_unseen, limit) :=
    if (remaining <? set_len unseen)%N then (set_take remaining unseen, true)
    else (unseen, c_symbol_limit s) in
  (set_union already_seen admitted_unseen,
   mk_corridor_state (set_union_with (seen_symbols s) admitted_unseen) (c_references s)
     (forward_depth_reached s) (reverse_depth_reached s) (c_depth_limit s) limit).

Definition record_depth (d : TraversalDirection) (depth : nat) (s : CorridorState) : CorridorState :=
  match d with
  | Forward => mk_corridor_state (seen_symbols s) (c_references s) depth (reverse_depth_reached s)
                 (c_depth_limit s) (c_symbol_limit s)
  | Reverse => mk_corridor_state (seen_symbols s) (c_references s) (forward_depth_reached s) depth
                 (c_depth_limit s) (c_symbol_limit s)
  end.

Definition with_c_references (t : ReferenceTraversal) (s : CorridorState) : CorridorState :=
  mk_corridor_state (seen_symbols s) t (forward_depth_reached s) (reverse_depth_reached s)
    (c_depth_limit s) (c_symbol_limit s).

Definition with_c_depth_limit (s : CorridorState) : CorridorState :=
  mk_corridor_state (seen_symbols s) (c_references s) (forward_depth_reached s)
    (reverse_depth_reached s) true (c_symbol_limit s).

Definition symbols_from_references (ri : LinkageReadIndex) (d : TraversalDirection)
    (references : ReferenceSet) (t : ReferenceTraversal) : SymbolSet * ReferenceTraversal :=
  foldl (fun (acc : SymbolSet * ReferenceTraversal) reference =>
    match match d with
          | Forward => reference_target ri reference
          | Reverse => reference_source ri reference
          end with
    | Some symbol => (set_insert symbol acc.1, acc.2)
    | None => (acc.1, tally_missing_ordinal acc.2)
    end) (set_new, t) (ref_iter references).

(** The fields of [CorridorTraversal] but its state. *)
Record CorridorTraversal : Type := mk_corridor_traversal {
  ct_index : LinkageReadIndex;
  ct_relations : list bytes;
  ct_scope : BoundedPathScope;
  ct_limits : BoundedPathLimits
}.

Definition corridor_traversal_new (ri : LinkageReadIndex) (relations : list bytes)
    (limits : BoundedPathLimits) (scope : BoundedPathScope) : CorridorTraversal :=
  mk_corridor_traversal ri (distinct ∅ relations) scope limits.

Fixpoint corridor_walk_loop {E : Type} (steps depth : nat) (c : CorridorTraversal)
    (d : TraversalDirection) (frontier reached : SymbolSet) (exact : CorridorLayers)
    (s : CorridorState) : res E (CorridorLayers * CorridorState) :=
  match steps with
  | O => mret (exact, s)
  | S steps =>
      let s := record_depth d depth s in
      let reuse := match d with Reverse => true | Forward => false end in
      '(batch, t) ← admit_references (ct_index c) (ct_relations c) (mk_selection d frontier (ct_scope c) reuse)
                      (max_edges (ct_limits c)) (c_references s);
      let resolved := ref_intersection (batch_references batch) (k_resolved (classifications (ct_index c))) in
      let '(next, t) := symbols_from_references (ct_index c) d resolved t in
      let s := with_c_references t s in
      let next := set_remove_all next reached in
      if depth =? max_depth (ct_limits c) then
        mret (exact, if negb (set_is_empty next) then with_c_depth_limit s else s)
      else if set_is_empty next then mret (exact, s)
      else
        let '(next, s) := corridor_admit_symbols next (ct_limits c) s in
        if set_is_empty next then mret (exact, s)
        else
          let reached := set_union_with reached next in
          let exact := exact ++ [next] in
          if c_symbol_limit s then mret (exact, s)
          else corridor_walk_loop steps (depth + 1) c d next reached exact s
  end.

Definition corridor_walk {E : Type} (c : CorridorTraversal) (d : TraversalDirection) (start : SymbolSet)
    (s : CorridorState) : res E (CorridorLayers * CorridorState) :=
  corridor_walk_loop (S (max_depth (ct_limits c))) 0 c d start start [start] s.

Definition endpoints_between (c : CorridorTraversal) (from to_set : SymbolSet)
    : option (SymbolSet * SymbolSet) :=
  let collect (symbols : SymbolSet) :=
    set_from_iter (List.filter (scope_contains (ct_scope c) (ct_index c)) (set_iter symbols)) in
  let from := collect from in
  let to_set := collect to_set in
  if negb (set_is_empty from) && negb (set_is_empty to_set) then Some (from, to_set) else None.

(** [cumulative_symbol_layers] *)
Definition cumulative_symbol_layers (layers : CorridorLayers) : list SymbolSet :=
  (foldl (fun acc layer =>
    let reached := set_union_with acc.2 layer in (acc.1 ++ [reached], reached)) ([], set_new) layers).1.

Definition layer_depth (layers : CorridorLayers) (symbol : SymbolOrdinal) : option nat :=
  fst <$> list_find (fun layer => set_contains layer symbol = true) layers.

Definition corridor_edge_references (ri : LinkageReadIndex) (max_depth : nat) (seen : ReferenceSet)
    (forward reverse_layers : CorridorLayers) : ReferenceSet :=
  foldl (fun corridor reference =>
    match reference_source ri reference, reference_target ri reference with
    | Some source, Some target =>
        match layer_depth forward source, layer_depth reverse_layers target with
        | Some forward_depth, Some reverse_depth =>
            if forward_depth + 1 + reverse_depth <=? max_depth then ref_insert reference corridor
            else corridor
        | _, _ => corridor
        end
    | _, _ => corridor
    end) ref_new (ref_iter (ref_intersection seen (k_resolved (classifications ri)))).

(** The symbols of the layers that fit the depth. *)
Definition corridor_members (max_depth : nat) (forward reverse_layers : CorridorLayers) : SymbolSet :=
  let cumulative := cumulative_symbol_layers reverse_layers in
  foldl (fun members p =>
    match cumulative !! Nat.min (max_depth - p.1) (length cumulative - 1) with
    | Some reverse_within => set_union_with members (set_intersection p.2 reverse_within)
    | None => members
    end) set_new (imap pair forward).

Definition symbol_id_compare (a b : SymbolId) : comparison :=
  match (symbol_file a ?= symbol_file b)%N with
  | Eq => (symbol_def a ?= symbol_def b)%N
  | c => c
  end.

(** The key [(edge.source, edge.target, edge.reference)]. *)
Definition path_edge_leb (a b : BoundedPathEdge) : bool :=
  match symbol_id_compare (edge_source a) (edge_source b) with
  | Lt => true | Gt => false
  | Eq => match symbol_id_compare (edge_target a) (edge_target b) with
          | Lt => true | Gt => false
          | Eq => match reference_id_compare (edge_reference a) (edge_reference b) with
                  | Gt => false | _ => true
                  end
          end
  end.

Definition path_edge_le (a b : BoundedPathEdge) : Prop := path_edge_leb a b = true.

#[global] Instance path_edge_le_dec : RelDecision path_edge_le.
Proof. intros a b. unfold path_edge_le. apply _. Defined.

Definition path_edge_of (ri : LinkageReadIndex) (reference : ReferenceOrdinal) : option BoundedPathEdge :=
  source ← reference_source ri reference;
  target ← reference_target ri reference;
  source ← ri_symbol ri source;
  target ← ri_symbol ri target;
  id ← reference_id ri reference;
  Some (mk_path_edge source target id).

Definition finish_corridor (ri : LinkageReadIndex) (limits : BoundedPathLimits) (s : CorridorState)
    (forward reverse_layers : CorridorLayers) : BoundedCorridorSearch :=
  let members := corridor_members (max_depth limits) forward reverse_layers in
  let edges := corridor_edge_references ri (max_depth limits) (seen (c_references s)) forward reverse_layers in
  {| cs_members := omap (ri_symbol ri) (set_iter members);
     cs_edges := merge_sort path_edge_le (omap (path_edge_of ri) (ref_iter edges));
     cs_coverage := coverage (c_references s);
     cs_forward_depth := forward_depth_reached s;
     cs_reverse_depth := reverse_depth_reached s;
     cs_explored_symbols := set_len (seen_symbols s);
     cs_explored_edges := explored_edges (c_references s);
     cs_depth_limit := c_depth_limit s;
     cs_symbol_limit := c_symbol_limit s;
     cs_edge_limit := limit_reached (c_references s) |}.

(** [from == to] on sets compares their members. *)
Definition set_eqb (a b : SymbolSet) : bool := bool_decide (set_iter a = set_iter b).

Definition corridor_run_between {E : Type} (c : CorridorTraversal) (from to_set : SymbolSet)
    : res E (option BoundedCorridorSearch) :=
  match endpoints_between c from to_set with
  | None => mret None
  | Some (from, to_set) =>
      let same := set_eqb from to_set in
      let '(forward_start, s) := corridor_admit_symbols from (ct_limits c) corridor_default in
      let '(reverse_start, s) :=
        if same then (forward_start, s) else corridor_admit_symbols to_set (ct_limits c) s in
      '(forward, s) ←
        (if set_is_empty forward_start then mret ([], s)
         else if same then mret ([forward_start], s)
         else corridor_walk c Forward forward_start s);
      '(reverse_layers, s) ←
        (if set_is_empty reverse_start then mret ([], s)
         else if same then mret ([reverse_start], s)
         else corridor_walk c Reverse reverse_start s);
      mret (Some (finish_corridor (ct_index c) (ct_limits c) s forward reverse_layers))
  end.

Definition corridor_run {E : Type} (c : CorridorTraversal) (from to_symbol : SymbolId)
    : res E (option BoundedCorridorSearch) :=
  match ri_ordinal (ct_index c) from with
  | None => mret None
  | Some from =>
      match ri_ordinal (ct_index c) to_symbol with
      | None => mret None
      | Some to_symbol => corridor_run_between c (set_from_symbol from) (set_from_symbol to_symbol)
      end
  end.

(** ** The engine *)

(** [BoundedPathEngine::new]: the read index, when the linkage has one and is of
    the generation of the index. *)
Definition engine_new (index_generation_of_code : ResourceGeneration) (linkage : LinkageSnapshot)
    (read_index : option LinkageReadIndex) : option LinkageReadIndex :=
  if negb (index_generation linkage =? index_generation_of_code)%N then None else read_index.

Definition search {E : Type} (ri : LinkageReadIndex) (request : BoundedPathRequest)
    : res E (option BoundedPathSearch) :=
  if exceeds (rq_scope request) (max_symbols (rq_limits request)) then mret None
  else
    run (path_traversal_new ri (rq_relations request) (rq_avoid request) (rq_limits request)
           (rq_scope request)) (rq_from request) (rq_to request).

Definition search_between {E : Type} (ri : LinkageReadIndex) (request : BoundedPathSetRequest)
    : res E (option BoundedPathSearch) :=
  let limit := max_symbols (sr_limits request) in
  if set_is_empty (sr_from request) || set_is_empty (sr_to request)
     || (limit <? set_len (sr_from request))%N || (limit <? set_len (sr_to request))%N
     || exceeds (sr_scope request) limit
  then mret None
  else
    run_between (path_traversal_new ri (sr_relations request) (sr_avoid request) (sr_limits request)
                   (sr_scope request)) (sr_from request) (sr_to request).

(** The bounds the two corridor requests refuse. *)
Definition corridor_refused (relations : list bytes) (limits : BoundedPathLimits)
    (scope : BoundedCorridorScope) : bool :=
  match relations with [] => true | _ => false end
  || exceeds (as_path_scope scope) (max_symbols limits)
  || (64 <? max_depth limits) || (max_symbols limits =? 0)%N || (100000 <? max_symbols limits)%N
  || (max_edges limits =? 0)%N || (500000 <? max_edges limits)%N.

Definition corridor {E : Type} (ri : LinkageReadIndex) (request : BoundedCorridorRequest)
    : res E (option BoundedCorridorSearch) :=
  if corridor_refused (cr_relations request) (cr_limits request) (cr_scope request) then mret None
  else
    corridor_run (corridor_traversal_new ri (cr_relations request) (cr_limits request)
                    (as_path_scope (cr_scope request))) (cr_from request) (cr_to request).

Definition corridor_between {E : Type} (ri : LinkageReadIndex) (request : BoundedCorridorSetRequest)
    : res E (option BoundedCorridorSearch) :=
  let limit := max_symbols (csr_limits request) in
  if set_is_empty (csr_from request) || set_is_empty (csr_to request)
     || (limit <? set_len (csr_from request))%N || (limit <? set_len (csr_to request))%N
     || (limit <? set_union_len (csr_from request) (csr_to request))%N
     || corridor_refused (csr_relations request) (csr_limits request) (csr_scope request)
  then mret None
  else
    corridor_run_between (corridor_traversal_new ri (csr_relations request) (csr_limits request)
                            (as_path_scope (csr_scope request))) (csr_from request) (csr_to request).

(** [bounded_path] and [WorkspaceSnapshot::bounded_path_between], and the same for
    corridors: the engine, when there is one. *)
Definition bounded_path {E : Type} (g : ResourceGeneration) (linkage : LinkageSnapshot)
    (read_index : option LinkageReadIndex) (request : BoundedPathRequest)
    : res E (option BoundedPathSearch) :=
  match engine_new g linkage read_index with None => mret None | Some ri => search ri request end.

Definition bounded_path_between {E : Type} (g : ResourceGeneration) (linkage : LinkageSnapshot)
    (read_index : option LinkageReadIndex) (request : BoundedPathSetRequest)
    : res E (option BoundedPathSearch) :=
  match engine_new g linkage read_index with None => mret None | Some ri => search_between ri request end.

Definition bounded_corridor {E : Type} (g : ResourceGeneration) (linkage : LinkageSnapshot)
    (read_index : option LinkageReadIndex) (request : BoundedCorridorRequest)
    : res E (option BoundedCorridorSearch) :=
  match engine_new g linkage read_index with None => mret None | Some ri => corridor ri request end.

Definition bounded_corridor_between {E : Type} (g : ResourceGeneration) (linkage : LinkageSnapshot)
    (read_index : option LinkageReadIndex) (request : BoundedCorridorSetRequest)
    : res E (option BoundedCorridorSearch) :=
  match engine_new g linkage read_index with None => mret None | Some ri => corridor_between ri request end.
End paths.
End Paths.
