(* ===== verification/PathSets.v ===== *)
(** The sets of the path engine, and the references it admits from a frontier:
    those that leave it by an allowed relation and stay in the scope.

    One step of the path engine: what the traversal records of the references it
    admits, the targets they give, and the graph that the engine walks. *)

From S2P Require Import Prelude.
From S2P Require Import Snapshot.
From S2P Require Import Bitmap.
From S2P Require Import Inventory.
From S2P Require Import LinkIndex.
From S2P Require Import LinkIndexFacts.
From S2P Require Import Postings.
From S2P Require Import Paths.

Module PathSets.
Import Snapshot Inventory LinkIndex LinkIndexFacts Postings PostingsFacts Paths.

Section sets.
Context {R : Roaring} {RL : RoaringLaws R}.
Implicit Types (s a b : SymbolSet) (o x y : N).

Lemma in_insert o s x : set_contains (set_insert o s) x = true <-> x = o \/ set_contains s x = true.
Proof using RL. unfold set_contains, set_insert. by rewrite bm_contains_insert, orb_true_iff, bool_decide_eq_true. Qed.

Lemma in_new x : set_contains set_new x = true <-> False.
Proof using RL. unfold set_contains, set_new. by rewrite bm_contains_new. Qed.

Lemma in_union a b x : set_contains (set_union_with a b) x = true <-> set_contains a x = true \/ set_contains b x = true.
Proof using RL. unfold set_contains, set_union_with. by rewrite bm_contains_or, orb_true_iff. Qed.

Lemma in_intersection a b x :
  set_contains (set_intersection a b) x = true <-> set_contains a x = true /\ set_contains b x = true.
Proof using RL. unfold set_contains, set_intersection. by rewrite bm_contains_and, andb_true_iff. Qed.

Lemma in_remove_all a b x :
  set_contains (set_remove_all a b) x = true <-> set_contains a x = true /\ set_contains b x <> true.
Proof using RL.
  unfold set_contains, set_remove_all. by rewrite bm_contains_sub, andb_true_iff, negb_true_iff, not_true_iff_false.
Qed.

Lemma in_iter s x : x ∈ set_iter s <-> set_contains s x = true.
Proof using RL. apply bm_iter_contains. Qed.

Lemma from_iter_spec (l : list N) : forall s,
  (forall x, set_contains (foldl (fun (acc : SymbolSet) o => set_insert o acc) s l) x = true <->
    x ∈ l \/ set_contains s x = true) /\
  (set_len (foldl (fun (acc : SymbolSet) o => set_insert o acc) s l) <= set_len s + N.of_nat (length l))%N.
Proof using RL.
  induction l as [| o l IH]; intros s; cbn [foldl].
  - split; [| lia]. intros x. split; [by right |]. intros [Hn | ?]; [by apply not_elem_of_nil in Hn | done].
  - destruct (IH (set_insert o s)) as [H Hlen]. split.
    + intros x. rewrite H, in_insert, elem_of_cons. tauto.
    + etransitivity; [exact Hlen |]. cbn [length].
      enough (set_len (set_insert o s) <= set_len s + 1)%N by lia.
      unfold set_len, set_insert. destruct (bm_contains s o) eqn:Ho; [| by rewrite bm_len_insert].
      etransitivity; [apply (bm_len_subset _ s) |]; [| lia].
      intros n. rewrite bm_contains_insert, orb_true_iff, bool_decide_eq_true. by intros [-> | ?].
Qed.

Lemma in_from_iter (l : list N) x : set_contains (set_from_iter l) x = true <-> x ∈ l.
Proof using RL.
  destruct (from_iter_spec l set_new) as [H _]. unfold set_from_iter. rewrite H, in_new. tauto.
Qed.

Lemma len_new : set_len set_new = 0%N.
Proof using RL.
  unfold set_len, set_new. rewrite (bm_len_list _ []); [done | constructor |].
  intros n. rewrite bm_contains_new. by split; [intros ?%not_elem_of_nil |].
Qed.

Lemma len_from_iter (l : list N) : (set_len (set_from_iter l) <= N.of_nat (length l))%N.
Proof using RL. destruct (from_iter_spec l set_new) as [_ H]. by rewrite len_new in H. Qed.

Lemma in_take n s x : set_contains (set_take n s) x = true -> set_contains s x = true.
Proof using RL.
  unfold set_take. rewrite in_from_iter, <- in_iter. intros Hx. rewrite <- (firstn_skipn (N.to_nat n)), elem_of_app. by left.
Qed.

Lemma len_take n s : (set_len (set_take n s) <= n)%N.
Proof using RL.
  unfold set_take. etransitivity; [apply len_from_iter |]. pose proof (firstn_le_length (N.to_nat n) (set_iter s)). lia.
Qed.

Lemma len_union_disjoint a b :
  (forall x, set_contains b x = true -> set_contains a x <> true) ->
  set_len (set_union_with a b) = (set_len a + set_len b)%N.
Proof using RL.
  intros Hd. apply bm_len_or_disjoint. intros n Ha. apply not_true_iff_false. intros Hb. by apply (Hd n).
Qed.

Lemma set_not_empty s : set_is_empty s = false <-> exists x, set_contains s x = true.
Proof using RL. apply bm_not_empty. Qed.

Lemma set_empty s : set_is_empty s = true <-> forall x, set_contains s x <> true.
Proof using RL. unfold set_is_empty, set_contains. rewrite bm_empty_iff. by setoid_rewrite not_true_iff_false. Qed.

Lemma intersects_iff a b :
  set_intersects a b = true <-> exists x, set_contains a x = true /\ set_contains b x = true.
Proof using RL.
  unfold set_intersects, set_contains. split.
  - intros H. rewrite negb_true_iff in H. destruct (bm_is_empty (bm_and a b)) eqn:He.
    + exfalso. rewrite bm_empty_iff in He.
      assert (bm_is_disjoint a b = true) by (apply bm_is_disjoint_iff; intros n; by rewrite <- bm_contains_and). congruence.
    + apply bm_not_empty in He as [n Hn]. rewrite bm_contains_and in Hn. apply andb_prop in Hn as [? ?]. by exists n.
  - intros (x & Ha & Hb). apply negb_true_iff, not_true_iff_false. rewrite bm_is_disjoint_iff. intros H.
    specialize (H x). by rewrite Ha, Hb in H.
Qed.

Lemma in_endpoints c (symbols : SymbolSet) x {HO : HashOrder} :
  set_contains (endpoint_ordinals c symbols) x = true <->
  set_contains symbols x = true /\ scope_contains (pt_scope c) (pt_index c) x = true /\
  set_contains (avoided c) x <> true.
Proof using RL.
  unfold endpoint_ordinals. rewrite in_from_iter, list_elem_of_In, filter_In, <- list_elem_of_In, in_iter.
  by rewrite andb_true_iff, negb_true_iff, not_true_iff_false.
Qed.
End sets.

Section references.
Context {R : Roaring} {RL : RoaringLaws R} {HO : HashOrder}.
Context (ri : LinkageReadIndex) (kind : N -> option bytes) (Hp : postings_exact ri kind).
Context (relations : list bytes) (scope : BoundedPathScope).
Implicit Types (k o s t x : N) (d : TraversalDirection).

(** ** Which references leave a frontier *)

Definition allowed (relation : bytes) : Prop := relations = [] \/ relation ∈ relations.
Definition kind_allowed k : Prop := exists relation, kind k = Some relation /\ allowed relation.

Definition front d k : option N :=
  match d with Forward => reference_source ri k | Reverse => reference_target ri k end.
Definition opposite d k : option N :=
  match d with Forward => reference_target ri k | Reverse => reference_source ri k end.

(** [k] leaves the frontier [F], by an allowed relation, for a symbol of the scope
    or for one that is not known. *)
Definition eligible d (F : SymbolSet) k : Prop :=
  (exists s, front d k = Some s /\ set_contains F s = true) /\ kind_allowed k /\
  forall t, opposite d k = Some t -> scope_contains scope ri t = true.

Lemma elem_of_relation_postings (index : gmap N (gmap bytes ReferenceSet)) s k :
  (exists p, p ∈ postings_for_relations index s relations /\ ref_contains p k = true) <->
  exists relation, in_posting index s relation k /\ allowed relation.
Proof.
  unfold postings_for_relations, in_posting, reference_postings_for_relations, entries.
  destruct (index !! s) as [m |].
  2: { split; [by intros (p & Hn%not_elem_of_nil & _) | by intros (? & (? & ? & ? & _) & _)]. }
  transitivity (exists relation p, m !! relation = Some p /\ ref_contains p k = true /\ allowed relation).
  - unfold allowed. destruct relations as [| r0 rs] eqn:Hr.
    + split.
      * intros (p & ([relation q] & -> & Hin)%list_elem_of_fmap & Hk). exists relation, q.
        rewrite hash_order_perm in Hin. apply elem_of_map_to_list in Hin. split_and!; [done | done | by left].
      * intros (relation & p & Hp' & Hk & _). exists p. split; [| done]. apply list_elem_of_fmap.
        exists (relation, p). split; [done |]. rewrite hash_order_perm. by apply elem_of_map_to_list.
    + rewrite <- Hr. split.
      * intros (p & (relation & Hin & Hm)%list_elem_of_omap & Hk). exists relation, p. split_and!; [done | done | by right].
      * intros (relation & p & Hm & Hk & [? | Hin]); [congruence |]. exists p. split; [| done].
        apply list_elem_of_omap. by exists relation.
  - split.
    + intros (relation & p & Hm & Hk & Ha). exists relation. split; [by exists m, p | done].
    + intros (relation & (m' & p & [= <-] & Hm & Hk) & Ha). by exists relation, p.
Qed.

Lemma directed_spec d s k :
  (exists p, p ∈ directed_postings ri d s relations /\ ref_contains p k = true) <->
  front d k = Some s /\ kind_allowed k.
Proof using Hp.
  unfold kind_allowed. destruct d; cbn [directed_postings front];
    unfold outgoing_postings, incoming_postings; rewrite elem_of_relation_postings;
    [setoid_rewrite (po_out _ _ Hp) | setoid_rewrite (po_in _ _ Hp)]; split.
  1, 3: intros (relation & [? ?] & ?); split; [done | by exists relation].
  all: intros (? & relation & ? & ?); by exists relation.
Qed.

Lemma frontier_spec d (F : SymbolSet) k :
  holds (reference_postings_from_symbols ri d F relations) k <->
  (exists s, front d k = Some s /\ set_contains F s = true) /\ kind_allowed k.
Proof using Hp RL.
  unfold holds, reference_postings_from_symbols. split.
  - intros (p & (l & Hin & (s & -> & Hs)%list_elem_of_fmap)%list_elem_of_join & Hk). apply in_iter in Hs.
    destruct (proj1 (directed_spec d s k)) as [Hf Ha]; [by exists p |]. split; [by exists s | done].
  - intros [(s & Hf & Hs) Ha]. destruct (proj2 (directed_spec d s k)) as (p & Hin & Hk); [done |].
    exists p. split; [| done]. apply list_elem_of_join. exists (directed_postings ri d s relations). split; [done |].
    apply list_elem_of_fmap. exists s. split; [done | by apply in_iter].
Qed.

(** ** The scope *)

Definition reversed d : TraversalDirection := match d with Forward => Reverse | Reverse => Forward end.

Lemma front_reversed d k : front (reversed d) k = opposite d k.
Proof. by destruct d. Qed.

Lemma front_lt d k s : front d k = Some s -> N.to_nat k < length (source_ordinals ri).
Proof using Hp.
  destruct (po_columns _ _ Hp) as [Ht _].
  destruct d; cbn; unfold reference_source, reference_target; intros H;
    [destruct (source_ordinals ri !! N.to_nat k) eqn:Hl | destruct (target_ordinals ri !! N.to_nat k) eqn:Hl]; try done;
    apply lookup_lt_Some in Hl; lia.
Qed.

Lemma missing_spec d k s :
  front d k = Some s ->
  ref_contains match d with Forward => references_without_target ri | Reverse => references_without_source ri end k = true
    <-> opposite d k = None.
Proof using Hp.
  intros Hlt%front_lt. destruct (po_columns _ _ Hp) as [Ht _].
  destruct d; [rewrite (po_no_target _ _ Hp) | rewrite (po_no_source _ _ Hp)]; cbn;
    unfold reference_target, reference_source.
  - destruct (lookup_lt_is_Some_2 (target_ordinals ri) (N.to_nat k)) as [o Ho]; [lia |]. rewrite Ho. cbn. by split; intros; congruence.
  - destruct (lookup_lt_is_Some_2 (source_ordinals ri) (N.to_nat k)) as [o Ho]; [lia |]. rewrite Ho. cbn. by split; intros; congruence.
Qed.

(** Selecting boundaries from either side gives the same references. *)
Lemma boundary_spec (selected : RoaringBitmap) (postings : gmap N ReferenceSet) k :
  holds (if (bm_len selected <=? N.of_nat (size postings))%N
         then omap (fun boundary => postings !! boundary) (bm_iter selected)
         else snd <$> List.filter (fun p => bm_contains selected p.1) (entries postings)) k <->
  exists b, bm_contains selected b = true /\ in_boundary postings b k.
Proof using RL.
  unfold holds, in_boundary. destruct (_ <=? _)%N.
  - split.
    + intros (p & (b & Hb%bm_iter_contains & Hl)%list_elem_of_omap & Hk). exists b. split; [done | by exists p].
    + intros (b & Hb & p & Hl & Hk). exists p. split; [| done]. apply list_elem_of_omap. exists b.
      split; [by apply bm_iter_contains | done].
  - split.
    + intros (p & ([b q] & -> & Hin)%list_elem_of_fmap & Hk). rewrite list_elem_of_In, filter_In, <- list_elem_of_In in Hin.
      destruct Hin as [Hin Hb]. exists b. split; [done |]. exists q. split; [| done]. unfold entries in Hin.
      rewrite hash_order_perm in Hin. by apply elem_of_map_to_list in Hin.
    + intros (b & Hb & p & Hl & Hk). exists p. split; [| done]. apply list_elem_of_fmap. exists (b, p). split; [done |].
      rewrite list_elem_of_In, filter_In, <- list_elem_of_In. split; [| done]. unfold entries. rewrite hash_order_perm.
      by apply elem_of_map_to_list.
Qed.

Lemma holds_cons (p : ReferenceSet) l k : holds (p :: l) k <-> ref_contains p k = true \/ holds l k.
Proof.
  unfold holds. setoid_rewrite elem_of_cons. split.
  - intros (q & [-> | ?] & ?); [by left | right; by exists q].
  - intros [? | (q & ? & ?)]; [exists p; split; [by left | done] | exists q; split; [by right | done]].
Qed.

Lemma target_known d k t : opposite d k = Some t -> is_Some (ri_symbol ri t).
Proof using Hp. destruct d; cbn; [apply (po_target_symbol _ _ Hp) | apply (po_source_symbol _ _ Hp)]. Qed.

Lemma boundary_file d f k :
  in_boundary match d with Forward => references_by_target_file ri | Reverse => references_by_source_file ri end f k <->
  exists t id, opposite d k = Some t /\ ri_symbol ri t = Some id /\ symbol_file id = f.
Proof using Hp. destruct d; [apply (po_target_file _ _ Hp) | apply (po_source_file _ _ Hp)]. Qed.

Lemma boundary_root d r k :
  in_boundary match d with Forward => references_by_target_root ri | Reverse => references_by_source_root ri end r k <->
  exists t id, opposite d k = Some t /\ ri_symbol ri t = Some id /\ source_roots_by_file ri !! id_file id = Some r.
Proof using Hp. destruct d; [apply (po_target_root _ _ Hp) | apply (po_source_root _ _ Hp)]. Qed.

Definition in_scope d k : Prop := forall t, opposite d k = Some t -> scope_contains scope ri t = true.

Lemma scope_terms_spec d k s :
  front d k = Some s -> kind_allowed k ->
  match reference_scope_terms ri scope d relations with
  | All => in_scope d k
  | Terms terms => holds terms k <-> in_scope d k
  end.
Proof using Hp RL.
  intros Hf Hk. unfold reference_scope_terms, in_scope, scope_contains. destruct (scope_all scope); [done |].
  assert (forall P : N -> Prop, (opposite d k = None \/ exists t, opposite d k = Some t /\ P t) <->
    forall t, opposite d k = Some t -> P t) as Hcase.
  { intros P. destruct (opposite d k) as [t |]; split.
    - intros [? | (t' & [= <-] & ?)]; [done |]. by intros t' [= <-].
    - intros H. right. exists t. split; [done | by apply H].
    - by intros _ t.
    - by left. }
  destruct (scope_symbols scope) as [symbols |].
  - change (match d with Forward => Reverse | Reverse => Forward end) with (reversed d).
    rewrite holds_cons, (missing_spec d k s Hf), frontier_spec, front_reversed, <- Hcase. tauto.
  - destruct (negb (bm_is_empty (scope_roots scope))); refine (iff_trans _ (Hcase _)).
    + rewrite holds_cons, (missing_spec d k s Hf), boundary_spec. setoid_rewrite boundary_root.
      apply or_iff_compat_l. split.
      * intros (b & Hb & t & id & Ht & Hid & Hroot). exists t. by rewrite Hid, Hroot.
      * intros (t & Ht & H). destruct (ri_symbol ri t) as [id |] eqn:Hid; [| done].
        destruct (source_roots_by_file ri !! id_file id) as [root |] eqn:Hr; [| done]. exists root. split; [done |]. by exists t, id.
    + rewrite holds_cons, (missing_spec d k s Hf), boundary_spec. setoid_rewrite boundary_file.
      apply or_iff_compat_l. split.
      * intros (b & Hb & t & id & Ht & Hid & <-). exists t. by rewrite Hid.
      * intros (t & Ht & H). destruct (ri_symbol ri t) as [id |] eqn:Hid; [| done].
        exists (symbol_file id). split; [done |]. by exists t, id.
Qed.

(** ** Admission *)

Lemma matches_spec sel k :
  sel_scope sel = scope ->
  reference_matches_selection ri relations sel k = true <-> eligible (direction sel) (frontier sel) k.
Proof using Hp RL.
  intros Hsc. unfold reference_matches_selection, eligible.
  assert ((match direction sel with
           | Forward => (reference_source ri k, reference_target ri k)
           | Reverse => (reference_target ri k, reference_source ri k)
           end) = (front (direction sel) k, opposite (direction sel) k)) as -> by by destruct (direction sel).
  destruct (front (direction sel) k) as [s |] eqn:Hf.
  2: { split; [done | by intros [(s & ? & _) _]]. }
  rewrite Hsc.
  assert (existsb (fun posting => ref_contains posting k) (directed_postings ri (direction sel) s relations) = true <->
    kind_allowed k) as Hex.
  { rewrite existsb_exists. setoid_rewrite <- list_elem_of_In. rewrite directed_spec, Hf. split; [by intros [_ ?] | done]. }
  destruct (set_contains (frontier sel) s) eqn:Hs; cbn [negb orb].
  2: { split; [done |]. intros [(s' & [= <-] & ?) _]. congruence. }
  destruct (opposite (direction sel) k) as [t |]; [destruct (scope_contains scope ri t) eqn:Ht |]; cbn [negb].
  - rewrite Hex. split; [intros ?; split_and!; [by exists s | done | by intros t' [= <-]] | tauto].
  - split; [done |]. intros (_ & _ & H). specialize (H t eq_refl). congruence.
  - rewrite Hex. split; [intros ?; split_and!; [by exists s | done | done] | tauto].
Qed.

Lemma len_insert_ref k (s : ReferenceSet) : ref_contains s k <> true -> ref_len (ref_insert k s) = (ref_len s + 1)%N.
Proof using RL. intros H%not_true_iff_false. by apply bm_len_insert. Qed.

Lemma admission_spec l : forall a,
  NoDup l -> (forall k, k ∈ l -> ref_contains (admitted a) k <> true) ->
  (ref_len (admitted a) <= adm_limit a)%N -> adm_limit_reached a = false ->
  let b := admission_loop l a in
  adm_already_seen b = adm_already_seen a /\ (ref_len (admitted b) <= adm_limit a)%N /\
  (forall k, ref_contains (admitted a) k = true -> ref_contains (admitted b) k = true) /\
  (forall k, ref_contains (admitted b) k = true ->
     ref_contains (admitted a) k = true \/ (k ∈ l /\ ref_contains (adm_seen a) k <> true)) /\
  (adm_limit_reached b = false ->
     forall k, k ∈ l -> ref_contains (adm_seen a) k <> true -> ref_contains (admitted b) k = true).
Proof using RL.
  induction l as [| x l IH]; intros a Hnd Hfresh Hlen Hlim; cbn [admission_loop]; cbv zeta.
  - split_and!; [done | done | done | by left | by intros _ k ?%not_elem_of_nil].
  - apply NoDup_cons in Hnd as [Hx Hnd].
    destruct (ref_contains (adm_seen a) x) eqn:Hsx; [| destruct (N.eqb_spec (ref_len (admitted a)) (adm_limit a)) as [He | He]].
    + destruct (IH a Hnd) as (H1 & H2 & H3 & H4 & H5); [intros k Hk; apply Hfresh; by right | done | done |].
      split_and!; [done | done | done | |].
      * intros k [? | [? ?]]%H4; [by left | right; split; [by right | done]].
      * intros Hl k [-> | ?]%elem_of_cons; [done | by apply H5].
    + cbn. split_and!; [done | done | done | by left | done].
    + destruct (IH (mk_admission (adm_seen a) (adm_limit a) (adm_already_seen a) (ref_insert x (admitted a)) (adm_limit_reached a)) Hnd)
        as (H1 & H2 & H3 & H4 & H5); cbn [admitted adm_limit adm_limit_reached adm_seen adm_already_seen] in *.
      * intros k Hk [-> | Hc]%ref_contains_insert; [done |]. apply (Hfresh k); [by right | done].
      * rewrite len_insert_ref by (apply Hfresh; by left). lia.
      * done.
      * split_and!; [done | done | | |].
        -- intros k Hk. apply H3, ref_contains_insert. by right.
        -- intros k [[-> | ?]%ref_contains_insert | [? ?]]%H4; [right; split; [by left | congruence] | by left | right; split; [by right | done]].
        -- intros Hl k [-> | ?]%elem_of_cons Hk; [apply H3, ref_contains_insert; by left | by apply H5].
Qed.

Lemma sorted_nodup (l : list N) : StronglySorted N.lt l -> NoDup l.
Proof.
  induction 1 as [| x l Hl IH Hx]; constructor; [| done].
  intros Hin. rewrite Forall_forall in Hx. apply Hx in Hin. lia.
Qed.

Lemma bounded_frontier_ok (E : Type) sel (seen : ReferenceSet) limit :
  sel_scope sel = scope ->
  exists (already admitted : ReferenceSet) lim,
    bounded_frontier_references (E:=E) ri relations sel seen limit = Ok (already, admitted, lim) /\
    (forall k, ref_contains already k = true <->
       reuse_seen sel = true /\ ref_contains seen k = true /\ eligible (direction sel) (frontier sel) k) /\
    (ref_len admitted <= limit)%N /\
    (forall k, ref_contains admitted k = true ->
       eligible (direction sel) (frontier sel) k /\ ref_contains seen k <> true) /\
    (lim = false -> forall k, eligible (direction sel) (frontier sel) k -> ref_contains seen k <> true ->
       ref_contains admitted k = true).
Proof using Hp RL.
  intros Hsc. unfold bounded_frontier_references. rewrite Hsc. set (F := frontier sel). set (d := direction sel).
  assert (exists l, match reference_scope_terms ri scope d relations with
    | All => union_all (E:=E) (reference_postings_from_symbols ri d F relations)
    | Terms terms => intersection_all (reference_postings_from_symbols ri d F relations) terms end = Ok l /\
    StronglySorted N.lt l /\ forall k, k ∈ l <-> eligible d F k) as (l & -> & Hsort & Hl).
  { pose proof (fun k s => scope_terms_spec d k s) as Hterms. unfold eligible. fold (in_scope d) in *.
    destruct (reference_scope_terms ri scope d relations) as [| terms].
    - destruct (union_all_ok (E:=E) (reference_postings_from_symbols ri d F relations)) as (l & Hl & Hs & Hin).
      exists l. split_and!; [done | done |]. intros k. rewrite Hin, frontier_spec. split; [| tauto].
      intros [(s & Hf & Hs') Ha]. split_and!; [by exists s | done | by eapply Hterms].
    - destruct (intersection_all_ok (E:=E) (reference_postings_from_symbols ri d F relations) terms) as (l & Hl & Hs & Hin).
      exists l. split_and!; [done | done |]. intros k. rewrite Hin, frontier_spec. split.
      + intros [[(s & Hf & Hs') Ha] Ht]. split_and!; [by exists s | done | by eapply Hterms].
      + intros ((s & Hf & Hs') & Ha & Hsc'). split; [split; [by exists s | done] | by eapply Hterms]. }
  rewrite ret_bind. cbn [mret res_ret]. unfold admission_admit. cbn [adm_limit_reached admission_new].
  set (already := if reuse_seen sel then _ else _).
  destruct (admission_spec l (admission_new seen limit already)) as (H1 & H2 & _ & H4 & H5);
    cbn [admission_new admitted adm_limit adm_limit_reached adm_seen adm_already_seen] in *.
  - by apply sorted_nodup.
  - intros k _. rewrite ref_contains_new. by intros [].
  - enough (ref_len ref_new = 0%N) as -> by lia. apply len_new.
  - done.
  - eexists _, _, _. split; [done |]. rewrite H1. split_and!; [| done | |].
    + intros k. unfold already. destruct (reuse_seen sel); [| rewrite ref_contains_new; split; [done | by intros [? _]]].
      rewrite ref_contains_from_iter, list_elem_of_In, filter_In, <- list_elem_of_In, (matches_spec _ _ Hsc).
      unfold ref_iter, ref_contains. rewrite bm_iter_contains. split; [by intros [? ?] | tauto].
    + intros k [Hn%ref_contains_new | [Hk%Hl ?]]%H4; [done |]. done.
    + intros Hlim k Hk%Hl Hs. by apply H5.
Qed.
End references.
End PathSets.

Module PathStep.
Import Snapshot Inventory LinkIndex LinkIndexFacts Paths PathSets.

Abbreviation Predecessors := (gmap N (N * ReferenceId)).

(** ** The relations asked for *)

Lemma in_distinct (relations : list bytes) r : forall seen, r ∈ distinct seen relations <-> r ∈ relations /\ r ∉ seen.
Proof.
  induction relations as [| x l IH]; intros seen; cbn [distinct].
  - split; [by intros ?%not_elem_of_nil | by intros [?%not_elem_of_nil _]].
  - destruct (decide (x ∈ seen)) as [Hx | Hx]; rewrite !elem_of_cons, IH.
    + split; [intros [? ?]; split; [by right | done] | intros [[-> | ?] ?]; done].
    + rewrite elem_of_union, elem_of_singleton. split.
      * intros [-> | [? Hn]]; [split; [by left | done] | split; [by right | tauto]].
      * intros [[-> | ?] Hn]; [by left |]. destruct (decide (r = x)) as [-> | Hne]; [by left | right; tauto].
Qed.

Lemma allowed_distinct relations r : allowed (distinct ∅ relations) r <-> allowed relations r.
Proof.
  unfold allowed. rewrite in_distinct. split.
  - intros [Hn | [? _]]; [left | by right]. destruct relations as [| x l]; [done |].
    enough (x ∈ distinct ∅ (x :: l)) as Hx by (rewrite Hn in Hx; by apply not_elem_of_nil in Hx).
    apply in_distinct. split; [by left | apply not_elem_of_empty].
  - intros [-> | ?]; [by left | right]. split; [done | apply not_elem_of_empty].
Qed.

Section step.
Context {R : Roaring} {RL : RoaringLaws R} {HO : HashOrder}.
Context (ri : LinkageReadIndex) (kind : N -> option bytes) (Hp : postings_exact ri kind).
Context (relations : list bytes) (scope : BoundedPathScope).
Implicit Types (k o s t x v : N).

(** ** The traversal of references *)

(** The traversal has admitted at most [max] references, and counted them. *)
Definition counted (max : N) (t : ReferenceTraversal) : Prop :=
  (ref_len (seen t) <= max)%N /\ cov_total (coverage t) = ref_len (seen t).

Lemma counted_default max : counted max traversal_default.
Proof using RL. unfold counted. cbn. split; [rewrite (len_new : ref_len ref_new = 0%N); lia | symmetry; apply len_new]. Qed.

Lemma admit_ok (E : Type) sel max (t : ReferenceTraversal) :
  sel_scope sel = scope -> counted max t ->
  exists batch (t' : ReferenceTraversal), admit_references (E:=E) ri relations sel max t = Ok (batch, t') /\
    counted max t' /\
    limit_reached t' = limit_reached t || batch_limit_reached batch /\
    (forall k, ref_contains (batch_references batch) k = true ->
       eligible ri kind relations scope (direction sel) (frontier sel) k) /\
    (forall k, ref_contains (seen t') k = true <->
       ref_contains (seen t) k = true \/ ref_contains (batch_references batch) k = true) /\
    (batch_limit_reached batch = false ->
       forall k, eligible ri kind relations scope (direction sel) (frontier sel) k ->
         reuse_seen sel = true \/ ref_contains (seen t) k <> true ->
         ref_contains (batch_references batch) k = true).
Proof using Hp RL.
  intros Hsc [Hlen Htot]. unfold admit_references.
  destruct (bounded_frontier_ok ri kind Hp relations scope E sel (seen t) (max - ref_len (seen t))%N Hsc)
    as (already & new & lim & -> & Halr & Hnew & Hsound & Hcomplete).
  rewrite ret_bind. cbn [mret res_ret]. eexists _, _. split; [done |].
  cbn [batch_references batch_limit_reached limit_reached seen coverage observe].
  assert (forall k, ref_contains (ref_union_with (seen t) new) k = true <->
    ref_contains (seen t) k = true \/ ref_contains new k = true) as Hunion by (intros k; apply in_union).
  assert (forall k, ref_contains (ref_union already new) k = true <->
    ref_contains already k = true \/ ref_contains new k = true) as Hbatch by (intros k; apply in_union).
  split_and!.
  - assert (ref_len (ref_union_with (seen t) new) = ref_len (seen t) + ref_len new)%N as Hl.
    { apply len_union_disjoint. intros x Hx. by apply Hsound. }
    unfold counted. cbn [seen coverage cov_total]. rewrite Hl. lia.
  - done.
  - intros k [H%Halr | H%Hsound]%Hbatch; tauto.
  - intros k. rewrite Hunion, Hbatch, Halr. tauto.
  - intros Hlim k Hk Hr. apply Hbatch. destruct (ref_contains (seen t) k) eqn:Hs.
    + left. apply Halr. destruct Hr; done.
    + right. apply Hcomplete; [done | done | congruence].
Qed.

(** ** Targets and witnesses *)

Lemma target_witnesses_ok c (references : ReferenceSet) (t : ReferenceTraversal) max :
  pt_index c = ri -> counted max t ->
  exists next w (t' : ReferenceTraversal), target_witnesses c references t = (next, w, t') /\
    seen t' = seen t /\ limit_reached t' = limit_reached t /\ counted max t' /\
    (forall v, set_contains next v = true -> is_Some (w !! v)) /\
    (forall v s id, w !! v = Some (s, id) -> exists k, ref_contains references k = true /\
       reference_source ri k = Some s /\ reference_target ri k = Some v /\ reference_id ri k = Some id) /\
    (forall k s v id, ref_contains references k = true -> reference_source ri k = Some s ->
       reference_target ri k = Some v -> reference_id ri k = Some id -> set_contains next v = true).
Proof using RL.
  intros Hc Ht. unfold target_witnesses.
  assert (forall l, exists next w (t' : ReferenceTraversal), foldl (witness_step c) (set_new, ∅, t) l = (next, w, t') /\
    seen t' = seen t /\ limit_reached t' = limit_reached t /\ counted max t' /\
    (forall v, set_contains next v = true -> is_Some (w !! v)) /\
    (forall v s id, w !! v = Some (s, id) -> exists k, k ∈ l /\
       reference_source ri k = Some s /\ reference_target ri k = Some v /\ reference_id ri k = Some id) /\
    (forall k s v id, k ∈ l -> reference_source ri k = Some s -> reference_target ri k = Some v ->
       reference_id ri k = Some id -> set_contains next v = true)) as H.
  { induction l as [| x l IH] using rev_ind.
    - exists set_new, ∅, t. split_and!; try done.
      + by intros v ?%in_new.
      + by intros k s v id ?%not_elem_of_nil.
    - destruct IH as (next & w & t' & Hf & H1 & H2 & H3 & H4 & H5 & H6).
      rewrite foldl_app, Hf. cbn [foldl]. unfold witness_step. rewrite Hc.
      assert (forall k, k ∈ l -> k ∈ l ++ [x]) as Hin by (intros k ?; apply elem_of_app; by left).
      assert (forall P : Prop, (forall s v id, reference_source ri x = Some s -> reference_target ri x = Some v ->
          reference_id ri x = Some id -> P) -> (reference_source ri x = None \/ reference_target ri x = None \/
          reference_id ri x = None -> P) -> P) as Hcase.
      { intros P Ha Hb. destruct (reference_source ri x) as [s |]; [| apply Hb; by left].
        destruct (reference_target ri x) as [v |]; [| apply Hb; by right; left].
        destruct (reference_id ri x) as [id |]; [| apply Hb; by right; right]. by eapply Ha. }
      apply Hcase; clear Hcase.
      + intros s v id Hs Hv Hid. rewrite Hs, Hv, Hid. eexists _, _, t'. split; [done |]. split_and!; try done.
        * intros y [-> | Hy%H4]%in_insert; destruct (w !! v) eqn:Hw; try done; [by rewrite lookup_insert_eq |].
          rewrite lookup_insert_is_Some. destruct (decide (v = y)); [by left | by right].
        * intros y s' id' Hw. destruct (w !! v) eqn:Hwv; [| apply lookup_insert_Some in Hw as [[<- [= <- <-]] | [_ Hw]]].
          -- destruct (H5 _ _ _ Hw) as (k & Hk & ?). exists k. split; [by apply Hin | done].
          -- exists x. split; [apply elem_of_app; right; by left | done].
          -- destruct (H5 _ _ _ Hw) as (k & Hk & ?). exists k. split; [by apply Hin | done].
        * intros k s' y id' [Hk | ->%list_elem_of_singleton]%elem_of_app Hs' Hv' Hid'; apply in_insert.
          -- right. by eapply H6.
          -- left. congruence.
      + intros Hnone. exists next, w, (tally_missing_ordinal t'). split.
        { destruct (reference_source ri x), (reference_target ri x), (reference_id ri x); try done. by destruct Hnone as [? | [? | ?]]. }
        split_and!; try done.
        * intros v s id Hw. destruct (H5 _ _ _ Hw) as (k & Hk & ?). exists k. split; [by apply Hin | done].
        * intros k s v id [Hk | ->%list_elem_of_singleton]%elem_of_app Hs Hv Hid; [by eapply H6 |].
          destruct Hnone as [? | [? | ?]]; congruence. }
  destruct (H (ref_iter references)) as (next & w & t' & Hf & H1 & H2 & H3 & H4 & H5 & H6).
  exists next, w, t'. split_and!; try done.
  - intros v s id Hw. destruct (H5 _ _ _ Hw) as (k & Hk & ?). exists k. split; [by apply bm_iter_contains | done].
  - intros k s v id Hk. apply H6. by apply bm_iter_contains.
Qed.

Lemma record_predecessors_ok (next : SymbolSet) (w preds : Predecessors) :
  (forall v, set_contains next v = true -> is_Some (w !! v)) ->
  forall v, record_predecessors next w preds !! v = if set_contains next v then w !! v else preds !! v.
Proof using RL.
  intros Hw v. unfold record_predecessors.
  assert (forall l, (forall y, y ∈ l -> is_Some (w !! y)) -> forall preds : Predecessors,
    foldl (fun (predecessors : Predecessors) target => match w !! target with
      | Some witness => <[target := witness]> predecessors | None => predecessors end) preds l !! v =
    if decide (v ∈ l) then w !! v else preds !! v) as H.
  { intros l. induction l as [| x l IH] using rev_ind; intros Hl preds'; [done |].
    rewrite foldl_app. cbn [foldl]. destruct (Hl x) as [y Hy]; [apply elem_of_app; right; by left |]. rewrite Hy.
    assert (forall z, z ∈ l -> is_Some (w !! z)) as Hl' by (intros z ?; apply Hl, elem_of_app; by left).
    destruct (decide (v = x)) as [-> | Hne].
    - rewrite lookup_insert_eq, decide_True; [done | apply elem_of_app; right; by left].
    - rewrite lookup_insert_ne, IH by done. apply decide_ext.
      rewrite elem_of_app, list_elem_of_singleton. tauto. }
  rewrite H by (intros y Hy; by apply Hw, in_iter).
  destruct (set_contains next v) eqn:Hv; [rewrite decide_True | rewrite decide_False]; [done | by apply in_iter | done |].
  rewrite in_iter. congruence.
Qed.

(** ** The graph that is walked *)

(** The resolved reference [k] goes from [s] to [t], by an allowed relation. *)
Definition arc k s t : Prop :=
  ref_contains (k_resolved (classifications ri)) k = true /\ reference_source ri k = Some s /\
  reference_target ri k = Some t /\ kind_allowed kind relations k.

Lemma arc_id k s t : arc k s t -> is_Some (reference_id ri k).
Proof using Hp.
  intros (_ & Hs & _). apply (front_lt ri kind Hp Forward) in Hs.
  destruct (po_columns _ _ Hp) as [_ Hl]. apply lookup_lt_is_Some. unfold reference_id. lia.
Qed.

Lemma arc_symbols k s t : arc k s t -> is_Some (ri_symbol ri s) /\ is_Some (ri_symbol ri t).
Proof using Hp.
  intros (_ & Hs & Ht & _). split; [by eapply (po_source_symbol _ _ Hp) | by eapply (po_target_symbol _ _ Hp)].
Qed.
End step.
End PathStep.
