(* ===== verification/LinkDecisionFacts.v ===== *)
(** Decisions of linkage: publishing them loses none and turns none into an edge
    that is not one; a snapshot that is published, read back and published again
    is the same. *)

From S2P Require Import Prelude.
From S2P Require Import Moniker.
From S2P Require Import Uri.
From S2P Require Import UriFacts.
From S2P Require Import CodeGraph.
From S2P Require Import Bitmap.
From S2P Require Import Snapshot.
From S2P Require Import Inventory.
From S2P Require Import InventoryInv.
From S2P Require Import LinkIndex.
From S2P Require Import LinkIndexFacts.
From S2P Require Import PathSets.
From S2P Require Import LinkDecision.

Module LinkDecisionFacts.
Import Snapshot Inventory InventoryInv LinkIndex LinkIndexFacts LinkIndexTheorems PathSets LinkMaterial Decision Projection RestoreLinkage.

(** ** Lists *)

Lemma map_res_app {E A B} (f : A -> res E B) l k x y :
  map_res f l = Ok x -> map_res f k = Ok y -> map_res f (l ++ k) = Ok (x ++ y).
Proof.
  revert x. induction l as [| a l IH]; intros x Hl Hk; cbn in *; [by injection Hl as <- |].
  destruct (f a) as [b | | |]; cbn in *; try done. change (filter_map_res _ (l ++ k)) with (map_res f (l ++ k)).
  change (filter_map_res _ l) with (map_res f l) in Hl.
  destruct (map_res f l) as [rest | | |]; cbn in *; try done. injection Hl as <-. by rewrite (IH rest).
Qed.

Lemma map_res_fmap {E A B} (f : A -> res E B) (g : A -> B) l :
  (forall x, x ∈ l -> f x = Ok (g x)) -> map_res f l = Ok (g <$> l).
Proof. intros H. apply map_res_Ok. by apply Forall_forall. Qed.

Lemma omap_fmap {A B C} (f : B -> option C) (g : A -> B) (l : list A) : omap f (g <$> l) = omap (f ∘ g) l.
Proof. induction l as [| a l IH]; [done |]. cbn. destruct (f (g a)); [by f_equal | done]. Qed.

(** ** What a decision is published as *)

Inductive Outcome : Type :=
| OEdge (e : LinkageEdge)
| OCandidate (c : CandidateReference)
| OExternal (x : ExternalReference)
| ODynamic (d : DynamicReference)
| OBlocked (u : UnresolvedReference)
| OUnresolved (u : UnresolvedReference).

Definition put (p : LinkageReportProjection) (o : Outcome) : LinkageReportProjection :=
  match o with
  | OEdge e => push_resolved e p
  | OCandidate c => push_candidate c p
  | OExternal x => push_external x p
  | ODynamic d => push_dynamic d p
  | OBlocked u => push_blocked u p
  | OUnresolved u => push_unresolved u p
  end.

Definition published (os : list Outcome) : LinkageReportProjection := {|
  pj_resolved := omap (fun o => match o with OEdge e => Some e | _ => None end) os;
  pj_candidates := omap (fun o => match o with OCandidate c => Some c | _ => None end) os;
  pj_external := omap (fun o => match o with OExternal x => Some x | _ => None end) os;
  pj_dynamic := omap (fun o => match o with ODynamic d => Some d | _ => None end) os;
  pj_blocked := omap (fun o => match o with OBlocked u => Some u | _ => None end) os;
  pj_unresolved := omap (fun o => match o with OUnresolved u => Some u | _ => None end) os
|}.

Definition join (p q : LinkageReportProjection) : LinkageReportProjection :=
  mk_projection (pj_resolved p ++ pj_resolved q) (pj_candidates p ++ pj_candidates q)
    (pj_external p ++ pj_external q) (pj_dynamic p ++ pj_dynamic q) (pj_blocked p ++ pj_blocked q)
    (pj_unresolved p ++ pj_unresolved q).

Lemma put_published os : forall p, foldl put p os = join p (published os).
Proof.
  induction os as [| o os IH]; intros p; cbn [foldl].
  - destruct p. unfold join, published. cbn. by rewrite !app_nil_r.
  - rewrite IH. destruct p, o; unfold join, published; cbn; by rewrite <- ?app_assoc.
Qed.

Lemma published_default os : foldl put projection_default os = published os.
Proof. by rewrite put_published. Qed.

Definition size_of (p : LinkageReportProjection) : nat :=
  length (pj_resolved p) + length (pj_candidates p) + length (pj_external p) + length (pj_dynamic p) +
    length (pj_blocked p) + length (pj_unresolved p).

Lemma published_size os : size_of (published os) = length os.
Proof. unfold size_of, published. induction os as [| [] os IH]; cbn in *; lia. Qed.

Section facts.
Context {R : Roaring} {RL : RoaringLaws R} {E : Type}.
Context (records : RecordTable ReferenceRecord) (material : CodeIndexMaterial) (symbols : SymbolOrdinalCatalog).

(** The outcome of a decision on a record. *)
Definition edge_outcome (r : ReferenceRecord) (rd : ResolutionDecision) : Outcome :=
  match catalog_ids symbols (rd_targets rd) with
  | [target] => OEdge (mk_edge (r_id r) target (rd_evidence rd))
  | [] => OUnresolved (unresolved_reference r NoCandidate)
  | targets => OCandidate (mk_candidate (r_id r) targets MultipleTargets ScopeUnknown (rd_evidence rd))
  end.

Definition outcome (d : ReferenceLinkageDecision) : res E Outcome :=
  r ← Records.index_record records (reference_idx d);
  match d with
  | Unique rd => mret (edge_outcome r rd)
  | Candidate reason rd =>
      mret (OCandidate (mk_candidate (r_id r) (catalog_ids symbols (rd_targets rd)) reason
        (candidate_scope (rd_scope rd)) (rd_evidence rd)))
  | Blocked reason _ _ => mret (OBlocked (unresolved_reference r (block_unresolved_reason reason)))
  | Unknown reason _ _ => mret (OUnresolved (unresolved_reference r (unknown_unresolved_reason reason)))
  | External origin _ _ target => x ← external_reference material r origin target; mret (OExternal x)
  | Dynamic reason _ _ candidates =>
      mret (ODynamic (mk_dynamic (r_id r) (target_identity r) reason (catalog_ids symbols candidates)))
  end.

Lemma project_decision_outcome p d :
  project_decision records material symbols p d = o ← outcome d; mret (put p o).
Proof using.
  unfold outcome. destruct d; cbn [project_decision reference_idx]; unfold project_unique_decision;
    (destruct (Records.index_record records _) as [r | | |]; cbn; try done).
  - unfold edge_outcome. by destruct (catalog_ids symbols _) as [| ? []].
  - by destruct (external_reference material r origin target).
Qed.

Lemma project_decisions_outcomes ds os : map_res outcome ds = Ok os ->
  project_decisions (E:=E) records material symbols ds = Ok (published os).
Proof using.
  intros H. unfold project_decisions. rewrite <- published_default. revert os H. generalize projection_default.
  induction ds as [| d ds IH]; intros p os H; cbn in *; [by injection H as <- |].
  rewrite project_decision_outcome. destruct (outcome d) as [o | | |]; cbn in *; try done.
  change (filter_map_res _ ds) with (map_res outcome ds) in H.
  destruct (map_res outcome ds) as [rest | | |]; cbn in *; try done. injection H as <-. exact (IH (put p o) rest eq_refl).
Qed.

(** ** Decisions on the records of a table *)

Definition placed (d : ReferenceLinkageDecision) : Prop :=
  exists r, iter records !! reference_idx d = Some r /\ r_id r = reference d.

Context (Htable : table_wf records).

Lemma index_iter i r : iter records !! i = Some r -> Records.index_record (E:=E) records i = Ok r.
Proof using Htable. intros H. unfold Records.index_record. by rewrite (get_record_spec _ _ Htable), H. Qed.

Definition has_uri (identity : bytes) : Prop :=
  exists m, CodeGraph.valid_moniker m /\ moniker_uri (E:=E) material m = Ok identity.

(** A decision that can be published: on its record, and to a target that prints. *)
Definition printable (d : ReferenceLinkageDecision) : Prop :=
  match d with External _ _ _ (Some m) => CodeGraph.valid_moniker m | _ => True end.

Lemma uri_of_valid m : CodeGraph.valid_moniker m -> exists uri, moniker_uri (E:=E) material m = Ok uri /\
  Uri.from_uri uri {| Uri.scheme := scheme material |} = Ok m.
Proof using.
  intros (p & segs & H). destruct (UriFacts.to_uri_text (E:=E) m p segs {| Uri.scheme := scheme material |} H) as (uri & Hu & Ht).
  exists uri. split; [done |]. apply UriFacts.from_uri_Ok. by exists p, segs.
Qed.

Lemma outcome_total d : placed d -> printable d -> exists o, outcome d = Ok o.
Proof using Htable.
  intros (r & Hr & _) Hp. unfold outcome. rewrite (index_iter _ _ Hr). rewrite ret_bind. destruct d; try by eexists.
  destruct target as [m |]; [| by eexists]. destruct (uri_of_valid m Hp) as (uri & Hu & _).
  eexists. unfold external_reference. by rewrite Hu.
Qed.

Lemma outcomes_total ds : Forall placed ds -> Forall printable ds -> exists os, map_res outcome ds = Ok os.
Proof using Htable.
  induction 1 as [| d ds Hd _ IH]; intros Hp; [by exists [] |]. apply Forall_cons_1 in Hp as [Hp Hps].
  destruct (outcome_total d Hd Hp) as [o Ho], (IH Hps) as [os Hos]. exists (o :: os).
  unfold map_res in *. cbn. by rewrite Ho, Hos.
Qed.

Lemma map_res_related ds os : map_res outcome ds = Ok os -> Forall2 (fun d o => outcome d = Ok o) ds os.
Proof using.
  revert os. induction ds as [| d ds IH]; intros os H; cbn in H; [by injection H as <- |].
  destruct (outcome d) as [o | | |] eqn:Ho; cbn in H; try done.
  change (filter_map_res _ ds) with (map_res outcome ds) in H.
  destruct (map_res outcome ds) as [rest | | |]; cbn in H; try done. injection H as <-. constructor; [done | by apply IH].
Qed.

(** ** Sets of ordinals and the identifiers they stand for *)

Context (Hcat : catalog_ok symbols).

Definition known (o : N) : bool := bool_decide (is_Some (id_of symbols o)).

Lemma ids_ordinals (l : list N) : omap (ordinal symbols) (omap (id_of symbols) l) = List.filter known l.
Proof using Hcat.
  induction l as [| o l IH]; [done |]. cbn [omap list_omap List.filter]. unfold known at 1.
  destruct (id_of symbols o) as [id |] eqn:Ho; [| done]. cbn [omap list_omap]. apply (cat_bij _ Hcat) in Ho as Hid.
  unfold ordinal at 1. rewrite Hid. cbn. by f_equal.
Qed.

Lemma ids_of_known (l : list N) :
  omap (id_of symbols) (List.filter known l) = omap (id_of symbols) l /\
  length (List.filter known l) = length (omap (id_of symbols) l).
Proof using.
  induction l as [| o l [IH IHl]]; [done |]. cbn [omap list_omap List.filter].
  destruct (known o) eqn:Hk; unfold known in Hk; destruct (id_of symbols o) as [id |] eqn:Ho; try done.
  cbn [omap list_omap length]. rewrite Ho, IH, IHl. done.
Qed.

Lemma sorted_from_iter (l : list N) : StronglySorted N.lt l -> set_iter (set_from_iter l) = l.
Proof using RL.
  intros Hl. apply sorted_lt_ext; [apply bm_iter_sorted | done |]. intros n.
  rewrite bm_iter_contains. rewrite (proj1 (from_iter_spec l set_new) n : _ <-> _). rewrite in_new. tauto.
Qed.

Lemma filter_sorted (P : N -> bool) (l : list N) : StronglySorted N.lt l -> StronglySorted N.lt (List.filter P l).
Proof.
  induction 1 as [| x l Hl IH Hx]; cbn; [constructor |]. destruct (P x); [| done]. constructor; [done |].
  rewrite Forall_forall in *. intros y [_ Hy]%list_elem_of_In%filter_In%and_comm. apply Hx. by apply list_elem_of_In.
Qed.

(** Reading back the identifiers of a set gives the known part of the set. *)
Lemma restored_set (s : SymbolSet) :
  let s' := set_from_iter (omap (ordinal symbols) (catalog_ids symbols s)) in
  catalog_ids symbols s' = catalog_ids symbols s /\ set_len s' = N.of_nat (length (catalog_ids symbols s)) /\
  set_is_empty s' = is_nil (catalog_ids symbols s).
Proof using RL Hcat.
  cbv zeta. set (l := List.filter known (set_iter s)).
  assert (omap (ordinal symbols) (catalog_ids symbols s) = l) as -> by apply ids_ordinals.
  assert (set_iter (set_from_iter l) = l) as Hl by (apply sorted_from_iter, filter_sorted, bm_iter_sorted).
  destruct (ids_of_known (set_iter s)) as [Hids Hlen]. fold l in Hids, Hlen.
  change (omap (id_of symbols) (set_iter s)) with (catalog_ids symbols s) in Hids, Hlen.
  unfold catalog_ids at 1. rewrite Hl, Hids. split; [done |]. split.
  - unfold set_len. rewrite bm_len_iter. unfold set_iter in Hl. by rewrite Hl, Hlen.
  - apply eq_true_iff_eq. unfold set_is_empty. rewrite bm_is_empty_iter. unfold set_iter in Hl. rewrite Hl.
    destruct l as [| a l'], (catalog_ids symbols s); cbn in *; done.
Qed.

(** ** Positions of references *)

Lemma indexes_loop (l : list ReferenceRecord) : narrow (length l) -> NoDup (r_id <$> l) ->
  exists m : gmap ReferenceId ReferenceOrdinal,
    fold_res (E:=E) (fun (m : gmap ReferenceId ReferenceOrdinal) p => o ← reference_from_index p.1; mret (<[r_id p.2 := o]> m)) ∅ (imap pair l) = Ok m /\
    forall r o, m !! r = Some o <-> exists rec, l !! N.to_nat o = Some rec /\ r_id rec = r.
Proof.
  induction l as [| x l IH] using rev_ind; intros Hn Hd.
  { exists ∅. split; [done |]. intros r o. rewrite lookup_empty. split; [done | by intros (? & ? & _)]. }
  rewrite length_app in Hn. cbn in Hn. rewrite fmap_app, NoDup_app in Hd. destruct Hd as (Hd & Hx & _).
  destruct IH as (m & Hm & IH); [eapply narrow_le; [exact Hn | lia] | done |].
  assert (reference_from_index (E:=E) (length l) = Ok (N.of_nat (length l))) as Hi.
  { unfold reference_from_index. rewrite (proj2 (N.ltb_lt _ _)); [done |]. eapply narrow_le; [exact Hn | lia]. }
  exists (<[r_id x := N.of_nat (length l)]> m). split.
  { rewrite imap_pair_snoc, fold_res_app, Hm. cbn. by rewrite Hi. }
  intros r o. rewrite lookup_insert_Some. setoid_rewrite lookup_snoc_iff. split.
  - intros [[<- <-] | [Hne Ho]]; [exists x; rewrite Nat2N.id; split; [by right | done] |].
    apply IH in Ho as (rec & Hr & <-). exists rec. split; [by left | done].
  - intros (rec & [Hr | [Ho ->]] & <-).
    + right. split; [| apply IH; by exists rec]. intros Heq. apply (Hx (r_id rec)).
      * apply list_elem_of_fmap. exists rec. split; [done |]. by eapply list_elem_of_lookup_2.
      * rewrite <- Heq. cbn. by left.
    + left. split; [done |]. by rewrite <- Ho, N2Nat.id.
Qed.

Definition located (indexes : gmap ReferenceId ReferenceOrdinal) : Prop :=
  forall r o, indexes !! r = Some o <-> exists rec, iter records !! N.to_nat o = Some rec /\ r_id rec = r.

Lemma reference_indexes_spec : narrow (length (iter records)) -> NoDup (r_id <$> iter records) ->
  exists indexes, reference_indexes (E:=E) records = Ok indexes /\ located indexes.
Proof using. apply indexes_loop. Qed.

Lemma position_of indexes i rec : located indexes -> iter records !! i = Some rec ->
  reference_position indexes (r_id rec) = Some i.
Proof using.
  intros Hl Hr. unfold reference_position.
  rewrite (proj2 (Hl (r_id rec) (N.of_nat i))); [cbn; by rewrite Nat2N.id |]. exists rec. by rewrite Nat2N.id.
Qed.

(** ** Outcomes that can be read back *)

Definition outcome_reference (o : Outcome) : ReferenceId :=
  match o with
  | OEdge e => e_reference e
  | OCandidate c => c_reference c
  | OExternal x => x_reference x
  | ODynamic d => d_reference d
  | OBlocked u | OUnresolved u => u_reference u
  end.

Definition restorable (o : Outcome) : Prop :=
  exists i rec, iter records !! i = Some rec /\ outcome_reference o = r_id rec /\
    match o with
    | OEdge e => (exists k, ordinal symbols (e_target e) = Some k) /\ e_evidence e <> NameMatch
    | OCandidate c => c_targets c <> [] /\ exists s, c_targets c = catalog_ids symbols s
    | OExternal x => has_uri (x_target_identity x)
    | ODynamic d => d_target_identity d = target_identity rec /\ exists s, d_candidates d = catalog_ids symbols s
    | OBlocked u => exists reason, u = unresolved_reference rec (block_unresolved_reason reason)
    | OUnresolved u => exists reason, u = unresolved_reference rec (unknown_unresolved_reason reason)
    end.

(** What the linker guarantees of a decision. *)
Definition well_decided (d : ReferenceLinkageDecision) : Prop :=
  match d with
  | Unique rd => rd_evidence rd <> NameMatch
  | Candidate _ rd => catalog_ids symbols (rd_targets rd) <> []
  | _ => True
  end.

Context (Huris : Forall (fun rec => has_uri (target_identity rec)) (iter records)).

Lemma outcome_restorable d o : placed d -> printable d -> well_decided d -> outcome d = Ok o ->
  restorable o /\ outcome_reference o = reference d.
Proof using Htable Hcat Huris.
  intros (rec & Hr & <-) Hp Hw. unfold outcome. rewrite (index_iter _ _ Hr), ret_bind. unfold restorable.
  assert (forall o id, id ∈ catalog_ids symbols o -> exists k, ordinal symbols id = Some k) as Hk.
  { intros t id (k & _ & Hid)%list_elem_of_omap. exists k. by apply (cat_bij _ Hcat). }
  destruct d as [rd | reason rd | origin r i t | reason r i | reason r i c | reason r i]; cbn in *; intros Ho.
  - injection Ho as <-. unfold edge_outcome. specialize (Hk (rd_targets rd)).
    destruct (catalog_ids symbols (rd_targets rd)) as [| id []] eqn:Hids; (split; [| done]; exists (rd_reference_idx rd), rec; cbn;
      split; [done |]; split; [done |]).
    + by exists UnknownNoCandidate.
    + split; [apply Hk; by left | done].
    + split; [done | by exists (rd_targets rd)].
  - injection Ho as <-. split; [| done]. exists (rd_reference_idx rd), rec. cbn. split_and!; [done.. | by exists (rd_targets rd)].
  - destruct t as [m |].
    + destruct (uri_of_valid m Hp) as (uri & Hu & _). unfold external_reference in Ho. rewrite Hu in Ho. cbn in Ho.
      injection Ho as <-. split; [| done]. exists i, rec. cbn. split_and!; [done.. |]. by exists m.
    + cbn in Ho. injection Ho as <-. split; [| done]. exists i, rec. cbn. split_and!; [done.. |].
      rewrite Forall_forall in Huris. apply Huris. by eapply list_elem_of_lookup_2.
  - injection Ho as <-. split; [| done]. exists i, rec. cbn. split_and!; [done.. | by exists reason].
  - injection Ho as <-. split; [| done]. exists i, rec. cbn. split_and!; [done.. | by exists c].
  - injection Ho as <-. split; [| done]. exists i, rec. cbn. split_and!; [done.. | by exists reason].
Qed.

(** ** Reading back *)

Context (indexes : gmap ReferenceId ReferenceOrdinal) (Hidx : located indexes).

(** A decision read back from an element of a snapshot gives the element. *)
Lemma outcome_at i rec d : iter records !! i = Some rec -> reference_idx d = i ->
  outcome d = match d with
              | Unique rd => mret (edge_outcome rec rd)
              | Candidate reason rd =>
                  mret (OCandidate (mk_candidate (r_id rec) (catalog_ids symbols (rd_targets rd)) reason
                    (candidate_scope (rd_scope rd)) (rd_evidence rd)))
              | Blocked reason _ _ => mret (OBlocked (unresolved_reference rec (block_unresolved_reason reason)))
              | Unknown reason _ _ => mret (OUnresolved (unresolved_reference rec (unknown_unresolved_reason reason)))
              | External origin _ _ target => x ← external_reference material rec origin target; mret (OExternal x)
              | Dynamic reason _ _ candidates =>
                  mret (ODynamic (mk_dynamic (r_id rec) (target_identity rec) reason (catalog_ids symbols candidates)))
              end.
Proof using Htable. intros Hr <-. unfold outcome. by rewrite (index_iter _ _ Hr). Qed.

Lemma candidate_scope_inverse s : candidate_scope (resolution_scope s) = s.
Proof. by destruct s. Qed.

Lemma restored_candidate c : restorable (OCandidate c) ->
  exists d, candidate_decision indexes symbols c = Some d /\ outcome d = Ok (OCandidate c).
Proof using RL Htable Hcat Hidx.
  intros (i & rec & Hr & Hc & Hne & s & Hs). cbn in Hc. unfold candidate_decision.
  rewrite Hc, (position_of _ _ _ Hidx Hr). destruct (restored_set s) as (Hi & Hl & He). rewrite <- Hs in Hi, Hl, He.
  set (targets := set_from_iter _) in *. cbn [mbind option_bind]. rewrite Hl, He, N.eqb_refl.
  replace (is_nil (c_targets c)) with false by by destruct (c_targets c). cbn [orb negb].
  eexists. split; [done |]. unfold Decision.candidate. rewrite (outcome_at _ _ _ Hr) by done. cbn.
  rewrite Hi, candidate_scope_inverse, <- Hc. by destruct c.
Qed.

Lemma restored_dynamic d : restorable (ODynamic d) ->
  exists d', dynamic_decision indexes symbols d = Some d' /\ outcome d' = Ok (ODynamic d).
Proof using RL Htable Hcat Hidx.
  intros (i & rec & Hr & Hd & Ht & s & Hs). cbn in Hd. unfold dynamic_decision.
  rewrite Hd, (position_of _ _ _ Hidx Hr). eexists. split; [done |]. unfold Decision.dynamic.
  rewrite (outcome_at _ _ _ Hr) by done. unfold advisory_dynamic_candidates. rewrite Hs.
  destruct (restored_set s) as (-> & _). rewrite <- Hs, <- Ht, <- Hd. by destruct d.
Qed.

Lemma restored_external x : restorable (OExternal x) ->
  exists d, external_decision (E:=E) indexes material x = Ok (Some d) /\ outcome d = Ok (OExternal x).
Proof using Htable Hidx.
  intros (i & rec & Hr & Hx & m & Hm & Hu). cbn in Hx. unfold external_decision.
  rewrite Hx, (position_of _ _ _ Hidx Hr). destruct (uri_of_valid m Hm) as (uri & Hu' & Hf).
  assert (uri = x_target_identity x) as -> by congruence. rewrite Hf. cbn. eexists. split; [done |].
  unfold external_target. rewrite (outcome_at _ _ _ Hr) by done. unfold external_reference. rewrite Hu. cbn.
  rewrite <- Hx. by destruct x.
Qed.

Lemma restored_blocked u : restorable (OBlocked u) ->
  exists d, blocked_decision indexes u = Some d /\ outcome d = Ok (OBlocked u).
Proof using Htable Hidx.
  intros (i & rec & Hr & _ & reason & ->). unfold blocked_decision. cbn.
  rewrite (position_of _ _ _ Hidx Hr). cbn.
  assert (block_from_unresolved_reason (block_unresolved_reason reason) = Some reason) as -> by by destruct reason.
  eexists. split; [done |]. unfold Decision.blocked. by rewrite (outcome_at _ _ _ Hr).
Qed.

Lemma restored_unresolved u : restorable (OUnresolved u) ->
  exists d, unresolved_decision (E:=E) indexes records u = Ok (Some d) /\ outcome d = Ok (OUnresolved u).
Proof using Htable Hidx.
  intros (i & rec & Hr & _ & reason & ->). unfold unresolved_decision. cbn.
  rewrite (position_of _ _ _ Hidx Hr).
  assert (unknown_from_unresolved_reason (unknown_unresolved_reason reason) = Some reason) as -> by by destruct reason.
  rewrite (index_iter _ _ Hr). cbn. eexists. split; [done |]. unfold unknown. by rewrite (outcome_at _ _ _ Hr).
Qed.

Lemma restored_omap {A} (f : A -> option ReferenceLinkageDecision) (g : A -> Outcome) l :
  Forall (fun a => exists d, f a = Some d /\ outcome d = Ok (g a)) l -> map_res outcome (omap f l) = Ok (g <$> l).
Proof using.
  induction 1 as [| a l (d & Hf & Ho) _ IH]; [done |]. cbn. rewrite Hf. cbn. unfold map_res in *. cbn.
  by rewrite Ho, IH.
Qed.

Lemma restored_filter_map {A} (f : A -> res E (option ReferenceLinkageDecision)) (g : A -> Outcome) l :
  Forall (fun a => exists d, f a = Ok (Some d) /\ outcome d = Ok (g a)) l ->
  exists ds, filter_map_res f l = Ok ds /\ map_res outcome ds = Ok (g <$> l).
Proof using.
  induction 1 as [| a l (d & Hf & Ho) _ (ds & Hds & IH)]; [by exists [] |]. exists (d :: ds). cbn.
  rewrite Hf. cbn. rewrite Hds. split; [done |]. unfold map_res in *. cbn. by rewrite Ho, IH.
Qed.

(** The edges, one to a reference, come back in the order of the references. *)
Definition edge_entry (e : LinkageEdge) : ReferenceId * (SymbolSet * ResolutionEvidence * bool) :=
  (e_reference e, (set_insert (default 0%N (ordinal symbols (e_target e))) set_new, e_evidence e, false)).

Lemma edges_map es : NoDup (e_reference <$> es) -> Forall (fun e => restorable (OEdge e)) es ->
  forall r v, foldl (add_edge symbols) ∅ es !! r = Some v <-> (r, v) ∈ edge_entry <$> es.
Proof using.
  induction es as [| e es IH] using rev_ind; intros Hd Hr r v.
  { cbn [foldl]. rewrite lookup_empty. split; [done | by intros ?%not_elem_of_nil]. }
  rewrite fmap_app, NoDup_app in Hd. destruct Hd as (Hd & Hne & _). apply Forall_app in Hr as [Hr He].
  apply Forall_singleton in He as (_ & _ & _ & _ & (k & Hk) & _).
  specialize (IH Hd Hr). rewrite foldl_snoc, fmap_app, elem_of_app. change (edge_entry <$> [e]) with [edge_entry e]. rewrite list_elem_of_singleton. unfold add_edge at 1.
  assert (foldl (add_edge symbols) ∅ es !! e_reference e = None) as Hnone.
  { destruct (foldl _ _ _ !! _) as [w |] eqn:Hw; [| done]. apply IH in Hw.
    apply list_elem_of_fmap in Hw as (e' & [= Heq _] & Hin). exfalso. apply (Hne (e_reference e)); [| by left].
    apply list_elem_of_fmap. by exists e'. }
  rewrite Hnone, Hk. cbn [default]. rewrite lookup_insert_Some, <- IH. unfold edge_entry. rewrite Hk. cbn. split.
  - intros [[<- <-] | [_ ?]]; [by right | by left].
  - intros [Hv | [= -> ->]]; [| by left]. right. split; [| done]. intros <-. congruence.
Qed.

Lemma entry_le_iff {A} (a b : ReferenceId * A) : entry_le a b <->
  (ref_file a.1 < ref_file b.1 \/ (ref_file a.1 = ref_file b.1 /\ ref_reference a.1 <= ref_reference b.1))%N.
Proof using.
  unfold entry_le, reference_id_compare. destruct (N.compare_spec (ref_file a.1) (ref_file b.1)) as [H | H | H].
  - change ((ref_reference a.1 ?= ref_reference b.1)%N <> Gt) with (ref_reference a.1 <= ref_reference b.1)%N. lia.
  - split; [by left | done].
  - split; [done | lia].
Qed.

#[local] Instance entry_le_trans {A} : Transitive (@entry_le A).
Proof using. intros a b c. rewrite !entry_le_iff. lia. Qed.

#[local] Instance entry_le_total {A} : Total (@entry_le A).
Proof using. intros a b. rewrite !entry_le_iff. lia. Qed.

Lemma restored_edges snapshot es : Snapshot.resolved snapshot = es -> NoDup (e_reference <$> es) ->
  Forall (fun e => restorable (OEdge e)) es ->
  exists es', es' ≡ₚ es /\ StronglySorted id_lt (e_reference <$> es') /\
    map_res outcome (resolved_decisions_from_snapshot snapshot indexes symbols) = Ok (OEdge <$> es').
Proof using RL Htable Hcat Hidx.
  intros Hs Hd Hr. unfold resolved_decisions_from_snapshot, sorted_by_reference. rewrite Hs.
  set (m := foldl (add_edge symbols) ∅ es).
  assert (map_to_list m ≡ₚ edge_entry <$> es) as Hm.
  { apply NoDup_Permutation; [apply NoDup_map_to_list | |].
    - apply (NoDup_fmap_1 fst). rewrite <- list_fmap_compose. exact Hd.
    - intros [r v]. rewrite elem_of_map_to_list. by apply edges_map. }
  assert (merge_sort entry_le (map_to_list m) ≡ₚ edge_entry <$> es) as Hp by by rewrite merge_sort_Permutation.
  apply Permutation_map_inv in Hp as (es' & Hes & Hperm). exists es'. split; [by symmetry |].
  assert (NoDup (e_reference <$> es')) as Hd' by by rewrite <- Hperm. split.
  - pose proof (StronglySorted_merge_sort entry_le (map_to_list m)) as Hsort. rewrite Hes in Hsort.
    clear -Hsort Hd'. induction es' as [| e es' IH]; [constructor |]. cbn in *.
    apply NoDup_cons in Hd' as [Hn Hd']. inversion Hsort as [| ? ? Hs Hf]; subst. constructor; [by apply IH |].
    rewrite Forall_forall. intros r (e' & -> & He')%list_elem_of_fmap.
    assert (entry_le (edge_entry e) (edge_entry e')) as Hle.
    { apply (proj1 (Forall_forall _ _) Hf), list_elem_of_fmap. by exists e'. }
    unfold entry_le in Hle. cbn in Hle. unfold id_lt.
    destruct (reference_id_compare _ _) eqn:Hc; [| done..]. exfalso. apply Hn. apply id_compare_eq in Hc. rewrite Hc.
    apply list_elem_of_fmap. by exists e'.
  - rewrite Hes. rewrite omap_fmap. apply restored_omap. rewrite Hperm in Hr.
    eapply Forall_impl; [exact Hr |]. intros e (i & rec & Hi & He & (k & Hk) & Hev). cbn in He. unfold compose, edge_entry. cbn.
    rewrite He, (position_of _ _ _ Hidx Hi), Hk. cbn. eexists. split; [done |].
    assert (set_is_empty (set_insert k set_new) = false) as Hempty.
    { unfold set_is_empty. apply not_true_iff_false. rewrite bm_empty_iff. intros H. specialize (H k).
      by rewrite (proj2 (in_insert k set_new k : bm_contains _ _ = true <-> _)) in H by by left. }
    assert (set_iter (set_insert k set_new) = [k]) as Hiter.
    { apply sorted_lt_ext; [apply bm_iter_sorted | repeat constructor |]. intros n.
      rewrite bm_iter_contains, (in_insert k set_new n : bm_contains _ _ = true <-> _), in_new, list_elem_of_singleton. tauto. }
    assert (set_len (set_insert k set_new) = 1%N) as Hlen by (unfold set_len; rewrite bm_len_iter; unfold set_iter in Hiter; by rewrite Hiter).
    assert (catalog_ids symbols (set_insert k set_new) = [e_target e]) as Hids.
    { unfold catalog_ids. rewrite Hiter. apply (cat_bij _ Hcat) in Hk. cbn. unfold id_of. by rewrite Hk. }
    unfold Decision.resolved, candidate_reason. cbn [rd_targets rd_evidence]. rewrite Hempty, Hlen, bool_decide_false by done.
    cbn [N.ltb N.compare Pos.compare Pos.compare_cont]. rewrite (outcome_at _ _ _ Hi) by done.
    unfold edge_outcome. cbn [rd_targets rd_evidence]. rewrite Hids, <- He. by destruct e.
Qed.

(** The elements of a projection, by the kind of outcome. *)
Lemma published_restorable os : Forall restorable os ->
  let p := published os in
  Forall (fun e => restorable (OEdge e)) (pj_resolved p) /\ Forall (fun c => restorable (OCandidate c)) (pj_candidates p) /\
  Forall (fun x => restorable (OExternal x)) (pj_external p) /\ Forall (fun d => restorable (ODynamic d)) (pj_dynamic p) /\
  Forall (fun u => restorable (OBlocked u)) (pj_blocked p) /\ Forall (fun u => restorable (OUnresolved u)) (pj_unresolved p).
Proof using.
  unfold published. cbn. induction 1 as [| o os Ho _ IH]; [by split_and! |]. destruct IH as (H1 & H2 & H3 & H4 & H5 & H6).
  destruct o; cbn; split_and!; try done; by constructor.
Qed.

Lemma edges_sublist os : (e_reference <$> pj_resolved (published os)) `sublist_of` (outcome_reference <$> os).
Proof using. induction os as [| [] os IH]; cbn; [constructor | by constructor..]. Qed.

Lemma published_app os os' : published (os ++ os') = join (published os) (published os').
Proof using. rewrite <- !published_default, foldl_app. by rewrite !put_published. Qed.

(** What is published of the parts that are read back. *)
Lemma published_parts es cs ds xs bs us :
  published ((OEdge <$> es) ++ (OCandidate <$> cs) ++ (ODynamic <$> ds) ++ (OExternal <$> xs) ++ (OBlocked <$> bs) ++
             (OUnresolved <$> us)) = mk_projection es cs xs ds bs us.
Proof using.
  rewrite !published_app.
  assert (forall l, published (OEdge <$> l) = mk_projection l [] [] [] [] []) as ->
    by (induction l as [| a l IH]; [done |]; unfold published in *; injection IH; cbn; intros -> -> -> -> -> ->; done).
  assert (forall l, published (OCandidate <$> l) = mk_projection [] l [] [] [] []) as ->
    by (induction l as [| a l IH]; [done |]; unfold published in *; injection IH; cbn; intros -> -> -> -> -> ->; done).
  assert (forall l, published (ODynamic <$> l) = mk_projection [] [] [] l [] []) as ->
    by (induction l as [| a l IH]; [done |]; unfold published in *; injection IH; cbn; intros -> -> -> -> -> ->; done).
  assert (forall l, published (OExternal <$> l) = mk_projection [] [] l [] [] []) as ->
    by (induction l as [| a l IH]; [done |]; unfold published in *; injection IH; cbn; intros -> -> -> -> -> ->; done).
  assert (forall l, published (OBlocked <$> l) = mk_projection [] [] [] [] l []) as ->
    by (induction l as [| a l IH]; [done |]; unfold published in *; injection IH; cbn; intros -> -> -> -> -> ->; done).
  assert (forall l, published (OUnresolved <$> l) = mk_projection [] [] [] [] [] l) as ->
    by (induction l as [| a l IH]; [done |]; unfold published in *; injection IH; cbn; intros -> -> -> -> -> ->; done).
  unfold join. cbn. by rewrite !app_nil_r.
Qed.

(** Decisions read back from a projection of restorable outcomes. *)
Lemma read_back os g ig : Forall restorable os -> NoDup (outcome_reference <$> os) ->
  reference_indexes (E:=E) records = Ok indexes ->
  exists ds es, decisions_from_snapshot (E:=E) (into_snapshot (published os) g ig) records material symbols = Ok ds /\
    es ≡ₚ pj_resolved (published os) /\ StronglySorted id_lt (e_reference <$> es) /\
    map_res outcome ds = Ok ((OEdge <$> es) ++ (OCandidate <$> pj_candidates (published os)) ++
      (ODynamic <$> pj_dynamic (published os)) ++ (OExternal <$> pj_external (published os)) ++
      (OBlocked <$> pj_blocked (published os)) ++ (OUnresolved <$> pj_unresolved (published os))).
Proof using RL Htable Hcat Hidx.
  intros Hos Hd Hi. destruct (published_restorable os Hos) as (He & Hc & Hx & Hdy & Hb & Hu).
  set (snapshot := into_snapshot (published os) g ig).
  destruct (restored_edges snapshot (pj_resolved (published os)) eq_refl) as (es & Hp & Hsort & Hedges);
    [eapply sublist_NoDup; [exact Hd | apply edges_sublist] | done |].
  destruct (restored_filter_map (external_decision indexes material) OExternal (pj_external (published os))) as (xs & Hxs & Hxo).
  { eapply Forall_impl; [exact Hx |]. intros x. apply restored_external. }
  destruct (restored_filter_map (unresolved_decision indexes records) OUnresolved (pj_unresolved (published os))) as (us & Hus & Huo).
  { eapply Forall_impl; [exact Hu |]. intros u. apply restored_unresolved. }
  eexists _, es. unfold decisions_from_snapshot. rewrite Hi, ret_bind. unfold external_decisions_from_snapshot.
  change (Snapshot.external snapshot) with (pj_external (published os)).
  change (Snapshot.unresolved snapshot) with (pj_unresolved (published os)). rewrite Hxs, ret_bind, Hus, ret_bind.
  split; [reflexivity |]. split; [done |]. split; [done |].
  assert ((if is_nil (Snapshot.blocked snapshot) then Snapshot.manifest_blocked snapshot else Snapshot.blocked snapshot) =
    pj_blocked (published os)) as ->.
  { unfold snapshot, into_snapshot. cbn [Snapshot.blocked Snapshot.manifest_blocked].
    by destruct (pj_blocked (published os)). }
  repeat apply map_res_app; try done.
  - apply restored_omap. eapply Forall_impl; [exact Hc |]. intros c. apply restored_candidate.
  - apply restored_omap. eapply Forall_impl; [exact Hdy |]. intros d. apply restored_dynamic.
  - apply restored_omap. eapply Forall_impl; [exact Hb |]. intros u. apply restored_blocked.
Qed.
End facts.

(** ** Lemmas of the theorems *)

Section publication.
Context {R : Roaring} {RL : RoaringLaws R} {E : Type}.
Context (records : RecordTable ReferenceRecord) (material : CodeIndexMaterial) (symbols : SymbolOrdinalCatalog).
Context (Htable : table_wf records).

Lemma outcome_reference_of d o rec : iter records !! reference_idx d = Some rec -> r_id rec = reference d ->
  outcome (E:=E) records material symbols d = Ok o -> outcome_reference o = reference d.
Proof using Htable.
  intros Hr <-. rewrite (outcome_at _ _ _ Htable _ _ _ Hr eq_refl). destruct d; cbn; try by intros [= <-].
  - intros [= <-]. unfold edge_outcome. by destruct (catalog_ids _ _) as [| ? []].
  - unfold external_reference. destruct (match target with Some t => _ | None => _ end); cbn; try done. by intros [= <-].
Qed.

Lemma published_edges ds os : Forall (placed records) ds ->
  Forall2 (fun d o => outcome (E:=E) records material symbols d = Ok o) ds os ->
  forall e, e ∈ pj_resolved (published os) <-> exists rd, Unique rd ∈ ds /\ rd_reference rd = e_reference e /\
    rd_evidence rd = e_evidence e /\ catalog_ids symbols (rd_targets rd) = [e_target e].
Proof using Htable.
  intros Hp Hrel. induction Hrel as [| d o ds os Ho _ IH]; intros e.
  { split; [by intros ?%not_elem_of_nil |]. by intros (? & ?%not_elem_of_nil & _). }
  apply Forall_cons_1 in Hp as [(rec & Hr & Hid) Hp]. setoid_rewrite elem_of_cons.
  assert (e ∈ pj_resolved (published (o :: os)) <-> o = OEdge e \/ e ∈ pj_resolved (published os)) as ->.
  { unfold published. destruct o; cbn; rewrite ?elem_of_cons; intuition congruence. }
  rewrite (IH Hp e). rewrite (outcome_at _ _ _ Htable _ _ _ Hr eq_refl) in Ho.
  assert (o = OEdge e <-> exists rd, Unique rd = d /\ rd_reference rd = e_reference e /\
    rd_evidence rd = e_evidence e /\ catalog_ids symbols (rd_targets rd) = [e_target e]) as ->.
  2: { split; [intros [(rd & <- & Hrd) | (rd & Hin & Hrd)]; exists rd; (split; [(by left) || (by right) | done]) |].
       intros (rd & [<- | Hin] & Hrd); [left | right]; by exists rd. }
  destruct d as [rd | reason rd | origin r i t | reason r i | reason r i c | reason r i]; cbn in Ho, Hid;
    [| injection Ho as <-; split; [done | by intros (? & [=] & _)] | | injection Ho as <-; split; [done | by intros (? & [=] & _)]..].
  - injection Ho as <-. unfold edge_outcome. split.
    + intros H. exists rd. destruct (catalog_ids symbols (rd_targets rd)) as [| id []]; try done. injection H as <-. by cbn.
    + intros (rd' & [= ->] & Hre & Hev & Hids). rewrite Hids, Hid, Hre, Hev. by destruct e.
  - unfold external_reference in Ho. destruct (match t with Some t => _ | None => _ end); cbn in Ho; try done.
    injection Ho as <-. split; [done | by intros (? & [=] & _)].
Qed.

Lemma resolved_unique (rd : ResolutionDecision) : Decision.resolved rd = Unique rd <->
  rd_evidence rd <> NameMatch /\ set_len (rd_targets rd) = 1%N.
Proof using RL.
  assert (set_is_empty (rd_targets rd) = true <-> set_len (rd_targets rd) = 0%N) as He.
  { unfold set_is_empty, set_len. rewrite bm_is_empty_iter, bm_len_iter. destruct (bm_iter _); cbn; split; intros; (done || lia). }
  unfold Decision.resolved, candidate_reason. destruct (set_is_empty (rd_targets rd)).
  { split; [done |]. intros [_ Hl]. rewrite (proj1 He eq_refl) in Hl. done. }
  assert (set_len (rd_targets rd) <> 0%N) as Hne by (intros H; by apply He in H).
  case_bool_decide; [split; [done | by intros []] |].
  destruct (1 <? set_len (rd_targets rd))%N eqn:Hl; [apply N.ltb_lt in Hl | apply N.ltb_ge in Hl].
  - split; [done |]. intros [_ Hl']. lia.
  - split; [| done]. intros _. split; [done | lia].
Qed.

Lemma restorable_outcomes ds os : catalog_ok symbols ->
  Forall (fun rec => has_uri (E:=E) material (target_identity rec)) (iter records) ->
  Forall (placed records) ds -> Forall printable ds -> Forall (well_decided symbols) ds ->
  Forall2 (fun d o => outcome (E:=E) records material symbols d = Ok o) ds os ->
  Forall (restorable (E:=E) records material symbols) os /\ outcome_reference <$> os = reference <$> ds.
Proof using Htable.
  intros Hcat Huris Hp Hpr Hw Hrel. induction Hrel as [| d o ds os Ho _ IH]; [done |].
  apply Forall_cons_1 in Hp as [Hp Hps], Hpr as [Hpr Hprs], Hw as [Hw Hws].
  destruct (outcome_restorable records material symbols Htable Hcat Huris d o Hp Hpr Hw Ho) as [Hr Href].
  destruct (IH Hps Hprs Hws) as [Hrs Hrefs]. split; [by constructor |]. cbn. by rewrite Href, Hrefs.
Qed.
End publication.

Lemma sorted_edges_eq (es es' : list LinkageEdge) : es ≡ₚ es' ->
  StronglySorted id_lt (e_reference <$> es) -> StronglySorted id_lt (e_reference <$> es') -> es = es'.
Proof.
  revert es'. induction es as [| e es IH]; intros es' Hp Hs Hs'; [by apply Permutation_nil_l in Hp as -> |].
  destruct es' as [| e' es']; [by apply Permutation_nil_r in Hp |]. cbn in Hs, Hs'.
  inversion Hs as [| ? ? Hs1 Hf]; inversion Hs' as [| ? ? Hs1' Hf']; subst.
  assert (e = e') as ->; [| f_equal; apply IH; [by apply (Permutation_cons_inv (a:=e')) | done..]].
  assert (e' ∈ e :: es) as [-> | He']%elem_of_cons by (rewrite Hp; by left); [done |].
  assert (e ∈ e' :: es') as [-> | He]%elem_of_cons by (rewrite <- Hp; by left); [done |].
  rewrite Forall_forall in Hf, Hf'.
  assert (id_lt (e_reference e) (e_reference e')) as H1 by (apply Hf, list_elem_of_fmap; by exists e').
  assert (id_lt (e_reference e') (e_reference e)) as H2 by (apply Hf', list_elem_of_fmap; by exists e).
  apply id_compare_gt in H1. unfold id_lt in H2. congruence.
Qed.

Lemma sublist_StronglySorted {A} (P : A -> A -> Prop) l k : StronglySorted P k -> l `sublist_of` k -> StronglySorted P l.
Proof.
  intros Hs Hl. induction Hl as [| x l k Hl IH | x l k Hl IH]; [done | |]; inversion Hs as [| ? ? Hk Hf]; subst.
  - constructor; [by apply IH |]. rewrite Forall_forall in *. intros y Hy. apply Hf. by eapply elem_of_sublist.
  - by apply IH.
Qed.
End LinkDecisionFacts.

Module LinkDecisionTheorems.
Import Snapshot Inventory InventoryInv LinkIndex LinkIndexFacts LinkIndexTheorems PathSets LinkMaterial Decision Projection
  RestoreLinkage LinkDecisionFacts.

(** The references of a snapshot, list by list. *)
Definition published_references (p : LinkageReportProjection) : list ReferenceId :=
  (e_reference <$> pj_resolved p) ++ (c_reference <$> pj_candidates p) ++ (x_reference <$> pj_external p) ++
  (d_reference <$> pj_dynamic p) ++ (u_reference <$> pj_blocked p) ++ (u_reference <$> pj_unresolved p).

Lemma published_references_perm os : published_references (published os) ≡ₚ outcome_reference <$> os.
Proof.
  unfold published_references. induction os as [| o os IH]; [done |].
  destruct o; cbn in *; rewrite <- ?Permutation_middle, IH; try done;
    rewrite <- IH; clear IH; rewrite !app_assoc; rewrite <- ?Permutation_middle; done.
Qed.

Section theorems.
Context {R : Roaring} {RL : RoaringLaws R}.
Context (records : RecordTable ReferenceRecord) (material : CodeIndexMaterial) (symbols : SymbolOrdinalCatalog).
Context (Htable : table_wf records).
Abbreviation E := Empty_set.

(** C17: publishing decisions loses none and makes no edge that is not one: over decisions
    that stand on the records of a table the projection returns, the references of
    its six lists are those of the decisions, each as often, the counts of the
    snapshot add up to the number of decisions, and the edges are the unique
    decisions whose targets are one known symbol; a resolution is decided as unique
    exactly when its evidence is more than a name and it has one target. *)
Theorem publication_exact (ds : list ReferenceLinkageDecision) (generation index_generation : ResourceGeneration)
    (Hp : Forall (placed records) ds) (Hpr : Forall printable ds) :
  exists p, project_decisions (E:=E) records material symbols ds = Ok p /\
    published_references p ≡ₚ reference <$> ds /\
    (forall e, e ∈ pj_resolved p <-> exists rd, Unique rd ∈ ds /\ rd_reference rd = e_reference e /\
       rd_evidence rd = e_evidence e /\ catalog_ids symbols (rd_targets rd) = [e_target e]) /\
    (let s := into_snapshot p generation index_generation in
     resolved_refs s + candidate_refs s + external_refs s + dynamic_refs s + blocked_refs s + unresolved_refs s =
       length ds) /\
    forall rd : ResolutionDecision, Decision.resolved rd = Unique rd <->
      rd_evidence rd <> NameMatch /\ set_len (rd_targets rd) = 1%N.
Proof using RL Htable.
  destruct (outcomes_total (E:=E) records material symbols Htable ds Hp Hpr) as [os Hos].
  exists (published os). split; [by apply project_decisions_outcomes |].
  pose proof (map_res_related _ _ _ _ _ Hos) as Hrel. split_and!.
  - rewrite published_references_perm. clear Hos. induction Hrel as [| d o ds os Ho _ IH]; [done |].
    apply Forall_cons_1 in Hp as [(rec & Hr & Hid) Hp], Hpr as [_ Hpr]. cbn. rewrite (IH Hp Hpr). f_equiv.
    by apply (outcome_reference_of (E:=E) records material symbols Htable _ _ rec).
  - apply (published_edges (E:=E) records material); [done | exact Hp | exact Hrel].
  - unfold into_snapshot. cbn. rewrite (Forall2_length _ _ _ Hrel). apply published_size.
  - apply resolved_unique.
Qed.

(** C15: a snapshot survives being read back: the decisions restored from a published
    snapshot are published as the same snapshot, when the records have distinct
    identifiers and targets that are the text of a moniker, and each reference has
    one decision, of the kind that the linker makes. The edges come back in the
    order of their references, and the snapshot is equal when they were in it. *)
Theorem snapshot_restored_exactly (ds : list ReferenceLinkageDecision) (g ig : ResourceGeneration)
    (Hn : narrow (length (iter records))) (Hids : NoDup (r_id <$> iter records)) (Hcat : catalog_ok symbols)
    (Huris : Forall (fun rec => has_uri (E:=E) material (target_identity rec)) (iter records))
    (Hp : Forall (placed records) ds) (Hpr : Forall printable ds) (Hw : Forall (well_decided symbols) ds)
    (Hd : NoDup (reference <$> ds)) :
  exists p ds' p', project_decisions (E:=E) records material symbols ds = Ok p /\
    decisions_from_snapshot (E:=E) (into_snapshot p g ig) records material symbols = Ok ds' /\
    project_decisions (E:=E) records material symbols ds' = Ok p' /\
    pj_resolved p' ≡ₚ pj_resolved p /\ StronglySorted id_lt (e_reference <$> pj_resolved p') /\
    p' = mk_projection (pj_resolved p') (pj_candidates p) (pj_external p) (pj_dynamic p) (pj_blocked p)
           (pj_unresolved p) /\
    (StronglySorted id_lt (reference <$> ds) -> into_snapshot p' g ig = into_snapshot p g ig).
Proof using RL Htable.
  destruct (outcomes_total (E:=E) records material symbols Htable ds Hp Hpr) as [os Hos].
  pose proof (map_res_related _ _ _ _ _ Hos) as Hrel.
  destruct (restorable_outcomes records material symbols Htable ds os Hcat Huris Hp Hpr Hw Hrel) as [Hgood Hrefs].
  destruct (reference_indexes_spec (E:=E) records Hn Hids) as (indexes & Hi & Hl).
  destruct (read_back (E:=E) records material symbols Htable Hcat indexes Hl os g ig Hgood) as (ds' & es & Hds' & Hes & Hsort & Hos').
  { by rewrite Hrefs. }
  { exact Hi. }
  exists (published os), ds', (mk_projection es (pj_candidates (published os)) (pj_external (published os))
    (pj_dynamic (published os)) (pj_blocked (published os)) (pj_unresolved (published os))).
  split; [by apply project_decisions_outcomes |]. split; [exact Hds' |].
  split; [rewrite (project_decisions_outcomes _ _ _ _ _ Hos'), published_parts; reflexivity |].
  split; [exact Hes |]. split; [exact Hsort |]. split; [done |]. intros Hsorted. rewrite <- Hrefs in Hsorted.
  assert (es = pj_resolved (published os)) as ->; [| reflexivity].
  apply sorted_edges_eq; [exact Hes | exact Hsort |]. eapply sublist_StronglySorted; [exact Hsorted | apply edges_sublist].
Qed.
End theorems.
End LinkDecisionTheorems.

(** ** A snapshot with an outcome of each kind *)

Module LinkDecisionSamples.
Import Snapshot Inventory InventoryInv LinkIndex LinkIndexFacts LinkIndexTheorems PathSets LinkMaterial Decision Projection
  RestoreLinkage LinkDecisionFacts LinkDecisionTheorems.
#[local] Existing Instances GsetRoaring.gset_roaring GsetRoaring.gset_roaring_laws.

Definition shop : bytes := bs "code+moniker://./lang:rs/class:Shop".

Definition linked_records : RecordTable ReferenceRecord := from_shards
  [(fun n => reference_new (reference_at 0 n) (source_at 0) (symbol_at 0 0) shop (bs "calls") None) <$> [0; 1; 2; 3];
   (fun n => reference_new (reference_at 1 n) (source_at 1) (symbol_at 1 0) shop (bs "calls") None) <$> [0; 1]].

Definition linked_material : CodeIndexMaterial := mk_material [] (bs "code+moniker://").

(** The last candidate of the dynamic reference is not in the catalog. *)
Definition linked_decisions : list ReferenceLinkageDecision := [
  Decision.resolved (mk_resolution Local ExactBinding (reference_at 0 0) 0 (set_from_iter [1%N]));
  Decision.resolved (mk_resolution Global GlobalBinding (reference_at 0 1) 1 (set_from_iter [0; 2]%N));
  Decision.external OriginSdk 2 (reference_at 0 2);
  Decision.dynamic RuntimeImport 3 (reference_at 0 3) (set_from_iter [1; 9]%N);
  Decision.blocked VisibilityBlock 4 (reference_at 1 0);
  Decision.unknown UnknownAmbiguous 5 (reference_at 1 1)].

Lemma uri_check material identity :
  match Uri.from_uri identity {| Uri.scheme := scheme material |} with
  | Ok m => match moniker_uri (E:=Empty_set) material m with Ok uri => beq uri identity | _ => false end
  | _ => false
  end = true -> has_uri (E:=Empty_set) material identity.
Proof.
  destruct (Uri.from_uri identity _) as [m | | |] eqn:Hf; try done. destruct (moniker_uri material m) as [uri | | |] eqn:Hu; try done.
  intros ->%beq_true. exists m. split; [| done]. apply UriFacts.from_uri_Ok in Hf as (p & segs & Hv & _). by exists p, segs.
Qed.

Lemma linked_placed : Forall (placed linked_records) linked_decisions.
Proof. repeat constructor; vm_compute; by eexists. Qed.

Lemma linked_printable : Forall printable linked_decisions.
Proof. repeat constructor. Qed.

Lemma publication_exact_witness :
  exists p, project_decisions (E:=Empty_set) linked_records linked_material sample_catalog linked_decisions = Ok p /\
    published_references p ≡ₚ reference <$> linked_decisions.
Proof.
  destruct (publication_exact linked_records linked_material sample_catalog (from_shards_wf _) linked_decisions 1%N 1%N
    linked_placed linked_printable) as (p & Hp & Hr & _). by exists p.
Defined.

Lemma snapshot_restored_exactly_witness :
  exists p ds' p', project_decisions (E:=Empty_set) linked_records linked_material sample_catalog linked_decisions = Ok p /\
    decisions_from_snapshot (E:=Empty_set) (into_snapshot p 1%N 2%N) linked_records linked_material sample_catalog = Ok ds' /\
    project_decisions (E:=Empty_set) linked_records linked_material sample_catalog ds' = Ok p' /\
    into_snapshot p' 1%N 2%N = into_snapshot p 1%N 2%N.
Proof.
  destruct (snapshot_restored_exactly linked_records linked_material sample_catalog (from_shards_wf _) linked_decisions 1%N 2%N)
    as (p & ds' & p' & Hp & Hds & Hp' & _ & _ & _ & Heq).
  - vm_compute. reflexivity.
  - apply (bool_decide_eq_true_1 _). vm_compute. reflexivity.
  - apply sample_catalog_ok.
  - repeat constructor; apply uri_check; vm_compute; reflexivity.
  - apply linked_placed.
  - apply linked_printable.
  - repeat constructor; vm_compute; intros H; discriminate H.
  - apply (bool_decide_eq_true_1 _). vm_compute. reflexivity.
  - exists p, ds', p'. split; [exact Hp |]. split; [exact Hds |]. split; [exact Hp' |]. apply Heq.
    apply sorted_check_ok. vm_compute. reflexivity.
Defined.
End LinkDecisionSamples.
