(* ===== verification/LinkCatalogFacts.v ===== *)
(** The catalog of linkage candidates: whatever the history of its refreshes, its
    names and locations are those of a catalog built anew, and so are its monikers
    when no two candidates share one. *)

From S2P Require Import Prelude.
From S2P Require Import RustStr.
From S2P Require Import Moniker.
From S2P Require Import MonikerFacts.
From S2P Require Import CodeGraph.
From S2P Require Import Syntax.
From S2P Require Import Suppress.
From S2P Require Import Bitmap.
From S2P Require Import Snapshot.
From S2P Require Import Inventory.
From S2P Require Import InventoryInv.
From S2P Require Import LinkIndexFacts.
From S2P Require Import PathSets.
From S2P Require Import LinkDecision.
From S2P Require Import LinkCatalog.

Module LinkCatalogFacts.
Import Snapshot Inventory InventoryInv LinkIndexTheorems PathSets LinkMaterial LinkQuery LinkCatalog.
Abbreviation E := Empty_set.

(** ** Definitions with a well-formed moniker *)

Definition the {A} (m : res E A) (d : A) : A := match m with Ok a => a | _ => d end.

Definition is_cand (def : CodeGraph.DefRecord) : bool := the (is_linkage_candidate_def def) false.
Definition cand (f : nat) (def : CodeGraph.DefRecord) : LinkageCandidate :=
  the (candidate_of f def) (mk_linkage_candidate (CodeGraph.moniker def) None 0 None None [] [] f).
Definition keys (c : LinkageCandidate) : list bytes := the (candidate_keys c) [].

Lemma segments_valid m : CodeGraph.valid_moniker m -> exists segs, segments_of (E:=E) m = Ok segs.
Proof.
  intros (p & segs & H). exists segs. unfold segments_of.
  by rewrite (MonikerFacts.as_view_valid _ _ _ H), ret_bind, (MonikerFacts.view_segments_valid _ _ _ H).
Qed.

Lemma is_cand_Ok def : CodeGraph.valid_moniker (CodeGraph.moniker def) -> is_linkage_candidate_def (E:=E) def = Ok (is_cand def).
Proof.
  intros (segs & H)%segments_valid. unfold is_cand, is_linkage_candidate_def, has_position_backed_anonymous_name.
  destruct (beq _ _); [done |]. by rewrite H.
Qed.

Lemma cand_Ok f def : CodeGraph.valid_moniker (CodeGraph.moniker def) ->
  candidate_of (E:=E) f def = Ok (cand f def) /\ k_moniker (cand f def) = CodeGraph.moniker def /\ k_source_file (cand f def) = f.
Proof. intros (segs & H)%segments_valid. unfold cand, candidate_of. by rewrite H. Qed.

Lemma keys_Ok f def : CodeGraph.valid_moniker (CodeGraph.moniker def) ->
  candidate_keys (E:=E) (cand f def) = Ok (keys (cand f def)).
Proof.
  intros Hv. destruct (cand_Ok f def Hv) as (_ & Hm & _). apply segments_valid in Hv as (segs & H).
  unfold keys, candidate_keys, python_init_package_name. rewrite Hm.
  destruct (k_last_segment (cand f def)) as [last |]; [| done].
  destruct (negb (beq last.1 _) || _); [done |]. by rewrite H.
Qed.

(** ** Partitioned names *)

Section names.
Context {R : Roaring} {RL : RoaringLaws R} `{Countable K}.
Abbreviation NameIndex := (gmap bytes SymbolSet).
Implicit Types (index : gmap K NameIndex) (p : K) (key : bytes) (s : N).

Definition named_by index p key s : Prop :=
  exists names set, index !! p = Some names /\ names !! key = Some set /\ set_contains set s = true.

(** No empty set of names, no empty set of symbols. *)
Definition tidy index : Prop :=
  forall p names, index !! p = Some names -> names <> ∅ /\
    forall key set, names !! key = Some set -> exists s, set_contains set s = true.

Lemma named_empty p key s : ~ named_by ∅ p key s.
Proof using. intros (names & set & Hn & _). by rewrite lookup_empty in Hn. Qed.

Lemma tidy_empty : tidy ∅.
Proof using. intros p names Hn. by rewrite lookup_empty in Hn. Qed.

Lemma named_insert index p key s p' key' s' :
  named_by (insert_partitioned_name index p key s) p' key' s' <->
  named_by index p' key' s' \/ (p' = p /\ key' = key /\ s' = s).
Proof using RL.
  unfold insert_partitioned_name, insert_name, named_by. split.
  - intros (names & set & Hn & Hs & Hc). apply lookup_insert_Some in Hn as [[<- <-] | [Hne Hn]]; [| left; by exists names, set].
    apply lookup_insert_Some in Hs as [[<- <-] | [Hne Hs]].
    + apply in_insert in Hc as [-> | Hc]; [by right |]. left.
      destruct (index !! p) as [names |] eqn:Hp; cbn in Hc; [| by rewrite lookup_empty in Hc; apply in_new in Hc].
      destruct (names !! key) as [set |] eqn:Hk; cbn in Hc; [by exists names, set | by apply in_new in Hc].
    + left. destruct (index !! p) as [names |] eqn:Hp; cbn in Hs; [| by rewrite lookup_empty in Hs]. by exists names, set.
  - intros [(names & set & Hn & Hs & Hc) | (-> & -> & ->)].
    + destruct (decide (p' = p)) as [-> |]; cycle 1.
      { exists names, set. by rewrite lookup_insert_ne. }
      rewrite Hn. cbn. destruct (decide (key' = key)) as [-> |].
      * rewrite Hs. cbn. eexists _, _. split; [apply lookup_insert_eq |]. split; [apply lookup_insert_eq |].
        apply in_insert. by right.
      * eexists _, set. split; [apply lookup_insert_eq |]. by rewrite lookup_insert_ne.
    + eexists _, _. split; [apply lookup_insert_eq |]. split; [apply lookup_insert_eq |]. apply in_insert. by left.
Qed.

Lemma tidy_insert index p key s : tidy index -> tidy (insert_partitioned_name index p key s).
Proof using RL.
  intros Ht p' names Hn. unfold insert_partitioned_name, insert_name in Hn.
  apply lookup_insert_Some in Hn as [[<- <-] | [Hne Hn]]; [| by eapply Ht]. split.
  - intros He. by apply insert_non_empty in He.
  - intros key' set Hs. apply lookup_insert_Some in Hs as [[<- <-] | [_ Hs]]; [exists s; apply in_insert; by left |].
    destruct (index !! p) as [names |] eqn:Hp; cbn in Hs; [by eapply (Ht p) | by rewrite lookup_empty in Hs].
Qed.

Lemma in_remove s (set : SymbolSet) s' : set_contains (set_remove s set) s' = true <-> s' <> s /\ set_contains set s' = true.
Proof using RL.
  unfold set_contains, set_remove. by rewrite bm_contains_remove, andb_true_iff, negb_true_iff, bool_decide_eq_false.
Qed.

Lemma empty_set_iff (set : SymbolSet) : set_is_empty set = true <-> forall s, set_contains set s <> true.
Proof using RL.
  unfold set_is_empty, set_contains. rewrite bm_empty_iff. split; intros Hs s; specialize (Hs s);
    [by rewrite Hs | by apply not_true_iff_false].
Qed.

(** What [remove_name] leaves under a key. *)
Lemma remove_name_spec (names : NameIndex) key s key' s' :
  (exists set, remove_name names key s !! key' = Some set /\ set_contains set s' = true) <->
  (exists set, names !! key' = Some set /\ set_contains set s' = true) /\ ~ (key' = key /\ s' = s).
Proof using RL.
  unfold remove_name. destruct (names !! key) as [set |] eqn:Hk.
  - destruct (set_is_empty (set_remove s set)) eqn:He.
    + rewrite empty_set_iff in He. setoid_rewrite lookup_delete_Some. split.
      * intros (set' & [Hne Hs] & Hc). split; [by exists set' | by intros [-> _]].
      * intros [(set' & Hs & Hc) Hn]. exists set'. split; [| done]. split; [| done]. intros <-.
        assert (set' = set) as -> by congruence. destruct (decide (s' = s)) as [-> |]; [by apply Hn |].
        apply (He s'). by apply in_remove.
    + setoid_rewrite lookup_insert_Some. split.
      * intros (set' & [[<- <-] | [Hne Hs]] & Hc).
        -- apply in_remove in Hc as [Hne Hc]. split; [by exists set | by intros [_ ->]].
        -- split; [by exists set' | by intros [-> _]].
      * intros [(set' & Hs & Hc) Hn]. destruct (decide (key' = key)) as [-> |].
        -- assert (set' = set) as -> by congruence. exists (set_remove s set). split; [by left |].
           apply in_remove. split; [| done]. intros ->. by apply Hn.
        -- exists set'. split; [by right | done].
  - split; [| by intros [? _]]. intros (set & Hs & Hc). split; [by exists set |]. intros [-> _]. congruence.
Qed.

Lemma named_remove index p key s p' key' s' :
  named_by (remove_partitioned_name index p key s) p' key' s' <->
  named_by index p' key' s' /\ ~ (p' = p /\ key' = key /\ s' = s).
Proof using RL.
  unfold remove_partitioned_name, named_by. destruct (index !! p) as [names |] eqn:Hp.
  2: { split; [| by intros [? _]]. intros (names & set & Hn & Hrest). split; [by exists names, set |]. intros [-> _]. congruence. }
  pose proof (remove_name_spec names key s key' s') as Hspec. case_bool_decide as He.
  - rewrite He in Hspec. setoid_rewrite lookup_delete_Some. split.
    + intros (names' & set & [Hne Hn] & Hs). split; [by exists names', set | by intros [-> _]].
    + intros [(names' & set & Hn & Hs) Hno]. exists names', set. split; [| done]. split; [| done]. intros <-.
      assert (names' = names) as -> by congruence. destruct (proj2 Hspec) as (set' & Hset & _).
      * split; [by exists set |]. intros [-> ->]. by apply Hno.
      * by rewrite lookup_empty in Hset.
  - setoid_rewrite lookup_insert_Some. split.
    + intros (names' & set & [[<- <-] | [Hne Hn]] & Hs).
      * destruct (proj1 Hspec) as [(set' & Hs') Hno]; [by exists set |]. split; [by exists names, set' | naive_solver].
      * split; [by exists names', set | by intros [-> _]].
    + intros [(names' & set & Hn & Hs) Hno]. destruct (decide (p' = p)) as [-> |].
      * assert (names' = names) as -> by congruence. destruct (proj2 Hspec) as (set' & Hs').
        -- split; [by exists set | naive_solver].
        -- exists (remove_name names key s), set'. split; [by left | done].
      * exists names', set. split; [by right | done].
Qed.

Lemma tidy_remove index p key s : tidy index -> tidy (remove_partitioned_name index p key s).
Proof using RL.
  intros Ht. unfold remove_partitioned_name. destruct (index !! p) as [names |] eqn:Hp; [| done].
  case_bool_decide as He; intros p' names' Hn.
  - apply lookup_delete_Some in Hn as [_ Hn]. by eapply Ht.
  - apply lookup_insert_Some in Hn as [[<- <-] | [_ Hn]]; [| by eapply Ht]. split; [done |].
    intros key' set Hs. unfold remove_name in Hs. destruct (names !! key) as [old |] eqn:Hk; [| by eapply (Ht p)].
    destruct (set_is_empty (set_remove s old)) eqn:Hempty.
    + apply lookup_delete_Some in Hs as [_ Hs]. by eapply (Ht p).
    + apply lookup_insert_Some in Hs as [[<- <-] | [_ Hs]]; [| by eapply (Ht p)].
      apply not_true_iff_false in Hempty. unfold set_is_empty in Hempty. rewrite bm_is_empty_iter in Hempty.
      destruct (bm_iter (set_remove s old)) as [| x l] eqn:Hi; [done |]. exists x. apply bm_iter_contains. rewrite Hi. by left.
Qed.

(** Two tidy indexes that name the same symbols have the same partitions and keys. *)
Lemma tidy_lookup index p key : tidy index ->
  match names ← index !! p; names !! key with
  | Some set => (exists s, set_contains set s = true) /\ forall s, set_contains set s = true <-> named_by index p key s
  | None => forall s, ~ named_by index p key s
  end.
Proof using.
  intros Ht. unfold named_by. destruct (index !! p) as [names |] eqn:Hp; cbn; [| by intros s (? & ? & ? & _)].
  destruct (names !! key) as [set |] eqn:Hk; [| intros s (? & ? & [= <-] & ? & _); congruence].
  split; [by eapply (Ht p) |]. intros s. split; [by exists names, set | intros (? & ? & [= <-] & ? & ?); congruence].
Qed.
End names.

(** ** Entries: candidate definitions with their ordinal *)

Record Entry : Set := mk_entry {
  en_file : nat;
  en_def : nat;
  en_rec : CodeGraph.DefRecord;
  en_lang : Lang.t;
  en_symbol : N
}.

Definition mon (e : Entry) : Moniker.t := CodeGraph.moniker (en_rec e).
Definition en_cand (e : Entry) : LinkageCandidate := cand (en_file e) (en_rec e).
Definition en_keys (e : Entry) : list bytes := keys (en_cand e).
Definition en_location (e : Entry) : N * N := (Lines.as_u32 (en_file e), Lines.as_u32 (en_def e)).

(** The candidates of a file, and of the files, with the ordinals of a catalog of symbols. *)
Definition entry_at (symbols : SymbolOrdinalCatalog) (file : IndexedFile) (e : Entry) : Prop :=
  CodeGraph.defs (graph file) !! en_def e = Some (en_rec e) /\ en_lang e = lang file /\ is_cand (en_rec e) = true /\
  ordinal symbols (identity_symbol_id (en_file e) (en_def e)) = Some (en_symbol e).

Definition entry_of (symbols : SymbolOrdinalCatalog) (files : list IndexedFile) (e : Entry) : Prop :=
  exists file, files !! en_file e = Some file /\ entry_at symbols file e.

Lemma entry_at_eq symbols file e e' : entry_at symbols file e -> entry_at symbols file e' ->
  en_file e = en_file e' -> en_def e = en_def e' -> e = e'.
Proof.
  destruct e as [f d r l o], e' as [f' d' r' l' o']. intros (Hr & Hl & _ & Ho) (Hr' & Hl' & _ & Ho'). cbn in *. intros -> ->. congruence.
Qed.

Lemma entry_of_eq symbols files e e' : entry_of symbols files e -> entry_of symbols files e' ->
  en_file e = en_file e' -> en_def e = en_def e' -> e = e'.
Proof.
  intros (file & Hf & H) (file' & Hf' & H') Heq. rewrite <- Heq in Hf'. assert (file' = file) as -> by congruence.
  by eapply entry_at_eq.
Qed.

(** Files whose positions fit 32 bits and whose monikers are well formed. *)
Definition file_ok (file : IndexedFile) : Prop :=
  Forall (fun def => CodeGraph.valid_moniker (CodeGraph.moniker def)) (CodeGraph.defs (graph file)) /\
  narrow (length (CodeGraph.defs (graph file))).

Definition files_ok (files : list IndexedFile) : Prop := Forall file_ok files /\ narrow (length files).

Lemma as_u32_narrow n : narrow n -> Lines.as_u32 n = N.of_nat n.
Proof. intros H. unfold Lines.as_u32. by apply N.mod_small. Qed.

Lemma identity_inj f d f' d' : narrow f -> narrow d -> narrow f' -> narrow d' ->
  identity_symbol_id f d = identity_symbol_id f' d' -> f = f' /\ d = d'.
Proof.
  intros ? ? ? ?. unfold identity_symbol_id, symbol_at. rewrite !as_u32_narrow by done. intros [= Hf Hd]. split; lia.
Qed.

Lemma entry_narrow symbols files e : files_ok files -> entry_of symbols files e -> narrow (en_file e) /\ narrow (en_def e).
Proof.
  intros [Hf Hn] (file & Hfile & Hd & _). split.
  - eapply narrow_le; [exact Hn |]. apply Nat.lt_le_incl, lookup_lt_is_Some_1. by exists file.
  - rewrite Forall_forall in Hf. destruct (Hf file) as [_ Hw]; [by eapply list_elem_of_lookup_2 |].
    eapply narrow_le; [exact Hw |]. apply Nat.lt_le_incl, lookup_lt_is_Some_1. by eexists.
Qed.

Lemma entry_valid symbols files e : files_ok files -> entry_of symbols files e -> CodeGraph.valid_moniker (mon e).
Proof.
  intros [Hf _] (file & Hfile & Hd & _). rewrite Forall_forall in Hf.
  destruct (Hf file) as [Hv _]; [by eapply list_elem_of_lookup_2 |]. rewrite Forall_forall in Hv.
  apply Hv. by eapply list_elem_of_lookup_2.
Qed.

Lemma entry_symbol symbols files e e' : catalog_ok symbols -> files_ok files ->
  entry_of symbols files e -> entry_of symbols files e' -> en_symbol e = en_symbol e' -> e = e'.
Proof.
  intros Hc Hf He He' Heq. pose proof (entry_narrow _ _ _ Hf He) as [Hn1 Hn2]. pose proof (entry_narrow _ _ _ Hf He') as [Hn1' Hn2'].
  assert (identity_symbol_id (en_file e) (en_def e) = identity_symbol_id (en_file e') (en_def e')) as Hid.
  { destruct He as (file & _ & _ & _ & _ & Ho), He' as (file' & _ & _ & _ & _ & Ho'). rewrite Heq in Ho.
    apply (cat_bij _ Hc) in Ho, Ho'. congruence. }
  apply identity_inj in Hid as [? ?]; [| done..]. by eapply entry_of_eq.
Qed.

(** The column of a shard. *)
Definition column (symbols : SymbolOrdinalCatalog) (k : nat) (l : list CodeGraph.DefRecord) : list (option N) :=
  imap (fun d def => if is_cand def then ordinal symbols (identity_symbol_id k d) else None) l.

Lemma column_snoc symbols k l def : column symbols k (l ++ [def]) =
  column symbols k l ++ [if is_cand def then ordinal symbols (identity_symbol_id k (length l)) else None].
Proof. unfold column. rewrite imap_app. cbn. by rewrite Nat.add_0_r. Qed.

Section inv.
Context {R : Roaring} {RL : RoaringLaws R}.

(** The state in the middle of a refresh: [New] holds the entries that are in place
    for the new version, [Old] those that are left from the old one. The monikers are
    tracked when no two candidates share one ([D]). *)
Record Inv (D : Prop) (New Old : Entry -> Prop) (locations : gmap SymbolOrdinal (N * N)) (i : CandidateIndexes) : Prop := mk_inv {
  inv_symbol e e' : (New e \/ Old e) -> (New e' \/ Old e') -> en_symbol e = en_symbol e' -> e = e';
  inv_location s v : locations !! s = Some v <-> exists e, (New e \/ Old e) /\ en_symbol e = s /\ en_location e = v;
  inv_source f key s : named_by (by_source_name i) f key s <->
    exists e, (New e \/ Old e) /\ en_file e = f /\ key ∈ en_keys e /\ en_symbol e = s;
  inv_language l key s : named_by (by_language_name i) l key s <->
    exists e, (New e \/ Old e) /\ is_global_candidate (en_cand e) = true /\ Lang.ecosystem (en_lang e) = l /\
      key ∈ en_keys e /\ en_symbol e = s;
  inv_tidy : tidy (by_source_name i) /\ tidy (by_language_name i);
  inv_moniker m s : by_moniker i !! m = Some s -> exists e, (New e \/ Old e) /\ mon e = m /\ en_symbol e = s;
  inv_new : D -> forall e, New e -> by_moniker i !! mon e = Some (en_symbol e);
  inv_old : D -> forall e, Old e -> (forall e', New e' -> mon e' <> mon e) -> by_moniker i !! mon e = Some (en_symbol e)
}.

Lemma Inv_ext D (New Old New' Old' : Entry -> Prop) locations i : (forall e, New e <-> New' e) -> (forall e, Old e <-> Old' e) ->
  Inv D New Old locations i -> Inv D New' Old' locations i.
Proof using.
  intros HN HO [H1 H2 H3 H4 H5 H6 H7 H8]. split; repeat setoid_rewrite <- HN; repeat setoid_rewrite <- HO; done.
Qed.

Lemma Inv_empty D : Inv D (fun _ => False) (fun _ => False) ∅ (mk_indexes ∅ ∅ ∅).
Proof using.
  split.
  - by intros e e' [[] | []].
  - intros s v. rewrite lookup_empty. split; [done | by intros (e & [[] | []] & _)].
  - intros f key s. split; [by intros ?%named_empty | by intros (e & [[] | []] & _)].
  - intros l key s. split; [by intros ?%named_empty | by intros (e & [[] | []] & _)].
  - split; apply tidy_empty.
  - intros m s. cbn [by_moniker]. by rewrite lookup_empty.
  - by intros _ e [].
  - by intros _ e [].
Qed.

(** The two loops over the keys of a candidate. *)
Lemma push_keys (c : LinkageCandidate) (l : Lang.t) (symbol : SymbolOrdinal) ks : forall i,
  let i' := foldl (fun i key => mk_indexes (by_moniker i)
    (if is_global_candidate c then insert_partitioned_name (by_language_name i) l key symbol else by_language_name i)
    (insert_partitioned_name (by_source_name i) (k_source_file c) key symbol)) i ks in
  by_moniker i' = by_moniker i /\
  (tidy (by_source_name i) /\ tidy (by_language_name i) -> tidy (by_source_name i') /\ tidy (by_language_name i')) /\
  (forall f key s, named_by (by_source_name i') f key s <->
     named_by (by_source_name i) f key s \/ (f = k_source_file c /\ key ∈ ks /\ s = symbol)) /\
  (forall l' key s, named_by (by_language_name i') l' key s <->
     named_by (by_language_name i) l' key s \/ (is_global_candidate c = true /\ l' = l /\ key ∈ ks /\ s = symbol)).
Proof using RL.
  induction ks as [| k ks IH]; intros i; cbn [foldl]; cbv zeta in *.
  - split_and!; [done | done | |]; intros; setoid_rewrite elem_of_nil; tauto.
  - destruct (IH (mk_indexes (by_moniker i)
      (if is_global_candidate c then insert_partitioned_name (by_language_name i) l k symbol else by_language_name i)
      (insert_partitioned_name (by_source_name i) (k_source_file c) k symbol))) as (Hm & Ht & Hs & Hl).
    split_and!; [done | | |].
    + intros [Ht1 Ht2]. apply Ht. cbn. split; [by apply tidy_insert |]. destruct (is_global_candidate c); [by apply tidy_insert | done].
    + intros f key s. rewrite Hs. cbn. rewrite named_insert, elem_of_cons. tauto.
    + intros l' key s. rewrite Hl. cbn. rewrite elem_of_cons. destruct (is_global_candidate c); [rewrite named_insert |];
        intuition congruence.
Qed.

Lemma remove_keys (c : LinkageCandidate) (l : Lang.t) (symbol : SymbolOrdinal) ks : forall i,
  let i' := foldl (fun i key => mk_indexes (by_moniker i)
    (if is_global_candidate c then remove_partitioned_name (by_language_name i) l key symbol else by_language_name i)
    (remove_partitioned_name (by_source_name i) (k_source_file c) key symbol)) i ks in
  by_moniker i' = by_moniker i /\
  (tidy (by_source_name i) /\ tidy (by_language_name i) -> tidy (by_source_name i') /\ tidy (by_language_name i')) /\
  (forall f key s, named_by (by_source_name i') f key s <->
     named_by (by_source_name i) f key s /\ ~ (f = k_source_file c /\ key ∈ ks /\ s = symbol)) /\
  (forall l' key s, named_by (by_language_name i') l' key s <->
     named_by (by_language_name i) l' key s /\ ~ (is_global_candidate c = true /\ l' = l /\ key ∈ ks /\ s = symbol)).
Proof using RL.
  induction ks as [| k ks IH]; intros i; cbn [foldl]; cbv zeta in *.
  - split_and!; [done | done | |]; intros; setoid_rewrite elem_of_nil; tauto.
  - destruct (IH (mk_indexes (by_moniker i)
      (if is_global_candidate c then remove_partitioned_name (by_language_name i) l k symbol else by_language_name i)
      (remove_partitioned_name (by_source_name i) (k_source_file c) k symbol))) as (Hm & Ht & Hs & Hl).
    split_and!; [done | | |].
    + intros [Ht1 Ht2]. apply Ht. cbn. split; [by apply tidy_remove |]. destruct (is_global_candidate c); [by apply tidy_remove | done].
    + intros f key s. rewrite Hs. cbn. rewrite named_remove, elem_of_cons. tauto.
    + intros l' key s. rewrite Hl. cbn. rewrite elem_of_cons. destruct (is_global_candidate c); [rewrite named_remove; tauto |].
      intuition congruence.
Qed.

(** A new entry is put in place. *)
Lemma Inv_push D New Old locations i e : CodeGraph.valid_moniker (mon e) ->
  (forall e', New e' \/ Old e' -> en_symbol e' <> en_symbol e) -> (D -> forall e', New e' -> mon e' <> mon e) ->
  Inv D New Old locations i ->
  exists i', push_candidate (E:=E) i (en_lang e) (en_symbol e) (en_cand e) = Ok i' /\
    Inv D (fun e' => New e' \/ e' = e) Old (<[en_symbol e := en_location e]> locations) i'.
Proof using RL.
  intros Hv Hfresh Hd [H1 H2 H3 H4 H5 H6 H7 H8]. unfold push_candidate.
  assert (candidate_keys (E:=E) (en_cand e) = Ok (en_keys e)) as -> by by apply keys_Ok.
  rewrite ret_bind. destruct (cand_Ok (en_file e) (en_rec e) Hv) as (_ & Hm & Hf).
  change (cand (en_file e) (en_rec e)) with (en_cand e) in *.
  eexists. split; [reflexivity |].
  destruct (push_keys (en_cand e) (Lang.ecosystem (en_lang e)) (en_symbol e) (en_keys e)
    (mk_indexes (<[k_moniker (en_cand e) := en_symbol e]> (by_moniker i)) (by_language_name i) (by_source_name i)))
    as (Hmon & Ht & Hs & Hl). cbv zeta in *. cbn in Hmon, Ht, Hs, Hl. rewrite Hf in *. rewrite Hm in *.
  change (CodeGraph.moniker (en_rec e)) with (mon e) in *. split.
  - assert (forall e', ((New e' \/ e' = e) \/ Old e') <-> (New e' \/ Old e') \/ e' = e) as Hiff by tauto.
    intros e1 e2. rewrite !Hiff. intros [He1 | ->] [He2 | ->] Heq; [by apply H1 | | | done]; exfalso.
    + by apply (Hfresh e1).
    + by apply (Hfresh e2).
  - intros s v. rewrite lookup_insert_Some, H2. split.
    + intros [[<- <-] | [Hne (e' & He & <- & <-)]]; [exists e; tauto | exists e'; tauto].
    + intros (e' & [[He | ->] | He] & <- & <-); [right | by left | right]; (split; [| exists e'; tauto]);
        intros Heq; (apply (Hfresh e'); [tauto | congruence]).
  - intros f key s. rewrite Hs, H3. split.
    + intros [(e' & He & Hrest) | (-> & Hk & ->)]; [exists e'; tauto | exists e; tauto].
    + intros (e' & [[He | ->] | He] & <- & Hk & <-); [left; exists e'; tauto | by right | left; exists e'; tauto].
  - intros l key s. rewrite Hl, H4. split.
    + intros [(e' & He & Hrest) | (Hg & -> & Hk & ->)]; [exists e'; tauto | exists e; tauto].
    + intros (e' & [[He | ->] | He] & Hg & <- & Hk & <-); [left; exists e'; tauto | by right | left; exists e'; tauto].
  - by apply Ht.
  - intros m s. rewrite Hmon, lookup_insert_Some. intros [[<- <-] | [_ Hlook]]; [exists e; tauto |].
    apply H6 in Hlook as (e' & He & Hrest). exists e'. tauto.
  - intros HD e' [He | ->]; rewrite Hmon; [| apply lookup_insert_eq].
    rewrite lookup_insert_ne by (intros Heq; by apply (Hd HD e' He)). by apply H7.
  - intros HD e' He Hno. rewrite Hmon. rewrite lookup_insert_ne by (intros Heq; apply (Hno e); tauto).
    apply H8; [done.. |]. intros e'' He''. apply Hno. tauto.
Qed.

(** An old entry is taken away. *)
Lemma Inv_remove D New Old locations i e : CodeGraph.valid_moniker (mon e) -> Old e -> ~ New e ->
  (D -> forall e', Old e' -> mon e' = mon e -> e' = e) -> Inv D New Old locations i ->
  exists i', remove_candidate (E:=E) i (en_lang e) (en_symbol e) (en_cand e) = Ok i' /\
    Inv D New (fun e' => Old e' /\ e' <> e) (delete (en_symbol e) locations) i'.
Proof using RL.
  intros Hv HO HN Hd [H1 H2 H3 H4 H5 H6 H7 H8]. unfold remove_candidate.
  assert (candidate_keys (E:=E) (en_cand e) = Ok (en_keys e)) as -> by by apply keys_Ok.
  rewrite ret_bind. destruct (cand_Ok (en_file e) (en_rec e) Hv) as (_ & Hm & Hf).
  change (cand (en_file e) (en_rec e)) with (en_cand e) in *.
  assert (forall e', (New e' \/ (Old e' /\ e' <> e)) <-> (New e' \/ Old e') /\ en_symbol e' <> en_symbol e) as Hothers.
  { intros e'. split.
    - intros [He | [He Hne]]; (split; [tauto |]); intros Heq; (apply H1 in Heq; [congruence | tauto | tauto]).
    - intros [[He | He] Hne]; [by left |]. right. split; [done | by intros ->]. }
  eexists. split; [reflexivity |].
  set (monikers := if bool_decide (by_moniker i !! k_moniker (en_cand e) = Some (en_symbol e)) then _ else _).
  destruct (remove_keys (en_cand e) (Lang.ecosystem (en_lang e)) (en_symbol e) (en_keys e)
    (mk_indexes monikers (by_language_name i) (by_source_name i))) as (Hmon & Ht & Hs & Hl).
  cbv zeta in *. cbn in Hmon, Ht, Hs, Hl. rewrite Hf in *.
  assert (forall m s, monikers !! m = Some s <-> by_moniker i !! m = Some s /\ ~ (m = mon e /\ s = en_symbol e)) as Hmonikers.
  { intros m s. unfold monikers. rewrite Hm. change (CodeGraph.moniker (en_rec e)) with (mon e). case_bool_decide as Hb.
    - rewrite lookup_delete_Some. split; [intros [Hne Hlook]; split; [done | by intros [-> _]] |].
      intros [Hlook Hno]. split; [| done]. intros <-. apply Hno. split; [done | congruence].
    - split; [| by intros [? _]]. intros Hlook. split; [done |]. intros [-> ->]. done. }
  split.
  - intros e1 e2. rewrite !Hothers. intros [? _] [? _]. by apply H1.
  - intros s v. rewrite lookup_delete_Some, H2. setoid_rewrite Hothers. split.
    + intros [Hne (e' & He & <- & <-)]. exists e'. split_and!; done.
    + intros (e' & [He Hne] & <- & <-). split; [by intros ? | by exists e'].
  - intros f key s. rewrite Hs, H3. setoid_rewrite Hothers. split.
    + intros [(e' & He & <- & Hk & <-) Hno]. exists e'. split_and!; try done. intros Heq. apply Hno.
      assert (e' = e) as -> by (apply H1; [done | tauto | done]). done.
    + intros (e' & [He Hne] & <- & Hk & <-). split; [by exists e' | by intros (_ & _ & ?)].
  - intros l key s. rewrite Hl, H4. setoid_rewrite Hothers. split.
    + intros [(e' & He & Hg & <- & Hk & <-) Hno]. exists e'. split_and!; try done. intros Heq. apply Hno.
      assert (e' = e) as -> by (apply H1; [done | tauto | done]). done.
    + intros (e' & [He Hne] & Hg & <- & Hk & <-). split; [by exists e' | by intros (_ & _ & _ & ?)].
  - by apply Ht.
  - intros m s. rewrite Hmon, Hmonikers. setoid_rewrite Hothers. intros [(e' & He & <- & <-)%H6 Hno]. exists e'.
    split; [| done]. split; [done |]. intros Heq. apply Hno. assert (e' = e) as -> by (apply H1; [done | tauto | done]). done.
  - intros HD e' He. rewrite Hmon. apply Hmonikers. split; [by apply H7 |]. intros [_ Heq].
    assert (e' = e) as -> by (apply H1; [tauto | tauto | done]). done.
  - intros HD e' [He Hne] Hno. rewrite Hmon. apply Hmonikers. split; [by apply H8 |]. intros [Heq _].
    apply Hne. by apply Hd.
Qed.

(** An entry that did not change passes from the old version to the new one. *)
Lemma Inv_move (D : Prop) New Old locations i k :
  (D -> forall e e', Old e -> en_file e = k -> New e' -> mon e' <> mon e) ->
  Inv D New Old locations i ->
  Inv D (fun e => New e \/ (Old e /\ en_file e = k)) (fun e => Old e /\ en_file e <> k) locations i.
Proof using.
  intros Hd [H1 H2 H3 H4 H5 H6 H7 H8].
  assert (forall e, ((New e \/ (Old e /\ en_file e = k)) \/ (Old e /\ en_file e <> k)) <-> New e \/ Old e) as Hiff.
  { intros e. destruct (decide (en_file e = k)); tauto. }
  split; repeat setoid_rewrite Hiff; try done.
  - intros HD e [He | [He Hk]]; [by apply H7 |]. apply H8; [done.. |]. intros e' He'. by eapply Hd.
  - intros HD e [He Hk] Hno. apply H8; [done.. |]. intros e' He'. apply Hno. by left.
Qed.

Lemma Inv_swap D New locations i :
  Inv D New (fun _ => False) locations i -> Inv D (fun _ => False) New locations i.
Proof using.
  intros [H1 H2 H3 H4 H5 H6 H7 H8].
  assert (forall e, False \/ New e <-> New e \/ False) as Hiff by tauto.
  split; repeat setoid_rewrite Hiff; try done. intros HD e He _. by apply H7.
Qed.

(** ** Indexing and unindexing a file *)

Lemma index_loop D New Old symbols k file catalog l : forall rest,
  l ++ rest = CodeGraph.defs (graph file) -> file_ok file -> c_symbols catalog = symbols ->
  (forall e e', entry_at symbols file e -> en_file e = k -> New e' \/ Old e' -> en_symbol e' <> en_symbol e) ->
  (forall e e', entry_at symbols file e -> en_file e = k -> entry_at symbols file e' -> en_file e' = k ->
     en_symbol e = en_symbol e' -> e = e') ->
  (D -> forall e e', entry_at symbols file e -> en_file e = k -> New e' -> mon e' <> mon e) ->
  (D -> forall e e', entry_at symbols file e -> en_file e = k -> entry_at symbols file e' -> en_file e' = k ->
     mon e = mon e' -> e = e') ->
  Inv D New Old (c_locations catalog) (c_indexes catalog) ->
  exists catalog', fold_res (index_def (E:=E) k file)
      (catalog, replicate (length (CodeGraph.defs (graph file))) None) (imap pair l) =
      Ok (catalog', column symbols k l ++ replicate (length rest) None) /\
    c_files catalog' = c_files catalog /\ c_symbols catalog' = symbols /\
    Inv D (fun e => New e \/ (entry_at symbols file e /\ en_file e = k /\ en_def e < length l)) Old
      (c_locations catalog') (c_indexes catalog').
Proof using RL.
  induction l as [| def l IH] using rev_ind; intros rest Hl Hok Hsym Hfresh Hinj Hd1 Hd2 Hinv.
  { exists catalog. cbn in Hl. rewrite <- Hl. split; [done |]. split; [done |]. split; [done |].
    eapply Inv_ext; [| | exact Hinv]; [| done]. intros e. cbn. split; [by left | intros [? | (_ & _ & ?)]; [done | lia]]. }
  rewrite <- app_assoc in Hl. cbn in Hl. destruct (IH (def :: rest) Hl Hok Hsym Hfresh Hinj Hd1 Hd2 Hinv)
    as (c & Hc & Hfiles & Hsyms & Hi). clear IH.
  assert (CodeGraph.defs (graph file) !! length l = Some def) as Hdef.
  { rewrite <- Hl, lookup_app_r by done. by rewrite Nat.sub_diag. }
  assert (CodeGraph.valid_moniker (CodeGraph.moniker def)) as Hv.
  { destruct Hok as [Hv _]. rewrite Forall_forall in Hv. apply Hv. by eapply list_elem_of_lookup_2. }
  assert (length (column symbols k l) = length l) as Hlen by apply length_imap.
  assert (forall e, entry_at symbols file e /\ en_file e = k /\ en_def e < length (l ++ [def]) <->
    (entry_at symbols file e /\ en_file e = k /\ en_def e < length l) \/
    (entry_at symbols file e /\ en_file e = k /\ en_def e = length l)) as Hsplit.
  { intros e. rewrite length_app. cbn. split; [intros (? & ? & ?) | intros [(? & ? & ?) | (? & ? & ?)]]; try (split_and!; [done.. | lia]).
    destruct (decide (en_def e = length l)); [by right | left; split_and!; [done.. | lia]]. }
  rewrite imap_pair_snoc, fold_res_app, Hc. cbn [mbind res_bind fold_res]. unfold index_def at 1.
  rewrite (is_cand_Ok def Hv), ret_bind, Hsyms, column_snoc. cbn [length replicate].
  destruct (is_cand def) eqn:Hcand; cbn [negb].
  - destruct (ordinal symbols (identity_symbol_id k (length l))) as [symbol |] eqn:Ho.
    + rewrite length_app, Hlen. destruct (_ <=? _) eqn:Hle; [apply Nat.leb_le in Hle; cbn in Hle; lia |].
      set (e := mk_entry k (length l) def (lang file) symbol).
      assert (entry_at symbols file e) as He by done.
      destruct (cand_Ok k def Hv) as (Hk & _). rewrite Hk, ret_bind.
      assert (forall e', (New e' \/ (entry_at symbols file e' /\ en_file e' = k /\ en_def e' < length l)) \/ Old e' ->
        en_symbol e' <> en_symbol e) as Hs.
      { intros e' [[He' | (He' & Hk' & Hlt)] | He'];
          [apply (Hfresh e e' He eq_refl); by left | | apply (Hfresh e e' He eq_refl); by right].
        intros Heq. assert (e' = e) as -> by by apply Hinj. cbn in Hlt. lia. }
      assert (D -> forall e', New e' \/ (entry_at symbols file e' /\ en_file e' = k /\ en_def e' < length l) ->
        mon e' <> mon e) as Hm.
      { intros HD e' [He' | (He' & Hk' & Hlt)]; [by apply (Hd1 HD e e' He eq_refl) |]. intros Heq.
        assert (e' = e) as -> by by apply Hd2. cbn in Hlt. lia. }
      destruct (Inv_push D _ _ _ _ e Hv Hs Hm Hi) as (i' & Hpush & Hi').
      unfold e in Hpush. cbn in Hpush. unfold en_cand in Hpush. cbn in Hpush. rewrite Hpush, ret_bind. cbn [fold_res mret res_ret mbind res_bind].
      eexists. split; [repeat f_equal |].
      { rewrite insert_app_r_alt by lia. rewrite Hlen, Nat.sub_diag. cbn. by rewrite <- app_assoc. }
      cbn. split; [done |]. split; [done |]. eapply Inv_ext; [| | exact Hi']; [| done]. intros e'. rewrite Hsplit. cbn.
      split; [intros [[? | ?] | ->]; tauto |]. intros [? | [? | (He' & Hk' & Hd')]]; [tauto.. |]. right.
      by eapply entry_at_eq.
    + cbn. exists c. split; [by rewrite <- app_assoc |]. split; [done |]. split; [done |].
      eapply Inv_ext; [| | exact Hi]; [| done]. intros e. rewrite Hsplit. split; [tauto |].
      intros [? | [? | ((_ & _ & _ & He) & Hk & Hd)]]; [tauto.. |]. rewrite Hk, Hd in He. congruence.
  - cbn. exists c. split; [by rewrite <- app_assoc |]. split; [done |]. split; [done |].
    eapply Inv_ext; [| | exact Hi]; [| done]. intros e. rewrite Hsplit. split; [tauto |].
    intros [? | [? | ((Hd' & _ & He & _) & Hk & Hd)]]; [tauto.. |]. rewrite Hd in Hd'. congruence.
Qed.
Lemma unindex_loop D New Old symbols k shard catalog l : forall rest,
  l ++ rest = CodeGraph.defs (graph (sh_file shard)) -> file_ok (sh_file shard) ->
  (forall e, entry_at symbols (sh_file shard) e -> en_file e = k -> Old e /\ ~ New e) ->
  (D -> forall e e', Old e -> Old e' -> mon e = mon e' -> e = e') ->
  Inv D New Old (c_locations catalog) (c_indexes catalog) ->
  exists catalog', fold_res (unindex_def (E:=E) k shard) catalog (imap pair (column symbols k l)) = Ok catalog' /\
    c_files catalog' = c_files catalog /\ c_symbols catalog' = c_symbols catalog /\
    Inv D New (fun e => Old e /\ ~ (entry_at symbols (sh_file shard) e /\ en_file e = k /\ en_def e < length l))
      (c_locations catalog') (c_indexes catalog').
Proof using RL.
  induction l as [| def l IH] using rev_ind; intros rest Hl Hok Hold Hd Hinv.
  { exists catalog. split; [done |]. split; [done |]. split; [done |]. eapply Inv_ext; [| | exact Hinv]; [done |].
    intros e. cbn. split; [intros ?; split; [done | intros (_ & _ & ?); lia] | by intros [? _]]. }
  rewrite <- app_assoc in Hl. cbn in Hl. destruct (IH (def :: rest) Hl Hok Hold Hd Hinv) as (c & Hc & Hfiles & Hsyms & Hi). clear IH.
  assert (CodeGraph.defs (graph (sh_file shard)) !! length l = Some def) as Hdef.
  { rewrite <- Hl, lookup_app_r by done. by rewrite Nat.sub_diag. }
  assert (CodeGraph.valid_moniker (CodeGraph.moniker def)) as Hv.
  { destruct Hok as [Hv _]. rewrite Forall_forall in Hv. apply Hv. by eapply list_elem_of_lookup_2. }
  assert (length (column symbols k l) = length l) as Hlen by apply length_imap.
  set (file := sh_file shard) in *.
  assert (forall e, (Old e /\ ~ (entry_at symbols file e /\ en_file e = k /\ en_def e < length l)) /\
      ~ (entry_at symbols file e /\ en_file e = k /\ en_def e = length l) <->
    Old e /\ ~ (entry_at symbols file e /\ en_file e = k /\ en_def e < length (l ++ [def]))) as Hsplit.
  { intros e. rewrite length_app. cbn. split.
    - intros [[HO Hn1] Hn2]. split; [done |]. intros (He & Hk & Hlt). destruct (decide (en_def e = length l)); [by apply Hn2 |].
      apply Hn1. split_and!; [done.. | lia].
    - intros [HO Hn]. split; [split; [done |] |]; intros (He & Hk & Hlt); apply Hn; split_and!; try done; lia. }
  rewrite column_snoc, imap_pair_snoc, fold_res_app, Hc, Hlen. cbn [mbind res_bind fold_res]. unfold unindex_def at 1. fold file.
  destruct (if is_cand def then _ else None) as [symbol |] eqn:Ho.
  - destruct (is_cand def) eqn:Hcand; [| done].
    set (e := mk_entry k (length l) def (lang file) symbol).
    assert (entry_at symbols file e) as He by done.
    assert (CodeGraph.def_at (E:=E) (graph file) (length l) = Ok def) as -> by (unfold CodeGraph.def_at; by rewrite Hdef).
    rewrite ret_bind. destruct (cand_Ok k def Hv) as (Hk & _). rewrite Hk, ret_bind.
    destruct (Hold e He eq_refl) as [HO HN].
    assert (Old e /\ ~ (entry_at symbols file e /\ en_file e = k /\ en_def e < length l)) as HOld.
    { split; [done |]. intros (_ & _ & Hlt). cbn in Hlt. lia. }
    assert (D -> forall e', Old e' /\ ~ (entry_at symbols file e' /\ en_file e' = k /\ en_def e' < length l) ->
      mon e' = mon e -> e' = e) as HdOld.
    { intros HD e' [HO' _] Hm. by apply Hd. }
    destruct (Inv_remove D New _ _ _ e Hv HOld HN HdOld Hi) as (i' & Hremove & Hi').
    unfold e in Hremove. cbn in Hremove. unfold en_cand in Hremove. cbn in Hremove. rewrite Hremove, ret_bind.
    eexists. split; [reflexivity |]. cbn. split; [done |]. split; [done |]. eapply Inv_ext; [done | | exact Hi'].
    intros e'. rewrite <- Hsplit. split.
    + intros [HO' Hne]. split; [done |]. intros (He' & Hk' & Hd'). apply Hne. by eapply entry_at_eq.
    + intros [HO' Hne]. split; [done |]. intros ->. by apply Hne.
  - exists c. split; [done |]. split; [done |]. split; [done |]. eapply Inv_ext; [done | | exact Hi]. intros e.
    rewrite <- Hsplit. split; [| by intros [? _]]. intros HO. split; [done |]. intros ((Hd' & _ & He & Ho') & Hk & Hd'').
    rewrite Hd'' in Hd', Ho'. rewrite Hk in Ho'. assert (en_rec e = def) as Heq by congruence. rewrite Heq in He.
    rewrite He in Ho. congruence.
Qed.
(** ** A file, a refresh, a history *)

Definition shard_of (symbols : SymbolOrdinalCatalog) (k : nat) (file : IndexedFile) : CandidateFileShard :=
  mk_shard file (column symbols k (CodeGraph.defs (graph file))).

Lemma entry_def_lt symbols file e : entry_at symbols file e -> en_def e < length (CodeGraph.defs (graph file)).
Proof using. intros (Hd & _). apply lookup_lt_is_Some_1. by eexists. Qed.

Lemma index_shard_spec (D : Prop) New Old symbols k file catalog :
  file_ok file -> c_symbols catalog = symbols ->
  (forall e e', entry_at symbols file e -> en_file e = k -> New e' \/ Old e' -> en_symbol e' <> en_symbol e) ->
  (forall e e', entry_at symbols file e -> en_file e = k -> entry_at symbols file e' -> en_file e' = k ->
     en_symbol e = en_symbol e' -> e = e') ->
  (D -> forall e e', entry_at symbols file e -> en_file e = k -> New e' -> mon e' <> mon e) ->
  (D -> forall e e', entry_at symbols file e -> en_file e = k -> entry_at symbols file e' -> en_file e' = k ->
     mon e = mon e' -> e = e') ->
  Inv D New Old (c_locations catalog) (c_indexes catalog) ->
  exists catalog', index_shard (E:=E) catalog k file = Ok (catalog', shard_of symbols k file) /\
    c_files catalog' = c_files catalog /\ c_symbols catalog' = symbols /\
    Inv D (fun e => New e \/ (entry_at symbols file e /\ en_file e = k)) Old (c_locations catalog') (c_indexes catalog').
Proof using RL.
  intros Hok Hs H1 H2 H3 H4 Hinv.
  destruct (index_loop D New Old symbols k file catalog (CodeGraph.defs (graph file)) [] (app_nil_r _) Hok Hs H1 H2 H3 H4 Hinv)
    as (c & Hc & Hf & Hsy & Hi).
  exists c. unfold index_shard, CodeGraph.def_count. rewrite Hc, ret_bind. cbn [length replicate]. rewrite app_nil_r.
  split; [done |]. split; [done |]. split; [done |]. eapply Inv_ext; [| done | exact Hi]. intros e. split.
  - intros [He | (He & Hk & _)]; tauto.
  - intros [He | [He Hk]]; [by left |]. right. split_and!; [done.. | by eapply entry_def_lt].
Qed.

Lemma unindex_shard_spec (D : Prop) New Old symbols k file catalog : file_ok file ->
  (forall e, entry_at symbols file e -> en_file e = k -> Old e /\ ~ New e) ->
  (forall e, Old e -> en_file e = k -> entry_at symbols file e) ->
  (D -> forall e e', Old e -> Old e' -> mon e = mon e' -> e = e') ->
  Inv D New Old (c_locations catalog) (c_indexes catalog) ->
  exists catalog', unindex_shard (E:=E) catalog k (shard_of symbols k file) = Ok catalog' /\
    c_files catalog' = c_files catalog /\ c_symbols catalog' = c_symbols catalog /\
    Inv D New (fun e => Old e /\ en_file e <> k) (c_locations catalog') (c_indexes catalog').
Proof using RL.
  intros Hok H1 H2 H3 Hinv.
  destruct (unindex_loop D New Old symbols k (shard_of symbols k file) catalog (CodeGraph.defs (graph file)) [] (app_nil_r _)
    Hok H1 H3 Hinv) as (c & Hc & Hf & Hsy & Hi).
  exists c. split; [exact Hc |]. split; [done |]. split; [done |]. eapply Inv_ext; [done | | exact Hi]. intros e. cbn. split.
  - intros [HO Hn]. split; [done |]. intros Hk. apply Hn. pose proof (H2 e HO Hk) as He. split_and!; [done.. | by eapply entry_def_lt].
  - intros [HO Hn]. split; [done |]. by intros (_ & ? & _).
Qed.

(** No two candidates of a version have the same moniker. *)
Definition distinct (symbols : SymbolOrdinalCatalog) (fs : list IndexedFile) : Prop :=
  forall e e', entry_of symbols fs e -> entry_of symbols fs e' -> mon e = mon e' -> e = e'.

(** What a version keeps of the previous one: files stay in place, those that are
    shared have kept their ordinals, and an ordinal does not change file. *)
Record keeps (symbols : SymbolOrdinalCatalog) (fs : list IndexedFile) (symbols' : SymbolOrdinalCatalog)
    (fs' : list IndexedFile) : Prop := mk_keeps {
  keeps_files : length fs <= length fs';
  keeps_shared k file file' : fs !! k = Some file -> fs' !! k = Some file' -> ptr_eq file file' = true ->
    file' = file /\ forall d, d < length (CodeGraph.defs (graph file)) ->
      ordinal symbols' (identity_symbol_id k d) = ordinal symbols (identity_symbol_id k d);
  keeps_place id id' s : ordinal symbols id = Some s -> ordinal symbols' id' = Some s -> id_file id' = id_file id
}.

(** The catalog holds the candidates of a version. *)
Record holds (D : Prop) (symbols : SymbolOrdinalCatalog) (fs : list IndexedFile) (c : CandidateCatalog) : Prop := mk_holds {
  holds_symbols : c_symbols c = symbols;
  holds_files : c_files c = imap (shard_of symbols) fs;
  holds_inv : Inv D (entry_of symbols fs) (fun _ => False) (c_locations c) (c_indexes c)
}.
Lemma entry_of_snoc symbols l file e : entry_of symbols (l ++ [file]) e <->
  entry_of symbols l e \/ (entry_at symbols file e /\ en_file e = length l).
Proof using.
  unfold entry_of. setoid_rewrite lookup_snoc_iff. split.
  - intros (f & [Hf | [Hk ->]] & He); [left; by exists f | by right].
  - intros [(f & Hf & He) | [He Hk]]; [exists f; tauto | exists file; tauto].
Qed.

Lemma entry_of_app symbols l l' e : entry_of symbols l e -> entry_of symbols (l ++ l') e.
Proof using. intros (f & Hf & He). exists f. split; [by apply lookup_app_l_Some | done]. Qed.

Lemma entry_of_at symbols fs k file e : fs !! k = Some file -> entry_at symbols file e -> en_file e = k -> entry_of symbols fs e.
Proof using. intros Hf He Hk. exists file. by rewrite Hk. Qed.

Lemma column_shared symbols symbols' k l : (forall d, d < length l ->
  ordinal symbols' (identity_symbol_id k d) = ordinal symbols (identity_symbol_id k d)) -> column symbols' k l = column symbols k l.
Proof using. intros H. apply imap_ext. intros d def Hd. by rewrite H by by eapply lookup_lt_Some. Qed.

Section step.
Context (D : Prop) (symbols0 symbols1 : SymbolOrdinalCatalog) (fs0 fs1 : list IndexedFile).
Hypotheses (Hok0 : files_ok fs0) (Hok1 : files_ok fs1) (Hcat1 : catalog_ok symbols1)
  (Hkeeps : keeps symbols0 fs0 symbols1 fs1)
  (Hd0 : D -> distinct symbols0 fs0) (Hd1 : D -> distinct symbols1 fs1).

(** The catalog after the files [l] of the new version. *)
Record between (l : list IndexedFile) (c : CandidateCatalog) : Prop := mk_between {
  bt_symbols : c_symbols c = symbols1;
  bt_files : c_files c = imap (shard_of symbols1) l ++ drop (length l) (imap (shard_of symbols0) fs0);
  bt_inv : Inv D (entry_of symbols1 l) (fun e => entry_of symbols0 fs0 e /\ length l <= en_file e) (c_locations c) (c_indexes c)
}.

(** The entries of the next file of the new version collide with none in place. *)
Lemma next_fresh l file rest e e' : l ++ file :: rest = fs1 -> entry_at symbols1 file e -> en_file e = length l ->
  entry_of symbols1 l e' \/ (entry_of symbols0 fs0 e' /\ length l < en_file e') -> en_symbol e' <> en_symbol e.
Proof using Hok0 Hok1 Hcat1 Hkeeps.
  intros Hl He Hk He' Heq. assert (entry_of symbols1 fs1 e) as He1.
  { eapply entry_of_at; [| done..]. by rewrite <- Hl, lookup_app_r, Nat.sub_diag by done. }
  destruct He' as [He' | [He' Hlt]].
  - assert (en_file e' < length l) as Hlt by (destruct He' as (f & Hf & _); by eapply lookup_lt_Some).
    assert (e' = e) as ->; [| lia]. eapply (entry_symbol symbols1 fs1); try done. rewrite <- Hl. by apply entry_of_app.
  - pose proof (entry_narrow _ _ _ Hok1 He1) as [Hn _]. pose proof (entry_narrow _ _ _ Hok0 He') as [Hn' _].
    destruct He' as (f & Hf & _ & _ & _ & Ho'), He as (_ & _ & _ & Ho). rewrite Heq in Ho'.
    pose proof (keeps_place _ _ _ _ Hkeeps _ _ _ Ho' Ho) as Hid. unfold id_file, identity_symbol_id, symbol_at in Hid. cbn in Hid.
    rewrite !as_u32_narrow in Hid by done. lia.
Qed.

Lemma push_next l file rest c : l ++ file :: rest = fs1 ->
  c_symbols c = symbols1 ->
  Inv D (entry_of symbols1 l) (fun e => entry_of symbols0 fs0 e /\ length l < en_file e) (c_locations c) (c_indexes c) ->
  exists c', index_shard (E:=E) c (length l) file = Ok (c', shard_of symbols1 (length l) file) /\ c_files c' = c_files c /\
    c_symbols c' = symbols1 /\
    Inv D (entry_of symbols1 (l ++ [file])) (fun e => entry_of symbols0 fs0 e /\ length (l ++ [file]) <= en_file e)
      (c_locations c') (c_indexes c').
Proof using RL Hok0 Hok1 Hcat1 Hkeeps Hd1.
  intros Hl Hs Hinv. assert (fs1 !! length l = Some file) as Hlook by (by rewrite <- Hl, lookup_app_r, Nat.sub_diag by done).
  assert (forall e, entry_at symbols1 file e -> en_file e = length l -> entry_of symbols1 fs1 e) as Hof.
  { intros e He Hk. by eapply entry_of_at. }
  assert (forall e, entry_of symbols1 l e -> entry_of symbols1 fs1 e) as Hl1.
  { intros e He. rewrite <- Hl. by apply entry_of_app. }
  destruct (index_shard_spec D (entry_of symbols1 l) (fun e => entry_of symbols0 fs0 e /\ length l < en_file e) symbols1 (length l) file c)
    as (c' & Hc & Hf & Hs' & Hi); try done.
  - destruct Hok1 as [Hf _]. rewrite Forall_forall in Hf. apply Hf. by eapply list_elem_of_lookup_2.
  - intros e e' He Hk He'. by eapply next_fresh.
  - intros e e' He Hk He' Hk' Heq. eapply (entry_symbol symbols1 fs1); try done; by apply Hof.
  - intros HD e e' He Hk He' Hm. assert (e' = e) as -> by (apply (Hd1 HD); [by apply Hl1 | by apply Hof | done]).
    destruct He' as (f & Hf%lookup_lt_Some & _). lia.
  - intros HD e e' He Hk He' Hk' Hm. apply (Hd1 HD); [by apply Hof | by apply Hof | done].
  - exists c'. split; [done |]. split; [done |]. split; [done |]. eapply Inv_ext; [| | exact Hi].
    + intros e. by rewrite entry_of_snoc.
    + intros e. rewrite length_app. cbn. split; (intros [? ?]; split; [done | lia]).
Qed.
Lemma shards_snoc l file rest0 : imap (shard_of symbols1) (l ++ [file]) ++ rest0 =
  imap (shard_of symbols1) l ++ shard_of symbols1 (length l) file :: rest0.
Proof using. rewrite imap_app. cbn. by rewrite Nat.add_0_r, <- app_assoc. Qed.

Lemma between_step l file rest c : l ++ file :: rest = fs1 -> between l c ->
  exists c', refresh_step (E:=E) c (length l, file) = Ok c' /\ between (l ++ [file]) c'.
Proof using RL Hok0 Hok1 Hcat1 Hkeeps Hd0 Hd1.
  intros Hl [Hs Hf Hi]. assert (fs1 !! length l = Some file) as Hlook by (by rewrite <- Hl, lookup_app_r, Nat.sub_diag by done).
  unfold refresh_step. cbn [fst snd]. rewrite Hf.
  assert (length (imap (shard_of symbols1) l) = length l) as Hlen by apply length_imap.
  rewrite lookup_app_r, Hlen, Nat.sub_diag, lookup_drop, Nat.add_0_r, list_lookup_imap by lia.
  destruct (fs0 !! length l) as [old |] eqn:Hold; cbn [fmap option_fmap option_map].
  2: { assert (length fs0 <= length l) as Hge by by apply lookup_ge_None_1.
    destruct (push_next l file rest c Hl Hs) as (c' & Hc & Hf' & Hs' & Hi').
    { eapply Inv_ext; [done | | exact Hi]. intros e. split; intros [He ?]; (split; [done |]); [| lia].
      destruct He as (f & He%lookup_lt_Some & _). lia. }
    eexists. split; [unfold push_file; by rewrite Hc |]. split; cbn; [done | | done].
    rewrite Hf', Hf, shards_snoc, !drop_ge by (rewrite ?length_imap, ?length_app; cbn; lia). by rewrite app_nil_r. }
  assert (drop (length l) (imap (shard_of symbols0) fs0) =
    shard_of symbols0 (length l) old :: drop (length (l ++ [file])) (imap (shard_of symbols0) fs0)) as Hdrop.
  { rewrite length_app, Nat.add_1_r. apply drop_S. by rewrite list_lookup_imap, Hold. }
  assert (forall e, entry_of symbols0 fs0 e -> en_file e = length l -> entry_at symbols0 old e) as Hat.
  { intros e (f & Hf' & He) Hk. rewrite Hk in Hf'. by simplify_eq. }
  destruct (ptr_eq _ _) eqn:Hptr; cbn [sh_file shard_of] in Hptr.
  - destruct (keeps_shared _ _ _ _ Hkeeps _ _ _ Hold Hlook Hptr) as [-> Hords].
    exists c. split; [done |]. split; [done | |].
    + rewrite Hf, Hdrop, shards_snoc. f_equal. f_equal. unfold shard_of. f_equal. symmetry. by apply column_shared.
    + eapply Inv_ext; [| | refine (Inv_move D _ _ _ _ (length l) _ Hi)].
      * intros e. rewrite entry_of_snoc. split; (intros [He | He]; [by left | right]).
        -- destruct He as [[He Hle] Hk]. split; [| done]. destruct (Hat e He Hk) as (? & ? & ? & Ho). split_and!; try done.
           rewrite Hk in *. rewrite Hords; [done | by eapply lookup_lt_Some].
        -- destruct He as [(Hd & ? & ? & Ho) Hk]. split; [split; [| lia] | done]. eapply entry_of_at; [done | | done].
           split_and!; try done. rewrite Hk in *. rewrite Hords in Ho; [done | by eapply lookup_lt_Some].
      * intros e. rewrite length_app. cbn. split; [intros [[? ?] ?]; split; [done | lia] | intros [? ?]; split; [split; [done | lia] | lia]].
      * intros HD e e' [He Hle] Hk He' Hm. destruct (Hat e He Hk) as (Hd & ? & ? & Ho).
        assert (e' = e) as ->; [| destruct He' as (f & Hf'%lookup_lt_Some & _); lia].
        apply (Hd1 HD); [rewrite <- Hl; by apply entry_of_app | | done]. eapply entry_of_at; [done | | done].
        split_and!; try done. rewrite Hk in *. rewrite Hords; [done | by eapply lookup_lt_Some].
  - unfold refresh_file. rewrite Hf, lookup_app_r, Hlen, Nat.sub_diag, lookup_drop, Nat.add_0_r, list_lookup_imap, Hold by lia.
    cbn [fmap option_fmap option_map]. set (c0 := mk_candidates _ _ _ _).
    destruct (unindex_shard_spec D (entry_of symbols1 l) (fun e => entry_of symbols0 fs0 e /\ length l <= en_file e)
      symbols0 (length l) old c0) as (c1 & Hc1 & Hf1 & Hs1 & Hi1); try done.
    + destruct Hok0 as [Hfs _]. rewrite Forall_forall in Hfs. apply Hfs. by eapply list_elem_of_lookup_2.
    + intros e He Hk. split; [split; [by eapply entry_of_at | lia] |]. intros (f & Hf'%lookup_lt_Some & _). lia.
    + intros e [He _] Hk. by apply Hat.
    + intros HD e e' [He _] [He' _]. by apply Hd0.
    + rewrite Hc1, ret_bind.
      destruct (push_next l file rest c1 Hl) as (c2 & Hc2 & Hf2 & Hs2 & Hi2); [by rewrite Hs1 | |].
      { eapply Inv_ext; [done | | exact Hi1]. intros e. split; [intros [[? ?] ?]; split; [done | lia] | intros [? ?]; split; [split; [done | lia] | lia]]. }
      rewrite Hc2, ret_bind. eexists. split; [reflexivity |]. split; cbn; [done | | done].
      rewrite Hf2, Hf1. unfold c0. cbn. rewrite Hdrop, shards_snoc, list_insert_insert_eq, insert_app_r_alt by lia.
      by rewrite Hlen, Nat.sub_diag.
Qed.

Lemma refresh_loop l : forall rest c, l ++ rest = fs1 -> between [] c ->
  exists c', fold_res (refresh_step (E:=E)) c (imap pair l) = Ok c' /\ between l c'.
Proof using RL Hok0 Hok1 Hcat1 Hkeeps Hd0 Hd1.
  induction l as [| file l IH] using rev_ind; intros rest c Hl Hb; [by exists c |].
  rewrite <- app_assoc in Hl. destruct (IH _ c Hl Hb) as (c1 & Hc1 & Hb1).
  destruct (between_step _ _ _ _ Hl Hb1) as (c2 & Hc2 & Hb2). exists c2. split; [| done].
  rewrite imap_pair_snoc, fold_res_app, Hc1. cbn [mbind res_bind fold_res]. by rewrite Hc2.
Qed.

Lemma refresh_files_spec c material : files material = fs1 -> holds D symbols0 fs0 c ->
  exists c', refresh_files (E:=E) c material symbols1 = Ok c' /\ holds D symbols1 fs1 c'.
Proof using RL Hok0 Hok1 Hcat1 Hkeeps Hd0 Hd1.
  intros Hfiles [Hs Hf Hi]. unfold refresh_files. rewrite Hfiles.
  destruct (refresh_loop fs1 [] (mk_candidates (c_files c) symbols1 (c_locations c) (c_indexes c)) (app_nil_r _))
    as (c' & Hc & [Hs' Hf' Hi']).
  - split; cbn; [done | done |]. eapply Inv_ext; [| | exact (Inv_swap D _ _ _ Hi)]; [| intros e; split; [intros He; split; [done | lia] | by intros [? _]]].
    intros e. split; [done | by intros (f & ? & _)].
  - exists c'. split; [exact Hc |]. split; [done | |].
    + rewrite Hf'. rewrite drop_ge; [by rewrite app_nil_r |]. rewrite length_imap. apply Hkeeps.
    + eapply Inv_ext; [done | | exact Hi']. intros e. split; [| done]. intros [(f & Hf0%lookup_lt_Some & _) Hle].
      pose proof (keeps_files _ _ _ _ Hkeeps). lia.
Qed.
End step.

(** A catalog that is built is one that is refreshed from nothing. *)
Lemma catalog_new_spec (D : Prop) symbols fs material : files_ok fs -> catalog_ok symbols -> files material = fs ->
  (D -> distinct symbols fs) ->
  exists c, catalog_new (E:=E) material symbols = Ok c /\ holds D symbols fs c.
Proof using RL.
  intros Hok Hcat Hfiles Hd.
  assert (keeps symbols [] symbols fs) as Hkeeps.
  { split; [cbn; lia | intros k file file' Hk; done |]. intros id id' s Hid Hid'. apply (cat_bij _ Hcat) in Hid, Hid'. congruence. }
  assert (files_ok []) as Hok0 by (split; [constructor | by eapply narrow_le; [exact (proj2 Hok) | cbn; lia]]).
  assert (D -> distinct symbols []) as Hd0 by (intros _ e e' (f & ? & _); done).
  assert (forall l rest, l ++ rest = fs -> exists c, fold_res (fun catalog p => push_file (E:=E) catalog p.1 p.2)
    (candidates_empty symbols) (imap pair l) = Ok c /\ between D symbols symbols [] l c) as Hloop.
  { induction l as [| file l IH] using rev_ind; intros rest Hl.
    - exists (candidates_empty symbols). split; [done |]. split; [done | done |]. eapply Inv_ext; [| | exact (Inv_empty D)].
      + intros e. split; [done | by intros (f & ? & _)].
      + intros e. split; [done | by intros [(f & ? & _) _]].
    - rewrite <- app_assoc in Hl. destruct (IH _ Hl) as (c & Hc & Hb).
      destruct (between_step D symbols symbols [] fs Hok0 Hok Hcat Hkeeps Hd0 Hd l file rest c Hl Hb) as (c' & Hc' & Hb').
      exists c'. split; [| done]. rewrite imap_pair_snoc, fold_res_app, Hc. cbn [mbind res_bind fold_res fst snd].
      destruct Hb as [_ Hf _]. unfold refresh_step in Hc'. cbn [fst snd] in Hc'. rewrite Hf in Hc'.
      change (imap (shard_of symbols) []) with (@nil CandidateFileShard) in Hc'. rewrite drop_nil, app_nil_r, lookup_ge_None_2 in Hc' by by rewrite length_imap. by rewrite Hc'. }
  destruct (Hloop fs [] (app_nil_r _)) as (c & Hc & [Hs Hf Hi]). exists c. unfold catalog_new. rewrite Hfiles. split; [done |].
  split; [done | | ].
  - rewrite Hf. change (imap (shard_of symbols) []) with (@nil CandidateFileShard). by rewrite drop_nil, app_nil_r.
  - eapply Inv_ext; [done | | exact Hi]. intros e. split; [by intros [(f & ? & _) _] | done].
Qed.
End inv.
End LinkCatalogFacts.

Module LinkCatalogTheorems.
Import Snapshot Inventory InventoryInv LinkIndexTheorems PathSets LinkMaterial LinkQuery LinkCatalog LinkCatalogFacts.

Section theorems.
Context {R : Roaring} {RL : RoaringLaws R}.

(** ** Histories *)

(** A version of the index: its material, and the ordinals of its symbols. *)
Record Version : Type := mk_version { v_material : CodeIndexMaterial; v_symbols : SymbolOrdinalCatalog }.

Definition v_files (v : Version) : list IndexedFile := files (v_material v).
Definition version_ok (v : Version) : Prop := files_ok (v_files v) /\ catalog_ok (v_symbols v).
Definition follows (v v' : Version) : Prop := keeps (v_symbols v) (v_files v) (v_symbols v') (v_files v').
Definition own_monikers (v : Version) : Prop := distinct (v_symbols v) (v_files v).

(** The version that ends a history. *)
Definition latest (v : Version) (vs : list Version) : Version := foldl (fun _ v' => v') v vs.

(** The catalog of the first version, refreshed with the others. *)
Definition catalog_after (v : Version) (vs : list Version) : res E CandidateCatalog :=
  catalog ← catalog_new (v_material v) (v_symbols v);
  fold_res (fun catalog v => refresh_files catalog (v_material v) (v_symbols v)) catalog vs.

Lemma refreshes_hold (D : Prop) vs : forall v c, Forall version_ok (v :: vs) -> Sorted follows (v :: vs) ->
  (D -> Forall own_monikers (v :: vs)) -> holds D (v_symbols v) (v_files v) c ->
  exists c', fold_res (fun catalog v => refresh_files (E:=E) catalog (v_material v) (v_symbols v)) c vs = Ok c' /\
    holds D (v_symbols (latest v vs)) (v_files (latest v vs)) c'.
Proof using RL.
  induction vs as [| v' vs IH]; intros v c Hok Hsorted Hd Hc; [by exists c |].
  apply Forall_cons in Hok as [[Hok _] Hoks]. assert (Hok' := Hoks). apply Forall_cons in Hok' as [[Hok' Hcat'] _].
  apply Sorted_inv in Hsorted as [Hsorted Hfollows]. apply HdRel_inv in Hfollows.
  assert (D -> own_monikers v /\ own_monikers v') as Hdd.
  { intros HD. specialize (Hd HD). by rewrite !Forall_cons in Hd; destruct Hd as (? & ? & _). }
  destruct (refresh_files_spec D (v_symbols v) (v_symbols v') (v_files v) (v_files v') Hok Hok' Hcat' Hfollows
    (fun HD => proj1 (Hdd HD)) (fun HD => proj2 (Hdd HD)) c (v_material v') eq_refl Hc) as (c1 & Hc1 & Hh1).
  cbn [fold_res]. rewrite Hc1. cbn [mbind res_bind]. destruct (IH v' c1 Hoks Hsorted) as (c' & Hc' & Hh'); [| done |].
  { intros HD. specialize (Hd HD). by apply Forall_cons in Hd as [_ ?]. }
  by exists c'.
Qed.

Lemma catalog_after_holds v vs : Forall version_ok (v :: vs) -> Sorted follows (v :: vs) ->
  exists c, catalog_after v vs = Ok c /\
    holds (Forall own_monikers (v :: vs)) (v_symbols (latest v vs)) (v_files (latest v vs)) c.
Proof using RL.
  intros Hok Hsorted. assert (Hok' := Hok). apply Forall_cons in Hok' as [[Hf Hcat] _].
  destruct (catalog_new_spec (Forall own_monikers (v :: vs)) (v_symbols v) (v_files v) (v_material v) Hf Hcat eq_refl) as (c & Hc & Hh).
  { intros HD. by apply Forall_cons in HD as [? _]. }
  destruct (refreshes_hold _ vs v c Hok Hsorted (fun HD => HD) Hh) as (c' & Hc' & Hh').
  exists c'. split; [| done]. unfold catalog_after. by rewrite Hc.
Qed.
(** ** What the catalog answers *)

(** The definition [d] of file [f] is the candidate [c], with ordinal [s]. *)
Definition declares (v : Version) (f d : nat) (l : Lang.t) (c : LinkageCandidate) (s : SymbolOrdinal) : Prop :=
  exists file def, v_files v !! f = Some file /\ CodeGraph.defs (graph file) !! d = Some def /\ lang file = l /\
    is_linkage_candidate_def (E:=E) def = Ok true /\ candidate_of (E:=E) f def = Ok c /\
    ordinal (v_symbols v) (identity_symbol_id f d) = Some s.

Definition has_key (c : LinkageCandidate) (key : bytes) : Prop := exists ks, candidate_keys (E:=E) c = Ok ks /\ key ∈ ks.

(** A posting is exact: absent when it would be empty. *)
Definition lists (posting : option SymbolSet) (P : SymbolOrdinal -> Prop) : Prop :=
  match posting with
  | Some set => (exists s, set_contains set s = true) /\ forall s, set_contains set s = true <-> P s
  | None => forall s, ~ P s
  end.

Lemma lists_iff posting P Q : (forall s, P s <-> Q s) -> lists posting P -> lists posting Q.
Proof using. intros H. unfold lists. destruct posting; by setoid_rewrite H. Qed.

Lemma lists_named `{Countable K} (index : gmap K (gmap bytes SymbolSet)) p key : tidy index ->
  lists (names ← index !! p; names !! key) (named_by index p key).
Proof using. intros Ht. exact (tidy_lookup index p key Ht). Qed.

Lemma declares_iff v f d l c s : files_ok (v_files v) ->
  declares v f d l c s <-> exists e, entry_of (v_symbols v) (v_files v) e /\ en_file e = f /\ en_def e = d /\ en_lang e = l /\
    en_cand e = c /\ en_symbol e = s.
Proof using.
  intros Hok. split.
  - intros (file & def & Hf & Hd & Hl & Hc & Hk & Ho).
    assert (entry_of (v_symbols v) (v_files v) (mk_entry f d def l s)) as He.
    { exists file. split; [done |]. unfold entry_at. cbn. split_and!; try done. unfold is_cand. by rewrite Hc. }
    exists (mk_entry f d def l s). split; [done |]. unfold en_cand. cbn. split_and!; try done.
    destruct (cand_Ok f def (entry_valid _ _ _ Hok He)) as (Hk' & _). congruence.
  - intros (e & He & <- & <- & <- & <- & <-). pose proof (entry_valid _ _ _ Hok He) as Hv.
    destruct He as (file & Hf & Hd & Hl & Hc & Ho). exists file, (en_rec e). split_and!; try done.
    + by rewrite is_cand_Ok, Hc.
    + by apply cand_Ok.
Qed.

Lemma has_key_iff v e key : files_ok (v_files v) -> entry_of (v_symbols v) (v_files v) e ->
  has_key (en_cand e) key <-> key ∈ en_keys e.
Proof using.
  intros Hok He. unfold has_key, en_keys, en_cand. rewrite keys_Ok by by eapply entry_valid.
  split; [by intros (ks & [= <-] & Hk) | by eexists].
Qed.

Lemma candidate_iff (D : Prop) v catalog s c : files_ok (v_files v) -> catalog_ok (v_symbols v) ->
  holds D (v_symbols v) (v_files v) catalog ->
  candidate (E:=E) catalog s = Ok (Some c) <-> exists f d l, declares v f d l c s.
Proof using.
  intros Hok Hcat [_ Hf Hi].
  assert (forall e, entry_of (v_symbols v) (v_files v) e -> en_symbol e = s -> candidate (E:=E) catalog s = Ok (Some (en_cand e))) as Hof.
  { intros e He Hs. pose proof (entry_narrow _ _ _ Hok He) as [Hn1 Hn2]. pose proof (entry_valid _ _ _ Hok He) as Hv.
    assert (c_locations catalog !! s = Some (en_location e)) as Hloc by (apply (inv_location _ _ _ _ _ Hi); exists e; tauto).
    destruct He as (file & Hfile & Hd & _). unfold candidate. rewrite Hloc. unfold en_location.
    rewrite !as_u32_narrow by done. rewrite !Nat2N.id, Hf, list_lookup_imap, Hfile.
    cbn [fmap option_fmap option_map shard_of sh_file]. unfold CodeGraph.def_at. rewrite Hd, ret_bind.
    destruct (cand_Ok (en_file e) (en_rec e) Hv) as (Hk & _). by rewrite Hk, ret_bind. }
  setoid_rewrite (declares_iff v _ _ _ _ _ Hok). split.
  - intros Hc. destruct (c_locations catalog !! s) as [[f d] |] eqn:Hloc; [| unfold candidate in Hc; by rewrite Hloc in Hc].
    apply (inv_location _ _ _ _ _ Hi) in Hloc as (e & [He | []] & Hs & _).
    exists (en_file e), (en_def e), (en_lang e), e. rewrite (Hof e He Hs) in Hc. split_and!; congruence.
  - intros (f & d & l & e & He & _ & _ & _ & <- & Hs). by apply Hof.
Qed.

Lemma symbol_at_iff (D : Prop) v catalog f d s : holds D (v_symbols v) (v_files v) catalog ->
  catalog_symbol_at catalog f d = Some s <->
  exists e, entry_of (v_symbols v) (v_files v) e /\ en_file e = f /\ en_def e = d /\ en_symbol e = s.
Proof using.
  intros [_ Hf _]. unfold catalog_symbol_at. rewrite Hf, list_lookup_imap. split.
  - destruct (v_files v !! f) as [file |] eqn:Hfile; [| done]. cbn. unfold column. rewrite list_lookup_imap.
    destruct (CodeGraph.defs (graph file) !! d) as [def |] eqn:Hdef; [| done]. cbn.
    destruct (is_cand def) eqn:Hc; [| done]. intros Ho. exists (mk_entry f d def (lang file) s). split; [| done]. by exists file.
  - intros (e & (file & Hfile & Hd & _ & Hc & Ho) & <- & <- & <-). rewrite Hfile. cbn. unfold column.
    rewrite list_lookup_imap, Hd. cbn. by rewrite Hc.
Qed.

Lemma latest_ok (P : Version -> Prop) v vs : Forall P (v :: vs) -> P (latest v vs).
Proof using.
  revert v. induction vs as [| v' vs IH]; intros v Hv; [by apply Forall_cons in Hv as [? _] |].
  apply Forall_cons in Hv as [_ Hv]. by apply (IH v').
Qed.

(** C14: the catalog of linkage candidates is exact whatever the history of its
    refreshes: after any sequence of versions of the index, in which files stay in
    place, a file shared with the previous version keeps its ordinals and an ordinal
    does not change file, the refreshes return and the catalog answers for the last
    version alone. The ordinal at a position, the candidate of an ordinal, the
    ordinals under a name of a file and under a name of a language are exactly those
    of the candidate definitions (no posting is left empty), and when no two
    candidates of a version share a moniker, so is the ordinal of a moniker. *)
Theorem catalog_exact v vs : Forall version_ok (v :: vs) -> Sorted follows (v :: vs) ->
  exists catalog, catalog_after v vs = Ok catalog /\
    let now := latest v vs in
    (forall f d s, catalog_symbol_at catalog f d = Some s <-> exists l c, declares now f d l c s) /\
    (forall s c, candidate (E:=E) catalog s = Ok (Some c) <-> exists f d l, declares now f d l c s) /\
    (forall f key, lists (symbols_by_source_key (c_indexes catalog) f key)
       (fun s => exists d l c, declares now f d l c s /\ has_key c key)) /\
    (forall l key, lists (symbols_by_language_key (c_indexes catalog) l key)
       (fun s => exists f d l' c, declares now f d l' c s /\ Lang.ecosystem l' = Lang.ecosystem l /\
                   is_global_candidate c = true /\ has_key c key)) /\
    (forall m s, symbol_by_moniker (c_indexes catalog) m = Some s -> exists f d l c, declares now f d l c s /\ k_moniker c = m) /\
    (Forall own_monikers (v :: vs) -> forall f d l c s, declares now f d l c s ->
       symbol_by_moniker (c_indexes catalog) (k_moniker c) = Some s).
Proof using RL.
  intros Hok Hsorted. destruct (latest_ok _ v vs Hok) as [Hfs Hcat].
  destruct (catalog_after_holds v vs Hok Hsorted) as (c & Hc & Hh). exists c. split; [done |].
  set (w := latest v vs) in *. cbv zeta. assert (Hh' := Hh). destruct Hh' as [_ Hf [_ _ Hsrc Hlang [Ht1 Ht2] Hmon Hnew _]].
  split_and!.
  - intros f d s. setoid_rewrite (declares_iff w _ _ _ _ _ Hfs). rewrite (symbol_at_iff _ w _ _ _ _ Hh). split.
    + intros (e & He & <- & <- & <-). by exists (en_lang e), (en_cand e), e.
    + intros (l & k & e & He & Hf' & Hd' & _ & _ & Hs'). by exists e.
  - intros s k. by eapply candidate_iff.
  - intros f key. eapply lists_iff; [| by apply lists_named]. intros s. rewrite Hsrc. setoid_rewrite (declares_iff w _ _ _ _ _ Hfs). split.
    + intros (e & [He | []] & Hf' & Hk & Hs). exists (en_def e), (en_lang e), (en_cand e). split; [by exists e |].
      by eapply has_key_iff.
    + intros (d & l & k & (e & He & Hf' & _ & _ & <- & Hs) & Hk). exists e. split_and!; try done; [by left |]. by eapply has_key_iff in Hk.
  - intros l key. eapply lists_iff; [| by apply lists_named]. intros s. rewrite Hlang. setoid_rewrite (declares_iff w _ _ _ _ _ Hfs). split.
    + intros (e & [He | []] & Hg & Hl & Hk & Hs). exists (en_file e), (en_def e), (en_lang e), (en_cand e).
      split_and!; [by exists e | done | done |]. by eapply has_key_iff.
    + intros (f & d & l' & k & (e & He & _ & _ & <- & <- & Hs) & Hl & Hg & Hk). exists e. split_and!; try done; [by left |].
      by eapply has_key_iff in Hk.
  - intros m s Hm. apply Hmon in Hm as (e & [He | []] & <- & <-). setoid_rewrite (declares_iff w _ _ _ _ _ Hfs).
    exists (en_file e), (en_def e), (en_lang e), (en_cand e). split; [by exists e |]. exact (proj1 (proj2 (cand_Ok _ _ (entry_valid _ _ _ Hfs He)))).
  - intros HD f d l k s Hk. apply (declares_iff w _ _ _ _ _ Hfs) in Hk as (e & He & _ & _ & _ & <- & <-).
    assert (k_moniker (en_cand e) = mon e) as -> by exact (proj1 (proj2 (cand_Ok _ _ (entry_valid _ _ _ Hfs He)))).
    exact (Hnew HD e He).
Qed.
End theorems.
End LinkCatalogTheorems.

Module LinkCatalogSamples.
Import Snapshot Inventory InventoryInv LinkIndexFacts LinkIndexTheorems PathSets LinkMaterial LinkCatalog LinkCatalogFacts LinkCatalogTheorems.
#[local] Existing Instances GsetRoaring.gset_roaring GsetRoaring.gset_roaring_laws.

(** ** Checks of the hypotheses *)

Definition moniker_at (segs : list Moniker.Segment) : Moniker.t := Moniker.mk (Moniker.enc_parts (bs "app") segs).

Definition file_check (def_segs : list (list Moniker.Segment)) (file : IndexedFile) : bool :=
  bool_decide (CodeGraph.moniker <$> CodeGraph.defs (graph file) = moniker_at <$> def_segs) &&
  forallb (Moniker.parts_ok (bs "app")) def_segs && (N.of_nat (length (CodeGraph.defs (graph file))) <? 2 ^ 32)%N.

Lemma file_check_ok def_segs file : file_check def_segs file = true -> file_ok file.
Proof.
  unfold file_check. rewrite !andb_true_iff, bool_decide_eq_true, N.ltb_lt, forallb_Forall, !Forall_forall. intros [[Hm Hp] Hn].
  split; [| done]. apply Forall_forall. intros def Hd.
  assert (CodeGraph.moniker def ∈ moniker_at <$> def_segs) as (segs & -> & Hs)%list_elem_of_fmap.
  { rewrite <- Hm. by apply list_elem_of_fmap_2. }
  exists (bs "app"), segs. split; [by apply Hp | done].
Qed.

Definition place_check (symbols symbols' : SymbolOrdinalCatalog) : bool :=
  forallb (fun p => forallb (fun q => negb (p.2 =? q.2)%N || (id_file q.1 =? id_file p.1))
    (map_to_list (ordinals_by_id symbols'))) (map_to_list (ordinals_by_id symbols)).

Lemma place_check_ok symbols symbols' : place_check symbols symbols' = true ->
  forall id id' s, ordinal symbols id = Some s -> ordinal symbols' id' = Some s -> id_file id' = id_file id.
Proof.
  unfold place_check, ordinal. rewrite forallb_Forall, Forall_forall. intros H id id' s Hid%elem_of_map_to_list Hid'%elem_of_map_to_list.
  specialize (H _ Hid). rewrite forallb_Forall, Forall_forall in H. specialize (H _ Hid'). cbn in H.
  rewrite N.eqb_refl in H. by apply Nat.eqb_eq.
Qed.

(** ** Modules of a TypeScript project *)

Definition module_segs (name : string) : list Moniker.Segment := [(bs "lang", bs "ts"); (bs "module", bs name)].
Definition class_segs (name class : string) : list Moniker.Segment := module_segs name ++ [(bs "class", bs class)].

Definition module_graph (name : string) (classes : list string) : CodeGraph.t :=
  foldl (fun g class => (CodeGraph.add_def (moniker_at (class_segs name class)) (bs "class") (moniker_at (module_segs name)) None g).2)
    (CodeGraph.new (moniker_at (module_segs name)) (bs "module")) classes.

Definition module_file (address : N) (name : string) (classes : list string) : IndexedFile :=
  mk_file address 0 (source_at 0) Lang.Ts (module_graph name classes).

Definition pushed (id : SymbolId) (symbols : SymbolOrdinalCatalog) : SymbolOrdinalCatalog :=
  match push (E:=()) id symbols with Ok (_, symbols) => symbols | _ => symbols end.

Definition ordinals : SymbolOrdinalCatalog :=
  pushed (symbol_at 1 1) (pushed (symbol_at 1 0) (pushed (symbol_at 0 1) (pushed (symbol_at 0 0) catalog_default))).

Definition version_of (a b : IndexedFile) (symbols : SymbolOrdinalCatalog) : Version :=
  mk_version (mk_material [a; b] (bs "code+moniker://")) symbols.

(** A class of the second module changes name. *)
Definition shop_and_till : Version := version_of (module_file 1 "shop" ["Cart"]%string) (module_file 2 "till" ["Drawer"]%string) ordinals.
Definition shop_and_box : Version :=
  version_of (module_file 1 "shop" ["Cart"]%string) (module_file 3 "till" ["Box"]%string)
    (pushed (symbol_at 1 1) (retire 3%N ordinals)).

(** [shop.d.ts] and [shop.js] make the same module; the second one loses its class. *)
Definition twins : Version := version_of (module_file 1 "shop" ["Cart"]%string) (module_file 2 "shop" ["Cart"]%string) ordinals.
Definition one_left : Version := version_of (module_file 1 "shop" ["Cart"]%string) (module_file 3 "shop" []) (retire 3%N ordinals).

Lemma version_check a b symbols sa sb :
  file_check sa a && file_check sb b && catalog_check symbols = true -> version_ok (version_of a b symbols).
Proof.
  rewrite !andb_true_iff. intros [[Ha%file_check_ok Hb%file_check_ok] Hc%catalog_check_ok].
  split; [split; [constructor; [exact Ha | constructor; [exact Hb | constructor]] | done] | done].
Qed.

(** The first file is shared, the second one is another. *)
Lemma follows_check a b symbols b' symbols' : ptr_eq b b' = false ->
  forallb (fun d => bool_decide (ordinal symbols' (identity_symbol_id 0 d) = ordinal symbols (identity_symbol_id 0 d)))
    (seq 0 (length (CodeGraph.defs (graph a)))) && place_check symbols symbols' = true ->
  follows (version_of a b symbols) (version_of a b' symbols').
Proof.
  intros Hb [Ho Hp]%andb_prop. split; [done | | by apply place_check_ok].
  intros [| [| k]] file file'; cbn; [| | done]; intros [= <-] [= <-] Heq; [| congruence]. split; [done |].
  intros d Hd. rewrite forallb_Forall, Forall_forall in Ho. apply (bool_decide_eq_true_1 _), Ho, elem_of_seq. lia.
Qed.

Lemma history_ok : Forall version_ok [shop_and_till; shop_and_box] /\ Sorted follows [shop_and_till; shop_and_box].
Proof.
  split.
  - constructor; [| constructor; [| constructor]].
    + apply (version_check _ _ _ [module_segs "shop"; class_segs "shop" "Cart"]%string [module_segs "till"; class_segs "till" "Drawer"]%string).
      vm_compute. reflexivity.
    + apply (version_check _ _ _ [module_segs "shop"; class_segs "shop" "Cart"]%string [module_segs "till"; class_segs "till" "Box"]%string).
      vm_compute. reflexivity.
  - constructor; [by repeat constructor | constructor]. apply follows_check; vm_compute; reflexivity.
Qed.

Lemma twins_ok : Forall version_ok [twins; one_left] /\ Sorted follows [twins; one_left].
Proof.
  split.
  - constructor; [| constructor; [| constructor]].
    + apply (version_check _ _ _ [module_segs "shop"; class_segs "shop" "Cart"]%string [module_segs "shop"; class_segs "shop" "Cart"]%string).
      vm_compute. reflexivity.
    + apply (version_check _ _ _ [module_segs "shop"; class_segs "shop" "Cart"]%string [module_segs "shop"]%string).
      vm_compute. reflexivity.
  - constructor; [by repeat constructor | constructor]. apply follows_check; vm_compute; reflexivity.
Qed.

Lemma history_distinct : Forall own_monikers [shop_and_till; shop_and_box].
Proof.
  assert (forall a b symbols, forallb (fun d => forallb (fun d' => negb (bool_decide (CodeGraph.moniker d = CodeGraph.moniker d')))
      (CodeGraph.defs (graph b))) (CodeGraph.defs (graph a)) = true ->
    NoDup (CodeGraph.moniker <$> CodeGraph.defs (graph a)) -> NoDup (CodeGraph.moniker <$> CodeGraph.defs (graph b)) ->
    own_monikers (version_of a b symbols)) as Hcheck.
  { intros a b symbols Hab Ha Hb e e' He He' Hm. rewrite forallb_Forall, Forall_forall in Hab.
    assert (forall d d', d ∈ CodeGraph.defs (graph a) -> d' ∈ CodeGraph.defs (graph b) -> CodeGraph.moniker d <> CodeGraph.moniker d') as Hne.
    { intros d d' Hd Hd' Heq. specialize (Hab d Hd). rewrite forallb_Forall, Forall_forall in Hab. specialize (Hab d' Hd').
      by rewrite bool_decide_true in Hab. }
    assert (Hf := He). assert (Hf' := He'). destruct Hf as (f & Hk & Hd & _), Hf' as (f' & Hk' & Hd' & _). unfold mon in Hm.
    assert (forall g, NoDup (CodeGraph.moniker <$> CodeGraph.defs (graph g)) -> CodeGraph.defs (graph g) !! en_def e = Some (en_rec e) ->
      CodeGraph.defs (graph g) !! en_def e' = Some (en_rec e') -> en_def e = en_def e') as Hdef.
    { intros g Hg H1 H2. apply (NoDup_lookup _ _ _ (CodeGraph.moniker (en_rec e)) Hg); rewrite list_lookup_fmap;
        [by rewrite H1 | rewrite H2; cbn; by rewrite Hm]. }
    destruct (en_file e) as [| [| k]] eqn:Hfe, (en_file e') as [| [| k']] eqn:Hfe'; cbn in Hk, Hk'; simplify_eq.
    - eapply entry_of_eq; [done | done | congruence | eapply Hdef; [| exact Hd | exact Hd']; done].
    - exfalso. eapply (Hne (en_rec e) (en_rec e')); [by eapply list_elem_of_lookup_2 | by eapply list_elem_of_lookup_2 | done].
    - exfalso. eapply (Hne (en_rec e') (en_rec e)); [by eapply list_elem_of_lookup_2 | by eapply list_elem_of_lookup_2 | done].
    - eapply entry_of_eq; [done | done | congruence | eapply Hdef; [| exact Hd | exact Hd']; done]. }
  constructor; [| constructor; [| constructor]]; apply Hcheck; try (apply (bool_decide_eq_true_1 _)); vm_compute; reflexivity.
Qed.

Definition box_file : IndexedFile := module_file 3 "till" ["Box"]%string.
Definition box_def : CodeGraph.DefRecord :=
  default (CodeGraph.mk_def (moniker_at []) [] None None [] [] [] None [] []) (CodeGraph.defs (graph box_file) !! 1).

Lemma box_declared : exists c, declares shop_and_box 1 1 Lang.Ts c 4%N /\ k_moniker c = moniker_at (class_segs "till" "Box").
Proof.
  exists (cand 1 box_def). split; [exists box_file, box_def | vm_compute; reflexivity].
  split; [done |]. split; [vm_compute; reflexivity |]. split; [done |]. split_and!; vm_compute; reflexivity.
Qed.

Lemma catalog_exact_witness :
  exists c, catalog_after shop_and_till [shop_and_box] = Ok c /\
    symbol_by_moniker (c_indexes c) (moniker_at (class_segs "till" "Box")) = Some 4%N.
Proof.
  destruct (catalog_exact shop_and_till [shop_and_box] (proj1 history_ok) (proj2 history_ok)) as (c & Hc & _ & _ & _ & _ & _ & Hm).
  exists c. split; [exact Hc |]. destruct box_declared as (k & Hk & <-). exact (Hm history_distinct 1 1 Lang.Ts k 4%N Hk).
Defined.

Definition moniker_lookup (catalog : res E CandidateCatalog) (m : Moniker.t) : option (option SymbolOrdinal) :=
  match catalog with Ok c => Some (symbol_by_moniker (c_indexes c) m) | _ => None end.

End LinkCatalogSamples.
