(* ===== verification/PathWalk.v ===== *)
(** The walk of the path engine: whatever limit stops it, what it has visited is
    reached by the references it recorded; when none does, it has visited exactly
    what the depth allows. *)

From stdpp Require Import relations.
From S2P Require Import Prelude.
From S2P Require Import Bitmap.
From S2P Require Import Snapshot.
From S2P Require Import Inventory.
From S2P Require Import LinkIndex.
From S2P Require Import LinkIndexFacts.
From S2P Require Import Paths.
From S2P Require Import PathSets.

Module PathWalk.
Import Snapshot Inventory LinkIndex LinkIndexFacts Paths PathSets PathStep.
Section walk.
Context {R : Roaring} {RL : RoaringLaws R} {HO : HashOrder} {E : Type}.
Context (c : PathTraversal) (kind : N -> option bytes) (Hp : postings_exact (pt_index c) kind).
(** The start and the end of the search. *)
Context (from_set to_set : SymbolSet).
Implicit Types (k o s t u v w : N) (st : PathState) (F : SymbolSet).

Abbreviation arc' := (arc (pt_index c) kind (pt_relations c)).

(** A symbol the search may enter. *)
Definition enters v : Prop :=
  scope_contains (pt_scope c) (pt_index c) v = true /\ set_contains (avoided c) v <> true.

Definition step s t : Prop := (exists k, arc' k s t) /\ enters t.

(** [v] is at most [n] references away from the start. *)
Definition within n v : Prop := exists s, set_contains from_set s = true /\ bsteps step n s v.

Lemma within_0 v : within 0 v <-> set_contains from_set v = true.
Proof.
  split; [| intros Hv; exists v; split; [done | constructor]]. intros (s & Hs & Hb). by inversion Hb; subst.
Qed.

Lemma within_mono n m v : n <= m -> within n v -> within m v.
Proof. intros Hnm (s & Hs & Hb). exists s. split; [done |]. by eapply bsteps_weaken. Qed.

Lemma within_step n u v : within n u -> step u v -> within (S n) v.
Proof. intros (s & Hs & Hb) Hu. exists s. split; [done |]. by eapply bsteps_r. Qed.

Lemma within_S n v : within (S n) v <-> within n v \/ exists u, within n u /\ step u v.
Proof.
  split; [| intros [? | (u & ? & ?)]; [by apply (within_mono n); [lia |] | by eapply within_step]].
  intros (s & Hs & (m & Hm & Hb)%bsteps_nsteps). destruct m as [| m].
  - inversion Hb; subst. left. apply (within_mono 0); [lia | by apply within_0].
  - apply nsteps_inv_r in Hb as (u & Hu & Huv). right. exists u. split; [| done].
    exists s. split; [done |]. apply bsteps_nsteps. exists m. split; [lia | done].
Qed.

(** ** The invariants *)

(** What holds whatever the limits; [rank] is the round in which a symbol was
    visited, [d] the number of rounds and [F] the frontier. *)
Record sound (rank : N -> nat) (d : nat) F st : Prop := mk_sound {
  w_rank v : set_contains (visited st) v = true -> rank v <= d;
  w_start v : set_contains (visited st) v = true /\ rank v = 0 <-> set_contains from_set v = true;
  w_pred v : set_contains (visited st) v = true -> rank v <> 0 -> exists u k id,
    predecessors st !! v = Some (u, id) /\ reference_id (pt_index c) k = Some id /\ arc' k u v /\
    set_contains (visited st) u = true /\ rank v = S (rank u);
  w_dom v : is_Some (predecessors st !! v) -> set_contains (visited st) v = true;
  w_size : d <= size (predecessors st);
  w_enters v : set_contains (visited st) v = true -> enters v;
  w_front v : set_contains F v = true -> set_contains (visited st) v = true /\ rank v = d;
  w_len : (set_len (visited st) <= pt_max_symbols c)%N;
  w_counted : counted (pt_max_edges c) (references st)
}.

(** No limit on symbols or edges was met. *)
Definition unlimited st : Prop := symbol_limit_reached st = false /\ limit_reached (references st) = false.

(** What holds as long as none was met. *)
Record exact (rank : N -> nat) (d : nat) F st : Prop := mk_exact {
  e_all v : set_contains (visited st) v = true <-> within d v;
  e_front v : set_contains (visited st) v = true -> rank v = d -> set_contains F v = true;
  e_rank v n : set_contains (visited st) v = true -> within n v -> rank v <= n;
  e_within v : set_contains (visited st) v = true -> within (rank v) v;
  e_seen k s : ref_contains (seen (references st)) k = true -> reference_source (pt_index c) k = Some s ->
    set_contains (visited st) s = true /\ rank s < d
}.

(** ** One round *)

(** The symbols one round finds beyond those visited. *)
Definition beyond F st v : Prop :=
  set_contains (visited st) v <> true /\ exists u, set_contains F u = true /\ step u v.

(** [eligible] references of the frontier are arcs of it. *)
Lemma eligible_arc F k u v :
  ref_contains (k_resolved (classifications (pt_index c))) k = true ->
  reference_source (pt_index c) k = Some u -> reference_target (pt_index c) k = Some v ->
  eligible (pt_index c) kind (pt_relations c) (pt_scope c) Forward F k <->
  set_contains F u = true /\ arc' k u v /\ scope_contains (pt_scope c) (pt_index c) v = true.
Proof.
  intros Hres Hs Ht. unfold eligible, arc. cbn [front opposite]. rewrite Hs, Ht. split.
  - intros ((s & [= <-] & HF) & Hk & Hsc). split_and!; try done. by apply Hsc.
  - intros (HF & (_ & _ & _ & Hk) & Hsc). split_and!; [by exists u | done | by intros t [= <-]].
Qed.

(** What the references of a round give: [next] holds targets beyond the frontier,
    all of them when the edges had no limit, and [w] how each is reached. *)
Record round F st (t' : ReferenceTraversal) (next : SymbolSet) (w : Predecessors) : Prop := mk_round {
  rd_counted : counted (pt_max_edges c) t';
  rd_limit : limit_reached t' = false -> limit_reached (references st) = false;
  rd_seen k s : ref_contains (seen t') k = true -> reference_source (pt_index c) k = Some s ->
    ref_contains (seen (references st)) k = true \/ set_contains F s = true;
  rd_some v : set_contains next v = true -> is_Some (w !! v);
  rd_witness v u id : w !! v = Some (u, id) -> exists k, reference_id (pt_index c) k = Some id /\
    arc' k u v /\ set_contains F u = true /\ scope_contains (pt_scope c) (pt_index c) v = true;
  rd_next v : unlimited (with_references t' st) -> beyond F st v -> set_contains next v = true
}.

Lemma round_ok rank d F st :
  sound rank d F st -> (unlimited st -> exact rank d F st) ->
  exists batch (t1 : ReferenceTraversal) next (w : Predecessors) (t2 : ReferenceTraversal),
    admit_references (E:=E) (pt_index c) (pt_relations c) (mk_selection Forward F (pt_scope c) false)
      (pt_max_edges c) (references st) = Ok (batch, t1) /\
    target_witnesses c (ref_intersection (batch_references batch) (k_resolved (classifications (pt_index c)))) t1
      = (next, w, t2) /\
    round F st t2 next w /\ (batch_limit_reached batch = true -> limit_reached t2 = true).
Proof using Hp RL.
  intros Hs He.
  destruct (admit_ok (pt_index c) kind Hp (pt_relations c) (pt_scope c) E (mk_selection Forward F (pt_scope c) false)
    (pt_max_edges c) (references st) eq_refl (w_counted _ _ _ _ Hs)) as (batch & t1 & Ha & Hc1 & Hl1 & Hel & Hseen & Hall).
  cbn [direction frontier reuse_seen] in *.
  set (refs := ref_intersection (batch_references batch) (k_resolved (classifications (pt_index c)))).
  assert (forall k, ref_contains refs k = true <-> ref_contains (batch_references batch) k = true /\
    ref_contains (k_resolved (classifications (pt_index c))) k = true) as Hrefs by (intros k; apply in_intersection).
  destruct (target_witnesses_ok (pt_index c) c refs t1 (pt_max_edges c) eq_refl Hc1)
    as (next & w & t2 & Hw & Hs2 & Hl2 & Hc2 & Hsome & Hwit & Hnext).
  exists batch, t1, next, w, t2. split_and!; [done | done | | intros Hb; by rewrite Hl2, Hl1, Hb, orb_true_r].
  split; try done.
  - rewrite Hl2, Hl1. by intros [? _]%orb_false_iff.
  - intros k s. rewrite Hs2, Hseen. intros [? | Hk%Hel] Hks; [by left | right].
    destruct Hk as ((s' & Hs' & HF) & _). cbn in Hs'. congruence.
  - intros v u id (k & [Hb Hr]%Hrefs & Hu & Hv & Hid)%Hwit. exists k. split; [done |].
    apply Hel in Hb. apply (eligible_arc F k u v) in Hb as (? & ? & ?); done.
  - intros v [Hsl Hlim] (Hnv & u & HFu & (k & Harc) & Hsc & _). cbn in Hsl, Hlim.
    rewrite Hl2, Hl1 in Hlim. apply orb_false_iff in Hlim as [Hlim Hbl].
    destruct (arc_id (pt_index c) kind Hp (pt_relations c) k u v Harc) as [id Hid].
    pose proof Harc as (Hres & Hu & Hv & _).
    eapply Hnext; [| exact Hu | exact Hv | exact Hid]. apply Hrefs. split; [| done].
    apply Hall; [done | by apply (eligible_arc F k u v) |]. right. intros Hk.
    apply (e_seen _ _ _ _ (He (conj Hsl Hlim))) with (s := u) in Hk; [| done].
    apply (w_front _ _ _ _ Hs) in HFu. lia.
Qed.

(** ** The next state *)

Definition later (rank : N -> nat) (d : nat) st v : nat :=
  if set_contains (visited st) v then rank v else S d.

(** The state once [nx] is visited. *)
Definition entered st (t' : ReferenceTraversal) (w : Predecessors) (nx : SymbolSet) (limit : bool) : PathState :=
  mk_path_state (set_union_with (visited st) nx) t' (record_predecessors nx w (predecessors st))
    (depth_reached st) (depth_limit_reached st) limit.

Section next_round.
Context (rank : N -> nat) (d : nat) (F : SymbolSet) (st : PathState).
Context (t' : ReferenceTraversal) (next nx : SymbolSet) (w : Predecessors) (limit : bool).
Hypothesis Hs : sound rank d F st.
Hypothesis Hr : round F st t' next w.
Hypothesis Hnx : forall v, set_contains nx v = true ->
  set_contains next v = true /\ set_contains (avoided c) v <> true /\ set_contains (visited st) v <> true.
Hypothesis Hnonempty : set_is_empty nx = false.
Hypothesis Hlen : (set_len (visited st) + set_len nx <= pt_max_symbols c)%N.

Lemma entered_sound : sound (later rank d st) (S d) nx (entered st t' w nx limit).
Proof using Hs Hr Hnx Hnonempty Hlen RL.
  assert (forall v, set_contains nx v = true -> later rank d st v = S d) as Hlater.
  { intros v (_ & _ & Hv)%Hnx. unfold later. by destruct (set_contains (visited st) v). }
  assert (forall v, set_contains (visited st) v = true -> later rank d st v = rank v) as Hearlier.
  { intros v Hv. unfold later. by rewrite Hv. }
  pose proof (record_predecessors_ok nx w (predecessors st)) as Hpreds.
  specialize (Hpreds ltac:(intros v Hv; apply (rd_some _ _ _ _ _ Hr), Hnx, Hv)).
  split; cbn [entered visited predecessors references].
  - intros v [Hv | Hv]%in_union; [rewrite Hearlier by done; apply (w_rank _ _ _ _ Hs) in Hv; lia | rewrite Hlater; done].
  - intros v. rewrite in_union, <- (w_start _ _ _ _ Hs). split.
    + intros [[Hv | Hv] H0]; [rewrite Hearlier in H0; done | rewrite Hlater in H0; done].
    + intros [Hv H0]. split; [by left | by rewrite Hearlier].
  - intros v Hv H0. rewrite Hpreds. apply in_union in Hv as [Hv | Hv].
    + rewrite Hearlier in H0 |- * by done. destruct (w_pred _ _ _ _ Hs v Hv H0) as (u & k & id & Hpr & Hid & Harc & Hu & Hrk).
      exists u, k, id. destruct (set_contains nx v) eqn:Hnv; [by apply Hnx in Hnv as (_ & _ & ?) |].
      split_and!; [done | done | done | apply in_union; by left | by rewrite Hearlier].
    + rewrite Hv. destruct (Hnx v Hv) as (Hn & _ & _). destruct (rd_some _ _ _ _ _ Hr v Hn) as [[u id] Hw].
      destruct (rd_witness _ _ _ _ _ Hr v u id Hw) as (k & Hid & Harc & HFu & _).
      apply (w_front _ _ _ _ Hs) in HFu as [Hu Hrk]. exists u, k, id.
      split_and!; [done | done | done | apply in_union; by left |]. by rewrite Hlater, Hearlier, Hrk.
  - intros v. rewrite Hpreds, in_union. destruct (set_contains nx v) eqn:Hv; [by right |].
    intros Hpr. left. by apply (w_dom _ _ _ _ Hs).
  - apply set_not_empty in Hnonempty as [v Hv]. pose proof (Hnx v Hv) as (Hn & _ & Hnv).
    pose proof (w_size _ _ _ _ Hs) as Hsz.
    assert (predecessors st !! v = None) as Hnone.
    { destruct (predecessors st !! v) eqn:Hpv; [| done]. exfalso. apply Hnv, (w_dom _ _ _ _ Hs). by rewrite Hpv. }
    rewrite <- !size_dom in *. assert (v ∉ dom (predecessors st)) as Hvd by by rewrite not_elem_of_dom.
    enough (size (dom (predecessors st) ∪ {[v]}) <= size (dom (record_predecessors nx w (predecessors st)))) as Hle.
    { rewrite size_union in Hle by (intros x ? ->%elem_of_singleton; done). rewrite size_singleton in Hle. lia. }
    apply subseteq_size. intros x. rewrite elem_of_union, elem_of_singleton, !elem_of_dom, Hpreds. intros [Hx | ->].
    + destruct (set_contains nx x) eqn:Hxn; [apply (rd_some _ _ _ _ _ Hr), Hnx, Hxn | done].
    + rewrite Hv. by apply (rd_some _ _ _ _ _ Hr).
  - intros v [Hv | Hv]%in_union; [by apply (w_enters _ _ _ _ Hs) |]. destruct (Hnx v Hv) as (Hn & Hav & _).
    destruct (rd_some _ _ _ _ _ Hr v Hn) as [[u id] Hw].
    destruct (rd_witness _ _ _ _ _ Hr v u id Hw) as (k & _ & _ & _ & ?). done.
  - intros v Hv. split; [apply in_union; by right | by apply Hlater].
  - rewrite len_union_disjoint; [done |]. intros x Hx. apply Hnx, Hx.
  - apply (rd_counted _ _ _ _ _ Hr).
Qed.

Hypothesis He : unlimited st -> exact rank d F st.
Hypothesis Hlimit : limit = false -> symbol_limit_reached st = false /\
  forall v, set_contains next v = true -> set_contains (avoided c) v <> true ->
    set_contains (visited st) v <> true -> set_contains nx v = true.

(** The symbols beyond the visited ones are those one round more away. *)
Lemma beyond_within v : exact rank d F st ->
  beyond F st v <-> within (S d) v /\ set_contains (visited st) v <> true.
Proof using Hs.
  clear Hnx Hlen Hnonempty. intros Hex. split.
  - intros [Hv (u & HF & Hst)]. split; [| done]. apply (within_step d u v); [| done].
    apply (e_all _ _ _ _ Hex), (w_front _ _ _ _ Hs), HF.
  - intros [[Hw | (u & Hu & Hst)]%within_S Hv]; [by apply (e_all _ _ _ _ Hex) in Hw |]. split; [done |].
    exists u. split; [| done]. apply (e_all _ _ _ _ Hex) in Hu as HVu. apply (e_front _ _ _ _ Hex); [done |].
    destruct (decide (rank u = d)) as [? | Hne]; [done | exfalso]. apply Hv, (e_all _ _ _ _ Hex).
    pose proof (w_rank _ _ _ _ Hs u HVu) as Hrk. apply (within_mono (S (rank u))); [lia |].
    by apply within_step with u; [apply (e_within _ _ _ _ Hex) |].
Qed.

Lemma entered_exact :
  unlimited (entered st t' w nx limit) ->
  exact (later rank d st) (S d) nx (entered st t' w nx limit).
Proof using Hs Hr Hnx He Hlimit RL.
  clear Hlen Hnonempty. intros [Hsl Hlim]. cbn in Hsl, Hlim. destruct (Hlimit Hsl) as [Hsl0 Hadm].
  pose proof (He (conj Hsl0 (rd_limit _ _ _ _ _ Hr Hlim))) as Hex.
  assert (forall v, set_contains nx v = true -> within (S d) v) as Hin.
  { intros v Hv. destruct (Hnx v Hv) as (Hn & Hav & _). destruct (rd_some _ _ _ _ _ Hr v Hn) as [[u id] Hw].
    destruct (rd_witness _ _ _ _ _ Hr v u id Hw) as (k & _ & Harc & HF & Hsc).
    apply (within_step d u v); [by apply (e_all _ _ _ _ Hex), (w_front _ _ _ _ Hs) |]. split; [by exists k | done]. }
  split; cbn [entered visited references].
  - intros v. rewrite in_union. split.
    + intros [Hv%(e_all _ _ _ _ Hex) | Hv]; [by apply (within_mono d); [lia |] | by apply Hin].
    + intros Hv. destruct (set_contains (visited st) v) eqn:HV; [by left | right].
      assert (beyond F st v) as Hb by (apply beyond_within; [done | split; [done | congruence]]).
      destruct Hb as (HVn & u & HF & Hst). apply Hadm; [| apply Hst | done].
      apply (rd_next _ _ _ _ _ Hr); [split; done |]. split; [done |]. by exists u.
  - intros v [Hv | Hv]%in_union Hl; [| done]. unfold later in Hl. rewrite Hv in Hl. apply (w_rank _ _ _ _ Hs) in Hv. lia.
  - intros v n [Hv | Hv]%in_union Hn; unfold later; [rewrite Hv; by apply (e_rank _ _ _ _ Hex) |].
    destruct (Hnx v Hv) as (_ & _ & HV). destruct (set_contains (visited st) v) eqn:HVb; [done |].
    destruct (decide (n <= d)) as [Hle | Hgt]; [| lia]. exfalso. rewrite <- HVb in HV. apply HV, (e_all _ _ _ _ Hex). by apply (within_mono n).
  - intros v [Hv | Hv]%in_union; unfold later; [rewrite Hv; by apply (e_within _ _ _ _ Hex) |].
    destruct (Hnx v Hv) as (_ & _ & HV). destruct (set_contains (visited st) v); [done |]. by apply Hin.
  - intros k s Hk Hks. rewrite in_union. destruct (rd_seen _ _ _ _ _ Hr k s Hk Hks) as [Hk' | HF].
    + destruct (e_seen _ _ _ _ Hex k s Hk' Hks) as [HV Hlt]. unfold later. rewrite HV. split; [by left | lia].
    + destruct (w_front _ _ _ _ Hs s HF) as [HV Hrk]. unfold later. rewrite HV, Hrk. split; [by left | lia].
Qed.
End next_round.

(** ** The walk *)

Definition meets st : Prop := exists v, set_contains (visited st) v = true /\ set_contains to_set v = true.

(** What the walk leaves when no limit on symbols or edges stopped it: it has met
    the target as early as possible, or it has visited all the depth allows. *)
Definition outcome (rank : N -> nat) st : Prop :=
  unlimited st ->
  (forall v, set_contains (visited st) v = true -> within (rank v) v) /\
  (forall v, set_contains (visited st) v = true -> set_contains to_set v = true ->
     forall w n, set_contains to_set w = true -> within n w -> rank v <= n) /\
  (~ meets st ->
     (forall v, within (pt_max_depth c) v -> set_contains (visited st) v = true) /\
     (depth_limit_reached st = false -> forall n v, within n v -> set_contains (visited st) v = true)).

Lemma closed_visits rank d F st :
  exact rank d F st -> (forall v, ~ (within (S d) v /\ set_contains (visited st) v <> true)) ->
  forall n v, within n v -> set_contains (visited st) v = true.
Proof.
  intros Hex Hcl n. induction n as [| n IH]; intros v Hv.
  - apply (e_all _ _ _ _ Hex), (within_mono 0); [lia | done].
  - apply within_S in Hv as [? | (u & Hu%IH & Hst)]; [by apply IH |].
    destruct (set_contains (visited st) v) eqn:HV; [done |]. exfalso. apply (Hcl v). split; [| congruence].
    apply within_step with u; [by apply (e_all _ _ _ _ Hex) | done].
Qed.

Lemma admit_symbols_ok (cand : SymbolSet) st :
  (set_len (visited st) <= pt_max_symbols c)%N ->
  exists nx limit, admit_symbols c cand st =
      (nx, mk_path_state (visited st) (references st) (predecessors st) (depth_reached st) (depth_limit_reached st) limit) /\
    (forall v, set_contains nx v = true -> set_contains cand v = true) /\
    (set_len (visited st) + set_len nx <= pt_max_symbols c)%N /\
    (limit = false -> symbol_limit_reached st = false /\ nx = cand).
Proof using RL.
  intros Hlen. unfold admit_symbols. destruct (_ <? _)%N eqn:Hlt.
  - eexists _, true. split; [done |]. split_and!; [intros v; apply in_take | | done].
    pose proof (len_take (pt_max_symbols c - set_len (visited st)) cand). lia.
  - exists cand, (symbol_limit_reached st). apply N.ltb_ge in Hlt. destruct st. split_and!; try done. cbn in *. lia.
Qed.

Lemma walk_loop_ok steps : forall d rank F st,
  d + steps = S (pt_max_depth c) -> d <= pt_max_depth c ->
  sound rank d F st -> (unlimited st -> exact rank d F st) -> ~ meets st -> depth_limit_reached st = false ->
  exists st' rank' d' F', walk_loop (E:=E) steps d c F to_set st = Ok st' /\ d' <= pt_max_depth c /\
    sound rank' d' F' st' /\ outcome rank' st' /\ (unlimited st' -> unlimited st).
Proof using Hp RL.
  induction steps as [| steps IH]; intros d rank F st Hd Hle Hs He Hno Hdl; [lia |]. cbn [walk_loop].
  change (unlimited st) with (unlimited (with_depth d st)).
  assert (sound rank d F (with_depth d st)) as Hs0 by by destruct Hs; split.
  assert (unlimited (with_depth d st) -> exact rank d F (with_depth d st)) as He0 by (intros Hu; destruct (He Hu); by split).
  assert (~ meets (with_depth d st)) as Hno0 by done.
  assert (depth_limit_reached (with_depth d st) = false) as Hdl0 by done.
  generalize dependent (with_depth d st). clear st Hs He Hno Hdl. intros st Hs He Hno Hdl.
  destruct (round_ok rank d F st Hs He) as (batch & t1 & next & w & t2 & Ha & Hw & Hr & Hbl).
  rewrite Ha, ret_bind, Hw. cbn [with_references visited].
  set (cand := set_remove_all (set_remove_all next (avoided c)) (visited st)).
  assert (forall v, set_contains cand v = true <-> set_contains next v = true /\
    set_contains (avoided c) v <> true /\ set_contains (visited st) v <> true) as Hcand.
  { intros v. unfold cand. rewrite !in_remove_all. tauto. }
  assert (unlimited (with_references t2 st) -> unlimited st) as Hback.
  { intros [Hsl Hlim]. split; [done | by apply (rd_limit _ _ _ _ _ Hr)]. }
  assert (sound rank d F (with_references t2 st)) as Hs2.
  { destruct Hs. split; try done. apply (rd_counted _ _ _ _ _ Hr). }
  assert (unlimited (with_references t2 st) -> set_is_empty cand = true ->
    forall n v, within n v -> set_contains (visited st) v = true) as Hclosed.
  { intros Hu Hemp. apply (closed_visits rank d F); [by apply He, Hback |]. intros v Hb.
    apply (beyond_within rank d F st Hs) in Hb; [| by apply He, Hback].
    rewrite set_empty in Hemp. apply (Hemp v), Hcand. split_and!; [by apply (rd_next _ _ _ _ _ Hr) | | apply Hb].
    destruct Hb as (_ & u & _ & Hst). apply Hst. }
  destruct (d =? pt_max_depth c) eqn:Hmax; bool_inv.
  - eexists _, rank, d, F. split; [done |]. split; [done |].
    assert (forall st', visited st' = visited st -> (unlimited st' -> unlimited (with_references t2 st)) ->
      (depth_limit_reached st' = false -> set_is_empty cand = true) -> outcome rank st') as Hout.
    { intros st' HV Hun Hdlim Hu. apply Hun in Hu. pose proof (He (Hback Hu)) as Hex. rewrite HV. split_and!.
      - apply (e_within _ _ _ _ Hex).
      - intros v Hv HT. destruct Hno. by exists v.
      - intros _. split; [intros v; rewrite <- Hmax; by apply (e_all _ _ _ _ Hex) | intros; by eapply Hclosed; [done | apply Hdlim |]]. }
    destruct (set_is_empty cand) eqn:Hemp; cbn [negb];
      (split; [by destruct Hs2; split | split; [by apply Hout | by intros ?%Hback]]).
  - destruct (admit_symbols_ok cand (with_references t2 st) (w_len _ _ _ _ Hs2)) as (nx & limit & -> & Hnc & Hlen & Hl).
    cbn [visited references predecessors depth_reached depth_limit_reached symbol_limit_reached with_references] in *.
    set (st1 := mk_path_state _ _ _ _ _ _).
    assert (limit = false -> limit_reached t2 = false -> unlimited st) as Hback2 by (intros Hu1 Hu2; apply Hback; by split; [apply Hl |]).
    destruct (set_is_empty nx) eqn:Hnx.
    { exists st1, rank, d, F. split_and!; [done | lia | by destruct Hs2; split | | by intros [? ?]; apply Hback2].
      intros [Hu1 Hu2]. cbn in Hu1, Hu2.
      destruct (Hl Hu1) as [Hu0 ->]. assert (unlimited (with_references t2 st)) as Hu by done. split_and!.
      - apply (e_within _ _ _ _ (He (Hback Hu))).
      - intros v Hv HT. destruct Hno. by exists v.
      - intros _. split; intros; by eapply (Hclosed Hu). }
    change (with_visited _ _) with (entered st t2 w nx limit).
    assert (forall v, set_contains nx v = true -> set_contains next v = true /\ set_contains (avoided c) v <> true /\
      set_contains (visited st) v <> true) as Hnx' by (intros v Hv; by apply Hcand, Hnc).
    pose proof (entered_sound rank d F st t2 next nx w limit Hs Hr Hnx' Hnx Hlen) as Hs'.
    pose proof (entered_exact rank d F st t2 next nx w limit Hs Hr Hnx' He) as He'.
    specialize (He' ltac:(intros ->; split; [by apply Hl | destruct (Hl eq_refl) as [_ ->]; intros; by apply Hcand])).
    destruct (set_intersects nx to_set) eqn:Hmeet.
    { eexists _, (later rank d st), (S d), nx. split; [done |]. split_and!; [lia | by destruct Hs'; split | | by intros [? ?]; apply Hback2].
      intros Hu. specialize (He' Hu). cbn [with_depth visited]. split_and!; [apply (e_within _ _ _ _ He') | |].
      - intros v Hv HT x n HTx Hn. pose proof (w_rank _ _ _ _ Hs' v Hv) as Hrk.
        destruct (decide (n <= d)) as [Hnd |]; [| lia]. exfalso. apply Hno. exists x. split; [| done].
        assert (unlimited st) as Hu0 by (destruct Hu; by apply Hback2).
        apply (e_all _ _ _ _ (He Hu0)). by apply (within_mono n).
      - intros Hn. destruct Hn. apply intersects_iff in Hmeet as (v & Hv & HT). exists v. split; [apply in_union; by right | done]. }
    assert (~ meets (entered st t2 w nx limit)) as Hno'.
    { intros (v & [Hv | Hv]%in_union & HT); [apply Hno; by exists v |].
      apply not_true_iff_false in Hmeet. apply Hmeet, intersects_iff. by exists v. }
    destruct (batch_limit_reached batch || symbol_limit_reached (entered st t2 w nx limit)) eqn:Hstop.
    { exists (entered st t2 w nx limit), (later rank d st), (S d), nx. split_and!; [done | lia | done | | by intros [? ?]; apply Hback2].
      intros [Hu1 Hu2]. rewrite Hu1, orb_false_r in Hstop. apply Hbl in Hstop. cbn in Hu2. congruence. }
    rewrite Nat.add_1_r. destruct (IH (S d) (later rank d st) nx (entered st t2 w nx limit))
      as (st' & rank' & d' & F' & Hw' & Hd' & Hs'' & Ho & Hu); [lia | lia | done | done | done | done |].
    exists st', rank', d', F'. split_and!; try done. intros H%Hu. destruct H. by apply Hback2.
Qed.
End walk.
End PathWalk.
