(* ===== verification/PathTheorems.v ===== *)
(** The answers of the path engine: a path it gives is a shortest one, within the
    limits; when it gives none and met no limit, there is none.

    The path engine over a snapshot: its answers against the resolved references
    of the linkage, from the snapshot's records to the path. *)

From stdpp Require Import relations.
From S2P Require Import Prelude.
From S2P Require Import Snapshot.
From S2P Require Import Bitmap.
From S2P Require Import Inventory.
From S2P Require Import InventoryInv.
From S2P Require Import LinkIndex.
From S2P Require Import LinkIndexFacts.
From S2P Require Import Paths.
From S2P Require Import PathSets.
From S2P Require Import PathWalk.

Module PathTheorems.
Import Snapshot Inventory InventoryInv LinkIndex LinkIndexFacts LinkIndexTheorems Paths PathSets PathStep PathWalk.

Section run.
Context {R : Roaring} {RL : RoaringLaws R} {HO : HashOrder} {E : Type}.
Context (c : PathTraversal) (kind : N -> option bytes) (Hp : postings_exact (pt_index c) kind).
Implicit Types (k o u v : N).

(** ** Reconstruction *)

(** The edges [p] lead from [s] to [t]. *)
Fixpoint route (s : N) (p : list BoundedPathEdge) (t : N) : Prop :=
  match p with
  | [] => s = t
  | e :: p => exists k m, arc (pt_index c) kind (pt_relations c) k s m /\ enters c m /\
      ri_symbol (pt_index c) s = Some (edge_source e) /\ ri_symbol (pt_index c) m = Some (edge_target e) /\
      reference_id (pt_index c) k = Some (edge_reference e) /\ route m p t
  end.

Lemma route_snoc s p m e k t :
  route s p m -> arc (pt_index c) kind (pt_relations c) k m t -> enters c t ->
  ri_symbol (pt_index c) m = Some (edge_source e) -> ri_symbol (pt_index c) t = Some (edge_target e) ->
  reference_id (pt_index c) k = Some (edge_reference e) -> route s (p ++ [e]) t.
Proof.
  revert s. induction p as [| e' p IH]; intros s Hr Harc Hent Hs Ht Hid; cbn in Hr |- *.
  - subst s. by exists k, t.
  - destruct Hr as (k' & m' & Ha & He & Hs' & Ht' & Hi & Hr). exists k', m'. split_and!; try done. by apply IH.
Qed.

Lemma reconstruct_ok (from_set : SymbolSet) rank d F st :
  sound c kind from_set rank d F st -> forall fuel v acc,
  set_contains (visited st) v = true -> rank v <= fuel ->
  exists p s, reconstruct_loop (E:=E) fuel (pt_index c) (predecessors st) from_set v acc = Ok (Some (p ++ reverse acc)) /\
    set_contains from_set s = true /\ route s p v /\ length p = rank v.
Proof using Hp.
  intros Hs. induction fuel as [| fuel IH]; intros v acc Hv Hf; cbn [reconstruct_loop].
  all: destruct (set_contains from_set v) eqn:Hfrom;
    [exists [], v; apply (w_start _ _ _ _ _ _ _ Hs) in Hfrom as Hr; destruct Hr as [_ Hr]; split_and!; [done | done | done | by rewrite Hr] |].
  all: assert (rank v <> 0) as H0 by (intros H0; assert (set_contains from_set v = true) by (by apply (w_start _ _ _ _ _ _ _ Hs)); congruence).
  - lia.
  - destruct (w_pred _ _ _ _ _ _ _ Hs v Hv H0) as (u & k & id & Hpr & Hid & Harc & Hu & Hrk).
    destruct (arc_symbols (pt_index c) kind Hp _ k u v Harc) as [[su Hsu] [sv Hsv]].
    rewrite Hpr. cbn [mbind option_bind]. rewrite Hsu. cbn [mbind option_bind]. rewrite Hsv. cbn [mbind option_bind].
    destruct (IH u (acc ++ [mk_path_edge su sv id])) as (p & s & Hl & Hfs & Hroute & Hlen); [done | lia |].
    exists (p ++ [mk_path_edge su sv id]), s. split_and!; [| done | | by rewrite length_app, Hlen, Hrk; cbn; lia].
    + rewrite Hl, reverse_app. by rewrite <- app_assoc.
    + eapply route_snoc; [done | exact Harc | by apply (w_enters _ _ _ _ _ _ _ Hs) | done..].
Qed.

(** ** A run *)

Section between.
Context (from to_set : SymbolSet).

Definition departs v : Prop := set_contains from v = true /\ enters c v.
Definition arrives v : Prop := set_contains to_set v = true /\ enters c v.

(** What an answer says. *)
Record answers (s : BoundedPathSearch) : Prop := mk_answers {
  an_symbols : (ps_explored_symbols s <= pt_max_symbols c)%N;
  an_edges : (cov_total (ps_coverage s) <= pt_max_edges c)%N;
  an_path : ps_path s <> [] -> exists a b, departs a /\ arrives b /\ route a (ps_path s) b /\
    length (ps_path s) <= pt_max_depth c;
  an_least a b n : ps_symbol_limit s = false -> ps_edge_limit s = false -> departs a -> arrives b ->
    nsteps (step c kind) n a b -> length (ps_path s) <= n;
  an_none a b n : ps_symbol_limit s = false -> ps_edge_limit s = false -> ps_path s = [] ->
    (forall v, departs v -> ~ arrives v) -> departs a -> arrives b -> nsteps (step c kind) n a b ->
    pt_max_depth c < n /\ ps_depth_limit s = true
}.

Lemma run_between_ok :
  exists r, run_between (E:=E) c from to_set = Ok r /\
    match r with
    | None => (forall v, ~ departs v) \/ (forall v, ~ arrives v)
    | Some s => answers s
    end.
Proof using Hp RL.
  unfold run_between.
  assert (forall v, set_contains (endpoint_ordinals c from) v = true <-> departs v) as Hdep by (intros v; by rewrite in_endpoints).
  assert (forall v, set_contains (endpoint_ordinals c to_set) v = true <-> arrives v) as Harr by (intros v; by rewrite in_endpoints).
  set (S0 := endpoint_ordinals c from) in *. set (T := endpoint_ordinals c to_set) in *.
  destruct (set_is_empty S0 || set_is_empty T) eqn:Hemp.
  { eexists. split; [done |].
    apply orb_true_iff in Hemp as [H | H]; rewrite set_empty in H; [left | right]; intros v Hv; apply (H v);
      [by apply Hdep | by apply Harr]. }
  apply orb_false_iff in Hemp as [Hne _].
  assert (exists S limit, (if (pt_max_symbols c <? set_len S0)%N
      then (set_take (pt_max_symbols c) S0, with_symbol_limit path_state_new) else (S0, path_state_new)) =
      (S, mk_path_state set_new traversal_default ∅ 0 false limit) /\
    (forall v, set_contains S v = true -> set_contains S0 v = true) /\ (set_len S <= pt_max_symbols c)%N /\
    (limit = false -> S = S0)) as (S & limit & -> & HS & Hlen & Hlim).
  { destruct (_ <? _)%N eqn:Hlt.
    - exists (set_take (pt_max_symbols c) S0), true. split_and!; [done | intros v; apply in_take | apply len_take | done].
    - exists S0, false. apply N.ltb_ge in Hlt. done. }
  change (with_visited S _) with (mk_path_state S traversal_default ∅ 0 false limit).
  set (st0 := mk_path_state S traversal_default ∅ 0 false limit).
  assert (sound c kind S (fun _ => 0) 0 S st0) as Hs0.
  { split; cbn [st0 visited references predecessors]; try done.
    - intros v. tauto.
    - intros v. by rewrite lookup_empty; intros [? ?].
    - intros v Hv. apply Hdep, HS, Hv.
    - apply counted_default. }
  assert (unlimited st0 -> exact c kind S (fun _ => 0) 0 S st0) as He0.
  { intros _. split; cbn [st0 visited references].
    - intros v. by rewrite within_0.
    - done.
    - intros. lia.
    - intros v. by rewrite within_0.
    - intros k s Hk. by apply ref_contains_new in Hk. }
  assert (exists st rank d F, (if negb (set_intersects S T) then walk c S T st0 else mret st0) = Ok (E:=E) st /\
    d <= pt_max_depth c /\ sound c kind S rank d F st /\ outcome c kind S T rank st /\ (unlimited st -> limit = false))
      as (st & rank & d & F & -> & Hd & Hs & Hout & Hul).
  { destruct (set_intersects S T) eqn:Hmeet; cbn [negb].
    - exists st0, (fun _ => 0), 0, S. split_and!; [done | lia | done | | by intros [? _]]. intros Hu. cbn [st0 visited]. split_and!.
      + intros v. by rewrite within_0.
      + intros. lia.
      + intros Hno. destruct Hno. apply intersects_iff in Hmeet as (v & ? & ?). by exists v.
    - unfold walk. destruct (walk_loop_ok (E:=E) c kind Hp S T (Datatypes.S (pt_max_depth c)) 0 (fun _ => 0) S st0)
        as (st & rank & d & F & Hw & Hd & Hs & Hout & Hu); [lia | lia | done | done | | done |].
      + intros (v & Hv & HT). apply not_true_iff_false in Hmeet. apply Hmeet, intersects_iff. by exists v.
      + exists st, rank, d, F. split_and!; try done. by intros [? _]%Hu. }
  rewrite ret_bind.
  assert (forall p, (p <> [] -> exists a b, departs a /\ arrives b /\ route a p b /\ length p <= pt_max_depth c) ->
    (forall a b n, symbol_limit_reached st = false -> limit_reached (references st) = false -> departs a -> arrives b ->
       nsteps (step c kind) n a b -> length p <= n) ->
    (forall a b n, symbol_limit_reached st = false -> limit_reached (references st) = false -> p = [] ->
       (forall v, departs v -> ~ arrives v) -> departs a -> arrives b -> nsteps (step c kind) n a b ->
       pt_max_depth c < n /\ depth_limit_reached st = true) ->
    answers (mk_path_search p (coverage (references st)) (depth_reached st) (set_len (visited st))
      (explored_edges (references st)) (depth_limit_reached st) (symbol_limit_reached st) (limit_reached (references st)))) as Hanswer.
  { intros p H1 H2 H3. split; cbn; try done.
    - apply (w_len _ _ _ _ _ _ _ Hs).
    - destruct (w_counted _ _ _ _ _ _ _ Hs) as [Hle ->]. done. }
  assert (unlimited st -> forall a b n, departs a -> nsteps (step c kind) n a b -> within c kind S n b) as Hwithin.
  { intros Hu a b n Ha Hn. exists a. rewrite (Hlim (Hul Hu)). split; [by apply Hdep | apply bsteps_nsteps; by exists n]. }
  destruct (List.find (set_contains T) (set_iter (visited st))) as [v |] eqn:Hfind.
  - apply find_some in Hfind as [Hv HT]. apply list_elem_of_In, in_iter in Hv.
    destruct (reconstruct_ok S rank d F st Hs (size (predecessors st)) v [] Hv) as (p & s & Hrec & HSs & Hroute & Hplen).
    { pose proof (w_rank _ _ _ _ _ _ _ Hs v Hv). pose proof (w_size _ _ _ _ _ _ _ Hs). lia. }
    unfold reconstruct_path_from_any. rewrite Hrec, ret_bind. eexists. split; [done |]. rewrite app_nil_r. apply Hanswer.
    + intros _. exists s, v. split_and!; [by apply Hdep, HS | by apply Harr | done |].
      pose proof (w_rank _ _ _ _ _ _ _ Hs v Hv). lia.
    + intros a b n Hu1 Hu2 Ha Hb Hn. destruct (Hout (conj Hu1 Hu2)) as (_ & Hmin & _). rewrite Hplen.
      apply (Hmin v Hv HT b n); [by apply Harr | by apply (Hwithin (conj Hu1 Hu2) a)].
    + intros a b n Hu1 Hu2 -> Hdisj. exfalso. apply (Hdisj v); [| by apply Harr].
      apply Hdep, HS, (w_start _ _ _ _ _ _ _ Hs). by rewrite <- Hplen.
  - eexists. split; [done |]. apply Hanswer; [done | intros; cbn; lia |].
    intros a b n Hu1 Hu2 _ Hdisj Ha Hb Hn. destruct (Hout (conj Hu1 Hu2)) as (_ & _ & Hnone).
    pose proof (Hwithin (conj Hu1 Hu2) a b n Ha Hn) as Hw.
    assert (set_contains (visited st) b <> true) as Hnb.
    { intros Hv. apply in_iter, list_elem_of_In in Hv. apply (find_none _ _ Hfind) in Hv. apply Harr in Hb. congruence. }
    destruct Hnone as [Hnear Hall].
    { intros (v & Hv & HT). apply in_iter, list_elem_of_In in Hv. apply (find_none _ _ Hfind) in Hv. congruence. }
    split.
    + destruct (decide (n <= pt_max_depth c)) as [Hle |]; [| lia]. exfalso. apply Hnb, Hnear. by apply (within_mono c kind S n).
    + destruct (depth_limit_reached st); [done |]. exfalso. by apply Hnb, (Hall eq_refl n).
Qed.
End between.
End run.
End PathTheorems.

Module PathAnswers.
Import Snapshot Inventory InventoryInv LinkIndex LinkIndexFacts LinkIndexTheorems Paths PathSets PathStep PathWalk PathTheorems.

Section answers.
Context {R : Roaring} {RL : RoaringLaws R} {HO : HashOrder}.
Context (linkage : LinkageSnapshot) (table : RecordTable ReferenceRecord) (cat : SymbolOrdinalCatalog).
Context (roots : list N) (ri : LinkageReadIndex).
Context (relations : list bytes) (avoid : list SymbolId) (limits : BoundedPathLimits) (scope : BoundedPathScope).
Implicit Types (k o s t : N) (a b u v : SymbolId).

(** ** The graph of the resolved references *)

(** A search may enter the symbol: it is in the scope and not avoided. *)
Definition may_enter o : Prop :=
  scope_contains scope ri o = true /\ forall id, id ∈ avoid -> ordinal cat id <> Some o.

(** The reference [id] leads from the symbol [u] to [v]: it is in the table, its
    kind is one of those asked for, and an edge resolves it. *)
Definition link (id : ReferenceId) u v : Prop :=
  exists r e, r ∈ iter table /\ r_id r = id /\ source_symbol r = u /\ allowed relations (r_kind r) /\
    e ∈ resolved linkage /\ e_reference e = id /\ e_target e = v /\
    exists o, ordinal cat v = Some o /\ may_enter o.

Definition hop u v : Prop := exists id, link id u v.

Fixpoint linked_path a (p : list BoundedPathEdge) b : Prop :=
  match p with
  | [] => a = b
  | e :: p => edge_source e = a /\ link (edge_reference e) a (edge_target e) /\ linked_path (edge_target e) p b
  end.

Hypothesis Hio : index_of linkage table cat roots ri.
Hypothesis Hcat : catalog_ok cat.
Hypothesis Hsorted : StronglySorted id_lt (r_id <$> iter table).

Abbreviation c := (path_traversal_new ri relations avoid limits scope).

Lemma enters_iff o : enters c o <-> may_enter o.
Proof using Hio RL.
  unfold enters, may_enter. cbn [path_traversal_new pt_scope pt_index avoided].
  rewrite in_from_iter, list_elem_of_omap. unfold ri_ordinal. rewrite (io_catalog _ _ _ _ _ Hio). split.
  - intros [Hsc Hn]. split; [done |]. intros id Hid Ho. apply Hn. by exists id.
  - intros [Hsc Hn]. split; [done |]. intros (id & Hid & Ho). by eapply Hn.
Qed.

Lemma kind_allowed_iff k r :
  iter table !! N.to_nat k = Some r ->
  kind_allowed (kind_of table) (distinct ∅ relations) k <-> allowed relations (r_kind r).
Proof using.
  intros Hr. unfold kind_allowed, kind_of. rewrite Hr. cbn. setoid_rewrite allowed_distinct. split.
  - by intros (x & [= <-] & ?).
  - intros ?. by exists (r_kind r).
Qed.

Lemma arc_link k s t u :
  id_of cat s = Some u -> arc ri (kind_of table) (distinct ∅ relations) k s t -> enters c t ->
  exists v id, id_of cat t = Some v /\ reference_id ri k = Some id /\ link id u v.
Proof using Hio Hcat RL.
  intros Hu (Hres & Hs & Ht & Hk) Hent%enters_iff.
  apply (io_target _ _ _ _ _ Hio) in Ht as (r & Hr & e & He & Hid & Ho).
  rewrite (io_source _ _ _ _ _ Hio k r Hr) in Hs. apply (kind_allowed_iff k r Hr) in Hk.
  exists (e_target e), (r_id r). split_and!.
  - by apply (cat_bij _ Hcat).
  - unfold reference_id. by rewrite (io_ids _ _ _ _ _ Hio), list_lookup_fmap, Hr.
  - exists r, e. split_and!; try done; [by eapply list_elem_of_lookup_2 | | by exists t].
    apply (cat_bij _ Hcat) in Hs. unfold id_of in Hu. congruence.
Qed.

Lemma link_arc id s u v :
  id_of cat s = Some u -> link id u v ->
  exists k t, id_of cat t = Some v /\ arc ri (kind_of table) (distinct ∅ relations) k s t /\ enters c t.
Proof using Hio Hcat RL.
  intros Hu (r & e & [n Hr]%list_elem_of_lookup_1 & Hid & Hsrc & Hal & He & Heid & <- & t & Ht & Hent).
  exists (N.of_nat n), t. assert (iter table !! N.to_nat (N.of_nat n) = Some r) as Hr' by by rewrite Nat2N.id.
  split; [by apply (cat_bij _ Hcat) |]. split; [| by apply enters_iff]. split_and!.
  - apply (io_resolved _ _ _ _ _ Hio). exists r, e. split_and!; [done | done | congruence].
  - rewrite (io_source _ _ _ _ _ Hio _ r Hr'), Hsrc. by apply (cat_bij _ Hcat).
  - apply (io_target _ _ _ _ _ Hio). exists r. split; [done |]. exists e. split_and!; [done | congruence | done].
  - by apply (kind_allowed_iff _ r Hr').
Qed.

Lemma hops_steps n u v s :
  nsteps hop n u v -> id_of cat s = Some u ->
  exists t, id_of cat t = Some v /\ nsteps (step c (kind_of table)) n s t.
Proof using Hio Hcat RL.
  intros Hn. revert s. induction Hn as [u | n u w v [id Hl] Hn IH]; intros s Hs.
  - exists s. split; [done | constructor].
  - destruct (link_arc id s u w Hs Hl) as (k & t & Ht & Harc & Hent).
    destruct (IH t Ht) as (t' & Ht' & Hst). exists t'. split; [done |].
    apply nsteps_l with t; [| done]. split; [by exists k | done].
Qed.

Lemma route_linked s p t u :
  id_of cat s = Some u -> route c (kind_of table) s p t ->
  exists v, id_of cat t = Some v /\ linked_path u p v.
Proof using Hio Hcat RL.
  revert s u. induction p as [| e p IH]; intros s u Hu Hr; cbn in Hr |- *.
  - subst t. by exists u.
  - destruct Hr as (k & m & Harc & Hent & Hsrc & Htgt & Hid & Hr).
    destruct (arc_link k s m u Hu Harc Hent) as (w & id & Hw & Hid' & Hl).
    destruct (IH m w Hw Hr) as (v & Hv & Hp). exists v. split; [done |].
    unfold ri_symbol in Hsrc, Htgt. rewrite (io_catalog _ _ _ _ _ Hio) in Hsrc, Htgt.
    assert (edge_source e = u) by congruence. assert (edge_target e = w) as -> by congruence.
    assert (edge_reference e = id) as -> by congruence. done.
Qed.
End answers.

(** ** Requests *)

Section requests.
Context {R : Roaring} {RL : RoaringLaws R} {HO : HashOrder}.

(** A symbol of one of the sets of a request that a search may enter. *)
Definition end_point cat ri (rq : BoundedPathSetRequest) (set : SymbolSet) (a : SymbolId) : Prop :=
  exists o, ordinal cat a = Some o /\ set_contains set o = true /\
    may_enter cat ri (sr_avoid rq) (sr_scope rq) o.

Record path_answer linkage table cat ri (rq : BoundedPathSetRequest) (s : BoundedPathSearch) : Prop := mk_answer {
  pa_symbols : (ps_explored_symbols s <= max_symbols (sr_limits rq))%N;
  pa_edges : (cov_total (ps_coverage s) <= max_edges (sr_limits rq))%N;
  pa_path : ps_path s <> [] -> exists a b, end_point cat ri rq (sr_from rq) a /\ end_point cat ri rq (sr_to rq) b /\
    linked_path linkage table cat ri (sr_relations rq) (sr_avoid rq) (sr_scope rq) a (ps_path s) b /\
    length (ps_path s) <= max_depth (sr_limits rq);
  pa_least a b n : ps_symbol_limit s = false -> ps_edge_limit s = false ->
    end_point cat ri rq (sr_from rq) a -> end_point cat ri rq (sr_to rq) b ->
    nsteps (hop linkage table cat ri (sr_relations rq) (sr_avoid rq) (sr_scope rq)) n a b ->
    length (ps_path s) <= n;
  pa_none a b n : ps_symbol_limit s = false -> ps_edge_limit s = false -> ps_path s = [] ->
    (forall o, set_contains (sr_from rq) o = true -> set_contains (sr_to rq) o = true ->
       ~ may_enter cat ri (sr_avoid rq) (sr_scope rq) o) ->
    end_point cat ri rq (sr_from rq) a -> end_point cat ri rq (sr_to rq) b ->
    nsteps (hop linkage table cat ri (sr_relations rq) (sr_avoid rq) (sr_scope rq)) n a b ->
    max_depth (sr_limits rq) < n /\ ps_depth_limit s = true
}.

(** C3: Over the read index of a snapshot a search for a path between two sets of
    symbols always ends without a panic. It answers nothing only when the request
    exceeds its own limits or an end is empty. A path it gives is made of resolved
    references of the relations asked for, stays in the scope, avoids what is to be
    avoided and is no longer than the depth. When no limit on symbols or edges was
    met it is a shortest one; and an empty answer then means that there is no path
    at all, or none within the depth, and says which. The limits are respected. *)
Theorem bounded_path_exact (linkage : LinkageSnapshot) (table : RecordTable ReferenceRecord)
    (cat : SymbolOrdinalCatalog) (roots : list N) (rq : BoundedPathSetRequest)
    (Hs : StronglySorted id_lt (r_id <$> iter table)) (Hn : narrow (length (iter table)))
    (Hcat : catalog_ok cat) (Hnd : NoDup (e_reference <$> resolved linkage)) :
  exists ri r, from_snapshot_with_catalog (E:=()) linkage table cat roots = Ok ri /\
    bounded_path_between (E:=()) (index_generation linkage) linkage (Some ri) rq = Ok r /\
    match r with
    | None =>
        (forall a, ~ end_point cat ri rq (sr_from rq) a) \/ (forall b, ~ end_point cat ri rq (sr_to rq) b) \/
        (max_symbols (sr_limits rq) < set_len (sr_from rq))%N \/
        (max_symbols (sr_limits rq) < set_len (sr_to rq))%N \/
        exceeds (sr_scope rq) (max_symbols (sr_limits rq)) = true
    | Some s => path_answer linkage table cat ri rq s
    end.
Proof using RL.
  destruct (read_index_built linkage table cat roots Hs Hn Hcat Hnd) as (ri & Hri & Hio).
  unfold bounded_path_between, engine_new. rewrite N.eqb_refl. cbn [negb]. unfold search_between.
  set (c := path_traversal_new ri (sr_relations rq) (sr_avoid rq) (sr_limits rq) (sr_scope rq)).
  assert (forall set o, set_contains set o = true /\ enters c o <->
    set_contains set o = true /\ may_enter cat ri (sr_avoid rq) (sr_scope rq) o) as Hent.
  { intros set o. unfold c. by rewrite (enters_iff linkage table cat roots ri _ _ _ _ Hio). }
  destruct (_ || _) eqn:Hg.
  - exists ri, None. split; [done |]. split; [done |].
    apply orb_true_iff in Hg as [[[[Hg | Hg]%orb_true_iff | Hg%N.ltb_lt]%orb_true_iff | Hg%N.ltb_lt]%orb_true_iff | Hg];
      [left | right; left | tauto..]; intros a (o & _ & Ho & _); rewrite set_empty in Hg; by apply (Hg o).
  - destruct (run_between_ok (E:=()) c (kind_of table) (io_postings _ _ _ _ _ Hio) (sr_from rq) (sr_to rq)) as (r & Hr & Hans).
    exists ri, r. split; [done |]. split; [done |]. destruct r as [s |].
    2: { destruct Hans as [H | H]; [left | right; left]; intros a (o & _ & Ho); by eapply H, Hent. }
    destruct Hans as [Hsym Hedge Hpath Hleast Hnone].
    assert (forall set a o, ordinal cat a = Some o -> end_point cat ri rq set a -> set_contains set o = true /\ enters c o) as Hend.
    { intros set a o Ho (o' & Ho' & Hin). rewrite Ho in Ho'. injection Ho' as <-. by apply Hent. }
    split; [exact Hsym | exact Hedge | | |].
    + intros Hne. destruct (Hpath Hne) as (s0 & t0 & Hdep & Harr & Hroute & Hlen).
      assert (exists u, id_of cat s0 = Some u) as [u Hu].
      { destruct (ps_path s) as [| e p]; [done |]. cbn in Hroute. destruct Hroute as (k & m & _ & _ & Hsrc & _).
        unfold ri_symbol in Hsrc. rewrite (io_catalog _ _ _ _ _ Hio) in Hsrc. by eexists. }
      destruct (route_linked linkage table cat roots ri _ _ _ _ Hio Hcat _ _ _ _ Hu Hroute) as (v & Hv & Hlp).
      exists u, v. split_and!; [| | done | done].
      * exists s0. split; [by apply (cat_bij _ Hcat) | by apply Hent].
      * exists t0. split; [by apply (cat_bij _ Hcat) | by apply Hent].
    + intros a b n H1 H2 Ha Hb Hsteps. pose proof Ha as (o & Ho & _). pose proof Hb as (o' & Ho' & _).
      destruct (hops_steps linkage table cat roots ri _ _ (sr_limits rq) _ Hio Hcat n a b o Hsteps) as (t & Ht & Hst); [by apply (cat_bij _ Hcat) |].
      assert (t = o') as -> by (apply (cat_bij _ Hcat) in Ht; unfold ordinal in Ho'; congruence).
      apply (Hleast o o' n H1 H2); [by eapply Hend | by eapply Hend | done].
    + intros a b n H1 H2 Hnil Hdis Ha Hb Hsteps. pose proof Ha as (o & Ho & _). pose proof Hb as (o' & Ho' & _).
      destruct (hops_steps linkage table cat roots ri _ _ (sr_limits rq) _ Hio Hcat n a b o Hsteps) as (t & Ht & Hst); [by apply (cat_bij _ Hcat) |].
      assert (t = o') as -> by (apply (cat_bij _ Hcat) in Ht; unfold ordinal in Ho'; congruence).
      apply (Hnone o o' n H1 H2 Hnil); [| by eapply Hend | by eapply Hend | done].
      intros x [Hx1 Hx2]%Hent [Hx3 _]. by apply (Hdis x).
Qed.
End requests.

(** ** A concrete request *)

#[local] Existing Instances GsetRoaring.gset_roaring GsetRoaring.gset_roaring_laws.
#[local] Existing Instance LinkIndexTheorems.listed_order.

(** From 0.0 to 1.1 by any relation, within three references. *)
Definition sample_request : BoundedPathSetRequest :=
  mk_set_request (set_from_symbol 0%N) (set_from_symbol 3%N) [] [] (mk_limits 3 10 10) all_scope.

Definition sample_search (rq : BoundedPathSetRequest) : option (option BoundedPathSearch) :=
  match from_snapshot_with_catalog (E:=()) sample_linkage sample_references sample_catalog [0%N; 1%N] with
  | Ok ri => match bounded_path_between (E:=()) 1%N sample_linkage (Some ri) rq with Ok r => Some r | _ => None end
  | _ => None
  end.

Example sample_path :
  option_map (option_map ps_path) (sample_search sample_request) = Some (Some
    [mk_path_edge (symbol_at 0 0) (symbol_at 0 1) (reference_at 0 0);
     mk_path_edge (symbol_at 0 1) (symbol_at 1 0) (reference_at 0 1);
     mk_path_edge (symbol_at 1 0) (symbol_at 1 1) (reference_at 1 0)]).
Proof. vm_compute. reflexivity. Qed.

Example sample_too_deep :
  option_map (option_map (fun s => (ps_path s, ps_depth_limit s, cov_unresolved (ps_coverage s))))
    (sample_search (mk_set_request (set_from_symbol 0%N) (set_from_symbol 3%N) [] [] (mk_limits 1 10 10) all_scope))
  = Some (Some ([], true, 1%N)).
Proof. vm_compute. reflexivity. Qed.

Lemma bounded_path_exact_witness :
  StronglySorted id_lt (r_id <$> iter sample_references) /\ catalog_ok sample_catalog /\
  exists ri r, from_snapshot_with_catalog (E:=()) sample_linkage sample_references sample_catalog [0%N; 1%N] = Ok ri /\
    bounded_path_between (E:=()) 1%N sample_linkage (Some ri) sample_request = Ok r.
Proof.
  split; [exact sample_sorted | split; [exact sample_catalog_ok |]].
  destruct (bounded_path_exact sample_linkage sample_references sample_catalog [0%N; 1%N] sample_request
    sample_sorted sample_narrow sample_catalog_ok sample_edges_distinct) as (ri & r & Hri & Hr & _).
  exists ri, r. exact (conj Hri Hr).
Defined.
End PathAnswers.
