(* ===== verification/CorridorFacts.v ===== *)
(** Corridors: the layers of the two walks, the members and the references between
    them; they are the symbols and references of the paths that fit the depth. *)

From stdpp Require Import relations.
From S2P Require Import Prelude.
From S2P Require Import Bitmap.
From S2P Require Import Snapshot.
From S2P Require Import Inventory.
From S2P Require Import InventoryInv.
From S2P Require Import LinkIndex.
From S2P Require Import LinkIndexFacts.
From S2P Require Import Paths.
From S2P Require Import PathSets.
From S2P Require Import PathWalk.
From S2P Require Import PathTheorems.

Module CorridorFacts.
Import Snapshot Inventory InventoryInv LinkIndex LinkIndexFacts LinkIndexTheorems Paths PathSets PathStep.

Section walk.
Context {R : Roaring} {RL : RoaringLaws R} {HO : HashOrder} {E : Type}.
Context (c : CorridorTraversal) (kind : N -> option bytes) (Hp : postings_exact (ct_index c) kind).
Implicit Types (k o s t u v w : N) (st : CorridorState) (L : list SymbolSet).

Abbreviation ri := (ct_index c).
Abbreviation rels := (ct_relations c).
Abbreviation limits := (ct_limits c).

(** ** One round *)

Section direction.
Context (d : TraversalDirection) (start : SymbolSet).

Definition in_scope_c v : Prop := scope_contains (ct_scope c) ri v = true.

(** A resolved reference that leads, in the direction of the walk, from [s] to [t]. *)
Definition dstep s t : Prop :=
  (exists k, ref_contains (k_resolved (classifications ri)) k = true /\ front ri d k = Some s /\
     opposite ri d k = Some t /\ kind_allowed kind rels k) /\ in_scope_c t.

Definition dwithin n v : Prop := exists s, set_contains start s = true /\ bsteps dstep n s v.
Definition dreach n v : Prop := exists s, set_contains start s = true /\ nsteps dstep n s v.

Lemma dwithin_mono n m v : n <= m -> dwithin n v -> dwithin m v.
Proof. intros Hnm (s & Hs & Hb). exists s. split; [done |]. by eapply bsteps_weaken. Qed.

Lemma dreach_within n v : dreach n v -> dwithin n v.
Proof. intros (s & Hs & Hb). exists s. split; [done |]. apply bsteps_nsteps. by exists n. Qed.

Lemma dwithin_S n v : dwithin (S n) v <-> dwithin n v \/ exists u, dwithin n u /\ dstep u v.
Proof.
  split.
  - intros (s & Hs & (m & Hm & Hb)%bsteps_nsteps). destruct m as [| m].
    + inversion Hb; subst. left. exists v. split; [done | apply bsteps_refl].
    + apply nsteps_inv_r in Hb as (u & Hu & Huv). right. exists u. split; [| done].
      exists s. split; [done |]. apply bsteps_nsteps. exists m. split; [lia | done].
  - intros [Hn | (u & (s & Hs & Hb) & Hst)]; [by apply (dwithin_mono n); [lia |] |].
    exists s. split; [done |]. by eapply bsteps_r.
Qed.

Lemma symbols_from_references_ok (refs : ReferenceSet) (t : ReferenceTraversal) max :
  counted max t ->
  exists next (t' : ReferenceTraversal), symbols_from_references ri d refs t = (next, t') /\
    seen t' = seen t /\ limit_reached t' = limit_reached t /\ counted max t' /\
    forall v, set_contains next v = true <-> exists k, ref_contains refs k = true /\ opposite ri d k = Some v.
Proof using RL.
  intros Ht. unfold symbols_from_references.
  set (F := fun (acc : SymbolSet * ReferenceTraversal) (reference : N) => _).
  assert (forall acc k, F acc k = match opposite ri d k with
    | Some v => (set_insert v acc.1, acc.2) | None => (acc.1, tally_missing_ordinal acc.2) end) as HF by (intros acc k; by destruct d).
  clearbody F.
  assert (forall l, exists next (t' : ReferenceTraversal), foldl F (set_new, t) l = (next, t') /\
    seen t' = seen t /\ limit_reached t' = limit_reached t /\ counted max t' /\
    forall v, set_contains next v = true <-> exists k, k ∈ l /\ opposite ri d k = Some v) as H.
  { induction l as [| x l IH] using rev_ind.
    - exists set_new, t. split_and!; try done. intros v. rewrite in_new. split; [done |]. by intros (k & ?%not_elem_of_nil & _).
    - destruct IH as (next & t' & Hf & H1 & H2 & H3 & H4). rewrite foldl_app, Hf. cbn [foldl]. rewrite HF.
      setoid_rewrite elem_of_app. setoid_rewrite list_elem_of_singleton. destruct (opposite ri d x) as [y |] eqn:Hx; cbn [fst snd].
      + eexists _, t'. split_and!; try done. intros v. rewrite in_insert, H4. split.
        * intros [-> | (k & Hk & Hv)]; [exists x; split; [by right | done] | exists k; split; [by left | done]].
        * intros (k & [Hk | ->] & Hv); [right; by exists k | left; congruence].
      + eexists next, _. split_and!; try done. intros v. rewrite H4. split.
        * intros (k & Hk & Hv). exists k. split; [by left | done].
        * intros (k & [Hk | ->] & Hv); [by exists k | congruence]. }
  destruct (H (ref_iter refs)) as (next & t' & Hf & H1 & H2 & H3 & H4). exists next, t'. split_and!; try done.
  intros v. rewrite H4. unfold ref_iter, ref_contains. by setoid_rewrite bm_iter_contains.
Qed.

Lemma corridor_admit_ok (cand : SymbolSet) st :
  (set_len (seen_symbols st) <= max_symbols limits)%N ->
  exists nx seen' limit, corridor_admit_symbols cand limits st =
      (nx, mk_corridor_state seen' (c_references st) (forward_depth_reached st) (reverse_depth_reached st)
             (c_depth_limit st) limit) /\
    (forall v, set_contains nx v = true -> set_contains cand v = true) /\
    (set_len seen' <= max_symbols limits)%N /\
    (limit = false -> c_symbol_limit st = false /\ forall v, set_contains cand v = true -> set_contains nx v = true).
Proof using RL.
  intros Hlen. unfold corridor_admit_symbols.
  set (already := set_intersection cand (seen_symbols st)). set (unseen := set_difference cand (seen_symbols st)).
  assert (forall v, set_contains unseen v = true <-> set_contains cand v = true /\ set_contains (seen_symbols st) v <> true)
    as Hun by (intros v; apply in_remove_all).
  assert (forall new : SymbolSet, (forall v, set_contains new v = true -> set_contains unseen v = true) ->
    (set_len (set_union_with (seen_symbols st) new) = set_len (seen_symbols st) + set_len new)%N) as Hsum.
  { intros new Hnew. apply len_union_disjoint. intros x Hx%Hnew%Hun. apply Hx. }
  assert (forall (new : SymbolSet) v, set_contains (set_union already new) v = true <->
    (set_contains cand v = true /\ set_contains (seen_symbols st) v = true) \/ set_contains new v = true) as Hres.
  { intros new v. unfold already. pose proof (in_union already new v) as H. unfold already in H.
    rewrite in_intersection in H. exact H. }
  destruct (_ <? _)%N eqn:Hlt.
  - set (new := set_take _ _). eexists _, _, true. split; [done |].
    assert (forall v, set_contains new v = true -> set_contains unseen v = true) as Hnew by (intros v; apply in_take).
    split_and!; [| | done].
    + intros v [[? _] | Hv%Hnew%Hun]%Hres; [done | by destruct Hv].
    + rewrite Hsum by done. pose proof (len_take (max_symbols limits - set_len (seen_symbols st)) unseen) as Hle. fold new in Hle. lia.
  - eexists _, _, (c_symbol_limit st). split; [done |]. apply N.ltb_ge in Hlt. split_and!.
    + intros v [[? _] | Hv%Hun]%Hres; [done | by destruct Hv].
    + rewrite Hsum by done. lia.
    + intros Hl. split; [done |]. intros v Hv. apply Hres.
      destruct (set_contains (seen_symbols st) v) eqn:Hs; [by left | right]. apply Hun. split; [done | congruence].
Qed.

Definition reuses : bool := match d with Reverse => true | Forward => false end.

(** [k] leaves [v] in the direction of the walk, within the scope. *)
Definition leaves v k : Prop :=
  front ri d k = Some v /\ kind_allowed kind rels k /\ forall t, opposite ri d k = Some t -> in_scope_c t.

Lemma eligible_leaves (F : SymbolSet) k :
  eligible ri kind rels (ct_scope c) d F k <-> exists v, set_contains F v = true /\ leaves v k.
Proof using.
  unfold eligible, leaves. split.
  - intros ((v & Hv & HF) & Hk & Hsc). by exists v.
  - intros (v & HF & Hv & Hk & Hsc). split_and!; [by exists v | done | done].
Qed.

Lemma leaves_step k v w :
  ref_contains (k_resolved (classifications ri)) k = true -> leaves v k -> opposite ri d k = Some w -> dstep v w.
Proof using. intros Hr (Hf & Hk & Hsc) Ho. split; [exists k; by split_and! | by apply Hsc]. Qed.

Lemma step_leaves v w : dstep v w ->
  exists k, ref_contains (k_resolved (classifications ri)) k = true /\ leaves v k /\ opposite ri d k = Some w.
Proof using.
  intros [(k & Hr & Hf & Ho & Hk) Hsc]. exists k. split_and!; [done | | done]. split_and!; [done | done |].
  intros t Ht. by assert (t = w) as -> by congruence.
Qed.

Lemma corridor_round_ok (F : SymbolSet) (t : ReferenceTraversal) :
  counted (max_edges limits) t ->
  exists batch (t1 : ReferenceTraversal) next (t2 : ReferenceTraversal),
    admit_references (E:=E) ri rels (mk_selection d F (ct_scope c) reuses) (max_edges limits) t = Ok (batch, t1) /\
    symbols_from_references ri d (ref_intersection (batch_references batch) (k_resolved (classifications ri))) t1
      = (next, t2) /\
    counted (max_edges limits) t2 /\ (limit_reached t2 = false -> limit_reached t = false) /\
    (forall k, ref_contains (seen t) k = true -> ref_contains (seen t2) k = true) /\
    (forall k, ref_contains (seen t2) k = true -> ref_contains (seen t) k = true \/
       exists v, set_contains F v = true /\ leaves v k) /\
    (forall w, set_contains next w = true -> exists v, set_contains F v = true /\ dstep v w) /\
    (limit_reached t2 = false ->
     (reuses = false -> forall k v, ref_contains (seen t) k = true -> front ri d k = Some v -> set_contains F v <> true) ->
     (forall v k, set_contains F v = true -> leaves v k -> ref_contains (seen t2) k = true) /\
     forall v w, set_contains F v = true -> dstep v w -> set_contains next w = true).
Proof using Hp RL.
  intros Ht.
  destruct (admit_ok ri kind Hp rels (ct_scope c) E (mk_selection d F (ct_scope c) reuses) (max_edges limits) t eq_refl Ht)
    as (batch & t1 & Ha & Hc1 & Hl1 & Hel & Hseen & Hall).
  cbn [direction frontier reuse_seen] in *.
  set (refs := ref_intersection (batch_references batch) (k_resolved (classifications ri))).
  assert (forall k, ref_contains refs k = true <-> ref_contains (batch_references batch) k = true /\
    ref_contains (k_resolved (classifications ri)) k = true) as Hrefs by (intros k; apply in_intersection).
  destruct (symbols_from_references_ok refs t1 (max_edges limits) Hc1) as (next & t2 & Hn & Hs2 & Hl2 & Hc2 & Hnext).
  exists batch, t1, next, t2. split_and!; try done.
  - rewrite Hl2, Hl1. by intros [? _]%orb_false_iff.
  - intros k Hk. rewrite Hs2, Hseen. by left.
  - intros k. rewrite Hs2, Hseen. intros [? | Hk%Hel%eligible_leaves]; [by left | by right].
  - intros w (k & [Hb Hr]%Hrefs & Ho)%Hnext. apply Hel, eligible_leaves in Hb as (v & HF & Hv).
    exists v. split; [done |]. by apply (leaves_step k).
  - rewrite Hl2, Hl1. intros [_ Hbl]%orb_false_iff Hfresh.
    assert (forall v k, set_contains F v = true -> leaves v k -> ref_contains (batch_references batch) k = true) as Hin.
    { intros v k HF Hv. apply Hall; [done | apply eligible_leaves; by exists v |].
      destruct reuses; [by left | right]. intros Hk. apply (Hfresh eq_refl k v Hk); [apply Hv | done]. }
    split; [intros v k HF Hv; rewrite Hs2, Hseen; right; by apply (Hin v) |].
    intros v w HF (k & Hr & Hv & Ho)%step_leaves. apply Hnext. exists k. split; [| done]. apply Hrefs. split; [by apply (Hin v) | done].
Qed.

(** ** The layers *)

Definition in_layer L i v : Prop := exists Li, L !! i = Some Li /\ set_contains Li v = true.

Definition cunlimited st : Prop := c_symbol_limit st = false /\ limit_reached (c_references st) = false.

(** The layer of each symbol is its distance. *)
Definition layered L : Prop :=
  forall i v, i < length L -> in_layer L i v <-> dwithin i v /\ forall j, j < i -> ~ dwithin j v.

Record csound L st : Prop := mk_csound {
  cs_layer i v : in_layer L i v -> dreach i v;
  cs_len : (set_len (seen_symbols st) <= max_symbols limits)%N;
  cs_counted : counted (max_edges limits) (c_references st);
  cs_kind k : ref_contains (seen (c_references st)) k = true -> kind_allowed kind rels k;
  cs_depth : length L <= S (max_depth limits)
}.

Record cexact L st : Prop := mk_cexact {
  cx_layer : layered L;
  cx_done i v k : S i < length L -> in_layer L i v -> leaves v k -> ref_contains (seen (c_references st)) k = true;
  cx_fresh k v : reuses = false -> ref_contains (seen (c_references st)) k = true -> front ri d k = Some v ->
    exists i, S i < length L /\ in_layer L i v
}.

(** What a walk leaves. *)
Record walked L st : Prop := mk_walked {
  wk_sound : csound L st;
  wk_layered : cunlimited st -> layered L;
  wk_all n v : cunlimited st -> n <= max_depth limits -> dwithin n v -> exists i, i <= n /\ in_layer L i v;
  wk_seen i v k : cunlimited st -> in_layer L i v -> leaves v k -> ref_contains (seen (c_references st)) k = true
}.

Lemma in_layer_snoc L Li i v : in_layer (L ++ [Li]) i v <-> in_layer L i v \/ (i = length L /\ set_contains Li v = true).
Proof using.
  unfold in_layer. setoid_rewrite lookup_snoc_iff. split.
  - intros (x & [Hx | [-> ->]] & Hv); [left; by exists x | by right].
  - intros [(x & Hx & Hv) | [-> Hv]]; [exists x; split; [by left | done] | exists Li; split; [by right | done]].
Qed.

Lemma layered_least L v n :
  layered L -> n < length L -> (exists i, i <= n /\ in_layer L i v) \/ ~ dwithin n v.
Proof using.
  intros HL. assert (forall i, i < length L -> in_layer L i v \/ ~ in_layer L i v) as Hdec.
  { intros i Hi. destruct (lookup_lt_is_Some_2 _ _ Hi) as [Li HLi]. unfold in_layer. rewrite HLi.
    destruct (set_contains Li v) eqn:Hv; [left; by exists Li | right]. intros (x & [= <-] & Hx). congruence. }
  induction n as [| n IH]; intros Hn.
  - destruct (Hdec 0 Hn) as [H0 | H0]; [left; by exists 0 | right]. intros Hv. apply H0, HL; [done |]. split; [done | lia].
  - destruct IH as [(i & Hi & Hv) | Hno]; [lia | left; exists i; split; [lia | done] |].
    destruct (Hdec (S n) Hn) as [H0 | H0]; [left; by exists (S n) | right]. intros Hv. apply H0, HL; [done |].
    split; [done |]. intros j Hj Hjv. apply Hno. by apply (dwithin_mono j); [lia |].
Qed.

Lemma layered_snoc L (nx : SymbolSet) (reached : SymbolSet) Lf :
  layered L -> 0 < length L -> L !! (length L - 1) = Some Lf ->
  (forall v, set_contains reached v = true <-> exists i, in_layer L i v) ->
  (forall v, set_contains nx v = true <-> (exists u, set_contains Lf u = true /\ dstep u v) /\ set_contains reached v <> true) ->
  layered (L ++ [nx]).
Proof using.
  intros HL H0 Hf Hre Hnx i v Hi. rewrite length_app in Hi. cbn in Hi. rewrite in_layer_snoc.
  destruct (decide (i < length L)) as [Hlt | Hge].
  { rewrite (HL i v Hlt). split; [intros [? | [-> _]]; [done | lia] | by left]. }
  assert (i = length L) as -> by lia. split.
  - intros [(Li & HLi%lookup_lt_Some & _) | [_ [(u & Hu & Hst) Hnr]%Hnx]]; [lia |]. split.
    + assert (in_layer L (length L - 1) u) as [Hw _]%HL by (by exists Lf || lia); [| lia].
      replace (length L) with (S (length L - 1)) by lia. apply dwithin_S. right. by exists u.
    + intros j Hj Hjv. destruct (layered_least L v j HL Hj) as [(x & _ & Hx) | ?]; [| done]. apply Hnr, Hre. by exists x.
  - intros [Hv Hmin]. right. split; [done |]. apply Hnx. split.
    + replace (length L) with (S (length L - 1)) in Hv by lia. apply dwithin_S in Hv as [Hv | (u & Hu & Hst)]; [by apply Hmin in Hv; lia |].
      exists u. split; [| done]. destruct (layered_least L u (length L - 1) HL) as [(x & Hx & Hxu) | ?]; [lia | | done].
      destruct (decide (x = length L - 1)) as [-> | Hne]; [by destruct Hxu as (y & Hy & ?); congruence |].
      exfalso. apply (Hmin (S x)); [lia |]. apply dwithin_S. right. exists u. split; [| done]. apply HL in Hxu; [apply Hxu | lia].
    + intros (x & Hx)%Hre. assert (x < length L) as Hxl by (destruct Hx as (y & Hy & _); by eapply lookup_lt_Some).
      apply HL in Hx; [| done]. apply (Hmin x Hxl), Hx.
Qed.

Lemma layers_closed L Lf (reached : SymbolSet) :
  layered L -> 0 < length L -> L !! (length L - 1) = Some Lf ->
  (forall v, set_contains reached v = true <-> exists i, in_layer L i v) ->
  (forall u v, set_contains Lf u = true -> dstep u v -> set_contains reached v = true) ->
  forall n v, dwithin n v -> exists i, i <= n /\ in_layer L i v.
Proof using.
  intros HL H0 Hf Hre Hcl n. induction n as [| n IH]; intros v Hv.
  - by destruct (layered_least L v 0 HL H0).
  - apply dwithin_S in Hv as [Hv | (u & Hu & Hst)].
    { destruct (IH v Hv) as (i & Hi & Hiv). exists i. split; [lia | done]. }
    destruct (IH u Hu) as (i & Hi & Hiu). assert (i < length L) as Hil by (destruct Hiu as (y & Hy & _); by eapply lookup_lt_Some).
    destruct (decide (i = length L - 1)) as [-> | Hne].
    + assert (set_contains Lf u = true) as HLf by (destruct Hiu as (y & Hy & ?); congruence).
      apply (Hcl u v HLf), Hre in Hst as (j & Hj). exists j. split; [| done].
      enough (j < length L) by lia. destruct Hj as (y & Hy & _). by eapply lookup_lt_Some.
    + destruct (layered_least L v (S i) HL) as [(j & Hj & Hjv) | Hno]; [lia | exists j; split; [lia | done] |].
      exfalso. apply Hno, dwithin_S. right. exists u. split; [| done]. apply HL in Hiu; [apply Hiu | done].
Qed.

(** ** The walk *)

(** The state between two rounds. *)
Record between L (F reached : SymbolSet) st : Prop := mk_between {
  bt_sound : csound L st;
  bt_last : L !! (length L - 1) = Some F;
  bt_some : 0 < length L;
  bt_reached v : set_contains reached v = true <-> exists i, in_layer L i v;
  bt_exact : cunlimited st -> cexact L st
}.

Definition grows st st' : Prop :=
  (cunlimited st' -> cunlimited st) /\
  forall k, ref_contains (seen (c_references st)) k = true -> ref_contains (seen (c_references st')) k = true.

(** The references of the frontier are admitted. *)
Lemma between_round L F reached st (t2 : ReferenceTraversal) :
  between L F reached st -> counted (max_edges limits) t2 ->
  (limit_reached t2 = false -> limit_reached (c_references st) = false) ->
  (forall k, ref_contains (seen (c_references st)) k = true -> ref_contains (seen t2) k = true) ->
  (forall k, ref_contains (seen t2) k = true -> ref_contains (seen (c_references st)) k = true \/
     exists v, set_contains F v = true /\ leaves v k) ->
  csound L (with_c_references t2 st) /\ grows st (with_c_references t2 st).
Proof using.
  intros [[Hl Hlen Hc Hk Hd] _ _ _ _] Hc2 Hlim Hmono Hback. split; [split; cbn; try done | split].
  - intros k [? | (v & _ & _ & ? & _)]%Hback; [by apply Hk | done].
  - intros [? ?]. split; [done | by apply Hlim].
  - done.
Qed.

(** What the invariants read of a state. *)
Definition same_state st st' : Prop :=
  seen_symbols st' = seen_symbols st /\ c_references st' = c_references st /\ c_symbol_limit st' = c_symbol_limit st.

Lemma csound_seen L st st' :
  c_references st' = c_references st -> (set_len (seen_symbols st') <= max_symbols limits)%N ->
  csound L st -> csound L st'.
Proof using. intros H2 Hlen [Hl _ Hc Hk Hd]. split; rewrite ?H2; done. Qed.

Lemma csound_same L st st' : same_state st st' -> csound L st -> csound L st'.
Proof using. intros (H1 & H2 & _) Hs. apply (csound_seen L st); [done | rewrite H1; apply Hs | done]. Qed.

Lemma cexact_references L st st' : c_references st' = c_references st -> cexact L st -> cexact L st'.
Proof using. intros H2 [Hl Hd Hf]. split; rewrite ?H2; done. Qed.

Lemma cunlimited_same st st' : same_state st st' -> cunlimited st' <-> cunlimited st.
Proof using. intros (_ & H2 & H3). unfold cunlimited. by rewrite H2, H3. Qed.

Lemma grows_same st st' : same_state st st' -> grows st st'.
Proof using. intros Hs. split; [intros ?; by apply (cunlimited_same st st') | by destruct Hs as (_ & -> & _)]. Qed.

Lemma grows_trans st st1 st' : grows st st1 -> grows st1 st' -> grows st st'.
Proof using. intros [H1 H2] [H3 H4]. split; [by intros ?%H3%H1 | by intros k ?%H2%H4]. Qed.

Lemma between_same L F reached st st' : same_state st st' -> between L F reached st -> between L F reached st'.
Proof using.
  intros Hs [H1 H2 H3 H4 H5]. split; try done; [by apply (csound_same L st) |].
  intros Hu. apply (cexact_references L st); [apply Hs |]. apply H5. by apply (cunlimited_same st st').
Qed.

Lemma record_depth_same depth st : same_state st (record_depth d depth st).
Proof using. by destruct d. Qed.

Lemma push_sound L F st (nx : SymbolSet) :
  csound L st -> L !! (length L - 1) = Some F -> 0 < length L -> length L <= max_depth limits ->
  (forall v, set_contains nx v = true -> exists u, set_contains F u = true /\ dstep u v) ->
  csound (L ++ [nx]) st.
Proof using.
  intros [Hl Hlen Hc Hk Hd] Hf H0 Hmax Hnx. split; try done; [| rewrite length_app; cbn; lia].
  intros i v [Hv | [-> (u & Hu & Hst)%Hnx]]%in_layer_snoc; [by apply Hl |].
  destruct (Hl (length L - 1) u) as (s & Hs & Hn); [by exists F |]. exists s. split; [done |].
  replace (length L) with (S (length L - 1)) by lia. by apply nsteps_r with u.
Qed.

Lemma corridor_walk_loop_ok steps : forall depth L F reached st,
  depth + steps = S (max_depth limits) -> depth <= max_depth limits -> length L = S depth ->
  between L F reached st ->
  exists L' st', corridor_walk_loop (E:=E) steps depth c d F reached L st = Ok (L', st') /\ walked L' st' /\ grows st st'.
Proof using Hp RL.
  induction steps as [| steps IH]; intros depth L F reached st Hsteps Hle HlenL Hb; [lia |]. cbn [corridor_walk_loop].
  enough (exists L' st', corridor_walk_loop (E:=E) (S steps) depth c d F reached L st = Ok (L', st') /\
    walked L' st' /\ grows (record_depth d depth st) st') as (L' & st' & H1 & H2 & H3).
  { exists L', st'. split_and!; [done | done |]. apply (grows_trans st (record_depth d depth st)); [| done]. apply grows_same, record_depth_same. }
  cbn [corridor_walk_loop].
  apply (between_same L F reached st (record_depth d depth st) (record_depth_same depth st)) in Hb.
  generalize dependent (record_depth d depth st). clear st. intros st Hb.
  destruct (corridor_round_ok F (c_references st) (cs_counted _ _ (bt_sound _ _ _ _ Hb)))
    as (batch & t1 & next & t2 & Ha & Hn & Hc2 & Hlim & Hmono & Hback & Hnext & Hall).
  unfold reuses in Ha. rewrite Ha, ret_bind, Hn.
  destruct (between_round L F reached st t2 Hb Hc2 Hlim Hmono Hback) as [Hs2 Hg2].
  pose proof (bt_last _ _ _ _ Hb) as Hf. pose proof (bt_some _ _ _ _ Hb) as H0. pose proof (bt_reached _ _ _ _ Hb) as Hre.
  set (st2 := with_c_references t2 st) in *. set (cand := set_remove_all next reached).
  assert (forall v, set_contains cand v = true <-> set_contains next v = true /\ set_contains reached v <> true) as Hcand
    by (intros v; apply in_remove_all).
  (* without a limit the round is complete *)
  assert (cunlimited st2 -> cexact L st /\
    (forall v k, set_contains F v = true -> leaves v k -> ref_contains (seen t2) k = true) /\
    (forall v w, set_contains F v = true -> dstep v w -> set_contains next w = true)) as Hcomplete.
  { intros Hu. pose proof (bt_exact _ _ _ _ Hb (proj1 Hg2 Hu)) as Hex. split; [done |]. apply Hall; [apply Hu |].
    intros Hr k v Hk Hv HF. destruct (cx_fresh _ _ Hex k v Hr Hk Hv) as (i & Hi & Hiv).
    assert (in_layer L (length L - 1) v) as Hlv by (by exists F).
    apply (cx_layer _ _ Hex) in Hiv; [| lia]. apply (cx_layer _ _ Hex) in Hlv; [| lia].
    destruct Hlv as [_ Hmin]. apply (Hmin i); [lia | apply Hiv]. }
  assert (forall i v k, cunlimited st2 -> in_layer L i v -> leaves v k -> ref_contains (seen t2) k = true) as Hseen.
  { intros i v k Hu Hiv Hv. destruct (Hcomplete Hu) as (Hex & Hfr & _).
    assert (i < length L) by (destruct Hiv as (y & Hy & _); by eapply lookup_lt_Some).
    destruct (decide (i = length L - 1)) as [-> | Hne]; [destruct Hiv as (y & Hy & ?); apply (Hfr v k); [congruence | done] |].
    apply Hmono, (cx_done _ _ Hex i v k); [lia | done | done]. }
  (* the walk ends with the layers it has *)
  assert (forall st', csound L st' -> c_references st' = t2 -> (cunlimited st' -> cunlimited st2) ->
    (forall n v, cunlimited st2 -> n <= max_depth limits -> dwithin n v -> exists i, i <= n /\ in_layer L i v) ->
    walked L st' /\ grows st st') as Hend.
  { intros st' Hs' Hr' Hu' Hn'. split; [split; try done |].
    - intros Hu. apply (cx_layer _ st), Hcomplete, Hu', Hu.
    - intros n v Hu. apply Hn', Hu', Hu.
    - intros i v k Hu. rewrite Hr'. apply Hseen, Hu', Hu.
    - split; [intros Hu; by apply (proj1 Hg2), Hu' | intros k Hk; rewrite Hr'; by apply Hmono]. }
  destruct (depth =? max_depth limits) eqn:Hmax; bool_inv.
  { exists L. eexists. split; [done |]. apply Hend; try (by destruct (set_is_empty cand)).
    - destruct (set_is_empty cand); cbn [negb]; [done |]. by apply (csound_same L st2).
    - intros n v Hu Hn'. destruct (layered_least L v n (cx_layer _ _ (proj1 (Hcomplete Hu)))) as [? | ?]; [lia | done |].
      intros Hv. done. }
  destruct (set_is_empty cand) eqn:Hemp.
  { exists L, st2. split; [done |]. apply Hend; try done. intros n v Hu _. destruct (Hcomplete Hu) as (Hex & _ & Hfr).
    apply (layers_closed L F reached); try done; [apply Hex |]. intros u w HF Hst. rewrite set_empty in Hemp.
    destruct (set_contains reached w) eqn:Hw; [done |]. exfalso. apply (Hemp w), Hcand. split; [by apply (Hfr u w) | congruence]. }
  destruct (corridor_admit_ok cand st2 (cs_len _ _ Hs2)) as (nx & seen' & limit & -> & Hnc & Hlen' & Hlimit).
  set (st3 := mk_corridor_state _ _ _ _ _ _).
  assert (csound L st3) as Hs3 by by apply (csound_seen L st2).
  assert (cunlimited st3 -> cunlimited st2) as Hu3 by (intros [Hu1 Hu2]; split; [by apply Hlimit | done]).
  destruct (set_is_empty nx) eqn:Hnx.
  { exists L, st3. split; [done |]. assert (~ cunlimited st3) as Hno.
    { intros [Hu1 _]. destruct (Hlimit Hu1) as [_ Hin]. apply set_not_empty in Hemp as [v Hv]. rewrite set_empty in Hnx. by apply (Hnx v), Hin. }
    split; [by split | split; [done | by intros k ?%Hmono]]. }
  assert (csound (L ++ [nx]) st3) as Hs4.
  { apply (push_sound L F); try done; [lia |]. intros v [Hv _]%Hnc%Hcand. by apply Hnext. }
  assert (grows st st3) as Hg3 by (split; [intros ?; by apply (proj1 Hg2), Hu3 | by intros k ?%Hmono]).
  destruct (c_symbol_limit st3) eqn:Hsym.
  { exists (L ++ [nx]), st3. split; [done |]. split; [split; [done | ..] | done]; unfold cunlimited; intros; destruct_and?; congruence. }
  destruct (IH (S depth) (L ++ [nx]) nx (set_union_with reached nx) st3) as (L' & st' & Hw & Hwk & Hg).
  { lia. }
  { lia. }
  { rewrite length_app. cbn. lia. }
  { split; [done | | rewrite length_app; cbn; lia | |].
    - rewrite length_app. cbn. replace (length L + 1 - 1) with (length L) by lia. by rewrite list_lookup_middle.
    - intros v. rewrite in_union, Hre. setoid_rewrite in_layer_snoc. split.
      + intros [(i & ?) | ?]; [exists i; by left | exists (length L); by right].
      + intros (i & [? | [_ ?]]); [left; by exists i | by right].
    - intros Hu. destruct (Hcomplete (Hu3 Hu)) as (Hex & Hfr & Hst). destruct Hu as [Hu1 Hu2]. destruct (Hlimit Hu1) as [Hu0 Hin].
      split.
      + apply (layered_snoc L nx reached F); try done; [apply Hex |]. intros v. split.
        * intros [Hv Hnr]%Hnc%Hcand. split; [by apply Hnext | done].
        * intros [(u & HF & Hsv) Hnr]. apply Hin, Hcand. split; [by apply (Hst u v) | done].
      + intros i v k Hi [Hiv | [-> _]]%in_layer_snoc Hv; [by apply (Hseen i v k); [by apply Hu3 | |] |].
        rewrite length_app in Hi. cbn in Hi. lia.
      + intros k v Hr Hk Hv. rewrite length_app. cbn. destruct (Hback k Hk) as [Hk' | (u & HF & Hu & _)].
        * destruct (cx_fresh _ _ Hex k v Hr Hk' Hv) as (i & Hi & Hiv). exists i. split; [lia | apply in_layer_snoc; by left].
        * exists (length L - 1). split; [lia |]. apply in_layer_snoc. left. exists F. split; [done | congruence]. }
  exists L', st'. rewrite Nat.add_1_r. split_and!; [done | done |]. by apply (grows_trans st st3).
Qed.

(** A walk from a start that is not empty. *)
Lemma corridor_walk_ok st :
  (set_len (seen_symbols st) <= max_symbols limits)%N -> counted (max_edges limits) (c_references st) ->
  (forall k, ref_contains (seen (c_references st)) k = true -> kind_allowed kind rels k) ->
  (reuses = false -> forall k, ref_contains (seen (c_references st)) k <> true) ->
  exists L st', corridor_walk (E:=E) c d start st = Ok (L, st') /\ walked L st' /\ grows st st'.
Proof using Hp RL.
  intros Hlen Hc Hk Hfresh. unfold corridor_walk.
  assert (forall i v, in_layer [start] i v <-> i = 0 /\ set_contains start v = true) as Hin.
  { intros i v. unfold in_layer. split; [| intros [-> Hv]; by exists start].
    intros (x & Hx & Hv). destruct i; [injection Hx as <-; done | done]. }
  assert (forall v, dwithin 0 v <-> set_contains start v = true) as H0.
  { intros v. split; [intros (s & Hs & Hb); by inversion Hb; subst | intros Hv; exists v; split; [done | apply bsteps_refl]]. }
  apply (corridor_walk_loop_ok _ 0); [lia | lia | done |]. split; [split; try done | done | cbn; lia | |].
  - intros i v [-> Hv]%Hin. exists v. split; [done | constructor].
  - cbn. lia.
  - intros v. split; [intros Hv; exists 0; by apply Hin | by intros (i & [_ ?]%Hin)].
  - intros _. split.
    + intros i v Hi. cbn in Hi. assert (i = 0) as -> by lia. rewrite Hin, H0. split; [intros [_ ?]; split; [done | lia] | by intros [? _]].
    + intros i v k Hi. cbn in Hi. lia.
    + intros k v Hr Hs. by apply Hfresh in Hs.
Qed.
End direction.
End walk.

(** ** Members and references *)

Section layers.
Context {R : Roaring} {RL : RoaringLaws R}.
Implicit Types (k o s t u v : N) (L F B : list SymbolSet).

Lemma cumulative_spec L :
  length (cumulative_symbol_layers L) = length L /\
  forall n C v, cumulative_symbol_layers L !! n = Some C ->
    set_contains C v = true <-> exists j, j <= n /\ in_layer L j v.
Proof using RL.
  unfold cumulative_symbol_layers.
  set (G := fun (acc : list SymbolSet * SymbolSet) (layer : SymbolSet) => _).
  enough (length (foldl G ([], set_new) L).1 = length L /\
    (forall v, set_contains (foldl G ([], set_new) L).2 v = true <-> exists j, in_layer L j v) /\
    forall n C v, (foldl G ([], set_new) L).1 !! n = Some C -> set_contains C v = true <-> exists j, j <= n /\ in_layer L j v)
    as (? & _ & ?) by done.
  induction L as [| x L (Hlen & Hall & Hn)] using rev_ind.
  - split; [done |]. split; [| done]. intros v. cbn. rewrite in_new. split; [done | by intros (j & y & ? & _)].
  - rewrite foldl_app. cbn [foldl]. unfold G at 1 3 5. cbn [fst snd].
    assert (forall v, set_contains (set_union_with (foldl G ([], set_new) L).2 x) v = true <-> exists j, in_layer (L ++ [x]) j v) as Hun.
    { intros v. rewrite in_union, Hall. setoid_rewrite in_layer_snoc. split.
      - intros [(j & ?) | ?]; [exists j; by left | exists (length L); by right].
      - intros (j & [? | [_ ?]]); [left; by exists j | by right]. }
    split_and!; [rewrite !length_app, Hlen; done | done |].
    intros n C v [HC | [-> ->]]%lookup_snoc_iff.
    + rewrite (Hn n C v HC). setoid_rewrite in_layer_snoc. apply lookup_lt_Some in HC. split.
      * intros (j & Hj & ?). exists j. split; [done | by left].
      * intros (j & Hj & [? | [-> _]]); [by exists j | lia].
    + rewrite Hun. split; [| intros (j & _ & ?); by exists j].
      intros (j & Hj). exists j. split; [| done]. rewrite Hlen. destruct Hj as (y & Hy%lookup_lt_Some & _).
      rewrite length_app in Hy. cbn in Hy. lia.
Qed.

Lemma members_spec m F B v :
  set_contains (corridor_members m F B) v = true <->
  exists i j, in_layer F i v /\ in_layer B j v /\ j <= m - i.
Proof using RL.
  unfold corridor_members. destruct (cumulative_spec B) as [Hlen Hcum]. set (cum := cumulative_symbol_layers B) in *.
  assert (forall i C, cum !! Nat.min (m - i) (length cum - 1) = Some C ->
    set_contains C v = true <-> exists j, in_layer B j v /\ j <= m - i) as Hc.
  { intros i C HC. rewrite (Hcum _ _ _ HC). split; intros (j & H1 & H2); exists j; [split; [done | lia] |].
    split; [| done]. destruct H1 as (y & Hy%lookup_lt_Some & _). lia. }
  assert (forall j i, in_layer B j v -> exists C, cum !! Nat.min (m - i) (length cum - 1) = Some C) as Hsome.
  { intros j i (y & Hy%lookup_lt_Some & _). apply lookup_lt_is_Some_2. lia. }
  clearbody cum. clear Hlen Hcum. induction F as [| x F IH] using rev_ind.
  - cbn. rewrite in_new. split; [done | by intros (i & j & (y & ? & _) & _)].
  - rewrite imap_pair_snoc, foldl_app. cbn [foldl fst snd]. setoid_rewrite in_layer_snoc.
    destruct (cum !! _) as [C |] eqn:HC.
    + rewrite in_union, IH, in_intersection, (Hc _ _ HC). split.
      * intros [(i & j & ? & ? & ?) | [Hx (j & ? & ?)]]; [exists i, j; split_and!; [by left | done | done] |].
        exists (length F), j. split_and!; [by right | done | done].
      * intros (i & j & [? | [-> ?]] & ? & ?); [left; by exists i, j | right; split; [done | by exists j]].
    + rewrite IH. split; intros (i & j & Hi & ? & ?); [exists i, j; split_and!; [by left | done | done] |].
      destruct Hi as [? | [-> _]]; [by exists i, j |]. destruct (Hsome j (length F)) as [C HC']; [done |]. congruence.
Qed.

Lemma layer_depth_spec L v i :
  layer_depth L v = Some i <-> in_layer L i v /\ forall j, j < i -> ~ in_layer L j v.
Proof using.
  unfold layer_depth, in_layer. rewrite fmap_Some. split.
  - intros ([i' x] & (Hx & Hv & Hmin)%list_find_Some & ->). split; [by exists x |].
    intros j Hj (y & Hy & Hyv). by apply (Hmin j y).
  - intros [(x & Hx & Hv) Hmin]. exists (i, x). split; [| done]. apply list_find_Some. split_and!; [done | done |].
    intros j y Hy Hj Hyv. apply (Hmin j Hj). by exists y.
Qed.

Lemma layer_depth_some L v i : in_layer L i v -> exists j, j <= i /\ layer_depth L v = Some j.
Proof using.
  intros Hi. assert (is_Some (layer_depth L v)) as [j Hj].
  { unfold layer_depth. rewrite fmap_is_Some. destruct Hi as (x & Hx & Hv).
    apply (list_find_elem_of _ L x); [by eapply list_elem_of_lookup_2 | done]. }
  exists j. split; [| done]. apply layer_depth_spec in Hj as [_ Hmin].
  destruct (decide (j <= i)) as [? | Hlt]; [done |]. exfalso. apply (Hmin i); [lia | done].
Qed.

Lemma edges_spec ri m (sn : ReferenceSet) F B k :
  ref_contains (corridor_edge_references ri m sn F B) k = true <->
  ref_contains sn k = true /\ ref_contains (k_resolved (classifications ri)) k = true /\
  exists s t i j, reference_source ri k = Some s /\ reference_target ri k = Some t /\
    layer_depth F s = Some i /\ layer_depth B t = Some j /\ i + 1 + j <= m.
Proof using RL.
  unfold corridor_edge_references. set (G := fun (corridor : ReferenceSet) (reference : N) => _).
  set (fits := fun k => exists s t i j, reference_source ri k = Some s /\ reference_target ri k = Some t /\
    layer_depth F s = Some i /\ layer_depth B t = Some j /\ i + 1 + j <= m).
  assert (forall acc x, (fits x /\ G acc x = ref_insert x acc) \/ (~ fits x /\ G acc x = acc)) as HG.
  { intros acc x. unfold G, fits. destruct (reference_source ri x) as [s |]; [| right; split; [by intros (? & ? & ? & ? & ? & _) | done]].
    destruct (reference_target ri x) as [t |]; [| right; split; [by intros (? & ? & ? & ? & _ & ? & _) | done]].
    destruct (layer_depth F s) as [i |] eqn:Hi; [| right; split; [intros (? & ? & ? & ? & [= <-] & _ & ? & _); congruence | done]].
    destruct (layer_depth B t) as [j |] eqn:Hj; [| right; split; [intros (? & ? & ? & ? & _ & [= <-] & _ & ? & _); congruence | done]].
    destruct (i + 1 + j <=? m) eqn:Hle; bool_inv; [left; split; [by exists s, t, i, j | done] | right; split; [| done]].
    intros (s' & t' & i' & j' & [= <-] & [= <-] & ? & ? & ?). assert (i' = i) as -> by congruence. assert (j' = j) as -> by congruence. lia. }
  assert (forall l acc, ref_contains (foldl G acc l) k = true <-> ref_contains acc k = true \/ (k ∈ l /\ fits k)) as H.
  { induction l as [| x l IH]; intros acc; cbn [foldl].
    - split; [by left | intros [? | [?%not_elem_of_nil _]]; done].
    - rewrite IH, elem_of_cons. destruct (HG acc x) as [[Hx ->] | [Hx ->]].
      + rewrite ref_contains_insert. split; [intros [[-> | ?] | [? ?]]; auto | intros [? | [[-> | ?] ?]]; auto].
      + split; [intros [? | [? ?]]; auto | intros [? | [[-> | ?] ?]]; auto; done]. }
  rewrite H, ref_contains_new. unfold ref_iter. rewrite bm_iter_contains.
  assert (bm_contains (ref_intersection sn (k_resolved (classifications ri))) k = true <->
    ref_contains sn k = true /\ ref_contains (k_resolved (classifications ri)) k = true) as -> by apply in_intersection.
  fold (fits k). tauto.
Qed.
End layers.

(** ** A run *)

Section run.
Context {R : Roaring} {RL : RoaringLaws R} {HO : HashOrder} {E : Type}.
Context (c : CorridorTraversal) (kind : N -> option bytes) (Hp : postings_exact (ct_index c) kind).
Implicit Types (k o s t u v w : N) (st : CorridorState) (L : list SymbolSet).

Abbreviation ri := (ct_index c).
Abbreviation m := (max_depth (ct_limits c)).

(** What holds of the state throughout. *)
Definition state_ok st : Prop :=
  (set_len (seen_symbols st) <= max_symbols (ct_limits c))%N /\
  counted (max_edges (ct_limits c)) (c_references st) /\
  forall k, ref_contains (seen (c_references st)) k = true -> kind_allowed kind (ct_relations c) k.

(** The layers of one side, from the symbols [P]; [same] when both sides are the same. *)
Record side (d : TraversalDirection) (P : N -> Prop) (same : bool) L st : Prop := mk_side {
  sd_reach i v : in_layer L i v -> exists a, P a /\ nsteps (dstep c kind d) i a v;
  sd_len : length L <= S m;
  sd_all n v a : same = false -> cunlimited st -> n <= m -> P a -> nsteps (dstep c kind d) n a v ->
    exists i, i <= n /\ in_layer L i v;
  sd_seen i v k : same = false -> cunlimited st -> in_layer L i v -> leaves c kind d v k ->
    ref_contains (seen (c_references st)) k = true
}.

Lemma side_grows d (P : N -> Prop) same L st st' : side d P same L st -> grows st st' -> side d P same L st'.
Proof using.
  intros [H1 H2 H3 H4] [Hu Hk]. split; try done.
  - intros n v a Hs Hu'. apply H3; [done | by apply Hu].
  - intros i v k Hs Hu' Hi Hv. apply Hk, (H4 i v k Hs); [by apply Hu | done | done].
Qed.

Lemma side_ok d (P : N -> Prop) (same : bool) (fs : SymbolSet) st :
  state_ok st -> (forall v, set_contains fs v = true -> P v) -> (exists v, P v) ->
  (cunlimited st -> forall v, P v -> set_contains fs v = true) ->
  (d = Forward -> forall k, ref_contains (seen (c_references st)) k <> true) ->
  exists L st', (if set_is_empty fs then mret ([], st)
                 else if same then mret ([fs], st) else corridor_walk c d fs st) = Ok (E:=E) (L, st') /\
    side d P same L st' /\ grows st st' /\ state_ok st'.
Proof using Hp RL.
  intros Hst HP [v0 Hv0] Hfull Hfresh.
  assert (grows st st) as Hg by done.
  destruct (set_is_empty fs) eqn:Hemp.
  { exists [], st. split_and!; try done. rewrite set_empty in Hemp.
    split; [by intros i v (x & ? & _) | cbn; lia | | by intros i v k _ _ (x & ? & _)].
    intros n v a _ Hu _ _ _. destruct (Hemp v0). by apply Hfull. }
  destruct same.
  { exists [fs], st. split_and!; try done. split; [| cbn; lia | done | done].
    intros i v (x & Hx & Hv). destruct i; [injection Hx as <- | done]. exists v. split; [by apply HP | constructor]. }
  destruct Hst as (Hlen & Hc & Hk).
  destruct (corridor_walk_ok (E:=E) c kind Hp d fs st Hlen Hc Hk) as (L & st' & Hw & [Hs Hl Ha Hsn] & Hgr).
  { intros Hr. apply Hfresh. by destruct d. }
  exists L, st'. split_and!; [done | | done | by destruct Hs]. destruct Hs as [Hs1 _ _ _ Hs2]. split.
  - intros i v (a & Ha' & Hn)%Hs1. exists a. split; [by apply HP | done].
  - done.
  - intros n v a _ Hu Hn Pa Hst. apply Ha; [done | done |]. exists a. split; [| apply bsteps_nsteps; by exists n].
    apply Hfull; [by apply Hgr | done].
  - intros i v k _. apply Hsn.
Qed.

(** ** The answer *)

Context (from to_set : SymbolSet).

Definition starts v : Prop := set_contains from v = true /\ in_scope_c c v.
Definition ends v : Prop := set_contains to_set v = true /\ in_scope_c c v.

(** [v] is on a path that fits the depth, the sum of a way from the start and of one
    from the end. *)
Definition fits v : Prop := exists a b i j, starts a /\ ends b /\
  nsteps (dstep c kind Forward) i a v /\ nsteps (dstep c kind Reverse) j b v /\ i + j <= m.

Definition spans s t : Prop := exists a b i j, starts a /\ ends b /\
  nsteps (dstep c kind Forward) i a s /\ nsteps (dstep c kind Reverse) j b t /\ i + 1 + j <= m.

Record corridor_says (s : BoundedCorridorSearch) : Prop := mk_says {
  sy_symbols : (cs_explored_symbols s <= max_symbols (ct_limits c))%N;
  sy_edges : (cov_total (cs_coverage s) <= max_edges (ct_limits c))%N;
  sy_member y : y ∈ cs_members s -> exists v, ri_symbol ri v = Some y /\ fits v;
  sy_edge e : e ∈ cs_edges s -> exists k x t, path_edge_of ri k = Some e /\
    arc ri kind (ct_relations c) k x t /\ spans x t;
  sy_all_members v y : cs_symbol_limit s = false -> cs_edge_limit s = false ->
    (exists o, (starts o /\ ~ ends o) \/ (ends o /\ ~ starts o)) ->
    fits v -> ri_symbol ri v = Some y -> y ∈ cs_members s;
  sy_all_edges k x t e : cs_symbol_limit s = false -> cs_edge_limit s = false ->
    (exists o, (starts o /\ ~ ends o) \/ (ends o /\ ~ starts o)) ->
    arc ri kind (ct_relations c) k x t -> in_scope_c c t -> spans x t -> path_edge_of ri k = Some e ->
    e ∈ cs_edges s
}.

Lemma in_ends (symbols : SymbolSet) v :
  set_contains (set_from_iter (List.filter (scope_contains (ct_scope c) ri) (set_iter symbols))) v = true <->
  set_contains symbols v = true /\ in_scope_c c v.
Proof using RL. by rewrite in_from_iter, list_elem_of_In, filter_In, <- list_elem_of_In, in_iter. Qed.

Lemma finish_ok same F B st :
  state_ok st -> side Forward starts same F st -> side Reverse ends same B st ->
  ((exists o, (starts o /\ ~ ends o) \/ (ends o /\ ~ starts o)) -> same = false) ->
  corridor_says (finish_corridor ri (ct_limits c) st F B).
Proof using RL.
  intros (Hlen & [Hcl Hct] & Hk) HF HB Hsame. unfold finish_corridor.
  assert (forall y, (y ∈ omap (ri_symbol ri) (set_iter (corridor_members m F B))) <->
    exists v, set_contains (corridor_members m F B) v = true /\ ri_symbol ri v = Some y) as Hmem.
  { intros y. rewrite list_elem_of_omap. by setoid_rewrite in_iter. }
  assert (forall e, e ∈ merge_sort path_edge_le (omap (path_edge_of ri) (ref_iter (corridor_edge_references ri m (seen (c_references st)) F B))) <->
    exists k, ref_contains (corridor_edge_references ri m (seen (c_references st)) F B) k = true /\ path_edge_of ri k = Some e) as Hedge.
  { intros e. rewrite merge_sort_Permutation, list_elem_of_omap. unfold ref_iter. by setoid_rewrite bm_iter_contains. }
  split; cbn [cs_explored_symbols cs_coverage cs_members cs_edges cs_symbol_limit cs_edge_limit]; try done.
  - by rewrite Hct.
  - intros y (v & (i & j & Hi & Hj & Hle)%members_spec & Hy)%Hmem. exists v. split; [done |].
    assert (i < length F) by (destruct Hi as (x & Hx & _); by eapply lookup_lt_Some).
    pose proof (sd_len _ _ _ _ _ HF). apply (sd_reach _ _ _ _ _ HF) in Hi as (a & Ha & Hia).
    apply (sd_reach _ _ _ _ _ HB) in Hj as (b & Hb & Hjb). exists a, b, i, j. split_and!; try done. lia.
  - intros e (k & (Hs & Hr & x & t & i & j & Hx & Ht & Hi & Hj & Hle)%edges_spec & He)%Hedge. exists k, x, t.
    split; [done |]. split; [split_and!; try done; by apply Hk |].
    apply layer_depth_spec in Hi as [Hi _]. apply layer_depth_spec in Hj as [Hj _].
    apply (sd_reach _ _ _ _ _ HF) in Hi as (a & Ha & Hia). apply (sd_reach _ _ _ _ _ HB) in Hj as (b & Hb & Hjb).
    by exists a, b, i, j.
  - intros v y Hu1 Hu2 Hd%Hsame (a & b & i & j & Ha & Hb & Hia & Hjb & Hle) Hy. apply Hmem. exists v. split; [| done].
    apply members_spec.
    destruct (sd_all _ _ _ _ _ HF i v a Hd (conj Hu1 Hu2)) as (i' & Hi' & HFi); [lia | done | done |].
    destruct (sd_all _ _ _ _ _ HB j v b Hd (conj Hu1 Hu2)) as (j' & Hj' & HBj); [lia | done | done |].
    exists i', j'. split_and!; [done | done | lia].
  - intros k x t e Hu1 Hu2 Hd%Hsame (Hr & Hx & Ht & Hka) Hsc (a & b & i & j & Ha & Hb & Hia & Hjb & Hle) He.
    apply Hedge. exists k. split; [| done].
    destruct (sd_all _ _ _ _ _ HF i x a Hd (conj Hu1 Hu2)) as (i' & Hi' & HFi); [lia | done | done |].
    destruct (sd_all _ _ _ _ _ HB j t b Hd (conj Hu1 Hu2)) as (j' & Hj' & HBj); [lia | done | done |].
    apply edges_spec. split; [| split; [done |]].
    + apply (sd_seen _ _ _ _ _ HF i' x k Hd (conj Hu1 Hu2) HFi). split_and!; [done | done |].
      intros t' Ht'. cbn in Ht'. by assert (t' = t) as -> by congruence.
    + destruct (layer_depth_some F x i' HFi) as (i2 & Hi2 & HF2), (layer_depth_some B t j' HBj) as (j2 & Hj2 & HB2).
      exists x, t, i2, j2. split_and!; try done. lia.
Qed.

Lemma corridor_run_between_ok :
  exists r, corridor_run_between (E:=E) c from to_set = Ok r /\
    match r with
    | None => (forall v, ~ starts v) \/ (forall v, ~ ends v)
    | Some s => corridor_says s
    end.
Proof using Hp RL.
  unfold corridor_run_between, endpoints_between.
  set (from' := set_from_iter (List.filter _ (set_iter from))). set (to' := set_from_iter (List.filter _ (set_iter to_set))).
  assert (forall v, set_contains from' v = true <-> starts v) as Hfrom by (intros v; apply in_ends).
  assert (forall v, set_contains to' v = true <-> ends v) as Hto by (intros v; apply in_ends).
  destruct (set_is_empty from') eqn:Hef; cbn [negb andb].
  { exists None. split; [done |]. left. intros v Hv. rewrite set_empty in Hef. by apply (Hef v), Hfrom. }
  destruct (set_is_empty to') eqn:Het; cbn [negb andb].
  { exists None. split; [done |]. right. intros v Hv. rewrite set_empty in Het. by apply (Het v), Hto. }
  assert (exists v, starts v) as Hsome by (apply set_not_empty in Hef as [v Hv]; exists v; by apply Hfrom).
  assert (exists v, ends v) as Hsome' by (apply set_not_empty in Het as [v Hv]; exists v; by apply Hto).
  set (same := set_eqb from' to').
  assert ((exists o, (starts o /\ ~ ends o) \/ (ends o /\ ~ starts o)) -> same = false) as Hdiff.
  { intros (o & Ho). apply not_true_iff_false. intros Heq%bool_decide_eq_true.
    assert (starts o <-> ends o) as Hiff by by rewrite <- Hfrom, <- Hto, <- !in_iter, Heq. tauto. }
  destruct (corridor_admit_ok c from' corridor_default) as (fs & seen1 & l1 & -> & Hfs & Hl1 & Hlim1).
  { cbn. rewrite len_new. lia. }
  cbn [corridor_default c_references forward_depth_reached reverse_depth_reached c_depth_limit] in *.
  set (st1 := mk_corridor_state seen1 _ _ _ _ l1).
  assert (exists rs st2, (if same then (fs, st1) else corridor_admit_symbols to' (ct_limits c) st1) = (rs, st2) /\
    c_references st2 = traversal_default /\ (set_len (seen_symbols st2) <= max_symbols (ct_limits c))%N /\
    (forall v, set_contains rs v = true -> ends v) /\
    (cunlimited st2 -> (forall v, starts v -> set_contains fs v = true) /\ forall v, ends v -> set_contains rs v = true))
    as (rs & st2 & -> & Href2 & Hl2 & Hrs & Hun2).
  { destruct same eqn:Hsm.
    - apply bool_decide_eq_true in Hsm. assert (forall o, starts o <-> ends o) as Hiff by (intros o; by rewrite <- Hfrom, <- Hto, <- !in_iter, Hsm).
      exists fs, st1. split_and!; [done | done | done | intros v Hv; by apply Hiff, Hfrom, Hfs |].
      intros [Hu _]. destruct (Hlim1 Hu) as [_ Hall]. split; intros v Hv; apply Hall, Hfrom; [done | by apply Hiff].
    - destruct (corridor_admit_ok c to' st1 Hl1) as (rs & seen2 & l2 & -> & Hrs & Hl2 & Hlim2).
      eexists rs, _. split_and!; [done | done | done | intros v Hv; by apply Hto, Hrs |].
      intros [Hu _]. destruct (Hlim2 Hu) as [Hu1 Hall2]. destruct (Hlim1 Hu1) as [_ Hall1].
      split; intros v Hv; [by apply Hall1, Hfrom | by apply Hall2, Hto]. }
  assert (state_ok st2) as Hok2.
  { split_and!; [done | rewrite Href2; apply counted_default |]. rewrite Href2. intros k Hk%ref_contains_new. done. }
  destruct (side_ok Forward starts same fs st2 Hok2) as (F & st3 & -> & HF & Hg3 & Hok3).
  { intros v Hv. by apply Hfrom, Hfs. } { done. } { intros Hu. apply (Hun2 Hu). }
  { intros _ k. rewrite Href2. intros Hk%ref_contains_new. done. }
  rewrite ret_bind.
  destruct (side_ok Reverse ends same rs st3 Hok3 Hrs Hsome') as (B & st4 & -> & HB & Hg4 & Hok4); [| done |].
  { intros Hu. apply Hun2. by apply Hg3. }
  rewrite ret_bind. eexists. split; [done |]. apply (finish_ok same); [done | by apply (side_grows _ _ _ _ st3) | done | done].
Qed.
End run.
End CorridorFacts.

Module CorridorAnswers.
Import Snapshot Inventory InventoryInv LinkIndex LinkIndexFacts LinkIndexTheorems Paths PathSets PathStep PathWalk
  PathTheorems PathAnswers CorridorFacts.

Lemma nsteps_mono {A} (R R' : relation A) n x y :
  (forall x y, R x y -> R' x y) -> nsteps R n x y -> nsteps R' n x y.
Proof. intros H. induction 1 as [x | n x y z Hxy Hn IH]; [constructor |]. by apply nsteps_l with y; [apply H |]. Qed.

Section steps.
Context {R : Roaring} {RL : RoaringLaws R} {HO : HashOrder}.
Context (linkage : LinkageSnapshot) (table : RecordTable ReferenceRecord) (cat : SymbolOrdinalCatalog).
Context (roots : list N) (ri : LinkageReadIndex).
Context (relations : list bytes) (limits : BoundedPathLimits) (scope : BoundedPathScope).
Implicit Types (k o s t : N) (a b u v y : SymbolId).
Hypothesis Hio : index_of linkage table cat roots ri.
Hypothesis Hcat : catalog_ok cat.

Abbreviation cc := (corridor_traversal_new ri relations limits scope).
Abbreviation c0 := (path_traversal_new ri relations [] limits scope).
Abbreviation kind := (kind_of table).
Abbreviation hop' := (hop linkage table cat ri relations [] scope).
Abbreviation link' := (link linkage table cat ri relations [] scope).

Lemma scope_enters t : in_scope_c cc t <-> enters c0 t.
Proof using RL.
  unfold in_scope_c, enters. cbn. rewrite in_new. split; [intros ?; split; [done | tauto] | by intros [? _]].
Qed.

Lemma forward_step s t : dstep cc kind Forward s t <-> step c0 kind s t.
Proof using RL.
  unfold dstep, step. rewrite scope_enters. split; intros [(k & H) Ht]; (split; [exists k | done]); [| destruct H as (? & ? & ? & ?)];
    [destruct H as (? & ? & ? & ?) |]; by split_and!.
Qed.

Lemma reverse_step s t : dstep cc kind Reverse s t <-> (exists k, arc ri kind (distinct ∅ relations) k t s) /\ in_scope_c cc t.
Proof using.
  unfold dstep. split; intros [(k & ? & ? & ? & ?) Ht]; (split; [exists k; by split_and! | done]).
Qed.

Lemma forward_steps n s t : nsteps (dstep cc kind Forward) n s t <-> nsteps (step c0 kind) n s t.
Proof using RL.
  split; apply nsteps_mono; intros x z; apply forward_step.
Qed.

Lemma reverse_steps n t (v : N) :
  in_scope_c cc t -> nsteps (dstep cc kind Reverse) n t v -> nsteps (step c0 kind) n v t.
Proof using RL.
  intros Ht Hn. revert Ht. induction Hn as [t | n t x v Hst Hn IH]; intros Ht; [constructor |].
  apply reverse_step in Hst as [Harc Hx]. apply nsteps_r with x; [by apply IH |]. split; [done | by apply scope_enters].
Qed.

Lemma steps_reverse n (v : N) t :
  in_scope_c cc v -> nsteps (step c0 kind) n v t -> nsteps (dstep cc kind Reverse) n t v.
Proof using RL.
  intros Hv Hn. revert Hv. induction Hn as [t | n v x t [Harc Hx%scope_enters] Hn IH]; intros Hv; [constructor |].
  apply nsteps_r with x; [by apply IH | by apply reverse_step].
Qed.

Lemma last_in_scope n s t : in_scope_c cc s -> nsteps (step c0 kind) n s t -> in_scope_c cc t.
Proof using RL. intros Hs Hn. induction Hn as [s | n s x t [_ Hx%scope_enters] Hn IH]; [done | by apply IH]. Qed.

Lemma steps_hops n s t u :
  nsteps (step c0 kind) n s t -> id_of cat s = Some u -> exists v, id_of cat t = Some v /\ nsteps hop' n u v.
Proof using Hio Hcat RL.
  intros Hn. revert u. induction Hn as [s | n s x t [(k & Harc) Hx] Hn IH]; intros u Hu; [exists u; split; [done | constructor] |].
  destruct (arc_link linkage table cat roots ri relations [] limits scope Hio Hcat k s x u Hu Harc Hx) as (w & id & Hw & _ & Hl).
  destruct (IH w Hw) as (v & Hv & Hh). exists v. split; [done |]. apply nsteps_l with w; [by exists id | done].
Qed.

Lemma steps_known n s t v : nsteps (step c0 kind) n s t -> id_of cat t = Some v -> exists u, id_of cat s = Some u.
Proof using Hio.
  intros Hn Hv. destruct Hn as [t | n s x t [(k & Harc) _] Hn]; [by exists v |].
  destruct (arc_symbols ri kind (io_postings _ _ _ _ _ Hio) _ k s x Harc) as [[u Hu] _].
  exists u. unfold ri_symbol in Hu. by rewrite (io_catalog _ _ _ _ _ Hio) in Hu.
Qed.

(** ** Ends and paths *)

Definition corridor_point (set : SymbolSet) a : Prop :=
  exists o, ordinal cat a = Some o /\ set_contains set o = true /\ may_enter cat ri [] scope o.

Lemma point_iff (set : SymbolSet) o a : id_of cat o = Some a ->
  (set_contains set o = true /\ in_scope_c cc o) <-> corridor_point set a.
Proof using Hio Hcat RL.
  intros Ho. assert (in_scope_c cc o <-> may_enter cat ri [] scope o) as ->.
  { rewrite scope_enters. apply (enters_iff linkage table cat roots ri relations [] limits scope Hio). }
  apply (cat_bij _ Hcat) in Ho. split; [intros [? ?]; by exists o |].
  intros (o' & Ho' & ? & ?). unfold ordinal in Ho'. assert (o' = o) as -> by congruence. done.
Qed.

(** [y] is on a path of at most [depth] references. *)
Definition on_corridor (from to_set : SymbolSet) (depth : nat) y : Prop :=
  exists a b i j, corridor_point from a /\ corridor_point to_set b /\ nsteps hop' i a y /\ nsteps hop' j y b /\ i + j <= depth.

(** So is a reference from [u] to [v]. *)
Definition across (from to_set : SymbolSet) (depth : nat) u v : Prop :=
  exists a b i j, corridor_point from a /\ corridor_point to_set b /\ nsteps hop' i a u /\ nsteps hop' j v b /\ i + 1 + j <= depth.

Lemma ways_iff (from to_set : SymbolSet) i j s t u v :
  id_of cat s = Some u -> id_of cat t = Some v -> in_scope_c cc t ->
  (exists (a b : N), starts cc from a /\ ends cc to_set b /\ nsteps (dstep cc kind Forward) i a s /\ nsteps (dstep cc kind Reverse) j b t) <->
  (exists a b, corridor_point from a /\ corridor_point to_set b /\ nsteps hop' i a u /\ nsteps hop' j v b).
Proof using Hio Hcat RL.
  intros Hu Hv Hsc. split.
  - intros (a & b & Ha & Hb & Hi%forward_steps & Hj%reverse_steps); [| apply Hb].
    destruct (steps_known i a s u Hi Hu) as [a' Ha']. destruct (steps_hops i a s a' Hi Ha') as (u' & Hu' & Hhi).
    destruct (steps_hops j t b v Hj Hv) as (b' & Hb' & Hhj). exists a', b'.
    split_and!; [by apply (point_iff from a) | by apply (point_iff to_set b) | congruence | done].
  - intros (a & b & Ha & Hb & Hi & Hj). pose proof Ha as (oa & Hoa & _). pose proof Hb as (ob & Hob & _).
    apply (cat_bij _ Hcat) in Hoa, Hob.
    destruct (hops_steps linkage table cat roots ri relations [] limits scope Hio Hcat i a u oa Hi Hoa) as (s' & Hs' & Hsi).
    destruct (hops_steps linkage table cat roots ri relations [] limits scope Hio Hcat j v b t Hj Hv) as (b' & Hb' & Hsj).
    assert (forall x z w, id_of cat x = Some w -> id_of cat z = Some w -> x = z) as Hinj.
    { intros x z w Hx%(cat_bij _ Hcat) Hz%(cat_bij _ Hcat). congruence. }
    assert (s' = s) as -> by by eapply Hinj. assert (b' = ob) as -> by by eapply Hinj.
    exists oa, ob. split_and!; [by apply (point_iff from oa a) | by apply (point_iff to_set ob b) | by apply forward_steps | by apply steps_reverse].
Qed.

Lemma dsteps_scope d n s t : in_scope_c cc s -> nsteps (dstep cc kind d) n s t -> in_scope_c cc t.
Proof using. intros Hs Hn. induction Hn as [s | n s x t [_ Hx] Hn IH]; [done | by apply IH]. Qed.

Lemma fits_iff (from to_set : SymbolSet) (v : N) y :
  id_of cat v = Some y -> fits cc kind from to_set v <-> on_corridor from to_set (max_depth limits) y.
Proof using Hio Hcat RL.
  intros Hy. split.
  - intros (a & b & i & j & Ha & Hb & Hi & Hj & Hle).
    assert (in_scope_c cc v) as Hv by (eapply dsteps_scope; [apply Ha | exact Hi]).
    destruct (proj1 (ways_iff from to_set i j v v y y Hy Hy Hv)) as (a' & b' & H); [by exists a, b |].
    exists a', b', i, j. destruct H as (? & ? & ? & ?). by split_and!.
  - intros (a & b & i & j & Ha & Hb & Hi & Hj & Hle).
    assert (in_scope_c cc v) as Hv.
    { pose proof Ha as (o & Ho%(cat_bij _ Hcat) & _). pose proof (proj2 (point_iff from o a Ho) Ha) as [_ Hsc].
      destruct (hops_steps linkage table cat roots ri relations [] limits scope Hio Hcat i a y o Hi Ho) as (v' & Hv' & Hst).
      assert (v' = v) as -> by (apply (cat_bij _ Hcat) in Hy, Hv'; congruence). by eapply last_in_scope. }
    destruct (proj2 (ways_iff from to_set i j v v y y Hy Hy Hv)) as (a' & b' & H); [by exists a, b |].
    exists a', b', i, j. destruct H as (? & ? & ? & ?). by split_and!.
Qed.

Lemma spans_iff (from to_set : SymbolSet) s t u v :
  id_of cat s = Some u -> id_of cat t = Some v -> in_scope_c cc t ->
  spans cc kind from to_set s t <-> across from to_set (max_depth limits) u v.
Proof using Hio Hcat RL.
  intros Hu Hv Hsc. split; intros (a & b & i & j & Ha & Hb & Hi & Hj & Hle);
    [destruct (proj1 (ways_iff from to_set i j s t u v Hu Hv Hsc)) as (a' & b' & H) |
     destruct (proj2 (ways_iff from to_set i j s t u v Hu Hv Hsc)) as (a' & b' & H)]; try (by exists a, b);
    exists a', b', i, j; destruct H as (? & ? & ? & ?); by split_and!.
Qed.

Lemma path_edge_link k s t e : arc ri kind (distinct ∅ relations) k s t -> in_scope_c cc t ->
  path_edge_of ri k = Some e -> id_of cat s = Some (edge_source e) /\ id_of cat t = Some (edge_target e) /\
    link' (edge_reference e) (edge_source e) (edge_target e).
Proof using Hio Hcat RL.
  intros Harc Ht%scope_enters He. pose proof Harc as (_ & Hs & Htt & _). unfold path_edge_of in He.
  rewrite Hs, Htt in He. cbn in He. unfold ri_symbol in He. rewrite (io_catalog _ _ _ _ _ Hio) in He.
  destruct (id_of cat s) as [u |] eqn:Hu; [| done]. destruct (id_of cat t) as [v |] eqn:Hv; [| done].
  destruct (reference_id ri k) as [id |] eqn:Hid; [| done]. injection He as <-. cbn.
  destruct (arc_link linkage table cat roots ri relations [] limits scope Hio Hcat k s t u Hu Harc Ht) as (v' & id' & Hv' & Hid' & Hl).
  split_and!; [done | done |]. assert (v' = v) as -> by congruence. by assert (id' = id) as -> by congruence.
Qed.

Lemma link_path_edge id u v s : link' id u v -> id_of cat s = Some u ->
  exists k t, id_of cat t = Some v /\ arc ri kind (distinct ∅ relations) k s t /\ in_scope_c cc t /\
    path_edge_of ri k = Some (mk_path_edge u v id).
Proof using Hio Hcat RL.
  intros (r & e & [n Hr]%list_elem_of_lookup_1 & Hid & Hsrc & Hal & He & Heid & <- & t & Ht & Hent) Hu.
  exists (N.of_nat n), t. assert (iter table !! N.to_nat (N.of_nat n) = Some r) as Hr' by by rewrite Nat2N.id.
  apply (cat_bij _ Hcat) in Ht as Htv. split; [done |].
  assert (arc ri kind (distinct ∅ relations) (N.of_nat n) s t) as Harc.
  { split_and!.
    - apply (io_resolved _ _ _ _ _ Hio). exists r, e. split_and!; [done | done | congruence].
    - rewrite (io_source _ _ _ _ _ Hio _ r Hr'), Hsrc. by apply (cat_bij _ Hcat).
    - apply (io_target _ _ _ _ _ Hio). exists r. split; [done |]. exists e. split_and!; [done | congruence | done].
    - by apply (kind_allowed_iff table relations _ r Hr'). }
  split; [done |]. split.
  - apply scope_enters. by apply (enters_iff linkage table cat roots ri relations [] limits scope Hio).
  - destruct Harc as (_ & Hs & Htt & _). unfold path_edge_of. rewrite Hs, Htt. cbn. unfold ri_symbol.
    rewrite (io_catalog _ _ _ _ _ Hio), Hu. cbn. unfold id_of. rewrite Htv. cbn. unfold reference_id.
    by rewrite (io_ids _ _ _ _ _ Hio), list_lookup_fmap, Hr', <- Hid.
Qed.
End steps.

(** ** Requests *)

Section requests.
Context {R : Roaring} {RL : RoaringLaws R} {HO : HashOrder}.

Definition request_point cat ri (rq : BoundedCorridorSetRequest) (set : SymbolSet) (a : SymbolId) : Prop :=
  corridor_point cat ri (as_path_scope (csr_scope rq)) set a.

Definition request_link linkage table cat ri (rq : BoundedCorridorSetRequest) :=
  link linkage table cat ri (csr_relations rq) [] (as_path_scope (csr_scope rq)).

Record corridor_answer linkage table cat ri (rq : BoundedCorridorSetRequest) (s : BoundedCorridorSearch) : Prop := mk_corridor_answer {
  ca_symbols : (cs_explored_symbols s <= max_symbols (csr_limits rq))%N;
  ca_edges : (cov_total (cs_coverage s) <= max_edges (csr_limits rq))%N;
  ca_member y : y ∈ cs_members s -> on_corridor linkage table cat ri (csr_relations rq)
    (as_path_scope (csr_scope rq)) (csr_from rq) (csr_to rq) (max_depth (csr_limits rq)) y;
  ca_edge e : e ∈ cs_edges s -> request_link linkage table cat ri rq (edge_reference e) (edge_source e) (edge_target e) /\
    across linkage table cat ri (csr_relations rq) (as_path_scope (csr_scope rq)) (csr_from rq) (csr_to rq)
      (max_depth (csr_limits rq)) (edge_source e) (edge_target e);
  ca_all : cs_symbol_limit s = false -> cs_edge_limit s = false ->
    (exists a, (request_point cat ri rq (csr_from rq) a /\ ~ request_point cat ri rq (csr_to rq) a) \/
               (request_point cat ri rq (csr_to rq) a /\ ~ request_point cat ri rq (csr_from rq) a)) ->
    (forall y, on_corridor linkage table cat ri (csr_relations rq) (as_path_scope (csr_scope rq))
       (csr_from rq) (csr_to rq) (max_depth (csr_limits rq)) y -> y ∈ cs_members s) /\
    (forall id u v, request_link linkage table cat ri rq id u v ->
       across linkage table cat ri (csr_relations rq) (as_path_scope (csr_scope rq)) (csr_from rq) (csr_to rq)
         (max_depth (csr_limits rq)) u v -> mk_path_edge u v id ∈ cs_edges s)
}.

(** C25: Over the read index of a snapshot, asking for the corridor between two sets
    of symbols always ends without a panic, and gives nothing only when the request
    is refused or an end is empty. Its members are symbols on the paths of resolved
    references, within the scope, that fit the depth, and its edges the references
    of those paths; when no limit on symbols or edges was met and the two ends
    differ they are all of them. The limits are respected. *)
Theorem corridor_exact (linkage : LinkageSnapshot) (table : RecordTable ReferenceRecord)
    (cat : SymbolOrdinalCatalog) (roots : list N) (rq : BoundedCorridorSetRequest)
    (Hs : StronglySorted id_lt (r_id <$> iter table)) (Hn : narrow (length (iter table)))
    (Hcat : catalog_ok cat) (Hnd : NoDup (e_reference <$> resolved linkage)) :
  exists ri r, from_snapshot_with_catalog (E:=()) linkage table cat roots = Ok ri /\
    bounded_corridor_between (E:=()) (index_generation linkage) linkage (Some ri) rq = Ok r /\
    match r with
    | None =>
        (forall a, ~ request_point cat ri rq (csr_from rq) a) \/ (forall b, ~ request_point cat ri rq (csr_to rq) b) \/
        (max_symbols (csr_limits rq) < set_union_len (csr_from rq) (csr_to rq))%N \/
        corridor_refused (csr_relations rq) (csr_limits rq) (csr_scope rq) = true
    | Some s => corridor_answer linkage table cat ri rq s
    end.
Proof using RL.
  destruct (read_index_built linkage table cat roots Hs Hn Hcat Hnd) as (ri & Hri & Hio).
  unfold bounded_corridor_between, engine_new. rewrite N.eqb_refl. cbn [negb]. unfold corridor_between.
  assert (forall a b : SymbolSet, (set_len a <= set_union_len a b)%N /\ (set_len b <= set_union_len a b)%N) as Hle.
  { intros a b. unfold set_union_len. rewrite bm_union_len_or. split; apply bm_len_subset; intros n Hx; rewrite bm_contains_or, Hx; [done | apply orb_true_r]. }
  destruct (Hle (csr_from rq) (csr_to rq)) as [Hlf Hlt]. clear Hle.
  destruct (_ || _) eqn:Hg.
  - exists ri, None. split; [done |]. split; [done |].
    apply orb_true_iff in Hg as [[[[[Hg | Hg]%orb_true_iff | Hg%N.ltb_lt]%orb_true_iff | Hg%N.ltb_lt]%orb_true_iff | Hg%N.ltb_lt]%orb_true_iff | Hg];
      [left | right; left | right; right; left; lia.. | by right; right; right]; intros a (o & _ & Ho & _); rewrite set_empty in Hg; by apply (Hg o).
  - clear Hg Hlf Hlt.
    set (c := corridor_traversal_new ri (csr_relations rq) (csr_limits rq) (as_path_scope (csr_scope rq))).
    destruct (corridor_run_between_ok (E:=()) c (kind_of table) (io_postings _ _ _ _ _ Hio) (csr_from rq) (csr_to rq)) as (r & Hr & Hans).
    exists ri, r. split; [done |]. split; [done |].
    pose proof (fun set o a => point_iff linkage table cat roots ri (csr_relations rq) (csr_limits rq) (as_path_scope (csr_scope rq)) Hio Hcat set o a) as Hpoint.
    destruct r as [s |].
    2: { destruct Hans as [H | H]; [left | right; left]; intros a Ha; pose proof Ha as (o & Ho%(cat_bij _ Hcat) & _);
           apply (H o), (Hpoint _ o a Ho), Ha. }
    set (scope := as_path_scope (csr_scope rq)) in *. set (rels := csr_relations rq) in *. set (lims := csr_limits rq) in *.
    destruct Hans as [Hsym Hedge Hmember Hedges Hall Halle].
    assert (forall v, ri_symbol ri v = id_of cat v) as Hrs by (intros v; unfold ri_symbol; by rewrite (io_catalog _ _ _ _ _ Hio)).
    split; [exact Hsym | exact Hedge | | |].
    + intros y (v & Hy & Hf)%Hmember. rewrite Hrs in Hy. by apply (fits_iff linkage table cat roots ri rels lims scope Hio Hcat _ _ v y Hy).
    + intros e (k & x & t & He & Harc & Hsp)%Hedges.
      assert (in_scope_c c t) as Ht by (destruct Hsp as (a & b & i & j & _ & Hb & _ & Hj & _); eapply dsteps_scope; [apply Hb | exact Hj]).
      destruct (path_edge_link linkage table cat roots ri rels lims scope Hio Hcat k x t e Harc Ht He) as (Hx & Htt & Hl).
      split; [done |]. by apply (spans_iff linkage table cat roots ri rels lims scope Hio Hcat _ _ x t).
    + intros Hu1 Hu2 (a & Hd).
      assert (exists o, (starts c (csr_from rq) o /\ ~ ends c (csr_to rq) o) \/ (ends c (csr_to rq) o /\ ~ starts c (csr_from rq) o)) as Hdiff.
      { assert (exists o, id_of cat o = Some a) as [o Ho].
        { destruct Hd as [[(o & Ho%(cat_bij _ Hcat) & _) _] | [(o & Ho%(cat_bij _ Hcat) & _) _]]; by exists o. }
        exists o. unfold starts, ends, c. unfold request_point in Hd.
        rewrite !(Hpoint _ o a Ho). exact Hd. }
      split.
      * intros y Hy. pose proof Hy as (a0 & _ & i & _ & (o & Ho%(cat_bij _ Hcat) & _) & _ & Hi & _).
        destruct (hops_steps linkage table cat roots ri rels [] lims scope Hio Hcat i a0 y o Hi Ho) as (v & Hv & _).
        apply (Hall v y Hu1 Hu2 Hdiff); [| by rewrite Hrs]. by apply (fits_iff linkage table cat roots ri rels lims scope Hio Hcat _ _ v y Hv).
      * intros id u v Hl Hac. pose proof Hac as (a0 & _ & i & _ & (o & Ho%(cat_bij _ Hcat) & _) & _ & Hi & _).
        destruct (hops_steps linkage table cat roots ri rels [] lims scope Hio Hcat i a0 u o Hi Ho) as (x & Hx & _).
        destruct (link_path_edge linkage table cat roots ri rels lims scope Hio Hcat id u v x Hl Hx) as (k & t & Ht & Harc & Hsc & He).
        apply (Halle k x t _ Hu1 Hu2 Hdiff Harc Hsc); [| done].
        by apply (spans_iff linkage table cat roots ri rels lims scope Hio Hcat _ _ x t u v).
Qed.
End requests.

(** ** A concrete request *)

#[local] Existing Instances GsetRoaring.gset_roaring GsetRoaring.gset_roaring_laws.
#[local] Existing Instance LinkIndexTheorems.listed_order.

(** Between 0.0 and 1.1 by calls, within three references. *)
Definition sample_corridor_request : BoundedCorridorSetRequest :=
  mk_corridor_set_request (set_from_symbol 0%N) (set_from_symbol 3%N) [bs "calls"] (mk_limits 3 10 10)
    (mk_corridor_scope all_scope).

Definition sample_corridor (rq : BoundedCorridorSetRequest) : option (option BoundedCorridorSearch) :=
  match from_snapshot_with_catalog (E:=()) sample_linkage sample_references sample_catalog [0%N; 1%N] with
  | Ok ri => match bounded_corridor_between (E:=()) 1%N sample_linkage (Some ri) rq with Ok r => Some r | _ => None end
  | _ => None
  end.

Example sample_members :
  option_map (option_map (fun s => (cs_members s, length (cs_edges s)))) (sample_corridor sample_corridor_request)
  = Some (Some ([symbol_at 0 0; symbol_at 0 1; symbol_at 1 0; symbol_at 1 1], 3)).
Proof. vm_compute. reflexivity. Qed.

Lemma corridor_exact_witness :
  StronglySorted id_lt (r_id <$> iter sample_references) /\ catalog_ok sample_catalog /\
  exists ri r, from_snapshot_with_catalog (E:=()) sample_linkage sample_references sample_catalog [0%N; 1%N] = Ok ri /\
    bounded_corridor_between (E:=()) 1%N sample_linkage (Some ri) sample_corridor_request = Ok r.
Proof.
  split; [exact sample_sorted | split; [exact sample_catalog_ok |]].
  destruct (corridor_exact sample_linkage sample_references sample_catalog [0%N; 1%N] sample_corridor_request
    sample_sorted sample_narrow sample_catalog_ok sample_edges_distinct) as (ri & r & Hri & Hr & _).
  exists ri, r. exact (conj Hri Hr).
Defined.
End CorridorAnswers.
