(* ===== verification/Indexed.v ===== *)
(** Structural predicates over the published index and its resolved linkage:
    a rule is evaluated on a symbol in Kleene's logic, a set of items that the
    linkage may not list in full having no certain answer
    (src/crates/check/src/check/eval/indexed.rs and indexed/validate.rs). *)

From stdpp Require Import sorting.
From S2P Require Import Prelude.
From S2P Require Import RustStr.
From S2P Require Import Shape.
From S2P Require Import Uri.
From S2P Require Import Path.
From S2P Require Import DslAst.
From S2P Require Import EvalCore.
From S2P Require Import EvalValue.
From S2P Require Import EvalCollection.
From S2P Require Import Eval.
From S2P Require Import Config.
From S2P Require Import Bitmap.
From S2P Require Import Snapshot.
From S2P Require Import Inventory.

Module Indexed.
Import EvalCore EvalValue EvalWalk EvalCollection Eval Ast Compact Snapshot.

Inductive Item : Set :=
| Symbol (id : SymbolId)
| Reference (r : ReferenceRecord).

Definition failed : NodeOutcome := Fail_ (mk_failure [] [] [] [] None None None).

Section data.
Context {R : Roaring}.

(** [CodeIndex] (snapshot/model.rs), less the durations of its construction. *)
Record CodeIndex : Type := mk_code_index {
  ci_generation : ResourceGeneration;
  catalog_generation : ResourceGeneration;
  identity_scheme : bytes;
  ci_sources : list SourceFileRecord;
  ci_symbols : RecordTable SymbolRecord;
  ci_references : RecordTable ReferenceRecord;
  inventory : Inventory.SymbolInventoryIndex
}.

Record IndexedPredicates : Type := mk_predicates {
  p_index : CodeIndex;
  symbols : gmap SymbolId SymbolRecord;
  children : gmap SymbolId (list SymbolId);
  outgoing : gmap SymbolId (list ReferenceRecord);
  p_incoming : gmap SymbolId (list ReferenceRecord);
  targets : gmap ReferenceId SymbolId;
  uncertain_incoming : gset SymbolId;
  uncertain_children : gset SymbolId
}.

End data.

(** [iter.collect::<FxHashMap<_, _>>()]: the last entry of a key stays. *)
Definition collect_map `{Countable K} {A} (l : list (K * A)) : gmap K A :=
  foldl (fun m e => <[e.1 := e.2]> m) ∅ l.

(** ** The construction *)

(** The derived order on [SymbolId]. *)
Definition symbol_id_leb (a b : SymbolId) : bool :=
  (symbol_file a <? symbol_file b)%N ||
  ((symbol_file a =? symbol_file b)%N && (symbol_def a <=? symbol_def b)%N).

(** The order of the keys [(byte_range, id)]. *)
Definition child_key : Type := option (N * N) * SymbolId.

Definition child_key_leb (a b : child_key) : bool :=
  if decide (a.1 = b.1) then symbol_id_leb a.2 b.2 else position_leb a.1 b.1.

Definition child_le (a b : child_key) : Prop := child_key_leb a b = true.

#[export] Instance child_le_dec : RelDecision child_le.
Proof. intros a b. unfold child_le. apply _. Defined.

(** [Vec::dedup]: of equal neighbours the first stays. *)
Fixpoint dedup_ids (l : list SymbolId) : list SymbolId :=
  match l with
  | x :: ((y :: _) as rest) => if decide (x = y) then dedup_ids rest else x :: dedup_ids rest
  | l => l
  end.

(** [symbols[id]] *)
Definition symbol_of {E} (symbols : gmap SymbolId SymbolRecord) (id : SymbolId) :
    res E SymbolRecord :=
  match symbols !! id with Some s => Ok s | None => Panic end.

(** [items.sort_by_key(..); items.dedup()]. The key of the only item of a list
    is not computed. *)
Definition sort_children {E} (symbols : gmap SymbolId SymbolRecord) (items : list SymbolId) :
    res E (list SymbolId) :=
  if length items <? 2 then Ok items
  else
    keys ← map_res (fun id => s ← symbol_of symbols id; mret (byte_range s, id)) items;
    mret (dedup_ids (map snd (merge_sort child_le keys))).

Definition member_of : bytes := bs "member_of".

Definition membership_refs (refs : list ReferenceRecord) : list (ReferenceId * SymbolId) :=
  map (fun r => (r_id r, source_symbol r)) (List.filter (fun r => beq (r_kind r) member_of) refs).

(** The lists of children before they are sorted. *)
Definition raw_children (syms : list SymbolRecord) (members : gset SymbolId)
    (memberships : list (ReferenceId * SymbolId)) (targets : gmap ReferenceId SymbolId) :
    gmap SymbolId (list SymbolId) :=
  let children :=
    foldl (fun children s =>
        if decide (s_id s ∈ members) then children
        else match parent s with Some p => push_at p (s_id s) children | None => children end)
      ∅ syms in
  foldl (fun children e =>
      match targets !! e.1 with Some owner => push_at owner e.2 children | None => children end)
    children memberships.

(** The symbols that the candidates of some references name. *)
Definition candidate_symbols (keep : ReferenceId -> bool) (l : LinkageSnapshot) : list SymbolId :=
  concat (map c_targets (List.filter (fun c => keep (c_reference c)) (candidates l))) ++
  concat (map d_candidates (List.filter (fun d => keep (d_reference d)) (dynamic l))).

(** [for items in children.values_mut() { .. }] *)
Definition sort_all {E} (symbols : gmap SymbolId SymbolRecord)
    (l : list (SymbolId * list SymbolId)) : res E (gmap SymbolId (list SymbolId)) :=
  fold_res (fun m e => items ← sort_children symbols e.2; mret (<[e.1 := items]> m)) ∅ l.

Section predicates.
Context {R : Roaring} {RE : RegexEngine} {HO : HashOrder}.

(** The symbols of the inventory that have an identity. *)
Definition identity_symbols (i : Inventory.SymbolInventoryIndex) (identity : bytes) :
    list SymbolId :=
  match Inventory.by_identity (Inventory.facets i) !! identity with
  | Some items => omap (fun o => Inventory.i_id <$> Inventory.record i o) (Inventory.set_iter items)
  | None => []
  end.

Definition new {E} (index : CodeIndex) (linkage : LinkageSnapshot) : res E IndexedPredicates :=
  let syms := iter (ci_symbols index) in
  let refs := iter (ci_references index) in
  let symbols := collect_map (map (fun s => (s_id s, s)) syms) in
  let targets := collect_map (map (fun e => (e_reference e, e_target e)) (resolved linkage)) in
  let memberships := collect_map (membership_refs refs) in
  let members : gset SymbolId := list_to_set (map snd (map_to_list memberships)) in
  let children := raw_children syms members (entries memberships) targets in
  let is_membership id := bool_decide (is_Some (memberships !! id)) in
  let unresolved_refs :=
    List.filter (fun r => negb (bool_decide (is_Some (targets !! r_id r)))) refs in
  let named r := identity_symbols (inventory index) (target_identity r) in
  children ← sort_all symbols (entries children);
  mret {|
    p_index := index;
    symbols := symbols;
    children := children;
    outgoing := foldl (fun m r => push_at (source_symbol r) r m) ∅ refs;
    p_incoming :=
      foldl (fun m r => match targets !! r_id r with Some t => push_at t r m | None => m end) ∅ refs;
    targets := targets;
    uncertain_incoming :=
      list_to_set (candidate_symbols (fun _ => true) linkage) ∪
      list_to_set (concat (map named unresolved_refs));
    uncertain_children :=
      list_to_set (candidate_symbols is_membership linkage) ∪
      list_to_set (concat (map named (List.filter (fun r => is_membership (r_id r)) unresolved_refs)))
  |}.

Context (ix : IndexedPredicates).

(** ** Domains *)

Definition source (item : Item) : SymbolId :=
  match item with Symbol id => id | Reference r => source_symbol r end.

Definition incoming (symbol : SymbolId) : list Item * bool :=
  (map Reference (get_all symbol (p_incoming ix)),
   negb (bool_decide (symbol ∈ uncertain_incoming ix))).

Definition outgoing_items (symbol : SymbolId) : list Item * bool :=
  (map Reference (get_all symbol (outgoing ix)), true).

(** The children that [keep] keeps, and whether all of them are known. *)
Definition children_items {E} (keep : SymbolRecord -> bool) (symbol : SymbolId) :
    res E (list Item * bool) :=
  items ← filter_map_res (fun id =>
      s ← symbol_of (symbols ix) id; mret (if keep s then Some (Symbol id) else None))
    (get_all symbol (children ix));
  mret (items, negb (bool_decide (symbol ∈ uncertain_children ix))).

Definition domain {E} (d : Domain.t) (item : Item) : res E (list Item * bool) :=
  match d with
  | Domain.Children kind => children_items (fun s => beq (s_kind s) kind) (source item)
  | Domain.ChildrenByShape shape =>
      children_items (fun s => beq (Shape.as_str (Shape.for_kind (s_kind s))) shape) (source item)
  | Domain.OutRefs | Domain.SourceOutRefs => mret (outgoing_items (source item))
  | Domain.InRefs | Domain.SourceInRefs => mret (incoming (source item))
  | Domain.TargetInRefs =>
      mret match item with
           | Reference r =>
               match targets ix !! r_id r with Some t => incoming t | None => ([], false) end
           | Symbol _ => ([], false)
           end
  | Domain.TargetOutRefs =>
      mret match item with
           | Reference r =>
               match targets ix !! r_id r with Some t => outgoing_items t | None => ([], false) end
           | Symbol _ => ([], false)
           end
  | _ => mret ([], false)
  end.

(** ** Projections *)

Definition source_attr (lhs : Lhs.t) : option Lhs.t :=
  match lhs with
  | Lhs.SourceName => Some Lhs.Name
  | Lhs.SourceKind => Some Lhs.Kind
  | Lhs.SourceSignature => Some Lhs.Signature
  | Lhs.SourceShape => Some Lhs.Shape
  | Lhs.SourceMoniker => Some Lhs.Moniker
  | Lhs.SourceSrcset => Some Lhs.Srcset
  | Lhs.SourceVisibility => Some Lhs.Visibility
  | _ => None
  end.

Definition target_attr (lhs : Lhs.t) : option Lhs.t :=
  match lhs with
  | Lhs.TargetName => Some Lhs.Name
  | Lhs.TargetKind => Some Lhs.Kind
  | Lhs.TargetSignature => Some Lhs.Signature
  | Lhs.TargetShape => Some Lhs.Shape
  | Lhs.TargetSrcset => Some Lhs.Srcset
  | Lhs.TargetVisibility => Some Lhs.Visibility
  | Lhs.TargetMoniker => Some Lhs.Moniker
  | _ => None
  end.

Definition symbol_attr {E} (id : SymbolId) (attr : Lhs.t) : res E (option Value.t) :=
  match symbols ix !! id with
  | None => mret None
  | Some symbol =>
      match attr with
      | Lhs.Srcset =>
          mret ((fun r => Value.Str (Inventory.srcset r)) <$>
                  Inventory.record_by_id (inventory (p_index ix)) id)
      | Lhs.Name => mret (Some (Value.Str (s_name symbol)))
      | Lhs.Kind => mret (Some (Value.Str (s_kind symbol)))
      | Lhs.Signature => mret (Some (Value.Str (signature symbol)))
      | Lhs.Visibility => mret (Some (Value.Str (visibility symbol)))
      | Lhs.Shape => mret (Some (Value.Str (Shape.as_str (Shape.for_kind (s_kind symbol)))))
      | Lhs.Moniker =>
          m ← parsed (Uri.from_uri (identity symbol)
                        {| Uri.scheme := identity_scheme (p_index ix) |});
          mret (option_map Value.Moniker m)
      | _ => mret None
      end
  end.

Definition scalar {E} (lhs : Lhs.t) (item : Item) : res E (option Value.t) :=
  match source_attr lhs with
  | Some attr => symbol_attr (source item) attr
  | None =>
      match target_attr lhs, item with
      | Some attr, Reference r =>
          match targets ix !! r_id r with
          | Some target => symbol_attr target attr
          | None => mret None
          end
      | Some _, Symbol _ => mret None
      | None, Reference r =>
          if decide (lhs = Lhs.Kind) then mret (Some (Value.Str (r_kind r)))
          else symbol_attr (source item) lhs
      | None, Symbol _ => symbol_attr (source item) lhs
      end
  end.

(** ** Collections *)

(** [iter.map(f).collect::<Option<Vec<_>>>()], which ends at the first [None]. *)
Fixpoint collect_options {E A B} (f : A -> res E (option B)) (l : list A) :
    res E (option (list B)) :=
  match l with
  | [] => mret (Some [])
  | x :: l =>
      o ← f x;
      match o with
      | None => mret None
      | Some y => rest ← collect_options f l; mret (option_map (cons y) rest)
      end
  end.

Definition projection_origin (p : CollectionProjection) (item current : Item) : Item :=
  if cp_current p then current else item.

Fixpoint collection {E} (expr : CollectionExpr) (item current : Item) :
    res E (option (list Value.t)) :=
  match expr with
  | CProjection p =>
      '(items, complete) ← domain (cp_domain p) (projection_origin p item current);
      if negb complete then mret None
      else match Lhs.from_projection_name (RustStr.join (bs ".") (cp_path p)) with
           | None => mret None
           | Some lhs => collect_options (scalar lhs) items
           end
  | Unique inner => vs ← collection inner item current; mret (option_map unique vs)
  | Binary op l r =>
      l ← collection l item current;
      match l with
      | None => mret None
      | Some l =>
          r ← collection r item current;
          mret (option_map (apply_collection_op op l) r)
      end
  | CPairProjection _ => mret None
  end.

(** The [for item in &items] loop of [comparison_collection]: whether the items
    are symbols of one source, with positions where there are several. *)
Fixpoint ordered_items {E} (several : bool) (src : option SourceId) (items : list Item) :
    res E bool :=
  match items with
  | [] => mret true
  | Reference _ :: _ => mret false
  | Symbol id :: items =>
      symbol ← symbol_of (symbols ix) id;
      if several && bool_decide (byte_range symbol = None) then mret false
      else if (match src with Some s => negb (bool_decide (s = s_source symbol)) | None => false end)
      then mret false
      else ordered_items several (Some (s_source symbol)) items
  end.

Definition comparison_collection {E} (expr : CollectionExpr) (item current : Item)
    (ordered : bool) : res E (option (list Value.t)) :=
  if ordered then
    match expr with
    | CProjection p =>
        '(items, complete) ← domain (cp_domain p) (projection_origin p item current);
        if negb complete then mret None
        else
          ok ← ordered_items (1 <? length items) None items;
          if ok : bool then collection expr item current else mret None
    | _ => mret None
    end
  else collection expr item current.

(** ** Rules *)

Section bodies.
Context {E : Type} (rec : Node -> Item -> Item -> res E NodeOutcome).

(** The [for nested in items] loop of [number]; its counter is an [i32]. *)
Fixpoint count_loop (filter : option Node) (item : Item) (count : N) (items : list Item) :
    res E (option N) :=
  match items with
  | [] => mret (Some count)
  | nested :: items =>
      holds ← (match filter with
               | Some filter => o ← rec filter nested item; mret (truth o)
               | None => mret (Some true)
               end);
      match holds with
      | None => mret None
      | Some true => count_loop filter item (count + 1) items
      | Some false => count_loop filter item count items
      end
  end.

Definition number (expr : NumberExpr) (item current : Item) : res E (option f64) :=
  match expr with
  | NLiteral n => mret (Some n)
  | Size c => vs ← collection c item current; mret (option_map (fun vs => F64.of_nat (length vs)) vs)
  | Count d filter =>
      '(items, complete) ← domain d item;
      if negb complete then mret None
      else n ← count_loop filter item 0 items; mret (option_map F64.of_N n)
  | _ => mret None
  end.

(** The loop of [quantifier] and what follows it. *)
Fixpoint quantifier_loop (kind : QuantKind.t) (filter : Node) (item : Item) (unknown : bool)
    (items : list Item) : res E NodeOutcome :=
  match items with
  | [] =>
      mret (if unknown then NotApplicable
            else match kind with QuantKind.Any => failed | _ => Pass end)
  | nested :: items =>
      o ← rec filter nested item;
      match kind, truth o with
      | QuantKind.Any, Some true => mret Pass
      | QuantKind.All, Some false | QuantKind.None, Some true => mret failed
      | _, None => quantifier_loop kind filter item true items
      | _, _ => quantifier_loop kind filter item unknown items
      end
  end.

Definition quantifier (kind : QuantKind.t) (d : Domain.t) (filter : Node) (item : Item) :
    res E NodeOutcome :=
  '(items, complete) ← domain d item;
  quantifier_loop kind filter item (negb complete) items.

(** [a.zip(b).map(f)] *)
Definition zip_with_option {A B C} (f : A -> B -> C) (a : option A) (b : option B) : option C :=
  match a, b with Some a, Some b => Some (f a b) | _, _ => None end.

(** The value of the left side of an atom. *)
Definition lhs_value (lhs : LhsExpr) (item current : Item) : res E (option Value.t) :=
  match lhs with
  | Attr lhs => scalar lhs item
  | Number n => n ← number n item current; mret (option_map Value.Number n)
  | _ => mret None
  end.

(** The value of its right side, where [apply_op] does not read it there. *)
Definition rhs_value (rhs : Rhs) (item current : Item) : option (res E (option Value.t)) :=
  match rhs with
  | RProjection lhs => Some (scalar lhs item)
  | CurrentProjection lhs => Some (scalar lhs current)
  | RNumber n => Some (n ← number n item current; mret (option_map Value.Number n))
  | _ => None
  end.

Definition value_atom (a : Atom) (item current : Item) : res E AtomOutcome :=
  let '(mk_atom lhs op rhs _ _) := a in
  value ← lhs_value lhs item current;
  match value with
  | None => mret ANotApplicable
  | Some value =>
      match rhs_value rhs item current with
      | Some rhs =>
          rhs ← rhs;
          match rhs with
          | Some rhs => apply_op_values value op rhs
          | None => mret ANotApplicable
          end
      | None => apply_op value a
      end
  end.

Definition collection_atom (l r : CollectionExpr) (op : Op.t) (item current : Item) :
    res E AtomOutcome :=
  let ordered := bool_decide (op = Op.Prefix) in
  l ← comparison_collection l item current ordered;
  r ← comparison_collection r item current ordered;
  mret match zip_with_option (compare_collections ordered) l r with
       | Some ok => collection_outcome (Op.debug op) ok
       | None => ANotApplicable
       end.

Definition atom (a : Atom) (item current : Item) : res E AtomOutcome :=
  match a with
  | mk_atom (Collection l) op (RCollection r) _ _ => collection_atom l r op item current
  | _ => value_atom a item current
  end.

End bodies.

Definition node_body (rec : Node -> Item -> Item -> res Empty_set NodeOutcome) (n : Node)
    (item current : Item) : res Empty_set NodeOutcome :=
  fst (walk_node (S:=())
    (fun a => lift (atom rec a item current))
    (fun kind d filter => lift (quantifier rec kind d filter item))
    (fun _ => mret NotApplicable)
    (fun _ => mret NotApplicable) n tt).

(** [node] and the bodies above call each other back; the fuel is the height of
    the tree. *)
Fixpoint node (fuel : nat) (n : Node) (item current : Item) : res Empty_set NodeOutcome :=
  match fuel with
  | O => NoFuel
  | S fuel => node_body (node fuel) n item current
  end.

Definition evaluate (n : Node) (id : SymbolId) : res Empty_set (option bool) :=
  o ← node (height n) n (Symbol id) (Symbol id); mret (truth o).

End predicates.

(** ** validate.rs: the rules that this evaluator accepts *)

Definition validate_domain (d : Domain.t) : res () () :=
  match d with
  | Domain.Children _ | Domain.ChildrenByShape _ | Domain.OutRefs | Domain.InRefs
  | Domain.SourceInRefs | Domain.SourceOutRefs | Domain.TargetInRefs | Domain.TargetOutRefs =>
      Ok ()
  | _ => Err ()
  end.

Definition validate_projection (lhs : Lhs.t) : res () () :=
  match lhs with
  | Lhs.Srcset | Lhs.SourceSrcset | Lhs.TargetSrcset | Lhs.SourceVisibility
  | Lhs.TargetVisibility | Lhs.Name | Lhs.Kind | Lhs.Shape | Lhs.Signature | Lhs.Visibility
  | Lhs.Moniker | Lhs.SourceName | Lhs.SourceKind | Lhs.SourceShape | Lhs.SourceSignature
  | Lhs.SourceMoniker | Lhs.TargetName | Lhs.TargetKind | Lhs.TargetShape | Lhs.TargetSignature
  | Lhs.TargetMoniker => Ok ()
  | _ => Err ()
  end.

Fixpoint validate_collection (c : CollectionExpr) : res () () :=
  match c with
  | CProjection p =>
      _ ← validate_domain (cp_domain p);
      lhs ← ok_or (Lhs.from_projection_name (RustStr.join (bs ".") (cp_path p))) ();
      validate_projection lhs
  | Unique inner => validate_collection inner
  | Binary _ l r => _ ← validate_collection l; validate_collection r
  | CPairProjection _ => Err ()
  end.

Definition insert_cap (cap : bytes) (caps : gset bytes) : gset bytes := {[cap]} ∪ caps.

Definition is_children (d : Domain.t) : bool :=
  match d with Domain.Children _ | Domain.ChildrenByShape _ => true | _ => false end.

Section validate.
Context {RE : RegexEngine}.

(** The sides of a [prefix] comparison. *)
Definition validate_prefix (lhs : LhsExpr) (rhs : Rhs) : res () () :=
  match lhs, rhs with
  | Collection (CProjection a), RCollection (CProjection b) =>
      if negb (is_children (cp_domain a)) || negb (is_children (cp_domain b)) then Err () else Ok ()
  | _, _ => Err ()
  end.

Section bodies.
Context (vnode : Node -> gset bytes -> res () (gset bytes)).

Definition validate_number (number : NumberExpr) (caps : gset bytes) : res () (gset bytes) :=
  match number with
  | NLiteral _ => Ok caps
  | Count d filter =>
      _ ← validate_domain d;
      let caps := insert_cap (bs "structure.count") caps in
      match filter with Some filter => vnode filter caps | None => Ok caps end
  | Size c => _ ← validate_collection c; Ok caps
  | _ => Err ()
  end.

Definition validate_atom (atom : Atom) (caps : gset bytes) : res () (gset bytes) :=
  let '(mk_atom lhs op rhs _ _) := atom in
  caps ← (match lhs with
          | Attr lhs => _ ← validate_projection lhs; Ok caps
          | Number n => validate_number n caps
          | Collection c => _ ← validate_collection c; Ok caps
          | _ => Err ()
          end);
  caps ← (match rhs with
          | RProjection lhs | CurrentProjection lhs => _ ← validate_projection lhs; Ok caps
          | RNumber n => validate_number n caps
          | RCollection c => _ ← validate_collection c; Ok caps
          | Str _ | RegexStr _ | RMoniker _ | RPathPattern _ => Ok caps
          | _ => Err ()
          end);
  caps ← (if decide (op = Op.Prefix)
          then _ ← validate_prefix lhs rhs; Ok (insert_cap (bs "collection.prefix") caps)
          else Ok caps);
  Ok (insert_cap (bs "structure.projection") caps).

Definition validate_nodes (nodes : list Node) (caps : gset bytes) : res () (gset bytes) :=
  fold_res (fun caps n => vnode n caps) caps nodes.

Definition validate_node_body (n : Node) (caps : gset bytes) : res () (gset bytes) :=
  match n with
  | NAtom atom => validate_atom atom caps
  | And nodes | Or nodes => validate_nodes nodes caps
  | Not n => vnode n caps
  | Implies a b => caps ← vnode a caps; vnode b caps
  | Quantifier _ d filter =>
      _ ← validate_domain d;
      vnode filter (insert_cap (bs "structure.quantifier") caps)
  | _ => Err ()
  end.

End bodies.

Fixpoint validate_node (fuel : nat) (n : Node) (caps : gset bytes) : res () (gset bytes) :=
  match fuel with
  | O => NoFuel
  | S fuel => validate_node_body (validate_node fuel) n caps
  end.

(** The capabilities that a rule uses, sorted. *)
Definition validate (n : Node) : res () (list bytes) :=
  caps ← validate_node (height n) n ∅;
  mret (StrSort.sort_strings (elements caps)).

End validate.
End Indexed.
