(* ===== verification/IndexedFacts.v ===== *)
(** A verdict of the indexed evaluator that is decided stays so when more
    references are resolved: the sets that the linkage may still extend are
    those that the evaluator calls uncertain. *)

From stdpp Require Import sorting.
From S2P Require Import Prelude.
From S2P Require Import RustStr.
From S2P Require Import Moniker.
From S2P Require Import Uri.
From S2P Require Import UriFacts.
From S2P Require Import Shape.
From S2P Require Import Path.
From S2P Require Import DslAst.
From S2P Require Import DslTheorems.
From S2P Require Import CodeGraphFacts.
From S2P Require Import EvalCore.
From S2P Require Import EvalValue.
From S2P Require Import EvalCollection.
From S2P Require Import Eval.
From S2P Require Import EvalDet.
From S2P Require Import EvalWalkFacts.
From S2P Require Import EvalCollectionFacts.
From S2P Require Import EvalFacts.
From S2P Require Import Bitmap.
From S2P Require Import Snapshot.
From S2P Require Import Inventory.
From S2P Require Import Indexed.

(** ** More information *)
Module Information.
Import AstFacts.

(** [v] is [v'], or is not known. *)
Definition below {A} (v v' : option A) : Prop := forall a, v = Some a -> v' = Some a.

(** Two computations that end, without panic, with values of [Q], the second
    knowing what the first knows. *)
Definition mono {E A} (Q : A -> Prop) (m m' : res E (option A)) : Prop :=
  exists a a', m = Ok a /\ m' = Ok a' /\ below a a' /\ opt_all Q a /\ opt_all Q a'.

(** [o ← m; match o with Some x => k x | None => mret None end] *)
Definition bind_opt {E A B} (m : res E (option A)) (k : A -> res E (option B)) : res E (option B) :=
  o ← m; match o with Some x => k x | None => mret None end.

Lemma below_refl {A} (v : option A) : below v v.
Proof. by intros a ->. Qed.

Lemma below_none {A} (v : option A) : below None v.
Proof. done. Qed.

Lemma below_map {A B} (f : A -> B) v v' : below v v' -> below (option_map f v) (option_map f v').
Proof. intros H b. destruct v as [a |]; [| done]. by rewrite (H a eq_refl). Qed.

Lemma mono_ret {E A} (Q : A -> Prop) a a' :
  below a a' -> opt_all Q a -> opt_all Q a' -> mono Q (Ok (E:=E) a) (Ok a').
Proof. intros. by exists a, a'. Qed.

Lemma mono_same {E A} (Q : A -> Prop) (m : res E (option A)) a : m = Ok a -> opt_all Q a -> mono Q m m.
Proof. intros -> H. by apply mono_ret; [apply below_refl | |]. Qed.

Lemma mono_bind {E A B} (P : A -> Prop) (Q : B -> Prop) m m' (k k' : A -> res E (option B)) :
  mono P m m' -> (forall x, P x -> mono Q (k x) (k' x)) -> mono Q (bind_opt m k) (bind_opt m' k').
Proof.
  intros (a & a' & -> & -> & Hb & Ha & Ha') Hk. unfold bind_opt. rewrite !ret_bind.
  destruct a as [x |]; [rewrite (Hb x eq_refl); by apply Hk |].
  destruct a' as [x |]; [| by apply (mono_ret Q None None)].
  destruct (Hk x Ha') as (b & b' & _ & -> & _ & _ & Hb').
  by apply (mono_ret Q None b'); [apply below_none | |].
Qed.

(** The computation of the first value is the same. *)
Lemma mono_option_map {E A B} (P : A -> Prop) (Q : B -> Prop) (f : A -> B) (m m' : res E (option A)) :
  mono P m m' -> (forall x, P x -> Q (f x)) ->
  mono Q (o ← m; mret (option_map f o)) (o ← m'; mret (option_map f o)).
Proof.
  intros (a & a' & -> & -> & Hb & Ha & Ha') Hf.
  apply (mono_ret Q (option_map f a) (option_map f a')); [by apply below_map | |];
    destruct a, a'; cbn; auto.
Qed.

(** ** The connectives *)

Lemma below_elem {A} (l l' : list (option A)) v : Forall2 below l l' -> Some v ∈ l -> Some v ∈ l'.
Proof.
  intros Hl [i Hi]%list_elem_of_lookup_1. destruct (Forall2_lookup_l _ _ _ _ _ Hl Hi) as (w & Hw & H).
  rewrite (H v eq_refl) in Hw. by eapply list_elem_of_lookup_2.
Qed.

Lemma below_known {A} (l l' : list (option A)) : Forall2 below l l' -> None ∉ l -> l' = l.
Proof.
  intros Hl Hn. induction Hl as [| v v' l l' Hv Hl IH]; [done |].
  apply not_elem_of_cons in Hn as [Hvn Hn]. rewrite (IH Hn). by destruct v as [v |]; [rewrite (Hv v) |].
Qed.

Lemma below_all_of l l' : Forall2 below l l' -> below (EvalWalk.all_of l) (EvalWalk.all_of l').
Proof.
  intros Hl b. unfold EvalWalk.all_of at 1. case_decide as Hf.
  - intros [= <-]. unfold EvalWalk.all_of. by rewrite decide_True by (by eapply below_elem).
  - case_decide as Hn; [done |]. intros [= <-]. rewrite (below_known l l') by done.
    unfold EvalWalk.all_of. by rewrite !decide_False.
Qed.

Lemma below_any_of l l' : Forall2 below l l' -> below (EvalWalk.any_of l) (EvalWalk.any_of l').
Proof.
  intros Hl b. unfold EvalWalk.any_of at 1. case_decide as Hf.
  - intros [= <-]. unfold EvalWalk.any_of. by rewrite decide_True by (by eapply below_elem).
  - case_decide as Hn; [done |]. intros [= <-]. rewrite (below_known l l') by tauto.
    unfold EvalWalk.any_of. by rewrite !decide_False.
Qed.

Lemma below_implies p p' c c' :
  below p p' -> below c c' -> below (EvalWalk.implies p c) (EvalWalk.implies p' c').
Proof.
  intros Hp Hc. destruct p as [[] |]; [rewrite (Hp _ eq_refl); exact Hc | | done].
  rewrite (Hp _ eq_refl). apply below_refl.
Qed.

Lemma below_value {RE : RegexEngine} (leaf leaf' : Ast.Node -> option bool) n :
  Forall (fun n => below (leaf n) (leaf' n)) (EvalWalkFacts.leaves n) ->
  below (EvalWalk.value_of leaf n) (EvalWalk.value_of leaf' n).
Proof.
  assert (forall l, Forall (fun n => Forall (fun n => below (leaf n) (leaf' n)) (EvalWalkFacts.leaves n) ->
      below (EvalWalk.value_of leaf n) (EvalWalk.value_of leaf' n)) l ->
    Forall (fun n => below (leaf n) (leaf' n)) (concat (map EvalWalkFacts.leaves l)) ->
    Forall2 below (map (EvalWalk.value_of leaf) l) (map (EvalWalk.value_of leaf') l)) as Hlist.
  { intros l IH Hl%EvalWalkFacts.leaves_concat. apply Forall2_fmap, Forall_Forall2_diag.
    eapply EvalWalkFacts.Forall_apply; [exact IH | exact Hl]. }
  induction n as [n Hn | l IH | l IH | n IH | p c IHp IHc] using EvalWalkFacts.tree_ind; intros H.
  - destruct n; try done; apply Forall_cons in H as [H _]; exact H.
  - apply below_all_of, Hlist; [exact IH | exact H].
  - apply below_any_of, Hlist; [exact IH | exact H].
  - by apply below_map, IH.
  - cbn [EvalWalkFacts.leaves] in H. apply Forall_app in H as [Hp Hc].
    apply below_implies; [by apply IHp | by apply IHc].
Qed.

End Information.

(** ** Evaluation over a linkage that knows more *)
Module IndexedFacts.
Import AstFacts EvalScope EvalWalkFacts EvalCollectionFacts EvalFacts.
Import EvalCore EvalValue EvalWalk EvalCollection Eval Ast Compact Snapshot Information Indexed.

Section ahead.
Context {R : Roaring} {RE : RegexEngine} {HO : HashOrder}.

(** [ix'] knows what [ix] knows, and agrees on the sets that [ix] calls complete. *)
Record ahead (ix ix' : IndexedPredicates) : Prop := mk_ahead {
  ahead_index : p_index ix' = p_index ix;
  ahead_symbols : symbols ix' = symbols ix;
  ahead_outgoing : outgoing ix' = outgoing ix;
  ahead_targets r t : targets ix !! r = Some t -> targets ix' !! r = Some t;
  ahead_incoming s r : r ∈ get_all s (p_incoming ix) -> r ∈ get_all s (p_incoming ix');
  ahead_children s c : c ∈ get_all s (children ix) -> c ∈ get_all s (children ix');
  ahead_all_incoming s : s ∉ uncertain_incoming ix ->
    (s ∉ uncertain_incoming ix') /\ get_all s (p_incoming ix') = get_all s (p_incoming ix);
  ahead_all_children s : s ∉ uncertain_children ix ->
    (s ∉ uncertain_children ix') /\ get_all s (children ix') = get_all s (children ix);
  ahead_known s c : c ∈ get_all s (children ix') -> is_Some (symbols ix !! c)
}.

Context (ix ix' : IndexedPredicates) (Ha : ahead ix ix').

(** Items and whether they are complete, before and after. *)
Definition grows (d d' : list Item * bool) : Prop :=
  d.1 ⊆ d'.1 /\ (d.2 = true -> d' = d).

Lemma grows_refl d : grows d d.
Proof. by split. Qed.

Lemma incoming_grows s : grows (incoming ix s) (incoming ix' s).
Proof.
  unfold incoming. split; cbn.
  - intros x (r & -> & Hr)%list_elem_of_fmap. apply list_elem_of_fmap_2. by apply (ahead_incoming _ _ Ha).
  - intros Hs%negb_true_iff%bool_decide_eq_false. destruct (ahead_all_incoming _ _ Ha s Hs) as [Hs' ->].
    by rewrite !bool_decide_eq_false_2.
Qed.

Lemma children_items_Ok {E} iy keep s :
  (forall c, c ∈ get_all s (children iy) -> is_Some (symbols iy !! c)) ->
  children_items (E:=E) iy keep s =
    Ok (omap (fun c => y ← symbols iy !! c; if keep y : bool then Some (Symbol c) else None)
          (get_all s (children iy)),
        negb (bool_decide (s ∈ uncertain_children iy))).
Proof.
  intros Hk. unfold children_items. erewrite filter_map_res_Ok; [done |].
  apply Forall_forall. intros c [y Hy]%Hk. unfold symbol_of. by rewrite Hy.
Qed.

Lemma children_grow {E} keep s :
  exists d d', children_items (E:=E) ix keep s = Ok d /\ children_items (E:=E) ix' keep s = Ok d' /\
    grows d d'.
Proof.
  pose proof (ahead_known _ _ Ha s) as Hk.
  eexists _, _. split; [| split]; [apply children_items_Ok .. |].
  - intros c Hc. by apply Hk, (ahead_children _ _ Ha).
  - intros c Hc. rewrite (ahead_symbols _ _ Ha). by apply Hk.
  - split; cbn; rewrite (ahead_symbols _ _ Ha).
    + intros x (c & Hc & Hx)%list_elem_of_omap. apply list_elem_of_omap. exists c.
      split; [by apply (ahead_children _ _ Ha) | done].
    + intros Hs%negb_true_iff%bool_decide_eq_false. destruct (ahead_all_children _ _ Ha s Hs) as [Hs' ->].
      by rewrite !bool_decide_eq_false_2.
Qed.

(** The items of a domain grow, and those of a complete domain are the same. *)
Lemma domain_grows {E} d item :
  exists v v', domain (E:=E) ix d item = Ok v /\ domain (E:=E) ix' d item = Ok v' /\ grows v v'.
Proof.
  assert (forall v v', grows v v' -> exists w w', @Ok E _ v = Ok w /\ @Ok E _ v' = Ok w' /\ grows w w') as Hret
    by (intros v v' ?; by exists v, v').
  assert (forall s, grows (outgoing_items ix s) (outgoing_items ix' s)) as Hout.
  { intros s. unfold outgoing_items. by rewrite (ahead_outgoing _ _ Ha). }
  destruct d; cbn [domain]; try (apply Hret, grows_refl); try apply children_grow;
    try apply Hret, Hout; try apply Hret, incoming_grows.
  all: destruct item as [s | r]; [apply Hret, grows_refl |].
  all: destruct (targets ix !! r_id r) as [t |] eqn:Ht;
    [rewrite (ahead_targets _ _ Ha _ _ Ht); apply Hret; auto using incoming_grows |].
  all: apply Hret; split; [by intros ? ?%not_elem_of_nil | done].
Qed.

(** ** Projections *)

Lemma symbol_attr_total {E} id attr :
  exists v, symbol_attr (E:=E) ix id attr = Ok v /\ opt_all value_ok v.
Proof.
  unfold symbol_attr. destruct (symbols ix !! id) as [s |]; [| by exists None].
  destruct attr; try (by eexists; split; [reflexivity |]).
  - eexists. split; [reflexivity |]. by destruct (Inventory.record_by_id _ _).
  - pose proof (UriFacts.from_uri_post (identity s) {| Uri.scheme := identity_scheme (p_index ix) |}) as Hp.
    unfold parsed. destruct (Uri.from_uri _ _) as [m | e | |]; try done; eexists; (split; [reflexivity |]).
    + destruct Hp as (p & segs & Hv & _). by exists p, segs.
    + done.
Qed.

Lemma symbol_attr_same {E} id attr : symbol_attr (E:=E) ix' id attr = symbol_attr ix id attr.
Proof. unfold symbol_attr. by rewrite (ahead_symbols _ _ Ha), (ahead_index _ _ Ha). Qed.

Lemma symbol_attr_mono {E} id attr :
  mono (E:=E) value_ok (symbol_attr ix id attr) (symbol_attr ix' id attr).
Proof.
  rewrite symbol_attr_same. destruct (symbol_attr_total (E:=E) id attr) as (v & Hv & Hok).
  by eapply mono_same.
Qed.

Lemma scalar_mono {E} lhs item : mono (E:=E) value_ok (scalar ix lhs item) (scalar ix' lhs item).
Proof.
  unfold scalar. destruct (source_attr lhs); [apply symbol_attr_mono |].
  destruct (target_attr lhs), item as [s | r]; try apply symbol_attr_mono.
  - by apply (mono_ret _ None None).
  - destruct (targets ix !! r_id r) as [t' |] eqn:Ht.
    + rewrite (ahead_targets _ _ Ha _ _ Ht). apply symbol_attr_mono.
    + destruct (targets ix' !! r_id r) as [t' |]; [| by apply (mono_ret _ None None)].
      destruct (symbol_attr_total (E:=E) t' t) as (v & Hv & Hok).
      rewrite symbol_attr_same, Hv. by apply (mono_ret _ None v).
  - case_decide; [| apply symbol_attr_mono]. by eapply mono_same.
Qed.

(** ** Collections *)

Lemma collect_mono {E A B} (Q : B -> Prop) (f f' : A -> res E (option B)) l :
  (forall x, mono Q (f x) (f' x)) -> mono (Forall Q) (collect_options f l) (collect_options f' l).
Proof.
  intros Hf. induction l as [| x l IH]; cbn [collect_options].
  - apply (mono_ret _ (Some []) (Some [])); cbn; auto using below_refl.
  - apply (mono_bind Q (Forall Q) _ _
      (fun y => rest ← collect_options f l; mret (option_map (cons y) rest))
      (fun y => rest ← collect_options f' l; mret (option_map (cons y) rest))); [apply Hf |].
    intros y Hy. eapply mono_option_map; [exact IH |]. auto.
Qed.

Lemma mono_none {E A} (Q : A -> Prop) (m m' : res E (option A)) :
  mono Q m m' -> mono Q (Ok None) m'.
Proof. intros (a & a' & _ & -> & _ & _ & Hq). by apply mono_ret; [apply below_none | |]. Qed.

Lemma mono_weaken {E A} (P Q : A -> Prop) (m m' : res E (option A)) :
  (forall x, P x -> Q x) -> mono P m m' -> mono Q m m'.
Proof.
  intros Hpq (a & a' & -> & -> & Hb & Hp & Hp'). apply mono_ret; [done | destruct a | destruct a']; cbn; auto.
Qed.

(** What is computed from a complete domain only. *)
Definition if_complete {E B} (m : res E (list Item * bool)) (k : list Item -> res E (option B)) :
    res E (option B) :=
  '(items, complete) ← m; if negb complete then mret None else k items.

(** The symbols among the items are in the index. *)
Definition item_known (item : Item) : Prop :=
  match item with Symbol s => is_Some (symbols ix !! s) | Reference _ => True end.

Lemma references_known l : Forall item_known (map Reference l).
Proof. induction l; by constructor. Qed.

Lemma children_known {E} iy keep s d : symbols iy = symbols ix ->
  children_items (E:=E) iy keep s = Ok d -> Forall item_known d.1.
Proof.
  intros Hs. unfold children_items. rewrite Hs. generalize (get_all s (children iy)). intros l H.
  apply bind_Ok in H as (items & Hi & H). apply Ok_inj in H as <-. cbn.
  revert items Hi. induction l as [| c l IH]; cbn [filter_map_res]; intros items H;
    [apply Ok_inj in H as <-; constructor |].
  unfold symbol_of in H. destruct (symbols ix !! c) as [y |] eqn:Hy; [| done].
  rewrite !ret_bind in H. apply bind_Ok in H as (o & Ho%Ok_inj & H). subst o.
  apply bind_Ok in H as (rest & Hr & H). apply Ok_inj in H as <-. destruct (keep y); eauto.
  constructor; eauto. by exists y.
Qed.

Lemma domain_known {E} iy d item v : symbols iy = symbols ix ->
  domain (E:=E) iy d item = Ok v -> Forall item_known v.1.
Proof.
  intros Hs. pose proof references_known.
  destruct d; cbn [domain]; try (by eapply children_known); intros Hv; apply Ok_inj in Hv as <-;
    repeat case_match; cbn; auto; constructor.
Qed.

Lemma if_complete_mono {E B} (Q : B -> Prop) d item (k k' : list Item -> res E (option B)) :
  (forall items, Forall item_known items -> mono Q (k items) (k' items)) ->
  mono Q (if_complete (domain ix d item) k) (if_complete (domain ix' d item) k').
Proof.
  intros Hk. destruct (domain_grows (E:=E) d item) as ([items c] & [items' c'] & Hd & Hd' & _ & Hc).
  apply domain_known in Hd' as Hn; [| apply (ahead_symbols _ _ Ha)]. rewrite Hd, Hd'.
  unfold if_complete. rewrite !ret_bind. destruct c; cbn [negb].
  - injection (Hc eq_refl) as -> ->. by apply Hk.
  - destruct c'; [| by apply (mono_ret _ None None)]. by eapply mono_none, Hk.
Qed.

Abbreviation any := (fun _ => True).

Lemma collection_mono {E} c item current :
  mono (E:=E) any (collection ix c item current) (collection ix' c item current).
Proof.
  induction c as [p | p | c IH | op l IHl r IHr]; cbn [collection].
  - apply (if_complete_mono any _ _
      (fun items => match Lhs.from_projection_name (RustStr.join (bs ".") (cp_path p)) with
        | None => mret None | Some lhs => collect_options (scalar ix lhs) items end)
      (fun items => match Lhs.from_projection_name (RustStr.join (bs ".") (cp_path p)) with
        | None => mret None | Some lhs => collect_options (scalar ix' lhs) items end)).
    intros items _. destruct (Lhs.from_projection_name _) as [lhs |]; [| by apply (mono_ret _ None None)].
    eapply (mono_weaken (Forall value_ok)); [done |]. apply collect_mono. intros x. apply scalar_mono.
  - by apply (mono_ret _ None None).
  - by eapply mono_option_map.
  - eapply (mono_bind any); [exact IHl |]. intros vs _. by eapply mono_option_map.
Qed.

Lemma ordered_items_same {E} several src items :
  ordered_items (E:=E) ix' several src items = ordered_items ix several src items.
Proof.
  revert src. induction items as [| [s | r] items IH]; intros src; cbn [ordered_items]; [done | | done].
  rewrite (ahead_symbols _ _ Ha). destruct (symbol_of (E:=E) (symbols ix) s) as [y | | |]; try done.
  rewrite !ret_bind. by rewrite IH.
Qed.

Lemma ordered_items_total {E} several src items :
  Forall item_known items -> exists b, ordered_items (E:=E) ix several src items = Ok b.
Proof.
  intros Hi. revert src. induction Hi as [| item items Hy Hi IH]; intros src; cbn [ordered_items]; eauto.
  destruct item as [s | r]; eauto. destruct Hy as [y Hy]. unfold symbol_of. rewrite Hy, ret_bind. repeat case_match; eauto.
Qed.

Lemma comparison_mono {E} c item current ordered :
  mono (E:=E) any (comparison_collection ix c item current ordered)
    (comparison_collection ix' c item current ordered).
Proof.
  unfold comparison_collection. destruct ordered; [| apply collection_mono].
  destruct c as [p | p | c | op l r]; try (by apply (mono_ret _ None None)).
  apply (if_complete_mono any _ _
    (fun items => ok ← ordered_items ix (1 <? length items) None items;
       if ok : bool then collection ix (CProjection p) item current else mret None)
    (fun items => ok ← ordered_items ix' (1 <? length items) None items;
       if ok : bool then collection ix' (CProjection p) item current else mret None)).
  intros items Hi. rewrite ordered_items_same.
  destruct (ordered_items_total (E:=E) (1 <? length items) None items Hi) as [b ->].
  rewrite !ret_bind. destruct b; [apply collection_mono | by apply (mono_ret _ None None)].
Qed.

(** ** Rules *)

(** An outcome is read by its truth. *)
Definition verdict {E} (m : res E NodeOutcome) : res E (option bool) := o ← m; mret (truth o).

Section bodies.
Context (k : nat) (rec rec' : Node -> Item -> Item -> res Empty_set NodeOutcome).
Context (Hrec : forall n item current, fits k n ->
  mono any (verdict (rec n item current)) (verdict (rec' n item current))).

Lemma count_mono filter item n items : opt_all (fits k) filter ->
  mono any (count_loop rec filter item n items) (count_loop rec' filter item n items).
Proof.
  intros Hf. revert n. induction items as [| x items IH]; intros n; cbn [count_loop].
  - by apply mono_ret; [apply below_refl | |].
  - apply (mono_bind any any _ _
      (fun b : bool => if b then count_loop rec filter item (n + 1) items
                       else count_loop rec filter item n items)
      (fun b : bool => if b then count_loop rec' filter item (n + 1) items
                       else count_loop rec' filter item n items)).
    + destruct filter as [f |]; [by apply Hrec | by apply mono_ret; [apply below_refl | |]].
    + intros [] _; apply IH.
Qed.

Lemma number_mono e item current : number_ok e = true -> number_height e <= S k ->
  mono any (number ix rec e item current) (number ix' rec' e item current).
Proof.
  intros Hok Hh. destruct e as [x | l | d f | | | | c]; try (by apply mono_ret; [apply below_refl | |]).
  - apply (if_complete_mono any _ _
      (fun items => n ← count_loop rec f item 0 items; mret (option_map F64.of_N n))
      (fun items => n ← count_loop rec' f item 0 items; mret (option_map F64.of_N n))).
    intros items _. eapply mono_option_map; [apply count_mono | done].
    destruct f as [f |]; [| done]. cbn [number_ok number_height] in *. split; [done | lia].
  - eapply mono_option_map; [apply collection_mono | done].
Qed.

(** What an atom says. *)
Definition atom_truth (o : AtomOutcome) : option bool :=
  match o with APass => Some true | AFail _ _ _ => Some false | ANotApplicable => None end.

Abbreviation said m := (o ← m; mret (atom_truth o)).

Lemma said_same (m : res Empty_set AtomOutcome) : post m any -> mono any (said m) (said m).
Proof.
  destruct m as [o | [] | |]; try done. intros _. apply (mono_ret _ (atom_truth o) (atom_truth o));
    [apply below_refl | by destruct o..].
Qed.

Lemma said_bind {A} (P : A -> Prop) (m m' : res Empty_set (option A)) (g g' : A -> res Empty_set AtomOutcome) :
  mono P m m' -> (forall x, P x -> mono any (said (g x)) (said (g' x))) ->
  mono any (said (o ← m; match o with Some x => g x | None => mret ANotApplicable end))
    (said (o ← m'; match o with Some x => g' x | None => mret ANotApplicable end)).
Proof.
  intros Hm Hk. pose proof (mono_bind P any m m' (fun x => said (g x)) (fun x => said (g' x)) Hm Hk) as H.
  unfold bind_opt in H. rewrite !bind_assoc.
  destruct Hm as (a & a' & -> & -> & _). rewrite !ret_bind in *. by destruct a, a'.
Qed.

Lemma lhs_value_mono lhs item current : lhs_ok lhs = true -> lhs_height lhs <= S k ->
  mono value_ok (lhs_value ix rec lhs item current) (lhs_value ix' rec' lhs item current).
Proof.
  intros Hok Hh. destruct lhs; cbn [lhs_value]; try (by apply (mono_ret _ None None)).
  - apply scalar_mono.
  - eapply mono_option_map; [by apply number_mono | done].
Qed.

Lemma rhs_value_mono rhs item current : rhs_ok rhs = true -> rhs_height rhs <= S k ->
  match rhs_value ix rec rhs item current, rhs_value ix' rec' rhs item current with
  | Some m, Some m' => mono value_ok m m'
  | None, None => True
  | _, _ => False
  end.
Proof.
  intros Hok Hh. destruct rhs; cbn [rhs_value]; try done; try apply scalar_mono.
  eapply mono_option_map; [by apply number_mono | done].
Qed.

Lemma value_atom_mono a item current : fits (S k) (NAtom a) ->
  mono any (said (value_atom ix rec a item current)) (said (value_atom ix' rec' a item current)).
Proof.
  destruct a as [lhs op rhs raw re]. intros [Hok Hh]. cbn [rule_ok height] in *. apply andb_prop in Hok as [Hl Hr].
  unfold value_atom. apply (said_bind value_ok); [by apply lhs_value_mono; [| lia] |].
  intros v Hv. pose proof (rhs_value_mono rhs item current Hr ltac:(lia)) as Hrhs.
  destruct (rhs_value ix rec rhs item current), (rhs_value ix' rec' rhs item current); try done.
  - apply (said_bind value_ok); [done |]. intros w Hw. by apply said_same, values_post.
  - by apply said_same, apply_op_post.
Qed.

Lemma collection_atom_mono l r op item current :
  mono (E:=Empty_set) any (said (collection_atom ix l r op item current))
    (said (collection_atom ix' l r op item current)).
Proof.
  unfold collection_atom.
  destruct (comparison_mono (E:=Empty_set) l item current (bool_decide (op = Op.Prefix)))
    as (vl & vl' & -> & -> & Hl & _).
  destruct (comparison_mono (E:=Empty_set) r item current (bool_decide (op = Op.Prefix)))
    as (vr & vr' & -> & -> & Hr & _).
  rewrite !ret_bind. apply mono_ret; [| by destruct (atom_truth _)..].
  destruct vl as [vl |]; [rewrite (Hl _ eq_refl) | done].
  destruct vr as [vr |]; [rewrite (Hr _ eq_refl) | done]. apply below_refl.
Qed.

Lemma atom_mono a item current : fits (S k) (NAtom a) ->
  mono any (said (atom ix rec a item current)) (said (atom ix' rec' a item current)).
Proof.
  intros Hfit. destruct a as [[] op [] raw re]; try by apply value_atom_mono. apply collection_atom_mono.
Qed.

(** ** Quantifiers *)

(** The verdict on an item that ends a quantifier, and what it ends with. *)
Definition stops (kind : QuantKind.t) : bool :=
  match kind with QuantKind.All => false | _ => true end.

Definition ended (kind : QuantKind.t) (early : bool) : bool :=
  match kind with QuantKind.Any => early | _ => negb early end.

Definition quant_value (kind : QuantKind.t) (unknown : bool) (vs : list (option bool)) : option bool :=
  if decide (Some (stops kind) ∈ vs) then Some (ended kind true)
  else if decide (unknown = true \/ None ∈ vs) then None else Some (ended kind false).

Definition value_of_rec (r : Node -> Item -> Item -> res Empty_set NodeOutcome) (filter : Node)
    (item nested : Item) : option bool :=
  match r filter nested item with Ok o => truth o | _ => None end.

Lemma quant_value_cons kind unknown v vs :
  quant_value kind unknown (v :: vs) =
    if decide (v = Some (stops kind)) then Some (ended kind true)
    else quant_value kind (unknown || bool_decide (v = None)) vs.
Proof.
  unfold quant_value. repeat case_decide; rewrite ?elem_of_cons, ?orb_true_iff, ?bool_decide_eq_true in *;
    try done; intuition congruence.
Qed.

Lemma quantifier_loop_value (r : Node -> Item -> Item -> res Empty_set NodeOutcome) kind filter item unknown items :
  (forall x, exists o, r filter x item = Ok o) ->
  verdict (quantifier_loop r kind filter item unknown items) =
    Ok (quant_value kind unknown (map (value_of_rec r filter item) items)).
Proof.
  intros Hr. revert unknown. induction items as [| x items IH]; intros unknown; cbn [quantifier_loop map].
  - by destruct unknown, kind.
  - destruct (Hr x) as [o Ho]. rewrite quant_value_cons.
    assert (value_of_rec r filter item x = truth o) as -> by (unfold value_of_rec; by rewrite Ho).
    rewrite Ho, ret_bind.
    destruct kind, o; cbn [truth]; rewrite ?orb_false_r, ?orb_true_r; try (by rewrite <- IH);
      case_decide; try done; cbn; rewrite ?orb_false_r, ?orb_true_r; apply IH.
Qed.

Lemma rec_total n item current : fits k n ->
  (exists o, rec n item current = Ok o) /\ (exists o, rec' n item current = Ok o) /\
  below (value_of_rec rec n current item) (value_of_rec rec' n current item).
Proof.
  intros Hn. destruct (Hrec n item current Hn) as (v & v' & Hv & Hv' & Hb & _). unfold verdict in *.
  apply bind_Ok in Hv as (o & Ho & Hv%Ok_inj). apply bind_Ok in Hv' as (o' & Ho' & Hv'%Ok_inj).
  unfold value_of_rec. rewrite Ho, Ho'. split_and!; [by eexists.. |]. by subst.
Qed.

Lemma quantifier_mono kind d filter item : fits k filter ->
  mono any (verdict (quantifier ix rec kind d filter item))
    (verdict (quantifier ix' rec' kind d filter item)).
Proof.
  intros Hf. unfold quantifier.
  destruct (domain_grows (E:=Empty_set) d item) as ([items c] & [items' c'] & -> & -> & Hi & Hc).
  rewrite !ret_bind, !quantifier_loop_value by (intros x; by apply rec_total).
  apply mono_ret; [| by destruct (quant_value _ _ _)..]. cbn in Hi, Hc. intros b.
  unfold quant_value at 1. case_decide as Hs.
  - intros [= <-]. apply list_elem_of_fmap in Hs as (x & Hx & Hin).
    unfold quant_value. rewrite decide_True; [done |]. apply list_elem_of_fmap. exists x.
    split; [| by apply Hi]. symmetry. by apply rec_total.
  - case_decide as Hn; [done |]. intros [= <-]. destruct c; [| tauto].
    injection (Hc eq_refl) as -> ->. rewrite (below_known (map (value_of_rec rec filter item) items)
      (map (value_of_rec rec' filter item) items)).
    + unfold quant_value. by rewrite !decide_False.
    + apply Forall2_fmap, Forall_Forall2_diag, Forall_forall. intros x _. by apply rec_total.
    + tauto.
Qed.

(** ** Trees *)

Lemma leaf_mono n item current : is_leaf n = true -> fits (S k) n ->
  mono any (verdict (node_body ix rec n item current)) (verdict (node_body ix' rec' n item current)).
Proof.
  intros Hl Hn. destruct n as [a | | | | | p | l | kind d f]; try done; unfold node_body; cbn [walk_node].
  - pose proof (atom_mono a item current Hn) as Hm. destruct a as [lhs op rhs raw re].
    destruct Hm as (v & v' & Hv & Hv' & Hb & _ & _).
    apply bind_Ok in Hv as (o & Ho & Hv%Ok_inj). apply bind_Ok in Hv' as (o' & Ho' & Hv'%Ok_inj).
    unfold walk_atom, mbind, st_bind, lift. rewrite Ho, Ho'. subst. cbn.
    destruct o, o'; (apply mono_ret; [exact Hb | done | done]).
  - by apply (mono_ret _ None None).
  - by apply (mono_ret _ None None).
  - apply quantifier_mono. destruct Hn as [Hok Hh]. cbn [rule_ok height] in *. split; [done | lia].
Qed.

(** The walk of [node_body] computes the value of the tree on the verdicts of its
    leaves. *)
Lemma node_body_value iy (r : Node -> Item -> Item -> res Empty_set NodeOutcome) n item current :
  Forall (fun m => exists v, verdict (node_body iy r m item current) = Ok v) (leaves n) ->
  verdict (node_body iy r n item current) =
    Ok (value_of (fun m => match node_body iy r m item current with Ok o => truth o | _ => None end) n).
Proof.
  intros Hl. set (leaf := fun m => match node_body iy r m item current with Ok o => truth o | _ => None end).
  assert (Forall (fun m => answers (fun _ : () => True)
    (walk_node (S:=()) (fun a => lift (atom iy r a item current))
      (fun kind d filter => lift (quantifier iy r kind d filter item))
      (fun _ => mret NotApplicable) (fun _ => mret NotApplicable) m) (leaf m)) (leaves n)) as H.
  { eapply Forall_impl; [exact Hl |]. intros m [v Hv] [] _.
    apply bind_Ok in Hv as (o & Ho & _). subst leaf. cbv beta. rewrite Ho.
    unfold node_body in Ho. destruct (walk_node _ _ _ _ m tt) as [x []]. cbn in Ho. subst x. by exists o, (). }
  destruct (walk_answers _ _ _ _ _ _ _ H () I) as (o & [] & Ho & _ & Hv).
  unfold verdict. unfold node_body at 1. rewrite Ho. cbn. by rewrite Hv.
Qed.

Lemma node_body_mono n item current : fits (S k) n ->
  mono any (verdict (node_body ix rec n item current)) (verdict (node_body ix' rec' n item current)).
Proof.
  intros Hn.
  assert (Forall (fun m => mono any (verdict (node_body ix rec m item current))
    (verdict (node_body ix' rec' m item current))) (leaves n)) as Hl.
  { eapply Forall_impl; [apply Forall_and; split; [by apply leaves_fit | apply leaves_are_leaves] |].
    intros m [Hm Hlm]. by apply leaf_mono. }
  rewrite !node_body_value.
  - apply mono_ret; [| by destruct (value_of _ n)..]. apply below_value.
    eapply Forall_impl; [exact Hl |]. intros m (v & v' & Hv & Hv' & Hb & _).
    apply bind_Ok in Hv as (o & -> & Hv%Ok_inj). apply bind_Ok in Hv' as (o' & -> & Hv'%Ok_inj). by subst.
  - eapply Forall_impl; [exact Hl |]. intros m (v & v' & _ & Hv' & _). by eexists.
  - eapply Forall_impl; [exact Hl |]. intros m (v & v' & Hv & _). by eexists.
Qed.
End bodies.

Lemma rule_height_pos n : 0 < height n.
Proof. destruct n as [[] | | | | | | |]; cbn [height]; lia. Qed.

Lemma node_mono k n item current : fits k n ->
  mono any (verdict (node ix k n item current)) (verdict (node ix' k n item current)).
Proof.
  revert n item current. induction k as [| k IH]; intros n item current Hn; cbn [node].
  - pose proof (rule_height_pos n). destruct Hn. lia.
  - by apply (node_body_mono k).
Qed.

Lemma evaluate_mono n id : rule_ok n = true -> mono any (evaluate ix n id) (evaluate ix' n id).
Proof. intros Hn. by apply node_mono. Qed.
End ahead.

(** ** The construction *)

Section maps.
Context `{Countable K} {A V : Type}.

Lemma collect_map_elem (l : list (K * A)) k v : collect_map l !! k = Some v -> (k, v) ∈ l.
Proof.
  unfold collect_map. induction l as [| [k' v'] l IH] using rev_ind; [cbn; by rewrite lookup_empty |].
  rewrite foldl_snoc. cbn. rewrite lookup_insert, elem_of_app, list_elem_of_singleton.
  case_decide as Hk; [intros [= <-]; subst; by right | by left; apply IH].
Qed.

Lemma collect_map_key (l : list (K * A)) k : is_Some (collect_map l !! k) <-> k ∈ l.*1.
Proof.
  unfold collect_map. induction l as [| [k' v'] l IH] using rev_ind; cbn.
  - rewrite lookup_empty. split; [by intros [] | by intros ?%not_elem_of_nil].
  - rewrite foldl_snoc, fmap_app, elem_of_app. cbn. rewrite list_elem_of_singleton, lookup_insert.
    case_decide as Hk; [subst; split; [by right | by eexists] |]. rewrite IH.
    split; [by left | intros [? | ->]; done].
Qed.

Lemma collect_map_nodup (l : list (K * A)) k v : NoDup l.*1 -> (k, v) ∈ l -> collect_map l !! k = Some v.
Proof.
  intros Hnd Hin. destruct (proj2 (collect_map_key l k)) as [w Hw].
  { apply (list_elem_of_fmap_2 fst) in Hin. exact Hin. }
  rewrite Hw. apply collect_map_elem in Hw.
  apply (elem_of_list_to_map_1 (M:=gmap K)) in Hin, Hw; congruence.
Qed.

(** A loop of pushes lists under a key what its elements have under it. *)
Lemma get_all_pushes (key : A -> option (K * V)) step (m : gmap K (list V)) l k :
  (forall m x, step m x = match key x with Some (k, v) => push_at k v m | None => m end) ->
  get_all k (foldl step m l) = get_all k m ++ EvalIndexFacts.bucket key k l.
Proof.
  intros Hstep. revert m. induction l as [| x l IH]; intros m; cbn [foldl]; [by rewrite app_nil_r |].
  rewrite IH, Hstep. unfold EvalIndexFacts.bucket. cbn [omap list_omap].
  destruct (key x) as [[k0 v] |]; [| done]. unfold get_all, push_at. rewrite lookup_insert.
  case_decide as Hk; [| done]. subst. cbn. by rewrite <- app_assoc.
Qed.

Lemma bucket_ext (key key' : A -> option (K * V)) k l :
  (forall x v, x ∈ l -> key x = Some (k, v) <-> key' x = Some (k, v)) ->
  EvalIndexFacts.bucket key k l = EvalIndexFacts.bucket key' k l.
Proof.
  unfold EvalIndexFacts.bucket. induction l as [| x l IH]; intros Hk; [done |]. cbn [omap list_omap].
  rewrite IH by (intros y v Hy; apply Hk; by right).
  assert (forall v, key x = Some (k, v) <-> key' x = Some (k, v)) as Hx by (intros v; apply Hk; by left).
  destruct (key x) as [[k1 v1] |], (key' x) as [[k2 v2] |]; repeat case_decide; subst; try done.
  - specialize (proj1 (Hx v1) eq_refl). congruence.
  - specialize (proj1 (Hx v1) eq_refl). congruence.
  - specialize (proj2 (Hx v2) eq_refl). congruence.
  - specialize (proj1 (Hx v1) eq_refl). congruence.
  - specialize (proj2 (Hx v2) eq_refl). congruence.
Qed.
End maps.

(** *** Sorting *)
Section sort.
Context (syms : gmap SymbolId SymbolRecord).

Definition key_of (id : SymbolId) : child_key := (y ← syms !! id; byte_range y, id).

Definition sort_pure (items : list SymbolId) : list SymbolId :=
  if length items <? 2 then items
  else dedup_ids (map snd (merge_sort child_le (map key_of items))).

Lemma sort_children_Ok {E} items : (forall x, x ∈ items -> is_Some (syms !! x)) ->
  sort_children (E:=E) syms items = Ok (sort_pure items).
Proof.
  intros Hk. unfold sort_children, sort_pure. destruct (length items <? 2); [done |].
  rewrite (map_res_Ok _ key_of); [done |]. apply Forall_forall. intros x [y Hy]%Hk.
  unfold symbol_of, key_of. by rewrite Hy.
Qed.

(** The order of the keys is total. *)
Lemma ranges_differ (a b c d : N) : Some (a, b) <> Some (c, d) -> a <> c \/ b <> d.
Proof. intros H. destruct (decide (a = c)) as [-> |]; [right; by intros -> | by left]. Qed.

Ltac by_cases := repeat case_decide; simplify_eq; cbn in *;
  rewrite ?orb_true_iff, ?andb_true_iff, ?N.ltb_lt, ?N.eqb_eq, ?N.leb_le in *;
  repeat match goal with H : Some (_, _) <> Some (_, _) |- _ => apply ranges_differ in H end;
  try (intuition (subst; simplify_eq; lia || congruence)).

Lemma child_le_trans : Transitive child_le.
Proof.
  unfold child_le, child_key_leb, symbol_id_leb, position_leb.
  intros [[[a1 a2] |] [fa da]] [[[b1 b2] |] [fb db]] [[[c1 c2] |] [fc dc]]; cbn; by_cases.
Qed.

Lemma child_le_total : Total child_le.
Proof.
  unfold child_le, child_key_leb, symbol_id_leb, position_leb.
  intros [[[a1 a2] |] [fa da]] [[[b1 b2] |] [fb db]]; cbn; by_cases.
Qed.

Lemma child_le_antisym a b : child_le a b -> child_le b a -> a = b.
Proof.
  unfold child_le, child_key_leb, symbol_id_leb, position_leb.
  destruct a as [[[a1 a2] |] [fa da]], b as [[[b1 b2] |] [fb db]]; cbn; by_cases.
  all: intros; assert (fa = fb) as -> by lia; by assert (da = db) as -> by lia.
Qed.

(** Strictly before. *)
Definition child_lt (a b : child_key) : Prop := child_le a b /\ a <> b.

Lemma elem_of_dedup_ids x l : x ∈ dedup_ids l <-> x ∈ l.
Proof.
  induction l as [| y [| z l] IH]; [done.. |]. cbn [dedup_ids]. case_decide as Hyz.
  - rewrite IH. subst. rewrite !elem_of_cons. tauto.
  - rewrite elem_of_cons, IH. by rewrite (elem_of_cons (z :: l)).
Qed.

Lemma elem_of_sorted x items : x ∈ sort_pure items <-> x ∈ items.
Proof.
  unfold sort_pure. destruct (length items <? 2); [done |]. rewrite elem_of_dedup_ids.
  change (map snd) with (fmap (M:=list) (@snd (option (N * N)) SymbolId)).
  rewrite merge_sort_Permutation. change (map key_of items) with (key_of <$> items).
  rewrite <- list_fmap_compose.
  by assert ((snd ∘ key_of) <$> items = items) as -> by (induction items; cbn; congruence).
Qed.

Lemma dedup_cons x y l :
  dedup_ids (x :: y :: l) = if decide (x = y) then dedup_ids (y :: l) else x :: dedup_ids (y :: l).
Proof. done. Qed.

Lemma dedup_sorted l : StronglySorted child_le (key_of <$> l) -> StronglySorted child_lt (key_of <$> dedup_ids l).
Proof.
  induction l as [| x [| y l] IH]; intros Hs; [constructor | by repeat constructor |].
  rewrite dedup_cons. rewrite fmap_cons in Hs. apply StronglySorted_inv in Hs as [Hs Hx].
  case_decide as Hxy; [by apply IH |].
  rewrite fmap_cons. constructor; [by apply IH |].
  apply Forall_forall. intros k (z & -> & Hz)%list_elem_of_fmap. apply (proj1 (elem_of_dedup_ids _ _)) in Hz.
  rewrite Forall_forall in Hx. split; [by apply Hx, list_elem_of_fmap_2 |].
  intros Heq. rewrite fmap_cons in Hs. apply StronglySorted_inv in Hs as [_ Hy].
  apply elem_of_cons in Hz as [-> | Hz]; [by injection Heq |].
  rewrite Forall_forall in Hy. assert (key_of x = key_of y) as [=]; [| done].
  apply child_le_antisym; [apply Hx; by left |]. rewrite Heq. by apply Hy, list_elem_of_fmap_2.
Qed.

Lemma sort_pure_sorted items : StronglySorted child_lt (key_of <$> sort_pure items).
Proof.
  unfold sort_pure. destruct (length items <? 2) eqn:Hl.
  - apply Nat.ltb_lt in Hl. destruct items as [| x [| y items]]; [constructor | by repeat constructor | cbn in Hl; lia].
  - apply dedup_sorted. change (map snd) with (fmap (M:=list) (@snd (option (N * N)) SymbolId)).
    pose proof (StronglySorted_merge_sort (Transitive0 := child_le_trans) (Total0 := child_le_total)
      child_le (map key_of items)) as Hs.
    assert (forall k, k ∈ merge_sort child_le (map key_of items) -> key_of k.2 = k) as Hk.
    { intros k. rewrite merge_sort_Permutation. by intros (x & -> & _)%list_elem_of_fmap. }
    rewrite <- list_fmap_compose. revert Hs Hk. generalize (merge_sort child_le (map key_of items)). intros l.
    intros Hs Hk. assert ((key_of ∘ snd) <$> l = l) as ->; [| exact Hs].
    clear Hs. induction l as [| k l IH]; [done |]. cbn. f_equal; [apply Hk; by left |].
    apply IH. intros k' Hk'. apply Hk. by right.
Qed.
End sort.

Section construction.
Context {R : Roaring} {HO : HashOrder}.
Context (index : CodeIndex).
Abbreviation syms := (iter (ci_symbols index)).
Abbreviation refs := (iter (ci_references index)).

(** The target of a reference. *)
Definition linked (l : LinkageSnapshot) : gmap ReferenceId SymbolId :=
  collect_map (map (fun e => (e_reference e, e_target e)) (resolved l)).

(** The symbols that a linkage lists as possible targets of a reference. *)
Definition suspects (l : LinkageSnapshot) (r : ReferenceId) : list SymbolId :=
  candidate_symbols (fun r' => bool_decide (r' = r)) l.

Definition known_symbols : gmap SymbolId SymbolRecord := collect_map (map (fun y => (s_id y, y)) syms).
Definition member_map : gmap ReferenceId SymbolId := collect_map (membership_refs refs).
Definition members : gset SymbolId := list_to_set (map snd (map_to_list member_map)).

Definition parent_key (y : SymbolRecord) : option (SymbolId * SymbolId) :=
  if decide (s_id y ∈ members) then None else (fun p => (p, s_id y)) <$> parent y.
Definition member_key (t : gmap ReferenceId SymbolId) (e : ReferenceId * SymbolId) :
    option (SymbolId * SymbolId) := (fun owner => (owner, e.2)) <$> t !! e.1.
Definition incoming_key (t : gmap ReferenceId SymbolId) (r : ReferenceRecord) :
    option (SymbolId * ReferenceRecord) := (fun target => (target, r)) <$> t !! r_id r.

(** The children of a symbol, in no particular order: those declared in it, and
    those whose membership is resolved to it. *)
Definition child_list (t : gmap ReferenceId SymbolId) (s : SymbolId) : list SymbolId :=
  EvalIndexFacts.bucket parent_key s syms ++
  EvalIndexFacts.bucket (member_key t) s (entries member_map).

Lemma raw_children_get t s :
  get_all s (raw_children syms members (entries member_map) t) = child_list t s.
Proof.
  unfold raw_children, child_list.
  rewrite (get_all_pushes (member_key t)) by (intros m e; unfold member_key; by destruct (t !! e.1)).
  rewrite (get_all_pushes parent_key); [done |].
  intros m y. unfold parent_key. case_decide; [done |]. by destruct (parent y).
Qed.

(** The source of every membership is a symbol of the index. *)
Definition index_ok : Prop :=
  forall r, r ∈ refs -> r_kind r = member_of -> source_symbol r ∈ s_id <$> syms.

Lemma member_map_ref id m : member_map !! id = Some m ->
  exists r, r ∈ refs /\ r_kind r = member_of /\ r_id r = id /\ source_symbol r = m.
Proof.
  intros Hm%collect_map_elem. unfold membership_refs in Hm.
  apply list_elem_of_fmap in Hm as (r & [= -> ->] & Hr).
  apply list_elem_of_In, filter_In in Hr as [Hr Hk]. exists r.
  split_and!; [by apply list_elem_of_In | | done | done]. by apply bool_decide_eq_true in Hk.
Qed.

Lemma known_iff id : is_Some (known_symbols !! id) <-> id ∈ s_id <$> syms.
Proof.
  unfold known_symbols. rewrite collect_map_key.
  change (map (fun y => (s_id y, y)) syms) with ((fun y => (s_id y, y)) <$> syms).
  by rewrite <- list_fmap_compose.
Qed.

Lemma child_known t s c : index_ok -> c ∈ child_list t s -> is_Some (known_symbols !! c).
Proof.
  intros Hok. unfold child_list. rewrite elem_of_app, !EvalIndexFacts.elem_of_bucket, known_iff.
  intros [(y & Hy & Hk) | ([id m] & He & Hk)].
  - unfold parent_key in Hk. case_decide; [done |]. destruct (parent y); [| done].
    injection Hk as _ <-. by apply list_elem_of_fmap_2.
  - unfold member_key in Hk. cbn in Hk. destruct (t !! id); [| done]. injection Hk as _ <-.
    unfold entries in He. rewrite hash_order_perm, elem_of_map_to_list in He.
    apply member_map_ref in He as (r & Hr & Hkind & _ & <-). by apply Hok.
Qed.

Lemma sort_all_Ok {E} l :
  (forall e x, e ∈ l -> x ∈ e.2 -> is_Some (known_symbols !! x)) ->
  sort_all (E:=E) known_symbols l = Ok (collect_map (map (fun e => (e.1, sort_pure known_symbols e.2)) l)).
Proof.
  unfold sort_all, collect_map. generalize (∅ : gmap SymbolId (list SymbolId)).
  induction l as [| e l IH]; intros m Hk; [done |]. cbn [fold_res map foldl].
  rewrite sort_children_Ok by (intros x; apply Hk; by left).
  rewrite !ret_bind. apply IH. intros e' x He'. apply Hk. by right.
Qed.

Lemma entries_nodup {A} (m : gmap SymbolId A) : NoDup (entries m).*1.
Proof. unfold entries. rewrite hash_order_perm. apply NoDup_fst_map_to_list. Qed.

Lemma collect_entries {A} (f : A -> A) (m : gmap SymbolId A) k :
  collect_map (map (fun e => (e.1, f e.2)) (entries m)) !! k = f <$> m !! k.
Proof.
  destruct (m !! k) as [v |] eqn:Hk.
  - apply collect_map_nodup.
    + change (map (fun e => (e.1, f e.2)) (entries m)) with (prod_map id f <$> entries m).
      rewrite <- list_fmap_compose. rewrite (list_fmap_ext _ fst) by (by intros ? []). apply entries_nodup.
    + apply (list_elem_of_fmap_2' _ _ (k, v)); [| done].
      unfold entries. by rewrite hash_order_perm, elem_of_map_to_list.
  - apply eq_None_not_Some. rewrite collect_map_key. intros (p & -> & Hp)%list_elem_of_fmap.
    apply list_elem_of_fmap in Hp as ([k' v] & -> & Hp). cbn in Hk.
    unfold entries in Hp. rewrite hash_order_perm, elem_of_map_to_list in Hp. congruence.
Qed.

Lemma or_iff (A B C D : Prop) : (A <-> C) -> (B <-> D) -> (A \/ B) <-> (C \/ D).
Proof. tauto. Qed.

Lemma member_map_elem id m : NoDup (r_id <$> refs) ->
  member_map !! id = Some m <->
  exists r, r ∈ refs /\ r_kind r = member_of /\ r_id r = id /\ source_symbol r = m.
Proof.
  intros Hnd. split; [apply member_map_ref |]. intros (r & Hr & Hk & <- & <-).
  apply collect_map_nodup; unfold membership_refs.
  - revert Hnd. generalize refs. clear. intros rs Hnd. induction rs as [| r rs IH]; cbn; [constructor |].
    apply NoDup_cons in Hnd as [Hr Hnd]. destruct (beq (r_kind r) member_of); [| by apply IH].
    cbn. constructor; [| by apply IH]. intros (p & Hp & Hin)%list_elem_of_fmap. apply Hr.
    apply list_elem_of_fmap in Hin as (r' & -> & [Hr' _]%list_elem_of_In%filter_In). cbn in Hp.
    apply list_elem_of_fmap. exists r'. split; [done | by apply list_elem_of_In].
  - apply (list_elem_of_fmap_2' _ _ r); [| done]. apply list_elem_of_In, filter_In.
    split; [by apply list_elem_of_In |]. by apply bool_decide_eq_true.
Qed.

Lemma elem_of_members c : NoDup (r_id <$> refs) ->
  c ∈ members <-> exists r, r ∈ refs /\ r_kind r = member_of /\ source_symbol r = c.
Proof.
  intros Hnd. unfold members. rewrite elem_of_list_to_set.
  change (map snd) with (fmap (M:=list) (@snd ReferenceId SymbolId)). rewrite list_elem_of_fmap. split.
  - intros ([id m] & -> & Hm%elem_of_map_to_list). apply member_map_ref in Hm as (r & Hr & Hk & _ & ?).
    by exists r.
  - intros (r & Hr & Hk & Hc). exists (r_id r, c). split; [done |].
    apply elem_of_map_to_list, member_map_elem; [done |]. by exists r.
Qed.

Lemma elem_of_child_list l s c : NoDup (r_id <$> refs) ->
  c ∈ child_list (linked l) s <->
  (exists y, y ∈ syms /\ s_id y = c /\ parent y = Some s /\
     forall r, r ∈ refs -> r_kind r = member_of -> source_symbol r <> c) \/
  (exists r, r ∈ refs /\ r_kind r = member_of /\ source_symbol r = c /\ linked l !! r_id r = Some s).
Proof.
  intros Hnd. unfold child_list. rewrite elem_of_app, !EvalIndexFacts.elem_of_bucket. apply or_iff.
  - split.
    + intros (y & Hy & Hk). exists y. unfold parent_key in Hk. case_decide as Hm; [done |].
      destruct (parent y) as [p |] eqn:Hp; [| done]. injection Hk as -> <-. split_and!; try done.
      intros r Hr Hrk Hs. apply Hm, elem_of_members; [done |]. by exists r.
    + intros (y & Hy & <- & Hp & Hm). exists y. split; [done |]. unfold parent_key.
      rewrite decide_False; [by rewrite Hp |]. rewrite elem_of_members by done.
      intros (r & Hr & Hrk & Hs). by apply (Hm r).
  - split.
    + intros ([id m] & He & Hk). unfold entries in He.
      rewrite hash_order_perm, elem_of_map_to_list in He. apply member_map_ref in He as (r & Hr & Hrk & <- & <-).
      unfold member_key in Hk. cbn in Hk. destruct (linked l !! r_id r) as [t |] eqn:Ht; [| done].
      injection Hk as -> <-. by exists r.
    + intros (r & Hr & Hrk & <- & Ht). exists (r_id r, source_symbol r). unfold member_key, entries. cbn.
      rewrite Ht, hash_order_perm, elem_of_map_to_list, member_map_elem by done. split; [| done]. by exists r.
Qed.

(** The references that have no target. *)
Definition unlinked (l : LinkageSnapshot) : list ReferenceRecord :=
  List.filter (fun r => negb (bool_decide (is_Some (linked l !! r_id r)))) refs.

Definition is_membership (id : ReferenceId) : bool := bool_decide (is_Some (member_map !! id)).

Definition named_by (r : ReferenceRecord) : list SymbolId :=
  identity_symbols (inventory index) (target_identity r).

(** What the predicates of a linkage hold. *)
Record describes (l : LinkageSnapshot) (ix : IndexedPredicates) : Prop := mk_describes {
  d_index : p_index ix = index;
  d_symbols : symbols ix = known_symbols;
  d_outgoing : outgoing ix = foldl (fun m r => push_at (source_symbol r) r m) ∅ refs;
  d_targets : targets ix = linked l;
  d_incoming s : get_all s (p_incoming ix) = EvalIndexFacts.bucket (incoming_key (linked l)) s refs;
  d_children s : get_all s (children ix) = sort_pure known_symbols (child_list (linked l) s);
  d_uncertain_incoming s : s ∈ uncertain_incoming ix <->
    s ∈ candidate_symbols (fun _ => true) l \/ s ∈ concat (map named_by (unlinked l));
  d_uncertain_children s : s ∈ uncertain_children ix <->
    s ∈ candidate_symbols is_membership l \/
    s ∈ concat (map named_by (List.filter (fun r => is_membership (r_id r)) (unlinked l)))
}.

Lemma sort_pure_nil m : sort_pure m [] = [].
Proof. done. Qed.

Lemma new_describes {E} l : index_ok -> exists ix, new (E:=E) index l = Ok ix /\ describes l ix.
Proof.
  intros Hok. unfold new. fold (linked l) known_symbols member_map members.
  rewrite sort_all_Ok.
  - rewrite ret_bind. eexists. split; [reflexivity |]. split; cbn; try done.
    + intros s. by rewrite (get_all_pushes (incoming_key (linked l))) by
        (intros m r; unfold incoming_key; by destruct (linked l !! r_id r)).
    + intros s. unfold get_all at 1. rewrite collect_entries, <- raw_children_get. unfold get_all.
      by destruct (_ !! s).
    + intros s. by rewrite elem_of_union, !elem_of_list_to_set.
    + intros s. by rewrite elem_of_union, !elem_of_list_to_set.
  - intros [s items] x He Hx. unfold entries in He. rewrite hash_order_perm, elem_of_map_to_list in He.
    apply (child_known (linked l) s); [done |]. rewrite <- raw_children_get.
    unfold get_all, entries. by rewrite He.
Qed.

(** [l'] is a later state of the linkage [l]: it keeps its targets, and the
    references that it resolves go to symbols that [l] lists as possible targets
    or that have the identity that the reference names. *)
Record completes (l l' : LinkageSnapshot) : Prop := mk_completes {
  keeps r t : linked l !! r = Some t -> linked l' !! r = Some t;
  foreseen r t : r ∈ refs -> linked l !! r_id r = None -> linked l' !! r_id r = Some t ->
    t ∈ suspects l (r_id r) ++ named_by r;
  no_new_suspects r t : t ∈ suspects l' r -> t ∈ suspects l r
}.

Lemma elem_of_kept {A} (id : A -> ReferenceId) (ts : A -> list SymbolId) (keep : ReferenceId -> bool) xs t :
  t ∈ concat (map ts (List.filter (fun x => keep (id x)) xs)) <->
  exists x, x ∈ xs /\ keep (id x) = true /\ t ∈ ts x.
Proof.
  rewrite list_elem_of_In, in_concat. split.
  - intros (y & (x & <- & [Hx Hk]%filter_In)%in_map_iff & Ht). exists x.
    split_and!; [by apply list_elem_of_In | exact Hk | by apply list_elem_of_In].
  - intros (x & Hx & Hk & Ht). exists (ts x). split; [| by apply list_elem_of_In].
    apply in_map, filter_In. split; [by apply list_elem_of_In | done].
Qed.

Lemma elem_of_candidates keep l t : t ∈ candidate_symbols keep l <->
  exists r, keep r = true /\ t ∈ suspects l r.
Proof.
  unfold suspects, candidate_symbols.
  pose proof (fun r => elem_of_kept c_reference c_targets (fun r' => bool_decide (r' = r)) (candidates l) t) as Hc.
  pose proof (fun r => elem_of_kept d_reference d_candidates (fun r' => bool_decide (r' = r)) (dynamic l) t) as Hd.
  rewrite elem_of_app, (elem_of_kept c_reference), (elem_of_kept d_reference). split.
  - intros [(x & Hx & Hk & Ht) | (x & Hx & Hk & Ht)]; eexists; (split; [exact Hk |]); rewrite elem_of_app, Hc, Hd;
      [left | right]; exists x; by rewrite bool_decide_eq_true.
  - intros (r & Hk & Ht). rewrite elem_of_app, Hc, Hd in Ht.
    destruct Ht as [(x & Hx & <-%bool_decide_eq_true & Ht) | (x & Hx & <-%bool_decide_eq_true & Ht)];
      [left | right]; by exists x.
Qed.

Lemma elem_of_named t (l : list ReferenceRecord) :
  t ∈ concat (map named_by l) <-> exists r, r ∈ l /\ t ∈ named_by r.
Proof.
  rewrite list_elem_of_In, in_concat. split.
  - intros (y & (r & <- & Hr)%in_map_iff & Ht). exists r. split; by apply list_elem_of_In.
  - intros (r & Hr & Ht). exists (named_by r). split; [| by apply list_elem_of_In].
    by apply in_map, list_elem_of_In.
Qed.

Lemma elem_of_unlinked r l : r ∈ unlinked l <-> r ∈ refs /\ linked l !! r_id r = None.
Proof.
  unfold unlinked. rewrite !list_elem_of_In, filter_In, negb_true_iff, bool_decide_eq_false.
  by rewrite eq_None_not_Some.
Qed.

Section completion.
Context (l l' : LinkageSnapshot) (Hc : completes l l').

Lemma unlinked_shrinks r : r ∈ unlinked l' -> r ∈ unlinked l.
Proof.
  rewrite !elem_of_unlinked. intros [Hr Hn]. split; [done |].
  destruct (linked l !! r_id r) as [t |] eqn:Ht; [| done]. apply (keeps _ _ Hc) in Ht. congruence.
Qed.

Lemma candidates_shrink keep t : t ∈ candidate_symbols keep l' -> t ∈ candidate_symbols keep l.
Proof.
  rewrite !elem_of_candidates. intros (r & Hk & Ht). exists r. split; [done |]. by apply (no_new_suspects _ _ Hc).
Qed.

(** A target that is new was uncertain. *)
Lemma new_target_uncertain r t : r ∈ refs -> linked l' !! r_id r = Some t ->
  linked l !! r_id r = Some t \/
  (linked l !! r_id r = None /\ (t ∈ suspects l (r_id r) \/ t ∈ named_by r)).
Proof.
  intros Hr Ht. destruct (linked l !! r_id r) as [t' |] eqn:Hl.
  - left. apply (keeps _ _ Hc) in Hl. congruence.
  - right. split; [done |]. apply elem_of_app. by apply (foreseen _ _ Hc).
Qed.

Lemma incoming_same s :
  s ∉ candidate_symbols (fun _ => true) l -> s ∉ concat (map named_by (unlinked l)) ->
  EvalIndexFacts.bucket (incoming_key (linked l')) s refs =
  EvalIndexFacts.bucket (incoming_key (linked l)) s refs.
Proof.
  intros Hs Hn. apply bucket_ext. intros r v Hr. unfold incoming_key. split.
  - destruct (linked l' !! r_id r) as [t |] eqn:Ht; [| done]. intros [= -> <-].
    destruct (new_target_uncertain r s Hr Ht) as [-> | (Hl & [Hu | Hu])]; [done | |]; exfalso.
    + apply Hs, elem_of_candidates. by exists (r_id r).
    + apply Hn, elem_of_named. exists r. by rewrite elem_of_unlinked.
  - destruct (linked l !! r_id r) as [t |] eqn:Ht; [| done]. by rewrite (keeps _ _ Hc _ _ Ht).
Qed.

Lemma children_same s :
  s ∉ candidate_symbols is_membership l ->
  s ∉ concat (map named_by (List.filter (fun r => is_membership (r_id r)) (unlinked l))) ->
  child_list (linked l') s = child_list (linked l) s.
Proof.
  intros Hs Hn. unfold child_list. f_equal. apply bucket_ext. intros [id m] v He. unfold member_key. cbn.
  unfold entries in He. rewrite hash_order_perm, elem_of_map_to_list in He.
  assert (is_membership id = true) as Him by (apply bool_decide_eq_true; by exists m).
  apply member_map_ref in He as (r & Hr & _ & <- & _). split.
  - destruct (linked l' !! r_id r) as [t |] eqn:Ht; [| done]. intros [= -> <-].
    destruct (new_target_uncertain r s Hr Ht) as [-> | (Hl & [Hu | Hu])]; [done | |]; exfalso.
    + apply Hs, elem_of_candidates. by exists (r_id r).
    + apply Hn, elem_of_named. exists r. split; [| done].
      apply list_elem_of_In, filter_In. by rewrite <- list_elem_of_In, elem_of_unlinked.
  - destruct (linked l !! r_id r) as [t |] eqn:Ht; [| done]. by rewrite (keeps _ _ Hc _ _ Ht).
Qed.

Lemma ahead_of_completion ix ix' : index_ok -> describes l ix -> describes l' ix' -> ahead ix ix'.
Proof.
  intros Hok [Hi1 Hs1 Ho1 Ht1 Hin1 Hch1 Hui1 Huc1] [Hi2 Hs2 Ho2 Ht2 Hin2 Hch2 Hui2 Huc2].
  split; [congruence.. | | | | | |].
  - rewrite Ht1, Ht2. apply (keeps _ _ Hc).
  - intros s r. rewrite Hin1, Hin2, !EvalIndexFacts.elem_of_bucket. intros (x & Hx & Hk). exists x. split; [done |].
    unfold incoming_key in *. destruct (linked l !! r_id x) as [t |] eqn:Ht; [| done].
    by rewrite (keeps _ _ Hc _ _ Ht).
  - intros s c. rewrite Hch1, Hch2, !elem_of_sorted. unfold child_list. rewrite !elem_of_app.
    intros [Hp | Hm]; [by left |]. right. rewrite EvalIndexFacts.elem_of_bucket in *. destruct Hm as (e & He & Hk).
    exists e. split; [done |]. unfold member_key in *. destruct (linked l !! e.1) as [t |] eqn:Ht; [| done].
    by rewrite (keeps _ _ Hc _ _ Ht).
  - intros s. rewrite Hui1, Hui2, Hin1, Hin2. intros [Hs Hn]%Decidable.not_or. split; [| by apply incoming_same].
    intros [Hu | Hu]; [by apply Hs, candidates_shrink |]. apply Hn, elem_of_named.
    apply elem_of_named in Hu as (r & Hr & Hu). exists r. split; [by apply unlinked_shrinks | done].
  - intros s. rewrite Huc1, Huc2, Hch1, Hch2. intros [Hs Hn]%Decidable.not_or.
    split; [| f_equal; by apply children_same].
    intros [Hu | Hu]; [by apply Hs, candidates_shrink |]. apply Hn, elem_of_named.
    apply elem_of_named in Hu as (r & Hr & Hu). exists r. split; [| done].
    apply list_elem_of_In, filter_In in Hr as [Hr Him]. apply list_elem_of_In, filter_In. split; [| done].
    apply list_elem_of_In, unlinked_shrinks. by apply list_elem_of_In.
  - intros s c. rewrite Hch2, elem_of_sorted, Hs1. by apply child_known.
Qed.
End completion.
End construction.
End IndexedFacts.

(** ** Results *)
Module IndexedTheorems.
Import EvalCore EvalFacts EvalWalk Ast Snapshot Information Indexed IndexedFacts.

(** C6: A verdict that the indexed evaluator reaches on a partial linkage is
    final: when references are resolved later, to symbols that the linkage lists
    as possible targets or that have the identity they name, the same rule has
    the same verdict. Both evaluations end without a panic. *)
Theorem decided_verdict_stable {R : Roaring} {RE : RegexEngine} {HO : HashOrder}
    (index : CodeIndex) (l l' : LinkageSnapshot) (n : Node) (id : SymbolId)
    (Hi : index_ok index) (Hc : completes index l l') (Hn : rule_ok n = true) :
  exists ix ix' v v', new (E:=Empty_set) index l = Ok ix /\ new (E:=Empty_set) index l' = Ok ix' /\
    evaluate ix n id = Ok v /\ evaluate ix' n id = Ok v' /\
    forall verdict, v = Some verdict -> v' = Some verdict.
Proof.
  destruct (new_describes (E:=Empty_set) index l Hi) as (ix & Hix & Hd).
  destruct (new_describes (E:=Empty_set) index l' Hi) as (ix' & Hix' & Hd').
  destruct (evaluate_mono ix ix' (ahead_of_completion index l l' Hc ix ix' Hi Hd Hd') n id Hn)
    as (v & v' & Hv & Hv' & Hb & _).
  by exists ix, ix', v, v'.
Qed.

(** C27: The children that the indexed evaluator enumerates under a symbol are
    those declared in it that no membership moves elsewhere and those whose
    membership is resolved to it, each once, by position and then by id, whatever
    order the maps iterate in. *)
Theorem indexed_children_exact {R : Roaring} {HO : HashOrder} (index : CodeIndex)
    (l : LinkageSnapshot) (s : SymbolId) (Hi : index_ok index)
    (Hids : NoDup (r_id <$> iter (ci_references index))) :
  exists ix, new (E:=Empty_set) index l = Ok ix /\
    StronglySorted child_lt (key_of (symbols ix) <$> get_all s (children ix)) /\
    forall c, c ∈ get_all s (children ix) <->
      (exists y, y ∈ iter (ci_symbols index) /\ s_id y = c /\ parent y = Some s /\
         forall r, r ∈ iter (ci_references index) -> r_kind r = member_of -> source_symbol r <> c) \/
      (exists r, r ∈ iter (ci_references index) /\ r_kind r = member_of /\ source_symbol r = c /\
         linked l !! r_id r = Some s).
Proof.
  destruct (new_describes (E:=Empty_set) index l Hi) as (ix & Hix & Hd). exists ix.
  split; [done |]. rewrite (d_children _ _ _ Hd), (d_symbols _ _ _ Hd).
  split; [apply sort_pure_sorted |]. intros c. rewrite elem_of_sorted. by apply elem_of_child_list.
Qed.

(** ** A class with a method declared outside it

    Symbols: the class [C] (0.0) declared in the module (0.3), the function [M]
    (0.1), a member of [C], and the type [D] (0.2). The call of [D] by [M] is
    resolved in the later linkage only. *)

#[local] Existing Instances GsetRoaring.gset_roaring PathFacts.substring_engine.
#[local] Instance listed_order : HashOrder := {| hash_order A l := l; hash_order_perm A l := reflexivity l |}.

Definition declared (def : nat) (name kind : string) (range : N * N) (owner : option nat) : SymbolRecord :=
  let s := symbol_new (symbol_at 0 def) (source_at 0) (bs name) (bs kind) in
  mk_symbol (Some range) (s_id s) (s_source s) (identity s) (s_name s) (s_kind s) (visibility s)
    (signature s) None None true None (symbol_at 0 <$> owner).

Definition sample_index : CodeIndex := mk_code_index 1%N 1%N (bs "code+moniker://") []
  (from_records [declared 0 "C" "class" (40, 60)%N (Some 3); declared 1 "M" "fn" (10, 30)%N (Some 3);
                 declared 2 "D" "class" (0, 9)%N (Some 3); declared 3 "m" "module" (0, 60)%N None])
  (from_records
     [reference_new (reference_at 0 0) (source_at 0) (symbol_at 0 1) (bs "C") (bs "member_of") None;
      reference_new (reference_at 0 1) (source_at 0) (symbol_at 0 1) (bs "D") (bs "calls") None])
  (Inventory.empty 1%N).

Definition membership_edge : LinkageEdge := edge_new (reference_at 0 0) (symbol_at 0 0).

Definition early_linkage : LinkageSnapshot :=
  mk_linkage 1%N 1%N 1 1 0 0 0 0 0 0 [membership_edge]
    [mk_candidate (reference_at 0 1) [symbol_at 0 2] WeakNameMatch ScopeUnknown NameMatch] [] [] [] [] [].

Definition later_linkage : LinkageSnapshot :=
  linkage_with_refs 2%N 1%N [membership_edge; edge_new (reference_at 0 1) (symbol_at 0 2)] [].

(** [none(in_refs, kind = 'calls')] *)
Definition never_called : Node :=
  Quantifier QuantKind.None Domain.InRefs
    (NAtom (mk_atom (Attr Lhs.Kind) Op.Eq (Str (bs "calls")) (bs "kind = 'calls'") None)).

Definition verdict_on (l : LinkageSnapshot) (n : Node) (id : SymbolId) : res Empty_set (option bool) :=
  ix ← new sample_index l; evaluate ix n id.

Example nothing_calls_the_class : verdict_on early_linkage never_called (symbol_at 0 0) = Ok (Some true).
Proof. vm_compute. reflexivity. Qed.

Example calls_of_the_type_unknown : verdict_on early_linkage never_called (symbol_at 0 2) = Ok None.
Proof. vm_compute. reflexivity. Qed.

Example the_type_is_called : verdict_on later_linkage never_called (symbol_at 0 2) = Ok (Some false).
Proof. vm_compute. reflexivity. Qed.

Lemma sample_index_ok : index_ok sample_index.
Proof.
  intros r Hr _. repeat (apply elem_of_cons in Hr as [-> | Hr]); [| | by apply not_elem_of_nil in Hr];
    apply (bool_decide_eq_true_1 _); vm_compute; reflexivity.
Qed.

Lemma sample_completes : completes sample_index early_linkage later_linkage.
Proof.
  assert (linked early_linkage = {[reference_at 0 0 := symbol_at 0 0]}) as He by done.
  assert (linked later_linkage = <[reference_at 0 1 := symbol_at 0 2]> {[reference_at 0 0 := symbol_at 0 0]})
    as Hl by done.
  split.
  - intros r t. rewrite He, Hl. intros [<- <-]%lookup_singleton_Some.
    by rewrite lookup_insert_ne, lookup_singleton_eq.
  - intros r t Hr. repeat (apply elem_of_cons in Hr as [-> | Hr]); [| | by apply not_elem_of_nil in Hr].
    + by rewrite He, lookup_singleton_eq.
    + rewrite Hl, lookup_insert_eq. intros _ [= <-]. apply elem_of_app. left. by left.
  - intros r t Ht. by apply not_elem_of_nil in Ht.
Qed.

Lemma decided_verdict_stable_witness :
  verdict_on early_linkage never_called (symbol_at 0 0) = Ok (Some true) /\
  verdict_on later_linkage never_called (symbol_at 0 0) = Ok (Some true).
Proof.
  split; [exact nothing_calls_the_class |].
  destruct (decided_verdict_stable sample_index early_linkage later_linkage never_called (symbol_at 0 0)
    sample_index_ok sample_completes eq_refl) as (ix & ix' & v & v' & Hix & Hix' & Hv & Hv' & Hs).
  pose proof nothing_calls_the_class as H. unfold verdict_on in *.
  rewrite Hix, ret_bind, Hv in H. injection H as ->. rewrite Hix', ret_bind, Hv'.
  by rewrite (Hs true eq_refl).
Defined.

Lemma indexed_children_exact_witness :
  exists ix, new (E:=Empty_set) sample_index early_linkage = Ok ix /\
    get_all (symbol_at 0 3) (children ix) = [symbol_at 0 2; symbol_at 0 0] /\
    symbol_at 0 1 ∈ get_all (symbol_at 0 0) (children ix).
Proof.
  assert (NoDup (r_id <$> iter (ci_references sample_index))) as Hnd
    by (apply (bool_decide_eq_true_1 _); vm_compute; reflexivity).
  destruct (indexed_children_exact sample_index early_linkage (symbol_at 0 0) sample_index_ok Hnd)
    as (ix & Hix & _ & Hc). exists ix. split; [done |]. split.
  - assert ((ix ← new (E:=Empty_set) sample_index early_linkage; mret (get_all (symbol_at 0 3) (children ix))) =
      Ok [symbol_at 0 2; symbol_at 0 0]) as H by (vm_compute; reflexivity).
    rewrite Hix, ret_bind in H. by apply Ok_inj in H.
  - apply Hc. right.
    exists (reference_new (reference_at 0 0) (source_at 0) (symbol_at 0 1) (bs "C") (bs "member_of") None).
    split_and!; [by left | done | done | done].
Defined.
End IndexedTheorems.
