(* ===== verification/WorkspaceRules.v ===== *)
(** Rules on the symbols of a workspace (src/crates/check/src/check/workspace_eval.rs):
    their data, their compilation into a plan, and their evaluation on posting
    lists of the inventory. The data of the rules on groups and on paths is here
    too, since one record holds all the compiled rules. *)

From S2P Require Import Prelude.
From S2P Require Import RustStr.
From S2P Require Import Moniker.
From S2P Require Import Path.
From S2P Require Import DslAst.
From S2P Require Import DslCursor.
From S2P Require Import DslParse.
From S2P Require Import Suppress.
From S2P Require Import EvalCore.
From S2P Require Import ConfigData.
From S2P Require Import Aliases.
From S2P Require Import Config.
From S2P Require Import Check.
From S2P Require Import Bitmap.
From S2P Require Import Snapshot.
From S2P Require Import Inventory.
From S2P Require Import Paths.
From S2P Require Import Indexed.

Module WorkspaceRules.
Import Report EvalCore Ast ConfigData Aliases StrSort Snapshot Inventory.

(** ** Plans and verdicts *)

Inductive WorkspaceRulePlan : Set := PlanInventory | PlanLinkage | PlanStructure.

#[export] Instance plan_eq : EqDecision WorkspaceRulePlan.
Proof. solve_decision. Defined.

Definition plan_as_str (plan : WorkspaceRulePlan) : bytes :=
  match plan with
  | PlanInventory => bs "t1_inventory"
  | PlanLinkage => bs "t2_linkage"
  | PlanStructure => bs "t2_structure"
  end.

Inductive RuleVerdict : Set := VPass | VFail | VInconclusive.

#[export] Instance verdict_eq : EqDecision RuleVerdict.
Proof. solve_decision. Defined.

Record RuleCoverage : Set := mk_rule_coverage {
  rc_total : N;
  rc_decided : N;
  rc_resolved : N;
  rc_external : N;
  rc_candidate : N;
  rc_dynamic : N;
  rc_blocked : N;
  rc_unresolved : N;
  rc_percent : N;
  rc_min_percent : N
}.

Record RulePathStep : Set := mk_path_step {
  st_source : bytes;
  st_target : bytes;
  st_relation : bytes;
  st_reference : bytes;
  st_file : bytes;
  st_line_range : option (N * N)
}.

Record RulePathReport : Set := mk_path_report {
  pr_expectation : bytes;
  pr_relation : list bytes;
  pr_max_depth : N;
  pr_max_symbols : N;
  pr_max_edges : N;
  pr_max_pairs : N;
  pr_min_coverage : N;
  pr_source_symbols : N;
  pr_target_symbols : N;
  pr_via_symbols : N;
  pr_evaluated_pairs : N;
  pr_explored_symbols : N;
  pr_explored_edges : N;
  pr_depth_limit_reached : bool;
  pr_symbol_limit_reached : bool;
  pr_edge_limit_reached : bool;
  pr_pair_limit_reached : bool;
  pr_reasons : list bytes;
  pr_witness : list RulePathStep
}.

(** [RuleReport], the fields of [Check.RuleReport] and those that only rules on
    a workspace fill. *)
Record WorkspaceReport : Set := mk_workspace_report {
  base : Check.RuleReport;
  verdict : option RuleVerdict;
  coverage : option RuleCoverage;
  report_path : option RulePathReport
}.

(** ** The data of compiled rules *)

Section data.
Context {R : Roaring} {RE : RegexEngine}.

Record CompiledWorkspaceSymbolRule : Type := mk_symbol_rule {
  sr_rule_id : bytes;
  sr_raw_expr : bytes;
  sr_expanded_expr : bytes;
  sr_root : Node;
  sr_severity : RuleSeverity;
  sr_message : option bytes;
  sr_rationale : option bytes;
  sr_capabilities : list bytes;
  sr_plan : WorkspaceRulePlan
}.

Inductive GroupNumberExpr : Set :=
| MemberCount
| LineAggregate (kind : AggregateKind) (percentile : option f64).

Inductive GroupPredicate : Set :=
| GCompare (expr : GroupNumberExpr) (op : Op.t) (limit : f64)
| GAnd (predicates : list GroupPredicate)
| GOr (predicates : list GroupPredicate)
| GNot (predicate : GroupPredicate)
| GImplies (antecedent consequent : GroupPredicate).

Inductive GroupProjection : Set :=
| Language
| GName
| GKind
| GShape
| GVisibility
| SourcePath
| SourceRoot
| GSrcset
| Segment (kind : bytes).

Record CompiledWorkspaceGroupRule : Type := mk_group_rule {
  gr_rule_id : bytes;
  members_raw : bytes;
  members_expr : bytes;
  gr_members : Node;
  gr_group_by : list GroupProjection;
  group_by_exprs : list bytes;
  predicate_raw : bytes;
  gr_expr : bytes;
  gr_predicate : GroupPredicate;
  gr_severity : RuleSeverity;
  gr_message : option bytes;
  gr_rationale : option bytes;
  gr_suppress : list (list bytes);
  gr_capabilities : list bytes
}.

Record CompiledWorkspacePathRule : Type := mk_path_rule {
  pa_rule_id : bytes;
  from_raw : bytes;
  to_raw : bytes;
  from_expanded : bytes;
  to_expanded : bytes;
  via_raw : option bytes;
  via_expanded : option bytes;
  pa_from : Node;
  pa_to : Node;
  pa_via : option Node;
  pa_expect : WorkspacePathExpectation;
  pa_require_non_empty : bool;
  pa_relation : list bytes;
  pa_limits : Paths.BoundedPathLimits;
  pa_max_pairs : N;
  pa_min_coverage : N;
  pa_severity : RuleSeverity;
  pa_message : option bytes;
  pa_rationale : option bytes;
  pa_capabilities : list bytes
}.

Record CompiledWorkspaceRules : Type := mk_workspace_rules {
  c_symbol : list CompiledWorkspaceSymbolRule;
  c_group : list CompiledWorkspaceGroupRule;
  c_path : list CompiledWorkspacePathRule;
  c_min_linkage_coverage : N
}.

Definition rules_is_empty (c : CompiledWorkspaceRules) : bool :=
  is_nil (c_symbol c) && is_nil (c_group c) && is_nil (c_path c).

Definition has_linkage_rules (c : CompiledWorkspaceRules) : bool :=
  negb (is_nil (c_path c)) ||
  existsb (fun rule => negb (bool_decide (sr_plan rule = PlanInventory))) (c_symbol c).

(** ** The data of an evaluation *)

Record WorkspaceSymbolViolation : Set := mk_symbol_violation {
  v_source : SourceId;
  v_symbol : option SymbolId;
  source_suppression : bool;
  violation : Violation
}.

Record ScopeKey : Set := mk_scope_key { sk_rule_id : bytes; sk_values : list bytes }.

Record WorkspaceGroupResult : Type := mk_group_result {
  g_key : ScopeKey;
  g_members : SymbolSet;
  g_passed : bool;
  g_suppressed : bool;
  g_observations : list bytes;
  evaluation_error : option bytes
}.

Record WorkspaceEvaluation : Type := mk_evaluation {
  we_violations : list WorkspaceSymbolViolation;
  violation_sets : gmap bytes SymbolSet;
  groups : list WorkspaceGroupResult;
  reports : list WorkspaceReport
}.

Definition evaluation_default : WorkspaceEvaluation := mk_evaluation [] ∅ [] [].

Definition push_violations (l : list WorkspaceSymbolViolation) (e : WorkspaceEvaluation) :
    WorkspaceEvaluation :=
  mk_evaluation (we_violations e ++ l) (violation_sets e) (groups e) (reports e).

Definition insert_violation_set (rule_id : bytes) (s : SymbolSet) (e : WorkspaceEvaluation) :
    WorkspaceEvaluation :=
  mk_evaluation (we_violations e) (<[rule_id := s]> (violation_sets e)) (groups e) (reports e).

Definition push_report (r : WorkspaceReport) (e : WorkspaceEvaluation) : WorkspaceEvaluation :=
  mk_evaluation (we_violations e) (violation_sets e) (groups e) (reports e ++ [r]).

Definition push_group (g : WorkspaceGroupResult) (e : WorkspaceEvaluation) : WorkspaceEvaluation :=
  mk_evaluation (we_violations e) (violation_sets e) (groups e ++ [g]) (reports e).

(** ** Plans: what a rule uses of the workspace *)

Abbreviation Capabilities := (gset bytes * WorkspaceRulePlan)%type.
Abbreviation R_ := (res ConfigError).

Definition unsupported {A} (at_ capability : bytes) : R_ A :=
  Err (UnsupportedWorkspaceExpr at_ capability).

Definition insert_capability (c : bytes) (acc : Capabilities) : Capabilities :=
  ({[c]} ∪ acc.1, acc.2).

(** [{other:?}] *)
Definition op_debug (op : Op.t) : bytes :=
  match op with
  | Op.Eq => bs "Eq" | Op.Ne => bs "Ne" | Op.Lt => bs "Lt" | Op.Le => bs "Le"
  | Op.Gt => bs "Gt" | Op.Ge => bs "Ge" | Op.RegexMatch => bs "RegexMatch"
  | Op.RegexNoMatch => bs "RegexNoMatch" | Op.AncestorOf => bs "AncestorOf"
  | Op.DescendantOf => bs "DescendantOf" | Op.BindMatch => bs "BindMatch"
  | Op.PathMatch => bs "PathMatch" | Op.Subset => bs "Subset" | Op.Prefix => bs "Prefix"
  end.

Definition is_comparison (op : Op.t) : bool :=
  match op with
  | Op.Eq | Op.Ne | Op.Lt | Op.Le | Op.Gt | Op.Ge => true
  | _ => false
  end.

Definition collect_linkage_count_capability (a : Atom) (at_ : bytes) (acc : Capabilities) :
    R_ Capabilities :=
  let 'mk_atom lhs op rhs _ _ := a in
  match lhs with
  | Number (Count domain filter) =>
      if Check.is_some filter then unsupported at_ (bs "linkage.filtered-count")
      else
        domain ← (match domain with
                  | Domain.InRefs => mret (bs "in_refs")
                  | Domain.OutRefs => mret (bs "out_refs")
                  | _ => unsupported at_ (bs "linkage.unsupported-domain")
                  end);
        match rhs with
        | RNumber (NLiteral _) =>
            if is_comparison op
            then mret ((insert_capability (domain ++ bs ".count") acc).1, PlanLinkage)
            else unsupported at_ (bs "linkage.count-comparison")
        | _ => unsupported at_ (bs "linkage.count-comparison")
        end
  | _ => unsupported at_ (bs "non-attribute-expression")
  end.

Definition facet_name (at_ : bytes) (lhs : Lhs.t) : R_ bytes :=
  match lhs with
  | Lhs.Name => mret (bs "name")
  | Lhs.Kind => mret (bs "kind")
  | Lhs.Shape => mret (bs "shape")
  | Lhs.Visibility => mret (bs "visibility")
  | Lhs.Srcset => mret (bs "srcset")
  | Lhs.Moniker => mret (bs "uri")
  | other => unsupported at_ (bs "projection." ++ Lhs.as_str other)
  end.

Definition operation_name (at_ : bytes) (op : Op.t) : R_ bytes :=
  match op with
  | Op.Eq | Op.Ne => mret (bs "exact")
  | Op.RegexMatch | Op.RegexNoMatch => mret (bs "regex")
  | Op.PathMatch => mret (bs "path")
  | other => unsupported at_ (bs "operator." ++ op_debug other)
  end.

Definition collect_atom_capability (a : Atom) (at_ : bytes) (acc : Capabilities) : R_ Capabilities :=
  let 'mk_atom lhs op _ _ _ := a in
  match lhs with
  | Attr lhs =>
      facet ← facet_name at_ lhs;
      operation ← operation_name at_ op;
      if bool_decide (op = Op.PathMatch) && negb (bool_decide (lhs = Lhs.Moniker))
      then unsupported at_ (bs "path.non-uri")
      else mret (insert_capability (facet ++ bs "." ++ operation) acc)
  | _ => collect_linkage_count_capability a at_ acc
  end.

Fixpoint collect_capabilities (n : Node) (at_ : bytes) (acc : Capabilities) : R_ Capabilities :=
  match n with
  | NAtom a => collect_atom_capability a at_ acc
  | And nodes | Or nodes =>
      (fix all (l : list Node) (acc : Capabilities) : R_ Capabilities :=
         match l with
         | [] => mret acc
         | n :: l => acc ← collect_capabilities n at_ acc; all l acc
         end) nodes acc
  | Not n => collect_capabilities n at_ acc
  | Implies n1 n2 =>
      acc ← collect_capabilities n1 at_ acc; collect_capabilities n2 at_ acc
  | Require_ _ => unsupported at_ (bs "inventory.require")
  | NVerticalLayout _ => unsupported at_ (bs "local.vertical_layout")
  | Quantifier _ _ _ => unsupported at_ (bs "inventory.quantifier")
  end.

(** A rule that uses more than the inventory and the counts of references is
    accepted when the indexed evaluator accepts it; the error is the first. *)
Definition classify_symbol_plan (n : Node) (at_ : bytes) : R_ (list bytes * WorkspaceRulePlan) :=
  match collect_capabilities n at_ (∅, PlanInventory) with
  | Ok (capabilities, plan) => Ok (sort_strings (elements capabilities), plan)
  | Err error =>
      match Indexed.validate n with
      | Ok caps => Ok (caps, PlanStructure)
      | Err _ => Err error
      | Panic => Panic
      | NoFuel => NoFuel
      end
  | Panic => Panic
  | NoFuel => NoFuel
  end.

Definition classify_t1 (n : Node) (at_ : bytes) : R_ (list bytes) :=
  '(capabilities, plan) ← classify_symbol_plan n at_;
  if bool_decide (plan = PlanInventory) then mret capabilities
  else unsupported at_ (bs "linkage.group").

Definition compile_symbol_rule (entry : RuleEntry) (at_ scheme : bytes) (allowed_kinds : list bytes)
    (aliases : gmap bytes bytes) : R_ CompiledWorkspaceSymbolRule :=
  expanded ← substitute_aliases (entry_expr entry) aliases at_;
  parsed ← map_err (InvalidExpr at_) (DslParse.parse expanded scheme allowed_kinds);
  '(capabilities, plan) ← classify_symbol_plan parsed at_;
  mret (mk_symbol_rule at_ (entry_expr entry) expanded parsed (entry_severity entry)
          (entry_message entry) (entry_rationale entry) capabilities plan).

(** ** Evaluation on posting lists *)

Context {HO : HashOrder}.

(** [iter.reduce(f)] *)
Definition reduce {A} (f : A -> A -> A) (l : list A) : option A :=
  match l with [] => None | x :: l => Some (foldl f x l) end.

Definition union_postings (postings : list (bytes * SymbolSet)) (matches : bytes -> bool) :
    SymbolSet :=
  foldl (fun result p => if matches p.1 then set_union_with result p.2 else result) set_new postings.

(** [{name}] replaced by its value, one name after the other. *)
Definition render_template (template : bytes) (values : list (bytes * bytes)) : bytes :=
  foldl (fun rendered v => replace (bs "{" ++ v.1 ++ bs "}") v.2 rendered) template values.

Section inventory.
Context (inventory : SymbolInventoryIndex) (universe : SymbolSet).

Definition eval_exact (lhs : Lhs.t) (rhs : Rhs) (op : Op.t) : SymbolSet :=
  match rhs with
  | Str value =>
      let f := facets inventory in
      let matched :=
        default set_new
          (match lhs with
           | Lhs.Name => by_name f !! value
           | Lhs.Kind => by_kind f !! value
           | Lhs.Shape => by_shape f !! value
           | Lhs.Visibility => by_visibility f !! value
           | Lhs.Srcset => by_srcset f !! value
           | Lhs.Moniker => by_identity f !! value
           | _ => None
           end) in
      if bool_decide (op = Op.Ne) then set_difference universe matched
      else set_intersection matched universe
  | _ => set_new
  end.

Definition eval_regex (lhs : Lhs.t) (op : Op.t) (regex : option Regex) : SymbolSet :=
  match regex with
  | None => set_new
  | Some regex =>
      let f := facets inventory in
      let union_of postings := union_postings (entries postings) (is_match regex) in
      let matched :=
        match lhs with
        | Lhs.Name => union_of (by_name f)
        | Lhs.Kind => union_of (by_kind f)
        | Lhs.Shape => union_of (by_shape f)
        | Lhs.Visibility => union_of (by_visibility f)
        | Lhs.Srcset => union_of (by_srcset f)
        | _ => set_new
        end in
      if bool_decide (op = Op.RegexNoMatch) then set_difference universe matched
      else set_intersection matched universe
  end.

Definition exact_segment_candidates (pattern : Path.Pattern) : option SymbolSet :=
  reduce set_intersection
    (omap (fun step =>
       match step with
       | Path.Literal kind name =>
           if from_utf8 kind && from_utf8 name
           then by_segment (facets inventory) !! mk_segment kind name else None
       | _ => None
       end) (Path.steps pattern)).

Definition record_segments (r : InventorySymbol) : list (bytes * bytes) :=
  map (fun s => (seg_kind s, seg_name s)) (segments r).

Definition eval_path (lhs : Lhs.t) (rhs : Rhs) : SymbolSet :=
  match lhs, rhs with
  | Lhs.Moniker, RPathPattern pattern =>
      let candidates :=
        match exact_segment_candidates pattern with
        | Some candidates => set_intersection candidates universe
        | None => universe
        end in
      set_from_iter
        (List.filter (fun o =>
           match record inventory o with
           | None => false
           | Some r => Path.matches_text_segments pattern (record_segments r)
           end) (set_iter candidates))
  | _, _ => set_new
  end.

Definition eval_atom (a : Atom) : SymbolSet :=
  let 'mk_atom lhs op rhs _ regex := a in
  match lhs with
  | Attr lhs =>
      match op with
      | Op.Eq | Op.Ne => eval_exact lhs rhs op
      | Op.RegexMatch | Op.RegexNoMatch => eval_regex lhs op regex
      | Op.PathMatch => eval_path lhs rhs
      | _ => set_new
      end
  | _ => set_new
  end.

(** The cache of atoms, by their text. *)
Abbreviation AtomCache := (gmap bytes SymbolSet).

Definition atom_raw (a : Atom) : bytes := let 'mk_atom _ _ _ raw _ := a in raw.

Definition cached_atom (a : Atom) (cache : AtomCache) : SymbolSet * AtomCache :=
  match cache !! atom_raw a with
  | Some cached => (cached, cache)
  | None => let result := eval_atom a in (result, <[atom_raw a := result]> cache)
  end.

Fixpoint eval_node (n : Node) (cache : AtomCache) : SymbolSet * AtomCache :=
  let eval_nodes :=
    fix eval_nodes (l : list Node) (cache : AtomCache) : list SymbolSet * AtomCache :=
      match l with
      | [] => ([], cache)
      | n :: l =>
          let '(s, cache) := eval_node n cache in
          let '(rest, cache) := eval_nodes l cache in
          (s :: rest, cache)
      end in
  match n with
  | NAtom a => cached_atom a cache
  | And nodes =>
      let '(l, cache) := eval_nodes nodes cache in
      (default universe (reduce set_intersection l), cache)
  | Or nodes =>
      let '(l, cache) := eval_nodes nodes cache in
      (default set_new (reduce set_union l), cache)
  | Not n =>
      let '(s, cache) := eval_node n cache in (set_difference universe s, cache)
  | Implies n1 n2 =>
      let '(l, cache) := eval_node n1 cache in
      let '(r, cache) := eval_node n2 cache in
      (set_union (set_difference universe l) r, cache)
  | Require_ _ | NVerticalLayout _ | Quantifier _ _ _ => (set_new, cache)
  end.

(** The truth of a rule when it is computed, and the symbols that violate it. *)
Definition rule_outcome (root : Node) (cache : AtomCache) :
    option SymbolSet * SymbolSet * AtomCache :=
  match root with
  | Not inner =>
      let '(s, cache) := eval_node inner cache in
      (None, set_intersection s universe, cache)
  | _ =>
      let '(truth, cache) := eval_node root cache in
      (Some truth, set_difference universe truth, cache)
  end.

Definition antecedent_truth (root : Node) (cache : AtomCache) : option SymbolSet * AtomCache :=
  match root with
  | Implies antecedent _ =>
      let '(s, cache) := eval_node antecedent cache in (Some s, cache)
  | _ => (None, cache)
  end.

(** [usize] subtraction: modulo 2^64 (the release profile). *)
Definition usize_sub (a b : N) : N := if (b <=? a)%N then (a - b)%N else (a + 2 ^ 64 - b)%N.

Definition match_count (antecedent truth : option SymbolSet) (violations : SymbolSet) : N :=
  match antecedent, truth with
  | Some antecedent, Some truth => set_len (set_intersection truth antecedent)
  | _, Some truth => set_len truth
  | _, None => usize_sub (set_len universe) (set_len violations)
  end.

Definition rule_report (rule : CompiledWorkspaceSymbolRule) (matches : N) (violations : SymbolSet)
    (antecedent_matches : option N) : WorkspaceReport :=
  mk_workspace_report
    (Check.mk_report (sr_rule_id rule) (sr_severity rule) (bs "workspace symbols")
       (N.to_nat (set_len universe)) (N.to_nat matches) (N.to_nat (set_len violations))
       (N.to_nat <$> antecedent_matches) None None)
    None None None.

(** What names a symbol in the message of a rule. *)
Definition symbol_explanation (rule : CompiledWorkspaceSymbolRule) (r : InventorySymbol) :
    option bytes :=
  (fun message =>
     render_template message
       [(bs "name", i_name r); (bs "kind", i_kind r); (bs "moniker", i_identity r);
        (bs "expr", sr_raw_expr rule)]) <$> sr_message rule.

Definition record_srcset (r : InventorySymbol) : option bytes :=
  if is_nil (Inventory.srcset r) then None else Some (Inventory.srcset r).

Definition symbol_violation (assertion : bytes) (rule : CompiledWorkspaceSymbolRule)
    (r : InventorySymbol) : WorkspaceSymbolViolation :=
  mk_symbol_violation (i_source r) (Some (i_id r)) true
    (mk_violation (sr_rule_id rule) (sr_severity rule) (i_identity r) (record_srcset r) (i_kind r)
       (default (0, 0)%N (i_line_range r))
       (i_kind r ++ bs " `" ++ i_name r ++ bs "` fails " ++ assertion ++ bs " `" ++
          sr_raw_expr rule ++ bs "`")
       (symbol_explanation rule r)).

Definition symbol_violations (assertion : bytes) (rule : CompiledWorkspaceSymbolRule)
    (violations : SymbolSet) : list WorkspaceSymbolViolation :=
  symbol_violation assertion rule <$> omap (record inventory) (set_iter violations).

(** One turn of the loop of [evaluate_workspace_rules_in] over the rules. *)
Definition evaluate_symbol_rule (report : bool) (acc : WorkspaceEvaluation * AtomCache)
    (rule : CompiledWorkspaceSymbolRule) : WorkspaceEvaluation * AtomCache :=
  let '(evaluation, cache) := acc in
  if negb (bool_decide (sr_plan rule = PlanInventory)) then (evaluation, cache)
  else
    let '(truth, violations, cache) := rule_outcome (sr_root rule) cache in
    let evaluation := insert_violation_set (sr_rule_id rule) violations evaluation in
    let '(evaluation, cache) :=
      if report then
        let '(antecedent, cache) := antecedent_truth (sr_root rule) cache in
        let matches := match_count antecedent truth violations in
        (push_report (rule_report rule matches violations (set_len <$> antecedent)) evaluation,
         cache)
      else (evaluation, cache) in
    (push_violations (symbol_violations (bs "workspace assertion") rule violations) evaluation,
     cache).

Definition evaluate_symbol_rules (report : bool) (rules : list CompiledWorkspaceSymbolRule)
    (acc : WorkspaceEvaluation * AtomCache) : WorkspaceEvaluation * AtomCache :=
  foldl (evaluate_symbol_rule report) acc rules.

End inventory.

(** ** The order of violations *)

Definition violation_le (a b : WorkspaceSymbolViolation) : Prop :=
  let ra := Report.rule_id (violation a) in
  let rb := Report.rule_id (violation b) in
  (ra = rb /\ str_le (violation_moniker (violation a)) (violation_moniker (violation b))) \/
  (ra <> rb /\ str_le ra rb).

#[export] Instance violation_le_dec : RelDecision violation_le.
Proof using. intros a b. unfold violation_le. apply _. Defined.

Definition sort_workspace_violations (l : list WorkspaceSymbolViolation) :
    list WorkspaceSymbolViolation := merge_sort violation_le l.

End data.
End WorkspaceRules.
