(* ===== verification/GroupRules.v ===== *)
(** Rules on the groups of a workspace: the buckets of the selected symbols, the
    predicate on the members of a bucket, the violations, and the evaluation
    after a change (src/crates/check/src/check/workspace_eval/group.rs and
    group/predicate.rs). *)

From S2P Require Import Prelude.
From S2P Require Import RustStr.
From S2P Require Import Moniker.
From S2P Require Import Path.
From S2P Require Import DslAst.
From S2P Require Import DslParse.
From S2P Require Import Suppress.
From S2P Require Import EvalCore.
From S2P Require Import EvalMetrics.
From S2P Require Import ConfigData.
From S2P Require Import Aliases.
From S2P Require Import Config.
From S2P Require Import Check.
From S2P Require Import Bitmap.
From S2P Require Import Snapshot.
From S2P Require Import Inventory.
From S2P Require Import WorkspaceRules.

(** ** predicate.rs *)

Module GroupPredicates.
Import Report Ast ConfigData Snapshot Inventory WorkspaceRules.

Section predicate.
Context {R : Roaring} {RE : RegexEngine}.
Abbreviation C := (res ConfigError).
Abbreviation M := (res Empty_set).

Definition invalid {A} (at_ message : bytes) : C A := Err (InvalidWorkspaceGroup at_ message).

(** [percentile.is_none_or(|value| !(0.0..=100.0).contains(&value))] *)
Definition percentile_invalid (percentile : option f64) : bool :=
  match percentile with
  | None => true
  | Some value => negb (F64.leb F64.zero value && F64.leb value (F64.of_Z 100))
  end.

Definition is_member_domain (d : Domain.t) : bool :=
  match d with Domain.Children kind => beq kind (bs "member") | _ => false end.

Definition compile_number_expr (e : NumberExpr) (at_ : bytes) : C GroupNumberExpr :=
  let unsupported := invalid at_
    (bs "`workspace.group.expr` supports `count(member)` and descriptive aggregates over `(member, lines)`") in
  match e with
  | Count domain None => if is_member_domain domain then mret MemberCount else unsupported
  | Aggregate kind domain (NProjection Lhs.Lines) percentile =>
      if negb (is_member_domain domain) then unsupported
      else
        if match kind with Percentile => percentile_invalid percentile | _ => false end
        then invalid at_ (bs "`percentile(member, lines, P)` requires P in 0..=100")
        else mret (LineAggregate kind percentile)
  | _ => unsupported
  end.

Definition compile_atom (a : Atom) (at_ : bytes) : C GroupPredicate :=
  let 'mk_atom lhs op rhs _ _ := a in
  if negb (is_comparison op) then
    invalid at_ (bs "`workspace.group.expr` statistics require a numeric comparison")
  else
    match lhs with
    | Number number =>
        match rhs with
        | RNumber (NLiteral limit) =>
            expr ← compile_number_expr number at_; mret (GCompare expr op limit)
        | _ => invalid at_
            (bs "`workspace.group.expr` must compare a supported group number with a numeric literal")
        end
    | _ => invalid at_
        (bs "`workspace.group.expr` must compare a supported group number with a literal")
    end.

Fixpoint compile (n : Node) (at_ : bytes) : C GroupPredicate :=
  let compile_all :=
    fix compile_all (l : list Node) : C (list GroupPredicate) :=
      match l with
      | [] => mret []
      | n :: l => p ← compile n at_; rest ← compile_all l; mret (p :: rest)
      end in
  match n with
  | NAtom a => compile_atom a at_
  | And nodes => l ← compile_all nodes; mret (GAnd l)
  | Or nodes => l ← compile_all nodes; mret (GOr l)
  | Not n => p ← compile n at_; mret (GNot p)
  | Implies n1 n2 => a ← compile n1 at_; c ← compile n2 at_; mret (GImplies a c)
  | _ => invalid at_
      (bs "`workspace.group.expr` only supports boolean combinations of group numeric comparisons")
  end.

Definition number_capability (e : GroupNumberExpr) : bytes :=
  match e with
  | MemberCount => bs "group.count"
  | LineAggregate kind _ => bs "group." ++ aggregate_as_str kind ++ bs ".lines"
  end.

(** [append_capabilities], what it appends. *)
Fixpoint predicate_capabilities (p : GroupPredicate) : list bytes :=
  match p with
  | GCompare expr _ _ => [number_capability expr]
  | GAnd l | GOr l => concat (map predicate_capabilities l)
  | GNot p => predicate_capabilities p
  | GImplies a c => predicate_capabilities a ++ predicate_capabilities c
  end.

(** ** Evaluation *)

Record GroupPredicateOutcome : Set := mk_outcome {
  o_passed : bool;
  o_observations : list bytes;
  o_error : option bytes
}.

Record GroupNumberEvaluation : Set := mk_number {
  n_value : option f64;
  n_observation : bytes;
  n_error : option bytes
}.

Definition compare_numbers (value : f64) (op : Op.t) (limit : f64) : bool :=
  match op with
  | Op.Eq => F64.eqb value limit
  | Op.Ne => negb (F64.eqb value limit)
  | Op.Lt => F64.ltb value limit
  | Op.Le => F64.leb value limit
  | Op.Gt => F64.ltb limit value
  | Op.Ge => F64.leb limit value
  | _ => false
  end.

(** [format!("{value:.6}").trim_end_matches('0').trim_end_matches('.')] *)
Definition render_number (value : f64) : bytes :=
  trim_end_chars (fun c => beq [c] (bs ".")) (trim_end_chars (fun c => beq [c] (bs "0")) (F64.show 6 value)).

Definition number_label (e : GroupNumberExpr) : bytes :=
  match e with
  | MemberCount => bs "count(member)"
  | LineAggregate Percentile (Some percentile) =>
      bs "percentile(member, lines, " ++ render_number percentile ++ bs ")"
  | LineAggregate kind _ => aggregate_as_str kind ++ bs "(member, lines)"
  end.

Section members.
Context (inventory : SymbolInventoryIndex) (members : SymbolSet).

(** The lengths in lines of the members that have a range, in [f64]. *)
Definition line_values : list f64 :=
  omap (fun r =>
    match i_line_range r with
    | Some (start, end_) => if (start <=? end_)%N then Some (F64.of_N (end_ - start + 1)) else None
    | None => None
    end) (omap (record inventory) (set_iter members)).

Definition unavailable (label : bytes) (available total : nat) : bytes :=
  label ++ bs "=unavailable (" ++ show_nat available ++ bs "/" ++ show_nat total ++ bs " line ranges)".

Definition evaluate_number (e : GroupNumberExpr) : M GroupNumberEvaluation :=
  let label := number_label e in
  match e with
  | MemberCount =>
      let value := F64.of_N (set_len members) in
      mret (mk_number (Some value) (label ++ bs "=" ++ render_number value) None)
  | LineAggregate kind percentile =>
      let values := line_values in
      let available := length values in
      let total := N.to_nat (set_len members) in
      if negb (available =? total) then
        let observation := unavailable label available total in
        mret (mk_number None observation (Some observation))
      else
        value ← Stats.aggregate kind values percentile;
        match value with
        | None =>
            let observation := unavailable label available total in
            mret (mk_number None observation
                    (Some (observation ++ bs "; the statistic is undefined for these values")))
        | Some value =>
            mret (mk_number (Some value)
                    (label ++ bs "=" ++ render_number value ++ bs " (" ++ show_nat available ++
                       bs "/" ++ show_nat total ++ bs " line ranges)") None)
        end
  end.

Definition compare (e : GroupNumberExpr) (op : Op.t) (limit : f64) : M GroupPredicateOutcome :=
  number ← evaluate_number e;
  let passed :=
    match n_value number with Some value => compare_numbers value op limit | None => false end in
  mret (mk_outcome passed [n_observation number] (n_error number)).

(** The loop of [evaluate_sequence]: [observations] and [pending_error] so far. *)
Definition evaluate_sequence (eval : GroupPredicate -> M GroupPredicateOutcome) (any : bool) :
    list GroupPredicate -> list bytes -> option bytes -> M GroupPredicateOutcome :=
  fix loop l observations pending_error :=
    match l with
    | [] =>
        mret (mk_outcome (negb (Check.is_some pending_error) && negb any) observations pending_error)
    | predicate :: l =>
        outcome ← eval predicate;
        let observations := observations ++ o_observations outcome in
        match o_error outcome with
        | Some error =>
            loop l observations
              (Some (match pending_error with Some first => first | None => error end))
        | None =>
            if Bool.eqb (o_passed outcome) any then mret (mk_outcome any observations None)
            else loop l observations pending_error
        end
    end.

Definition evaluate_not (outcome : GroupPredicateOutcome) : GroupPredicateOutcome :=
  match o_error outcome with
  | None => mk_outcome (negb (o_passed outcome)) (o_observations outcome) None
  | Some _ => outcome
  end.

Definition evaluate_implies (antecedent : GroupPredicateOutcome)
    (consequent : M GroupPredicateOutcome) : M GroupPredicateOutcome :=
  match o_error antecedent with
  | None =>
      if negb (o_passed antecedent) then mret (mk_outcome true (o_observations antecedent) None)
      else
        consequent ← consequent;
        mret (mk_outcome (o_passed consequent)
                (o_observations antecedent ++ o_observations consequent) (o_error consequent))
  | Some _ =>
      consequent ← consequent;
      let observations := o_observations antecedent ++ o_observations consequent in
      if negb (Check.is_some (o_error consequent)) && o_passed consequent
      then mret (mk_outcome true observations None)
      else mret (mk_outcome (o_passed antecedent) observations (o_error antecedent))
  end.

Fixpoint evaluate (p : GroupPredicate) : M GroupPredicateOutcome :=
  match p with
  | GCompare expr op limit => compare expr op limit
  | GAnd l => evaluate_sequence evaluate false l [] None
  | GOr l => evaluate_sequence evaluate true l [] None
  | GNot p => outcome ← evaluate p; mret (evaluate_not outcome)
  | GImplies antecedent consequent =>
      antecedent ← evaluate antecedent; evaluate_implies antecedent (evaluate consequent)
  end.

End members.
End predicate.
End GroupPredicates.

(** ** group.rs *)

#[export] Instance scope_key_eq : EqDecision WorkspaceRules.ScopeKey.
Proof. solve_decision. Defined.

#[export] Program Instance scope_key_countable : Countable WorkspaceRules.ScopeKey :=
  inj_countable' (fun k => (WorkspaceRules.sk_rule_id k, WorkspaceRules.sk_values k))
    (fun p => WorkspaceRules.mk_scope_key p.1 p.2) _.
Next Obligation. by intros []. Qed.

Module GroupRules.
Import Report EvalCore Ast ConfigData Aliases Config StrSort Snapshot Inventory WorkspaceRules
  GroupPredicates.

(** ** Keys *)

Definition canonical (k : ScopeKey) : bytes :=
  let values := RustStr.join (bs "/") (map (fun value => show_nat (length value) ++ bs ":" ++ value) (sk_values k)) in
  show_nat (length (sk_rule_id k)) ++ bs ":" ++ sk_rule_id k ++ bs "/" ++ values.

Definition label (k : ScopeKey) : bytes := RustStr.join (bs " / ") (sk_values k).

(** The derived order: the rule, then the values. *)
Fixpoint values_leb (a b : list bytes) : bool :=
  match a, b with
  | [], _ => true
  | _ :: _, [] => false
  | x :: a, y :: b => if beq x y then values_leb a b else Moniker.bytes_le x y
  end.

Definition scope_key_leb (a b : ScopeKey) : bool :=
  if beq (sk_rule_id a) (sk_rule_id b) then values_leb (sk_values a) (sk_values b)
  else Moniker.bytes_le (sk_rule_id a) (sk_rule_id b).

Definition bucket_le {A} (a b : ScopeKey * A) : Prop := scope_key_leb a.1 b.1 = true.

#[export] Instance bucket_le_dec {A} : RelDecision (@bucket_le A).
Proof. intros a b. unfold bucket_le. apply _. Defined.

(** What iterating over a [BTreeMap] yields. *)
Definition sorted_entries {A} (m : gmap ScopeKey A) : list (ScopeKey * A) :=
  merge_sort bucket_le (map_to_list m).

(** ** Compilation *)

Section group.
Context {R : Roaring} {RE : RegexEngine} {HO : HashOrder}.
Abbreviation C := (res ConfigError).
Abbreviation M := (res Empty_set).

Definition strip_quotes (q value : bytes) : option bytes :=
  match RustStr.strip_prefix q value with
  | Some value => RustStr.strip_suffix q value
  | None => None
  end.

Definition segment_argument (other : bytes) : option bytes :=
  match
    match RustStr.strip_prefix (bs "segment(") other with
    | Some value => RustStr.strip_suffix (bs ")") value
    | None => None
    end
  with
  | None => None
  | Some value =>
      let value := trim value in
      match strip_quotes (bs "'") value with
      | Some kind => Some kind
      | None => strip_quotes [dquote] value
      end
  end.

Definition parse_projection (raw at_ : bytes) : C GroupProjection :=
  let name := trim raw in
  if beq name (bs "lang") then mret Language
  else if beq name (bs "name") then mret GName
  else if beq name (bs "kind") then mret GKind
  else if beq name (bs "shape") then mret GShape
  else if beq name (bs "visibility") then mret GVisibility
  else if beq name (bs "source.path") then mret SourcePath
  else if beq name (bs "source.root") then mret SourceRoot
  else if beq name (bs "srcset") then mret GSrcset
  else
    match segment_argument name with
    | None => invalid at_ (bs "unsupported `group_by` projection `" ++ name ++ bs "`")
    | Some kind =>
        if is_nil kind then invalid at_ (bs "segment projection requires a non-empty kind")
        else mret (Segment kind)
    end.

Definition projection_capability (p : GroupProjection) : bytes :=
  match p with
  | Language => bs "lang"
  | GName => bs "name"
  | GKind => bs "kind"
  | GShape => bs "shape"
  | GVisibility => bs "visibility"
  | SourcePath => bs "source.path"
  | SourceRoot => bs "source.root"
  | GSrcset => bs "srcset"
  | Segment kind => bs "segment." ++ kind
  end.

Definition backslash : bytes := [ascii_of_N 92].

Definition escape_segment_component (value : bytes) : bytes :=
  replace (bs ".") (backslash ++ bs ".") (replace backslash (backslash ++ backslash) value).

Definition projection_value (p : GroupProjection) (r : InventorySymbol) : bytes :=
  match p with
  | Language => i_language r
  | GName => i_name r
  | GKind => i_kind r
  | GShape => i_shape r
  | GVisibility => i_visibility r
  | SourcePath => source_path r
  | SourceRoot => show_nat (i_source_root r)
  | GSrcset => Inventory.srcset r
  | Segment kind =>
      RustStr.join (bs ".") (map (fun s => escape_segment_component (seg_name s))
        (List.filter (fun s => beq (seg_kind s) kind) (segments r)))
  end.

Definition parse_expr (expression scheme : bytes) (allowed_kinds : list bytes) (at_ : bytes) : C Node :=
  map_err (InvalidExpr at_) (DslParse.parse expression scheme allowed_kinds).

(** The loop over the suppressions. *)
Definition check_suppressions (at_ : bytes) (n : nat) (l : list (list bytes)) : C () :=
  fold_res (fun _ values =>
    if length values =? n then mret ()
    else invalid at_ (bs "suppression key has " ++ show_nat (length values) ++
           bs " values, expected " ++ show_nat n ++ bs " from `group_by`")) () l.

Definition compile_group_rule (entry : WorkspaceGroupRuleEntry) (at_ scheme : bytes)
    (allowed_kinds : list bytes) (aliases : gmap bytes bytes) : C CompiledWorkspaceGroupRule :=
  if is_nil (group_by entry) then invalid at_ (bs "`group_by` must contain at least one projection")
  else
    members_expr ← substitute_aliases (members entry) aliases at_;
    members_root ← parse_expr members_expr scheme allowed_kinds at_;
    member_capabilities ← classify_t1 members_root at_;
    projections ← map_res (fun raw => parse_projection raw at_) (group_by entry);
    expr ← substitute_aliases (group_expr entry) aliases at_;
    predicate_root ← parse_expr expr scheme (allowed_kinds ++ [bs "member"]) at_;
    predicate ← compile predicate_root at_;
    let capabilities :=
      dedup (sort_strings (member_capabilities ++
        map (fun p => bs "group_by." ++ projection_capability p) projections ++
        predicate_capabilities predicate)) in
    _ ← check_suppressions at_ (length projections) (group_suppress entry);
    mret (mk_group_rule at_ (members entry) members_expr members_root projections (group_by entry)
            (group_expr entry) expr predicate (group_severity entry) (group_message entry)
            (group_rationale entry) (group_suppress entry) capabilities).

Definition compile_groups (l : list WorkspaceGroupRuleEntry) (scheme : bytes)
    (allowed_kinds : list bytes) (aliases : gmap bytes bytes) : C (list CompiledWorkspaceGroupRule) :=
  map_res (fun e : nat * WorkspaceGroupRuleEntry =>
    let id := fallback_id (group_id e.2) e.1 in
    compile_group_rule e.2 (bs "workspace.group." ++ id) scheme allowed_kinds aliases) (imap pair l).

Definition group_spec (rule : CompiledWorkspaceGroupRule) : Check.CompiledRuleSpec :=
  let show members expr := bs "members: " ++ members ++ bs "; assert: " ++ expr in
  Check.mk_spec (gr_rule_id rule) (gr_severity rule) (bs "workspace") (bs "workspace") (bs "group")
    (bs "t1_inventory") (gr_capabilities rule) (group_by_exprs rule) (bs "workspace groups") None
    (show (members_raw rule) (predicate_raw rule)) (show (members_expr rule) (gr_expr rule))
    [members_raw rule; predicate_raw rule] (gr_message rule) (gr_rationale rule) None.

(** ** Evaluation *)

Definition scope_key (rule : CompiledWorkspaceGroupRule) (r : InventorySymbol) : ScopeKey :=
  mk_scope_key (gr_rule_id rule) (map (fun p => projection_value p r) (gr_group_by rule)).

Section inventory.
Context (inventory : SymbolInventoryIndex).

(** The loop that fills [buckets], and [bucket_members]. *)
Definition bucket_members (rule : CompiledWorkspaceGroupRule) (selected : SymbolSet) :
    gmap ScopeKey SymbolSet :=
  foldl (fun buckets o =>
    match record inventory o with
    | None => buckets
    | Some r =>
        let key := scope_key rule r in
        <[key := set_insert o (default set_new (buckets !! key))]> buckets
    end) ∅ (set_iter selected).

(** The two early returns of the loop of [group_srcset]. *)
Fixpoint srcset_loop (l : list InventorySymbol) (srcset : option bytes) (saw_unspecified : bool) :
    option bytes :=
  match l with
  | [] => if Check.is_some srcset && saw_unspecified then Some (bs "mixed") else srcset
  | r :: l =>
      if is_nil (Inventory.srcset r) then srcset_loop l srcset true
      else
        match srcset with
        | None => srcset_loop l (Some (Inventory.srcset r)) saw_unspecified
        | Some value =>
            if beq value (Inventory.srcset r) then srcset_loop l srcset saw_unspecified
            else Some (bs "mixed")
        end
  end.

Definition member_records (members : SymbolSet) : list InventorySymbol :=
  omap (record inventory) (set_iter members).

Definition group_srcset (members : SymbolSet) : option bytes :=
  srcset_loop (member_records members) None false.

(** The order of [primary_member]: path, identity, ordinal. *)
Definition primary_lt (a b : SymbolOrdinal * InventorySymbol) : bool :=
  if negb (beq (source_path a.2) (source_path b.2))
  then Moniker.bytes_le (source_path a.2) (source_path b.2)
  else if negb (beq (i_identity a.2) (i_identity b.2))
  then Moniker.bytes_le (i_identity a.2) (i_identity b.2)
  else (a.1 <? b.1)%N.

(** [iter.min_by(..)]: the first of the least. *)
Definition primary_member (members : SymbolSet) : option (SymbolOrdinal * InventorySymbol) :=
  reduce (fun best candidate => if primary_lt candidate best then candidate else best)
    (omap (fun o => (fun r => (o, r)) <$> record inventory o) (set_iter members)).

Definition MEMBER_SAMPLE_LIMIT : nat := 5.

Definition member_summary (members : SymbolSet) : bytes :=
  let names :=
    take MEMBER_SAMPLE_LIMIT
      (sort_strings (map (fun r => i_name r ++ bs " (" ++ source_path r ++ bs ")") (member_records members))) in
  let total := N.to_nat (set_len members) in
  let suffix :=
    if length names <? total then bs ", +" ++ show_nat (total - length names) ++ bs " more" else [] in
  show_nat total ++ bs " members: " ++ RustStr.join (bs ", ") names ++ suffix.

Definition group_violation (rule : CompiledWorkspaceGroupRule) (result : WorkspaceGroupResult) :
    option WorkspaceSymbolViolation :=
  primary ← primary_member (g_members result);
  let summary := member_summary (g_members result) in
  let group := label (g_key result) in
  let observations := RustStr.join (bs ", ") (g_observations result) in
  let explanation :=
    (fun message =>
       render_template message
         [(bs "group", group); (bs "members", summary); (bs "expr", gr_expr rule);
          (bs "observations", observations);
          (bs "evaluation_error", default [] (evaluation_error result))]) <$> gr_message rule in
  let detail := if is_nil observations then [] else bs "; observed " ++ observations in
  Some (mk_symbol_violation (i_source primary.2) (Some (i_id primary.2)) false
    (mk_violation (gr_rule_id rule) (gr_severity rule) (canonical (g_key result))
       (group_srcset (g_members result)) (bs "group") (default (0, 0)%N (i_line_range primary.2))
       (bs "group `" ++ group ++ bs "` has " ++ summary ++ bs " and fails `" ++ gr_expr rule ++
          bs "`" ++ detail)
       explanation)).

(** The evaluation of one bucket. *)
Definition group_result (rule : CompiledWorkspaceGroupRule) (key : ScopeKey) (members : SymbolSet) :
    M WorkspaceGroupResult :=
  outcome ← evaluate inventory members (gr_predicate rule);
  let passed := o_passed outcome in
  let suppressed := negb passed && bool_decide (sk_values key ∈ gr_suppress rule) in
  mret (mk_group_result key members passed suppressed (o_observations outcome) (o_error outcome)).

Definition is_violation (g : WorkspaceGroupResult) : bool := negb (g_passed g) && negb (g_suppressed g).

(** One turn of the loop over the buckets; [passing] and [violations] are counts. *)
Definition evaluate_bucket (rule : CompiledWorkspaceGroupRule)
    (acc : WorkspaceEvaluation * nat * nat) (bucket : ScopeKey * SymbolSet) :
    M (WorkspaceEvaluation * nat * nat) :=
  let '(evaluation, passing, violations) := acc in
  result ← group_result rule bucket.1 bucket.2;
  let evaluation :=
    if is_violation result then
      match group_violation rule result with
      | Some violation => push_violations [violation] evaluation
      | None => evaluation
      end
    else evaluation in
  mret (push_group result evaluation, passing + Nat.b2n (g_passed result),
        violations + Nat.b2n (is_violation result)).

Definition group_report (rule : CompiledWorkspaceGroupRule) (evaluated passing violations : nat) :
    WorkspaceReport :=
  mk_workspace_report
    (Check.mk_report (gr_rule_id rule) (gr_severity rule) (bs "workspace groups") evaluated passing
       violations None None None)
    None None None.

Definition evaluate_group_rule (universe : SymbolSet) (report : bool)
    (acc : WorkspaceEvaluation * gmap bytes SymbolSet) (rule : CompiledWorkspaceGroupRule) :
    M (WorkspaceEvaluation * gmap bytes SymbolSet) :=
  let '(evaluation, cache) := acc in
  let '(selected, cache) := eval_node inventory universe (gr_members rule) cache in
  '(evaluation, passing, violations) ←
    fold_res (evaluate_bucket rule) (evaluation, 0, 0) (sorted_entries (bucket_members rule selected));
  let evaluated :=
    length (List.filter (fun g => beq (sk_rule_id (g_key g)) (gr_rule_id rule)) (groups evaluation)) in
  mret (if report then push_report (group_report rule evaluated passing violations) evaluation
        else evaluation, cache).

Definition evaluate_groups (universe : SymbolSet) (report : bool)
    (rules : list CompiledWorkspaceGroupRule) (acc : WorkspaceEvaluation * gmap bytes SymbolSet) :
    M (WorkspaceEvaluation * gmap bytes SymbolSet) :=
  fold_res (evaluate_group_rule universe report) acc rules.

(** ** Evaluation after a change *)

Definition group_diagnostics (rules : list CompiledWorkspaceGroupRule)
    (results : list WorkspaceGroupResult) : list WorkspaceSymbolViolation :=
  let by_id : gmap bytes CompiledWorkspaceGroupRule :=
    foldl (fun m rule => <[gr_rule_id rule := rule]> m) ∅ rules in
  omap (fun g => rule ← by_id !! sk_rule_id (g_key g); group_violation rule g)
    (List.filter is_violation results).

End inventory.

Definition index_group_results (results : list WorkspaceGroupResult) :
    gmap ScopeKey WorkspaceGroupResult :=
  foldl (fun m g => <[g_key g := g]> m) ∅ results.

Record GroupIncrementalInput : Type := mk_group_incremental {
  gi_previous_inventory : SymbolInventoryIndex;
  gi_current_inventory : SymbolInventoryIndex;
  gi_previous_universe : SymbolSet;
  gi_current_universe : SymbolSet;
  gi_previous_dirty : SymbolSet;
  gi_current_dirty : SymbolSet;
  gi_rules : list CompiledWorkspaceGroupRule;
  gi_previous : list WorkspaceGroupResult
}.

Abbreviation Results := (gmap ScopeKey WorkspaceGroupResult).

(** One turn of the loop over the keys of a rule. *)
Definition refresh_key (input : GroupIncrementalInput) (rule : CompiledWorkspaceGroupRule)
    (current_changed : gmap ScopeKey SymbolSet) (acc : Results * gset bytes) (key : ScopeKey) :
    M (Results * gset bytes) :=
  let '(next_by_key, affected) := acc in
  let affected := {[canonical key]} ∪ affected in
  let members := match next_by_key !! key with Some g => g_members g | None => set_new end in
  let members := set_remove_all members (gi_previous_dirty input) in
  let members := set_intersect_with members (gi_current_universe input) in
  let members :=
    match current_changed !! key with Some changed => set_union_with members changed | None => members end in
  if set_is_empty members then mret (delete key next_by_key, affected)
  else
    result ← group_result (gi_current_inventory input) rule key members;
    mret (<[key := result]> next_by_key, affected).

Definition refresh_rule (input : GroupIncrementalInput)
    (acc : Results * gset bytes * gmap bytes SymbolSet * gmap bytes SymbolSet)
    (rule : CompiledWorkspaceGroupRule) :
    M (Results * gset bytes * gmap bytes SymbolSet * gmap bytes SymbolSet) :=
  let '(next_by_key, affected, previous_cache, current_cache) := acc in
  let '(previous_selected, previous_cache) :=
    eval_node (gi_previous_inventory input)
      (set_intersection (gi_previous_dirty input) (gi_previous_universe input)) (gr_members rule)
      previous_cache in
  let '(current_selected, current_cache) :=
    eval_node (gi_current_inventory input)
      (set_intersection (gi_current_dirty input) (gi_current_universe input)) (gr_members rule)
      current_cache in
  let previous_changed := bucket_members (gi_previous_inventory input) rule previous_selected in
  let current_changed := bucket_members (gi_current_inventory input) rule current_selected in
  let keys := map fst (sorted_entries
    (map_imap (fun _ _ => Some ()) previous_changed ∪ map_imap (fun _ _ => Some ()) current_changed)) in
  '(next_by_key, affected) ← fold_res (refresh_key input rule current_changed) (next_by_key, affected) keys;
  mret (next_by_key, affected, previous_cache, current_cache).

(** The results, the violations, and how many keys were affected. *)
Definition evaluate_groups_incremental (input : GroupIncrementalInput) :
    M (list WorkspaceGroupResult * list WorkspaceSymbolViolation * nat) :=
  '(next_by_key, affected, _, _) ←
    fold_res (refresh_rule input) (index_group_results (gi_previous input), ∅, ∅, ∅) (gi_rules input);
  let results := map snd (sorted_entries next_by_key) in
  mret (results, group_diagnostics (gi_current_inventory input) (gi_rules input) results, size affected).

End group.
End GroupRules.
