(* ===== verification/LinkageRules.v ===== *)
(** Rules on the symbols of a workspace that read its linkage: counts of
    references with the coverage that bounds their certainty, in Kleene's logic
    on sets, and structural rules evaluated symbol by symbol
    (src/crates/check/src/check/workspace_eval/linkage.rs and structure.rs). *)

From S2P Require Import Prelude.
From S2P Require Import RustStr.
From S2P Require Import Path.
From S2P Require Import DslAst.
From S2P Require Import EvalCore.
From S2P Require Import Config.
From S2P Require Import Check.
From S2P Require Import Bitmap.
From S2P Require Import Snapshot.
From S2P Require Import Inventory.
From S2P Require Import Indexed.
From S2P Require Import WorkspaceRules.
From S2P Require Import GroupRules.

Module LinkageRules.
Import Ast EvalCore Snapshot Inventory WorkspaceRules.

(** ** Coverage *)

Record CoverageCounts : Set := mk_counts {
  resolved : N;
  external : N;
  candidate : N;
  dynamic : N;
  blocked : N;
  unresolved : N
}.

Definition counts_default : CoverageCounts := mk_counts 0 0 0 0 0 0.

Definition counts_add (c other : CoverageCounts) : CoverageCounts :=
  mk_counts (resolved c + resolved other) (external c + external other)
    (candidate c + candidate other) (dynamic c + dynamic other) (blocked c + blocked other)
    (unresolved c + unresolved other).

Definition total (c : CoverageCounts) : N :=
  (resolved c + external c + candidate c + dynamic c + blocked c + unresolved c)%N.

Definition decided (c : CoverageCounts) : N := (resolved c + external c)%N.

(** [decided.saturating_mul(100).checked_div(total).unwrap_or(100)] *)
Definition percent (c : CoverageCounts) : N :=
  let scaled := N.min (decided c * 100) (2 ^ 64 - 1) in
  if (total c =? 0)%N then 100%N else (scaled / total c)%N.

Definition counts_report (c : CoverageCounts) (min_percent : N) : RuleCoverage :=
  mk_rule_coverage (total c) (decided c) (resolved c) (external c) (candidate c) (dynamic c)
    (blocked c) (unresolved c) (percent c) min_percent.

(** ** References by symbol *)

Inductive ReferenceClass : Set :=
| ClassResolved | ClassExternal | ClassCandidate | ClassDynamic | ClassBlocked | ClassUnresolved.

Record ReferenceMetric : Set := mk_metric { m_count : N; m_coverage : CoverageCounts }.

Definition metric_default : ReferenceMetric := mk_metric 0 counts_default.

(** [ReferenceMetric::record] *)
Definition metric_record (class : ReferenceClass) (m : ReferenceMetric) : ReferenceMetric :=
  let c := m_coverage m in
  match class with
  | ClassResolved =>
      mk_metric (m_count m + 1) (mk_counts (resolved c + 1) (external c) (candidate c) (dynamic c)
                                   (blocked c) (unresolved c))
  | ClassExternal =>
      mk_metric (m_count m + 1) (mk_counts (resolved c) (external c + 1) (candidate c) (dynamic c)
                                   (blocked c) (unresolved c))
  | ClassCandidate =>
      mk_metric (m_count m) (mk_counts (resolved c) (external c) (candidate c + 1) (dynamic c)
                               (blocked c) (unresolved c))
  | ClassDynamic =>
      mk_metric (m_count m) (mk_counts (resolved c) (external c) (candidate c) (dynamic c + 1)
                               (blocked c) (unresolved c))
  | ClassBlocked =>
      mk_metric (m_count m) (mk_counts (resolved c) (external c) (candidate c) (dynamic c)
                               (blocked c + 1) (unresolved c))
  | ClassUnresolved =>
      mk_metric (m_count m) (mk_counts (resolved c) (external c) (candidate c) (dynamic c)
                               (blocked c) (unresolved c + 1))
  end.

Definition metric_percent (m : ReferenceMetric) : N := percent (m_coverage m).

Inductive ReferenceClassification : Set :=
| CResolved (target : SymbolId)
| CCandidates (targets : list SymbolId)
| CDynamic (targets : list SymbolId)
| CClass (class : ReferenceClass).

Record ReferenceClassifications : Set := mk_classifications {
  rc_resolved : gmap ReferenceId SymbolId;
  rc_candidates : gmap ReferenceId (list SymbolId);
  rc_external : gset ReferenceId;
  rc_dynamic : gmap ReferenceId (list SymbolId);
  rc_blocked : gset ReferenceId
}.

Definition reference_ids (l : list ReferenceId) : gset ReferenceId := list_to_set l.

Definition classifications_new (linkage : LinkageSnapshot) : ReferenceClassifications :=
  mk_classifications
    (Indexed.collect_map (map (fun e => (e_reference e, e_target e)) (Snapshot.resolved linkage)))
    (Indexed.collect_map (map (fun c => (c_reference c, c_targets c)) (candidates linkage)))
    (reference_ids (map x_reference (Snapshot.external linkage)))
    (Indexed.collect_map (map (fun d => (d_reference d, d_candidates d)) (Snapshot.dynamic linkage)))
    (reference_ids (map u_reference (Snapshot.blocked linkage))).

Definition classify (c : ReferenceClassifications) (reference : ReferenceId) : ReferenceClassification :=
  match rc_resolved c !! reference with
  | Some target => CResolved target
  | None =>
      match rc_candidates c !! reference with
      | Some targets => CCandidates targets
      | None =>
          if bool_decide (reference ∈ rc_external c) then CClass ClassExternal
          else
            match rc_dynamic c !! reference with
            | Some targets => CDynamic targets
            | None =>
                if bool_decide (reference ∈ rc_blocked c) then CClass ClassBlocked
                else CClass ClassUnresolved
            end
      end
  end.

Record LinkageMetrics : Set := mk_metrics {
  lm_incoming : gmap SymbolId ReferenceMetric;
  lm_outgoing : gmap SymbolId ReferenceMetric
}.

(** [map.entry(symbol).or_default().record(class)] *)
Definition record_at (class : ReferenceClass) (symbol : SymbolId)
    (m : gmap SymbolId ReferenceMetric) : gmap SymbolId ReferenceMetric :=
  <[symbol := metric_record class (default metric_default (m !! symbol))]> m.

Definition record_targets (source : SymbolId) (targets : list SymbolId) (class : ReferenceClass)
    (m : LinkageMetrics) : LinkageMetrics :=
  mk_metrics (foldl (fun incoming target => record_at class target incoming) (lm_incoming m) targets)
    (record_at class source (lm_outgoing m)).

Section linkage.
Context {R : Roaring} {RE : RegexEngine} {HO : HashOrder}.

(** An uncertain reference counts against every symbol of the identity it names. *)
Definition attribute_uncertain_incoming (inventory : SymbolInventoryIndex) (r : ReferenceRecord)
    (class : ReferenceClass) (incoming : gmap SymbolId ReferenceMetric) :
    gmap SymbolId ReferenceMetric :=
  match by_identity (facets inventory) !! target_identity r with
  | None => incoming
  | Some targets =>
      foldl (fun incoming target => record_at class target incoming) incoming
        (map i_id (omap (record inventory) (set_iter targets)))
  end.

Definition record_uncertain (inventory : SymbolInventoryIndex) (r : ReferenceRecord)
    (class : ReferenceClass) (m : LinkageMetrics) : LinkageMetrics :=
  mk_metrics (attribute_uncertain_incoming inventory r class (lm_incoming m))
    (record_at class (source_symbol r) (lm_outgoing m)).

Definition record_reference (inventory : SymbolInventoryIndex) (r : ReferenceRecord)
    (classification : ReferenceClassification) (m : LinkageMetrics) : LinkageMetrics :=
  match classification with
  | CResolved target => record_targets (source_symbol r) [target] ClassResolved m
  | CCandidates targets => record_targets (source_symbol r) targets ClassCandidate m
  | CDynamic targets =>
      if negb (is_nil targets) then record_targets (source_symbol r) targets ClassDynamic m
      else record_uncertain inventory r ClassDynamic m
  | CClass ClassExternal =>
      mk_metrics (lm_incoming m) (record_at ClassExternal (source_symbol r) (lm_outgoing m))
  | CClass class => record_uncertain inventory r class m
  end.

(** The references whose source is in the universe. *)
Definition in_universe (inventory : SymbolInventoryIndex) (universe : SymbolSet)
    (r : ReferenceRecord) : bool :=
  match ordinal (catalog inventory) (source_symbol r) with
  | Some o => set_contains universe o
  | None => false
  end.

Definition metrics_build (index : Indexed.CodeIndex) (linkage : LinkageSnapshot)
    (universe : SymbolSet) : LinkageMetrics :=
  let inventory := Indexed.inventory index in
  let classifications := classifications_new linkage in
  foldl (fun m r => record_reference inventory r (classify classifications (r_id r)) m)
    (mk_metrics ∅ ∅)
    (List.filter (in_universe inventory universe) (iter (Indexed.ci_references index))).

Definition metric (m : LinkageMetrics) (symbol : SymbolId) (d : Domain.t) : ReferenceMetric :=
  default metric_default
    (match d with
     | Domain.InRefs => lm_incoming m !! symbol
     | Domain.OutRefs => lm_outgoing m !! symbol
     | _ => None
     end).

(** ** Three-valued sets *)

Record TriSet : Type := mk_tri { pass : SymbolSet; fail_ : SymbolSet; unknown : SymbolSet }.

Definition from_truth (universe truth : SymbolSet) : TriSet :=
  mk_tri truth (set_difference universe truth) set_new.
Definition all_pass (universe : SymbolSet) : TriSet := from_truth universe universe.
Definition all_fail (universe : SymbolSet) : TriSet := from_truth universe set_new.
Definition all_unknown (universe : SymbolSet) : TriSet := mk_tri set_new set_new universe.

Definition partition_ (universe pass fail_ : SymbolSet) : TriSet :=
  mk_tri pass fail_ (set_difference universe (set_union pass fail_)).

Definition tri_and (universe : SymbolSet) (t other : TriSet) : TriSet :=
  partition_ universe (set_intersection (pass t) (pass other)) (set_union (fail_ t) (fail_ other)).

Definition tri_or (universe : SymbolSet) (t other : TriSet) : TriSet :=
  partition_ universe (set_union (pass t) (pass other)) (set_intersection (fail_ t) (fail_ other)).

Definition tri_not (t : TriSet) : TriSet := mk_tri (fail_ t) (pass t) (unknown t).

Record EvalContext : Type := mk_context {
  x_index : Indexed.CodeIndex;
  x_universe : SymbolSet;
  x_metrics : LinkageMetrics;
  x_min_coverage : N
}.

(** What the evaluation threads: the coverage and the cache of atoms. *)
Abbreviation State := (CoverageCounts * gmap bytes SymbolSet)%type.

(** The loop over the universe of [eval_atom]. *)
Definition count_symbol (c : EvalContext) (d : Domain.t) (op : Op.t) (limit : f64)
    (acc : SymbolSet * SymbolSet * CoverageCounts) (o : SymbolOrdinal) :
    SymbolSet * SymbolSet * CoverageCounts :=
  let '(pass, fail_, coverage) := acc in
  match record (Indexed.inventory (x_index c)) o with
  | None => acc
  | Some r =>
      let m := metric (x_metrics c) (i_id r) d in
      let coverage := counts_add coverage (m_coverage m) in
      if (metric_percent m <? x_min_coverage c)%N then (pass, fail_, coverage)
      else if GroupPredicates.compare_numbers (F64.of_N (m_count m)) op limit
      then (set_insert o pass, fail_, coverage)
      else (pass, set_insert o fail_, coverage)
  end.

Definition linkage_atom (c : EvalContext) (a : Atom) (s : State) : TriSet * State :=
  let 'mk_atom lhs op rhs _ _ := a in
  let '(coverage, cache) := s in
  match lhs with
  | Number (Count d filter) =>
      match rhs with
      | RNumber (NLiteral limit) =>
          if Check.is_some filter || negb (bool_decide (d = Domain.InRefs \/ d = Domain.OutRefs))
          then (all_unknown (x_universe c), s)
          else
            let '(pass, fail_, coverage) :=
              foldl (count_symbol c d op limit) (set_new, set_new, coverage) (set_iter (x_universe c)) in
            (partition_ (x_universe c) pass fail_, (coverage, cache))
      | _ => (all_unknown (x_universe c), s)
      end
  | _ =>
      let '(truth, cache) :=
        WorkspaceRules.eval_node (Indexed.inventory (x_index c)) (x_universe c) (NAtom a) cache in
      (from_truth (x_universe c) truth, (coverage, cache))
  end.

Fixpoint linkage_node (c : EvalContext) (n : Node) (s : State) : TriSet * State :=
  let eval_nodes :=
    fix eval_nodes (l : list Node) (s : State) : list TriSet * State :=
      match l with
      | [] => ([], s)
      | n :: l =>
          let '(t, s) := linkage_node c n s in
          let '(rest, s) := eval_nodes l s in
          (t :: rest, s)
      end in
  match n with
  | NAtom a => linkage_atom c a s
  | And nodes =>
      let '(l, s) := eval_nodes nodes s in
      (default (all_pass (x_universe c)) (reduce (tri_and (x_universe c)) l), s)
  | Or nodes =>
      let '(l, s) := eval_nodes nodes s in
      (default (all_fail (x_universe c)) (reduce (tri_or (x_universe c)) l), s)
  | Not n => let '(t, s) := linkage_node c n s in (tri_not t, s)
  | Implies n1 n2 =>
      let '(l, s) := linkage_node c n1 s in
      let '(r, s) := linkage_node c n2 s in
      (tri_or (x_universe c) (tri_not l) r, s)
  | Require_ _ | NVerticalLayout _ | Quantifier _ _ _ => (all_unknown (x_universe c), s)
  end.

(** ** Rules on counts of references *)

Record RuleMatchCounts : Set := mk_match_counts {
  mc_matches : N;
  mc_antecedent_matches : option N
}.

Definition rule_match_counts (c : EvalContext) (root : Node) (outcome : TriSet)
    (cache : gmap bytes SymbolSet) : RuleMatchCounts * gmap bytes SymbolSet :=
  match root with
  | Implies antecedent _ =>
      let '(antecedent, (_, cache)) := linkage_node c antecedent (counts_default, cache) in
      (mk_match_counts (set_len (set_intersection (pass outcome) (pass antecedent)))
         (Some (set_len (pass antecedent))), cache)
  | _ => (mk_match_counts (set_len (pass outcome)) None, cache)
  end.

Definition verdict_of (fail_empty unknown_empty : bool) : RuleVerdict :=
  if negb fail_empty then VFail else if negb unknown_empty then VInconclusive else VPass.

Definition linkage_report (rule : CompiledWorkspaceSymbolRule) (universe : SymbolSet)
    (outcome : TriSet) (counts : RuleMatchCounts) (coverage : CoverageCounts) (min_percent : N) :
    WorkspaceReport :=
  let unknowns := N.to_nat (set_len (unknown outcome)) in
  mk_workspace_report
    (Check.mk_report (sr_rule_id rule) (sr_severity rule) (bs "workspace linked symbols")
       (N.to_nat (set_len universe)) (N.to_nat (mc_matches counts))
       (N.to_nat (set_len (fail_ outcome))) (N.to_nat <$> mc_antecedent_matches counts)
       (if set_is_empty (unknown outcome) then None
        else Some (bs "linkage coverage is below " ++ show_N min_percent ++ bs "% for " ++
                   show_nat unknowns ++ bs " symbol(s)"))
       (Some unknowns))
    (Some (verdict_of (set_is_empty (fail_ outcome)) (set_is_empty (unknown outcome))))
    (Some (counts_report coverage min_percent)) None.

(** [append_violations] *)
Definition append_violations (inventory : SymbolInventoryIndex) (rule : CompiledWorkspaceSymbolRule)
    (violations : SymbolSet) (e : WorkspaceEvaluation) : WorkspaceEvaluation :=
  push_violations (symbol_violations inventory (bs "workspace linkage assertion") rule violations) e.

Definition evaluate_linkage_rule (c : EvalContext) (report : bool)
    (acc : WorkspaceEvaluation * gmap bytes SymbolSet) (rule : CompiledWorkspaceSymbolRule) :
    WorkspaceEvaluation * gmap bytes SymbolSet :=
  let '(evaluation, cache) := acc in
  let '(outcome, (coverage, cache)) := linkage_node c (sr_root rule) (counts_default, cache) in
  let evaluation := insert_violation_set (sr_rule_id rule) (fail_ outcome) evaluation in
  let evaluation :=
    append_violations (Indexed.inventory (x_index c)) rule (fail_ outcome) evaluation in
  if report then
    let '(counts, cache) := rule_match_counts c (sr_root rule) outcome cache in
    (push_report (linkage_report rule (x_universe c) outcome counts coverage (x_min_coverage c))
       evaluation, cache)
  else (evaluation, cache).

Definition has_plan (plan : WorkspaceRulePlan) (rule : CompiledWorkspaceSymbolRule) : bool :=
  bool_decide (sr_plan rule = plan).

Definition evaluate_linkage_rules (index : Indexed.CodeIndex) (linkage : LinkageSnapshot)
    (universe : SymbolSet) (compiled : CompiledWorkspaceRules) (report : bool)
    (evaluation : WorkspaceEvaluation) : WorkspaceEvaluation :=
  let c := mk_context index universe (metrics_build index linkage universe)
             (c_min_linkage_coverage compiled) in
  fst (foldl (evaluate_linkage_rule c report) (evaluation, ∅)
         (List.filter (has_plan PlanLinkage) (c_symbol compiled))).

(** ** Structural rules *)

Record StructureCounts : Type := mk_structure_counts {
  failures : SymbolSet;
  sc_unknown : nat;
  sc_matches : nat;
  sc_antecedent_matches : nat
}.

Abbreviation M := (res Empty_set).

Definition structure_symbol (context : Indexed.IndexedPredicates) (root : Node)
    (inventory : SymbolInventoryIndex) (s : StructureCounts) (o : SymbolOrdinal) : M StructureCounts :=
  match record inventory o with
  | None => mret s
  | Some symbol =>
      premise ← (match root with
                 | Implies premise _ => Indexed.evaluate context premise (i_id symbol)
                 | _ => mret (Some true)
                 end);
      let holds := bool_decide (premise = Some true) in
      let antecedents := sc_antecedent_matches s + Nat.b2n holds in
      outcome ← Indexed.evaluate context root (i_id symbol);
      mret (match outcome with
            | Some true =>
                if holds
                then mk_structure_counts (failures s) (sc_unknown s) (sc_matches s + 1) antecedents
                else mk_structure_counts (failures s) (sc_unknown s) (sc_matches s) antecedents
            | Some false =>
                mk_structure_counts (set_insert o (failures s)) (sc_unknown s) (sc_matches s) antecedents
            | None => mk_structure_counts (failures s) (sc_unknown s + 1) (sc_matches s) antecedents
            end)
  end.

Definition is_implication (root : Node) : bool :=
  match root with Implies _ _ => true | _ => false end.

Definition structure_report (rule : CompiledWorkspaceSymbolRule) (universe : SymbolSet)
    (s : StructureCounts) : WorkspaceReport :=
  mk_workspace_report
    (Check.mk_report (sr_rule_id rule) (sr_severity rule) (bs "workspace structural symbols")
       (N.to_nat (set_len universe)) (sc_matches s) (N.to_nat (set_len (failures s)))
       (if is_implication (sr_root rule) then Some (sc_antecedent_matches s) else None)
       (if sc_unknown s =? 0 then None
        else Some (bs "Structural traversal requires resolved relations; some targets or incoming sets are uncertain."))
       (Some (sc_unknown s)))
    (Some (verdict_of (set_is_empty (failures s)) (sc_unknown s =? 0))) None None.

Definition evaluate_structure_rule (context : Indexed.IndexedPredicates)
    (inventory : SymbolInventoryIndex) (universe : SymbolSet) (report : bool)
    (evaluation : WorkspaceEvaluation) (rule : CompiledWorkspaceSymbolRule) : M WorkspaceEvaluation :=
  s ← fold_res (structure_symbol context (sr_root rule) inventory)
        (mk_structure_counts set_new 0 0 0) (set_iter universe);
  let evaluation := append_violations inventory rule (failures s) evaluation in
  let evaluation :=
    if report then push_report (structure_report rule universe s) evaluation else evaluation in
  mret (insert_violation_set (sr_rule_id rule) (failures s) evaluation).

Definition evaluate_structure (index : Indexed.CodeIndex) (linkage : LinkageSnapshot)
    (universe : SymbolSet) (compiled : CompiledWorkspaceRules) (report : bool)
    (evaluation : WorkspaceEvaluation) : M WorkspaceEvaluation :=
  let rules := List.filter (has_plan PlanStructure) (c_symbol compiled) in
  if is_nil rules then mret evaluation
  else
    context ← Indexed.new index linkage;
    fold_res (evaluate_structure_rule context (Indexed.inventory index) universe report)
      evaluation rules.

End linkage.
End LinkageRules.
