(* ===== verification/PathRules.v ===== *)
(** Rules on the paths of a workspace: reachability between two selected sets,
    absence of a path, and paths that all cross a third set, with the limits and
    the coverage that make an answer inconclusive
    (src/crates/check/src/check/workspace_eval/path_rule.rs). *)

From S2P Require Import Prelude.
From S2P Require Import RustStr.
From S2P Require Import Path.
From S2P Require Import DslAst.
From S2P Require Import DslParse.
From S2P Require Import Suppress.
From S2P Require Import EvalCore.
From S2P Require Import ConfigData.
From S2P Require Import Aliases.
From S2P Require Import Config.
From S2P Require Import Check.
From S2P Require Import Bitmap.
From S2P Require Import Snapshot.
From S2P Require Import Inventory.
From S2P Require Import LinkIndex.
From S2P Require Import Paths.
From S2P Require Import Indexed.
From S2P Require Import WorkspaceRules.

Module PathRules.
Import Report EvalCore Ast ConfigData Aliases StrSort Snapshot Inventory LinkIndex Paths WorkspaceRules.

Section path.
Context {R : Roaring} {RE : RegexEngine} {HO : HashOrder}.
Abbreviation C := (res ConfigError).
Abbreviation M := (res Empty_set).

(** ** Compilation *)

Definition compile_selector (raw at_ scheme : bytes) (allowed_kinds : list bytes)
    (aliases : gmap bytes bytes) : C (Node * list bytes * bytes) :=
  expanded ← substitute_aliases raw aliases at_;
  parsed ← map_err (InvalidExpr at_) (DslParse.parse expanded scheme allowed_kinds);
  capabilities ← classify_t1 parsed at_;
  mret (parsed, capabilities, expanded).

Definition compile_path (entry : WorkspacePathRuleEntry) (index : nat) (scheme : bytes)
    (allowed_kinds : list bytes) (aliases : gmap bytes bytes) (default_coverage : N) :
    C CompiledWorkspacePathRule :=
  let rule_id := bs "workspace.path." ++ fallback_id (path_id entry) index in
  '(from_node, from_capabilities, from_expanded) ←
    compile_selector (ConfigData.from entry) (rule_id ++ bs ".from") scheme allowed_kinds aliases;
  '(to_node, to_capabilities, to_expanded) ←
    compile_selector (to entry) (rule_id ++ bs ".to") scheme allowed_kinds aliases;
  '(via_node, via_capabilities, via_expanded) ←
    (match via entry with
     | Some raw =>
         '(selector, capabilities, expanded) ←
           compile_selector raw (rule_id ++ bs ".via") scheme allowed_kinds aliases;
         mret (Some selector, capabilities, Some expanded)
     | None => mret (None, [], None)
     end);
  let capabilities : gset bytes :=
    list_to_set (from_capabilities ++ to_capabilities ++ via_capabilities ++ [bs "graph.path"]) in
  mret (mk_path_rule rule_id (ConfigData.from entry) (to entry) from_expanded to_expanded (via entry)
          via_expanded from_node to_node via_node (expect entry) (require_non_empty entry)
          (relation entry)
          (mk_limits (N.to_nat (ConfigData.max_depth entry)) (ConfigData.max_symbols entry)
             (ConfigData.max_edges entry))
          (max_pairs entry) (default default_coverage (min_coverage entry)) (path_severity entry)
          (path_message entry) (path_rationale entry) (sort_strings (elements capabilities))).

Definition compile_paths (l : list WorkspacePathRuleEntry) (scheme : bytes)
    (allowed_kinds : list bytes) (aliases : gmap bytes bytes) (default_coverage : N) :
    C (list CompiledWorkspacePathRule) :=
  map_res (fun e : nat * WorkspacePathRuleEntry =>
    compile_path e.2 e.1 scheme allowed_kinds aliases default_coverage) (imap pair l).

Definition expectation_name (e : WorkspacePathExpectation) : bytes :=
  match e with
  | Reachable => bs "reachable"
  | NoPath => bs "no_path"
  | AllPathsVia => bs "all_paths_via"
  end.

Definition render_path_expr (e : WorkspacePathExpectation) (from to_ : bytes) (via : option bytes) : bytes :=
  expectation_name e ++ bs "(" ++ from ++ bs " -> " ++ to_ ++
    match via with Some via => bs " via " ++ via | None => [] end ++ bs ")".

Definition path_spec (rule : CompiledWorkspacePathRule) : Check.CompiledRuleSpec :=
  Check.mk_spec (pa_rule_id rule) (pa_severity rule) (bs "workspace") (bs "workspace") (bs "path")
    (bs "t2_linkage") (pa_capabilities rule) [] (bs "workspace paths") None
    (render_path_expr (pa_expect rule) (from_raw rule) (to_raw rule) (via_raw rule))
    (render_path_expr (pa_expect rule) (from_expanded rule) (to_expanded rule) (via_expanded rule))
    (from_raw rule :: to_raw rule :: match via_raw rule with Some v => [v] | None => [] end)
    (pa_message rule) (pa_rationale rule) None.

(** ** The outcome of a rule *)

Record PathOutcome : Set := mk_outcome {
  po_verdict : option RuleVerdict;
  po_found : bool;
  po_incomplete : bool;
  po_evaluated_pairs : N;
  po_coverage : BoundedPathCoverage;
  po_explored_symbols : N;
  po_explored_edges : N;
  po_depth_limit : bool;
  po_symbol_limit : bool;
  po_edge_limit : bool;
  po_pair_limit : bool;
  po_reasons : gset bytes;
  po_witness : list BoundedPathEdge;
  po_anchor : option SymbolOrdinal
}.

Definition outcome_default : PathOutcome :=
  mk_outcome None false false 0 coverage_default 0 0 false false false false ∅ [] None.

Definition set_verdict (v : RuleVerdict) (o : PathOutcome) : PathOutcome :=
  mk_outcome (Some v) (po_found o) (po_incomplete o) (po_evaluated_pairs o) (po_coverage o)
    (po_explored_symbols o) (po_explored_edges o) (po_depth_limit o) (po_symbol_limit o)
    (po_edge_limit o) (po_pair_limit o) (po_reasons o) (po_witness o) (po_anchor o).

Definition set_found (o : PathOutcome) : PathOutcome :=
  mk_outcome (po_verdict o) true (po_incomplete o) (po_evaluated_pairs o) (po_coverage o)
    (po_explored_symbols o) (po_explored_edges o) (po_depth_limit o) (po_symbol_limit o)
    (po_edge_limit o) (po_pair_limit o) (po_reasons o) (po_witness o) (po_anchor o).

Definition set_incomplete (b : bool) (o : PathOutcome) : PathOutcome :=
  mk_outcome (po_verdict o) (po_found o) (po_incomplete o || b) (po_evaluated_pairs o) (po_coverage o)
    (po_explored_symbols o) (po_explored_edges o) (po_depth_limit o) (po_symbol_limit o)
    (po_edge_limit o) (po_pair_limit o) (po_reasons o) (po_witness o) (po_anchor o).

Definition next_pair (o : PathOutcome) : PathOutcome :=
  mk_outcome (po_verdict o) (po_found o) (po_incomplete o) (po_evaluated_pairs o + 1) (po_coverage o)
    (po_explored_symbols o) (po_explored_edges o) (po_depth_limit o) (po_symbol_limit o)
    (po_edge_limit o) (po_pair_limit o) (po_reasons o) (po_witness o) (po_anchor o).

(** Sets the flags whose argument is true. *)
Definition set_limits (depth symbol edge pair : bool) (o : PathOutcome) : PathOutcome :=
  mk_outcome (po_verdict o) (po_found o) (po_incomplete o) (po_evaluated_pairs o) (po_coverage o)
    (po_explored_symbols o) (po_explored_edges o) (po_depth_limit o || depth)
    (po_symbol_limit o || symbol) (po_edge_limit o || edge) (po_pair_limit o || pair) (po_reasons o)
    (po_witness o) (po_anchor o).

Definition insert_reason (reason : bytes) (o : PathOutcome) : PathOutcome :=
  mk_outcome (po_verdict o) (po_found o) (po_incomplete o) (po_evaluated_pairs o) (po_coverage o)
    (po_explored_symbols o) (po_explored_edges o) (po_depth_limit o) (po_symbol_limit o)
    (po_edge_limit o) (po_pair_limit o) ({[reason]} ∪ po_reasons o) (po_witness o) (po_anchor o).

Definition set_witness (w : list BoundedPathEdge) (o : PathOutcome) : PathOutcome :=
  mk_outcome (po_verdict o) (po_found o) (po_incomplete o) (po_evaluated_pairs o) (po_coverage o)
    (po_explored_symbols o) (po_explored_edges o) (po_depth_limit o) (po_symbol_limit o)
    (po_edge_limit o) (po_pair_limit o) (po_reasons o) w (po_anchor o).

Definition set_anchor (a : SymbolOrdinal) (o : PathOutcome) : PathOutcome :=
  mk_outcome (po_verdict o) (po_found o) (po_incomplete o) (po_evaluated_pairs o) (po_coverage o)
    (po_explored_symbols o) (po_explored_edges o) (po_depth_limit o) (po_symbol_limit o)
    (po_edge_limit o) (po_pair_limit o) (po_reasons o) (po_witness o) (Some a).

Definition add_explored (symbols edges : N) (c : BoundedPathCoverage) (o : PathOutcome) : PathOutcome :=
  mk_outcome (po_verdict o) (po_found o) (po_incomplete o) (po_evaluated_pairs o) c
    (po_explored_symbols o + symbols) (po_explored_edges o + edges) (po_depth_limit o)
    (po_symbol_limit o) (po_edge_limit o) (po_pair_limit o) (po_reasons o) (po_witness o) (po_anchor o).

(** [PathOutcome::inconclusive] and [PathOutcome::failed] *)
Definition outcome_inconclusive (reason : bytes) : PathOutcome :=
  set_verdict VInconclusive (set_incomplete true (insert_reason reason outcome_default)).
Definition outcome_failed (reason : bytes) : PathOutcome :=
  set_verdict VFail (insert_reason reason outcome_default).

Definition add_coverage (total next : BoundedPathCoverage) : BoundedPathCoverage :=
  mk_coverage (cov_total total + cov_total next) (cov_decided total + cov_decided next)
    (cov_resolved total + cov_resolved next) (cov_external total + cov_external next)
    (cov_candidate total + cov_candidate next) (cov_dynamic total + cov_dynamic next)
    (cov_manifest_blocked total + cov_manifest_blocked next)
    (cov_unresolved total + cov_unresolved next)
    (foldl (fun reasons e => add_reason e.1 e.2 reasons) (gap_reasons total)
       (map_to_list (gap_reasons next))).

Definition insert_reason_if (b : bool) (reason : bytes) (o : PathOutcome) : PathOutcome :=
  if b then insert_reason reason o else o.

Definition absorb (s : BoundedPathSearch) (o : PathOutcome) : PathOutcome :=
  let o := set_limits (ps_depth_limit s) (ps_symbol_limit s) (ps_edge_limit s) false o in
  let o := insert_reason_if (ps_depth_limit s) (bs "depth_limit") o in
  let o := insert_reason_if (ps_symbol_limit s) (bs "symbol_limit") o in
  let o := insert_reason_if (ps_edge_limit s) (bs "edge_limit") o in
  let o :=
    foldl (fun o e => insert_reason (e.1 ++ bs ":" ++ show_N e.2) o) o
      (map_to_list (gap_reasons (ps_coverage s))) in
  let o := if is_nil (po_witness o) && negb (is_nil (ps_path s)) then set_witness (ps_path s) o else o in
  add_explored (ps_explored_symbols s) (ps_explored_edges s)
    (add_coverage (po_coverage o) (ps_coverage s)) o.

Definition finish (e : WorkspacePathExpectation) (total_pairs : N) (o : PathOutcome) : PathOutcome :=
  let o := set_incomplete ((po_evaluated_pairs o <? total_pairs)%N && negb (po_found o)) o in
  set_verdict
    (if po_found o then match e with NoPath => VFail | _ => VPass end
     else if po_incomplete o then VInconclusive
     else match e with NoPath => VPass | _ => VFail end) o.

(** ** The searches *)

Section rule.
Context (inventory : SymbolInventoryIndex) (engine : LinkageReadIndex) (scope : BoundedPathScope).
Context (rule : CompiledWorkspacePathRule).

(** The limits of the next search; [inl] is the outcome that a reached limit leaves. *)
Definition next_search_limits (o : PathOutcome) : PathOutcome + BoundedPathLimits :=
  let l := pa_limits rule in
  if (pa_max_pairs rule <=? po_evaluated_pairs o)%N
  then inl (insert_reason (bs "pair_limit") (set_limits false false false true o))
  else if (max_symbols l <=? po_explored_symbols o)%N
  then inl (insert_reason (bs "symbol_limit") (set_limits false true false false o))
  else if (max_edges l <=? cov_total (po_coverage o))%N
  then inl (insert_reason (bs "edge_limit") (set_limits false false true false o))
  else
    inr (mk_limits (max_depth l) (max_symbols l - po_explored_symbols o)
           (max_edges l - cov_total (po_coverage o))).

Definition search_complete (s : BoundedPathSearch) : bool :=
  negb (ps_depth_limit s) && negb (ps_symbol_limit s) && negb (ps_edge_limit s) &&
  (pa_min_coverage rule <=? percent (ps_coverage s))%N.

Definition record_coverage_reason (s : BoundedPathSearch) (o : PathOutcome) : PathOutcome :=
  insert_reason_if (percent (ps_coverage s) <? pa_min_coverage rule)%N
    (bs "coverage_below_threshold") o.

Definition search_pair (from to_ : SymbolId) (avoid : list SymbolId) (limits : BoundedPathLimits) :
    M (option BoundedPathSearch) :=
  search engine (mk_request from to_ (pa_relation rule) avoid limits scope).

Definition path_found (from to_ : SymbolId) (s : BoundedPathSearch) : bool :=
  bool_decide (from = to_) || negb (is_nil (ps_path s)).

(** One turn of the inner loop of [evaluate_path_rule]: [inl] returns. *)
Definition pair_step (o : PathOutcome) (from_ordinal to_ordinal : SymbolOrdinal) :
    M (PathOutcome + PathOutcome) :=
  match next_search_limits o with
  | inl o => mret (inl o)
  | inr limits =>
      match record inventory from_ordinal with
      | None => mret (inr (set_incomplete true (insert_reason (bs "source_symbol_missing") o)))
      | Some from =>
          match record inventory to_ordinal with
          | None => mret (inr (set_incomplete true (insert_reason (bs "target_symbol_missing") o)))
          | Some to_ =>
              let o := next_pair o in
              found ← search_pair (i_id from) (i_id to_) [] limits;
              match found with
              | None => mret (inr (set_incomplete true (insert_reason (bs "path_index_unavailable") o)))
              | Some s =>
                  let o := absorb s (record_coverage_reason s o) in
                  if path_found (i_id from) (i_id to_) s then mret (inl (set_found o))
                  else mret (inr (set_incomplete (negb (search_complete s)) o))
              end
          end
      end
  end.

Fixpoint pair_loop (pairs : list (SymbolOrdinal * SymbolOrdinal)) (o : PathOutcome) : M PathOutcome :=
  match pairs with
  | [] => mret o
  | (from, to_) :: pairs =>
      step ← pair_step o from to_;
      match step with inl o => mret o | inr o => pair_loop pairs o end
  end.

(** What is known of one source: connected, and all its searches complete. *)
Record SourceState : Set := mk_source_state {
  ss_outcome : PathOutcome;
  source_connected : bool;
  source_complete : bool
}.

(** The second search of a connected pair, without the symbols of [via]. *)
Definition bypass_step (avoid : list SymbolId) (s : SourceState) (from to_ : InventorySymbol) :
    M (PathOutcome + SourceState) :=
  match next_search_limits (ss_outcome s) with
  | inl o => mret (inl (set_verdict VInconclusive o))
  | inr limits =>
      let o := next_pair (ss_outcome s) in
      found ← search_pair (i_id from) (i_id to_) avoid limits;
      match found with
      | None =>
          mret (inr (mk_source_state (insert_reason (bs "path_index_unavailable") o)
                       (source_connected s) false))
      | Some bypass =>
          let bypass_found := path_found (i_id from) (i_id to_) bypass in
          let o := record_coverage_reason bypass o in
          let o := if bypass_found then set_witness (ps_path bypass) o else o in
          let o := absorb bypass o in
          if bypass_found then
            mret (inl (set_verdict VFail (insert_reason (bs "path_bypasses_via") (set_found o))))
          else
            mret (inr (mk_source_state o (source_connected s)
                         (source_complete s && search_complete bypass)))
      end
  end.

(** One turn of the loop over the targets. *)
Definition via_step (avoid : list SymbolId) (s : SourceState) (from : InventorySymbol)
    (to_ordinal : SymbolOrdinal) : M (PathOutcome + SourceState) :=
  match record inventory to_ordinal with
  | None =>
      mret (inr (mk_source_state (insert_reason (bs "target_symbol_missing") (ss_outcome s))
                   (source_connected s) false))
  | Some to_ =>
      match next_search_limits (ss_outcome s) with
      | inl o => mret (inl (set_verdict VInconclusive o))
      | inr limits =>
          let o := next_pair (ss_outcome s) in
          found ← search_pair (i_id from) (i_id to_) [] limits;
          match found with
          | None =>
              mret (inr (mk_source_state (insert_reason (bs "path_index_unavailable") o)
                           (source_connected s) false))
          | Some found =>
              let connected := path_found (i_id from) (i_id to_) found in
              let o := absorb found (record_coverage_reason found o) in
              let complete := source_complete s && search_complete found in
              if negb connected then mret (inr (mk_source_state o (source_connected s) complete))
              else bypass_step avoid (mk_source_state o true complete) from to_
          end
      end
  end.

Fixpoint via_targets (avoid : list SymbolId) (from : InventorySymbol) (targets : list SymbolOrdinal)
    (s : SourceState) : M (PathOutcome + SourceState) :=
  match targets with
  | [] => mret (inr s)
  | to_ordinal :: targets =>
      step ← via_step avoid s from to_ordinal;
      match step with inl o => mret (inl o) | inr s => via_targets avoid from targets s end
  end.

(** The loop over the sources. *)
Fixpoint via_sources (avoid : list SymbolId) (targets sources : list SymbolOrdinal) (o : PathOutcome) :
    M PathOutcome :=
  match sources with
  | [] => mret (set_verdict (if po_incomplete o then VInconclusive else VPass) o)
  | from_ordinal :: sources =>
      match record inventory from_ordinal with
      | None =>
          via_sources avoid targets sources
            (set_incomplete true (insert_reason (bs "source_symbol_missing") o))
      | Some from =>
          step ← via_targets avoid from targets (mk_source_state o false true);
          match step with
          | inl o => mret o
          | inr s =>
              if negb (source_connected s) then
                let o := insert_reason (bs "source_cannot_reach_target") (ss_outcome s) in
                mret (set_verdict (if source_complete s then VFail else VInconclusive)
                        (set_witness [] (set_anchor from_ordinal o)))
              else via_sources avoid targets sources
                     (set_incomplete (negb (source_complete s)) (ss_outcome s))
          end
      end
  end.

Definition empty_selector (reason : bytes) : PathOutcome :=
  if pa_require_non_empty rule then outcome_failed reason else outcome_inconclusive reason.

Definition evaluate_all_paths_via (from to_ via : SymbolSet) : M PathOutcome :=
  if set_is_empty via then mret (empty_selector (bs "empty_via_selector"))
  else if negb (set_is_empty (set_intersection from via)) || negb (set_is_empty (set_intersection to_ via))
  then mret (outcome_inconclusive (bs "via_overlaps_endpoint"))
  else
    let avoid := map i_id (omap (record inventory) (set_iter via)) in
    via_sources avoid (set_iter to_) (set_iter from) outcome_default.

(** The pairs in the order of the two loops. *)
Definition pairs (from to_ : SymbolSet) : list (SymbolOrdinal * SymbolOrdinal) :=
  concat (map (fun f => map (pair f) (set_iter to_)) (set_iter from)).

End rule.

Definition evaluate_path_rule (inventory : SymbolInventoryIndex) (engine : option LinkageReadIndex)
    (scope : BoundedPathScope) (rule : CompiledWorkspacePathRule) (from to_ via : SymbolSet) :
    M PathOutcome :=
  if set_is_empty from || set_is_empty to_ then
    mret (empty_selector rule
            (if set_is_empty from then bs "empty_source_selector" else bs "empty_target_selector"))
  else
    match engine with
    | None => mret (outcome_inconclusive (bs "path_index_unavailable"))
    | Some engine =>
        match pa_expect rule with
        | AllPathsVia => evaluate_all_paths_via inventory engine scope rule from to_ via
        | e =>
            o ← pair_loop inventory engine scope rule (pairs from to_) outcome_default;
            mret (finish e (N.min (set_len from * set_len to_) usize_max) o)
        end
    end.

(** ** Reports *)

Definition or_else {A} (o o' : option A) : option A := match o with Some _ => o | None => o' end.

Definition path_anchor (inventory : SymbolInventoryIndex) (o : PathOutcome)
    (from to_ via universe : SymbolSet) : option SymbolOrdinal :=
  or_else (po_anchor o)
    (or_else (match head (po_witness o) with
              | Some edge => ordinal (catalog inventory) (edge_source edge)
              | None => None
              end)
       (or_else (head (set_iter from))
          (or_else (head (set_iter to_)) (or_else (head (set_iter via)) (head (set_iter universe)))))).

Definition witness_step (index : Indexed.CodeIndex) (edge : BoundedPathEdge) : option RulePathStep :=
  let inventory := Indexed.inventory index in
  match record_by_id inventory (edge_source edge), record_by_id inventory (edge_target edge) with
  | Some source, Some target =>
      let id := edge_reference edge in
      match file_records (Indexed.ci_references index) (N.to_nat (ref_file id)) !! N.to_nat (ref_reference id) with
      | Some reference =>
          if bool_decide (r_id reference = id) then
            Some (mk_path_step (i_identity source) (i_identity target) (r_kind reference)
                    (reference_id_display (r_id reference)) (source_path source) (r_line_range reference))
          else None
      | None => None
      end
  | _, _ => None
  end.

Definition witness_steps (index : Indexed.CodeIndex) (w : list BoundedPathEdge) : list RulePathStep :=
  omap (witness_step index) w.

Definition witness_label (steps : list RulePathStep) : bytes :=
  match steps with
  | [] => bs "no witness"
  | step :: _ => RustStr.join (bs " -> ") (st_source step :: map st_target steps)
  end.

Definition path_violation (rule : CompiledWorkspacePathRule) (r : InventorySymbol)
    (steps : list RulePathStep) : WorkspaceSymbolViolation :=
  let witness := witness_label steps in
  let expectation := expectation_name (pa_expect rule) in
  mk_symbol_violation (i_source r) (Some (i_id r)) true
    (mk_violation (pa_rule_id rule) (pa_severity rule) (i_identity r) (record_srcset r) (i_kind r)
       (default (0, 0)%N (i_line_range r))
       (bs "workspace path expectation `" ++ expectation ++ bs "` failed: " ++ witness)
       ((fun message =>
           render_template message
             [(bs "from", i_identity r); (bs "to", to_raw rule); (bs "expect", expectation);
              (bs "path", witness)]) <$> pa_message rule)).

(** [append_violation] *)
Definition append_violation (inventory : SymbolInventoryIndex) (rule : CompiledWorkspacePathRule)
    (anchor : SymbolOrdinal) (steps : list RulePathStep) (e : WorkspaceEvaluation) : WorkspaceEvaluation :=
  match record inventory anchor with
  | None => e
  | Some r => push_violations [path_violation rule r steps] e
  end.

Definition path_coverage (rule : CompiledWorkspacePathRule) (c : BoundedPathCoverage) : RuleCoverage :=
  mk_rule_coverage (cov_total c) (cov_decided c) (cov_resolved c) (cov_external c) (cov_candidate c)
    (cov_dynamic c) (cov_manifest_blocked c) (cov_unresolved c) (percent c) (pa_min_coverage rule).

Definition path_report (rule : CompiledWorkspacePathRule) (from_count to_count via_count : N)
    (o : PathOutcome) (witness : list RulePathStep) : WorkspaceReport :=
  let verdict := default VInconclusive (po_verdict o) in
  let reasons := sort_strings (elements (po_reasons o)) in
  let is_verdict v := bool_decide (verdict = v) in
  mk_workspace_report
    (Check.mk_report (pa_rule_id rule) (pa_severity rule) (bs "workspace paths")
       (N.to_nat (po_evaluated_pairs o)) (Nat.b2n (is_verdict VPass)) (Nat.b2n (is_verdict VFail)) None
       (if is_verdict VInconclusive
        then Some (bs "workspace path result is inconclusive: " ++ RustStr.join (bs ", ") reasons)
        else None)
       (Some (Nat.b2n (is_verdict VInconclusive))))
    (Some verdict) (Some (path_coverage rule (po_coverage o)))
    (Some (mk_path_report (expectation_name (pa_expect rule)) (pa_relation rule)
             (N.of_nat (max_depth (pa_limits rule))) (max_symbols (pa_limits rule))
             (max_edges (pa_limits rule)) (pa_max_pairs rule) (pa_min_coverage rule) from_count
             to_count via_count (po_evaluated_pairs o) (po_explored_symbols o)
             (po_explored_edges o) (po_depth_limit o) (po_symbol_limit o) (po_edge_limit o)
             (po_pair_limit o) reasons witness)).

(** One turn of the loop of [evaluate_path_rules]. *)
Definition evaluate_path_step (index : Indexed.CodeIndex) (engine : option LinkageReadIndex)
    (scope : BoundedPathScope) (universe : SymbolSet) (report : bool)
    (acc : WorkspaceEvaluation * gmap bytes SymbolSet) (rule : CompiledWorkspacePathRule) :
    M (WorkspaceEvaluation * gmap bytes SymbolSet) :=
  let inventory := Indexed.inventory index in
  let '(evaluation, cache) := acc in
  let '(from, cache) := eval_node inventory universe (pa_from rule) cache in
  let '(to_, cache) := eval_node inventory universe (pa_to rule) cache in
  let '(via, cache) :=
    match pa_via rule with
    | Some selector => eval_node inventory universe selector cache
    | None => (set_new, cache)
    end in
  outcome ← evaluate_path_rule inventory engine scope rule from to_ via;
  let witness := witness_steps index (po_witness outcome) in
  let '(violation_set, evaluation) :=
    match po_verdict outcome, path_anchor inventory outcome from to_ via universe with
    | Some VFail, Some anchor =>
        (set_insert anchor set_new, append_violation inventory rule anchor witness evaluation)
    | _, _ => (set_new, evaluation)
    end in
  let evaluation := insert_violation_set (pa_rule_id rule) violation_set evaluation in
  mret (if report
        then push_report (path_report rule (set_len from) (set_len to_) (set_len via) outcome witness)
               evaluation
        else evaluation, cache).

(** [read_index] is the index of the linkage, when it is in step with it. *)
Definition evaluate_path_rules (index : Indexed.CodeIndex) (linkage : LinkageSnapshot)
    (read_index : option LinkageReadIndex) (universe : SymbolSet) (compiled : CompiledWorkspaceRules)
    (report : bool) (evaluation : WorkspaceEvaluation) : M WorkspaceEvaluation :=
  if is_nil (c_path compiled) then mret evaluation
  else
    let engine := engine_new (Indexed.ci_generation index) linkage read_index in
    let scope :=
      from_sources (map i_source (omap (record (Indexed.inventory index)) (set_iter universe))) in
    '(evaluation, _) ←
      fold_res (evaluate_path_step index engine scope universe report) (evaluation, ∅)
        (c_path compiled);
    mret evaluation.

End path.
End PathRules.
