(* ===== verification/WorkspaceEval.v ===== *)
(** The evaluation of the rules of a workspace: compilation, full evaluation over
    an index and its linkage, evaluation of what a change touched, and the
    diagnostics of a snapshot (src/crates/check/src/check/workspace_eval.rs,
    workspace_eval/incremental.rs and workspace.rs; the difference of two
    versions of a file of src/crates/workspace/src/code/index.rs). *)

From S2P Require Import Prelude.
From S2P Require Import RustStr.
From S2P Require Import Moniker.
From S2P Require Import CodeGraph.
From S2P Require Import Path.
From S2P Require Import DslAst.
From S2P Require Import Syntax.
From S2P Require Import Suppress.
From S2P Require Import EvalCore.
From S2P Require Import ConfigData.
From S2P Require Import Aliases.
From S2P Require Import Config.
From S2P Require Import Check.
From S2P Require Import Bitmap.
From S2P Require Import Snapshot.
From S2P Require Import Inventory.
From S2P Require Import LinkIndex.
From S2P Require Import Indexed.
From S2P Require Import WorkspaceRules.
From S2P Require Import GroupRules.
From S2P Require Import LinkageRules.
From S2P Require Import PathRules.

Module WorkspaceEval.
Import Report EvalCore Ast ConfigData Aliases Config StrSort Snapshot Inventory LinkIndex
  WorkspaceRules GroupRules LinkageRules PathRules.

Section eval.
Context {R : Roaring} {RE : RegexEngine} {HO : HashOrder}.
Abbreviation C := (res ConfigError).
Abbreviation M := (res Empty_set).

(** ** Compilation *)

Definition compile_symbol_rules (l : list RuleEntry) (scheme : bytes) (allowed : list bytes)
    (aliases : gmap bytes bytes) : C (list CompiledWorkspaceSymbolRule) :=
  map_res (fun e : nat * RuleEntry =>
    let id := fallback_id (entry_id e.2) e.1 in
    compile_symbol_rule e.2 (bs "workspace.symbol." ++ id) scheme allowed aliases) (imap pair l).

Definition compile_workspace_rules {T : Toml} (cfg : Config) (scheme : bytes) :
    C CompiledWorkspaceRules :=
  aliases ← resolve_aliases (aliases cfg);
  let allowed := allowed_workspace_kinds in
  let w := workspace cfg in
  let min_coverage := default 100%N (min_linkage_coverage w) in
  symbol ← compile_symbol_rules (rules (symbol w)) scheme allowed aliases;
  group ← compile_groups (group w) scheme allowed aliases;
  path ← compile_paths (path w) scheme allowed aliases min_coverage;
  mret (mk_workspace_rules symbol group path min_coverage).

Definition symbol_spec (rule : CompiledWorkspaceSymbolRule) : Check.CompiledRuleSpec :=
  Check.mk_spec (sr_rule_id rule) (sr_severity rule) (bs "workspace") (bs "workspace") (bs "symbol")
    (plan_as_str (sr_plan rule)) (sr_capabilities rule) [] (bs "workspace symbols") None
    (sr_raw_expr rule) (sr_expanded_expr rule) [sr_raw_expr rule] (sr_message rule)
    (sr_rationale rule) None.

Definition specs (c : CompiledWorkspaceRules) : list Check.CompiledRuleSpec :=
  map symbol_spec (c_symbol c) ++ map group_spec (c_group c) ++ map path_spec (c_path c).

(** ** Full evaluation *)

Definition sort_evaluation (e : WorkspaceEvaluation) : WorkspaceEvaluation :=
  mk_evaluation (sort_workspace_violations (we_violations e)) (violation_sets e) (groups e) (reports e).

Definition evaluate_workspace_rules_in (inventory : SymbolInventoryIndex) (universe : SymbolSet)
    (compiled : CompiledWorkspaceRules) (report : bool) : M WorkspaceEvaluation :=
  let acc := evaluate_symbol_rules inventory universe report (c_symbol compiled) (evaluation_default, ∅) in
  '(evaluation, _) ← evaluate_groups inventory universe report (c_group compiled) acc;
  mret (sort_evaluation evaluation).

Definition evaluate_workspace_rules (inventory : SymbolInventoryIndex)
    (compiled : CompiledWorkspaceRules) (report : bool) : M WorkspaceEvaluation :=
  evaluate_workspace_rules_in inventory (all_symbols inventory) compiled report.

(** [read_index] is the index of the linkage. *)
Definition evaluate_workspace_rules_linked_in_current (index : Indexed.CodeIndex)
    (linkage : LinkageSnapshot) (read_index : option LinkageReadIndex) (universe : SymbolSet)
    (compiled : CompiledWorkspaceRules) (report : bool) : M WorkspaceEvaluation :=
  evaluation ← evaluate_workspace_rules_in (Indexed.inventory index) universe compiled report;
  let evaluation := evaluate_linkage_rules index linkage universe compiled report evaluation in
  evaluation ← evaluate_structure index linkage universe compiled report evaluation;
  evaluation ← evaluate_path_rules index linkage read_index universe compiled report evaluation;
  mret (sort_evaluation evaluation).

Record WorkspaceLinkageError : Set := mk_linkage_error {
  err_index_generation : ResourceGeneration;
  err_linkage_index_generation : ResourceGeneration
}.

(** The value of a computation without errors, where another may fail. *)
Definition lift {E A} (m : M A) : res E A := map_err (fun e : Empty_set => match e with end) m.

Definition evaluate_workspace_rules_linked_in (index : Indexed.CodeIndex) (linkage : LinkageSnapshot)
    (read_index : option LinkageReadIndex) (universe : SymbolSet) (compiled : CompiledWorkspaceRules)
    (report : bool) : res WorkspaceLinkageError WorkspaceEvaluation :=
  if negb (index_generation linkage =? Indexed.ci_generation index)%N
  then Err (mk_linkage_error (Indexed.ci_generation index) (index_generation linkage))
  else
    lift (evaluate_workspace_rules_linked_in_current index linkage read_index universe compiled report).

Definition evaluate_workspace_rules_linked (index : Indexed.CodeIndex) (linkage : LinkageSnapshot)
    (read_index : option LinkageReadIndex) (compiled : CompiledWorkspaceRules) (report : bool) :
    res WorkspaceLinkageError WorkspaceEvaluation :=
  evaluate_workspace_rules_linked_in index linkage read_index
    (all_symbols (Indexed.inventory index)) compiled report.

(** ** The difference of two versions of a file *)

(** [CodeIndexGraphDiff], the part on symbols. *)
Record CodeIndexGraphDiff : Set := mk_diff {
  added_symbols : list SymbolId;
  modified_symbols : list SymbolId;
  changed_symbols : list SymbolId;
  removed_symbols : list SymbolId;
  modified_symbol_identities : list bytes;
  modified_inventory_symbols : list SymbolId;
  modified_inventory_symbol_identities : list bytes;
  removed_symbol_identities : list bytes;
  symbol_id_remaps : list (SymbolId * SymbolId);
  unchanged_symbols : nat
}.

Definition diff_default : CodeIndexGraphDiff := mk_diff [] [] [] [] [] [] [] [] [] 0.

Definition diff_app (a b : CodeIndexGraphDiff) : CodeIndexGraphDiff :=
  mk_diff (added_symbols a ++ added_symbols b) (modified_symbols a ++ modified_symbols b)
    (changed_symbols a ++ changed_symbols b) (removed_symbols a ++ removed_symbols b)
    (modified_symbol_identities a ++ modified_symbol_identities b)
    (modified_inventory_symbols a ++ modified_inventory_symbols b)
    (modified_inventory_symbol_identities a ++ modified_inventory_symbol_identities b)
    (removed_symbol_identities a ++ removed_symbol_identities b)
    (symbol_id_remaps a ++ symbol_id_remaps b) (unchanged_symbols a + unchanged_symbols b).

Definition symbol_linkage_fields_changed (p n : SymbolRecord) : bool :=
  negb (bool_decide (identity p = identity n /\ s_name p = s_name n /\ s_kind p = s_kind n /\
    visibility p = visibility n /\ signature p = signature n /\ s_call_name p = s_call_name n /\
    s_call_arity p = s_call_arity n /\ navigable p = navigable n)).

Definition symbol_inventory_fields_changed (p n : SymbolRecord) : bool :=
  negb (bool_decide (byte_range p = byte_range n /\ s_line_range p = s_line_range n /\
    parent p = parent n)).

(** The positions of the records by identity. *)
Definition symbol_record_indexes (records : list SymbolRecord) : gmap bytes (list nat) :=
  foldl (fun m e => push_at (identity e.2) e.1 m) ∅ (imap pair records).

(** [pop_index] *)
Definition pop_index (m : gmap bytes (list nat)) (key : bytes) : option (nat * gmap bytes (list nat)) :=
  match m !! key with
  | Some (idx :: rest) => Some (idx, if is_nil rest then delete key m else <[key := rest]> m)
  | _ => None
  end.

(** What one symbol of the previous version adds, [next] being its next version. *)
Definition diff_pair (p n : SymbolRecord) : CodeIndexGraphDiff :=
  if symbol_linkage_fields_changed p n
  then mk_diff [] [s_id n] [s_id n] [] [identity n] [] [] [] [] 0
  else
    let inventory_changed := symbol_inventory_fields_changed p n in
    mk_diff [] [] [] [] [] (if inventory_changed then [s_id n] else [])
      (if inventory_changed then [identity n] else []) []
      (if bool_decide (s_id p = s_id n) then [] else [(s_id p, s_id n)])
      (if inventory_changed then 0 else 1).

(** One turn of the first loop. [next[idx]] is in range. *)
Definition diff_previous (next : list SymbolRecord) (acc : CodeIndexGraphDiff * gmap bytes (list nat))
    (p : SymbolRecord) : M (CodeIndexGraphDiff * gmap bytes (list nat)) :=
  let '(diff, next_by_key) := acc in
  match pop_index next_by_key (identity p) with
  | None => mret (diff_app diff (mk_diff [] [] [] [s_id p] [] [] [] [identity p] [] 0), next_by_key)
  | Some (idx, next_by_key) =>
      match next !! idx with
      | None => Panic
      | Some n => mret (diff_app diff (diff_pair p n), next_by_key)
      end
  end.

Definition diff_symbols (previous next : list SymbolRecord) (diff : CodeIndexGraphDiff) :
    M CodeIndexGraphDiff :=
  '(diff, rest) ← fold_res (diff_previous next) (diff, symbol_record_indexes next) previous;
  added ← map_res (fun idx => match next !! idx with Some n => mret (s_id n) | None => Panic end)
            (concat (map snd (entries rest)));
  mret (diff_app diff (mk_diff added [] added [] [] [] [] [] [] 0)).

(** ** Evaluation after a change *)

Record WorkspaceIncrementalInput : Type := mk_incremental_input {
  in_previous_inventory : SymbolInventoryIndex;
  in_current_inventory : SymbolInventoryIndex;
  in_previous_universe : SymbolSet;
  in_current_universe : SymbolSet;
  in_diff : CodeIndexGraphDiff;
  in_compiled : CompiledWorkspaceRules;
  in_previous : WorkspaceEvaluation
}.

Record WorkspaceIncrementalEvaluation : Type := mk_incremental_evaluation {
  ie_evaluation : WorkspaceEvaluation;
  dirty_symbols : nat;
  evaluated_symbols : nat;
  affected_groups : nat
}.

Definition insert_ordinal (i : SymbolInventoryIndex) (s : SymbolSet) (id : SymbolId) : SymbolSet :=
  match ordinal (catalog i) id with Some o => set_insert o s | None => s end.

Definition union_identity (i : SymbolInventoryIndex) (s : SymbolSet) (identity : bytes) : SymbolSet :=
  match by_identity (facets i) !! identity with Some symbols => set_union_with s symbols | None => s end.

Definition dirty_symbol_sets (previous current : SymbolInventoryIndex) (diff : CodeIndexGraphDiff) :
    SymbolSet * SymbolSet :=
  let p := foldl (insert_ordinal previous) set_new (removed_symbols diff) in
  let p := foldl (union_identity previous) p (modified_symbol_identities diff) in
  let p := foldl (union_identity previous) p (modified_inventory_symbol_identities diff) in
  let p := foldl (fun s e => insert_ordinal previous s e.1) p (symbol_id_remaps diff) in
  let c := foldl (fun s e => insert_ordinal current s e.2) set_new (symbol_id_remaps diff) in
  let c :=
    foldl (insert_ordinal current) c
      (added_symbols diff ++ modified_symbols diff ++ modified_inventory_symbols diff) in
  (p, c).

Definition dirty_identities (previous current : SymbolInventoryIndex)
    (previous_dirty current_dirty : SymbolSet) : gset bytes :=
  list_to_set (map i_identity
    (omap (record previous) (set_iter previous_dirty) ++ omap (record current) (set_iter current_dirty))).

Definition preserved_violation (current : SymbolInventoryIndex) (current_universe : SymbolSet)
    (v : WorkspaceSymbolViolation) : option WorkspaceSymbolViolation :=
  match by_identity (facets current) !! violation_moniker (violation v) with
  | None => None
  | Some symbols =>
      match
        List.find (fun r => bool_decide (i_source r = v_source v))
          (omap (record current) (List.filter (set_contains current_universe) (set_iter symbols)))
      with
      | None => None
      | Some r =>
          let w := violation v in
          Some (mk_symbol_violation (i_source r) (Some (i_id r)) (source_suppression v)
            (mk_violation (Report.rule_id w) (severity w) (violation_moniker w) (Report.srcset w)
               (violation_kind w) (default (0, 0)%N (i_line_range r)) (message w) (explanation w)))
      end
  end.

Definition preserved_symbol_violations (current : SymbolInventoryIndex)
    (previous : WorkspaceEvaluation) (dirty_identities : gset bytes) (current_universe : SymbolSet) :
    list WorkspaceSymbolViolation :=
  omap (preserved_violation current current_universe)
    (List.filter (fun v => negb (bool_decide (violation_moniker (violation v) ∈ dirty_identities)))
       (List.filter source_suppression (we_violations previous))).

Definition merged_set (previous dirty : gmap bytes SymbolSet) (previous_dirty current_universe : SymbolSet)
    (rule_id : bytes) : SymbolSet :=
  let violations := default set_new (previous !! rule_id) in
  let violations := set_remove_all violations previous_dirty in
  let violations := set_intersect_with violations current_universe in
  match dirty !! rule_id with
  | Some changed => set_union_with violations changed
  | None => violations
  end.

Definition merge_violation_sets (compiled : CompiledWorkspaceRules)
    (previous dirty : gmap bytes SymbolSet) (previous_dirty current_universe : SymbolSet) :
    gmap bytes SymbolSet :=
  foldl (fun m rule =>
    <[sr_rule_id rule := merged_set previous dirty previous_dirty current_universe (sr_rule_id rule)]> m)
    ∅ (c_symbol compiled).

Definition evaluate_workspace_rules_incremental (input : WorkspaceIncrementalInput) :
    M WorkspaceIncrementalEvaluation :=
  let p := in_previous_inventory input in
  let c := in_current_inventory input in
  let U := in_current_universe input in
  let previous := in_previous input in
  let '(previous_dirty, current_dirty) := dirty_symbol_sets p c (in_diff input) in
  let previous_dirty := set_intersect_with previous_dirty (in_previous_universe input) in
  let current_dirty := set_intersect_with current_dirty U in
  let identities := dirty_identities p c previous_dirty current_dirty in
  dirty ← evaluate_workspace_rules_in c current_dirty (in_compiled input) false;
  let sets :=
    merge_violation_sets (in_compiled input) (violation_sets previous) (violation_sets dirty)
      previous_dirty U in
  let violations :=
    preserved_symbol_violations c previous identities U ++
    List.filter source_suppression (we_violations dirty) in
  '(results, group_violations, affected) ←
    evaluate_groups_incremental
      (mk_group_incremental p c (in_previous_universe input) U previous_dirty current_dirty
         (c_group (in_compiled input)) (groups previous));
  mret (mk_incremental_evaluation
          (mk_evaluation (sort_workspace_violations (violations ++ group_violations)) sets results [])
          (N.to_nat (set_len (set_union previous_dirty current_dirty)))
          (N.to_nat (set_len current_dirty)) affected).

(** ** The evaluation of a snapshot (workspace.rs) *)

Record WorkspaceEvaluationState : Type := mk_state {
  st_index_generation : ResourceGeneration;
  fingerprint : bytes;
  st_inventory : SymbolInventoryIndex;
  st_universe : SymbolSet;
  st_evaluation : WorkspaceEvaluation
}.

Inductive WorkspaceEvaluationMode : Set := Full | Incremental.

Record WorkspaceEvaluationMetrics : Set := mk_evaluation_metrics {
  mode : WorkspaceEvaluationMode;
  em_dirty_symbols : nat;
  em_evaluated_symbols : nat;
  em_affected_groups : nat
}.

Definition evaluate_workspace_full (index : Indexed.CodeIndex) (linkage : LinkageSnapshot)
    (read_index : option LinkageReadIndex) (universe : SymbolSet) (compiled : CompiledWorkspaceRules) :
    M (WorkspaceEvaluation * WorkspaceEvaluationMetrics) :=
  evaluation ←
    evaluate_workspace_rules_linked_in_current index linkage read_index universe compiled
      (has_linkage_rules compiled);
  let n := N.to_nat (set_len universe) in
  mret (evaluation, mk_evaluation_metrics Full n n (length (groups evaluation))).

(** [cached_diff] is the difference that the cache holds for a generation, with
    the generation that it starts from; [fp] is the fingerprint of the rules. *)
Definition evaluate_workspace_snapshot (index : Indexed.CodeIndex) (universe : SymbolSet)
    (compiled : CompiledWorkspaceRules) (fp : bytes)
    (cached_diff : ResourceGeneration -> option (ResourceGeneration * CodeIndexGraphDiff))
    (linkage : LinkageSnapshot) (read_index : option LinkageReadIndex)
    (previous : option WorkspaceEvaluationState) :
    M (WorkspaceEvaluation * WorkspaceEvaluationMetrics) :=
  let full := evaluate_workspace_full index linkage read_index universe compiled in
  if has_linkage_rules compiled then full
  else
    match previous with
    | None => full
    | Some previous =>
        if negb (beq (fingerprint previous) fp) then full
        else if (st_index_generation previous =? Indexed.ci_generation index)%N
        then mret (st_evaluation previous, mk_evaluation_metrics Incremental 0 0 0)
        else
          match cached_diff (Indexed.ci_generation index) with
          | None => full
          | Some (diff_base, diff) =>
              if negb (diff_base =? st_index_generation previous)%N then full
              else
                incremental ←
                  evaluate_workspace_rules_incremental
                    (mk_incremental_input (st_inventory previous) (Indexed.inventory index)
                       (st_universe previous) universe diff compiled (st_evaluation previous));
                mret (ie_evaluation incremental,
                      mk_evaluation_metrics Incremental (dirty_symbols incremental)
                        (evaluated_symbols incremental) (affected_groups incremental))
          end
    end.

(** The symbols of the files that no pattern excludes. *)
Definition included_workspace_symbols (index : Indexed.CodeIndex) (excluded : bytes -> bool) : SymbolSet :=
  set_from_iter
    (List.filter (fun o =>
       match record (Indexed.inventory index) o with
       | Some r => negb (excluded (source_path r))
       | None => false
       end) (set_iter (all_symbols (Indexed.inventory index)))).

(** ** Diagnostics *)

Record WorkspaceRuleDiagnostic : Set := mk_diagnostic {
  dg_rule_id : bytes;
  dg_severity : RuleSeverity;
  dg_symbol : option SymbolId;
  dg_message : bytes
}.

Definition diagnostic_from_violation (symbol_by_identity : gmap bytes SymbolId) (v : Violation)
    (primary : option SymbolId) : WorkspaceRuleDiagnostic :=
  mk_diagnostic (Report.rule_id v) (severity v)
    (match primary with Some id => Some id | None => symbol_by_identity !! violation_moniker v end)
    (message v).

Definition realign_report (diagnostics : list WorkspaceRuleDiagnostic) (r : WorkspaceReport) :
    WorkspaceReport :=
  match verdict r with
  | None => r
  | Some _ =>
      let b := base r in
      let violations :=
        length (List.filter (fun d => beq (dg_rule_id d) (Check.report_id b)) diagnostics) in
      let verdict :=
        if 0 <? violations then VFail
        else if 0 <? default 0 (Check.inconclusive b) then VInconclusive else VPass in
      mk_workspace_report
        (Check.mk_report (Check.report_id b) (Check.report_severity b) (Check.report_domain b)
           (Check.evaluated b) (Check.matches b) violations (Check.antecedent_matches b)
           (Check.warning b) (Check.inconclusive b))
        (Some verdict) (coverage r) (report_path r)
  end.

Definition realign_workspace_reports (diagnostics : list WorkspaceRuleDiagnostic)
    (l : list WorkspaceReport) : list WorkspaceReport := map (realign_report diagnostics) l.

Definition source_le (a b : nat * list WorkspaceSymbolViolation) : Prop := a.1 <= b.1.

#[local] Instance source_le_dec : RelDecision source_le.
Proof using. intros a b. unfold source_le. apply _. Defined.

(** The violations by the position of their file, in order. *)
Definition violations_by_source (l : list WorkspaceSymbolViolation) :
    list (nat * list WorkspaceSymbolViolation) :=
  let m := foldl (fun m v => push_at (N.to_nat (source_file (v_source v))) v m) ∅ l in
  merge_sort source_le (map_to_list m).

Section diagnostics.
Context {DR : DirectiveRegex}.

(** The diagnostics of one file: the violations that directives cannot silence
    come first. *)
Definition file_diagnostics (symbol_by_identity : gmap bytes SymbolId) (g : CodeGraph.t) (source : bytes)
    (l : list WorkspaceSymbolViolation) : list WorkspaceRuleDiagnostic :=
  let primary_symbols : gmap (bytes * bytes) SymbolId :=
    Indexed.collect_map (omap (fun v =>
      (fun id => ((Report.rule_id (violation v), violation_moniker (violation v)), id)) <$> v_symbol v) l) in
  let fixed := map violation (List.filter (fun v => negb (source_suppression v)) l) in
  let suppressible := map violation (List.filter source_suppression l) in
  map (fun v =>
    diagnostic_from_violation symbol_by_identity v
      (primary_symbols !! (Report.rule_id v, violation_moniker v)))
    (fixed ++ Suppress.apply g source suppressible).

Definition workspace_diagnostics (symbol_by_identity : gmap bytes SymbolId)
    (files : list (CodeGraph.t * bytes)) (l : list WorkspaceSymbolViolation) :
    list WorkspaceRuleDiagnostic :=
  concat (map (fun e : nat * list WorkspaceSymbolViolation =>
    match files !! e.1 with
    | None => []
    | Some (g, source) => file_diagnostics symbol_by_identity g source e.2
    end) (violations_by_source l)).
(** A file of the index: what the evaluation reads of [IndexedSourceFile]. *)
Record IndexedSourceFile : Type := mk_indexed_file {
  file_path : bytes;
  file_lang : Lang.t;
  file_graph : CodeGraph.t;
  file_source : bytes
}.

Section collect.
Context {T : Toml} {TS : TreeSitter} {PS : Parsers TS} {L2 : Log2}.

(** The rules of a language, compiled at its first file. *)
Definition rules_of (cfg : Config) (scheme : bytes) (lang : Lang.t)
    (compiled : list (Lang.t * Check.CompiledRules)) :
    C (Check.CompiledRules * list (Lang.t * Check.CompiledRules)) :=
  match List.find (fun e => bool_decide (e.1 = lang)) compiled with
  | Some e => mret (e.2, compiled)
  | None =>
      rules ← Check.compile_rules cfg lang scheme; mret (rules, (lang, rules) :: compiled)
  end.

(** One turn of the loop over the files. *)
Definition local_diagnostics (cfg : Config) (scheme : bytes) (symbol_by_identity : gmap bytes SymbolId)
    (acc : list WorkspaceRuleDiagnostic * list (Lang.t * Check.CompiledRules)) (file : IndexedSourceFile) :
    C (list WorkspaceRuleDiagnostic * list (Lang.t * Check.CompiledRules)) :=
  let '(diagnostics, compiled) := acc in
  '(rules, compiled) ← rules_of cfg scheme (file_lang file) compiled;
  raw ← lift (Check.evaluate_compiled (file_graph file) (file_source file) (file_lang file) scheme rules);
  let violations := Suppress.apply (file_graph file) (file_source file) raw in
  mret (diagnostics ++ map (fun v => diagnostic_from_violation symbol_by_identity v None) violations,
        compiled).

Record CollectedDiagnostics : Type := mk_collected {
  collected_diagnostics : list WorkspaceRuleDiagnostic;
  collected_reports : list WorkspaceReport;
  collected_metrics : WorkspaceEvaluationMetrics;
  collected_state : WorkspaceEvaluationState
}.

(** [collect_diagnostics] once the configuration is loaded; [excluded] is the
    matcher of excluded paths and [fp] the fingerprint of the compiled rules. *)
Definition collect_diagnostics (cfg : Config) (scheme : bytes) (excluded : bytes -> bool)
    (fp : CompiledWorkspaceRules -> bytes) (symbol_by_identity : gmap bytes SymbolId)
    (files : list IndexedSourceFile) (index : Indexed.CodeIndex)
    (cached_diff : ResourceGeneration -> option (ResourceGeneration * CodeIndexGraphDiff))
    (linkage : LinkageSnapshot) (read_index : option LinkageReadIndex)
    (previous : option WorkspaceEvaluationState) : C CollectedDiagnostics :=
  '(diagnostics, _) ←
    fold_res (local_diagnostics cfg scheme symbol_by_identity) ([], [])
      (List.filter (fun file => negb (excluded (file_path file))) files);
  compiled ← compile_workspace_rules cfg scheme;
  let universe := included_workspace_symbols index excluded in
  '(evaluation, metrics) ←
    lift (evaluate_workspace_snapshot index universe compiled (fp compiled) cached_diff linkage
            read_index previous);
  let diagnostics :=
    diagnostics ++
      workspace_diagnostics symbol_by_identity (map (fun f => (file_graph f, file_source f)) files)
        (we_violations evaluation) in
  mret (mk_collected diagnostics (realign_workspace_reports diagnostics (reports evaluation)) metrics
          (mk_state (Indexed.ci_generation index) (fp compiled) (Indexed.inventory index) universe
             (mk_evaluation (we_violations evaluation) (violation_sets evaluation) (groups evaluation) []))).
End collect.
End diagnostics.

Record WorkspaceRuleDiagnostics : Set := mk_diagnostics {
  dgs_generation : ResourceGeneration;
  dgs_index_generation : ResourceGeneration;
  dgs_evaluation : WorkspaceEvaluationMetrics;
  dgs_reports : list WorkspaceReport;
  errors : nat;
  warnings : nat;
  diagnostics : list WorkspaceRuleDiagnostic
}.

Definition with_diagnostics (generation index_generation : ResourceGeneration)
    (l : list WorkspaceRuleDiagnostic) (r : list WorkspaceReport) : WorkspaceRuleDiagnostics :=
  mk_diagnostics generation index_generation (mk_evaluation_metrics Full 0 0 0) r
    (length (List.filter (fun d => match dg_severity d with Error => true | _ => false end) l))
    (length (List.filter (fun d => match dg_severity d with Warn => true | _ => false end) l)) l.

(** ** The runner *)

Inductive CheckError : Type :=
| StaleLinkage (linkage_generation current_generation : ResourceGeneration)
| MaterialUnavailable
| CheckFailed (error : ConfigError).

(** What the cache holds of an index: the symbols by identity and the files. *)
Record IndexedSourceMaterial : Type := mk_material {
  symbol_by_identity : gmap bytes SymbolId;
  files : list IndexedSourceFile
}.

Section runner.
Context {DR : DirectiveRegex} {T : Toml} {TS : TreeSitter} {PS : Parsers TS} {L2 : Log2}.

(** [WorkspaceCheckRunner::run_check]: the diagnostics and the next state; an
    error leaves the state as it is. [load] is what loading the configuration
    gives, [excluded] its matcher of paths, [fp] the fingerprint of its rules,
    and [generation] the next one of the cache. *)
Definition run_check (load : C Config) (scheme : bytes) (excluded : Config -> bytes -> bool)
    (fp : Config -> CompiledWorkspaceRules -> bytes) (material : option IndexedSourceMaterial)
    (cached_diff : ResourceGeneration -> option (ResourceGeneration * CodeIndexGraphDiff))
    (generation : ResourceGeneration) (index : Indexed.CodeIndex) (linkage : LinkageSnapshot)
    (read_index : option LinkageReadIndex) (state : option WorkspaceEvaluationState) :
    res CheckError (WorkspaceRuleDiagnostics * option WorkspaceEvaluationState) :=
  if negb (index_generation linkage =? Indexed.ci_generation index)%N
  then Err (StaleLinkage (index_generation linkage) (Indexed.ci_generation index))
  else
    match material with
    | None => Err MaterialUnavailable
    | Some material =>
        collected ← map_err CheckFailed
          (cfg ← load;
           collect_diagnostics cfg scheme (excluded cfg) (fp cfg) (symbol_by_identity material)
             (files material) index cached_diff linkage read_index state);
        let d := with_diagnostics generation (Indexed.ci_generation index)
                   (collected_diagnostics collected) (collected_reports collected) in
        mret (mk_diagnostics (dgs_generation d) (dgs_index_generation d) (collected_metrics collected)
                (dgs_reports d) (errors d) (warnings d) (diagnostics d),
              Some (collected_state collected))
    end.
End runner.

End eval.
End WorkspaceEval.
