(* ===== verification/SymbolRuleFacts.v ===== *)
(** Rules on the symbols of a workspace: what the posting lists compute is the
    reading of the rule on every record, whatever the cache of atoms holds, and
    the violations and the reports of the rules follow from it. *)

From S2P Require Import Prelude.
From S2P Require Import RustStr.
From S2P Require Import Path.
From S2P Require Import PathFacts.
From S2P Require Import DslAst.
From S2P Require Import EvalCore.
From S2P Require Import Config.
From S2P Require Import Bitmap.
From S2P Require Import Snapshot.
From S2P Require Import Inventory.
From S2P Require Import InventoryInv.
From S2P Require Import InventoryFacts.
From S2P Require Import InventoryTheorems.
From S2P Require Import PathSets.
From S2P Require Import Check.
From S2P Require Import CheckFacts.
From S2P Require Import DslParse.
From S2P Require Import Aliases.
From S2P Require Import ConfigData.
From S2P Require Import Indexed.
From S2P Require Import WorkspaceRules.

Module SymbolRuleFacts.
Import Ast EvalCore Snapshot Inventory InventoryInv InventoryStep PathSets WorkspaceRules.

(** ** The reading of a rule on a record *)

Section reading.
Context {RE : RegexEngine}.

Definition facet_text (lhs : Lhs.t) (r : InventorySymbol) : option bytes :=
  match lhs with
  | Lhs.Name => Some (i_name r)
  | Lhs.Kind => Some (i_kind r)
  | Lhs.Shape => Some (i_shape r)
  | Lhs.Visibility => Some (i_visibility r)
  | Lhs.Srcset => Some (Inventory.srcset r)
  | Lhs.Moniker => Some (i_identity r)
  | _ => None
  end.

Definition equal_text (lhs : Lhs.t) (value : bytes) (r : InventorySymbol) : bool :=
  match facet_text lhs r with Some text => beq text value | None => false end.

(** The identifier of a symbol has no posting list that an expression can match. *)
Definition regex_text (lhs : Lhs.t) (re : Regex) (r : InventorySymbol) : bool :=
  match lhs, facet_text lhs r with
  | Lhs.Moniker, _ => false
  | _, Some text => is_match re text
  | _, None => false
  end.

Definition atom_holds (a : Atom) (r : InventorySymbol) : bool :=
  let 'mk_atom lhs op rhs _ regex := a in
  match lhs with
  | Attr lhs =>
      match op with
      | Op.Eq => match rhs with Str value => equal_text lhs value r | _ => false end
      | Op.Ne => match rhs with Str value => negb (equal_text lhs value r) | _ => false end
      | Op.RegexMatch => match regex with Some re => regex_text lhs re r | None => false end
      | Op.RegexNoMatch => match regex with Some re => negb (regex_text lhs re r) | None => false end
      | Op.PathMatch =>
          match lhs, rhs with
          | Lhs.Moniker, RPathPattern pattern =>
              Path.matches_text_segments pattern (record_segments r)
          | _, _ => false
          end
      | _ => false
      end
  | _ => false
  end.

Fixpoint node_holds (n : Node) (r : InventorySymbol) : bool :=
  match n with
  | NAtom a => atom_holds a r
  | And nodes => forallb (fun n => node_holds n r) nodes
  | Or nodes => existsb (fun n => node_holds n r) nodes
  | Not n => negb (node_holds n r)
  | Implies n1 n2 => negb (node_holds n1 r) || node_holds n2 r
  | Require_ _ | NVerticalLayout _ | Quantifier _ _ _ => false
  end.

(** The atoms that the evaluation of a tree consults. *)
Fixpoint atoms (n : Node) : list Atom :=
  match n with
  | NAtom a => [a]
  | And nodes | Or nodes => concat (map atoms nodes)
  | Not n => atoms n
  | Implies n1 n2 => atoms n1 ++ atoms n2
  | Require_ _ | NVerticalLayout _ | Quantifier _ _ _ => []
  end.

(** The trees without what the inventory does not answer. *)
Fixpoint on_inventory (n : Node) : bool :=
  match n with
  | NAtom _ => true
  | And nodes | Or nodes => forallb on_inventory nodes
  | Not n => on_inventory n
  | Implies n1 n2 => on_inventory n1 && on_inventory n2
  | Require_ _ | NVerticalLayout _ | Quantifier _ _ _ => false
  end.

(** The text of an atom names it: true of atoms parsed with the same scheme and
    kinds. *)
Definition named (l : list Atom) : Prop :=
  forall a b, a ∈ l -> b ∈ l -> atom_raw a = atom_raw b -> a = b.

Lemma named_nodup l : bool_decide (NoDup (map atom_raw l)) = true -> named l.
Proof.
  intros H%bool_decide_eq_true a b Ha Hb Hraw. induction l as [| x l IH]; [by apply not_elem_of_nil in Ha |].
  cbn [map] in H. apply NoDup_cons in H as [Hx Hl].
  assert (forall y, y ∈ l -> atom_raw x <> atom_raw y) as Hne.
  { intros y Hy Heq. apply Hx. rewrite Heq. apply list_elem_of_In, in_map, list_elem_of_In, Hy. }
  apply elem_of_cons in Ha as [-> | Ha]; apply elem_of_cons in Hb as [-> | Hb].
  - done.
  - by apply Hne in Hraw.
  - by apply eq_sym, Hne in Hraw.
  - by apply IH.
Qed.

(** ** Induction on the connectives *)

Section induction.
Context (P : Node -> Prop).
Context (Hatom : forall a, P (NAtom a)) (Hreq : forall p, P (Require_ p)).
Context (Hlay : forall l, P (NVerticalLayout l)) (Hquant : forall k d f, P (Quantifier k d f)).
Context (Hand : forall l, Forall P l -> P (And l)) (Hor : forall l, Forall P l -> P (Or l)).
Context (Hnot : forall n, P n -> P (Not n)).
Context (Himp : forall n1 n2, P n1 -> P n2 -> P (Implies n1 n2)).

Fixpoint connective_ind (n : Node) : P n :=
  let fix go (l : list Node) : Forall P l :=
    match l with
    | [] => Forall_nil_2 P
    | n :: l => Forall_cons_2 P n l (connective_ind n) (go l)
    end in
  match n with
  | NAtom a => Hatom a
  | And l => Hand l (go l)
  | Or l => Hor l (go l)
  | Not n => Hnot n (connective_ind n)
  | Implies n1 n2 => Himp n1 n2 (connective_ind n1) (connective_ind n2)
  | Require_ p => Hreq p
  | NVerticalLayout l => Hlay l
  | Quantifier k d f => Hquant k d f
  end.
End induction.
End reading.

(** ** Sets of ordinals as predicates on records *)

Section sets.
Context {R : Roaring} {RL : RoaringLaws R} {FX : FxHash} {RE : RegexEngine} {HO : HashOrder}.
Context (i : SymbolInventoryIndex) (U : SymbolSet).

(** [s] is the part of the universe whose records satisfy [f]. *)
Definition selects (s : SymbolSet) (f : InventorySymbol -> bool) : Prop :=
  forall o, set_contains s o = set_contains U o && match record i o with Some r => f r | None => false end.

Definition covered : Prop := forall o, set_contains U o = true -> is_Some (record i o).

Context (Hi : coherent i) (HU : covered).

Lemma contains_intersection a b o :
  set_contains (set_intersection a b) o = set_contains a o && set_contains b o.
Proof using RL. apply bm_contains_and. Qed.

Lemma contains_union a b o : set_contains (set_union a b) o = set_contains a o || set_contains b o.
Proof using RL. apply bm_contains_or. Qed.

Lemma contains_difference a b o :
  set_contains (set_difference a b) o = set_contains a o && negb (set_contains b o).
Proof using RL. apply bm_contains_sub. Qed.

Lemma selects_ext s f g : (forall r, f r = g r) -> selects s f -> selects s g.
Proof using. intros H Hs o. rewrite Hs. destruct (record i o); [by rewrite H | done]. Qed.

Lemma selects_universe : selects U (fun _ => true).
Proof using HU.
  intros o. destruct (set_contains U o) eqn:Ho; [| done]. destruct (HU o Ho) as [r ->]. done.
Qed.

Lemma selects_none : selects set_new (fun _ => false).
Proof using RL.
  intros o. unfold set_contains, set_new. rewrite bm_contains_new. by destruct (record i o); rewrite andb_false_r.
Qed.

Lemma selects_and s t f g : selects s f -> selects t g -> selects (set_intersection s t) (fun r => f r && g r).
Proof using RL.
  intros Hs Ht o. rewrite contains_intersection, Hs, Ht.
  destruct (set_contains U o), (record i o); cbn; by try rewrite andb_false_r.
Qed.

Lemma selects_or s t f g : selects s f -> selects t g -> selects (set_union s t) (fun r => f r || g r).
Proof using RL.
  intros Hs Ht o. rewrite contains_union, Hs, Ht. by destruct (set_contains U o), (record i o).
Qed.

Lemma selects_not s f : selects s f -> selects (set_difference U s) (fun r => negb (f r)).
Proof using RL HU.
  intros Hs o. rewrite contains_difference, Hs.
  destruct (set_contains U o) eqn:Ho; [| done]. by destruct (HU o Ho) as [r ->].
Qed.

(** ** Posting lists *)

Lemma contains_posting `{Countable K} keys (m : gmap K SymbolSet) k o :
  facet_exact keys (records i) m ->
  set_contains (default set_new (m !! k)) o =
    match record i o with Some r => bool_decide (k ∈ keys r) | None => false end.
Proof using RL.
  intros [Hl _]. apply Bool.eq_iff_eq_true. rewrite (Hl k o). unfold record.
  destruct (records i !! o) as [r |].
  - rewrite bool_decide_eq_true. split; [intros (r' & [= ->] & Hk); done | by exists r].
  - split; [intros (r' & [=] & _) | done].
Qed.

(** A set that holds the ordinals whose record satisfies [f], in the universe. *)
Lemma selects_inter s f :
  (forall o, set_contains s o = match record i o with Some r => f r | None => false end) ->
  selects (set_intersection s U) f.
Proof using RL. intros Hs o. by rewrite contains_intersection, Hs, andb_comm. Qed.

Lemma contains_default o : set_contains (default set_new (@None SymbolSet)) o = false.
Proof using RL. apply bm_contains_new. Qed.

Lemma matched_exact lhs value o :
  let f := facets i in
  set_contains (default set_new (match lhs with
     | Lhs.Name => by_name f !! value | Lhs.Kind => by_kind f !! value
     | Lhs.Shape => by_shape f !! value | Lhs.Visibility => by_visibility f !! value
     | Lhs.Srcset => by_srcset f !! value | Lhs.Moniker => by_identity f !! value
     | _ => None end)) o =
  match record i o with Some r => equal_text lhs value r | None => false end.
Proof using RL Hi.
  cbv zeta. pose proof (co_facets i Hi) as F. unfold equal_text, facet_text.
  assert (forall x y : bytes, bool_decide (x ∈ [y]) = beq y x) as Hb.
  { intros x y. unfold beq. apply bool_decide_ext. rewrite list_elem_of_singleton. split; congruence. }
  destruct lhs; try (rewrite contains_default; by destruct (record i o)).
  - rewrite (contains_posting _ _ _ _ (ex_name _ _ F)). destruct (record i o); [apply Hb | done].
  - rewrite (contains_posting _ _ _ _ (ex_kind _ _ F)). destruct (record i o); [apply Hb | done].
  - rewrite (contains_posting _ _ _ _ (ex_shape _ _ F)). destruct (record i o); [apply Hb | done].
  - rewrite (contains_posting _ _ _ _ (ex_visibility _ _ F)). destruct (record i o); [apply Hb | done].
  - rewrite (contains_posting _ _ _ _ (ex_srcset _ _ F)). destruct (record i o); [apply Hb | done].
  - rewrite (contains_posting _ _ _ _ (ex_identity _ _ F)). destruct (record i o); [apply Hb | done].
Qed.

Lemma union_postings_spec (l : list (bytes * SymbolSet)) (p : bytes -> bool) o : forall s,
  set_contains (foldl (fun (result : SymbolSet) (e : bytes * SymbolSet) => if p e.1 then set_union_with result e.2 else result) s l) o = true <->
  set_contains s o = true \/ exists e, e ∈ l /\ p e.1 = true /\ set_contains e.2 o = true.
Proof using RL.
  induction l as [| e l IH]; intros s; cbn [foldl].
  - split; [by left | intros [| (e & Hn & _)]; [done | by apply not_elem_of_nil in Hn]].
  - rewrite IH. destruct (p e.1) eqn:Hp; [rewrite in_union |]; split.
    + intros [[Hs | He] | (e' & Hin & H)]; [by left | right; exists e | right; exists e'];
        (split; [by constructor |]; done).
    + intros [Hs | (e' & [-> | Hin]%elem_of_cons & H)]; [left; by left | left; right; by destruct H | right; by exists e'].
    + intros [Hs | (e' & Hin & H)]; [by left | right; exists e'; split; [by constructor | done]].
    + intros [Hs | (e' & [-> | Hin]%elem_of_cons & Hp' & Ho)]; [by left | congruence | right; by exists e'].
Qed.

Lemma contains_union_postings (m : gmap bytes SymbolSet) (key : InventorySymbol -> bytes) p o :
  facet_exact (fun r => [key r]) (records i) m ->
  set_contains (union_postings (entries m) p) o =
    match record i o with Some r => p (key r) | None => false end.
Proof using RL.
  intros [Hl _]. apply Bool.eq_iff_eq_true. unfold union_postings. rewrite union_postings_spec, in_new. split.
  - intros [[] | ([k s] & Hin & Hp & Ho)]. unfold entries in Hin. rewrite hash_order_perm in Hin.
    apply elem_of_map_to_list in Hin. assert (listed m k o) as Hk by (unfold listed; by rewrite Hin).
    apply Hl in Hk as (r & Hr & Hk%list_elem_of_singleton). unfold record. rewrite Hr. by subst k.
  - unfold record. destruct (records i !! o) as [r |] eqn:Hr; [intros Hp | done]. right.
    assert (listed m (key r) o) as Hk by (apply Hl; exists r; split; [done | by left]).
    unfold listed in Hk. destruct (m !! key r) as [s |] eqn:Hs.
    + exists (key r, s). split; [| done]. unfold entries. rewrite hash_order_perm. by apply elem_of_map_to_list.
    + cbn in Hk. by rewrite contains_default in Hk.
Qed.

(** ** Atoms *)

Lemma eval_exact_selects lhs op value :
  selects (eval_exact i U lhs (Str value) op)
    (fun r => if bool_decide (op = Op.Ne) then negb (equal_text lhs value r) else equal_text lhs value r).
Proof using RL Hi HU.
  unfold eval_exact. pose proof (matched_exact lhs value) as H. cbv zeta in H |- *.
  destruct (bool_decide (op = Op.Ne)).
  - intros o. rewrite contains_difference, H.
    destruct (set_contains U o) eqn:Ho; [| done]. by destruct (HU o Ho) as [r ->].
  - by apply selects_inter.
Qed.

Lemma matched_regex lhs re o :
  let f := facets i in
  let union_of postings := union_postings (entries postings) (is_match re) in
  set_contains (match lhs with
     | Lhs.Name => union_of (by_name f) | Lhs.Kind => union_of (by_kind f)
     | Lhs.Shape => union_of (by_shape f) | Lhs.Visibility => union_of (by_visibility f)
     | Lhs.Srcset => union_of (by_srcset f) | _ => set_new end) o =
  match record i o with Some r => regex_text lhs re r | None => false end.
Proof using RL Hi.
  cbv zeta. pose proof (co_facets i Hi) as F. unfold regex_text, facet_text.
  destruct lhs; try (unfold set_contains, set_new; rewrite bm_contains_new; by destruct (record i o)).
  - apply (contains_union_postings _ i_name _ _ (ex_name _ _ F)).
  - apply (contains_union_postings _ i_kind _ _ (ex_kind _ _ F)).
  - apply (contains_union_postings _ i_shape _ _ (ex_shape _ _ F)).
  - apply (contains_union_postings _ i_visibility _ _ (ex_visibility _ _ F)).
  - apply (contains_union_postings _ Inventory.srcset _ _ (ex_srcset _ _ F)).
Qed.

Lemma eval_regex_selects lhs op re :
  selects (eval_regex i U lhs op (Some re))
    (fun r => if bool_decide (op = Op.RegexNoMatch) then negb (regex_text lhs re r) else regex_text lhs re r).
Proof using RL Hi HU.
  unfold eval_regex. pose proof (matched_regex lhs re) as H. cbv zeta in H |- *.
  destruct (bool_decide (op = Op.RegexNoMatch)).
  - intros o. rewrite contains_difference, H.
    destruct (set_contains U o) eqn:Ho; [| done]. by destruct (HU o Ho) as [r ->].
  - by apply selects_inter.
Qed.

(** A pattern with a literal step matches only paths with that segment. *)
Lemma match_steps_literal kind name st segs :
  Path.match_steps st segs = true -> Path.Literal kind name ∈ st -> (kind, name) ∈ segs.
Proof using.
  intros H%PathFacts.match_steps_iff. induction H as [| step seg st segs Hm Hr IH | run st segs Hr IH]; intros Hin.
  - by apply not_elem_of_nil in Hin.
  - apply elem_of_cons in Hin as [<- | Hin]; [cbn in Hm; subst; by left | right; auto].
  - apply elem_of_cons in Hin as [[=] | Hin]. apply elem_of_app. right. auto.
Qed.

Lemma reduce_intersection (l : list SymbolSet) o :
  match reduce set_intersection l with
  | Some s => l <> [] /\ (set_contains s o = true <-> forall t, t ∈ l -> set_contains t o = true)
  | None => l = []
  end.
Proof using RL.
  destruct l as [| x l]; cbn [reduce]; [done |]. split; [done |].
  revert x. induction l as [| y l IH]; intros x; cbn [foldl].
  - split; [by intros Hx t ->%list_elem_of_singleton | intros H; apply H; by left].
  - rewrite IH. split; intros H t.
    + intros [-> | [-> | Ht]%elem_of_cons]%elem_of_cons.
      * specialize (H _ (list_elem_of_here _ _)). rewrite contains_intersection in H. by apply andb_true_iff in H as [? _].
      * specialize (H _ (list_elem_of_here _ _)). rewrite contains_intersection in H. by apply andb_true_iff in H as [_ ?].
      * apply H. by right.
    + intros [-> | Ht]%elem_of_cons; [| apply H; by right; right].
      rewrite contains_intersection. apply andb_true_iff. split; apply H; [left | right; left].
Qed.

(** The candidates of a pattern leave out no record that it matches. *)
Lemma candidates_complete pattern o r s :
  record i o = Some r -> Path.matches_text_segments pattern (record_segments r) = true ->
  exact_segment_candidates i pattern = Some s -> set_contains s o = true.
Proof using RL Hi.
  intros Hr Hm Hs. unfold exact_segment_candidates in Hs.
  match type of Hs with reduce _ ?l = _ => pose proof (reduce_intersection l o) as H end.
  rewrite Hs in H. destruct H as [_ H]. apply H. intros t Ht.
  apply list_elem_of_omap in Ht as (step & Hstep & Ht). destruct step as [kind name | | | | |]; try done.
  destruct (from_utf8 kind && from_utf8 name); [| done].
  apply (match_steps_literal kind name) in Hm; [| done].
  pose proof (ex_segment _ _ (co_facets i Hi)) as F.
  pose proof (contains_posting segments _ (mk_segment kind name) o F) as C. rewrite Hr, Ht in C.
  cbn [default from_option id] in C. rewrite C. apply bool_decide_eq_true.
  unfold record_segments in Hm. apply list_elem_of_In, in_map_iff in Hm as ([k n] & [= -> ->] & Hin).
  by apply list_elem_of_In.
Qed.

Lemma eval_path_selects pattern :
  selects (eval_path i U Lhs.Moniker (RPathPattern pattern))
    (fun r => Path.matches_text_segments pattern (record_segments r)).
Proof using RL Hi.
  intros o. apply Bool.eq_iff_eq_true. unfold eval_path. rewrite in_from_iter.
  rewrite list_elem_of_In, filter_In, <- list_elem_of_In, in_iter, andb_true_iff.
  destruct (record i o) as [r |] eqn:Hr; [| split; by intros [_ ?]].
  split; intros [Hc Hm]; (split; [| done]).
  - destruct (exact_segment_candidates i pattern) as [s |]; [| done].
    rewrite contains_intersection in Hc. by apply andb_true_iff in Hc as [_ ?].
  - destruct (exact_segment_candidates i pattern) as [s |] eqn:Hs; [| done].
    rewrite contains_intersection, Hc, andb_true_r. by eapply candidates_complete.
Qed.

Lemma eval_atom_selects a : selects (eval_atom i U a) (atom_holds a).
Proof using RL Hi HU.
  destruct a as [lhs op rhs raw regex]. pose proof selects_none as N.
  destruct lhs as [lhs | | | | |]; try (destruct op; exact N).
  destruct op; try exact N; cbn [eval_atom].
  - destruct rhs; try exact N. apply (eval_exact_selects lhs Op.Eq).
  - destruct rhs; try exact N. apply (eval_exact_selects lhs Op.Ne).
  - destruct regex as [re |]; [| exact N]. apply (eval_regex_selects lhs Op.RegexMatch).
  - destruct regex as [re |]; [| exact N]. apply (eval_regex_selects lhs Op.RegexNoMatch).
  - destruct lhs; try exact N. destruct rhs; try exact N. apply eval_path_selects.
Qed.

(** ** The cache and the connectives *)

(** Every entry is the set of an atom of [l] with that text. *)
Definition cache_ok (l : list Atom) (cache : gmap bytes SymbolSet) : Prop :=
  forall raw s, cache !! raw = Some s -> exists a, a ∈ l /\ atom_raw a = raw /\ selects s (atom_holds a).

Lemma cache_empty l : cache_ok l ∅.
Proof using. intros raw s H. by rewrite lookup_empty in H. Qed.

(** A step that returns the set of [f] and keeps the cache right. *)
Definition evaluates (l : list Atom) (out : SymbolSet * gmap bytes SymbolSet) (f : InventorySymbol -> bool) :=
  selects out.1 f /\ cache_ok l out.2.

Lemma cached_atom_ok l a cache :
  named l -> a ∈ l -> cache_ok l cache -> evaluates l (cached_atom i U a cache) (atom_holds a).
Proof using RL Hi HU.
  intros Hl Ha Hc. unfold cached_atom. destruct (cache !! atom_raw a) as [s |] eqn:Hs.
  - split; [| done]. cbn. destruct (Hc _ _ Hs) as (b & Hb & Hraw & Hsel). by rewrite <- (Hl b a Hb Ha Hraw).
  - split; [apply eval_atom_selects |]. intros raw s. cbn. destruct (decide (raw = atom_raw a)) as [-> | Hne].
    + rewrite lookup_insert_eq. intros [= <-]. exists a. split_and!; [done.. | apply eval_atom_selects].
    + rewrite lookup_insert_ne by done. apply Hc.
Qed.

(** The local loop of [eval_node]. *)
Definition eval_nodes : list Node -> gmap bytes SymbolSet -> list SymbolSet * gmap bytes SymbolSet :=
  fix go l cache :=
    match l with
    | [] => ([], cache)
    | n :: l =>
        let '(s, cache) := eval_node i U n cache in
        let '(rest, cache) := go l cache in
        (s :: rest, cache)
    end.

Lemma eval_and nodes cache :
  eval_node i U (And nodes) cache =
    (default U (reduce set_intersection (eval_nodes nodes cache).1), (eval_nodes nodes cache).2).
Proof using. change (eval_node i U (And nodes) cache) with
  (let '(l, cache) := eval_nodes nodes cache in (default U (reduce set_intersection l), cache)).
  by destruct (eval_nodes nodes cache).
Qed.

Lemma eval_or nodes cache :
  eval_node i U (Or nodes) cache =
    (default set_new (reduce set_union (eval_nodes nodes cache).1), (eval_nodes nodes cache).2).
Proof using. change (eval_node i U (Or nodes) cache) with
  (let '(l, cache) := eval_nodes nodes cache in (default set_new (reduce set_union l), cache)).
  by destruct (eval_nodes nodes cache).
Qed.

Definition node_ok (l : list Atom) (n : Node) : Prop := forall cache,
  on_inventory n = true -> (forall a, a ∈ atoms n -> a ∈ l) -> cache_ok l cache ->
  evaluates l (eval_node i U n cache) (node_holds n).

Lemma eval_nodes_ok l nodes : Forall (node_ok l) nodes -> forall cache,
  forallb on_inventory nodes = true -> (forall a, a ∈ concat (map atoms nodes) -> a ∈ l) -> cache_ok l cache ->
  Forall2 (fun s n => selects s (node_holds n)) (eval_nodes nodes cache).1 nodes /\
  cache_ok l (eval_nodes nodes cache).2.
Proof using.
  induction 1 as [| n nodes Hn _ IH]; intros cache Hon Ha Hc; cbn [eval_nodes]; [done |].
  cbn in Hon. apply andb_true_iff in Hon as [Hon1 Hon2].
  destruct (Hn cache Hon1) as [Hs Hc1]; [intros a ?; apply Ha; cbn; apply elem_of_app; by left | done |].
  destruct (eval_node i U n cache) as [s c1].
  destruct (IH c1 Hon2) as [Hr Hc2]; [intros a ?; apply Ha; cbn; apply elem_of_app; by right | done |].
  destruct (eval_nodes nodes c1) as [rest c2]. split; [by constructor | done].
Qed.

Lemma fold_selects (op : SymbolSet -> SymbolSet -> SymbolSet) (b : bool -> bool -> bool) sets nodes :
  (forall s t f g, selects s f -> selects t g -> selects (op s t) (fun r => b (f r) (g r))) ->
  Forall2 (fun s n => selects s (node_holds n)) sets nodes -> forall s f, selects s f ->
  selects (foldl op s sets) (fun r => foldl b (f r) (map (fun n => node_holds n r) nodes)).
Proof using.
  intros Hop. induction 1 as [| s n sets nodes Hs _ IH]; intros s0 f H0; [done |]. cbn [foldl map]. by apply IH, Hop.
Qed.

Lemma foldl_andb x l : foldl andb x l = x && forallb (fun b => b) l.
Proof using. revert x. induction l as [| y l IH]; intros x; cbn; [by rewrite andb_true_r | by rewrite IH, andb_assoc]. Qed.

Lemma foldl_orb x l : foldl orb x l = x || existsb (fun b => b) l.
Proof using. revert x. induction l as [| y l IH]; intros x; cbn; [by rewrite orb_false_r | by rewrite IH, orb_assoc]. Qed.

Lemma forallb_map {A} (f : A -> bool) l : forallb (fun b => b) (map f l) = forallb f l.
Proof using. induction l as [| x l IH]; cbn; [done | by rewrite IH]. Qed.

Lemma existsb_map {A} (f : A -> bool) l : existsb (fun b => b) (map f l) = existsb f l.
Proof using. induction l as [| x l IH]; cbn; [done | by rewrite IH]. Qed.

Lemma eval_node_ok l n : named l -> node_ok l n.
Proof using RL Hi HU.
  intros Hl. induction n as [a | p | v | k d f | nodes IH | nodes IH | n IH | n1 n2 IH1 IH2] using connective_ind;
    intros cache Hon Ha Hc; try done.
  - cbn [eval_node node_holds]. apply cached_atom_ok; [done | apply Ha; by left | done].
  - rewrite eval_and. destruct (eval_nodes_ok l nodes IH cache Hon Ha Hc) as [Hs Hc']. split; [| done]. clear -Hs HU RL.
    cbn [fst node_holds]. destruct Hs as [| s n sets nodes Hs Hr]; [apply selects_universe |].
    cbn [reduce default from_option id]. pose proof (fold_selects _ andb _ _ selects_and Hr _ _ Hs) as H.
    eapply selects_ext; [| exact H]. intros r. cbv beta. by rewrite foldl_andb, forallb_map.
  - rewrite eval_or. destruct (eval_nodes_ok l nodes IH cache Hon Ha Hc) as [Hs Hc']. split; [| done]. clear -Hs HU RL.
    cbn [fst node_holds]. destruct Hs as [| s n sets nodes Hs Hr]; [apply selects_none |].
    cbn [reduce default from_option id]. pose proof (fold_selects _ orb _ _ selects_or Hr _ _ Hs) as H.
    eapply selects_ext; [| exact H]. intros r. cbv beta. by rewrite foldl_orb, existsb_map.
  - cbn [eval_node]. destruct (IH cache Hon Ha Hc) as [Hs Hc']. destruct (eval_node i U n cache) as [s c].
    split; [by apply selects_not | done].
  - cbn in Hon. apply andb_true_iff in Hon as [Hon1 Hon2]. cbn [eval_node].
    destruct (IH1 cache Hon1) as [H1 Hc1]; [intros a ?; apply Ha; cbn; apply elem_of_app; by left | done |].
    destruct (eval_node i U n1 cache) as [s1 c1].
    destruct (IH2 c1 Hon2) as [H2 Hc2]; [intros a ?; apply Ha; cbn; apply elem_of_app; by right | done |].
    destruct (eval_node i U n2 c1) as [s2 c2]. split; [| done]. cbn [fst node_holds].
    apply (selects_or _ _ (fun r => negb (node_holds n1 r))); [by apply selects_not | done].
Qed.

(** ** Lists of a selection *)

Definition universe_records : list InventorySymbol := omap (record i) (set_iter U).

Definition ordinal_satisfies (f : InventorySymbol -> bool) (o : N) : bool :=
  match record i o with Some r => f r | None => false end.

Lemma sorted_filter (p : N -> bool) (l : list N) : StronglySorted N.lt l -> StronglySorted N.lt (List.filter p l).
Proof using.
  induction 1 as [| x l Hl IH Hx]; cbn; [constructor |]. destruct (p x); [| done]. constructor; [done |].
  rewrite Forall_forall in *. intros y Hy. apply Hx. rewrite list_elem_of_In, filter_In in Hy. by apply list_elem_of_In, Hy.
Qed.

Lemma selects_iter s f : selects s f -> set_iter s = List.filter (ordinal_satisfies f) (set_iter U).
Proof using RL.
  intros Hs. apply sorted_lt_ext; [apply bm_iter_sorted | apply sorted_filter, bm_iter_sorted |].
  intros o. rewrite in_iter, list_elem_of_In, filter_In, <- list_elem_of_In, in_iter, Hs, andb_true_iff. done.
Qed.

Lemma selects_records s f : selects s f -> omap (record i) (set_iter s) = List.filter f universe_records.
Proof using RL.
  intros Hs. rewrite (selects_iter _ _ Hs). unfold universe_records, ordinal_satisfies.
  induction (set_iter U) as [| o l IH]; [done |]. cbn [List.filter omap list_omap].
  destruct (record i o) as [r |] eqn:Hr; [| done]. cbn [List.filter]. destruct (f r); [| done].
  cbn [omap list_omap]. rewrite Hr. by f_equal.
Qed.

Lemma selects_len s f : selects s f -> set_len s = N.of_nat (length (List.filter f universe_records)).
Proof using RL HU.
  intros Hs. rewrite <- (selects_records s f Hs). unfold set_len. rewrite bm_len_iter. f_equal.
  change (bm_iter s) with (set_iter s).
  assert (Forall (fun o => is_Some (record i o)) (set_iter s)) as H.
  { apply Forall_forall. intros o Ho. apply in_iter in Ho. rewrite Hs in Ho. apply andb_true_iff in Ho as [_ Ho].
    by destruct (record i o). }
  induction H as [| o l [r Hr] _ IH]; [done |]. cbn [omap list_omap length]. rewrite Hr. cbn. by rewrite IH.
Qed.

Lemma universe_len : set_len U = N.of_nat (length universe_records).
Proof using RL HU.
  rewrite (selects_len U (fun _ => true) selects_universe). do 2 f_equal.
  induction universe_records as [| r l IH]; cbn; [done | by rewrite IH].
Qed.

Lemma filter_split (f : InventorySymbol -> bool) l :
  length (List.filter f l) + length (List.filter (fun r => negb (f r)) l) = length l.
Proof using. induction l as [| r l IH]; cbn; [done |]. destruct (f r); cbn; lia. Qed.


(** ** One rule *)

Definition violated (rule : CompiledWorkspaceSymbolRule) (r : InventorySymbol) : bool :=
  negb (node_holds (sr_root rule) r).

Definition failing (rule : CompiledWorkspaceSymbolRule) : list InventorySymbol :=
  List.filter (violated rule) universe_records.

(** What a report counts: the records that satisfy the rule, for an implication
    those that satisfy its premise too. *)
Definition holding (rule : CompiledWorkspaceSymbolRule) (r : InventorySymbol) : bool :=
  match sr_root rule with
  | Implies premise _ => node_holds (sr_root rule) r && node_holds premise r
  | root => node_holds root r
  end.

Definition covered_by_premise (rule : CompiledWorkspaceSymbolRule) : option (InventorySymbol -> bool) :=
  match sr_root rule with Implies premise _ => Some (node_holds premise) | _ => None end.

Definition count (f : InventorySymbol -> bool) : nat := length (List.filter f universe_records).

Definition expected_report (rule : CompiledWorkspaceSymbolRule) : WorkspaceReport :=
  mk_workspace_report
    (Check.mk_report (sr_rule_id rule) (sr_severity rule) (bs "workspace symbols")
       (length universe_records) (count (holding rule)) (count (violated rule))
       (count <$> covered_by_premise rule) None None)
    None None None.

Definition rule_ready (l : list Atom) (rule : CompiledWorkspaceSymbolRule) : Prop :=
  on_inventory (sr_root rule) = true /\ forall a, a ∈ atoms (sr_root rule) -> a ∈ l.

Lemma selects_double s n : selects s (node_holds n) -> selects s (fun r => negb (node_holds (Not n) r)).
Proof using. apply selects_ext. intros r. cbn. by rewrite negb_involutive. Qed.

Lemma selects_inside s f : selects s f -> selects (set_intersection s U) f.
Proof using RL.
  intros Hs o. rewrite contains_intersection, Hs.
  by destruct (set_contains U o); rewrite ?andb_true_r, ?andb_false_r.
Qed.

Lemma rule_outcome_ok l rule cache :
  named l -> rule_ready l rule -> cache_ok l cache ->
  let '(truth, violations, cache') := rule_outcome i U (sr_root rule) cache in
  selects violations (violated rule) /\ cache_ok l cache' /\
  match truth with
  | Some truth => selects truth (node_holds (sr_root rule)) /\ forall n, sr_root rule <> Not n
  | None => exists n, sr_root rule = Not n
  end.
Proof using RL Hi HU.
  intros Hl [Hon Ha] Hc. unfold rule_outcome, violated.
  destruct (sr_root rule) as [a | nodes | nodes | n | n1 n2 | p | v | k d f] eqn:Hroot; try done.
  4: { destruct (eval_node_ok l n Hl cache Hon Ha Hc) as [Hs Hc']. destruct (eval_node i U n cache) as [s c].
       split_and!; [by apply selects_inside, selects_double | done | by exists n]. }
  all: rewrite <- Hroot in *; destruct (eval_node_ok l (sr_root rule) Hl cache Hon Ha Hc) as [Hs Hc'];
    destruct (eval_node i U (sr_root rule) cache) as [s c];
    (split_and!; [by apply selects_not | done | done | by rewrite Hroot]).
Qed.

Lemma antecedent_ok l rule cache :
  named l -> rule_ready l rule -> cache_ok l cache ->
  let '(antecedent, cache') := antecedent_truth i U (sr_root rule) cache in
  cache_ok l cache' /\
  match antecedent, covered_by_premise rule with
  | Some s, Some f => selects s f
  | None, None => True
  | _, _ => False
  end.
Proof using RL Hi HU.
  intros Hl [Hon Ha] Hc. unfold antecedent_truth, covered_by_premise.
  destruct (sr_root rule) as [| | | | n1 n2 | | |] eqn:Hroot; try done.
  cbn in Hon. apply andb_true_iff in Hon as [Hon _].
  destruct (eval_node_ok l n1 Hl cache Hon) as [Hs Hc'];
    [intros a ?; apply Ha; cbn; apply elem_of_app; by left | done |].
  by destruct (eval_node i U n1 cache) as [s c].
Qed.

Lemma match_count_ok rule antecedent truth violations :
  selects violations (violated rule) ->
  match truth with
  | Some truth => selects truth (node_holds (sr_root rule)) /\ forall n, sr_root rule <> Not n
  | None => exists n, sr_root rule = Not n
  end ->
  match antecedent, covered_by_premise rule with
  | Some s, Some f => selects s f | None, None => True | _, _ => False
  end ->
  match_count U antecedent truth violations = N.of_nat (count (holding rule)).
Proof using RL HU.
  intros Hv Ht Ha. unfold match_count. destruct truth as [truth |].
  - destruct Ht as [Ht Hnot]. unfold covered_by_premise, holding in *.
    destruct antecedent as [s |], (sr_root rule) as [| | | | n1 n2 | | |] eqn:Hroot; try done;
      try (by apply selects_len). by apply selects_len, selects_and.
  - destruct Ht as [n Hn]. unfold covered_by_premise, holding in *. rewrite Hn in *.
    destruct antecedent; [done |]. unfold usize_sub.
    rewrite universe_len, (selects_len _ _ Hv), <- (filter_split (node_holds (Not n)) universe_records).
    unfold violated, count. rewrite Hn.
    change (fun r => node_holds (Not n) r) with (node_holds (Not n)).
    rewrite (proj2 (N.leb_le _ _)) by lia. lia.
Qed.

Lemma filter_implication (p f : InventorySymbol -> bool) l :
  length (List.filter (fun r => (negb (p r) || f r) && p r) l) +
    length (List.filter (fun r => negb (negb (p r) || f r)) l) = length (List.filter p l).
Proof using. induction l as [| r l IH]; cbn; [done |]. destruct (p r), (f r); cbn; lia. Qed.

Lemma accounted rule :
  match count <$> covered_by_premise rule with
  | None => count (holding rule) + count (violated rule) = length universe_records
  | Some premise => count (holding rule) + count (violated rule) = premise /\ premise <= length universe_records
  end.
Proof using.
  unfold count, violated, holding, covered_by_premise.
  destruct (sr_root rule) as [| | | | n1 n2 | | |]; cbn [fmap option_fmap option_map]; try apply filter_split.
  split; [apply filter_implication | apply filter_length_le].
Qed.

(** What one turn of the loop adds. *)
Definition step_result (report : bool) (rule : CompiledWorkspaceSymbolRule) (violations : SymbolSet)
    (e : WorkspaceEvaluation) : WorkspaceEvaluation :=
  let e := insert_violation_set (sr_rule_id rule) violations e in
  let e := if report then push_report (expected_report rule) e else e in
  push_violations (symbol_violation (bs "workspace assertion") rule <$> failing rule) e.

Lemma evaluate_symbol_rule_ok l report rule e cache :
  named l -> rule_ready l rule -> cache_ok l cache -> sr_plan rule = PlanInventory ->
  exists violations cache', selects violations (violated rule) /\ cache_ok l cache' /\
    evaluate_symbol_rule i U report (e, cache) rule = (step_result report rule violations e, cache').
Proof using RL Hi HU.
  intros Hl Hr Hc Hp. unfold evaluate_symbol_rule. rewrite bool_decide_true by done. cbn [negb].
  pose proof (rule_outcome_ok l rule cache Hl Hr Hc) as Ho.
  destruct (rule_outcome i U (sr_root rule) cache) as [[truth violations] c1]. destruct Ho as (Hv & Hc1 & Ht).
  exists violations. unfold step_result, symbol_violations, failing.
  rewrite (selects_records _ _ Hv). destruct report; [| by exists c1].
  pose proof (antecedent_ok l rule c1 Hl Hr Hc1) as Ha.
  destruct (antecedent_truth i U (sr_root rule) c1) as [antecedent c2]. destruct Ha as [Hc2 Ha].
  exists c2. split_and!; [done.. |]. do 3 f_equal. unfold rule_report, expected_report.
  rewrite (match_count_ok rule antecedent truth violations Hv Ht Ha), (selects_len _ _ Hv), universe_len, !Nat2N.id.
  do 2 f_equal. destruct antecedent as [s |], (covered_by_premise rule) as [f |]; try done.
  cbn. by rewrite (selects_len _ _ Ha), Nat2N.id.
Qed.

Lemma other_plan_skipped report rule acc :
  sr_plan rule <> PlanInventory -> evaluate_symbol_rule i U report acc rule = acc.
Proof using. intros H. destruct acc as [e c]. unfold evaluate_symbol_rule. by rewrite bool_decide_false. Qed.

Definition inventory_rules (rules : list CompiledWorkspaceSymbolRule) : list CompiledWorkspaceSymbolRule :=
  List.filter (fun rule => bool_decide (sr_plan rule = PlanInventory)) rules.

(** The loop, from any state. *)
Lemma evaluate_symbol_rules_ok l report rules : named l -> Forall (rule_ready l) (inventory_rules rules) ->
  forall e cache, cache_ok l cache ->
  exists e' cache', evaluate_symbol_rules i U report rules (e, cache) = (e', cache') /\ cache_ok l cache' /\
    we_violations e' = we_violations e ++
      concat (map (fun rule => symbol_violation (bs "workspace assertion") rule <$> failing rule) (inventory_rules rules)) /\
    groups e' = groups e /\
    reports e' = reports e ++ (if report then map expected_report (inventory_rules rules) else []) /\
    (forall rid, rid ∉ map sr_rule_id (inventory_rules rules) -> violation_sets e' !! rid = violation_sets e !! rid) /\
    (NoDup (map sr_rule_id (inventory_rules rules)) -> forall rule, rule ∈ inventory_rules rules ->
       exists s, violation_sets e' !! sr_rule_id rule = Some s /\ selects s (violated rule)).
Proof using RL Hi HU.
  intros Hl. unfold evaluate_symbol_rules. induction rules as [| rule rules IH]; intros Hr e cache Hc; cbn [foldl].
  - exists e, cache. cbn. rewrite !app_nil_r. split_and!; try done; [by destruct report; rewrite app_nil_r |].
    intros _ rule H. by apply not_elem_of_nil in H.
  - unfold inventory_rules in *. cbn [List.filter] in *. destruct (bool_decide (sr_plan rule = PlanInventory)) eqn:Hp; cycle 1.
    { apply bool_decide_eq_false in Hp. rewrite other_plan_skipped by done. by apply IH. }
    apply bool_decide_eq_true in Hp. apply Forall_cons in Hr as [Hr1 Hr].
    destruct (evaluate_symbol_rule_ok l report rule e cache Hl Hr1 Hc Hp) as (v & c1 & Hv & Hc1 & ->).
    destruct (IH Hr (step_result report rule v e) c1 Hc1) as (e' & c' & -> & Hc' & H1 & H2 & H3 & H4 & H5).
    exists e', c'. cbn [map concat]. split_and!; [done | done | | | | |].
    + rewrite H1. unfold step_result. destruct report; cbn; by rewrite <- app_assoc.
    + rewrite H2. by destruct report.
    + rewrite H3. destruct report; cbn; [by rewrite <- app_assoc | done].
    + intros rid Hn. apply not_elem_of_cons in Hn as [Hne Hn]. rewrite H4 by done.
      unfold step_result. destruct report; cbn; by rewrite lookup_insert_ne.
    + intros [Hnot Hnd]%NoDup_cons r [-> | Hin]%elem_of_cons; [| by apply H5].
      exists v. split; [| done]. rewrite H4 by done. unfold step_result. destruct report; cbn; by rewrite lookup_insert_eq.
Qed.

End sets.

(** ** The rules that the inventory answers *)

Section compiled.
Context {R : Roaring} {RE : RegexEngine}.

Lemma collect_on_inventory n at_ : forall acc acc',
  collect_capabilities n at_ acc = Ok acc' -> on_inventory n = true.
Proof using.
  assert (forall nodes, Forall (fun n => forall acc acc', collect_capabilities n at_ acc = Ok acc' ->
      on_inventory n = true) nodes -> forall acc acc',
    (fix all (l : list Node) (acc : gset bytes * WorkspaceRulePlan) : res ConfigData.ConfigError _ :=
       match l with [] => mret acc | n :: l => acc ← collect_capabilities n at_ acc; all l acc end) nodes acc
      = Ok acc' -> forallb on_inventory nodes = true) as Hall.
  { induction 1 as [| m nodes Hn _ IH]; intros acc acc' H; [done |]. cbn in H.
    destruct (collect_capabilities m at_ acc) as [acc1 | | |] eqn:H1; try done. cbn in H.
    cbn. rewrite (Hn _ _ H1). cbn. by eapply IH. }
  induction n as [a | p | v | k d f | nodes IH | nodes IH | n IH | n1 n2 IH1 IH2] using connective_ind;
    intros acc acc' H; try done.
  - by eapply Hall.
  - by eapply Hall.
  - by eapply IH.
  - cbn in H. destruct (collect_capabilities n1 at_ acc) as [acc1 | | |] eqn:H1; try done. cbn in H.
    cbn. rewrite (IH1 _ _ H1). cbn. by eapply IH2.
Qed.

Lemma classified_on_inventory n at_ capabilities :
  classify_symbol_plan n at_ = Ok (capabilities, PlanInventory) -> on_inventory n = true.
Proof using.
  unfold classify_symbol_plan. destruct (collect_capabilities n at_ _) as [[c plan] | | |] eqn:H; try done.
  - intros _. by eapply collect_on_inventory.
  - by destruct (Indexed.Indexed.validate n).
Qed.

(** The rules that compilation yields. *)
Definition compiled (rule : CompiledWorkspaceSymbolRule) : Prop :=
  exists entry at_ scheme kinds aliases, compile_symbol_rule entry at_ scheme kinds aliases = Ok rule.

Lemma compiled_on_inventory rule :
  compiled rule -> sr_plan rule = PlanInventory -> on_inventory (sr_root rule) = true.
Proof using.
  intros (entry & at_ & scheme & kinds & aliases & H) Hp. unfold compile_symbol_rule in H.
  destruct (Aliases.substitute_aliases _ _ _) as [expanded | | |]; cbn [mbind res_bind mret res_ret map_err] in H; try done.
  destruct (DslParse.DslParse.parse expanded scheme kinds) as [root | | |]; cbn [mbind res_bind mret res_ret map_err] in H; try done.
  destruct (classify_symbol_plan root at_) as [[caps plan] | | |] eqn:Hc; cbn [mbind res_bind mret res_ret map_err] in H; try done.
  injection H as <-. cbn in Hp |- *. subst plan. by eapply classified_on_inventory.
Qed.

(** The atoms of the rules that the inventory answers. *)
Definition rule_atoms (rules : list CompiledWorkspaceSymbolRule) : list Atom :=
  concat (map (fun rule => atoms (sr_root rule)) (inventory_rules rules)).

Lemma compiled_ready rules : Forall compiled rules ->
  Forall (rule_ready (rule_atoms rules)) (inventory_rules rules).
Proof using.
  intros Hc. apply Forall_forall. intros rule Hin. split.
  - unfold inventory_rules in Hin. apply list_elem_of_In, filter_In in Hin as [Hin Hp].
    apply bool_decide_eq_true in Hp. rewrite Forall_forall in Hc.
    apply compiled_on_inventory; [apply Hc; by apply list_elem_of_In | done].
  - intros a Ha. unfold rule_atoms. apply list_elem_of_In, in_concat. exists (atoms (sr_root rule)).
    split; [apply in_map_iff; exists rule; split; [done | by apply list_elem_of_In] | by apply list_elem_of_In].
Qed.
End compiled.
End SymbolRuleFacts.

Module SymbolRuleTheorems.
Import Ast EvalCore Snapshot Inventory InventoryInv InventoryStep WorkspaceRules SymbolRuleFacts.

Section theorems.
Context {R : Roaring} {RL : RoaringLaws R} {FX : FxHash} {RE : RegexEngine} {HO : HashOrder}.

(** C5: the rules on symbols that the inventory answers are evaluated exactly: over a
    coherent inventory and a universe of its symbols, the violations are, rule by
    rule and in the order of the ordinals, those of the records that do not satisfy
    the rule read on the record alone, and the set kept for a rule holds exactly
    those ordinals; neither the posting lists, nor the candidates of a path pattern,
    nor the cache of atoms that the rules share make a difference. *)
Theorem symbol_rules_exact i U report rules (Hi : coherent i) (HU : covered i U)
    (Hc : Forall compiled rules) (Hn : named (rule_atoms rules)) :
  let e := fst (evaluate_symbol_rules i U report rules (evaluation_default, ∅)) in
  we_violations e =
    concat (map (fun rule => symbol_violation (bs "workspace assertion") rule <$>
                   List.filter (fun r => negb (node_holds (sr_root rule) r)) (universe_records i U))
              (inventory_rules rules)) /\
  (NoDup (map sr_rule_id (inventory_rules rules)) -> forall rule, rule ∈ inventory_rules rules ->
     exists s, violation_sets e !! sr_rule_id rule = Some s /\
       forall o, set_contains s o = true <->
         set_contains U o = true /\ exists r, record i o = Some r /\ node_holds (sr_root rule) r = false).
Proof using RL.
  cbv zeta. destruct (evaluate_symbol_rules_ok i U Hi HU (rule_atoms rules) report rules Hn
    (compiled_ready rules Hc) evaluation_default ∅ (cache_empty i U _)) as (e & c & -> & _ & Hv & _ & _ & _ & Hs).
  split; [exact Hv |]. intros Hnd rule Hin. destruct (Hs Hnd rule Hin) as (s & Hl & Hsel).
  exists s. split; [exact Hl |]. intros o. rewrite Hsel, andb_true_iff. unfold violated.
  destruct (record i o) as [r |].
  - rewrite negb_true_iff. split; [intros [? ?]; split; [done | by exists r] |].
    by intros (? & r' & [= <-] & ?).
  - split; [by intros [_ ?] | by intros (_ & r & ? & _)].
Qed.

(** The reports of the rules on symbols account for the universe: for a rule that
    is not an implication the matches are the records that satisfy it, and matches
    and violations add up to the symbols evaluated; for an implication the matches
    also satisfy the premise, and matches and violations add up to the records that
    satisfy the premise; the subtraction in the count of matches never wraps. *)
Theorem symbol_reports_account i U rules (Hi : coherent i) (HU : covered i U)
    (Hc : Forall compiled rules) (Hn : named (rule_atoms rules)) :
  let e := fst (evaluate_symbol_rules i U true rules (evaluation_default, ∅)) in
  reports e = map (expected_report i U) (inventory_rules rules) /\
  Forall (fun r : WorkspaceReport =>
    let b := base r in
    Check.evaluated b = N.to_nat (set_len U) /\
    match Check.antecedent_matches b with
    | None => Check.matches b + Check.violations b = Check.evaluated b
    | Some premise => Check.matches b + Check.violations b = premise /\ premise <= Check.evaluated b
    end) (reports e).
Proof using RL.
  cbv zeta. destruct (evaluate_symbol_rules_ok i U Hi HU (rule_atoms rules) true rules Hn
    (compiled_ready rules Hc) evaluation_default ∅ (cache_empty i U _)) as (e & c & -> & _ & _ & _ & Hr & _ & _).
  split; [exact Hr |]. cbn [fst]. rewrite Hr. cbn [reports evaluation_default app].
  apply Forall_forall. intros r Hin. apply list_elem_of_In, in_map_iff in Hin as (rule & <- & _).
  unfold expected_report. cbn. split; [by rewrite (universe_len i U HU), Nat2N.id |].
  apply accounted.
Qed.

End theorems.

(** ** Concrete rules *)

Import CheckFacts InventoryTheorems.
#[local] Existing Instances GsetRoaring.gset_roaring GsetRoaring.gset_roaring_laws one_hash Sample.plain_order.

Definition sample_entry (name text : string) : ConfigData.RuleEntry :=
  ConfigData.mk_entry (Some (bs name)) (bs text) Suppress.Report.Warn (Some (bs "{kind} {name}")) None None.

Definition sample_compile (name text : string) : res ConfigData.ConfigError CompiledWorkspaceSymbolRule :=
  compile_symbol_rule (sample_entry name text) (bs "workspace.symbol." ++ bs name) (bs "code+moniker://")
    Config.allowed_workspace_kinds ∅.

Definition sample_rules : list CompiledWorkspaceSymbolRule :=
  match sample_compile "named" "visibility = 'public' => name = 'Shop' OR name =~ Us",
        sample_compile "placed" "NOT uri ~ '**/class:Shop/**'" with
  | Ok a, Ok b => [a; b]
  | _, _ => []
  end.

Lemma both_compiled (x y : res ConfigData.ConfigError CompiledWorkspaceSymbolRule) :
  (forall a, x = Ok a -> compiled a) -> (forall b, y = Ok b -> compiled b) ->
  Forall compiled (match x, y with Ok a, Ok b => [a; b] | _, _ => [] end).
Proof.
  intros Hx Hy. destruct x as [a | | |]; try apply Forall_nil_2. destruct y as [b | | |]; try apply Forall_nil_2.
  apply Forall_cons_2; [by apply Hx |]. apply Forall_cons_2; [by apply Hy | apply Forall_nil_2].
Qed.

Lemma sample_compiled : Forall compiled sample_rules.
Proof. apply both_compiled; intros a Ha; eexists _, _, _, _, _; exact Ha. Qed.

Lemma sample_named : named (rule_atoms sample_rules).
Proof. apply named_nodup. vm_compute. reflexivity. Qed.

Lemma sample_coherent : coherent sample_index.
Proof. exact (proj1 (proj1 (InventoryFacts.RefreshFacts.reached_holds _ _ _ sample_reached))). Qed.

Lemma all_covered i {FX : FxHash} : coherent i -> covered i (all_symbols i).
Proof. intros Hi o Ho. by apply (co_all i Hi). Qed.

Lemma symbol_rules_exact_witness :
  length sample_rules = 2 /\ coherent sample_index /\ covered sample_index (all_symbols sample_index) /\
  Forall compiled sample_rules /\ named (rule_atoms sample_rules) /\
  we_violations (fst (evaluate_symbol_rules sample_index (all_symbols sample_index) true sample_rules
                        (evaluation_default, ∅))) =
    concat (map (fun rule => symbol_violation (bs "workspace assertion") rule <$>
                   List.filter (fun r => negb (node_holds (sr_root rule) r))
                     (universe_records sample_index (all_symbols sample_index)))
              (inventory_rules sample_rules)).
Proof.
  split; [vm_compute; reflexivity |]. split; [exact sample_coherent |].
  split; [exact (all_covered _ sample_coherent) |]. split; [exact sample_compiled |]. split; [exact sample_named |].
  exact (proj1 (symbol_rules_exact sample_index (all_symbols sample_index) true sample_rules sample_coherent
    (all_covered _ sample_coherent) sample_compiled sample_named)).
Defined.

Lemma symbol_reports_account_witness :
  reports (fst (evaluate_symbol_rules sample_index (all_symbols sample_index) true sample_rules
                  (evaluation_default, ∅))) =
    map (expected_report sample_index (all_symbols sample_index)) (inventory_rules sample_rules) /\
  map (fun r => (Check.matches (base r), Check.violations (base r)))
    (map (expected_report sample_index (all_symbols sample_index)) (inventory_rules sample_rules)) =
    [(2, 1); (1, 2)].
Proof.
  split; [| vm_compute; reflexivity].
  exact (proj1 (symbol_reports_account sample_index (all_symbols sample_index) sample_rules sample_coherent
    (all_covered _ sample_coherent) sample_compiled sample_named)).
Defined.

End SymbolRuleTheorems.
