(* ===== verification/GroupFacts.v ===== *)
(** Rules on the groups of a workspace: predicates compute Kleene's logic over
    the statistics that may be unavailable, keys name their buckets, and buckets
    partition the selected symbols. *)

From S2P Require Import Prelude.
From S2P Require Import RustStr.
From S2P Require Import Path.
From S2P Require Import DslAst.
From S2P Require Import Suppress.
From S2P Require Import EvalMetrics.
From S2P Require Import EvalFacts.
From S2P Require Import ConfigData.
From S2P Require Import Config.
From S2P Require Import Check.
From S2P Require Import CheckFacts.
From S2P Require Import Bitmap.
From S2P Require Import Snapshot.
From S2P Require Import Inventory.
From S2P Require Import InventoryInv.
From S2P Require Import InventoryTheorems.
From S2P Require Import PathSets.
From S2P Require Import WorkspaceRules.
From S2P Require Import GroupRules.
From S2P Require Import SymbolRuleFacts.

Module GroupFacts.
Import Ast Snapshot Inventory PathSets WorkspaceRules GroupPredicates GroupRules.

(** ** Kleene's connectives; an empty disjunction is false *)

Definition kand (a b : option bool) : option bool :=
  match a, b with
  | Some false, _ | _, Some false => Some false
  | Some true, Some true => Some true
  | _, _ => None
  end.

Definition kor (a b : option bool) : option bool :=
  match a, b with
  | Some true, _ | _, Some true => Some true
  | Some false, Some false => Some false
  | _, _ => None
  end.

Definition knot (a : option bool) : option bool := negb <$> a.

Definition kall (l : list (option bool)) : option bool := foldr kand (Some true) l.
Definition kany (l : list (option bool)) : option bool := foldr kor (Some false) l.

Lemma kand_comm a b : kand a b = kand b a.
Proof. by destruct a as [[] |], b as [[] |]. Qed.

Lemma kand_assoc a b c : kand a (kand b c) = kand (kand a b) c.
Proof. by destruct a as [[] |], b as [[] |], c as [[] |]. Qed.

Lemma kor_comm a b : kor a b = kor b a.
Proof. by destruct a as [[] |], b as [[] |]. Qed.

Lemma kor_assoc a b c : kor a (kor b c) = kor (kor a b) c.
Proof. by destruct a as [[] |], b as [[] |], c as [[] |]. Qed.

#[export] Instance kall_permutation : Proper ((≡ₚ) ==> eq) kall.
Proof.
  intros l k H. unfold kall. induction H as [| x l k _ IH | x y l | l k m _ IH1 _ IH2]; cbn [foldr]; [done | by rewrite IH | |].
  - by rewrite !kand_assoc, (kand_comm y).
  - by rewrite IH1.
Qed.

#[export] Instance kany_permutation : Proper ((≡ₚ) ==> eq) kany.
Proof.
  intros l k H. unfold kany. induction H as [| x l k _ IH | x y l | l k m _ IH1 _ IH2]; cbn [foldr]; [done | by rewrite IH | |].
  - by rewrite !kor_assoc, (kor_comm y).
  - by rewrite IH1.
Qed.

(** The value of a predicate, given that of each comparison. *)
Fixpoint truth (leaf : GroupNumberExpr -> Op.t -> f64 -> option bool) (p : GroupPredicate) : option bool :=
  match p with
  | GCompare e op limit => leaf e op limit
  | GAnd l => kall (map (truth leaf) l)
  | GOr l => kany (map (truth leaf) l)
  | GNot p => knot (truth leaf p)
  | GImplies a c => kor (knot (truth leaf a)) (truth leaf c)
  end.

(** The predicates without the aggregates that interpolate between two ranks. *)
Definition number_steady (e : GroupNumberExpr) : bool :=
  match e with MemberCount => true | LineAggregate kind _ => negb (EvalFacts.interpolates kind) end.

Fixpoint steady (p : GroupPredicate) : bool :=
  match p with
  | GCompare e _ _ => number_steady e
  | GAnd l | GOr l => forallb steady l
  | GNot p => steady p
  | GImplies a c => steady a && steady c
  end.

(** ** Outcomes *)

Definition outcome_value (o : GroupPredicateOutcome) : option bool :=
  match o_error o with Some _ => None | None => Some (o_passed o) end.

(** An unavailable statistic never passes. *)
Definition fail_closed (o : GroupPredicateOutcome) : Prop := o_error o <> None -> o_passed o = false.

Section predicate.
Context {R : Roaring} {RL : RoaringLaws R}.
Context (inventory : SymbolInventoryIndex) (members : SymbolSet).
Abbreviation M := (res Empty_set).

Definition gives (m : M GroupPredicateOutcome) (v : option bool) : Prop :=
  exists o, m = Ok o /\ outcome_value o = v /\ fail_closed o.

(** The value of a comparison: that of the number, when there is one. *)
Definition comparison_value (e : GroupNumberExpr) (op : Op.t) (limit : f64) : option bool :=
  match evaluate_number inventory members e with
  | Ok n => match n_error n with
            | Some _ => None
            | None => (fun x => compare_numbers x op limit) <$> n_value n
            end
  | _ => None
  end.

Lemma aggregate_total kind values percentile :
  EvalFacts.interpolates kind = false -> exists v, Stats.aggregate (E:=Empty_set) kind values percentile = Ok v.
Proof. destruct kind; try done; intros _; eexists; reflexivity. Qed.

Lemma evaluate_number_total e : number_steady e = true ->
  exists n, evaluate_number inventory members e = Ok n /\ (n_error n = None <-> is_Some (n_value n)).
Proof.
  destruct e as [| kind percentile]; intros H.
  - eexists. split; [reflexivity |]. by split.
  - cbn in H. apply negb_true_iff in H. unfold evaluate_number.
    destruct (negb (length (line_values inventory members) =? N.to_nat (set_len members))).
    { eexists. split; [reflexivity |]. cbn. split; [done | by intros [? ?]]. }
    destruct (aggregate_total kind (line_values inventory members) percentile H) as [[v |] ->];
      (eexists; split; [reflexivity |]; cbn; split; [done | by try intros [? ?]]).
Qed.

Lemma compare_gives e op limit : number_steady e = true ->
  gives (compare inventory members e op limit) (comparison_value e op limit).
Proof.
  intros H. destruct (evaluate_number_total e H) as (n & Hn & Hv). unfold gives, compare, comparison_value.
  rewrite Hn. eexists. split; [reflexivity |]. unfold outcome_value, fail_closed. cbn.
  destruct (n_error n) as [err |].
  - split; [done |]. intros _. destruct (n_value n); [| done]. by discriminate (proj2 Hv (mk_is_Some _ _ eq_refl)).
  - destruct (proj1 Hv eq_refl) as [x ->]. by split.
Qed.

(** The loop of [evaluate_sequence] on operands that give values. *)
Lemma sequence_gives (eval : GroupPredicate -> M GroupPredicateOutcome) (value : GroupPredicate -> option bool) any l :
  Forall (fun p => gives (eval p) (value p)) l -> forall obs pending,
  gives (evaluate_sequence eval any l obs pending)
    (let folded := if any then kany (map value l) else kall (map value l) in
     match pending with
     | None => folded
     | Some _ => if any then kor None folded else kand None folded
     end).
Proof.
  induction 1 as [| p l (o & Ho & Hv & Hf) _ IH]; intros obs pending; cbn [evaluate_sequence map].
  - eexists. split; [reflexivity |]. unfold outcome_value, fail_closed. by destruct pending, any.
  - rewrite Ho, ret_bind. cbn [kall kany foldr]. fold (kall (map value l)) (kany (map value l)).
    rewrite <- Hv. unfold outcome_value. destruct (o_error o) as [err |] eqn:He.
    + specialize (IH (obs ++ o_observations o) (Some (match pending with Some f => f | None => err end))).
      cbv zeta in IH |- *. destruct IH as (o' & Ho' & Hv' & Hf'). exists o'. split; [done |]. split; [| done].
      rewrite Hv'. destruct any, pending, (kany (map value l)) as [[] |], (kall (map value l)) as [[] |]; done.
    + destruct (Bool.eqb (o_passed o) any) eqn:Hp.
      * apply eqb_prop in Hp. rewrite Hp. eexists. split; [reflexivity |]. unfold outcome_value, fail_closed.
        cbn. by destruct any, pending, (kany (map value l)) as [[] |], (kall (map value l)) as [[] |].
      * specialize (IH (obs ++ o_observations o) pending). cbv zeta in IH |- *.
        destruct IH as (o' & Ho' & Hv' & Hf'). exists o'. split; [done |]. split; [| done]. rewrite Hv'.
        destruct any, (o_passed o), pending, (kany (map value l)) as [[] |], (kall (map value l)) as [[] |]; done.
Qed.

Lemma not_gives m v : gives m v -> gives (outcome ← m; mret (evaluate_not outcome)) (knot v).
Proof.
  intros (o & -> & <- & Hf). eexists. split; [reflexivity |]. unfold evaluate_not, outcome_value, fail_closed in *.
  destruct (o_error o) eqn:He; cbn; [| done]. rewrite He. split; [done |]. intros _. by apply Hf.
Qed.

Lemma implies_gives m m' v v' : gives m v -> gives m' v' ->
  gives (a ← m; evaluate_implies a m') (kor (knot v) v').
Proof.
  intros (o & -> & <- & Hf) (o' & -> & <- & Hf'). rewrite ret_bind. unfold evaluate_implies, outcome_value, fail_closed in *.
  destruct (o_error o) as [err |] eqn:He.
  - rewrite ret_bind. destruct (o_error o') as [err' |] eqn:He'; cbn.
    + eexists. split; [reflexivity |]. cbn. rewrite ?He. split; [done |]. intros _. by apply Hf.
    + destruct (o_passed o') eqn:Hp; (eexists; split; [reflexivity |]); unfold outcome_value, fail_closed; cbn;
        rewrite ?He; (split; [done |]); (done || (intros _; by apply Hf)).
  - destruct (o_passed o) eqn:Hp; cbn [negb].
    + rewrite ret_bind. eexists. split; [reflexivity |]. unfold outcome_value, fail_closed. cbn. split; [| exact Hf'].
      by destruct (o_error o'), (o_passed o').
    + eexists. split; [reflexivity |]. unfold outcome_value, fail_closed. cbn. split; [| done].
      by destruct (o_error o'), (o_passed o').
Qed.

Lemma forallb_Forall' {A} (f : A -> bool) l : forallb f l = true -> Forall (fun x => f x = true) l.
Proof. induction l as [| x l IH]; intros H; constructor; cbn in H; apply andb_true_iff in H as [? ?]; auto. Qed.

(** Induction on predicates, through their lists. *)
Fixpoint predicate_ind' (P : GroupPredicate -> Prop)
    (Hc : forall e op limit, P (GCompare e op limit)) (Ha : forall l, Forall P l -> P (GAnd l))
    (Ho : forall l, Forall P l -> P (GOr l)) (Hn : forall p, P p -> P (GNot p))
    (Hi : forall a c, P a -> P c -> P (GImplies a c)) (p : GroupPredicate) : P p :=
  let fix go (l : list GroupPredicate) : Forall P l :=
    match l with
    | [] => Forall_nil_2 P
    | p :: l => Forall_cons_2 P p l (predicate_ind' P Hc Ha Ho Hn Hi p) (go l)
    end in
  match p with
  | GCompare e op limit => Hc e op limit
  | GAnd l => Ha l (go l)
  | GOr l => Ho l (go l)
  | GNot p => Hn p (predicate_ind' P Hc Ha Ho Hn Hi p)
  | GImplies a c => Hi a c (predicate_ind' P Hc Ha Ho Hn Hi a) (predicate_ind' P Hc Ha Ho Hn Hi c)
  end.

Lemma operands_give l :
  Forall (fun p => steady p = true -> gives (evaluate inventory members p) (truth comparison_value p)) l ->
  forallb steady l = true ->
  Forall (fun p => gives (evaluate inventory members p) (truth comparison_value p)) l.
Proof.
  intros H Hs. apply forallb_Forall' in Hs. induction H as [| p l Hp _ IH]; [constructor |].
  apply Forall_cons in Hs as [? ?]. constructor; auto.
Qed.

Lemma evaluate_gives p : steady p = true -> gives (evaluate inventory members p) (truth comparison_value p).
Proof.
  induction p as [e op limit | l IH | l IH | p IH | a c IHa IHc] using predicate_ind'; intros Hs; cbn in Hs.
  - by apply compare_gives.
  - apply (sequence_gives _ _ false l (operands_give l IH Hs) [] None).
  - apply (sequence_gives _ _ true l (operands_give l IH Hs) [] None).
  - by apply not_gives, IH.
  - apply andb_true_iff in Hs as [Ha Hc]. apply implies_gives; auto.
Qed.
End predicate.

(** Elements of related lists have their relatives. *)
Lemma related_l {A B} (P : A -> B -> Prop) l k x : Forall2 P l k -> x ∈ l -> exists y, y ∈ k /\ P x y.
Proof.
  intros H Hin. induction H as [| a b l k Hab _ IH]; [by apply not_elem_of_nil in Hin |].
  apply elem_of_cons in Hin as [-> | Hin]; [exists b; split; [by left | done] |].
  destruct (IH Hin) as (y & ? & ?). exists y. split; [by right | done].
Qed.

Lemma related_r {A B} (P : A -> B -> Prop) l k y : Forall2 P l k -> y ∈ k -> exists x, x ∈ l /\ P x y.
Proof. intros H Hin. apply Forall2_flip in H. exact (related_l _ _ _ _ H Hin). Qed.

(** ** Keys *)

Lemma pretty_digits x : forall s, Forall (fun b => is_ascii_digit b = true) (bs s) ->
  Forall (fun b => is_ascii_digit b = true) (bs (pretty_N_go x s)).
Proof.
  induction (N.lt_wf_0 x) as [x _ IH]. intros s Hs.
  destruct (decide (x = 0)%N) as [-> | Hne]; [done |].
  rewrite pretty_N_go_step by lia. apply IH; [apply N.div_lt; lia |].
  unfold bs. cbn [String.list_ascii_of_string]. constructor; [| exact Hs].
  pose proof (SnapshotFacts.digit_value_char (x `mod` 10) (N.mod_lt x 10 ltac:(done))) as H.
  unfold digit_value in H. by destruct (is_ascii_digit (pretty_N_char (x `mod` 10))).
Qed.

Lemma show_nat_digits n : Forall (fun b => is_ascii_digit b = true) (show_nat n).
Proof.
  unfold show_nat. change (pretty (N.of_nat n)) with (pretty_N (N.of_nat n)). unfold pretty_N.
  destruct (decide _); [by repeat constructor | apply pretty_digits; constructor].
Qed.

Lemma show_nat_inj n m : show_nat n = show_nat m -> n = m.
Proof.
  unfold show_nat, bs. intros H. apply (f_equal String.string_of_list_ascii) in H.
  rewrite !String.string_of_list_ascii_of_string in H. apply (inj pretty) in H. lia.
Qed.

(** Digits up to a colon: the number and the rest. *)
Lemma digits_cut (c : ascii) (d d' a b : bytes) :
  is_ascii_digit c = false -> Forall (fun x => is_ascii_digit x = true) d ->
  Forall (fun x => is_ascii_digit x = true) d' -> d ++ c :: a = d' ++ c :: b -> d = d' /\ a = b.
Proof.
  intros Hc Hd. revert d'. induction Hd as [| x d Hx _ IH]; intros d' Hd' H; destruct Hd' as [| y d' Hy Hd'].
  - by injection H as ->.
  - injection H as <- _. congruence.
  - injection H as -> _. congruence.
  - injection H as <- Hr. destruct (IH d' Hd' Hr) as [-> ->]. done.
Qed.

(** A text after its length and a colon. *)
Definition counted_text (v : bytes) : bytes := show_nat (length v) ++ bs ":" ++ v.

Lemma counted_text_cut v w a b : counted_text v ++ a = counted_text w ++ b -> v = w /\ a = b.
Proof.
  unfold counted_text. rewrite <- !app_assoc. intros H.
  apply (digits_cut ":"%char) in H as [Hn H]; [| done | apply show_nat_digits..].
  apply show_nat_inj in Hn. by apply app_inj_1 in H.
Qed.

Lemma join_counted_inj sep : sep <> [] -> forall vs ws,
  RustStr.join sep (map counted_text vs) = RustStr.join sep (map counted_text ws) -> vs = ws.
Proof.
  intros Hsep. assert (forall v, counted_text v <> []) as Hne.
  { intros v H. unfold counted_text in H. apply app_eq_nil in H as [_ [=]]. }
  induction vs as [| v vs IH]; intros [| w ws] H.
  - done.
  - exfalso. destruct ws; cbn in H; [by apply eq_sym, Hne in H |]. apply eq_sym, app_eq_nil in H as [H _]. by apply Hne in H.
  - exfalso. destruct vs; cbn in H; [by apply Hne in H |]. apply app_eq_nil in H as [H _]. by apply Hne in H.
  - destruct vs as [| v' vs], ws as [| w' ws]; cbn [map RustStr.join] in H.
    + rewrite <- (app_nil_r (counted_text v)), <- (app_nil_r (counted_text w)) in H.
      by apply counted_text_cut in H as [-> _].
    + rewrite <- (app_nil_r (counted_text v)) in H. apply counted_text_cut in H as [_ H]. by destruct sep.
    + rewrite <- (app_nil_r (counted_text w)) in H. apply counted_text_cut in H as [_ H]. by destruct sep.
    + apply counted_text_cut in H as [-> H]. apply app_inv_head in H. by rewrite (IH (w' :: ws) H).
Qed.

Lemma canonical_inj k k' : canonical k = canonical k' -> k = k'.
Proof.
  destruct k as [r vs], k' as [r' vs']. unfold canonical. cbn [sk_rule_id sk_values]. intros H.
  change (fun value => show_nat (length value) ++ bs ":" ++ value) with counted_text in H.
  assert (counted_text r ++ bs "/" ++ RustStr.join (bs "/") (map counted_text vs)
          = counted_text r' ++ bs "/" ++ RustStr.join (bs "/") (map counted_text vs')) as H'.
  { unfold counted_text at 1 3. rewrite <- !app_assoc in *. exact H. }
  apply counted_text_cut in H' as [-> H']. apply app_inv_head in H'.
  by rewrite (join_counted_inj (bs "/") ltac:(done) _ _ H').
Qed.

(** ** Buckets *)

Section buckets.
Context {R : Roaring} {RL : RoaringLaws R} {RE : RegexEngine}.
Context (i : SymbolInventoryIndex) (rule : CompiledWorkspaceGroupRule).

(** The members of a key among some ordinals. *)
Definition belongs (l : list SymbolOrdinal) (key : ScopeKey) (o : SymbolOrdinal) : Prop :=
  o ∈ l /\ exists r, record i o = Some r /\ scope_key rule r = key.

Definition buckets_of (l : list SymbolOrdinal) (m : gmap ScopeKey SymbolSet) : Prop :=
  forall key, match m !! key with
              | Some s => (exists o, belongs l key o) /\ forall o, set_contains s o = true <-> belongs l key o
              | None => forall o, ~ belongs l key o
              end.

Lemma belongs_snoc l key o o' :
  belongs (l ++ [o']) key o <-> belongs l key o \/ (o = o' /\ exists r, record i o = Some r /\ scope_key rule r = key).
Proof using. unfold belongs. rewrite elem_of_app, list_elem_of_singleton. naive_solver. Qed.

Lemma buckets_loop l : forall done_ m, buckets_of done_ m ->
  buckets_of (done_ ++ l)
    (foldl (fun buckets o =>
       match record i o with
       | None => buckets
       | Some r => let key := scope_key rule r in
           <[key := set_insert o (default set_new (buckets !! key))]> buckets
       end) m l).
Proof using RL.
  induction l as [| o l IH]; intros done_ m Hm; cbn [foldl]; [by rewrite app_nil_r |].
  replace (done_ ++ o :: l) with ((done_ ++ [o]) ++ l) by (by rewrite <- app_assoc). apply IH.
  destruct (record i o) as [r |] eqn:Hr; intros key.
  - cbv zeta. destruct (decide (key = scope_key rule r)) as [-> | Hne].
    + rewrite lookup_insert_eq. split.
      { exists o. apply belongs_snoc. right. split; [done | by exists r]. }
      intros o'. rewrite in_insert, belongs_snoc. specialize (Hm (scope_key rule r)).
      destruct (m !! scope_key rule r) as [s |]; cbn [default from_option id].
      * rewrite (proj2 Hm). split; [intros [-> | ?]; [right; split; [done | by exists r] | by left] |].
        intros [? | [-> _]]; [by right | by left].
      * rewrite in_new. split; [intros [-> | []]; right; split; [done | by exists r] |].
        intros [Hb | [-> _]]; [by apply Hm in Hb | by left].
    + rewrite lookup_insert_ne by done. specialize (Hm key).
      assert (forall o', belongs (done_ ++ [o]) key o' <-> belongs done_ key o') as E.
      { intros o'. rewrite belongs_snoc. split; [intros [? | (-> & r' & Hr' & Hk)]; [done | congruence] | by left]. }
      destruct (m !! key) as [s |].
      * split; [destruct (proj1 Hm) as [o' ?]; exists o'; by apply E |]. intros o'. by rewrite E, (proj2 Hm).
      * intros o' Hb. by apply E, Hm in Hb.
  - specialize (Hm key).
    assert (forall o', belongs (done_ ++ [o]) key o' <-> belongs done_ key o') as E.
    { intros o'. rewrite belongs_snoc. split; [intros [? | (-> & r' & Hr' & Hk)]; [done | congruence] | by left]. }
    destruct (m !! key) as [s |].
    + split; [destruct (proj1 Hm) as [o' ?]; exists o'; by apply E |]. intros o'. by rewrite E, (proj2 Hm).
    + intros o' Hb. by apply E, Hm in Hb.
Qed.

Lemma bucket_members_ok selected : buckets_of (set_iter selected) (bucket_members i rule selected).
Proof using RL.
  apply (buckets_loop (set_iter selected) [] ∅). intros key. rewrite lookup_empty. intros o [Hn _].
  by apply not_elem_of_nil in Hn.
Qed.

Lemma sorted_entries_perm {A} (m : gmap ScopeKey A) : sorted_entries m ≡ₚ map_to_list m.
Proof using. apply merge_sort_Permutation. Qed.

Lemma elem_of_sorted_entries {A} (m : gmap ScopeKey A) k x : (k, x) ∈ sorted_entries m <-> m !! k = Some x.
Proof using. by rewrite sorted_entries_perm, elem_of_map_to_list. Qed.

Lemma sorted_entries_nodup {A} (m : gmap ScopeKey A) : NoDup (map fst (sorted_entries m)).
Proof using. change (map fst) with (fmap (M:=list) (@fst ScopeKey A)). rewrite sorted_entries_perm. apply NoDup_fst_map_to_list. Qed.

(** ** The evaluation of the buckets *)

Definition result_of (b : ScopeKey * SymbolSet) (g : WorkspaceGroupResult) : Prop :=
  group_result i rule b.1 b.2 = Ok g.

Lemma result_fields key members g : group_result i rule key members = Ok g ->
  g_key g = key /\ g_members g = members /\
  g_suppressed g = negb (g_passed g) && bool_decide (sk_values key ∈ gr_suppress rule).
Proof using.
  unfold group_result. destruct (evaluate i members (gr_predicate rule)) as [o | | |]; try done.
  rewrite ret_bind. intros [= <-]. done.
Qed.

Lemma group_result_total key members : steady (gr_predicate rule) = true ->
  exists g, group_result i rule key members = Ok g /\
    g_passed g = bool_decide (truth (comparison_value i members) (gr_predicate rule) = Some true).
Proof using.
  intros Hs. destruct (evaluate_gives i members (gr_predicate rule) Hs) as (o & Ho & Hv & Hf).
  unfold group_result. rewrite Ho. eexists. split; [reflexivity |]. cbn [g_passed]. rewrite <- Hv.
  unfold outcome_value. destruct (o_error o) eqn:He; [by rewrite Hf, bool_decide_false by (done || congruence) |].
  destruct (o_passed o); [by rewrite bool_decide_true | by rewrite bool_decide_false].
Qed.

Lemma primary_some members o r : set_contains members o = true -> record i o = Some r ->
  is_Some (primary_member i members).
Proof using RL.
  intros Ho Hr. unfold primary_member.
  destruct (omap _ (set_iter members)) as [| x l] eqn:Hl; [| by eexists].
  exfalso. assert ((o, r) ∈ omap (fun o => (fun r => (o, r)) <$> record i o) (set_iter members)) as Hin.
  { apply list_elem_of_omap. exists o. split; [by apply in_iter | by rewrite Hr]. }
  rewrite Hl in Hin. by apply not_elem_of_nil in Hin.
Qed.

Definition count_passed (l : list WorkspaceGroupResult) : nat := length (List.filter g_passed l).
Definition count_violations (l : list WorkspaceGroupResult) : nat := length (List.filter is_violation l).
Definition count_suppressed (l : list WorkspaceGroupResult) : nat := length (List.filter g_suppressed l).

Lemma bucket_loop bl : Forall (fun b => exists g, result_of b g) bl -> forall e p v,
  exists e' gs, fold_res (evaluate_bucket i rule) (e, p, v) bl = Ok (e', p + count_passed gs, v + count_violations gs) /\
    Forall2 result_of bl gs /\ groups e' = groups e ++ gs /\ reports e' = reports e /\
    we_violations e' = we_violations e ++ omap (group_violation i rule) (List.filter is_violation gs) /\
    violation_sets e' = violation_sets e.
Proof using.
  induction 1 as [| b bl [g Hg] _ IH]; intros e p v; cbn [fold_res].
  - exists e, []. cbn. rewrite !Nat.add_0_r, !app_nil_r. split_and!; done || constructor.
  - unfold evaluate_bucket at 2. unfold result_of in Hg. rewrite Hg. cbn [mbind res_bind mret res_ret].
    match goal with |- context [fold_res _ (?e1, ?p1, ?v1)] => destruct (IH e1 p1 v1) as (e' & gs & -> & Hgs & H1 & H2 & H3 & H4) end.
    exists e', (g :: gs). unfold count_passed, count_violations. cbn [List.filter].
    destruct (is_violation g) eqn:Hv; destruct (g_passed g) eqn:Hp; cbn [Nat.b2n length];
      (split; [do 2 f_equal; [f_equal |]; lia |]); (split; [by constructor |]); rewrite H1, H2, H3, H4; cbn [omap list_omap];
      destruct (group_violation i rule g); cbn; rewrite <- ?app_assoc; done.
Qed.

Lemma counts_add_up gs : Forall (fun g => g_suppressed g = negb (g_passed g) && g_suppressed g) gs ->
  count_passed gs + count_violations gs + count_suppressed gs = length gs.
Proof using.
  unfold count_passed, count_violations, count_suppressed, is_violation.
  induction 1 as [| g gs Hg _ IH]; cbn; [done |]. destruct (g_passed g), (g_suppressed g); cbn in *; lia || done.
Qed.

(** The whole of a rule, from an empty evaluation. *)
Section evaluation.
Context {FX : FxHash} {HO : HashOrder}.
Context (U : SymbolSet) (Hi : InventoryStep.coherent i) (HU : SymbolRuleFacts.covered i U).
Import SymbolRuleFacts.

Definition selected (key : ScopeKey) (o : SymbolOrdinal) : Prop :=
  set_contains U o = true /\
  exists r, record i o = Some r /\ node_holds (gr_members rule) r = true /\ scope_key rule r = key.

(** A bucket: a key, with all its members, of which there is one. *)
Definition bucket_ok (key : ScopeKey) (members : SymbolSet) : Prop :=
  (exists o, selected key o) /\ forall o, set_contains members o = true <-> selected key o.

Lemma buckets_selected s : selects i U s (node_holds (gr_members rule)) ->
  (forall key members, (key, members) ∈ sorted_entries (bucket_members i rule s) -> bucket_ok key members) /\
  (forall key o, selected key o -> exists members, (key, members) ∈ sorted_entries (bucket_members i rule s)).
Proof using RL.
  intros Hs. pose proof (bucket_members_ok s) as Hb.
  assert (forall key o, belongs (set_iter s) key o <-> selected key o) as E.
  { intros key o. unfold belongs, selected. rewrite in_iter, (Hs o), andb_true_iff. split.
    - intros [[HoU Ho] (r & Hr & Hk)]. rewrite Hr in Ho. split; [done |]. by exists r.
    - intros (HoU & r & Hr & Hn & Hk). rewrite Hr. split; [by rewrite HoU | by exists r]. }
  split.
  - intros key members Hin%elem_of_sorted_entries. specialize (Hb key). rewrite Hin in Hb. destruct Hb as [[o Ho] Hm].
    split; [exists o; by apply E |]. intros o'. by rewrite Hm, E.
  - intros key o Ho. specialize (Hb key). destruct (bucket_members i rule s !! key) as [members |] eqn:Hk.
    + exists members. by apply elem_of_sorted_entries.
    + exfalso. apply (Hb o). by apply E.
Qed.

(** What evaluating the rule leaves, from the empty evaluation and cache. *)
Lemma evaluate_group_rule_ok report (Hon : on_inventory (gr_members rule) = true)
    (Hn : named (atoms (gr_members rule))) (Hs : steady (gr_predicate rule) = true) :
  exists e cache buckets,
    evaluate_group_rule i U report (evaluation_default, ∅) rule = Ok (e, cache) /\
    NoDup (map fst buckets) /\ Forall (fun b => bucket_ok b.1 b.2) buckets /\
    (forall key o, selected key o -> exists members, (key, members) ∈ buckets) /\
    Forall2 result_of buckets (groups e) /\
    we_violations e = omap (group_violation i rule) (List.filter is_violation (groups e)) /\
    reports e = (if report then [group_report rule
      (length (List.filter (fun g => beq (sk_rule_id (g_key g)) (gr_rule_id rule)) (groups e)))
      (count_passed (groups e)) (count_violations (groups e))] else []).
Proof using RL Hi HU.
  destruct (eval_node_ok i U Hi HU (atoms (gr_members rule)) (gr_members rule) Hn ∅ Hon (fun _ H => H)
    (cache_empty i U _)) as [Hsel _].
  unfold evaluate_group_rule. destruct (eval_node i U (gr_members rule) ∅) as [s c]. cbn [fst] in Hsel.
  destruct (buckets_selected s Hsel) as [Hb Hall].
  destruct (bucket_loop (sorted_entries (bucket_members i rule s))) with (e := evaluation_default) (p := 0) (v := 0)
    as (e & gs & -> & Hgs & Hg & Hr & Hv & _).
  { apply Forall_forall. intros [key members] _. destruct (group_result_total key members Hs) as (g & Hg & _). by exists g. }
  cbn [mbind res_bind mret res_ret]. cbn [groups reports we_violations evaluation_default app] in Hg, Hr, Hv.
  eexists _, _, _. split; [reflexivity |]. split; [apply sorted_entries_nodup |].
  split; [apply Forall_forall; intros [key members]; apply Hb |]. split; [exact Hall |].
  destruct report; cbn [groups we_violations reports push_report]; rewrite ?Hr, Hg, Hv; done.
Qed.

Lemma violation_some b g : bucket_ok b.1 b.2 -> result_of b g -> is_Some (group_violation i rule g).
Proof using RL.
  intros [[o Ho] Hm] Hg. destruct (result_fields _ _ _ Hg) as (_ & Hmem & _).
  pose proof Ho as (_ & r & Hr & _). apply Hm in Ho. unfold group_violation. rewrite Hmem.
  destruct (primary_some _ _ _ Ho Hr) as [x ->]. by eexists.
Qed.
End evaluation.
End buckets.

Section compiled.
Context {RE : RegexEngine} {HO : HashOrder}.

Definition group_compiled (rule : CompiledWorkspaceGroupRule) : Prop :=
  exists entry at_ scheme kinds aliases, compile_group_rule entry at_ scheme kinds aliases = Ok rule.

Lemma group_compiled_on_inventory rule : group_compiled rule -> SymbolRuleFacts.on_inventory (gr_members rule) = true.
Proof.
  intros (entry & at_ & scheme & kinds & aliases & H). unfold compile_group_rule in H.
  destruct (is_nil _); [done |].
  repeat (apply bind_Ok in H as (? & ? & H)).
  injection H as <-. cbn [gr_members].
  match goal with Hc : classify_t1 _ _ = Ok _ |- _ => unfold classify_t1 in Hc; apply bind_Ok in Hc as ([caps plan] & Hc & Hp) end.
  destruct (bool_decide (plan = PlanInventory)) eqn:E; [| done]. apply bool_decide_eq_true in E as ->.
  by eapply SymbolRuleFacts.classified_on_inventory.
Qed.
End compiled.
End GroupFacts.

Module GroupTheorems.
Import Ast Snapshot Inventory InventoryStep PathSets WorkspaceRules GroupPredicates GroupRules SymbolRuleFacts GroupFacts.

(** The predicate of a group computes Kleene's three-valued logic over the statistics
    that may be unavailable: without a percentile or a median, the evaluation
    returns, its value is that of the connectives on the values of the comparisons
    (none where a statistic is unavailable), a predicate whose value is unavailable
    does not pass, and the order of the operands of an [AND] or an [OR] changes
    neither the value nor whether it passes. *)
Theorem group_predicate_kleene `{RoaringLaws} (i : SymbolInventoryIndex) (members : SymbolSet)
    (p : GroupPredicate) (Hs : steady p = true) :
  (exists o, evaluate i members p = Ok o /\ outcome_value o = truth (comparison_value i members) p /\
     o_passed o = bool_decide (truth (comparison_value i members) p = Some true)) /\
  forall l l', l ≡ₚ l' -> p = GAnd l \/ p = GOr l ->
    truth (comparison_value i members) p =
    truth (comparison_value i members) (match p with GAnd _ => GAnd l' | _ => GOr l' end).
Proof.
  split.
  - destruct (evaluate_gives i members p Hs) as (o & Ho & Hv & Hf). exists o. split; [done |]. split; [done |].
    rewrite <- Hv. unfold outcome_value. destruct (o_error o) eqn:He.
    + by rewrite Hf, bool_decide_false by (done || congruence).
    + destruct (o_passed o); [by rewrite bool_decide_true | by rewrite bool_decide_false].
  - intros l l' Hp [-> | ->]; cbn [truth]; by rewrite Hp.
Qed.

(** Distinct keys of groups have distinct canonical texts: the text that stands for the
    moniker of a violation on a group, and that counts the groups affected by a
    change, determines the rule and the values of its projections, whatever
    separators, digits or colons they contain. *)
Theorem canonical_keys_distinct (k k' : ScopeKey) : canonical k = canonical k' <-> k = k'.
Proof. split; [apply canonical_inj | by intros ->]. Qed.

Section theorems.
Context {R : Roaring} {RL : RoaringLaws R} {FX : FxHash} {RE : RegexEngine} {HO : HashOrder}.

(** C11: the groups of a rule partition the symbols it selects: over a coherent inventory the
    evaluation of a compiled rule returns, no two of its groups have the same key, a
    symbol of the universe is a member of the group of a key exactly when its record
    satisfies the expression of the members and projects on that key, no group is
    empty, and a group passes exactly when Kleene's value of the predicate on its
    members is true. *)
Theorem groups_partition_members i U report rule (Hi : coherent i) (HU : covered i U)
    (Hc : group_compiled rule) (Hn : named (atoms (gr_members rule))) (Hs : steady (gr_predicate rule) = true) :
  exists e cache, evaluate_group_rule i U report (evaluation_default, ∅) rule = Ok (e, cache) /\
    NoDup (map g_key (groups e)) /\
    (forall key o, (exists g, g ∈ groups e /\ g_key g = key /\ set_contains (g_members g) o = true) <->
       set_contains U o = true /\
       exists r, record i o = Some r /\ node_holds (gr_members rule) r = true /\ scope_key rule r = key) /\
    Forall (fun g => (exists o, set_contains (g_members g) o = true) /\
       g_passed g = bool_decide (truth (comparison_value i (g_members g)) (gr_predicate rule) = Some true))
      (groups e).
Proof using RL.
  destruct (evaluate_group_rule_ok i rule U Hi HU report (group_compiled_on_inventory rule Hc) Hn Hs)
    as (e & cache & buckets & -> & Hnd & Hb & Hall & Hg & _). exists e, cache. split; [done |].
  assert (map g_key (groups e) = map fst buckets) as Hkeys.
  { clear -Hg. induction Hg as [| b g bl gs Hbg _ IH]; [done |]. cbn. rewrite IH.
    by destruct (result_fields _ _ _ _ _ Hbg) as [-> _]. }
  rewrite Hkeys. split; [exact Hnd |]. rewrite Forall_forall in Hb. split.
  - intros key o. split.
    + intros (g & Hin & Hk & Ho). destruct (related_r _ _ _ _ Hg Hin) as (b & Hbin & Hr).
      destruct (result_fields _ _ _ _ _ Hr) as (Hkey & Hmem & _). rewrite Hmem in Ho. apply (Hb b Hbin) in Ho.
      rewrite <- Hk, Hkey. exact Ho.
    + intros Ho. destruct (Hall key o Ho) as (members & Hbin).
      destruct (related_l _ _ _ _ Hg Hbin) as (g & Hin & Hr).
      destruct (result_fields _ _ _ _ _ Hr) as (Hkey & Hmem & _).
      exists g. split; [done |]. split; [done |]. rewrite Hmem. by apply (Hb _ Hbin).
  - apply Forall_forall. intros g Hin. destruct (related_r _ _ _ _ Hg Hin) as (b & Hbin & Hr).
    destruct (result_fields _ _ _ _ _ Hr) as (_ & Hmem & _). rewrite Hmem. split.
    + destruct (Hb b Hbin) as [[o Ho] Hm]. exists o. by apply Hm.
    + destruct (group_result_total i rule b.1 b.2 Hs) as (g' & Hg' & <-). unfold result_of in Hr. congruence.
Qed.

End theorems.
End GroupTheorems.

(** ** A concrete rule *)

Module GroupSamples.
Import Ast Snapshot Inventory InventoryStep PathSets WorkspaceRules GroupPredicates GroupRules SymbolRuleFacts GroupFacts
  CheckFacts InventoryTheorems SymbolRuleTheorems GroupTheorems.
#[local] Existing Instances GsetRoaring.gset_roaring GsetRoaring.gset_roaring_laws one_hash Sample.plain_order.

(** At most one public symbol per file, or short ones; [a.rs] is let off. *)
Definition sample_group : res ConfigData.ConfigError CompiledWorkspaceGroupRule :=
  compile_group_rule
    (ConfigData.mk_group_entry (Some (bs "small")) (bs "visibility = 'public'") [bs "source.path"]
       (bs "count(member) <= 1 OR max(member, lines) < 3") Suppress.Report.Warn None None [[bs "a.rs"]] None)
    (bs "workspace.group.small") (bs "code+moniker://") Config.allowed_workspace_kinds ∅.

Lemma sample_group_compiled : exists rule, sample_group = Ok rule /\ group_compiled rule /\
  named (atoms (gr_members rule)) /\ steady (gr_predicate rule) = true /\ gr_suppress rule = [[bs "a.rs"]].
Proof.
  destruct sample_group as [rule | | |] eqn:H; [exists rule; split; [done |] | vm_compute in H; discriminate H..].
  split; [eexists _, _, _, _, _; exact H |].
  assert ((match sample_group with
           | Ok r => bool_decide (NoDup (map atom_raw (atoms (gr_members r)))) && steady (gr_predicate r)
                     && bool_decide (gr_suppress r = [[bs "a.rs"]])
           | _ => false end) = true) as E by (vm_compute; reflexivity).
  rewrite H in E. apply andb_true_iff in E as [[E1 E2]%andb_true_iff E3].
  split; [by apply named_nodup |]. split; [done |]. by apply bool_decide_eq_true in E3.
Qed.

(** What the groups of the rule are. *)
Definition shown (e : WorkspaceEvaluation) : list (list bytes * list SymbolOrdinal * bool * bool) :=
  map (fun g => (sk_values (g_key g), set_iter (g_members g), g_passed g, g_suppressed g)) (groups e).

Definition sample_shown : option (list (list bytes * list SymbolOrdinal * bool * bool)) :=
  match sample_group with
  | Ok rule =>
      match evaluate_group_rule sample_index (all_symbols sample_index) true (evaluation_default, ∅) rule with
      | Ok (e, _) => Some (shown e)
      | _ => None
      end
  | _ => None
  end.

Lemma groups_partition_members_witness :
  sample_shown = Some [([bs "a.rs"], [0; 1]%N, false, true); ([bs "b.rs"], [2]%N, true, false)] /\
  exists rule, sample_group = Ok rule /\
    exists e cache, evaluate_group_rule sample_index (all_symbols sample_index) true (evaluation_default, ∅) rule
      = Ok (e, cache) /\ NoDup (map g_key (groups e)).
Proof.
  split; [vm_compute; reflexivity |]. destruct sample_group_compiled as (rule & Hr & Hc & Hn & Hs & _).
  exists rule. split; [exact Hr |].
  destruct (groups_partition_members sample_index (all_symbols sample_index) true rule sample_coherent
    (all_covered _ sample_coherent) Hc Hn Hs) as (e & cache & He & Hnd & _).
  exists e, cache. split; [exact He | exact Hnd].
Defined.


(** An unavailable maximum, and a count that decides without it. *)
Lemma group_predicate_kleene_witness :
  let p := GOr [GCompare (LineAggregate Max None) Op.Lt (F64.of_Z 3); GCompare MemberCount Op.Le (F64.of_Z 3)] in
  steady p = true /\ truth (comparison_value sample_index (all_symbols sample_index)) p = Some true /\
  exists o, evaluate sample_index (all_symbols sample_index) p = Ok o /\ o_passed o = true.
Proof.
  cbv zeta. split; [reflexivity |]. split; [vm_compute; reflexivity |].
  destruct (group_predicate_kleene sample_index (all_symbols sample_index)
    (GOr [GCompare (LineAggregate Max None) Op.Lt (F64.of_Z 3); GCompare MemberCount Op.Le (F64.of_Z 3)]) eq_refl)
    as [(o & Ho & _ & Hp) _].
  exists o. split; [exact Ho |]. rewrite Hp. vm_compute. reflexivity.
Defined.
End GroupSamples.
