(* ===== verification/LinkageFacts.v ===== *)
(** Rules on the linkage of a workspace: the sets of an evaluation are Kleene's
    value of the rule on each symbol, reports account for every symbol, and the
    counts of a symbol are those of its references. *)

From S2P Require Import Prelude.
From S2P Require Import RustStr.
From S2P Require Import Path.
From S2P Require Import DslAst.
From S2P Require Import EvalCore.
From S2P Require Import ConfigData.
From S2P Require Import Config.
From S2P Require Import Check.
From S2P Require Import CheckFacts.
From S2P Require Import Bitmap.
From S2P Require Import Snapshot.
From S2P Require Import Inventory.
From S2P Require Import InventoryInv.
From S2P Require Import InventoryTheorems.
From S2P Require Import PathSets.
From S2P Require Import Indexed.
From S2P Require Import IndexedFacts.
From S2P Require Import EvalFacts.
From S2P Require Import WorkspaceRules.
From S2P Require Import GroupRules.
From S2P Require Import LinkageRules.
From S2P Require Import SymbolRuleFacts.
From S2P Require Import GroupFacts.

Module LinkageFacts.
Import Ast Snapshot Inventory InventoryStep PathSets WorkspaceRules LinkageRules SymbolRuleFacts GroupFacts.

(** ** The value of a rule on one symbol *)

(** [says b v]: the value is known, and it is [b]. *)
Definition says (b : bool) (v : option bool) : bool :=
  match v with Some x => Bool.eqb x b | None => false end.

Definition silent (v : option bool) : bool := match v with Some _ => false | None => true end.

Section value.
Context {R : Roaring} {RE : RegexEngine}.
Context (c : EvalContext).

(** A count of references is known when the coverage of the symbol is enough. *)
Definition atom_value (a : Atom) (r : InventorySymbol) : option bool :=
  let 'mk_atom lhs op rhs _ _ := a in
  match lhs with
  | Number (Count d filter) =>
      match rhs with
      | RNumber (NLiteral limit) =>
          if Check.is_some filter || negb (bool_decide (d = Domain.InRefs \/ d = Domain.OutRefs)) then None
          else
            let m := metric (x_metrics c) (i_id r) d in
            if (metric_percent m <? x_min_coverage c)%N then None
            else Some (GroupPredicates.compare_numbers (F64.of_N (m_count m)) op limit)
      | _ => None
      end
  | _ => Some (atom_holds a r)
  end.

Fixpoint node_value (n : Node) (r : InventorySymbol) : option bool :=
  match n with
  | NAtom a => atom_value a r
  | And nodes => kall (map (fun n => node_value n r) nodes)
  | Or nodes => kany (map (fun n => node_value n r) nodes)
  | Not n => knot (node_value n r)
  | Implies n1 n2 => kor (knot (node_value n1 r)) (node_value n2 r)
  | Require_ _ | NVerticalLayout _ | Quantifier _ _ _ => None
  end.
End value.

(** ** Sets of three values *)

Section sets.
Context {R : Roaring} {RL : RoaringLaws R} {FX : FxHash} {RE : RegexEngine} {HO : HashOrder}.
Context (c : EvalContext).
Abbreviation i := (Indexed.inventory (x_index c)).
Abbreviation U := (x_universe c).
Context (Hi : coherent i) (HU : covered i U).

(** The three sets split the universe by the value of the record. *)
Definition decides (t : TriSet) (v : InventorySymbol -> option bool) : Prop :=
  selects i U (pass t) (fun r => says true (v r)) /\
  selects i U (fail_ t) (fun r => says false (v r)) /\
  selects i U (unknown t) (fun r => silent (v r)).

Lemma decides_ext t v w : (forall r, v r = w r) -> decides t v -> decides t w.
Proof using.
  intros H (Hp & Hf & Hu). split_and!; (eapply selects_ext; [| done]); intros r; cbv beta; by rewrite H.
Qed.

Lemma decides_truth truth f : selects i U truth f -> decides (from_truth U truth) (fun r => Some (f r)).
Proof using RL HU.
  intros Ht. split_and!; cbn [from_truth pass fail_ unknown].
  - eapply selects_ext; [| exact Ht]. intros r. cbn. by destruct (f r).
  - eapply selects_ext; [| exact (selects_not i U HU truth f Ht)]. intros r. cbn. by destruct (f r).
  - apply selects_none.
Qed.

Lemma decides_unknown : decides (all_unknown U) (fun _ => None).
Proof using RL HU. split_and!; cbn; [apply selects_none.. |]. by apply selects_universe. Qed.

Lemma decides_partition p f v :
  selects i U p (fun r => says true (v r)) -> selects i U f (fun r => says false (v r)) ->
  decides (partition_ U p f) v.
Proof using RL HU.
  intros Hp Hf. split_and!; [done.. |]. cbn.
  eapply selects_ext; [| exact (selects_not i U HU _ _ (selects_or i U _ _ _ _ Hp Hf))].
  intros r. cbn. by destruct (v r) as [[] |].
Qed.

Lemma decides_and t t' v v' : decides t v -> decides t' v' -> decides (tri_and U t t') (fun r => kand (v r) (v' r)).
Proof using RL HU.
  intros (Hp & Hf & _) (Hp' & Hf' & _). apply decides_partition.
  - eapply selects_ext; [| exact (selects_and i U _ _ _ _ Hp Hp')]. intros r. cbv beta. by destruct (v r) as [[] |], (v' r) as [[] |].
  - eapply selects_ext; [| exact (selects_or i U _ _ _ _ Hf Hf')]. intros r. cbv beta. by destruct (v r) as [[] |], (v' r) as [[] |].
Qed.

Lemma decides_or t t' v v' : decides t v -> decides t' v' -> decides (tri_or U t t') (fun r => kor (v r) (v' r)).
Proof using RL HU.
  intros (Hp & Hf & _) (Hp' & Hf' & _). apply decides_partition.
  - eapply selects_ext; [| exact (selects_or i U _ _ _ _ Hp Hp')]. intros r. cbv beta. by destruct (v r) as [[] |], (v' r) as [[] |].
  - eapply selects_ext; [| exact (selects_and i U _ _ _ _ Hf Hf')]. intros r. cbv beta. by destruct (v r) as [[] |], (v' r) as [[] |].
Qed.

Lemma decides_not t v : decides t v -> decides (tri_not t) (fun r => knot (v r)).
Proof using.
  intros (Hp & Hf & Hu). split_and!; cbn.
  - eapply selects_ext; [| exact Hf]. intros r. cbv beta. by destruct (v r) as [[] |].
  - eapply selects_ext; [| exact Hp]. intros r. cbv beta. by destruct (v r) as [[] |].
  - eapply selects_ext; [| exact Hu]. intros r. cbv beta. by destruct (v r) as [[] |].
Qed.

(** Folds of the connectives, over values read on a record. *)
Lemma fold_decides op (f : option bool -> option bool -> option bool) l vs :
  (forall t t' v v', decides t v -> decides t' v' -> decides (op t t') (fun r => f (v r) (v' r))) ->
  Forall2 decides l vs -> forall t v, decides t v ->
  decides (foldl op t l) (fun r => foldl (fun x w => f x (w r)) (v r) vs).
Proof using.
  intros Hop. induction 1 as [| s w l vs Hs _ IH]; intros t v Ht; cbn [foldl]; [done |].
  exact (IH _ _ (Hop _ _ _ _ Ht Hs)).
Qed.

Lemma foldl_kand (l : list (option bool)) x : foldl kand x l = kand x (kall l).
Proof using.
  revert x. induction l as [| y l IH]; intros x; cbn; [by destruct x as [[] |] |]. by rewrite IH, kand_assoc.
Qed.

Lemma foldl_kor (l : list (option bool)) x : foldl kor x l = kor x (kany l).
Proof using.
  revert x. induction l as [| y l IH]; intros x; cbn; [by destruct x as [[] |] |]. by rewrite IH, kor_assoc.
Qed.

Lemma foldl_values (f : option bool -> option bool -> option bool) (r : InventorySymbol)
    (vs : list (InventorySymbol -> option bool)) : forall x,
  foldl (fun x w => f x (w r)) x vs = foldl f x (map (fun w => w r) vs).
Proof using. induction vs as [| w vs IH]; intros x; [done | apply IH]. Qed.

Lemma decides_all l vs : Forall2 decides l vs ->
  decides (default (all_pass U) (reduce (tri_and U) l)) (fun r => kall (map (fun w => w r) vs)).
Proof using RL HU.
  intros [| s w l' vs' Hs Hl]; cbn [reduce default from_option id map].
  - apply (decides_ext _ (fun _ => Some true)); [done |]. apply (decides_truth U (fun _ => true)). by apply selects_universe.
  - eapply decides_ext; [| exact (fold_decides (tri_and U) kand _ _ decides_and Hl _ _ Hs)].
    intros r. cbv beta. by rewrite foldl_values, foldl_kand.
Qed.

Lemma decides_any l vs : Forall2 decides l vs ->
  decides (default (all_fail U) (reduce (tri_or U) l)) (fun r => kany (map (fun w => w r) vs)).
Proof using RL HU.
  intros [| s w l' vs' Hs Hl]; cbn [reduce default from_option id map].
  - apply (decides_ext _ (fun _ => Some false)); [done |]. apply (decides_truth set_new (fun _ => false)). apply selects_none.
  - eapply decides_ext; [| exact (fold_decides (tri_or U) kor _ _ decides_or Hl _ _ Hs)].
    intros r. cbv beta. by rewrite foldl_values, foldl_kor.
Qed.

(** ** Counts *)

Definition count_value (d : Domain.t) (op : Op.t) (limit : f64) (r : InventorySymbol) : option bool :=
  let m := metric (x_metrics c) (i_id r) d in
  if (metric_percent m <? x_min_coverage c)%N then None
  else Some (GroupPredicates.compare_numbers (F64.of_N (m_count m)) op limit).

Definition on_record (f : InventorySymbol -> bool) (o : SymbolOrdinal) : bool :=
  match record i o with Some r => f r | None => false end.

Lemma contains_insert s x o : set_contains (set_insert x s) o = bool_decide (o = x) || set_contains s o.
Proof using RL.
  apply eq_true_iff_eq. by rewrite in_insert, orb_true_iff, bool_decide_eq_true.
Qed.

Lemma decide_cons (o x : SymbolOrdinal) l : bool_decide (o ∈ x :: l) = bool_decide (o = x) || bool_decide (o ∈ l).
Proof using. apply eq_true_iff_eq. by rewrite orb_true_iff, !bool_decide_eq_true, elem_of_cons. Qed.

Lemma count_loop d op limit l : forall p f cov, exists p' f' cov',
  foldl (count_symbol c d op limit) (p, f, cov) l = (p', f', cov') /\
  (forall o, set_contains p' o = set_contains p o ||
     (bool_decide (o ∈ l) && on_record (fun r => says true (count_value d op limit r)) o)) /\
  (forall o, set_contains f' o = set_contains f o ||
     (bool_decide (o ∈ l) && on_record (fun r => says false (count_value d op limit r)) o)).
Proof using RL.
  induction l as [| x l IH]; intros p f cov; cbn [foldl].
  - exists p, f, cov. split; [done |]. split; intros o; by rewrite bool_decide_false, orb_false_r by apply not_elem_of_nil.
  - unfold count_symbol at 2. destruct (record i x) as [r |] eqn:Hr.
    2: { destruct (IH p f cov) as (p' & f' & cov' & -> & Hp & Hf). exists p', f', cov'. split; [done |].
         split; intros o; rewrite ?Hp, ?Hf, decide_cons; destruct (decide (o = x)) as [-> | Hne];
           [unfold on_record; rewrite Hr; by rewrite !andb_false_r | by rewrite (bool_decide_false (o = x)) |
            unfold on_record; rewrite Hr; by rewrite !andb_false_r | by rewrite (bool_decide_false (o = x))]. }
    cbv zeta. set (v := count_value d op limit r).
    assert (exists p1 f1 cov1,
      (if (metric_percent (metric (x_metrics c) (i_id r) d) <? x_min_coverage c)%N
       then (p, f, counts_add cov (m_coverage (metric (x_metrics c) (i_id r) d)))
       else if GroupPredicates.compare_numbers (F64.of_N (m_count (metric (x_metrics c) (i_id r) d))) op limit
       then (set_insert x p, f, counts_add cov (m_coverage (metric (x_metrics c) (i_id r) d)))
       else (p, set_insert x f, counts_add cov (m_coverage (metric (x_metrics c) (i_id r) d)))) = (p1, f1, cov1) /\
      (forall o, set_contains p1 o = set_contains p o || (bool_decide (o = x) && says true v)) /\
      (forall o, set_contains f1 o = set_contains f o || (bool_decide (o = x) && says false v)))
      as (p1 & f1 & cov1 & -> & Hp1 & Hf1).
    { subst v. unfold count_value. destruct (_ <? _)%N; [| destruct (GroupPredicates.compare_numbers _ _ _)];
        (eexists _, _, _; split; [reflexivity |]; split; intros o; cbn [says Bool.eqb];
         rewrite ?contains_insert, ?andb_false_r, ?andb_true_r, ?orb_false_r; (done || apply orb_comm)). }
    destruct (IH p1 f1 cov1) as (p' & f' & cov' & -> & Hp & Hf). exists p', f', cov'. split; [done |].
    split; intros o; rewrite ?Hp, ?Hf, ?Hp1, ?Hf1, decide_cons; destruct (decide (o = x)) as [-> | Hne];
      rewrite ?(bool_decide_true (x = x)), ?(bool_decide_false (o = x)) by done; cbn [andb orb];
      rewrite ?orb_false_r; try done; unfold on_record; rewrite Hr; fold v;
      by destruct (set_contains _ x), (bool_decide (x ∈ l)), v as [[] |].
Qed.

Lemma count_decides d op limit cov :
  let '(p, f, _) := foldl (count_symbol c d op limit) (set_new, set_new, cov) (set_iter U) in
  decides (partition_ U p f) (count_value d op limit).
Proof using RL HU.
  destruct (count_loop d op limit (set_iter U) set_new set_new cov) as (p & f & cov' & -> & Hp & Hf).
  assert (forall o, bool_decide (o ∈ set_iter U) = set_contains U o) as E.
  { intros o. apply eq_true_iff_eq. by rewrite bool_decide_eq_true, in_iter. }
  assert (forall o, set_contains set_new o = false) as N by (intros o; apply bm_contains_new).
  apply decides_partition; intros o; rewrite ?Hp, ?Hf, N, E; reflexivity.
Qed.

(** ** Nodes *)

Definition reaches (l : list Atom) (out : TriSet * (CoverageCounts * gmap bytes SymbolSet))
    (v : InventorySymbol -> option bool) : Prop :=
  decides out.1 v /\ cache_ok i U l out.2.2.

Lemma linkage_atom_ok l a s : named l -> a ∈ l -> cache_ok i U l s.2 ->
  reaches l (linkage_atom c a s) (atom_value c a).
Proof using RL Hi HU.
  intros Hl Ha Hc. destruct s as [cov cache]. cbn [snd] in Hc.
  assert (reaches l
    (let '(truth, cache) := WorkspaceRules.eval_node i U (NAtom a) cache in (from_truth U truth, (cov, cache)))
    (fun r => Some (atom_holds a r))) as Hdefault.
  { cbn [WorkspaceRules.eval_node]. destruct (cached_atom_ok i U Hi HU l a cache Hl Ha Hc) as [Hs Hc'].
    destruct (cached_atom i U a cache) as [truth c']. split; [by apply decides_truth | done]. }
  destruct a as [lhs op rhs raw re]. unfold linkage_atom, atom_value.
  destruct lhs as [attr | n | | | |]; try exact Hdefault. destruct n as [x | | d filter | | | |]; try exact Hdefault.
  assert (reaches l (all_unknown U, (cov, cache)) (fun _ => None)) as Hunknown by (split; [by apply decides_unknown | done]).
  destruct rhs as [n | | | | | | | |]; try exact Hunknown. destruct n as [limit | | | | | |]; try exact Hunknown.
  destruct (_ || _); [exact Hunknown |]. pose proof (count_decides d op limit cov) as Hd.
  destruct (foldl _ _ _) as [[p f] cov']. by split.
Qed.

(** The local loop of [linkage_node]. *)
Definition linkage_nodes : list Node -> CoverageCounts * gmap bytes SymbolSet ->
    list TriSet * (CoverageCounts * gmap bytes SymbolSet) :=
  fix go l s :=
    match l with
    | [] => ([], s)
    | n :: l =>
        let '(t, s) := linkage_node c n s in
        let '(rest, s) := go l s in
        (t :: rest, s)
    end.

Definition node_reaches (l : list Atom) (n : Node) : Prop := forall s,
  (forall a, a ∈ atoms n -> a ∈ l) -> cache_ok i U l s.2 -> reaches l (linkage_node c n s) (node_value c n).

Lemma linkage_nodes_ok l nodes : Forall (node_reaches l) nodes -> forall s,
  (forall a, a ∈ concat (map atoms nodes) -> a ∈ l) -> cache_ok i U l s.2 ->
  Forall2 decides (linkage_nodes nodes s).1 (map (node_value c) nodes) /\
  cache_ok i U l (linkage_nodes nodes s).2.2.
Proof using.
  induction 1 as [| n nodes Hn _ IH]; intros s Ha Hc; cbn [linkage_nodes]; [by split |].
  destruct (Hn s) as [Ht Hc1]; [intros a ?; apply Ha; cbn; apply elem_of_app; by left | done |].
  destruct (linkage_node c n s) as [t s1]. cbn in Ht, Hc1.
  destruct (IH s1) as [Hr Hc2]; [intros a ?; apply Ha; cbn; apply elem_of_app; by right | done |].
  destruct (linkage_nodes nodes s1) as [rest s2]. split; [by constructor | done].
Qed.

Lemma linkage_and nodes s : linkage_node c (And nodes) s =
  (default (all_pass U) (reduce (tri_and U) (linkage_nodes nodes s).1), (linkage_nodes nodes s).2).
Proof using. change (linkage_node c (And nodes) s) with
  (let '(l, s) := linkage_nodes nodes s in (default (all_pass U) (reduce (tri_and U) l), s)).
  by destruct (linkage_nodes nodes s).
Qed.

Lemma linkage_or nodes s : linkage_node c (Or nodes) s =
  (default (all_fail U) (reduce (tri_or U) (linkage_nodes nodes s).1), (linkage_nodes nodes s).2).
Proof using. change (linkage_node c (Or nodes) s) with
  (let '(l, s) := linkage_nodes nodes s in (default (all_fail U) (reduce (tri_or U) l), s)).
  by destruct (linkage_nodes nodes s).
Qed.

Lemma linkage_node_ok l n : named l -> node_reaches l n.
Proof using RL Hi HU.
  intros Hl. induction n as [a | p | v | k d f | nodes IH | nodes IH | n IH | n1 n2 IH1 IH2] using connective_ind;
    intros s Ha Hc; try (split; [exact decides_unknown | exact Hc]).
  - apply linkage_atom_ok; [done | apply Ha; by left | done].
  - rewrite linkage_and. destruct (linkage_nodes_ok l nodes IH s Ha Hc) as [Hs Hc']. split; [| done]. cbn [fst].
    eapply decides_ext; [| exact (decides_all _ _ Hs)]. intros r. cbv beta. by rewrite map_map.
  - rewrite linkage_or. destruct (linkage_nodes_ok l nodes IH s Ha Hc) as [Hs Hc']. split; [| done]. cbn [fst].
    eapply decides_ext; [| exact (decides_any _ _ Hs)]. intros r. cbv beta. by rewrite map_map.
  - cbn [linkage_node]. destruct (IH s Ha Hc) as [Ht Hc']. destruct (linkage_node c n s) as [t s1].
    split; [by apply decides_not | done].
  - cbn [linkage_node].
    destruct (IH1 s) as [H1 Hc1]; [intros a ?; apply Ha; cbn; apply elem_of_app; by left | done |].
    destruct (linkage_node c n1 s) as [t1 s1]. cbn in H1, Hc1.
    destruct (IH2 s1) as [H2 Hc2]; [intros a ?; apply Ha; cbn; apply elem_of_app; by right | done |].
    destruct (linkage_node c n2 s1) as [t2 s2]. split; [| done].
    by apply (decides_or _ _ (fun r => knot (node_value c n1 r))); [apply decides_not |].
Qed.

(** ** Rules *)

Definition tally (b : bool) (root : Node) : nat :=
  count i U (fun r => says b (node_value c root r)).

Definition unsure (root : Node) : nat := count i U (fun r => silent (node_value c root r)).

(** What the report of a rule counts: for an implication, the premise too. *)
Definition linkage_matches (root : Node) : nat :=
  match root with
  | Implies premise _ => count i U (fun r => says true (node_value c root r) && says true (node_value c premise r))
  | _ => tally true root
  end.

Definition linkage_premise (root : Node) : option nat :=
  match root with Implies premise _ => Some (tally true premise) | _ => None end.

Definition linkage_verdict (root : Node) : RuleVerdict :=
  if 0 <? tally false root then VFail else if 0 <? unsure root then VInconclusive else VPass.

Definition report_counts (root : Node) (r : WorkspaceReport) : Prop :=
  let b := base r in
  Check.evaluated b = length (universe_records i U) /\ Check.matches b = linkage_matches root /\
  Check.violations b = tally false root /\ Check.antecedent_matches b = linkage_premise root /\
  Check.inconclusive b = Some (unsure root) /\ verdict r = Some (linkage_verdict root).

Lemma empty_len s : set_is_empty s = (N.to_nat (set_len s) =? 0).
Proof using RL.
  apply eq_true_iff_eq. unfold set_is_empty, set_len. rewrite bm_is_empty_iter, bm_len_iter, Nat2N.id, Nat.eqb_eq.
  symmetry. apply length_zero_iff_nil.
Qed.

Lemma fails_or_not n m : verdict_of (n =? 0) (m =? 0) =
  if 0 <? n then VFail else if 0 <? m then VInconclusive else VPass.
Proof using. unfold verdict_of. by destruct n, m. Qed.

Lemma linkage_rule_ok l report rule e cache :
  named l -> (forall a, a ∈ atoms (sr_root rule) -> a ∈ l) -> cache_ok i U l cache ->
  exists e' cache' failed, evaluate_linkage_rule c report (e, cache) rule = (e', cache') /\ cache_ok i U l cache' /\
    selects i U failed (fun r => says false (node_value c (sr_root rule) r)) /\
    we_violations e' = we_violations e ++ (symbol_violation (bs "workspace linkage assertion") rule <$>
      List.filter (fun r => says false (node_value c (sr_root rule) r)) (universe_records i U)) /\
    violation_sets e' = <[sr_rule_id rule := failed]> (violation_sets e) /\
    (if report then exists r, reports e' = reports e ++ [r] /\ report_counts (sr_root rule) r
     else reports e' = reports e).
Proof using RL Hi HU.
  intros Hl Ha Hc. unfold evaluate_linkage_rule.
  destruct (linkage_node_ok l (sr_root rule) Hl (counts_default, cache) Ha Hc) as [(Hp & Hf & Hu) Hc1].
  destruct (linkage_node c (sr_root rule) (counts_default, cache)) as [outcome [cov cache1]].
  cbn [fst snd] in Hp, Hf, Hu, Hc1. unfold append_violations, symbol_violations. rewrite (selects_records i U _ _ Hf).
  destruct report.
  2: { eexists _, _, (fail_ outcome). split; [reflexivity |]. by split_and!. }
  assert (exists counts cache2, rule_match_counts c (sr_root rule) outcome cache1 = (counts, cache2) /\
    cache_ok i U l cache2 /\ N.to_nat (mc_matches counts) = linkage_matches (sr_root rule) /\
    N.to_nat <$> mc_antecedent_matches counts = linkage_premise (sr_root rule)) as (counts & cache2 & -> & Hc2 & Hm & Hpr).
  { unfold rule_match_counts, linkage_matches, linkage_premise, tally in *.
    destruct (sr_root rule) as [| | | | n1 n2 | | |] eqn:Hroot;
      try (eexists _, _; split; [reflexivity |]; split; [exact Hc1 |]; cbn [mc_matches mc_antecedent_matches];
           split; [rewrite (selects_len i U HU _ _ Hp); apply Nat2N.id | done]).
    destruct (linkage_node_ok l n1 Hl (counts_default, cache1)) as [(Hp1 & _) Hc2];
      [intros a ?; apply Ha; cbn; apply elem_of_app; by left | done |].
    destruct (linkage_node c n1 (counts_default, cache1)) as [t1 [cov1 cache2]]. cbn [fst snd] in Hp1, Hc2.
    eexists _, _. split; [reflexivity |]. split; [exact Hc2 |]. cbn [mc_matches mc_antecedent_matches]. split.
    - rewrite (selects_len i U HU _ _ (selects_and i U _ _ _ _ Hp Hp1)). apply Nat2N.id.
    - cbn. f_equal. rewrite (selects_len i U HU _ _ Hp1). apply Nat2N.id. }
  eexists _, _, (fail_ outcome). split; [reflexivity |]. split_and!; try done.
  eexists. split; [reflexivity |].
  unfold report_counts, linkage_report. cbn [base verdict Check.evaluated Check.matches Check.violations
    Check.antecedent_matches Check.inconclusive].
  rewrite !empty_len, (selects_len i U HU _ _ Hf), (selects_len i U HU _ _ Hu), (universe_len i U HU), !Nat2N.id.
  split_and!; try done. by rewrite fails_or_not.
Qed.

Definition linkage_atoms (rules : list CompiledWorkspaceSymbolRule) : list Atom :=
  concat (map (fun rule => atoms (sr_root rule)) rules).

(** The records of the universe on which a rule is false. *)
Definition refuted (rule : CompiledWorkspaceSymbolRule) : list InventorySymbol :=
  List.filter (fun r => says false (node_value c (sr_root rule) r)) (universe_records i U).

Lemma linkage_loop_ok l report rules : named l -> (forall a, a ∈ linkage_atoms rules -> a ∈ l) ->
  forall e cache, cache_ok i U l cache ->
  exists e' cache' rs, foldl (evaluate_linkage_rule c report) (e, cache) rules = (e', cache') /\
    we_violations e' = we_violations e ++
      concat (map (fun rule => symbol_violation (bs "workspace linkage assertion") rule <$> refuted rule) rules) /\
    reports e' = reports e ++ rs /\
    (if report then Forall2 (fun rule r => report_counts (sr_root rule) r) rules rs else rs = []).
Proof using RL Hi HU.
  intros Hl. induction rules as [| rule rules IH]; intros Ha e cache Hc; cbn [foldl].
  - exists e, cache, []. cbn. rewrite !app_nil_r. split_and!; try done. destruct report; [constructor | done].
  - destruct (linkage_rule_ok l report rule e cache Hl) as (e1 & c1 & f & -> & Hc1 & _ & Hv & _ & Hr);
      [intros a ?; apply Ha; cbn; apply elem_of_app; by left | done |].
    destruct (IH (fun a H => Ha a (proj2 (elem_of_app _ _ _) (or_intror H))) e1 c1 Hc1)
      as (e' & c' & rs & -> & Hv' & Hr' & Hrs).
    destruct report.
    + destruct Hr as (r & Hr & Hcounts). exists e', c', (r :: rs). split; [done |].
      rewrite Hv', Hr', Hv, Hr, <- !app_assoc. split; [done |]. split; [done |]. by constructor.
    + exists e', c', rs. split; [done |]. rewrite Hv', Hr', Hv, Hr, <- !app_assoc. by split_and!.
Qed.

Lemma three_values root : tally true root + tally false root + unsure root = length (universe_records i U).
Proof using.
  unfold tally, unsure, count. induction (universe_records i U) as [| r l IH]; cbn [List.filter length]; [done |].
  destruct (node_value c root r) as [[] |]; cbn [says silent Bool.eqb length]; lia.
Qed.
End sets.

(** ** Counts of references *)

Section references.
Context {R : Roaring}.

Definition class_of (cl : ReferenceClassification) : ReferenceClass :=
  match cl with
  | CResolved _ => ClassResolved
  | CCandidates _ => ClassCandidate
  | CDynamic _ => ClassDynamic
  | CClass class => class
  end.

Definition same_class (a b : ReferenceClass) : bool :=
  match a, b with
  | ClassResolved, ClassResolved | ClassExternal, ClassExternal | ClassCandidate, ClassCandidate
  | ClassDynamic, ClassDynamic | ClassBlocked, ClassBlocked | ClassUnresolved, ClassUnresolved => true
  | _, _ => false
  end.

Definition counted (class : ReferenceClass) : bool :=
  match class with ClassResolved | ClassExternal => true | _ => false end.

Definition of_class (class : ReferenceClass) (l : list ReferenceClass) : N :=
  N.of_nat (length (List.filter (same_class class) l)).

(** The metric of a list of classes. *)
Definition metric_of (l : list ReferenceClass) : ReferenceMetric :=
  mk_metric (N.of_nat (length (List.filter counted l)))
    (mk_counts (of_class ClassResolved l) (of_class ClassExternal l) (of_class ClassCandidate l)
       (of_class ClassDynamic l) (of_class ClassBlocked l) (of_class ClassUnresolved l)).

Lemma metric_of_snoc l class : metric_of (l ++ [class]) = metric_record class (metric_of l).
Proof.
  unfold metric_of, of_class, metric_record. rewrite !List.filter_app, !length_app.
  destruct class; cbn; f_equal; try f_equal; lia.
Qed.

Lemma metric_of_total l : total (m_coverage (metric_of l)) = N.of_nat (length l) /\
  m_count (metric_of l) = decided (m_coverage (metric_of l)).
Proof.
  unfold total, decided, metric_of, of_class. cbn.
  induction l as [| [] l [IH1 IH2]]; cbn in *; split; lia.
Qed.

(** The metrics in a map. *)
Definition metric_at (m : gmap SymbolId ReferenceMetric) (s : SymbolId) : ReferenceMetric :=
  default metric_default (m !! s).

Lemma metric_at_record class t m s : metric_at (record_at class t m) s =
  if bool_decide (t = s) then metric_record class (metric_at m s) else metric_at m s.
Proof.
  unfold metric_at, record_at. destruct (decide (t = s)) as [-> | Hne].
  - by rewrite lookup_insert_eq, bool_decide_true.
  - by rewrite lookup_insert_ne, bool_decide_false.
Qed.

Lemma outgoing_step i r cl m :
  lm_outgoing (record_reference i r cl m) = record_at (class_of cl) (source_symbol r) (lm_outgoing m).
Proof. destruct cl as [t | ts | [| t ts] | []]; reflexivity. Qed.

Lemma uncertain_keeps class ts s : counted class = false -> forall m,
  m_count (metric_at (foldl (fun m t => record_at class t m) m ts) s) = m_count (metric_at m s).
Proof.
  intros Hc. induction ts as [| t ts IH]; intros m; cbn [foldl]; [done |]. rewrite IH, metric_at_record.
  destruct (bool_decide _); [| done]. by destruct class.
Qed.

Definition resolves_to (s : SymbolId) (cl : ReferenceClassification) : bool :=
  match cl with CResolved t => bool_decide (t = s) | _ => false end.

(** What [classify] can answer: a class alone is not that of a target. *)
Definition possible (cl : ReferenceClassification) : Prop :=
  match cl with CClass class => class <> ClassResolved | _ => True end.

Lemma classify_possible c reference : possible (classify c reference).
Proof.
  unfold classify. destruct (rc_resolved c !! reference); [done |]. destruct (rc_candidates c !! reference); [done |].
  destruct (bool_decide _); [done |]. destruct (rc_dynamic c !! reference); [done |]. by destruct (bool_decide _).
Qed.

Lemma attribute_keeps i r class m s : counted class = false ->
  m_count (metric_at (attribute_uncertain_incoming i r class m) s) = m_count (metric_at m s).
Proof.
  intros Hc. unfold attribute_uncertain_incoming. destruct (by_identity _ !! _); [| done]. by apply uncertain_keeps.
Qed.

Lemma incoming_step i r cl m s : possible cl ->
  m_count (metric_at (lm_incoming (record_reference i r cl m)) s) =
  (m_count (metric_at (lm_incoming m) s) + N.b2n (resolves_to s cl))%N.
Proof.
  intros Hp. destruct cl as [t | ts | ts | class]; cbn [resolves_to].
  - cbn. rewrite metric_at_record. destruct (bool_decide _); cbn; lia.
  - cbn. rewrite uncertain_keeps by done. lia.
  - cbn. destruct ts as [| t ts]; cbn; [rewrite attribute_keeps by done | rewrite uncertain_keeps by done;
      rewrite metric_at_record; destruct (bool_decide _)]; cbn; lia.
  - destruct class; try done; cbn; rewrite ?attribute_keeps by done; lia.
Qed.

(** The loop over the references. *)
Lemma metrics_loop i (classification : ReferenceRecord -> ReferenceClassification) l :
  (forall r, possible (classification r)) ->
  let m := foldl (fun m r => record_reference i r (classification r) m) (mk_metrics ∅ ∅) l in
  forall s,
    metric_at (lm_outgoing m) s =
      metric_of (map (fun r => class_of (classification r)) (List.filter (fun r => bool_decide (source_symbol r = s)) l)) /\
    m_count (metric_at (lm_incoming m) s) = N.of_nat (length (List.filter (fun r => resolves_to s (classification r)) l)).
Proof.
  intros Hp m s. subst m. induction l as [| r l [IH1 IH2]] using rev_ind; [done |].
  rewrite foldl_snoc, !List.filter_app, !map_app, length_app. split.
  - rewrite outgoing_step, metric_at_record, IH1. cbn [List.filter].
    destruct (bool_decide _); cbn [map]; [by rewrite metric_of_snoc | by rewrite app_nil_r].
  - rewrite incoming_step, IH2 by done. cbn [List.filter]. destruct (resolves_to _ _); cbn; lia.
Qed.

Lemma percent_bound m : (percent (m_coverage m) <= 100)%N.
Proof.
  unfold percent. destruct (total (m_coverage m) =? 0)%N eqn:E; [done |]. apply N.eqb_neq in E.
  assert (decided (m_coverage m) <= total (m_coverage m))%N by (unfold decided, total; lia).
  apply N.Div0.div_le_upper_bound. lia.
Qed.
End references.

(** ** Structural rules on a linkage that is completed *)

Section structure.
Context {R : Roaring} {RL : RoaringLaws R} {RE : RegexEngine} {HO : HashOrder}.
Context (ix ix' : Indexed.IndexedPredicates) (Ha : IndexedFacts.ahead ix ix').
Context (inventory : SymbolInventoryIndex) (root : Node) (Hn : EvalFacts.rule_ok root = true).

(** What the later counts keep of the earlier ones. *)
Record settles (s s' : StructureCounts) : Prop := mk_settles {
  set_fails o : set_contains (failures s) o = true -> set_contains (failures s') o = true;
  set_unknown : sc_unknown s' <= sc_unknown s;
  set_same : sc_unknown s = 0 -> forall o, set_contains (failures s') o = set_contains (failures s) o
}.

Lemma premise_mono id : Information.mono (fun _ => True)
  (match root with Implies premise _ => Indexed.evaluate ix premise id | _ => mret (Some true) end)
  (match root with Implies premise _ => Indexed.evaluate ix' premise id | _ => mret (Some true) end).
Proof using Ha Hn.
  destruct root as [| | | | premise n2 | | |];
    try (exists (Some true), (Some true); split_and!; (done || by intros v [= <-])).
  cbn in Hn. apply andb_true_iff in Hn as [Hp _]. by apply IndexedFacts.evaluate_mono.
Qed.

Lemma structure_step s s' o : settles s s' -> exists s1 s1',
  structure_symbol ix root inventory s o = Ok s1 /\ structure_symbol ix' root inventory s' o = Ok s1' /\ settles s1 s1'.
Proof using RL Ha Hn.
  intros [Hf Hu Hs]. unfold structure_symbol. destruct (record inventory o) as [r |]; [| by exists s, s'].
  destruct (premise_mono (i_id r)) as (p & p' & -> & -> & _).
  destruct (IndexedFacts.evaluate_mono ix ix' Ha root (i_id r) Hn) as (v & v' & -> & -> & Hb & _).
  cbn [mbind res_bind mret res_ret]. eexists _, _. split; [reflexivity |]. split; [reflexivity |].
  assert (forall x, v = Some x -> v' = Some x) as Hv by exact Hb.
  destruct v as [[] |]; rewrite ?(Hv _ eq_refl).
  - destruct (bool_decide (p = _)), (bool_decide (p' = _)); constructor; cbn; done.
  - constructor; cbn; [| done |].
    + intros x. rewrite !in_insert. intros [-> | ?]; [by left | right; by apply Hf].
    + intros H0 x. apply eq_true_iff_eq. rewrite !in_insert. by rewrite (Hs H0 x).
  - destruct v' as [[] |]; [destruct (bool_decide (p' = _)) | |]; constructor; cbn; try lia; try done.
    intros x Hx. rewrite in_insert. right. by apply Hf.
Qed.

Lemma structure_loop l : forall s s', settles s s' -> exists s1 s1',
  fold_res (structure_symbol ix root inventory) s l = Ok s1 /\
  fold_res (structure_symbol ix' root inventory) s' l = Ok s1' /\ settles s1 s1'.
Proof using RL Ha Hn.
  induction l as [| o l IH]; intros s s' H; cbn [fold_res]; [by exists s, s' |].
  destruct (structure_step s s' o H) as (s1 & s1' & -> & -> & H1). cbn [mbind res_bind]. by apply IH.
Qed.
End structure.
End LinkageFacts.

Module LinkageTheorems.
Import Ast Snapshot Inventory InventoryStep WorkspaceRules LinkageRules SymbolRuleFacts GroupFacts LinkageFacts.

Section theorems.
Context {R : Roaring} {RL : RoaringLaws R} {FX : FxHash} {RE : RegexEngine} {HO : HashOrder}.

Definition linkage_context (index : Indexed.CodeIndex) (linkage : LinkageSnapshot) (universe : SymbolSet)
    (compiled : CompiledWorkspaceRules) : EvalContext :=
  mk_context index universe (metrics_build index linkage universe) (c_min_linkage_coverage compiled).

Definition linkage_rules (compiled : CompiledWorkspaceRules) : list CompiledWorkspaceSymbolRule :=
  List.filter (has_plan PlanLinkage) (c_symbol compiled).

(** C8: the rules on the linkage are evaluated in Kleene's logic and never guess: a symbol
    violates a rule exactly when the value of the rule on its record is false, where
    a count of references has no value when the coverage of the symbol is under the
    minimum and the connectives are Kleene's; a report counts as inconclusive
    exactly the symbols without a value, so that the true, the false and the unknown
    add up to the symbols evaluated; and the verdict is a failure when some symbol
    is false, inconclusive when none is but some is unknown, a pass otherwise. *)
Theorem linkage_rules_kleene index linkage U compiled (Hi : coherent (Indexed.inventory index))
    (HU : covered (Indexed.inventory index) U) (Hn : named (linkage_atoms (linkage_rules compiled))) :
  let c := linkage_context index linkage U compiled in
  let e := evaluate_linkage_rules index linkage U compiled true evaluation_default in
  we_violations e =
    concat (map (fun rule => symbol_violation (bs "workspace linkage assertion") rule <$> refuted c rule)
              (linkage_rules compiled)) /\
  Forall2 (fun rule r =>
    let root := sr_root rule in
    report_counts c root r /\
    tally c true root + Check.violations (base r) + default 0 (Check.inconclusive (base r)) = Check.evaluated (base r) /\
    (verdict r = Some VPass <->
       Forall (fun s => node_value c root s = Some true) (universe_records (Indexed.inventory index) U)))
    (linkage_rules compiled) (reports e).
Proof using RL.
  cbv zeta. set (c := linkage_context index linkage U compiled).
  destruct (linkage_loop_ok c Hi HU (linkage_atoms (linkage_rules compiled)) true (linkage_rules compiled) Hn
    (fun _ H => H) evaluation_default ∅ (cache_empty _ _ _)) as (e & c' & rs & He & Hv & Hr & Hrs).
  unfold evaluate_linkage_rules. fold (linkage_rules compiled). fold (linkage_context index linkage U compiled). fold c.
  rewrite He. cbn [fst]. split; [exact Hv |]. rewrite Hr. cbn [reports evaluation_default app].
  eapply Forall2_impl; [exact Hrs |]. intros rule r Hc. split; [exact Hc |].
  destruct Hc as (-> & _ & -> & _ & -> & ->). cbn [default from_option id]. split; [apply three_values |].
  unfold linkage_verdict. pose proof (three_values c (sr_root rule)) as H3. split.
  - intros Hpass. assert (tally c false (sr_root rule) = 0 /\ unsure c (sr_root rule) = 0) as [Hf Hu].
    { destruct (tally c false (sr_root rule)), (unsure c (sr_root rule)); cbn in Hpass; try discriminate Hpass; done. }
    revert H3 Hf Hu. unfold tally, unsure, count. cbn [x_index c linkage_context x_universe].
    induction (universe_records _ U) as [| s l IH]; cbn [List.filter length]; [by constructor |].
    destruct (node_value c (sr_root rule) s) as [[] |] eqn:Hs; cbn [says silent Bool.eqb length]; try lia.
    intros ? ? ?. constructor; [done |]. apply IH; lia.
  - intros Hall. assert (tally c false (sr_root rule) = 0 /\ unsure c (sr_root rule) = 0) as [-> ->]; [| done].
    unfold tally, unsure, count. cbn [x_index c linkage_context x_universe].
    induction Hall as [| s l Hs _ IH]; cbn [List.filter]; [done |]. by rewrite Hs.
Qed.
(** C30: the counts of references of a symbol are those of its references: among the
    references whose source is in the universe, the outgoing coverage counts each
    reference of the symbol once, in the class that the linkage gives it, its number
    of references is that of the resolved and external ones, and its number of
    incoming references is that of the references resolved to it; a percentage never
    exceeds one hundred. *)
Theorem reference_counts_exact (index : Indexed.CodeIndex) (linkage : LinkageSnapshot) (U : SymbolSet) (s : SymbolId) :
  let m := metrics_build index linkage U in
  let refs := List.filter (in_universe (Indexed.inventory index) U) (iter (Indexed.ci_references index)) in
  let class r := classify (classifications_new linkage) (r_id r) in
  let out := List.filter (fun r => bool_decide (source_symbol r = s)) refs in
  metric m s Domain.OutRefs = metric_of (map (fun r => class_of (class r)) out) /\
  total (m_coverage (metric m s Domain.OutRefs)) = N.of_nat (length out) /\
  m_count (metric m s Domain.OutRefs) = decided (m_coverage (metric m s Domain.OutRefs)) /\
  m_count (metric m s Domain.InRefs) = N.of_nat (length (List.filter (fun r => resolves_to s (class r)) refs)) /\
  forall d, (metric_percent (metric m s d) <= 100)%N.
Proof using.
  cbv zeta. destruct (metrics_loop (Indexed.inventory index) (fun r => classify (classifications_new linkage) (r_id r))
    (List.filter (in_universe (Indexed.inventory index) U) (iter (Indexed.ci_references index)))
    (fun r => classify_possible _ _) s) as [Hout Hin].
  split; [exact Hout |]. change (metric (metrics_build index linkage U) s Domain.OutRefs) with
    (metric_at (lm_outgoing (metrics_build index linkage U)) s). unfold metrics_build. rewrite Hout.
  split; [rewrite (proj1 (metric_of_total _)); by rewrite length_map |].
  split; [apply metric_of_total |]. split; [exact Hin |]. intros d. apply percent_bound.
Qed.

(** C23: what a structural rule concludes on a partial linkage stays when the linkage is
    completed: both evaluations return, a symbol that fails still fails, no more
    symbols are undecided, a failure or a pass of the rule remains one, and a rule
    without undecided symbols fails on the same symbols. *)
Theorem structure_verdicts_persist (index : Indexed.CodeIndex) (l l' : LinkageSnapshot) (U : SymbolSet)
    (rule : CompiledWorkspaceSymbolRule) (Hi : IndexedFacts.index_ok index)
    (Hc : IndexedFacts.completes index l l') (Hn : EvalFacts.rule_ok (sr_root rule) = true) :
  let run ix := evaluate_structure_rule ix (Indexed.inventory index) U true evaluation_default rule in
  exists ix ix' e e' r r' s s', Indexed.new (E:=Empty_set) index l = Ok ix /\
    Indexed.new (E:=Empty_set) index l' = Ok ix' /\ run ix = Ok e /\ run ix' = Ok e' /\
    reports e = [r] /\ reports e' = [r'] /\
    violation_sets e !! sr_rule_id rule = Some s /\ violation_sets e' !! sr_rule_id rule = Some s' /\
    (forall o, set_contains s o = true -> set_contains s' o = true) /\
    default 0 (Check.inconclusive (base r')) <= default 0 (Check.inconclusive (base r)) /\
    (verdict r = Some VFail -> verdict r' = Some VFail) /\ (verdict r = Some VPass -> verdict r' = Some VPass) /\
    (Check.inconclusive (base r) = Some 0 -> forall o, set_contains s' o = set_contains s o).
Proof using RL.
  cbv zeta. destruct (IndexedFacts.new_describes (E:=Empty_set) index l Hi) as (ix & Hix & Hd).
  destruct (IndexedFacts.new_describes (E:=Empty_set) index l' Hi) as (ix' & Hix' & Hd').
  pose proof (IndexedFacts.ahead_of_completion index l l' Hc ix ix' Hi Hd Hd') as Ha.
  assert (settles (mk_structure_counts set_new 0 0 0) (mk_structure_counts set_new 0 0 0)) as H0 by by constructor.
  destruct (structure_loop ix ix' Ha (Indexed.inventory index) (sr_root rule) Hn (set_iter U) _ _ H0)
    as (s & s' & Hs & Hs' & [Hf Hu Hsame]).
  eexists ix, ix', _, _, _, _, (failures s), (failures s').
  split; [done |]. split; [done |]. unfold evaluate_structure_rule. rewrite Hs, Hs'.
  split; [reflexivity |]. split; [reflexivity |]. split; [reflexivity |]. split; [reflexivity |].
  split; [cbn; by rewrite lookup_insert_eq |]. split; [cbn; by rewrite lookup_insert_eq |]. split; [exact Hf |].
  cbn [base verdict structure_report Check.inconclusive default from_option id]. split; [exact Hu |].
  assert (set_is_empty (failures s') = true -> set_is_empty (failures s) = true) as He.
  { unfold set_is_empty. rewrite !bm_empty_iff. intros H o. destruct (bm_contains (failures s) o) eqn:Ho; [| done].
    pose proof (Hf o Ho) as Ht. unfold set_contains in Ht. by rewrite (H o) in Ht. }
  unfold verdict_of. split_and!.
  - destruct (set_is_empty (failures s)), (set_is_empty (failures s')); cbn; try done; [by destruct (sc_unknown s =? 0) |].
    by specialize (He eq_refl).
  - destruct (set_is_empty (failures s)) eqn:E; [| done]. destruct (sc_unknown s) as [| n] eqn:Hz; [| done]. intros _.
    assert (set_is_empty (failures s') = true) as ->.
    { unfold set_is_empty in *. rewrite bm_empty_iff in *. intros o. rewrite <- (E o). by apply Hsame. }
    by replace (sc_unknown s') with 0 by lia.
  - intros [= Hz]. by apply Hsame.
Qed.
End theorems.
End LinkageTheorems.

(** ** A concrete workspace *)

Module LinkageSamples.
Import Ast Snapshot Inventory InventoryStep PathSets WorkspaceRules LinkageRules SymbolRuleFacts GroupFacts
  LinkageFacts CheckFacts InventoryTheorems SymbolRuleTheorems LinkageTheorems.
#[local] Existing Instances GsetRoaring.gset_roaring GsetRoaring.gset_roaring_laws one_hash Sample.plain_order.

(** [User] refers to [Shop], and to one of two symbols that the linkage cannot tell. *)
Definition refers (file n : nat) (source : SymbolId) (target : string) : ReferenceRecord :=
  reference_new (reference_at file n) (source_at file) source
    (bs "code+moniker://./lang:rs/dir:src/" ++ bs target) (bs "calls") None.

Definition linked_index : Indexed.CodeIndex := Indexed.mk_code_index 1%N 1%N (bs "code+moniker://") sample_sources before
  (from_shards [[refers 0 0 (symbol_at 0 1) "class:Shop"];
                [refers 1 0 (symbol_at 1 0) "class:Shop"; refers 1 1 (symbol_at 1 0) "class:Cart"]])
  sample_index.

Definition partial_linkage : LinkageSnapshot :=
  mk_linkage 1%N 1%N 3 2 0 0 0 0 0 0
    [edge_new (reference_at 0 0) (symbol_at 0 0); edge_new (reference_at 1 0) (symbol_at 0 0)]
    [mk_candidate (reference_at 1 1) [symbol_at 0 1] WeakNameMatch ScopeUnknown NameMatch] [] [] [] [] [].

(** At most one reference to a symbol. *)
Definition linked_rules : CompiledWorkspaceRules :=
  match sample_compile "few" "name = 'Shop' OR name = 'Cart' => count(in_refs) <= 1" with
  | Ok rule => mk_workspace_rules [rule] [] [] 100
  | _ => mk_workspace_rules [] [] [] 100
  end.

Lemma linked_named : named (linkage_atoms (linkage_rules linked_rules)).
Proof. apply named_nodup. vm_compute. reflexivity. Qed.

Lemma linkage_rules_kleene_witness :
  let c := linkage_context linked_index partial_linkage (all_symbols sample_index) linked_rules in
  let e := evaluate_linkage_rules linked_index partial_linkage (all_symbols sample_index) linked_rules true
             evaluation_default in
  map sr_plan (c_symbol linked_rules) = [PlanLinkage] /\
  map (fun r => (verdict r, Check.violations (base r), Check.inconclusive (base r))) (reports e) =
    [(Some VFail, 1, Some 1)] /\
  we_violations e =
    concat (map (fun rule => symbol_violation (bs "workspace linkage assertion") rule <$> refuted c rule)
              (linkage_rules linked_rules)).
Proof.
  cbv zeta. split; [vm_compute; reflexivity |]. split; [vm_compute; reflexivity |].
  exact (proj1 (linkage_rules_kleene linked_index partial_linkage (all_symbols sample_index) linked_rules
    sample_coherent (all_covered _ sample_coherent) linked_named)).
Defined.

(** The symbols of a class with a method declared outside it, in an inventory. *)
Definition structure_index : Indexed.CodeIndex :=
  Indexed.mk_code_index 1%N 1%N (bs "code+moniker://") sample_sources
    (Indexed.ci_symbols IndexedTheorems.sample_index) (Indexed.ci_references IndexedTheorems.sample_index)
    (match build (E:=()) 1%N sample_sources (Indexed.ci_symbols IndexedTheorems.sample_index) with
     | Ok i => i
     | _ => empty 0%N
     end).

Definition uncalled : option CompiledWorkspaceSymbolRule :=
  match sample_compile "uncalled" "none(in_refs, kind = 'calls')" with Ok rule => Some rule | _ => None end.

Definition structure_shown (l : LinkageSnapshot) : option (list (option RuleVerdict * nat * option nat)) :=
  rule ← uncalled;
  match ix ← Indexed.new (E:=Empty_set) structure_index l;
        evaluate_structure_rule ix (Indexed.inventory structure_index)
          (all_symbols (Indexed.inventory structure_index)) true evaluation_default rule with
  | Ok e => Some (map (fun r => (verdict r, Check.violations (base r), Check.inconclusive (base r))) (reports e))
  | _ => None
  end.

Lemma uncalled_compiles : exists rule, uncalled = Some rule /\ EvalFacts.rule_ok (sr_root rule) = true.
Proof.
  destruct uncalled as [rule |] eqn:H; [| vm_compute in H; discriminate H]. exists rule. split; [done |].
  assert ((match uncalled with Some r => EvalFacts.rule_ok (sr_root r) | None => false end) = true) as E
    by (vm_compute; reflexivity).
  by rewrite H in E.
Qed.

Lemma structure_index_ok : IndexedFacts.index_ok structure_index.
Proof. exact IndexedTheorems.sample_index_ok. Qed.

Lemma structure_completes : IndexedFacts.completes structure_index IndexedTheorems.early_linkage IndexedTheorems.later_linkage.
Proof.
  destruct IndexedTheorems.sample_completes as [a b c]. constructor; [exact a | | exact c].
  intros r t Hr Hl Hl'. pose proof (b r t Hr Hl Hl') as H. apply elem_of_app in H as [H | H]; [apply elem_of_app; by left |].
  exfalso. revert H. unfold IndexedFacts.named_by, Indexed.identity_symbols. cbn. by intros ?%not_elem_of_nil.
Qed.

(** Undecided on one symbol at first, then failing on it. *)
Lemma structure_verdicts_persist_witness :
  structure_shown IndexedTheorems.early_linkage = Some [(Some VInconclusive, 0, Some 1)] /\
  structure_shown IndexedTheorems.later_linkage = Some [(Some VFail, 1, Some 0)] /\
  exists rule, uncalled = Some rule /\
    exists ix ix' e e', Indexed.new (E:=Empty_set) structure_index IndexedTheorems.early_linkage = Ok ix /\
      Indexed.new (E:=Empty_set) structure_index IndexedTheorems.later_linkage = Ok ix' /\
      evaluate_structure_rule ix (Indexed.inventory structure_index) (all_symbols (Indexed.inventory structure_index))
        true evaluation_default rule = Ok e /\
      evaluate_structure_rule ix' (Indexed.inventory structure_index) (all_symbols (Indexed.inventory structure_index))
        true evaluation_default rule = Ok e'.
Proof.
  split; [vm_compute; reflexivity |]. split; [vm_compute; reflexivity |].
  destruct uncalled_compiles as (rule & Hr & Hok). exists rule. split; [exact Hr |].
  destruct (structure_verdicts_persist structure_index IndexedTheorems.early_linkage IndexedTheorems.later_linkage
    (all_symbols (Indexed.inventory structure_index)) rule structure_index_ok structure_completes Hok)
    as (ix & ix' & e & e' & _ & _ & _ & _ & H1 & H2 & H3 & H4 & _).
  exists ix, ix', e, e'. split; [exact H1 |]. split; [exact H2 |]. split; [exact H3 | exact H4].
Defined.
End LinkageSamples.
