(* ===== verification/PathRuleFacts.v ===== *)
(** Rules on the paths of a workspace: a verdict is a fact of the graph of the
    resolved references, and the evaluation stays in its budget. *)

From stdpp Require Import relations.
From S2P Require Import Prelude.
From S2P Require Import RustStr.
From S2P Require Import Path.
From S2P Require Import PathFacts.
From S2P Require Import Suppress.
From S2P Require Import Check.
From S2P Require Import CheckFacts.
From S2P Require Import Snapshot.
From S2P Require Import Bitmap.
From S2P Require Import ConfigData.
From S2P Require Import Config.
From S2P Require Import Inventory.
From S2P Require Import InventoryInv.
From S2P Require Import InventoryTheorems.
From S2P Require Import LinkIndex.
From S2P Require Import LinkIndexFacts.
From S2P Require Import Paths.
From S2P Require Import PathSets.
From S2P Require Import PathWalk.
From S2P Require Import PathTheorems.
From S2P Require Import WorkspaceRules.
From S2P Require Import PathRules.

Module PathRuleFacts.
Import Snapshot Inventory InventoryInv LinkIndex LinkIndexFacts LinkIndexTheorems Paths PathSets PathStep PathWalk
  PathTheorems PathAnswers WorkspaceRules PathRules.

(** ** One search *)

Section search.
Context {R : Roaring} {RL : RoaringLaws R} {HO : HashOrder} {RE : RegexEngine}.
Context (linkage : LinkageSnapshot) (table : RecordTable ReferenceRecord) (cat : SymbolOrdinalCatalog).
Context (roots : list N) (ri : LinkageReadIndex) (Hio : index_of linkage table cat roots ri) (Hcat : catalog_ok cat).
Context (relations : list bytes) (scope : BoundedPathScope).

(** A walk of [n] resolved references that avoids some symbols. *)
Abbreviation walk avoid n u v := (nsteps (hop linkage table cat ri relations avoid scope) n u v).

Lemma linked_walk avoid p : forall u v,
  linked_path linkage table cat ri relations avoid scope u p v -> walk avoid (length p) u v.
Proof using.
  induction p as [| e p IH]; intros u v; cbn [linked_path length].
  - intros ->. constructor.
  - intros (_ & Hl & Hp). apply nsteps_l with (edge_target e); [by exists (edge_reference e) | by apply IH].
Qed.

Lemma walk_avoids avoid avoid' n u v : (forall x, x ∈ avoid' -> x ∈ avoid) -> walk avoid n u v -> walk avoid' n u v.
Proof using.
  intros Hsub H. induction H as [u | n u w v (id & r & e & Hr & Hid & Hs & Hk & He & He' & Ht & o & Ho & Hsc & Ha) _ IH];
    [constructor |].
  apply nsteps_l with w; [| done]. exists id, r, e. split_and!; try done. exists o. split; [done |].
  split; [done |]. intros x Hx. by apply Ha, Hsub.
Qed.

Lemma in_from_symbol o x : set_contains (set_from_symbol o) x = true <-> x = o.
Proof using RL. unfold set_from_symbol. rewrite in_insert, in_new. tauto. Qed.

(** What a search between two symbols says. *)
Lemma search_ok avoid limits u v :
  exists r, search (E:=Empty_set) ri (mk_request u v relations avoid limits scope) = Ok r /\
  match r with
  | None => True
  | Some s =>
      (ps_explored_symbols s <= max_symbols limits)%N /\ (cov_total (ps_coverage s) <= max_edges limits)%N /\
      (path_found u v s = true -> exists n, n <= max_depth limits /\ walk avoid n u v) /\
      (path_found u v s = false -> ps_depth_limit s = false -> ps_symbol_limit s = false -> ps_edge_limit s = false ->
       forall n, ~ walk avoid n u v)
  end.
Proof using RL Hio Hcat.
  unfold search. cbn [rq_scope rq_limits rq_relations rq_avoid rq_from rq_to].
  destruct (exceeds _ _); [by exists None |]. set (c := path_traversal_new ri relations avoid limits scope).
  unfold run. change (pt_index c) with ri. unfold ri_ordinal. rewrite (io_catalog _ _ _ _ _ Hio).
  destruct (ordinal cat u) as [ou |] eqn:Hou; [| by exists None].
  destruct (ordinal cat v) as [ov |] eqn:Hov; [| by exists None].
  destruct (run_between_ok (E:=Empty_set) c (kind_of table) (io_postings _ _ _ _ _ Hio) (set_from_symbol ou) (set_from_symbol ov))
    as (r & Hr & Hans).
  exists r. split; [exact Hr |]. destruct r as [s |]; [| done].
  assert (Hu : id_of cat ou = Some u) by by apply (cat_bij _ Hcat). assert (Hv : id_of cat ov = Some v) by by apply (cat_bij _ Hcat).
  assert (departs c (set_from_symbol ou) ou /\ arrives c (set_from_symbol ov) ov) as [Hdep Harr].
  { unfold run_between in Hr. destruct (_ || _) eqn:He; [discriminate Hr |]. apply orb_false_iff in He as [H1 H2].
    apply set_not_empty in H1 as (x & Hx), H2 as (y & Hy). rewrite (in_endpoints c _ x) in Hx. rewrite (in_endpoints c _ y) in Hy.
    destruct Hx as [Hx1 Hx2], Hy as [Hy1 Hy2].
    pose proof (proj1 (in_from_symbol _ _) Hx1) as ->. pose proof (proj1 (in_from_symbol _ _) Hy1) as ->. done. }
  destruct Hans as [Hsym Hedge Hpath Hleast Hnone]. split; [exact Hsym |]. split; [exact Hedge |].
  unfold path_found. split.
  - intros [Heq | Hne]%orb_true_iff.
    { apply bool_decide_eq_true in Heq as ->. exists 0. split; [lia | constructor]. }
    assert (ps_path s <> []) as Hp by by destruct (ps_path s).
    destruct (Hpath Hp) as (a & b & [Ha _] & [Hb _] & Hroute & Hlen). apply in_from_symbol in Ha as ->, Hb as ->.
    destruct (route_linked linkage table cat roots ri _ _ _ _ Hio Hcat _ _ _ _ Hu Hroute) as (w & Hw & Hl).
    assert (w = v) as -> by congruence. exists (length (ps_path s)). split; [exact Hlen | by apply linked_walk].
  - intros [Hne Hnil]%orb_false_iff Hd Hs He n Hn. apply bool_decide_eq_false in Hne.
    assert (ps_path s = []) as Hp by by destruct (ps_path s).
    destruct (hops_steps linkage table cat roots ri _ _ limits _ Hio Hcat n u v ou Hn Hu) as (t & Ht & Hst).
    assert (t = ov) as -> by (apply (cat_bij _ Hcat) in Ht; unfold ordinal in Hov; congruence).
    destruct (Hnone ou ov n Hs He Hp) as [_ Hlim]; [| done | done | exact Hst | congruence].
    intros x [Hx1 _] [Hx2 _]. apply in_from_symbol in Hx1, Hx2. congruence.
Qed.

(** ** Outcomes *)

(** What the proofs follow of an outcome. *)
Definition core (o : PathOutcome) : option RuleVerdict * bool * bool * N * N * N :=
  (po_verdict o, po_found o, po_incomplete o, po_evaluated_pairs o, cov_total (po_coverage o), po_explored_symbols o).

Lemma insert_reason_if_core b x o : core (insert_reason_if b x o) = core o.
Proof using. by destruct b. Qed.

Lemma reasons_core (f : bytes * N -> bytes) l : forall o, core (foldl (fun o e => insert_reason (f e) o) o l) = core o.
Proof using. induction l as [| e l IH]; intros o; cbn [foldl]; [done | by rewrite IH]. Qed.

Lemma core_fields o o' : core o = core o' ->
  po_verdict o = po_verdict o' /\ po_found o = po_found o' /\ po_incomplete o = po_incomplete o' /\
  po_evaluated_pairs o = po_evaluated_pairs o' /\ cov_total (po_coverage o) = cov_total (po_coverage o') /\
  po_explored_symbols o = po_explored_symbols o'.
Proof using. unfold core. intros [=]. done. Qed.

Lemma absorb_fields s o :
  po_verdict (absorb s o) = po_verdict o /\ po_found (absorb s o) = po_found o /\
  po_incomplete (absorb s o) = po_incomplete o /\ po_evaluated_pairs (absorb s o) = po_evaluated_pairs o /\
  cov_total (po_coverage (absorb s o)) = (cov_total (po_coverage o) + cov_total (ps_coverage s))%N /\
  po_explored_symbols (absorb s o) = (po_explored_symbols o + ps_explored_symbols s)%N.
Proof using.
  unfold absorb. set (o1 := foldl _ _ _).
  assert (core o1 = core o) as H1.
  { unfold o1. rewrite (reasons_core (fun e => e.1 ++ bs ":" ++ show_N e.2)). by rewrite !insert_reason_if_core. }
  apply core_fields in H1 as (H1 & H2 & H3 & H4 & H5 & H6).
  destruct (_ && _); cbn; rewrite ?H5, ?H6; done.
Qed.

Lemma coverage_reason_core rule s o : core (record_coverage_reason rule s o) = core o.
Proof using. apply insert_reason_if_core. Qed.

(** The outcome after a search, but for what the search found. *)
Lemma searched_fields rule s o :
  let o' := absorb s (record_coverage_reason rule s (next_pair o)) in
  po_verdict o' = po_verdict o /\ po_found o' = po_found o /\ po_incomplete o' = po_incomplete o /\
  po_evaluated_pairs o' = (po_evaluated_pairs o + 1)%N /\
  cov_total (po_coverage o') = (cov_total (po_coverage o) + cov_total (ps_coverage s))%N /\
  po_explored_symbols o' = (po_explored_symbols o + ps_explored_symbols s)%N.
Proof using.
  cbv zeta. destruct (absorb_fields s (record_coverage_reason rule s (next_pair o))) as (-> & -> & -> & -> & -> & ->).
  by destruct (core_fields _ _ (coverage_reason_core rule s (next_pair o))) as (-> & -> & -> & -> & -> & ->).
Qed.

(** The searches stay in the budget of the rule. *)
Definition in_budget (rule : CompiledWorkspacePathRule) (o : PathOutcome) : Prop :=
  (po_evaluated_pairs o <= pa_max_pairs rule)%N /\
  (po_explored_symbols o <= max_symbols (pa_limits rule))%N /\
  (cov_total (po_coverage o) <= max_edges (pa_limits rule))%N.

Lemma in_budget_core rule o o' : core o = core o' -> in_budget rule o -> in_budget rule o'.
Proof using. unfold core, in_budget. by intros [= _ _ _ -> -> ->]. Qed.

Lemma budget_default rule : in_budget rule outcome_default.
Proof using. unfold in_budget. cbn. lia. Qed.

Lemma next_limits_ok rule o : in_budget rule o ->
  match next_search_limits rule o with
  | inl o' => core o' = core o
  | inr limits => (po_evaluated_pairs o < pa_max_pairs rule)%N /\ max_depth limits = max_depth (pa_limits rule) /\
      (po_explored_symbols o + max_symbols limits = max_symbols (pa_limits rule))%N /\
      (cov_total (po_coverage o) + max_edges limits = max_edges (pa_limits rule))%N
  end.
Proof using.
  intros (H1 & H2 & H3). unfold next_search_limits.
  destruct (pa_max_pairs rule <=? po_evaluated_pairs o)%N eqn:E1; [done |].
  destruct (max_symbols (pa_limits rule) <=? po_explored_symbols o)%N eqn:E2; [done |].
  destruct (max_edges (pa_limits rule) <=? cov_total (po_coverage o))%N eqn:E3; [done |].
  apply N.leb_gt in E1, E2, E3. cbn. split; [done |]. split; [done |]. split; lia.
Qed.

Lemma searched_budget rule o limits s : in_budget rule o ->
  (po_evaluated_pairs o < pa_max_pairs rule)%N ->
  (po_explored_symbols o + max_symbols limits = max_symbols (pa_limits rule))%N ->
  (cov_total (po_coverage o) + max_edges limits = max_edges (pa_limits rule))%N ->
  (ps_explored_symbols s <= max_symbols limits)%N -> (cov_total (ps_coverage s) <= max_edges limits)%N ->
  in_budget rule (absorb s (record_coverage_reason rule s (next_pair o))).
Proof using.
  intros (H1 & H2 & H3) H4 H5 H6 H7 H8. unfold in_budget.
  destruct (searched_fields rule s o) as (_ & _ & _ & -> & -> & ->). lia.
Qed.

Lemma complete_limits rule s : search_complete rule s = true ->
  ps_depth_limit s = false /\ ps_symbol_limit s = false /\ ps_edge_limit s = false /\
  (pa_min_coverage rule <= percent (ps_coverage s))%N.
Proof using.
  unfold search_complete. rewrite !andb_true_iff, !negb_true_iff, N.leb_le. tauto.
Qed.
End search.

(** ** The pairs of a rule *)

Section rule.
Context {R : Roaring} {RL : RoaringLaws R} {HO : HashOrder} {RE : RegexEngine}.
Context (linkage : LinkageSnapshot) (table : RecordTable ReferenceRecord) (cat : SymbolOrdinalCatalog).
Context (roots : list N) (ri : LinkageReadIndex) (Hio : index_of linkage table cat roots ri) (Hcat : catalog_ok cat).
Context (inventory : SymbolInventoryIndex) (scope : BoundedPathScope) (rule : CompiledWorkspacePathRule).

(** A walk of [n] of the references of the rule. *)
Definition leads (avoid : list SymbolId) (n : nat) (u v : InventorySymbol) : Prop :=
  nsteps (hop linkage table cat ri (pa_relation rule) avoid scope) n (i_id u) (i_id v).

(** A path within the depth of the rule, or none of any length, between two ordinals. *)
Definition joined (avoid : list SymbolId) (f t : SymbolOrdinal) : Prop :=
  exists u v n, record inventory f = Some u /\ record inventory t = Some v /\
    n <= max_depth (pa_limits rule) /\ leads avoid n u v.

Definition apart (avoid : list SymbolId) (f t : SymbolOrdinal) : Prop :=
  exists u v, record inventory f = Some u /\ record inventory t = Some v /\ forall n, ~ leads avoid n u v.

(** One search of the rule, and what it leaves. *)
Lemma search_pair_ok avoid limits o u v : in_budget rule o -> next_search_limits rule o = inr limits ->
  exists r, search_pair ri scope rule (i_id u) (i_id v) avoid limits = Ok r /\
  (po_evaluated_pairs o < pa_max_pairs rule)%N /\
  match r with
  | None => True
  | Some s =>
      in_budget rule (absorb s (record_coverage_reason rule s (next_pair o))) /\
      (path_found (i_id u) (i_id v) s = true -> exists n, n <= max_depth (pa_limits rule) /\ leads avoid n u v) /\
      (path_found (i_id u) (i_id v) s = false -> search_complete rule s = true -> forall n, ~ leads avoid n u v)
  end.
Proof using RL Hio Hcat.
  intros Hb Hl. pose proof (next_limits_ok rule o Hb) as H. rewrite Hl in H. destruct H as (H1 & Hd & Hs & He).
  destruct (search_ok linkage table cat roots ri Hio Hcat (pa_relation rule) scope avoid limits (i_id u) (i_id v))
    as (r & Hr & Hans).
  exists r. split; [exact Hr |]. split; [exact H1 |]. destruct r as [s |]; [| done].
  destruct Hans as (Hes & Hee & Hyes & Hno). rewrite Hd in Hyes.
  split; [by apply (searched_budget rule o limits) |]. split; [exact Hyes |].
  intros Hf (Hc1 & Hc2 & Hc3 & _)%complete_limits. by apply Hno.
Qed.

Lemma pair_loop_ok l : forall o, in_budget rule o -> po_found o = false ->
  exists o', pair_loop inventory ri scope rule l o = Ok o' /\ in_budget rule o' /\
    (po_evaluated_pairs o' <= po_evaluated_pairs o + N.of_nat (length l))%N /\
    (po_found o' = true -> exists f t, (f, t) ∈ l /\ joined [] f t) /\
    (po_found o' = false -> po_incomplete o' = false ->
     po_evaluated_pairs o' = (po_evaluated_pairs o + N.of_nat (length l))%N ->
     po_incomplete o = false /\ forall f t, (f, t) ∈ l -> apart [] f t).
Proof using RL Hio Hcat.
  induction l as [| [f t] l IH]; intros o Hb Hf; cbn [pair_loop].
  - exists o. split; [done |]. split; [done |]. split; [lia |]. split; [congruence |].
    intros _ Hi _. split; [done |]. intros f t H. by apply not_elem_of_nil in H.
  - unfold pair_step. destruct (next_search_limits rule o) as [o1 | limits] eqn:Hl.
    { pose proof (next_limits_ok rule o Hb) as H. rewrite Hl in H. pose proof (core_fields _ _ H) as (_ & H2 & _ & H4 & _).
      exists o1. split; [done |]. split; [by apply (in_budget_core rule o); [symmetry |] |].
      rewrite H4, H2. split; [lia |]. split; [congruence |]. cbn [length]. lia. }
    assert (forall reason, exists o', pair_loop inventory ri scope rule l (set_incomplete true (insert_reason reason o)) = Ok o' /\
      in_budget rule o' /\ (po_evaluated_pairs o' <= po_evaluated_pairs o + N.of_nat (length l))%N /\
      (po_found o' = true -> exists f t, (f, t) ∈ l /\ joined [] f t)) as Hskip.
    { intros reason. destruct (IH (set_incomplete true (insert_reason reason o)) Hb Hf) as (o' & H1 & H2 & H3 & H4 & _).
      by exists o'. }
    destruct (record inventory f) as [u |] eqn:Hu.
    2: { destruct (Hskip (bs "source_symbol_missing")) as (o' & H1 & H2 & H3 & H4). exists o'. split; [exact H1 |].
         split; [done |]. cbn [length]. split; [lia |]. split; [| lia].
         intros Hfo. destruct (H4 Hfo) as (f' & t' & Hin & Hj). exists f', t'. split; [by right | done]. }
    destruct (record inventory t) as [v |] eqn:Hv.
    2: { destruct (Hskip (bs "target_symbol_missing")) as (o' & H1 & H2 & H3 & H4). exists o'. split; [exact H1 |].
         split; [done |]. cbn [length]. split; [lia |]. split; [| lia].
         intros Hfo. destruct (H4 Hfo) as (f' & t' & Hin & Hj). exists f', t'. split; [by right | done]. }
    destruct (search_pair_ok [] limits o u v Hb Hl) as (r & -> & Hlt & Hans). cbn [mbind res_bind].
    destruct r as [s |].
    2: { cbn [mret res_ret]. set (o1 := set_incomplete _ _).
         destruct (IH o1) as (o' & H1 & H2 & H3 & H4 & H5); [| done |].
         { destruct Hb as (B1 & B2 & B3). unfold in_budget, o1. cbn. lia. }
         exists o'. split; [exact H1 |]. split; [done |]. unfold o1 in H3, H5. cbn in H3, H5. cbn [length].
         split; [lia |]. split.
         - intros Hfo. destruct (H4 Hfo) as (f' & t' & Hin & Hj). exists f', t'. split; [by right | done].
         - intros G1 G2 G3. destruct H5 as [H5 _]; [done | done | lia |]. by rewrite orb_true_r in H5. }
    destruct Hans as (Hb1 & Hyes & Hno).
    destruct (searched_fields rule s o) as (_ & F2 & F3 & F4 & _). set (o1 := absorb _ _) in *. clearbody o1.
    destruct (path_found (i_id u) (i_id v) s) eqn:Hpf; cbn [mret res_ret mbind res_bind].
    + exists (set_found o1). split; [done |]. split; [exact Hb1 |]. cbn [po_found set_found po_evaluated_pairs length].
      rewrite F4. split; [lia |]. split; [| done]. intros _. exists f, t. split; [by left |].
      destruct (Hyes eq_refl) as (n & Hn & Hleads). by exists u, v, n.
    + destruct (IH (set_incomplete (negb (search_complete rule s)) o1)) as (o' & H1 & H2 & H3 & H4 & H5);
        [exact Hb1 | cbn; by rewrite F2 |].
      exists o'. split; [exact H1 |]. split; [done |]. cbn in H3, H5. rewrite F4 in H3, H5. cbn [length].
      split; [lia |]. split.
      * intros Hfo. destruct (H4 Hfo) as (f' & t' & Hin & Hj). exists f', t'. split; [by right | done].
      * intros G1 G2 G3. destruct H5 as [H5 Hall]; [done | done | lia |]. rewrite F3 in H5.
        apply orb_false_iff in H5 as [H5 Hc%negb_false_iff]. split; [done |].
        intros f' t' [[= -> ->] | Hin]%elem_of_cons; [| by apply Hall].
        exists u, v. split; [done |]. split; [done |]. by apply Hno.
Qed.

Lemma elem_of_pairs (from to_ : SymbolSet) f t :
  (f, t) ∈ pairs from to_ <-> set_contains from f = true /\ set_contains to_ t = true.
Proof using RL.
  unfold pairs. rewrite list_elem_of_In, in_concat. rewrite <- !in_iter. split.
  - intros (l & (f' & <- & Hf)%in_map_iff & (t' & [= -> ->] & Ht)%in_map_iff). split; by apply list_elem_of_In.
  - intros [Hf Ht]. exists (map (pair f) (set_iter to_)). split; apply in_map_iff.
    + exists f. split; [done | by apply list_elem_of_In].
    + exists t. split; [done | by apply list_elem_of_In].
Qed.

Lemma length_pairs (from to_ : SymbolSet) : N.of_nat (length (pairs from to_)) = (set_len from * set_len to_)%N.
Proof using RL.
  unfold pairs, set_len. rewrite !bm_len_iter. change bm_iter with set_iter.
  induction (set_iter from) as [| f l IH]; [done |]. cbn [map concat length]. rewrite length_app, length_map. lia.
Qed.

(** The rules on the existence of a path. *)
Lemma existence_ok (from to_ via : SymbolSet) :
  pa_expect rule <> ConfigData.AllPathsVia -> set_is_empty from = false -> set_is_empty to_ = false ->
  (set_len from * set_len to_ <= usize_max)%N ->
  exists o, evaluate_path_rule inventory (Some ri) scope rule from to_ via = Ok o /\ in_budget rule o /\
    let exists_ := exists f t, set_contains from f = true /\ set_contains to_ t = true /\ joined [] f t in
    let none := forall f t, set_contains from f = true -> set_contains to_ t = true -> apart [] f t in
    match po_verdict o with
    | Some VPass => match pa_expect rule with ConfigData.NoPath => none | _ => exists_ end
    | Some VFail => match pa_expect rule with ConfigData.NoPath => exists_ | _ => none end
    | Some VInconclusive => po_incomplete o = true
    | None => False
    end.
Proof using RL Hio Hcat.
  intros He Hf Ht Hsize. unfold evaluate_path_rule. rewrite Hf, Ht. cbn [orb].
  destruct (pair_loop_ok (pairs from to_) outcome_default (budget_default rule) eq_refl) as (o & Ho & Hb & Hle & Hyes & Hno).
  rewrite length_pairs in Hle, Hno. change (po_evaluated_pairs outcome_default) with 0%N in Hle, Hno.
  assert (exists o', (match pa_expect rule with
    | ConfigData.AllPathsVia => evaluate_all_paths_via inventory ri scope rule from to_ via
    | e => o ← pair_loop inventory ri scope rule (pairs from to_) outcome_default;
           mret (finish e (N.min (set_len from * set_len to_) usize_max) o) end) = Ok o' /\
    o' = finish (pa_expect rule) (set_len from * set_len to_) o) as (o' & Heq & ->).
  { rewrite Ho, N.min_l by done. by destruct (pa_expect rule); try done; eexists. }
  eexists. split; [exact Heq |]. split; [by destruct Hb as (B1 & B2 & B3) |].
  cbv zeta. unfold finish. cbn [po_verdict set_verdict po_found set_incomplete po_incomplete].
  destruct (po_found o) eqn:Hfound.
  - assert (exists f t, set_contains from f = true /\ set_contains to_ t = true /\ joined [] f t) as Hex.
    { destruct (Hyes eq_refl) as (f & t & [Hin1 Hin2]%elem_of_pairs & Hj). by exists f, t. }
    destruct (pa_expect rule); done.
  - destruct (po_incomplete o) eqn:Hinc; [done |]. cbn [orb negb]. rewrite andb_true_r.
    destruct (po_evaluated_pairs o <? set_len from * set_len to_)%N eqn:Hlt; [done |]. apply N.ltb_ge in Hlt.
    destruct (Hno eq_refl eq_refl) as [_ Hall]; [lia |].
    assert (forall f t, set_contains from f = true -> set_contains to_ t = true -> apart [] f t) as Hnone.
    { intros f t H1 H2. apply Hall. by apply elem_of_pairs. }
    destruct (pa_expect rule); done.
Qed.

(** ** Paths that cross a set *)

Section via.
Context (avoid : list SymbolId) (f : SymbolOrdinal) (from : InventorySymbol) (Hfrom : record inventory f = Some from).

(** What an early return says. *)
Definition stopped (targets : list SymbolOrdinal) (o : PathOutcome) : Prop :=
  in_budget rule o /\
  (po_verdict o = Some VInconclusive \/ (po_verdict o = Some VFail /\ exists t, t ∈ targets /\ joined avoid f t)).

Lemma stopped_limit targets o o1 : core o1 = core o -> in_budget rule o -> stopped targets (set_verdict VInconclusive o1).
Proof using. intros H Hb. split; [exact (in_budget_core rule o o1 (eq_sym H) Hb) | by left]. Qed.

(** What the loop over targets knows of its source. *)
Record surveyed (targets : list SymbolOrdinal) (s s' : SourceState) : Prop := mk_surveyed {
  sv_budget : in_budget rule (ss_outcome s');
  sv_incomplete : po_incomplete (ss_outcome s') = po_incomplete (ss_outcome s);
  sv_connected : source_connected s' = true -> source_connected s = true \/ exists t, t ∈ targets /\ joined [] f t;
  sv_complete : source_complete s' = true -> source_complete s = true /\ forall t, t ∈ targets -> apart avoid f t;
  sv_none : source_complete s' = true -> source_connected s' = false ->
    source_connected s = false /\ forall t, t ∈ targets -> apart [] f t
}.

Lemma apart_avoids t : apart [] f t -> apart avoid f t.
Proof using.
  intros (u & v & Hu & Hv & Hn). exists u, v. split; [done |]. split; [done |]. intros n H. apply (Hn n).
  eapply walk_avoids; [| exact H]. intros x Hx. by apply not_elem_of_nil in Hx.
Qed.

Lemma absorb_budget o o1 s : core o1 = core (next_pair o) ->
  in_budget rule (absorb s (record_coverage_reason rule s (next_pair o))) -> in_budget rule (absorb s o1).
Proof using.
  intros Hc Hb. apply core_fields in Hc as (_ & _ & _ & H4 & H5 & H6). unfold in_budget in *.
  destruct (absorb_fields s o1) as (_ & _ & _ & -> & -> & ->). rewrite H4, H5, H6.
  destruct (searched_fields rule s o) as (_ & _ & _ & E1 & E2 & E3). rewrite E1, E2, E3 in Hb. exact Hb.
Qed.

Lemma budget_next o : in_budget rule o -> (po_evaluated_pairs o < pa_max_pairs rule)%N -> in_budget rule (next_pair o).
Proof using. intros (H1 & H2 & H3) H. unfold in_budget. cbn. lia. Qed.

Lemma bypass_step_ok s t to_ : record inventory t = Some to_ -> in_budget rule (ss_outcome s) ->
  source_connected s = true ->
  exists step, bypass_step ri scope rule avoid s from to_ = Ok step /\
  match step with
  | inl o => stopped [t] o
  | inr s' => in_budget rule (ss_outcome s') /\ po_incomplete (ss_outcome s') = po_incomplete (ss_outcome s) /\
      source_connected s' = true /\
      (source_complete s' = true -> source_complete s = true /\ apart avoid f t)
  end.
Proof using RL Hio Hcat Hfrom.
  intros Ht Hb Hconn. unfold bypass_step. destruct (next_search_limits rule (ss_outcome s)) as [o1 | limits] eqn:Hl.
  { pose proof (next_limits_ok rule _ Hb) as H. rewrite Hl in H. eexists. split; [reflexivity |].
    by apply (stopped_limit _ (ss_outcome s)). }
  destruct (search_pair_ok avoid limits (ss_outcome s) from to_ Hb Hl) as (r & -> & Hlt & Hans). cbn [mbind res_bind].
  destruct r as [b |]; [| eexists; split; [reflexivity |]; cbn; split; [by apply budget_next | by split_and!]].
  destruct Hans as (Hb1 & Hyes & Hno). destruct (path_found (i_id from) (i_id to_) b) eqn:Hpf.
  - eexists. split; [reflexivity |]. split.
    + exact (absorb_budget (ss_outcome s) (set_witness (ps_path b) (record_coverage_reason rule b (next_pair (ss_outcome s))))
        b (coverage_reason_core rule b _) Hb1).
    + right. split; [done |]. exists t. split; [by left |]. destruct (Hyes eq_refl) as (n & Hn & Hleads). by exists from, to_, n.
  - eexists. split; [reflexivity |]. cbn [ss_outcome source_connected source_complete].
    split; [exact Hb1 |]. destruct (searched_fields rule b (ss_outcome s)) as (_ & _ & F3 & _).
    split; [exact F3 |]. split; [done |]. intros [Hc1 Hc2]%andb_true_iff. split; [done |].
    exists from, to_. split; [done |]. split; [done |]. by apply Hno.
Qed.

Lemma via_step_ok s t : in_budget rule (ss_outcome s) ->
  exists step, via_step inventory ri scope rule avoid s from t = Ok step /\
  match step with inl o => stopped [t] o | inr s' => surveyed [t] s s' end.
Proof using RL Hio Hcat Hfrom.
  intros Hb. unfold via_step. destruct (record inventory t) as [to_ |] eqn:Ht.
  2: { eexists. split; [reflexivity |]. split; cbn; [exact Hb | done | by left | done | done]. }
  destruct (next_search_limits rule (ss_outcome s)) as [o1 | limits] eqn:Hl.
  { pose proof (next_limits_ok rule _ Hb) as H. rewrite Hl in H. eexists. split; [reflexivity |].
    by apply (stopped_limit _ (ss_outcome s)). }
  destruct (search_pair_ok [] limits (ss_outcome s) from to_ Hb Hl) as (r & -> & Hlt & Hans). cbn [mbind res_bind].
  destruct r as [b |].
  2: { eexists; split; [reflexivity |]. split; cbn; [by apply budget_next | done | by left | done | done]. }
  destruct Hans as (Hb1 & Hyes & Hno). destruct (searched_fields rule b (ss_outcome s)) as (_ & _ & F3 & _).
  set (o1 := absorb _ _) in *. clearbody o1.
  destruct (path_found (i_id from) (i_id to_) b) eqn:Hpf; cbn [negb].
  - destruct (Hyes eq_refl) as (n & Hn & Hleads).
    assert (joined [] f t) as Hj by by exists from, to_, n.
    destruct (bypass_step_ok (mk_source_state o1 true (source_complete s && search_complete rule b)) t to_ Ht Hb1 eq_refl)
      as (step & -> & Hstep). exists step. split; [done |]. destruct step as [o | s']; [exact Hstep |].
    destruct Hstep as (G1 & G2 & G3 & G4). cbn in G2, G4. split; [exact G1 | by rewrite G2 | | | by rewrite G3].
    + intros _. right. exists t. split; [by left | done].
    + intros [[G5 _]%andb_true_iff G6]%G4. split; [done |]. by intros t' ->%list_elem_of_singleton.
  - eexists. split; [reflexivity |].
    assert (search_complete rule b = true -> apart [] f t) as Hap.
    { intros Hc. exists from, to_. split; [done |]. split; [done |]. by apply Hno. }
    split; cbn; [exact Hb1 | exact F3 | by left | |].
    + intros [G5 G6]%andb_true_iff. split; [done |]. intros t' ->%list_elem_of_singleton. by apply apart_avoids, Hap.
    + intros [G5 G6]%andb_true_iff Hn. split; [done |]. intros t' ->%list_elem_of_singleton. by apply Hap.
Qed.

Lemma via_targets_ok targets : forall s, in_budget rule (ss_outcome s) ->
  exists step, via_targets inventory ri scope rule avoid from targets s = Ok step /\
  match step with inl o => stopped targets o | inr s' => surveyed targets s s' end.
Proof using RL Hio Hcat Hfrom.
  induction targets as [| t targets IH]; intros s Hb; cbn [via_targets].
  - exists (inr s). split; [done |]. split; [done | done | by left | |]; intros H; [| intros Hn]; (split; [done |]);
      intros t Ht; by apply not_elem_of_nil in Ht.
  - destruct (via_step_ok s t Hb) as (step & -> & Hstep). cbn [mbind res_bind]. destruct step as [o | s1].
    { exists (inl o). split; [done |]. destruct Hstep as [G1 [G2 | (G2 & t' & ->%list_elem_of_singleton & G3)]]; (split; [done |]); [by left |].
      right. split; [done |]. exists t. split; [by left | done]. }
    destruct Hstep as [S1 S2 S3 S4 S5]. destruct (IH s1 S1) as (step & -> & Hstep). exists step. split; [done |].
    destruct step as [o | s'].
    + destruct Hstep as [G1 [G2 | (G2 & t' & G3 & G4)]]; (split; [done |]); [by left |].
      right. split; [done |]. exists t'. split; [by right | done].
    + destruct Hstep as [G1 G2 G3 G4 G5]. split; [done | congruence | | |].
      * intros H. destruct (G3 H) as [H1 | (t' & Hin & Hj)]; [| right; exists t'; split; [by right | done]].
        destruct (S3 H1) as [? | (t' & Hin%list_elem_of_singleton & Hj)]; [by left |].
        right. exists t'. split; [subst; by left | done].
      * intros H. destruct (G4 H) as [H1 Hall]. destruct (S4 H1) as [H2 Hall1]. split; [done |].
        intros t' [-> | Hin]%elem_of_cons; [apply Hall1; by left | by apply Hall].
      * intros H Hn. destruct (G5 H Hn) as [H1 Hall]. destruct (G4 H) as [Hc _]. destruct (S5 Hc H1) as [H2 Hall1].
        split; [done |]. intros t' [-> | Hin]%elem_of_cons; [apply Hall1; by left | by apply Hall].
Qed.
End via.

(** The verdict of a rule on paths that cross a set. *)
Definition via_verdict (avoid : list SymbolId) (targets sources : list SymbolOrdinal) (o : PathOutcome) : Prop :=
  match po_verdict o with
  | Some VPass => forall f, f ∈ sources -> (exists t, t ∈ targets /\ joined [] f t) /\ forall t, t ∈ targets -> apart avoid f t
  | Some VFail => (exists f t, f ∈ sources /\ t ∈ targets /\ joined avoid f t) \/
      exists f, f ∈ sources /\ forall t, t ∈ targets -> apart [] f t
  | Some VInconclusive => True
  | None => False
  end.

Lemma via_sources_ok avoid targets sources : forall o, in_budget rule o ->
  exists o', via_sources inventory ri scope rule avoid targets sources o = Ok o' /\ in_budget rule o' /\
    via_verdict avoid targets sources o' /\ (po_verdict o' = Some VPass -> po_incomplete o = false).
Proof using RL Hio Hcat.
  induction sources as [| f sources IH]; intros o Hb; cbn [via_sources].
  - eexists. split; [reflexivity |]. split; [exact Hb |]. unfold via_verdict. cbn.
    destruct (po_incomplete o); (split; [| done]); [done |]. intros f Hf. by apply not_elem_of_nil in Hf.
  - assert (forall o', via_verdict avoid targets sources o' -> po_verdict o' <> Some VPass -> via_verdict avoid targets (f :: sources) o') as Hwiden.
    { intros o'. unfold via_verdict. destruct (po_verdict o') as [[] |]; try done. intros H _.
      destruct H as [(f' & t & Hf & Ht & Hj) | (f' & Hf & Hall)]; [left; exists f', t | right; exists f']; (split; [by right | done]). }
    destruct (record inventory f) as [from |] eqn:Hfrom.
    2: { destruct (IH (set_incomplete true (insert_reason (bs "source_symbol_missing") o)) Hb) as (o' & -> & H1 & H2 & H3).
         exists o'. split; [done |]. split; [done |].
         assert (po_verdict o' <> Some VPass) as Hn by (intros H; apply H3 in H; cbn in H; by rewrite orb_true_r in H).
         split; [by apply Hwiden | done]. }
    destruct (via_targets_ok avoid f from Hfrom targets (mk_source_state o false true) Hb) as (step & -> & Hstep).
    cbn [mbind res_bind]. destruct step as [o1 | s].
    { exists o1. split; [done |]. destruct Hstep as [G1 [G2 | (G2 & t & G3 & G4)]]; (split; [done |]); unfold via_verdict; rewrite G2;
        (split; [| done]); [done |]. left. exists f, t. split; [by left | done]. }
    destruct Hstep as [S1 S2 S3 S4 S5]. cbn in S2, S3, S4, S5. destruct (source_connected s) eqn:Hconn; cbn [negb].
    + destruct (IH (set_incomplete (negb (source_complete s)) (ss_outcome s)) S1) as (o' & -> & H1 & H2 & H3).
      exists o'. split; [done |]. split; [done |]. cbn in H3. rewrite S2 in H3. split.
      * destruct (decide (po_verdict o' = Some VPass)) as [Hv | Hv]; [| by apply Hwiden].
        apply H3 in Hv as Hc. apply orb_false_iff in Hc as [_ Hc%negb_false_iff].
        unfold via_verdict in *. rewrite Hv in *. intros f' [-> | Hin]%elem_of_cons; [| by apply H2].
        split; [by destruct (S3 eq_refl) as [? | ?] | by apply S4].
      * intros Hv. apply H3 in Hv. by apply orb_false_iff in Hv as [? _].
    + eexists. split; [reflexivity |]. split; [exact S1 |]. unfold via_verdict. cbn.
      destruct (source_complete s) eqn:Hcomp; (split; [| done]); [| done]. right. exists f. split; [by left |].
      by apply S5.
Qed.

Lemma all_via_ok (from to_ via : SymbolSet) : pa_expect rule = ConfigData.AllPathsVia ->
  set_is_empty from = false -> set_is_empty to_ = false ->
  exists o, evaluate_path_rule inventory (Some ri) scope rule from to_ via = Ok o /\ in_budget rule o /\
    (via_verdict (map i_id (omap (record inventory) (set_iter via))) (set_iter to_) (set_iter from) o \/
     (set_is_empty via = true /\ po_verdict o = Some (if pa_require_non_empty rule then VFail else VInconclusive))).
Proof using RL Hio Hcat.
  intros He Hf Ht. unfold evaluate_path_rule. rewrite Hf, Ht, He. cbn [orb]. unfold evaluate_all_paths_via.
  destruct (set_is_empty via) eqn:Hv.
  - eexists. split; [reflexivity |]. unfold empty_selector.
    destruct (pa_require_non_empty rule); (split; [apply (budget_default rule) |]); by right.
  - destruct (_ || _).
    + eexists. split; [reflexivity |]. split; [apply (budget_default rule) | by left].
    + destruct (via_sources_ok (map i_id (omap (record inventory) (set_iter via))) (set_iter to_) (set_iter from)
        outcome_default (budget_default rule)) as (o & Ho & Hb & Hverdict & _).
      exists o. split; [exact Ho |]. split; [exact Hb | by left].
Qed.
End rule.
End PathRuleFacts.

Module PathRuleTheorems.
Import Snapshot Inventory InventoryInv LinkIndex LinkIndexFacts LinkIndexTheorems Paths PathSets PathAnswers
  WorkspaceRules PathRules PathRuleFacts.

Section theorems.
Context {R : Roaring} {RL : RoaringLaws R} {HO : HashOrder} {RE : RegexEngine}.

(** C7: the verdict of a rule on the existence of a path is a fact of the graph of the
    resolved references: over the read index of a snapshot the evaluation always
    returns; a rule that expects no path passes only when no path of any length
    leads from a source to a target, and fails only when one within the depth does;
    a rule that expects a path passes and fails in the opposite cases; otherwise it
    says that it cannot tell; and pairs, symbols and edges stay in the budget. *)
Theorem path_verdict_exact linkage table cat roots inventory scope rule (from to_ via : SymbolSet)
    (Hs : StronglySorted id_lt (r_id <$> iter table)) (Hn : narrow (length (iter table)))
    (Hcat : catalog_ok cat) (Hnd : NoDup (e_reference <$> resolved linkage))
    (He : pa_expect rule <> ConfigData.AllPathsVia) (Hf : set_is_empty from = false) (Ht : set_is_empty to_ = false)
    (Hsize : (set_len from * set_len to_ <= usize_max)%N) :
  exists ri o, from_snapshot_with_catalog (E:=()) linkage table cat roots = Ok ri /\
    evaluate_path_rule inventory (Some ri) scope rule from to_ via = Ok o /\ in_budget rule o /\
    let some := exists f t, set_contains from f = true /\ set_contains to_ t = true /\
                  joined linkage table cat ri inventory scope rule [] f t in
    let none := forall f t, set_contains from f = true -> set_contains to_ t = true ->
                  apart linkage table cat ri inventory scope rule [] f t in
    match po_verdict o with
    | Some VPass => match pa_expect rule with ConfigData.NoPath => none | _ => some end
    | Some VFail => match pa_expect rule with ConfigData.NoPath => some | _ => none end
    | Some VInconclusive => po_incomplete o = true
    | None => False
    end.
Proof using RL.
  destruct (read_index_built linkage table cat roots Hs Hn Hcat Hnd) as (ri & Hri & Hio).
  destruct (existence_ok linkage table cat roots ri Hio Hcat inventory scope rule from to_ via He Hf Ht Hsize)
    as (o & Ho & Hb & Hv).
  exists ri, o. split; [exact Hri |]. split; [exact Ho |]. split; [exact Hb | exact Hv].
Qed.

(** C22: a rule that all the paths cross a set is decided on the graph too: it passes only
    when every source reaches a target and no path of any length leads from a source
    to a target around the symbols of the set; it fails only when such a path exists
    within the depth, or when some source reaches no target at all, or when the set
    is empty and had to be non-empty; the evaluation always returns and stays in the
    budget. *)
Theorem all_paths_via_exact linkage table cat roots inventory scope rule (from to_ via : SymbolSet)
    (Hs : StronglySorted id_lt (r_id <$> iter table)) (Hn : narrow (length (iter table)))
    (Hcat : catalog_ok cat) (Hnd : NoDup (e_reference <$> resolved linkage))
    (He : pa_expect rule = ConfigData.AllPathsVia) (Hf : set_is_empty from = false) (Ht : set_is_empty to_ = false) :
  exists ri o, from_snapshot_with_catalog (E:=()) linkage table cat roots = Ok ri /\
    evaluate_path_rule inventory (Some ri) scope rule from to_ via = Ok o /\ in_budget rule o /\
    let avoid := map i_id (omap (record inventory) (set_iter via)) in
    let joined := joined linkage table cat ri inventory scope rule in
    let apart := apart linkage table cat ri inventory scope rule in
    match po_verdict o with
    | Some VPass => forall f, f ∈ set_iter from ->
        (exists t, t ∈ set_iter to_ /\ joined [] f t) /\ forall t, t ∈ set_iter to_ -> apart avoid f t
    | Some VFail =>
        (exists f t, f ∈ set_iter from /\ t ∈ set_iter to_ /\ joined avoid f t) \/
        (exists f, f ∈ set_iter from /\ forall t, t ∈ set_iter to_ -> apart [] f t) \/
        (set_is_empty via = true /\ pa_require_non_empty rule = true)
    | Some VInconclusive => True
    | None => False
    end.
Proof using RL.
  destruct (read_index_built linkage table cat roots Hs Hn Hcat Hnd) as (ri & Hri & Hio).
  destruct (all_via_ok linkage table cat roots ri Hio Hcat inventory scope rule from to_ via He Hf Ht)
    as (o & Ho & Hb & Hv).
  exists ri, o. split; [exact Hri |]. split; [exact Ho |]. split; [exact Hb |]. cbv zeta.
  destruct Hv as [Hv | [Hvia ->]].
  - unfold via_verdict in Hv. destruct (po_verdict o) as [[] |]; try done. destruct Hv as [Hv | Hv]; [by left | right; by left].
  - destruct (pa_require_non_empty rule); [right; by right | done].
Qed.
End theorems.
End PathRuleTheorems.

(** ** Rules on a concrete graph: 0.0 leads to 0.1, and 0.1 to 1.0 *)

Module PathRuleSamples.
Import Snapshot Inventory InventoryInv LinkIndex LinkIndexFacts LinkIndexTheorems Paths PathSets PathAnswers
  WorkspaceRules PathRules PathRuleFacts PathRuleTheorems CheckFacts InventoryTheorems.
#[local] Existing Instances GsetRoaring.gset_roaring GsetRoaring.gset_roaring_laws one_hash Sample.plain_order PathFacts.substring_engine.

Definition sample_path_rule (expect : ConfigData.WorkspacePathExpectation) (coverage : N) : option CompiledWorkspacePathRule :=
  match compile_path
    (ConfigData.mk_path_entry (Some (bs "p")) (bs "name = 'Shop'") (bs "name = 'User'") expect
       (match expect with ConfigData.AllPathsVia => Some (bs "name = 'Cart'") | _ => None end) true
       [bs "calls"] 3 10 10 5 (Some coverage) Suppress.Report.Error None None None)
    0 (bs "code+moniker://") Config.allowed_workspace_kinds ∅ 100 with
  | Ok rule => Some rule
  | _ => None
  end.

Definition sample_verdict (expect : ConfigData.WorkspacePathExpectation) (from to_ via : N) :
    option (option RuleVerdict * N) :=
  rule ← sample_path_rule expect 0;
  match from_snapshot_with_catalog (E:=()) sample_linkage sample_references sample_catalog [0%N; 1%N] with
  | Ok ri =>
      match evaluate_path_rule sample_index (Some ri) all_scope rule (set_from_symbol from) (set_from_symbol to_)
        (set_from_symbol via) with
      | Ok o => Some (po_verdict o, po_evaluated_pairs o)
      | _ => None
      end
  | _ => None
  end.

Lemma sample_rule_compiles expect : exists rule, sample_path_rule expect 0 = Some rule /\ pa_expect rule = expect.
Proof.
  assert ((match sample_path_rule expect 0 with Some r => pa_expect r | None => ConfigData.Reachable end) = expect /\
    is_Some (sample_path_rule expect 0)) as [H [rule Hr]]
    by (destruct expect; (split; [vm_compute; reflexivity | vm_compute; by eexists])).
  rewrite Hr in H. exists rule. split; [exact Hr | exact H].
Qed.

Lemma one_not_empty (o : N) : set_is_empty (set_from_symbol o) = false.
Proof. apply set_not_empty. exists o. by apply in_from_symbol. Qed.

(** No call leads from 1.0 back to 0.0. *)
Lemma path_verdict_exact_witness :
  sample_verdict ConfigData.NoPath 2 0 1 = Some (Some VPass, 1%N) /\
  sample_verdict ConfigData.NoPath 0 2 1 = Some (Some VFail, 1%N) /\
  exists rule ri o, sample_path_rule ConfigData.NoPath 0 = Some rule /\
    from_snapshot_with_catalog (E:=()) sample_linkage sample_references sample_catalog [0%N; 1%N] = Ok ri /\
    evaluate_path_rule sample_index (Some ri) all_scope rule (set_from_symbol 2%N) (set_from_symbol 0%N)
      (set_from_symbol 1%N) = Ok o /\ in_budget rule o.
Proof.
  split; [vm_compute; reflexivity |]. split; [vm_compute; reflexivity |].
  destruct (sample_rule_compiles ConfigData.NoPath) as (rule & Hr & He).
  assert (pa_expect rule <> ConfigData.AllPathsVia) as Hne by (rewrite He; discriminate).
  assert ((set_len (set_from_symbol 2%N) * set_len (set_from_symbol 0%N) <= usize_max)%N) as Hsize
    by (apply N.leb_le; vm_compute; reflexivity).
  destruct (path_verdict_exact sample_linkage sample_references sample_catalog [0%N; 1%N] sample_index all_scope rule
    (set_from_symbol 2%N) (set_from_symbol 0%N) (set_from_symbol 1%N) sample_sorted sample_narrow sample_catalog_ok
    sample_edges_distinct Hne (one_not_empty 2%N) (one_not_empty 0%N) Hsize) as (ri & o & Hri & Ho & Hb & _).
  exists rule, ri, o. split; [exact Hr |]. split; [exact Hri |]. split; [exact Ho | exact Hb].
Defined.

(** The calls from 0.0 to 1.0 go through 0.1; those to 0.1 do not go through 1.0. *)
Lemma all_paths_via_exact_witness :
  sample_verdict ConfigData.AllPathsVia 0 2 1 = Some (Some VPass, 2%N) /\
  sample_verdict ConfigData.AllPathsVia 0 1 2 = Some (Some VFail, 2%N) /\
  exists rule ri o, sample_path_rule ConfigData.AllPathsVia 0 = Some rule /\
    from_snapshot_with_catalog (E:=()) sample_linkage sample_references sample_catalog [0%N; 1%N] = Ok ri /\
    evaluate_path_rule sample_index (Some ri) all_scope rule (set_from_symbol 0%N) (set_from_symbol 2%N)
      (set_from_symbol 1%N) = Ok o /\ in_budget rule o.
Proof.
  split; [vm_compute; reflexivity |]. split; [vm_compute; reflexivity |].
  destruct (sample_rule_compiles ConfigData.AllPathsVia) as (rule & Hr & He).
  destruct (all_paths_via_exact sample_linkage sample_references sample_catalog [0%N; 1%N] sample_index all_scope rule
    (set_from_symbol 0%N) (set_from_symbol 2%N) (set_from_symbol 1%N) sample_sorted sample_narrow sample_catalog_ok
    sample_edges_distinct He (one_not_empty 0%N) (one_not_empty 2%N)) as (ri & o & Hri & Ho & Hb & _).
  exists rule, ri, o. split; [exact Hr |]. split; [exact Hri |]. split; [exact Ho | exact Hb].
Defined.
End PathRuleSamples.
