(* ===== verification/IncrementalFacts.v ===== *)
(** Evaluation after a change: the difference of two versions of a file is a
    matching of their symbols, and the violations that an evaluation keeps,
    merged with those of the symbols it evaluates again, are those of a full
    evaluation when no clean symbol is taken for a dirty one. *)

From S2P Require Import Prelude.
From S2P Require Import RustStr.
From S2P Require Import Path.
From S2P Require Import DslAst.
From S2P Require Import Syntax.
From S2P Require Import Suppress.
From S2P Require Import SuppressFacts.
From S2P Require Import EvalCore.
From S2P Require Import ConfigData.
From S2P Require Import Config.
From S2P Require Import Check.
From S2P Require Import CheckFacts.
From S2P Require Import Bitmap.
From S2P Require Import Snapshot.
From S2P Require Import Inventory.
From S2P Require Import InventoryInv.
From S2P Require Import InventoryTheorems.
From S2P Require Import PathSets.
From S2P Require Import WorkspaceRules.
From S2P Require Import LinkIndex.
From S2P Require Import Indexed.
From S2P Require Import GroupRules.
From S2P Require Import LinkageRules.
From S2P Require Import PathRules.
From S2P Require Import WorkspaceEval.
From S2P Require Import SymbolRuleFacts.

Module IncrementalFacts.
Import EvalCore Snapshot WorkspaceEval.

(** ** Symbols by identity *)

Definition same_key (key : bytes) (r : SymbolRecord) : bool := beq (identity r) key.

(** How many records have an identity. *)
Definition occ (key : bytes) (l : list SymbolRecord) : nat := length (List.filter (same_key key) l).

Lemma occ_app key l k : occ key (l ++ k) = occ key l + occ key k.
Proof. unfold occ. by rewrite List.filter_app, length_app. Qed.

Lemma occ_one key r : occ key [r] = if same_key key r then 1 else 0.
Proof. unfold occ. cbn. by destruct (same_key key r). Qed.

(** The positions of an identity, in order. *)
Definition positions (key : bytes) (l : list SymbolRecord) : list nat :=
  omap (fun e : nat * SymbolRecord => if same_key key e.2 then Some e.1 else None) (imap pair l).

Lemma imap_snoc (l : list SymbolRecord) r : imap pair (l ++ [r]) = imap pair l ++ [(length l, r)].
Proof. rewrite imap_app. cbn. by rewrite Nat.add_0_r. Qed.

Lemma positions_snoc key l r :
  positions key (l ++ [r]) = positions key l ++ if same_key key r then [length l] else [].
Proof. unfold positions. rewrite imap_snoc, omap_app. cbn. by destruct (same_key key r). Qed.

Lemma length_ranks key l : length (positions key l) = occ key l.
Proof.
  induction l as [| r l IH] using rev_ind; [done |].
  rewrite positions_snoc, length_app, IH, occ_app, occ_one. by destruct (same_key key r).
Qed.

(** The [k]-th position of an identity. *)
Lemma ranks_lookup key l k j : positions key l !! k = Some j <->
  exists r, l !! j = Some r /\ identity r = key /\ occ key (take j l) = k.
Proof.
  revert k j. induction l as [| r l IH] using rev_ind; intros k j.
  { split; [done | by intros (r & Hr & _)]. }
  rewrite positions_snoc. split.
  - intros [H | [Hk H]]%lookup_app_Some.
    + apply IH in H as (r' & Hr & Hid & Ho). exists r'. pose proof (lookup_lt_Some _ _ _ Hr) as Hlt.
      rewrite lookup_app_l, take_app_le by lia. done.
    + destruct (same_key key r) eqn:Hs; [| by rewrite lookup_nil in H].
      apply list_lookup_singleton_Some in H as [Hk' <-]. rewrite length_ranks in Hk, Hk'.
      exists r. rewrite lookup_app_r, Nat.sub_diag, take_app_length by lia.
      split; [done |]. split; [by apply beq_true | lia].
  - intros (r' & Hr & Hid & Ho). apply lookup_app_Some in Hr as [Hr | [Hle Hr]].
    + pose proof (lookup_lt_Some _ _ _ Hr) as Hlt. rewrite take_app_le in Ho by lia.
      apply lookup_app_l_Some. apply IH. by exists r'.
    + apply list_lookup_singleton_Some in Hr as [Hj <-]. assert (j = length l) as -> by lia.
      rewrite take_app_length in Ho. unfold same_key. rewrite (proj2 (beq_true _ _) Hid).
      rewrite lookup_app_r by (rewrite length_ranks; lia). rewrite length_ranks, Ho, Nat.sub_diag. done.
Qed.

(** ** The positions that are left *)

Definition left_over (key : bytes) (next done_ : list SymbolRecord) : list nat :=
  drop (occ key done_) (positions key next).

Definition holds_left (next done_ : list SymbolRecord) (m : gmap bytes (list nat)) : Prop :=
  forall key, m !! key = match left_over key next done_ with [] => None | l => Some l end.

Lemma indexes_hold next : holds_left next [] (symbol_record_indexes next).
Proof.
  intros key. unfold left_over, symbol_record_indexes. cbn [occ List.filter length drop]. change (drop (occ key []) ?l) with l.
  induction next as [| r l IH] using rev_ind; [done |].
  rewrite imap_snoc, foldl_snoc, positions_snoc. cbn [fst snd].
  set (m := foldl _ _ _) in *. clearbody m. unfold push_at, same_key.
  destruct (decide (identity r = key)) as [<- | Hne].
  - rewrite lookup_insert_eq, beq_refl. unfold get_all. rewrite IH.
    destruct (positions (identity r) l); done.
  - rewrite lookup_insert_ne, IH by done. rewrite (proj2 (beq_false _ _) Hne), app_nil_r. done.
Qed.

Lemma drop_head {A} (l : list A) n : match drop n l with [] => l !! n = None | x :: r => l !! n = Some x /\ r = drop (S n) l end.
Proof.
  revert n. induction l as [| y l IH]; intros [| n]; cbn; [done | done | by rewrite drop_0 | apply IH].
Qed.

(** Taking the position of a record out. *)
Lemma pop_step next done_ m p : holds_left next done_ m ->
  match pop_index m (identity p) with
  | None => positions (identity p) next !! occ (identity p) done_ = None /\ holds_left next (done_ ++ [p]) m
  | Some (j, m') => positions (identity p) next !! occ (identity p) done_ = Some j /\ holds_left next (done_ ++ [p]) m'
  end.
Proof.
  intros Hm. unfold pop_index. rewrite (Hm (identity p)).
  pose proof (drop_head (positions (identity p) next) (occ (identity p) done_)) as Hd. unfold left_over.
  assert (forall key, key <> identity p -> left_over key next (done_ ++ [p]) = left_over key next done_) as Hother.
  { intros key Hne. unfold left_over. rewrite occ_app, occ_one. unfold same_key.
    rewrite (proj2 (beq_false _ _)) by congruence. by rewrite Nat.add_0_r. }
  assert (left_over (identity p) next (done_ ++ [p]) = drop (S (occ (identity p) done_)) (positions (identity p) next)) as Hown.
  { unfold left_over. rewrite occ_app, occ_one. unfold same_key. rewrite beq_refl. by rewrite Nat.add_1_r. }
  destruct (drop (occ (identity p) done_) (positions (identity p) next)) as [| j rest] eqn:E.
  - split; [exact Hd |]. intros key. destruct (decide (key = identity p)) as [-> | Hne].
    + rewrite Hown, (Hm _). unfold left_over. rewrite E. rewrite drop_ge; [done |].
      apply lookup_ge_None in Hd. lia.
    + by rewrite Hother, Hm.
  - destruct Hd as [Hj Hrest]. split; [exact Hj |]. intros key. destruct (decide (key = identity p)) as [-> | Hne].
    + rewrite Hown, <- Hrest. destruct rest as [| x rest]; cbn [is_nil]; [by rewrite lookup_delete_eq | by rewrite lookup_insert_eq].
    + rewrite (Hother key Hne), <- (Hm key). destruct rest as [| x rest]; cbn [is_nil];
        [by rewrite lookup_delete_ne | by rewrite lookup_insert_ne].
Qed.

(** ** What a difference holds *)

(** The partner of a record that follows [done_]: the record of the same identity
    and rank. *)
Definition partner (next done_ : list SymbolRecord) (p : SymbolRecord) : option SymbolRecord :=
  positions (identity p) next !! occ (identity p) done_ ≫= fun j => next !! j.

Definition contribution (next done_ : list SymbolRecord) (p : SymbolRecord) : CodeIndexGraphDiff :=
  match partner next done_ p with
  | None => mk_diff [] [] [] [s_id p] [] [] [] [identity p] [] 0
  | Some n => diff_pair p n
  end.

Fixpoint contributions (next done_ previous : list SymbolRecord) : list CodeIndexGraphDiff :=
  match previous with
  | [] => []
  | p :: previous => contribution next done_ p :: contributions next (done_ ++ [p]) previous
  end.

Lemma positions_in_range key next k j : positions key next !! k = Some j -> is_Some (next !! j).
Proof. intros (r & Hr & _)%ranks_lookup. by exists r. Qed.

Lemma previous_loop next previous : forall done_ d m, holds_left next done_ m ->
  exists m', fold_res (diff_previous next) (d, m) previous =
    Ok (foldl diff_app d (contributions next done_ previous), m') /\ holds_left next (done_ ++ previous) m'.
Proof.
  induction previous as [| p previous IH]; intros done_ d m Hm; cbn [fold_res contributions foldl].
  - exists m. by rewrite app_nil_r.
  - pose proof (pop_step next done_ m p Hm) as Hp. unfold diff_previous at 2.
    replace (done_ ++ p :: previous) with ((done_ ++ [p]) ++ previous) by (by rewrite <- app_assoc).
    unfold contribution, partner. destruct (pop_index m (identity p)) as [[j m'] |].
    + destruct Hp as [Hj Hm']. destruct (positions_in_range _ _ _ _ Hj) as [n Hn]. rewrite Hj. cbn [mbind option_bind].
      rewrite Hn. cbn [mret res_ret mbind res_bind]. by apply IH.
    + destruct Hp as [Hj Hm']. rewrite Hj. cbn [mbind option_bind mret res_ret res_bind]. by apply IH.
Qed.

(** A field of a sum of differences. *)
Lemma field_of_sum {A} (f : CodeIndexGraphDiff -> list A) l :
  (forall a b, f (diff_app a b) = f a ++ f b) -> forall d, f (foldl diff_app d l) = f d ++ concat (map f l).
Proof.
  intros Hf. induction l as [| x l IH]; intros d; cbn [foldl map concat]; [by rewrite app_nil_r |].
  by rewrite IH, Hf, <- app_assoc.
Qed.

Lemma elem_of_contributions {A} (f : CodeIndexGraphDiff -> list A) next previous (x : A) : forall done_,
  x ∈ concat (map f (contributions next done_ previous)) <->
  exists a p, previous !! a = Some p /\ x ∈ f (contribution next (done_ ++ take a previous) p).
Proof.
  induction previous as [| p previous IH]; intros done_; cbn [contributions map concat].
  - split; [by intros ?%not_elem_of_nil | by intros (a & p & Ha & _)].
  - rewrite elem_of_app, IH. split.
    + intros [H | (a & q & Ha & H)]; [exists 0, p; by rewrite app_nil_r |].
      exists (S a), q. cbn [take lookup list_lookup]. rewrite <- app_assoc in H. done.
    + intros ([| a] & q & Ha & H); cbn in Ha, H; [injection Ha as <-; left; by rewrite app_nil_r in H |].
      right. exists a, q. rewrite <- app_assoc. done.
Qed.

(** Two records of the same identity and the same rank. *)
Definition matched (previous next : list SymbolRecord) (p n : SymbolRecord) : Prop :=
  exists a j, previous !! a = Some p /\ next !! j = Some n /\ identity n = identity p /\
    occ (identity p) (take j next) = occ (identity p) (take a previous).

Lemma partner_matched previous next p n :
  (exists a, previous !! a = Some p /\ partner next (take a previous) p = Some n) <-> matched previous next p n.
Proof.
  unfold partner, matched. split.
  - intros (a & Ha & (j & (r & Hr & Hid & Ho)%ranks_lookup & Hn)%bind_Some).
    assert (r = n) as -> by congruence. by exists a, j.
  - intros (a & j & Ha & Hn & Hid & Ho). exists a. split; [done |]. apply bind_Some. exists j. split; [| done].
    apply ranks_lookup. by exists n.
Qed.

Lemma partner_none next done_ p : partner next done_ p = None <-> occ (identity p) next <= occ (identity p) done_.
Proof.
  unfold partner. rewrite <- (length_ranks (identity p) next). split.
  - intros H. apply lookup_ge_None_1, eq_None_not_Some. intros [j Hj].
    destruct (positions_in_range _ _ _ _ Hj) as [n Hn]. rewrite Hj in H. cbn in H. congruence.
  - intros H. apply lookup_ge_None in H. by rewrite H.
Qed.

(** A field of the contributions, by the pairs. *)
Lemma elem_of_diff_pairs {A} (f : CodeIndexGraphDiff -> list A) previous next (x : A) :
  (forall id, f (mk_diff [] [] [] [s_id id] [] [] [] [identity id] [] 0) = []) ->
  x ∈ concat (map f (contributions next [] previous)) <->
  exists p n, matched previous next p n /\ x ∈ f (diff_pair p n).
Proof.
  intros Hf. rewrite elem_of_contributions. unfold contribution. split.
  - intros (a & p & Ha & Hx). change ([] ++ take a previous) with (take a previous) in Hx. destruct (partner next (take a previous) p) as [n |] eqn:Hp.
    + exists p, n. split; [apply partner_matched; by exists a | done].
    + rewrite Hf in Hx. by apply not_elem_of_nil in Hx.
  - intros (p & n & (a & Ha & Hp)%partner_matched & Hx). exists a, p. split; [done |]. change ([] ++ take a previous) with (take a previous). by rewrite Hp.
Qed.

Definition weight (d : CodeIndexGraphDiff) : nat :=
  length (removed_symbols d) + length (modified_symbols d) + length (modified_inventory_symbols d) + unchanged_symbols d.

Lemma contribution_weight next done_ p : weight (contribution next done_ p) = 1.
Proof.
  unfold contribution. destruct (partner next done_ p) as [n |]; [| done]. unfold diff_pair.
  destruct (symbol_linkage_fields_changed p n); [done |]. by destruct (symbol_inventory_fields_changed p n).
Qed.

Lemma contributions_weight next previous : forall done_ d,
  weight (foldl diff_app d (contributions next done_ previous)) = weight d + length previous.
Proof.
  induction previous as [| p previous IH]; intros done_ d; cbn [contributions foldl length]; [lia |].
  rewrite IH. pose proof (contribution_weight next done_ p) as H. revert H. unfold weight.
  destruct d, (contribution next done_ p). cbn. rewrite !length_app. lia.
Qed.

(** The positions left when all the previous records are matched. *)
Lemma elem_of_rest {HO : HashOrder} previous next rest j : holds_left next previous rest ->
  j ∈ concat (map snd (entries rest)) <->
  exists n, next !! j = Some n /\ occ (identity n) previous <= occ (identity n) (take j next).
Proof.
  intros Hr. rewrite list_elem_of_In, in_concat. split.
  - intros (l & ([key l'] & <- & Hin)%in_map_iff & Hj). cbn in Hj. apply list_elem_of_In in Hin, Hj.
    unfold entries in Hin. rewrite hash_order_perm, elem_of_map_to_list in Hin. rewrite (Hr key) in Hin.
    assert (j ∈ left_over key next previous) as Hl
      by (destruct (left_over key next previous); [done | by injection Hin as <-]).
    apply list_elem_of_lookup_1 in Hl as [k Hk]. unfold left_over in Hk. rewrite lookup_drop in Hk.
    apply ranks_lookup in Hk as (n & Hn & <- & Ho). exists n. split; [done | lia].
  - intros (n & Hn & Ho).
    assert (j ∈ left_over (identity n) next previous) as Hl.
    { apply list_elem_of_lookup_2 with (occ (identity n) (take j next) - occ (identity n) previous).
      unfold left_over. rewrite lookup_drop. apply ranks_lookup. exists n. split; [done |]. split; [done | lia]. }
    exists (left_over (identity n) next previous). split; [| by apply list_elem_of_In].
    apply in_map_iff. exists (identity n, left_over (identity n) next previous). split; [done |].
    apply list_elem_of_In. unfold entries. rewrite hash_order_perm, elem_of_map_to_list, (Hr (identity n)).
    destruct (left_over (identity n) next previous); [by apply not_elem_of_nil in Hl | done].
Qed.

Lemma nil_by_elem {A} (l : list A) : (forall x, ~ x ∈ l) -> l = [].
Proof. destruct l as [| x l]; [done |]. intros H. exfalso. apply (H x). by left. Qed.

Lemma diff_symbols_ok {HO : HashOrder} previous next : exists rest added,
  holds_left next previous rest /\
  (forall id, id ∈ added <-> exists j n, j ∈ concat (map snd (entries rest)) /\ next !! j = Some n /\ s_id n = id) /\
  diff_symbols previous next diff_default =
    Ok (diff_app (foldl diff_app diff_default (contributions next [] previous)) (mk_diff added [] added [] [] [] [] [] [] 0)).
Proof.
  unfold diff_symbols.
  destruct (previous_loop next previous [] diff_default _ (indexes_hold next)) as (rest & -> & Hrest).
  cbn [mbind res_bind app] in *.
  set (l := concat (map snd (entries rest))).
  assert (Forall (fun idx => (match next !! idx with Some n => mret (s_id n) | None => Panic end : res Empty_set SymbolId) =
    Ok (default (symbol_at 0 0) (s_id <$> next !! idx))) l) as Hl.
  { apply Forall_forall. intros j Hj. apply (elem_of_rest previous next rest j Hrest) in Hj as (n & -> & _). done. }
  rewrite (map_res_Ok _ _ l Hl). cbn [mbind res_bind mret res_ret]. eexists rest, _. split; [exact Hrest |].
  split; [| reflexivity]. intros id. rewrite list_elem_of_fmap. split.
  - intros (j & -> & Hj). pose proof Hj as (n & Hn & _)%(elem_of_rest previous next rest j Hrest).
    exists j, n. rewrite Hn. done.
  - intros (j & n & Hj & Hn & <-). exists j. rewrite Hn. done.
Qed.
(** The fields of the difference, one by one. *)
Section fields.
Context {HO : HashOrder} (previous next : list SymbolRecord).

Definition summed (added : list SymbolId) : CodeIndexGraphDiff :=
  diff_app (foldl diff_app diff_default (contributions next [] previous)) (mk_diff added [] added [] [] [] [] [] [] 0).

Lemma diff_fields added {A} (f : CodeIndexGraphDiff -> list A) :
  (forall a b, f (diff_app a b) = f a ++ f b) -> f diff_default = [] ->
  f (summed added) = concat (map f (contributions next [] previous)) ++ f (mk_diff added [] added [] [] [] [] [] [] 0).
Proof. intros Hf H0. unfold summed. by rewrite Hf, (field_of_sum _ _ Hf), H0. Qed.

Lemma removed_exact id : id ∈ concat (map removed_symbols (contributions next [] previous)) <->
  exists a p, previous !! a = Some p /\ s_id p = id /\ occ (identity p) next <= occ (identity p) (take a previous).
Proof.
  rewrite elem_of_contributions. unfold contribution. cbn [app]. split.
  - intros (a & p & Ha & Hx). exists a, p. revert Hx. destruct (partner next (take a previous) p) as [n |] eqn:Hp.
    { unfold diff_pair. destruct (symbol_linkage_fields_changed p n); by intros ?%not_elem_of_nil. }
    intros ->%list_elem_of_singleton. split; [done |]. split; [done |]. by apply partner_none.
  - intros (a & p & Ha & <- & Ho). exists a, p. split; [done |]. rewrite <- partner_none in Ho. rewrite Ho. by left.
Qed.

Lemma diff_added added : added_symbols (summed added) = added.
Proof.
  rewrite (diff_fields added added_symbols) by done.
  enough (concat (map added_symbols (contributions next [] previous)) = []) as -> by done.
  apply nil_by_elem. intros x (a & p & _ & Hx)%elem_of_contributions. revert Hx. unfold contribution.
  destruct (partner _ _ p) as [n |]; [unfold diff_pair; destruct (symbol_linkage_fields_changed p n) |];
    by intros ?%not_elem_of_nil.
Qed.

Lemma added_exact rest (added : list SymbolId) (id : SymbolId) : holds_left next previous rest ->
  (forall id, id ∈ added <-> exists j n, j ∈ concat (map snd (entries rest)) /\ next !! j = Some n /\ s_id n = id) ->
  id ∈ added <->
  exists j n, next !! j = Some n /\ s_id n = id /\ occ (identity n) previous <= occ (identity n) (take j next).
Proof.
  intros Hrest ->. split.
  - intros (j & n & Hj & Hn & <-). apply (elem_of_rest previous next rest j Hrest) in Hj as (n' & Hn' & Ho).
    exists j, n. split; [done |]. split; [done |]. by assert (n' = n) as -> by congruence.
  - intros (j & n & Hn & <- & Ho). exists j, n. split; [| done]. apply (elem_of_rest previous next rest j Hrest). by exists n.
Qed.

Lemma modified_exact id : id ∈ concat (map modified_symbols (contributions next [] previous)) <->
  exists p n, matched previous next p n /\ symbol_linkage_fields_changed p n = true /\ s_id n = id.
Proof.
  rewrite (elem_of_diff_pairs modified_symbols) by done. unfold diff_pair. split.
  - intros (p & n & Hm & Hx). exists p, n. revert Hx.
    destruct (symbol_linkage_fields_changed p n); [by intros ->%list_elem_of_singleton | by intros ?%not_elem_of_nil].
  - intros (p & n & Hm & Hc & <-). exists p, n. rewrite Hc. split; [done | by left].
Qed.

Lemma moved_exact id : id ∈ concat (map modified_inventory_symbols (contributions next [] previous)) <->
  exists p n, matched previous next p n /\ symbol_linkage_fields_changed p n = false /\
    symbol_inventory_fields_changed p n = true /\ s_id n = id.
Proof.
  rewrite (elem_of_diff_pairs modified_inventory_symbols) by done. unfold diff_pair. split.
  - intros (p & n & Hm & Hx). exists p, n. revert Hx.
    destruct (symbol_linkage_fields_changed p n); [by intros ?%not_elem_of_nil |]. cbn.
    destruct (symbol_inventory_fields_changed p n); [by intros ->%list_elem_of_singleton | by intros ?%not_elem_of_nil].
  - intros (p & n & Hm & Hc & Hi & <-). exists p, n. rewrite Hc, Hi. split; [done | by left].
Qed.

Lemma remapped_exact x y : (x, y) ∈ concat (map symbol_id_remaps (contributions next [] previous)) <->
  exists p n, matched previous next p n /\ symbol_linkage_fields_changed p n = false /\
    s_id p = x /\ s_id n = y /\ x <> y.
Proof.
  rewrite (elem_of_diff_pairs symbol_id_remaps) by done. unfold diff_pair. split.
  - intros (p & n & Hm & Hx). exists p, n. revert Hx.
    destruct (symbol_linkage_fields_changed p n); [by intros ?%not_elem_of_nil |]. cbn.
    destruct (bool_decide (s_id p = s_id n)) eqn:E; [by intros ?%not_elem_of_nil |].
    apply bool_decide_eq_false in E. by intros [= -> ->]%list_elem_of_singleton.
  - intros (p & n & Hm & Hc & <- & <- & Hne). exists p, n. rewrite Hc. cbn. rewrite bool_decide_false by done.
    split; [done | by left].
Qed.

Lemma diff_weight added :
  length (concat (map removed_symbols (contributions next [] previous))) +
    length (concat (map modified_symbols (contributions next [] previous))) +
    length (concat (map modified_inventory_symbols (contributions next [] previous))) +
    unchanged_symbols (summed added) = length previous.
Proof.
  pose proof (contributions_weight next previous [] diff_default) as Hw. change (weight diff_default) with 0 in Hw.
  rewrite Nat.add_0_l in Hw. rewrite <- Hw. unfold weight, summed. cbn [unchanged_symbols diff_app].
  rewrite (field_of_sum removed_symbols), (field_of_sum modified_symbols), (field_of_sum modified_inventory_symbols) by done.
  cbn [removed_symbols modified_symbols modified_inventory_symbols diff_default app]. lia.
Qed.
End fields.
End IncrementalFacts.

Module IncrementalTheorems.
Import EvalCore Snapshot Inventory InventoryStep PathSets WorkspaceRules WorkspaceEval SymbolRuleFacts IncrementalFacts.

(** C28: the difference of two versions of a file is a matching of their symbols by identity
    and rank: a symbol is removed when its rank among those of its identity is
    beyond the next version, added when it is beyond the previous one, modified when
    a field that linkage reads differs from its partner's, modified for the
    inventory when only its position or parent does, remapped when its partner has
    another id; each previous symbol is counted once, whatever order the maps
    iterate in, and the loop never indexes out of range. *)
Theorem diff_symbols_exact {HO : HashOrder} (previous next : list SymbolRecord) :
  exists d, diff_symbols previous next diff_default = Ok d /\
    (forall id, id ∈ removed_symbols d <->
       exists a p, previous !! a = Some p /\ s_id p = id /\ occ (identity p) next <= occ (identity p) (take a previous)) /\
    (forall id, id ∈ added_symbols d <->
       exists j n, next !! j = Some n /\ s_id n = id /\ occ (identity n) previous <= occ (identity n) (take j next)) /\
    (forall id, id ∈ modified_symbols d <->
       exists p n, matched previous next p n /\ symbol_linkage_fields_changed p n = true /\ s_id n = id) /\
    (forall id, id ∈ modified_inventory_symbols d <->
       exists p n, matched previous next p n /\ symbol_linkage_fields_changed p n = false /\
         symbol_inventory_fields_changed p n = true /\ s_id n = id) /\
    (forall x y, (x, y) ∈ symbol_id_remaps d <->
       exists p n, matched previous next p n /\ symbol_linkage_fields_changed p n = false /\
         s_id p = x /\ s_id n = y /\ x <> y) /\
    length (removed_symbols d) + length (modified_symbols d) + length (modified_inventory_symbols d) +
      unchanged_symbols d = length previous.
Proof.
  destruct (diff_symbols_ok previous next) as (rest & added & Hrest & Hadded & ->). eexists. split; [reflexivity |].
  fold (summed previous next added). rewrite (diff_fields previous next added removed_symbols) by done.
  rewrite (diff_fields previous next added modified_symbols) by done.
  rewrite (diff_fields previous next added modified_inventory_symbols) by done.
  rewrite (diff_fields previous next added symbol_id_remaps) by done.
  split; [intros id; rewrite app_nil_r; apply removed_exact |].
  split; [intros id; rewrite diff_added; by apply (added_exact previous next rest) |].
  rewrite !app_nil_r. split; [apply modified_exact |]. split; [apply moved_exact |].
  split; [apply remapped_exact | apply diff_weight].
Qed.

Section sets.
Context {R : Roaring} {RL : RoaringLaws R} {FX : FxHash} {RE : RegexEngine} {HO : HashOrder}.

End sets.
End IncrementalTheorems.

(** ** The runner *)

Module RunnerFacts.
Import Ast EvalCore ConfigData Config Syntax Suppress Snapshot Inventory LinkIndex WorkspaceRules GroupRules LinkageRules
  PathRules WorkspaceEval.
Abbreviation inventory := Indexed.inventory.

Section reports.
Context {R : Roaring} {RE : RegexEngine} {HO : HashOrder}.

Lemma fold_res_keeps {E A B C} (f : B -> A -> res E B) (g : B -> C) l :
  (forall b a b', f b a = Ok b' -> g b' = g b) -> forall b b', fold_res f b l = Ok b' -> g b' = g b.
Proof.
  intros Hf. induction l as [| a l IH]; intros b b'; cbn [fold_res]; [by intros [= ->] |].
  intros (b1 & H1 & H2)%bind_Ok. rewrite (IH _ _ H2). by apply Hf in H1.
Qed.

Lemma symbol_rules_quiet i U rules : forall acc, reports (evaluate_symbol_rules i U false rules acc).1 = reports acc.1.
Proof.
  unfold evaluate_symbol_rules. induction rules as [| rule rules IH]; intros [e c]; cbn [foldl]; [done |]. rewrite IH.
  unfold evaluate_symbol_rule. destruct (negb _); [done |].
  destruct (rule_outcome i U (sr_root rule) c) as [[truth violations] c1]. done.
Qed.

Lemma bucket_quiet i rule acc b acc' : evaluate_bucket i rule acc b = Ok acc' -> reports acc'.1.1 = reports acc.1.1.
Proof.
  destruct acc as [[e p] v]. unfold evaluate_bucket. intros (g & _ & H)%bind_Ok. injection H as <-. cbn.
  destruct (is_violation g); [| done]. by destruct (group_violation i rule g).
Qed.

Lemma group_quiet i U acc rule acc' : evaluate_group_rule i U false acc rule = Ok acc' -> reports acc'.1 = reports acc.1.
Proof.
  destruct acc as [e c]. unfold evaluate_group_rule. destruct (eval_node i U (gr_members rule) c) as [s c1].
  intros ([[e1 p] v] & H & H2)%bind_Ok. injection H2 as <-. cbn.
  by apply (fold_res_keeps _ (fun acc => reports acc.1.1) _ (bucket_quiet i rule)) in H.
Qed.

Lemma linkage_quiet index linkage U compiled e :
  reports (evaluate_linkage_rules index linkage U compiled false e) = reports e.
Proof.
  unfold evaluate_linkage_rules. generalize (∅ : gmap bytes SymbolSet).
  set (c := mk_context _ _ _ _). clearbody c. revert e.
  induction (List.filter _ _) as [| rule l IH]; intros e m; cbn [foldl]; [done |].
  unfold evaluate_linkage_rule at 2. destruct (linkage_node c (sr_root rule) (counts_default, m)) as [t [cov m1]].
  by rewrite IH.
Qed.

Lemma structure_quiet index linkage U compiled e e' :
  evaluate_structure index linkage U compiled false e = Ok e' -> reports e' = reports e.
Proof.
  unfold evaluate_structure. destruct (is_nil _); [by intros [= ->] |]. intros (ix & _ & H)%bind_Ok.
  apply (fold_res_keeps _ reports) in H; [done |]. intros e1 rule e2. unfold evaluate_structure_rule.
  intros (s & _ & H2)%bind_Ok. by injection H2 as <-.
Qed.

Lemma path_quiet index linkage ri U compiled e e' :
  evaluate_path_rules index linkage ri U compiled false e = Ok e' -> reports e' = reports e.
Proof.
  unfold evaluate_path_rules. destruct (is_nil _); [by intros [= ->] |]. intros ([e1 c1] & H & H2)%bind_Ok.
  injection H2 as <-. apply (fold_res_keeps _ (fun acc => reports acc.1)) in H; [done |].
  intros [e2 c2] rule [e3 c3]. unfold evaluate_path_step.
  destruct (eval_node _ U (pa_from rule) c2) as [f c4]. destruct (eval_node _ U (pa_to rule) c4) as [t c5].
  destruct (match pa_via rule with Some selector => _ | None => _ end) as [v c6].
  intros (o & _ & H3)%bind_Ok.
  destruct (po_verdict o) as [[] |], (path_anchor (inventory index) o f t v U) as [a |]; injection H3 as <- _; cbn; try done.
  unfold append_violation. by destruct (record (inventory index) a).
Qed.

(** Without reports, none is made. *)
Lemma full_quiet index linkage ri U compiled e :
  evaluate_workspace_rules_linked_in_current index linkage ri U compiled false = Ok e -> reports e = [].
Proof.
  unfold evaluate_workspace_rules_linked_in_current.
  intros (e1 & H1 & (e2 & H2 & (e3 & H3 & H4)%bind_Ok)%bind_Ok)%bind_Ok. injection H4 as <-. cbn.
  rewrite (path_quiet _ _ _ _ _ _ _ H3), (structure_quiet _ _ _ _ _ _ H2), linkage_quiet.
  unfold evaluate_workspace_rules_in in H1. apply bind_Ok in H1 as ([e4 c4] & H1 & H5). injection H5 as <-. cbn.
  unfold evaluate_groups in H1. apply (fold_res_keeps _ (fun acc => reports acc.1)) in H1;
    [| intros b a b'; apply group_quiet].
  cbn in H1. rewrite H1. apply (symbol_rules_quiet _ _ _ (evaluation_default, ∅)).
Qed.

Lemma incremental_quiet input r : evaluate_workspace_rules_incremental input = Ok r -> reports (ie_evaluation r) = [].
Proof.
  unfold evaluate_workspace_rules_incremental. destruct (dirty_symbol_sets _ _ _) as [pd cd].
  intros (e & _ & ([[results vs] n] & _ & H)%bind_Ok)%bind_Ok. by injection H as <-.
Qed.
End reports.
(** What the runner keeps holds no report. *)
Definition state_quiet {R : Roaring} (state : option WorkspaceEvaluationState) : Prop :=
  match state with Some s => reports (st_evaluation s) = [] | None => True end.

Section snapshot.
Context {R : Roaring} {RE : RegexEngine} {HO : HashOrder}.

Lemma snapshot_quiet index U compiled fp diff linkage ri previous e m : has_linkage_rules compiled = false ->
  state_quiet previous -> evaluate_workspace_snapshot index U compiled fp diff linkage ri previous = Ok (e, m) ->
  reports e = [].
Proof.
  intros Hl Hq. unfold evaluate_workspace_snapshot. rewrite Hl.
  assert (evaluate_workspace_full index linkage ri U compiled = Ok (e, m) -> reports e = []) as Hfull.
  { unfold evaluate_workspace_full. rewrite Hl. intros (e1 & H1 & H2)%bind_Ok. injection H2 as <- _. by apply full_quiet in H1. }
  destruct previous as [previous |]; [| exact Hfull]. destruct (negb _); [exact Hfull |].
  destruct (_ =? _)%N; [intros [= <- _]; exact Hq |].
  destruct (diff _) as [[base d] |]; [| exact Hfull]. destruct (negb _); [exact Hfull |].
  intros (r & H1 & H2)%bind_Ok. injection H2 as <- _. by apply incremental_quiet in H1.
Qed.

(** The same snapshot again, from the state that the first evaluation left. *)
Lemma snapshot_again index U compiled fp diff linkage ri previous e m :
  state_quiet previous -> evaluate_workspace_snapshot index U compiled fp diff linkage ri previous = Ok (e, m) ->
  exists e' m', evaluate_workspace_snapshot index U compiled fp diff linkage ri
      (Some (mk_state (Indexed.ci_generation index) fp (Indexed.inventory index) U
         (mk_evaluation (we_violations e) (violation_sets e) (groups e) []))) = Ok (e', m') /\
    we_violations e' = we_violations e /\ violation_sets e' = violation_sets e /\ groups e' = groups e /\
    reports e' = reports e /\
    (has_linkage_rules compiled = false -> m' = mk_evaluation_metrics Incremental 0 0 0).
Proof.
  intros Hq H. destruct (has_linkage_rules compiled) eqn:Hl.
  - exists e, m. split; [| by split_and!]. unfold evaluate_workspace_snapshot in *. by rewrite Hl in *.
  - pose proof (snapshot_quiet _ _ _ _ _ _ _ _ _ _ Hl Hq H) as Hr. unfold evaluate_workspace_snapshot. rewrite Hl.
    cbn [fingerprint st_index_generation st_evaluation]. rewrite beq_refl, N.eqb_refl. cbn [negb].
    eexists _, _. split; [reflexivity |]. cbn. by rewrite Hr.
Qed.

Lemma lift_Ok {E A} (m : res Empty_set A) (a : A) : lift (E:=E) m = Ok a <-> m = Ok a.
Proof. apply map_err_Ok. Qed.
End snapshot.

Section run.
Context {R : Roaring} {RE : RegexEngine} {HO : HashOrder} {DR : DirectiveRegex} {T : Toml} {TS : TreeSitter}
  {PS : Parsers TS} {L2 : Log2}.

Lemma collect_again cfg scheme excluded fp by_identity files index diff linkage ri previous c :
  state_quiet previous ->
  collect_diagnostics cfg scheme excluded fp by_identity files index diff linkage ri previous = Ok c ->
  state_quiet (Some (collected_state c)) /\ st_index_generation (collected_state c) = Indexed.ci_generation index /\
  exists c', collect_diagnostics cfg scheme excluded fp by_identity files index diff linkage ri
      (Some (collected_state c)) = Ok c' /\
    collected_diagnostics c' = collected_diagnostics c /\ collected_reports c' = collected_reports c /\
    collected_state c' = collected_state c /\
    forall compiled, compile_workspace_rules cfg scheme = Ok compiled -> has_linkage_rules compiled = false ->
      collected_metrics c' = mk_evaluation_metrics Incremental 0 0 0.
Proof.
  intros Hq H. unfold collect_diagnostics in *. apply bind_Ok in H as ([diags rules] & H1 & H).
  apply bind_Ok in H as (compiled & H2 & H). apply bind_Ok in H as ([e m] & H3 & H).
  apply lift_Ok in H3. destruct (snapshot_again _ _ _ _ _ _ _ _ _ _ Hq H3) as (e' & m' & Hs & Hv & Hvs & Hg & Hr & Hm).
  injection H as <-. cbn [collected_state collected_diagnostics collected_reports collected_metrics].
  split; [done |]. split; [done |].
  rewrite H1. cbn [mbind res_bind]. rewrite H2. cbn [mbind res_bind]. unfold lift. rewrite Hs. cbn [map_err mbind res_bind].
  eexists. split; [reflexivity |]. cbn [collected_state collected_diagnostics collected_reports collected_metrics].
  rewrite Hv, Hvs, Hg, Hr. split; [done |]. split; [done |]. split; [done |].
  intros compiled' H4 H5. apply Hm. congruence.
Qed.

End run.
End RunnerFacts.

(** ** A change of one file *)

Module IncrementalSamples.
Import EvalCore Snapshot Inventory InventoryInv InventoryStep PathSets WorkspaceRules WorkspaceEval SymbolRuleFacts
  IncrementalFacts IncrementalTheorems CheckFacts InventoryTheorems SymbolRuleTheorems.
#[local] Existing Instances GsetRoaring.gset_roaring GsetRoaring.gset_roaring_laws one_hash Sample.plain_order.

Definition refreshed (i : SymbolInventoryIndex) (sources : list SourceFileRecord) (t : RecordTable SymbolRecord)
    (changed : list nat) : SymbolInventoryIndex :=
  match refresh (E:=()) i 2%N sources t changed with Ok i => i | _ => empty 0%N end.

Lemma refreshed_ok i sources t changed :
  (match refresh (E:=()) i 2%N sources t changed with Ok _ => true | _ => false end) = true ->
  refresh (E:=()) i 2%N sources t changed = Ok (refreshed i sources t changed).
Proof. unfold refreshed. by destruct (refresh i 2%N sources t changed). Qed.

Definition sample_diff : CodeIndexGraphDiff :=
  match diff_symbols (file_records before 0) (file_records after 0) diff_default with Ok d => d | _ => diff_default end.

Definition next_index : SymbolInventoryIndex := refreshed sample_index sample_sources after [0].

Definition sample_dirty : SymbolSet * SymbolSet := dirty_symbol_sets sample_index next_index sample_diff.

Lemma next_coherent : coherent next_index.
Proof.
  refine (proj1 (proj1 (InventoryFacts.RefreshFacts.reached_holds next_index sample_sources after _))).
  apply (InventoryFacts.RefreshFacts.reached_refresh sample_index 2%N sample_sources before sample_sources after [0]).
  - exact sample_reached.
  - apply table_check_ok. vm_compute. reflexivity.
  - exact sample_only_changed.
  - vm_compute. reflexivity.
  - apply refreshed_ok. vm_compute. reflexivity.
Qed.

(** The records of a list of ordinals. *)
Lemma listed (s : SymbolSet) (P : SymbolOrdinal -> Prop) l : set_iter s = l -> Forall P l ->
  forall o, set_contains s o = true -> P o.
Proof. intros <- H o Ho. rewrite Forall_forall in H. by apply H, in_iter. Qed.

Definition clean_ok (o : SymbolOrdinal) : Prop := set_contains sample_dirty.2 o = false ->
  set_contains sample_dirty.1 o = false /\ set_contains (all_symbols sample_index) o = true /\
  record sample_index o = record next_index o.

Lemma sample_clean o : set_contains (all_symbols next_index) o = true -> clean_ok o.
Proof.
  apply (listed _ _ [1; 2; 3]%N); [vm_compute; reflexivity |].
  constructor; [intros H; vm_compute in H; discriminate H |].
  constructor; [intros _; split; [vm_compute; reflexivity |]; split; vm_compute; reflexivity |].
  constructor; [intros H; vm_compute in H; discriminate H | constructor].
Qed.

Definition again_ok (o : SymbolOrdinal) : Prop := set_contains (all_symbols next_index) o = true /\
  (set_contains (all_symbols sample_index) o = true ->
   set_contains sample_dirty.1 o = true \/ record sample_index o = record next_index o).

Lemma sample_again o : set_contains sample_dirty.2 o = true -> again_ok o.
Proof.
  apply (listed _ _ [1; 3]%N); [vm_compute; reflexivity |].
  constructor; [split; [vm_compute; reflexivity |]; intros _; left; vm_compute; reflexivity |].
  constructor; [split; [vm_compute; reflexivity |]; intros H; vm_compute in H; discriminate H | constructor].
Qed.


(** Two files that declare a symbol of the same identity, before and after the first
    one loses its visibility. *)
Definition twin (file : nat) (visible : string) : SymbolRecord :=
  let s := sample_symbol file 0 "class:Shop" "Shop" None in
  mk_symbol None (s_id s) (s_source s) (identity s) (s_name s) (s_kind s) (bs visible) [] None None true None None.

Definition twins_before : RecordTable SymbolRecord := from_shards [[twin 0 "public"]; [twin 1 "public"]].
Definition twins_after : RecordTable SymbolRecord := from_shards [[twin 0 "private"]; [twin 1 "public"]].

Definition twins_index : SymbolInventoryIndex :=
  match build (E:=()) 1%N sample_sources twins_before with Ok i => i | _ => empty 0%N end.
Definition twins_next : SymbolInventoryIndex := refreshed twins_index sample_sources twins_after [0].

Definition twins_rules : CompiledWorkspaceRules :=
  match sample_compile "renamed" "name != 'Shop'" with
  | Ok rule => mk_workspace_rules [rule] [] [] 100
  | _ => mk_workspace_rules [] [] [] 100
  end.

(** The symbols that violate, and the sets kept. *)
Definition shown (m : res Empty_set WorkspaceEvaluation) : option (list (option SymbolId) * list (list SymbolOrdinal)) :=
  match m with
  | Ok e => Some (map v_symbol (we_violations e), map (fun p => set_iter p.2) (map_to_list (violation_sets e)))
  | _ => None
  end.

Definition twins_full : res Empty_set WorkspaceEvaluation := evaluate_workspace_rules twins_next twins_rules false.

Definition twins_incremental : res Empty_set WorkspaceEvaluation :=
  previous ← evaluate_workspace_rules twins_index twins_rules false;
  diff ← diff_symbols (file_records twins_before 0) (file_records twins_after 0) diff_default;
  incremental ← evaluate_workspace_rules_incremental
    (mk_incremental_input twins_index twins_next (all_symbols twins_index) (all_symbols twins_next) diff twins_rules previous);
  mret (ie_evaluation incremental).

(** ** Two checks of one workspace *)

Section checks.
Import ConfigData Config Syntax Suppress SuppressFacts LinkageRules PathRules Sample RunnerFacts.
#[local] Existing Instances chain_parsers flat_log2 start_of_line_regex.
#[local] Instance no_toml : Toml :=
  {| TomlValue := (); TomlTable := (); as_table _ := None; table_get _ _ := None; toml_str _ := None;
     as_array _ := None |}.

Definition checked_config : Config :=
  mk_config None None None ∅ [] []
    (mk_workspace None (mk_kind_rules [sample_entry "public" "name != 'Shop'"] None None) [] [] []) ∅
    (mk_lang_rules ∅ ∅) (fun _ => mk_lang_rules ∅ ∅) ∅ [] [] ∅.

Definition checked_index : Indexed.CodeIndex := Indexed.mk_code_index 1%N 1%N (bs "code+moniker://") sample_sources before
  (from_records []) sample_index.

Definition checked_linkage : LinkageSnapshot :=
  mk_linkage 1%N 1%N 0 0 0 0 0 0 0 0 [] [] [] [] [] [] [].

Definition checked_file (path : string) : IndexedSourceFile := mk_indexed_file (bs path) Lang.Rs graph_ (bs "class Shop {}").

Definition check_once (g : ResourceGeneration) (state : option WorkspaceEvaluationState) :
    res CheckError (WorkspaceRuleDiagnostics * option WorkspaceEvaluationState) :=
  run_check (Ok checked_config) (bs "code+moniker://") (fun _ _ => false) (fun _ _ => bs "rules")
    (Some (mk_material ∅ [checked_file "a.rs"; checked_file "b.rs"])) (fun _ => None) g checked_index checked_linkage None state.

Definition check_shown (r : res CheckError (WorkspaceRuleDiagnostics * option WorkspaceEvaluationState)) :
    option (nat * WorkspaceEvaluationMetrics) :=
  match r with Ok (d, _) => Some (length (diagnostics d), dgs_evaluation d) | _ => None end.

Lemma check_succeeds : exists d state, check_once 5%N None = Ok (d, state) /\ length (diagnostics d) = 1.
Proof.
  assert (check_shown (check_once 5%N None) = Some (1, mk_evaluation_metrics Full 3 3 0)) as H by (vm_compute; reflexivity).
  destruct (check_once 5%N None) as [[d state] | | |]; [| discriminate H..]. exists d, state. split; [reflexivity |].
  cbn in H. by injection H.
Qed.

End checks.
End IncrementalSamples.
